(* ===== verification/_CoqProject ===== *)
-Q . S2P
Prelude.v
Ieee.v
Model.v
Keys.v
KeysOrder.v
KeysCodec.v
Cbor.v
Values.v
Canonical.v
Records.v
GraphKeys.v
Schema.v
Store.v
Chunker.v
Node.v
Tree.v
Manifest.v
TreeQueue.v
TreeSpec.v
TreeNodes.v
TreeRead.v
TreeBuild.v
TreeLevels.v
TreeContent.v
TreeBatch.v
Prolly.v
Diff.v
DiffRun.v
MapDiff.v
MapMerge.v
Scan.v
ScanRun.v
Walk.v
WalkRun.v
Verify.v
VerifyRun.v
Graph.v
GraphRun.v
CellMerge.v
GraphMerge.v
GraphMergeRun.v
GraphIndex.v
GraphIndexRun.v
Conflicts.v
ConflictsRun.v
Governor.v
RefNs.v
Constraints.v
ConstraintsRun.v
MergeValidate.v
MergeValidateRun.v
MergeManifestsRun.v
Transaction.v
TransactionStage.v
TransactionChecks.v
TransactionRun.v
Snapshot.v
SnapshotRun.v
SnapshotDiff.v
CypherValue.v
CypherCompare.v
CypherDistinct.v
CypherExpr.v
CypherSource.v
CypherOps.v
CypherFunctions.v
CypherEval.v
CypherProject.v
CypherRun.v
CypherSim.v
CypherExec.v
CypherTotal.v
CypherMeaning.v
CypherRows.v
CypherMatch.v
CypherOverlay.v
CypherWrites.v
CypherAdapter.v
CypherSeek.v
CypherSamples.v
