(* ===== verification/Prelude.v ===== *)
(** * acetone: a verification library

    acetone is a versioned property graph: graph data lives in prolly trees
    (content-addressed, history-independent search trees) whose chunks are git
    objects, a manifest names the roots of one version, and openCypher queries
    run over it.  This library models the crates that decide what is stored and
    how versions combine, and proves what they promise each other.  Paths below
    are relative to src/crates.

    ** Conventions

    Rust's [Result] is [result], with [let?] for the question mark; code that
    writes chunks is a function of the store ([st], with [let!]).  Strings are
    their UTF-8 bytes, byte strings are lists of [Byte.byte], integers are [Z]
    with their width written out, an f64 is its bit pattern, a [BTreeMap] is a
    [gmap] (its order is the order of the sorted key list where the code
    depends on it).  The chunk store is the class [ChunkStore] with the laws
    [ChunkStoreLaws] of a content-addressed store (Store); every theorem about
    stored trees is proved for any such store, and the witnesses instantiate it
    with an executable in-memory store.  Loops of the code that are not
    structurally recursive take fuel; the theorems say how much is enough and
    that the result does not depend on it, and a model that runs out returns an
    error no theorem allows.  A proof about a whole operation is stated with
    [wp] (map layer) or [gwp] (graph layer): the operation only adds chunks,
    and fails only as the store fails.

    ** Parts, from the bottom up

    - Prelude: results, state passing, byte orders, big-endian framing, lists.
    - Ieee, Model (acetone-model/lib.rs): doubles as bit patterns, values,
      temporal types, well-formedness.
    - Keys, KeysOrder, KeysCodec (acetone-model/keys.rs): the memcomparable key
      encoding; byte order is value order, decoding inverts encoding, and an
      accepted input is the unique encoding of what it decodes to.
    - Cbor, Values, Canonical, Records (cbor.rs, values.rs, records.rs):
      canonical CBOR of values and records, with round trip and canonicity.
    - GraphKeys, Schema, Manifest (graph_keys.rs, schema.rs, manifest.rs):
      node, edge and index keys and their scan prefixes; schema entries,
      declared types, surrogate identifiers; the manifest and its version gate.
    - Store (acetone-store/store.rs, hash.rs), Chunker, Node, Tree
      (acetone-prolly/chunker.rs, node.rs, tree.rs): the rolling-hash chunker,
      the node codec, bulk load, batched update and lookup.  TreeQueue,
      TreeSpec, TreeNodes, TreeRead, TreeBuild, TreeLevels, TreeContent and
      TreeBatch carry the proofs: the abstract tree of a map, that the work
      queue computes it, that stored chunks read back as it.  Prolly states
      the results: [describes s R M], root [R] denotes the finite map [M] in
      store [s], is what every operation is specified against.
    - Diff, DiffRun, MapDiff (diff.rs), MapMerge (merge.rs), Scan,
      ScanRun (scan.rs), Walk, WalkRun (walk.rs), Verify, VerifyRun (verify.rs):
      structural diff, three-way map merge, scans in both directions, chunk
      enumeration and estimates, the integrity walk.  The *Run files hold the
      proofs about a model in the file they are named after.
    - Graph, GraphRun: errors and scan loops of acetone-graph, and the rules
      that turn a scan loop into a fold over a map's entries.
    - CellMerge, GraphMerge, GraphMergeRun (acetone-graph/cell_merge.rs,
      merge.rs): the cell-wise merge of records and of one graph map, and the
      derived reverse edge map.
    - GraphIndex, GraphIndexRun (index.rs): index entries, full builds and the
      delta of a transaction.
    - Conflicts, ConflictsRun (conflicts.rs): the persisted conflicts map.
    - RefNs (refns.rs): which references a graph of a repository owns.
    - Constraints, ConstraintsRun (constraints.rs): existence, type and
      uniqueness checks; the streamed check of a label and the check of one
      write give what the check of the whole node set gives.
    - MergeValidate, MergeValidateRun, MergeManifestsRun (merge.rs): the
      validation of a merged graph and the merge of two manifests; a merge is
      clean exactly when the whole merged graph is valid and nothing conflicts.
    - Transaction, TransactionStage, TransactionChecks, TransactionRun
      (repo.rs): staging, the checks of a save, and the save of a manifest in
      place; [save_spec] says it applies what was staged and keeps the reverse
      map and the indexes in step, or refuses truthfully.  The indexes stay in
      step unless the save declares or undeclares the own label of a node under
      a kept index: [fresh_label_leaves_stale_index] says what happens then, and
      [reindex_spec] that a rebuild puts it right.
    - Snapshot, SnapshotRun, SnapshotDiff (repo.rs, diff.rs): the reads of a
      version, index probes, incident edges, the classified difference of two
      versions, and the chunks of one.
    - Governor (acetone-cypher/exec/governor.rs): the budget of a query.
    - CypherValue, CypherCompare, CypherDistinct (exec/value.rs):
      runtime values; the ternary comparisons, the global order and the hash
      keys of DISTINCT agree, and where the order fails to be one.
    - CypherExpr (bind/bound.rs, ast.rs): bound queries.  CypherSource
      (exec/source.rs, write.rs): the record [GraphSource] of the trait, the
      in-memory graph, the overlay of pending writes; the class [Effects] of
      what the executor may do - charge the budget, read through the memo,
      mint an identifier.  CypherOps, CypherFunctions, CypherEval (exec/eval.rs,
      functions.rs), CypherProject, CypherRun (exec/run.rs): operators,
      functions, evaluation, pattern matching, projection and the clause
      pipeline, over any instance of [Effects].
    - CypherSim, CypherExec, CypherTotal, CypherMeaning: the executor's machine
      (governor, clock and memo) simulates the plain one (none of them), so
      budget and memo never change an answer; and every query over finite
      graphs ends.  What a query means is its run on the plain machine.
    - CypherRows, CypherMatch: on the plain machine, what projection, grouping,
      DISTINCT, ORDER BY, the early end of UNWIND and MATCH compute.  Grouping,
      DISTINCT and ORDER BY are characterised for integers below 2^53 in
      magnitude, beyond which the code's keys and its order disagree with its
      equality; ending an UNWIND early changes no answer but may spare an error.
    - CypherOverlay, CypherWrites: a query that writes reads the
      graph its writes would have made in place, and the change set it hands
      on is the net effect of them.
    - CypherAdapter (exec/adapter.rs), CypherSeek: a stored version as a source,
      with its indexes; its equality and range seeks leave out no node a scan
      would find, integers and floats compared by value.  Boolean and list
      bounds, and keys of nodes that bear the label besides their own, are
      the exceptions (the last lemmas of CypherSamples).
    - CypherSamples: these theorems at small graphs.

    ** Fuel and bounds

    Trees have at most 64 levels ([MAX_HEIGHT], from the source); maps are
    limited to 2^62 entries, which no store can exceed; keys and values are
    limited to u32 lengths, as the node codec enforces.  A scan loop needs one
    unit of fuel more than the map has entries.  The evaluator
    takes two fuels: one bounds the nesting of expressions, one the turns of a
    variable-length walk; [query_ends] proves that enough of both exists for
    every query over finite graphs and that more changes nothing.  Running out
    is the error [XFuel], which the code does not have.

    ** Parameters

    What comes from outside is an argument: the chunk store, the hash, the
    clock and random bytes, and of the Rust library the text of floats and of
    Debug, float parsing, case conversion and powf (the class [Std]).  Sort is
    used through its contract, a stable sort.

    ** Not modelled

    The git-backed store (object and pack formats, consolidation) and the
    repository's references, commits, locks and imports are sequences of calls
    into gix and the operating system.  The lexer, parser and binder of Cypher,
    the source that reads the store as it goes and the write-back of a change
    set (exec/store_source.rs, persist.rs, session.rs), the command line and
    the server are left out: see the component list of the manifest.
    Text rendered for people (the Display implementations) is left out
    throughout. *)
From stdpp Require Export base list gmap sorting numbers strings.
From Stdlib Require Import ZArith Lia.
From Stdlib Require Export Strings.Byte.

#[global] Set Default Goal Selector "!".
#[export] Set Warnings "-notation-overridden".

(** ** Results: Rust's [Result<A, E>], with the [?] operator *)

Inductive result (E A : Type) : Type :=
| Ok (a : A)
| Err (e : E).
Arguments Ok {E A} _.
Arguments Err {E A} _.

Definition rbind {E A B : Type} (m : result E A) (f : A -> result E B) : result E B :=
  match m with
  | Ok a => f a
  | Err e => Err e
  end.

(** [Result::map_err], also the [From] conversion the [?] operator applies. *)
Definition map_err {E F A : Type} (f : E -> F) (m : result E A) : result F A :=
  match m with
  | Ok a => Ok a
  | Err e => Err (f e)
  end.

Definition is_ok {E A : Type} (m : result E A) : bool :=
  match m with Ok _ => true | Err _ => false end.

Declare Scope result_scope.
Delimit Scope result_scope with result.
Notation "'let?' x := m 'in' k" := (rbind m (fun x => k))
  (at level 10, x name, m at level 100, k at level 200) : result_scope.
Notation "'let?' ' p := m 'in' k" := (rbind m (fun p => k))
  (at level 10, p strict pattern, m at level 100, k at level 200) : result_scope.
Open Scope result_scope.

Lemma rbind_Ok {E A B : Type} (m : result E A) (f : A -> result E B) (b : B) :
  rbind m f = Ok b <-> exists a, m = Ok a /\ f a = Ok b.
Proof.
  destruct m as [a|e]; simpl; split.
  - intros H. by exists a.
  - intros (a' & [= ->] & H). done.
  - done.
  - by intros (a' & H & _).
Qed.

Lemma map_err_Ok {E F A : Type} (f : E -> F) (m : result E A) (a : A) :
  map_err f m = Ok a <-> m = Ok a.
Proof. destruct m; simpl; split; congruence. Qed.

Lemma Ok_inj {E A : Type} (a b : A) : @Ok E A a = Ok b -> a = b.
Proof. by intros [= ->]. Qed.
Lemma pair_inj' {A B : Type} (a c : A) (b d : B) : (a, b) = (c, d) -> a = c /\ b = d.
Proof. by intros [= -> ->]. Qed.

(** Split every [let?] that is known to have succeeded. *)
Ltac rinv :=
  repeat match goal with
  | H : rbind _ _ = Ok _ |- _ =>
      let a := fresh "a" in let Ha := fresh "Ha" in
      apply rbind_Ok in H as (a & Ha & H)
  | H : map_err _ _ = Ok _ |- _ => apply map_err_Ok in H
  | H : Ok _ = Ok _ |- _ => apply Ok_inj in H
  | H : (_, _) = (_, _) |- _ => apply pair_inj' in H as [? ?]
  | H : Err _ = Ok _ |- _ => discriminate H
  | H : Ok _ = Err _ |- _ => discriminate H
  end.

(** ** Fallible computations over a store

    A computation reads and changes a state and may fail; after a failure the
    state it leaves is still there. *)

Definition st (S E A : Type) : Type := S -> result E A * S.

Definition st_ret {S E A : Type} (a : A) : st S E A := fun s => (Ok a, s).

Definition st_bind {S E A B : Type} (m : st S E A) (f : A -> st S E B) : st S E B :=
  fun s =>
    match m s with
    | (Ok a, s) => f a s
    | (Err e, s) => (Err e, s)
    end.

(** A computation that only reads the state. *)
Definition st_read {S E A : Type} (f : S -> result E A) : st S E A := fun s => (f s, s).

Notation "'let!' x := m 'in' k" := (st_bind m (fun x => k))
  (at level 10, x name, m at level 100, k at level 200) : result_scope.
Notation "'let!' ' p := m 'in' k" := (st_bind m (fun p => k))
  (at level 10, p strict pattern, m at level 100, k at level 200) : result_scope.

Lemma st_bind_Ok {S E A B : Type} (m : st S E A) (f : A -> st S E B) s b s' :
  st_bind m f s = (Ok b, s') <-> exists a s1, m s = (Ok a, s1) /\ f a s1 = (Ok b, s').
Proof.
  unfold st_bind. destruct (m s) as [[a|e] s1]; split.
  - intros H. by exists a, s1.
  - by intros (a' & s1' & [= -> ->] & H).
  - done.
  - by intros (a' & s1' & [=] & H).
Qed.

(** ** Orderings: [std::cmp::Ordering] and [then_with] *)

Definition cmp_then (c d : comparison) : comparison :=
  match c with Eq => d | _ => c end.

Lemma cmp_then_assoc c d e : cmp_then c (cmp_then d e) = cmp_then (cmp_then c d) e.
Proof. by destruct c. Qed.

Lemma cmp_then_Eq_r c : cmp_then c Eq = c.
Proof. by destruct c. Qed.

Lemma cmp_then_Eq c d : cmp_then c d = Eq <-> c = Eq /\ d = Eq.
Proof. destruct c, d; simpl; intuition congruence. Qed.

(** Lexicographic order on lists: Rust's [Ord] for slices. *)
Section list_cmp.
Context {A : Type} (c : A -> A -> comparison).

Fixpoint list_cmp (l k : list A) : comparison :=
  match l, k with
  | [], [] => Eq
  | [], _ :: _ => Lt
  | _ :: _, [] => Gt
  | x :: l, y :: k => cmp_then (c x y) (list_cmp l k)
  end.

Hypothesis c_eq : forall x y, c x y = Eq <-> x = y.
Hypothesis c_sym : forall x y, c y x = CompOpp (c x y).
Hypothesis c_trans : forall x y z, c x y = Lt -> c y z = Lt -> c x z = Lt.

Lemma list_cmp_refl l : list_cmp l l = Eq.
Proof.
  induction l as [|x l IH]; simpl; [done|].
  by rewrite (proj2 (c_eq x x) eq_refl).
Qed.

Lemma list_cmp_eq l k : list_cmp l k = Eq <-> l = k.
Proof.
  split; [|intros ->; apply list_cmp_refl].
  revert k. induction l as [|x l IH]; intros [|y k]; simpl; try done.
  rewrite cmp_then_Eq. intros [H1 H2]. apply c_eq in H1. f_equal; auto.
Qed.

Lemma list_cmp_sym l k : list_cmp k l = CompOpp (list_cmp l k).
Proof.
  revert k. induction l as [|x l IH]; intros [|y k]; simpl; try done.
  rewrite c_sym, IH. by destruct (c x y).
Qed.

Lemma list_cmp_trans l k m :
  list_cmp l k = Lt -> list_cmp k m = Lt -> list_cmp l m = Lt.
Proof.
  revert k m. induction l as [|x l IH]; intros [|y k] [|z m]; simpl; try done.
  destruct (c x y) eqn:Exy, (c y z) eqn:Eyz; simpl; try done; intros H1 H2.
  - apply c_eq in Exy, Eyz. subst. rewrite (proj2 (c_eq z z) eq_refl). simpl.
    by apply (IH k).
  - apply c_eq in Exy. subst. by rewrite Eyz.
  - apply c_eq in Eyz. subst. by rewrite Exy.
  - by rewrite (c_trans x y z).
Qed.

Lemma list_cmp_app_same p l k : list_cmp (p ++ l) (p ++ k) = list_cmp l k.
Proof.
  induction p as [|x p IH]; simpl; [done|].
  by rewrite (proj2 (c_eq x x) eq_refl).
Qed.

Lemma list_cmp_app p q l k :
  length p = length q ->
  list_cmp (p ++ l) (q ++ k) = cmp_then (list_cmp p q) (list_cmp l k).
Proof.
  revert q. induction p as [|x p IH]; intros [|y q]; simpl; try done.
  intros [= H]. rewrite IH by done. by rewrite cmp_then_assoc.
Qed.
End list_cmp.

(** ** Lists *)

Lemma cons_eq_inv {A : Type} (x y : A) l k : x :: l = y :: k -> x = y /\ l = k.
Proof. by intros [= -> ->]. Qed.

Lemma Forall_concat_map {A B : Type} (P : B -> Prop) (f : A -> list B) l x :
  Forall P (concat (map f l)) -> x ∈ l -> Forall P (f x).
Proof.
  intros H Hx. induction l as [|y l IH]; [by apply elem_of_nil in Hx|].
  cbn [map concat] in H. apply Forall_app in H as [H1 H2].
  apply elem_of_cons in Hx as [-> | Hx]; auto.
Qed.

Lemma list_filter_none {A : Type} (P : A -> Prop) `{!forall x, Decision (P x)} l :
  Forall (fun x => ~ P x) l -> filter P l = [].
Proof.
  induction 1 as [|x l Hx _ IH]; [done|]. by rewrite filter_cons_False.
Qed.

(** ** Bytes: Rust's [u8] *)

#[global] Instance byte_eq_dec : EqDecision byte := Byte.byte_eq_dec.

Definition b2z (b : byte) : Z := Z.of_N (Byte.to_N b).

(** The truncating cast [as u8]. *)
Definition z2b (z : Z) : byte :=
  match Byte.of_N (Z.to_N (z `mod` 256)) with
  | Some b => b
  | None => x00
  end.

Abbreviation bytes := (list byte).

Lemma b2z_range b : (0 <= b2z b < 256)%Z.
Proof. unfold b2z. pose proof (Byte.to_N_bounded b). lia. Qed.

Lemma b2z_inj a b : b2z a = b2z b -> a = b.
Proof.
  unfold b2z. intros H%N2Z.inj.
  pose proof (Byte.of_to_N a) as Ha. pose proof (Byte.of_to_N b) as Hb.
  rewrite H in Ha. congruence.
Qed.

Lemma b2z_z2b z : b2z (z2b z) = (z `mod` 256)%Z.
Proof.
  unfold z2b. pose proof (Z.mod_pos_bound z 256 ltac:(lia)) as Hb.
  destruct (Byte.of_N (Z.to_N (z `mod` 256))) as [b|] eqn:E.
  - apply Byte.to_of_N in E. unfold b2z. rewrite E. lia.
  - apply Byte.of_N_None_iff in E. lia.
Qed.

Lemma z2b_b2z b : z2b (b2z b) = b.
Proof.
  apply b2z_inj. rewrite b2z_z2b. apply Z.mod_small, b2z_range.
Qed.

Definition byte_cmp (a b : byte) : comparison := (b2z a ?= b2z b)%Z.
Definition bytes_cmp : bytes -> bytes -> comparison := list_cmp byte_cmp.
Arguments bytes_cmp : simpl never.
Arguments byte_cmp : simpl never.
Definition bytes_eqb (a b : bytes) : bool := bool_decide (a = b).

(** [a < b] and [a <= b] on byte slices. *)
Definition bytes_ltb (a b : bytes) : bool :=
  match bytes_cmp a b with Lt => true | _ => false end.
Definition bytes_leb (a b : bytes) : bool :=
  match bytes_cmp a b with Gt => false | _ => true end.

Lemma byte_cmp_eq a b : byte_cmp a b = Eq <-> a = b.
Proof.
  unfold byte_cmp. rewrite Z.compare_eq_iff. split; [apply b2z_inj|]. by intros ->.
Qed.
Lemma byte_cmp_sym a b : byte_cmp b a = CompOpp (byte_cmp a b).
Proof. apply Z.compare_antisym. Qed.
Lemma byte_cmp_trans a b c : byte_cmp a b = Lt -> byte_cmp b c = Lt -> byte_cmp a c = Lt.
Proof. unfold byte_cmp. rewrite !Z.compare_lt_iff. lia. Qed.


Lemma bytes_cmp_refl a : bytes_cmp a a = Eq.
Proof. apply list_cmp_refl, byte_cmp_eq. Qed.
Lemma bytes_cmp_eq a b : bytes_cmp a b = Eq <-> a = b.
Proof. apply list_cmp_eq, byte_cmp_eq. Qed.
Lemma bytes_cmp_sym a b : bytes_cmp b a = CompOpp (bytes_cmp a b).
Proof. apply list_cmp_sym, byte_cmp_sym. Qed.
Lemma bytes_cmp_trans a b c :
  bytes_cmp a b = Lt -> bytes_cmp b c = Lt -> bytes_cmp a c = Lt.
Proof. apply (list_cmp_trans byte_cmp byte_cmp_eq byte_cmp_trans). Qed.
Lemma bytes_cmp_app_same p a b : bytes_cmp (p ++ a) (p ++ b) = bytes_cmp a b.
Proof. apply list_cmp_app_same, byte_cmp_eq. Qed.
Lemma bytes_cmp_app p q a b :
  length p = length q ->
  bytes_cmp (p ++ a) (q ++ b) = cmp_then (bytes_cmp p q) (bytes_cmp a b).
Proof. apply list_cmp_app. Qed.
Lemma bytes_cmp_cons x y a b :
  bytes_cmp (x :: a) (y :: b) = cmp_then (byte_cmp x y) (bytes_cmp a b).
Proof. done. Qed.

(** The strict order as a relation, for sorted lists of keys. *)
Definition bytes_lt (a b : bytes) : Prop := bytes_cmp a b = Lt.
Definition bytes_le (a b : bytes) : Prop := bytes_cmp a b <> Gt.

#[global] Instance bytes_lt_dec a b : Decision (bytes_lt a b).
Proof. unfold bytes_lt. solve_decision. Defined.
#[global] Instance bytes_le_dec a b : Decision (bytes_le a b).
Proof. unfold bytes_le. solve_decision. Defined.

#[global] Instance bytes_lt_strict : StrictOrder bytes_lt.
Proof.
  split.
  - intros a H. unfold bytes_lt in H. by rewrite bytes_cmp_refl in H.
  - intros a b c. apply bytes_cmp_trans.
Qed.

Lemma bytes_ltb_lt a b : bytes_ltb a b = true <-> bytes_lt a b.
Proof. unfold bytes_ltb, bytes_lt. by destruct (bytes_cmp a b). Qed.
Lemma bytes_leb_le a b : bytes_leb a b = true <-> bytes_le a b.
Proof. unfold bytes_leb, bytes_le. by destruct (bytes_cmp a b). Qed.
Lemma bytes_ltb_ge a b : bytes_ltb a b = false <-> bytes_le b a.
Proof.
  unfold bytes_ltb, bytes_le. rewrite (bytes_cmp_sym a b). by destruct (bytes_cmp a b).
Qed.
Lemma bytes_leb_gt a b : bytes_leb a b = false <-> bytes_lt b a.
Proof.
  unfold bytes_leb, bytes_lt. rewrite (bytes_cmp_sym a b). by destruct (bytes_cmp a b).
Qed.
Lemma bytes_le_lteq a b : bytes_le a b <-> bytes_lt a b \/ a = b.
Proof.
  unfold bytes_le, bytes_lt. rewrite <-bytes_cmp_eq.
  destruct (bytes_cmp a b); intuition congruence.
Qed.
Lemma bytes_lt_le_trans a b c : bytes_lt a b -> bytes_le b c -> bytes_lt a c.
Proof. rewrite bytes_le_lteq. intros H [H'| ->]; [by etrans|done]. Qed.
Lemma bytes_le_lt_trans a b c : bytes_le a b -> bytes_lt b c -> bytes_lt a c.
Proof. rewrite bytes_le_lteq. intros [H'| ->] H; [by etrans|done]. Qed.
Lemma bytes_lt_le a b : bytes_lt a b -> bytes_le a b.
Proof. rewrite bytes_le_lteq. auto. Qed.
Lemma bytes_le_refl a : bytes_le a a.
Proof. rewrite bytes_le_lteq. auto. Qed.
Lemma bytes_lt_not_le a b : bytes_lt a b <-> ~ bytes_le b a.
Proof. rewrite <-bytes_leb_gt, <-bytes_leb_le. by destruct (bytes_leb b a). Qed.
Lemma bytes_lt_ne a b : bytes_lt a b -> a <> b.
Proof. intros H ->. by apply (irreflexivity bytes_lt b). Qed.
#[global] Hint Resolve bytes_lt_le bytes_le_refl : core.

(** [starts_with] on byte slices and strings. *)
Fixpoint starts_with (s p : bytes) {struct p} : bool :=
  match p, s with
  | [], _ => true
  | _ :: _, [] => false
  | a :: p, b :: s => bool_decide (a = b) && starts_with s p
  end.

Lemma starts_with_spec s p : starts_with s p = true <-> exists t, s = p ++ t.
Proof.
  revert s. induction p as [|a p IH]; intros s; simpl.
  - split; [by exists s | done].
  - destruct s as [|b s]; [split; [done | by intros [t [=]]]|].
    rewrite andb_true_iff, bool_decide_eq_true, IH. split.
    + intros [-> [t ->]]. by exists t.
    + intros [t [= <- ->]]. split; [done | by exists t].
Qed.

Lemma byte_eqb_spec a b : reflect (a = b) (Byte.eqb a b).
Proof.
  destruct (Byte.eqb a b) eqn:E; constructor.
  - by apply Byte.byte_dec_bl.
  - intros ->. by rewrite Byte.byte_dec_lb in E.
Qed.
Infix "=b?" := Byte.eqb (at level 70, no associativity).

(** Concatenate the bytes a fallible writer produces for each item. *)
Definition write_all {A E : Type} (f : A -> result E bytes) : list A -> result E bytes :=
  fix go l :=
    match l with
    | [] => Ok []
    | x :: l => let? a := f x in let? b := go l in Ok (a ++ b)
    end.

Lemma write_all_app {A E : Type} (f : A -> result E bytes) l k :
  write_all f (l ++ k) =
    let? a := write_all f l in let? b := write_all f k in Ok (a ++ b).
Proof.
  induction l as [|x l IH]; simpl; [by destruct (write_all f k)|].
  rewrite IH. destruct (f x), (write_all f l), (write_all f k); simpl; try done.
  by rewrite app_assoc.
Qed.

(** ** Big-endian framing: [to_be_bytes] and [from_be_bytes] *)

Fixpoint be_bytes (n : nat) (z : Z) : bytes :=
  match n with
  | O => []
  | S n => z2b (Z.shiftr z (8 * Z.of_nat n)) :: be_bytes n z
  end.

Definition be_Z (l : bytes) : Z :=
  fold_left (fun v b => Z.lor (Z.shiftl v 8) (b2z b)) l 0%Z.

Local Open Scope Z_scope.

Lemma lor_shiftl_add v b n :
  0 <= n -> 0 <= b < 2 ^ n -> Z.lor (Z.shiftl v n) b = v * 2 ^ n + b.
Proof.
  intros Hn Hb. rewrite <-Z.shiftl_mul_pow2 by done.
  rewrite <-Z.lxor_lor, Z.add_nocarry_lxor; [done| |].
  all: apply Z.bits_inj'; intros i Hi; rewrite Z.land_spec, Z.shiftl_spec, Z.bits_0 by done.
  all: destruct (Z.lt_ge_cases i n) as [Hl|Hl];
    [by rewrite (Z.testbit_neg_r v) by lia |].
  all: replace (Z.testbit b i) with false; [by rewrite andb_false_r|].
  all: symmetry; destruct (Z.eq_dec b 0) as [->|]; [by rewrite Z.bits_0|].
  all: apply Z.bits_above_log2; [lia|].
  all: apply Z.log2_lt_pow2; [lia|].
  all: apply Z.lt_le_trans with (2 ^ n); [lia|]; apply Z.pow_le_mono_r; lia.
Qed.

Lemma length_be_bytes n z : length (be_bytes n z) = n.
Proof. by induction n; simpl; f_equal. Qed.

Lemma be_Z_app l k : be_Z (l ++ k) = be_Z l * 256 ^ Z.of_nat (length k) + be_Z k.
Proof.
  unfold be_Z. rewrite fold_left_app.
  enough (forall v, fold_left (fun v b => Z.lor (Z.shiftl v 8) (b2z b)) k v =
    v * 256 ^ Z.of_nat (length k) + fold_left (fun v b => Z.lor (Z.shiftl v 8) (b2z b)) k 0)
    as H by apply H.
  induction k as [|b k IH]; intros v; [simpl; lia|].
  cbn [fold_left length]. rewrite IH, (IH (Z.lor (Z.shiftl 0 8) (b2z b))).
  rewrite !lor_shiftl_add by (pose proof (b2z_range b); lia).
  rewrite Nat2Z.inj_succ, Z.pow_succ_r by lia. ring.
Qed.

Lemma be_Z_singleton b : be_Z [b] = b2z b.
Proof. unfold be_Z. simpl. by rewrite Z.lor_0_l. Qed.

Lemma be_Z_cons b l : be_Z (b :: l) = b2z b * 256 ^ Z.of_nat (length l) + be_Z l.
Proof. change (b :: l) with ([b] ++ l). by rewrite be_Z_app, be_Z_singleton. Qed.

Lemma be_Z_bound l : 0 <= be_Z l < 256 ^ Z.of_nat (length l).
Proof.
  induction l as [|b l IH]; [done|].
  rewrite be_Z_cons. cbn [length]. rewrite Nat2Z.inj_succ, Z.pow_succ_r by lia.
  pose proof (b2z_range b). nia.
Qed.

Lemma be_bytes_S n z : be_bytes (S n) z = z2b (z / 256 ^ Z.of_nat n) :: be_bytes n z.
Proof.
  cbn [be_bytes]. f_equal. f_equal.
  rewrite Z.shiftr_div_pow2, Z.pow_mul_r by lia. done.
Qed.

Lemma be_Z_be_bytes n z : be_Z (be_bytes n z) = z `mod` 256 ^ Z.of_nat n.
Proof.
  induction n as [|n IH]; [by rewrite Z.mod_1_r|].
  rewrite be_bytes_S, be_Z_cons, length_be_bytes, b2z_z2b, IH.
  rewrite Nat2Z.inj_succ, Z.pow_succ_r by lia.
  rewrite (Z.mul_comm 256), Z.rem_mul_r by lia. ring.
Qed.

Lemma be_bytes_mod n z m :
  (n <= m)%nat -> be_bytes n (z `mod` 256 ^ Z.of_nat m) = be_bytes n z.
Proof.
  intros Hm. induction n as [|n IH]; [done|].
  rewrite !be_bytes_S, IH by lia. f_equal. apply b2z_inj. rewrite !b2z_z2b.
  replace (Z.of_nat m) with (Z.of_nat n + (1 + (Z.of_nat m - Z.of_nat n - 1))) by lia.
  rewrite Z.pow_add_r, (Z.pow_add_r 256 1) by lia.
  set (p := 256 ^ Z.of_nat n). set (q := 256 ^ (Z.of_nat m - Z.of_nat n - 1)).
  assert (0 < p) by (unfold p; lia).
  assert (0 < q) by (unfold q; apply Z.pow_pos_nonneg; lia).
  rewrite Z.rem_mul_r by nia.
  rewrite (Z.mul_comm p), Z.div_add, Z.div_small, Z.add_0_l by (try apply Z.mod_pos_bound; lia).
  rewrite Z.pow_1_r, Z.rem_mul_r by lia.
  by rewrite Z.mul_comm, Z.mod_add, Z.mod_mod by lia.
Qed.

Lemma be_bytes_be_Z n l : length l = n -> be_bytes n (be_Z l) = l.
Proof.
  revert n. induction l as [|b l IH]; intros n <-; [done|].
  cbn [length]. rewrite be_bytes_S, be_Z_cons. f_equal.
  - apply b2z_inj. rewrite b2z_z2b.
    pose proof (be_Z_bound l). pose proof (b2z_range b).
    rewrite Z.add_comm, Z.div_add, Z.div_small, Z.add_0_l by lia.
    by apply Z.mod_small.
  - rewrite <-(be_bytes_mod _ _ (length l)) by lia.
    rewrite Z.add_comm, Z.mod_add, Z.mod_small by (try apply be_Z_bound; lia).
    by apply IH.
Qed.

Lemma be_Z_inj l k : length l = length k -> be_Z l = be_Z k -> l = k.
Proof.
  intros Hl H. rewrite <-(be_bytes_be_Z (length l) l), <-(be_bytes_be_Z (length l) k) by done.
  by rewrite H.
Qed.

(** Unsigned numeric order is the byte order of big-endian frames. *)
Lemma be_Z_cmp l k : length l = length k -> bytes_cmp l k = (be_Z l ?= be_Z k).
Proof.
  revert k. induction l as [|a l IH]; intros [|b k]; try done.
  cbn [length]. intros [= Hl]. rewrite bytes_cmp_cons, IH, !be_Z_cons, <-Hl by done.
  unfold byte_cmp. pose proof (be_Z_bound l) as Hb1. pose proof (be_Z_bound k) as Hb2.
  rewrite <-Hl in Hb2. set (p := 256 ^ Z.of_nat (length l)) in *.
  destruct (Z.compare_spec (b2z a) (b2z b)) as [->|H|H]; simpl.
  - destruct (Z.compare_spec (be_Z l) (be_Z k)) as [->|H|H]; symmetry;
      [by apply Z.compare_eq_iff | apply Z.compare_lt_iff | apply Z.compare_gt_iff]; lia.
  - symmetry. apply Z.compare_lt_iff. nia.
  - symmetry. apply Z.compare_gt_iff. nia.
Qed.

Lemma be_bytes_cmp n x y :
  0 <= x < 256 ^ Z.of_nat n -> 0 <= y < 256 ^ Z.of_nat n ->
  bytes_cmp (be_bytes n x) (be_bytes n y) = (x ?= y).
Proof.
  intros Hx Hy. rewrite be_Z_cmp by (by rewrite !length_be_bytes).
  by rewrite !be_Z_be_bytes, !Z.mod_small by done.
Qed.

Arguments be_bytes : simpl never.
Arguments be_Z : simpl never.

(** ** Machine integers *)

Definition in_range (lo hi z : Z) : bool := (lo <=? z) && (z <? hi).
Definition is_u16 (z : Z) : bool := in_range 0 (2 ^ 16) z.
Definition is_u32 (z : Z) : bool := in_range 0 (2 ^ 32) z.
Definition is_u64 (z : Z) : bool := in_range 0 (2 ^ 64) z.
Definition is_i16 (z : Z) : bool := in_range (- 2 ^ 15) (2 ^ 15) z.
Definition is_i64 (z : Z) : bool := in_range (- 2 ^ 63) (2 ^ 63) z.

Lemma in_range_spec lo hi z : in_range lo hi z = true <-> lo <= z < hi.
Proof. unfold in_range. rewrite andb_true_iff, Z.leb_le, Z.ltb_lt. done. Qed.

(** The casts [as u64] / [as u16] and back to the signed type. *)
Definition to_unsigned (w z : Z) : Z := z `mod` 2 ^ w.
Definition to_signed (w z : Z) : Z :=
  let u := z `mod` 2 ^ w in if u <? 2 ^ (w - 1) then u else u - 2 ^ w.

(** Expand a machine-integer range hypothesis to inequalities. *)
Ltac unrange :=
  repeat match goal with
  | H : is_u16 _ = true |- _ => apply in_range_spec in H
  | H : is_u32 _ = true |- _ => apply in_range_spec in H
  | H : is_u64 _ = true |- _ => apply in_range_spec in H
  | H : is_i16 _ = true |- _ => apply in_range_spec in H
  | H : is_i64 _ = true |- _ => apply in_range_spec in H
  end.

Lemma to_signed_unsigned w z :
  0 < w -> - 2 ^ (w - 1) <= z < 2 ^ (w - 1) -> to_signed w (to_unsigned w z) = z.
Proof.
  intros Hw Hz. unfold to_signed, to_unsigned. rewrite Z.mod_mod by lia.
  assert (2 ^ w = 2 * 2 ^ (w - 1)) as E by (rewrite <-Z.pow_succ_r; [f_equal; lia|lia]).
  destruct (Z.le_gt_cases 0 z).
  - rewrite Z.mod_small by lia. by destruct (Z.ltb_spec z (2 ^ (w - 1))); try lia.
  - rewrite <-(Z.mod_add z 1), Z.mul_1_l, Z.mod_small by lia.
    destruct (Z.ltb_spec (z + 2 ^ w) (2 ^ (w - 1))); lia.
Qed.

Lemma to_unsigned_signed w u :
  0 < w -> 0 <= u < 2 ^ w -> to_unsigned w (to_signed w u) = u.
Proof.
  intros Hw Hu. unfold to_signed, to_unsigned. rewrite (Z.mod_small u) by done.
  destruct (Z.ltb_spec u (2 ^ (w - 1))).
  - by apply Z.mod_small.
  - rewrite <-(Z.mod_add _ 1), Z.mod_small by lia. lia.
Qed.

Lemma to_signed_range w u :
  0 < w -> - 2 ^ (w - 1) <= to_signed w u < 2 ^ (w - 1).
Proof.
  intros Hw. unfold to_signed.
  assert (2 ^ w = 2 * 2 ^ (w - 1)) as E by (rewrite <-Z.pow_succ_r; [f_equal; lia|lia]).
  pose proof (Z.mod_pos_bound u (2 ^ w)).
  destruct (Z.ltb_spec (u `mod` 2 ^ w) (2 ^ (w - 1))); lia.
Qed.

(** Flipping the top bit of a [w]-bit word adds [2^(w-1)] modulo [2^w]. *)
Lemma lxor_top w u :
  0 < w -> 0 <= u < 2 ^ w ->
  Z.lxor u (2 ^ (w - 1)) = if u <? 2 ^ (w - 1) then u + 2 ^ (w - 1) else u - 2 ^ (w - 1).
Proof.
  intros Hw Hu. set (p := 2 ^ (w - 1)).
  assert (2 ^ w = 2 * p) as E by (unfold p; rewrite <-Z.pow_succ_r; [f_equal; lia|lia]).
  assert (forall v, 0 <= v < p -> Z.lxor v p = v + p) as Hlow.
  { intros v Hv. rewrite Z.lxor_comm.
    pose proof (lor_shiftl_add 1 v (w - 1) ltac:(lia) Hv) as Hor.
    rewrite Z.shiftl_1_l in Hor. fold p in Hor. rewrite Z.lxor_lor; [lia|].
    apply Z.bits_inj'. intros i Hi. rewrite Z.land_spec, Z.bits_0.
    destruct (Z.eq_dec i (w - 1)) as [->|];
      [|unfold p; rewrite Z.pow2_bits_false by lia; done].
    destruct (Z.eq_dec v 0) as [->|]; [by rewrite Z.bits_0, andb_false_r|].
    rewrite (Z.bits_above_log2 v); [by rewrite andb_false_r|lia|]. apply Z.log2_lt_pow2; lia. }
  destruct (Z.ltb_spec u p); [apply Hlow; lia|].
  replace u with ((u - p) + p) at 1 by lia. rewrite <-Hlow by lia.
  by rewrite Z.lxor_assoc, Z.lxor_nilpotent, Z.lxor_0_r.
Qed.

#[global] Instance byte_countable : Countable byte.
Proof.
  apply (inj_countable Byte.to_N Byte.of_N). intros b. apply Byte.of_to_N.
Defined.

(** ** Sorted lists with the same elements are equal *)

Lemma sorted_ext {A K : Type} (lt : relation K) `{!StrictOrder lt} (key : A -> K) (l k : list A) :
  StronglySorted lt (map key l) -> StronglySorted lt (map key k) -> (forall x, x ∈ l <-> x ∈ k) -> l = k.
Proof.
  revert k. induction l as [|x l IH]; intros [|y k] Hl Hk H.
  - done.
  - assert (y ∈ []) as Hn%elem_of_nil; [|done]. apply H, list_elem_of_here.
  - assert (x ∈ []) as Hn%elem_of_nil; [|done]. apply H, list_elem_of_here.
  - cbn [map] in Hl, Hk. apply StronglySorted_inv in Hl as [Hl Hx], Hk as [Hk Hy].
    rewrite Forall_map, Forall_forall in Hx, Hy.
    assert (x = y) as <-.
    { pose proof (proj1 (H x) (list_elem_of_here x l)) as Hxk.
      pose proof (proj2 (H y) (list_elem_of_here y k)) as Hyl.
      apply elem_of_cons in Hxk as [->|Hxk]; [done|]. apply elem_of_cons in Hyl as [->|Hyl]; [done|].
      destruct (irreflexivity lt (key x)). etrans; [by apply Hx|by apply Hy]. }
    f_equal. apply IH; [done..|]. intros z. specialize (H z). rewrite !elem_of_cons in H.
    split; intros Hz.
    + destruct (proj1 H (or_intror Hz)) as [->|]; [|done]. by destruct (irreflexivity lt (key x)); apply Hx.
    + destruct (proj2 H (or_intror Hz)) as [->|]; [|done]. by destruct (irreflexivity lt (key x)); apply Hy.
Qed.

