(* ===== verification/Ieee.v ===== *)
(** * IEEE-754 bit patterns

    Rust's [f64], [f32] and the binary16 patterns the value encoding uses are
    modelled by their bit patterns ([to_bits]), as integers in [0, 2^64),
    [0, 2^32) and [0, 2^16).  This file holds the primitive float operations
    the storage encodings rely on ([is_nan], [== 0.0], [total_cmp], the casts
    between widths) and the three conversion helpers at the end of
    [acetone-model/src/cbor.rs], with the theorems that say they are exact. *)
From stdpp Require Import base numbers.
From Stdlib Require Import ZArith Lia.
From S2P Require Import Prelude.

Local Open Scope Z_scope.

Definition SIGN_BIT : Z := 2 ^ 63.
Definition F64_INF : Z := 0x7ff0000000000000.
Definition CANONICAL_NAN_BITS : Z := 0x7ff8000000000000.

(** ** Primitive [f64] operations on bit patterns *)

Definition f64_abs (bits : Z) : Z := Z.land bits (Z.ones 63).
Definition f64_is_nan (bits : Z) : bool := F64_INF <? f64_abs bits.
Definition f64_is_zero (bits : Z) : bool := f64_abs bits =? 0.
Definition f64_is_infinite (bits : Z) : bool := f64_abs bits =? F64_INF.

(** [f64::total_cmp]: compare as [i64] after flipping the magnitude bits of
    negative patterns. *)
Definition total_key (bits : Z) : Z :=
  let left := to_signed 64 bits in
  to_signed 64 (Z.lxor bits (Z.shiftr (to_unsigned 64 (Z.shiftr left 63)) 1)).
Definition total_cmp (a b : Z) : comparison := (total_key a ?= total_key b).

(** The exact product [(m as f64) * 2f64.powi(k)] for a non-negative integer
    [m < 2^53] whose product with [2^k] is a normal double: no rounding
    happens, so the pattern is the normalised significand under the biased
    exponent. *)
Definition f64_scaled (m k : Z) : Z :=
  if m =? 0 then 0
  else
    let l := Z.log2 m in
    (l + k + 1023) * 2 ^ 52 + (m * 2 ^ (52 - l) - 2 ^ 52).

(** The cast [f64::from(y : f32)], exact on every non-NaN pattern. *)
Definition f32_to_f64 (y : Z) : Z :=
  let sign := Z.shiftr y 31 in
  let exp := Z.land (Z.shiftr y 23) 0xff in
  let frac := Z.land y (Z.ones 23) in
  let magnitude :=
    if exp =? 255 then (if frac =? 0 then F64_INF else F64_INF + frac * 2 ^ 29)
    else if exp =? 0 then f64_scaled frac (-149)
    else f64_scaled (2 ^ 23 + frac) (exp - 150) in
  sign * 2 ^ 63 + magnitude.

(** Round [m / 2^n] to the nearest integer, ties to even. *)
Definition round_half_even (m n : Z) : Z :=
  let q := m / 2 ^ n in
  let r := m `mod` 2 ^ n in
  if (2 * r <? 2 ^ n) then q
  else if (2 ^ n <? 2 * r) then q + 1
  else if Z.even q then q else q + 1.

(** The cast [x as f32] (round to nearest, ties to even, overflow to
    infinity, NaN to a quiet NaN). *)
Definition f64_to_f32 (x : Z) : Z :=
  let sign := Z.shiftr x 63 in
  let exp := Z.land (Z.shiftr x 52) 0x7ff in
  let frac := Z.land x (Z.ones 52) in
  if f64_is_nan x then sign * 2 ^ 31 + 0x7fc00000
  else if exp =? 2047 then sign * 2 ^ 31 + 0x7f800000
  else
    let m := if exp =? 0 then frac else 2 ^ 52 + frac in
    let e := if exp =? 0 then -1074 else exp - 1075 in
    let q := Z.max (e + (Z.log2 m - 23)) (-149) in
    let r := round_half_even m (q - e) in
    sign * 2 ^ 31 + Z.min 0x7f800000 ((q + 149) * 2 ^ 23 + r).

(** ** The conversion helpers of [cbor.rs] *)

Definition f16_bits_to_f64 (bits : Z) : Z :=
  let negative := negb (Z.land bits 0x8000 =? 0) in
  let exp := Z.land (Z.shiftr bits 10) 0x1f in
  let frac := Z.land bits 0x03ff in
  let signed := fun magnitude => if negative then Z.lxor magnitude SIGN_BIT else magnitude in
  if exp =? 0 then signed (f64_scaled frac (-24))
  else if exp =? 31 then
    if frac =? 0 then signed F64_INF else CANONICAL_NAN_BITS
  else signed (f64_scaled (1024 + frac) (exp - 25)).

Definition f16_from_f64_exact (x : Z) : option Z :=
  let sign := Z.shiftl (Z.land (Z.shiftr x 63) 1) 15 in
  if f64_is_zero x then Some sign
  else if f64_is_infinite x then Some (Z.lor sign 0x7c00)
  else
    let exp := Z.land (Z.shiftr x 52) 0x7ff - 1023 in
    let frac := Z.land x (Z.ones 52) in
    if (-14 <=? exp) && (exp <=? 15) then
      if Z.land frac (Z.ones 42) =? 0 then
        Some (Z.lor (Z.lor sign (Z.shiftl (exp + 15) 10)) (Z.shiftr frac 42))
      else None
    else if (-24 <=? exp) && (exp <=? -15) then
      let significand := Z.lor (Z.shiftl 1 52) frac in
      let shift := 28 - exp in
      if Z.land significand (Z.ones shift) =? 0 then
        Some (Z.lor sign (Z.shiftr significand shift))
      else None
    else None.

Definition f32_from_f64_exact (x : Z) : option Z :=
  let y := f64_to_f32 x in
  if f32_to_f64 y =? x then Some y else None.

Example f16_one : f16_bits_to_f64 0x3c00 = 0x3ff0000000000000.
Proof. reflexivity. Qed.
Example f16_one_back : f16_from_f64_exact 0x3ff0000000000000 = Some 0x3c00.
Proof. reflexivity. Qed.
Example f32_tenth : f64_to_f32 0x3fb999999999999a = 0x3dcccccd.
Proof. reflexivity. Qed.
Example f32_tenth_inexact : f32_from_f64_exact 0x3fb999999999999a = None.
Proof. reflexivity. Qed.
Example f32_min_subnormal : f32_from_f64_exact (f32_to_f64 1) = Some 1.
Proof. reflexivity. Qed.
Example f32_overflow : f64_to_f32 0x7fefffffffffffff = 0x7f800000.
Proof. reflexivity. Qed.

(** ** Field decomposition: bit operations as arithmetic *)

Section fields.
Context (s e f : Z).
Hypothesis Hs : 0 <= s < 2.
Hypothesis He : 0 <= e < 2 ^ 11.
Hypothesis Hf : 0 <= f < 2 ^ 52.

Local Ltac arith := rewrite ?Z.shiftr_div_pow2, ?Z.land_ones by lia;
  Z.div_mod_to_equations; lia.

Lemma field_sign : Z.shiftr (s * 2 ^ 63 + e * 2 ^ 52 + f) 63 = s.
Proof. arith. Qed.
Lemma field_exp : Z.land (Z.shiftr (s * 2 ^ 63 + e * 2 ^ 52 + f) 52) 0x7ff = e.
Proof. change 0x7ff with (Z.ones 11). arith. Qed.
Lemma field_frac : Z.land (s * 2 ^ 63 + e * 2 ^ 52 + f) (Z.ones 52) = f.
Proof. arith. Qed.
Lemma field_abs : f64_abs (s * 2 ^ 63 + e * 2 ^ 52 + f) = e * 2 ^ 52 + f.
Proof. unfold f64_abs. arith. Qed.
End fields.

Lemma f64_fields x : is_u64 x = true ->
  exists s e f, 0 <= s < 2 /\ 0 <= e < 2 ^ 11 /\ 0 <= f < 2 ^ 52 /\
    x = s * 2 ^ 63 + e * 2 ^ 52 + f.
Proof.
  intros H. unrange.
  exists (x / 2 ^ 63), ((x / 2 ^ 52) `mod` 2 ^ 11), (x `mod` 2 ^ 52).
  Z.div_mod_to_equations; lia.
Qed.

(** The shape of a scaled pattern. *)
Lemma f64_scaled_spec m k :
  0 < m < 2 ^ 53 ->
  exists f, 0 <= f < 2 ^ 52 /\ m * 2 ^ (52 - Z.log2 m) = 2 ^ 52 + f /\
    f64_scaled m k = (Z.log2 m + k + 1023) * 2 ^ 52 + f.
Proof.
  intros Hm. unfold f64_scaled. destruct (Z.eqb_spec m 0); [lia|].
  pose proof (Z.log2_spec m ltac:(lia)) as Hl.
  assert (0 <= Z.log2 m <= 52) as Hr.
  { split; [apply Z.log2_nonneg|]. enough (Z.log2 m < 53) by lia. apply Z.log2_lt_pow2; lia. }
  exists (m * 2 ^ (52 - Z.log2 m) - 2 ^ 52).
  assert (2 ^ 52 = 2 ^ Z.log2 m * 2 ^ (52 - Z.log2 m)) as E
    by (rewrite <-Z.pow_add_r by lia; f_equal; lia).
  rewrite Z.pow_succ_r in Hl by lia.
  assert (0 < 2 ^ (52 - Z.log2 m)) by (apply Z.pow_pos_nonneg; lia).
  repeat split; nia.
Qed.

Lemma land_pow2_testbit x n : 0 <= n -> (Z.land x (2 ^ n) =? 0) = negb (Z.testbit x n).
Proof.
  intros Hn. destruct (Z.eqb_spec (Z.land x (2 ^ n)) 0) as [E|E].
  - apply (f_equal (fun z => Z.testbit z n)) in E.
    rewrite Z.land_spec, Z.pow2_bits_true, andb_true_r, Z.bits_0 in E by done. by rewrite E.
  - destruct (Z.testbit x n) eqn:T; [done|]. exfalso. apply E.
    apply Z.bits_inj'. intros i Hi. rewrite Z.land_spec, Z.bits_0.
    destruct (Z.eq_dec i n) as [->|]; [by rewrite T|].
    by rewrite Z.pow2_bits_false, andb_false_r by lia.
Qed.

Section fields16.
Context (s e f : Z).
Hypothesis Hs : 0 <= s < 2.
Hypothesis He : 0 <= e < 2 ^ 5.
Hypothesis Hf : 0 <= f < 2 ^ 10.

Local Ltac arith := rewrite ?Z.shiftr_div_pow2, ?Z.land_ones by lia;
  Z.div_mod_to_equations; lia.

Lemma field16_neg : negb (Z.land (s * 2 ^ 15 + e * 2 ^ 10 + f) 0x8000 =? 0) = (s =? 1).
Proof.
  change 0x8000 with (2 ^ 15). rewrite land_pow2_testbit, negb_involutive by lia.
  rewrite Z.testbit_odd.
  replace (Z.shiftr _ 15) with s by (symmetry; arith).
  assert (s = 0 \/ s = 1) as [-> | ->] by lia; done.
Qed.
Lemma field16_exp : Z.land (Z.shiftr (s * 2 ^ 15 + e * 2 ^ 10 + f) 10) 0x1f = e.
Proof. change 0x1f with (Z.ones 5). arith. Qed.
Lemma field16_frac : Z.land (s * 2 ^ 15 + e * 2 ^ 10 + f) 0x03ff = f.
Proof. change 0x03ff with (Z.ones 10). arith. Qed.

(** The decoded pattern, as sign, exponent and fraction fields. *)
Lemma f16_bits_to_f64_fields :
  (e = 31 -> f = 0) ->
  f16_bits_to_f64 (s * 2 ^ 15 + e * 2 ^ 10 + f) = s * 2 ^ 63 +
    (if e =? 0 then f64_scaled f (-24)
     else if e =? 31 then F64_INF else f64_scaled (1024 + f) (e - 25)).
Proof.
  intros Hnan. unfold f16_bits_to_f64.
  rewrite field16_neg, field16_exp, field16_frac.
  assert (forall m, 0 <= m < 2 ^ 63 ->
    (if s =? 1 then Z.lxor m SIGN_BIT else m) = s * 2 ^ 63 + m) as Hsig.
  { intros m Hm. assert (s = 0 \/ s = 1) as [-> | ->] by lia; [simpl; lia|].
    unfold SIGN_BIT. pose proof (lxor_top 64 m ltac:(lia) ltac:(lia)) as H.
    change (64 - 1) with 63 in H. simpl Z.eqb. cbv iota. rewrite H.
    destruct (Z.ltb_spec m (2 ^ 63)); lia. }
  assert (forall m k, 0 < m < 2 ^ 53 -> -149 <= k < 200 -> 0 <= f64_scaled m k < 2 ^ 63) as Hsc.
  { intros m k Hm Hk. destruct (f64_scaled_spec m k Hm) as (g & Hg & _ & ->).
    pose proof (Z.log2_nonneg m). assert (Z.log2 m < 53) by (apply Z.log2_lt_pow2; lia). lia. }
  destruct (Z.eqb_spec e 0) as [->|].
  { destruct (Z.eqb_spec f 0) as [->|]; [rewrite Hsig; done|].
    apply Hsig, Hsc; lia. }
  destruct (Z.eqb_spec e 31) as [->|].
  { rewrite (Hnan eq_refl). simpl Z.eqb. cbv iota. by apply Hsig. }
  apply Hsig, Hsc; lia.
Qed.
End fields16.

Lemma f16_fields h : is_u16 h = true ->
  exists s e f, 0 <= s < 2 /\ 0 <= e < 2 ^ 5 /\ 0 <= f < 2 ^ 10 /\
    h = s * 2 ^ 15 + e * 2 ^ 10 + f.
Proof.
  intros H. unrange.
  exists (h / 2 ^ 15), ((h / 2 ^ 10) `mod` 2 ^ 5), (h `mod` 2 ^ 10).
  Z.div_mod_to_equations; lia.
Qed.

Definition f16_is_nan (h : Z) : bool :=
  (Z.land (Z.shiftr h 10) 0x1f =? 31) && negb (Z.land h 0x03ff =? 0).

(** The shift-and-or assembly of a binary16 pattern, arithmetically. *)
Lemma f16_assemble s e f :
  0 <= s < 2 -> 0 <= e < 2 ^ 5 -> 0 <= f < 2 ^ 10 ->
  Z.lor (Z.lor (Z.shiftl s 15) (Z.shiftl e 10)) f = s * 2 ^ 15 + e * 2 ^ 10 + f.
Proof.
  intros Hs He Hf. replace (Z.shiftl s 15) with (Z.shiftl (Z.shiftl s 5) 10)
    by (by rewrite Z.shiftl_shiftl by lia).
  rewrite <-Z.shiftl_lor.
  rewrite (lor_shiftl_add s e 5), lor_shiftl_add by lia. ring.
Qed.


(** [f16_from_f64_exact] read off the fields. *)
Lemma f16_from_fields s e f :
  0 <= s < 2 -> 0 <= e < 2 ^ 11 -> 0 <= f < 2 ^ 52 ->
  f16_from_f64_exact (s * 2 ^ 63 + e * 2 ^ 52 + f) =
    if e * 2 ^ 52 + f =? 0 then Some (s * 2 ^ 15)
    else if e * 2 ^ 52 + f =? F64_INF then Some (s * 2 ^ 15 + 31 * 2 ^ 10)
    else if (1009 <=? e) && (e <=? 1038) then
      if f `mod` 2 ^ 42 =? 0 then Some (s * 2 ^ 15 + (e - 1008) * 2 ^ 10 + f / 2 ^ 42) else None
    else if (999 <=? e) && (e <=? 1008) then
      if (2 ^ 52 + f) `mod` 2 ^ (1051 - e) =? 0
      then Some (s * 2 ^ 15 + (2 ^ 52 + f) / 2 ^ (1051 - e)) else None
    else None.
Proof.
  intros Hs He Hf. unfold f16_from_f64_exact, f64_is_zero, f64_is_infinite.
  rewrite field_abs, field_sign, field_exp, field_frac by done.
  replace (Z.land s 1) with s by (change 1 with (Z.ones 1); rewrite Z.land_ones by lia;
    Z.div_mod_to_equations; lia).
  destruct (Z.eqb_spec (e * 2 ^ 52 + f) 0); [by rewrite Z.shiftl_mul_pow2 by lia|].
  destruct (Z.eqb_spec (e * 2 ^ 52 + f) F64_INF).
  { rewrite lor_shiftl_add by lia. done. }
  replace (-14 <=? e - 1023) with (1009 <=? e) by (apply eq_true_iff_eq; rewrite !Z.leb_le; lia).
  replace (e - 1023 <=? 15) with (e <=? 1038) by (apply eq_true_iff_eq; rewrite !Z.leb_le; lia).
  replace (-24 <=? e - 1023) with (999 <=? e) by (apply eq_true_iff_eq; rewrite !Z.leb_le; lia).
  replace (e - 1023 <=? -15) with (e <=? 1008) by (apply eq_true_iff_eq; rewrite !Z.leb_le; lia).
  destruct ((1009 <=? e) && (e <=? 1038)) eqn:E1.
  { apply andb_true_iff in E1 as [E1 E2]. apply Z.leb_le in E1, E2.
    rewrite Z.land_ones, Z.shiftr_div_pow2 by lia.
    destruct (f `mod` 2 ^ 42 =? 0); [|done]. f_equal.
    replace (e - 1023 + 15) with (e - 1008) by lia.
    rewrite f16_assemble; [done|lia..|]. Z.div_mod_to_equations; lia. }
  destruct ((999 <=? e) && (e <=? 1008)) eqn:E3; [|done].
  apply andb_true_iff in E3 as [E3 E4]. apply Z.leb_le in E3, E4.
  replace (28 - (e - 1023)) with (1051 - e) by lia.
  rewrite (lor_shiftl_add 1 f 52), Z.mul_1_l by lia.
  rewrite Z.land_ones, Z.shiftr_div_pow2 by lia.
  destruct ((2 ^ 52 + f) `mod` 2 ^ (1051 - e) =? 0); [|done]. f_equal.
  apply lor_shiftl_add; [lia|]. split; [apply Z.div_pos; [lia|apply Z.pow_pos_nonneg; lia]|].
  apply Z.div_lt_upper_bound; [apply Z.pow_pos_nonneg; lia|].
  apply Z.lt_le_trans with (2 ^ 43 * 2 ^ 15); [lia|].
  apply Z.mul_le_mono_nonneg_r; [lia|]. apply Z.pow_le_mono_r; lia.
Qed.

(** ** binary16: both directions are exact *)

Lemma log2_bracket m l : 0 <= l -> 2 ^ l <= m < 2 ^ (l + 1) -> Z.log2 m = l.
Proof. intros Hl H. apply Z.log2_unique; [done|]. by rewrite <-Z.add_1_r. Qed.

Lemma f16_roundtrip h :
  is_u16 h = true -> f16_is_nan h = false ->
  f16_from_f64_exact (f16_bits_to_f64 h) = Some h.
Proof.
  intros Hr Hn. destruct (f16_fields h Hr) as (s & e & f & Hs & He & Hf & ->).
  unfold f16_is_nan in Hn. rewrite field16_exp, field16_frac in Hn by done.
  assert (e = 31 -> f = 0) as Hnan.
  { intros ->. simpl in Hn. destruct (Z.eqb_spec f 0); [done|discriminate]. }
  rewrite f16_bits_to_f64_fields by done.
  destruct (Z.eqb_spec e 0) as [->|He0].
  - destruct (Z.eqb_spec f 0) as [->|Hf0].
    { change (f64_scaled 0 (-24)) with (0 * 2 ^ 52 + 0). rewrite Z.add_assoc, f16_from_fields by lia.
      simpl. f_equal. lia. }
    destruct (f64_scaled_spec f (-24) ltac:(lia)) as (g & Hg & Eg & ->).
    pose proof (Z.log2_nonneg f). assert (Z.log2 f < 10) by (apply Z.log2_lt_pow2; lia).
    rewrite Z.add_assoc, f16_from_fields by lia.
    destruct (Z.eqb_spec ((Z.log2 f + -24 + 1023) * 2 ^ 52 + g) 0); [lia|].
    destruct (Z.eqb_spec ((Z.log2 f + -24 + 1023) * 2 ^ 52 + g) F64_INF); [unfold F64_INF in *; lia|].
    destruct (Z.leb_spec 1009 (Z.log2 f + -24 + 1023)); [lia|]. simpl andb. cbv iota.
    destruct (Z.leb_spec 999 (Z.log2 f + -24 + 1023)); [|lia].
    destruct (Z.leb_spec (Z.log2 f + -24 + 1023) 1008); [|lia]. simpl andb. cbv iota.
    rewrite <-Eg. replace (1051 - (Z.log2 f + -24 + 1023)) with (52 - Z.log2 f) by lia.
    assert (0 < 2 ^ (52 - Z.log2 f)) by (apply Z.pow_pos_nonneg; lia).
    rewrite Z.mod_mul, Z.div_mul by lia. simpl. f_equal. lia.
  - destruct (Z.eqb_spec e 31) as [->|He31].
    { rewrite (Hnan eq_refl). change F64_INF with (2047 * 2 ^ 52 + 0).
      rewrite Z.add_assoc, f16_from_fields by lia. simpl. f_equal. lia. }
    destruct (f64_scaled_spec (1024 + f) (e - 25) ltac:(lia)) as (g & Hg & Eg & ->).
    assert (Z.log2 (1024 + f) = 10) as El by (apply log2_bracket; lia).
    rewrite El in *. rewrite Z.add_assoc, f16_from_fields by lia.
    destruct (Z.eqb_spec ((10 + (e - 25) + 1023) * 2 ^ 52 + g) 0); [lia|].
    destruct (Z.eqb_spec ((10 + (e - 25) + 1023) * 2 ^ 52 + g) F64_INF); [unfold F64_INF in *; lia|].
    destruct (Z.leb_spec 1009 (10 + (e - 25) + 1023)); [|lia].
    destruct (Z.leb_spec (10 + (e - 25) + 1023) 1038); [|lia]. simpl andb. cbv iota.
    replace g with (f * 2 ^ 42) by lia.
    rewrite Z.mod_mul, Z.div_mul by lia. simpl. f_equal. lia.
Qed.

Lemma f16_exact_sound x h :
  is_u64 x = true -> f16_from_f64_exact x = Some h ->
  is_u16 h = true /\ f16_is_nan h = false /\ f16_bits_to_f64 h = x.
Proof.
  intros Hr. destruct (f64_fields x Hr) as (s & e & f & Hs & He & Hf & ->).
  rewrite f16_from_fields by done. intros H.
  assert (forall e' f', 0 <= e' < 2 ^ 5 -> 0 <= f' < 2 ^ 10 -> (e' = 31 -> f' = 0) ->
    h = s * 2 ^ 15 + e' * 2 ^ 10 + f' ->
    (if e' =? 0 then f64_scaled f' (-24) else if e' =? 31 then F64_INF
     else f64_scaled (1024 + f') (e' - 25)) = e * 2 ^ 52 + f ->
    is_u16 h = true /\ f16_is_nan h = false /\
    f16_bits_to_f64 h = s * 2 ^ 63 + e * 2 ^ 52 + f) as Hfin.
  { intros e' f' He' Hf' Hnan -> Hv. split; [|split].
    - apply in_range_spec. lia.
    - unfold f16_is_nan. rewrite field16_exp, field16_frac by done.
      destruct (Z.eqb_spec e' 31) as [E|]; [by rewrite (Hnan E)|done].
    - rewrite f16_bits_to_f64_fields, Hv by done. lia. }
  destruct (Z.eqb_spec (e * 2 ^ 52 + f) 0) as [E0|E0].
  { injection H as <-. apply (Hfin 0 0); try lia. by rewrite E0. }
  destruct (Z.eqb_spec (e * 2 ^ 52 + f) F64_INF) as [Ei|Ei].
  { injection H as <-. apply (Hfin 31 0); try lia. by rewrite Ei. }
  destruct ((1009 <=? e) && (e <=? 1038)) eqn:E1.
  { apply andb_true_iff in E1 as [E1 E2]. apply Z.leb_le in E1, E2.
    destruct (Z.eqb_spec (f `mod` 2 ^ 42) 0) as [Em|]; [|done]. injection H as <-.
    assert (f = (f / 2 ^ 42) * 2 ^ 42) as Ef by (Z.div_mod_to_equations; lia).
    set (k := f / 2 ^ 42) in *.
    apply (Hfin (e - 1008) k); try lia.
    destruct (Z.eqb_spec (e - 1008) 0); [lia|]. destruct (Z.eqb_spec (e - 1008) 31); [lia|].
    destruct (f64_scaled_spec (1024 + k) (e - 1008 - 25) ltac:(lia)) as (g & Hg & Eg & ->).
    assert (Z.log2 (1024 + k) = 10) as El by (apply log2_bracket; lia).
    rewrite El in *. lia. }
  destruct ((999 <=? e) && (e <=? 1008)) eqn:E3; [|done].
  apply andb_true_iff in E3 as [E3 E4]. apply Z.leb_le in E3, E4.
  destruct (Z.eqb_spec ((2 ^ 52 + f) `mod` 2 ^ (1051 - e)) 0) as [Em|]; [|done].
  injection H as <-. set (sh := 1051 - e) in *.
  assert (0 < 2 ^ sh) as Hsh by (apply Z.pow_pos_nonneg; lia).
  set (k := (2 ^ 52 + f) / 2 ^ sh) in *.
  assert (2 ^ 52 + f = k * 2 ^ sh) as Ek.
  { rewrite (Z.div_mod (2 ^ 52 + f) (2 ^ sh)), Em by lia. fold k. lia. }
  assert (2 ^ 52 = 2 ^ (52 - sh) * 2 ^ sh) as E52 by (rewrite <-Z.pow_add_r by lia; f_equal; lia).
  assert (2 ^ (52 - sh) <= k < 2 ^ (52 - sh + 1)) as Hk.
  { rewrite Z.pow_add_r, Z.pow_1_r by lia. nia. }
  assert (2 ^ (52 - sh + 1) <= 2 ^ 10) by (apply Z.pow_le_mono_r; lia).
  assert (0 < 2 ^ (52 - sh)) by (apply Z.pow_pos_nonneg; lia).
  apply (Hfin 0 k); try lia. simpl Z.eqb. cbv iota.
  destruct (f64_scaled_spec k (-24) ltac:(lia)) as (g & Hg & Eg & ->).
  assert (Z.log2 k = 52 - sh) as El by (apply log2_bracket; lia).
  rewrite El in *. replace (52 - (52 - sh)) with sh in Eg by lia. lia.
Qed.

(** ** binary32 *)

Definition f32_is_nan (y : Z) : bool := 0x7f800000 <? Z.land y (Z.ones 31).

Lemma f32_fields y : is_u32 y = true ->
  exists s e f, 0 <= s < 2 /\ 0 <= e < 2 ^ 8 /\ 0 <= f < 2 ^ 23 /\
    y = s * 2 ^ 31 + e * 2 ^ 23 + f.
Proof.
  intros H. unrange.
  exists (y / 2 ^ 31), ((y / 2 ^ 23) `mod` 2 ^ 8), (y `mod` 2 ^ 23).
  Z.div_mod_to_equations; lia.
Qed.

Lemma f32_to_f64_fields s e f :
  0 <= s < 2 -> 0 <= e < 2 ^ 8 -> 0 <= f < 2 ^ 23 -> (e = 255 -> f = 0) ->
  f32_to_f64 (s * 2 ^ 31 + e * 2 ^ 23 + f) = s * 2 ^ 63 +
    (if e =? 255 then F64_INF else if e =? 0 then f64_scaled f (-149)
     else f64_scaled (2 ^ 23 + f) (e - 150)).
Proof.
  intros Hs He Hf Hnan. unfold f32_to_f64.
  replace (Z.shiftr (s * 2 ^ 31 + e * 2 ^ 23 + f) 31) with s
    by (rewrite Z.shiftr_div_pow2 by lia; Z.div_mod_to_equations; lia).
  replace (Z.land (Z.shiftr (s * 2 ^ 31 + e * 2 ^ 23 + f) 23) 0xff) with e
    by (change 0xff with (Z.ones 8); rewrite Z.shiftr_div_pow2, Z.land_ones by lia;
        Z.div_mod_to_equations; lia).
  replace (Z.land (s * 2 ^ 31 + e * 2 ^ 23 + f) (Z.ones 23)) with f
    by (rewrite Z.land_ones by lia; Z.div_mod_to_equations; lia).
  destruct (Z.eqb_spec e 255) as [->|]; [|done].
  by rewrite (Hnan eq_refl).
Qed.

Lemma round_exact m n : 0 <= n -> round_half_even (m * 2 ^ n) n = m.
Proof.
  intros Hn. unfold round_half_even. assert (0 < 2 ^ n) by (apply Z.pow_pos_nonneg; lia).
  rewrite Z.div_mul, Z.mod_mul by lia. by destruct (Z.ltb_spec (2 * 0) (2 ^ n)); [|lia].
Qed.

(** [as f32] read off the fields of a finite, normal double. *)
Lemma f64_to_f32_normal s e f :
  0 <= s < 2 -> 0 < e < 2047 -> 0 <= f < 2 ^ 52 ->
  f64_to_f32 (s * 2 ^ 63 + e * 2 ^ 52 + f) =
    let q := Z.max (e - 1046) (-149) in
    s * 2 ^ 31 + Z.min 0x7f800000
      ((q + 149) * 2 ^ 23 + round_half_even (2 ^ 52 + f) (q - (e - 1075))).
Proof.
  intros Hs He Hf. unfold f64_to_f32, f64_is_nan.
  rewrite field_abs, field_sign, field_exp, field_frac by lia.
  destruct (Z.ltb_spec F64_INF (e * 2 ^ 52 + f)); [unfold F64_INF in *; lia|].
  destruct (Z.eqb_spec e 2047); [lia|]. destruct (Z.eqb_spec e 0); [lia|].
  assert (Z.log2 (2 ^ 52 + f) = 52) as -> by (apply log2_bracket; lia).
  replace (e - 1075 + (52 - 23)) with (e - 1046) by lia. done.
Qed.

Lemma f32_widen_narrow y :
  is_u32 y = true -> f32_is_nan y = false -> f64_to_f32 (f32_to_f64 y) = y.
Proof.
  intros Hr Hn. destruct (f32_fields y Hr) as (s & e & f & Hs & He & Hf & ->).
  assert (e = 255 -> f = 0) as Hnan.
  { intros ->. unfold f32_is_nan in Hn. apply Z.ltb_ge in Hn.
    rewrite Z.land_ones in Hn by lia. Z.div_mod_to_equations; lia. }
  rewrite f32_to_f64_fields by done.
  destruct (Z.eqb_spec e 255) as [->|].
  { rewrite (Hnan eq_refl). assert (s = 0 \/ s = 1) as [-> | ->] by lia; reflexivity. }
  destruct (Z.eqb_spec e 0) as [->|].
  - destruct (Z.eqb_spec f 0) as [->|].
    { assert (s = 0 \/ s = 1) as [-> | ->] by lia; reflexivity. }
    destruct (f64_scaled_spec f (-149) ltac:(lia)) as (g & Hg & Eg & ->).
    pose proof (Z.log2_nonneg f). assert (Z.log2 f < 23) by (apply Z.log2_lt_pow2; lia).
    rewrite Z.add_assoc, f64_to_f32_normal by lia. cbv zeta.
    rewrite Z.max_r by lia. rewrite <-Eg.
    replace (-149 - (Z.log2 f + -149 + 1023 - 1075)) with (52 - Z.log2 f) by lia.
    rewrite round_exact by lia. lia.
  - destruct (f64_scaled_spec (2 ^ 23 + f) (e - 150) ltac:(lia)) as (g & Hg & Eg & ->).
    assert (Z.log2 (2 ^ 23 + f) = 23) as El by (apply log2_bracket; lia).
    rewrite El in *. rewrite Z.add_assoc, f64_to_f32_normal by lia. cbv zeta.
    rewrite Z.max_l by lia. rewrite <-Eg.
    replace (23 + (e - 150) + 1023 - 1046 - (23 + (e - 150) + 1023 - 1075)) with (52 - 23) by lia.
    rewrite round_exact by lia. lia.
Qed.

Lemma f32_roundtrip y :
  is_u32 y = true -> f32_is_nan y = false ->
  f32_from_f64_exact (f32_to_f64 y) = Some y.
Proof.
  intros Hr Hn. unfold f32_from_f64_exact. by rewrite f32_widen_narrow, Z.eqb_refl.
Qed.

Lemma round_half_even_nonneg m n : 0 <= m -> 0 <= round_half_even m n.
Proof.
  intros Hm. unfold round_half_even. assert (0 <= m / 2 ^ n).
  { destruct (Z.le_gt_cases 0 n); [apply Z.div_pos; lia|].
    by rewrite Z.pow_neg_r, Z.div_0_r. }
  repeat case_match; lia.
Qed.

(** The rounded pattern without its sign never exceeds infinity's. *)
Lemma f64_to_f32_range s e f :
  0 <= s < 2 -> 0 <= e < 2 ^ 11 -> 0 <= f < 2 ^ 52 -> e * 2 ^ 52 + f <= F64_INF ->
  exists m, 0 <= m <= 0x7f800000 /\
    f64_to_f32 (s * 2 ^ 63 + e * 2 ^ 52 + f) = s * 2 ^ 31 + m.
Proof.
  intros Hs He Hf Hn. unfold f64_to_f32, f64_is_nan.
  rewrite field_abs, field_sign, field_exp, field_frac by done.
  destruct (Z.ltb_spec F64_INF (e * 2 ^ 52 + f)); [lia|].
  destruct (e =? 2047); [by exists 0x7f800000|].
  eexists. split; [|reflexivity]. split; [|apply Z.le_min_l].
  apply Z.min_glb; [done|]. apply Z.add_nonneg_nonneg.
  - match goal with |- context [Z.max ?a ?b] => pose proof (Z.le_max_r a b) end. lia.
  - apply round_half_even_nonneg. destruct (e =? 0); lia.
Qed.

Lemma f32_exact_sound x y :
  is_u64 x = true -> f64_is_nan x = false -> f32_from_f64_exact x = Some y ->
  is_u32 y = true /\ f32_is_nan y = false /\ f32_to_f64 y = x.
Proof.
  intros Hr Hn. unfold f32_from_f64_exact.
  destruct (Z.eqb_spec (f32_to_f64 (f64_to_f32 x)) x) as [E|]; [|done].
  intros [= <-]. rewrite E. destruct (f64_fields x Hr) as (s & e & f & Hs & He & Hf & Hx).
  unfold f64_is_nan in Hn. rewrite Hx, field_abs in Hn by done. apply Z.ltb_ge in Hn.
  destruct (f64_to_f32_range s e f) as (m & Hm & Ey); [done..|].
  rewrite Hx, Ey. split_and!; [| |done].
  - apply in_range_spec. lia.
  - unfold f32_is_nan. apply Z.ltb_ge. rewrite Z.land_ones by lia. Z.div_mod_to_equations; lia.
Qed.

(** ** Total order and the order-preserving transform *)

Lemma lxor_ones a n : 0 <= n -> 0 <= a < 2 ^ n -> Z.lxor a (Z.ones n) = Z.ones n - a.
Proof.
  intros Hn Ha.
  assert (Z.land a (Z.lxor a (Z.ones n)) = 0) as Hl.
  { apply Z.bits_inj'. intros i Hi. rewrite Z.land_spec, Z.lxor_spec, Z.bits_0.
    destruct (Z.lt_ge_cases i n).
    - rewrite Z.ones_spec_low by lia. by destruct (Z.testbit a i).
    - destruct (Z.eq_dec a 0) as [->|]; [by rewrite Z.bits_0|].
      rewrite (Z.bits_above_log2 a); [done|lia|].
      apply Z.log2_lt_pow2; [lia|]. apply Z.lt_le_trans with (2 ^ n); [lia|].
      apply Z.pow_le_mono_r; lia. }
  apply Z.add_nocarry_lxor in Hl.
  rewrite <-Z.lxor_assoc, Z.lxor_nilpotent, Z.lxor_0_l in Hl. lia.
Qed.

Lemma total_key_spec x :
  is_u64 x = true ->
  total_key x = if x <? SIGN_BIT then x else SIGN_BIT - 1 - x.
Proof.
  intros H. unrange. unfold total_key, to_signed at 2, SIGN_BIT.
  rewrite (Z.mod_small x) by lia. change (64 - 1) with 63.
  destruct (Z.ltb_spec x (2 ^ 63)).
  - replace (Z.shiftr x 63) with 0 by (rewrite Z.shiftr_div_pow2 by lia; Z.div_mod_to_equations; lia).
    simpl Z.shiftr. rewrite Z.lxor_0_r. unfold to_signed. rewrite Z.mod_small by lia.
    change (64 - 1) with 63. destruct (Z.ltb_spec x (2 ^ 63)); lia.
  - replace (Z.shiftr (x - 2 ^ 64) 63) with (-1)
      by (rewrite Z.shiftr_div_pow2 by lia; Z.div_mod_to_equations; lia).
    change (Z.shiftr (to_unsigned 64 (-1)) 1) with (Z.ones 63).
    replace x with (Z.lxor (x - 2 ^ 63) (2 ^ 63)) at 1.
    2:{ pose proof (lxor_top 64 (x - 2 ^ 63) ltac:(lia) ltac:(lia)) as E.
        change (64 - 1) with 63 in E. rewrite E.
        destruct (Z.ltb_spec (x - 2 ^ 63) (2 ^ 63)); lia. }
    rewrite Z.lxor_assoc, (Z.lxor_comm (2 ^ 63)), <-Z.lxor_assoc, lxor_ones by lia.
    rewrite (Z.ones_equiv 63), <-Z.sub_1_r.
    pose proof (lxor_top 64 (2 ^ 63 - 1 - (x - 2 ^ 63)) ltac:(lia) ltac:(lia)) as E.
    change (64 - 1) with 63 in E. rewrite E.
    destruct (Z.ltb_spec (2 ^ 63 - 1 - (x - 2 ^ 63)) (2 ^ 63)); [|lia].
    unfold to_signed. change (64 - 1) with 63. rewrite Z.mod_small by lia.
    destruct (Z.ltb_spec (2 ^ 63 - 1 - (x - 2 ^ 63) + 2 ^ 63) (2 ^ 63)); lia.
Qed.

Lemma f64_is_nan_false_range x :
  is_u64 x = true -> f64_is_nan x = false ->
  0 <= x <= F64_INF \/ SIGN_BIT <= x <= SIGN_BIT + F64_INF.
Proof.
  intros H Hn. unrange. unfold f64_is_nan, f64_abs in Hn. apply Z.ltb_ge in Hn.
  rewrite Z.land_ones in Hn by lia. unfold SIGN_BIT, F64_INF in *.
  Z.div_mod_to_equations; lia.
Qed.

(** ** Widened patterns are numbers *)

Lemma magnitude_ok s m :
  0 <= s < 2 -> 0 <= m <= F64_INF -> is_u64 (s * 2 ^ 63 + m) = true /\ f64_is_nan (s * 2 ^ 63 + m) = false.
Proof.
  intros Hs Hm. unfold F64_INF in Hm. split; [apply in_range_spec; lia|].
  unfold f64_is_nan, f64_abs. rewrite Z.land_ones by lia. apply Z.ltb_ge. unfold F64_INF.
  Z.div_mod_to_equations; lia.
Qed.

Lemma f64_scaled_bound m k : 0 <= m < 2 ^ 53 -> -149 <= k < 200 -> 0 <= f64_scaled m k <= F64_INF.
Proof.
  intros Hm Hk. destruct (Z.eq_dec m 0) as [->|]; [unfold f64_scaled, F64_INF; simpl; lia|].
  destruct (f64_scaled_spec m k ltac:(lia)) as (g & Hg & _ & ->).
  pose proof (Z.log2_nonneg m). assert (Z.log2 m < 53) by (apply Z.log2_lt_pow2; lia). unfold F64_INF. lia.
Qed.

Lemma f16_widen_ok h : is_u16 h = true -> f16_is_nan h = false ->
  is_u64 (f16_bits_to_f64 h) = true /\ f64_is_nan (f16_bits_to_f64 h) = false.
Proof.
  intros Hr Hn. destruct (f16_fields h Hr) as (s & e & f & Hs & He & Hf & ->).
  unfold f16_is_nan in Hn. rewrite field16_exp, field16_frac in Hn by done.
  assert (e = 31 -> f = 0) as Hnan.
  { intros ->. simpl in Hn. destruct (Z.eqb_spec f 0); [done|discriminate]. }
  rewrite f16_bits_to_f64_fields by done. apply magnitude_ok; [done|].
  destruct (Z.eqb_spec e 0); [apply f64_scaled_bound; lia|].
  destruct (Z.eqb_spec e 31); [unfold F64_INF; lia|apply f64_scaled_bound; lia].
Qed.

Lemma f32_widen_ok y : is_u32 y = true -> f32_is_nan y = false ->
  is_u64 (f32_to_f64 y) = true /\ f64_is_nan (f32_to_f64 y) = false.
Proof.
  intros Hr Hn. destruct (f32_fields y Hr) as (s & e & f & Hs & He & Hf & ->).
  assert (e = 255 -> f = 0) as Hnan.
  { intros ->. unfold f32_is_nan in Hn. apply Z.ltb_ge in Hn.
    rewrite Z.land_ones in Hn by lia. Z.div_mod_to_equations; lia. }
  rewrite f32_to_f64_fields by done. apply magnitude_ok; [done|].
  destruct (Z.eqb_spec e 255); [unfold F64_INF; lia|].
  destruct (Z.eqb_spec e 0); apply f64_scaled_bound; lia.
Qed.
