(* ===== verification/Model.v ===== *)
(** * The data model (acetone-model/src/lib.rs)

    Property values and the temporal types.  Machine integers are [Z] with
    the width's range in [value_ok], an [f64] is its bit pattern, a Rust
    [String] is its UTF-8 bytes (with [str_ok] for the type's invariant) and
    a [Vec] is a list.  [value_ok] is the invariant every value of the Rust
    type satisfies by construction. *)
From stdpp Require Import base list numbers.
From Stdlib Require Import ZArith Lia.
From S2P Require Import Prelude Ieee.

Local Open Scope Z_scope.

Definition NANOS_PER_DAY : Z := 86400000000000.
Definition MAX_OFFSET_MINUTES : Z := 18 * 60.

Record Date : Type := mkDate { days : Z }.
Record Time : Type := mkTime { nanos : Z }.
Record DateTime : Type := mkDateTime { epoch_nanos : Z; offset_minutes : Z }.
Record Duration : Type := mkDuration { months : Z; ddays : Z; dnanos : Z }.

#[warnings="-register-all"]
Inductive Value : Type :=
| VNull
| VBool (b : bool)
| VInt (n : Z)
| VFloat (bits : Z)
| VString (s : bytes)
| VBytes (b : bytes)
| VDate (d : Date)
| VTime (t : Time)
| VDateTime (dt : DateTime)
| VDuration (d : Duration)
| VList (items : list Value).

(** Induction with the hypothesis for every list item. *)
Section value_ind.
Context (P : Value -> Prop).
Hypothesis Hnull : P VNull.
Hypothesis Hbool : forall b, P (VBool b).
Hypothesis Hint : forall n, P (VInt n).
Hypothesis Hfloat : forall x, P (VFloat x).
Hypothesis Hstring : forall s, P (VString s).
Hypothesis Hbytes : forall b, P (VBytes b).
Hypothesis Hdate : forall d, P (VDate d).
Hypothesis Htime : forall t, P (VTime t).
Hypothesis Hdatetime : forall dt, P (VDateTime dt).
Hypothesis Hduration : forall d, P (VDuration d).
Hypothesis Hlist : forall items, Forall P items -> P (VList items).

Fixpoint Value_ind' (v : Value) : P v :=
  match v with
  | VNull => Hnull
  | VBool b => Hbool b
  | VInt n => Hint n
  | VFloat x => Hfloat x
  | VString s => Hstring s
  | VBytes b => Hbytes b
  | VDate d => Hdate d
  | VTime t => Htime t
  | VDateTime dt => Hdatetime dt
  | VDuration d => Hduration d
  | VList items => Hlist items
      ((fix go (l : list Value) : Forall P l :=
          match l with
          | [] => Forall_nil_2 P
          | v :: l => Forall_cons_2 P v l (Value_ind' v) (go l)
          end) items)
  end.
End value_ind.

#[global] Instance Date_eq_dec : EqDecision Date.
Proof. solve_decision. Defined.
#[global] Instance Time_eq_dec : EqDecision Time.
Proof. solve_decision. Defined.
#[global] Instance DateTime_eq_dec : EqDecision DateTime.
Proof. solve_decision. Defined.
#[global] Instance Duration_eq_dec : EqDecision Duration.
Proof. solve_decision. Defined.

#[global] Instance Value_eq_dec : EqDecision Value.
Proof.
  refine (fix go v w : Decision (v = w) :=
    match v, w with
    | VNull, VNull => left eq_refl
    | VBool a, VBool b => cast_if (decide (a = b))
    | VInt a, VInt b => cast_if (decide (a = b))
    | VFloat a, VFloat b => cast_if (decide (a = b))
    | VString a, VString b => cast_if (decide (a = b))
    | VBytes a, VBytes b => cast_if (decide (a = b))
    | VDate a, VDate b => cast_if (decide (a = b))
    | VTime a, VTime b => cast_if (decide (a = b))
    | VDateTime a, VDateTime b => cast_if (decide (a = b))
    | VDuration a, VDuration b => cast_if (decide (a = b))
    | VList a, VList b => cast_if (@decide (a = b) (@list_eq_dec Value go a b))
    | _, _ => right _
    end); try clear go; abstract congruence.
Defined.

(** ** UTF-8 ([str::from_utf8])

    The well-formed byte sequences of the Unicode standard, table 3-7: no
    overlong forms, no surrogates, nothing above U+10FFFF. *)

Definition cont (b : byte) : bool := in_range 0x80 0xc0 (b2z b).

Fixpoint utf8_valid (l : bytes) : bool :=
  match l with
  | [] => true
  | b0 :: l1 =>
    let z := b2z b0 in
    if z <? 0x80 then utf8_valid l1
    else match l1 with
    | [] => false
    | b1 :: l2 =>
      if in_range 0xc2 0xe0 z then cont b1 && utf8_valid l2
      else match l2 with
      | [] => false
      | b2 :: l3 =>
        if in_range 0xe0 0xf0 z then
          in_range (if z =? 0xe0 then 0xa0 else 0x80)
                   (if z =? 0xed then 0xa0 else 0xc0) (b2z b1)
          && cont b2 && utf8_valid l3
        else match l3 with
        | [] => false
        | b3 :: l4 =>
          if in_range 0xf0 0xf5 z then
            in_range (if z =? 0xf0 then 0x90 else 0x80)
                     (if z =? 0xf4 then 0x90 else 0xc0) (b2z b1)
            && cont b2 && cont b3 && utf8_valid l4
          else false
        end
      end
    end
  end.

(** A Rust allocation never exceeds [isize::MAX] bytes. *)
Definition len_ok {A : Type} (l : list A) : bool := Z.of_nat (length l) <? 2 ^ 63.
Definition str_ok (s : bytes) : bool := utf8_valid s && len_ok s.

Definition time_ok (t : Time) : bool := is_u64 (nanos t).
Definition datetime_ok (dt : DateTime) : bool :=
  is_i64 (epoch_nanos dt) && is_i16 (offset_minutes dt).
Definition duration_ok (d : Duration) : bool :=
  is_i64 (months d) && is_i64 (ddays d) && is_i64 (dnanos d).

Fixpoint value_ok (v : Value) : bool :=
  match v with
  | VNull | VBool _ => true
  | VInt n => is_i64 n
  | VFloat x => is_u64 x
  | VString s => str_ok s
  | VBytes b => len_ok b
  | VDate d => is_i64 (days d)
  | VTime t => time_ok t
  | VDateTime dt => datetime_ok dt
  | VDuration d => duration_ok d
  | VList items => len_ok items && forallb value_ok items
  end.

(** [NANOS_PER_DAY] and the UTC-offset bound, as the encoders test them. *)
Definition time_in_range (t : Time) : bool := nanos t <? NANOS_PER_DAY.
Definition offset_in_range (offset : Z) : bool := Z.abs offset <=? MAX_OFFSET_MINUTES.

Lemma forallb_Forall_true {A} (f : A -> bool) l :
  forallb f l = true <-> Forall (fun x => f x = true) l.
Proof.
  induction l as [|x l IH]; simpl; [done|].
  by rewrite andb_true_iff, Forall_cons_iff, IH.
Qed.

Lemma value_ok_list items :
  value_ok (VList items) = true <->
  len_ok items = true /\ Forall (fun v => value_ok v = true) items.
Proof. simpl. by rewrite andb_true_iff, forallb_Forall_true. Qed.

Example utf8_accepts : utf8_valid [x63; xc3; xa9; xe2; x82; xac; xf0; x9f; x92; xa9] = true.
Proof. reflexivity. Qed.
Example utf8_rejects_surrogate : utf8_valid [xed; xa0; x80] = false.
Proof. reflexivity. Qed.
