(* ===== verification/KeysOrder.v ===== *)
(** * The key encoding preserves order

    Every element encoding is an order-preserving frame: comparing two encoded
    elements, each followed by arbitrary bytes, compares the logical values
    first and the following bytes second.  Concatenations of frames are frames,
    which gives the order of tuples, of lists and of the composite graph keys. *)
From S2P Require Import Prelude Ieee Model Keys.

Local Open Scope Z_scope.

(** [ea] and [eb] decide the comparison of their values before whatever
    follows them. *)
Definition frames (ea eb : bytes) (c : comparison) : Prop :=
  forall x y, bytes_cmp (ea ++ x) (eb ++ y) = cmp_then c (bytes_cmp x y).

Lemma frames_app ea eb fa fb c d :
  frames ea eb c -> frames fa fb d -> frames (ea ++ fa) (eb ++ fb) (cmp_then c d).
Proof.
  intros H1 H2 x y. by rewrite <-!app_assoc, H1, H2, cmp_then_assoc.
Qed.

Lemma frames_tag t ea eb c : frames ea eb c -> frames (t :: ea) (t :: eb) c.
Proof.
  intros H x y. simpl app. rewrite bytes_cmp_cons, H.
  by rewrite (proj2 (byte_cmp_eq t t) eq_refl).
Qed.

Lemma frames_cmp ea eb c : frames ea eb c -> bytes_cmp ea eb = c.
Proof.
  intros H. pose proof (H [] []) as E. rewrite !app_nil_r in E.
  by rewrite E, cmp_then_Eq_r.
Qed.

Lemma frames_fixed n u v :
  0 <= u < 256 ^ Z.of_nat n -> 0 <= v < 256 ^ Z.of_nat n ->
  frames (be_bytes n u) (be_bytes n v) (u ?= v).
Proof.
  intros Hu Hv x y. rewrite bytes_cmp_app by (by rewrite !length_be_bytes).
  by rewrite be_bytes_cmp.
Qed.

(** ** Integers *)

Lemma flip_spec n : is_i64 n = true -> Z.lxor (to_unsigned 64 n) SIGN_BIT = n + 2 ^ 63.
Proof.
  intros H. unrange. unfold SIGN_BIT, to_unsigned.
  pose proof (Z.mod_pos_bound n (2 ^ 64) ltac:(lia)) as Hb.
  pose proof (lxor_top 64 (n `mod` 2 ^ 64) ltac:(lia) Hb) as E.
  change (64 - 1) with 63 in E. rewrite E.
  destruct (Z.ltb_spec (n `mod` 2 ^ 64) (2 ^ 63)); Z.div_mod_to_equations; lia.
Qed.

Lemma flip16_spec n : is_i16 n = true -> Z.lxor (to_unsigned 16 n) 0x8000 = n + 2 ^ 15.
Proof.
  intros H. unrange. unfold to_unsigned. change 0x8000 with (2 ^ 15).
  pose proof (Z.mod_pos_bound n (2 ^ 16) ltac:(lia)) as Hb.
  pose proof (lxor_top 16 (n `mod` 2 ^ 16) ltac:(lia) Hb) as E.
  change (16 - 1) with 15 in E. rewrite E.
  destruct (Z.ltb_spec (n `mod` 2 ^ 16) (2 ^ 15)); Z.div_mod_to_equations; lia.
Qed.

Lemma Zcompare_add a b c : (a + c ?= b + c) = (a ?= b).
Proof. rewrite !(Z.add_comm _ c). apply Z.add_compare_mono_l. Qed.

Lemma frames_i64 a b :
  is_i64 a = true -> is_i64 b = true ->
  frames (flip_sign_i64 a) (flip_sign_i64 b) (a ?= b).
Proof.
  intros Ha Hb. unfold flip_sign_i64. rewrite !flip_spec by done.
  rewrite <-(Zcompare_add a b (2 ^ 63)). unrange.
  apply frames_fixed; change (256 ^ Z.of_nat 8) with (2 ^ 64); lia.
Qed.

Lemma frames_i16 a b :
  is_i16 a = true -> is_i16 b = true ->
  frames (be_bytes 2 (Z.lxor (to_unsigned 16 a) 0x8000))
         (be_bytes 2 (Z.lxor (to_unsigned 16 b) 0x8000)) (a ?= b).
Proof.
  intros Ha Hb. rewrite !flip16_spec by done.
  rewrite <-(Zcompare_add a b (2 ^ 15)). unrange.
  apply frames_fixed; change (256 ^ Z.of_nat 2) with (2 ^ 16); lia.
Qed.

(** ** Floats *)

Lemma normalise_zero_u64 x : is_u64 x = true -> is_u64 (normalise_zero x) = true.
Proof. intros H. unfold normalise_zero. by destruct (f64_is_zero x). Qed.

Definition float_code (bits : Z) : Z :=
  if negb (Z.land bits SIGN_BIT =? 0) then to_unsigned 64 (Z.lnot bits) else Z.lor bits SIGN_BIT.

Lemma float_code_spec x :
  is_u64 x = true -> float_code x = if x <? SIGN_BIT then x + SIGN_BIT else 2 ^ 64 - 1 - x.
Proof.
  intros H. unrange. unfold float_code, SIGN_BIT.
  rewrite land_pow2_testbit, negb_involutive, Z.testbit_odd, Z.shiftr_div_pow2 by lia.
  destruct (Z.ltb_spec x (2 ^ 63)).
  - rewrite Z.div_small by lia. simpl Z.odd. cbv iota.
    rewrite Z.lor_comm. change (2 ^ 63) with (Z.shiftl 1 63) at 1.
    rewrite lor_shiftl_add; lia.
  - replace (x / 2 ^ 63) with 1 by (Z.div_mod_to_equations; lia). simpl Z.odd. cbv iota.
    unfold to_unsigned. rewrite (Z.lnot_eq_pred_opp x) by done.
    rewrite <-(Z.mod_add _ 1), Z.mod_small by lia. lia.
Qed.

Lemma total_key_code x :
  is_u64 x = true -> total_key x = float_code x - SIGN_BIT.
Proof.
  intros H. rewrite total_key_spec, float_code_spec by done. unfold SIGN_BIT.
  destruct (x <? 2 ^ 63); lia.
Qed.

Lemma frames_float a b :
  is_u64 a = true -> is_u64 b = true ->
  frames (write_float a) (write_float b) (total_cmp (normalise_zero a) (normalise_zero b)).
Proof.
  intros Ha%normalise_zero_u64 Hb%normalise_zero_u64. unfold write_float, total_cmp.
  rewrite !total_key_code, <-(Zcompare_add _ _ SIGN_BIT), !Z.sub_add by done.
  apply frames_fixed; change (256 ^ Z.of_nat 8) with (2 ^ 64);
    fold (float_code (normalise_zero a)); fold (float_code (normalise_zero b));
    rewrite float_code_spec by done; unrange; unfold SIGN_BIT;
    match goal with |- context [?u <? ?v] => destruct (Z.ltb_spec u v) end; lia.
Qed.

(** ** Chunked byte strings *)

Lemma write_chunked_long g rest :
  length g = GROUP ->
  write_chunked (g ++ rest) = g ++ MARKER_CONTINUE :: write_chunked rest.
Proof. by do 9 (destruct g as [|? g]; try done). Qed.

Lemma write_chunked_short s :
  (length s < GROUP)%nat ->
  write_chunked s =
    s ++ repeat x00 (GROUP - length s) ++ [z2b (MARKER_BASE + Z.of_nat (length s))].
Proof. unfold GROUP. do 8 (destruct s as [|? s]; [done|]). simpl. lia. Qed.

(** Zero padding sorts below everything of its length. *)
Lemma zeros_least w : bytes_cmp (repeat x00 (length w)) w <> Gt.
Proof.
  induction w as [|b w IH]; [done|]. simpl repeat. rewrite bytes_cmp_cons.
  unfold byte_cmp. change (b2z x00) with 0. pose proof (b2z_range b).
  destruct (Z.compare_spec 0 (b2z b)); simpl; [done|done|lia].
Qed.

(** Comparing zero-padded strings and then their lengths compares them. *)
Lemma padded_cmp s t k l :
  (length s + k = length t + l)%nat ->
  cmp_then (bytes_cmp (s ++ repeat x00 k) (t ++ repeat x00 l)) (length s ?= length t)%nat
    = bytes_cmp s t.
Proof.
  revert t. induction s as [|a s IH]; intros [|b t]; simpl length; intros Hl.
  - assert (k = l) as -> by lia. by rewrite bytes_cmp_refl.
  - simpl app. change (bytes_cmp [] (b :: t)) with Lt.
    pose proof (zeros_least (b :: t ++ repeat x00 l)) as H.
    replace (length (b :: t ++ repeat x00 l)) with k in H
      by (simpl; rewrite length_app, repeat_length; lia).
    by destruct (bytes_cmp (repeat x00 k) (b :: t ++ repeat x00 l)).
  - simpl app. change (bytes_cmp (a :: s) []) with Gt.
    pose proof (zeros_least (a :: s ++ repeat x00 k)) as H.
    replace (length (a :: s ++ repeat x00 k)) with l in H
      by (simpl; rewrite length_app, repeat_length; lia).
    rewrite bytes_cmp_sym in H.
    by destruct (bytes_cmp (a :: s ++ repeat x00 k) (repeat x00 l)).
  - simpl app. rewrite !bytes_cmp_cons, <-cmp_then_assoc.
    change (S (length s) ?= S (length t))%nat with (length s ?= length t)%nat.
    by rewrite IH by lia.
Qed.

Lemma bytes_cmp_longer g s t :
  (length t < length g)%nat -> bytes_cmp (g ++ s) t = bytes_cmp g t.
Proof.
  revert t. induction g as [|a g IH]; intros [|b t]; simpl; try lia; [done|].
  intros Hl. by rewrite !bytes_cmp_cons, IH by lia.
Qed.

Lemma marker_cmp (m n : nat) :
  (m < GROUP)%nat -> (n < GROUP)%nat ->
  byte_cmp (z2b (MARKER_BASE + Z.of_nat m)) (z2b (MARKER_BASE + Z.of_nat n)) = (m ?= n)%nat.
Proof.
  unfold byte_cmp, MARKER_BASE, GROUP. intros Hm Hn. rewrite !b2z_z2b, !Z.mod_small by lia.
  destruct (Nat.compare_spec m n); [apply Z.compare_eq_iff | apply Z.compare_lt_iff
    | apply Z.compare_gt_iff]; lia.
Qed.

Lemma marker_continue_gt (n : nat) :
  (n < GROUP)%nat -> byte_cmp MARKER_CONTINUE (z2b (MARKER_BASE + Z.of_nat n)) = Gt.
Proof.
  unfold byte_cmp, MARKER_BASE, GROUP. intros Hn. rewrite b2z_z2b, Z.mod_small by lia.
  apply Z.compare_gt_iff. change (b2z MARKER_CONTINUE) with 255. lia.
Qed.

(** A full group against a final group. *)
Lemma chunked_long_short g s t x y :
  length g = GROUP -> (length t < GROUP)%nat ->
  bytes_cmp (write_chunked (g ++ s) ++ x) (write_chunked t ++ y) = bytes_cmp (g ++ s) t
  /\ bytes_cmp (g ++ s) t <> Eq.
Proof.
  intros Hg Ht. rewrite write_chunked_long, (write_chunked_short t) by done.
  rewrite (bytes_cmp_longer g s t) by lia.
  pose proof (padded_cmp g t 0 (GROUP - length t) ltac:(lia)) as Hp.
  rewrite app_nil_r, (proj2 (Nat.compare_gt_iff _ _)) in Hp by lia.
  rewrite <-Hp. split.
  - rewrite <-!app_assoc, (app_assoc t), bytes_cmp_app
      by (rewrite length_app, repeat_length; lia).
    cbn [app]. rewrite bytes_cmp_cons, (marker_continue_gt _ Ht).
    done.
  - by destruct (bytes_cmp g _).
Qed.

Lemma split_group (s : bytes) :
  (GROUP <= length s)%nat ->
  exists g r : bytes, s = g ++ r /\ length g = GROUP /\ (length r < length s)%nat.
Proof.
  intros H. exists (take GROUP s), (drop GROUP s).
  rewrite take_drop, length_take, length_drop. unfold GROUP in *. split_and!; [done|lia|lia].
Qed.

Lemma frames_chunked s t : frames (write_chunked s) (write_chunked t) (bytes_cmp s t).
Proof.
  revert t. induction s as [s IH] using (induction_ltof1 _ (@length byte)). intros t x y.
  destruct (decide (GROUP <= length s)%nat) as [Hs|Hs], (decide (GROUP <= length t)%nat) as [Ht|Ht].
  - destruct (split_group s Hs) as (g & s' & -> & Hg & Hl).
    destruct (split_group t Ht) as (h & t' & -> & Hh & _).
    rewrite !write_chunked_long, <-!app_assoc by done.
    rewrite (bytes_cmp_app g h), (bytes_cmp_app g h) by congruence.
    cbn [app]. rewrite bytes_cmp_cons, (proj2 (byte_cmp_eq _ _) eq_refl).
    cbn [cmp_then]. by rewrite IH, cmp_then_assoc.
  - destruct (split_group s Hs) as (g & s' & -> & Hg & Hl).
    destruct (chunked_long_short g s' t x y) as [-> ?]; [done|lia|].
    by destruct (bytes_cmp _ t).
  - destruct (split_group t Ht) as (h & t' & -> & Hh & Hl).
    destruct (chunked_long_short h t' s y x) as [H ?]; [done|lia|].
    rewrite bytes_cmp_sym, H, (bytes_cmp_sym (h ++ t') s). by destruct (bytes_cmp (h ++ t') s).
  - rewrite !write_chunked_short by lia. rewrite <-!app_assoc, (app_assoc s), (app_assoc t).
    rewrite bytes_cmp_app by (rewrite !length_app, !repeat_length; lia).
    cbn [app]. rewrite bytes_cmp_cons, marker_cmp, cmp_then_assoc by lia.
    by rewrite padded_cmp by lia.
Qed.

(** ** Elements, lists and tuples *)

Lemma write_element_tag v d e :
  write_element v d = Ok e -> exists body, e = rank v :: body.
Proof.
  intros H. destruct v as [|[]| | | | | | | | |items]; cbn [write_element] in H;
    destruct (MAX_DEPTH <? d)%nat; try done; repeat case_match; rinv; subst; eauto.
Qed.

Lemma rank_gt_list_end v : byte_cmp TAG_LIST_END (rank v) = Lt.
Proof. by destruct v as [|[]| | | | | | | | |]. Qed.

Lemma zip_cmp_list_cmp {A} (c : A -> A -> comparison) l k :
  match zip_cmp c l k with Eq => (length l ?= length k)%nat | ord => ord end = list_cmp c l k.
Proof.
  revert k. induction l as [|x l IH]; intros [|y k]; try done.
  simpl. rewrite <-IH. by destruct (c x y).
Qed.

Lemma key_cmp_list_cmp a b : key_cmp a b = list_cmp value_cmp a b.
Proof. apply zip_cmp_list_cmp. Qed.

Lemma value_cmp_list x y : value_cmp (VList x) (VList y) = list_cmp value_cmp x y.
Proof. simpl. apply zip_cmp_list_cmp. Qed.

(** Items in lists, closed by the terminator. *)
Lemma frames_items (f g : Value -> result KeyEncodeError bytes) l k el ek :
  (forall v e, f v = Ok e -> exists body, e = rank v :: body) ->
  (forall v e, g v = Ok e -> exists body, e = rank v :: body) ->
  Forall (fun a => forall b ea eb, b ∈ k -> f a = Ok ea -> g b = Ok eb ->
    frames ea eb (value_cmp a b)) l ->
  write_all f l = Ok el -> write_all g k = Ok ek ->
  frames (el ++ [TAG_LIST_END]) (ek ++ [TAG_LIST_END]) (list_cmp value_cmp l k).
Proof.
  intros Hf Hg HF. revert k el ek HF. induction l as [|a l IH]; intros k el ek HF.
  - intros [= <-]. destruct k as [|b k]; simpl write_all; intros Hk; rinv; subst.
    + intros x y. simpl. by rewrite bytes_cmp_cons.
    + destruct (Hg _ _ Ha) as [body ->]. intros x y. simpl.
      by rewrite bytes_cmp_cons, rank_gt_list_end.
  - apply Forall_cons_1 in HF as [Ha HF]. simpl write_all. intros Hl. rinv. subst.
    destruct k as [|b k]; simpl write_all; intros Hk; rinv; subst.
    + destruct (Hf _ _ Ha0) as [body ->]. intros x y. simpl.
      by rewrite bytes_cmp_cons, byte_cmp_sym, rank_gt_list_end.
    + simpl list_cmp. rewrite <-!app_assoc. apply frames_app.
      * apply Ha; [apply list_elem_of_here|done|done].
      * eapply IH; [|done|done]. eapply Forall_impl; [exact HF|].
        intros c Hc b' ec eb' Hb'. apply Hc. by apply list_elem_of_further.
Qed.

Lemma value_cmp_rank_ne a b :
  byte_cmp (rank a) (rank b) <> Eq -> value_cmp a b = byte_cmp (rank a) (rank b).
Proof. intros H. destruct a; simpl; by destruct (byte_cmp _ _). Qed.

(** Elements of different types are decided by their tags. *)
Lemma frames_by_rank a b da db ea eb :
  write_element a da = Ok ea -> write_element b db = Ok eb ->
  (rank a = rank b -> frames ea eb (value_cmp a b)) ->
  frames ea eb (value_cmp a b).
Proof.
  intros Ha Hb H. destruct (decide (rank a = rank b)) as [|Hne]; [auto|].
  rewrite <-byte_cmp_eq in Hne.
  destruct (write_element_tag _ _ _ Ha) as [ba ->], (write_element_tag _ _ _ Hb) as [bb ->].
  intros x y. rewrite value_cmp_rank_ne by done. simpl.
  rewrite bytes_cmp_cons. by destruct (byte_cmp _ _).
Qed.

Lemma frames_u64 u v :
  is_u64 u = true -> is_u64 v = true -> frames (be_bytes 8 u) (be_bytes 8 v) (u ?= v).
Proof. intros Hu Hv. unrange. by apply frames_fixed. Qed.

Create HintDb frames.
#[export] Hint Resolve frames_i64 frames_i16 frames_u64 frames_float frames_chunked
  frames_app frames_tag : frames.

Lemma frames_element a b da db ea eb :
  value_ok a = true -> value_ok b = true ->
  write_element a da = Ok ea -> write_element b db = Ok eb ->
  frames ea eb (value_cmp a b).
Proof.
  revert b da db ea eb. induction a as [| | | | | | | | | |items IH] using Value_ind';
    intros b' da db ea eb Hoka Hokb Ha Hb.
  all: apply (frames_by_rank _ _ da db); [done|done|intros Er].
  all: destruct b' as [| | | | | | | | | |items'];
    repeat match goal with x : bool |- _ => destruct x end; try discriminate Er; clear Er.
  all: cbn [write_element] in Ha, Hb; destruct (MAX_DEPTH <? _)%nat; try done.
  all: destruct (MAX_DEPTH <? _)%nat; try done.
  all: repeat case_match; rinv; subst; try done.
  all: cbn [value_ok datetime_ok duration_ok time_ok] in Hoka, Hokb.
  all: unfold datetime_ok, duration_ok, time_ok in *; rewrite ?andb_true_iff in *; destruct_and?.
  all: try (cbn [value_cmp rank]; rewrite (proj2 (byte_cmp_eq _ _) eq_refl);
    unfold datetime_cmp, duration_cmp; by eauto 10 with frames).
  rewrite value_cmp_list. apply frames_tag.
  rewrite forallb_Forall_true in *.
  eapply frames_items; [..|eassumption|eassumption].
  1, 2: intros v e; apply write_element_tag.
  rewrite Forall_forall in * |- *. eauto.
Qed.


Lemma frames_tuple a b ea eb :
  Forall (fun v => value_ok v = true) a -> Forall (fun v => value_ok v = true) b ->
  write_all (fun v => write_element v 0) a = Ok ea ->
  write_all (fun v => write_element v 0) b = Ok eb ->
  bytes_cmp ea eb = key_cmp a b.
Proof.
  intros Hoka Hokb Ha Hb. rewrite key_cmp_list_cmp.
  revert b ea eb Hokb Ha Hb. induction Hoka as [|v a Hv Hoka IH]; intros b ea eb Hokb Ha Hb.
  - apply Ok_inj in Ha as <-. destruct Hokb as [|w b Hw Hokb]; simpl in Hb; rinv; subst; [done|].
    match goal with H : write_element _ _ = Ok _ |- _ =>
      by destruct (write_element_tag _ _ _ H) as [body ->] end.
  - destruct Hokb as [|w b Hw Hokb]; simpl in Ha, Hb; rinv; subst.
    + match goal with H : write_element _ _ = Ok _ |- _ =>
        by destruct (write_element_tag _ _ _ H) as [body ->] end.
    + simpl list_cmp. erewrite (frames_element v w) by eassumption. f_equal. eauto.
Qed.

(** C4: byte order is key order. For tuples of values of the Rust type,
    comparing the encoded keys as byte strings gives exactly what [key_cmp]
    gives on the tuples, so that range scans over encoded keys are range scans
    over logical keys. *)
Theorem encode_key_order a b ea eb :
  Forall (fun v => value_ok v = true) a -> Forall (fun v => value_ok v = true) b ->
  encode_key a = Ok ea -> encode_key b = Ok eb ->
  bytes_cmp ea eb = key_cmp a b.
Proof.
  intros Hoka Hokb Ha Hb. unfold encode_key, encode_key_into in *. rinv. subst.
  by apply frames_tuple.
Qed.

Definition order_left : list Value := [VList [VString [x61]; VInt (-1)]; VFloat 0x8000000000000000].
Definition order_right : list Value := [VList [VString [x61]; VInt 3]; VNull].

Lemma encode_key_order_witness :
  exists ea eb, encode_key order_left = Ok ea /\ encode_key order_right = Ok eb /\
    bytes_cmp ea eb = Lt /\ key_cmp order_left order_right = Lt.
Proof.
  eexists _, _. split; [vm_compute; reflexivity|]. split; [vm_compute; reflexivity|].
  assert (key_cmp order_left order_right = Lt) as E by (vm_compute; reflexivity).
  split; [|exact E]. rewrite <-E.
  apply encode_key_order; [by repeat constructor..|vm_compute; reflexivity|vm_compute; reflexivity].
Defined.
