(* ===== verification/KeysCodec.v ===== *)
(** * The key codec round-trips

    Decoding inverts encoding up to the normalisation of negative zero, the
    decoder accepts canonical encodings only, and it never runs out of fuel,
    so the model's loops are the source's. *)
From S2P Require Import Prelude Ieee Model Keys KeysOrder.

Local Open Scope Z_scope.

(** What a value is after a trip through the key encoding. *)
Fixpoint normal (v : Value) : Value :=
  match v with
  | VFloat x => VFloat (normalise_zero x)
  | VList items => VList (map normal items)
  | v => v
  end.

(** Evaluate the byte tests between constants. *)
Ltac eval_tags :=
  repeat match goal with
  | |- context [?a =b? ?b] =>
      let r := eval vm_compute in (a =b? b) in
      match r with
      | true => change (a =b? b) with true
      | false => change (a =b? b) with false
      end; cbv iota
  end.

(** ** Fixed-width fields *)

Lemma read_array_app n a rest : length a = n -> read_array n (a ++ rest) = Ok (a, rest).
Proof.
  intros <-. unfold read_array. rewrite length_app.
  destruct (Nat.ltb_spec (length a + length rest) (length a)); [lia|].
  by rewrite take_app_length, drop_app_length.
Qed.

Lemma read_array_Ok n input a rest :
  read_array n input = Ok (a, rest) -> input = a ++ rest /\ length a = n.
Proof.
  unfold read_array. destruct (Nat.ltb_spec (length input) n); [done|].
  intros H'. rinv. subst. rewrite take_drop, length_take. split; [done|lia].
Qed.

Lemma unflip_flip n : is_i64 n = true -> unflip_sign_i64 (flip_sign_i64 n) = n.
Proof.
  intros H. unfold unflip_sign_i64, flip_sign_i64.
  pose proof (flip_spec n H) as E. unrange.
  rewrite be_Z_be_bytes, Z.mod_small by (rewrite E; change (256 ^ Z.of_nat 8) with (2 ^ 64); lia).
  rewrite Z.lxor_assoc, Z.lxor_nilpotent, Z.lxor_0_r. apply to_signed_unsigned; lia.
Qed.

(** The xor of a [w]-bit word with its top bit stays a [w]-bit word. *)
Lemma lxor_top_range w u :
  0 < w -> 0 <= u < 2 ^ w -> 0 <= Z.lxor u (2 ^ (w - 1)) < 2 ^ w.
Proof.
  intros Hw Hu. rewrite lxor_top by done.
  assert (2 ^ w = 2 * 2 ^ (w - 1)) by (rewrite <-Z.pow_succ_r; [f_equal; lia|lia]).
  destruct (Z.ltb_spec u (2 ^ (w - 1))); lia.
Qed.

Lemma flip_unflip b :
  length b = 8%nat -> flip_sign_i64 (unflip_sign_i64 b) = b /\ is_i64 (unflip_sign_i64 b) = true.
Proof.
  intros Hb. pose proof (be_Z_bound b) as Hz. rewrite Hb in Hz.
  change (256 ^ Z.of_nat 8) with (2 ^ 64) in Hz.
  pose proof (lxor_top_range 64 (be_Z b) ltac:(lia) Hz) as Hx.
  change (2 ^ (64 - 1)) with SIGN_BIT in Hx. unfold flip_sign_i64, unflip_sign_i64. split.
  - rewrite to_unsigned_signed, Z.lxor_assoc, Z.lxor_nilpotent, Z.lxor_0_r by lia.
    by apply be_bytes_be_Z.
  - apply in_range_spec, (to_signed_range 64). lia.
Qed.

Definition flip_i16 (n : Z) : bytes := be_bytes 2 (Z.lxor (to_unsigned 16 n) 0x8000).
Definition unflip_i16 (b : bytes) : Z := to_signed 16 (Z.lxor (be_Z b) 0x8000).

Lemma unflip_flip_i16 n : is_i16 n = true -> unflip_i16 (flip_i16 n) = n.
Proof.
  intros H. unfold unflip_i16, flip_i16. pose proof (flip16_spec n H) as E. unrange.
  rewrite be_Z_be_bytes, Z.mod_small by (rewrite E; change (256 ^ Z.of_nat 2) with (2 ^ 16); lia).
  rewrite Z.lxor_assoc, Z.lxor_nilpotent, Z.lxor_0_r. apply to_signed_unsigned; lia.
Qed.

Lemma flip_unflip_i16 b :
  length b = 2%nat -> flip_i16 (unflip_i16 b) = b /\ is_i16 (unflip_i16 b) = true.
Proof.
  intros Hb. pose proof (be_Z_bound b) as Hz. rewrite Hb in Hz.
  change (256 ^ Z.of_nat 2) with (2 ^ 16) in Hz.
  pose proof (lxor_top_range 16 (be_Z b) ltac:(lia) Hz) as Hx.
  change (2 ^ (16 - 1)) with 0x8000 in Hx. unfold flip_i16, unflip_i16. split.
  - rewrite to_unsigned_signed, Z.lxor_assoc, Z.lxor_nilpotent, Z.lxor_0_r by lia.
    by apply be_bytes_be_Z.
  - apply in_range_spec, (to_signed_range 16). lia.
Qed.

Lemma read_i64_flip n rest :
  is_i64 n = true -> read_i64 (flip_sign_i64 n ++ rest) = Ok (n, rest).
Proof.
  intros H. unfold read_i64. rewrite read_array_app by apply length_be_bytes.
  simpl. by rewrite unflip_flip.
Qed.

Lemma read_i64_Ok input n rest :
  read_i64 input = Ok (n, rest) -> input = flip_sign_i64 n ++ rest /\ is_i64 n = true.
Proof.
  unfold read_i64. intros H. rinv. destruct a as [b rest']. simpl in H. rinv. subst.
  apply read_array_Ok in Ha as [-> Hb]. by destruct (flip_unflip b Hb) as [-> ->].
Qed.

(** ** Floats *)

Definition float_decode (enc : Z) : Z :=
  if negb (Z.land enc SIGN_BIT =? 0) then Z.lxor enc SIGN_BIT else to_unsigned 64 (Z.lnot enc).

Lemma float_decode_spec e :
  is_u64 e = true -> float_decode e = if e <? SIGN_BIT then 2 ^ 64 - 1 - e else e - SIGN_BIT.
Proof.
  intros H. unrange. unfold float_decode, SIGN_BIT.
  rewrite land_pow2_testbit, negb_involutive, Z.testbit_odd, Z.shiftr_div_pow2 by lia.
  destruct (Z.ltb_spec e (2 ^ 63)) as [Hl|Hl].
  - rewrite Z.div_small by lia. simpl Z.odd. cbv iota.
    unfold to_unsigned. rewrite (Z.lnot_eq_pred_opp e) by done.
    rewrite <-(Z.mod_add _ 1), Z.mod_small by lia. lia.
  - replace (e / 2 ^ 63) with 1 by (Z.div_mod_to_equations; lia). simpl Z.odd. cbv iota.
    pose proof (lxor_top 64 e ltac:(lia) H) as E. change (64 - 1) with 63 in E. rewrite E.
    destruct (Z.ltb_spec e (2 ^ 63)); lia.
Qed.

Lemma float_code_range x : is_u64 x = true -> is_u64 (float_code x) = true.
Proof.
  intros H. apply in_range_spec. rewrite float_code_spec by done. unrange. unfold SIGN_BIT.
  destruct (Z.ltb_spec x (2 ^ 63)); lia.
Qed.

Lemma float_decode_code x : is_u64 x = true -> float_decode (float_code x) = x.
Proof.
  intros H. rewrite float_decode_spec by (by apply float_code_range).
  rewrite float_code_spec by done. unrange. unfold SIGN_BIT.
  destruct (Z.ltb_spec x (2 ^ 63)).
  - destruct (Z.ltb_spec (x + 2 ^ 63) (2 ^ 63)); lia.
  - destruct (Z.ltb_spec (2 ^ 64 - 1 - x) (2 ^ 63)); lia.
Qed.

Lemma float_code_decode e : is_u64 e = true ->
  float_code (float_decode e) = e /\ is_u64 (float_decode e) = true.
Proof.
  intros H. assert (is_u64 (float_decode e) = true) as Hd.
  { apply in_range_spec. rewrite float_decode_spec by done. unrange. unfold SIGN_BIT.
    destruct (Z.ltb_spec e (2 ^ 63)); lia. }
  split; [|done]. rewrite float_code_spec by done. rewrite float_decode_spec in * by done.
  unrange. unfold SIGN_BIT in *.
  destruct (Z.ltb_spec e (2 ^ 63)).
  - destruct (Z.ltb_spec (2 ^ 64 - 1 - e) (2 ^ 63)); lia.
  - destruct (Z.ltb_spec (e - 2 ^ 63) (2 ^ 63)); lia.
Qed.

Lemma normalise_zero_nan x : f64_is_nan x = false -> f64_is_nan (normalise_zero x) = false.
Proof. intros H. unfold normalise_zero. by destruct (f64_is_zero x). Qed.

Lemma normalise_zero_not_neg x : normalise_zero x <> SIGN_BIT.
Proof.
  unfold normalise_zero. destruct (f64_is_zero x) eqn:E; [done|].
  intros ->. by vm_compute in E.
Qed.

Lemma f64_is_zero_spec x : is_u64 x = true -> f64_is_zero x = true -> x = 0 \/ x = SIGN_BIT.
Proof.
  intros H. unrange. unfold f64_is_zero, f64_abs, SIGN_BIT.
  rewrite Z.eqb_eq, Z.land_ones by lia. intros E. destruct (Z.lt_ge_cases x (2 ^ 63)).
  - left. rewrite Z.mod_small in E; lia.
  - right. rewrite <-(Z.mod_add _ (-1)), Z.mod_small in E; lia.
Qed.

Lemma be_Z_u64 b : length b = 8%nat -> is_u64 (be_Z b) = true.
Proof. intros Hb. apply in_range_spec. pose proof (be_Z_bound b) as H. by rewrite Hb in H. Qed.

(** ** Chunked byte strings *)

Lemma read_u8_cons b rest : read_u8 (b :: rest) = Ok (b, rest).
Proof. done. Qed.

Lemma existsb_repeat_zero n : existsb (fun b => negb (b =b? x00)) (repeat x00 n) = false.
Proof. by induction n. Qed.

Lemma existsb_zero_repeat l :
  existsb (fun b => negb (b =b? x00)) l = false -> l = repeat x00 (length l).
Proof.
  induction l as [|b l IH]; [done|]. simpl. rewrite orb_false_iff.
  intros [Hb%negb_false_iff Hl]. destruct (byte_eqb_spec b x00); [|done].
  subst. f_equal. auto.
Qed.

Lemma read_chunked_write fuel s rest :
  (length s < fuel)%nat -> read_chunked fuel (write_chunked s ++ rest) = Ok (s, rest).
Proof.
  revert s. induction fuel as [|fuel IH]; intros s Hf; [lia|].
  destruct (decide (GROUP <= length s)%nat) as [Hs|Hs].
  - destruct (split_group s Hs) as (g & s' & -> & Hg & Hl).
    rewrite write_chunked_long, <-app_assoc by done. simpl read_chunked.
    rewrite read_array_app by done. cbn [rbind app]. rewrite read_u8_cons. cbn [rbind].
    eval_tags. by rewrite IH by lia.
  - rewrite write_chunked_short by lia. cbn [read_chunked].
    rewrite <-!app_assoc, app_assoc.
    rewrite read_array_app by (rewrite length_app, repeat_length; lia).
    cbn [rbind app]. rewrite read_u8_cons. cbn [rbind].
    assert (b2z (z2b (MARKER_BASE + Z.of_nat (length s))) = MARKER_BASE + Z.of_nat (length s)) as E.
    { rewrite b2z_z2b, Z.mod_small; [done|]. unfold MARKER_BASE, GROUP in *. lia. }
    destruct (byte_eqb_spec (z2b (MARKER_BASE + Z.of_nat (length s))) MARKER_CONTINUE) as [Ec|_].
    { rewrite Ec in E. change (b2z MARKER_CONTINUE) with 255 in E. unfold MARKER_BASE, GROUP in *. lia. }
    rewrite E. replace (in_range _ _ _) with true
      by (symmetry; apply in_range_spec; change (b2z MARKER_CONTINUE) with 255;
          unfold MARKER_BASE, GROUP in *; lia).
    cbn [negb]. replace (Z.to_nat _) with (length s) by lia.
    by rewrite drop_app_length, existsb_repeat_zero, take_app_length.
Qed.

Lemma read_chunked_Ok fuel input s rest :
  read_chunked fuel input = Ok (s, rest) -> input = write_chunked s ++ rest.
Proof.
  revert input s. induction fuel as [|fuel IH]; intros input s; [done|].
  cbn [read_chunked]. intros H. rinv.
  destruct a as [g input1]. cbn in H. rinv. destruct a as [m input2].
  apply read_array_Ok in Ha as [-> Hg].
  destruct input1 as [|m' input1]; [done|]. simpl in Ha0. rinv. subst m' input1.
  destruct (byte_eqb_spec m MARKER_CONTINUE) as [->|Hm].
  - rinv. destruct a as [out input3]. cbn in H. rinv. subst.
    rewrite (IH _ _ Ha), write_chunked_long, <-app_assoc by done. done.
  - destruct (in_range _ _ _) eqn:Er; [|done]. apply in_range_spec in Er.
    change (b2z MARKER_CONTINUE) with 255 in Er. cbn [negb] in H.
    destruct (existsb _ _) eqn:Ez; [done|]. rinv. subst.
    apply existsb_zero_repeat in Ez. rewrite length_drop, Hg in Ez.
    set (k := Z.to_nat (b2z m - MARKER_BASE)) in *.
    assert (k < GROUP)%nat by (unfold k, MARKER_BASE, GROUP in *; lia).
    assert (length (take k g) = k) as Hk by (rewrite length_take; lia).
    rewrite write_chunked_short by (by rewrite Hk).
    rewrite Hk, <-Ez, <-!app_assoc, (app_assoc (take k g)), take_drop. simpl. do 2 f_equal.
    apply b2z_inj. rewrite b2z_z2b, Z.mod_small; unfold k, MARKER_BASE in *; lia.
Qed.

Lemma read_chunked_fuel fuel input :
  (length input < fuel)%nat -> read_chunked fuel input <> Err KOutOfFuel.
Proof.
  revert input. induction fuel as [|fuel IH]; intros input Hf; [lia|].
  cbn [read_chunked]. destruct (read_array GROUP input) as [[g i1]|e] eqn:Ea; cbn [rbind].
  2: { unfold read_array in Ea. case_match; congruence. }
  apply read_array_Ok in Ea as [-> Hg]. rewrite length_app, Hg in Hf.
  destruct i1 as [|m i1]; cbn [read_u8 rbind]; [done|]. simpl in Hf.
  repeat (case_match; try done).
  specialize (IH i1 ltac:(unfold GROUP in *; lia)).
  destruct (read_chunked fuel i1) as [[]|]; cbn [rbind]; congruence.
Qed.

Lemma length_write_chunked s : (length s <= length (write_chunked s))%nat.
Proof.
  induction s as [s IH] using (induction_ltof1 _ (@length byte)).
  destruct (decide (GROUP <= length s)%nat) as [Hs|Hs].
  - destruct (split_group s Hs) as (g & s' & -> & Hg & Hl).
    rewrite write_chunked_long, !length_app by done. specialize (IH _ Hl). simpl. lia.
  - rewrite write_chunked_short by lia. rewrite length_app. lia.
Qed.

(** ** Decoding what was encoded *)

Lemma length_write_all {A E} (f : A -> result E bytes) l e :
  (forall x e, f x = Ok e -> e <> []) -> write_all f l = Ok e -> (length l <= length e)%nat.
Proof.
  intros Hf. revert e. induction l as [|x l IH]; intros e; simpl; [lia|].
  intros H. rinv. subst. rewrite length_app. specialize (IH _ Ha0).
  specialize (Hf _ _ Ha). destruct a; [done|]. simpl. lia.
Qed.

Lemma write_element_nonempty d v e : write_element v d = Ok e -> e <> [].
Proof. by intros [body ->]%write_element_tag. Qed.

Lemma read_items_write read (f : Value -> result KeyEncodeError bytes) l el fuel rest :
  (forall v e, f v = Ok e -> exists body, e = rank v :: body) ->
  Forall (fun v => forall e rest, f v = Ok e -> read (e ++ rest) = Ok (normal v, rest)) l ->
  write_all f l = Ok el -> (length l < fuel)%nat ->
  read_items read fuel (el ++ TAG_LIST_END :: rest) = Ok (map normal l, rest).
Proof.
  intros Hf HF. revert el fuel. induction HF as [|v l Hv HF IH]; intros el fuel; simpl.
  - intros H Hl. rinv. subst. destruct fuel; [lia|]. done.
  - intros H Hl. rinv. subst. destruct fuel as [|fuel]; [lia|].
    destruct (Hf _ _ Ha) as [body E]. cbn [read_items]. rewrite <-app_assoc.
    replace (peek_u8 _) with (@Ok KeyDecodeError _ (rank v)) by (by rewrite E).
    cbn [rbind]. destruct (byte_eqb_spec (rank v) TAG_LIST_END) as [Er|_].
    { pose proof (rank_gt_list_end v) as Hr. rewrite Er in Hr. done. }
    rewrite (Hv _ _ Ha). cbn [rbind]. by rewrite (IH _ _ Ha0) by lia.
Qed.

Lemma read_element_write v depth levels e rest :
  value_ok v = true -> write_element v depth = Ok e ->
  (levels + depth = S MAX_DEPTH)%nat ->
  read_element levels (e ++ rest) = Ok (normal v, rest).
Proof.
  revert depth levels e rest.
  induction v as [|[]|n|x|s|b|[d]|[t]|[ep off]|[mo da na]|items IH] using Value_ind';
    intros depth levels e rest Hok He Hl;
    cbn [write_element] in He; destruct (Nat.ltb_spec MAX_DEPTH depth) as [|Hd]; try done;
    (destruct levels as [|levels]; [lia|]);
    cbn [value_ok] in Hok; unfold time_ok, datetime_ok, duration_ok in Hok;
    cbn [nanos days epoch_nanos offset_minutes months ddays dnanos] in *;
    rewrite ?andb_true_iff in Hok; destruct_and?;
    repeat case_match; rinv; subst; try done;
    cbn [read_element]; rewrite <-?app_comm_cons; cbn [read_u8 rbind]; eval_tags;
    rewrite <-?app_assoc, ?read_i64_flip by done; cbn [rbind].
  - done.
  - unfold write_float. fold (float_code (normalise_zero x)).
    rewrite read_array_app by apply length_be_bytes. cbn [rbind].
    pose proof (normalise_zero_u64 x Hok) as Hu. pose proof (float_code_range _ Hu) as Hc.
    rewrite be_Z_be_bytes, Z.mod_small by (unrange; change (256 ^ Z.of_nat 8) with (2 ^ 64); lia).
    fold (float_decode (float_code (normalise_zero x))). rewrite float_decode_code by done.
    rewrite normalise_zero_nan by done.
    destruct (Z.eqb_spec (normalise_zero x) SIGN_BIT) as [E|]; [|done].
    by apply normalise_zero_not_neg in E.
  - rewrite read_chunked_write
      by (rewrite length_app; pose proof (length_write_chunked s); lia). cbn [rbind].
    unfold str_ok in Hok. rewrite andb_true_iff in Hok. destruct Hok as [-> _]. done.
  - rewrite read_chunked_write
      by (rewrite length_app; pose proof (length_write_chunked b); lia). done.
  - done.
  - rewrite read_array_app by apply length_be_bytes. cbn [rbind].
    rewrite be_Z_be_bytes, Z.mod_small by (unrange; change (256 ^ Z.of_nat 8) with (2 ^ 64); lia).
    match goal with H : negb _ = false |- _ => by rewrite H end.
  - rewrite read_array_app by apply length_be_bytes. cbn [rbind].
    fold (flip_i16 off) (unflip_i16 (flip_i16 off)). rewrite unflip_flip_i16 by done.
    match goal with H : negb _ = false |- _ => by rewrite H end.
  - rewrite read_i64_flip by done. cbn [rbind]. by rewrite read_i64_flip by done.
  - cbn [app]. rewrite (read_items_write (read_element levels) (fun item => write_element item (S depth)) items).
    + done.
    + intros v e. apply write_element_tag.
    + rewrite forallb_Forall_true in *. rewrite Forall_forall in *.
      intros v Hv e r He. apply (IH v Hv (S depth)); [auto|done|lia].
    + done.
    + rewrite length_app. simpl.
      match goal with H : write_all _ _ = Ok _ |- _ =>
        apply length_write_all in H; [lia|intros v' e'; apply write_element_nonempty] end.
Qed.

(** ** Decoding accepts canonical bytes only *)

(** What a successful read of one element says of its input: the bytes read
    are the encoding of the value, which is a value of the Rust type already
    normalised. *)
Definition reads (depth : nat) (input : bytes) (v : Value) (rest : bytes) : Prop :=
  exists e, input = e ++ rest /\ write_element v depth = Ok e /\ normal v = v /\
    (Z.of_nat (length e) < 2 ^ 63 -> value_ok v = true).

Definition reads_all (depth : nat) (input : bytes) (l : list Value) (rest : bytes) : Prop :=
  exists e, input = e ++ rest /\ write_all (fun v => write_element v depth) l = Ok e /\
    map normal l = l /\
    (Z.of_nat (length e) < 2 ^ 63 -> Forall (fun v => value_ok v = true) l).

Lemma reads_all_cons depth input v mid l rest :
  reads depth input v mid -> reads_all depth mid l rest -> reads_all depth input (v :: l) rest.
Proof.
  intros (e & -> & He & Hn & Hok) (e' & -> & He' & Hn' & Hok').
  exists (e ++ e'). rewrite app_assoc. simpl. rewrite He, He', Hn, Hn'.
  split_and!; try done. rewrite length_app. intros H. constructor; [apply Hok|apply Hok']; lia.
Qed.

Lemma reads_all_nil depth rest : reads_all depth rest [] rest.
Proof. exists []. by split_and!. Qed.

Lemma read_items_Ok read depth fuel input l rest :
  (forall input v rest, read input = Ok (v, rest) -> reads depth input v rest) ->
  read_items read fuel input = Ok (l, rest) ->
  reads_all depth input l (TAG_LIST_END :: rest).
Proof.
  intros Hr. revert input l. induction fuel as [|fuel IH]; intros input l; [done|].
  cbn [read_items]. destruct input as [|b input]; [done|]. cbn [peek_u8 rbind].
  destruct (byte_eqb_spec b TAG_LIST_END) as [->|_].
  - simpl. intros H. rinv. subst. apply reads_all_nil.
  - intros H. rinv. destruct a as [v mid]. cbn beta iota in H. rinv.
    destruct a as [l' rest']. cbn beta iota in H. rinv. subst.
    eapply reads_all_cons; [by apply Hr|by apply IH].
Qed.

(** Open one pair-returning read that succeeded. *)
Ltac open_read :=
  match goal with
  | H : rbind ?m _ = Ok _ |- _ =>
      let x := fresh "x" in let r := fresh "r" in let E := fresh "E" in
      destruct m as [[x r]|] eqn:E; [|discriminate H]; cbn [rbind] in H;
      lazymatch type of E with
      | read_i64 _ = _ => apply read_i64_Ok in E as [-> ?]
      | read_array _ _ = _ => apply read_array_Ok in E as [-> ?]
      | read_chunked _ _ = _ => apply read_chunked_Ok in E
      | _ => idtac
      end
  end.

Lemma write_element_depth d :
  (d <= MAX_DEPTH)%nat -> (MAX_DEPTH <? d)%nat = false.
Proof. intros H. by apply Nat.ltb_ge. Qed.

Lemma len_ok_le {A B} (l : list A) (k : list B) :
  (length l <= length k)%nat -> Z.of_nat (length k) < 2 ^ 63 -> len_ok l = true.
Proof. intros. apply Z.ltb_lt. lia. Qed.

Lemma reads_intro depth e rest input v :
  input = e ++ rest -> write_element v depth = Ok e -> normal v = v ->
  (Z.of_nat (length e) < 2 ^ 63 -> value_ok v = true) -> reads depth input v rest.
Proof. intros. by exists e. Qed.

Lemma reads_float depth x rest :
  (depth <= MAX_DEPTH)%nat -> length x = 8%nat ->
  f64_is_nan (float_decode (be_Z x)) = false ->
  (float_decode (be_Z x) =? SIGN_BIT) = false ->
  reads depth (TAG_FLOAT :: x ++ rest) (VFloat (float_decode (be_Z x))) rest.
Proof.
  intros Hd Hx Hn Hz. apply (reads_intro _ (TAG_FLOAT :: x)); [done| | |].
  1, 2: destruct (float_code_decode _ (be_Z_u64 x Hx)) as [Ec Hu].
  1, 2: assert (normalise_zero (float_decode (be_Z x)) = float_decode (be_Z x)) as Enz
    by (unfold normalise_zero; destruct (f64_is_zero _) eqn:E0; [|done];
        apply f64_is_zero_spec in E0 as [-> | E0]; [done| |done];
        rewrite E0 in Hz; by vm_compute in Hz).
  - cbn [write_element]. rewrite write_element_depth, Hn by done. unfold write_float.
    rewrite Enz. fold (float_code (float_decode (be_Z x))). rewrite Ec. by rewrite be_bytes_be_Z.
  - simpl. by rewrite Enz.
  - intros _. by destruct (float_code_decode _ (be_Z_u64 x Hx)).
Qed.

Lemma read_element_Ok levels depth input v rest :
  (levels + depth = S MAX_DEPTH)%nat ->
  read_element levels input = Ok (v, rest) -> reads depth input v rest.
Proof.
  revert depth input v rest. induction levels as [|levels IH]; intros depth input v rest Hl; [done|].
  cbn [read_element]. destruct input as [|tag input]; [done|]. cbn [read_u8 rbind].
  assert (Hd : (MAX_DEPTH <? depth)%nat = false) by (apply write_element_depth; lia).
  repeat match goal with |- context [if tag =b? ?c then _ else _] =>
    destruct (byte_eqb_spec tag c) as [->|_] end; intros H; try done;
    try (rinv; subst; eexists [_]; cbn [write_element]; rewrite Hd; by split_and!);
    repeat open_read;
    repeat match goal with
      | H : context [if negb (Z.land (be_Z ?x) SIGN_BIT =? 0) then _ else _] |- _ =>
          fold (float_decode (be_Z x)) in H
      | H : context [to_signed 16 (Z.lxor (be_Z ?x) 0x8000)] |- _ =>
          fold (unflip_i16 x) in H
      end;
    repeat case_match; rinv; subst.
  2: { apply reads_float; [lia|done..]. }
  all: match goal with
    | H : read_items _ _ _ = Ok _ |- _ =>
        apply (read_items_Ok _ (S depth)) in H as (e & -> & He & Hn & Hok);
          [|intros i v' r' Hr; apply (IH (S depth)) in Hr; [done|lia]];
        eapply (reads_intro _ (TAG_LIST :: e ++ [TAG_LIST_END]))
    | |- reads _ (?t :: ?a ++ ?b ++ ?c ++ ?r) _ ?r => eapply (reads_intro _ (t :: a ++ b ++ c))
    | |- reads _ (?t :: ?a ++ ?b ++ ?r) _ ?r => eapply (reads_intro _ (t :: a ++ b))
    | |- reads _ (?t :: ?a ++ ?r) _ ?r => eapply (reads_intro _ (t :: a))
    end; try done; cbn [write_element].
  all: try (rewrite ?app_comm_cons, <-?app_assoc; done).
  all: rewrite ?Hd; repeat match goal with H : _ = false |- _ => rewrite H end; try done.
  - intros Hlen. simpl. unfold str_ok. apply andb_true_intro. split; [done|].
    eapply len_ok_le; [|exact Hlen]. simpl. pose proof (length_write_chunked x). lia.
  - intros Hlen. eapply len_ok_le; [|exact Hlen]. simpl. pose proof (length_write_chunked x). lia.
  - cbn [nanos]. by rewrite be_bytes_be_Z.
  - intros _. by apply be_Z_u64.
  - cbn [offset_minutes epoch_nanos]. fold (flip_i16 (unflip_i16 x0)).
    destruct (flip_unflip_i16 x0) as [-> _]; [done|].
    match goal with H : negb _ = false |- _ => by rewrite H end.
  - intros _. simpl. unfold datetime_ok. simpl. apply andb_true_intro. split; [done|].
    by destruct (flip_unflip_i16 x0).
  - intros _. simpl. unfold duration_ok. simpl. by rewrite !andb_true_iff.
  - by rewrite He.
  - simpl. by rewrite Hn.
  - intros Hlen. rewrite value_ok_list. simpl length in Hlen. rewrite length_app in Hlen. split.
    + eapply (len_ok_le _ e); [|lia].
      eapply length_write_all; [|exact He]. intros v' e'. apply write_element_nonempty.
    + apply Hok. lia.
Qed.

Lemma reads_shorter depth input v rest :
  reads depth input v rest -> (length rest < length input)%nat.
Proof.
  intros (e & -> & He & _). apply write_element_nonempty in He.
  rewrite length_app. destruct e; [done|]. simpl. lia.
Qed.

Lemma read_tuple_Ok fuel input t :
  read_tuple fuel input = Ok t -> reads_all 0 input t [].
Proof.
  revert input t. induction fuel as [|fuel IH]; intros [|b input] t; cbn [read_tuple];
    intros H; rinv; subst; try done; try apply reads_all_nil.
  destruct a as [v rest]. cbn beta iota in H. rinv. subst.
  eapply reads_all_cons; [eapply (read_element_Ok (S MAX_DEPTH)); [lia|done]|by apply IH].
Qed.

Lemma read_tuple_write fuel t e :
  Forall (fun v => value_ok v = true) t ->
  write_all (fun v => write_element v 0) t = Ok e -> (length e <= fuel)%nat ->
  read_tuple fuel e = Ok (map normal t).
Proof.
  intros Hok. revert fuel e. induction Hok as [|v t Hv Hok IH]; intros fuel e; simpl.
  - intros H _. rinv. subst. by destruct fuel.
  - intros H Hl. rinv. subst.
    match goal with H1 : write_element v 0 = Ok ?x, H2 : write_all _ t = Ok ?y |- _ =>
      pose proof (write_element_nonempty _ _ _ H1) as Hne;
      pose proof (read_element_write v 0 (S MAX_DEPTH) x y Hv H1 ltac:(lia)) as Hr;
      rename y into tl; rename x into hd; rename H2 into Htl end.
    rewrite length_app in Hl. destruct hd as [|b hd]; [done|]. simpl in Hl.
    destruct fuel as [|fuel]; [lia|]. cbn [read_tuple app]. cbn [app] in Hr. rewrite Hr. cbn [rbind].
    rewrite (IH fuel tl) by (done || lia). done.
Qed.

(** ** Totality *)

Lemma read_array_fuel n input : read_array n input <> Err KOutOfFuel.
Proof. unfold read_array. case_match; congruence. Qed.
Lemma read_i64_fuel input : read_i64 input <> Err KOutOfFuel.
Proof.
  unfold read_i64. pose proof (read_array_fuel 8 input).
  by destruct (read_array 8 input) as [[]|]; simpl; [|congruence].
Qed.
Create HintDb fuel.
#[export] Hint Resolve read_array_fuel read_i64_fuel read_chunked_fuel : fuel.

Lemma read_items_fuel read depth fuel input :
  (forall input v rest, read input = Ok (v, rest) -> reads depth input v rest) ->
  (forall input, read input <> Err KOutOfFuel) ->
  (length input < fuel)%nat -> read_items read fuel input <> Err KOutOfFuel.
Proof.
  intros Hr Hf. revert input. induction fuel as [|fuel IH]; intros input Hl; [lia|].
  cbn [read_items]. destruct input as [|b input]; [done|]. cbn [peek_u8 rbind].
  case_match; [done|]. destruct (read (b :: input)) as [[v mid]|e] eqn:E; cbn [rbind].
  - apply Hr, reads_shorter in E. specialize (IH mid ltac:(lia)).
    destruct (read_items read fuel mid) as [[]|]; cbn [rbind]; congruence.
  - intros [= ->]. by apply (Hf (b :: input)).
Qed.

(** Push "is not out of fuel" through a bind. *)
Ltac no_fuel :=
  repeat match goal with
  | |- rbind ?m _ <> _ =>
      let E := fresh "E" in
      destruct m as [[]|] eqn:E; cbn [rbind];
        [|intros [= ->]; revert E; change (m <> Err KOutOfFuel); eauto with fuel; fail]
  end; repeat (case_match; try done); try done.

Lemma read_element_fuel levels input :
  (levels <= S MAX_DEPTH)%nat -> read_element levels input <> Err KOutOfFuel.
Proof.
  revert input. induction levels as [|levels IH]; intros input Hl; [done|].
  cbn [read_element]. destruct input as [|tag input]; [done|]. cbn [read_u8 rbind].
  assert (Hi : read_items (read_element levels) (S (length input)) input <> Err KOutOfFuel).
  { apply (read_items_fuel _ (S MAX_DEPTH - levels)); [|intros; apply IH; lia|lia].
    intros i v r. apply read_element_Ok. lia. }
  assert (Hc : read_chunked (S (length input)) input <> Err KOutOfFuel)
    by (apply read_chunked_fuel; lia).
  repeat match goal with |- context [if tag =b? ?c then _ else _] =>
    destruct (tag =b? c) end; try done; no_fuel.
Qed.

Lemma read_tuple_fuel fuel input :
  (length input <= fuel)%nat -> read_tuple fuel input <> Err KOutOfFuel.
Proof.
  revert input. induction fuel as [|fuel IH]; intros [|b input] Hl; cbn [read_tuple];
    [done|cbn [length] in Hl; lia|done|].
  destruct (read_element (S MAX_DEPTH) (b :: input)) as [[v rest]|e] eqn:E; cbn [rbind].
  - apply (read_element_Ok _ 0) in E; [|lia]. apply reads_shorter in E. cbn [length] in *.
    specialize (IH rest ltac:(lia)). destruct (read_tuple fuel rest); cbn [rbind]; congruence.
  - intros [= ->]. apply (read_element_fuel (S MAX_DEPTH) (b :: input)); [lia|exact E].
Qed.

(** ** The codec's theorems *)

(** Decoding inverts encoding. Every tuple the encoder accepts decodes to
    the same tuple, with negative zeros normalised. *)
Lemma decode_encode_key t e :
  Forall (fun v => value_ok v = true) t -> encode_key t = Ok e ->
  decode_key e = Ok (map normal t).
Proof.
  unfold encode_key, encode_key_into. intros Hok H. rinv. subst.
  by apply read_tuple_write.
Qed.

Definition codec_tuple : list Value :=
  [VInt (-5); VString [x61; x00; x62; xc3; xa9; x66; x67; x68; x69];
   VList [VBytes [xff; x00]; VList []; VDuration (mkDuration 1 (-2) 3)];
   VDateTime (mkDateTime 77 (-90)); VFloat SIGN_BIT].

Lemma decode_encode_key_witness :
  exists e, encode_key codec_tuple = Ok e /\ decode_key e = Ok (map normal codec_tuple).
Proof.
  eexists. split; [vm_compute; reflexivity|].
  apply (decode_encode_key codec_tuple); [by repeat constructor|vm_compute; reflexivity].
Defined.

(** C5: the key encoding is canonical. Whatever bytes decode to a tuple are
    the one encoding of that tuple, whose values are values of the Rust type
    already normalised: distinct byte strings never name the same key. *)
Theorem decode_key_canonical bs t :
  Z.of_nat (length bs) < 2 ^ 63 -> decode_key bs = Ok t ->
  encode_key t = Ok bs /\ map normal t = t /\ Forall (fun v => value_ok v = true) t.
Proof.
  intros Hl H%read_tuple_Ok. destruct H as (e & -> & He & Hn & Hok).
  rewrite app_nil_r in *. unfold encode_key, encode_key_into. by rewrite He; auto.
Qed.

Lemma decode_key_canonical_witness :
  encode_key [VBool true; VTime (mkTime 255)] = Ok [x03; x09; x00; x00; x00; x00; x00; x00; x00; xff] /\
  map normal [VBool true; VTime (mkTime 255)] = [VBool true; VTime (mkTime 255)] /\
  Forall (fun v => value_ok v = true) [VBool true; VTime (mkTime 255)].
Proof. apply decode_key_canonical; [done | vm_compute; reflexivity]. Defined.

(** Decoding is total. On every input, hostile ones included, the decoder
    gives a tuple or one of the source's errors: no loop of the model ever
    runs out of the fuel its input's length gives it. *)
Lemma decode_key_total bs : decode_key bs <> Err KOutOfFuel.
Proof. by apply read_tuple_fuel. Qed.

(** ** Prefixes *)

(** Encoding distributes over tuple concatenation, so the encoding of a
    tuple's prefix is a byte prefix of the encoding of the tuple: a composite
    key can be scanned by any leading part of it. *)
Lemma encode_key_app a b :
  encode_key (a ++ b) =
    let? x := encode_key a in let? y := encode_key b in Ok (x ++ y).
Proof.
  unfold encode_key, encode_key_into. rewrite write_all_app.
  by destruct (write_all _ a), (write_all _ b).
Qed.
