(* ===== verification/Cbor.v ===== *)
(** * Canonical CBOR heads (acetone-model/src/cbor.rs)

    The low-level reader and writer the value, record, schema and manifest
    layers share: shortest-form heads, integers, text.  A reader is the input
    that remains.  The half- and single-precision helpers are in Ieee.v. *)
From S2P Require Import Prelude Ieee Model.

Local Open Scope Z_scope.

Inductive ValueDecodeError : Type :=
| UnexpectedEnd
| TrailingBytes
| Unsupported (what : string)
| NonCanonical (what : string)
| MalformedHead
| IntOutOfRange
| LengthOverrun (declared : Z) (remaining : nat)
| InvalidUtf8
| UnknownTag (tag : Z)
| InvalidTagContent (tag : Z) (reason : string)
| TimeOutOfRange
| OffsetOutOfRange
| DepthExceeded.

Definition MAJOR_UNSIGNED : Z := 0.
Definition MAJOR_NEGATIVE : Z := 1.
Definition MAJOR_BYTES : Z := 2.
Definition MAJOR_TEXT : Z := 3.
Definition MAJOR_ARRAY : Z := 4.
Definition MAJOR_MAP : Z := 5.
Definition MAJOR_TAG : Z := 6.
Definition MAJOR_SIMPLE : Z := 7.

Definition SIMPLE_FALSE : byte := xf4.
Definition SIMPLE_TRUE : byte := xf5.
Definition SIMPLE_NULL : byte := xf6.
Definition HEAD_F16 : byte := xf9.
Definition HEAD_F32 : byte := xfa.
Definition HEAD_F64 : byte := xfb.

(** ** Writing *)

Definition write_head (major value : Z) : bytes :=
  let m := Z.shiftl major 5 in
  if value <? 24 then [z2b (Z.lor m value)]
  else if value <=? 0xff then z2b (Z.lor m 24) :: be_bytes 1 value
  else if value <=? 0xffff then z2b (Z.lor m 25) :: be_bytes 2 value
  else if value <=? 0xffffffff then z2b (Z.lor m 26) :: be_bytes 4 value
  else z2b (Z.lor m 27) :: be_bytes 8 value.

Definition write_int (n : Z) : bytes :=
  if 0 <=? n then write_head MAJOR_UNSIGNED n
  else write_head MAJOR_NEGATIVE (Z.lxor (to_unsigned 64 n) (Z.ones 64)).

Definition write_text (s : bytes) : bytes := write_head MAJOR_TEXT (Z.of_nat (length s)) ++ s.

(** The order of text strings under their encodings. *)
Definition canonical_str_cmp (a b : bytes) : comparison :=
  cmp_then (length a ?= length b)%nat (bytes_cmp a b).

(** ** Reading *)

Definition read_u8 (input : bytes) : result ValueDecodeError (byte * bytes) :=
  match input with b :: rest => Ok (b, rest) | [] => Err UnexpectedEnd end.

Definition read_exact (n : nat) (input : bytes) : result ValueDecodeError (bytes * bytes) :=
  if (length input <? n)%nat then Err UnexpectedEnd else Ok (take n input, drop n input).

Definition read_be_u64 (width : nat) (input : bytes) : result ValueDecodeError (Z * bytes) :=
  let? '(b, input) := read_exact width input in Ok (be_Z b, input).

Definition major_of (ib : byte) : Z := Z.shiftr (b2z ib) 5.
Definition ai_of (ib : byte) : Z := Z.land (b2z ib) 0x1f.

(** A head value of [width] bytes, which must not fit the next shorter form. *)
Definition read_long (width : nat) (least : Z) (input : bytes) : result ValueDecodeError (Z * bytes) :=
  let? '(v, input) := read_be_u64 width input in
  if v <? least then Err (NonCanonical "overlong head") else Ok (v, input).

Definition read_head_value (ai : Z) (input : bytes) : result ValueDecodeError (Z * bytes) :=
  if ai <=? 23 then Ok (ai, input)
  else if ai =? 24 then read_long 1 24 input
  else if ai =? 25 then read_long 2 (0xff + 1) input
  else if ai =? 26 then read_long 4 (0xffff + 1) input
  else if ai =? 27 then read_long 8 (0xffffffff + 1) input
  else if ai <=? 30 then Err MalformedHead
  else Err (Unsupported "indefinite length").

Definition read_head (expected_major : Z) (input : bytes) : result ValueDecodeError (Z * bytes) :=
  let? '(ib, input) := read_u8 input in
  if negb (major_of ib =? expected_major) then Err (Unsupported "unexpected major type")
  else read_head_value (ai_of ib) input.

Definition check_len (declared : Z) (input : bytes) : result ValueDecodeError nat :=
  if Z.of_nat (length input) <? declared
  then Err (LengthOverrun declared (length input))
  else Ok (Z.to_nat declared).

Definition read_text (input : bytes) : result ValueDecodeError (bytes * bytes) :=
  let? '(len, input) := read_head MAJOR_TEXT input in
  let? len := check_len len input in
  let? '(s, input) := read_exact len input in
  if utf8_valid s then Ok (s, input) else Err InvalidUtf8.

Definition unsigned_to_i64 (v : Z) : result ValueDecodeError Z :=
  if v <? 2 ^ 63 then Ok v else Err IntOutOfRange.

Definition negative_to_i64 (v : Z) : result ValueDecodeError Z :=
  if 2 ^ 63 - 1 <? v then Err IntOutOfRange else Ok (-1 - v).

Definition read_i64 (input : bytes) : result ValueDecodeError (Z * bytes) :=
  let? '(ib, input) := read_u8 input in
  let? '(v, input) := read_head_value (ai_of ib) input in
  if major_of ib =? MAJOR_UNSIGNED then let? n := unsigned_to_i64 v in Ok (n, input)
  else if major_of ib =? MAJOR_NEGATIVE then let? n := negative_to_i64 v in Ok (n, input)
  else Err (Unsupported "expected integer").

(** ** Heads are canonical *)

Lemma read_exact_app a b : read_exact (length a) (a ++ b) = Ok (a, b).
Proof.
  unfold read_exact. rewrite length_app. destruct (Nat.ltb_spec (length a + length b) (length a)); [lia|].
  by rewrite take_app_length, drop_app_length.
Qed.

Lemma read_exact_Ok n input a b : read_exact n input = Ok (a, b) -> input = a ++ b /\ length a = n.
Proof.
  unfold read_exact. destruct (Nat.ltb_spec (length input) n); [done|]. intros [= <- <-].
  rewrite take_drop, length_take. split; [done|lia].
Qed.

Lemma read_be_u64_app n v rest :
  0 <= v < 256 ^ Z.of_nat n -> read_be_u64 n (be_bytes n v ++ rest) = Ok (v, rest).
Proof.
  intros Hv. unfold read_be_u64. rewrite <-(length_be_bytes n v) at 1. rewrite read_exact_app.
  cbn [rbind]. by rewrite be_Z_be_bytes, Z.mod_small.
Qed.

Lemma read_be_u64_Ok n input v rest :
  read_be_u64 n input = Ok (v, rest) -> input = be_bytes n v ++ rest /\ 0 <= v < 256 ^ Z.of_nat n.
Proof.
  unfold read_be_u64. intros H. apply rbind_Ok in H as ([b r] & H & E). apply Ok_inj in E.
  injection E as <- <-. apply read_exact_Ok in H as [-> Hl]. rewrite <-Hl at 1.
  rewrite be_bytes_be_Z by done. split; [done|]. rewrite <-Hl. apply be_Z_bound.
Qed.

Lemma initial_byte major ai :
  0 <= major < 8 -> 0 <= ai < 32 ->
  major_of (z2b (Z.lor (Z.shiftl major 5) ai)) = major /\ ai_of (z2b (Z.lor (Z.shiftl major 5) ai)) = ai.
Proof.
  intros Hm Ha. unfold major_of, ai_of. rewrite lor_shiftl_add by lia. rewrite b2z_z2b, Z.mod_small by lia.
  change 0x1f with (Z.ones 5). rewrite Z.shiftr_div_pow2, Z.land_ones by lia.
  split; Z.div_mod_to_equations; lia.
Qed.

Lemma initial_byte_inv ib : ib = z2b (Z.lor (Z.shiftl (major_of ib) 5) (ai_of ib)) /\
  0 <= major_of ib < 8 /\ 0 <= ai_of ib < 32.
Proof.
  unfold major_of, ai_of. pose proof (b2z_range ib). change 0x1f with (Z.ones 5).
  rewrite Z.shiftr_div_pow2, Z.land_ones by lia.
  rewrite lor_shiftl_add by (try apply Z.mod_pos_bound; lia).
  split; [|split; Z.div_mod_to_equations; lia].
  apply b2z_inj. rewrite b2z_z2b. rewrite Z.mod_small; Z.div_mod_to_equations; lia.
Qed.

(** Reading what [write_head] writes: the head byte splits into the major type
    and additional information from which the value is read back. *)
Lemma write_head_read major v :
  0 <= major < 8 -> is_u64 v = true ->
  exists ib tl, write_head major v = ib :: tl /\ major_of ib = major /\
    forall rest, read_head_value (ai_of ib) (tl ++ rest) = Ok (v, rest).
Proof.
  intros Hm Hv. unrange. unfold write_head.
  assert (forall ai n, 24 <= ai < 28 ->
    0 <= v < 256 ^ Z.of_nat n ->
    (forall input, read_head_value ai input = read_long n (if ai =? 24 then 24 else 2 ^ (4 * Z.of_nat n)) input) ->
    (if ai =? 24 then 24 else 2 ^ (4 * Z.of_nat n)) <= v ->
    exists ib tl, z2b (Z.lor (Z.shiftl major 5) ai) :: be_bytes n v = ib :: tl /\ major_of ib = major /\
      forall rest, read_head_value (ai_of ib) (tl ++ rest) = Ok (v, rest)) as Hlong.
  { intros ai n Hai Hn Hr Hl. destruct (initial_byte major ai) as [E1 E2]; [done|lia|].
    eexists _, _. split; [done|]. split; [done|]. intros rest. rewrite E2, Hr. unfold read_long.
    rewrite read_be_u64_app by done. cbn [rbind]. by destruct (Z.ltb_spec v (if ai =? 24 then 24 else 2 ^ (4 * Z.of_nat n))); [lia|]. }
  destruct (Z.ltb_spec v 24).
  - destruct (initial_byte major v) as [E1 E2]; [done|lia|]. eexists _, []. split; [done|]. split; [done|].
    intros rest. rewrite E2. unfold read_head_value. by destruct (Z.leb_spec v 23); [|lia].
  - destruct (Z.leb_spec v 0xff); [by apply (Hlong 24 1%nat); [lia|lia|reflexivity|simpl; lia]|].
    destruct (Z.leb_spec v 0xffff); [by apply (Hlong 25 2%nat); [lia|lia|reflexivity|simpl; lia]|].
    destruct (Z.leb_spec v 0xffffffff);
      [by apply (Hlong 26 4%nat); [lia|lia|reflexivity|simpl; lia]
      |by apply (Hlong 27 8%nat); [lia|lia|reflexivity|simpl; lia]].
Qed.

(** What [read_head_value] accepts is what [write_head] writes. *)
Lemma read_head_value_Ok ib input v rest :
  read_head_value (ai_of ib) input = Ok (v, rest) ->
  ib :: input = write_head (major_of ib) v ++ rest /\ is_u64 v = true.
Proof.
  destruct (initial_byte_inv ib) as (Eib & Hm & Ha). intros H. unfold is_u64. rewrite in_range_spec.
  unfold read_head_value in H. destruct (Z.leb_spec (ai_of ib) 23).
  { apply Ok_inj in H. injection H as <- <-. unfold write_head.
    destruct (Z.ltb_spec (ai_of ib) 24); [|lia]. split; [by rewrite <-Eib|lia]. }
  assert (forall n least, read_long n least input = Ok (v, rest) ->
    input = be_bytes n v ++ rest /\ least <= v < 256 ^ Z.of_nat n) as Hlong.
  { intros n least Hr. unfold read_long in Hr. apply rbind_Ok in Hr as ([w r] & Hr & E).
    apply read_be_u64_Ok in Hr as [-> Hw]. destruct (Z.ltb_spec w least); [done|].
    apply Ok_inj in E. injection E as <- <-. split; [done|lia]. }
  repeat match type of H with (if ?a =? ?k then _ else _) = _ => destruct (Z.eqb_spec a k) as [Eai|] end;
    try (apply Hlong in H as [-> Hv]; cbn [Z.of_nat Pos.of_succ_nat Pos.succ] in Hv;
      rewrite Eib at 1; rewrite Eai; unfold write_head;
      repeat match goal with |- context [?a <? ?k] => destruct (Z.ltb_spec a k); try lia end;
      repeat match goal with |- context [?a <=? ?k] => destruct (Z.leb_spec a k); try lia end;
      split; [done|lia]).
  by destruct (Z.leb_spec (ai_of ib) 30).
Qed.

(** ** Integers and text *)

Lemma write_int_head n : is_i64 n = true ->
  write_int n = if 0 <=? n then write_head MAJOR_UNSIGNED n else write_head MAJOR_NEGATIVE (-1 - n).
Proof.
  intros Hn. unrange. unfold write_int. destruct (Z.leb_spec 0 n); [done|]. f_equal.
  unfold to_unsigned. rewrite <-(Z.mod_add n 1), Z.mod_small by lia.
  rewrite lxor_ones by lia. rewrite Z.ones_equiv. lia.
Qed.

Lemma read_i64_write n rest : is_i64 n = true -> read_i64 (write_int n ++ rest) = Ok (n, rest).
Proof.
  intros Hn. rewrite write_int_head by done. unrange. unfold read_i64.
  destruct (Z.leb_spec 0 n).
  - destruct (write_head_read MAJOR_UNSIGNED n) as (ib & tl & -> & Em & Hr);
      [done|by apply in_range_spec; lia|]. cbn [app read_u8 rbind]. rewrite Hr, Em. cbn [rbind].
    rewrite Z.eqb_refl. unfold unsigned_to_i64. by destruct (Z.ltb_spec n (2 ^ 63)); [|lia].
  - destruct (write_head_read MAJOR_NEGATIVE (-1 - n)) as (ib & tl & -> & Em & Hr);
      [done|by apply in_range_spec; lia|]. cbn [app read_u8 rbind]. rewrite Hr, Em. cbn [rbind].
    cbn [MAJOR_NEGATIVE MAJOR_UNSIGNED Z.eqb Pos.eqb]. unfold negative_to_i64.
    destruct (Z.ltb_spec (2 ^ 63 - 1) (-1 - n)); [lia|]. cbn [rbind]. do 2 f_equal. lia.
Qed.

Lemma unsigned_to_i64_Ok v n : is_u64 v = true -> unsigned_to_i64 v = Ok n ->
  is_i64 n = true /\ n = v /\ write_int n = write_head MAJOR_UNSIGNED v.
Proof.
  intros Hv. unrange. unfold unsigned_to_i64. destruct (Z.ltb_spec v (2 ^ 63)); [|done]. intros [= <-].
  assert (is_i64 v = true) as Hi by (apply in_range_spec; lia).
  split_and!; [done|done|]. rewrite write_int_head by done. by destruct (Z.leb_spec 0 v); [|lia].
Qed.

Lemma negative_to_i64_Ok v n : is_u64 v = true -> negative_to_i64 v = Ok n ->
  is_i64 n = true /\ n = -1 - v /\ write_int n = write_head MAJOR_NEGATIVE v.
Proof.
  intros Hv. unrange. unfold negative_to_i64. destruct (Z.ltb_spec (2 ^ 63 - 1) v); [done|]. intros [= <-].
  assert (is_i64 (-1 - v) = true) as Hi by (apply in_range_spec; lia).
  split_and!; [done|done|]. rewrite write_int_head by done. destruct (Z.leb_spec 0 (-1 - v)); [lia|]. f_equal. lia.
Qed.

Lemma read_cbor_i64_Ok input n rest :
  read_i64 input = Ok (n, rest) -> input = write_int n ++ rest /\ is_i64 n = true.
Proof.
  unfold read_i64. destruct input as [|ib input]; [done|]. cbn [read_u8 rbind]. intros H.
  apply rbind_Ok in H as ([v r] & Hr & H). apply read_head_value_Ok in Hr as [-> Hv].
  destruct (Z.eqb_spec (major_of ib) MAJOR_UNSIGNED) as [->|_].
  - apply rbind_Ok in H as (m & Hm & H). apply Ok_inj in H. injection H as <- <-.
    by apply unsigned_to_i64_Ok in Hm as (? & _ & ->).
  - destruct (Z.eqb_spec (major_of ib) MAJOR_NEGATIVE) as [->|_]; [|done].
    apply rbind_Ok in H as (m & Hm & H). apply Ok_inj in H. injection H as <- <-.
    by apply negative_to_i64_Ok in Hm as (? & _ & ->).
Qed.

Lemma read_head_write major v rest :
  0 <= major < 8 -> is_u64 v = true -> read_head major (write_head major v ++ rest) = Ok (v, rest).
Proof.
  intros Hm Hv. destruct (write_head_read major v Hm Hv) as (ib & tl & -> & Em & Hr).
  unfold read_head. cbn [app read_u8 rbind]. by rewrite Em, Z.eqb_refl, Hr.
Qed.

Lemma read_head_Ok major input v rest :
  read_head major input = Ok (v, rest) -> input = write_head major v ++ rest /\ is_u64 v = true.
Proof.
  unfold read_head. destruct input as [|ib input]; [done|]. cbn [read_u8 rbind].
  destruct (Z.eqb_spec (major_of ib) major) as [<-|]; [|done]. apply read_head_value_Ok.
Qed.

Lemma check_len_app {A : Type} (s : list A) t :
  (length s <= length t)%nat -> check_len (Z.of_nat (length s)) t = Ok (length s).
Proof.
  intros H. unfold check_len. destruct (Z.ltb_spec (Z.of_nat (length t)) (Z.of_nat (length s))); [lia|].
  by rewrite Nat2Z.id.
Qed.

Lemma check_len_Ok v input n : 0 <= v -> check_len v input = Ok n -> v = Z.of_nat n /\ (n <= length input)%nat.
Proof.
  intros Hv. unfold check_len. destruct (Z.ltb_spec (Z.of_nat (length input)) v); [done|]. intros [= <-]. lia.
Qed.

Lemma len_u64 {A : Type} (l : list A) : len_ok l = true -> is_u64 (Z.of_nat (length l)) = true.
Proof. unfold len_ok. intros H. apply Z.ltb_lt in H. apply in_range_spec. lia. Qed.

Lemma read_text_write s rest : str_ok s = true -> read_text (write_text s ++ rest) = Ok (s, rest).
Proof.
  unfold str_ok. rewrite andb_true_iff. intros [Hu Hl]. unfold read_text, write_text. rewrite <-app_assoc.
  rewrite read_head_write by (done || by apply len_u64). cbn [rbind].
  rewrite check_len_app by (rewrite length_app; lia). cbn [rbind]. rewrite read_exact_app. cbn [rbind].
  by rewrite Hu.
Qed.

Lemma read_text_Ok input s rest :
  read_text input = Ok (s, rest) -> input = write_text s ++ rest /\ utf8_valid s = true.
Proof.
  unfold read_text. intros H. apply rbind_Ok in H as ([v r] & Hh & H). apply read_head_Ok in Hh as [-> Hv].
  apply rbind_Ok in H as (n & Hn & H). unrange. apply check_len_Ok in Hn as [-> Hn]; [|lia].
  apply rbind_Ok in H as ([b r'] & He & H). apply read_exact_Ok in He as [-> <-].
  destruct (utf8_valid b) eqn:Hu; [|done]. apply Ok_inj in H. injection H as <- <-.
  unfold write_text. by rewrite <-app_assoc.
Qed.

(** ** The order of encoded text *)

Lemma initial_byte_b2z major ai : 0 <= major < 8 -> 0 <= ai < 32 ->
  b2z (z2b (Z.lor (Z.shiftl major 5) ai)) = major * 32 + ai.
Proof. intros Hm Ha. rewrite lor_shiftl_add by lia. rewrite b2z_z2b. apply Z.mod_small. lia. Qed.

Lemma head_byte_lt major ai ai' a b : 0 <= major < 8 -> 0 <= ai < ai' -> ai' < 32 ->
  bytes_cmp (z2b (Z.lor (Z.shiftl major 5) ai) :: a) (z2b (Z.lor (Z.shiftl major 5) ai') :: b) = Lt.
Proof.
  intros Hm Ha Hb. rewrite bytes_cmp_cons. unfold byte_cmp. rewrite !initial_byte_b2z by lia.
  by rewrite (proj2 (Z.compare_lt_iff _ _)) by lia.
Qed.

Lemma long_head_lt major ai n x y a b :
  0 <= x < y -> y < 256 ^ Z.of_nat n ->
  bytes_cmp (z2b (Z.lor (Z.shiftl major 5) ai) :: be_bytes n x ++ a)
            (z2b (Z.lor (Z.shiftl major 5) ai) :: be_bytes n y ++ b) = Lt.
Proof.
  intros Hx Hy. rewrite bytes_cmp_cons. unfold byte_cmp. rewrite (proj2 (Z.compare_eq_iff _ _)) by done. cbn [cmp_then].
  rewrite bytes_cmp_app by (by rewrite !length_be_bytes). rewrite be_bytes_cmp by lia.
  by rewrite (proj2 (Z.compare_lt_iff _ _)) by lia.
Qed.

Lemma write_head_lt major x y a b :
  0 <= major < 8 -> 0 <= x < y -> is_u64 y = true ->
  bytes_cmp (write_head major x ++ a) (write_head major y ++ b) = Lt.
Proof.
  intros Hm Hx Hy. unrange. unfold write_head.
  repeat match goal with |- context [?u <? ?k] => destruct (Z.ltb_spec u k); try lia end;
  repeat match goal with |- context [?u <=? ?k] => destruct (Z.leb_spec u k); try lia end;
  rewrite <-?app_comm_cons;
  first [apply head_byte_lt; lia | apply long_head_lt; simpl; lia].
Qed.

(** Deterministic map keys. Comparing encoded text keys bytewise is the
    order [canonical_str_cmp] decides on the strings themselves: shorter first,
    then bytewise, in every length regime of the head. *)
Lemma canonical_str_cmp_bytes a b :
  len_ok a = true -> len_ok b = true ->
  bytes_cmp (write_text a) (write_text b) = canonical_str_cmp a b.
Proof.
  intros Ha%len_u64 Hb%len_u64. unfold canonical_str_cmp, write_text.
  destruct (Nat.compare_spec (length a) (length b)) as [E|E|E]; cbn [cmp_then].
  - by rewrite E, bytes_cmp_app_same.
  - apply write_head_lt; [done|lia|done].
  - rewrite bytes_cmp_sym, write_head_lt; [done|done|lia|done].
Qed.

Lemma canonical_str_cmp_bytes_witness :
  bytes_cmp (write_text (repeat x7a 23)) (write_text (repeat x61 24)) =
  canonical_str_cmp (repeat x7a 23) (repeat x61 24).
Proof. apply canonical_str_cmp_bytes; reflexivity. Defined.
