(* ===== verification/Values.v ===== *)
(** * Canonical property values (acetone-model/src/values.rs)

    The deterministic CBOR encoding of values and its strict decoder. The
    decoder accepts exactly the bytes the encoder writes. *)
From S2P Require Import Prelude Ieee Model Cbor.

Local Open Scope Z_scope.

Definition TAG_DATE : Z := 100.
Definition TAG_TIME : Z := 74100.
Definition TAG_DATETIME : Z := 74101.
Definition TAG_DURATION : Z := 74102.

Definition MAX_DEPTH : nat := 128.

Inductive ValueEncodeError : Type :=
| VTimeOutOfRange (nanos : Z)
| VOffsetOutOfRange (offset : Z)
| VDepthExceeded.

(** ** Encoding *)

Definition write_float (x : Z) : bytes :=
  if f64_is_nan x then HEAD_F16 :: be_bytes 2 0x7e00
  else match f16_from_f64_exact x with
  | Some h => HEAD_F16 :: be_bytes 2 h
  | None =>
    match f32_from_f64_exact x with
    | Some s => HEAD_F32 :: be_bytes 4 s
    | None => HEAD_F64 :: be_bytes 8 x
    end
  end.

Fixpoint write_value (value : Value) (depth : nat) : result ValueEncodeError bytes :=
  if (MAX_DEPTH <? depth)%nat then Err VDepthExceeded
  else
    match value with
    | VNull => Ok [SIMPLE_NULL]
    | VBool false => Ok [SIMPLE_FALSE]
    | VBool true => Ok [SIMPLE_TRUE]
    | VInt n => Ok (write_int n)
    | VFloat x => Ok (write_float x)
    | VString s => Ok (write_head MAJOR_TEXT (Z.of_nat (length s)) ++ s)
    | VBytes b => Ok (write_head MAJOR_BYTES (Z.of_nat (length b)) ++ b)
    | VDate d => Ok (write_head MAJOR_TAG TAG_DATE ++ write_int (days d))
    | VTime t =>
      if negb (time_in_range t) then Err (VTimeOutOfRange (nanos t))
      else Ok (write_head MAJOR_TAG TAG_TIME ++ write_head MAJOR_UNSIGNED (nanos t))
    | VDateTime dt =>
      if negb (offset_in_range (offset_minutes dt)) then Err (VOffsetOutOfRange (offset_minutes dt))
      else Ok (write_head MAJOR_TAG TAG_DATETIME ++ write_head MAJOR_ARRAY 2
               ++ write_int (epoch_nanos dt) ++ write_int (offset_minutes dt))
    | VDuration d =>
      Ok (write_head MAJOR_TAG TAG_DURATION ++ write_head MAJOR_ARRAY 3
          ++ write_int (months d) ++ write_int (ddays d) ++ write_int (dnanos d))
    | VList items =>
      let? body := write_all (fun item => write_value item (S depth)) items in
      Ok (write_head MAJOR_ARRAY (Z.of_nat (length items)) ++ body)
    end.

Definition encode_value_into (out : bytes) (value : Value) : result ValueEncodeError bytes :=
  let? b := write_value value 0 in Ok (out ++ b).

Definition encode_value (value : Value) : result ValueEncodeError bytes := encode_value_into [] value.

(** ** Decoding *)

(** [map_err] on one wrong-shape error; the others keep their kind. *)
Definition reclassify (what : string) (as_ : ValueDecodeError) (e : ValueDecodeError) : ValueDecodeError :=
  match e with
  | Unsupported w => if String.eqb w what then as_ else e
  | _ => e
  end.

Definition expect_array (count tag : Z) (input : bytes) : result ValueDecodeError (unit * bytes) :=
  let? '(n, input) := map_err (reclassify "unexpected major type" (InvalidTagContent tag "expected array"))
                        (read_head MAJOR_ARRAY input) in
  if negb (n =? count) then Err (InvalidTagContent tag "wrong array length") else Ok (tt, input).

Definition read_tagged (tag : Z) (input : bytes) : result ValueDecodeError (Value * bytes) :=
  if tag =? TAG_DATE then
    let? '(n, input) := map_err (reclassify "expected integer"
                                   (InvalidTagContent TAG_DATE "expected integer days"))
                          (read_i64 input) in
    Ok (VDate (mkDate n), input)
  else if tag =? TAG_TIME then
    let? '(ib, input) := read_u8 input in
    if negb (major_of ib =? MAJOR_UNSIGNED)
    then Err (InvalidTagContent TAG_TIME "expected unsigned integer nanoseconds")
    else
      let? '(n, input) := read_head_value (ai_of ib) input in
      if NANOS_PER_DAY <=? n then Err TimeOutOfRange else Ok (VTime (mkTime n), input)
  else if tag =? TAG_DATETIME then
    let? '(_, input) := expect_array 2 TAG_DATETIME input in
    let? '(epoch, input) := read_i64 input in
    let? '(offset, input) := read_i64 input in
    if negb (is_i16 offset) then Err OffsetOutOfRange
    else if negb (offset_in_range offset) then Err OffsetOutOfRange
    else Ok (VDateTime (mkDateTime epoch offset), input)
  else if tag =? TAG_DURATION then
    let? '(_, input) := expect_array 3 TAG_DURATION input in
    let? '(mo, input) := read_i64 input in
    let? '(da, input) := read_i64 input in
    let? '(na, input) := read_i64 input in
    Ok (VDuration (mkDuration mo da na), input)
  else Err (UnknownTag tag).

Definition read_f16 (input : bytes) : result ValueDecodeError (Value * bytes) :=
  let? '(bits, input) := read_be_u64 2 input in
  let exp := Z.land (Z.shiftr bits 10) 0x1f in
  let frac := Z.land bits 0x03ff in
  if (exp =? 0x1f) && negb (frac =? 0) then
    if negb (bits =? 0x7e00) then Err (NonCanonical "non-canonical NaN")
    else Ok (VFloat CANONICAL_NAN_BITS, input)
  else Ok (VFloat (f16_bits_to_f64 bits), input).

Definition read_f32 (input : bytes) : result ValueDecodeError (Value * bytes) :=
  let? '(bits, input) := read_be_u64 4 input in
  if f32_is_nan bits then Err (NonCanonical "non-canonical NaN")
  else
    let x := f32_to_f64 bits in
    if bool_decide (is_Some (f16_from_f64_exact x)) then Err (NonCanonical "float not in shortest form")
    else Ok (VFloat x, input).

Definition read_f64 (input : bytes) : result ValueDecodeError (Value * bytes) :=
  let? '(x, input) := read_be_u64 8 input in
  if f64_is_nan x then Err (NonCanonical "non-canonical NaN")
  else if bool_decide (is_Some (f16_from_f64_exact x)) || bool_decide (is_Some (f32_from_f64_exact x))
  then Err (NonCanonical "float not in shortest form")
  else Ok (VFloat x, input).

Definition read_simple_or_float (ai : Z) (input : bytes) : result ValueDecodeError (Value * bytes) :=
  if ai =? 20 then Ok (VBool false, input)
  else if ai =? 21 then Ok (VBool true, input)
  else if ai =? 22 then Ok (VNull, input)
  else if ai =? 23 then Err (Unsupported "undefined")
  else if ai <=? 19 then Err (Unsupported "simple value")
  else if ai =? 24 then Err (Unsupported "simple value")
  else if ai =? 25 then read_f16 input
  else if ai =? 26 then read_f32 input
  else if ai =? 27 then read_f64 input
  else if ai <=? 30 then Err MalformedHead
  else Err (Unsupported "break").

(** The [for _ in 0..count] loop. *)
Fixpoint read_items (read : bytes -> result ValueDecodeError (Value * bytes)) (count : nat) (input : bytes)
    : result ValueDecodeError (list Value * bytes) :=
  match count with
  | O => Ok ([], input)
  | S count =>
    let? '(v, input) := read input in
    let? '(items, input) := read_items read count input in
    Ok (v :: items, input)
  end.

(** [levels] is the nesting budget left, [MAX_DEPTH + 1 - depth]. *)
Fixpoint read_value (levels : nat) (input : bytes) : result ValueDecodeError (Value * bytes) :=
  match levels with
  | O => Err DepthExceeded
  | S levels =>
    let? '(ib, input) := read_u8 input in
    let major := major_of ib in
    let ai := ai_of ib in
    if major =? MAJOR_UNSIGNED then
      let? '(v, input) := read_head_value ai input in
      let? n := unsigned_to_i64 v in Ok (VInt n, input)
    else if major =? MAJOR_NEGATIVE then
      let? '(v, input) := read_head_value ai input in
      let? n := negative_to_i64 v in Ok (VInt n, input)
    else if major =? MAJOR_BYTES then
      let? '(len, input) := read_head_value ai input in
      let? len := check_len len input in
      let? '(b, input) := read_exact len input in Ok (VBytes b, input)
    else if major =? MAJOR_TEXT then
      let? '(len, input) := read_head_value ai input in
      let? len := check_len len input in
      let? '(s, input) := read_exact len input in
      if utf8_valid s then Ok (VString s, input) else Err InvalidUtf8
    else if major =? MAJOR_ARRAY then
      let? '(count, input) := read_head_value ai input in
      if Z.of_nat (length input) <? count then Err (LengthOverrun count (length input))
      else
        let? '(items, input) := read_items (read_value levels) (Z.to_nat count) input in
        Ok (VList items, input)
    else if major =? MAJOR_MAP then Err (Unsupported "map")
    else if major =? MAJOR_TAG then
      let? '(tag, input) := read_head_value ai input in read_tagged tag input
    else read_simple_or_float ai input
  end.

Definition decode_value (input : bytes) : result ValueDecodeError Value :=
  let? '(value, input) := read_value (S MAX_DEPTH) input in
  match input with [] => Ok value | _ :: _ => Err TrailingBytes end.

(** ** Normal form: one NaN *)

Definition normal_float (x : Z) : Z := if f64_is_nan x then CANONICAL_NAN_BITS else x.

Fixpoint normal (v : Value) : Value :=
  match v with
  | VFloat x => VFloat (normal_float x)
  | VList items => VList (map normal items)
  | v => v
  end.

Arguments MAX_DEPTH : simpl never.

(** ** Reading what is written *)

(** ** Floats *)

Lemma write_float_read x rest :
  is_u64 x = true ->
  exists ib tl, write_float x ++ rest = ib :: tl /\ major_of ib = MAJOR_SIMPLE /\
    read_simple_or_float (ai_of ib) tl = Ok (VFloat (normal_float x), rest).
Proof.
  intros Hx. unfold write_float, normal_float. destruct (f64_is_nan x) eqn:Hn.
  - eexists _, _. split; [reflexivity|]. split; [done|]. change (ai_of HEAD_F16) with 25. cbn [read_simple_or_float Z.eqb Pos.eqb Z.leb Z.compare Pos.compare Pos.compare_cont].
    unfold read_f16. rewrite read_be_u64_app by done. reflexivity.
  - destruct (f16_from_f64_exact x) as [h|] eqn:Eh.
    + destruct (f16_exact_sound x h Hx Eh) as (Hh & Hnh & Ew). unrange.
      eexists _, _. split; [reflexivity|]. split; [done|].
      change (read_simple_or_float (ai_of HEAD_F16)) with read_f16.
      unfold read_f16. rewrite read_be_u64_app by (simpl; lia). cbn [rbind].
      unfold f16_is_nan in Hnh. change 0x1f with 31. rewrite Hnh. by rewrite Ew.
    + destruct (f32_from_f64_exact x) as [y|] eqn:Ey.
      * destruct (f32_exact_sound x y Hx Hn Ey) as (Hy & Hny & Ew). unrange.
        eexists _, _. split; [reflexivity|]. split; [done|].
        change (read_simple_or_float (ai_of HEAD_F32)) with read_f32.
        unfold read_f32. rewrite read_be_u64_app by (simpl; lia). cbn [rbind].
        rewrite Hny, Ew, Eh. by rewrite bool_decide_false by (by intros []).
      * unrange. eexists _, _. split; [reflexivity|]. split; [done|].
        change (read_simple_or_float (ai_of HEAD_F64)) with read_f64.
        unfold read_f64. rewrite read_be_u64_app by (simpl; lia). cbn [rbind].
        rewrite Hn, Eh, Ey. by rewrite !bool_decide_false by (by intros []).
Qed.

(** What a successful read of one item says of its input. *)
Definition reads (depth : nat) (input : bytes) (v : Value) (rest : bytes) : Prop :=
  exists e, input = e ++ rest /\ write_value v depth = Ok e /\ normal v = v /\
    (Z.of_nat (length e) < 2 ^ 63 -> value_ok v = true).

Lemma write_value_depth d : (d <= MAX_DEPTH)%nat -> (MAX_DEPTH <? d)%nat = false.
Proof. intros H. by apply Nat.ltb_ge. Qed.

Lemma reads_cbor_float d x e rest input :
  (d <= MAX_DEPTH)%nat -> input = e ++ rest -> write_float x = e -> f64_is_nan x = false \/ x = CANONICAL_NAN_BITS ->
  is_u64 x = true -> reads d input (VFloat x) rest.
Proof.
  intros Hd -> He Hn Hx. exists e. split_and!; [done| | |done].
  - cbn [write_value]. by rewrite write_value_depth, He.
  - cbn [normal]. unfold normal_float. destruct Hn as [-> | ->]; done.
Qed.

Lemma initial_simple ib ai : major_of ib = MAJOR_SIMPLE -> ai_of ib = ai -> ib = z2b (Z.lor (Z.shiftl 7 5) ai).
Proof. intros Hm Ha. destruct (initial_byte_inv ib) as (E & _). by rewrite Hm, Ha in E. Qed.

Lemma read_simple_Ok d ib input v rest :
  (d <= MAX_DEPTH)%nat -> major_of ib = MAJOR_SIMPLE ->
  read_simple_or_float (ai_of ib) input = Ok (v, rest) -> reads d (ib :: input) v rest.
Proof.
  intros Hd Hm. unfold read_simple_or_float.
  assert (forall ai w, ai_of ib = ai -> Ok (E := ValueDecodeError) (w, input) = Ok (v, rest) ->
    write_value w d = Ok [z2b (Z.lor (Z.shiftl 7 5) ai)] -> normal w = w -> value_ok w = true ->
    reads d (ib :: input) v rest) as Hsimple.
  { intros ai w Ha H Hw Hn Hok. apply Ok_inj in H. injection H as <- <-.
    exists [ib]. split; [done|]. rewrite (initial_simple ib ai Hm Ha). by split_and!. }
  pose proof (write_value_depth d Hd) as Hdb.
  destruct (Z.eqb_spec (ai_of ib) 20) as [E|_].
  { intros H. apply (Hsimple 20 (VBool false) E H); cbn [write_value]; by rewrite ?Hdb. }
  destruct (Z.eqb_spec (ai_of ib) 21) as [E|_].
  { intros H. apply (Hsimple 21 (VBool true) E H); cbn [write_value]; by rewrite ?Hdb. }
  destruct (Z.eqb_spec (ai_of ib) 22) as [E|_].
  { intros H. apply (Hsimple 22 VNull E H); cbn [write_value]; by rewrite ?Hdb. }
  destruct (Z.eqb_spec (ai_of ib) 23) as [|_]; [done|]. destruct (Z.leb_spec (ai_of ib) 19) as [_|_]; [done|].
  destruct (Z.eqb_spec (ai_of ib) 24) as [|_]; [done|].
  destruct (Z.eqb_spec (ai_of ib) 25) as [E|_].
  { apply (initial_simple ib 25 Hm) in E. intros H. unfold read_f16 in H.
    apply rbind_Ok in H as ([bits r] & Hr & H). apply read_be_u64_Ok in Hr as [-> Hb].
    assert (is_u16 bits = true) as Hu by (apply in_range_spec; simpl in Hb; lia).
    change (z2b (Z.lor (Z.shiftl 7 5) 25)) with HEAD_F16 in E.
    destruct ((Z.land (Z.shiftr bits 10) 0x1f =? 0x1f) && negb (Z.land bits 0x03ff =? 0)) eqn:Hn.
    - destruct (Z.eqb_spec bits 0x7e00) as [->|]; [|done]. apply Ok_inj in H. injection H as <- <-.
      apply (reads_cbor_float d _ (ib :: be_bytes 2 0x7e00)); [done|done|by rewrite E|by right|done].
    - apply Ok_inj in H. injection H as <- <-. change 0x1f with 31 in Hn. fold (f16_is_nan bits) in Hn.
      destruct (f16_widen_ok bits Hu Hn) as [Hx Hnx].
      apply (reads_cbor_float d _ (ib :: be_bytes 2 bits)); [done|done| |by left|done].
      unfold write_float. by rewrite Hnx, f16_roundtrip, E. }
  destruct (Z.eqb_spec (ai_of ib) 26) as [E|_].
  { apply (initial_simple ib 26 Hm) in E. intros H. unfold read_f32 in H.
    apply rbind_Ok in H as ([bits r] & Hr & H). apply read_be_u64_Ok in Hr as [-> Hb].
    assert (is_u32 bits = true) as Hu by (apply in_range_spec; simpl in Hb; lia).
    change (z2b (Z.lor (Z.shiftl 7 5) 26)) with HEAD_F32 in E.
    destruct (f32_is_nan bits) eqn:Hn; [done|]. case_bool_decide as Hs; [done|].
    apply Ok_inj in H. injection H as <- <-. destruct (f32_widen_ok bits Hu Hn) as [Hx Hnx].
    apply (reads_cbor_float d _ (ib :: be_bytes 4 bits)); [done|done| |by left|done].
    unfold write_float. rewrite Hnx. destruct (f16_from_f64_exact _) eqn:Eh; [by destruct Hs|].
    by rewrite f32_roundtrip, E. }
  destruct (Z.eqb_spec (ai_of ib) 27) as [E|_].
  { apply (initial_simple ib 27 Hm) in E. intros H. unfold read_f64 in H.
    apply rbind_Ok in H as ([x r] & Hr & H). apply read_be_u64_Ok in Hr as [-> Hb].
    assert (is_u64 x = true) as Hu by (apply in_range_spec; simpl in Hb; lia).
    change (z2b (Z.lor (Z.shiftl 7 5) 27)) with HEAD_F64 in E.
    destruct (f64_is_nan x) eqn:Hn; [done|].
    destruct (f16_from_f64_exact x) eqn:Eh; [by rewrite bool_decide_true in H|].
    destruct (f32_from_f64_exact x) eqn:Es; [by rewrite orb_true_r in H || (rewrite bool_decide_false, bool_decide_true in H by (done || by intros []))|].
    rewrite !bool_decide_false in H by (by intros []). apply Ok_inj in H. injection H as <- <-.
    apply (reads_cbor_float d _ (ib :: be_bytes 8 x)); [done|done| |by left|done].
    unfold write_float. by rewrite Hn, Eh, Es, E. }
  by destruct (Z.leb_spec (ai_of ib) 30).
Qed.

(** ** Reading what is written *)

Lemma write_head_app major v rest :
  0 <= major < 8 -> is_u64 v = true ->
  exists ib tl, write_head major v ++ rest = ib :: tl /\ major_of ib = major /\
    read_head_value (ai_of ib) tl = Ok (v, rest).
Proof.
  intros Hm Hv. destruct (write_head_read major v Hm Hv) as (ib & tl & -> & Em & Hr).
  by exists ib, (tl ++ rest).
Qed.

Lemma write_int_app n rest : is_i64 n = true ->
  exists ib tl v, write_int n ++ rest = ib :: tl /\ read_head_value (ai_of ib) tl = Ok (v, rest) /\
    ((major_of ib = MAJOR_UNSIGNED /\ unsigned_to_i64 v = Ok n) \/
     (major_of ib = MAJOR_NEGATIVE /\ negative_to_i64 v = Ok n)).
Proof.
  intros Hn. rewrite write_int_head by done. unrange. destruct (Z.leb_spec 0 n).
  - destruct (write_head_app MAJOR_UNSIGNED n rest) as (ib & tl & -> & Em & Hr);
      [done|by apply in_range_spec; lia|]. exists ib, tl, n. split_and!; [done|done|left; split; [done|]].
    unfold unsigned_to_i64. by destruct (Z.ltb_spec n (2 ^ 63)); [|lia].
  - destruct (write_head_app MAJOR_NEGATIVE (-1 - n) rest) as (ib & tl & -> & Em & Hr);
      [done|by apply in_range_spec; lia|]. exists ib, tl, (-1 - n). split_and!; [done|done|right; split; [done|]].
    unfold negative_to_i64. destruct (Z.ltb_spec (2 ^ 63 - 1) (-1 - n)); [lia|]. f_equal. lia.
Qed.

Lemma expect_array_write count tag rest : is_u64 count = true ->
  expect_array count tag (write_head MAJOR_ARRAY count ++ rest) = Ok (tt, rest).
Proof.
  intros Hc. unfold expect_array. rewrite read_head_write by done. cbn [map_err rbind]. by rewrite Z.eqb_refl.
Qed.

Lemma read_list_write (read : bytes -> result ValueDecodeError (Value * bytes))
    (f : Value -> result ValueEncodeError bytes) l el rest :
  Forall (fun v => forall e rest, f v = Ok e -> read (e ++ rest) = Ok (normal v, rest)) l ->
  write_all f l = Ok el -> read_items read (length l) (el ++ rest) = Ok (map normal l, rest).
Proof.
  intros HF. revert el. induction HF as [|v l Hv HF IH]; intros el; simpl.
  - intros H. rinv. by subst.
  - intros H. rinv. subst. rewrite <-app_assoc, (Hv _ _ Ha). cbn [rbind]. by rewrite (IH _ Ha0).
Qed.

(** Dispatch on the first byte of an item. *)
Lemma read_value_item levels major v rest : 0 <= major < 7 -> is_u64 v = true ->
  read_value (S levels) (write_head major v ++ rest) =
  (if major =? MAJOR_UNSIGNED then let? n := unsigned_to_i64 v in Ok (VInt n, rest)
   else if major =? MAJOR_NEGATIVE then let? n := negative_to_i64 v in Ok (VInt n, rest)
   else if major =? MAJOR_BYTES then
     let? len := check_len v rest in
     let? '(b, input) := read_exact len rest in Ok (VBytes b, input)
   else if major =? MAJOR_TEXT then
     let? len := check_len v rest in
     let? '(s, input) := read_exact len rest in
     if utf8_valid s then Ok (VString s, input) else Err InvalidUtf8
   else if major =? MAJOR_ARRAY then
     if Z.of_nat (length rest) <? v then Err (LengthOverrun v (length rest))
     else let? '(items, input) := read_items (read_value levels) (Z.to_nat v) rest in
          Ok (VList items, input)
   else if major =? MAJOR_MAP then Err (Unsupported "map")
   else read_tagged v rest).
Proof.
  intros Hm Hv. destruct (write_head_app major v rest ltac:(lia) Hv) as (ib & tl & -> & Em & Hr).
  cbn [read_value read_u8 rbind]. rewrite Em, Hr. cbn [rbind].
  assert (major = 0 \/ major = 1 \/ major = 2 \/ major = 3 \/ major = 4 \/ major = 5 \/ major = 6) as Hcases by lia.
  clear Em. by repeat destruct Hcases as [->|Hcases]; subst.
Qed.

Lemma write_all_length (f : Value -> result ValueEncodeError bytes) l e :
  (forall v e, f v = Ok e -> e <> []) -> write_all f l = Ok e -> (length l <= length e)%nat.
Proof.
  intros Hf. revert e. induction l as [|x l IH]; intros e; simpl; [lia|].
  intros H. rinv. subst. rewrite length_app. specialize (IH _ Ha0).
  specialize (Hf _ _ Ha). destruct a; [done|]. simpl. lia.
Qed.

Lemma write_head_nonempty major v rest : write_head major v ++ rest <> [].
Proof. unfold write_head. by repeat case_match. Qed.

Lemma write_value_nonempty d v e : write_value v d = Ok e -> e <> [].
Proof.
  destruct v as [|[]|n|x|s|b|[dd]|[t]|[ep off]|[mo da na]|items]; cbn [write_value];
    (destruct (MAX_DEPTH <? d)%nat; [done|]); repeat (case_match; try done);
    intros Heq; rinv; subst; try done; try apply write_head_nonempty.
  - unfold write_int. rewrite <-(app_nil_r (if 0 <=? n then _ else _)). case_match; apply write_head_nonempty.
  - unfold write_float. by repeat case_match.
Qed.

Lemma read_value_write v depth levels e rest :
  value_ok v = true -> write_value v depth = Ok e -> (levels + depth = S MAX_DEPTH)%nat ->
  read_value levels (e ++ rest) = Ok (normal v, rest).
Proof.
  revert depth levels e rest.
  induction v as [|[]|n|x|s|b|[d]|[t]|[ep off]|[mo da na]|items IH] using Value_ind';
    intros depth levels e rest Hok He Hl;
    cbn [write_value] in He; destruct (Nat.ltb_spec MAX_DEPTH depth) as [|Hd]; try done;
    (destruct levels as [|levels]; [lia|]);
    cbn [value_ok] in Hok; unfold time_ok, datetime_ok, duration_ok in Hok;
    cbn [nanos days epoch_nanos offset_minutes months ddays dnanos] in *;
    rewrite ?andb_true_iff in Hok; destruct_and?.
  - apply Ok_inj in He as <-. reflexivity.
  - apply Ok_inj in He as <-. reflexivity.
  - apply Ok_inj in He as <-. reflexivity.
  - apply Ok_inj in He as <-. destruct (write_int_app n rest Hok) as (ib & tl & v & -> & Hr & H).
    cbn [read_value read_u8 rbind]. rewrite Hr. destruct H as [[-> Hc] | [-> Hc]]; simpl; by rewrite Hc.
  - apply Ok_inj in He as <-. destruct (write_float_read x rest Hok) as (ib & tl & -> & Em & Hr).
    cbn [read_value read_u8 rbind]. by rewrite Em, Hr.
  - apply Ok_inj in He as <-. unfold str_ok in Hok. rewrite andb_true_iff in Hok. destruct Hok as [Hu Hlen].
    rewrite <-app_assoc, read_value_item by (done || by apply len_u64). simpl.
    rewrite check_len_app by (rewrite length_app; lia). cbn [rbind]. rewrite read_exact_app. cbn [rbind].
    by rewrite Hu.
  - apply Ok_inj in He as <-. rewrite <-app_assoc, read_value_item by (done || by apply len_u64). simpl.
    rewrite check_len_app by (rewrite length_app; lia). cbn [rbind]. by rewrite read_exact_app.
  - apply Ok_inj in He as <-. rewrite <-app_assoc, read_value_item by done. cbn [MAJOR_TAG]. simpl Z.eqb. cbv iota.
    unfold read_tagged. rewrite Z.eqb_refl, read_i64_write by done. done.
  - destruct (time_in_range (mkTime t)) eqn:Ht; [|done]. apply Ok_inj in He as <-.
    rewrite <-app_assoc, read_value_item by done. simpl Z.eqb. cbv iota. unfold read_tagged. simpl Z.eqb. cbv iota.
    destruct (write_head_app MAJOR_UNSIGNED t rest) as (ib & tl & -> & Em & Hr); [done|done|].
    cbn [read_u8 rbind]. rewrite Em, Hr. simpl Z.eqb. cbn [negb rbind].
    unfold time_in_range in Ht. cbn [nanos] in Ht. apply Z.ltb_lt in Ht.
    destruct (Z.leb_spec NANOS_PER_DAY t); [lia|done].
  - destruct (offset_in_range off) eqn:Ho; [|done]. apply Ok_inj in He as <-.
    rewrite <-!app_assoc, read_value_item by done. simpl Z.eqb. cbv iota. unfold read_tagged. simpl Z.eqb. cbv iota.
    rewrite expect_array_write by done. cbn [rbind]. rewrite read_i64_write by done. cbn [rbind].
    assert (is_i64 off = true) by (unrange; apply in_range_spec; lia).
    rewrite read_i64_write by done. cbn [rbind]. rewrite H0, Ho. done.
  - apply Ok_inj in He as <-.
    rewrite <-!app_assoc, read_value_item by done. simpl Z.eqb. cbv iota. unfold read_tagged. simpl Z.eqb. cbv iota.
    rewrite expect_array_write by done. cbn [rbind]. rewrite !read_i64_write by done. cbn [rbind].
    rewrite read_i64_write by done. cbn [rbind]. by rewrite read_i64_write.
  - apply rbind_Ok in He as (body & Hbody & He). apply Ok_inj in He as <-.
    rewrite <-app_assoc, read_value_item by (done || by apply len_u64). simpl Z.eqb. cbv iota.
    pose proof (write_all_length _ _ _ (write_value_nonempty (S depth)) Hbody) as Hlen.
    destruct (Z.ltb_spec (Z.of_nat (length (body ++ rest))) (Z.of_nat (length items))) as [Hlt|_].
    { rewrite length_app in Hlt. lia. }
    rewrite Nat2Z.id, (read_list_write (read_value levels) (fun item => write_value item (S depth)) items);
      [done| |done].
    rewrite forallb_Forall_true in *. rewrite Forall_forall in *. intros v Hv e r He.
    apply (IH v Hv (S depth)); [auto|done|lia].
Qed.

(** ** Only what is written is read *)

Lemma reads_cbor_intro depth e rest input v :
  input = e ++ rest -> write_value v depth = Ok e -> normal v = v ->
  (Z.of_nat (length e) < 2 ^ 63 -> value_ok v = true) -> reads depth input v rest.
Proof. intros. by exists e. Qed.

Definition reads_all (depth : nat) (input : bytes) (l : list Value) (rest : bytes) : Prop :=
  exists e, input = e ++ rest /\ write_all (fun v => write_value v depth) l = Ok e /\
    map normal l = l /\ (Z.of_nat (length e) < 2 ^ 63 -> Forall (fun v => value_ok v = true) l).

Lemma read_list_Ok read depth count input l rest :
  (forall input v rest, read input = Ok (v, rest) -> reads depth input v rest) ->
  read_items read count input = Ok (l, rest) -> length l = count /\ reads_all depth input l rest.
Proof.
  intros Hr. revert input l. induction count as [|count IH]; intros input l; cbn [read_items].
  - intros H. apply Ok_inj in H. injection H as <- <-. split; [done|]. exists []. by split_and!.
  - intros H. apply rbind_Ok in H as ([v mid] & Hv & H). apply rbind_Ok in H as ([l' r] & Hl & H).
    apply Ok_inj in H. injection H as <- <-. apply Hr in Hv as (e & -> & He & Hn & Hok).
    apply IH in Hl as (<- & e' & -> & He' & Hn' & Hok'). split; [done|].
    exists (e ++ e'). rewrite app_assoc. simpl. rewrite He, He', Hn, Hn'. split_and!; [done..|].
    rewrite length_app. intros Hlen. constructor; [apply Hok|apply Hok']; lia.
Qed.

(** A length-prefixed payload. *)
Lemma read_payload_Ok v input n b rest :
  is_u64 v = true -> check_len v input = Ok n -> read_exact n input = Ok (b, rest) ->
  input = b ++ rest /\ v = Z.of_nat (length b).
Proof.
  intros Hv Hn Hr. unrange. apply check_len_Ok in Hn as [-> _]; [|lia].
  by apply read_exact_Ok in Hr as [-> <-].
Qed.

Lemma expect_array_Ok count tag input u rest :
  expect_array count tag input = Ok (u, rest) -> input = write_head MAJOR_ARRAY count ++ rest.
Proof.
  unfold expect_array. intros H. apply rbind_Ok in H as ([n r] & Hr & H). apply map_err_Ok in Hr.
  apply read_head_Ok in Hr as [-> _]. destruct (Z.eqb_spec n count) as [->|]; [|done].
  apply Ok_inj in H. by injection H as _ <-.
Qed.

Ltac open_i64 H :=
  let n := fresh "n" in let r := fresh "r" in let Hr := fresh "Hr" in let Hi := fresh "Hi" in
  apply rbind_Ok in H as ([n r] & Hr & H); apply read_cbor_i64_Ok in Hr as [-> Hi].

Lemma read_tagged_Ok d tag input v rest :
  (d <= MAX_DEPTH)%nat -> read_tagged tag input = Ok (v, rest) ->
  reads d (write_head MAJOR_TAG tag ++ input) v rest.
Proof.
  intros Hd. pose proof (write_value_depth d Hd) as Hdb. unfold read_tagged.
  destruct (Z.eqb_spec tag TAG_DATE) as [->|_].
  { intros H. apply rbind_Ok in H as ([n r] & Hr & H). apply map_err_Ok, read_cbor_i64_Ok in Hr as [-> Hi].
    apply Ok_inj in H. injection H as <- <-. eapply reads_cbor_intro; [apply app_assoc| |done|done].
    cbn [write_value]. by rewrite Hdb. }
  destruct (Z.eqb_spec tag TAG_TIME) as [->|_].
  { destruct input as [|ib input]; [done|]. cbn [read_u8 rbind].
    destruct (Z.eqb_spec (major_of ib) MAJOR_UNSIGNED) as [Em|]; [|done]. cbn [negb]. intros H.
    apply rbind_Ok in H as ([n r] & Hr & H). apply read_head_value_Ok in Hr as [-> Hn].
    destruct (Z.leb_spec NANOS_PER_DAY n); [done|]. apply Ok_inj in H. injection H as <- <-.
    rewrite Em. eapply reads_cbor_intro; [apply app_assoc| |done|done].
    cbn [write_value]. unfold time_in_range. cbn [nanos]. rewrite Hdb.
    by destruct (Z.ltb_spec n NANOS_PER_DAY); [|lia]. }
  destruct (Z.eqb_spec tag TAG_DATETIME) as [->|_].
  { intros H. apply rbind_Ok in H as ([u r] & Hr & H). apply expect_array_Ok in Hr as ->.
    open_i64 H. open_i64 H. destruct (is_i16 n0) eqn:H16; [|done]. cbn [negb] in H.
    destruct (offset_in_range n0) eqn:Ho; [|done]. apply Ok_inj in H. injection H as <- <-.
    eapply reads_cbor_intro; [by rewrite !app_assoc| |done|].
    - cbn [write_value epoch_nanos offset_minutes]. by rewrite Hdb, Ho, <-!app_assoc.
    - intros _. cbn. unfold datetime_ok. cbn. by rewrite Hi, H16. }
  destruct (Z.eqb_spec tag TAG_DURATION) as [->|_]; [|done].
  intros H. apply rbind_Ok in H as ([u r] & Hr & H). apply expect_array_Ok in Hr as ->.
  open_i64 H. open_i64 H. open_i64 H. apply Ok_inj in H. injection H as <- <-.
  eapply reads_cbor_intro; [by rewrite !app_assoc| |done|].
  - cbn [write_value months ddays dnanos]. by rewrite Hdb, <-!app_assoc.
  - intros _. cbn. unfold duration_ok. cbn. by rewrite Hi, Hi0, Hi1.
Qed.

Lemma read_value_Ok levels depth input v rest :
  (levels + depth = S MAX_DEPTH)%nat -> read_value levels input = Ok (v, rest) -> reads depth input v rest.
Proof.
  revert depth input v rest. induction levels as [|levels IH]; intros d input v rest Hl; [done|].
  assert (d <= MAX_DEPTH)%nat as Hd by lia. pose proof (write_value_depth d Hd) as Hdb.
  destruct input as [|ib input]; [done|]. cbn [read_value read_u8 rbind].
  destruct (Z.eqb_spec (major_of ib) MAJOR_UNSIGNED) as [Em|Hn1].
  { intros H. apply rbind_Ok in H as ([w r] & Hr & H). apply read_head_value_Ok in Hr as [-> Hw].
    apply rbind_Ok in H as (n & Hn & H). apply Ok_inj in H. injection H as <- <-.
    apply unsigned_to_i64_Ok in Hn as (Hi & _ & E); [|done]. rewrite Em, <-E.
    eapply reads_cbor_intro; [done| |done|done]. cbn [write_value]. by rewrite Hdb. }
  destruct (Z.eqb_spec (major_of ib) MAJOR_NEGATIVE) as [Em|Hn2].
  { intros H. apply rbind_Ok in H as ([w r] & Hr & H). apply read_head_value_Ok in Hr as [-> Hw].
    apply rbind_Ok in H as (n & Hn & H). apply Ok_inj in H. injection H as <- <-.
    apply negative_to_i64_Ok in Hn as (Hi & _ & E); [|done]. rewrite Em, <-E.
    eapply reads_cbor_intro; [done| |done|done]. cbn [write_value]. by rewrite Hdb. }
  destruct (Z.eqb_spec (major_of ib) MAJOR_BYTES) as [Em|Hn3].
  { intros H. apply rbind_Ok in H as ([w r] & Hr & H). apply read_head_value_Ok in Hr as [-> Hw].
    apply rbind_Ok in H as (n & Hn & H). apply rbind_Ok in H as ([b r'] & Hb & H).
    apply Ok_inj in H. injection H as <- <-. destruct (read_payload_Ok _ _ _ _ _ Hw Hn Hb) as [-> ->].
    rewrite Em. eapply reads_cbor_intro; [apply app_assoc| |done|].
    - cbn [write_value]. by rewrite Hdb.
    - rewrite length_app. intros Hlen. cbn. apply Z.ltb_lt. lia. }
  destruct (Z.eqb_spec (major_of ib) MAJOR_TEXT) as [Em|Hn4].
  { intros H. apply rbind_Ok in H as ([w r] & Hr & H). apply read_head_value_Ok in Hr as [-> Hw].
    apply rbind_Ok in H as (n & Hn & H). apply rbind_Ok in H as ([s r'] & Hs & H).
    destruct (utf8_valid s) eqn:Hu; [|done].
    apply Ok_inj in H. injection H as <- <-. destruct (read_payload_Ok _ _ _ _ _ Hw Hn Hs) as [-> ->].
    rewrite Em. eapply reads_cbor_intro; [apply app_assoc| |done|].
    - cbn [write_value]. by rewrite Hdb.
    - rewrite length_app. intros Hlen. cbn. unfold str_ok. rewrite Hu. apply Z.ltb_lt. lia. }
  destruct (Z.eqb_spec (major_of ib) MAJOR_ARRAY) as [Em|Hn5].
  { intros H. apply rbind_Ok in H as ([w r] & Hr & H). apply read_head_value_Ok in Hr as [-> Hw].
    destruct (Z.ltb_spec (Z.of_nat (length r)) w); [done|].
    apply rbind_Ok in H as ([items r'] & Hit & H). apply Ok_inj in H. injection H as <- <-.
    apply (read_list_Ok _ (S d)) in Hit as (Hc & e & -> & He & Hnorm & Hok); [|intros; apply IH; (lia || done)].
    unrange. assert (w = Z.of_nat (length items)) as -> by lia.
    rewrite Em. eapply reads_cbor_intro; [apply app_assoc| | |].
    - cbn [write_value]. by rewrite Hdb, He.
    - cbn [normal]. by rewrite Hnorm.
    - rewrite length_app. intros Hlen. apply value_ok_list. split; [|apply Hok; lia].
      pose proof (write_all_length _ _ _ (write_value_nonempty (S d)) He). apply Z.ltb_lt. lia. }
  destruct (Z.eqb_spec (major_of ib) MAJOR_MAP) as [Em|Hn6]; [done|].
  destruct (Z.eqb_spec (major_of ib) MAJOR_TAG) as [Em|Hn7].
  { intros H. apply rbind_Ok in H as ([tag r] & Hr & H). apply read_head_value_Ok in Hr as [-> Hw].
    rewrite Em. by apply read_tagged_Ok. }
  apply read_simple_Ok; [done|]. destruct (initial_byte_inv ib) as (_ & Hm & _).
  unfold MAJOR_UNSIGNED, MAJOR_NEGATIVE, MAJOR_BYTES, MAJOR_TEXT, MAJOR_ARRAY, MAJOR_MAP, MAJOR_TAG, MAJOR_SIMPLE in *.
  lia.
Qed.

(** ** The codec *)

(** Decoding inverts encoding. Every value the encoder accepts decodes to
    the same value, each NaN replaced by the one canonical NaN; the sign of
    zero is kept. *)
Lemma decode_encode_value v e :
  value_ok v = true -> encode_value v = Ok e -> decode_value e = Ok (normal v).
Proof.
  intros Hok H. unfold encode_value, encode_value_into in H. apply rbind_Ok in H as (b & Hb & H).
  apply Ok_inj in H as <-. unfold decode_value. cbn [app]. rewrite <-(app_nil_r b).
  by rewrite (read_value_write v 0 (S MAX_DEPTH) b []) by (done || lia).
Qed.

Lemma decode_encode_value_witness :
  value_ok (VList [VFloat (CANONICAL_NAN_BITS + 1); VInt (-500); VTime (mkTime 1)]) = true /\
  decode_value [x83; xf9; x7e; x00; x39; x01; xf3; xda; x00; x01; x21; x74; x01] =
    Ok (normal (VList [VFloat (CANONICAL_NAN_BITS + 1); VInt (-500); VTime (mkTime 1)])).
Proof.
  split; [reflexivity|]. apply decode_encode_value; vm_compute; reflexivity.
Defined.

(** The decoder is strict. Whatever bytes decode are exactly the bytes the
    encoder writes for the decoded value, and the value satisfies the Rust
    type's invariant. *)
Lemma decode_value_canonical input v :
  Z.of_nat (length input) < 2 ^ 63 -> decode_value input = Ok v ->
  encode_value v = Ok input /\ normal v = v /\ value_ok v = true.
Proof.
  intros Hlen H. unfold decode_value in H. apply rbind_Ok in H as ([w rest] & Hr & H).
  destruct rest; [|done]. apply Ok_inj in H as ->.
  apply (read_value_Ok _ 0) in Hr as (e & -> & He & Hn & Hok); [|lia]. rewrite app_nil_r in *.
  unfold encode_value, encode_value_into. rewrite He. split_and!; [done|done|by apply Hok].
Qed.

Lemma decode_value_canonical_witness :
  encode_value (VList [VBool true; VFloat 0x3ff8000000000000]) = Ok [x82; xf5; xf9; x3e; x00] /\
  normal (VList [VBool true; VFloat 0x3ff8000000000000]) = VList [VBool true; VFloat 0x3ff8000000000000] /\
  value_ok (VList [VBool true; VFloat 0x3ff8000000000000]) = true.
Proof. apply decode_value_canonical; vm_compute; reflexivity. Defined.
