(* ===== verification/Canonical.v ===== *)
(** * Canonical names and maps (crates/acetone-model/src/records.rs)

    The order of names under their encodings, name sets normalised to it, and
    maps written and read back as lists of entries in it: what the record,
    schema and manifest codecs share. [Codec] is the contract between a reader
    and a writer; the codec of a list or a map comes from the codec of its
    parts. *)
From S2P Require Import Prelude Ieee Model Cbor.

(** ** The canonical order of names *)

Definition canonical_lt (a b : bytes) : Prop := canonical_str_cmp a b = Lt.
Definition canonical_le (a b : bytes) : Prop := canonical_str_cmp a b <> Gt.

#[global] Instance canonical_lt_dec a b : Decision (canonical_lt a b).
Proof. unfold canonical_lt. solve_decision. Defined.
#[global] Instance canonical_le_dec : RelDecision canonical_le.
Proof. intros a b. unfold canonical_le. solve_decision. Defined.

Lemma canonical_cmp_eq a b : canonical_str_cmp a b = Eq <-> a = b.
Proof.
  unfold canonical_str_cmp. split.
  - destruct (Nat.compare_spec (length a) (length b)); cbn [cmp_then]; [apply bytes_cmp_eq|done..].
  - intros ->. rewrite Nat.compare_refl. cbn [cmp_then]. apply bytes_cmp_refl.
Qed.

Lemma canonical_cmp_sym a b : canonical_str_cmp b a = CompOpp (canonical_str_cmp a b).
Proof.
  unfold canonical_str_cmp. rewrite (bytes_cmp_sym a b), (Nat.compare_antisym (length a) (length b)).
  by destruct (length a ?= length b), (bytes_cmp a b).
Qed.

Lemma canonical_lt_spec a b :
  canonical_lt a b <-> length a < length b \/ (length a = length b /\ bytes_lt a b).
Proof.
  unfold canonical_lt, canonical_str_cmp, bytes_lt.
  destruct (Nat.compare_spec (length a) (length b)); cbn [cmp_then]; intuition (done || lia).
Qed.

#[global] Instance canonical_lt_strict : StrictOrder canonical_lt.
Proof.
  split.
  - intros a H%canonical_lt_spec. destruct H as [H|[_ H]]; [lia|]. by apply (irreflexivity bytes_lt a).
  - intros a b c. rewrite !canonical_lt_spec. intros [H1|[E1 H1]] [H2|[E2 H2]]; [left; lia..|].
    right. split; [lia|by etrans].
Qed.

Lemma canonical_le_lteq a b : canonical_le a b <-> canonical_lt a b \/ a = b.
Proof.
  unfold canonical_le, canonical_lt. rewrite <-canonical_cmp_eq.
  destruct (canonical_str_cmp a b); intuition congruence.
Qed.

#[global] Instance canonical_le_total : Total canonical_le.
Proof. intros a b. unfold canonical_le. rewrite (canonical_cmp_sym a b). destruct (canonical_str_cmp a b); auto; by right. Qed.

#[global] Instance canonical_le_trans : Transitive canonical_le.
Proof.
  intros a b c. rewrite !canonical_le_lteq. intros [H| ->] [H'| ->]; auto. left. by etrans.
Qed.

(** ** Name sets *)

(** [v.dedup()] *)
Fixpoint dedup (l : list bytes) : list bytes :=
  match l with
  | [] => []
  | x :: l =>
    match l with
    | [] => [x]
    | y :: _ => if bool_decide (x = y) then dedup l else x :: dedup l
    end
  end.

Definition normalise_strings (items : list bytes) : list bytes :=
  dedup (merge_sort canonical_le items).

(** [normalise_strings] sorts and removes duplicates. *)
Lemma dedup_elem l x : x ∈ dedup l <-> x ∈ l.
Proof.
  induction l as [|y l IH]; [done|]. destruct l as [|z l]; [done|]. cbn [dedup] in *.
  case_bool_decide as E; [|by rewrite elem_of_cons, IH, (elem_of_cons (z :: l))].
  rewrite IH, E, (elem_of_cons (z :: l)). split; [by right|]. intros [->|]; [apply list_elem_of_here|done].
Qed.

Lemma dedup_sorted (lt le : relation bytes) `{!StrictOrder lt} l :
  (forall a b, le a b <-> lt a b \/ a = b) -> StronglySorted le l -> StronglySorted lt (dedup l).
Proof.
  intros Hle. induction l as [|y l IH]; intros Hs; [constructor|]. apply StronglySorted_inv in Hs as [Hs Hy].
  destruct l as [|z l]; [by repeat constructor|]. specialize (IH Hs).
  change (dedup (y :: z :: l)) with (if bool_decide (y = z) then dedup (z :: l) else y :: dedup (z :: l)).
  case_bool_decide as E; [done|]. constructor; [done|]. rewrite Forall_forall. intros x Hx. apply (proj1 (dedup_elem _ _)) in Hx.
  pose proof Hy as Hyz. apply Forall_cons_1 in Hyz as [Hyz _].
  apply Hle in Hyz as [Hyz|]; [|done].
  apply StronglySorted_inv in Hs as [_ Hz]. apply elem_of_cons in Hx as [->|Hx]; [done|].
  rewrite Forall_forall in Hz. specialize (Hz x Hx). apply Hle in Hz as [Hz| ->]; [by etrans|done].
Qed.

Lemma dedup_ascending l : StronglySorted canonical_le l -> StronglySorted canonical_lt (dedup l).
Proof. apply (dedup_sorted canonical_lt canonical_le), canonical_le_lteq. Qed.

Lemma normalise_strings_ascending items : StronglySorted canonical_lt (normalise_strings items).
Proof. apply dedup_ascending, Sorted_StronglySorted, Sorted_merge_sort; apply _. Qed.

Lemma normalise_strings_elem items x : x ∈ normalise_strings items <-> x ∈ items.
Proof. unfold normalise_strings. by rewrite dedup_elem, merge_sort_Permutation. Qed.

(** Normalising a normal list changes nothing. *)
Lemma normalise_strings_id items : StronglySorted canonical_lt items -> normalise_strings items = items.
Proof.
  intros Hs. apply (sorted_ext canonical_lt id); rewrite ?map_id; [apply normalise_strings_ascending|done|].
  apply normalise_strings_elem.
Qed.

(** The length test for duplicates of a sorted list. *)
Lemma dedup_length_le l : length (dedup l) <= length l.
Proof.
  induction l as [|y l IH]; [done|]. destruct l as [|z l]; [done|].
  change (dedup (y :: z :: l)) with (if bool_decide (y = z) then dedup (z :: l) else y :: dedup (z :: l)).
  case_bool_decide; cbn [length] in *; lia.
Qed.

Lemma dedup_length_id l : length (dedup l) = length l -> dedup l = l.
Proof.
  induction l as [|y l IH]; [done|]. destruct l as [|z l]; [done|].
  change (dedup (y :: z :: l)) with (if bool_decide (y = z) then dedup (z :: l) else y :: dedup (z :: l)).
  pose proof (dedup_length_le (z :: l)).
  case_bool_decide; cbn [length] in *; intros Hl; [lia|]. f_equal. apply IH. lia.
Qed.

Lemma strongly_sorted_NoDup {A : Type} (lt : relation A) `{!StrictOrder lt} l : StronglySorted lt l -> NoDup l.
Proof.
  intros H. induction H as [|k ks H IH Hk]; constructor; [|done].
  intros Hin. rewrite Forall_forall in Hk. by apply (irreflexivity lt k), Hk.
Qed.

(** ** Counts and order tests *)

(** The [previous] test: names strictly ascend. *)
Definition follows (previous : option bytes) (name : bytes) : bool :=
  match previous with Some prev => bool_decide (canonical_lt prev name) | None => true end.

Definition read_count {E : Type} (wrap : ValueDecodeError -> E) (major : Z) (input : bytes)
    : result E (nat * bytes) :=
  let? '(count, input) := map_err wrap (read_head major input) in
  if (Z.of_nat (length input) <? count)%Z then Err (wrap (LengthOverrun count (length input)))
  else Ok (Z.to_nat count, input).

Lemma size_u64 n : (Z.of_nat n < 2 ^ 63)%Z -> is_u64 (Z.of_nat n) = true.
Proof. intros H. apply in_range_spec. lia. Qed.

Lemma read_count_write {E} (wrap : ValueDecodeError -> E) major n body rest :
  (0 <= major < 8)%Z -> (Z.of_nat n < 2 ^ 63)%Z -> n <= length body ->
  read_count wrap major (write_head major (Z.of_nat n) ++ body ++ rest) = Ok (n, body ++ rest).
Proof.
  intros Hm Hn Hl. unfold read_count. rewrite read_head_write by (done || by apply size_u64). cbn [map_err rbind].
  rewrite length_app. destruct (Z.ltb_spec (Z.of_nat (length body + length rest)) (Z.of_nat n)); [lia|].
  by rewrite Nat2Z.id.
Qed.

Lemma read_count_Ok {E} (wrap : ValueDecodeError -> E) major input n rest :
  read_count wrap major input = Ok (n, rest) -> input = write_head major (Z.of_nat n) ++ rest /\ n <= length rest.
Proof.
  unfold read_count. intros H. apply rbind_Ok in H as ([c r] & Hr & H). apply map_err_Ok, read_head_Ok in Hr as [-> Hc].
  unrange. destruct (Z.ltb_spec (Z.of_nat (length r)) c); [done|]. apply Ok_inj in H. injection H as <- <-.
  rewrite Z2Nat.id by lia. split; [done|lia].
Qed.

Definition after_name (previous : option bytes) (names : list bytes) : Prop :=
  match previous with Some prev => Forall (canonical_lt prev) names | None => True end.

Lemma after_follows previous name names : after_name previous (name :: names) -> follows previous name = true.
Proof. destruct previous; [|done]. intros H. apply Forall_cons_1 in H as [H _]. by apply bool_decide_eq_true. Qed.

Lemma follows_after previous name names :
  follows previous name = true -> Forall (canonical_lt name) names -> after_name previous (name :: names).
Proof.
  destruct previous as [prev|]; [|done]. cbn. intros H%bool_decide_eq_true Hn. constructor; [done|].
  eapply Forall_impl; [exact Hn|]. intros x. by apply transitivity.
Qed.

(** ** Entries in canonical order *)

Abbreviation ascending key l := (StronglySorted canonical_lt (map key l)).

Lemma ascending_NoDup {A : Type} (key : A -> bytes) l : ascending key l -> NoDup (map key l).
Proof. apply (strongly_sorted_NoDup canonical_lt). Qed.

Section entries.
Context {V : Type}.

Definition entry_le (a b : bytes * V) : Prop := canonical_le a.1 b.1.
#[global] Instance entry_le_dec : RelDecision entry_le.
Proof. intros a b. unfold entry_le. apply _. Defined.

#[global] Instance entry_le_total : Total entry_le.
Proof. intros a b. apply canonical_le_total. Qed.
#[global] Instance entry_le_trans : Transitive entry_le.
Proof. intros a b c. apply canonical_le_trans. Qed.

(** The entries of a map in canonical order. *)
Definition entries_of (m : gmap bytes V) : list (bytes * V) := merge_sort entry_le (map_to_list m).

Lemma entries_of_elem m k v : (k, v) ∈ entries_of m <-> m !! k = Some v.
Proof. unfold entries_of. rewrite merge_sort_Permutation. apply elem_of_map_to_list. Qed.

Lemma entries_of_ascending m : ascending fst (entries_of m).
Proof.
  assert (StronglySorted entry_le (entries_of m)) as Hs by (apply Sorted_StronglySorted, Sorted_merge_sort; apply _).
  assert (NoDup (map fst (entries_of m))) as Hn.
  { unfold entries_of. change (map fst) with (fmap (M := list) (fst (A := bytes) (B := V))).
    rewrite merge_sort_Permutation. apply NoDup_fst_map_to_list. }
  revert Hs Hn. generalize (entries_of m). intros l Hs. induction Hs as [|e l Hs IH He]; [constructor|].
  cbn [map]. intros [Hne Hn]%NoDup_cons. constructor; [by apply IH|].
  rewrite Forall_map. rewrite Forall_forall in He. rewrite Forall_forall. intros x Hx.
  specialize (He x Hx). apply canonical_le_lteq in He as [He|He]; [done|].
  destruct Hne. rewrite He. by apply list_elem_of_fmap_2.
Qed.

Lemma length_entries_of m : length (entries_of m) = size m.
Proof. unfold entries_of. rewrite merge_sort_Permutation. by rewrite length_map_to_list. Qed.

(** A canonically sorted list is the entries of its map. *)
Lemma entries_of_list l : ascending fst l -> entries_of (list_to_map l) = l.
Proof.
  intros Hs. apply (sorted_ext canonical_lt fst); [apply entries_of_ascending|done|]. intros [k v].
  rewrite entries_of_elem. symmetry. apply elem_of_list_to_map. by apply ascending_NoDup.
Qed.

Definition insert_all (m : gmap bytes V) (l : list (bytes * V)) : gmap bytes V :=
  foldl (fun m e => <[e.1 := e.2]> m) m l.

Lemma insert_all_union m l : NoDup (map fst l) -> insert_all m l = list_to_map l ∪ m.
Proof.
  revert m. induction l as [|[k v] l IH]; intros m Hn; [symmetry; apply (left_id_L ∅ (∪))|].
  cbn [map fst] in Hn. apply NoDup_cons in Hn as [Hk Hn]. cbn [insert_all foldl fst snd].
  rewrite IH by done. cbn [list_to_map foldr fst snd]. rewrite <-insert_union_l, insert_union_r; [done|].
  by apply not_elem_of_list_to_map.
Qed.

Lemma insert_all_entries l : ascending fst l -> insert_all ∅ l = list_to_map l.
Proof. intros H. rewrite insert_all_union by (by apply ascending_NoDup). apply (right_id_L ∅ (∪)). Qed.

End entries.

(** ** The contract of a codec

    A reader gives back, in normal form, whatever the writer accepts, and only
    reads what the writer writes for the value it returns, which is then in
    normal form, and, when the input could be in memory, well formed. *)

Class Codec {E F A : Type} (read : bytes -> result E (A * bytes)) (write : A -> result F bytes)
    (norm : A -> A) (ok : A -> Prop) : Prop := {
  codec_write a e rest : ok a -> write a = Ok e -> read (e ++ rest) = Ok (norm a, rest);
  codec_read input a rest :
    read input = Ok (a, rest) ->
    exists e, input = e ++ rest /\ write a = Ok e /\ norm a = a /\ ((Z.of_nat (length e) < 2 ^ 63)%Z -> ok a);
}.

(** The contract when the writer cannot fail and every value is normal. *)
Class PureCodec {E A : Type} (read : bytes -> result E (A * bytes)) (write : A -> bytes) (ok : A -> Prop) : Prop := {
  pure_write a rest : ok a -> read (write a ++ rest) = Ok (a, rest);
  pure_read input a rest :
    read input = Ok (a, rest) -> input = write a ++ rest /\ ((Z.of_nat (length (write a)) < 2 ^ 63)%Z -> ok a);
}.

Lemma pure_codec {E F A : Type} (read : bytes -> result E (A * bytes)) write ok :
  PureCodec read write ok -> Codec (F := F) read (fun a => Ok (write a)) id ok.
Proof.
  intros [Hw Hr]. split.
  - intros a e rest Hok He. apply Ok_inj in He as <-. by apply Hw.
  - intros input a rest H. apply Hr in H as [-> Hok]. by exists (write a).
Qed.

(** The end of a decoder: no input is left. *)
Definition at_end {E A : Type} (wrap : ValueDecodeError -> E) (a : A) (input : bytes) : result E A :=
  match input with [] => Ok a | _ :: _ => Err (wrap TrailingBytes) end.

(** ** Names *)

Fixpoint read_names {E : Type} (wrap : ValueDecodeError -> E) (unsorted : E) (sorted : bool)
    (count : nat) (names : list bytes) (input : bytes) : result E (list bytes * bytes) :=
  match count with
  | O => Ok (names, input)
  | S count =>
    let? '(name, input) := map_err wrap (read_text input) in
    if sorted && negb (follows (last names) name) then Err unsorted
    else read_names wrap unsorted sorted count (names ++ [name]) input
  end.

Definition read_name_list {E : Type} (wrap : ValueDecodeError -> E) (unsorted : E) (sorted : bool)
    (input : bytes) : result E (list bytes * bytes) :=
  let? '(count, input) := read_count wrap MAJOR_ARRAY input in
  read_names wrap unsorted sorted count [] input.

Definition write_name_list (names : list bytes) : bytes :=
  write_head MAJOR_ARRAY (Z.of_nat (length names)) ++ concat (map write_text names).

Definition name_list_ok (sorted : bool) (names : list bytes) : Prop :=
  Forall (fun s => str_ok s = true) names /\ len_ok names = true /\
  (sorted = true -> StronglySorted canonical_lt names).

Section names.
Context {E : Type} (wrap : ValueDecodeError -> E) (unsorted : E).

Lemma read_names_write sorted ls acc rest :
  Forall (fun l => str_ok l = true) ls ->
  (sorted = true -> StronglySorted canonical_lt ls /\ after_name (last acc) ls) ->
  read_names wrap unsorted sorted (length ls) acc (concat (map write_text ls) ++ rest) = Ok (acc ++ ls, rest).
Proof.
  intros Hok. revert acc. induction Hok as [|l ls Hl Hok IH]; intros acc Hs.
  - cbn. by rewrite app_nil_r.
  - cbn [length read_names map concat]. rewrite <-app_assoc, read_text_write by done. cbn [map_err rbind].
    replace (sorted && negb (follows (last acc) l)) with false.
    2: { destruct sorted; [|done]. destruct (Hs eq_refl) as [_ Ha]. by rewrite (after_follows _ _ _ Ha). }
    rewrite IH; [by rewrite <-app_assoc|]. intros Hsort. destruct (Hs Hsort) as [Hss _].
    apply StronglySorted_inv in Hss as [Hss Hlt]. by rewrite last_snoc.
Qed.

Lemma read_names_Ok sorted count acc input names rest :
  read_names wrap unsorted sorted count acc input = Ok (names, rest) ->
  exists ls, length ls = count /\ names = acc ++ ls /\ input = concat (map write_text ls) ++ rest /\
    (sorted = true -> StronglySorted canonical_lt ls /\ after_name (last acc) ls) /\
    Forall (fun l => utf8_valid l = true) ls.
Proof.
  revert acc input. induction count as [|count IH]; intros acc input; cbn [read_names]; intros H.
  - apply Ok_inj in H. injection H as <- <-. exists []. rewrite app_nil_r.
    split_and!; try done. intros _. split; [apply SSorted_nil|destruct (last acc); [apply Forall_nil_2|exact I]].
  - apply rbind_Ok in H as ([l r] & Hl & H). apply map_err_Ok, read_text_Ok in Hl as [-> Hu].
    destruct (sorted && negb (follows (last acc) l)) eqn:Hf; [done|].
    apply IH in H as (ls & <- & -> & -> & Hs & Hok). rewrite last_snoc in Hs. exists (l :: ls). split_and!.
    + done.
    + by rewrite <-app_assoc.
    + cbn [map concat]. by rewrite <-app_assoc.
    + intros Hsort. destruct (Hs Hsort) as [Hss Ha]. split; [by constructor|]. apply follows_after; [|done].
      rewrite Hsort in Hf. cbn in Hf. by apply negb_false_iff in Hf.
    + by constructor.
Qed.

Lemma length_write_head major v : 1 <= length (write_head major v).
Proof. unfold write_head. repeat case_match; cbn [length]; lia. Qed.

Lemma length_write_text s : S (length s) <= length (write_text s).
Proof. unfold write_text. rewrite length_app. pose proof (length_write_head MAJOR_TEXT (Z.of_nat (length s))). lia. Qed.

Lemma concat_write_text_length ls l : l ∈ ls -> length l <= length (concat (map write_text ls)).
Proof.
  induction ls as [|l' ls IH]; intros H; [by apply elem_of_nil in H|]. cbn [map concat].
  rewrite length_app. apply elem_of_cons in H as [->|H]; [pose proof (length_write_text l'); lia|].
  specialize (IH H). lia.
Qed.

Lemma length_labels ls : length ls <= length (concat (map write_text ls)).
Proof.
  induction ls as [|l ls IH]; [done|]. cbn [map concat length]. rewrite length_app.
  pose proof (length_write_text l). lia.
Qed.

#[export] Instance name_list_codec sorted :
  PureCodec (read_name_list wrap unsorted sorted) write_name_list (name_list_ok sorted).
Proof.
  split.
  - intros ls rest (Hok & Hlen & Hs). unfold read_name_list, write_name_list.
    rewrite <-app_assoc, read_count_write; [|done|by apply Z.ltb_lt|apply length_labels]. cbn [rbind].
    apply (read_names_write sorted ls []); [done|]. intros Hsort. by split; [apply Hs|].
  - intros input ls rest H. unfold read_name_list in H. apply rbind_Ok in H as ([n r] & Hn & H).
    apply read_count_Ok in Hn as [-> _]. apply read_names_Ok in H as (ls' & <- & -> & -> & Hs & Hu).
    split; [by unfold write_name_list; rewrite <-app_assoc|].
    intros Hlen. unfold write_name_list in Hlen. rewrite length_app in Hlen. cbn [app]. split_and!.
    + rewrite Forall_forall in Hu. rewrite Forall_forall. intros l Hl. unfold str_ok. rewrite (Hu l Hl).
      pose proof (concat_write_text_length _ _ Hl). cbn [app] in *. apply Z.ltb_lt. lia.
    + apply Z.ltb_lt. pose proof (length_labels ls'). cbn [app] in *. lia.
    + intros Hsort. by apply Hs.
Qed.

#[export] Instance text_codec : PureCodec (fun input => map_err wrap (read_text input)) write_text
  (fun s => str_ok s = true).
Proof.
  split.
  - intros s rest Hs. by rewrite read_text_write.
  - intros input s rest H. apply map_err_Ok, read_text_Ok in H as [-> Hu]. split; [done|]. intros Hlen.
    unfold str_ok. rewrite Hu. pose proof (length_write_text s). apply Z.ltb_lt. lia.
Qed.
End names.

(** A field name of a canonical map. *)
Definition expect_text {E : Type} (wrap : ValueDecodeError -> E) (unexpected : E) (name : bytes) (input : bytes)
    : result E (unit * bytes) :=
  let? '(got, input) := map_err wrap (read_text input) in
  if negb (bytes_eqb got name) then Err unexpected else Ok (tt, input).

Lemma expect_text_write {E : Type} (wrap : ValueDecodeError -> E) unexpected name rest :
  str_ok name = true -> expect_text wrap unexpected name (write_text name ++ rest) = Ok (tt, rest).
Proof.
  intros H. unfold expect_text. rewrite read_text_write by done. cbn [map_err rbind].
  unfold bytes_eqb. by rewrite bool_decide_eq_true_2.
Qed.

Lemma expect_text_Ok {E : Type} (wrap : ValueDecodeError -> E) unexpected name input u rest :
  expect_text wrap unexpected name input = Ok (u, rest) -> input = write_text name ++ rest.
Proof.
  unfold expect_text. intros H. apply rbind_Ok in H as ([s r] & Hs & H).
  apply map_err_Ok, read_text_Ok in Hs as [-> _]. unfold bytes_eqb in H. case_bool_decide; [|done].
  cbn [negb] in H. apply Ok_inj in H as [= <- <-]. by subst.
Qed.

(** The bytes of a source string literal. *)
Definition text (s : string) : bytes := String.list_byte_of_string s.

(** ** Maps *)

Section maps.
Context {E F V : Type} (wrap : ValueDecodeError -> E) (unsorted : E).
Context (check : bytes -> result E unit).
Context (read : bytes -> result E (V * bytes)) (write : V -> result F bytes).

Fixpoint read_entries (count : nat) (previous : option bytes) (m : gmap bytes V) (input : bytes)
    : result E (gmap bytes V * bytes) :=
  match count with
  | O => Ok (m, input)
  | S count =>
    let? '(name, input) := map_err wrap (read_text input) in
    let? _ := check name in
    if negb (follows previous name) then Err unsorted
    else
      let? '(value, input) := read input in
      read_entries count (Some name) (<[name := value]> m) input
  end.

Definition read_map (input : bytes) : result E (gmap bytes V * bytes) :=
  let? '(count, input) := read_count wrap MAJOR_MAP input in
  read_entries count None ∅ input.

Definition write_entry (e : bytes * V) : result F bytes :=
  let? v := write e.2 in Ok (write_text e.1 ++ v).

Definition write_map (m : gmap bytes V) : result F bytes :=
  let? body := write_all write_entry (entries_of m) in
  Ok (write_head MAJOR_MAP (Z.of_nat (length (entries_of m))) ++ body).
End maps.

Section map_codec.
Context {E F V : Type} (wrap : ValueDecodeError -> E) (unsorted : E).
Context (check : bytes -> result E unit).
Context (read : bytes -> result E (V * bytes)) (write : V -> result F bytes).
Context (norm : V -> V) (ok : V -> Prop).

Definition entry_ok (e : bytes * V) : Prop := (str_ok e.1 = true /\ check e.1 = Ok tt) /\ ok e.2.
Definition norm_entry (e : bytes * V) : bytes * V := (e.1, norm e.2).

Definition map_ok (m : gmap bytes V) : Prop :=
  map_Forall (fun k v => (str_ok k = true /\ check k = Ok tt) /\ ok v) m /\ (Z.of_nat (size m) < 2 ^ 63)%Z.

Lemma map_ok_entries m :
  map_ok m <-> Forall entry_ok (entries_of m) /\ (Z.of_nat (length (entries_of m)) < 2 ^ 63)%Z.
Proof.
  unfold map_ok. rewrite length_entries_of, map_Forall_to_list. unfold entries_of.
  rewrite merge_sort_Permutation, !Forall_forall.
  split; intros [H Hs]; (split; [|done]); intros [k v] Hin; exact (H _ Hin).
Qed.

Lemma norm_entries m : list_to_map (map norm_entry (entries_of m)) = norm <$> m.
Proof.
  transitivity (norm <$> (list_to_map (entries_of m) : gmap bytes V)).
  - induction (entries_of m) as [|[k v] l IH]; [symmetry; apply fmap_empty|].
    cbn [map norm_entry fst snd list_to_map foldr]. unfold norm_entry at 1. cbn [fst snd].
    rewrite fmap_insert. f_equal. apply IH.
  - f_equal. unfold entries_of. rewrite <-(list_to_map_to_list m) at 2.
    apply list_to_map_proper; [|apply merge_sort_Permutation].
    change (fmap (M := list) fst) with (map (fst (A := bytes) (B := V))).
    rewrite merge_sort_Permutation. apply NoDup_fst_map_to_list.
Qed.

Lemma write_all_entries_length (l : list (bytes * V)) body :
  write_all (write_entry write) l = Ok body -> length l <= length body.
Proof.
  revert body. induction l as [|e l IH]; intros body; cbn [write_all length]; [lia|]. intros H.
  apply rbind_Ok in H as (a & Ha & H). apply rbind_Ok in H as (b & Hb & H). apply Ok_inj in H as <-.
  rewrite length_app. specialize (IH _ Hb). unfold write_entry in Ha. apply rbind_Ok in Ha as (v & _ & Ha).
  apply Ok_inj in Ha as <-. rewrite length_app. pose proof (length_write_text e.1). lia.
Qed.

Context `{Hcodec : !Codec read write norm ok}.

Lemma read_entries_write l previous m body rest :
  Forall entry_ok l -> ascending fst l -> after_name previous (map fst l) ->
  write_all (write_entry write) l = Ok body ->
  read_entries wrap unsorted check read (length l) previous m (body ++ rest) =
    Ok (insert_all m (map norm_entry l), rest).
Proof.
  intros Hok. revert previous m body. induction Hok as [|[k v] l He Hok IH]; intros previous m body Hs Ha Hw.
  - cbn in Hw. by apply Ok_inj in Hw as <-.
  - cbn [write_all] in Hw. apply rbind_Ok in Hw as (a & Hk & Hw). apply rbind_Ok in Hw as (b & Hb & Hw).
    apply Ok_inj in Hw as <-. unfold write_entry in Hk. cbn [fst snd] in Hk.
    apply rbind_Ok in Hk as (w & Hv & Hk). apply Ok_inj in Hk as <-. destruct He as [[Hks Hc] Hvs]. cbn [fst snd] in *.
    cbn [length read_entries]. rewrite <-!app_assoc, read_text_write by done. cbn [map_err rbind]. rewrite Hc. cbn [rbind].
    rewrite (after_follows previous k (map fst l) Ha). cbn [negb].
    rewrite (codec_write v w) by done. cbn [rbind].
    cbn [map fst] in Hs. apply StronglySorted_inv in Hs as [Hs Hlt]. by rewrite (IH (Some k)).
Qed.

Lemma read_entries_Ok count previous m input m' rest :
  read_entries wrap unsorted check read count previous m input = Ok (m', rest) ->
  exists l body, length l = count /\ m' = insert_all m l /\ input = body ++ rest /\
    write_all (write_entry write) l = Ok body /\ ascending fst l /\ after_name previous (map fst l) /\
    map norm_entry l = l /\ ((Z.of_nat (length body) < 2 ^ 63)%Z -> Forall entry_ok l).
Proof.
  revert previous m input. induction count as [|count IH]; intros previous m input; cbn [read_entries]; intros H.
  - apply Ok_inj in H. injection H as <- <-. exists [], []. split_and!; try done; [apply SSorted_nil|destruct previous; [apply Forall_nil_2|exact I]].
  - apply rbind_Ok in H as ([k r] & Hk & H). apply map_err_Ok, read_text_Ok in Hk as [-> Hu].
    apply rbind_Ok in H as ([] & Hc & H).
    destruct (follows previous k) eqn:Hf; [|done]. cbn [negb] in H.
    apply rbind_Ok in H as ([v r'] & Hv & H).
    apply codec_read in Hv as (e & -> & He & Hn & Hok).
    apply IH in H as (l & body & <- & -> & -> & Hb & Hs & Ha & Hnl & Hokl).
    exists ((k, v) :: l), ((write_text k ++ e) ++ body). split_and!.
    + done.
    + done.
    + by rewrite <-!app_assoc.
    + cbn [write_all]. unfold write_entry at 1. cbn [fst snd]. rewrite He. cbn [rbind]. by rewrite Hb.
    + cbn [map fst]. by constructor.
    + by apply follows_after.
    + cbn [map norm_entry fst snd]. unfold norm_entry at 1. cbn [fst snd]. by rewrite Hn, Hnl.
    + rewrite !length_app. pose proof (length_write_text k). intros Hlen. constructor; [|apply Hokl; lia].
      split; cbn [fst snd]; [|apply Hok; lia]. split; [|done]. unfold str_ok. rewrite Hu. cbn.
      apply Z.ltb_lt. lia.
Qed.

#[export] Instance map_codec :
  Codec (read_map wrap unsorted check read) (write_map write) (fmap norm) map_ok.
Proof.
  split.
  - intros m e rest Hok H. apply map_ok_entries in Hok as [Hok Hsize]. unfold write_map in H.
    apply rbind_Ok in H as (body & Hb & H). apply Ok_inj in H as <-.
    unfold read_map. rewrite <-app_assoc, read_count_write;
      [|done|done|by eapply write_all_entries_length]. cbn [rbind].
    rewrite (read_entries_write _ None ∅ body) by (done || apply entries_of_ascending).
    rewrite insert_all_entries, norm_entries; [done|]. rewrite map_map. apply entries_of_ascending.
  - intros input m rest H. unfold read_map in H. apply rbind_Ok in H as ([n r] & Hn & H).
    apply read_count_Ok in Hn as [-> _].
    apply read_entries_Ok in H as (l & body & <- & -> & -> & Hb & Hs & _ & Hnl & Hok).
    rewrite insert_all_entries by done. exists (write_head MAJOR_MAP (Z.of_nat (length l)) ++ body).
    pose proof (entries_of_list l Hs) as El. split_and!.
    + apply app_assoc.
    + unfold write_map. by rewrite El, Hb.
    + by rewrite <-norm_entries, El, Hnl.
    + rewrite length_app. intros Hlen. apply map_ok_entries. rewrite El.
      pose proof (write_all_entries_length _ _ Hb). split; [apply Hok|]; lia.
Qed.
End map_codec.

(** Maps of values whose writer cannot fail. *)
Definition write_pure_map {V : Type} (write : V -> bytes) (m : gmap bytes V) : bytes :=
  write_head MAJOR_MAP (Z.of_nat (length (entries_of m)))
  ++ concat (map (fun e => write_text e.1 ++ write e.2) (entries_of m)).

Lemma write_map_pure {F V : Type} (write : V -> bytes) (m : gmap bytes V) :
  write_map (F := F) (fun v => Ok (write v)) m = Ok (write_pure_map write m).
Proof.
  unfold write_map, write_pure_map. generalize (length (entries_of m)). intros n.
  assert (write_all (write_entry (F := F) (fun v => Ok (write v))) (entries_of m) =
    Ok (concat (map (fun e => write_text e.1 ++ write e.2) (entries_of m)))) as ->; [|done].
  induction (entries_of m) as [|e l IH]; [done|]. cbn [write_all map concat]. by rewrite IH.
Qed.

#[export] Instance pure_map_codec {E V : Type} (wrap : ValueDecodeError -> E) unsorted check
    (read : bytes -> result E (V * bytes)) write ok :
  PureCodec read write ok ->
  PureCodec (read_map wrap unsorted check read) (write_pure_map write) (map_ok check ok).
Proof.
  intros Hc. pose proof (pure_codec (F := unit) _ _ _ Hc) as Hc'.
  pose proof (map_codec wrap unsorted check read _ id ok) as [Hw Hr]. split.
  - intros m rest Hok. rewrite <-(map_fmap_id m) at 2. apply Hw; [done|]. apply write_map_pure.
  - intros input m rest H. apply Hr in H as (e & -> & He & _ & Hok).
    rewrite write_map_pure in He. apply Ok_inj in He as <-. done.
Qed.
