(* ===== verification/Records.v ===== *)
(** * Node and edge records (crates/acetone-model/src/records.rs)

    The stored state of nodes and edges: sorted secondary labels and a
    deterministic map of properties.  A [BTreeMap] is a [gmap]; the encoder
    sorts its entries into canonical order.  The codecs are instances of the
    name list and map codecs of [Canonical]. *)
From stdpp Require Import sorting.
From S2P Require Import Prelude Ieee Model Cbor Values Canonical.

Inductive RecordEncodeError : Type :=
| EncodeValue (e : ValueEncodeError).

Inductive RecordDecodeError : Type :=
| RCbor (e : ValueDecodeError)
| RShape (what : string)
| RNotCanonical (what : string).

Abbreviation properties_map := (gmap bytes Value).

(** ** Properties *)

Definition write_property (value : Value) : result RecordEncodeError bytes :=
  map_err EncodeValue (write_value value 0).

Definition read_property (input : bytes) : result RecordDecodeError (Value * bytes) :=
  map_err RCbor (read_value (S MAX_DEPTH) input).

Definition write_properties (properties : properties_map) : result RecordEncodeError bytes :=
  write_map write_property properties.

Definition read_properties (input : bytes) : result RecordDecodeError (properties_map * bytes) :=
  read_map RCbor (RNotCanonical "property names must be strictly ascending") (fun _ => Ok tt)
    read_property input.

(** ** Records *)

Record NodeRecord : Type := mkNodeRecord { secondary_labels : list bytes; properties : properties_map }.

Definition node_record_new (labels : list bytes) (properties : properties_map) : NodeRecord :=
  mkNodeRecord (normalise_strings labels) properties.

Definition node_record_encode (r : NodeRecord) : result RecordEncodeError bytes :=
  let? props := write_properties (properties r) in
  Ok (write_head MAJOR_ARRAY 2 ++ write_name_list (secondary_labels r) ++ props).

Definition read_labels (input : bytes) : result RecordDecodeError (list bytes * bytes) :=
  read_name_list RCbor (RNotCanonical "secondary labels must be strictly ascending") true input.

Definition node_record_decode (input : bytes) : result RecordDecodeError NodeRecord :=
  let? '(arity, input) := map_err RCbor (read_head MAJOR_ARRAY input) in
  if negb (arity =? 2)%Z then Err (RShape "node record must be a two-element array")
  else
    let? '(labels, input) := read_labels input in
    let? '(props, input) := read_properties input in
    at_end RCbor (mkNodeRecord labels props) input.

Record EdgeRecord : Type := mkEdgeRecord { edge_properties : properties_map }.

Definition edge_record_encode (r : EdgeRecord) : result RecordEncodeError bytes :=
  write_properties (edge_properties r).

Definition edge_record_decode (input : bytes) : result RecordDecodeError EdgeRecord :=
  let? '(props, input) := read_properties input in
  at_end RCbor (mkEdgeRecord props) input.

(** ** The codecs *)

#[export] Instance property_codec : Codec read_property write_property normal (fun v => value_ok v = true).
Proof.
  split.
  - intros v e rest Hok He. apply map_err_Ok in He. unfold read_property.
    by rewrite (read_value_write v 0 (S MAX_DEPTH) e) by (done || lia).
  - intros input v rest H. apply map_err_Ok in H.
    pose proof (read_value_Ok (S MAX_DEPTH) 0 _ _ _ ltac:(lia) H) as (e & -> & He & Hn & Hok).
    exists e. unfold write_property. by rewrite He.
Qed.

Definition props_ok (m : properties_map) : Prop :=
  map_ok (fun _ : bytes => @Ok RecordDecodeError unit tt) (fun v => value_ok v = true) m.

#[export] Instance properties_codec : Codec read_properties write_properties (fmap normal) props_ok.
Proof. apply map_codec, _. Qed.

Definition node_record_ok (r : NodeRecord) : Prop :=
  name_list_ok true (secondary_labels r) /\ props_ok (properties r).

Definition normal_node_record (r : NodeRecord) : NodeRecord :=
  mkNodeRecord (secondary_labels r) (normal <$> properties r).

(** Construction normalises labels: [NodeRecord::new] stores exactly the
    given labels, strictly ascending in canonical order, so without
    duplicates. *)
Lemma node_record_new_labels labels props :
  StronglySorted canonical_lt (secondary_labels (node_record_new labels props)) /\
  forall l, l ∈ secondary_labels (node_record_new labels props) <-> l ∈ labels.
Proof.
  split; [apply normalise_strings_ascending|intros l; apply normalise_strings_elem].
Qed.

(** Node records round trip: a well-formed record the encoder accepts
    decodes to itself, NaN properties canonicalised. *)
Lemma node_record_roundtrip r e :
  node_record_ok r -> node_record_encode r = Ok e -> node_record_decode e = Ok (normal_node_record r).
Proof.
  intros (Hl & Hp) H. unfold node_record_encode in H. apply rbind_Ok in H as (props & Hw & H).
  apply Ok_inj in H as <-. unfold node_record_decode. rewrite read_head_write by done. cbn [map_err rbind Z.eqb Pos.eqb negb].
  unfold read_labels. rewrite pure_write by done. cbn [rbind].
  rewrite <-(app_nil_r props), (codec_write _ _ [] Hp Hw). done.
Qed.

Lemma node_record_decode_Ok input r :
  (Z.of_nat (length input) < 2 ^ 63)%Z -> node_record_decode input = Ok r ->
  node_record_encode r = Ok input /\ node_record_ok r /\ normal_node_record r = r.
Proof.
  intros Hlen H. unfold node_record_decode in H. apply rbind_Ok in H as ([a r1] & Ha & H).
  apply map_err_Ok, read_head_Ok in Ha as [-> _]. destruct (Z.eqb_spec a 2) as [->|]; [|done]. cbn [negb] in H.
  apply rbind_Ok in H as ([ls r3] & Hls & H).
  apply pure_read in Hls as [-> Hok1].
  apply rbind_Ok in H as ([m r4] & Hm & H). destruct r4; [|done]. apply Ok_inj in H as <-.
  apply codec_read in Hm as (e & -> & He & Hnorm & Hok). rewrite app_nil_r in *.
  rewrite !length_app in Hlen. unfold node_record_encode, normal_node_record, node_record_ok. cbn [secondary_labels properties].
  rewrite He, Hnorm. split; [done|]. split; [|done]. split; [apply Hok1; lia|apply Hok; lia].
Qed.

(** Node records are canonical: whatever bytes decode are exactly what the
    encoder writes for the decoded record, which is well formed. *)
Lemma node_record_canonical input r :
  (Z.of_nat (length input) < 2 ^ 63)%Z -> node_record_decode input = Ok r ->
  node_record_encode r = Ok input /\ node_record_ok r /\ normal_node_record r = r.
Proof. apply node_record_decode_Ok. Qed.

Lemma edge_record_roundtrip r e :
  props_ok (edge_properties r) -> edge_record_encode r = Ok e -> edge_record_decode e = Ok (mkEdgeRecord (normal <$> edge_properties r)).
Proof.
  intros Hok H. unfold edge_record_decode. by rewrite <-(app_nil_r e), (codec_write _ _ [] Hok H).
Qed.

Lemma edge_record_decode_Ok input r :
  (Z.of_nat (length input) < 2 ^ 63)%Z ->
  edge_record_decode input = Ok r <->
  edge_record_encode r = Ok input /\ props_ok (edge_properties r) /\
  normal <$> edge_properties r = edge_properties r.
Proof.
  intros Hlen. destruct r as [m]. cbn [edge_properties]. split.
  - unfold edge_record_decode. intros H. apply rbind_Ok in H as ([m' r'] & Hm & H).
    destruct r'; [|done]. apply Ok_inj in H. injection H as ->.
    apply codec_read in Hm as (e & -> & He & Hn & Hok). rewrite app_nil_r in *. auto.
  - intros (H & Hok & Hn). rewrite (edge_record_roundtrip (mkEdgeRecord m) input Hok H). cbn [edge_properties]. by rewrite Hn.
Qed.

(** Edge records have one encoding: bytes decode to a record exactly when
    it is well formed, its NaNs are canonical, and it encodes to them. *)
Lemma edge_record_codec input r :
  (Z.of_nat (length input) < 2 ^ 63)%Z ->
  edge_record_decode input = Ok r <->
  edge_record_encode r = Ok input /\ props_ok (edge_properties r) /\
  normal <$> edge_properties r = edge_properties r.
Proof. apply edge_record_decode_Ok. Qed.

(** ** The theorems at a concrete record *)

Definition sample_props : properties_map := {[ [x62; x62] := VInt 1; [x61] := VBool true ]}.
Definition sample_record : NodeRecord := node_record_new [[x5a]; [x41; x41]; [x5a]] sample_props.
Definition sample_record_bytes : bytes :=
  [x82; x82; x61; x5a; x62; x41; x41; xa2; x61; x61; xf5; x62; x62; x62; x01].

Lemma sample_props_ok : props_ok sample_props.
Proof.
  split; [|vm_compute; reflexivity].
  apply map_Forall_insert_2; [|apply map_Forall_singleton]; (split; [split|]; vm_compute; reflexivity).
Qed.

Lemma sample_record_ok : node_record_ok sample_record.
Proof.
  split; [|apply sample_props_ok]. split; [|split; [vm_compute; reflexivity|intros _]].
  { assert (secondary_labels sample_record = [[x5a]; [x41; x41]]) as -> by (vm_compute; reflexivity).
    repeat (apply Forall_cons_2; [vm_compute; reflexivity|]). apply Forall_nil_2. }
  apply normalise_strings_ascending.
Qed.

Lemma node_record_roundtrip_witness :
  node_record_encode sample_record = Ok sample_record_bytes /\
  node_record_decode sample_record_bytes = Ok (normal_node_record sample_record).
Proof.
  split; [vm_compute; reflexivity|]. apply node_record_roundtrip; [apply sample_record_ok|vm_compute; reflexivity].
Defined.

Lemma node_record_canonical_witness :
  node_record_encode sample_record = Ok sample_record_bytes /\ node_record_ok sample_record /\
  normal_node_record sample_record = sample_record.
Proof. apply node_record_canonical; vm_compute; reflexivity. Defined.

Lemma edge_record_codec_witness :
  edge_record_decode [xa2; x61; x61; xf5; x62; x62; x62; x01] = Ok (mkEdgeRecord sample_props) <->
  edge_record_encode (mkEdgeRecord sample_props) = Ok [xa2; x61; x61; xf5; x62; x62; x62; x01] /\
  props_ok sample_props /\ normal <$> sample_props = sample_props.
Proof. apply (edge_record_codec _ (mkEdgeRecord sample_props)). done. Defined.
