(* ===== verification/GraphKeys.v ===== *)
(** * Graph keys (crates/acetone-model/src/graph_keys.rs)

    Node, edge and index keys over the key codec of [Keys], the byte prefixes
    of the scans, and [prefix_successor], which closes a prefix to a range.
    The codecs are inverse to each other, and a key lies in a scan range
    exactly when it names what the scan asks for. *)
From S2P Require Import Prelude Ieee Model Keys KeysOrder KeysCodec.

Inductive GraphKeyError : Type :=
| EmptyName (what : string)
| EmptyKeyTuple
| NullKeyValue
| NonScalar (what : string)
| NanKeyValue (what : string)
| GEncode (e : KeyEncodeError)
| GDecode (e : KeyDecodeError)
| GShape (what : string).

Definition check_scalar (v : Value) (context : string) : result GraphKeyError unit :=
  match v with
  | VList _ => Err (NonScalar context)
  | VFloat x => if f64_is_nan x then Err (NanKeyValue context) else Ok tt
  | _ => Ok tt
  end.

(** ** Node keys *)

Record NodeKey : Type := mkNodeKey { label : bytes; key : list Value }.

(** The loop of [NodeKey::new] over the key tuple. *)
Fixpoint check_tuple (key : list Value) : result GraphKeyError unit :=
  match key with
  | [] => Ok tt
  | v :: key =>
    match v with
    | VNull => Err NullKeyValue
    | _ => let? _ := check_scalar v "node key tuple" in check_tuple key
    end
  end.

Definition node_key_new (label : bytes) (key : list Value) : result GraphKeyError NodeKey :=
  match label with
  | [] => Err (EmptyName "primary label")
  | _ :: _ =>
    match key with
    | [] => Err EmptyKeyTuple
    | _ :: _ => let? _ := check_tuple key in Ok (mkNodeKey label key)
    end
  end.

Definition to_value (k : NodeKey) : Value := VList (VString (label k) :: key k).

Definition from_value (value : Value) : result GraphKeyError NodeKey :=
  match value with
  | VList elems =>
    match elems with
    | VString label :: key => node_key_new label key
    | _ => Err (GShape "node key list must start with a string label")
    end
  | _ => Err (GShape "node key must be a list element")
  end.

Definition node_key_encode (k : NodeKey) : result GraphKeyError bytes :=
  map_err GEncode (encode_key [to_value k]).

Definition node_key_decode (input : bytes) : result GraphKeyError NodeKey :=
  let? tuple := map_err GDecode (decode_key input) in
  match tuple with
  | [elem] => from_value elem
  | _ => Err (GShape "nodes-map key must be a single list element")
  end.

(** The source unwraps the result; [node_label_scan] shows it is there. *)
Definition node_label_prefix (label : bytes) : result KeyEncodeError bytes :=
  encode_list_prefix [VString label].

(** ** Edge keys *)

Record EdgeKey : Type := mkEdgeKey { src : NodeKey; rtype : bytes; dst : NodeKey; disc : Value }.

Definition edge_key_new (src : NodeKey) (rtype : bytes) (dst : NodeKey) (disc : Value)
    : result GraphKeyError EdgeKey :=
  match rtype with
  | [] => Err (EmptyName "relationship type")
  | _ :: _ => let? _ := check_scalar disc "discriminator" in Ok (mkEdgeKey src rtype dst disc)
  end.

Definition encode_tuple (k : EdgeKey) (first second : NodeKey) : result GraphKeyError bytes :=
  map_err GEncode (encode_key [to_value first; VString (rtype k); to_value second; disc k]).

Definition encode_fwd (k : EdgeKey) : result GraphKeyError bytes := encode_tuple k (src k) (dst k).
Definition encode_rev (k : EdgeKey) : result GraphKeyError bytes := encode_tuple k (dst k) (src k).

Definition decode_tuple (input : bytes) : result GraphKeyError (NodeKey * bytes * NodeKey * Value) :=
  let? tuple := map_err GDecode (decode_key input) in
  match tuple with
  | [first; rtype; second; disc] =>
    match rtype with
    | VString rtype =>
      let? first := from_value first in
      let? second := from_value second in
      Ok (first, rtype, second, disc)
    | _ => Err (GShape "edge key second element must be a string type")
    end
  | _ => Err (GShape "edge key must have exactly four elements")
  end.

Definition decode_fwd (input : bytes) : result GraphKeyError EdgeKey :=
  let? '(src, rtype, dst, disc) := decode_tuple input in edge_key_new src rtype dst disc.
Definition decode_rev (input : bytes) : result GraphKeyError EdgeKey :=
  let? '(dst, rtype, src, disc) := decode_tuple input in edge_key_new src rtype dst disc.

Definition edge_endpoint_prefix (node : NodeKey) : result GraphKeyError bytes := node_key_encode node.
Definition edge_endpoint_type_prefix (node : NodeKey) (rtype : bytes) : result GraphKeyError bytes :=
  map_err GEncode (encode_key [to_value node; VString rtype]).

(** ** Index entries *)

Record IndexEntry : Type :=
  mkIndexEntry { ilabel : bytes; iproperties : list bytes; ivalues : list Value; inode : NodeKey }.

Definition is_empty (s : bytes) : bool := match s with [] => true | _ :: _ => false end.

Definition index_entry_new (label : bytes) (properties : list bytes) (values : list Value) (node : NodeKey)
    : result GraphKeyError IndexEntry :=
  if is_empty label then Err (EmptyName "index label")
  else if (length properties =? 0)%nat then Err (EmptyName "index property")
  else if existsb is_empty properties then Err (EmptyName "index property")
  else if negb (length properties =? length values)%nat
  then Err (GShape "index entry property and value counts differ")
  else Ok (mkIndexEntry label properties values node).

Definition index_entry_encode (e : IndexEntry) : result GraphKeyError bytes :=
  map_err GEncode
    (encode_key [VString (ilabel e); VList (map VString (iproperties e)); VList (ivalues e); to_value (inode e)]).

(** The fallible [map] over the property names. *)
Fixpoint property_names (l : list Value) : result GraphKeyError (list bytes) :=
  match l with
  | [] => Ok []
  | VString s :: l => let? names := property_names l in Ok (s :: names)
  | _ :: _ => Err (GShape "index property names must be strings")
  end.

Definition index_entry_decode (input : bytes) : result GraphKeyError IndexEntry :=
  let? tuple := map_err GDecode (decode_key input) in
  match tuple with
  | [label; properties; values; node] =>
    match label, properties, values with
    | VString label, VList properties, VList values =>
      let? properties := property_names properties in
      let? node := from_value node in
      index_entry_new label properties values node
    | _, _, _ => Err (GShape "index key must be [label, [properties], [values], node]")
    end
  | _ => Err (GShape "index key must have exactly four elements")
  end.

Definition index_prefix (label : bytes) (properties : list bytes) : result KeyEncodeError bytes :=
  encode_key [VString label; VList (map VString properties)].

Definition index_value_prefix (label : bytes) (properties : list bytes) (values : list Value)
    : result GraphKeyError bytes :=
  map_err GEncode (encode_key [VString label; VList (map VString properties); VList values]).

(** ** Closing a prefix to a range *)

(** The loop of [prefix_successor], on the bytes last first. *)
Fixpoint bump (l : bytes) : option bytes :=
  match l with
  | [] => None
  | last :: l => if last =b? xff then bump l else Some (z2b (b2z last + 1) :: l)
  end.

Definition prefix_successor (prefix : bytes) : option bytes := @rev byte <$> bump (rev prefix).

Example prefix_successor_carry : prefix_successor [x61; xff; xff] = Some [x62].
Proof. reflexivity. Qed.
Example node_key_bytes :
  node_key_encode (mkNodeKey [x41] [VBool true]) =
  Ok [x0c; x06; x41; x00; x00; x00; x00; x00; x00; x00; xf8; x03; x00].
Proof. vm_compute. reflexivity. Qed.

(** ** Encoded tuples and their prefixes *)

Definition tuple_ok (t : list Value) : Prop := Forall (fun v => value_ok v = true) t.

Lemma normalise_zero_idem x : normalise_zero (normalise_zero x) = normalise_zero x.
Proof. unfold normalise_zero. destruct (f64_is_zero x) eqn:E; [done|by rewrite E]. Qed.

Lemma normalise_zero_is_nan x : f64_is_nan (normalise_zero x) = f64_is_nan x.
Proof.
  unfold normalise_zero. destruct (f64_is_zero x) eqn:E; [|done].
  unfold f64_is_zero in E. apply Z.eqb_eq in E. unfold f64_is_nan. by rewrite E.
Qed.

(** The encoding only sees the normal form. *)
Lemma write_element_normal v d : write_element (normal v) d = write_element v d.
Proof.
  revert d. induction v as [| | |x| | | | | | |items IH] using Value_ind'; intros dp; try done.
  - cbn [normal write_element]. rewrite normalise_zero_is_nan. unfold write_float. by rewrite normalise_zero_idem.
  - cbn [normal write_element].
    assert (forall d, write_all (fun item => write_element item d) (map normal items) =
                      write_all (fun item => write_element item d) items) as ->; [|done].
    intros d'. induction IH as [|v l Hv IH IHl]; [done|]. cbn [map write_all]. by rewrite Hv, IHl.
Qed.

Lemma encode_key_normal t : encode_key (map normal t) = encode_key t.
Proof.
  unfold encode_key, encode_key_into. f_equal.
  induction t as [|v t IH]; [done|]. cbn [map write_all]. by rewrite write_element_normal, IH.
Qed.

Lemma encode_key_cons v t e :
  encode_key (v :: t) = Ok e <->
  exists a b, write_element v 0 = Ok a /\ encode_key t = Ok b /\ e = a ++ b.
Proof.
  unfold encode_key, encode_key_into. cbn [write_all app]. rewrite !rbind_Ok. split.
  - intros (x & (a & Ha & (b & Hb & [= <-])%rbind_Ok)%rbind_Ok & [= <-]). exists a, b. by rewrite Hb.
  - intros (a & b & Ha & (b' & Hb & [= <-])%rbind_Ok & ->). exists (a ++ b'). by rewrite Ha; cbn [rbind]; rewrite Hb.
Qed.

Lemma encode_key_snoc a b x y : encode_key a = Ok x -> encode_key b = Ok y -> encode_key (a ++ b) = Ok (x ++ y).
Proof.
  revert x. induction a as [|v a IH]; intros x Hx Hy; [by injection Hx as <-|].
  apply encode_key_cons in Hx as (e & f & He & Hf & ->). cbn [app]. apply encode_key_cons.
  exists e, (f ++ y). rewrite app_assoc. auto.
Qed.

Lemma encode_key_prefix_ok a b y : encode_key (a ++ b) = Ok y -> exists x, encode_key a = Ok x.
Proof.
  revert y. induction a as [|v a IH]; intros y H; [by eexists|]. cbn [app] in H.
  apply encode_key_cons in H as (e & f & He & Hf & ->). destruct (IH _ Hf) as [x Hx].
  exists (e ++ x). apply encode_key_cons. by exists e, x.
Qed.

(** Encoded tuples are prefix free but for prefixes of tuples. *)
Lemma encode_key_split a b x y s :
  tuple_ok a -> tuple_ok b -> encode_key a = Ok x -> encode_key b = Ok y -> y = x ++ s ->
  exists c, map normal b = map normal a ++ c.
Proof.
  intros Ha. revert b x y. induction Ha as [|v a Hv Ha IH]; intros b x y Hb Hx Hy E; [by eexists|].
  apply encode_key_cons in Hx as (ev & x' & Hev & Hx & ->).
  destruct Hb as [|w b Hw Hb].
  { injection Hy as <-. apply write_element_nonempty in Hev. by destruct ev. }
  apply encode_key_cons in Hy as (ew & y' & Hew & Hy & ->).
  pose proof (read_element_write v 0 (S MAX_DEPTH) ev (x' ++ s) Hv Hev eq_refl) as R1.
  pose proof (read_element_write w 0 (S MAX_DEPTH) ew y' Hw Hew eq_refl) as R2.
  rewrite <-app_assoc in E. rewrite E, R1 in R2. apply Ok_inj, pair_inj' in R2 as [Hn R2].
  destruct (IH b x' y' Hb Hx Hy) as [c Hc]; [done|]. exists c. cbn [map app]. by rewrite Hn, Hc.
Qed.

Lemma encode_key_starts_with a b x y :
  tuple_ok a -> tuple_ok b -> encode_key a = Ok x -> encode_key b = Ok y ->
  starts_with y x = true <-> exists c, map normal b = map normal a ++ c.
Proof.
  intros Ha Hb Hx Hy. rewrite starts_with_spec. split.
  - intros [s Hs]. by eapply encode_key_split.
  - intros [c Hc]. rewrite <-encode_key_normal, Hc in Hy.
    destruct (encode_key (map normal a)) as [x'|] eqn:Hx'; rewrite encode_key_normal in Hx'; [|congruence].
    assert (x' = x) as -> by congruence.
    clear Hx'. revert x Hx y Hy. clear. induction a as [|v a IH]; intros x Hx y Hy.
    + injection Hx as <-. by exists y.
    + apply encode_key_cons in Hx as (e & x' & He & Hx & ->).
      cbn [map app] in Hy. apply encode_key_cons in Hy as (e' & y' & He' & Hy & ->).
      rewrite write_element_normal in He'. assert (e' = e) as -> by congruence.
      destruct (IH _ Hx _ Hy) as [t ->]. exists t. by rewrite app_assoc.
Qed.

Lemma decode_encode t e : tuple_ok t -> encode_key t = Ok e -> decode_key e = Ok (map normal t).
Proof. unfold encode_key, encode_key_into. intros Hok H. rinv. subst. by apply read_tuple_write. Qed.

Lemma decode_key_Ok input t :
  decode_key input = Ok t ->
  encode_key t = Ok input /\ map normal t = t /\ ((Z.of_nat (length input) < 2 ^ 63)%Z -> tuple_ok t).
Proof.
  intros H%read_tuple_Ok. destruct H as (e & -> & He & Hn & Hok).
  rewrite app_nil_r in *. unfold encode_key, encode_key_into. rewrite He. auto.
Qed.

(** ** Valid keys

    A key is valid when its constructor accepts its fields; [.._ok] adds the
    type invariants of the strings and values it holds. *)

Definition normal_node (k : NodeKey) : NodeKey := mkNodeKey (label k) (map normal (key k)).
Definition node_key_ok (k : NodeKey) : Prop :=
  node_key_new (label k) (key k) = Ok k /\ value_ok (to_value k) = true.

Definition normal_edge (k : EdgeKey) : EdgeKey :=
  mkEdgeKey (normal_node (src k)) (rtype k) (normal_node (dst k)) (normal (disc k)).
Definition edge_key_ok (k : EdgeKey) : Prop :=
  edge_key_new (src k) (rtype k) (dst k) (disc k) = Ok k /\
  node_key_ok (src k) /\ node_key_ok (dst k) /\ str_ok (rtype k) = true /\ value_ok (disc k) = true.

Definition normal_index (e : IndexEntry) : IndexEntry :=
  mkIndexEntry (ilabel e) (iproperties e) (map normal (ivalues e)) (normal_node (inode e)).
Definition names_ok (l : list bytes) : bool := value_ok (VList (map VString l)).
Definition index_entry_ok (e : IndexEntry) : Prop :=
  index_entry_new (ilabel e) (iproperties e) (ivalues e) (inode e) = Ok e /\
  str_ok (ilabel e) = true /\ names_ok (iproperties e) = true /\ value_ok (VList (ivalues e)) = true /\
  node_key_ok (inode e).

Lemma to_value_normal k : to_value (normal_node k) = normal (to_value k).
Proof. done. Qed.

Lemma to_value_inj k k' : to_value k = to_value k' -> k = k'.
Proof. destruct k, k'. unfold to_value. cbn [label key]. by intros [= -> ->]. Qed.

Lemma check_scalar_normal v context : check_scalar (normal v) context = check_scalar v context.
Proof. destruct v; try done. cbn [normal check_scalar]. by rewrite normalise_zero_is_nan. Qed.

Lemma check_tuple_normal l : check_tuple (map normal l) = check_tuple l.
Proof.
  induction l as [|v l IH]; [done|]. cbn [map check_tuple].
  destruct v; try done; try (cbn [normal]; by rewrite IH).
  cbn [normal check_scalar]. by rewrite normalise_zero_is_nan, IH.
Qed.

Lemma node_key_new_Ok l k n : node_key_new l k = Ok n -> n = mkNodeKey l k.
Proof.
  unfold node_key_new. destruct l; [done|]. destruct k; [done|]. intros H. rinv. done.
Qed.

Lemma node_key_new_normal l k n : node_key_new l k = Ok n -> node_key_new l (map normal k) = Ok (normal_node n).
Proof.
  intros H. pose proof (node_key_new_Ok _ _ _ H) as ->. unfold node_key_new, normal_node in *. cbn [label key].
  destruct l as [|c l]; [done|]. destruct k as [|v k]; [done|].
  cbn [map]. change (normal v :: map normal k) with (map normal (v :: k)). rewrite check_tuple_normal.
  apply rbind_Ok in H as ([] & H & _). by rewrite H.
Qed.

Lemma from_value_normal k : node_key_ok k -> from_value (normal (to_value k)) = Ok (normal_node k).
Proof. intros [H _]. cbn [to_value normal map from_value]. by apply node_key_new_normal. Qed.

Lemma from_value_Ok v k : from_value v = Ok k -> v = to_value k /\ (value_ok v = true -> node_key_ok k).
Proof.
  destruct v as [| | | | | | | | | |[|[] items]]; try done. cbn [from_value]. intros H.
  pose proof (node_key_new_Ok _ _ _ H) as ->. split; [done|]. intros Hok. by split.
Qed.

Lemma tuple_ok_cons v t : tuple_ok (v :: t) <-> value_ok v = true /\ tuple_ok t.
Proof. unfold tuple_ok. by rewrite Forall_cons. Qed.

Lemma tuple_ok_nil : tuple_ok [].
Proof. apply Forall_nil_2. Qed.

#[local] Hint Resolve tuple_ok_nil : core.

(** ** Codecs *)

Lemma node_key_decode_encode k e :
  node_key_ok k -> node_key_encode k = Ok e -> node_key_decode e = Ok (normal_node k).
Proof.
  intros Hk He. unfold node_key_encode in He. apply map_err_Ok in He. unfold node_key_decode.
  rewrite (decode_encode _ _ (proj2 (tuple_ok_cons _ _) (conj (proj2 Hk) tuple_ok_nil)) He).
  cbn [map_err rbind map]. by apply from_value_normal.
Qed.

Lemma node_key_decode_Ok input k :
  (Z.of_nat (length input) < 2 ^ 63)%Z -> node_key_decode input = Ok k ->
  node_key_encode k = Ok input /\ node_key_ok k /\ normal_node k = k.
Proof.
  intros Hlen. unfold node_key_decode. intros H. apply rbind_Ok in H as (t & Ht & H).
  apply map_err_Ok, decode_key_Ok in Ht as (He & Hn & Hok). specialize (Hok Hlen).
  destruct t as [|v [|]]; try done. apply from_value_Ok in H as [-> Hk].
  apply tuple_ok_cons in Hok as [Hok _]. split; [|split; [by apply Hk|]].
  - unfold node_key_encode. by rewrite He.
  - apply to_value_inj. rewrite to_value_normal. cbn [map] in Hn. by apply cons_eq_inv in Hn as [Hn _].
Qed.

(** Node keys have one encoding: bytes decode to a node key exactly when
    the key is valid, free of negative zeros, and the bytes are what it
    encodes to. *)
Lemma node_key_codec input k :
  (Z.of_nat (length input) < 2 ^ 63)%Z ->
  node_key_decode input = Ok k <->
  node_key_encode k = Ok input /\ node_key_ok k /\ normal_node k = k.
Proof.
  intros Hlen. split; [by apply node_key_decode_Ok|].
  intros (He & Hk & Hn). rewrite <-Hn. by apply node_key_decode_encode.
Qed.

Lemma edge_key_new_Ok s r d v k : edge_key_new s r d v = Ok k -> k = mkEdgeKey s r d v.
Proof. unfold edge_key_new. destruct r; [done|]. intros H. by rinv. Qed.

Lemma edge_key_new_normal k :
  edge_key_new (src k) (rtype k) (dst k) (disc k) = Ok k ->
  edge_key_new (normal_node (src k)) (rtype k) (normal_node (dst k)) (normal (disc k)) = Ok (normal_edge k).
Proof.
  unfold edge_key_new. destruct (rtype k) as [|c r] eqn:E; [done|]. rewrite check_scalar_normal.
  intros H. rinv. rewrite Ha. cbn [rbind]. unfold normal_edge. by rewrite E.
Qed.

Lemma encode_tuple_Ok k a b e : encode_tuple k a b = Ok e <->
  encode_key [to_value a; VString (rtype k); to_value b; disc k] = Ok e.
Proof. apply map_err_Ok. Qed.

Lemma edge_tuple_ok k a b :
  edge_key_ok k -> node_key_ok a -> node_key_ok b ->
  tuple_ok [to_value a; VString (rtype k); to_value b; disc k].
Proof. intros (_ & _ & _ & Hr & Hd) [_ Ha] [_ Hb]. rewrite !tuple_ok_cons. auto. Qed.

Lemma decode_tuple_encode k a b e :
  edge_key_ok k -> node_key_ok a -> node_key_ok b -> encode_tuple k a b = Ok e ->
  decode_tuple e = Ok (normal_node a, rtype k, normal_node b, normal (disc k)).
Proof.
  intros Hk Ha Hb He. apply encode_tuple_Ok in He. unfold decode_tuple.
  rewrite (decode_encode _ _ (edge_tuple_ok _ _ _ Hk Ha Hb) He). cbn [map_err rbind map].
  change (normal (VString (rtype k))) with (VString (rtype k)). cbv iota.
  rewrite !from_value_normal by done. done.
Qed.

Lemma decode_fwd_encode k e :
  edge_key_ok k -> encode_fwd k = Ok e -> decode_fwd e = Ok (normal_edge k).
Proof.
  intros Hk He. pose proof Hk as (Hn & Hs & Hd & _). unfold decode_fwd.
  rewrite (decode_tuple_encode _ _ _ _ Hk Hs Hd He). by apply edge_key_new_normal.
Qed.

Lemma decode_rev_encode k e :
  edge_key_ok k -> encode_rev k = Ok e -> decode_rev e = Ok (normal_edge k).
Proof.
  intros Hk He. pose proof Hk as (Hn & Hs & Hd & _). unfold decode_rev.
  rewrite (decode_tuple_encode _ _ _ _ Hk Hd Hs He). by apply edge_key_new_normal.
Qed.

Lemma decode_tuple_Ok input a r b d :
  (Z.of_nat (length input) < 2 ^ 63)%Z -> decode_tuple input = Ok (a, r, b, d) ->
  encode_key [to_value a; VString r; to_value b; d] = Ok input /\
  node_key_ok a /\ node_key_ok b /\ str_ok r = true /\ value_ok d = true /\
  normal_node a = a /\ normal_node b = b /\ normal d = d.
Proof.
  intros Hlen H. unfold decode_tuple in H. apply rbind_Ok in H as (t & Ht & H).
  apply map_err_Ok, decode_key_Ok in Ht as (He & Hn & Hok). specialize (Hok Hlen).
  destruct t as [|v1 [|v2 [|v3 [|v4 [|]]]]]; try done. destruct v2; try done.
  apply rbind_Ok in H as (k1 & H1 & H). apply rbind_Ok in H as (k2 & H2 & [= -> -> -> ->]).
  apply from_value_Ok in H1 as [-> H1], H2 as [-> H2]. rewrite !tuple_ok_cons in Hok.
  cbn [map] in Hn. rewrite <-!to_value_normal in Hn.
  apply cons_eq_inv in Hn as [Hn1 Hn], Hn as [_ Hn], Hn as [Hn2 Hn], Hn as [Hn3 _].
  apply to_value_inj in Hn1, Hn2. destruct Hok as (V1 & V2 & V3 & V4 & _). auto 10.
Qed.

Lemma edge_of_tuple input a r b d k s t :
  (Z.of_nat (length input) < 2 ^ 63)%Z -> decode_tuple input = Ok (a, r, b, d) ->
  edge_key_new s r t d = Ok k -> (s = a /\ t = b \/ s = b /\ t = a) ->
  encode_tuple k a b = Ok input /\ edge_key_ok k /\ normal_edge k = k.
Proof.
  intros Hlen H Hn Hst. pose proof (edge_key_new_Ok _ _ _ _ _ Hn) as ->.
  apply decode_tuple_Ok in H as (He & Ha & Hb & Hr & Hd & Na & Nb & Nd); [|done].
  split; [by apply encode_tuple_Ok|]. unfold edge_key_ok, normal_edge. cbn [src rtype dst disc].
  destruct Hst as [[-> ->]|[-> ->]]; rewrite Na, Nb, Nd; auto 10.
Qed.

Lemma edge_key_decode_Ok input k :
  (Z.of_nat (length input) < 2 ^ 63)%Z ->
  (decode_fwd input = Ok k <-> encode_fwd k = Ok input /\ edge_key_ok k /\ normal_edge k = k) /\
  (decode_rev input = Ok k <-> encode_rev k = Ok input /\ edge_key_ok k /\ normal_edge k = k).
Proof.
  intros Hlen. split; split.
  - intros H. apply rbind_Ok in H as ([[[a r] b] d] & Ht & H).
    pose proof (edge_key_new_Ok _ _ _ _ _ H) as E.
    destruct (edge_of_tuple _ _ _ _ _ _ _ _ Hlen Ht H) as (He & Hok); [by left|]. by subst k.
  - intros (He & Hk & Hn). rewrite <-Hn. by apply decode_fwd_encode.
  - intros H. apply rbind_Ok in H as ([[[a r] b] d] & Ht & H).
    pose proof (edge_key_new_Ok _ _ _ _ _ H) as E.
    destruct (edge_of_tuple _ _ _ _ _ _ _ _ Hlen Ht H) as (He & Hok); [by right|]. by subst k.
  - intros (He & Hk & Hn). rewrite <-Hn. by apply decode_rev_encode.
Qed.

(** Edge keys have one encoding in each direction: bytes decode forward
    to an edge exactly when it is valid, free of negative zeros and encodes
    forward to them; and likewise in reverse. *)
Lemma edge_key_codec input k :
  (Z.of_nat (length input) < 2 ^ 63)%Z ->
  (decode_fwd input = Ok k <-> encode_fwd k = Ok input /\ edge_key_ok k /\ normal_edge k = k) /\
  (decode_rev input = Ok k <-> encode_rev k = Ok input /\ edge_key_ok k /\ normal_edge k = k).
Proof. apply edge_key_decode_Ok. Qed.

Lemma encode_key_swap a r b d e :
  encode_key [a; r; b; d] = Ok e -> exists e', encode_key [b; r; a; d] = Ok e' /\ length e' = length e.
Proof.
  intros H. apply encode_key_cons in H as (e1 & f1 & H1 & H & ->).
  apply encode_key_cons in H as (e2 & f2 & H2 & H & ->).
  apply encode_key_cons in H as (e3 & f3 & H3 & H & ->).
  exists (e3 ++ e2 ++ e1 ++ f3). split; [|rewrite !length_app; lia]. apply encode_key_cons. exists e3, (e2 ++ e1 ++ f3). split_and!; [done| |done].
  apply encode_key_cons. exists e2, (e1 ++ f3). split_and!; [done| |done].
  apply encode_key_cons. by exists e1, f3.
Qed.

(** The two edge maps mirror each other: an edge that has a forward key
    has a reverse key and conversely, and both decode to the same edge. *)
Lemma edge_maps_mirror k :
  edge_key_ok k ->
  is_ok (encode_fwd k) = is_ok (encode_rev k) /\
  forall f r, encode_fwd k = Ok f -> encode_rev k = Ok r ->
    decode_fwd f = Ok (normal_edge k) /\ decode_rev r = Ok (normal_edge k).
Proof.
  intros Hk. split.
  - destruct (encode_fwd k) as [f|] eqn:Hf, (encode_rev k) as [r|] eqn:Hr; try done.
    + apply encode_tuple_Ok, encode_key_swap in Hf as (z & He & _). apply encode_tuple_Ok in He.
      unfold encode_rev in Hr. congruence.
    + apply encode_tuple_Ok, encode_key_swap in Hr as (z & He & _). apply encode_tuple_Ok in He.
      unfold encode_fwd in Hf. congruence.
  - intros f r Hf Hr. split; [by apply decode_fwd_encode|by apply decode_rev_encode].
Qed.

(** The reverse key of a stored forward key. *)
Lemma edge_reverse input k :
  (Z.of_nat (length input) < 2 ^ 63)%Z -> decode_fwd input = Ok k ->
  exists r, encode_rev k = Ok r /\ length r = length input /\ decode_rev r = Ok k.
Proof.
  intros Hlen H. apply (proj1 (edge_key_decode_Ok input k Hlen)) in H as (Hf & Hk & Hn).
  apply encode_tuple_Ok, encode_key_swap in Hf as (r & Hr & Hl). apply encode_tuple_Ok in Hr.
  exists r. split; [exact Hr|]. split; [done|]. rewrite <-Hn. by apply decode_rev_encode.
Qed.

(** Index entries *)

Lemma property_names_map l : property_names (map VString l) = Ok l.
Proof. induction l as [|s l IH]; [done|]. cbn [map property_names]. by rewrite IH. Qed.

Lemma property_names_Ok vs l : property_names vs = Ok l -> vs = map VString l.
Proof.
  revert l. induction vs as [|v vs IH]; intros l H; [by apply Ok_inj in H as <-|].
  destruct v; try done. cbn [property_names] in H. apply rbind_Ok in H as (names & Hn & [= <-]).
  by rewrite (IH _ Hn).
Qed.

Lemma map_normal_strings l : map normal (map VString l) = map VString l.
Proof. induction l as [|s l IH]; [done|]. cbn [map normal]. by rewrite IH. Qed.

Lemma index_entry_new_Ok l ps vs n e : index_entry_new l ps vs n = Ok e -> e = mkIndexEntry l ps vs n.
Proof. unfold index_entry_new. repeat case_match; try done. by intros [= <-]. Qed.

Definition index_tuple (e : IndexEntry) : list Value :=
  [VString (ilabel e); VList (map VString (iproperties e)); VList (ivalues e); to_value (inode e)].

Lemma index_tuple_ok e : index_entry_ok e -> tuple_ok (index_tuple e).
Proof. intros (_ & Hl & Hp & Hv & [_ Hn]). unfold index_tuple. rewrite !tuple_ok_cons. auto. Qed.

Lemma index_tuple_normal e : map normal (index_tuple e) = index_tuple (normal_index e).
Proof. unfold index_tuple. cbn [map normal normal_index ilabel iproperties ivalues inode]. by rewrite map_normal_strings. Qed.

Lemma index_tuple_inj e e' : index_tuple e = index_tuple e' -> e = e'.
Proof.
  destruct e, e'. unfold index_tuple. cbn [ilabel iproperties ivalues inode]. intros H.
  apply cons_eq_inv in H as [[= ->] H], H as [[= Hp] H], H as [[= ->] H], H as [H _].
  apply to_value_inj in H as ->. f_equal.
  apply (f_equal property_names) in Hp. rewrite !property_names_map in Hp. by apply Ok_inj in Hp.
Qed.

Lemma index_entry_decode_encode e b :
  index_entry_ok e -> index_entry_encode e = Ok b -> index_entry_decode b = Ok (normal_index e).
Proof.
  intros Hok Hb. apply map_err_Ok in Hb. unfold index_entry_decode.
  rewrite (decode_encode _ _ (index_tuple_ok _ Hok) Hb), index_tuple_normal.
  unfold index_tuple, normal_index. cbn [map_err rbind ilabel iproperties ivalues inode].
  rewrite property_names_map. cbn [rbind]. rewrite to_value_normal.
  pose proof Hok as (Hn & _ & _ & _ & Hk). rewrite from_value_normal by done. cbn [rbind].
  unfold index_entry_new in *. rewrite length_map. repeat case_match; try done.
Qed.

(** Index entries have one encoding. *)
Lemma index_entry_codec input e :
  (Z.of_nat (length input) < 2 ^ 63)%Z ->
  index_entry_decode input = Ok e <->
  index_entry_encode e = Ok input /\ index_entry_ok e /\ normal_index e = e.
Proof.
  intros Hlen. split; [|intros (He & Hok & Hn); rewrite <-Hn; by apply index_entry_decode_encode].
  unfold index_entry_decode. intros H. apply rbind_Ok in H as (t & Ht & H).
  apply map_err_Ok, decode_key_Ok in Ht as (He & Hn & Hok). specialize (Hok Hlen).
  destruct t as [|v1 [|v2 [|v3 [|v4 [|]]]]]; try done. destruct v1, v2, v3; try done.
  apply rbind_Ok in H as (ps & Hps & H). apply rbind_Ok in H as (n & Hnode & H).
  pose proof (index_entry_new_Ok _ _ _ _ _ H) as ->.
  apply property_names_Ok in Hps as ->. apply from_value_Ok in Hnode as [-> Hnode].
  rewrite !tuple_ok_cons in Hok. destruct Hok as (V1 & V2 & V3 & V4 & _).
  split; [unfold index_entry_encode; cbn [ilabel iproperties ivalues inode]; by rewrite He|].
  split; [unfold index_entry_ok, names_ok; cbn [ilabel iproperties ivalues inode]; auto 10|].
  apply index_tuple_inj. rewrite <-index_tuple_normal. exact Hn.
Qed.

(** ** Scan ranges *)

Lemma read_string s rest :
  str_ok s = true ->
  read_element (S MAX_DEPTH) ((TAG_STRING :: write_chunked s) ++ rest) = Ok (VString s, rest).
Proof.
  intros Hs. assert (write_element (VString s) 0 = Ok (TAG_STRING :: write_chunked s)) as Hw by done.
  exact (read_element_write (VString s) 0 (S MAX_DEPTH) _ rest Hs Hw (Nat.add_0_r _)).
Qed.

Lemma node_label_prefix_keys l k e :
  str_ok l = true -> node_key_ok k -> node_key_encode k = Ok e ->
  exists p, node_label_prefix l = Ok p /\ (starts_with e p = true <-> label k = l).
Proof.
  intros Hl [_ Hk] He. exists (TAG_LIST :: TAG_STRING :: write_chunked l).
  split; [unfold node_label_prefix, encode_list_prefix; cbn; by rewrite app_nil_r|].
  apply map_err_Ok, encode_key_cons in He as (a & b & Ha & [= <-] & ->). rewrite app_nil_r.
  unfold to_value in Ha, Hk. apply value_ok_list in Hk as [_ Hk]. apply Forall_cons_1 in Hk as [Hlk _].
  cbn [write_element] in Ha. change (MAX_DEPTH <? 0)%nat with false in Ha. cbv iota in Ha.
  apply rbind_Ok in Ha as (body & Hb & [= <-]). cbn [write_all] in Hb.
  change (write_element (VString (label k)) 1) with (@Ok KeyEncodeError _ (TAG_STRING :: write_chunked (label k))) in Hb.
  cbn [rbind] in Hb. apply rbind_Ok in Hb as (rest & _ & [= <-]).
  rewrite starts_with_spec. split.
  - intros [t Ht].
    assert ((TAG_STRING :: write_chunked (label k)) ++ (rest ++ [TAG_LIST_END]) = (TAG_STRING :: write_chunked l) ++ t) as E.
    { apply cons_eq_inv in Ht as [_ Ht]. cbn [app] in *. by rewrite app_assoc. }
    pose proof (read_string l t Hl) as R1. rewrite <-E, (read_string _ _ Hlk) in R1.
    apply Ok_inj, pair_inj' in R1 as [R1 _]. by injection R1.
  - intros ->. exists (rest ++ [TAG_LIST_END]). cbn [app]. by rewrite <-app_assoc.
Qed.

(** The label scan of the [nodes] map: the prefix always exists, and the
    keys that start with it are exactly the nodes with that primary label. *)
Lemma node_label_scan l k e :
  str_ok l = true -> node_key_ok k -> node_key_encode k = Ok e ->
  exists p, node_label_prefix l = Ok p /\ (starts_with e p = true <-> label k = l).
Proof. apply node_label_prefix_keys. Qed.

Lemma edge_scan_tuple k a b n t e p :
  edge_key_ok k -> node_key_ok a -> node_key_ok b -> node_key_ok n -> str_ok t = true ->
  encode_tuple k a b = Ok e -> edge_endpoint_type_prefix n t = Ok p ->
  starts_with e p = true <-> normal_node a = normal_node n /\ rtype k = t.
Proof.
  intros Hk Ha Hb Hn Ht He Hp. apply encode_tuple_Ok in He. apply map_err_Ok in Hp.
  assert (tuple_ok [to_value n; VString t]) as Hnt by (destruct Hn; rewrite !tuple_ok_cons; auto).
  rewrite (encode_key_starts_with _ _ _ _ Hnt (edge_tuple_ok _ _ _ Hk Ha Hb) Hp He). cbn [map app]. rewrite <-!to_value_normal. split.
  - intros [c H]. apply cons_eq_inv in H as [H1 H], H as [[= H2] _]. by apply to_value_inj in H1.
  - intros [-> ->]. by eexists.
Qed.

(** The adjacency scans: with the prefix of a node and a type, the
    forward map yields exactly the edges of the type out of the node and the
    reverse map exactly those into it. *)
Lemma edge_scan k n t p f r :
  edge_key_ok k -> node_key_ok n -> str_ok t = true ->
  edge_endpoint_type_prefix n t = Ok p -> encode_fwd k = Ok f -> encode_rev k = Ok r ->
  (starts_with f p = true <-> normal_node (src k) = normal_node n /\ rtype k = t) /\
  (starts_with r p = true <-> normal_node (dst k) = normal_node n /\ rtype k = t).
Proof.
  intros Hk Hn Ht Hp Hf Hr. pose proof Hk as (_ & Hs & Hd & _).
  split.
  - exact (edge_scan_tuple k _ _ n t f p Hk Hs Hd Hn Ht Hf Hp).
  - exact (edge_scan_tuple k _ _ n t r p Hk Hd Hs Hn Ht Hr Hp).
Qed.

(** The equality probe of an index: the entries that start with the
    prefix of a label, properties and values are exactly those of that index
    and those values, negative zero being zero. *)
Lemma index_prefix_iff e l ps vs b p :
  index_entry_ok e -> str_ok l = true -> names_ok ps = true -> value_ok (VList vs) = true ->
  index_value_prefix l ps vs = Ok p -> index_entry_encode e = Ok b ->
  starts_with b p = true <->
  ilabel e = l /\ iproperties e = ps /\ map normal (ivalues e) = map normal vs.
Proof.
  intros He Hl Hps Hvs Hp Hb. apply map_err_Ok in Hp, Hb. fold (index_tuple e) in Hb.
  assert (tuple_ok [VString l; VList (map VString ps); VList vs]) as Ht by (rewrite !tuple_ok_cons; auto).
  rewrite (encode_key_starts_with _ _ _ _ Ht (index_tuple_ok _ He) Hp Hb).
  rewrite index_tuple_normal. unfold index_tuple, normal_index. cbn [map normal ilabel iproperties ivalues inode app].
  rewrite !map_normal_strings. split.
  - intros [c H]. apply cons_eq_inv in H as [[= H1] H], H as [H2 H], H as [[= H3] _]. split_and!; [done| |done].
    injection H2 as H2. apply (f_equal property_names) in H2. rewrite !property_names_map in H2.
    by apply Ok_inj in H2.
  - intros (-> & -> & ->). by eexists.
Qed.

(** Between two strings with a common prefix, every string has it. *)
Lemma squeeze_prefix p x y s : bytes_le (p ++ x) s -> bytes_lt s (p ++ y) -> exists t, s = p ++ t.
Proof.
  revert s. induction p as [|b p IH]; intros s Hlo Hhi; [by exists s|].
  destruct s as [|c s]; [by destruct Hlo|]. cbn [app] in *.
  unfold bytes_le in Hlo. unfold bytes_lt in Hhi. rewrite bytes_cmp_cons in Hlo, Hhi.
  rewrite (byte_cmp_sym c b) in Hlo.
  destruct (byte_cmp c b) eqn:E; cbn in Hlo, Hhi; try done.
  apply byte_cmp_eq in E as ->. destruct (IH s Hlo Hhi) as [t ->]. by exists t.
Qed.

Lemma app_le_self p t : bytes_le p (p ++ t).
Proof. unfold bytes_le. rewrite <-(app_nil_r p) at 1. rewrite bytes_cmp_app_same. by destruct t. Qed.

Lemma byte_succ_cmp (b c : byte) :
  b <> xff -> byte_cmp b c <> Gt -> byte_cmp c (z2b (b2z b + 1)) = Lt -> c = b.
Proof.
  intros Hb. assert (b2z b <> 255%Z) as Hz by (intros E; apply Hb, b2z_inj; by rewrite E).
  pose proof (b2z_range b) as Rb. unfold byte_cmp. rewrite b2z_z2b, Z.mod_small by lia.
  intros H1 H2. apply b2z_inj. rewrite Z.compare_lt_iff in H2. rewrite Z.compare_gt_iff in H1. lia.
Qed.

Lemma byte_succ_lt b : b <> xff -> byte_cmp b (z2b (b2z b + 1)) = Lt.
Proof.
  intros Hb. assert (b2z b <> 255%Z) as Hz by (intros E; apply Hb, b2z_inj; by rewrite E).
  pose proof (b2z_range b) as Rb. unfold byte_cmp. rewrite b2z_z2b, Z.mod_small by lia. apply Z.compare_lt_iff. lia.
Qed.

Lemma prefix_successor_snoc p b :
  prefix_successor (p ++ [b]) = if b =b? xff then prefix_successor p else Some (p ++ [z2b (b2z b + 1)]).
Proof.
  unfold prefix_successor. rewrite rev_app_distr. cbn [rev app bump].
  destruct (b =b? xff); [done|]. cbn. by rewrite rev_involutive.
Qed.

(** [prefix_successor] closes a prefix to a half-open range: the strings
    with the prefix are exactly those from the prefix up to its successor, or
    without bound where there is none. *)
Lemma prefix_successor_range p s :
  starts_with s p = true <->
  bytes_le p s /\ match prefix_successor p with Some q => bytes_lt s q | None => True end.
Proof.
  rewrite starts_with_spec. revert s. induction p as [|b p IH] using rev_ind; intros s.
  { split; [intros _; split; [by destruct s|done]|intros _; by exists s]. }
  rewrite prefix_successor_snoc. destruct (byte_eqb_spec b xff) as [->|Hb]; split.
  - intros [t ->]. split; [apply app_le_self|]. rewrite <-app_assoc. apply (IH (p ++ [xff] ++ t)). by eexists.
  - intros [Hle Hlt]. destruct (proj2 (IH s)) as [t ->].
    { split; [|done]. apply bytes_le_lteq in Hle as [Hle| <-]; [|apply app_le_self].
      apply bytes_lt_le. eapply bytes_le_lt_trans; [apply app_le_self|exact Hle]. }
    unfold bytes_le in Hle. rewrite bytes_cmp_app_same in Hle. destruct t as [|c t]; [by destruct Hle|].
    rewrite bytes_cmp_cons in Hle. exists t. rewrite <-app_assoc. f_equal. cbn [app]. f_equal.
    apply b2z_inj. pose proof (b2z_range c). change (b2z xff) with 255%Z. unfold byte_cmp in Hle.
    change (b2z xff) with 255%Z in Hle. destruct (Z.compare_spec 255 (b2z c)); cbn in Hle; [done|lia|done].
  - intros [t ->]. split; [apply app_le_self|]. unfold bytes_lt. rewrite <-app_assoc, bytes_cmp_app_same.
    cbn [app]. by rewrite bytes_cmp_cons, byte_succ_lt.
  - intros [Hle Hlt]. destruct (squeeze_prefix p [b] _ s Hle Hlt) as [t ->].
    unfold bytes_le in Hle. unfold bytes_lt in Hlt. rewrite bytes_cmp_app_same in Hle, Hlt.
    destruct t as [|c t]; [by destruct Hle|]. rewrite bytes_cmp_cons in Hle, Hlt.
    assert (c = b) as ->; [|exists t; by rewrite <-app_assoc].
    apply byte_succ_cmp; [done| |].
    + by destruct (byte_cmp b c).
    + destruct (byte_cmp c (z2b (b2z b + 1))); [|done|done]. cbn in Hlt. by destruct t.
Qed.

(** ** The theorems at concrete keys *)

Definition sample_node : NodeKey := mkNodeKey [x41] [VInt 7].
Definition other_node : NodeKey := mkNodeKey [x42; x62] [VString [x78]; VBool false].
Definition sample_edge : EdgeKey := mkEdgeKey sample_node [x54] other_node VNull.
Definition sample_index : IndexEntry := mkIndexEntry [x41] [[x70]; [x71]] [VInt 1; VFloat SIGN_BIT] sample_node.

Definition bytes_of {E : Type} (r : result E bytes) : bytes := match r with Ok b => b | Err _ => [] end.
Definition sample_node_bytes : bytes := Eval vm_compute in bytes_of (node_key_encode sample_node).
Definition sample_fwd_bytes : bytes := Eval vm_compute in bytes_of (encode_fwd sample_edge).
Definition sample_rev_bytes : bytes := Eval vm_compute in bytes_of (encode_rev sample_edge).
Definition sample_index_bytes : bytes := Eval vm_compute in bytes_of (index_entry_encode sample_index).
Definition sample_edge_prefix : bytes :=
  Eval vm_compute in bytes_of (edge_endpoint_type_prefix sample_node [x54]).
Definition sample_index_prefix : bytes :=
  Eval vm_compute in bytes_of (index_value_prefix [x41] [[x70]; [x71]] [VInt 1; VFloat 0]).

Lemma sample_node_ok : node_key_ok sample_node.
Proof. split; vm_compute; reflexivity. Qed.
Lemma other_node_ok : node_key_ok other_node.
Proof. split; vm_compute; reflexivity. Qed.
Lemma sample_edge_ok : edge_key_ok sample_edge.
Proof.
  split; [vm_compute; reflexivity|]. split; [apply sample_node_ok|]. split; [apply other_node_ok|].
  split; vm_compute; reflexivity.
Qed.
Lemma sample_index_ok : index_entry_ok sample_index.
Proof.
  split; [vm_compute; reflexivity|]. split; [vm_compute; reflexivity|]. split; [vm_compute; reflexivity|].
  split; [vm_compute; reflexivity|]. apply sample_node_ok.
Qed.

Lemma node_key_codec_witness :
  node_key_decode sample_node_bytes = Ok sample_node <->
  node_key_encode sample_node = Ok sample_node_bytes /\ node_key_ok sample_node /\
  normal_node sample_node = sample_node.
Proof. apply node_key_codec. vm_compute. reflexivity. Defined.

Lemma edge_key_codec_witness :
  decode_rev sample_rev_bytes = Ok sample_edge <->
  encode_rev sample_edge = Ok sample_rev_bytes /\ edge_key_ok sample_edge /\ normal_edge sample_edge = sample_edge.
Proof. apply edge_key_codec. vm_compute. reflexivity. Defined.

Lemma edge_maps_mirror_witness :
  decode_fwd sample_fwd_bytes = Ok (normal_edge sample_edge) /\
  decode_rev sample_rev_bytes = Ok (normal_edge sample_edge).
Proof. apply (proj2 (edge_maps_mirror sample_edge sample_edge_ok)); vm_compute; reflexivity. Defined.

Lemma index_entry_codec_witness :
  index_entry_decode sample_index_bytes = Ok (normal_index sample_index) <->
  index_entry_encode (normal_index sample_index) = Ok sample_index_bytes /\
  index_entry_ok (normal_index sample_index) /\ normal_index (normal_index sample_index) = normal_index sample_index.
Proof. apply index_entry_codec. vm_compute. reflexivity. Defined.

Lemma node_label_scan_witness :
  exists p, node_label_prefix [x41] = Ok p /\
    (starts_with sample_node_bytes p = true <-> label sample_node = [x41]).
Proof. apply node_label_scan; [vm_compute; reflexivity|apply sample_node_ok|vm_compute; reflexivity]. Defined.

Lemma edge_scan_witness :
  starts_with sample_fwd_bytes sample_edge_prefix = true /\ starts_with sample_rev_bytes sample_edge_prefix = false.
Proof.
  destruct (edge_scan sample_edge sample_node [x54] sample_edge_prefix sample_fwd_bytes sample_rev_bytes
    sample_edge_ok sample_node_ok) as [Hf Hr]; [vm_compute; reflexivity..|]. split.
  - apply Hf. by split.
  - apply not_true_is_false. intros H%Hr. by destruct H.
Defined.

Lemma index_prefix_sample : starts_with sample_index_bytes sample_index_prefix = true.
Proof.
  apply (index_prefix_iff sample_index [x41] [[x70]; [x71]] [VInt 1; VFloat 0]);
    [apply sample_index_ok|vm_compute; reflexivity..|]. split_and!; vm_compute; reflexivity.
Defined.
