(* ===== verification/Schema.v ===== *)
(** * The schema map (crates/acetone-model/src/schema.rs)

    Label, relationship-type and index definitions: the rules their
    constructors check, the keys and canonical values they are stored under,
    and the surrogate identifiers.  The clock and the random bytes of
    [mint_surrogate_id] are its arguments. *)
From stdpp Require Import sorting.
From S2P Require Import Prelude Ieee Model Keys KeysOrder KeysCodec Cbor Canonical GraphKeys.

Definition KIND_LABEL : bytes := text "label".
Definition KIND_RTYPE : bytes := text "rtype".
Definition KIND_INDEX : bytes := text "index".
Definition SURROGATE_KEY_PROPERTY : bytes := text "_id".

(** ** Surrogate identifiers *)

Definition ALPHABET : bytes := text "0123456789ABCDEFGHJKMNPQRSTVWXYZ".

(** [clock] is the milliseconds since the epoch, if the clock is past it;
    [random] the ten random bytes. *)
Definition surrogate_value (clock : option Z) (random : bytes) : Z :=
  let millis := Z.land (match clock with Some ms => to_unsigned 64 ms | None => 0%Z end) (Z.shiftl 1 48 - 1) in
  be_Z (drop 2 (be_bytes 8 millis) ++ random).

Definition mint_surrogate_id (clock : option Z) (random : bytes) : bytes :=
  let value := surrogate_value clock random in
  map (fun i => let shift := (125 - 5 * Z.of_nat i)%Z in
                nth (Z.to_nat (Z.land (Z.shiftr value shift) 0x1f)) ALPHABET x00) (seq 0 26).

(** ** Errors and property types *)

Inductive SchemaError : Type :=
| SEmptyName (what : string)
| InvalidKey (what : string)
| InvalidConstraint (what : string)
| SCbor (e : ValueDecodeError)
| SKeyDecode (e : KeyDecodeError)
| SShape (what : string)
| SNotCanonical (what : string)
| UnknownKind (kind : bytes)
| UnknownType (name : bytes).

Inductive PropertyType : Type :=
| TBool | TInt | TFloat | TString | TBytes | TDate | TTime | TDateTime | TDuration | TList.

#[global] Instance property_type_eq_dec : EqDecision PropertyType.
Proof. solve_decision. Defined.

Definition as_str (t : PropertyType) : bytes :=
  match t with
  | TBool => text "bool"
  | TInt => text "int"
  | TFloat => text "float"
  | TString => text "string"
  | TBytes => text "bytes"
  | TDate => text "date"
  | TTime => text "time"
  | TDateTime => text "datetime"
  | TDuration => text "duration"
  | TList => text "list"
  end.

Definition parse_type (name : bytes) : result SchemaError PropertyType :=
  if bytes_eqb name (text "bool") then Ok TBool
  else if bytes_eqb name (text "int") then Ok TInt
  else if bytes_eqb name (text "float") then Ok TFloat
  else if bytes_eqb name (text "string") then Ok TString
  else if bytes_eqb name (text "bytes") then Ok TBytes
  else if bytes_eqb name (text "date") then Ok TDate
  else if bytes_eqb name (text "time") then Ok TTime
  else if bytes_eqb name (text "datetime") then Ok TDateTime
  else if bytes_eqb name (text "duration") then Ok TDuration
  else if bytes_eqb name (text "list") then Ok TList
  else Err (UnknownType name).

Definition type_names : list bytes :=
  [text "bool"; text "int"; text "float"; text "string"; text "bytes"; text "date"; text "time";
   text "datetime"; text "duration"; text "list"].

Definition type_matches (t : PropertyType) (value : Value) : bool :=
  match t, value with
  | _, VNull => true
  | TBool, VBool _ => true
  | TInt, VInt _ => true
  | TFloat, VFloat _ | TFloat, VInt _ => true
  | TString, VString _ => true
  | TBytes, VBytes _ => true
  | TDate, VDate _ => true
  | TTime, VTime _ => true
  | TDateTime, VDateTime _ => true
  | TDuration, VDuration _ => true
  | TList, VList _ => true
  | _, _ => false
  end.

Definition type_of (value : Value) : option PropertyType :=
  match value with
  | VNull => None
  | VBool _ => Some TBool
  | VInt _ => Some TInt
  | VFloat _ => Some TFloat
  | VString _ => Some TString
  | VBytes _ => Some TBytes
  | VDate _ => Some TDate
  | VTime _ => Some TTime
  | VDateTime _ => Some TDateTime
  | VDuration _ => Some TDuration
  | VList _ => Some TList
  end.

(** ** Definitions *)

Abbreviation types_map := (gmap bytes PropertyType).

Definition normalise_names (names : list bytes) (context : string) : result SchemaError (list bytes) :=
  if existsb is_empty names then Err (SEmptyName context) else Ok (normalise_strings names).

Definition check_types (types : types_map) : result SchemaError unit :=
  if existsb is_empty (map fst (map_to_list types)) then Err (SEmptyName "typed property name") else Ok tt.

Record LabelDef : Type := mkLabelDef {
  lkey : list bytes; surrogate : bool; ltypes : types_map; lexists : list bytes; lunique : list bytes }.

Definition label_def_build (key : list bytes) (surrogate : bool) (types : types_map) (exists_ unique : list bytes)
    : result SchemaError LabelDef :=
  if (length key =? 0)%nat then Err (InvalidKey "key tuple must be non-empty")
  else if existsb is_empty key then Err (SEmptyName "key property")
  else if negb (length (dedup (merge_sort bytes_le key)) =? length key)%nat
  then Err (InvalidKey "key properties must be distinct")
  else if surrogate && negb (bool_decide (key = [SURROGATE_KEY_PROPERTY]))
  then Err (InvalidKey "surrogate labels key on exactly [_id]")
  else
    let? _ := check_types types in
    let? exists_ := normalise_names exists_ "existence-constraint property" in
    let? unique := normalise_names unique "unique-constraint property" in
    if existsb (fun u => bool_decide (u ∈ key)) unique
    then Err (InvalidConstraint "UNIQUE applies to non-key properties only")
    else Ok (mkLabelDef key surrogate types exists_ unique).

Definition label_def_new (key : list bytes) (types : types_map) (exists_ unique : list bytes)
    : result SchemaError LabelDef :=
  label_def_build key false types exists_ unique.

Definition label_def_surrogate (types : types_map) (exists_ unique : list bytes) : result SchemaError LabelDef :=
  let build := label_def_build [SURROGATE_KEY_PROPERTY] true (<[SURROGATE_KEY_PROPERTY := TString]> types)
                 exists_ unique in
  match types !! SURROGATE_KEY_PROPERTY with
  | None | Some TString => build
  | Some _ => Err (InvalidKey "a surrogate _id is a ULID string; it cannot be declared another type")
  end.

Record RelTypeDef : Type := mkRelTypeDef {
  discriminator : option bytes; rtypes : types_map; rexists : list bytes }.

Definition rel_type_def_new (discriminator : option bytes) (types : types_map) (exists_ : list bytes)
    : result SchemaError RelTypeDef :=
  if match discriminator with Some d => is_empty d | None => false end
  then Err (SEmptyName "discriminator property")
  else
    let? _ := check_types types in
    let? exists_ := normalise_names exists_ "existence-constraint property" in
    Ok (mkRelTypeDef discriminator types exists_).

Record IndexDef : Type := mkIndexDef { xlabel : bytes; xproperties : list bytes }.

Definition index_def_new (label : bytes) (properties : list bytes) : result SchemaError IndexDef :=
  if is_empty label then Err (SEmptyName "index label")
  else if (length properties =? 0)%nat || existsb is_empty properties then Err (SEmptyName "index property")
  else Ok (mkIndexDef label properties).

Inductive SchemaEntry : Type :=
| LabelEntry (name : bytes) (def : LabelDef)
| RelTypeEntry (name : bytes) (def : RelTypeDef)
| IndexDefEntry (name : bytes) (def : IndexDef).

(** ** Keys: the source unwraps the results, which [schema_keys_encode] shows
    are there. *)

Definition entry_key (kind name : bytes) : result KeyEncodeError bytes :=
  encode_key [VString kind; VString name].

Definition schema_kind_prefix (kind : bytes) : result KeyEncodeError bytes := encode_key [VString kind].

Definition entry_name (e : SchemaEntry) : bytes :=
  match e with LabelEntry name _ | RelTypeEntry name _ | IndexDefEntry name _ => name end.

Definition map_key (e : SchemaEntry) : result KeyEncodeError bytes :=
  match e with
  | LabelEntry name _ => entry_key KIND_LABEL name
  | RelTypeEntry name _ => entry_key KIND_RTYPE name
  | IndexDefEntry name _ => entry_key KIND_INDEX name
  end.

Definition rel_type_key (name : bytes) : result KeyEncodeError bytes := entry_key KIND_RTYPE name.

(** ** Values *)

Definition write_types (types : types_map) : bytes := write_pure_map (fun ty => write_text (as_str ty)) types.

Definition schema_encode_value (e : SchemaEntry) : bytes :=
  match e with
  | LabelEntry _ def =>
    write_head MAJOR_MAP 5
    ++ write_text (text "key") ++ write_name_list (lkey def)
    ++ write_text (text "types") ++ write_types (ltypes def)
    ++ write_text (text "exists") ++ write_name_list (lexists def)
    ++ write_text (text "unique") ++ write_name_list (lunique def)
    ++ write_text (text "surrogate") ++ [if surrogate def then SIMPLE_TRUE else SIMPLE_FALSE]
  | RelTypeEntry _ def =>
    write_head MAJOR_MAP 3
    ++ write_text (text "disc")
    ++ match discriminator def with Some d => write_text d | None => [SIMPLE_NULL] end
    ++ write_text (text "types") ++ write_types (rtypes def)
    ++ write_text (text "exists") ++ write_name_list (rexists def)
  | IndexDefEntry _ def =>
    write_head MAJOR_MAP 2
    ++ write_text (text "label") ++ write_text (xlabel def)
    ++ write_text (text "properties") ++ write_name_list (xproperties def)
  end.

Definition expect_map (fields : Z) (what : string) (input : bytes) : result SchemaError (unit * bytes) :=
  let? '(count, input) := map_err SCbor (read_head MAJOR_MAP input) in
  if negb (count =? fields)%Z then Err (SShape what) else Ok (tt, input).

Definition expect_field (name : bytes) (input : bytes) : result SchemaError (unit * bytes) :=
  expect_text SCbor (SNotCanonical "unexpected field name or order") name input.

Definition read_bool (input : bytes) : result SchemaError (bool * bytes) :=
  let? '(b, input) := map_err SCbor (Cbor.read_u8 input) in
  if b =b? SIMPLE_TRUE then Ok (true, input)
  else if b =b? SIMPLE_FALSE then Ok (false, input)
  else Err (SShape "expected boolean").

Definition read_optional_text (input : bytes) : result SchemaError (option bytes * bytes) :=
  match input with
  | b :: rest =>
    if b =b? SIMPLE_NULL then Ok (None, rest)
    else let? '(s, input) := map_err SCbor (read_text input) in Ok (Some s, input)
  | [] => let? '(s, input) := map_err SCbor (read_text input) in Ok (Some s, input)
  end.

Definition read_name_array (sorted : bool) (input : bytes) : result SchemaError (list bytes * bytes) :=
  read_name_list SCbor (SNotCanonical "name set must be strictly ascending") sorted input.

Definition read_type (input : bytes) : result SchemaError (PropertyType * bytes) :=
  let? '(name, input) := map_err SCbor (read_text input) in
  let? ty := parse_type name in
  Ok (ty, input).

Definition read_types (input : bytes) : result SchemaError (types_map * bytes) :=
  read_map SCbor (SNotCanonical "typed property names must be strictly ascending") (fun _ => Ok tt) read_type input.

(** The index properties: a declared count with no bound but the input's end. *)
Definition read_index_properties (input : bytes) : result SchemaError (list bytes * bytes) :=
  let? '(count, input) := map_err SCbor (read_head MAJOR_ARRAY input) in
  read_names SCbor (SNotCanonical "") false (Z.to_nat count) [] input.

Definition read_label_def (input : bytes) : result SchemaError (LabelDef * bytes) :=
  let? '(_, input) := expect_map 5 "label definition" input in
  let? '(_, input) := expect_field (text "key") input in
  let? '(key, input) := read_name_array false input in
  let? '(_, input) := expect_field (text "types") input in
  let? '(types, input) := read_types input in
  let? '(_, input) := expect_field (text "exists") input in
  let? '(exists_, input) := read_name_array true input in
  let? '(_, input) := expect_field (text "unique") input in
  let? '(unique, input) := read_name_array true input in
  let? '(_, input) := expect_field (text "surrogate") input in
  let? '(surrogate, input) := read_bool input in
  let? def := label_def_build key surrogate types exists_ unique in
  Ok (def, input).

Definition read_rel_type_def (input : bytes) : result SchemaError (RelTypeDef * bytes) :=
  let? '(_, input) := expect_map 3 "relationship-type definition" input in
  let? '(_, input) := expect_field (text "disc") input in
  let? '(discriminator, input) := read_optional_text input in
  let? '(_, input) := expect_field (text "types") input in
  let? '(types, input) := read_types input in
  let? '(_, input) := expect_field (text "exists") input in
  let? '(exists_, input) := read_name_array true input in
  let? def := rel_type_def_new discriminator types exists_ in
  Ok (def, input).

Definition read_index_def (input : bytes) : result SchemaError (IndexDef * bytes) :=
  let? '(_, input) := expect_map 2 "index declaration" input in
  let? '(_, input) := expect_field (text "label") input in
  let? '(label, input) := map_err SCbor (read_text input) in
  let? '(_, input) := expect_field (text "properties") input in
  let? '(properties, input) := read_index_properties input in
  let? def := index_def_new label properties in
  Ok (def, input).

Definition schema_decode (key value : bytes) : result SchemaError SchemaEntry :=
  let? tuple := map_err SKeyDecode (decode_key key) in
  match tuple with
  | [VString kind; VString name] =>
    if is_empty name then Err (SEmptyName "schema entry name")
    else
      let? '(entry, input) :=
        (if bytes_eqb kind KIND_LABEL then
           let? '(def, input) := read_label_def value in Ok (LabelEntry name def, input)
         else if bytes_eqb kind KIND_RTYPE then
           let? '(def, input) := read_rel_type_def value in Ok (RelTypeEntry name def, input)
         else if bytes_eqb kind KIND_INDEX then
           let? '(def, input) := read_index_def value in Ok (IndexDefEntry name def, input)
         else Err (UnknownKind kind)) in
      at_end SCbor entry input
  | _ => Err (SShape "schema key must be [string kind, string name]")
  end.

Example decode_index :
  let e := IndexDefEntry [x69] (mkIndexDef [x41] [[x62]; [x61]]) in
  (let? k := map_err (fun _ => SShape "") (map_key e) in schema_decode k (schema_encode_value e)) = Ok e.
Proof. vm_compute. reflexivity. Qed.

(** ** Codecs of the fields *)

Lemma parse_as_str t : parse_type (as_str t) = Ok t.
Proof. destruct t; vm_compute; reflexivity. Qed.

Lemma parse_type_Ok name t : parse_type name = Ok t -> name = as_str t.
Proof.
  unfold parse_type, bytes_eqb. repeat case_bool_decide; try done;
    intros H'; apply Ok_inj in H'; by subst.
Qed.

Lemma as_str_ok t : str_ok (as_str t) = true.
Proof. destruct t; vm_compute; reflexivity. Qed.

#[local] Instance type_codec : PureCodec read_type (fun t => write_text (as_str t)) (fun _ => True).
Proof.
  split; [|split; [|done]].
  - intros t rest _. unfold read_type. rewrite read_text_write by apply as_str_ok. cbn [map_err rbind].
    by rewrite parse_as_str.
  - unfold read_type in H. apply rbind_Ok in H as ([s r] & Hs & H).
    apply map_err_Ok, read_text_Ok in Hs as [-> _]. apply rbind_Ok in H as (t & Ht & H).
    apply parse_type_Ok in Ht as ->. by apply Ok_inj in H as [= <- <-].
Qed.

Definition types_ok (m : types_map) : Prop := map_ok (fun _ : bytes => @Ok SchemaError unit tt) (fun _ => True) m.

#[local] Instance types_codec : PureCodec read_types write_types types_ok.
Proof. apply pure_map_codec, type_codec. Qed.

Lemma expect_field_write name rest : str_ok name = true -> expect_field name (write_text name ++ rest) = Ok (tt, rest).
Proof. apply expect_text_write. Qed.

Lemma expect_field_Ok name input u rest : expect_field name input = Ok (u, rest) -> input = write_text name ++ rest.
Proof. apply expect_text_Ok. Qed.

Lemma expect_map_write n what rest : is_u64 n = true -> expect_map n what (write_head MAJOR_MAP n ++ rest) = Ok (tt, rest).
Proof. intros Hn. unfold expect_map. rewrite read_head_write by done. cbn [map_err rbind]. by rewrite Z.eqb_refl. Qed.

Lemma expect_map_Ok n what input u rest : expect_map n what input = Ok (u, rest) -> input = write_head MAJOR_MAP n ++ rest.
Proof.
  unfold expect_map. intros H. apply rbind_Ok in H as ([c r] & Hs & H).
  apply map_err_Ok, read_head_Ok in Hs as [-> _]. destruct (Z.eqb_spec c n) as [->|]; [|done].
  cbn [negb] in H. by apply Ok_inj in H as [= <- <-].
Qed.

#[local] Instance bool_codec :
  PureCodec read_bool (fun b : bool => [if b then SIMPLE_TRUE else SIMPLE_FALSE]) (fun _ => True).
Proof.
  split; [|split; [|done]].
  - by intros [] rest _.
  - unfold read_bool in H. apply rbind_Ok in H as ([b r] & Hb & H). apply map_err_Ok in Hb.
    destruct input as [|b' input]; [done|]. apply Ok_inj in Hb as [= -> ->].
    destruct (byte_eqb_spec b SIMPLE_TRUE) as [->|]; [by apply Ok_inj in H as [= <- <-]|].
    destruct (byte_eqb_spec b SIMPLE_FALSE) as [->|]; [by apply Ok_inj in H as [= <- <-]|done].
Qed.

Definition optional_ok (o : option bytes) : Prop := match o with Some s => str_ok s = true | None => True end.
Definition write_optional_text (o : option bytes) : bytes :=
  match o with Some d => write_text d | None => [SIMPLE_NULL] end.

(** A text never starts with the null byte. *)
Lemma write_text_not_null s : len_ok s = true -> exists b tl, write_text s = b :: tl /\ (b =b? SIMPLE_NULL) = false.
Proof.
  intros Hs%len_u64. destruct (write_head_read MAJOR_TEXT (Z.of_nat (length s))) as (ib & tl & E & Em & _); [done|done|].
  exists ib, (tl ++ s). unfold write_text. rewrite E. split; [done|].
  destruct (byte_eqb_spec ib SIMPLE_NULL) as [->|]; [|done]. by vm_compute in Em.
Qed.

#[local] Instance optional_text_codec : PureCodec read_optional_text write_optional_text optional_ok.
Proof.
  split.
  - intros [s|] rest Hs; [|done]. cbn [optional_ok write_optional_text] in *.
    pose proof Hs as Hs'. unfold str_ok in Hs'. apply andb_true_iff in Hs' as [_ Hl].
    destruct (write_text_not_null s Hl) as (b & tl & E & Eb).
    pose proof (read_text_write s rest Hs) as R. rewrite E in *. cbn [app read_optional_text] in *.
    by rewrite Eb, R.
  - intros input o rest H. unfold read_optional_text in H.
    assert (forall input, (let? '(s, input) := map_err SCbor (read_text input) in Ok (Some s, input)) = Ok (o, rest) ->
      input = write_optional_text o ++ rest /\ ((Z.of_nat (length (write_optional_text o)) < 2 ^ 63)%Z -> optional_ok o)) as Htext.
    { clear. intros input H. apply rbind_Ok in H as ([s r] & Hs & H). apply Ok_inj in H as [= <- <-].
      by apply (pure_read (PureCodec := text_codec SCbor)) in Hs. }
    destruct input as [|b input]; [by apply Htext|].
    destruct (byte_eqb_spec b SIMPLE_NULL) as [->|]; [|by apply Htext].
    by apply Ok_inj in H as [= <- <-].
Qed.

#[local] Instance name_array_codec sorted :
  PureCodec (read_name_array sorted) write_name_list (name_list_ok sorted).
Proof. apply name_list_codec. Qed.

#[local] Instance index_properties_codec : PureCodec read_index_properties write_name_list (name_list_ok false).
Proof.
  split.
  - intros ls rest (Hok & Hlen & _). unfold read_index_properties, write_name_list. rewrite <-app_assoc.
    rewrite read_head_write by (done || by apply len_u64). cbn [map_err rbind]. rewrite Nat2Z.id.
    by apply (read_names_write SCbor (SNotCanonical "") false ls []).
  - intros input ls rest H.
    apply (pure_read (PureCodec := name_list_codec SCbor (SNotCanonical "") false)).
    unfold read_index_properties in H. apply rbind_Ok in H as ([n r] & Hn & H).
    pose proof Hn as Hh. apply map_err_Ok, read_head_Ok in Hh as [-> Hu]. unrange.
    pose proof H as H'. apply read_names_Ok in H' as (ls' & Hl & _ & -> & _ & _).
    unfold read_name_list, read_count. rewrite Hn. cbn [rbind].
    pose proof (length_labels ls'). rewrite length_app.
    destruct (Z.ltb_spec (Z.of_nat (length (concat (map write_text ls')) + length rest)) n); [lia|done].
Qed.

(** One step of a reader: the field it reads and what it leaves. *)
Ltac read_step H :=
  let x := fresh "x" in let r := fresh "r" in let Hx := fresh "Hx" in let Hok := fresh "Hok" in
  apply rbind_Ok in H as ([x r] & Hx & H);
  first [ apply expect_map_Ok in Hx as ->
        | apply expect_field_Ok in Hx as ->
        | apply pure_read in Hx as [-> Hok] ].

Ltac write_steps :=
  rewrite <-?app_assoc;
  repeat first [ rewrite expect_map_write by reflexivity
               | rewrite expect_field_write by (vm_compute; reflexivity)
               | rewrite read_text_write by done
               | rewrite (pure_write (PureCodec := name_array_codec _)) by done
               | rewrite (pure_write (PureCodec := types_codec)) by done
               | rewrite (pure_write (PureCodec := optional_text_codec)) by done
               | rewrite (pure_write (PureCodec := index_properties_codec)) by done
               | rewrite (pure_write (PureCodec := bool_codec)) by done
               | progress cbn [rbind map_err] ].

(** ** Valid definitions *)

Definition label_def_ok (d : LabelDef) : Prop :=
  label_def_build (lkey d) (surrogate d) (ltypes d) (lexists d) (lunique d) = Ok d /\
  name_list_ok false (lkey d) /\ types_ok (ltypes d) /\
  name_list_ok true (lexists d) /\ name_list_ok true (lunique d).

Definition rel_type_def_ok (d : RelTypeDef) : Prop :=
  rel_type_def_new (discriminator d) (rtypes d) (rexists d) = Ok d /\
  optional_ok (discriminator d) /\ types_ok (rtypes d) /\ name_list_ok true (rexists d).

Definition index_def_ok (d : IndexDef) : Prop :=
  index_def_new (xlabel d) (xproperties d) = Ok d /\ str_ok (xlabel d) = true /\ name_list_ok false (xproperties d).

Lemma normalise_names_Ok names context l : normalise_names names context = Ok l -> l = normalise_strings names.
Proof. unfold normalise_names. destruct (existsb is_empty names); [done|]. by intros [= <-]. Qed.

Lemma label_def_build_Ok k s t e u d :
  label_def_build k s t e u = Ok d -> d = mkLabelDef k s t (normalise_strings e) (normalise_strings u).
Proof.
  unfold label_def_build. do 4 (case_match; [done|]). intros Hb.
  apply rbind_Ok in Hb as (_ & _ & Hb). apply rbind_Ok in Hb as (e' & He & Hb).
  apply rbind_Ok in Hb as (u' & Hu & Hb). apply normalise_names_Ok in He as ->, Hu as ->.
  case_match; [done|]. by apply Ok_inj in Hb.
Qed.

Lemma rel_type_def_new_Ok o t e d : rel_type_def_new o t e = Ok d -> d = mkRelTypeDef o t (normalise_strings e).
Proof.
  unfold rel_type_def_new. destruct (match o with Some d => is_empty d | None => false end); [done|].
  intros H. apply rbind_Ok in H as (_ & _ & H). apply rbind_Ok in H as (e' & He & H).
  apply normalise_names_Ok in He as ->. by apply Ok_inj in H.
Qed.

Lemma index_def_new_Ok l ps d : index_def_new l ps = Ok d -> d = mkIndexDef l ps.
Proof. unfold index_def_new. repeat case_match; try done. by intros [= <-]. Qed.

Lemma label_def_write d name rest :
  label_def_ok d -> read_label_def (schema_encode_value (LabelEntry name d) ++ rest) = Ok (d, rest).
Proof.
  intros (Hb & Hk & Ht & He & Hu). unfold read_label_def, schema_encode_value. write_steps.
  by rewrite Hb.
Qed.

Lemma label_def_read input d rest name :
  (Z.of_nat (length input) < 2 ^ 63)%Z -> read_label_def input = Ok (d, rest) ->
  input = schema_encode_value (LabelEntry name d) ++ rest /\ label_def_ok d.
Proof.
  intros Hlen H. unfold read_label_def in H. do 11 read_step H.
  apply rbind_Ok in H as (d' & Hb & H). apply Ok_inj in H as [= -> ->].
  rewrite !length_app in Hlen. specialize (Hok ltac:(lia)). specialize (Hok0 ltac:(lia)).
  specialize (Hok1 ltac:(lia)). specialize (Hok2 ltac:(lia)). clear Hok3.
  pose proof (label_def_build_Ok _ _ _ _ _ _ Hb) as E.
  rewrite !normalise_strings_id in E by (by apply Hok1 || by apply Hok2). subst d.
  unfold label_def_ok, schema_encode_value. cbn [lkey surrogate ltypes lexists lunique].
  split; [by rewrite <-!app_assoc|]. auto.
Qed.

Lemma rel_type_def_write d name rest :
  rel_type_def_ok d -> read_rel_type_def (schema_encode_value (RelTypeEntry name d) ++ rest) = Ok (d, rest).
Proof.
  intros (Hb & Ho & Ht & He). unfold read_rel_type_def, schema_encode_value.
  fold (write_optional_text (discriminator d)). write_steps. by rewrite Hb.
Qed.

Lemma rel_type_def_read input d rest name :
  (Z.of_nat (length input) < 2 ^ 63)%Z -> read_rel_type_def input = Ok (d, rest) ->
  input = schema_encode_value (RelTypeEntry name d) ++ rest /\ rel_type_def_ok d.
Proof.
  intros Hlen H. unfold read_rel_type_def in H. do 7 read_step H.
  apply rbind_Ok in H as (d' & Hb & H). apply Ok_inj in H as [= -> ->].
  rewrite !length_app in Hlen. specialize (Hok ltac:(lia)). specialize (Hok0 ltac:(lia)).
  specialize (Hok1 ltac:(lia)). pose proof (rel_type_def_new_Ok _ _ _ _ Hb) as E.
  rewrite !normalise_strings_id in E by (by apply Hok1). subst d.
  unfold rel_type_def_ok, schema_encode_value. cbn [discriminator rtypes rexists].
  split; [by rewrite <-!app_assoc|]. auto.
Qed.

Lemma index_def_write d name rest :
  index_def_ok d -> read_index_def (schema_encode_value (IndexDefEntry name d) ++ rest) = Ok (d, rest).
Proof.
  intros (Hb & Hl & Hp). unfold read_index_def, schema_encode_value. write_steps. by rewrite Hb.
Qed.

Lemma index_def_read input d rest name :
  (Z.of_nat (length input) < 2 ^ 63)%Z -> read_index_def input = Ok (d, rest) ->
  input = schema_encode_value (IndexDefEntry name d) ++ rest /\ index_def_ok d.
Proof.
  intros Hlen H. unfold read_index_def in H. do 2 read_step H.
  apply rbind_Ok in H as ([l r] & Hl & H). apply (pure_read (PureCodec := text_codec SCbor)) in Hl as [-> Hok].
  do 2 read_step H. apply rbind_Ok in H as (d' & Hb & H). apply Ok_inj in H as [= -> ->].
  rewrite !length_app in Hlen. specialize (Hok ltac:(lia)). specialize (Hok0 ltac:(lia)).
  pose proof (index_def_new_Ok _ _ _ Hb) as ->.
  unfold index_def_ok, schema_encode_value. cbn [xlabel xproperties].
  split; [by rewrite <-!app_assoc|]. auto.
Qed.

(** ** The codec of schema entries *)

Definition schema_entry_ok (e : SchemaEntry) : Prop :=
  str_ok (entry_name e) = true /\ is_empty (entry_name e) = false /\
  match e with
  | LabelEntry _ d => label_def_ok d
  | RelTypeEntry _ d => rel_type_def_ok d
  | IndexDefEntry _ d => index_def_ok d
  end.

Lemma entry_key_encode kind name :
  exists k, entry_key kind name = Ok k.
Proof. by eexists. Qed.

Lemma entry_key_decode kind name k :
  str_ok kind = true -> str_ok name = true -> entry_key kind name = Ok k ->
  decode_key k = Ok [VString kind; VString name].
Proof.
  intros Hk Hn H. apply (decode_encode [VString kind; VString name]); [|done].
  rewrite !tuple_ok_cons. auto using tuple_ok_nil.
Qed.

Lemma kinds_ok : str_ok KIND_LABEL = true /\ str_ok KIND_RTYPE = true /\ str_ok KIND_INDEX = true.
Proof. split_and!; vm_compute; reflexivity. Qed.

Lemma at_end_write {E A : Type} (wrap : ValueDecodeError -> E) (a : A) : at_end wrap a [] = Ok a.
Proof. done. Qed.

Lemma schema_decode_encode e k :
  schema_entry_ok e -> map_key e = Ok k -> schema_decode k (schema_encode_value e) = Ok e.
Proof.
  intros (Hn & Hne & Hok) Hk. unfold schema_decode.
  destruct kinds_ok as (KL & KR & KI).
  destruct e as [name d|name d|name d]; cbn [entry_name map_key] in *;
    [apply (entry_key_decode _ _ _ KL Hn) in Hk|apply (entry_key_decode _ _ _ KR Hn) in Hk
    |apply (entry_key_decode _ _ _ KI Hn) in Hk]; rewrite Hk; cbn [map_err rbind]; rewrite Hne.
  - change (bytes_eqb KIND_LABEL KIND_LABEL) with true. cbv iota.
    pose proof (label_def_write d name [] Hok) as R. rewrite app_nil_r in R. by rewrite R.
  - change (bytes_eqb KIND_RTYPE KIND_LABEL) with false. change (bytes_eqb KIND_RTYPE KIND_RTYPE) with true. cbv iota.
    pose proof (rel_type_def_write d name [] Hok) as R. rewrite app_nil_r in R. by rewrite R.
  - change (bytes_eqb KIND_INDEX KIND_LABEL) with false. change (bytes_eqb KIND_INDEX KIND_RTYPE) with false.
    change (bytes_eqb KIND_INDEX KIND_INDEX) with true. cbv iota.
    pose proof (index_def_write d name [] Hok) as R. rewrite app_nil_r in R. by rewrite R.
Qed.

Lemma schema_decode_iff key value e :
  (Z.of_nat (length key) < 2 ^ 63)%Z -> (Z.of_nat (length value) < 2 ^ 63)%Z ->
  schema_decode key value = Ok e <->
  schema_entry_ok e /\ map_key e = Ok key /\ schema_encode_value e = value.
Proof.
  intros Hkl Hvl. split; [|intros (Hok & Hk & <-); by apply schema_decode_encode].
  unfold schema_decode. intros H. apply rbind_Ok in H as (t & Ht & H).
  apply map_err_Ok, decode_key_Ok in Ht as (He & _ & Hok). specialize (Hok Hkl).
  destruct t as [|v1 [|v2 [|]]]; try done; [by destruct v1|..]; destruct v1 as [| | | |kind| | | | | |]; try done.
  2: { by destruct v2. }
  destruct v2 as [| | | |name| | | | | |]; try done.
  rewrite !tuple_ok_cons in Hok. destruct Hok as (_ & Hn & _).
  destruct (is_empty name) eqn:Hne; [done|].
  apply rbind_Ok in H as ([e' rest] & H & Hend). destruct rest; [|done]. apply Ok_inj in Hend as ->.
  unfold bytes_eqb in H. repeat case_bool_decide; try done; subst kind;
    apply rbind_Ok in H as ([d r] & Hd & [= <- ->]%Ok_inj).
  - apply (label_def_read _ _ _ name) in Hd as [-> Hd]; [|done]. rewrite app_nil_r. by unfold schema_entry_ok.
  - apply (rel_type_def_read _ _ _ name) in Hd as [-> Hd]; [|done]. rewrite app_nil_r. by unfold schema_entry_ok.
  - apply (index_def_read _ _ _ name) in Hd as [-> Hd]; [|done]. rewrite app_nil_r. by unfold schema_entry_ok.
Qed.

(** Schema rows are canonical: a key and value decode to an entry exactly
    when the entry is valid and they are its key and its encoding. *)
Lemma schema_codec key value e :
  (Z.of_nat (length key) < 2 ^ 63)%Z -> (Z.of_nat (length value) < 2 ^ 63)%Z ->
  schema_decode key value = Ok e <->
  schema_entry_ok e /\ map_key e = Ok key /\ schema_encode_value e = value.
Proof. apply schema_decode_iff. Qed.

(** ** What the constructors guarantee *)

Lemma existsb_is_empty l : existsb is_empty l = false <-> [] ∉ l.
Proof.
  induction l as [|x l IH]; [cbn; split; [intros _ H; by apply elem_of_nil in H|done]|].
  cbn [existsb]. rewrite orb_false_iff, IH, elem_of_cons. destruct x; cbn; intuition congruence.
Qed.

#[local] Instance bytes_le_total : Total bytes_le.
Proof. intros a b. unfold bytes_le. rewrite (bytes_cmp_sym a b). destruct (bytes_cmp a b); auto; by right. Qed.
#[local] Instance bytes_le_transitive : Transitive bytes_le.
Proof. intros a b c. rewrite !bytes_le_lteq. intros [H| ->] [H'| ->]; auto. left. by etrans. Qed.

(** The sort and length test of the source is distinctness. *)
Lemma distinct_test l : (length (dedup (merge_sort bytes_le l)) =? length l) = true <-> NoDup l.
Proof.
  rewrite Nat.eqb_eq. set (s := merge_sort bytes_le l).
  assert (s ≡ₚ l) as Hp by apply merge_sort_Permutation.
  assert (StronglySorted bytes_le s) as Hs by (apply Sorted_StronglySorted, Sorted_merge_sort; apply _).
  pose proof (dedup_sorted bytes_lt bytes_le s bytes_le_lteq Hs) as Hd. rewrite <-Hp. split.
  - intros Hl. apply dedup_length_id in Hl. rewrite <-Hl. by apply (strongly_sorted_NoDup bytes_lt).
  - intros Hn. apply Permutation_length, NoDup_Permutation; [by apply (strongly_sorted_NoDup bytes_lt)|done|].
    intros x. apply dedup_elem.
Qed.

(** C39: every label definition the constructors return is well formed: its
    key is a non-empty tuple of distinct, non-empty names, [_id] alone when
    surrogate; its constraint sets are exactly those given, strictly ascending
    and without empty names; no key property is constrained unique. *)
Theorem label_def_valid k s t e u d :
  label_def_build k s t e u = Ok d ->
  (lkey d = k /\ k <> [] /\ NoDup k /\ ([] ∉ k) /\ (surrogate d = true -> lkey d = [SURROGATE_KEY_PROPERTY])) /\
  (ltypes d = t /\ t !! [] = None) /\
  (StronglySorted canonical_lt (lexists d) /\ ([] ∉ lexists d) /\ (forall x, x ∈ lexists d <-> x ∈ e)) /\
  (StronglySorted canonical_lt (lunique d) /\ ([] ∉ lunique d) /\ (forall x, x ∈ lunique d <-> x ∈ u)) /\
  (forall x, x ∈ lunique d -> x ∉ lkey d).
Proof.
  unfold label_def_build. destruct (Nat.eqb_spec (length k) 0) as [|Hk0]; [done|].
  destruct (existsb is_empty k) eqn:Hke; [done|].
  destruct (length (dedup (merge_sort bytes_le k)) =? length k) eqn:Hd; [|done]. cbn [negb].
  destruct (s && negb (bool_decide (k = [SURROGATE_KEY_PROPERTY]))) eqn:Hs; [done|].
  intros H. apply rbind_Ok in H as ([] & Ht & H). apply rbind_Ok in H as (e' & He & H).
  apply rbind_Ok in H as (u' & Hu & H).
  destruct (existsb (fun u => bool_decide (u ∈ k)) u') eqn:Hx; [done|]. apply Ok_inj in H as <-.
  cbn [lkey surrogate ltypes lexists lunique].
  unfold normalise_names in He, Hu. destruct (existsb is_empty e) eqn:Ee; [done|].
  destruct (existsb is_empty u) eqn:Eu; [done|]. apply Ok_inj in He as <-, Hu as <-.
  apply existsb_is_empty in Hke, Ee, Eu. apply distinct_test in Hd.
  split; [|split; [|split; [|split]]].
  - split; [done|]. split; [by destruct k|]. split; [done|]. split; [done|]. intros ->. cbn in Hs.
    by apply negb_false_iff, bool_decide_eq_true in Hs.
  - split; [done|]. unfold check_types in Ht. case_match eqn:Et; [done|]. apply existsb_is_empty in Et.
    destruct (t !! []) as [v|] eqn:E; [|done]. destruct Et. apply elem_of_map_to_list in E.
    by apply (list_elem_of_fmap_2 fst _ _ E).
  - split; [apply normalise_strings_ascending|]. split; [by rewrite normalise_strings_elem|]. apply normalise_strings_elem.
  - split; [apply normalise_strings_ascending|]. split; [by rewrite normalise_strings_elem|]. apply normalise_strings_elem.
  - intros x Hin Hxk. apply not_true_iff_false in Hx. apply Hx. apply existsb_exists. exists x.
    split; [by apply list_elem_of_In|by apply bool_decide_eq_true].
Qed.

(** A surrogate label keys on exactly the string property [_id]: the
    declared types are kept with [_id] added, and a declaration of [_id] with
    another type is refused. *)
Lemma label_def_surrogate_key t e u :
  match t !! SURROGATE_KEY_PROPERTY with
  | Some ty =>
    ty <> TString -> label_def_surrogate t e u =
      Err (InvalidKey "a surrogate _id is a ULID string; it cannot be declared another type")
  | None => True
  end /\
  forall d, label_def_surrogate t e u = Ok d ->
    lkey d = [SURROGATE_KEY_PROPERTY] /\ surrogate d = true /\
    ltypes d !! SURROGATE_KEY_PROPERTY = Some TString /\
    forall p, p <> SURROGATE_KEY_PROPERTY -> ltypes d !! p = t !! p.
Proof.
  unfold label_def_surrogate. split; [by destruct (t !! SURROGATE_KEY_PROPERTY) as [[]|]|].
  intros d H. assert (label_def_build [SURROGATE_KEY_PROPERTY] true (<[SURROGATE_KEY_PROPERTY := TString]> t) e u = Ok d) as Hb
    by (by destruct (t !! SURROGATE_KEY_PROPERTY) as [[]|]).
  apply label_def_build_Ok in Hb as ->. cbn [lkey surrogate ltypes]. split_and!; [done|done|apply lookup_insert_eq|].
  intros p Hp. by apply lookup_insert_ne.
Qed.

(** Type conformance: a value conforms to a declared type exactly when it
    is null, or its own type is the declared one, or an integer is given for a
    float. *)
Lemma type_matches_spec t v :
  type_matches t v = true <->
  type_of v = None \/ type_of v = Some t \/ (t = TFloat /\ type_of v = Some TInt).
Proof.
  destruct t, v; cbn; split; intros H; try done; auto 8;
    repeat match goal with H : _ \/ _ |- _ => destruct H as [H|H] | H : _ /\ _ |- _ => destruct H end; done.
Qed.

(** The rows of a kind: the prefix of a kind exists, and the schema keys
    that start with it are exactly those of the entries of the kind. *)
Lemma schema_kind_scan e kind k :
  schema_entry_ok e -> str_ok kind = true -> map_key e = Ok k ->
  exists p, schema_kind_prefix kind = Ok p /\
    (starts_with k p = true <->
     kind = match e with LabelEntry _ _ => KIND_LABEL | RelTypeEntry _ _ => KIND_RTYPE | IndexDefEntry _ _ => KIND_INDEX end).
Proof.
  intros (Hn & _) Hkind Hk. destruct kinds_ok as (KL & KR & KI). eexists. split; [reflexivity|].
  set (kind' := match e with LabelEntry _ _ => _ | _ => _ end).
  assert (encode_key [VString kind'; VString (entry_name e)] = Ok k) as Hk' by (by destruct e).
  assert (str_ok kind' = true) as Hk'' by (by destruct e).
  assert (tuple_ok [VString kind]) as T1 by (rewrite !tuple_ok_cons; auto using tuple_ok_nil).
  assert (tuple_ok [VString kind'; VString (entry_name e)]) as T2 by (rewrite !tuple_ok_cons; auto using tuple_ok_nil).
  rewrite (encode_key_starts_with _ _ _ _ T1 T2 eq_refl Hk'). cbn [map normal app]. split.
  - intros [c [= -> _]]. done.
  - intros ->. by eexists.
Qed.

(** ** Surrogate identifiers sort by time *)

Section base32.
Local Open Scope Z_scope.

Definition b32_digit (d : Z) : byte := nth (Z.to_nat d) ALPHABET x00.

Fixpoint base32 (n : nat) (v : Z) : bytes :=
  match n with O => [] | S n => b32_digit (v / 32 ^ Z.of_nat n mod 32) :: base32 n v end.

Lemma b32_digit_cmp d e : 0 <= d < 32 -> 0 <= e < 32 -> byte_cmp (b32_digit d) (b32_digit e) = (d ?= e).
Proof.
  intros Hd He. unfold b32_digit. rewrite <-(Z2Nat.id d), <-(Z2Nat.id e) at 2 by lia. rewrite Nat2Z.inj_compare.
  assert (forallb (fun i => forallb (fun j =>
    match byte_cmp (nth i ALPHABET x00) (nth j ALPHABET x00), (i ?= j)%nat with
    | Lt, Lt | Eq, Eq | Gt, Gt => true | _, _ => false end) (seq 0 32)) (seq 0 32) = true) as H by (vm_compute; reflexivity).
  rewrite forallb_forall in H. specialize (H (Z.to_nat d) ltac:(apply in_seq; lia)).
  rewrite forallb_forall in H. specialize (H (Z.to_nat e) ltac:(apply in_seq; lia)).
  revert H. generalize (byte_cmp (nth (Z.to_nat d) ALPHABET x00) (nth (Z.to_nat e) ALPHABET x00)).
  generalize (Nat.compare (Z.to_nat d) (Z.to_nat e)). by intros [] [].
Qed.

Lemma base32_split n v : 0 <= v -> v mod 32 ^ Z.of_nat (S n) = 32 ^ Z.of_nat n * (v / 32 ^ Z.of_nat n mod 32) + v mod 32 ^ Z.of_nat n.
Proof.
  intros Hv. rewrite Nat2Z.inj_succ, Z.pow_succ_r, Z.mul_comm by lia.
  rewrite Z.rem_mul_r by lia. lia.
Qed.

Lemma base32_cmp n v w : 0 <= v -> 0 <= w ->
  bytes_cmp (base32 n v) (base32 n w) = (v mod 32 ^ Z.of_nat n ?= w mod 32 ^ Z.of_nat n).
Proof.
  intros Hv Hw. induction n as [|n IH]; [by rewrite !Z.mod_1_r|]. cbn [base32].
  rewrite bytes_cmp_cons, IH, b32_digit_cmp by (apply Z.mod_pos_bound; lia). rewrite !base32_split by done.
  pose proof (Z.mod_pos_bound v (32 ^ Z.of_nat n) ltac:(lia)). pose proof (Z.mod_pos_bound w (32 ^ Z.of_nat n) ltac:(lia)).
  set (p := 32 ^ Z.of_nat n) in *. set (a := v / p mod 32). set (b := w / p mod 32).
  destruct (Z.compare_spec a b) as [->|Hab|Hab]; cbn [cmp_then].
  - destruct (Z.compare_spec (v mod p) (w mod p)); symmetry; rewrite ?Z.compare_eq_iff, ?Z.compare_lt_iff, ?Z.compare_gt_iff; lia.
  - symmetry. apply Z.compare_lt_iff. nia.
  - symmetry. apply Z.compare_gt_iff. nia.
Qed.

Lemma length_base32 n v : length (base32 n v) = n.
Proof. induction n; cbn; auto. Qed.

Lemma base32_map n v : 0 <= v ->
  base32 n v = map (fun i => b32_digit (Z.land (Z.shiftr v (5 * (Z.of_nat n - 1 - Z.of_nat i))) 0x1f)) (seq 0 n).
Proof.
  intros Hv. induction n as [|n IH]; [done|]. cbn [seq base32 map]. rewrite <-seq_shift, map_map, IH. f_equal.
  - change 0x1f with (Z.ones 5). rewrite Z.land_ones by lia. rewrite Z.shiftr_div_pow2 by lia.
    f_equal. f_equal. f_equal. rewrite Z.pow_mul_r by lia. f_equal. lia.
  - apply map_ext. intros i. f_equal. f_equal. f_equal. lia.
Qed.

Lemma mint_base32 clock random : 0 <= surrogate_value clock random -> mint_surrogate_id clock random = base32 26 (surrogate_value clock random).
Proof. intros H. rewrite base32_map by done. unfold mint_surrogate_id. apply map_ext. intros i. unfold b32_digit. do 3 f_equal. f_equal. lia. Qed.

Lemma surrogate_value_spec ms random : 0 <= ms < 2 ^ 48 -> length random = 10%nat ->
  surrogate_value (Some ms) random = ms * 2 ^ 80 + be_Z random /\ 0 <= be_Z random < 2 ^ 80.
Proof.
  intros Hm Hr. unfold surrogate_value, to_unsigned. rewrite (Z.mod_small ms) by lia.
  change (Z.shiftl 1 48 - 1) with (Z.ones 48). rewrite Z.land_ones, Z.mod_small by lia.
  pose proof (be_Z_bound random) as Hb. rewrite Hr in Hb. change (256 ^ Z.of_nat 10) with (2 ^ 80) in Hb. split; [|done].
  rewrite be_Z_app, Hr. change (256 ^ Z.of_nat 10) with (2 ^ 80). f_equal. f_equal.
  assert (be_Z (be_bytes 8 ms) = ms) as E.
  { rewrite be_Z_be_bytes. apply Z.mod_small. change (256 ^ Z.of_nat 8) with (2 ^ 64). lia. }
  rewrite <-E at 2. rewrite <-(take_drop 2 (be_bytes 8 ms)) at 2. rewrite be_Z_app.
  assert (take 2 (be_bytes 8 ms) = [x00; x00]) as ->; [|done].
  rewrite !be_bytes_S. cbn [take]. rewrite !Z.div_small by (change (256 ^ Z.of_nat 7) with (2 ^ 56) || change (256 ^ Z.of_nat 6) with (2 ^ 48); lia).
  done.
Qed.

(** Surrogate identifiers are 26 characters that name the millisecond and
    the random bits faithfully, and sort by time: an identifier minted in an
    earlier millisecond is byte-wise smaller, whatever the random bits. *)
Lemma mint_sortable ms ms' r r' :
  0 <= ms < 2 ^ 48 -> 0 <= ms' < 2 ^ 48 -> length r = 10%nat -> length r' = 10%nat ->
  length (mint_surrogate_id (Some ms) r) = 26%nat /\
  (ms < ms' -> bytes_lt (mint_surrogate_id (Some ms) r) (mint_surrogate_id (Some ms') r')) /\
  (mint_surrogate_id (Some ms) r = mint_surrogate_id (Some ms') r' -> ms = ms' /\ r = r').
Proof.
  intros Hm Hm' Hr Hr'. destruct (surrogate_value_spec ms r Hm Hr) as [Ev Hb].
  destruct (surrogate_value_spec ms' r' Hm' Hr') as [Ev' Hb'].
  assert (forall v, 0 <= v < 2 ^ 128 -> v mod 32 ^ Z.of_nat 26 = v) as Hsmall.
  { intros v Hv. apply Z.mod_small. split; [lia|]. eapply Z.lt_trans; [apply Hv|reflexivity]. }
  assert (0 <= surrogate_value (Some ms) r < 2 ^ 128) as Hv by lia.
  assert (0 <= surrogate_value (Some ms') r' < 2 ^ 128) as Hv' by lia.
  rewrite !mint_base32 by lia. split; [apply length_base32|].
  unfold bytes_lt. rewrite <-bytes_cmp_eq, base32_cmp, !Hsmall by lia.
  rewrite Z.compare_lt_iff, Z.compare_eq_iff, Ev, Ev'. split; [lia|]. intros E.
  assert (ms = ms') as -> by lia. split; [done|]. apply be_Z_inj; [congruence|lia].
Qed.

Lemma mint_sortable_witness :
  bytes_lt (mint_surrogate_id (Some 1700000000000) (repeat xff 10)) (mint_surrogate_id (Some 1700000000001) (repeat x00 10)).
Proof. apply mint_sortable; done. Defined.
End base32.

(** ** The theorems at a concrete entry *)

Definition sample_types : types_map := {[ text "age" := TInt ]}.
Definition sample_label : LabelDef :=
  mkLabelDef [text "name"; text "born"] false sample_types [text "age"] [text "ssn"; text "email"].
Definition sample_entry : SchemaEntry := LabelEntry (text "Person") sample_label.
Definition sample_entry_key : bytes := Eval vm_compute in bytes_of (map_key sample_entry).
Definition sample_entry_value : bytes := Eval vm_compute in schema_encode_value sample_entry.

Lemma sample_names_ok names :
  forallb str_ok names && len_ok names = true -> Forall (fun s => str_ok s = true) names /\ len_ok names = true.
Proof.
  rewrite andb_true_iff. intros [H Hl]. split; [|done]. rewrite Forall_forall. intros x Hx.
  rewrite forallb_forall in H. by apply H, list_elem_of_In.
Qed.

Lemma sample_sorted_ok names :
  forallb str_ok names && len_ok names = true -> normalise_strings names = names -> name_list_ok true names.
Proof. intros [H1 H2]%sample_names_ok H3. split; [done|]. split; [done|]. intros _. rewrite <-H3. apply normalise_strings_ascending. Qed.

Lemma sample_types_ok : types_ok sample_types.
Proof. split; [|vm_compute; reflexivity]. apply map_Forall_singleton. split; [split|]; vm_compute; reflexivity. Qed.

Lemma sample_entry_ok : schema_entry_ok sample_entry.
Proof.
  split; [vm_compute; reflexivity|]. split; [vm_compute; reflexivity|]. split; [vm_compute; reflexivity|].
  split; [|split; [apply sample_types_ok|split]].
  - apply and_assoc. split; [apply sample_names_ok; vm_compute; reflexivity|done].
  - apply sample_sorted_ok; vm_compute; reflexivity.
  - apply sample_sorted_ok; vm_compute; reflexivity.
Qed.

Lemma schema_codec_witness : schema_decode sample_entry_key sample_entry_value = Ok sample_entry.
Proof.
  apply schema_codec; [vm_compute; reflexivity..|]. split; [apply sample_entry_ok|].
  split; vm_compute; reflexivity.
Defined.

Lemma label_def_valid_witness :
  lkey sample_label = [text "name"; text "born"] /\ forall x, x ∈ lunique sample_label -> x ∉ lkey sample_label.
Proof.
  destruct (label_def_valid [text "name"; text "born"] false sample_types [text "age"] [text "email"; text "ssn"; text "email"] sample_label)
    as ((Hk & _) & _ & _ & _ & Hu); [vm_compute; reflexivity|]. split; assumption.
Defined.

Lemma label_def_surrogate_key_witness :
  exists d, label_def_surrogate sample_types [] [] = Ok d /\ lkey d = [SURROGATE_KEY_PROPERTY] /\
    ltypes d !! SURROGATE_KEY_PROPERTY = Some TString.
Proof.
  eexists. split; [vm_compute; reflexivity|].
  destruct (label_def_surrogate_key sample_types [] []) as [_ H].
  destruct (H _ ltac:(vm_compute; reflexivity)) as (H1 & _ & H2 & _). split; assumption.
Defined.

Lemma schema_kind_scan_witness :
  exists p, schema_kind_prefix KIND_INDEX = Ok p /\ (starts_with sample_entry_key p = true <-> KIND_INDEX = KIND_LABEL).
Proof.
  apply (schema_kind_scan sample_entry KIND_INDEX); [apply sample_entry_ok|vm_compute; reflexivity|vm_compute; reflexivity].
Defined.
