(* ===== verification/Store.v ===== *)
(** * The chunk store's contract (acetone-store/src/store.rs, hash.rs, error.rs)

    The prolly layer programs against the [ChunkStore] trait, so the model
    does too: [ChunkStore] is the trait's operations over a store state, and
    [ChunkStoreLaws] is the contract its documentation makes normative.  The
    trait's methods take [&self]; an implementation mutates behind it, so
    [put] returns the state it leaves.  [MemStore] discharges the laws with a
    finite map, for any address function. *)
From S2P Require Import Prelude.
From Stdlib Require Import Eqdep_dec.

(** ** Addresses

    [Hash] wraps a git object id, 20 bytes for SHA-1 and 32 for SHA-256. *)

Definition hash_width (b : bytes) : bool :=
  (length b =? 20)%nat || (length b =? 32)%nat.

Record Hash : Type := mkHash { as_bytes : bytes; hash_width_ok : hash_width as_bytes = true }.

(** The errors of the store layer.  [StoreCorrupt] is the source's
    [StoreError::Corrupt]. *)
Inductive StoreError : Type :=
| NotARepository (start : string)
| ObjectTooLarge (size limit : Z)
| WrongObjectKind (hash : Hash) (expected actual : string)
| InvalidRefName (name reason : string)
| SymbolicRef (name : string)
| CasFailed (name : string)
| InvalidHash (reason : string)
| InvalidAnchor (hash : Hash) (reason : string)
| InvalidTrailer (token reason : string)
| InvalidSignature (reason : string)
| SignedTag (name : string)
| SignedTagCreation (name : string)
| StoreCorrupt (context reason : string)
| Backend (context cause : string).

Definition hash_from_bytes (b : bytes) : result StoreError Hash :=
  match decide (hash_width b = true) with
  | left H => Ok (mkHash b H)
  | right _ => Err (InvalidHash "not a supported digest length")
  end.

Lemma hash_eq h k : as_bytes h = as_bytes k -> h = k.
Proof.
  destruct h as [b Hb], k as [c Hc]. simpl. intros <-. f_equal.
  apply UIP_dec, Bool.bool_dec.
Qed.

#[global] Instance hash_eq_dec : EqDecision Hash.
Proof.
  intros h k. destruct (decide (as_bytes h = as_bytes k)) as [E|E].
  - left. by apply hash_eq.
  - right. intros ->. by apply E.
Defined.

Lemma hash_from_as_bytes h : hash_from_bytes (as_bytes h) = Ok h.
Proof.
  unfold hash_from_bytes. destruct (decide _) as [H|H].
  - f_equal. by apply hash_eq.
  - destruct h as [b Hb]. done.
Qed.

Lemma hash_from_bytes_Ok b h : hash_from_bytes b = Ok h -> as_bytes h = b.
Proof. unfold hash_from_bytes. destruct (decide _); [|done]. by intros [= <-]. Qed.

Lemma length_as_bytes h :
  length (as_bytes h) = 20%nat \/ length (as_bytes h) = 32%nat.
Proof.
  destruct h as [b Hb]. simpl. unfold hash_width in Hb.
  apply orb_true_iff in Hb as [H%Nat.eqb_eq|H%Nat.eqb_eq]; auto.
Qed.

(** Addresses are ordered as their bytes, for sets and sorted output. *)
#[global] Instance hash_countable : Countable Hash.
Proof.
  apply (inj_countable as_bytes (fun b => match hash_from_bytes b with Ok h => Some h | Err _ => None end)).
  intros h. by rewrite hash_from_as_bytes.
Defined.

(** ** The trait *)

Class ChunkStore (S : Type) : Type := {
  put : S -> bytes -> result StoreError Hash * S;
  get : S -> Hash -> result StoreError (option bytes);
  max_chunk_size : S -> Z
}.

(** The default [put_batch]: one [put] per chunk, stopping at the first
    error. *)
Fixpoint put_batch {S : Type} {CS : ChunkStore S} (s : S) (chunks : list bytes)
    : result StoreError (list Hash) * S :=
  match chunks with
  | [] => (Ok [], s)
  | chunk :: rest =>
    match put s chunk with
    | (Err e, s) => (Err e, s)
    | (Ok h, s) =>
      match put_batch s rest with
      | (Err e, s) => (Err e, s)
      | (Ok hs, s) => (Ok (h :: hs), s)
      end
    end
  end.

(** The documented contract: the address of a chunk is a pure function of its
    bytes, a stored chunk can be read back, storing never disturbs a chunk
    already there, and oversized chunks are refused. *)
Class ChunkStoreLaws (S : Type) {CS : ChunkStore S} : Type := {
  address : bytes -> Hash;
  put_address s d h s' : put s d = (Ok h, s') -> h = address d;
  put_get s d h s' : put s d = (Ok h, s') -> get s' h = Ok (Some d);
  put_keeps s d r s' h d' :
    put s d = (r, s') -> get s h = Ok (Some d') -> get s' h = Ok (Some d');
  put_cap s d :
    (max_chunk_size s < Z.of_nat (length d))%Z ->
    exists s', put s d = (Err (ObjectTooLarge (Z.of_nat (length d)) (max_chunk_size s)), s')
}.

(** What a store holds, as a relation; the laws say it only grows. *)
Definition holds {S : Type} {CS : ChunkStore S} (s : S) (h : Hash) (d : bytes) : Prop :=
  get s h = Ok (Some d).

Definition extends {S : Type} {CS : ChunkStore S} (s s' : S) : Prop :=
  forall h d, holds s h d -> holds s' h d.

#[global] Instance extends_preorder {S : Type} {CS : ChunkStore S} : PreOrder (@extends S CS).
Proof.
  split; [by intros s h d|]. intros s t u H1 H2 h d H. by apply H2, H1.
Qed.

Lemma holds_functional {S : Type} {CS : ChunkStore S} (s : S) h d d' :
  holds s h d -> holds s h d' -> d = d'.
Proof. unfold holds. congruence. Qed.

Section laws.
Context {S : Type} {CS : ChunkStore S} {CSL : ChunkStoreLaws S}.

Lemma put_extends (s : S) d r s' : put s d = (r, s') -> extends s s'.
Proof. intros H h d'. by apply (put_keeps s d r s'). Qed.

Lemma put_holds (s : S) d h s' : put s d = (Ok h, s') -> h = address d /\ holds s' (address d) d.
Proof.
  intros H. pose proof (put_address _ _ _ _ H) as ->. split; [done|]. by apply (put_get s d).
Qed.
End laws.

(** ** A store in memory

    It refuses a chunk whose address is already taken by other bytes (git
    detects such collisions), so it keeps the contract for every address
    function. *)
Section mem_store.
Context (addr : bytes -> Hash) (cap : Z).

Record MemStore : Type := mkMemStore { chunks : gmap Hash bytes }.

Definition mem_put (s : MemStore) (d : bytes) : result StoreError Hash * MemStore :=
  if (cap <? Z.of_nat (length d))%Z then (Err (ObjectTooLarge (Z.of_nat (length d)) cap), s)
  else match chunks s !! addr d with
  | None => (Ok (addr d), mkMemStore (<[addr d := d]> (chunks s)))
  | Some d' =>
    if bool_decide (d = d') then (Ok (addr d), s)
    else (Err (Backend "put" "address collision"), s)
  end.

#[local] Instance MemStore_store : ChunkStore MemStore := {
  put := mem_put;
  get s h := Ok (chunks s !! h);
  max_chunk_size _ := cap
}.

#[local] Program Instance MemStore_laws : ChunkStoreLaws MemStore := { address := addr }.
Next Obligation.
  intros s d h s'. cbn. unfold mem_put. repeat case_match; congruence.
Qed.
Next Obligation.
  intros s d h s'. cbn. unfold mem_put. repeat case_match; intros [= <- <-]; f_equal.
  - by match goal with H : bool_decide _ = true |- _ => apply bool_decide_eq_true in H as -> end.
  - apply lookup_insert_eq.
Qed.
Next Obligation.
  intros s d r s' h d'. cbn. unfold mem_put.
  repeat case_match; intros [= <- <-] [= H']; f_equal; try done.
  cbn. rewrite lookup_insert_ne; [done|congruence].
Qed.
Next Obligation.
  intros s d Hd. cbn in *. unfold mem_put. apply Z.ltb_lt in Hd as ->. by eexists.
Qed.

Definition mem_empty : MemStore := mkMemStore ∅.
End mem_store.

(** A concrete address function for examples: a polynomial hash kept to 20
    bytes. *)
Definition sample_digest (d : bytes) : Z :=
  fold_left (fun h b => (h * 1000003 + b2z b + 1) `mod` 2 ^ 160)%Z d 7%Z.

Lemma sample_width d : hash_width (be_bytes 20 (sample_digest d)) = true.
Proof. unfold hash_width. by rewrite length_be_bytes. Qed.

Definition sample_address (d : bytes) : Hash := mkHash (be_bytes 20 (sample_digest d)) (sample_width d).

(** The example store: 64 MiB objects at [sample_address]. *)
Definition SampleStore : Type := MemStore.
Definition sample_empty : SampleStore := mem_empty.
#[global] Instance SampleStore_store : ChunkStore SampleStore :=
  MemStore_store sample_address 67108864.
#[global] Instance SampleStore_laws : ChunkStoreLaws SampleStore :=
  MemStore_laws sample_address 67108864.
