(* ===== verification/Chunker.v ===== *)
(** * Content-defined chunking (acetone-prolly/src/chunker.rs, error.rs)

    The gear rolling hash over the serialised entries of one level, with the
    boundary test at each entry's end.  [Chunker] is the rolling state,
    [feed_entry] the transition, [reset] the state after a cut. *)
From S2P Require Import Prelude Store.

Local Open Scope Z_scope.

(** ** The errors of the prolly layer

    Reasons are the message's fixed text; the numbers a message formats into
    it are dropped. *)
Inductive ProllyError : Type :=
| PStore (e : StoreError)
| MissingChunk (hash : Hash)
| Corrupt (context reason : string)
| InvalidParams (reason : string)
| InvalidRoot (reason : string)
| KeyTooLong (len max : Z)
| ValueTooLong (len max : Z)
| TooManyEntries
| ParamsMismatch.

(** ** Parameters *)

Definition MAX_CHUNK_MAX_BYTES : Z := Z.shiftl 1 20.

Record ChunkParams : Type := mkParams { min_bytes : Z; mask_bits : Z; max_bytes : Z }.

#[global] Instance ChunkParams_eq_dec : EqDecision ChunkParams.
Proof. solve_decision. Defined.

Definition default_params : ChunkParams :=
  {| min_bytes := 1024; mask_bits := 12; max_bytes := 16384 |}.

Definition params_new (min_bytes mask_bits max_bytes : Z) : result ProllyError ChunkParams :=
  if min_bytes =? 0 then Err (InvalidParams "min_bytes must be at least 1")
  else if max_bytes <? min_bytes then Err (InvalidParams "min_bytes exceeds max_bytes")
  else if MAX_CHUNK_MAX_BYTES <? max_bytes
  then Err (InvalidParams "max_bytes exceeds the format maximum")
  else if 64 <=? mask_bits then Err (InvalidParams "mask_bits must be below 64")
  else Ok (mkParams min_bytes mask_bits max_bytes).

(** The mask [(1u64 << mask_bits) - 1]. *)
Definition mask (p : ChunkParams) : Z := Z.shiftl 1 (mask_bits p) - 1.

(** The invariant every [ChunkParams] value satisfies. *)
Definition params_ok (p : ChunkParams) : bool :=
  (1 <=? min_bytes p) && (min_bytes p <=? max_bytes p)
  && (max_bytes p <=? MAX_CHUNK_MAX_BYTES) && (0 <=? mask_bits p) && (mask_bits p <? 64).

Lemma params_new_ok mn mb mx p :
  is_u32 mn = true -> is_u32 mb = true -> is_u32 mx = true ->
  params_new mn mb mx = Ok p <-> p = mkParams mn mb mx /\ params_ok p = true.
Proof.
  intros Hmn Hmb Hmx. unrange. unfold params_new, params_ok.
  rewrite !andb_true_iff, !Z.leb_le, Z.ltb_lt.
  destruct (Z.eqb_spec mn 0), (Z.ltb_spec mx mn), (Z.ltb_spec MAX_CHUNK_MAX_BYTES mx),
    (Z.leb_spec 64 mb); split; intros H';
    try done; try (match type of H' with _ /\ _ => destruct H' as [-> Hok]; cbn in Hok; lia end).
  - apply Ok_inj in H' as <-. cbn. split; [done|lia].
  - destruct H' as [-> _]. done.
Qed.

(** ** The gear table *)

Definition wrapping_u64 (z : Z) : Z := z `mod` 2 ^ 64.

(** One splitmix64 step: the new state and the table slot. *)
Definition splitmix64 (state : Z) : Z * Z :=
  let state := wrapping_u64 (state + 0x9e3779b97f4a7c15) in
  let z := state in
  let z := wrapping_u64 (Z.lxor z (Z.shiftr z 30) * 0xbf58476d1ce4e5b9) in
  let z := wrapping_u64 (Z.lxor z (Z.shiftr z 27) * 0x94d049bb133111eb) in
  (state, Z.lxor z (Z.shiftr z 31)).

Fixpoint gear_slots (n : nat) (state : Z) : list Z :=
  match n with
  | O => []
  | S n => let '(state, slot) := splitmix64 state in slot :: gear_slots n state
  end.

Definition gear_table : list Z := gear_slots 256 0x9ae16a3b2f90404f.
Definition GEAR : list Z := Eval vm_compute in gear_table.

Lemma GEAR_table : GEAR = gear_table.
Proof. vm_compute. reflexivity. Qed.

Definition gear (b : byte) : Z := nth (Z.to_nat (b2z b)) GEAR 0.

(** ** The rolling state *)

Record Chunker : Type := mkChunker { c_params : ChunkParams; c_hash : Z; c_len : Z; c_entries : Z }.

Definition chunker_new (p : ChunkParams) : Chunker := mkChunker p 0 0 0.

(** The byte loop: [hash.wrapping_shl(1).wrapping_add(GEAR[b])]. *)
Definition gear_fold (hash : Z) (bs : bytes) : Z :=
  fold_left (fun h b => wrapping_u64 (wrapping_u64 (Z.shiftl h 1) + gear b)) bs hash.

(** [len] and [entries] are [u64] additions that cannot overflow: see
    [feed_all_bounds]. *)
Definition feed_entry (c : Chunker) (bs : bytes) : bool * Chunker :=
  let c := mkChunker (c_params c) (gear_fold (c_hash c) bs)
             (c_len c + Z.of_nat (length bs)) (c_entries c + 1) in
  (if c_entries c <? 2 then false
   else if max_bytes (c_params c) <=? c_len c then true
   else (min_bytes (c_params c) <=? c_len c)
        && (Z.land (c_hash c) (mask (c_params c)) <? Z.of_nat (length bs)), c).

Arguments feed_entry : simpl never.

Definition reset (c : Chunker) : Chunker := mkChunker (c_params c) 0 0 0.

Lemma reset_new c : reset c = chunker_new (c_params c).
Proof. done. Qed.

Lemma feed_entry_params c bs : c_params (feed_entry c bs).2 = c_params c.
Proof. done. Qed.

(** ** Runs of entries that stay within one chunk *)

(** Feed a run; [None] when an entry cuts. *)
Fixpoint feed_all (c : Chunker) (es : list bytes) : option Chunker :=
  match es with
  | [] => Some c
  | e :: es =>
    match feed_entry c e with
    | (true, _) => None
    | (false, c) => feed_all c es
    end
  end.

(** A chunk the content cuts exactly at its end, and one the stream's end
    closes. *)
Definition good_chunk (p : ChunkParams) (es : list bytes) : Prop :=
  exists front e c, es = front ++ [e] /\ feed_all (chunker_new p) front = Some c /\
    (feed_entry c e).1 = true.
Definition tail_chunk (p : ChunkParams) (es : list bytes) : Prop :=
  es <> [] /\ exists c, feed_all (chunker_new p) es = Some c.

Lemma feed_all_app c es fs :
  feed_all c (es ++ fs) = match feed_all c es with Some c => feed_all c fs | None => None end.
Proof.
  revert c. induction es as [|e es IH]; intros c; cbn [feed_all app]; [done|].
  destruct (feed_entry c e) as [[] c']; [done|]. apply IH.
Qed.

Lemma feed_all_params c es c' : feed_all c es = Some c' -> c_params c' = c_params c.
Proof.
  revert c. induction es as [|e es IH]; cbn [feed_all]; intros c; [by intros [= ->]|].
  destruct (feed_entry c e) as [[] c1] eqn:E; [done|]. intros H. rewrite (IH _ H).
  by injection E as _ <-.
Qed.

Lemma feed_all_counts c es c' :
  feed_all c es = Some c' ->
  c_entries c' = c_entries c + Z.of_nat (length es) /\
  c_len c' = c_len c + Z.of_nat (length (concat es)).
Proof.
  revert c. induction es as [|e es IH]; cbn [feed_all]; intros c.
  - intros [= ->]. simpl. lia.
  - destruct (feed_entry c e) as [[] c1] eqn:E; [done|]. intros H.
    destruct (IH _ H) as [-> ->]. unfold feed_entry in E. injection E as _ <-.
    cbn [c_entries c_len concat length]. rewrite length_app. lia.
Qed.

(** Without a cut, a chunk of two entries or more is under [max_bytes]. *)
Lemma feed_all_bounds p es c :
  feed_all (chunker_new p) es = Some c -> (2 <= length es)%nat ->
  Z.of_nat (length (concat es)) < max_bytes p.
Proof.
  intros H Hl. destruct (exists_last (l := es)) as (front & e & ->); [by destruct es; [simpl in Hl; lia|]|].
  rewrite feed_all_app in H. destruct (feed_all _ front) as [c0|] eqn:E0; [|done].
  destruct (feed_all_counts _ _ _ E0) as [He Hn]. pose proof (feed_all_params _ _ _ E0) as Hp.
  cbn [feed_all] in H. unfold feed_entry in H. cbn in H. rewrite Hp, He, Hn in H.
  rewrite length_app in Hl. cbn in Hl, H.
  destruct (Z.ltb_spec (0 + Z.of_nat (length front) + 1) 2); [lia|].
  destruct (Z.leb_spec (max_bytes p) (0 + Z.of_nat (length (concat front)) + Z.of_nat (length e)));
    [done|]. rewrite concat_app, length_app. simpl. rewrite length_app. simpl. lia.
Qed.

(** Fan-out: a cut never closes a chunk of fewer than two entries. *)
Lemma good_chunk_two p es : good_chunk p es -> (2 <= length es)%nat.
Proof.
  intros (front & e & c & -> & Hf & Hc). rewrite length_app. simpl.
  destruct (feed_all_counts _ _ _ Hf) as [He _]. unfold feed_entry in Hc. cbn in Hc.
  rewrite He in Hc. cbn in Hc.
  destruct (Z.ltb_spec (0 + Z.of_nat (length front) + 1) 2); [done|lia].
Qed.

(** When every entry has a byte or more, the entries of a chunk are counted
    within [max_bytes + 1], so neither the [u32] count nor the [u64] fields
    can overflow. *)
Lemma length_concat_ge (es : list bytes) :
  Forall (fun e => e <> []) es -> (length es <= length (concat es))%nat.
Proof.
  induction 1 as [|e es He _ IH]; simpl; [lia|]. rewrite length_app.
  destruct e; [done|]. simpl. lia.
Qed.

Lemma feed_all_count_bound p es c :
  params_ok p = true -> Forall (fun e => e <> []) es ->
  feed_all (chunker_new p) es = Some c -> Z.of_nat (length es) <= MAX_CHUNK_MAX_BYTES.
Proof.
  intros Hp Hes H. unfold params_ok in Hp. rewrite !andb_true_iff, !Z.leb_le, Z.ltb_lt in Hp.
  destruct (decide (2 <= length es)%nat) as [Hl|Hl].
  - pose proof (feed_all_bounds _ _ _ H Hl). pose proof (length_concat_ge _ Hes). lia.
  - change MAX_CHUNK_MAX_BYTES with 1048576. lia.
Qed.

Example gear_first : gear x00 = 17808715195127037534.
Proof. vm_compute. reflexivity. Qed.
