(* ===== verification/Node.v ===== *)
(** * Tree-node serialisation (acetone-prolly/src/node.rs)

    The node format, its decoder for hostile input and [read_node], which
    validates a node against its position.  A cursor [pos] into the chunk is
    the unread suffix of the model; on a 64-bit target [pos + n] cannot
    overflow, so the source's overflow arm has no counterpart.  A level is a
    [nat] here, its tag byte the level modulo 256. *)
From S2P Require Import Prelude Store Chunker.

Local Open Scope Z_scope.

Definition MAX_KEY_LEN : Z := 2 ^ 32 - 1.
Definition MAX_VALUE_LEN : Z := 2 ^ 32 - 1.
Definition NODE_HEADER_LEN : nat := 5.

Record NodeRef : Type := mkRef { last_key : bytes; hash : Hash }.

#[global] Instance NodeRef_eq_dec : EqDecision NodeRef.
Proof. solve_decision. Defined.

Inductive Node : Type :=
| Leaf (entries : list (bytes * bytes))
| Inner (refs : list NodeRef).

Definition node_last_key (n : Node) : option bytes :=
  match n with
  | Leaf entries => option_map fst (last entries)
  | Inner refs => option_map last_key (last refs)
  end.

Definition node_first_key (n : Node) : option bytes :=
  match n with
  | Leaf entries => option_map fst (head entries)
  | Inner refs => option_map last_key (head refs)
  end.

Definition corrupt (reason : string) : ProllyError := Corrupt "tree node" reason.

(** ** Reading *)

Definition take_bytes (n : Z) (data : bytes) : result ProllyError (bytes * bytes) :=
  if Z.of_nat (length data) <? n then Err (corrupt "truncated node")
  else Ok (take (Z.to_nat n) data, drop (Z.to_nat n) data).

Definition take_u8 (data : bytes) : result ProllyError (Z * bytes) :=
  let? '(b, data) := take_bytes 1 data in Ok (be_Z b, data).

Definition take_u32 (data : bytes) : result ProllyError (Z * bytes) :=
  let? '(b, data) := take_bytes 4 data in Ok (be_Z b, data).

(** The ordering test against the entry pushed last. *)
Definition ascends (prev : option bytes) (key : bytes) : bool :=
  match prev with
  | Some prev => negb (bytes_leb key prev)
  | None => true
  end.

(** [for _ in 0..count], the leaf case: [prev] is the last entry's key. *)
Fixpoint decode_leaf_entries (count : nat) (prev : option bytes) (data : bytes)
    : result ProllyError (list (bytes * bytes) * bytes) :=
  match count with
  | O => Ok ([], data)
  | S count =>
    let? '(klen, data) := take_u32 data in
    let? '(key, data) := take_bytes klen data in
    let? '(vlen, data) := take_u32 data in
    let? '(value, data) := take_bytes vlen data in
    if negb (ascends prev key) then Err (corrupt "leaf keys not strictly ascending")
    else
      let? '(entries, data) := decode_leaf_entries count (Some key) data in
      Ok ((key, value) :: entries, data)
  end.

Fixpoint decode_inner_entries (count : nat) (prev : option bytes) (data : bytes)
    : result ProllyError (list NodeRef * bytes) :=
  match count with
  | O => Ok ([], data)
  | S count =>
    let? '(klen, data) := take_u32 data in
    let? '(key, data) := take_bytes klen data in
    let? '(hlen, data) := take_u8 data in
    let? '(hash_bytes, data) := take_bytes hlen data in
    let? h := map_err (fun _ => corrupt "bad child hash") (hash_from_bytes hash_bytes) in
    if negb (ascends prev key) then Err (corrupt "inner keys not strictly ascending")
    else
      let? '(refs, data) := decode_inner_entries count (Some key) data in
      Ok (mkRef key h :: refs, data)
  end.

Definition decode_node (data : bytes) (expect_level : nat) : result ProllyError Node :=
  let? '(level, data) := take_u8 data in
  if negb (level =? Z.of_nat expect_level)
  then Err (corrupt "level tag where the tree requires another level")
  else
    let? '(count, data) := take_u32 data in
    let? '(node, data) :=
      (if level =? 0 then
         let? '(entries, data) := decode_leaf_entries (Z.to_nat count) None data in
         Ok (Leaf entries, data)
       else if count =? 0 then Err (corrupt "empty inner node")
       else
         let? '(refs, data) := decode_inner_entries (Z.to_nat count) None data in
         Ok (Inner refs, data)) in
    match data with
    | [] => Ok node
    | _ :: _ => Err (corrupt "trailing bytes after declared entries")
    end.

Definition decode_node_self (data : bytes) : result ProllyError (nat * Node) :=
  match data with
  | [] => Err (corrupt "empty chunk")
  | b :: _ =>
    let level := Z.to_nat (b2z b) in
    let? node := decode_node data level in Ok (level, node)
  end.

Section read.
Context {S : Type} {CS : ChunkStore S}.

Definition read_node (store : S) (h : Hash) (expect_level : nat)
    (expect_last_key min_key_exclusive : option bytes) : result ProllyError Node :=
  let? found := map_err PStore (get store h) in
  match found with
  | None => Err (MissingChunk h)
  | Some data =>
    let? node := decode_node data expect_level in
    if match expect_last_key with
       | Some want => negb (bool_decide (node_last_key node = Some want))
       | None => false
       end
    then Err (corrupt "chunk does not end at the key its parent declares")
    else if match min_key_exclusive, node_first_key node with
            | Some min, Some first => bytes_leb first min
            | _, _ => false
            end
    then Err (corrupt "chunk contains keys below its position in the tree")
    else Ok node
  end.
End read.

(** ** Writing *)

Definition encode_leaf_entry (key value : bytes) : result ProllyError bytes :=
  let klen := Z.of_nat (length key) in
  let vlen := Z.of_nat (length value) in
  if negb (is_u32 klen) then Err (KeyTooLong klen MAX_KEY_LEN)
  else if negb (is_u32 vlen) then Err (ValueTooLong vlen MAX_VALUE_LEN)
  else Ok (be_bytes 4 klen ++ key ++ be_bytes 4 vlen ++ value).

Definition encode_inner_entry (last_key : bytes) (h : Hash) : result ProllyError bytes :=
  let klen := Z.of_nat (length last_key) in
  if negb (is_u32 klen) then Err (KeyTooLong klen MAX_KEY_LEN)
  else
    let digest := as_bytes h in
    let hlen := Z.of_nat (length digest) in
    if 255 <? hlen then Err (corrupt "digest width exceeds the u8 length frame")
    else Ok (be_bytes 4 klen ++ last_key ++ z2b hlen :: digest).

(** The bytes of a node from the bytes of its entries ([LevelBuilder::emit]). *)
Definition encode_node (level : nat) (count : Z) (buf : bytes) : bytes :=
  z2b (Z.of_nat level) :: be_bytes 4 count ++ buf.

(** ** The codec inverts *)

Lemma take_bytes_app a data : take_bytes (Z.of_nat (length a)) (a ++ data) = Ok (a, data).
Proof.
  unfold take_bytes. rewrite length_app, Nat2Z.id, take_app_length, drop_app_length.
  by destruct (Z.ltb_spec (Z.of_nat (length a + length data)) (Z.of_nat (length a))); [lia|].
Qed.

Lemma take_bytes_Ok n data a rest :
  0 <= n -> take_bytes n data = Ok (a, rest) -> data = a ++ rest /\ Z.of_nat (length a) = n.
Proof.
  intros Hn. unfold take_bytes. destruct (Z.ltb_spec (Z.of_nat (length data)) n); [done|].
  intros H'. rinv. subst. rewrite take_drop, length_take. split; [done|lia].
Qed.

Lemma take_u32_app z data : is_u32 z = true -> take_u32 (be_bytes 4 z ++ data) = Ok (z, data).
Proof.
  intros Hz. unfold take_u32. pose proof (take_bytes_app (be_bytes 4 z) data) as E.
  rewrite length_be_bytes in E. change (Z.of_nat 4) with 4 in E. rewrite E. simpl.
  unrange. rewrite be_Z_be_bytes, Z.mod_small; [done|].
  change (256 ^ Z.of_nat 4) with (2 ^ 32). lia.
Qed.

Lemma take_u32_Ok data z rest :
  take_u32 data = Ok (z, rest) -> data = be_bytes 4 z ++ rest /\ is_u32 z = true.
Proof.
  unfold take_u32. intros H. rinv. destruct a as [b r]. cbn in H. rinv. subst.
  apply take_bytes_Ok in Ha as [-> Hb]; [|lia]. pose proof (be_Z_bound b) as Hz.
  rewrite be_bytes_be_Z by lia. split; [done|]. apply in_range_spec.
  by replace (length b) with 4%nat in Hz by lia.
Qed.

Lemma take_u8_cons b data : take_u8 (b :: data) = Ok (b2z b, data).
Proof.
  unfold take_u8. pose proof (take_bytes_app [b] data) as E. change (Z.of_nat (length [b])) with 1 in E.
  change ([b] ++ data) with (b :: data) in E. rewrite E. cbn [rbind]. by rewrite be_Z_singleton.
Qed.

Lemma take_u8_Ok data z rest :
  take_u8 data = Ok (z, rest) -> data = z2b z :: rest /\ 0 <= z < 256.
Proof.
  unfold take_u8. intros H. rinv. destruct a as [b r]. cbn in H. rinv. subst.
  apply take_bytes_Ok in Ha as [-> Hb]; [|lia]. destruct b as [|b []]; try (simpl in Hb; lia).
  rewrite be_Z_singleton, z2b_b2z. split; [done|]. apply b2z_range.
Qed.

Arguments take_bytes : simpl never.
Arguments take_u8 : simpl never.
Arguments take_u32 : simpl never.

(** Keys in strictly ascending order, from a bound on. *)
Fixpoint ascending (prev : option bytes) (keys : list bytes) : bool :=
  match keys with
  | [] => true
  | k :: keys => ascends prev k && ascending (Some k) keys
  end.

Lemma decode_leaf_entries_write entries bs prev data :
  write_all (fun e => encode_leaf_entry e.1 e.2) entries = Ok bs ->
  ascending prev (map fst entries) = true ->
  decode_leaf_entries (length entries) prev (bs ++ data) = Ok (entries, data).
Proof.
  revert bs prev. induction entries as [|[k v] entries IH]; intros bs prev; simpl.
  - intros H _. by rinv; subst.
  - intros H Hasc. apply andb_true_iff in Hasc as [Hk Hasc].
    apply rbind_Ok in H as (e & He & H). apply rbind_Ok in H as (es & Hes & H). rinv. subst.
    unfold encode_leaf_entry in He. destruct (is_u32 (Z.of_nat (length k))) eqn:Eu; [|done].
    destruct (is_u32 (Z.of_nat (length v))) eqn:Ev; [|done]. cbn in He. rinv. subst.
    rewrite <-!app_assoc, take_u32_app by done. cbn [rbind]. rewrite take_bytes_app. cbn [rbind].
    rewrite take_u32_app by done. cbn [rbind]. rewrite take_bytes_app. cbn [rbind].
    rewrite Hk. cbn [negb]. by rewrite (IH es (Some k)).
Qed.

Lemma decode_leaf_entries_Ok n prev data entries rest :
  decode_leaf_entries n prev data = Ok (entries, rest) ->
  length entries = n /\ ascending prev (map fst entries) = true /\
  exists bs, write_all (fun e => encode_leaf_entry e.1 e.2) entries = Ok bs /\ data = bs ++ rest.
Proof.
  revert prev data entries. induction n as [|n IH]; intros prev data entries; simpl.
  - intros H. rinv. subst. split_and!; [done..|]. by exists [].
  - intros H. do 4 (apply rbind_Ok in H as ([? ?] & ? & H)).
    match type of H with context [ascends prev ?k] =>
      destruct (ascends prev k) eqn:Ea; [|done] end. cbn [negb] in H.
    apply rbind_Ok in H as ([es r] & Hes & H). rinv. subst.
    repeat match goal with
    | H : take_u32 _ = Ok _ |- _ => apply take_u32_Ok in H as [-> ?]
    | H : take_bytes _ _ = Ok _ |- _ => apply take_bytes_Ok in H as [-> <-]; [|unrange; lia]
    end.
    destruct (IH _ _ _ Hes) as (<- & Hasc & bs & Hbs & ->). simpl. rewrite Ea, Hasc.
    split_and!; [done..|]. rewrite Hbs. unfold encode_leaf_entry.
    repeat match goal with H : is_u32 _ = true |- _ => rewrite H; clear H end.
    cbn. eexists. split; [done|]. by rewrite <-!app_assoc.
Qed.

Lemma encode_inner_entry_Ok k h e :
  encode_inner_entry k h = Ok e <->
  is_u32 (Z.of_nat (length k)) = true /\
  e = be_bytes 4 (Z.of_nat (length k)) ++ k ++ z2b (Z.of_nat (length (as_bytes h))) :: as_bytes h.
Proof.
  unfold encode_inner_entry. destruct (is_u32 _); cbn [negb].
  - destruct (Z.ltb_spec 255 (Z.of_nat (length (as_bytes h)))).
    { destruct (length_as_bytes h); lia. }
    split; [intros H'; by rinv|]. by intros [_ ->].
  - split; [done|]. by intros [? _].
Qed.

Lemma decode_inner_entries_write refs bs prev data :
  write_all (fun r => encode_inner_entry (last_key r) (hash r)) refs = Ok bs ->
  ascending prev (map last_key refs) = true ->
  decode_inner_entries (length refs) prev (bs ++ data) = Ok (refs, data).
Proof.
  revert bs prev. induction refs as [|[k h] refs IH]; intros bs prev; simpl.
  - intros H _. by rinv; subst.
  - intros H Hasc. apply andb_true_iff in Hasc as [Hk Hasc].
    apply rbind_Ok in H as (e & He & H). apply rbind_Ok in H as (es & Hes & H). rinv. subst.
    apply encode_inner_entry_Ok in He as [Hu ->].
    rewrite <-!app_assoc, take_u32_app by done. cbn [rbind]. rewrite take_bytes_app.
    cbn [rbind app]. rewrite take_u8_cons. cbn [rbind].
    rewrite b2z_z2b, Z.mod_small by (destruct (length_as_bytes h); lia).
    rewrite take_bytes_app. cbn [rbind]. rewrite hash_from_as_bytes. cbn [map_err rbind].
    rewrite Hk. cbn [negb]. by rewrite (IH es (Some k)).
Qed.

Lemma decode_inner_entries_Ok n prev data refs rest :
  decode_inner_entries n prev data = Ok (refs, rest) ->
  length refs = n /\ ascending prev (map last_key refs) = true /\
  exists bs, write_all (fun r => encode_inner_entry (last_key r) (hash r)) refs = Ok bs /\
    data = bs ++ rest.
Proof.
  revert prev data refs. induction n as [|n IH]; intros prev data refs; simpl.
  - intros H. rinv. subst. split_and!; [done..|]. by exists [].
  - intros H. do 4 (apply rbind_Ok in H as ([? ?] & ? & H)).
    apply rbind_Ok in H as (h & Hh & H). apply map_err_Ok, hash_from_bytes_Ok in Hh.
    match type of H with context [ascends prev ?k] =>
      destruct (ascends prev k) eqn:Ea; [|done] end. cbn [negb] in H.
    apply rbind_Ok in H as ([es r] & Hes & H). rinv. subst.
    repeat match goal with
    | H : take_u32 _ = Ok _ |- _ => apply take_u32_Ok in H as [-> ?]
    | H : take_u8 _ = Ok _ |- _ => apply take_u8_Ok in H as [-> ?]
    | H : take_bytes _ _ = Ok _ |- _ => apply take_bytes_Ok in H as [-> <-]; [|unrange; lia]
    end.
    destruct (IH _ _ _ Hes) as (<- & Hasc & bs & Hbs & ->). simpl. rewrite Ea, Hasc.
    split_and!; [done..|]. rewrite Hbs. eexists. split.
    + match goal with H : is_u32 (Z.of_nat (length ?k)) = true |- _ =>
        by rewrite (proj2 (encode_inner_entry_Ok k h _) (conj H eq_refl)) end.
    + by rewrite <-!app_assoc, <-app_comm_cons.
Qed.

(** ** Whole nodes *)

Definition node_size (n : Node) : nat :=
  match n with Leaf entries => length entries | Inner refs => length refs end.

Definition node_keys (n : Node) : list bytes :=
  match n with Leaf entries => map fst entries | Inner refs => map last_key refs end.

Definition write_entries (n : Node) : result ProllyError bytes :=
  match n with
  | Leaf entries => write_all (fun e => encode_leaf_entry e.1 e.2) entries
  | Inner refs => write_all (fun r => encode_inner_entry (last_key r) (hash r)) refs
  end.

(** A node a tree may hold at [level]. *)
Definition node_fits (level : nat) (n : Node) : bool :=
  match n with
  | Leaf _ => (level =? 0)%nat
  | Inner refs => negb (level =? 0)%nat && negb (length refs =? 0)%nat
  end && ascending None (node_keys n) && is_u32 (Z.of_nat (node_size n)).

Lemma decode_node_write level n buf :
  (level < 256)%nat -> node_fits level n = true -> write_entries n = Ok buf ->
  decode_node (encode_node level (Z.of_nat (node_size n)) buf) level = Ok n.
Proof.
  intros Hl Hfit Hbuf. unfold node_fits in Hfit. rewrite !andb_true_iff in Hfit.
  destruct Hfit as [[Hk Hasc] Hu]. unfold decode_node, encode_node.
  rewrite take_u8_cons. cbn [rbind]. rewrite b2z_z2b, Z.mod_small, Z.eqb_refl by lia.
  cbn [negb]. rewrite take_u32_app by done. cbn [rbind]. rewrite Nat2Z.id.
  destruct n as [entries|refs]; cbn [node_size node_keys write_entries] in *.
  - apply Nat.eqb_eq in Hk as ->. cbn [Z.of_nat Z.eqb].
    pose proof (decode_leaf_entries_write entries buf None [] Hbuf Hasc) as E.
    rewrite app_nil_r in E. by rewrite E.
  - apply andb_true_iff in Hk as [Hz%negb_true_iff%Nat.eqb_neq He%negb_true_iff%Nat.eqb_neq].
    destruct (Z.eqb_spec (Z.of_nat level) 0); [lia|].
    destruct (Z.eqb_spec (Z.of_nat (length refs)) 0); [lia|].
    pose proof (decode_inner_entries_write refs buf None [] Hbuf Hasc) as E.
    rewrite app_nil_r in E. by rewrite E.
Qed.

Lemma decode_node_Ok level n data :
  (level < 256)%nat -> decode_node data level = Ok n ->
  node_fits level n = true /\
  exists buf, write_entries n = Ok buf /\ data = encode_node level (Z.of_nat (node_size n)) buf.
Proof.
  intros Hl. unfold decode_node. intros H.
  apply rbind_Ok in H as ([lv d] & Hlv & H). apply take_u8_Ok in Hlv as [-> Hr].
  destruct (Z.eqb_spec lv (Z.of_nat level)) as [->|]; [|done]. cbn [negb] in H.
  apply rbind_Ok in H as ([count d'] & Hc & H). apply take_u32_Ok in Hc as [-> Hu].
  apply rbind_Ok in H as ([n' d''] & Hn & H). destruct d''; [|done]. rinv. subst n'.
  unfold node_fits, encode_node. destruct (Z.eqb_spec (Z.of_nat level) 0) as [Ez|Ez].
  - apply rbind_Ok in Hn as ([es r] & Hes & Hn). rinv. subst.
    apply decode_leaf_entries_Ok in Hes as (Hlen & Hasc & bs & Hbs & ->). unrange.
    cbn [node_size node_keys write_entries]. rewrite Hlen, Z2Nat.id by lia. split.
    + rewrite Hasc, !andb_true_r. apply andb_true_iff. split; [apply Nat.eqb_eq; lia|].
      by apply in_range_spec.
    + exists bs. by rewrite app_nil_r.
  - destruct (Z.eqb_spec count 0) as [|Hc0]; [done|].
    apply rbind_Ok in Hn as ([refs r] & Hrefs & Hn). rinv. subst.
    apply decode_inner_entries_Ok in Hrefs as (Hlen & Hasc & bs & Hbs & ->). unrange.
    cbn [node_size node_keys write_entries]. rewrite Hlen, Z2Nat.id by lia. split.
    + rewrite Hasc, !andb_true_r, !andb_true_iff, !negb_true_iff, !Nat.eqb_neq.
      split; [lia|]. by apply in_range_spec.
    + exists bs. by rewrite app_nil_r.
Qed.

Lemma encode_leaf_entry_nonempty k v e : encode_leaf_entry k v = Ok e -> e <> [].
Proof. unfold encode_leaf_entry. repeat case_match; try done. by intros [= <-]. Qed.
Lemma encode_inner_entry_nonempty k h e : encode_inner_entry k h = Ok e -> e <> [].
Proof. by intros [_ ->]%encode_inner_entry_Ok. Qed.

(** C6: the node codec is canonical. Bytes decode at a level to a node exactly
    when the node fits that level (keys strictly ascending, no empty inner
    node, a count that fits 32 bits) and the bytes are the encoding the level
    builder writes for it. *)
Theorem node_codec_canonical level n data :
  (level < 256)%nat ->
  decode_node data level = Ok n <->
  node_fits level n = true /\
  exists buf, write_entries n = Ok buf /\ data = encode_node level (Z.of_nat (node_size n)) buf.
Proof.
  intros Hl. split; [by apply decode_node_Ok|].
  intros (Hfit & buf & Hbuf & ->). by apply decode_node_write.
Qed.

Lemma node_codec_canonical_witness :
  decode_node [x00; x00; x00; x00; x01; x00; x00; x00; x01; x2a; x00; x00; x00; x00] 0
    = Ok (Leaf [([x2a], [])]) <->
  node_fits 0 (Leaf [([x2a], [])]) = true /\
  exists buf, write_entries (Leaf [([x2a], [])]) = Ok buf /\
    [x00; x00; x00; x00; x01; x00; x00; x00; x01; x2a; x00; x00; x00; x00] = encode_node 0 1 buf.
Proof. apply (node_codec_canonical 0 (Leaf [([x2a], [])])). lia. Defined.
