(* ===== verification/Tree.v ===== *)
(** * Prolly-tree construction, lookup and batched mutation
    (acetone-prolly/src/tree.rs, and the root and batch types of lib.rs)

    A computation over a store is [st S ProllyError A].  Levels and heights
    are [nat]: [MAX_HEIGHT] bounds them far below the source's [u8] and [u32].
    The [VecDeque] loop of [chunk_level] is [chunk_queue]; [chunk_items] runs
    the same steps by recursion on the level of the subtree being opened, and
    the two agree ([chunk_queue_items] in [TreeBuild]). *)
From S2P Require Import Prelude Store Chunker Node.

Local Open Scope Z_scope.

Definition MAX_HEIGHT : nat := 64.

Record Root : Type := mkRoot { root_hash : Hash; height : nat; params : ChunkParams }.

#[global] Instance Root_eq_dec : EqDecision Root.
Proof. solve_decision. Defined.

Definition root_new (h : Hash) (height : nat) (p : ChunkParams) : result ProllyError Root :=
  if (height =? 0)%nat || (MAX_HEIGHT <? height)%nat
  then Err (InvalidRoot "height outside 1..=MAX_HEIGHT")
  else Ok (mkRoot h height p).

Definition top_level (r : Root) : nat := (height r - 1)%nat.

Inductive BatchOp : Type :=
| Put (key value : bytes)
| Delete (key : bytes).

Definition op_key (op : BatchOp) : bytes :=
  match op with Put k _ => k | Delete k => k end.

Inductive Entry : Type :=
| ELeaf (key value : bytes)
| EInner (last_key : bytes) (h : Hash).

Definition entry_key (e : Entry) : bytes :=
  match e with ELeaf key _ => key | EInner last_key _ => last_key end.

(** One item of a level's input stream. *)
Inductive Item : Type :=
| IOld (node : NodeRef) (is_final : bool)
| ISubtree (node : NodeRef) (level : nat) (is_final : bool)
| IFresh (entries : list Entry) (base : option Hash).

(** One output of chunking a level. *)
Inductive OutItem : Type :=
| OChunk (node : NodeRef)
| OSubtree (node : NodeRef) (level : nat) (is_final : bool).

Record OpenedInner : Type := mkOpened { o_node : NodeRef; o_final : bool; o_children : list Hash }.

(** ** The level builder *)

Record LevelBuilder : Type := mkBuilder {
  b_level : nat;
  b_chunker : Chunker;
  b_buf : bytes;
  b_count : Z;
  b_last_key : bytes;
  b_out : list OutItem;
  b_current_base : option Hash;
  b_recorder : option (list (Hash * Hash))
}.

Definition builder_new (level : nat) (p : ChunkParams) (rec : option (list (Hash * Hash)))
    : LevelBuilder :=
  mkBuilder level (chunker_new p) [] 0 [] [] None rec.

Definition at_boundary (b : LevelBuilder) : bool := b_count b =? 0.

Definition set_base (base : option Hash) (b : LevelBuilder) : LevelBuilder :=
  mkBuilder (b_level b) (b_chunker b) (b_buf b) (b_count b) (b_last_key b) (b_out b)
    base (b_recorder b).

Definition push_out (o : OutItem) (b : LevelBuilder) : LevelBuilder :=
  mkBuilder (b_level b) (b_chunker b) (b_buf b) (b_count b) (b_last_key b) (b_out b ++ [o])
    (b_current_base b) (b_recorder b).

Definition encode_entry (e : Entry) : result ProllyError bytes :=
  match e with
  | ELeaf key value => encode_leaf_entry key value
  | EInner last_key h => encode_inner_entry last_key h
  end.

(** The recorder's new contents after a chunk [h] is written. *)
Definition record_pair (b : LevelBuilder) (h : Hash) : option (list (Hash * Hash)) :=
  match b_recorder b, b_current_base b with
  | Some recorder, Some base =>
    if bool_decide (base = h) then Some recorder else Some (recorder ++ [(h, base)])
  | recorder, _ => recorder
  end.

Section tree.
Context {S : Type} {CS : ChunkStore S}.

Definition st_put (d : bytes) : st S ProllyError Hash :=
  fun s => let '(r, s) := put s d in (map_err PStore r, s).

Definition emit (b : LevelBuilder) : st S ProllyError LevelBuilder :=
  let! h := st_put (encode_node (b_level b) (b_count b) (b_buf b)) in
  st_ret (mkBuilder (b_level b) (reset (b_chunker b)) [] 0 []
            (b_out b ++ [OChunk (mkRef (b_last_key b) h)])
            (b_current_base b) (record_pair b h)).

Definition push (b : LevelBuilder) (e : Entry) : st S ProllyError LevelBuilder :=
  let! bs := st_read (fun _ => encode_entry e) in
  if 2 ^ 32 <=? b_count b + 1 then st_read (fun _ => Err TooManyEntries)
  else
    let '(cut, chunker) := feed_entry (b_chunker b) bs in
    let b := mkBuilder (b_level b) chunker (b_buf b ++ bs) (b_count b + 1) (entry_key e)
               (b_out b) (b_current_base b) (b_recorder b) in
    if cut then emit b else st_ret b.

Fixpoint push_all (b : LevelBuilder) (es : list Entry) : st S ProllyError LevelBuilder :=
  match es with
  | [] => st_ret b
  | e :: es => let! b := push b e in push_all b es
  end.

Definition node_entries (n : Node) : list Entry :=
  match n with
  | Leaf entries => map (fun e => ELeaf e.1 e.2) entries
  | Inner refs => map (fun r => EInner (last_key r) (hash r)) refs
  end.

(** ** Chunking one level *)

(** The children of an opened subtree, as items of the same level. *)
Definition child_item (level sub_level : nat) (is_final : bool) (r : NodeRef) : Item :=
  if (sub_level - 1 =? level)%nat then IOld r is_final
  else ISubtree r (sub_level - 1) is_final.

Fixpoint child_items (level sub_level : nat) (is_final : bool) (refs : list NodeRef) : list Item :=
  match refs with
  | [] => []
  | [r] => [child_item level sub_level is_final r]
  | r :: refs =>
    child_item level sub_level false r :: child_items level sub_level is_final refs
  end.

Definition fresh_item (b : LevelBuilder) (entries : list Entry) (base : option Hash)
    : st S ProllyError LevelBuilder :=
  push_all (set_base base b) entries.

Definition old_item (b : LevelBuilder) (node : NodeRef) (is_final is_last : bool)
    : st S ProllyError LevelBuilder :=
  if at_boundary b && (negb is_final || is_last) then st_ret (push_out (OChunk node) b)
  else
    let! n := st_read (fun s => read_node s (hash node) (b_level b) (Some (last_key node)) None) in
    push_all (set_base (Some (hash node)) b) (node_entries n).

(** The loop over the queue of pending items, as the source runs it. *)
Fixpoint chunk_queue (fuel : nat) (b : LevelBuilder) (queue : list Item)
    : st S ProllyError LevelBuilder :=
  match fuel, queue with
  | _, [] => st_ret b
  | O, _ :: _ => st_read (fun _ => Err (InvalidRoot "out of fuel"))
  | Datatypes.S fuel, item :: queue =>
    let is_last := match queue with [] => true | _ :: _ => false end in
    match item with
    | IFresh entries base =>
      let! b := fresh_item b entries base in chunk_queue fuel b queue
    | IOld node is_final =>
      let! b := old_item b node is_final is_last in chunk_queue fuel b queue
    | ISubtree node sub_level is_final =>
      if at_boundary b && (negb is_final || is_last)
      then chunk_queue fuel (push_out (OSubtree node sub_level is_final) b) queue
      else
        let! n := st_read (fun s => read_node s (hash node) sub_level (Some (last_key node)) None) in
        match n with
        | Leaf _ => st_read (fun _ => Err (corrupt "unreachable: level > 0 checked by read_node"))
        | Inner refs =>
          chunk_queue fuel b (child_items (b_level b) sub_level is_final refs ++ queue)
        end
    end
  end.

(** The same steps by recursion: [depth] bounds the levels left to open, and
    [is_last] says whether the queue ends with the items given. *)
Definition each_item (f : LevelBuilder -> Item -> bool -> st S ProllyError LevelBuilder)
    (is_last : bool) : LevelBuilder -> list Item -> st S ProllyError LevelBuilder :=
  fix go b items :=
    match items with
    | [] => st_ret b
    | item :: rest =>
      let! b := f b item (is_last && match rest with [] => true | _ :: _ => false end) in
      go b rest
    end.

Fixpoint chunk_item (depth : nat) (b : LevelBuilder) (item : Item) (is_last : bool)
    : st S ProllyError LevelBuilder :=
  match item with
  | IFresh entries base => fresh_item b entries base
  | IOld node is_final => old_item b node is_final is_last
  | ISubtree node sub_level is_final =>
    if at_boundary b && (negb is_final || is_last)
    then st_ret (push_out (OSubtree node sub_level is_final) b)
    else
      let! n := st_read (fun s => read_node s (hash node) sub_level (Some (last_key node)) None) in
      match n with
      | Leaf _ => st_read (fun _ => Err (corrupt "unreachable: level > 0 checked by read_node"))
      | Inner refs =>
        match depth with
        | O => st_read (fun _ => Err (corrupt "unreachable: subtree at or below current level"))
        | Datatypes.S depth =>
          each_item (chunk_item depth) is_last b
            (child_items (b_level b) sub_level is_final refs)
        end
      end
  end.

Definition chunk_items (b : LevelBuilder) (items : list Item) : st S ProllyError LevelBuilder :=
  each_item (chunk_item MAX_HEIGHT) true b items.

Definition chunk_level (level : nat) (p : ChunkParams) (items : list Item)
    (rec : option (list (Hash * Hash)))
    : st S ProllyError (list OutItem * option (list (Hash * Hash))) :=
  let! b := chunk_items (builder_new level p rec) items in
  let! b := (if 0 <? b_count b then emit b else st_ret b) in
  let! b := (match b_out b with
             | [] => if (level =? 0)%nat then emit b else st_ret b
             | _ :: _ => st_ret b
             end) in
  st_ret (b_out b, b_recorder b).

(** ** Promotion to the next level *)

Definition flush (fresh : list Entry) (items : list Item) : list Item :=
  match fresh with
  | [] => items
  | _ :: _ => items ++ [IFresh fresh None]
  end.

(** The next [k] outputs are chunks with exactly these hashes. *)
Fixpoint run_matches (outputs : list OutItem) (children : list Hash) : bool :=
  match children, outputs with
  | [], _ => true
  | c :: children, OChunk r :: outputs => bool_decide (hash r = c) && run_matches outputs children
  | _ :: _, _ => false
  end.

(** The inner loop: advance the opened parents until one matches the run of
    outputs starting at chunk [r], or none can.  Returns the parents left. *)
Fixpoint match_opened (r : NodeRef) (outputs : list OutItem) (opened : list OpenedInner)
    : option OpenedInner * list OpenedInner :=
  match opened with
  | [] => (None, [])
  | cand :: rest =>
    if bool_decide (head (o_children cand) = Some (hash r)) && run_matches outputs (o_children cand)
    then (Some cand, rest)
    else if bytes_leb (last_key (o_node cand)) (last_key r) then match_opened r outputs rest
    else (None, cand :: rest)
  end.

Fixpoint promote_loop (fuel : nat) (outputs : list OutItem) (opened : list OpenedInner)
    (next_level : nat) (fresh : list Entry) (items : list Item) : list Item :=
  match fuel, outputs with
  | O, _ | _, [] => flush fresh items
  | Datatypes.S fuel, OSubtree node level is_final :: rest =>
    let items := flush fresh items in
    let item := if (level =? next_level)%nat then IOld node is_final
                else ISubtree node level is_final in
    promote_loop fuel rest opened next_level [] (items ++ [item])
  | Datatypes.S fuel, OChunk r :: rest =>
    match match_opened r outputs opened with
    | (Some cand, opened) =>
      promote_loop fuel (drop (length (o_children cand)) outputs) opened next_level []
        (flush fresh items ++ [IOld (o_node cand) (o_final cand)])
    | (None, opened) =>
      promote_loop fuel rest opened next_level (fresh ++ [EInner (last_key r) (hash r)]) items
    end
  end.

Definition promote (outputs : list OutItem) (opened : list OpenedInner) (next_level : nat)
    : list Item :=
  promote_loop (length outputs) outputs opened next_level [] [].

(** ** Building every level *)

(** [levels] is the number of levels still allowed, [MAX_HEIGHT - level]. *)
Fixpoint build_levels (levels : nat) (level : nat) (p : ChunkParams) (items : list Item)
    (opened : list (list OpenedInner)) (rec : option (list (Hash * Hash)))
    : st S ProllyError (Root * option (list (Hash * Hash))) :=
  let too_high := InvalidRoot "tree exceeds the maximum height" in
  match levels with
  | O => st_read (fun _ => Err too_high)
  | Datatypes.S levels =>
    let! '(outputs, rec) := chunk_level level p items rec in
    match outputs with
    | [OChunk r] => st_ret (mkRoot (hash r) (level + 1) p, rec)
    | [OSubtree node sub_level _] => st_ret (mkRoot (hash node) (sub_level + 1) p, rec)
    | _ =>
      if (MAX_HEIGHT <=? level + 1)%nat then st_read (fun _ => Err too_high)
      else
        let level := (level + 1)%nat in
        let opened_here := nth level opened [] in
        build_levels levels level p (promote outputs opened_here level) opened rec
    end
  end.

(** ** Bulk load *)

(** The stable sort by key, and the pass that keeps the last value of equal
    keys. *)
Fixpoint insert_by {A : Type} (key : A -> bytes) (x : A) (l : list A) : list A :=
  match l with
  | [] => [x]
  | y :: l => if bytes_leb (key x) (key y) then x :: y :: l else y :: insert_by key x l
  end.

Definition sort_by {A : Type} (key : A -> bytes) (l : list A) : list A :=
  foldr (insert_by key) [] l.

(** [match out.last_mut() { Some(last) if same key => *last = x, _ => push }] *)
Fixpoint dedup_last {A : Type} (key : A -> bytes) (l : list A) : list A :=
  match l with
  | [] => []
  | x :: l =>
    match l with
    | [] => [x]
    | y :: _ => if bool_decide (key x = key y) then dedup_last key l else x :: dedup_last key l
    end
  end.

Definition bulk_load (p : ChunkParams) (entries : list (bytes * bytes)) : st S ProllyError Root :=
  let deduped := map (fun e => ELeaf e.1 e.2) (dedup_last fst (sort_by fst entries)) in
  let! '(root, _) := build_levels MAX_HEIGHT 0 p [IFresh deduped None] [] None in
  st_ret root.

Definition empty_map (p : ChunkParams) : st S ProllyError Root := bulk_load p [].

(** ** Descent *)

Definition apply_op (op : BatchOp) : list Entry :=
  match op with Put k v => [ELeaf k v] | Delete _ => [] end.

(** The two-cursor merge of a leaf's entries with a sorted op slice. *)
Fixpoint merge_ops (old : list (bytes * bytes)) : list BatchOp -> list Entry :=
  match old with
  | [] => fun ops => concat (map apply_op ops)
  | (k, v) :: old =>
    (fix go (ops : list BatchOp) : list Entry :=
       match ops with
       | [] => ELeaf k v :: merge_ops old []
       | op :: rest =>
         match bytes_cmp k (op_key op) with
         | Lt => ELeaf k v :: merge_ops old ops
         | Eq => apply_op op ++ merge_ops old rest
         | Gt => apply_op op ++ go rest
         end
       end)
  end.

(** The ops of one child: the leading ops at or below its last key, all of
    them for the last child. *)
Fixpoint take_ops (is_last : bool) (last_key : bytes) (ops : list BatchOp)
    : list BatchOp * list BatchOp :=
  match ops with
  | [] => ([], [])
  | op :: rest =>
    if is_last || bytes_leb (op_key op) last_key then
      let '(mine, rest) := take_ops is_last last_key rest in (op :: mine, rest)
    else ([], ops)
  end.

(** What a descent collects: the item stream and the opened inner nodes,
    indexed by level. *)
Record Descent : Type := mkDescent { d_items : list Item; d_opened : list (list OpenedInner) }.

Definition descent_item (it : Item) (d : Descent) : Descent :=
  mkDescent (d_items d ++ [it]) (d_opened d).

Definition descent_open (level : nat) (o : OpenedInner) (d : Descent) : Descent :=
  mkDescent (d_items d) (alter (fun os => os ++ [o]) level (d_opened d)).

Definition opened_inner (h : Hash) (is_final : bool) (refs : list NodeRef) : OpenedInner :=
  mkOpened (mkRef (match last refs with Some r => last_key r | None => [] end) h)
    is_final (map hash refs).

(** The children loop of [descend], for a [visit] of the level below. *)
Definition descend_children
    (visit : Descent -> NodeRef -> option bytes -> bool -> list BatchOp -> result ProllyError Descent)
    (child_level : nat) (is_final : bool) (min_key_exclusive : option bytes)
    : Descent -> list NodeRef -> option bytes -> list BatchOp -> result ProllyError Descent :=
  fix go d refs prev_last_key ops :=
    match refs with
    | [] => Ok d
    | child :: refs =>
      let is_last := match refs with [] => true | _ :: _ => false end in
      let child_final := is_final && is_last in
      let '(mine, ops) := take_ops is_last (last_key child) ops in
      let lower := match prev_last_key with Some k => Some k | None => min_key_exclusive end in
      let? d :=
        (match mine with
         | [] =>
           Ok (descent_item (if (child_level =? 0)%nat then IOld child child_final
                             else ISubtree child child_level child_final) d)
         | _ :: _ => visit d child lower child_final mine
         end) in
      go d refs (Some (last_key child)) ops
    end.

Fixpoint descend (store : S) (level : nat) (d : Descent) (h : Hash)
    (expect_last_key min_key_exclusive : option bytes) (is_final : bool) (ops : list BatchOp)
    : result ProllyError Descent :=
  let? node := read_node store h level expect_last_key min_key_exclusive in
  match node with
  | Leaf entries => Ok (descent_item (IFresh (merge_ops entries ops) (Some h)) d)
  | Inner refs =>
    match level with
    | O => Err (corrupt "unreachable: level 0 is a leaf")
    | Datatypes.S child_level =>
      let d := descent_open level (opened_inner h is_final refs) d in
      descend_children
        (fun d child lower child_final mine =>
           descend store child_level d (hash child) (Some (last_key child)) lower child_final mine)
        child_level is_final min_key_exclusive d refs None ops
    end
  end.

(** ** Batches *)

Definition apply_batch_inner (root : Root) (ops : list BatchOp) (rec : option (list (Hash * Hash)))
    : st S ProllyError (Root * option (list (Hash * Hash))) :=
  let ops := dedup_last op_key (sort_by op_key ops) in
  match ops with
  | [] => st_ret (root, rec)
  | _ :: _ =>
    let! d := st_read (fun s => descend s (top_level root) (mkDescent [] (repeat [] (height root)))
                                  (root_hash root) None None true ops) in
    build_levels MAX_HEIGHT 0 (params root) (d_items d) (d_opened d) rec
  end.

Definition apply_batch (root : Root) (ops : list BatchOp) : st S ProllyError Root :=
  let! '(root, _) := apply_batch_inner root ops None in st_ret root.

Definition apply_batch_recording (root : Root) (ops : list BatchOp)
    : st S ProllyError (Root * list (Hash * Hash)) :=
  let! '(root, rec) := apply_batch_inner root ops (Some []) in
  st_ret (root, match rec with Some pairs => pairs | None => [] end).

(** ** Point lookup *)

(** [partition_point]: the number of leading elements that satisfy [f]. *)
Fixpoint partition_point {A : Type} (f : A -> bool) (l : list A) : nat :=
  match l with
  | [] => 0
  | x :: l => if f x then Datatypes.S (partition_point f l) else 0
  end.

(** [binary_search_by] on a strictly sorted slice finds the one equal key. *)
Fixpoint search_key (key : bytes) (entries : list (bytes * bytes)) : option bytes :=
  match entries with
  | [] => None
  | (k, v) :: entries => if bool_decide (k = key) then Some v else search_key key entries
  end.

Fixpoint get_at (store : S) (level : nat) (h : Hash) (expect_last_key min_key_exclusive : option bytes)
    (key : bytes) : result ProllyError (option bytes) :=
  let? node := read_node store h level expect_last_key min_key_exclusive in
  match node with
  | Leaf entries => Ok (search_key key entries)
  | Inner refs =>
    let idx := partition_point (fun r => bytes_ltb (last_key r) key) refs in
    match refs !! idx with
    | None => Ok None
    | Some r =>
      let min_key_exclusive :=
        match idx with
        | O => min_key_exclusive
        | Datatypes.S i => option_map last_key (refs !! i)
        end in
      match level with
      | O => Err (corrupt "unreachable: level 0 is a leaf")
      | Datatypes.S level => get_at store level (hash r) (Some (last_key r)) min_key_exclusive key
      end
    end
  end.

Definition get (store : S) (root : Root) (key : bytes) : result ProllyError (option bytes) :=
  get_at store (top_level root) (root_hash root) None None key.
End tree.
