(* ===== verification/Manifest.v ===== *)
(** * The manifest (crates/acetone-model/src/manifest.rs)

    One graph version: the roots of its maps and the chunking parameters they
    were built with.  The envelope names a format version, and the table of
    retained decoders picks the reader of the body.  An error that the source
    carries as text is carried as the error the text is made from. *)
From stdpp Require Import sorting.
From S2P Require Import Prelude Ieee Model Cbor Canonical Store Chunker Node Tree GraphKeys.

Definition FORMAT_VERSION : Z := 1.

Inductive ManifestDecodeError : Type :=
| MCbor (e : ValueDecodeError)
| UnsupportedVersion (version : Z)
| MShape (what : string)
| MNotCanonical (what : string)
| MInvalidHash (e : StoreError)
| InvalidHeight (height : Z)
| MInvalidParams (e : ProllyError)
| EmptyIndexName.

Record MapRoot : Type := mkMapRoot { mr_hash : Hash; mr_height : Z }.

#[global] Instance map_root_eq_dec : EqDecision MapRoot.
Proof. solve_decision. Defined.

Definition from_root (root : Root) : MapRoot := mkMapRoot (root_hash root) (Z.of_nat (height root)).
Definition to_root (r : MapRoot) (p : ChunkParams) : result ProllyError Root :=
  root_new (mr_hash r) (Z.to_nat (mr_height r)) p.

Record Manifest : Type := mkManifest {
  chunk_params : ChunkParams; m_schema : MapRoot; m_nodes : MapRoot; m_edges_fwd : MapRoot;
  m_edges_rev : MapRoot; m_indexes : gmap bytes MapRoot; m_conflicts : option MapRoot }.

(** ** Encoding *)

Definition write_map_root (root : MapRoot) : bytes :=
  write_head MAJOR_ARRAY 2
  ++ write_head MAJOR_BYTES (Z.of_nat (length (as_bytes (mr_hash root)))) ++ as_bytes (mr_hash root)
  ++ write_head MAJOR_UNSIGNED (mr_height root).

Definition write_body (m : Manifest) : bytes :=
  write_head MAJOR_MAP (6 + match m_conflicts m with Some _ => 1 | None => 0 end)
  ++ write_text (text "nodes") ++ write_map_root (m_nodes m)
  ++ write_text (text "schema") ++ write_map_root (m_schema m)
  ++ write_text (text "indexes") ++ write_pure_map write_map_root (m_indexes m)
  ++ match m_conflicts m with Some r => write_text (text "conflicts") ++ write_map_root r | None => [] end
  ++ write_text (text "edges_fwd") ++ write_map_root (m_edges_fwd m)
  ++ write_text (text "edges_rev") ++ write_map_root (m_edges_rev m)
  ++ write_text (text "chunk_params") ++ write_head MAJOR_ARRAY 3
  ++ write_head MAJOR_UNSIGNED (min_bytes (chunk_params m))
  ++ write_head MAJOR_UNSIGNED (mask_bits (chunk_params m))
  ++ write_head MAJOR_UNSIGNED (max_bytes (chunk_params m)).

Definition manifest_encode (m : Manifest) : bytes :=
  write_head MAJOR_ARRAY 2 ++ write_head MAJOR_UNSIGNED FORMAT_VERSION ++ write_body m.

(** ** Decoding *)

Definition read_map_root (input : bytes) : result ManifestDecodeError (MapRoot * bytes) :=
  let? '(arity, input) := map_err MCbor (read_head MAJOR_ARRAY input) in
  if negb (arity =? 2)%Z then Err (MShape "map root must be [hash, height]")
  else
    let? '(len, input) := map_err MCbor (read_head MAJOR_BYTES input) in
    let? len := map_err MCbor (check_len len input) in
    let? '(b, input) := map_err MCbor (Cbor.read_exact len input) in
    let? hash := map_err MInvalidHash (hash_from_bytes b) in
    let? '(height, input) := map_err MCbor (read_head MAJOR_UNSIGNED input) in
    if (height =? 0)%Z || (Z.of_nat MAX_HEIGHT <? height)%Z then Err (InvalidHeight height)
    else Ok (mkMapRoot hash height, input).

Definition m_expect_field (name : bytes) (input : bytes) : result ManifestDecodeError (unit * bytes) :=
  expect_text MCbor (MNotCanonical "unexpected field name or order") name input.

Definition read_u32 (input : bytes) : result ManifestDecodeError (Z * bytes) :=
  let? '(v, input) := map_err MCbor (read_head MAJOR_UNSIGNED input) in
  if is_u32 v then Ok (v, input) else Err (MShape "chunk parameter out of u32 range").

(** The index names are tested before their order. *)
Definition check_index_name (name : bytes) : result ManifestDecodeError unit :=
  if is_empty name then Err EmptyIndexName else Ok tt.

Definition read_indexes (input : bytes) : result ManifestDecodeError (gmap bytes MapRoot * bytes) :=
  read_map MCbor (MNotCanonical "index names must be strictly ascending") check_index_name read_map_root input.

Definition read_body_fields (input : bytes) : result ManifestDecodeError (bool * bytes) :=
  let? '(fields, input) := map_err MCbor (read_head MAJOR_MAP input) in
  if (fields =? 6)%Z then Ok (false, input)
  else if (fields =? 7)%Z then Ok (true, input)
  else Err (MShape "manifest body must have six fields (seven mid-merge)").

Definition read_conflicts (present : bool) (input : bytes) : result ManifestDecodeError (option MapRoot * bytes) :=
  if present then
    let? '(_, input) := m_expect_field (text "conflicts") input in
    let? '(r, input) := read_map_root input in
    Ok (Some r, input)
  else Ok (None, input).

Definition read_chunk_params (input : bytes) : result ManifestDecodeError (ChunkParams * bytes) :=
  let? '(arity, input) := map_err MCbor (read_head MAJOR_ARRAY input) in
  if negb (arity =? 3)%Z then Err (MShape "chunk_params must be [min_bytes, mask_bits, max_bytes]")
  else
    let? '(min_bytes, input) := read_u32 input in
    let? '(mask_bits, input) := read_u32 input in
    let? '(max_bytes, input) := read_u32 input in
    let? p := map_err MInvalidParams (params_new min_bytes mask_bits max_bytes) in
    Ok (p, input).

Definition read_body_current (input : bytes) : result ManifestDecodeError (Manifest * bytes) :=
  let? '(present, input) := read_body_fields input in
  let? '(_, input) := m_expect_field (text "nodes") input in
  let? '(nodes, input) := read_map_root input in
  let? '(_, input) := m_expect_field (text "schema") input in
  let? '(schema, input) := read_map_root input in
  let? '(_, input) := m_expect_field (text "indexes") input in
  let? '(indexes, input) := read_indexes input in
  let? '(conflicts, input) := read_conflicts present input in
  let? '(_, input) := m_expect_field (text "edges_fwd") input in
  let? '(edges_fwd, input) := read_map_root input in
  let? '(_, input) := m_expect_field (text "edges_rev") input in
  let? '(edges_rev, input) := read_map_root input in
  let? '(_, input) := m_expect_field (text "chunk_params") input in
  let? '(p, input) := read_chunk_params input in
  Ok (mkManifest p schema nodes edges_fwd edges_rev indexes conflicts, input).

Definition decode_v1_body (input : bytes) : result ManifestDecodeError Manifest :=
  let? '(m, input) := read_body_current input in at_end MCbor m input.

Abbreviation BodyDecoder := (bytes -> result ManifestDecodeError Manifest).

(** [find_map] over the table; a version past [u32] names no decoder. *)
Fixpoint find_decoder (version : Z) (decoders : list (Z * BodyDecoder)) : option BodyDecoder :=
  match decoders with
  | [] => None
  | (v, d) :: decoders => if (v =? version)%Z then Some d else find_decoder version decoders
  end.

Definition decode_with (input : bytes) (decoders : list (Z * BodyDecoder)) : result ManifestDecodeError Manifest :=
  let? '(arity, input) := map_err MCbor (read_head MAJOR_ARRAY input) in
  if negb (arity =? 2)%Z then Err (MShape "manifest must be [format_version, body]")
  else
    let? '(version, input) := map_err MCbor (read_head MAJOR_UNSIGNED input) in
    match (if is_u32 version then find_decoder version decoders else None) with
    | Some decode_body => decode_body input
    | None => Err (UnsupportedVersion version)
    end.

Definition DECODERS : list (Z * BodyDecoder) := [(FORMAT_VERSION, decode_v1_body)].

Definition manifest_decode (input : bytes) : result ManifestDecodeError Manifest := decode_with input DECODERS.

(** ** Codecs of the parts *)

Definition map_root_ok (r : MapRoot) : Prop := (1 <= mr_height r <= Z.of_nat MAX_HEIGHT)%Z.

Lemma hash_len_u64 h : is_u64 (Z.of_nat (length (as_bytes h))) = true.
Proof.
  pose proof (hash_width_ok h) as H. unfold hash_width in H. apply orb_true_iff in H.
  by destruct H as [->%Nat.eqb_eq| ->%Nat.eqb_eq].
Qed.

Lemma height_u64 r : map_root_ok r -> is_u64 (mr_height r) = true.
Proof. unfold map_root_ok. change (Z.of_nat MAX_HEIGHT) with 64%Z. intros H. apply in_range_spec. lia. Qed.

#[local] Instance map_root_codec : PureCodec read_map_root write_map_root map_root_ok.
Proof.
  split.
  - intros r rest Hr. pose proof (height_u64 r Hr) as Hh. pose proof (hash_len_u64 (mr_hash r)) as Hl.
    unfold read_map_root, write_map_root. rewrite <-!app_assoc, read_head_write by done. cbn [map_err rbind Z.eqb Pos.eqb negb].
    rewrite read_head_write by done. cbn [map_err rbind].
    rewrite check_len_app by (rewrite length_app; lia). cbn [map_err rbind].
    rewrite read_exact_app. cbn [map_err rbind]. rewrite hash_from_as_bytes. cbn [map_err rbind].
    rewrite read_head_write by done. cbn [map_err rbind]. unfold map_root_ok in Hr.
    destruct (Z.eqb_spec (mr_height r) 0); [lia|]. destruct (Z.ltb_spec (Z.of_nat MAX_HEIGHT) (mr_height r)); [lia|].
    by destruct r.
  - intros input r rest H. unfold read_map_root in H. apply rbind_Ok in H as ([a r1] & Ha & H).
    apply map_err_Ok, read_head_Ok in Ha as [-> _]. destruct (Z.eqb_spec a 2) as [->|]; [|done]. cbn [negb] in H.
    apply rbind_Ok in H as ([l r2] & Hl & H). apply map_err_Ok, read_head_Ok in Hl as [-> Hlu].
    apply rbind_Ok in H as (n & Hn & H). apply map_err_Ok, check_len_Ok in Hn as [-> _]; [|unrange; lia].
    apply rbind_Ok in H as ([b r3] & Hb & H). apply map_err_Ok, read_exact_Ok in Hb as [-> Hbl].
    apply rbind_Ok in H as (h & Hh & H). apply map_err_Ok, hash_from_bytes_Ok in Hh as <-.
    apply rbind_Ok in H as ([t r4] & Ht & H). apply map_err_Ok, read_head_Ok in Ht as [-> Htu].
    destruct ((t =? 0)%Z || (Z.of_nat MAX_HEIGHT <? t)%Z) eqn:E; [done|]. apply Ok_inj in H as [= <- <-].
    apply orb_false_iff in E as [E0 E1]. apply Z.eqb_neq in E0. apply Z.ltb_ge in E1. unrange.
    unfold write_map_root, map_root_ok. cbn [mr_hash mr_height]. rewrite Hbl, <-!app_assoc. split; [done|lia].
Qed.

Definition indexes_ok (m : gmap bytes MapRoot) : Prop := map_ok check_index_name map_root_ok m.

#[local] Instance indexes_codec : PureCodec read_indexes (write_pure_map write_map_root) indexes_ok.
Proof. apply pure_map_codec, map_root_codec. Qed.

Definition write_chunk_params (p : ChunkParams) : bytes :=
  write_head MAJOR_ARRAY 3 ++ write_head MAJOR_UNSIGNED (min_bytes p)
  ++ write_head MAJOR_UNSIGNED (mask_bits p) ++ write_head MAJOR_UNSIGNED (max_bytes p).

(** Parameters the constructor accepts, in the width of their fields. *)
Definition chunk_params_ok (p : ChunkParams) : Prop :=
  params_new (min_bytes p) (mask_bits p) (max_bytes p) = Ok p /\
  is_u32 (min_bytes p) = true /\ is_u32 (mask_bits p) = true /\ is_u32 (max_bytes p) = true.

Lemma u32_u64 z : is_u32 z = true -> is_u64 z = true.
Proof. intros H. apply in_range_spec in H. apply in_range_spec. lia. Qed.

#[local] Instance u32_codec : PureCodec read_u32 (write_head MAJOR_UNSIGNED) (fun v => is_u32 v = true).
Proof.
  split.
  - intros v rest Hv. unfold read_u32. rewrite read_head_write; [|done|by apply u32_u64]. cbn [map_err rbind]. by rewrite Hv.
  - intros input v rest H. unfold read_u32 in H. apply rbind_Ok in H as ([v' r] & Hv & H).
    apply map_err_Ok, read_head_Ok in Hv as [-> _]. destruct (is_u32 v') eqn:E; [|done].
    by apply Ok_inj in H as [= <- <-].
Qed.

#[local] Instance chunk_params_codec : PureCodec read_chunk_params write_chunk_params chunk_params_ok.
Proof.
  split.
  - intros p rest (Hp & H1 & H2 & H3). unfold read_chunk_params, write_chunk_params.
    rewrite <-!app_assoc, read_head_write by done. cbn [map_err rbind Z.eqb Pos.eqb negb].
    rewrite (pure_write (PureCodec := u32_codec) (min_bytes p)) by done. cbn [rbind].
    rewrite (pure_write (PureCodec := u32_codec) (mask_bits p)) by done. cbn [rbind].
    rewrite (pure_write (PureCodec := u32_codec) (max_bytes p)) by done. cbn [rbind]. by rewrite Hp.
  - intros input p rest H. unfold read_chunk_params in H. apply rbind_Ok in H as ([a r1] & Ha & H).
    apply map_err_Ok, read_head_Ok in Ha as [-> _]. destruct (Z.eqb_spec a 3) as [->|]; [|done]. cbn [negb] in H.
    apply rbind_Ok in H as ([x r2] & Hx & H). apply rbind_Ok in H as ([y r3] & Hy & H).
    apply rbind_Ok in H as ([z r4] & Hz & H).
    unfold read_u32 in Hx, Hy, Hz.
    apply rbind_Ok in Hx as ([x' ?] & Hx & Ex). destruct (is_u32 x') eqn:Ux; [|done]. apply Ok_inj in Ex as [= -> ->].
    apply rbind_Ok in Hy as ([y' ?] & Hy & Ey). destruct (is_u32 y') eqn:Uy; [|done]. apply Ok_inj in Ey as [= -> ->].
    apply rbind_Ok in Hz as ([z' ?] & Hz & Ez). destruct (is_u32 z') eqn:Uz; [|done]. apply Ok_inj in Ez as [= -> ->].
    apply map_err_Ok, read_head_Ok in Hx as [-> _], Hy as [-> _], Hz as [-> _].
    apply rbind_Ok in H as (p' & Hp & H). apply map_err_Ok in Hp. apply Ok_inj in H as [= -> ->].
    assert (p = mkParams x y z) as ->.
    { unfold params_new in Hp. repeat case_match; try done. by apply Ok_inj in Hp. }
    unfold write_chunk_params, chunk_params_ok. cbn [min_bytes mask_bits max_bytes]. by rewrite <-!app_assoc.
Qed.

(** ** The manifest codec *)

Definition manifest_ok (m : Manifest) : Prop :=
  chunk_params_ok (chunk_params m) /\ map_root_ok (m_schema m) /\ map_root_ok (m_nodes m) /\
  map_root_ok (m_edges_fwd m) /\ map_root_ok (m_edges_rev m) /\ indexes_ok (m_indexes m) /\
  match m_conflicts m with Some r => map_root_ok r | None => True end.

Lemma m_expect_field_write name rest : str_ok name = true -> m_expect_field name (write_text name ++ rest) = Ok (tt, rest).
Proof. apply expect_text_write. Qed.

Lemma m_expect_field_Ok name input u rest : m_expect_field name input = Ok (u, rest) -> input = write_text name ++ rest.
Proof. apply expect_text_Ok. Qed.

Definition write_conflicts (o : option MapRoot) : bytes :=
  match o with Some r => write_text (text "conflicts") ++ write_map_root r | None => [] end.

Lemma read_conflicts_write o rest :
  match o with Some r => map_root_ok r | None => True end ->
  read_conflicts (match o with Some _ => true | None => false end) (write_conflicts o ++ rest) = Ok (o, rest).
Proof.
  destruct o as [r|]; [|done]. intros Hr. unfold read_conflicts, write_conflicts. rewrite <-app_assoc.
  rewrite m_expect_field_write by (vm_compute; reflexivity). cbn [rbind].
  rewrite (pure_write (PureCodec := map_root_codec)) by done. done.
Qed.

Lemma read_conflicts_Ok present input o rest :
  read_conflicts present input = Ok (o, rest) ->
  input = write_conflicts o ++ rest /\ present = (match o with Some _ => true | None => false end) /\
  ((Z.of_nat (length (write_conflicts o)) < 2 ^ 63)%Z -> match o with Some r => map_root_ok r | None => True end).
Proof.
  unfold read_conflicts. destruct present; [|by intros [= <- <-]]. intros H.
  apply rbind_Ok in H as ([u r1] & Hu & H). apply m_expect_field_Ok in Hu as ->.
  apply rbind_Ok in H as ([r r2] & Hr & H). apply (pure_read (PureCodec := map_root_codec)) in Hr as [-> Hok].
  apply Ok_inj in H as [= <- <-]. unfold write_conflicts. rewrite <-app_assoc, length_app. split_and!; [done|done|].
  intros. apply Hok. lia.
Qed.

Lemma read_body_fields_write (present : bool) rest :
  read_body_fields (write_head MAJOR_MAP (6 + if present then 1 else 0) ++ rest) = Ok (present, rest).
Proof. unfold read_body_fields. destruct present; rewrite read_head_write by done; done. Qed.

Lemma read_body_fields_Ok input present rest :
  read_body_fields input = Ok (present, rest) -> input = write_head MAJOR_MAP (6 + if present then 1 else 0)%Z ++ rest.
Proof.
  unfold read_body_fields. intros H. apply rbind_Ok in H as ([n r] & Hn & H). apply map_err_Ok, read_head_Ok in Hn as [-> _].
  destruct (Z.eqb_spec n 6) as [->|]; [by apply Ok_inj in H as [= <- <-]|].
  destruct (Z.eqb_spec n 7) as [->|]; [by apply Ok_inj in H as [= <- <-]|done].
Qed.

Lemma write_body_conflicts m : write_body m =
  write_head MAJOR_MAP (6 + if (match m_conflicts m with Some _ => true | None => false end) then 1 else 0)
  ++ write_text (text "nodes") ++ write_map_root (m_nodes m)
  ++ write_text (text "schema") ++ write_map_root (m_schema m)
  ++ write_text (text "indexes") ++ write_pure_map write_map_root (m_indexes m)
  ++ write_conflicts (m_conflicts m)
  ++ write_text (text "edges_fwd") ++ write_map_root (m_edges_fwd m)
  ++ write_text (text "edges_rev") ++ write_map_root (m_edges_rev m)
  ++ write_text (text "chunk_params") ++ write_chunk_params (chunk_params m).
Proof. unfold write_body, write_chunk_params. by destruct (m_conflicts m). Qed.

Ltac body_write :=
  repeat first [ rewrite m_expect_field_write by (vm_compute; reflexivity)
               | rewrite (pure_write (PureCodec := map_root_codec)) by done
               | rewrite (pure_write (PureCodec := indexes_codec)) by done
               | rewrite (pure_write (PureCodec := chunk_params_codec)) by done
               | rewrite read_conflicts_write by done
               | progress cbn [rbind] ].

Lemma read_body_write m rest : manifest_ok m -> read_body_current (write_body m ++ rest) = Ok (m, rest).
Proof.
  intros (Hp & Hs & Hn & Hf & Hr & Hi & Hc). rewrite write_body_conflicts. unfold read_body_current.
  rewrite <-!app_assoc, read_body_fields_write. body_write. by destruct m.
Qed.

Ltac body_step H :=
  let x := fresh "x" in let r := fresh "r" in let Hx := fresh "Hx" in let Hok := fresh "Hok" in
  apply rbind_Ok in H as ([x r] & Hx & H);
  first [ apply m_expect_field_Ok in Hx as -> | apply pure_read in Hx as [-> Hok] ].

Lemma read_body_Ok input m rest :
  (Z.of_nat (length input) < 2 ^ 63)%Z -> read_body_current input = Ok (m, rest) ->
  input = write_body m ++ rest /\ manifest_ok m.
Proof.
  intros Hlen H. unfold read_body_current in H.
  apply rbind_Ok in H as ([present r0] & Hx & H). apply read_body_fields_Ok in Hx as ->.
  do 6 body_step H.
  apply rbind_Ok in H as ([o r1] & Hx & H). apply read_conflicts_Ok in Hx as (-> & -> & Hoko).
  do 6 body_step H. apply Ok_inj in H as [= <- <-]. rewrite !length_app in Hlen.
  specialize (Hok ltac:(lia)). specialize (Hok0 ltac:(lia)). specialize (Hok1 ltac:(lia)).
  specialize (Hoko ltac:(lia)). specialize (Hok2 ltac:(lia)). specialize (Hok3 ltac:(lia)). specialize (Hok4 ltac:(lia)).
  rewrite write_body_conflicts. unfold manifest_ok.
  cbn [chunk_params m_schema m_nodes m_edges_fwd m_edges_rev m_indexes m_conflicts].
  split; [by rewrite <-!app_assoc|]. auto 10.
Qed.

Lemma manifest_envelope v body decoders :
  is_u64 v = true ->
  decode_with (write_head MAJOR_ARRAY 2 ++ write_head MAJOR_UNSIGNED v ++ body) decoders =
  match (if is_u32 v then find_decoder v decoders else None) with
  | Some decode_body => decode_body body
  | None => Err (UnsupportedVersion v)
  end.
Proof.
  intros Hv. unfold decode_with. rewrite read_head_write by done. cbn [map_err rbind Z.eqb Pos.eqb negb].
  by rewrite read_head_write.
Qed.

Lemma manifest_decode_Ok input m :
  (Z.of_nat (length input) < 2 ^ 63)%Z -> manifest_decode input = Ok m -> manifest_encode m = input /\ manifest_ok m.
Proof.
  intros Hlen H. unfold manifest_decode, decode_with in H. apply rbind_Ok in H as ([a r1] & Ha & H).
  apply map_err_Ok, read_head_Ok in Ha as [-> _]. destruct (Z.eqb_spec a 2) as [->|]; [|done]. cbn [negb] in H.
  apply rbind_Ok in H as ([v r2] & Hv & H). apply map_err_Ok, read_head_Ok in Hv as [-> _].
  destruct (is_u32 v); [|done]. cbn [DECODERS find_decoder] in H.
  destruct (Z.eqb_spec FORMAT_VERSION v) as [<-|]; [|done]. unfold decode_v1_body in H.
  apply rbind_Ok in H as ([m' rest] & Hb & H). destruct rest; [|done]. apply Ok_inj in H as ->.
  rewrite !length_app in Hlen. apply read_body_Ok in Hb as [-> Hok]; [|lia]. rewrite app_nil_r.
  by unfold manifest_encode.
Qed.

(** C40: manifests have one encoding: bytes decode to a manifest exactly when
    its roots, index names and parameters are valid and they are its encoding. *)
Theorem manifest_codec input m :
  (Z.of_nat (length input) < 2 ^ 63)%Z ->
  manifest_decode input = Ok m <-> manifest_encode m = input /\ manifest_ok m.
Proof.
  intros Hlen. split; [by apply manifest_decode_Ok|].
  intros [<- Hok]. unfold manifest_decode, manifest_encode. rewrite manifest_envelope by done.
  change (is_u32 FORMAT_VERSION) with true. cbn [DECODERS find_decoder]. rewrite Z.eqb_refl.
  unfold decode_v1_body. rewrite <-(app_nil_r (write_body m)), read_body_write by done. done.
Qed.

(** The version gate: whatever the body, an envelope is read by the first
    retained decoder of its version, and one that names a version without a
    decoder, or beyond [u32], is refused before its body is looked at. *)
Lemma version_gate v body decoders :
  is_u64 v = true ->
  let input := write_head MAJOR_ARRAY 2 ++ write_head MAJOR_UNSIGNED v ++ body in
  ((is_u32 v = false \/ v ∉ map fst decoders) -> decode_with input decoders = Err (UnsupportedVersion v)) /\
  (forall before d after, decoders = before ++ (v, d) :: after -> v ∉ map fst before -> is_u32 v = true ->
     decode_with input decoders = d body).
Proof.
  intros Hv. cbv zeta. rewrite manifest_envelope by done. split.
  - intros [-> |Hn]; [done|]. assert (find_decoder v decoders = None) as ->; [|by destruct (is_u32 v)].
    induction decoders as [|[w d] l IH]; [done|]. cbn [map fst] in Hn. apply not_elem_of_cons in Hn as [Hw Hn].
    cbn [find_decoder]. destruct (Z.eqb_spec w v); [congruence|auto].
  - intros before d after -> Hn ->. assert (find_decoder v (before ++ (v, d) :: after) = Some d) as ->; [|done].
    induction before as [|[w d'] l IH]; cbn [app find_decoder]; [by rewrite Z.eqb_refl|].
    cbn [map fst] in Hn. apply not_elem_of_cons in Hn as [Hw Hn]. destruct (Z.eqb_spec w v); [congruence|auto].
Qed.

(** The roots of a decoded manifest are readable: each gives a root of
    its tree under the manifest's parameters, from which it is captured again,
    so trees found through a manifest never fail the height check. *)
Lemma decoded_roots_readable input m r :
  (Z.of_nat (length input) < 2 ^ 63)%Z -> manifest_decode input = Ok m ->
  r = m_schema m \/ r = m_nodes m \/ r = m_edges_fwd m \/ r = m_edges_rev m \/
    m_conflicts m = Some r \/ (exists name, m_indexes m !! name = Some r) ->
  exists root, to_root r (chunk_params m) = Ok root /\ params root = chunk_params m /\ from_root root = r.
Proof.
  intros Hlen H Hin. apply manifest_decode_Ok in H as [_ (_ & Hs & Hn & Hf & Hr & Hi & Hc)]; [|done].
  assert (map_root_ok r) as Hok.
  { destruct Hin as [-> |[-> |[-> |[-> |[Ec|[name E]]]]]]; try done.
    - by rewrite Ec in Hc.
    - destruct Hi as [Hi _]. by apply Hi in E as [_ E]. }
  unfold map_root_ok in Hok. exists (mkRoot (mr_hash r) (Z.to_nat (mr_height r)) (chunk_params m)).
  unfold to_root, root_new. destruct (Nat.eqb_spec (Z.to_nat (mr_height r)) 0); [lia|].
  destruct (Nat.ltb_spec MAX_HEIGHT (Z.to_nat (mr_height r))); [lia|]. split; [done|]. split; [done|].
  unfold from_root. cbn [root_hash height]. rewrite Z2Nat.id by lia. by destruct r.
Qed.

(** ** The theorems at a concrete manifest *)

Definition sample_root (b : byte) (h : Z) : MapRoot :=
  match hash_from_bytes (repeat b 20) with Ok x => mkMapRoot x h | Err _ => mkMapRoot (mkHash (repeat x00 20) eq_refl) h end.
Definition sample_manifest : Manifest :=
  mkManifest default_params (sample_root x01 1) (sample_root x02 3) (sample_root x03 2) (sample_root x04 64)
    {[ text "by_age" := sample_root x05 1; text "z" := sample_root x06 2 ]} (Some (sample_root x07 1)).
Definition sample_manifest_bytes : bytes := Eval vm_compute in manifest_encode sample_manifest.

Lemma sample_manifest_ok : manifest_ok sample_manifest.
Proof.
  assert (forall b h, (1 <= h <= 64)%Z -> map_root_ok (sample_root b h)) as Hroot.
  { intros b h Hh. unfold map_root_ok. change (Z.of_nat MAX_HEIGHT) with 64%Z. unfold sample_root. by case_match. }
  split; [split_and!; vm_compute; reflexivity|].
  split; [apply Hroot; lia|]. split; [apply Hroot; lia|]. split; [apply Hroot; lia|]. split; [apply Hroot; lia|].
  split; [|apply Hroot; lia]. split; [|vm_compute; reflexivity].
  apply map_Forall_insert_2; [|apply map_Forall_singleton];
    (split; [split; vm_compute; reflexivity|apply Hroot; lia]).
Qed.

Lemma manifest_codec_witness : manifest_decode sample_manifest_bytes = Ok sample_manifest.
Proof. apply manifest_codec; [vm_compute; reflexivity|]. split; [vm_compute; reflexivity|apply sample_manifest_ok]. Defined.

Lemma version_gate_witness :
  decode_with (write_head MAJOR_ARRAY 2 ++ write_head MAJOR_UNSIGNED 2 ++ [xff]) DECODERS = Err (UnsupportedVersion 2).
Proof.
  apply (version_gate 2 [xff] DECODERS); [done|]. right. cbn. rewrite not_elem_of_cons. split; [done|].
  apply not_elem_of_nil.
Defined.

Lemma decoded_roots_readable_witness :
  exists root, to_root (sample_root x05 1) default_params = Ok root /\ params root = default_params /\ from_root root = sample_root x05 1.
Proof.
  apply (decoded_roots_readable sample_manifest_bytes sample_manifest);
    [vm_compute; reflexivity|vm_compute; reflexivity|].
  do 5 right. exists (text "by_age"). vm_compute. reflexivity.
Defined.
