(* ===== verification/TreeQueue.v ===== *)
(** * The queue and the recorder

    Two ways [chunk_level] of Tree.v is the source's: the recursion over items
    is the loop over the queue of pending items, which ends, and the recorder
    of [apply_batch_recording] observes the build without changing it. *)
From S2P Require Import Prelude Store Chunker Node Tree.

(** ** The queue loop ends, and is the recursion *)

(** An item's level is at most [d]: the levels it can still open. *)
Definition item_below (d : nat) (it : Item) : Prop :=
  match it with ISubtree _ level _ => level <= d | _ => True end.

Lemma child_items_below d level sub fin refs :
  sub <= Datatypes.S d -> Forall (item_below d) (child_items level sub fin refs).
Proof.
  intros Hd. assert (forall b r, item_below d (child_item level sub b r)) as Hc.
  { intros b r. unfold child_item. case_match; [done|]. simpl. lia. }
  induction refs as [|r [|r' refs] IH]; [constructor|by constructor|by constructor].
Qed.

Section queue.
Context {S : Type} {CS : ChunkStore S}.
Implicit Types (s : S) (b : LevelBuilder) (it : Item).

Lemma st_bind_assoc {A B C : Type} (m : st S ProllyError A) (f : A -> st S ProllyError B)
    (g : B -> st S ProllyError C) s :
  st_bind (st_bind m f) g s = st_bind m (fun a => st_bind (f a) g) s.
Proof. unfold st_bind. by destruct (m s) as [[a|e] s']. Qed.

Lemma st_bind_ext {A B : Type} (m : st S ProllyError A) (f g : A -> st S ProllyError B) s :
  (forall a s', m s = (Ok a, s') -> f a s' = g a s') -> st_bind m f s = st_bind m g s.
Proof. unfold st_bind. destruct (m s) as [[a|e] s'] eqn:E; [by intros H; apply H|done]. Qed.

Lemma read_node_level_0 s h expect lower refs : read_node s h 0 expect lower <> Ok (Inner refs).
Proof.
  unfold read_node. intros H. apply rbind_Ok in H as ([data|] & _ & H); [|done].
  apply rbind_Ok in H as (node & H & Hn). assert (node = Inner refs) as ->.
  { clear H. revert Hn. repeat case_match; intros Hn; (by apply Ok_inj in Hn) || done. }
  unfold decode_node in H. apply rbind_Ok in H as ([level rest] & _ & H).
  destruct (level =? Z.of_nat 0)%Z eqn:El; cbn [negb] in H; [|done].
  apply rbind_Ok in H as ([count rest'] & _ & H). change (Z.of_nat 0) with 0%Z in El. rewrite El in H.
  apply rbind_Ok in H as ([node' rest''] & H & Hn'). apply rbind_Ok in H as ([es r] & _ & H).
  apply Ok_inj in H. clear Hn. simplify_eq. by destruct rest''.
Qed.

(** A step whose continuation agrees for enough fuel agrees for enough fuel. *)
Lemma enough_bind {A B : Type} (m : st S ProllyError A) (g : nat -> A -> st S ProllyError B)
    (k : A -> st S ProllyError B) s :
  (forall a s', m s = (Ok a, s') -> exists f, forall f', f <= f' -> g f' a s' = k a s') ->
  exists f, forall f', f <= f' -> st_bind m (g f') s = st_bind m k s.
Proof.
  intros H. unfold st_bind. destruct (m s) as [[a|e] s'] eqn:E; [by apply H|by exists 0].
Qed.

Lemma enough_succ {A : Type} (g : nat -> A) (a : A) :
  (exists f, forall f', f <= f' -> g (Datatypes.S f') = a) -> exists f, forall f', f <= f' -> g f' = a.
Proof.
  intros [f Hf]. exists (Datatypes.S f). intros [|f'] H; [lia|]. apply Hf. lia.
Qed.

Abbreviation is_nil l := (match l with [] => true | _ :: _ => false end).

Lemma is_nil_app {A : Type} (l k : list A) : is_nil (l ++ k) = is_nil k && is_nil l.
Proof. by destruct l, k. Qed.

(** The loop from a queue that starts with [items] runs the recursion on them
    and goes on as [K], when the rest of the queue runs as [K]. *)
Lemma chunk_queue_each d : forall items, Forall (item_below d) items ->
  forall rest b s (K : LevelBuilder -> st S ProllyError LevelBuilder),
  (forall b' s', each_item (chunk_item d) (is_nil rest) b items s = (Ok b', s') ->
     exists f, forall f', f <= f' -> chunk_queue f' b' rest s' = K b' s') ->
  exists f, forall f', f <= f' ->
    chunk_queue f' b (items ++ rest) s =
    st_bind (each_item (chunk_item d) (is_nil rest) b items) K s.
Proof.
  induction d as [d IHd] using (well_founded_induction lt_wf).
  induction items as [|it items IH]; intros Hit rest b s K HK; [by apply HK|].
  apply Forall_cons_1 in Hit as [Hi Hit]. cbn [app each_item].
  setoid_rewrite st_bind_assoc. apply enough_succ.
  assert (forall b1 s1, chunk_item d b it (is_nil rest && is_nil items) s = (Ok b1, s1) ->
    exists f, forall f', f <= f' -> chunk_queue f' b1 (items ++ rest) s1 =
      st_bind (each_item (chunk_item d) (is_nil rest) b1 items) K s1) as Hnext.
  { intros b1 s1 E. apply IH; [done|]. intros b' s' E'. apply HK. cbn [each_item].
    unfold st_bind. by rewrite E. }
  cbn [chunk_queue]. rewrite is_nil_app. destruct it as [node fin|node sub fin|es base].
  1, 3: by destruct d; apply enough_bind.
  destruct d as [|d]; cbn [chunk_item] in Hnext |- *; destruct (at_boundary b && _) eqn:Eb;
    try (eapply (Hnext _ s); done).
  - simpl in Hi. assert (sub = 0) as -> by lia. exists 0. intros f' _. unfold st_bind, st_read.
    destruct (read_node _ _ _ _ _) as [[es|refs]|e] eqn:En; [done| |done].
    by apply read_node_level_0 in En.
  - setoid_rewrite st_bind_assoc. apply enough_bind. intros n s' En.
    destruct n as [es|refs]; [by exists 0|]. unfold st_read in En. injection En as En <-.
    destruct (IHd d ltac:(lia) (child_items (b_level b) sub fin refs)) with
      (rest := items ++ rest) (b := b) (s := s)
      (K := fun b1 => st_bind (each_item (chunk_item (Datatypes.S d)) (is_nil rest) b1 items) K)
      as [f Hf].
    + apply child_items_below. done.
    + intros b1 s1 E1. rewrite is_nil_app in E1. apply Hnext. unfold st_bind, st_read. by rewrite En.
    + exists f. intros f' Hf'. rewrite Hf by done. by rewrite is_nil_app.
Qed.

(** The queue loop of [chunk_level] ends, and computes what the recursion
    [chunk_items] computes: with enough fuel the loop over the pending items
    returns the same builder or error and leaves the same store. *)
Lemma chunk_queue_items b items s :
  Forall (item_below MAX_HEIGHT) items ->
  exists fuel, forall f, fuel <= f -> chunk_queue f b items s = chunk_items b items s.
Proof.
  intros Hit. destruct (chunk_queue_each MAX_HEIGHT items Hit [] b s st_ret) as [fuel Hf].
  - intros b' s' _. exists 0. by intros [|f].
  - exists fuel. intros f Hle. specialize (Hf f Hle). rewrite app_nil_r in Hf. rewrite Hf.
    unfold chunk_items, st_bind. by destruct (each_item _ _ _ _ _) as [[b'|e] s'].
Qed.
End queue.

(** ** The recorder only observes

    [mutes f m m']: [m'] is [m] with the value passed through [f]. *)

Definition mutes {S A B : Type} (f : A -> B) (m : st S ProllyError A) (m' : st S ProllyError B) : Prop :=
  forall s, m' s = (match (m s).1 with Ok a => Ok (f a) | Err e => Err e end, (m s).2).

Lemma mutes_ret {S A B : Type} (f : A -> B) (a : A) : mutes (S := S) f (st_ret a) (st_ret (f a)).
Proof. done. Qed.

Lemma mutes_id {S A : Type} (m : st S ProllyError A) : mutes id m m.
Proof. intros s. by destruct (m s) as [[a|e] s']. Qed.

Lemma mutes_bind {S A B C D : Type} (f : A -> B) (g : C -> D) (m : st S ProllyError A)
    (m' : st S ProllyError B) (k : A -> st S ProllyError C) (k' : B -> st S ProllyError D) :
  mutes f m m' -> (forall a, mutes g (k a) (k' (f a))) -> mutes g (st_bind m k) (st_bind m' k').
Proof.
  intros Hm Hk s. unfold st_bind. rewrite Hm. destruct (m s) as [[a|e] s']; simpl; [apply Hk|done].
Qed.

Lemma mutes_if {S A B : Type} (f : A -> B) (c : bool) (m n : st S ProllyError A) m' n' :
  mutes f m m' -> mutes f n n' -> mutes f (if c then m else n) (if c then m' else n').
Proof. by destruct c. Qed.

Lemma mutes_err {S A B : Type} (f : A -> B) (e : ProllyError) :
  mutes (S := S) f (st_read (fun _ => Err e)) (st_read (fun _ => Err e)).
Proof. done. Qed.

Definition mute (b : LevelBuilder) : LevelBuilder :=
  mkBuilder (b_level b) (b_chunker b) (b_buf b) (b_count b) (b_last_key b) (b_out b)
    (b_current_base b) None.

Definition mute_out {A : Type} (r : A * option (list (Hash * Hash))) : A * option (list (Hash * Hash)) :=
  (r.1, None).

Lemma mutes_ret_out {S A : Type} (a : A) rec :
  mutes (S := S) mute_out (st_ret (a, rec)) (st_ret (a, None)).
Proof. done. Qed.

Section recorder.
Context {S : Type} {CS : ChunkStore S}.

Lemma mutes_read {A B : Type} (g : A -> B) (f : S -> result ProllyError Node)
    (k : Node -> st S ProllyError A) k' :
  (forall n, mutes g (k n) (k' n)) -> mutes g (st_bind (st_read f) k) (st_bind (st_read f) k').
Proof. intros H. eapply mutes_bind; [apply mutes_id|done]. Qed.

Lemma emit_mute b : mutes mute (emit b) (emit (mute b)).
Proof. apply (mutes_bind id); [apply mutes_id|]. intros h. by destruct b. Qed.

Lemma push_mute b e : mutes mute (push b e) (push (mute b) e).
Proof.
  unfold push. apply (mutes_bind id); [apply mutes_id|]. intros bs. cbn [id].
  apply mutes_if; [apply mutes_err|]. cbn [mute b_chunker]. destruct (feed_entry _ bs) as [cut c].
  pose (b' := mkBuilder (b_level b) c (b_buf b ++ bs) (b_count b + 1) (entry_key e)
    (b_out b) (b_current_base b) (b_recorder b)).
  apply mutes_if; [apply (emit_mute b')|apply (mutes_ret mute b')].
Qed.

Lemma push_all_mute es b : mutes mute (push_all b es) (push_all (mute b) es).
Proof.
  revert b. induction es as [|e es IH]; intros b; cbn [push_all]; [apply mutes_ret|].
  eapply mutes_bind; [apply push_mute|done].
Qed.

Lemma old_item_mute b node fin is_last : mutes mute (old_item b node fin is_last) (old_item (mute b) node fin is_last).
Proof.
  unfold old_item. apply mutes_if; [apply (mutes_ret mute (push_out (OChunk node) b))|].
  apply mutes_read. intros n. apply (push_all_mute _ (set_base (Some (hash node)) b)).
Qed.

Lemma each_item_mute (f : LevelBuilder -> Item -> bool -> st S ProllyError LevelBuilder) is_last items :
  (forall b it l, mutes mute (f b it l) (f (mute b) it l)) ->
  forall b, mutes mute (each_item f is_last b items) (each_item f is_last (mute b) items).
Proof.
  intros Hf. induction items as [|it items IH]; intros b; cbn [each_item]; [apply mutes_ret|].
  by eapply mutes_bind.
Qed.

Lemma chunk_item_mute d b it is_last : mutes mute (chunk_item d b it is_last) (chunk_item d (mute b) it is_last).
Proof.
  revert b it is_last. induction d as [|d IH]; intros b [node fin|node sub fin|es base] is_last; cbn [chunk_item];
    try apply old_item_mute; try apply (push_all_mute _ (set_base base b));
    (apply mutes_if; [apply (mutes_ret mute (push_out (OSubtree node sub fin) b))|]);
    apply mutes_read; intros [n|refs]; try apply mutes_err. apply (each_item_mute (chunk_item d)), IH.
Qed.

Lemma chunk_level_mute level p items rec :
  mutes mute_out (chunk_level level p items rec) (chunk_level level p items None).
Proof.
  unfold chunk_level. eapply mutes_bind; [apply (each_item_mute (chunk_item MAX_HEIGHT)); intros; apply chunk_item_mute|].
  intros b. apply (mutes_bind mute); [apply mutes_if; [apply emit_mute|apply mutes_ret]|]. clear b. intros b.
  apply (mutes_bind mute); [|intros b'; apply mutes_ret_out].
  cbn [mute b_out]. destruct (b_out b); [apply mutes_if; [apply emit_mute|]|]; apply mutes_ret.
Qed.

Lemma build_levels_mute levels level p items opened rec :
  mutes mute_out (build_levels levels level p items opened rec) (build_levels levels level p items opened None).
Proof.
  revert level items rec. induction levels as [|levels IH]; intros level items rec; cbn [build_levels];
    [apply mutes_err|].
  eapply mutes_bind; [apply chunk_level_mute|]. intros [outs rec']. cbn [mute_out fst].
  destruct outs as [|[r|node sub fin] [|o outs]]; try apply mutes_ret_out;
    (apply mutes_if; [apply mutes_err|apply IH]).
Qed.

Lemma apply_batch_inner_mute R ops rec :
  mutes mute_out (apply_batch_inner R ops rec) (apply_batch_inner R ops None).
Proof.
  unfold apply_batch_inner. destruct (dedup_last _ _); [apply mutes_ret_out|].
  apply (mutes_bind id); [apply mutes_id|]. intros d. apply build_levels_mute.
Qed.

(** Recording only observes. [apply_batch_recording] returns the root, or
    the error, that [apply_batch] returns, and leaves the same store. *)
Lemma recording_observes R ops (s : S) :
  apply_batch R ops s =
  (match (apply_batch_recording R ops s).1 with Ok (root, _) => Ok root | Err e => Err e end,
   (apply_batch_recording R ops s).2).
Proof.
  pose proof (apply_batch_inner_mute R ops (Some []) s) as H.
  unfold apply_batch, apply_batch_recording, st_bind. rewrite H.
  by destruct (apply_batch_inner R ops (Some []) s) as [[[root rec]|e] s'].
Qed.
End recorder.

(** ** The theorem on the queue at a concrete queue *)

Lemma chunk_queue_items_witness :
  exists fuel, forall f, fuel <= f ->
    chunk_queue f (builder_new 0 default_params None)
      [IFresh [ELeaf [x01] [x02]] None; ISubtree (mkRef [x03] (sample_address [])) 2 true] sample_empty =
    chunk_items (builder_new 0 default_params None)
      [IFresh [ELeaf [x01] [x02]] None; ISubtree (mkRef [x03] (sample_address [])) 2 true] sample_empty.
Proof.
  apply chunk_queue_items. repeat constructor; simpl; unfold MAX_HEIGHT; lia.
Defined.
