(* ===== verification/TreeSpec.v ===== *)
(** * What a prolly tree is

    The abstract specification of the trees [Tree] builds.  A [PTree] is a
    tree as a value: a key/value pair, or a node with its children.  Its
    entries, addresses and stored bytes are functions of it.  [nodes p n m] is
    the list of depth-[n] trees over the sorted contents [m]: depth 0 is the
    pairs themselves, depth [n + 1] cuts depth [n] at the content-defined
    boundaries.  A root describes the contents [m] when [nodes] at its height
    is the single tree it addresses. *)
From S2P Require Import Prelude Store Chunker Node Tree.

#[warnings="-register-all"]
Inductive PTree : Type :=
| Kv (k v : bytes)
| Nd (cs : list PTree).

(** ** Entries, references and stored bytes *)

Definition entry_bytes (e : Entry) : bytes :=
  match encode_entry e with Ok b => b | Err _ => [] end.

Definition entries_last (es : list Entry) : bytes :=
  match last es with Some e => entry_key e | None => [] end.

Definition node_image (level : nat) (es : list Entry) : bytes :=
  encode_node level (Z.of_nat (length es)) (concat (map entry_bytes es)).

(** A tree's depth: a pair has depth 0 and a node at level [n] depth [n + 1]. *)
Fixpoint depth (t : PTree) : nat :=
  match t with
  | Kv _ _ => 0
  | Nd [] => 1
  | Nd (c :: _) => S (depth c)
  end.

Definition node_level (cs : list PTree) : nat := depth (Nd cs) - 1.

Fixpoint leaves (t : PTree) : list (bytes * bytes) :=
  match t with
  | Kv k v => [(k, v)]
  | Nd cs => concat (map leaves cs)
  end.

(** All branches have length [n], and no node is empty. *)
Fixpoint uniform (n : nat) (t : PTree) : Prop :=
  match n, t with
  | O, Kv _ _ => True
  | S n, Nd cs => cs <> [] /\ Forall (uniform n) cs
  | _, _ => False
  end.

(** The depth-[n - d] subtrees of a depth-[n] tree. *)
Fixpoint flat (d : nat) (t : PTree) : list PTree :=
  match d with
  | O => [t]
  | S d => match t with Nd cs => concat (map (flat d) cs) | Kv _ _ => [] end
  end.

Definition kids (t : PTree) : list PTree :=
  match t with Nd cs => cs | Kv _ _ => [] end.

(** Every element but the last satisfies [P false], the last [P fin]. *)
Fixpoint forall_last {A : Type} (P : bool -> A -> Prop) (fin : bool) (l : list A) : Prop :=
  match l with
  | [] => True
  | x :: l =>
    match l with
    | [] => P fin x
    | _ :: _ => P false x /\ forall_last P fin l
    end
  end.

Lemma forall_last_cons {A} (P : bool -> A -> Prop) fin x l :
  l <> [] -> forall_last P fin (x :: l) <-> P false x /\ forall_last P fin l.
Proof. by destruct l. Qed.

Lemma forall_last_app {A} (P : bool -> A -> Prop) fin l k :
  k <> [] -> forall_last P fin (l ++ k) <-> Forall (P false) l /\ forall_last P fin k.
Proof.
  intros Hk. induction l as [|x l IH].
  - simpl. split; [by intros H | by intros [_ H]].
  - rewrite <-app_comm_cons, forall_last_cons, IH, Forall_cons_iff; [tauto|].
    by destruct l.
Qed.

Lemma forall_last_false {A} (P : bool -> A -> Prop) l :
  forall_last P false l <-> Forall (P false) l.
Proof.
  induction l as [|x l IH]; [done|]. destruct l as [|y l].
  - simpl. rewrite Forall_cons_iff. split; [by split|by intros [? _]].
  - by rewrite forall_last_cons, IH, (Forall_cons_iff _ x) by done.
Qed.

Lemma forall_last_weaken {A} (P Q : bool -> A -> Prop) fin fin' l :
  (forall x, P false x -> Q false x) -> (forall x, P fin x -> Q fin' x) ->
  forall_last P fin l -> forall_last Q fin' l.
Proof.
  intros H1 H2. induction l as [|x l IH]; [done|]. destruct l as [|y l]; [by apply H2|].
  rewrite !forall_last_cons by done. intros [Hx Hl]. split; [by apply H1|by apply IH].
Qed.

Lemma forall_last_snoc {A} (P : bool -> A -> Prop) fin l :
  l <> [] -> forall_last P fin l -> exists init x, l = init ++ [x] /\ Forall (P false) init /\ P fin x.
Proof.
  intros Hl H. destruct (exists_last Hl) as (init & x & ->). exists init, x.
  split; [done|]. apply forall_last_app in H; [done|done].
Qed.

Lemma forall_last_concat {A B} (P : bool -> B -> Prop) (f : A -> list B) fin l :
  Forall (fun x => f x <> []) l ->
  forall_last (fun b x => forall_last P b (f x)) fin l ->
  forall_last P fin (concat (map f l)).
Proof.
  induction 1 as [|x l Hx Hl IH]; [done|]. destruct l as [|y l].
  - simpl. by rewrite app_nil_r.
  - rewrite forall_last_cons by done. intros [H1 H2]. cbn [map concat].
    apply forall_last_app.
    + apply Forall_cons_1 in Hl as [Hy _]. cbn [map concat]. by destruct (f y).
    + split; [by apply forall_last_false|]. by apply IH.
Qed.

Section spec.
Context (addr : bytes -> Hash).

Fixpoint tent (t : PTree) : Entry :=
  match t with
  | Kv k v => ELeaf k v
  | Nd cs =>
    let es := map tent cs in
    EInner (entries_last es) (addr (node_image (node_level cs) es))
  end.

Definition nd_ref (cs : list PTree) : NodeRef :=
  mkRef (entries_last (map tent cs)) (addr (node_image (node_level cs) (map tent cs))).

Lemma tent_Nd cs : tent (Nd cs) = EInner (last_key (nd_ref cs)) (hash (nd_ref cs)).
Proof. done. Qed.

Definition tkey (t : PTree) : bytes := entry_key (tent t).

(** The node a list of children is. *)
Definition to_kv (t : PTree) : bytes * bytes :=
  match t with Kv k v => (k, v) | Nd _ => ([], []) end.
Definition to_node (level : nat) (cs : list PTree) : Node :=
  if (level =? 0)%nat then Leaf (map to_kv cs) else Inner (map (fun c => nd_ref (kids c)) cs).

(** ** Depths *)

Lemma uniform_depth n t : uniform n t -> depth t = n.
Proof.
  revert t. induction n as [|n IH]; intros [k v|cs]; simpl; try done.
  intros [Hne H]. destruct cs as [|c cs]; [done|]. apply Forall_cons_1 in H as [H _].
  by rewrite (IH c).
Qed.

Lemma uniform_level n cs : uniform (S n) (Nd cs) -> node_level cs = n.
Proof. intros H. unfold node_level. rewrite (uniform_depth _ _ H). lia. Qed.

Lemma uniform_Nd n t : uniform (S n) t -> exists cs, t = Nd cs /\ cs <> [] /\ Forall (uniform n) cs.
Proof. destruct t as [k v|cs]; simpl; [done|]. intros [H1 H2]. by exists cs. Qed.

Lemma uniform_Kv t : uniform 0 t -> exists k v, t = Kv k v.
Proof. destruct t as [k v|cs]; simpl; [|done]. by exists k, v. Qed.

Lemma flat_uniform n d t : uniform (d + n) t -> Forall (uniform n) (flat d t).
Proof.
  revert t. induction d as [|d IH]; intros t H; [by constructor|].
  apply uniform_Nd in H as (cs & -> & _ & H). cbn [flat].
  induction H as [|c cs Hc _ IHcs]; simpl; [by constructor|].
  apply Forall_app. split; [by apply IH|done].
Qed.

Lemma flat_nonempty n d t : uniform (d + n) t -> flat d t <> [].
Proof.
  revert t. induction d as [|d IH]; intros t H; [done|].
  apply uniform_Nd in H as ([|c cs] & -> & ? & H); [done|]. simpl.
  apply Forall_cons_1 in H as [Hc _]. specialize (IH c Hc). by destruct (flat d c).
Qed.

Lemma flat_S_kids n d t :
  uniform (S d + n) t -> flat (S d) t = concat (map kids (flat d t)).
Proof.
  revert t. induction d as [|d IH]; intros t H.
  - apply uniform_Nd in H as (cs & -> & _ & _). cbn [flat map concat kids].
    rewrite app_nil_r. induction cs as [|c cs IHc]; [done|]. simpl. by f_equal.
  - apply uniform_Nd in H as (cs & -> & _ & H).
    transitivity (concat (map (flat (S d)) cs)); [done|].
    change (flat (S d) (Nd cs)) with (concat (map (flat d) cs)).
    induction H as [|c cs Hc _ IHcs]; [done|].
    change (concat (map (flat (S d)) (c :: cs))) with (flat (S d) c ++ concat (map (flat (S d)) cs)).
    change (concat (map (flat d) (c :: cs))) with (flat d c ++ concat (map (flat d) cs)).
    rewrite map_app, concat_app, IHcs. f_equal. by apply IH.
Qed.

Lemma leaves_flat n d t : uniform (d + n) t -> leaves t = concat (map leaves (flat d t)).
Proof.
  revert t. induction d as [|d IH]; intros t H; [by rewrite <-(app_nil_r (leaves t))|].
  apply uniform_Nd in H as (cs & -> & _ & H). simpl.
  induction H as [|c cs Hc _ IHcs]; [done|]. simpl.
  by rewrite map_app, concat_app, IHcs, (IH c).
Qed.

Lemma flat_pairs n t : uniform n t -> flat n t = map (fun e => Kv e.1 e.2) (leaves t).
Proof.
  intros H. rewrite <-(Nat.add_0_r n) in H. rewrite (leaves_flat _ _ _ H).
  apply flat_uniform in H. induction H as [|t' ts Ht _ IH]; [done|].
  apply uniform_Kv in Ht as (k & v & ->). simpl. by f_equal.
Qed.

Lemma leaves_nonempty n t : uniform n t -> leaves t <> [].
Proof.
  revert t. induction n as [|n IH]; intros t H.
  - by apply uniform_Kv in H as (k & v & ->).
  - apply uniform_Nd in H as ([|c cs] & -> & ? & H); [done|]. simpl.
    apply Forall_cons_1 in H as [Hc _]. specialize (IH c Hc). by destruct (leaves c).
Qed.

(** ** Keys *)

Definition pairs_last (l : list (bytes * bytes)) : bytes :=
  match last l with Some (k, _) => k | None => [] end.

Lemma pairs_last_app l k : k <> [] -> pairs_last (l ++ k) = pairs_last k.
Proof.
  intros Hk. destruct (exists_last Hk) as (k' & x & ->). unfold pairs_last.
  by rewrite app_assoc, !last_snoc.
Qed.

Lemma entries_last_snoc es e : entries_last (es ++ [e]) = entry_key e.
Proof. unfold entries_last. by rewrite last_snoc. Qed.

Lemma tkey_leaves n t : uniform n t -> tkey t = pairs_last (leaves t).
Proof.
  revert t. induction n as [|n IH]; intros t H.
  - by apply uniform_Kv in H as (k & v & ->).
  - apply uniform_Nd in H as (cs & -> & Hne & H).
    destruct (exists_last Hne) as (cs' & c & ->). unfold tkey. rewrite tent_Nd. cbn [nd_ref last_key entry_key].
    rewrite map_app. cbn [map]. rewrite entries_last_snoc. apply Forall_app in H as [_ H].
    apply Forall_cons_1 in H as [Hc _]. cbn [leaves].
    rewrite map_app, concat_app. cbn [map concat]. rewrite app_nil_r, pairs_last_app.
    + by apply IH.
    + by eapply leaves_nonempty.
Qed.

(** ** Stored trees *)

Section stored.
Context {S : Type} {CS : ChunkStore S}.

Fixpoint stored (s : S) (n : nat) (t : PTree) : Prop :=
  match n, t with
  | Datatypes.S n, Nd cs =>
    holds s (hash (nd_ref cs)) (node_image n (map tent cs)) /\ Forall (stored s n) cs
  | _, _ => True
  end.

Lemma stored_extends s s' n t : extends s s' -> stored s n t -> stored s' n t.
Proof.
  intros He. revert t. induction n as [|n IH]; intros [k v|cs]; simpl; try done.
  intros [H1 H2]. split; [by apply He|]. eapply Forall_impl; [exact H2|]. apply IH.
Qed.

Lemma stored_flat s n d t : uniform (d + n) t -> stored s (d + n) t -> Forall (stored s n) (flat d t).
Proof.
  revert t. induction d as [|d IH]; intros t Hu Hs; [by constructor|].
  apply uniform_Nd in Hu as (cs & -> & _ & Hu). destruct Hs as [_ Hs]. cbn [flat].
  induction Hu as [|c cs Hc _ IHcs]; simpl; [by constructor|].
  apply Forall_cons_1 in Hs as [Hs1 Hs2]. apply Forall_app. split; [by apply IH|by apply IHcs].
Qed.
End stored.
End spec.
