(* ===== verification/TreeRead.v ===== *)
(** * Reading stored trees

    Every node of a stored tree decodes, passes the position checks of
    [read_node], and is determined by its address: two stored trees with the
    same address are equal, whatever the address function. *)
From S2P Require Import Prelude Store Chunker Node Tree TreeSpec TreeNodes.

Section read.
Context {S : Type} {CS : ChunkStore S} (addr : bytes -> Hash) (p : ChunkParams).
Hypothesis Hp : params_ok p = true.

Abbreviation tent := (tent addr).
Abbreviation nd_ref := (nd_ref addr).
Abbreviation ebytes := (ebytes addr).
Abbreviation to_node := (to_node addr).
Abbreviation stored := (stored addr).
Abbreviation chunk_ok := (chunk_ok addr p).
Abbreviation wft := (wft addr p).

(** ** Entries encode *)

Lemma pairs_last_kv m :
  Forall (fun e => kv_ok e = true) m -> is_u32 (Z.of_nat (length (pairs_last m))) = true.
Proof.
  intros H. unfold pairs_last. destruct (last m) as [[k v]|] eqn:E; [|done].
  apply last_Some in E as [l ->]. apply Forall_app in H as [_ H].
  apply Forall_cons_1 in H as [H _]. by apply andb_true_iff in H as [H _].
Qed.

Lemma encode_tent n t :
  uniform n t -> Forall (fun e => kv_ok e = true) (leaves t) ->
  encode_entry (tent t) = Ok (ebytes t).
Proof.
  intros Hu Hk. enough (is_ok (encode_entry (tent t)) = true) as H.
  { unfold ebytes, entry_bytes. by destruct (encode_entry (tent t)). }
  destruct n as [|n].
  - apply uniform_Kv in Hu as (k & v & ->). simpl in *. apply Forall_cons_1 in Hk as [Hk _].
    unfold kv_ok in Hk. apply andb_true_iff in Hk as [H1 H2]. cbn in H1, H2.
    unfold encode_leaf_entry. by rewrite H1, H2.
  - pose proof (tkey_leaves addr _ _ Hu) as Ht.
    apply uniform_Nd in Hu as (cs & -> & _ & _). rewrite tent_Nd. cbn [encode_entry].
    unfold tkey in Ht. rewrite tent_Nd in Ht. cbn [entry_key] in Ht. rewrite Ht.
    by rewrite (proj2 (encode_inner_entry_Ok _ _ _) (conj (pairs_last_kv _ Hk) eq_refl)).
Qed.

Lemma ebytes_nonempty n t :
  uniform n t -> Forall (fun e => kv_ok e = true) (leaves t) -> ebytes t <> [].
Proof.
  intros Hu Hk. pose proof (encode_tent _ _ Hu Hk) as H. destruct (tent t); cbn [encode_entry] in H.
  - by eapply encode_leaf_entry_nonempty.
  - by eapply encode_inner_entry_nonempty.
Qed.

Definition elem_ok (s : S) (n : nat) (t : PTree) : Prop :=
  uniform n t /\ stored s n t /\ content_ok (leaves t).
Definition tree_ok (s : S) (fin : bool) (n : nat) (t : PTree) : Prop :=
  elem_ok s n t /\ wft fin n t.

Lemma elem_ok_extends s s' n t : extends s s' -> elem_ok s n t -> elem_ok s' n t.
Proof. intros He (H1 & H2 & H3). split_and!; [done| |done]. by eapply stored_extends. Qed.
Lemma tree_ok_extends s s' fin n t : extends s s' -> tree_ok s fin n t -> tree_ok s' fin n t.
Proof. intros He [H1 H2]. split; [by eapply elem_ok_extends|done]. Qed.

Lemma elem_ok_kv s n t : elem_ok s n t -> Forall (fun e => kv_ok e = true) (leaves t).
Proof. by intros (_ & _ & _ & H). Qed.

Lemma elem_ok_kids s n cs : elem_ok s (Datatypes.S n) (Nd cs) -> Forall (elem_ok s n) cs.
Proof.
  intros ((_ & Hu) & (_ & Hs) & Hc). rewrite Forall_forall in *. intros t Ht.
  split_and!; [by apply Hu|by apply Hs|]. eapply content_ok_concat; [exact Hc|].
  by apply list_elem_of_fmap_2.
Qed.

Lemma elem_ok_flat s n d t : elem_ok s (d + n) t -> Forall (elem_ok s n) (flat d t).
Proof.
  intros (Hu & Hs & Hc). pose proof (flat_uniform _ _ _ Hu) as H1.
  pose proof (stored_flat addr s _ _ _ Hu Hs) as H2. rewrite (leaves_flat _ _ _ Hu) in Hc.
  rewrite Forall_forall in *. intros u Hin. split_and!; [by apply H1|by apply H2|].
  eapply content_ok_concat; [exact Hc|]. by apply list_elem_of_fmap_2.
Qed.

Lemma tree_ok_kids s fin n cs :
  tree_ok s fin (Datatypes.S n) (Nd cs) ->
  chunk_ok fin cs /\ Forall (elem_ok s n) cs /\ forall_last (fun b c => tree_ok s b n c) fin cs.
Proof.
  intros [He [Hc Hw]]. apply elem_ok_kids in He. split_and!; [done|done|].
  clear Hc. induction cs as [|c cs IH]; [done|].
  apply Forall_cons_1 in He as [H1 H2]. destruct cs as [|c' cs]; [by split|].
  rewrite forall_last_cons in Hw |- * by done. destruct Hw as [Hw1 Hw2].
  split; [by split|by apply IH].
Qed.

(** ** Nodes decode *)

Lemma chunk_size cs fin n :
  Forall (uniform n) cs -> Forall (fun e => kv_ok e = true) (concat (map leaves cs)) ->
  chunk_ok fin cs -> (Z.of_nat (length cs) < 2 ^ 32)%Z.
Proof.
  intros Hu Hk Hc.
  assert (forall ds, (forall c, c ∈ ds -> c ∈ cs) -> feeds addr p ds ->
    Z.of_nat (length ds) <= MAX_CHUNK_MAX_BYTES)%Z as Hb.
  { intros ds Hin [c Hf]. rewrite <-(length_map ebytes).
    eapply feed_all_count_bound; [exact Hp| |exact Hf].
    rewrite Forall_map, Forall_forall. intros t Ht. rewrite Forall_forall in Hu.
    apply (ebytes_nonempty n); [by apply Hu, Hin|].
    eapply Forall_concat_map; [exact Hk|by apply Hin]. }
  change MAX_CHUNK_MAX_BYTES with 1048576%Z in Hb.
  destruct Hc as [(f & t & -> & Hf & _)|(_ & _ & Hf)].
  - specialize (Hb f). rewrite length_app. simpl.
    assert (forall c, c ∈ f -> c ∈ f ++ [t]) as Hin by (intros; apply elem_of_app; by left).
    specialize (Hb Hin Hf). lia.
  - specialize (Hb cs (fun _ H => H) Hf). lia.
Qed.

Lemma tkeys_sorted n cs :
  Forall (uniform n) cs -> StronglySorted bytes_lt (map fst (concat (map leaves cs))) ->
  StronglySorted bytes_lt (map (tkey addr) cs).
Proof.
  assert (forall c, uniform n c -> tkey addr c ∈ map fst (leaves c)) as Hin.
  { intros c Hc. rewrite (tkey_leaves addr _ _ Hc). pose proof (leaves_nonempty _ _ Hc) as Hne.
    destruct (exists_last Hne) as (l & [k v] & ->). unfold pairs_last. rewrite last_snoc.
    rewrite map_app. apply elem_of_app. right. apply list_elem_of_here. }
  induction 1 as [|c cs Hc Hcs IH]; [constructor|].
  cbn [map concat]. rewrite map_app, StronglySorted_app. intros (H1 & _ & H2).
  apply StronglySorted_cons. split; [|by apply IH].
  apply Forall_map, Forall_forall. intros d Hd. apply H1; [by apply Hin|].
  rewrite Forall_forall in Hcs. specialize (Hin d (Hcs d Hd)).
  apply list_elem_of_In in Hin. apply in_map_iff in Hin as (e & <- & He).
  apply list_elem_of_In, in_map, in_concat. exists (leaves d).
  split; [|done]. apply in_map. by apply list_elem_of_In.
Qed.

Lemma to_node_keys n cs :
  Forall (uniform n) cs -> node_keys (to_node n cs) = map (tkey addr) cs.
Proof.
  unfold TreeSpec.to_node. destruct n as [|n]; cbn [Nat.eqb node_keys];
    rewrite map_map; induction 1 as [|c cs Hc _ IH]; try done; cbn [map]; f_equal; try exact IH.
  - by apply uniform_Kv in Hc as (k & v & ->).
  - by apply uniform_Nd in Hc as (ds & -> & _ & _).
Qed.

Lemma to_node_size n cs : node_size (to_node n cs) = length cs.
Proof. unfold TreeSpec.to_node. destruct n; simpl; by rewrite length_map. Qed.

Lemma node_entries_to_node n cs :
  Forall (uniform n) cs -> node_entries (to_node n cs) = map tent cs.
Proof.
  unfold TreeSpec.to_node. destruct n as [|n]; cbn [Nat.eqb node_entries];
    rewrite map_map; induction 1 as [|c cs Hc _ IH]; try done; cbn [map]; f_equal; try exact IH.
  - by apply uniform_Kv in Hc as (k & v & ->).
  - by apply uniform_Nd in Hc as (ds & -> & _ & _).
Qed.

Lemma write_to_node n cs :
  Forall (uniform n) cs -> Forall (fun e => kv_ok e = true) (concat (map leaves cs)) ->
  write_entries (to_node n cs) = Ok (concat (map ebytes cs)).
Proof.
  intros Hu Hk. transitivity (write_all encode_entry (node_entries (to_node n cs))).
  - unfold TreeSpec.to_node. destruct (n =? 0)%nat; cbn [write_entries node_entries];
      clear; rewrite map_map; induction cs as [|c cs IH]; simpl; try done; by rewrite IH.
  - rewrite node_entries_to_node by done.
    induction Hu as [|c cs Hc _ IH]; [done|]. cbn [map concat] in *.
    apply Forall_app in Hk as [Hk1 Hk2]. cbn [write_all].
    by rewrite (encode_tent n), IH by done.
Qed.

Lemma decode_image n cs fin :
  (n < 256)%nat -> uniform (Datatypes.S n) (Nd cs) -> content_ok (leaves (Nd cs)) ->
  chunk_ok fin cs -> decode_node (node_image n (map tent cs)) n = Ok (to_node n cs).
Proof.
  intros Hn [Hne Hu] [Hs Hk] Hc. cbn [leaves] in *. unfold node_image.
  rewrite length_map, <-(to_node_size n), map_map. apply decode_node_write; [done| |].
  - unfold node_fits. rewrite to_node_keys, to_node_size by done.
    rewrite ascending_sorted; [|done|by eapply tkeys_sorted].
    rewrite !andb_true_iff. split; [split; [|done]|].
    + unfold TreeSpec.to_node. destruct n; [done|]. cbn. rewrite length_map.
      by destruct cs.
    + apply in_range_spec. pose proof (chunk_size _ _ _ Hu Hk Hc). lia.
  - by apply write_to_node.
Qed.

Lemma node_keys_last n : node_last_key n = last (node_keys n).
Proof. destruct n; simpl; by rewrite fmap_last. Qed.
Lemma node_keys_first n : node_first_key n = head (node_keys n).
Proof. destruct n as [[]|[]]; done. Qed.

Lemma nd_ref_last cs : cs <> [] -> last (map (tkey addr) cs) = Some (last_key (nd_ref cs)).
Proof.
  intros Hne. destruct (exists_last Hne) as (ds & c & ->). cbn [nd_ref last_key].
  rewrite !map_app. cbn [map]. by rewrite entries_last_snoc, last_snoc.
Qed.

(** Reading a node of a stored tree at its place succeeds. *)
Lemma read_node_tree s fin n cs expect min :
  (n < 256)%nat -> tree_ok s fin (Datatypes.S n) (Nd cs) ->
  expect = None \/ expect = Some (last_key (nd_ref cs)) ->
  (forall m, min = Some m -> Forall (fun e => bytes_lt m e.1) (leaves (Nd cs))) ->
  read_node s (hash (nd_ref cs)) n expect min = Ok (to_node n cs).
Proof.
  intros Hn [(Hu & [Hh _] & Hc) [Hk _]] He Hm. unfold read_node.
  rewrite Hh. cbn [map_err rbind]. rewrite (decode_image n cs fin) by done. cbn [rbind].
  destruct Hu as [Hne Hu]. rewrite node_keys_last, node_keys_first, to_node_keys by done.
  rewrite nd_ref_last by done. replace (match expect with Some _ => _ | None => _ end) with false.
  2: { destruct He as [-> | ->]; [done|]. by rewrite bool_decide_true. }
  destruct min as [m|]; [|done]. destruct cs as [|c cs]; [done|]. cbn [map head].
  apply Forall_cons_1 in Hu as [Hu _]. specialize (Hm m eq_refl). cbn [leaves map concat] in Hm.
  apply Forall_app in Hm as [Hm _].
  replace (bytes_leb (tkey addr c) m) with false; [done|]. symmetry. apply bytes_leb_gt.
  rewrite (tkey_leaves addr _ _ Hu). pose proof (leaves_nonempty _ _ Hu) as Hl.
  destruct (exists_last Hl) as (l & [k v] & E). rewrite E in *. unfold pairs_last. rewrite last_snoc.
  apply Forall_app in Hm as [_ Hm]. by apply Forall_cons_1 in Hm as [Hm _].
Qed.

(** An address determines the stored tree. *)
Lemma stored_inj s n fin fin' cs ds :
  (n < 256)%nat -> tree_ok s fin (Datatypes.S n) (Nd cs) -> tree_ok s fin' (Datatypes.S n) (Nd ds) ->
  hash (nd_ref cs) = hash (nd_ref ds) -> cs = ds.
Proof.
  revert cs ds fin fin'. induction n as [|n IH]; intros cs ds fin fin' Hn Hcs Hds Hh.
  all: pose proof (read_node_tree s fin _ cs None None Hn Hcs (or_introl eq_refl) ltac:(done)) as H1.
  all: pose proof (read_node_tree s fin' _ ds None None Hn Hds (or_introl eq_refl) ltac:(done)) as H2.
  all: rewrite Hh in H1; rewrite H1 in H2; apply Ok_inj in H2.
  all: apply tree_ok_kids in Hcs as (_ & Hcs & Hwc), Hds as (_ & Hds & Hwd).
  - injection H2 as H2. clear -Hcs Hds H2. revert ds Hds H2.
    induction Hcs as [|c cs (Hc & _) _ IH]; intros [|d ds] Hds; simpl; try done.
    apply Forall_cons_1 in Hds as [(Hd & _) Hds]. intros [= E1 E2].
    apply uniform_Kv in Hc as (k & v & ->), Hd as (k' & v' & ->). simpl in E1.
    injection E1 as -> ->. f_equal. by apply IH.
  - injection H2 as H2. clear H1 Hh. revert ds Hds Hwd H2. assert (n < 256)%nat by lia.
    induction cs as [|c cs IHcs]; intros [|d ds] Hds Hwd H2; try done.
    cbn [map] in H2. apply cons_eq_inv in H2 as [E1 E2].
    apply Forall_cons_1 in Hcs as [Hc Hcs], Hds as [Hd Hds].
    assert (exists b, tree_ok s b (Datatypes.S n) c) as [b Hcw] by (destruct cs; [eauto|]; exists false; apply Hwc).
    assert (exists b, tree_ok s b (Datatypes.S n) d) as [b' Hdw] by (destruct ds; [eauto|]; exists false; apply Hwd).
    destruct Hc as (Hc & _), Hd as (Hd & _).
    apply uniform_Nd in Hc as (cs' & -> & _ & _), Hd as (ds' & -> & _ & _).
    f_equal; [f_equal; eapply IH; [lia|exact Hcw|exact Hdw|by cbn in E1; rewrite E1]|].
    apply IHcs; [done|destruct cs; [done|apply Hwc]|done|destruct ds; [done|apply Hwd]|done].
Qed.
End read.
