(* ===== verification/TreeBuild.v ===== *)
(** * Building levels is cutting levels

    [wp m Q s]: run from [s], the computation only adds chunks to the store
    and either returns a result satisfying [Q] or fails because the store
    failed.  The items and outputs of a level are related to the streams of
    [PTree]s they stand for; chunking a level then is [split], and promotion
    keeps the stream. *)
From S2P Require Import Prelude Store Chunker Node Tree TreeSpec TreeNodes TreeRead.

Definition store_failure (e : ProllyError) : Prop := exists se, e = PStore se.

Section wp.
Context {S : Type} {CS : ChunkStore S}.

Definition wp {A} (m : st S ProllyError A) (Q : A -> S -> Prop) (s : S) : Prop :=
  match m s with
  | (Ok a, s') => extends s s' /\ Q a s'
  | (Err e, s') => extends s s' /\ store_failure e
  end.

Lemma wp_ret {A} (a : A) (Q : A -> S -> Prop) s : Q a s -> wp (st_ret a) Q s.
Proof. by split. Qed.

Lemma wp_read {A} (f : S -> result ProllyError A) a (Q : A -> S -> Prop) s :
  f s = Ok a -> Q a s -> wp (st_read f) Q s.
Proof. intros E HQ. unfold wp, st_read. by rewrite E. Qed.

Lemma wp_mono {A} (m : st S ProllyError A) (Q Q' : A -> S -> Prop) s :
  wp m Q s -> (forall a s', extends s s' -> Q a s' -> Q' a s') -> wp m Q' s.
Proof.
  unfold wp. destruct (m s) as [[a|e] s']; [|done]. intros [H1 H2] H. split; [done|]. by apply H.
Qed.

Lemma wp_bind {A B} (m : st S ProllyError A) (f : A -> st S ProllyError B) (Q : B -> S -> Prop) s :
  wp m (fun a s' => wp (f a) Q s') s -> wp (st_bind m f) Q s.
Proof.
  unfold wp, st_bind. destruct (m s) as [[a|e] s1]; [|done].
  intros [He H]. destruct (f a s1) as [[b|e] s2]; destruct H as [He' H]; (split; [by etrans|done]).
Qed.

Lemma wp_bind_mono {A B} (m : st S ProllyError A) (f : A -> st S ProllyError B) Q (Q' : B -> S -> Prop) s :
  wp m Q s -> (forall a s', extends s s' -> Q a s' -> wp (f a) Q' s') -> wp (st_bind m f) Q' s.
Proof. intros H1 H2. apply wp_bind. by eapply wp_mono. Qed.
(** What a run that returned a result says, and what one that failed says. *)
Lemma wp_Ok {A} (m : st S ProllyError A) (Q : A -> S -> Prop) s a s' :
  wp m Q s -> m s = (Ok a, s') -> extends s s' /\ Q a s'.
Proof. intros H E. unfold wp in H. by rewrite E in H. Qed.

Lemma wp_Err {A} (m : st S ProllyError A) (Q : A -> S -> Prop) s e s' :
  wp m Q s -> m s = (Err e, s') -> extends s s' /\ store_failure e.
Proof. intros H E. unfold wp in H. by rewrite E in H. Qed.
End wp.

Section build.
Context {S : Type} {CS : ChunkStore S} {CSL : ChunkStoreLaws S} (p : ChunkParams).
Hypothesis Hp : params_ok p = true.

Abbreviation addr := (@address S CS CSL).
Abbreviation tent := (tent addr).
Abbreviation nd_ref := (nd_ref addr).
Abbreviation ebytes := (ebytes addr).
Abbreviation run := (run addr p).
Abbreviation elem_ok := (elem_ok addr).
Abbreviation tree_ok := (tree_ok addr p).

(** ** The builder's pending chunk *)

Record pending (s : S) (n : nat) (b : LevelBuilder) (cur : list PTree) : Prop := {
  pd_level : b_level b = n;
  pd_count : b_count b = Z.of_nat (length cur);
  pd_buf : b_buf b = concat (map ebytes cur);
  pd_last : b_last_key b = entries_last (map tent cur);
  pd_chunker : feed_all (chunker_new p) (map ebytes cur) = Some (b_chunker b);
  pd_elems : Forall (elem_ok s n) cur
}.

Lemma pending_extends s s' n b cur : extends s s' -> pending s n b cur -> pending s' n b cur.
Proof.
  intros He []. split; try done. eapply Forall_impl; [eassumption|]. intros t.
  by apply elem_ok_extends.
Qed.

Lemma pending_new s n rec : pending s n (builder_new n p rec) [].
Proof. by split. Qed.

Lemma pending_boundary s n b cur : pending s n b cur -> at_boundary b = true <-> cur = [].
Proof.
  intros []. unfold at_boundary. rewrite pd_count0, Z.eqb_eq. destruct cur; simpl; split; try done; lia.
Qed.

Lemma pending_feeds s n b cur : pending s n b cur -> feeds addr p cur.
Proof. intros []. by eexists. Qed.

(** A written chunk: its bytes are in the store, and so are its children. *)
Definition written (s : S) (n : nat) (cs : list PTree) : Prop :=
  uniform (Datatypes.S n) (Nd cs) /\ Forall (elem_ok s n) cs /\
  holds s (hash (nd_ref cs)) (node_image n (map tent cs)).

Lemma written_extends s s' n cs : extends s s' -> written s n cs -> written s' n cs.
Proof.
  intros He (H1 & H2 & H3). split_and!; [done| |by apply He].
  eapply Forall_impl; [exact H2|]. intros t. by apply elem_ok_extends.
Qed.

Lemma written_stored s n cs : written s n cs -> stored addr s (Datatypes.S n) (Nd cs).
Proof.
  intros (_ & H2 & H3). split; [done|]. eapply Forall_impl; [exact H2|]. by intros t (_ & H & _).
Qed.

Lemma elems_uniform s n cs : cs <> [] -> Forall (elem_ok s n) cs -> uniform (Datatypes.S n) (Nd cs).
Proof. intros Hne H. split; [done|]. eapply Forall_impl; [exact H|]. by intros t (Hu & _). Qed.

Lemma wp_emit s n b cs :
  b_level b = n -> b_count b = Z.of_nat (length cs) -> b_buf b = concat (map ebytes cs) ->
  b_last_key b = entries_last (map tent cs) -> c_params (b_chunker b) = p ->
  node_level cs = n ->
  wp (emit b) (fun b' s' =>
    pending s' n b' [] /\ b_out b' = b_out b ++ [OChunk (nd_ref cs)] /\
    holds s' (hash (nd_ref cs)) (node_image n (map tent cs))) s.
Proof.
  intros Hl Hc Hb Hk Hcp Hn. unfold emit. apply wp_bind. unfold wp at 1, st_put.
  assert (encode_node (b_level b) (b_count b) (b_buf b) = node_image n (map tent cs)) as E.
  { unfold node_image. by rewrite length_map, map_map, Hl, Hc, Hb. }
  rewrite E. destruct (put s (node_image n (map tent cs))) as [[h|e] s'] eqn:Eput; cbn [map_err].
  - pose proof (put_extends s _ _ _ Eput) as He. apply put_holds in Eput as [-> Hh].
    split; [done|]. apply wp_ret. unfold TreeSpec.nd_ref. rewrite Hn.
    split_and!; [|cbn; by rewrite Hk|done].
    split; cbn; try done. by rewrite reset_new, Hcp.
  - split; [by apply (put_extends s _ _ _ Eput)|]. by eexists.
Qed.

(** Pushing one entry extends the pending chunk or closes it. *)
Lemma wp_push s n b cur t :
  pending s n b cur -> elem_ok s n t ->
  wp (push b (tent t)) (fun b' s' =>
    if cuts addr p cur t
    then pending s' n b' [] /\ b_out b' = b_out b ++ [OChunk (nd_ref (cur ++ [t]))] /\
         written s' n (cur ++ [t])
    else pending s' n b' (cur ++ [t]) /\ b_out b' = b_out b) s.
Proof.
  intros Hpd Ht. pose proof (pending_feeds _ _ _ _ Hpd) as Hf. destruct Hpd.
  assert (Forall (elem_ok s n) (cur ++ [t])) as Hel by (apply Forall_app; by split; [|constructor]).
  assert (uniform (Datatypes.S n) (Nd (cur ++ [t]))) as Hu
    by (eapply elems_uniform; [by destruct cur|done]).
  unfold push. eapply wp_bind, wp_read.
  { apply (encode_tent addr n); [by destruct Ht|by eapply elem_ok_kv]. }
  assert (Z.of_nat (length cur) <= MAX_CHUNK_MAX_BYTES)%Z as Hcount.
  { rewrite <-(length_map ebytes). eapply feed_all_count_bound; [exact Hp| |exact pd_chunker0].
    apply Forall_map. eapply Forall_impl; [exact pd_elems0|]. intros u Hel'.
    apply (ebytes_nonempty addr n); [by destruct Hel'|by eapply elem_ok_kv]. }
  change MAX_CHUNK_MAX_BYTES with 1048576%Z in Hcount.
  destruct (Z.leb_spec (2 ^ 32) (b_count b + 1)); [lia|].
  unfold cuts. rewrite pd_chunker0.
  pose proof (feed_entry_params (b_chunker b) (ebytes t)) as Hcp.
  destruct (feed_entry (b_chunker b) (ebytes t)) as [cut chunker] eqn:Efeed. cbn [fst snd] in *.
  destruct cut.
  - eapply wp_mono.
    + apply (wp_emit s n _ (cur ++ [t])); cbn; try done.
      * rewrite length_app. simpl. lia.
      * by rewrite map_app, concat_app, pd_buf0; cbn; rewrite app_nil_r.
      * by rewrite map_app; cbn [map]; rewrite entries_last_snoc.
      * rewrite Hcp. by rewrite (feed_all_params _ _ _ pd_chunker0).
      * by eapply uniform_level.
    + intros b' s' He (H1 & H2 & H3). split_and!; [done|done|].
      split_and!; [done| |done]. eapply Forall_impl; [exact Hel|].
      intros u. by apply elem_ok_extends.
  - apply wp_ret. split; [|done]. split; cbn; try done.
    + rewrite length_app. simpl. lia.
    + by rewrite map_app, concat_app, pd_buf0; cbn; rewrite app_nil_r.
    + by rewrite map_app; cbn [map]; rewrite entries_last_snoc.
    + rewrite map_app, feed_all_app, pd_chunker0. cbn [map feed_all]. by rewrite Efeed.
Qed.

(** Pushing a run of entries is [run]. *)
Lemma wp_push_all s n b cur ts :
  pending s n b cur -> Forall (elem_ok s n) ts ->
  wp (push_all b (map tent ts)) (fun b' s' =>
    pending s' n b' (run cur ts).2 /\
    b_out b' = b_out b ++ map (fun cs => OChunk (nd_ref cs)) (run cur ts).1 /\
    Forall (written s' n) (run cur ts).1) s.
Proof.
  intros Hpd Hts. revert s b cur Hpd Hts. induction ts as [|t ts IH]; intros s b cur Hpd Hts.
  - apply wp_ret. cbn. by rewrite app_nil_r.
  - apply Forall_cons_1 in Hts as [Ht Hts]. cbn [map push_all].
    eapply wp_bind_mono; [by apply wp_push|]. intros b1 s1 He H. cbn [TreeNodes.run].
    assert (Forall (elem_ok s1 n) ts) as Hts1.
    { eapply Forall_impl; [exact Hts|]. intros u. by apply elem_ok_extends. }
    destruct (cuts addr p cur t) eqn:Ecut.
    + destruct H as (H1 & H2 & H3). eapply wp_mono; [by apply (IH s1 b1 [])|].
      intros b2 s2 He2 (H4 & H5 & H6). destruct (run [] ts) as [d r]. cbn [fst snd] in *.
      split_and!; [done| |].
      * rewrite H5, H2, <-app_assoc. done.
      * constructor; [by eapply written_extends|done].
    + destruct H as (H1 & H2). eapply wp_mono; [by apply (IH s1 b1 (cur ++ [t]))|].
      intros b2 s2 He2 (H4 & H5 & H6). split_and!; [done| |done]. by rewrite H5, H2.
Qed.

(** ** What items and outputs stand for *)

(** An item of level [n] stands for a stream of depth-[n] trees. *)
Inductive item_den (s : S) (n : nat) : Item -> list PTree -> Prop :=
| id_fresh ts base :
    Forall (elem_ok s n) ts -> item_den s n (IFresh (map tent ts) base) ts
| id_old cs fin :
    tree_ok s fin (Datatypes.S n) (Nd cs) -> item_den s n (IOld (nd_ref cs) fin) cs
| id_sub d cs fin :
    d + Datatypes.S n < MAX_HEIGHT -> tree_ok s fin (Datatypes.S d + Datatypes.S n) (Nd cs) ->
    item_den s n (ISubtree (nd_ref cs) (d + Datatypes.S n) fin)
      (flat (Datatypes.S (Datatypes.S d)) (Nd cs)).

(** An output of level [n] stands for a stream of nodes, of depth [n + 1]. *)
Inductive out_den (s : S) (n : nat) : OutItem -> list PTree -> Prop :=
| od_chunk cs : written s n cs -> out_den s n (OChunk (nd_ref cs)) [Nd cs]
| od_sub d cs fin :
    d + Datatypes.S n < MAX_HEIGHT -> tree_ok s fin (Datatypes.S d + Datatypes.S n) (Nd cs) ->
    out_den s n (OSubtree (nd_ref cs) (d + Datatypes.S n) fin) (flat (Datatypes.S d) (Nd cs)).

(** How much of its own an item brings to the level: an untouched subtree
    counts once, anything else twice.  Two or more means that the level does
    not consist of one untouched subtree. *)
Definition item_weight (it : Item) (ts : list PTree) : nat :=
  match ts with
  | [] => 0
  | _ :: _ => match it with ISubtree _ _ _ => 1 | _ => 2 end
  end.
Definition out_weight (o : OutItem) : nat :=
  match o with OChunk _ => 2 | OSubtree _ _ _ => 1 end.
Definition outs_weight (outs : list OutItem) : nat := sum_list_with out_weight outs.

Inductive items_den (s : S) (n : nat) : list Item -> list PTree -> nat -> Prop :=
| ids_nil : items_den s n [] [] 0
| ids_cons it ts items E w :
    item_den s n it ts -> items_den s n items E w ->
    items_den s n (it :: items) (ts ++ E) (item_weight it ts + w).

Inductive outs_den (s : S) (n : nat) : list OutItem -> list PTree -> Prop :=
| ods_nil : outs_den s n [] []
| ods_cons o ds outs D :
    out_den s n o ds -> outs_den s n outs D -> outs_den s n (o :: outs) (ds ++ D).

Lemma item_den_extends s s' n it ts : extends s s' -> item_den s n it ts -> item_den s' n it ts.
Proof.
  intros He []; constructor; try done; try by eapply tree_ok_extends.
  eapply Forall_impl; [eassumption|]. intros t. by apply elem_ok_extends.
Qed.

Lemma items_den_extends s s' n items E w :
  extends s s' -> items_den s n items E w -> items_den s' n items E w.
Proof. intros He. induction 1; constructor; [by eapply item_den_extends|done]. Qed.

Lemma out_den_extends s s' n o ds : extends s s' -> out_den s n o ds -> out_den s' n o ds.
Proof.
  intros He []; constructor; try done; [by eapply written_extends|by eapply tree_ok_extends].
Qed.

Lemma outs_den_extends s s' n outs D : extends s s' -> outs_den s n outs D -> outs_den s' n outs D.
Proof. intros He. induction 1; constructor; [by eapply out_den_extends|done]. Qed.

Lemma items_den_app s n items E w items' E' w' :
  items_den s n items E w -> items_den s n items' E' w' ->
  items_den s n (items ++ items') (E ++ E') (w + w').
Proof.
  induction 1; [done|]. intros H'. rewrite <-app_comm_cons, <-app_assoc, <-Nat.add_assoc.
  constructor; auto.
Qed.

Lemma outs_den_app s n outs D outs' D' :
  outs_den s n outs D -> outs_den s n outs' D' -> outs_den s n (outs ++ outs') (D ++ D').
Proof.
  induction 1; [done|]. intros H'. rewrite <-app_comm_cons, <-app_assoc. constructor; auto.
Qed.

Lemma outs_den_one s n o ds : out_den s n o ds -> outs_den s n [o] ds.
Proof. intros H. rewrite <-(app_nil_r ds). constructor; [done|constructor]. Qed.

Lemma out_den_nonempty s n o ds : out_den s n o ds -> ds <> [].
Proof.
  intros [cs H|d cs fin _ [(Hu & _) _]]; [done|]. by apply (flat_nonempty (Datatypes.S n)).
Qed.

Lemma outs_den_nil_l s n D : outs_den s n [] D -> D = [].
Proof. by inversion 1. Qed.

Lemma outs_den_nil_r s n outs : outs_den s n outs [] -> outs = [].
Proof.
  intros H. inversion H as [|o ds outs' D Ho _ E1 E]; [done|].
  apply app_eq_nil in E as [-> _]. by apply out_den_nonempty in Ho.
Qed.

Lemma outs_den_written s n d :
  Forall (written s n) d -> outs_den s n (map (fun cs => OChunk (nd_ref cs)) d) (map Nd d).
Proof.
  induction 1 as [|cs d Hcs _ IH]; [constructor|].
  cbn [map]. change (Nd cs :: map Nd d) with ([Nd cs] ++ map Nd d).
  constructor; [by apply od_chunk|done].
Qed.

Lemma outs_weight_app outs outs' : outs_weight (outs ++ outs') = outs_weight outs + outs_weight outs'.
Proof. apply sum_list_with_app. Qed.

Lemma outs_weight_cons o outs : outs_weight (o :: outs) = out_weight o + outs_weight outs.
Proof. done. Qed.

(** ** One item *)

(** Two outcomes of a stream: the same, or, at the end of the queue, the same
    chunks once the pending one is closed. *)
Definition closes (is_last : bool) (x y : list (list PTree) * list PTree) : Prop :=
  if is_last then close x = close y else x = y.

Lemma closes_refl is_last x : closes is_last x x.
Proof. by destruct is_last. Qed.

Definition builder_weight (outs : list OutItem) (cur : list PTree) : nat :=
  outs_weight outs + match cur with [] => 0 | _ :: _ => 2 end.

(** From pending [cur] in state [s], the builder went on to [b'] over the
    stream [ts] of weight [w]. *)
Definition advanced_to (is_last : bool) (n : nat) (b : LevelBuilder) (cur ts : list PTree) (w : nat)
    (b' : LevelBuilder) (s' : S) (r : list PTree) : Prop :=
  exists outs d,
    b_out b' = b_out b ++ outs /\ outs_den s' n outs (map Nd d) /\ pending s' n b' r /\
    closes is_last (d, r) (run cur ts) /\
    min 2 (builder_weight (b_out b) cur + w) <= builder_weight (b_out b') r.

Definition advanced (is_last : bool) (n : nat) (b : LevelBuilder) (cur ts : list PTree) (w : nat)
    (b' : LevelBuilder) (s' : S) : Prop :=
  exists r, advanced_to is_last n b cur ts w b' s' r.

Lemma advanced_step is_last n b cur ts w b1 s1 r ts' w' b2 s2 :
  extends s1 s2 ->
  advanced_to false n b cur ts w b1 s1 r ->
  advanced is_last n b1 r ts' w' b2 s2 ->
  advanced is_last n b cur (ts ++ ts') (w + w') b2 s2.
Proof.
  intros He (outs & d & Ho & Hd & Hpd & Hc & Hw) (r' & outs' & d' & Ho' & Hd' & Hpd' & Hc' & Hw').
  exists r', (outs ++ outs'), (d ++ d'). split_and!.
  - by rewrite Ho', Ho, app_assoc.
  - rewrite map_app. apply outs_den_app; [by eapply outs_den_extends|done].
  - done.
  - simpl in Hc. rewrite run_app, <-Hc. destruct (run r ts') as [d2 r2].
    destruct is_last; simpl in *; unfold close in *; cbn [fst snd] in *.
    + by rewrite <-!app_assoc, Hc'.
    + by injection Hc' as -> ->.
  - lia.
Qed.

Lemma wp_fresh_item s n b cur ts base is_last :
  pending s n b cur -> Forall (elem_ok s n) ts ->
  wp (fresh_item b (map tent ts) base)
    (advanced is_last n b cur ts (item_weight (IFresh (map tent ts) base) ts)) s.
Proof.
  intros Hpd Hts. unfold fresh_item. eapply wp_mono.
  - apply (wp_push_all s n (set_base base b) cur ts); [|done]. by destruct Hpd.
  - intros b' s' He (H1 & H2 & H3). destruct (run cur ts) as [d r] eqn:Er. cbn [fst snd] in *.
    exists r, (map (fun cs => OChunk (nd_ref cs)) d), d. split_and!; [done| |done| |].
    + by apply outs_den_written.
    + rewrite Er. apply closes_refl.
    + rewrite H2. cbn [set_base b_out]. unfold builder_weight. rewrite outs_weight_app.
      destruct d as [|c d]; [|cbn [map]; rewrite outs_weight_cons; cbn [out_weight]; lia].
      destruct (run_spec addr p _ _ _ _ (pending_feeds _ _ _ _ Hpd) Er) as (Hc & _).
      simpl in Hc. rewrite Hc. unfold item_weight. destruct cur, ts; cbn [app map]; lia.
Qed.

Lemma advanced_base is_last n base b cur ts w b' s' :
  advanced is_last n (set_base base b) cur ts w b' s' -> advanced is_last n b cur ts w b' s'.
Proof. done. Qed.

Lemma boundary_guard s n b cur fin is_last :
  pending s n b cur ->
  (at_boundary b && (negb fin || is_last) = true <-> cur = [] /\ (fin = false \/ is_last = true)).
Proof.
  intros Hpd. rewrite andb_true_iff, (pending_boundary _ _ _ _ Hpd).
  destruct fin, is_last; simpl; intuition congruence.
Qed.

(** Whole chunks met at a boundary are the chunks of the stream. *)
Lemma closes_chunks css fin is_last :
  forall_last (chunk_ok addr p) fin css -> fin = false \/ is_last = true ->
  closes is_last (css, []) (run [] (concat css)).
Proof.
  intros H [->| ->].
  - rewrite run_goods; [apply closes_refl|]. apply forall_last_false in H.
    eapply Forall_impl; [exact H|]. intros cs. apply chunk_ok_false.
  - unfold closes. change (close (run [] (concat css))) with (split addr p (concat css)).
    rewrite split_chunks; [unfold close; cbn; by rewrite app_nil_r|].
    eapply forall_last_weaken; [..|exact H]; [done|]. intros cs. apply chunk_ok_fin.
Qed.

Lemma pending_push_out s n b o : pending s n b [] -> pending s n (push_out o b) [].
Proof. by intros []. Qed.

Lemma wp_old_item s n b cur cs fin is_last :
  n < 256 -> pending s n b cur -> tree_ok s fin (Datatypes.S n) (Nd cs) ->
  wp (old_item b (nd_ref cs) fin is_last)
    (advanced is_last n b cur cs (item_weight (IOld (nd_ref cs) fin) cs)) s.
Proof.
  intros Hn Hpd Ht. pose proof (tree_ok_kids _ _ _ _ _ _ Ht) as (Hk & Hel & _).
  unfold old_item. destruct (at_boundary b && (negb fin || is_last)) eqn:Eg.
  - apply (boundary_guard _ _ _ _ _ _ Hpd) in Eg as [-> Hfin]. apply wp_ret.
    exists [], [OChunk (nd_ref cs)], [cs]. split_and!; [done| |by apply pending_push_out| |].
    + apply outs_den_one, od_chunk. split_and!; [by destruct Ht as [(H & _) _]|done|].
      by destruct Ht as [(_ & [H _] & _) _].
    + rewrite <-(app_nil_r cs) at 2. by apply (closes_chunks [cs] fin).
    + unfold builder_weight. cbn [push_out b_out]. rewrite outs_weight_app, outs_weight_cons.
      cbn [out_weight]. lia.
  - eapply wp_bind, wp_read.
    { destruct Hpd. rewrite pd_level0. eapply (read_node_tree addr p Hp); [done|exact Ht|by right|done]. }
    rewrite node_entries_to_node by (eapply Forall_impl; [exact Hel|]; by intros t (H & _)).
    eapply wp_mono; [by apply (wp_fresh_item s n b cur cs (Some (hash (nd_ref cs))) is_last)|].
    intros b' s' _ H. exact H.
Qed.

(** ** Queues of items *)

Lemma wp_each_item n f is_last items :
  (forall s b cur it ts last, it ∈ items -> pending s n b cur -> item_den s n it ts ->
    wp (f b it last) (advanced last n b cur ts (item_weight it ts)) s) ->
  forall s b cur E w, pending s n b cur -> items_den s n items E w ->
    wp (each_item f is_last b items) (advanced is_last n b cur E w) s.
Proof.
  induction items as [|it items IH]; intros Hf s b cur E w Hpd Hden.
  - inversion Hden; subst. apply wp_ret. exists cur, [], [].
    split_and!; [by rewrite app_nil_r|constructor|done|apply closes_refl|lia].
  - inversion Hden as [|? ts ? E' w' Hit Hits]; subst. cbn [each_item].
    eapply wp_bind_mono; [by apply Hf; [apply list_elem_of_here|done|done]|].
    intros b1 s1 He H. destruct items as [|it' items].
    + inversion Hits; subst. rewrite andb_true_r in H. apply wp_ret.
      by rewrite app_nil_r, Nat.add_0_r.
    + rewrite andb_false_r in H. destruct H as [r H]. eapply wp_mono.
      * apply IH; [|by destruct H as (? & ? & ? & ? & ? & _)|by eapply items_den_extends].
        intros; apply Hf; [by apply list_elem_of_further|done|done].
      * intros b2 s2 He2 H2. by eapply advanced_step.
Qed.

(** ** Opening a subtree *)

Lemma flat_1 cs : flat 1 (Nd cs) = cs.
Proof. simpl. induction cs as [|c cs IH]; [done|]. simpl. by f_equal. Qed.

Lemma id_child s n d fin c :
  d + n < MAX_HEIGHT -> tree_ok s fin (d + Datatypes.S n) c ->
  item_den s n (child_item n (d + Datatypes.S n) fin (nd_ref (kids c))) (flat (Datatypes.S d) c).
Proof.
  intros Hlt Hc. unfold child_item. destruct d as [|d]; cbn [Nat.add] in *.
  - rewrite Nat.sub_succ, Nat.sub_0_r, Nat.eqb_refl.
    pose proof Hc as [(Hu & _) _]. apply uniform_Nd in Hu as (cs & -> & _ & _).
    rewrite flat_1. by constructor.
  - rewrite Nat.sub_succ, Nat.sub_0_r. destruct (Nat.eqb_spec (d + Datatypes.S n) n); [lia|].
    pose proof Hc as [(Hu & _) _]. apply uniform_Nd in Hu as (cs & -> & _ & _).
    apply id_sub; [lia|done].
Qed.

Lemma item_weight_pos s n it ts : item_den s n it ts -> ts <> [] -> 1 <= item_weight it ts.
Proof. intros _ H. destruct ts; [done|]. destruct it; simpl; lia. Qed.

Lemma child_items_den s n d fin cs :
  d + n < MAX_HEIGHT -> Forall (uniform (d + Datatypes.S n)) cs ->
  forall_last (fun b c => tree_ok s b (d + Datatypes.S n) c) fin cs -> cs <> [] ->
  exists w, 1 <= w /\
    items_den s n (child_items n (d + Datatypes.S n) fin (map (fun c => nd_ref (kids c)) cs))
      (flat (Datatypes.S (Datatypes.S d)) (Nd cs)) w.
Proof.
  intros Hlt Hu Hw Hne. change (flat (Datatypes.S (Datatypes.S d)) (Nd cs))
    with (concat (map (flat (Datatypes.S d)) cs)).
  induction cs as [|c cs IH]; [done|]. apply Forall_cons_1 in Hu as [Hc Hu].
  assert (flat (Datatypes.S d) c <> []) as Hcne.
  { apply (flat_nonempty n). by replace (Datatypes.S d + n) with (d + Datatypes.S n) by lia. }
  destruct cs as [|c' cs].
  - eexists. split; [|cbn [map concat child_items]; constructor; [by apply id_child|constructor]].
    pose proof (item_weight_pos _ _ _ _ (id_child s n d fin c Hlt Hw) Hcne). lia.
  - apply forall_last_cons in Hw as [H1 H2]; [|done].
    destruct (IH Hu H2 ltac:(done)) as (w & Hw & Hits). clear IH.
    pose proof (id_child _ _ _ _ _ Hlt H1) as Hit.
    exists (item_weight (child_item n (d + Datatypes.S n) false (nd_ref (kids c))) (flat (Datatypes.S d) c) + w).
    split; [lia|].
    change (map (fun c => nd_ref (kids c)) (c :: c' :: cs))
      with (nd_ref (kids c) :: map (fun c => nd_ref (kids c)) (c' :: cs)).
    change (concat (map (flat (Datatypes.S d)) (c :: c' :: cs)))
      with (flat (Datatypes.S d) c ++ concat (map (flat (Datatypes.S d)) (c' :: cs))).
    by constructor.
Qed.

Lemma wp_chunk_item depth s n b cur it ts is_last :
  n < 256 -> pending s n b cur -> item_den s n it ts ->
  match it with ISubtree _ lv _ => lv - n <= depth | _ => True end ->
  wp (chunk_item depth b it is_last) (advanced is_last n b cur ts (item_weight it ts)) s.
Proof.
  intros Hn. revert s b cur it ts is_last.
  induction depth as [|depth IH]; intros s b cur it ts is_last Hpd Hit Hd;
    destruct Hit as [ts base Hts|cs fin Ht|d cs fin Hlt Ht]; cbn [chunk_item];
    try (by apply wp_fresh_item); try (by apply wp_old_item).
  { lia. }
  pose proof (tree_ok_kids addr p s fin (d + Datatypes.S n) cs Ht) as (Hk & Hel & Hw).
  pose proof Ht as [(Hu & _) _].
  destruct (at_boundary b && (negb fin || is_last)) eqn:Eg.
  - apply (boundary_guard _ _ _ _ _ _ Hpd) in Eg as [-> Hfin]. apply wp_ret.
    destruct Ht as [Hel' Hwf].
    exists [], [OSubtree (nd_ref cs) (d + Datatypes.S n) fin], (map kids (flat (Datatypes.S d) (Nd cs))).
    split_and!; [done| |by apply pending_push_out| |].
    + rewrite (map_Nd_kids n) by (by apply flat_uniform). apply outs_den_one, od_sub; [done|by split].
    + rewrite (flat_S_kids n (Datatypes.S d))
        by (by replace (Datatypes.S (Datatypes.S d) + n) with (Datatypes.S d + Datatypes.S n) by lia).
      apply (closes_chunks _ fin); [|done]. by apply (wft_chunks addr p fin n).
    + unfold builder_weight. cbn [push_out b_out]. rewrite outs_weight_app, outs_weight_cons.
      cbn [out_weight]. unfold item_weight. destruct (flat _ _); lia.
  - eapply wp_bind, wp_read.
    { eapply (read_node_tree addr p Hp); [unfold MAX_HEIGHT in Hlt; lia|exact Ht|by right|done]. }
    unfold to_node. destruct (Nat.eqb_spec (d + Datatypes.S n) 0); [lia|].
    rewrite (pd_level _ _ _ _ Hpd).
    destruct (child_items_den s n d fin cs) as (w & Hw1 & Hits);
      [lia|eapply Forall_impl; [exact Hel|]; by intros c (H & _)|done|by destruct Hu|].
    eapply wp_mono; [eapply wp_each_item; [|exact Hpd|exact Hits]|].
    + intros s' b' cur' it ts last Hin Hpd' Hit. apply IH; [done|done|].
      destruct it as [| |]; try done.
      assert (level = d + n) as ->.
      { clear -Hin. induction cs as [|c [|c' cs] IHc]; cbn [map child_items] in Hin.
        - by apply elem_of_nil in Hin.
        - apply list_elem_of_singleton in Hin. unfold child_item in Hin.
          destruct (_ =? _)%nat; [done|]. injection Hin as _ -> _. lia.
        - apply elem_of_cons in Hin as [Hin|Hin]; [|by apply IHc].
          unfold child_item in Hin. destruct (_ =? _)%nat; [done|]. injection Hin as _ -> _. lia. }
      lia.
    + intros b' s' He (r & outs & dd & H1 & H2 & H3 & H4 & H5). exists r, outs, dd.
      split_and!; try done. unfold item_weight. destruct (flat _ _); lia.
Qed.
End build.
