(* ===== verification/TreeLevels.v ===== *)
(** * From items to a root

    One level: [chunk_level] turns items for a stream into outputs for the
    nodes [split] makes of it.  Promotion re-reads those outputs as items of
    the next level.  [build_levels] therefore computes [nodes], level by
    level, until one node is left. *)
From S2P Require Import Prelude Store Chunker Node Tree TreeSpec TreeNodes TreeRead TreeBuild.

Section levels.
Context {S : Type} {CS : ChunkStore S} {CSL : ChunkStoreLaws S} (p : ChunkParams).
Hypothesis Hp : params_ok p = true.

Abbreviation addr := (@address S CS CSL).
Abbreviation tent := (tent addr).
Abbreviation nd_ref := (nd_ref addr).
Abbreviation nodes := (nodes addr p).
Abbreviation elem_ok := (elem_ok addr).
Abbreviation tree_ok := (tree_ok addr p).
Abbreviation pending := (pending p).
Abbreviation written := written.
Abbreviation items_den := (items_den p).
Abbreviation outs_den := (outs_den p).

Lemma wp_chunk_items s n b cur items E w :
  n < 256 -> pending s n b cur -> items_den s n items E w ->
  wp (chunk_items b items) (advanced p true n b cur E w) s.
Proof.
  intros Hn Hpd Hits. unfold chunk_items.
  assert (Forall (fun it => match it with ISubtree _ lv _ => lv < MAX_HEIGHT | _ => True end) items)
    as Hlow by (clear -Hits; induction Hits as [|? ? ? ? ? []]; by constructor).
  eapply (wp_each_item p n); [|done|done]. intros s' b' cur' it ts last Hin Hpd' Hit.
  rewrite Forall_forall in Hlow. specialize (Hlow it Hin).
  apply (wp_chunk_item p Hp); [done|done|done|]. destruct it; [done| |done]. lia.
Qed.

(** ** One level *)

Definition level_outs (s : S) (n : nat) (outs : list OutItem) (E : list PTree) (w : nat) : Prop :=
  outs_den s n outs (map Nd (level_chunks addr p n E)) /\ min 2 w <= outs_weight outs.

Lemma wp_chunk_level s n items rec E w :
  n < 256 -> E <> [] -> items_den s n items E w ->
  wp (chunk_level n p items rec) (fun r s' => level_outs s' n r.1 E w) s.
Proof.
  intros Hn HE Hits. unfold chunk_level, level_outs. rewrite level_chunks_split by done.
  eapply wp_bind_mono; [eapply wp_chunk_items; [done|by apply pending_new|done]|].
  intros b s1 He (r & outs & d & Hout & Hden & Hpd & Hc & Hw). cbn [b_out builder_new app] in Hout.
  simpl in Hc. change (close (TreeNodes.run addr p [] E)) with (split addr p E) in Hc.
  unfold close in Hc. cbn [fst snd] in Hc. unfold builder_weight in Hw. cbn [builder_new b_out] in Hw.
  pose proof (pending_boundary p _ _ _ _ Hpd) as Hb. pose proof (pd_count _ _ _ _ _ Hpd) as Hcount.
  apply wp_bind. destruct (Z.ltb_spec 0 (b_count b)) as [Hpos|Hpos].
  - assert (r <> []) as Hr by (intros ->; simpl in Hcount; lia).
    pose proof (elems_uniform s1 n r Hr (pd_elems _ _ _ _ _ Hpd)) as Hu.
    eapply wp_mono.
    { destruct Hpd. apply (wp_emit p s1 n b r); try done.
      - by rewrite (feed_all_params _ _ _ pd_chunker).
      - by apply uniform_level. }
    intros b2 s2 He2 (Hpd2 & Hout2 & Hh). rewrite Hout in Hout2.
    apply wp_bind. destruct (b_out b2) eqn:Eb; [by destruct outs|]. apply wp_ret, wp_ret.
    cbn [fst]. rewrite Eb, Hout2. destruct r as [|t r]; [done|]. rewrite <-Hc, map_app. split.
    + apply outs_den_app; [by eapply outs_den_extends|]. apply outs_den_one, od_chunk.
      split_and!; [done| |done]. eapply Forall_impl; [exact (pd_elems _ _ _ _ _ Hpd)|].
      intros u. by apply elem_ok_extends.
    + rewrite outs_weight_app, outs_weight_cons. cbn [out_weight]. lia.
  - assert (r = []) as -> by (destruct r; [done|]; simpl in Hcount; lia).
    apply wp_ret. rewrite app_nil_r in Hc. apply wp_bind.
    assert (outs <> []) as Hne.
    { intros ->. apply outs_den_nil_l, map_eq_nil in Hden as ->.
      by apply (split_nonempty addr p E). }
    rewrite Hout. destruct outs as [|o outs]; [done|]. apply wp_ret, wp_ret. cbn [fst].
    rewrite Hout, <-Hc. split; [done|]. rewrite Hout in Hw.
    change (outs_weight []) with 0 in Hw. lia.
Qed.

(** The level of the empty map: one empty leaf. *)
Lemma wp_chunk_level_empty s items rec w :
  items_den s 0 items [] w ->
  wp (chunk_level 0 p items rec) (fun r s' =>
    r.1 = [OChunk (nd_ref [])] /\ holds s' (hash (nd_ref [])) (node_image 0 [])) s.
Proof.
  intros Hits. unfold chunk_level.
  eapply wp_bind_mono; [eapply (wp_chunk_items s 0); [lia|by apply pending_new|done]|].
  intros b s1 He (r & outs & d & Hout & Hden & Hpd & Hc & _). cbn [b_out builder_new app] in Hout.
  simpl in Hc. unfold close in Hc. cbn [fst snd] in Hc. apply app_eq_nil in Hc as [-> Hr].
  assert (r = []) as -> by (by destruct r). apply outs_den_nil_r in Hden as ->.
  destruct Hpd. apply wp_bind. rewrite pd_count. cbn [length Z.of_nat Z.ltb Z.compare].
  apply wp_ret, wp_bind. rewrite Hout. cbn [Nat.eqb].
  eapply wp_mono.
  - apply (wp_emit p s1 0 b []); try done. by rewrite (feed_all_params _ _ _ pd_chunker).
  - intros b2 s2 _ (_ & Ho & Hh). apply wp_ret. cbn [fst]. by rewrite Ho, Hout.
Qed.

(** ** Promotion *)

(** An opened parent of level [n], as [promote] trusts it. *)
Definition opened_den (s : S) (n : nat) (o : OpenedInner) : Prop :=
  exists cs, o_node o = nd_ref cs /\ o_children o = map (fun c => hash (nd_ref (kids c))) cs /\
    tree_ok s (o_final o) (Datatypes.S n) (Nd cs).

Lemma opened_den_extends s s' n o : extends s s' -> opened_den s n o -> opened_den s' n o.
Proof. intros He (cs & H1 & H2 & H3). exists cs. split_and!; [done..|]. by eapply tree_ok_extends. Qed.

Lemma match_opened_spec r outs opened o opened' :
  match_opened r outs opened = (o, opened') ->
  (forall c, c ∈ opened' -> c ∈ opened) /\
  match o with
  | Some cand => cand ∈ opened /\ run_matches outs (o_children cand) = true
  | None => True
  end.
Proof.
  induction opened as [|cand opened IH]; cbn [match_opened].
  - by intros [= <- <-].
  - destruct (bool_decide _ && run_matches _ _) eqn:E.
    + intros [= <- <-]. apply andb_true_iff in E as [_ E]. split; [by intros; apply elem_of_cons; right|].
      split; [by apply elem_of_cons; left|done].
    + destruct (bytes_leb _ _).
      * intros H. destruct (IH H) as [H1 H2]. split; [intros c Hc; apply elem_of_cons; right; auto|].
        destruct o; [|done]. destruct H2. split; [by apply elem_of_cons; right|done].
      * by intros [= <- <-].
Qed.

(** A run of outputs with a parent's children's addresses is its children. *)
Lemma run_matches_den s n outs D cs :
  n < 256 -> outs_den s n outs D -> Forall (tree_ok s true (Datatypes.S n)) D ->
  Forall (tree_ok s true (Datatypes.S n)) cs ->
  run_matches outs (map (fun c => hash (nd_ref (kids c))) cs) = true ->
  exists D', D = cs ++ D' /\ outs_den s n (drop (length cs) outs) D' /\
    outs_weight outs = 2 * length cs + outs_weight (drop (length cs) outs).
Proof.
  intros Hn Hden HD Hcs. revert outs D Hden HD. induction Hcs as [|c cs Hc Hcs IH]; intros outs D Hden HD Hm.
  - exists D. by rewrite drop_0.
  - cbn [map run_matches] in Hm. destruct Hden as [|o ds outs D Ho Hden]; [done|].
    destruct Ho as [cs0 Hwr|]; [|done]. apply andb_true_iff in Hm as [Hh%bool_decide_eq_true Hm].
    apply Forall_app in HD as [Hcs0 HD]. apply Forall_cons_1 in Hcs0 as [Hcs0 _].
    pose proof Hc as [(Hu & _) _]. apply uniform_Nd in Hu as (cs1 & -> & _ & _). cbn [kids] in Hh.
    pose proof (stored_inj addr p Hp s n true true _ _ Hn Hcs0 Hc Hh) as ->.
    destruct (IH outs D Hden HD Hm) as (D' & -> & Hden' & Hw). exists D'.
    split_and!; [done|done|]. rewrite outs_weight_cons. cbn [out_weight length drop]. lia.
Qed.

Lemma id_promoted s n node lv fin ds :
  out_den p s n (OSubtree node lv fin) ds ->
  let it := if (lv =? Datatypes.S n)%nat then IOld node fin else ISubtree node lv fin in
  item_den p s (Datatypes.S n) it ds /\ 1 <= item_weight it ds.
Proof.
  intros Ho. pose proof (out_den_nonempty _ _ _ _ _ Ho) as Hne.
  inversion Ho as [|d cs fin' Hlt Ht]; subst. cbv zeta.
  destruct d as [|d]; cbn [Nat.add].
  - rewrite Nat.eqb_refl, flat_1 in *. split; [by constructor|]. destruct cs; [done|]. simpl. lia.
  - destruct (Nat.eqb_spec (Datatypes.S (d + Datatypes.S n)) (Datatypes.S n)); [lia|].
    split; [|unfold item_weight; destruct (flat _ _); [done|lia]].
    replace (Datatypes.S (d + Datatypes.S n)) with (d + Datatypes.S (Datatypes.S n)) by lia.
    apply id_sub; [lia|].
    by replace (Datatypes.S d + Datatypes.S (Datatypes.S n))
      with (Datatypes.S (Datatypes.S d) + Datatypes.S n) by lia.
Qed.

Lemma id_fresh_entries s n F :
  Forall (elem_ok s n) F -> item_den p s n (IFresh (map tent F) None) F.
Proof. apply id_fresh. Qed.

Lemma items_den_snoc s n items E w it ts :
  items_den s n items E w -> item_den p s n it ts ->
  items_den s n (items ++ [it]) (E ++ ts) (w + item_weight it ts).
Proof.
  intros H1 H2. eapply items_den_app; [done|].
  rewrite <-(app_nil_r ts) at 1. rewrite <-(Nat.add_0_r (item_weight it ts)).
  constructor; [done|constructor].
Qed.

Definition fresh_weight (F : list PTree) : nat := match F with [] => 0 | _ :: _ => 2 end.

Lemma flush_den s n items E w F :
  items_den s n items E w -> Forall (elem_ok s n) F ->
  items_den s n (flush (map tent F) items) (E ++ F) (w + fresh_weight F).
Proof.
  intros Hits HF. destruct F as [|t F]; cbn [map flush fresh_weight].
  - by rewrite app_nil_r, Nat.add_0_r.
  - apply (items_den_snoc _ _ _ _ _ (IFresh (tent t :: map tent F) None) (t :: F)); [done|].
    by apply (id_fresh_entries s n (t :: F)).
Qed.

Lemma promote_loop_den s n fuel outs D opened F items E w :
  n < 256 -> length outs <= fuel -> outs_den s n outs D ->
  Forall (tree_ok s true (Datatypes.S n)) D ->
  Forall (opened_den s (Datatypes.S n)) opened ->
  items_den s (Datatypes.S n) items E w -> Forall (elem_ok s (Datatypes.S n)) F ->
  exists w', min 2 (w + fresh_weight F + outs_weight outs) <= w' /\
    items_den s (Datatypes.S n)
      (promote_loop fuel outs opened (Datatypes.S n) (map tent F) items) (E ++ F ++ D) w'.
Proof.
  intros Hn. revert outs D opened F items E w.
  induction fuel as [|fuel IH]; intros outs D opened F items E w Hlen Hden HD Hop Hits HF.
  - destruct outs; [|simpl in Hlen; lia]. inversion Hden; subst. cbn [promote_loop].
    eexists. split; [|rewrite app_nil_r; by eapply flush_den]. unfold outs_weight. simpl sum_list_with. lia.
  - destruct Hden as [|o ds outs D Ho Hden]; cbn [promote_loop].
    { eexists. split; [|rewrite app_nil_r; by eapply flush_den]. unfold outs_weight. simpl sum_list_with. lia. }
    apply Forall_app in HD as [Hds HD]. cbn [length] in Hlen.
    destruct o as [r|node lv fin].
    + inversion Ho as [cs0 Hwr|]; subst.
      destruct (match_opened (nd_ref cs0) (OChunk (nd_ref cs0) :: outs) opened) as [[cand|] opened'] eqn:Em;
        destruct (match_opened_spec _ _ _ _ _ Em) as [Hsub Hm].
      * destruct Hm as [Hin Hm]. rewrite Forall_forall in Hop.
        destruct (Hop _ Hin) as (cs & Hnode & Hch & Ht). rewrite Hch in Hm.
        destruct (tree_ok_kids _ _ _ _ _ _ Ht) as (Hk & _ & Hkids).
        assert (Forall (tree_ok s true (Datatypes.S n)) cs) as Hcs.
        { clear -Hkids. induction cs as [|c [|c' cs] IHc]; [constructor| |].
          - constructor; [|constructor]. destruct Hkids as [H1 H2]. split; [done|by eapply wft_fin].
          - apply forall_last_cons in Hkids as [[H1 H2] Hr]; [|done].
            constructor; [|by apply IHc]. split; [done|by eapply wft_fin]. }
        assert (outs_den s n (OChunk (nd_ref cs0) :: outs) ([Nd cs0] ++ D)) as Hden' by (by constructor).
        destruct (run_matches_den s n _ _ cs Hn Hden') as (D' & ED & HdenD' & Hwt); [by apply Forall_app|done|done|].
        rewrite Hch, length_map. rewrite ED.
        pose proof (chunk_ok_nonempty _ _ _ _ Hk) as Hcne.
        assert (item_den p s (Datatypes.S n) (IOld (o_node cand) (o_final cand)) cs) as Hit
          by (rewrite Hnode; by constructor).
        edestruct (IH (drop (length cs) (OChunk (nd_ref cs0) :: outs)) D' opened' []
            (flush (map tent F) items ++ [IOld (o_node cand) (o_final cand)]))
          as (w' & Hw' & Hres); [| exact HdenD'| | | |done|].
        { rewrite length_drop. destruct cs; [done|]. cbn [length]. lia. }
        { assert (Forall (tree_ok s true (Datatypes.S n)) ([Nd cs0] ++ D)) as HDD by (by apply Forall_app).
          rewrite ED in HDD. by apply Forall_app in HDD as [_ ?]. }
        { rewrite Forall_forall. intros c Hc. by apply Hop, Hsub. }
        { eapply items_den_snoc; [by eapply flush_den|exact Hit]. }
        exists w'. split; [|by rewrite <-!app_assoc in Hres].
        destruct cs; [done|]. unfold item_weight, fresh_weight in *. cbn [length] in *.
        destruct F; lia.
      * edestruct (IH outs D opened' (F ++ [Nd cs0]) items) as (w' & Hw' & Hres);
          [lia|done|done| |exact Hits| |].
        { rewrite Forall_forall in *. intros c Hc. by apply Hop, Hsub. }
        { apply Forall_app. split; [done|]. constructor; [|constructor].
          apply Forall_cons_1 in Hds as [[Hd _] _]. done. }
        exists w'. rewrite map_app in Hres. cbn [map] in Hres. rewrite tent_Nd in Hres.
        split; [|by rewrite <-!app_assoc in Hres].
        rewrite outs_weight_cons. cbn [out_weight]. unfold fresh_weight in *. destruct F; cbn [app] in Hw'; lia.
    + destruct (id_promoted _ _ _ _ _ _ Ho) as [Hit Hwt].
      edestruct (IH outs D opened [] (flush (map tent F) items ++
          [if (lv =? Datatypes.S n)%nat then IOld node fin else ISubtree node lv fin]))
        as (w' & Hw' & Hres); [lia|done|done|done| |done|].
      { eapply items_den_snoc; [by eapply flush_den|exact Hit]. }
      exists w'. split; [|by rewrite <-!app_assoc in Hres].
      rewrite outs_weight_cons. cbn [out_weight]. unfold fresh_weight in *. lia.
Qed.

Lemma promote_den s n outs D opened :
  n < 256 -> outs_den s n outs D -> Forall (tree_ok s true (Datatypes.S n)) D ->
  Forall (opened_den s (Datatypes.S n)) opened ->
  exists w', min 2 (outs_weight outs) <= w' /\
    items_den s (Datatypes.S n) (promote outs opened (Datatypes.S n)) D w'.
Proof.
  intros Hn Hden HD Hop. unfold promote.
  destruct (promote_loop_den s n (length outs) outs D opened [] [] [] 0) as (w' & Hw & Hres);
    try done; [constructor|]. exists w'. split; [unfold fresh_weight in Hw; lia|done].
Qed.

(** ** The root describes its contents *)

Definition is_tree (s : S) (R : Root) (m : list (bytes * bytes)) : Prop :=
  params R = p /\ content_ok m /\ 1 <= height R <= MAX_HEIGHT /\
  match m with
  | [] => height R = 1 /\ root_hash R = hash (nd_ref []) /\ holds s (root_hash R) (node_image 0 [])
  | _ :: _ =>
    exists t, nodes (height R) m = [t] /\ root_hash R = hash (nd_ref (kids t)) /\
      stored addr s (height R) t
  end.

(** No lower level of the tree is a single node already. *)
Definition least (R : Root) (m : list (bytes * bytes)) : Prop :=
  forall j, 1 <= j < height R -> length (nodes j m) <> 1.

Lemma is_tree_extends s s' R m : extends s s' -> is_tree s R m -> is_tree s' R m.
Proof.
  intros He (H1 & H2 & H3 & H4). do 3 (split; [done|]). destruct m.
  - destruct H4 as (H5 & H6 & H7). split_and!; [done..|]. by apply He.
  - destruct H4 as (t & H5 & H6 & H7). exists t. split_and!; [done..|]. by eapply stored_extends.
Qed.

Lemma is_tree_ok s R m :
  m <> [] -> is_tree s R m ->
  exists cs h, height R = Datatypes.S h /\ h < MAX_HEIGHT /\ root_hash R = hash (nd_ref cs) /\
    tree_ok s true (Datatypes.S h) (Nd cs) /\ leaves (Nd cs) = m.
Proof.
  intros Hm (_ & Hc & Hh & H).
  assert (exists t, nodes (height R) m = [t] /\ root_hash R = hash (nd_ref (kids t)) /\
      stored addr s (height R) t) as (t & Ht & Hr & Hs) by (by destruct m).
  destruct (nodes_tree addr p _ _ _ Hm Ht) as (Hu & Hw & Hl).
  destruct (height R) as [|h]; [lia|]. pose proof Hu as Hu'.
  apply uniform_Nd in Hu' as (cs & -> & _ & _). exists cs, h.
  split_and!; [done|lia|done| |done]. split; [|done]. split_and!; [done|done|by rewrite Hl].
Qed.

Lemma outs_den_stored s n outs D : outs_den s n outs D -> Forall (stored addr s (Datatypes.S n)) D.
Proof.
  induction 1 as [|o ds outs D Ho _ IH]; [constructor|]. apply Forall_app. split; [|done].
  destruct Ho as [cs H|d cs fin _ [(Hu & Hs & _) _]].
  - constructor; [by apply written_stored|constructor].
  - by apply stored_flat.
Qed.

Lemma outs_den_length s n outs D : outs_den s n outs D -> length outs <= length D.
Proof.
  induction 1 as [|o ds outs D Ho _ IH]; [done|]. rewrite length_app. cbn [length].
  apply out_den_nonempty in Ho. destruct ds; [done|]. cbn [length]. lia.
Qed.

Lemma nodes_tree_ok s n m :
  m <> [] -> content_ok m -> Forall (stored addr s n) (nodes n m) ->
  Forall (tree_ok s true n) (nodes n m).
Proof.
  intros Hm Hc Hs. destruct (nodes_spec addr p n m Hm) as (_ & Hu & Hw & Hl).
  rewrite <-Hl in Hc. clear Hl. induction (nodes n m) as [|t ts IH]; [constructor|].
  apply Forall_cons_1 in Hs as [Hs Hss], Hu as [Hu Hus]. cbn [map concat] in Hc.
  apply content_ok_app in Hc as [Hc1 Hc2].
  constructor.
  - split; [by split_and!|]. destruct ts; [done|]. apply forall_last_cons in Hw as [Hw _]; [|done].
    by eapply wft_fin.
  - apply IH; try done. destruct ts; [done|]. by apply forall_last_cons in Hw as [_ Hw].
Qed.

(** ** Height *)

Lemma good_two cs : good addr p cs -> 2 <= length cs.
Proof.
  intros (f & t & -> & [c Hf] & Hc). unfold cuts in Hc. rewrite Hf in Hc.
  rewrite <-(length_map (ebytes addr)), map_app.
  apply (good_chunk_two p). by exists (map (ebytes addr) f), (ebytes addr t), c.
Qed.

Lemma chunks_shrink css :
  forall_last (chunk_ok addr p) true css -> css <> [] ->
  2 * length css <= length (concat css) + 1.
Proof.
  intros H Hne. destruct (forall_last_snoc _ _ _ Hne H) as (init & cs & -> & Hi & Hc).
  apply chunk_ok_nonempty in Hc. rewrite concat_app, !length_app. cbn [concat length].
  rewrite app_nil_r. destruct cs as [|c cs]; [done|]. cbn [length].
  assert (2 * length init <= length (concat init)); [|lia].
  clear -Hi. induction Hi as [|ds init Hds _ IH]; [done|].
  apply chunk_ok_false, good_two in Hds. cbn [concat length]. rewrite length_app. lia.
Qed.

Lemma nodes_shrink n m :
  m <> [] -> 2 * length (nodes (Datatypes.S n) m) <= length (nodes n m) + 1.
Proof.
  intros Hm. destruct (nodes_spec addr p n m Hm) as (Hne & _). cbn [TreeNodes.nodes].
  rewrite level_chunks_split, length_map by done.
  destruct (split_spec addr p (nodes n m)) as [Hc Hk]. rewrite <-Hc at 2.
  apply chunks_shrink; [done|]. by apply split_nonempty.
Qed.

(** Each level has at most half the nodes of the one below, so a tree of [m]
    entries has at most [log2 m + 1] levels before a single node is left. *)
Lemma nodes_bound n m :
  m <> [] -> ((Z.of_nat (length (nodes n m)) - 1) * 2 ^ Z.of_nat n <= Z.of_nat (length m) - 1)%Z.
Proof.
  intros Hm. induction n as [|n IH].
  - cbn [TreeNodes.nodes]. rewrite length_map. lia.
  - pose proof (nodes_shrink n m Hm) as H. rewrite Nat2Z.inj_succ, Z.pow_succ_r by lia.
    assert (0 < 2 ^ Z.of_nat n)%Z by lia. nia.
Qed.

(** ** Every level *)

Lemma wp_build_levels levels s n items opened rec m w :
  levels + n = MAX_HEIGHT -> m <> [] -> content_ok m -> (Z.of_nat (length m) <= 2 ^ 62)%Z ->
  items_den s n items (nodes n m) w ->
  (forall j, Forall (opened_den s (Datatypes.S j)) (nth (Datatypes.S j) opened [])) ->
  (forall j, 1 <= j <= n -> length (nodes j m) <> 1) -> 1 <= levels ->
  wp (build_levels levels n p items opened rec)
    (fun r s' => is_tree s' r.1 m /\ (2 <= w -> least r.1 m)) s.
Proof.
  revert s n items rec w. induction levels as [|levels IH];
    intros s n items rec w Hl Hm Hc Hsize Hits Hop Hleast Hlv; [lia|].
  destruct (nodes_spec addr p n m Hm) as (Hne & _).
  cbn [build_levels]. unfold MAX_HEIGHT in Hl.
  eapply wp_bind_mono; [apply (wp_chunk_level s n items rec (nodes n m) w); [lia|done|done]|].
  intros [outs rec'] s1 He [Hden Hw]. cbn [fst] in Hden, Hw.
  change (map Nd (level_chunks addr p n (nodes n m))) with (nodes (Datatypes.S n) m) in Hden.
  pose proof (nodes_tree_ok s1 (Datatypes.S n) m Hm Hc (outs_den_stored _ _ _ _ Hden)) as Hok.
  pose proof (outs_den_length _ _ _ _ Hden) as Hlen.
  destruct outs as [|o [|o' outs]].
  { apply outs_den_nil_l in Hden. by destruct (nodes_spec addr p (Datatypes.S n) m Hm) as (? & _). }
  - (* one output: the root *)
    inversion Hden as [|? ds ? D Ho Hnil E1 E2]; subst. apply outs_den_nil_l in Hnil as ->.
    rewrite app_nil_r in E2. destruct Ho as [cs Hwr|d cs fin Hlt Ht]; apply wp_ret; cbn [fst].
    + split.
      * split_and!; cbn [params height]; [done|done|unfold MAX_HEIGHT; lia|unfold MAX_HEIGHT; lia|].
        destruct m; [done|]. exists (Nd cs). cbn [height root_hash kids]. rewrite Nat.add_1_r.
        split_and!; [done|done|by apply written_stored].
      * intros _ j Hj. cbn [height] in Hj. apply Hleast. lia.
    + split.
      * split_and!; cbn [params height]; [done|done|unfold MAX_HEIGHT in *; lia|unfold MAX_HEIGHT in *; lia|].
        destruct Ht as [(Hu & Hs & Hcc) Hwf].
        destruct m as [|e m]; [done|]. exists (Nd cs). cbn [height root_hash kids]. rewrite Nat.add_1_r.
        change (Datatypes.S (d + Datatypes.S n)) with (Datatypes.S d + Datatypes.S n).
        split_and!; [|done|done]. apply (nodes_up addr p); [done| |done]. by eapply wft_fin.
      * intros H2. exfalso. rewrite outs_weight_cons in Hw. cbn [out_weight] in Hw.
        change (outs_weight []) with 0 in Hw. lia.
  - (* two or more: the next level *)
    cbn [length] in Hlen.
    pose proof (nodes_bound (Datatypes.S n) m Hm) as Hb.
    assert (Datatypes.S n < 63)%nat as Hn.
    { destruct (Nat.lt_ge_cases (Datatypes.S n) 63) as [|Hge]; [done|].
      assert (2 ^ 63 <= 2 ^ Z.of_nat (Datatypes.S n))%Z by (apply Z.pow_le_mono_r; lia). nia. }
    assert (nodes_next : forall j, 1 <= j <= Datatypes.S n -> length (nodes j m) <> 1).
    { intros j Hj. destruct (decide (j = Datatypes.S n)) as [->|]; [lia|]. apply Hleast. lia. }
    destruct (promote_den s1 n (o :: o' :: outs) (nodes (Datatypes.S n) m)
      (nth (Datatypes.S n) opened [])) as (w' & Hw' & Hits');
      [lia|done|done| |].
    { eapply Forall_impl; [apply Hop|]. intros op. by apply opened_den_extends. }
    assert (2 <= w') as Hw2.
    { rewrite !outs_weight_cons in Hw'. destruct o, o'; cbn [out_weight] in Hw'; lia. }
    assert (forall j, Forall (opened_den s1 (Datatypes.S j)) (nth (Datatypes.S j) opened [])) as Hop1.
    { intros j. eapply Forall_impl; [apply Hop|]. intros op. by apply opened_den_extends. }
    assert (wp (build_levels levels (Datatypes.S n) p
        (promote (o :: o' :: outs) (nth (Datatypes.S n) opened []) (Datatypes.S n)) opened rec')
        (fun r s' => is_tree s' r.1 m /\ (2 <= w' -> least r.1 m)) s1) as Hrec
      by (apply IH; try done; unfold MAX_HEIGHT; lia).
    destruct o; destruct (Nat.leb_spec MAX_HEIGHT (n + 1)) as [Hge|_];
      try (unfold MAX_HEIGHT in Hge; lia); rewrite Nat.add_1_r;
      (eapply wp_mono; [exact Hrec|]; intros r s2 _ [H1 H2]; split; [done|]; intros _; by apply H2).
Qed.

Lemma wp_build_levels_empty levels s items opened rec w :
  1 <= levels -> items_den s 0 items [] w ->
  wp (build_levels levels 0 p items opened rec) (fun r s' => is_tree s' r.1 [] /\ least r.1 []) s.
Proof.
  intros Hl Hits. destruct levels as [|levels]; [lia|]. cbn [build_levels].
  eapply wp_bind_mono; [by eapply wp_chunk_level_empty|].
  intros [outs rec'] s1 He [Ho Hh]. cbn [fst] in Ho. subst outs. apply wp_ret. cbn [fst].
  split; [|intros j Hj; cbn [height] in Hj; lia].
  split_and!; cbn [params height root_hash]; try done; [split; constructor|unfold MAX_HEIGHT; lia].
Qed.
End levels.
