(* ===== verification/TreeContent.v ===== *)
(** * Contents of a map

    Sorting, deduplicating and merging key/value lists, and the finite map
    they denote: [op_map] is what one batch operation does to it. *)
From S2P Require Import Prelude Store Chunker Node Tree TreeSpec TreeNodes.

Definition contents (m : list (bytes * bytes)) : gmap bytes bytes := list_to_map m.

Definition op_map (M : gmap bytes bytes) (op : BatchOp) : gmap bytes bytes :=
  match op with
  | Put k v => <[k := v]> M
  | Delete k => delete k M
  end.

Definition load_map (entries : list (bytes * bytes)) : gmap bytes bytes :=
  foldl (fun M e => <[e.1 := e.2]> M) ∅ entries.

Lemma contents_lookup m x : contents m !! x = search_key x m.
Proof.
  unfold contents. induction m as [|[k v] m IH]; [done|]. simpl.
  destruct (decide (k = x)) as [->|Hne].
  - by rewrite lookup_insert_eq, bool_decide_true.
  - by rewrite lookup_insert_ne, bool_decide_false, IH.
Qed.

(** ** The stable sort *)

Section sort.
Context {A : Type} (key : A -> bytes).

Definition key_le (x y : A) : Prop := bytes_le (key x) (key y).

Lemma bytes_le_trans a b c : bytes_le a b -> bytes_le b c -> bytes_le a c.
Proof. rewrite !bytes_le_lteq. intros [H| ->] [H'| ->]; auto. left. by etrans. Qed.

Lemma insert_by_elem x y l : y ∈ insert_by key x l <-> y = x \/ y ∈ l.
Proof.
  induction l as [|z l IH]; simpl.
  - rewrite elem_of_cons. tauto.
  - destruct (bytes_leb (key x) (key z)); rewrite !elem_of_cons; [tauto|]. rewrite IH. tauto.
Qed.

Lemma insert_by_sorted x l :
  StronglySorted key_le l -> StronglySorted key_le (insert_by key x l).
Proof.
  induction 1 as [|y l Hl IH Hy]; simpl; [by repeat constructor|].
  destruct (bytes_leb (key x) (key y)) eqn:E.
  - constructor; [by constructor|]. apply bytes_leb_le in E. constructor; [done|].
    eapply Forall_impl; [exact Hy|]. intros z Hz. by eapply bytes_le_trans.
  - constructor; [done|]. apply Forall_forall. intros z Hz. apply insert_by_elem in Hz as [->|Hz].
    + apply bytes_leb_gt in E. by apply bytes_lt_le.
    + rewrite Forall_forall in Hy. by apply Hy.
Qed.

Lemma sort_by_sorted l : StronglySorted key_le (sort_by key l).
Proof. induction l as [|x l IH]; [constructor|]. by apply insert_by_sorted. Qed.

Lemma sort_by_elem x l : x ∈ sort_by key l <-> x ∈ l.
Proof.
  induction l as [|y l IH]; [done|]. change (sort_by key (y :: l)) with (insert_by key y (sort_by key l)).
  by rewrite insert_by_elem, elem_of_cons, IH.
Qed.

Definition with_key (k : bytes) (l : list A) : list A := filter (fun x => key x = k) l.

(** Stability: the elements of one key keep their order. *)
Lemma insert_by_with_key k x l :
  with_key k (insert_by key x l) = with_key k (x :: l).
Proof.
  unfold with_key. induction l as [|y l IH]; [done|]. cbn [insert_by].
  destruct (bytes_leb (key x) (key y)) eqn:E; [done|].
  rewrite (filter_cons _ y (insert_by key x l)), IH, (filter_cons _ x (y :: l)),
    (filter_cons _ y l), (filter_cons _ x l).
  destruct (decide (key x = k)) as [Hx|Hx], (decide (key y = k)) as [Hy|Hy]; try done.
  rewrite Hx, Hy in E. apply bytes_leb_gt in E. by apply irreflexivity in E; [|apply _].
Qed.

Lemma sort_by_with_key k l : with_key k (sort_by key l) = with_key k l.
Proof.
  induction l as [|x l IH]; [done|]. change (sort_by key (x :: l)) with (insert_by key x (sort_by key l)).
  rewrite insert_by_with_key. unfold with_key in *. by rewrite !filter_cons, IH.
Qed.

Lemma dedup_last_cons2 x y l :
  dedup_last key (x :: y :: l) =
    if bool_decide (key x = key y) then dedup_last key (y :: l) else x :: dedup_last key (y :: l).
Proof. done. Qed.

Lemma dedup_last_elem x l : x ∈ dedup_last key l -> x ∈ l.
Proof.
  induction l as [|y [|z l] IH]; [done|done|]. rewrite dedup_last_cons2.
  case_bool_decide; rewrite elem_of_cons; [by right; apply IH|]. rewrite elem_of_cons.
  intros [H'|H']; [by left|right; by apply IH].
Qed.

Lemma dedup_last_head y l : exists z k, dedup_last key (y :: l) = z :: k /\ key z = key y.
Proof.
  revert y. induction l as [|z l IH]; intros y; [by exists y, []|].
  rewrite dedup_last_cons2. case_bool_decide as E.
  - destruct (IH z) as (z' & k & -> & Hz). exists z', k. by rewrite E.
  - by eexists _, _.
Qed.

Lemma dedup_last_sorted l :
  StronglySorted key_le l -> StronglySorted bytes_lt (map key (dedup_last key l)).
Proof.
  induction l as [|x [|y l] IH]; intros H; [constructor|by repeat constructor|].
  rewrite dedup_last_cons2. apply StronglySorted_cons in H as [Hx H].
  specialize (IH H). case_bool_decide as E; [done|]. cbn [map]. constructor; [done|].
  apply StronglySorted_cons in H as [Hy H].
  apply Forall_cons_1 in Hx as [Hxy _]. assert (bytes_lt (key x) (key y)) as Hlt.
  { apply bytes_le_lteq in Hxy as [|]; [done|done]. }
  apply Forall_map, Forall_forall. intros z Hz%dedup_last_elem.
  apply elem_of_cons in Hz as [->|Hz]; [done|]. rewrite Forall_forall in Hy.
  eapply bytes_lt_le_trans; [exact Hlt|]. by apply Hy.
Qed.

Lemma dedup_last_with_key k l :
  StronglySorted key_le l -> last (with_key k (dedup_last key l)) = last (with_key k l).
Proof.
  unfold with_key. induction l as [|x [|y l] IH]; intros H; [done|done|].
  apply StronglySorted_cons in H as [_ H]. specialize (IH H).
  rewrite dedup_last_cons2, filter_cons. case_bool_decide as E.
  - rewrite IH. destruct (decide (key x = k)) as [Hk|]; [|done].
    rewrite filter_cons_True by congruence. by destruct (filter _ l).
  - rewrite filter_cons. destruct (decide (key x = k)) as [Hk|]; [|done].
    destruct (filter _ (dedup_last key (y :: l))) as [|a f] eqn:E1,
      (filter _ (y :: l)) as [|b g] eqn:E2; try done.
    + symmetry in IH. by apply last_None in IH.
    + by apply last_None in IH.
Qed.

Lemma length_insert_by x l : length (insert_by key x l) = S (length l).
Proof. induction l as [|y l IH]; simpl; [done|]. destruct (bytes_leb _ _); simpl; lia. Qed.
Lemma length_sort_by l : length (sort_by key l) = length l.
Proof. induction l as [|x l IH]; [done|]. simpl. rewrite length_insert_by. lia. Qed.
Lemma length_dedup_last l : length (dedup_last key l) <= length l.
Proof.
  induction l as [|x [|y l] IH]; [done|done|]. rewrite dedup_last_cons2.
  case_bool_decide; simpl in *; lia.
Qed.
End sort.

(** In a list without repeated keys at most one element has a key. *)
Lemma sorted_with_key {A} (key : A -> bytes) k l x :
  StronglySorted bytes_lt (map key l) -> x ∈ l -> key x = k -> with_key key k l = [x].
Proof.
  intros Hs Hx Hk. unfold with_key. induction l as [|y l IH]; [by apply elem_of_nil in Hx|].
  cbn [map] in Hs. apply StronglySorted_cons in Hs as [Hy Hs]. rewrite Forall_map, Forall_forall in Hy.
  rewrite filter_cons. apply elem_of_cons in Hx as [->|Hx].
  - rewrite decide_True by done. f_equal. apply list_filter_none, Forall_forall.
    intros z Hz E. specialize (Hy z Hz). rewrite Hk, E in Hy. by apply irreflexivity in Hy; [|apply _].
  - rewrite decide_False; [by apply IH|]. intros E. specialize (Hy x Hx).
    rewrite Hk, E in Hy. by apply irreflexivity in Hy; [|apply _].
Qed.

(** ** Bulk load: the last value of each key *)

Lemma search_key_with_key x m :
  StronglySorted bytes_lt (map fst m) -> search_key x m = option_map snd (last (with_key fst x m)).
Proof.
  unfold with_key. induction m as [|[k v] m IH]; intros Hs; [done|]. cbn [map fst] in Hs.
  pose proof Hs as Hs'. apply StronglySorted_cons in Hs' as [_ Hs']. cbn [search_key].
  case_bool_decide as E.
  - change (filter (fun e => e.1 = x) ((k, v) :: m)) with (with_key fst x ((k, v) :: m)).
    by rewrite (sorted_with_key fst x _ (k, v)) by (done || apply list_elem_of_here).
  - rewrite IH by done. by rewrite filter_cons_False.
Qed.

Lemma load_map_lookup (es : list (bytes * bytes)) (M : gmap bytes bytes) x :
  foldl (fun M e => <[e.1 := e.2]> M) M es !! x =
    match last (with_key fst x es) with Some e => Some e.2 | None => M !! x end.
Proof.
  unfold with_key. revert M. induction es as [|[k v] es IH]; intros M; [done|].
  cbn [foldl]. rewrite IH, filter_cons. cbn [fst snd].
  destruct (decide (k = x)) as [->|Hne].
  - destruct (filter _ es) as [|e f] eqn:E; [by simpl; rewrite lookup_insert_eq|].
    rewrite last_cons_cons. by destruct (last (e :: f)) eqn:El; [|apply last_None in El].
  - by rewrite lookup_insert_ne.
Qed.

Definition loaded (entries : list (bytes * bytes)) : list (bytes * bytes) :=
  dedup_last fst (sort_by fst entries).

Lemma loaded_contents entries : contents (loaded entries) = load_map entries.
Proof.
  apply map_eq. intros x. unfold load_map. rewrite contents_lookup, load_map_lookup.
  unfold loaded. rewrite search_key_with_key by apply dedup_last_sorted, sort_by_sorted.
  rewrite dedup_last_with_key, sort_by_with_key by apply sort_by_sorted.
  by destruct (last _).
Qed.

Lemma loaded_ok entries :
  Forall (fun e => kv_ok e = true) entries -> content_ok (loaded entries).
Proof.
  intros H. split; [apply dedup_last_sorted, sort_by_sorted|].
  rewrite Forall_forall in *. intros e He. by apply H, (sort_by_elem fst), (dedup_last_elem fst).
Qed.

(** Sorted contents are determined by their finite map. *)
Lemma contents_inj m m' :
  StronglySorted bytes_lt (map fst m) -> StronglySorted bytes_lt (map fst m') ->
  contents m = contents m' -> m = m'.
Proof.
  assert (forall l : list (bytes * bytes), StronglySorted bytes_lt (map fst l) -> NoDup l.*1) as Hnd.
  { intros l H. change (l.*1) with (map fst l). induction H as [|k ks Hs IH Hk]; constructor; [|done].
    intros Hin. rewrite Forall_forall in Hk. specialize (Hk k Hin).
    by apply irreflexivity in Hk; [|apply _]. }
  assert (forall l : list (bytes * bytes), StronglySorted bytes_lt (map fst l) ->
    StronglySorted (fun a b => bytes_lt a.1 b.1) l) as Hss.
  { intros l. induction l as [|e l IH]; intros H; [constructor|]. cbn [map] in H.
    apply StronglySorted_cons in H as [He H]. rewrite Forall_map in He. constructor; auto. }
  intros H1 H2 E.
  apply (StronglySorted_unique_strong (fun a b => bytes_lt a.1 b.1)); [|by apply Hss|by apply Hss|].
  - intros a b _ _ Hab Hba. exfalso. apply (irreflexivity bytes_lt a.1). by etrans.
  - by apply list_to_map_inj; [apply Hnd|apply Hnd|].
Qed.

(** ** Merging a batch into sorted contents *)

Definition op_pairs (op : BatchOp) : list (bytes * bytes) :=
  match op with Put k v => [(k, v)] | Delete _ => [] end.

(** [merge_ops] on pairs. *)
Fixpoint merge_kv (old : list (bytes * bytes)) : list BatchOp -> list (bytes * bytes) :=
  match old with
  | [] => fun ops => concat (map op_pairs ops)
  | e :: old =>
    (fix go (ops : list BatchOp) : list (bytes * bytes) :=
       match ops with
       | [] => e :: merge_kv old []
       | op :: rest =>
         match bytes_cmp e.1 (op_key op) with
         | Lt => e :: merge_kv old ops
         | Eq => op_pairs op ++ merge_kv old rest
         | Gt => op_pairs op ++ go rest
         end
       end)
  end.

Lemma merge_kv_cons e old op rest :
  merge_kv (e :: old) (op :: rest) =
    match bytes_cmp e.1 (op_key op) with
    | Lt => e :: merge_kv old (op :: rest)
    | Eq => op_pairs op ++ merge_kv old rest
    | Gt => op_pairs op ++ merge_kv (e :: old) rest
    end.
Proof. done. Qed.

Lemma merge_ind (P : list (bytes * bytes) -> list BatchOp -> Prop) :
  (forall ops, P [] ops) -> (forall e old, P old [] -> P (e :: old) []) ->
  (forall e old op rest, P old (op :: rest) -> P old rest -> P (e :: old) rest ->
    P (e :: old) (op :: rest)) ->
  forall old ops, P old ops.
Proof.
  intros H1 H2 H3 old. induction old as [|e old IH]; [done|].
  intros ops. induction ops as [|op rest IH']; [by apply H2|]. by apply H3.
Qed.

Lemma merge_ops_kv old ops :
  merge_ops old ops = map (fun e => ELeaf e.1 e.2) (merge_kv old ops).
Proof.
  assert (forall op, apply_op op = map (fun e => ELeaf e.1 e.2) (op_pairs op)) as Hop by (by intros []).
  revert old ops. apply merge_ind.
  - intros ops. simpl. induction ops as [|op ops IH]; [done|]. simpl. by rewrite map_app, IH, Hop.
  - intros [k v] old IH. simpl in *. by rewrite IH.
  - intros [k v] old op rest IH1 IH2 IH3. rewrite merge_kv_cons. cbn [merge_ops].
    fold (merge_ops old). cbn [fst]. destruct (bytes_cmp k (op_key op)); cbn [map].
    + by rewrite map_app, IH2, Hop.
    + by rewrite IH1.
    + rewrite map_app, <-IH3, Hop. done.
Qed.

Lemma merge_kv_elem old ops e :
  e ∈ merge_kv old ops -> e ∈ old \/ exists op, op ∈ ops /\ e ∈ op_pairs op.
Proof.
  revert old ops. refine (merge_ind _ _ _ _).
  - intros ops. simpl. induction ops as [|op ops IH]; [intros H; by apply elem_of_nil in H|].
    cbn [map concat]. rewrite elem_of_app. intros [H|H].
    + right. exists op. split; [apply list_elem_of_here|done].
    + destruct (IH H) as [H'|(op' & Hop & He)]; [by apply elem_of_nil in H'|].
      right. exists op'. split; [by apply list_elem_of_further|done].
  - intros e' old IH. simpl. rewrite !elem_of_cons. intros [H|H]; [by left; left|].
    destruct (IH H) as [|(op & Hop & _)]; [by left; right|by apply elem_of_nil in Hop].
  - intros e' old op rest IH1 IH2 IH3. rewrite merge_kv_cons.
    destruct (bytes_cmp _ _); rewrite ?elem_of_app, ?elem_of_cons.
    + intros [H|H]; [right; exists op; split; [apply list_elem_of_here|done]|].
      destruct (IH2 H) as [|(op' & Hop & He)]; [by left; right|].
      right. exists op'. split; [by apply list_elem_of_further|done].
    + intros [H|H]; [by left; left|]. destruct (IH1 H) as [|Ho]; [by left; right|by right].
    + intros [H|H]; [right; exists op; split; [apply list_elem_of_here|done]|].
      destruct (IH3 H) as [Ho|(op' & Hop & He)]; [by left; apply elem_of_cons in Ho|].
      right. exists op'. split; [by apply list_elem_of_further|done].
Qed.

Lemma op_pairs_key op e : e ∈ op_pairs op -> e.1 = op_key op.
Proof.
  destruct op; simpl; intros H; [|by apply elem_of_nil in H].
  apply list_elem_of_singleton in H as ->. done.
Qed.

Lemma merge_kv_keys (Q : bytes -> Prop) old ops :
  Forall (fun e => Q e.1) old -> Forall (fun op => Q (op_key op)) ops ->
  Forall (fun e => Q e.1) (merge_kv old ops).
Proof.
  rewrite !Forall_forall. intros H1 H2 e He. apply merge_kv_elem in He as [He|(op & Hop & He)].
  - by apply H1.
  - rewrite (op_pairs_key _ _ He). by apply H2.
Qed.

Lemma sorted_cons_map {A} (key : A -> bytes) x l :
  StronglySorted bytes_lt (map key (x :: l)) <->
  Forall (fun y => bytes_lt (key x) (key y)) l /\ StronglySorted bytes_lt (map key l).
Proof. cbn [map]. by rewrite StronglySorted_cons, Forall_map. Qed.

Lemma Forall_key_trans {A} (key : A -> bytes) a b l :
  bytes_lt a b -> Forall (fun y => bytes_lt b (key y)) l -> Forall (fun y => bytes_lt a (key y)) l.
Proof. intros H HF. eapply Forall_impl; [exact HF|]. intros y Hy. simpl in *. by etrans. Qed.

(** What an operation adds before larger keys keeps the list sorted. *)
Lemma op_pairs_sorted op l :
  Forall (fun e => bytes_lt (op_key op) e.1) l -> StronglySorted bytes_lt (map fst l) ->
  StronglySorted bytes_lt (map fst (op_pairs op ++ l)).
Proof.
  intros HF Hs. destruct op as [k v|k]; [|done]. simpl app. by apply sorted_cons_map.
Qed.

Lemma merge_kv_sorted old ops :
  StronglySorted bytes_lt (map fst old) -> StronglySorted bytes_lt (map op_key ops) ->
  StronglySorted bytes_lt (map fst (merge_kv old ops)).
Proof.
  revert old ops. refine (merge_ind _ _ _ _).
  - intros ops _ Hs. simpl. induction ops as [|op ops IH]; [constructor|].
    apply sorted_cons_map in Hs as [Hop Hs]. cbn [map concat]. apply op_pairs_sorted; [|by apply IH].
    change (concat (map op_pairs ops)) with (merge_kv [] ops).
    by apply merge_kv_keys.
  - intros e old IH He Hs. apply sorted_cons_map in He as [He Hold]. simpl.
    apply StronglySorted_cons. split; [|by apply IH].
    apply Forall_map. by apply merge_kv_keys.
  - intros e old op rest IH1 IH2 IH3 He Hs. rewrite merge_kv_cons.
    pose proof He as He'. apply sorted_cons_map in He' as [Hek Hold].
    pose proof Hs as Hs'. apply sorted_cons_map in Hs' as [Hop Hrest].
    destruct (bytes_cmp e.1 (op_key op)) eqn:E.
    + apply bytes_cmp_eq in E. apply op_pairs_sorted; [|by apply IH2].
      apply merge_kv_keys; [by rewrite <-E|done].
    + apply sorted_cons_map. split; [|by apply IH1].
      apply merge_kv_keys; [done|]. constructor; [done|]. by eapply Forall_key_trans.
    + apply op_pairs_sorted; [|by apply IH3].
      assert (bytes_lt (op_key op) e.1) as Hlt by (unfold bytes_lt; by rewrite bytes_cmp_sym, E).
      apply merge_kv_keys; [|done]. constructor; [done|]. by eapply Forall_key_trans.
Qed.

Definition op_ok (op : BatchOp) : bool :=
  match op with Put k v => kv_ok (k, v) | Delete _ => true end.

Lemma merge_kv_ok old ops :
  content_ok old -> StronglySorted bytes_lt (map op_key ops) ->
  Forall (fun op => op_ok op = true) ops -> content_ok (merge_kv old ops).
Proof.
  intros [Hs Hk] Hops Hok. split; [by apply merge_kv_sorted|].
  rewrite Forall_forall in Hk. rewrite Forall_forall in Hok. rewrite Forall_forall.
  intros e He. apply merge_kv_elem in He as [He|(op & Hop & He)]; [by apply Hk|].
  specialize (Hok op Hop). destruct op; simpl in He; [|by apply elem_of_nil in He].
  by apply list_elem_of_singleton in He as ->.
Qed.

Lemma length_merge_kv old ops : length (merge_kv old ops) <= length old + length ops.
Proof.
  assert (forall op, length (op_pairs op) <= 1) as Hop by (intros []; simpl; lia).
  revert old ops. refine (merge_ind _ _ _ _).
  - intros ops. simpl. induction ops as [|op ops IH]; [done|]. simpl. rewrite length_app.
    specialize (Hop op). lia.
  - intros e old IH. simpl in *. lia.
  - intros e old op rest IH1 IH2 IH3. rewrite merge_kv_cons. specialize (Hop op).
    destruct (bytes_cmp _ _); rewrite ?length_app; simpl in *; lia.
Qed.

(** Untouched contents stay as they are. *)
Lemma merge_kv_nil old : merge_kv old [] = old.
Proof. induction old as [|e old IH]; [done|]. simpl. by rewrite IH. Qed.

(** Ranges merge independently. *)
Lemma merge_kv_app k a b ops ops' :
  Forall (fun e => bytes_le e.1 k) a -> Forall (fun e => bytes_lt k e.1) b ->
  Forall (fun op => bytes_le (op_key op) k) ops -> Forall (fun op => bytes_lt k (op_key op)) ops' ->
  merge_kv (a ++ b) (ops ++ ops') = merge_kv a ops ++ merge_kv b ops'.
Proof.
  intros Ha Hb Ho Ho'. revert a ops Ha Ho. refine (merge_ind _ _ _ _).
  - intros ops _ Ho. cbn [app]. induction Ho as [|op ops Hop Ho IH]; [done|].
    simpl map in *. cbn [concat]. rewrite <-app_comm_cons. destruct b as [|e b].
    + cbn [merge_kv]. cbn [map concat]. rewrite map_app, concat_app. by rewrite <-app_assoc.
    + rewrite merge_kv_cons. apply Forall_cons_1 in Hb as [He Hb].
      assert (bytes_cmp e.1 (op_key op) = Gt) as ->.
      { rewrite bytes_cmp_sym. by rewrite (bytes_le_lt_trans _ _ _ Hop He). }
      rewrite IH. cbn [merge_kv map concat]. by rewrite <-app_assoc.
  - intros e a IH Ha _. apply Forall_cons_1 in Ha as [He Ha]. cbn [app]. destruct ops' as [|op ops'].
    + rewrite !merge_kv_nil. done.
    + rewrite merge_kv_cons. apply Forall_cons_1 in Ho' as [Hop _].
      rewrite (bytes_le_lt_trans _ _ _ He Hop). cbn [app] in IH.
      rewrite IH by done. by rewrite !merge_kv_nil.
  - intros e a op ops IH1 IH2 IH3 Ha Ho. rewrite <-!app_comm_cons, !merge_kv_cons.
    pose proof Ha as Ha'. pose proof Ho as Hops. apply Forall_cons_1 in Ha' as [_ Ha'], Hops as [_ Hops].
    destruct (bytes_cmp e.1 (op_key op)).
    + by rewrite IH2, <-app_assoc.
    + rewrite app_comm_cons, IH1 by done. done.
    + by rewrite <-app_assoc, <-IH3.
Qed.

Definition has_put (ops : list BatchOp) : bool :=
  existsb (fun op => match op with Put _ _ => true | Delete _ => false end) ops.

Lemma merge_kv_put old ops : has_put ops = true -> merge_kv old ops <> [].
Proof.
  revert old ops. refine (merge_ind _ _ _ _).
  - intros ops. simpl. induction ops as [|[] ops IH]; done.
  - done.
  - intros e old op rest IH1 IH2 IH3. rewrite merge_kv_cons. intros H.
    destruct (bytes_cmp _ _); [|done|]; destruct op as [k v|k]; simpl in *; try done; auto.
Qed.

(** ** A batch as a function on finite maps *)

Definition search_op (x : bytes) (ops : list BatchOp) : option BatchOp :=
  last (with_key op_key x ops).

Definition after_op (old : option bytes) (op : option BatchOp) : option bytes :=
  match op with
  | Some (Put _ v) => Some v
  | Some (Delete _) => None
  | None => old
  end.

Lemma op_map_lookup ops M x :
  foldl op_map M ops !! x = after_op (M !! x) (search_op x ops).
Proof.
  unfold search_op, with_key. revert M. induction ops as [|op ops IH]; intros M; [done|].
  cbn [foldl]. rewrite IH, filter_cons.
  destruct (decide (op_key op = x)) as [Hx|Hne].
  - destruct (filter _ ops) as [|o f] eqn:E.
    + destruct op; simpl in *; subst; [by rewrite lookup_insert_eq|by rewrite lookup_delete_eq].
    + rewrite last_cons_cons. by destruct (last (o :: f)) eqn:El; [|apply last_None in El].
  - f_equal. destruct op; simpl in *; [by rewrite lookup_insert_ne|by rewrite lookup_delete_ne].
Qed.

Lemma search_op_cons x op ops :
  StronglySorted bytes_lt (map op_key (op :: ops)) ->
  search_op x (op :: ops) = if decide (op_key op = x) then Some op else search_op x ops.
Proof.
  intros Hs. unfold search_op. destruct (decide (op_key op = x)) as [E|E].
  - by rewrite (sorted_with_key op_key x _ op) by (done || apply list_elem_of_here).
  - unfold with_key. by rewrite filter_cons_False.
Qed.

Lemma search_key_none x m : Forall (fun e => bytes_lt x e.1) m -> search_key x m = None.
Proof.
  induction 1 as [|[k v] m Hk _ IH]; [done|]. simpl in *.
  by rewrite bool_decide_false by (intros ->; by apply irreflexivity in Hk; [|apply _]).
Qed.

Lemma search_op_none x ops : Forall (fun op => bytes_lt x (op_key op)) ops -> search_op x ops = None.
Proof.
  intros H. unfold search_op, with_key. rewrite list_filter_none; [done|].
  eapply Forall_impl; [exact H|]. intros op Hop E. simpl in *. rewrite E in Hop.
  by apply irreflexivity in Hop; [|apply _].
Qed.

Lemma search_key_op_pairs x op l :
  search_key x (op_pairs op ++ l) =
    if decide (op_key op = x) then
      match op with Put _ v => Some v | Delete _ => search_key x l end
    else search_key x l.
Proof.
  destruct op as [k v|k]; simpl; [|by destruct (decide _)].
  case_bool_decide; by destruct (decide (k = x)).
Qed.

Lemma merge_kv_lookup old ops x :
  StronglySorted bytes_lt (map fst old) -> StronglySorted bytes_lt (map op_key ops) ->
  search_key x (merge_kv old ops) = after_op (search_key x old) (search_op x ops).
Proof.
  revert old ops. refine (merge_ind _ _ _ _).
  - intros ops _ Hs. induction ops as [|op ops IH]; [done|].
    rewrite search_op_cons by done. apply sorted_cons_map in Hs as [Hop Hs].
    change (merge_kv [] (op :: ops)) with (op_pairs op ++ merge_kv [] ops).
    rewrite search_key_op_pairs. destruct (decide (op_key op = x)) as [<-|]; [|by apply IH].
    destruct op; [done|]. cbn [op_key] in *. simpl after_op.
    apply search_key_none. by apply merge_kv_keys.
  - intros e old _ _ _. by rewrite merge_kv_nil.
  - intros [k v] old op rest IH1 IH2 IH3 He Hs. rewrite merge_kv_cons. cbn [fst].
    pose proof He as He'. apply sorted_cons_map in He' as [Hek Hold]. cbn [fst] in Hek.
    pose proof Hs as Hs'. apply sorted_cons_map in Hs' as [Hop Hrest].
    rewrite (search_op_cons x op rest) by done.
    destruct (bytes_cmp k (op_key op)) eqn:E.
    + apply bytes_cmp_eq in E. subst k. rewrite search_key_op_pairs. cbn [search_key].
      destruct (decide (op_key op = x)) as [Ex|Hne].
      * destruct op; [done|]. cbn [op_key after_op] in *. apply search_key_none. rewrite <-Ex.
        by apply merge_kv_keys.
      * rewrite bool_decide_false by done. by apply IH2.
    + cbn [search_key]. case_bool_decide as Ex; [|rewrite IH1, search_op_cons by done; done].
      subst k. rewrite decide_False by (intros Ex; rewrite Ex in E; by rewrite bytes_cmp_refl in E).
      rewrite search_op_none; [done|]. by eapply Forall_key_trans.
    + rewrite search_key_op_pairs. destruct (decide (op_key op = x)) as [Ex|Hne]; [|by apply IH3].
      assert (bytes_lt (op_key op) k) as Hlt by (unfold bytes_lt; by rewrite bytes_cmp_sym, E).
      destruct op; [done|]. cbn [op_key after_op] in *. apply search_key_none. rewrite <-Ex.
      apply merge_kv_keys; [constructor; [done|]|done]. by eapply Forall_key_trans.
Qed.

(** The batch as the tree code prepares it: sorted, last operation per key. *)
Definition prepared (ops : list BatchOp) : list BatchOp := dedup_last op_key (sort_by op_key ops).

Lemma prepared_sorted ops : StronglySorted bytes_lt (map op_key (prepared ops)).
Proof. apply dedup_last_sorted, sort_by_sorted. Qed.

Lemma prepared_elem op ops : op ∈ prepared ops -> op ∈ ops.
Proof. intros H. by apply (sort_by_elem op_key), (dedup_last_elem op_key). Qed.

Lemma prepared_search x ops : search_op x (prepared ops) = search_op x ops.
Proof.
  unfold search_op, prepared.
  by rewrite dedup_last_with_key, sort_by_with_key by apply sort_by_sorted.
Qed.

Lemma merge_contents m ops :
  StronglySorted bytes_lt (map fst m) ->
  contents (merge_kv m (prepared ops)) = foldl op_map (contents m) ops.
Proof.
  intros Hs. apply map_eq. intros x.
  rewrite contents_lookup, merge_kv_lookup, op_map_lookup, contents_lookup, prepared_search
    by (done || apply prepared_sorted). done.
Qed.

Lemma length_prepared ops : length (prepared ops) <= length ops.
Proof.
  unfold prepared. etrans; [apply length_dedup_last|]. by rewrite length_sort_by.
Qed.

Lemma prepared_nil ops : prepared ops = [] -> ops = [].
Proof.
  unfold prepared. destruct (sort_by op_key ops) as [|op l] eqn:E.
  - intros _. apply length_zero_iff_nil. by rewrite <-(length_sort_by op_key), E.
  - destruct (dedup_last_head op_key op l) as (z & k & -> & _). done.
Qed.
