(* ===== verification/TreeBatch.v ===== *)
(** * Bulk load, batches and history independence

    [bulk_load] and [apply_batch] return the tree of the contents a finite map
    would have after the same operations, and fail only when the store does.
    Two histories that lead to the same contents give the same root, provided
    the last batch puts something: a batch of deletes that leaves one untouched
    subtree can return a root above the canonical one ([delete_keeps_chain]). *)
From S2P Require Import Prelude Store Chunker Node Tree TreeSpec TreeNodes TreeRead TreeBuild TreeLevels TreeContent.

Section batch.
Context {S : Type} {CS : ChunkStore S} {CSL : ChunkStoreLaws S} (p : ChunkParams).
Hypothesis Hp : params_ok p = true.

Abbreviation addr := (@address S CS CSL).
Abbreviation nd_ref := (nd_ref addr).
Abbreviation elem_ok := (elem_ok addr).
Abbreviation tree_ok := (tree_ok addr p).
Abbreviation items_den := (items_den p).
Abbreviation opened_den := (opened_den p).
Abbreviation pairs := (map (fun e => Kv e.1 e.2)).

(** ** Descent *)

Definition opened_ok (s : S) (d : Descent) : Prop :=
  forall j, Forall (opened_den s (Datatypes.S j)) (nth (Datatypes.S j) (d_opened d) []).

(** [d'] continues [d] by items for the stream [E]. *)
Definition descended (s : S) (d d' : Descent) (E : list PTree) (put : bool) : Prop :=
  opened_ok s d' /\ exists its w, d_items d' = d_items d ++ its /\ items_den s 0 its E w /\
    (put = true -> 2 <= w).

Lemma Forall_nth_alter {A} (P : A -> Prop) k o (l : list (list A)) :
  P o -> Forall P (nth k l []) -> Forall P (nth k (alter (fun os => os ++ [o]) k l) []).
Proof.
  intros Ho. revert l. induction k as [|k IH]; intros [|x l] H; simpl in *; try done.
  - apply Forall_app. split; [done|]. by constructor.
  - by apply IH.
Qed.

Lemma opened_ok_open s d level o :
  opened_ok s d -> opened_den s level o -> opened_ok s (descent_open level o d).
Proof.
  intros H Ho j. specialize (H j). unfold descent_open. cbn [d_opened].
  destruct (decide (level = Datatypes.S j)) as [->|Hne].
  - by apply Forall_nth_alter.
  - clear Ho. replace (nth (Datatypes.S j) (alter _ level (d_opened d)) [])
      with (nth (Datatypes.S j) (d_opened d) []); [done|].
    rewrite !nth_lookup, list_lookup_alter_ne by done. done.
Qed.

Lemma entries_elem_ok s m :
  content_ok m -> Forall (elem_ok s 0) (pairs m).
Proof.
  intros [_ Hk]. apply Forall_map. eapply Forall_impl; [exact Hk|]. intros [k v] H.
  split_and!; [done|done|]. split; [by repeat constructor|]. by constructor.
Qed.

Lemma fresh_entries_den s m base :
  content_ok m ->
  item_den p s 0 (IFresh (map (fun e => ELeaf e.1 e.2) m) base) (pairs m).
Proof.
  intros Hm. pose proof (id_fresh p s 0 (pairs m) base (entries_elem_ok s m Hm)) as H.
  by rewrite map_map in H.
Qed.

Lemma leaf_descended s d entries ops base :
  content_ok entries -> StronglySorted bytes_lt (map op_key ops) ->
  Forall (fun op => op_ok op = true) ops -> opened_ok s d ->
  descended s d (descent_item (IFresh (merge_ops entries ops) base) d)
    (pairs (merge_kv entries ops)) (has_put ops).
Proof.
  intros Hc Hs Hok Hop. split; [done|].
  pose proof (fresh_entries_den s _ base (merge_kv_ok _ _ Hc Hs Hok)) as Hit.
  rewrite <-merge_ops_kv in Hit.
  exists [IFresh (merge_ops entries ops) base],
    (item_weight (IFresh (merge_ops entries ops) base) (pairs (merge_kv entries ops)) + 0).
  split_and!; [done| |].
  - rewrite <-(app_nil_r (pairs _)) at 1. constructor; [done|constructor].
  - intros Hput. apply (merge_kv_put entries) in Hput.
    destruct (merge_kv entries ops); [done|]. simpl. lia.
Qed.

(** The ops of one child, and the ops left. *)
Lemma take_ops_spec is_last k ops mine rest :
  StronglySorted bytes_lt (map op_key ops) -> take_ops is_last k ops = (mine, rest) ->
  ops = mine ++ rest /\
  if is_last then rest = [] else
    Forall (fun op => bytes_le (op_key op) k) mine /\ Forall (fun op => bytes_lt k (op_key op)) rest.
Proof.
  revert mine rest. induction ops as [|op ops IH]; intros mine rest Hs; cbn [take_ops].
  - intros [= <- <-]. by destruct is_last.
  - apply sorted_cons_map in Hs as [Hop Hs]. destruct (is_last || bytes_leb (op_key op) k) eqn:E.
    + destruct (take_ops is_last k ops) as [m r] eqn:Et. intros [= <- <-].
      destruct (IH _ _ Hs eq_refl) as [-> H]. split; [done|].
      destruct is_last; [done|]. destruct H as [H1 H2]. split; [|done].
      constructor; [by apply bytes_leb_le|done].
    + intros [= <- <-]. apply orb_false_iff in E as [-> E]. split; [done|]. split; [done|].
      apply bytes_leb_gt in E. constructor; [done|]. by eapply Forall_key_trans.
Qed.

Lemma descended_app s d d1 d2 E E' b b' :
  descended s d d1 E b -> descended s d1 d2 E' b' -> descended s d d2 (E ++ E') (b || b').
Proof.
  intros [_ (i1 & w1 & H1 & H2 & H3)] [Ho (i2 & w2 & H4 & H5 & H6)]. split; [done|].
  exists (i1 ++ i2), (w1 + w2). split_and!.
  - by rewrite H4, H1, app_assoc.
  - by eapply items_den_app.
  - intros H. apply orb_true_iff in H as [H|H]; [specialize (H3 H)|specialize (H6 H)]; lia.
Qed.

Lemma has_put_app a b : has_put (a ++ b) = has_put a || has_put b.
Proof. apply existsb_app. Qed.

(** A child no operation touches is carried as a reference. *)
Lemma untouched_descended s d lv fin c :
  lv < MAX_HEIGHT -> tree_ok s fin (Datatypes.S lv) c -> opened_ok s d ->
  descended s d
    (descent_item (if (lv =? 0)%nat then IOld (nd_ref (kids c)) fin
                   else ISubtree (nd_ref (kids c)) lv fin) d) (pairs (leaves c)) false.
Proof.
  intros Hlv Hc Hop. split; [done|]. pose proof Hc as [(Hu & _) _].
  rewrite <-(flat_pairs _ _ Hu). pose proof Hu as Hu'. apply uniform_Nd in Hu' as (cs & -> & _ & _).
  eexists [_], (item_weight _ _ + 0). split_and!; [done| |by intros [=]].
  rewrite <-(app_nil_r (flat _ _)). constructor; [|constructor]. cbn [kids].
  destruct lv as [|lv]; cbn [Nat.eqb].
  - rewrite flat_1. by constructor.
  - pose proof (id_sub p s 0 lv cs fin) as H. rewrite Nat.add_1_r in H. apply H; [done|].
    by rewrite Nat.add_1_r.
Qed.

Lemma leaves_le_last n c : uniform n c -> content_ok (leaves c) ->
  Forall (fun e => bytes_le e.1 (tkey addr c)) (leaves c).
Proof.
  intros Hu [Hs _]. rewrite (tkey_leaves addr _ _ Hu). pose proof (leaves_nonempty _ _ Hu) as Hne.
  destruct (exists_last Hne) as (l & [k v] & E). rewrite E in *. unfold pairs_last. rewrite last_snoc.
  rewrite map_app, StronglySorted_app in Hs. destruct Hs as [H _].
  apply Forall_app. split; [|by constructor]. apply Forall_forall. intros e He.
  apply bytes_lt_le, H; [by apply list_elem_of_fmap_2|]. apply list_elem_of_here.
Qed.

Lemma content_ok_split c cs n :
  uniform n c -> content_ok (concat (map leaves (c :: cs))) ->
  content_ok (leaves c) /\ content_ok (concat (map leaves cs)) /\
  Forall (fun e => bytes_lt (tkey addr c) e.1) (concat (map leaves cs)).
Proof.
  intros Hu Hc. cbn [map concat] in Hc. pose proof (content_ok_app _ _ Hc) as [H1 H2].
  split_and!; [done|done|]. destruct Hc as [Hs _]. rewrite map_app, StronglySorted_app in Hs.
  destruct Hs as [H _]. apply Forall_forall. intros e He. apply H.
  - rewrite (tkey_leaves addr _ _ Hu). pose proof (leaves_nonempty _ _ Hu) as Hne.
    destruct (exists_last Hne) as (l & [k v] & ->). unfold pairs_last. rewrite last_snoc, map_app.
    apply elem_of_app. right. apply list_elem_of_here.
  - by apply list_elem_of_fmap_2.
Qed.

Lemma last_key_kids n c : uniform (Datatypes.S n) c -> last_key (nd_ref (kids c)) = tkey addr c.
Proof. intros H. by apply uniform_Nd in H as (cs & -> & _ & _). Qed.

Lemma descend_children_ok s visit lv fin min cs :
  lv < MAX_HEIGHT ->
  (forall d c lower cfin mine, c ∈ cs -> tree_ok s cfin (Datatypes.S lv) c -> opened_ok s d ->
    StronglySorted bytes_lt (map op_key mine) -> Forall (fun op => op_ok op = true) mine ->
    (forall k, lower = Some k -> Forall (fun e => bytes_lt k e.1) (leaves c)) ->
    exists d', visit d (nd_ref (kids c)) lower cfin mine = Ok d' /\
      descended s d d' (pairs (merge_kv (leaves c) mine)) (has_put mine)) ->
  forall d prev ops,
    cs <> [] -> forall_last (fun b c => tree_ok s b (Datatypes.S lv) c) fin cs ->
    content_ok (concat (map leaves cs)) -> opened_ok s d ->
    StronglySorted bytes_lt (map op_key ops) -> Forall (fun op => op_ok op = true) ops ->
    (forall k, (match prev with Some k => Some k | None => min end) = Some k ->
      Forall (fun e => bytes_lt k e.1) (concat (map leaves cs))) ->
    exists d', descend_children visit lv fin min d (map (fun c => nd_ref (kids c)) cs) prev ops = Ok d' /\
      descended s d d' (pairs (merge_kv (concat (map leaves cs)) ops)) (has_put ops).
Proof.
  intros Hlv. induction cs as [|c cs IH]; intros Hv d prev ops Hne Hw Hc Hop Hs Hok Hlow; [done|].
  assert (exists cfin, cfin = (fin && match cs with [] => true | _ => false end) /\
      tree_ok s cfin (Datatypes.S lv) c) as (cfin & Ecf & Hct).
  { destruct cs; [exists fin; by rewrite andb_true_r|]. exists false. rewrite andb_false_r.
    split; [done|]. apply Hw. }
  pose proof Hct as [(Hu & _) _]. destruct (content_ok_split _ _ _ Hu Hc) as (Hc1 & Hc2 & Hlt).
  change (map (fun c => nd_ref (kids c)) (c :: cs))
    with (nd_ref (kids c) :: map (fun c => nd_ref (kids c)) cs).
  cbn [descend_children].
  replace (match map (fun c => nd_ref (kids c)) cs with [] => true | _ :: _ => false end)
    with (match cs with [] => true | _ :: _ => false end) by (by destruct cs).
  set (is_last := match cs with [] => true | _ :: _ => false end) in *. rewrite <-Ecf.
  destruct (take_ops is_last (last_key (nd_ref (kids c))) ops) as [mine rest] eqn:Et.
  rewrite (last_key_kids lv) in * by done.
  destruct (take_ops_spec _ _ _ _ _ Hs Et) as [-> Hparts].
  rewrite map_app, StronglySorted_app in Hs. destruct Hs as (_ & Hsm & Hsr).
  apply Forall_app in Hok as [Hokm Hokr]. rewrite has_put_app.
  assert (exists d1, (match mine with
      | [] => Ok (descent_item (if (lv =? 0)%nat then IOld (nd_ref (kids c)) cfin
                                else ISubtree (nd_ref (kids c)) lv cfin) d)
      | _ :: _ => visit d (nd_ref (kids c)) (match prev with Some k => Some k | None => min end) cfin mine
      end) = Ok d1 /\ descended s d d1 (pairs (merge_kv (leaves c) mine)) (has_put mine)) as (d1 & -> & Hd1).
  { destruct mine as [|op mine].
    - eexists. split; [done|]. rewrite merge_kv_nil. by apply untouched_descended.
    - apply Hv; try done; [apply list_elem_of_here|]. intros k Hk. specialize (Hlow k Hk).
      cbn [map concat] in Hlow. by apply Forall_app in Hlow as [Hlow _]. }
  cbn [rbind]. subst is_last. destruct cs as [|c' cs].
  - subst rest. exists d1. split; [done|]. cbn [map concat]. rewrite !app_nil_r, orb_false_r. done.
  - destruct Hparts as [Hpm Hpr].
    edestruct IH with (d := d1) (prev := Some (tkey addr c)) (ops := rest) as (d2 & E2 & Hd2); [|done|by destruct Hw|exact Hc2|by destruct Hd1|exact Hsr|exact Hokr| |].
    { intros; apply Hv; try done. by apply list_elem_of_further. }
    { intros k Hk. simpl in Hk. injection Hk as Hk. subst k. exact Hlt. }
    exists d2. split; [exact E2|].
    change (concat (map leaves (c :: c' :: cs))) with (leaves c ++ concat (map leaves (c' :: cs))).
    rewrite (merge_kv_app (tkey addr c)), map_app;
      [by eapply descended_app|by eapply leaves_le_last|done|done|done].
Qed.

Lemma descend_ok s level d cs expect lower fin ops :
  level < MAX_HEIGHT -> tree_ok s fin (Datatypes.S level) (Nd cs) -> opened_ok s d ->
  StronglySorted bytes_lt (map op_key ops) -> Forall (fun op => op_ok op = true) ops ->
  expect = None \/ expect = Some (last_key (nd_ref cs)) ->
  (forall k, lower = Some k -> Forall (fun e => bytes_lt k e.1) (leaves (Nd cs))) ->
  exists d', descend s level d (hash (nd_ref cs)) expect lower fin ops = Ok d' /\
    descended s d d' (pairs (merge_kv (leaves (Nd cs)) ops)) (has_put ops).
Proof.
  revert d cs expect lower fin ops.
  induction level as [|level IH]; intros d cs expect lower fin ops Hlv Ht Hop Hs Hok He Hlow;
    cbn [descend];
    rewrite (read_node_tree addr p Hp s fin _ cs) by (done || (unfold MAX_HEIGHT in *; lia));
    cbn [rbind]; unfold to_node; cbn [Nat.eqb].
  - eexists. split; [done|]. pose proof Ht as [(Hu & _ & Hc) _].
    replace (map to_kv cs) with (leaves (Nd cs)); [by apply leaf_descended|].
    destruct Hu as [_ Hu]. cbn [leaves]. clear -Hu. induction Hu as [|c cs Hcu _ IH]; [done|].
    apply uniform_Kv in Hcu as (k & v & ->). simpl. by rewrite IH.
  - destruct (tree_ok_kids addr p s fin (Datatypes.S level) cs Ht) as (Hk & Hel & Hkids).
    pose proof Ht as [(Hu & _ & Hc) _].
    assert (opened_ok s (descent_open (Datatypes.S level) (opened_inner (hash (nd_ref cs)) fin
      (map (fun c => nd_ref (kids c)) cs)) d)) as Hop'.
    { apply opened_ok_open; [done|]. exists cs. unfold opened_inner. cbn [o_node o_children o_final].
      split_and!; [|by rewrite map_map|done].
      destruct (uniform_Nd _ _ Hu) as (cs' & [= <-] & Hne & Hcu).
      pose proof (nd_ref_last addr cs Hne) as Hlast.
      assert (map last_key (map (fun c => nd_ref (kids c)) cs) = map (tkey addr) cs) as Em.
      { rewrite map_map. clear -Hcu. induction Hcu as [|c cs Hcu _ IH]; [done|]. cbn [map].
        by rewrite IH, (last_key_kids level). }
      rewrite <-Em in Hlast. change (map last_key) with (fmap (M:=list) last_key) in Hlast.
      rewrite fmap_last in Hlast. destruct (last _) as [r|] eqn:Er; [|done]. simpl in Hlast.
      injection Hlast as Hlast. rewrite Hlast. reflexivity. }
    edestruct (descend_children_ok s
      (fun d child lower child_final mine =>
         descend s level d (hash child) (Some (last_key child)) lower child_final mine)
      level fin lower cs) with (prev := @None bytes) as (d' & E & Hd'); [lia| | | |exact Hc|exact Hop'|exact Hs|exact Hok| |].
    + intros d0 c lower0 cfin mine Hin Hct Hop0 Hs0 Hok0 Hlow0. pose proof Hct as [(Hcu & _) _].
      apply uniform_Nd in Hcu as (ds & -> & _ & _). cbn [kids].
      apply IH; [lia|done|done|done|done|by right|done].
    + by destruct Hu.
    + exact Hkids.
    + intros k Hk'. by apply Hlow.
    + exists d'. split; [exact E|]. destruct Hd' as [H1 (its & w & H2 & H3 & H4)].
      split; [done|]. exists its, w. split_and!; [exact H2|exact H3|exact H4].
Qed.
End batch.

(** ** Roots that describe a finite map *)

Definition describes {S : Type} {CS : ChunkStore S} {CSL : ChunkStoreLaws S}
    (s : S) (R : Root) (M : gmap bytes bytes) : Prop :=
  params_ok (params R) = true /\
  exists m, contents m = M /\ is_tree (params R) s R m.

Section specs.
Context {S : Type} {CS : ChunkStore S} {CSL : ChunkStoreLaws S}.
Implicit Types (s : S) (R : Root) (p : ChunkParams).

Abbreviation is_tree := (@is_tree S CS CSL).
Abbreviation least := (@least S CS CSL).

(** The root of one map's least tree is determined by the map. *)
Lemma least_unique p s s' R R' m :
  is_tree p s R m -> least p R m -> is_tree p s' R' m -> least p R' m -> R = R'.
Proof.
  intros (Hp & _ & Hh & H) Hl (Hp' & _ & Hh' & H') Hl'.
  destruct R as [h n q], R' as [h' n' q']. cbn [params height root_hash] in *. subst q q'.
  unfold TreeLevels.least in Hl, Hl'. cbn [height] in Hl, Hl'. destruct m as [|e m].
  - destruct H as (-> & -> & _), H' as (-> & -> & _). done.
  - destruct H as (t & Ht & -> & _), H' as (t' & Ht' & -> & _).
    assert (n = n') as ->.
    { destruct (Nat.lt_trichotomy n n') as [Hlt|[|Hlt]]; [|done|].
      - exfalso. apply (Hl' n); [lia|]. by rewrite Ht.
      - exfalso. apply (Hl n'); [lia|]. by rewrite Ht'. }
    rewrite Ht in Ht'. by injection Ht' as ->.
Qed.

(** Building from prepared pairs. *)
Lemma wp_build p s items opened m w :
  params_ok p = true -> content_ok m -> (Z.of_nat (length m) <= 2 ^ 62)%Z ->
  items_den p s 0 items (map (fun e => Kv e.1 e.2) m) w ->
  (forall j, Forall (opened_den p s (Datatypes.S j)) (nth (Datatypes.S j) opened [])) ->
  forall rec, wp (build_levels MAX_HEIGHT 0 p items opened rec)
    (fun r s' => is_tree p s' r.1 m /\ (2 <= w -> least p r.1 m)) s.
Proof.
  intros Hp Hc Hsize Hits Hop rec. assert (1 <= MAX_HEIGHT) as Hlv by (unfold MAX_HEIGHT; lia).
  destruct m as [|e m].
  - pose proof (wp_build_levels_empty p Hp MAX_HEIGHT s items opened rec w Hlv Hits) as H.
    eapply wp_mono; [exact H|]. by intros r s' _ [H1 H2].
  - apply (wp_build_levels p Hp MAX_HEIGHT s 0 items opened rec (e :: m) w); try done.
    intros j Hj. lia.
Qed.

Lemma wp_bulk p s entries :
  params_ok p = true -> Forall (fun e => kv_ok e = true) entries ->
  (Z.of_nat (length entries) <= 2 ^ 62)%Z ->
  wp (bulk_load p entries) (fun R s' => is_tree p s' R (loaded entries) /\ least p R (loaded entries)) s.
Proof.
  intros Hp Hk Hsize. pose proof (loaded_ok _ Hk) as Hc. unfold bulk_load.
  fold (loaded entries).
  assert (length (loaded entries) <= length entries) as Hlen.
  { unfold loaded. etrans; [apply length_dedup_last|]. by rewrite length_sort_by. }
  pose proof (fresh_entries_den p s _ None Hc) as Hit.
  set (it := IFresh (map (fun e => ELeaf e.1 e.2) (loaded entries)) None) in *.
  assert (items_den p s 0 [it] (map (fun e => Kv e.1 e.2) (loaded entries))
    (item_weight it (map (fun e => Kv e.1 e.2) (loaded entries)) + 0)) as Hits.
  { rewrite <-(app_nil_r (map _ _)) at 1. constructor; [done|constructor]. }
  eapply wp_bind_mono; [apply (wp_build p s [it] [] (loaded entries)); [done|done|lia|exact Hits|]|].
  - intros j. by destruct j.
  - intros [R rec] s' _ [H1 H2]. apply wp_ret. split; [done|]. cbn [fst] in *.
    destruct (loaded entries) as [|e l] eqn:E; [|apply H2; simpl; lia].
    intros j Hj. destruct H1 as (_ & _ & _ & Hh & _). lia.
Qed.

Lemma wp_batch s R m ops rec :
  params_ok (params R) = true -> is_tree (params R) s R m -> Forall (fun op => op_ok op = true) ops ->
  (Z.of_nat (length m) + Z.of_nat (length ops) <= 2 ^ 62)%Z ->
  wp (apply_batch_inner R ops rec) (fun r s' =>
    is_tree (params R) s' r.1 (merge_kv m (prepared ops)) /\
    (has_put (prepared ops) = true -> least (params R) r.1 (merge_kv m (prepared ops)))) s.
Proof.
  intros Hp Ht Hok Hsize. unfold apply_batch_inner. fold (prepared ops).
  assert (Forall (fun op => op_ok op = true) (prepared ops)) as Hok'.
  { rewrite Forall_forall in *. intros op Hop. by apply Hok, prepared_elem. }
  pose proof (prepared_sorted ops) as Hs. pose proof (length_prepared ops) as Hlp.
  pose proof Ht as (_ & Hc & Hh & Hroot).
  destruct (prepared ops) as [|op ops'] eqn:Eops.
  { apply wp_ret. rewrite merge_kv_nil. by split. }
  rewrite <-Eops in *. clear Eops op ops'. set (ops' := prepared ops) in *. clearbody ops'.
  pose proof (merge_kv_ok _ _ Hc Hs Hok') as Hc'. pose proof (length_merge_kv m ops') as Hlm.
  set (d0 := mkDescent [] (repeat [] (height R))).
  assert (opened_ok (params R) s d0) as Hop0.
  { intros j. unfold d0. cbn [d_opened]. rewrite nth_repeat. constructor. }
  assert (exists d, descend s (top_level R) d0 (root_hash R) None None true ops' = Ok d /\
    descended (params R) s d0 d (map (fun e => Kv e.1 e.2) (merge_kv m ops')) (has_put ops'))
    as (d & Ed & Hop & its & w & Hits & Hden & Hw).
  { destruct m as [|e m].
    - destruct Hroot as (Hh1 & Hr & Hhold). unfold top_level. rewrite Hh1. cbn [Nat.sub descend].
      unfold read_node. rewrite Hhold. eexists. split; [reflexivity|]. by apply leaf_descended.
    - destruct (is_tree_ok (params R) s R (e :: m) ltac:(done) Ht) as (cs & h & E1 & E2 & E3 & E4 & <-).
      unfold top_level. rewrite E1, E3, Nat.sub_succ, Nat.sub_0_r.
      apply (descend_ok (params R) Hp); try done. by left. }
  eapply wp_bind, wp_read; [exact Ed|].
  cbn [d0 d_items app] in Hits. subst its.
  eapply wp_mono; [apply (wp_build _ s _ _ (merge_kv m ops') w); [done|done|lia|exact Hden|exact Hop]|].
  intros r s' _ [H1 H2]. split; [done|]. intros H. by apply H2, Hw.
Qed.
End specs.
