(* ===== verification/Prolly.v ===== *)
(** * What the prolly tree promises

    The map operations against their specification: a root describes a finite
    map, [bulk_load] and [apply_batch] compute roots of the expected maps,
    [get] reads them, and the root is a function of the map. *)
From S2P Require Import Prelude Store Chunker Node Tree TreeSpec TreeNodes TreeRead TreeBuild TreeLevels TreeContent TreeBatch.

(** ** Point lookup *)

Lemma partition_point_spec {A} (f : A -> bool) l :
  exists pre post, l = pre ++ post /\ partition_point f l = length pre /\
    Forall (fun x => f x = true) pre /\
    match post with [] => True | x :: _ => f x = false end.
Proof.
  induction l as [|x l (pre & post & -> & E & H1 & H2)]; [by exists [], []|]. simpl.
  destruct (f x) eqn:Ex.
  - exists (x :: pre), post. split_and!; [done|by rewrite E|by constructor|done].
  - by exists [], (x :: pre ++ post).
Qed.

Lemma search_key_app x a b :
  search_key x (a ++ b) = match search_key x a with Some v => Some v | None => search_key x b end.
Proof.
  induction a as [|[k v] a IH]; [done|]. simpl. by case_bool_decide.
Qed.

Lemma search_key_above x m : Forall (fun e => bytes_lt e.1 x) m -> search_key x m = None.
Proof.
  induction 1 as [|[k v] m Hk _ IH]; [done|]. simpl in *.
  by rewrite bool_decide_false by (intros ->; by apply irreflexivity in Hk; [|apply _]).
Qed.

Section get.
Context {S : Type} {CS : ChunkStore S} {CSL : ChunkStoreLaws S} (p : ChunkParams).
Hypothesis Hp : params_ok p = true.

Abbreviation addr := (@address S CS CSL).
Abbreviation nd_ref := (nd_ref addr).
Abbreviation tree_ok := (tree_ok addr p).
Abbreviation tkey := (tkey addr).

Lemma get_at_ok s level cs fin expect lower key :
  level < MAX_HEIGHT -> tree_ok s fin (Datatypes.S level) (Nd cs) ->
  expect = None \/ expect = Some (last_key (nd_ref cs)) ->
  (forall k, lower = Some k -> Forall (fun e => bytes_lt k e.1) (leaves (Nd cs))) ->
  get_at s level (hash (nd_ref cs)) expect lower key = Ok (search_key key (leaves (Nd cs))).
Proof.
  revert cs fin expect lower. induction level as [|level IH]; intros cs fin expect lower Hlv Ht He Hlow;
    cbn [get_at]; rewrite (read_node_tree addr p Hp s fin _ cs) by (done || (unfold MAX_HEIGHT in *; lia));
    cbn [rbind]; unfold to_node; cbn [Nat.eqb].
  - do 2 f_equal. pose proof Ht as [([_ Hu] & _) _]. cbn [leaves]. clear -Hu.
    induction Hu as [|c cs Hcu _ IH]; [done|]. apply uniform_Kv in Hcu as (k & v & ->). simpl. by rewrite IH.
  - destruct (tree_ok_kids addr p s fin (Datatypes.S level) cs Ht) as (_ & Hel & Hkids).
    pose proof Ht as [([_ Hu] & _ & Hc) _]. cbn [leaves] in Hc, Hlow |- *.
    destruct (partition_point_spec (fun r => bytes_ltb (last_key r) key)
      (map (fun c => nd_ref (kids c)) cs)) as (pre & post & E & Epp & Hpre & Hpost).
    apply map_eq_app in E as (cpre & cpost & -> & <- & <-). rewrite Epp, map_app.
    rewrite map_app, concat_app, search_key_app. rewrite map_app, concat_app in Hc, Hlow.
    apply Forall_app in Hu as [Hu1 Hu2]. rewrite length_map.
    pose proof (content_ok_app _ _ Hc) as [Hc1 Hc2].
    rewrite (search_key_above key (concat (map leaves cpre))).
    2: { rewrite Forall_map, Forall_forall in Hpre. rewrite Forall_forall in Hu1.
         rewrite Forall_forall. intros e Hein.
         apply list_elem_of_In, in_concat in Hein as (l & Hl & Hein).
         apply in_map_iff in Hl as (c & <- & Hin). apply list_elem_of_In in Hin, Hein.
         specialize (Hpre c Hin). rewrite (last_key_kids level) in Hpre by auto.
         apply bytes_ltb_lt in Hpre. eapply bytes_le_lt_trans; [|exact Hpre].
         pose proof (leaves_le_last (Datatypes.S level) c (Hu1 c Hin)) as Hle.
         rewrite Forall_forall in Hle. apply Hle; [|done].
         eapply content_ok_concat; [exact Hc1|]. by apply list_elem_of_fmap_2. }
    destruct cpost as [|c cpost]; cbn [map].
    { rewrite app_nil_r, lookup_ge_None_2; [done|]. rewrite length_map. lia. }
    rewrite list_lookup_middle by (by rewrite length_map).
    apply Forall_cons_1 in Hu2 as [Huc _]. cbn [map] in Hpost.
    rewrite (last_key_kids level) in Hpost by done. apply bytes_ltb_ge in Hpost.
    destruct (content_ok_split _ _ _ Huc Hc2) as (Hcc & _ & Hgt).
    cbn [map concat]. rewrite search_key_app.
    rewrite (search_key_none key (concat (map leaves cpost))).
    2: { eapply Forall_impl; [exact Hgt|]. intros e Hlt. by eapply bytes_le_lt_trans. }
    replace (match search_key key (leaves c) with Some v => Some v | None => None end)
      with (search_key key (leaves c)) by (by destruct (search_key key (leaves c))).
    assert (exists fin', tree_ok s fin' (Datatypes.S level) c) as [fin' Htc].
    { clear -Hkids. induction cpre as [|c0 cpre IHc]; cbn [app] in Hkids.
      - destruct cpost; [by exists fin|]. exists false. by destruct Hkids.
      - apply forall_last_cons in Hkids as [_ Hk]; [by apply IHc|by destruct cpre]. }
    pose proof Huc as Huc'. apply uniform_Nd in Huc' as (ds & -> & _ & _). cbn [kids].
    apply (IH ds fin'); [lia|done|by right|]. intros k Hk.
    destruct (decide (cpre = [])) as [->|Hne].
    + specialize (Hlow k Hk). cbn [map concat app] in Hlow. by apply Forall_app in Hlow as [Hlow _].
    + destruct (exists_last Hne) as (cpre' & c0 & ->). rewrite length_app in Hk. cbn [length] in Hk.
      rewrite Nat.add_1_r in Hk. rewrite map_app in Hk. cbn [map] in Hk.
      rewrite <-app_assoc in Hk. cbn [app] in Hk.
      rewrite list_lookup_middle in Hk by (by rewrite length_map).
      apply Forall_app in Hu1 as [_ Hu1]. apply Forall_cons_1 in Hu1 as [Hu0 _].
      cbn [option_map] in Hk. injection Hk as <-.
      change (entries_last (map (tent addr) (kids c0))) with (last_key (nd_ref (kids c0))).
      rewrite (last_key_kids level) by done.
      rewrite map_app, concat_app, <-app_assoc in Hc. cbn [map concat] in Hc. rewrite app_nil_r in Hc.
      apply content_ok_app in Hc as [_ Hc].
      destruct (content_ok_split c0 (Nd ds :: cpost) _ Hu0 Hc) as (_ & _ & Hgt0).
      cbn [map concat] in Hgt0. by apply Forall_app in Hgt0 as [Hgt0 _].
Qed.
End get.

Lemma get_tree {S : Type} {CS : ChunkStore S} {CSL : ChunkStoreLaws S} (s : S) R m key :
  params_ok (params R) = true -> is_tree (params R) s R m -> Tree.get s R key = Ok (search_key key m).
Proof.
  intros Hp Ht. pose proof Ht as (_ & _ & Hh & H). unfold Tree.get. destruct m as [|e m].
  - destruct H as (Hh1 & _ & Hhold). unfold top_level. rewrite Hh1. cbn [Nat.sub get_at].
    unfold read_node. by rewrite Hhold.
  - destruct (is_tree_ok (params R) s R (e :: m) ltac:(done) Ht) as (cs & h & E1 & E2 & E3 & E4 & <-).
    unfold top_level. rewrite E1, E3, Nat.sub_succ, Nat.sub_0_r.
    apply (get_at_ok (params R) Hp s h cs true); try done. by left.
Qed.

Lemma size_contents m : StronglySorted bytes_lt (map fst m) -> size (contents m) = length m.
Proof.
  intros H. apply map_size_list_to_map.
  change (m.*1) with (map fst m). induction H as [|k ks Hs IH Hk]; constructor; [|done].
  intros Hin. rewrite Forall_forall in Hk. specialize (Hk k Hin).
  by apply irreflexivity in Hk; [|apply _].
Qed.

Lemma describes_lookup {S : Type} {CS : ChunkStore S} {CSL : ChunkStoreLaws S} (s : S) R M key :
  describes s R M -> Tree.get s R key = Ok (M !! key).
Proof.
  intros (Hp & m & <- & Ht). rewrite contents_lookup. by apply get_tree.
Qed.

(** ** The theorems *)

Section theorems.
Context {S : Type} {CS : ChunkStore S} {CSL : ChunkStoreLaws S}.

(** C1: history independence. Applying a batch, of any contents and in any
    order, to the root of a map returns the root a fresh bulk load of the
    resulting contents returns, whatever the two stores hold and however the
    first map was built; the batch must put some key last. *)
Theorem history_independence (s t : S) R M ops R1 s1 entries R2 t2 :
  describes s R M -> Forall (fun op => op_ok op = true) ops ->
  (Z.of_nat (size M) + Z.of_nat (length ops) <= 2 ^ 62)%Z ->
  has_put (prepared ops) = true ->
  Forall (fun e => kv_ok e = true) entries -> (Z.of_nat (length entries) <= 2 ^ 62)%Z ->
  load_map entries = foldl op_map M ops ->
  apply_batch R ops s = (Ok R1, s1) -> bulk_load (params R) entries t = (Ok R2, t2) ->
  R1 = R2.
Proof.
  intros (Hp & m & <- & Ht) Hok Hsize Hput Hent Hn Heq Hb Hl.
  pose proof Ht as (_ & (Hs & Hk) & _). rewrite size_contents in Hsize by done.
  destruct (wp_Ok _ _ _ _ _ (wp_bulk (params R) t entries Hp Hent Hn) Hl) as (_ & H1 & H2).
  unfold apply_batch in Hb. apply st_bind_Ok in Hb as ([R' rec] & s' & Hb & Hr).
  apply pair_inj' in Hr as [Hr _]. apply Ok_inj in Hr as ->.
  destruct (wp_Ok _ _ _ _ _ (wp_batch s R m ops None Hp Ht Hok Hsize) Hb) as (_ & H3 & H4).
  cbn [fst] in H3, H4.
  assert (loaded entries = merge_kv m (prepared ops)) as E.
  { apply contents_inj.
    - apply loaded_ok. done.
    - by destruct H3 as (_ & [H3 _] & _).
    - by rewrite loaded_contents, merge_contents. }
  rewrite E in *. eapply least_unique; [exact H3|by apply H4|exact H1|exact H2].
Qed.

Lemma wp_apply_batch (s : S) R M ops :
  describes s R M -> Forall (fun op => op_ok op = true) ops ->
  (Z.of_nat (size M) + Z.of_nat (length ops) <= 2 ^ 62)%Z ->
  wp (apply_batch R ops) (fun R' s' =>
    params R' = params R /\ describes s' R' (foldl op_map M ops)) s.
Proof.
  intros (Hp & m & <- & Ht) Hok Hsize. pose proof Ht as (_ & (Hs & _) & _).
  rewrite size_contents in Hsize by done. unfold apply_batch.
  eapply wp_bind_mono; [by apply (wp_batch s R m ops None Hp Ht Hok Hsize)|].
  intros [R' rec] s' _ [H1 _]. cbn [fst] in H1. pose proof H1 as (E & _).
  apply wp_ret. split; [done|]. unfold describes. rewrite E. split; [done|].
  exists (merge_kv m (prepared ops)). split; [by apply merge_contents|done].
Qed.

(** C2: a batch is applied. From a root of the map [M], [apply_batch] returns
    a root, with the same parameters, of the map [M] becomes when the
    operations are applied one after the other; it writes only new chunks, and
    its only failures are the store's. *)
Theorem apply_batch_spec (s : S) R M ops :
  describes s R M -> Forall (fun op => op_ok op = true) ops ->
  (Z.of_nat (size M) + Z.of_nat (length ops) <= 2 ^ 62)%Z ->
  wp (apply_batch R ops) (fun R' s' =>
    params R' = params R /\ describes s' R' (foldl op_map M ops)) s.
Proof. apply wp_apply_batch. Qed.

(** Bulk load builds the map of its entries, the last value of a repeated
    key winning, and its only failures are the store's. *)
Lemma bulk_load_spec (s : S) p entries :
  params_ok p = true -> Forall (fun e => kv_ok e = true) entries ->
  (Z.of_nat (length entries) <= 2 ^ 62)%Z ->
  wp (bulk_load p entries) (fun R s' => params R = p /\ describes s' R (load_map entries)) s.
Proof.
  intros Hp Hk Hn. eapply wp_mono; [by apply wp_bulk|].
  intros R s' _ [H1 _]. pose proof H1 as (E & _). split; [done|]. unfold describes. rewrite E.
  split; [done|]. exists (loaded entries). by rewrite loaded_contents.
Qed.

(** C3: point lookup reads the map: in any store that holds the tree, [get]
    answers for every key what the map holds, and never fails. *)
Theorem get_spec (s : S) R M key : describes s R M -> Tree.get s R key = Ok (M !! key).
Proof. apply describes_lookup. Qed.

(** A root says what its map is: the same root cannot describe two maps in
    one store. *)
Lemma root_determines_map (s : S) R M M' : describes s R M -> describes s R M' -> M = M'.
Proof.
  intros H H'. apply map_eq. intros k. apply (Ok_inj (E := ProllyError)).
  by rewrite <-(describes_lookup s R M k H), <-(describes_lookup s R M' k H').
Qed.

(** C38: a loaded tree is as low as its size allows: above a height of one,
    a map of [n] entries has fewer than [log2 n + 1] levels. *)
Theorem bulk_load_height (s : S) p entries R s' :
  params_ok p = true -> Forall (fun e => kv_ok e = true) entries ->
  (Z.of_nat (length entries) <= 2 ^ 62)%Z -> bulk_load p entries s = (Ok R, s') ->
  height R = 1 \/ (2 ^ (Z.of_nat (height R) - 1) < Z.of_nat (size (load_map entries)))%Z.
Proof.
  intros Hp Hk Hn E. destruct (wp_Ok _ _ _ _ _ (wp_bulk p s entries Hp Hk Hn) E) as (_ & H & Hl).
  pose proof H as (_ & Hc & Hh & Ht). rewrite <-loaded_contents, size_contents by apply Hc.
  destruct (loaded entries) as [|e m] eqn:Em; [by left; destruct Ht|].
  destruct (decide (height R = 1)) as [|Hne]; [by left|right].
  assert (e :: m <> []) as Hm by done.
  pose proof (nodes_bound p (height R - 1) (e :: m) Hm) as Hb.
  specialize (Hl (height R - 1) ltac:(lia)).
  assert (length (nodes address p (height R - 1) (e :: m)) <> 0) as Hz.
  { intros Hz%length_zero_iff_nil. by destruct (nodes_spec address p (height R - 1) (e :: m) Hm) as (Hx & _). }
  rewrite Nat2Z.inj_sub in Hb by lia. nia.
Qed.
End theorems.

(** ** The theorems at a concrete map

    Five one-byte keys with the smallest chunks: two levels above the leaves. *)

Definition st_value {S E A : Type} (default : A) (r : result E A * S) : A :=
  match r.1 with Ok a => a | Err _ => default end.

Lemma st_value_spec {S E A : Type} (default : A) (r : result E A * S) :
  is_ok r.1 = true -> r = (Ok (st_value default r), r.2).
Proof. by destruct r as [[a|e] s]. Qed.

Definition sample_params : ChunkParams := mkParams 1 0 10.
Definition sample_entry (n : Z) : bytes * bytes := ([z2b n], [z2b (n + 100)]).
Definition sample_entries : list (bytes * bytes) := map sample_entry [5; 3; 1; 4; 2]%Z.
Definition sample_loaded := bulk_load sample_params sample_entries sample_empty.
Definition no_root : Root := mkRoot (sample_address []) 1 sample_params.
Definition sample_root : Root := st_value no_root sample_loaded.
Definition sample_store : SampleStore := sample_loaded.2.

Lemma loaded_describes {S : Type} {CS : ChunkStore S} {CSL : ChunkStoreLaws S} (s s' : S) p entries R :
  params_ok p = true -> Forall (fun e => kv_ok e = true) entries ->
  (Z.of_nat (length entries) <= 2 ^ 62)%Z -> bulk_load p entries s = (Ok R, s') ->
  describes s' R (load_map entries).
Proof.
  intros Hp Hk Hn E. destruct (wp_Ok _ _ _ _ _ (wp_bulk p s entries Hp Hk Hn) E) as (_ & H & _).
  pose proof H as (Eq & _). unfold describes. rewrite Eq. split; [done|].
  exists (loaded entries). by rewrite loaded_contents.
Qed.

Lemma sample_loaded_ok :
  bulk_load sample_params sample_entries sample_empty = (Ok sample_root, sample_store).
Proof.
  unfold sample_root, sample_store, sample_loaded. apply st_value_spec. vm_compute. reflexivity.
Qed.

Lemma sample_describes : describes sample_store sample_root (load_map sample_entries).
Proof.
  apply (loaded_describes sample_empty sample_store sample_params); [done|by repeat constructor| |].
  - vm_compute. discriminate.
  - exact sample_loaded_ok.
Qed.

Definition sample_batch : list BatchOp := [Delete [x01]; Put [x03] [x07]; Delete [x09]; Put [x06] []].
Definition sample_after : list (bytes * bytes) :=
  [([x06], []); ([x03], [x07]); sample_entry 5; sample_entry 2; sample_entry 4].
Definition batch_root : Root := st_value no_root (apply_batch sample_root sample_batch sample_store).
Definition fresh_root : Root := st_value no_root (bulk_load sample_params sample_after sample_empty).

Lemma history_independence_witness : height sample_root = 3 /\ batch_root = fresh_root.
Proof.
  split; [vm_compute; reflexivity|].
  apply (history_independence sample_store sample_empty sample_root (load_map sample_entries)
    sample_batch batch_root (apply_batch sample_root sample_batch sample_store).2
    sample_after fresh_root (bulk_load sample_params sample_after sample_empty).2).
  - apply sample_describes.
  - by repeat constructor.
  - vm_compute. discriminate.
  - vm_compute. reflexivity.
  - by repeat constructor.
  - vm_compute. discriminate.
  - vm_compute. reflexivity.
  - unfold batch_root. apply st_value_spec. vm_compute. reflexivity.
  - unfold fresh_root. apply st_value_spec. vm_compute. reflexivity.
Defined.

Lemma apply_batch_spec_witness :
  wp (apply_batch sample_root sample_batch)
    (fun R' s' => params R' = params sample_root /\
      describes s' R' (foldl op_map (load_map sample_entries) sample_batch)) sample_store.
Proof.
  apply apply_batch_spec; [apply sample_describes|by repeat constructor|vm_compute; discriminate].
Defined.

Lemma bulk_load_spec_witness :
  is_ok sample_loaded.1 = true /\
  wp (bulk_load sample_params sample_entries)
    (fun R s' => params R = sample_params /\ describes s' R (load_map sample_entries)) sample_empty.
Proof.
  split; [vm_compute; reflexivity|].
  apply bulk_load_spec; [done|by repeat constructor|vm_compute; discriminate].
Defined.

Lemma bulk_load_height_witness :
  height sample_root = 1 \/
  (2 ^ (Z.of_nat (height sample_root) - 1) < Z.of_nat (size (load_map sample_entries)))%Z.
Proof.
  apply (bulk_load_height sample_empty sample_params sample_entries sample_root sample_store).
  - done.
  - by repeat constructor.
  - vm_compute. discriminate.
  - exact sample_loaded_ok.
Defined.

Lemma get_spec_witness :
  Tree.get sample_store sample_root [x04] = Ok (load_map sample_entries !! [x04]) /\
  load_map sample_entries !! [x04] = Some [z2b 104].
Proof. split; [apply get_spec, sample_describes|vm_compute; reflexivity]. Defined.

Lemma describes_extends {S : Type} {CS : ChunkStore S} {CSL : ChunkStoreLaws S} (s s' : S) R M :
  extends s s' -> describes s R M -> describes s' R M.
Proof.
  intros He (Hp & m & E & Ht). split; [done|]. exists m. split; [done|]. by eapply is_tree_extends.
Qed.

Lemma wp_extends {S : Type} {CS : ChunkStore S} {A : Type} (m : st S ProllyError A) Q (s s' : S) r :
  wp m Q s -> m s = (r, s') -> extends s s'.
Proof. intros H E. unfold wp in H. rewrite E in H. by destruct r as [a|e]; destruct H. Qed.

Definition sample_reversed := bulk_load sample_params (rev sample_entries) sample_store.

Lemma sample_reversed_ok :
  bulk_load sample_params (rev sample_entries) sample_store =
  (Ok (st_value no_root sample_reversed), sample_reversed.2).
Proof. unfold sample_reversed. apply st_value_spec. vm_compute. reflexivity. Qed.

Lemma sample_reversed_root : st_value no_root sample_reversed = sample_root.
Proof. vm_compute. reflexivity. Qed.

Lemma root_determines_map_witness : load_map sample_entries = load_map (rev sample_entries).
Proof.
  pose proof sample_reversed_ok as E. rewrite sample_reversed_root in E.
  apply (root_determines_map sample_reversed.2 sample_root).
  - apply (describes_extends sample_store); [|apply sample_describes].
    eapply wp_extends; [|exact E].
    apply wp_bulk; [done|by repeat constructor|vm_compute; discriminate].
  - apply (loaded_describes sample_store _ sample_params); [done|by repeat constructor| |exact E].
    vm_compute. discriminate.
Defined.

(** ** Where history independence ends *)

Definition delete_first_four : list BatchOp := map (fun n => Delete [z2b n]) [1; 2; 3; 4]%Z.
Definition after_deletes := apply_batch sample_root delete_first_four sample_store.
Definition last_reloaded := bulk_load sample_params [sample_entry 5] sample_store.

(** History independence fails for a batch of deletes. Five entries load
    as a tree of height 3; deleting all but the last one leaves that entry's
    subtree untouched, and [apply_batch] returns the root of that subtree, an
    inner node with one child, where a bulk load of the one remaining entry
    returns a leaf. *)
Lemma delete_keeps_chain :
  load_map [sample_entry 5] = foldl op_map (load_map sample_entries) delete_first_four /\
  exists R R', after_deletes.1 = Ok R /\ last_reloaded.1 = Ok R' /\
    height R = 2 /\ height R' = 1.
Proof.
  split.
  - vm_compute. reflexivity.
  - exists (st_value no_root after_deletes), (st_value no_root last_reloaded).
    split_and!; vm_compute; reflexivity.
Qed.
