(* ===== verification/Diff.v ===== *)
(** * Structural diff

    [diff.rs]: the ordered stream of differences between two roots, which
    skips every subtree the roots share.  The iterator is a state; the
    unbounded loops take fuel. *)
From S2P Require Import Prelude Store Chunker Node Tree.

Record DiffEntry : Type := mkDiffEntry { key : bytes; before : option bytes; after : option bytes }.

#[global] Instance DiffEntry_eq_dec : EqDecision DiffEntry.
Proof. solve_decision. Defined.

(** A key-aligned pair of same-level node runs whose contents differ. *)
Record Region : Type := mkRegion {
  r_level : nat; r_a : list NodeRef; r_b : list NodeRef; r_pseudo : bool
}.

(** The merge of one level-0 region: the leaves left to read and the entries
    read, per side. *)
Record LeafMerge : Type := mkLeafMerge {
  m_a_refs : list NodeRef; m_b_refs : list NodeRef;
  m_a : list (bytes * bytes); m_b : list (bytes * bytes); m_pseudo : bool
}.

(** [regions] is the stack, its top first. *)
Record Diff : Type := mkDiff { regions : list Region; d_leaves : option LeafMerge; done : bool }.

Definition out_of_fuel : ProllyError := Corrupt "model" "out of fuel".

Definition leaf_merge_new (r : Region) : LeafMerge :=
  mkLeafMerge (r_a r) (r_b r) [] [] (r_pseudo r).

(** The last key a reference claims; root references claim none. *)
Definition expect_last (pseudo : bool) (r : NodeRef) : option bytes :=
  if pseudo then None else Some (last_key r).

(** ** Aligning two runs of children *)

Definition span (refs : list NodeRef) : option bytes := option_map last_key (last refs).

Definition spans_meet (ra rb : list NodeRef) : bool :=
  match span ra, span rb with Some x, Some y => bool_decide (x = y) | _, _ => false end.

Definition extend_a (ra rb : list NodeRef) : bool :=
  match span ra, span rb with
  | None, _ => true
  | Some _, None => false
  | Some x, Some y => bytes_ltb x y
  end.

(** The inner loop: grow both runs until their last keys agree or nothing is
    left.  Returns the runs and what is left of each side. *)
Fixpoint align_run (fuel : nat) (a b ra rb : list NodeRef)
    : (list NodeRef * list NodeRef) * (list NodeRef * list NodeRef) :=
  match fuel with
  | O => ((ra, rb), (a, b))
  | S fuel =>
    if spans_meet ra rb then ((ra, rb), (a, b))
    else
      match extend_a ra rb, a, b with
      | true, x :: a, _ => align_run fuel a b (ra ++ [x]) rb
      | false, _, y :: b => align_run fuel a b ra (rb ++ [y])
      | _, x :: a, _ => align_run fuel a b (ra ++ [x]) rb
      | _, [], y :: b => align_run fuel a b ra (rb ++ [y])
      | _, [], [] => ((ra, rb), (a, b))
      end
  end.

Definition heads_equal (a b : list NodeRef) : bool :=
  match a, b with x :: _, y :: _ => bool_decide (hash x = hash y) | _, _ => false end.

Fixpoint align_loop (fuel : nat) (a b : list NodeRef) (level : nat) : list Region :=
  match fuel, a, b with
  | _, [], [] | O, _, _ => []
  | S fuel, _, _ =>
    if heads_equal a b then align_loop fuel (tail a) (tail b) level
    else
      let '((ra, rb), (a, b)) := align_run (length a + length b + 1) a b [] [] in
      mkRegion level ra rb false :: align_loop fuel a b level
  end.

Definition align_regions (a b : list NodeRef) (level : nat) : list Region :=
  align_loop (length a + length b) a b level.

Section diff.
Context {S : Type} {CS : ChunkStore S}.

(** ** Merging the leaves of a region *)

Fixpoint top_up (store : S) (buf : list (bytes * bytes)) (refs : list NodeRef) (pseudo : bool)
    : result ProllyError (list (bytes * bytes) * list NodeRef) :=
  match buf, refs with
  | _ :: _, _ | _, [] => Ok (buf, refs)
  | [], r :: refs =>
    let? node := read_node store (hash r) 0 (expect_last pseudo r) None in
    match node with
    | Leaf entries => top_up store entries refs pseudo
    | Inner _ => Err (corrupt "unreachable: level 0 checked by read_node")
    end
  end.

Fixpoint leaf_next (fuel : nat) (store : S) (m : LeafMerge)
    : result ProllyError (option DiffEntry * LeafMerge) :=
  match fuel with
  | O => Err out_of_fuel
  | Datatypes.S fuel =>
    let? '(a, a_refs) := top_up store (m_a m) (m_a_refs m) (m_pseudo m) in
    let? '(b, b_refs) := top_up store (m_b m) (m_b_refs m) (m_pseudo m) in
    let left a b := mkLeafMerge a_refs b_refs a b (m_pseudo m) in
    match a, b with
    | [], [] => Ok (None, left [] [])
    | (k, va) :: a, [] => Ok (Some (mkDiffEntry k (Some va) None), left a [])
    | [], (k, vb) :: b => Ok (Some (mkDiffEntry k None (Some vb)), left [] b)
    | (ka, va) :: a', (kb, vb) :: b' =>
      match bytes_cmp ka kb with
      | Lt => Ok (Some (mkDiffEntry ka (Some va) None), left a' b)
      | Gt => Ok (Some (mkDiffEntry kb None (Some vb)), left a b')
      | Eq =>
        if bool_decide (va = vb) then leaf_next fuel store (left a' b')
        else Ok (Some (mkDiffEntry ka (Some va) (Some vb)), left a' b')
      end
    end
  end.

(** ** Descending into regions *)

Fixpoint expand (store : S) (refs : list NodeRef) (level : nat) (pseudo : bool)
    : result ProllyError (list NodeRef) :=
  match refs with
  | [] => Ok []
  | r :: refs =>
    let? node := read_node store (hash r) level (expect_last pseudo r) None in
    match node with
    | Inner children => let? out := expand store refs level pseudo in Ok (children ++ out)
    | Leaf _ => Err (corrupt "unreachable: level > 0 checked by read_node")
    end
  end.

(** [while la > lb]: expand a run of root references [n] levels down. *)
Fixpoint expand_down (n : nat) (store : S) (refs : list NodeRef) (level : nat)
    : result ProllyError (list NodeRef) :=
  match n with
  | O => Ok refs
  | Datatypes.S n =>
    let? refs := expand store refs level true in expand_down n store refs (level - 1)
  end.

Definition pseudo_ref (r : Root) : NodeRef := mkRef [] (root_hash r).

Definition diff (store : S) (a b : Root) : result ProllyError Diff :=
  if bool_decide (root_hash a = root_hash b) then Ok (mkDiff [] None true)
  else
    let la := top_level a in
    let lb := top_level b in
    let? ra := expand_down (la - lb) store [pseudo_ref a] la in
    let? rb := expand_down (lb - la) store [pseudo_ref b] lb in
    Ok (mkDiff [mkRegion (Nat.min la lb) ra rb true] None false).

(** [Diff::next_entry] *)
Fixpoint next_entry (fuel : nat) (store : S) (d : Diff)
    : result ProllyError (option DiffEntry * Diff) :=
  match fuel with
  | O => Err out_of_fuel
  | Datatypes.S fuel' =>
    let? '(found, d) :=
      (match d_leaves d with
       | None => Ok (None, d)
       | Some leaves =>
         let? '(found, leaves) := leaf_next fuel store leaves in
         match found with
         | Some e => Ok (Some e, mkDiff (regions d) (Some leaves) (done d))
         | None => Ok (None, mkDiff (regions d) None (done d))
         end
       end) in
    match found with
    | Some e => Ok (Some e, d)
    | None =>
      match regions d with
      | [] => Ok (None, d)
      | region :: rest =>
        if (r_level region =? 0)%nat
        then next_entry fuel' store (mkDiff rest (Some (leaf_merge_new region)) (done d))
        else
          let? ca := expand store (r_a region) (r_level region) (r_pseudo region) in
          let? cb := expand store (r_b region) (r_level region) (r_pseudo region) in
          next_entry fuel' store
            (mkDiff (align_regions ca cb (r_level region - 1) ++ rest) None (done d))
      end
    end
  end.

(** [Iterator::next]: at the end or after an error the stream stops. *)
Definition next (fuel : nat) (store : S) (d : Diff)
    : option (result ProllyError DiffEntry) * Diff :=
  if done d then (None, d)
  else
    match next_entry fuel store d with
    | Ok (Some e, d) => (Some (Ok e), d)
    | Ok (None, d) => (None, mkDiff (regions d) (d_leaves d) true)
    | Err e => (Some (Err e), mkDiff (regions d) (d_leaves d) true)
    end.

(** The stream, read to its end. *)
Fixpoint collect (items fuel : nat) (store : S) (d : Diff) : result ProllyError (list DiffEntry) :=
  match items with
  | O => Err out_of_fuel
  | Datatypes.S items =>
    match next fuel store d with
    | (None, _) => Ok []
    | (Some (Ok e), d) => let? es := collect items fuel store d in Ok (e :: es)
    | (Some (Err e), _) => Err e
    end
  end.
End diff.
