(* ===== verification/DiffRun.v ===== *)
(** * The structural diff streams the difference

    References denote contents by what reading them gives; the iterator's
    state denotes the entries it still has to stream. *)

From S2P Require Import Prelude Store Chunker Node Tree TreeSpec TreeNodes TreeRead TreeLevels TreeContent TreeBatch Diff.


(** ** The difference of two sorted lists *)

Definition removed (e : bytes * bytes) : DiffEntry := mkDiffEntry e.1 (Some e.2) None.
Definition added (e : bytes * bytes) : DiffEntry := mkDiffEntry e.1 None (Some e.2).
Definition changed (e e' : bytes * bytes) : list DiffEntry :=
  if bool_decide (e.2 = e'.2) then [] else [mkDiffEntry e.1 (Some e.2) (Some e'.2)].

Fixpoint kv_diff (a : list (bytes * bytes)) : list (bytes * bytes) -> list DiffEntry :=
  match a with
  | [] => map added
  | e :: a =>
    fix go (b : list (bytes * bytes)) : list DiffEntry :=
      match b with
      | [] => removed e :: kv_diff a []
      | e' :: b' =>
        match bytes_cmp e.1 e'.1 with
        | Lt => removed e :: kv_diff a b
        | Gt => added e' :: go b'
        | Eq => changed e e' ++ kv_diff a b'
        end
      end
  end.

Lemma kv_diff_cons e a e' b :
  kv_diff (e :: a) (e' :: b) =
  match bytes_cmp e.1 e'.1 with
  | Lt => removed e :: kv_diff a (e' :: b)
  | Gt => added e' :: kv_diff (e :: a) b
  | Eq => changed e e' ++ kv_diff a b
  end.
Proof. done. Qed.

Lemma kv_diff_ind (P : list (bytes * bytes) -> list (bytes * bytes) -> Prop) :
  (forall b, P [] b) -> (forall e a, P a [] -> P (e :: a) []) ->
  (forall e a e' b, P a (e' :: b) -> P a b -> P (e :: a) b -> P (e :: a) (e' :: b)) ->
  forall a b, P a b.
Proof.
  intros H1 H2 H3. induction a as [|e a IH]; [done|]. induction b as [|e' b IHb]; auto.
Qed.

Lemma kv_diff_same l : kv_diff l l = [].
Proof.
  induction l as [|e l IH]; [done|]. rewrite kv_diff_cons, bytes_cmp_refl.
  unfold changed. by rewrite bool_decide_true.
Qed.

Lemma kv_diff_app k a b a' b' :
  Forall (fun e => bytes_le e.1 k) a -> Forall (fun e => bytes_lt k e.1) a' ->
  Forall (fun e => bytes_le e.1 k) b -> Forall (fun e => bytes_lt k e.1) b' ->
  kv_diff (a ++ a') (b ++ b') = kv_diff a b ++ kv_diff a' b'.
Proof.
  intros Ha Ha' Hb Hb'. revert a b Ha Hb. refine (kv_diff_ind _ _ _ _).
  - intros b _ Hb. destruct a' as [|e' a']; [apply map_app|]. cbn [app].
    induction Hb as [|e b He Hb IH]; [done|]. cbn [app]. rewrite kv_diff_cons, IH.
    apply Forall_cons_1 in Ha' as [He' _]. rewrite bytes_cmp_sym.
    by rewrite (bytes_le_lt_trans _ _ _ He He').
  - intros e a IH Ha Hb. apply Forall_cons_1 in Ha as [He Ha]. cbn [app] in *.
    specialize (IH Ha Hb). destruct b' as [|e' b']; [cbn [kv_diff]; by rewrite IH|].
    rewrite kv_diff_cons. apply Forall_cons_1 in Hb' as [He' _].
    by rewrite (bytes_le_lt_trans _ _ _ He He'), IH.
  - intros e a e' b IH1 IH2 IH3 Ha Hb. pose proof Ha as Hac. pose proof Hb as Hbc.
    apply Forall_cons_1 in Ha as [_ Ha], Hb as [_ Hb]. rewrite <-!app_comm_cons, !kv_diff_cons.
    rewrite <-app_comm_cons in IH1, IH3. rewrite IH1, IH2, IH3 by done.
    by destruct (bytes_cmp _ _); rewrite <-?app_assoc.
Qed.

(** The keys of a difference are keys of one of the lists. *)
Lemma kv_diff_keys (Q : bytes -> Prop) a b :
  Forall (fun e => Q e.1) a -> Forall (fun e => Q e.1) b -> Forall (fun d => Q (key d)) (kv_diff a b).
Proof.
  revert a b. refine (kv_diff_ind _ _ _ _).
  - intros b _ Hb. cbn [kv_diff]. by apply Forall_map.
  - intros e a IH Ha Hb. cbn [kv_diff]. apply Forall_cons_1 in Ha as [He Ha]. constructor; auto.
  - intros e a e' b IH1 IH2 IH3 Ha Hb. pose proof Ha as Hac. pose proof Hb as Hbc.
    apply Forall_cons_1 in Ha as [He Ha], Hb as [He' Hb]. rewrite kv_diff_cons.
    destruct (bytes_cmp _ _); [|constructor; auto..]. apply Forall_app. split; [|auto].
    unfold changed. case_match; [constructor|]. by constructor.
Qed.

Lemma kv_diff_sorted a b :
  StronglySorted bytes_lt (map fst a) -> StronglySorted bytes_lt (map fst b) ->
  StronglySorted bytes_lt (map key (kv_diff a b)).
Proof.
  revert a b. refine (kv_diff_ind _ _ _ _).
  - intros b _ Hb. cbn [kv_diff]. by rewrite map_map.
  - intros e a IH Ha Hb. cbn [map] in Ha. apply StronglySorted_inv in Ha as [Ha He]. cbn [kv_diff map].
    constructor; [auto|]. rewrite Forall_map in He |- *. by apply kv_diff_keys.
  - intros e a e' b IH1 IH2 IH3 Ha Hb. pose proof Ha as Hac. pose proof Hb as Hbc.
    cbn [map] in Ha, Hb. apply StronglySorted_inv in Ha as [Ha He], Hb as [Hb He'].
    rewrite Forall_map in He, He'. rewrite kv_diff_cons. destruct (bytes_cmp _ _) eqn:E.
    + unfold changed. case_match; cbn [app map]; [auto|]. constructor; [auto|].
      apply bytes_cmp_eq in E. rewrite Forall_map. apply kv_diff_keys; [done|].
      cbn [key]. by rewrite E.
    + cbn [map]. constructor; [auto|]. rewrite Forall_map. apply kv_diff_keys; [done|].
      constructor; [done|]. eapply Forall_impl; [exact He'|]. intros x. by apply transitivity.
    + rewrite bytes_cmp_sym in E. destruct (bytes_cmp e'.1 e.1) eqn:E'; try done.
      cbn [map]. constructor; [auto|]. rewrite Forall_map. apply kv_diff_keys; [|done].
      constructor; [done|]. eapply Forall_impl; [exact He|]. intros x. by apply transitivity.
Qed.

(** ** The entries of a difference *)

Definition differs (a b : list (bytes * bytes)) (d : DiffEntry) : Prop :=
  before d = search_key (key d) a /\ after d = search_key (key d) b /\ before d <> after d.

Lemma search_key_first e l : search_key e.1 (e :: l) = Some e.2.
Proof. destruct e as [k v]. simpl. by rewrite bool_decide_true. Qed.

Lemma search_key_other k e l : k <> e.1 -> search_key k (e :: l) = search_key k l.
Proof. destruct e as [k' v]. simpl. intros H. by rewrite bool_decide_false. Qed.

(** One step: the lists agree with shorter ones but at the key [x]. *)
Lemma differs_step x va vb a b a' b' d :
  (forall k, k <> x -> search_key k a = search_key k a' /\ search_key k b = search_key k b') ->
  search_key x a = va -> search_key x b = vb -> search_key x a' = None -> search_key x b' = None ->
  differs a b d <-> (va <> vb /\ d = mkDiffEntry x va vb) \/ differs a' b' d.
Proof.
  intros H Ha Hb Ha' Hb'. unfold differs. destruct d as [k o o']; cbn [key before after].
  destruct (decide (k = x)) as [->|Hk].
  - rewrite Ha, Hb, Ha', Hb'. split; [intros (-> & -> & Hn); by left|].
    intros [(Hn & [= -> ->])|(-> & -> & Hn)]; done.
  - destruct (H k Hk) as [-> ->]. split; [by right|]. intros [(_ & [= E])|]; done.
Qed.

Lemma sorted_above (e : bytes * bytes) l :
  StronglySorted bytes_lt (map fst (e :: l)) ->
  StronglySorted bytes_lt (map fst l) /\ Forall (fun x => bytes_lt e.1 x.1) l.
Proof. cbn [map]. intros [H1 H2]%StronglySorted_inv. by rewrite Forall_map in H2. Qed.

Lemma above_trans k k' (l : list (bytes * bytes)) :
  bytes_lt k k' -> Forall (fun x => bytes_lt k' x.1) l -> Forall (fun x => bytes_lt k x.1) l.
Proof. intros H Hl. eapply Forall_impl; [exact Hl|]. intros x. by apply transitivity. Qed.

Lemma differs_removed e a b d :
  Forall (fun x => bytes_lt e.1 x.1) a -> Forall (fun x => bytes_lt e.1 x.1) b ->
  differs (e :: a) b d <-> d = removed e \/ differs a b d.
Proof.
  intros Ha Hb. rewrite (differs_step e.1 (Some e.2) None _ _ a b); [|by split; [apply search_key_other|]|
    apply search_key_first|by apply search_key_none..]. intuition done.
Qed.

Lemma differs_added e a b d :
  Forall (fun x => bytes_lt e.1 x.1) a -> Forall (fun x => bytes_lt e.1 x.1) b ->
  differs a (e :: b) d <-> d = added e \/ differs a b d.
Proof.
  intros Ha Hb. rewrite (differs_step e.1 None (Some e.2) _ _ a b); [|by split; [|apply search_key_other]|
    by apply search_key_none|apply search_key_first|by apply search_key_none..]. intuition done.
Qed.

Lemma differs_changed e e' a b d :
  e.1 = e'.1 -> Forall (fun x => bytes_lt e.1 x.1) a -> Forall (fun x => bytes_lt e.1 x.1) b ->
  differs (e :: a) (e' :: b) d <-> d ∈ changed e e' \/ differs a b d.
Proof.
  intros E Ha Hb. rewrite (differs_step e.1 (Some e.2) (Some e'.2) _ _ a b).
  - unfold changed. case_bool_decide as Hv.
    + rewrite Hv, elem_of_nil. intuition done.
    + rewrite list_elem_of_singleton. split; [intros [[_ ->]|]; auto|].
      intros [->|]; [left; split; congruence|by right].
  - intros k Hk. rewrite !search_key_other by congruence. done.
  - apply search_key_first.
  - rewrite E. apply search_key_first.
  - by apply search_key_none.
  - by apply search_key_none.
Qed.

Lemma differs_nil d : ~ differs [] [] d.
Proof. intros (H1 & H2 & H3). simpl in *. congruence. Qed.

Lemma kv_diff_elem a b d :
  StronglySorted bytes_lt (map fst a) -> StronglySorted bytes_lt (map fst b) ->
  d ∈ kv_diff a b <-> differs a b d.
Proof.
  revert a b. refine (kv_diff_ind _ _ _ _).
  - intros b _. cbn [kv_diff]. induction b as [|e b IH]; intros Hs.
    + rewrite elem_of_nil. split; [done|by intros ?%differs_nil].
    + apply sorted_above in Hs as [Hs He]. cbn [map]. rewrite elem_of_cons, IH by done.
      by rewrite differs_added.
  - intros e a IH Hs Hb. apply sorted_above in Hs as [Hs He]. cbn [kv_diff].
    rewrite elem_of_cons, IH by done. by rewrite differs_removed.
  - intros e a e' b IH1 IH2 IH3 Ha Hb. pose proof Ha as Hac. pose proof Hb as Hbc.
    apply sorted_above in Ha as [Ha He], Hb as [Hb He']. rewrite kv_diff_cons.
    destruct (bytes_cmp e.1 e'.1) eqn:E.
    + apply bytes_cmp_eq in E. rewrite elem_of_app, IH2 by done.
      by rewrite differs_changed by (done || by rewrite E).
    + rewrite elem_of_cons, IH1 by done. rewrite differs_removed; [done|done|].
      constructor; [done|by eapply above_trans].
    + rewrite bytes_cmp_sym in E. destruct (bytes_cmp e'.1 e.1) eqn:E'; try done.
      rewrite elem_of_cons, IH3 by done. rewrite differs_added; [done| |done].
      constructor; [done|by eapply above_trans].
Qed.

Section den.
Context {S : Type} {CS : ChunkStore S}.
Implicit Types (s : S) (r : NodeRef).

(** ** What references denote *)

Definition ends_at r (m : list (bytes * bytes)) : Prop := m <> [] /\ pairs_last m = last_key r.

Fixpoint ref_den s (n : nat) (pseudo : bool) r (m : list (bytes * bytes)) : Prop :=
  match n with
  | O => read_node s (hash r) 0 (expect_last pseudo r) None = Ok (Leaf m)
  | Datatypes.S n' =>
    exists cs ms, read_node s (hash r) n (expect_last pseudo r) None = Ok (Inner cs) /\
      Forall2 (fun c mc => ref_den s n' false c mc /\ ends_at c mc) cs ms /\ m = concat ms
  end.

Definition child_den s n r m : Prop := ref_den s n false r m /\ ends_at r m.

Definition run_den s n (pseudo : bool) (refs : list NodeRef) (m : list (bytes * bytes)) : Prop :=
  exists ms, Forall2 (fun r mr => ref_den s n pseudo r mr /\ (pseudo = false -> ends_at r mr)) refs ms /\
    m = concat ms.

Lemma read_node_hash s r r' n e : hash r = hash r' ->
  read_node s (hash r) n e None = read_node s (hash r') n e None.
Proof. by intros ->. Qed.

Lemma read_node_unchecked s h n e node :
  read_node s h n e None = Ok node -> read_node s h n None None = Ok node.
Proof.
  unfold read_node. destruct (map_err PStore (Store.get s h)) as [[d|]|]; try done. cbn [rbind].
  destruct (decode_node d n); [|done]. cbn [rbind]. by destruct (match e with Some _ => _ | None => _ end).
Qed.

(** Equal hashes denote equal contents. *)
Lemma ref_den_hash s n p p' r r' m m' :
  ref_den s n p r m -> ref_den s n p' r' m' -> hash r = hash r' -> m = m'.
Proof.
  revert p p' r r' m m'. induction n as [|n IH]; intros p p' r r' m m' H H' E; cbn [ref_den] in *.
  - apply read_node_unchecked in H, H'. rewrite E, H' in H. apply Ok_inj in H. by injection H.
  - destruct H as (cs & ms & H & Hms & ->), H' as (cs' & ms' & H' & Hms' & ->).
    apply read_node_unchecked in H, H'. rewrite E, H' in H. apply Ok_inj in H. injection H as ->.
    f_equal. clear H' E. revert ms' Hms'. induction Hms as [|c mc cs ms [Hc _] _ IHms]; intros ms' Hms'.
    + by apply Forall2_nil_inv_l in Hms'.
    + apply Forall2_cons_inv_l in Hms' as (mc' & ms'' & [Hc' _] & Hms' & ->).
      f_equal; [by eapply IH|by apply IHms].
Qed.

Lemma ref_den_pseudo s n p r m : ref_den s n p r m -> ref_den s n true r m.
Proof.
  destruct n as [|n]; cbn [ref_den].
  - apply read_node_unchecked.
  - intros (cs & ms & H & Hms & ->). exists cs, ms. split_and!; [|done|done].
    by eapply read_node_unchecked.
Qed.

Lemma run_den_pseudo s n p refs m : run_den s n p refs m -> run_den s n true refs m.
Proof.
  intros (ms & H & ->). exists ms. split; [|done]. eapply Forall2_impl; [exact H|].
  intros r mr [Hr _]. split; [by eapply ref_den_pseudo|done].
Qed.

(** ** Reading runs *)

Lemma expand_spec s n p refs m :
  run_den s (Datatypes.S n) p refs m ->
  exists cs, expand s refs (Datatypes.S n) p = Ok cs /\ run_den s n false cs m.
Proof.
  intros (ms & H & ->). induction H as [|r mr refs ms [Hr _] _ IH]; cbn [expand].
  - exists []. split; [done|]. by exists [].
  - destruct IH as (cs & -> & ms' & Hms' & E). destruct Hr as (cs0 & ms0 & -> & Hms0 & ->).
    cbn [rbind]. exists (cs0 ++ cs). split; [done|]. exists (ms0 ++ ms'). split.
    + apply Forall2_app; [|done]. eapply Forall2_impl; [exact Hms0|]. intros c mc [Hc He]. by split.
    + cbn [concat]. by rewrite E, concat_app.
Qed.

Lemma expand_down_spec s k n refs m :
  run_den s (k + n) true refs m ->
  exists cs, expand_down k s refs (k + n) = Ok cs /\ run_den s n true cs m.
Proof.
  revert refs. induction k as [|k IH]; intros refs H; cbn [expand_down]; [by exists refs|].
  cbn [Nat.add] in H. destruct (expand_spec _ _ _ _ _ H) as (cs & E & Hcs).
  change (Datatypes.S k + n) with (Datatypes.S (k + n)). rewrite E. cbn [rbind].
  rewrite Nat.sub_succ, Nat.sub_0_r. apply IH. by eapply run_den_pseudo.
Qed.

Lemma top_up_spec s buf refs p m :
  run_den s 0 p refs m ->
  exists buf' refs' m', top_up s buf refs p = Ok (buf', refs') /\ run_den s 0 p refs' m' /\
    buf ++ m = buf' ++ m' /\ (buf' = [] -> m' = []).
Proof.
  intros (ms & H & ->). revert buf. induction H as [|r mr refs ms [Hr He] Hms IH]; intros buf.
  - exists buf, [], []. split_and!; [by destruct buf|by exists []|done|done].
  - destruct buf as [|e buf]; cbn [top_up].
    + cbn [ref_den] in Hr. rewrite Hr. cbn [rbind]. destruct (IH mr) as (b' & r' & m' & H).
      exists b', r', m'. done.
    + exists (e :: buf), (r :: refs), (concat (mr :: ms)). split_and!; [done| |done|done].
      exists (mr :: ms). split; [by constructor|done].
Qed.

(** ** The leaf merge *)

Definition merge_den s (lm : LeafMerge) (a b : list (bytes * bytes)) : Prop :=
  exists ma mb, run_den s 0 (m_pseudo lm) (m_a_refs lm) ma /\ run_den s 0 (m_pseudo lm) (m_b_refs lm) mb /\
    a = m_a lm ++ ma /\ b = m_b lm ++ mb.

Lemma leaf_next_spec s fuel lm a b :
  length a < fuel -> merge_den s lm a b ->
  exists lm', match kv_diff a b with
  | [] => leaf_next fuel s lm = Ok (None, lm')
  | e :: l => leaf_next fuel s lm = Ok (Some e, lm') /\
      exists a' b', merge_den s lm' a' b' /\ kv_diff a' b' = l
  end.
Proof.
  revert lm a b. induction fuel as [|fuel IH]; intros lm a b Hf (ma & mb & Ha & Hb & -> & ->); [lia|].
  cbn [leaf_next].
  destruct (top_up_spec s (m_a lm) _ _ _ Ha) as (a & ra & ma' & -> & Ha' & Ea & Na).
  destruct (top_up_spec s (m_b lm) _ _ _ Hb) as (b & rb & mb' & -> & Hb' & Eb & Nb).
  cbn [rbind]. rewrite Ea, Eb. rewrite Ea in Hf. clear Ea Eb Ha Hb.
  assert (forall a b, merge_den s (mkLeafMerge ra rb a b (m_pseudo lm)) (a ++ ma') (b ++ mb')) as Hden.
  { intros x y. by exists ma', mb'. }
  destruct a as [|[ka va] a]; [rewrite (Na eq_refl) in *|]; (destruct b as [|[kb vb] b]; [rewrite (Nb eq_refl) in *|]).
  - by eexists.
  - eexists. cbn [app kv_diff map]. split; [done|]. exists [], (b ++ mb'). split; [apply (Hden [] b)|done].
  - eexists. cbn [app kv_diff map]. split; [done|]. exists (a ++ ma'), []. split; [apply (Hden a [])|done].
  - rewrite <-!app_comm_cons. rewrite kv_diff_cons. cbn [fst snd]. destruct (bytes_cmp ka kb) eqn:E.
    + unfold changed. cbn [fst snd]. case_bool_decide as Hv.
      * cbn [app]. apply IH; [|apply Hden]. rewrite <-app_comm_cons in Hf. cbn [length] in Hf. lia.
      * cbn [app]. eexists. split; [done|]. by exists (a ++ ma'), (b ++ mb').
    + eexists. split; [done|]. exists (a ++ ma'), ((kb, vb) :: b ++ mb'). split; [|done].
      apply (Hden a ((kb, vb) :: b)).
    + eexists. split; [done|]. exists ((ka, va) :: a ++ ma'), (b ++ mb'). split; [|done].
      apply (Hden ((ka, va) :: a) b).
Qed.

Lemma leaf_next_more s f f' lm o lm' :
  f <= f' -> leaf_next f s lm = Ok (o, lm') -> leaf_next f' s lm = Ok (o, lm').
Proof.
  revert f' lm. induction f as [|f IH]; intros [|f'] lm Hle; try done; [lia|]. cbn [leaf_next].
  destruct (top_up s (m_a lm) _ _) as [[a ra]|]; [|done]. cbn [rbind].
  destruct (top_up s (m_b lm) _ _) as [[b rb]|]; [|done]. cbn [rbind].
  destruct a as [|[ka va] a], b as [|[kb vb] b]; try done. destruct (bytes_cmp ka kb); try done.
  case_bool_decide; [|done]. apply IH. lia.
Qed.

(** ** Aligned regions *)

Abbreviation sorted m := (StronglySorted bytes_lt (map fst m)).

Definition region_den s (r : Region) (ab : list (bytes * bytes) * list (bytes * bytes)) : Prop :=
  run_den s (r_level r) (r_pseudo r) (r_a r) ab.1 /\ run_den s (r_level r) (r_pseudo r) (r_b r) ab.2 /\
  sorted ab.1 /\ sorted ab.2.

Lemma run_den_app s n p x y m :
  run_den s n p (x ++ y) m <-> exists mx my, m = mx ++ my /\ run_den s n p x mx /\ run_den s n p y my.
Proof.
  split.
  - intros (ms & H & ->). apply Forall2_app_inv_l in H as (mx & my & Hx & Hy & ->).
    exists (concat mx), (concat my). split_and!; [apply concat_app|by exists mx|by exists my].
  - intros (mx & my & -> & (msx & Hx & ->) & (msy & Hy & ->)). exists (msx ++ msy).
    split; [by apply Forall2_app|by rewrite concat_app].
Qed.

Lemma run_den_last s n refs m k : run_den s n false refs m -> span refs = Some k -> m <> [] /\ pairs_last m = k.
Proof.
  unfold span. intros H E. destruct (last refs) as [r|] eqn:El; [|done]. injection E as <-.
  apply last_Some in El as [refs' ->]. apply run_den_app in H as (mx & my & -> & _ & (ms & H & ->)).
  apply Forall2_cons_inv_l in H as (mr & ms' & [_ He] & H & ->). apply Forall2_nil_inv_l in H as ->.
  destruct (He eq_refl) as [Hne Hl]. cbn [concat]. rewrite app_nil_r. split; [by destruct mx, mr|].
  by rewrite pairs_last_app.
Qed.

Lemma sorted_app_inv (l k : list (bytes * bytes)) : sorted (l ++ k) -> sorted l /\ sorted k.
Proof. rewrite map_app, StronglySorted_app. tauto. Qed.

Lemma sorted_pairs_last (l k : list (bytes * bytes)) :
  sorted (l ++ k) -> l <> [] ->
  Forall (fun e => bytes_le e.1 (pairs_last l)) l /\ Forall (fun e => bytes_lt (pairs_last l) e.1) k.
Proof.
  intros Hs Hne. destruct (exists_last Hne) as (l' & [x v] & ->). unfold pairs_last. rewrite last_snoc.
  rewrite <-app_assoc, map_app, StronglySorted_app in Hs. destruct Hs as (H1 & _ & H2).
  cbn [app] in H2. apply sorted_above in H2 as [_ H2]. split; [|done].
  apply Forall_app. split; [|by constructor]. rewrite Forall_forall. intros e He.
  apply bytes_lt_le, H1; [by apply list_elem_of_fmap_2|]. apply list_elem_of_here.
Qed.

Lemma align_run_spec fuel a b ra rb :
  length a + length b < fuel ->
  exists a1 b1 a' b', align_run fuel a b ra rb = ((ra ++ a1, rb ++ b1), (a', b')) /\
    a = a1 ++ a' /\ b = b1 ++ b' /\
    ((a' = [] /\ b' = []) \/ spans_meet (ra ++ a1) (rb ++ b1) = true).
Proof.
  revert a b ra rb. induction fuel as [|fuel IH]; intros a b ra rb Hf; [lia|]. cbn [align_run].
  destruct (spans_meet ra rb) eqn:Em.
  { exists [], [], a, b. rewrite !app_nil_r. split_and!; [done..|by right]. }
  assert (forall x a', a = x :: a' -> exists a1 b1 a2 b2,
    align_run fuel a' b (ra ++ [x]) rb = ((ra ++ a1, rb ++ b1), (a2, b2)) /\ a = a1 ++ a2 /\ b = b1 ++ b2 /\
    ((a2 = [] /\ b2 = []) \/ spans_meet (ra ++ a1) (rb ++ b1) = true)) as Ha.
  { intros x a' ->. cbn [length] in Hf. destruct (IH a' b (ra ++ [x]) rb) as (a1 & b1 & a2 & b2 & E & -> & -> & H); [lia|].
    rewrite <-!app_assoc in E, H. exists (x :: a1), b1, a2, b2. done. }
  assert (forall y b', b = y :: b' -> exists a1 b1 a2 b2,
    align_run fuel a b' ra (rb ++ [y]) = ((ra ++ a1, rb ++ b1), (a2, b2)) /\ a = a1 ++ a2 /\ b = b1 ++ b2 /\
    ((a2 = [] /\ b2 = []) \/ spans_meet (ra ++ a1) (rb ++ b1) = true)) as Hb.
  { intros y b' ->. cbn [length] in Hf. destruct (IH a b' ra (rb ++ [y])) as (a1 & b1 & a2 & b2 & E & -> & -> & H); [lia|].
    rewrite <-!app_assoc in E, H. exists a1, (y :: b1), a2, b2. done. }
  destruct (extend_a ra rb), a as [|x a], b as [|y b]; try (by apply Ha); try (by apply Hb);
    exists [], [], [], []; rewrite !app_nil_r; split_and!; auto.
Qed.

(** Where two runs end at the same key, the difference splits. *)
Lemma kv_diff_split s n ra rb a' b' ma mb ma' mb' :
  run_den s n false ra ma -> run_den s n false rb mb -> spans_meet ra rb = true ->
  run_den s n false a' ma' -> run_den s n false b' mb' ->
  sorted (ma ++ ma') -> sorted (mb ++ mb') ->
  kv_diff (ma ++ ma') (mb ++ mb') = kv_diff ma mb ++ kv_diff ma' mb'.
Proof.
  intros Ha Hb Hm _ _ Hsa Hsb. unfold spans_meet in Hm.
  destruct (span ra) as [k|] eqn:Ea, (span rb) as [k'|] eqn:Eb; try done.
  apply bool_decide_eq_true in Hm as <-.
  destruct (run_den_last _ _ _ _ _ Ha Ea) as [Hna La], (run_den_last _ _ _ _ _ Hb Eb) as [Hnb Lb].
  destruct (sorted_pairs_last _ _ Hsa Hna), (sorted_pairs_last _ _ Hsb Hnb).
  rewrite La in *. rewrite Lb in *. by apply (kv_diff_app k).
Qed.

Definition diff_of (ab : list (bytes * bytes) * list (bytes * bytes)) : list DiffEntry := kv_diff ab.1 ab.2.

Lemma align_loop_spec s n fuel a b ma mb :
  length a + length b <= fuel -> run_den s n false a ma -> run_den s n false b mb -> sorted ma -> sorted mb ->
  exists abs, Forall2 (region_den s) (align_loop fuel a b n) abs /\
    Forall (fun reg => r_level reg = n) (align_loop fuel a b n) /\
    concat (map diff_of abs) = kv_diff ma mb.
Proof.
  revert a b ma mb. induction fuel as [|fuel IH]; intros a b ma mb Hf Ha Hb Hsa Hsb.
  all: assert (a = [] -> b = [] -> ma = [] /\ mb = []) as Hnil.
  1, 3: intros -> ->; destruct Ha as (? & Ha & ->), Hb as (? & Hb & ->);
    by apply Forall2_nil_inv_l in Ha as ->, Hb as ->.
  - destruct a, b; simpl in Hf; try lia. destruct Hnil as [-> ->]; [done..|]. by exists [].
  - assert ((a = [] /\ b = []) \/ (a <> [] \/ b <> [])) as [[-> ->]|Hne] by (destruct a, b; auto).
    { destruct Hnil as [-> ->]; [done..|]. by exists []. }
    assert (align_loop (Datatypes.S fuel) a b n =
      if heads_equal a b then align_loop fuel (tail a) (tail b) n
      else let '((ra, rb), (a, b)) := align_run (length a + length b + 1) a b [] [] in
        mkRegion n ra rb false :: align_loop fuel a b n) as E by (destruct a, b; (done || by destruct Hne)).
    rewrite E. clear E Hnil. destruct (heads_equal a b) eqn:Eh.
    + destruct a as [|x a], b as [|y b]; try done. apply bool_decide_eq_true in Eh. cbn [tail].
      apply (run_den_app _ _ _ [x]) in Ha as (mx & ma' & -> & Hx & Ha).
      apply (run_den_app _ _ _ [y]) in Hb as (my & mb' & -> & Hy & Hb).
      assert (mx = my) as <-.
      { destruct Hx as (msx & Hx & ->), Hy as (msy & Hy & ->).
        apply Forall2_cons_inv_l in Hx as (? & ? & [Hx _] & Hx' & ->), Hy as (? & ? & [Hy _] & Hy' & ->).
        apply Forall2_nil_inv_l in Hx' as ->, Hy' as ->. by rewrite (ref_den_hash _ _ _ _ _ _ _ _ Hx Hy Eh). }
      destruct (run_den_last _ _ [x] mx (last_key x) Hx eq_refl) as [Hne' Hl].
      destruct (sorted_pairs_last _ _ Hsa Hne') as [H1 H2], (sorted_pairs_last _ _ Hsb Hne') as [_ H3].
      rewrite (kv_diff_app (pairs_last mx)), kv_diff_same by done.
      apply IH; [simpl in Hf; lia|done|done| |]; by eapply sorted_app_inv.
    + destruct (align_run_spec (length a + length b + 1) a b [] []) as (a1 & b1 & a' & b' & E & -> & -> & H); [lia|].
      rewrite E. cbn [app]. cbn [app] in E, H.
      apply run_den_app in Ha as (ma1 & ma' & -> & Ha1 & Ha), Hb as (mb1 & mb' & -> & Hb1 & Hb).
      assert (length a' + length b' <= fuel) as Hf'.
      { destruct H as [[-> ->]|H]; [simpl; lia|]. rewrite !length_app in Hf. destruct a1; [done|].
        simpl in Hf. lia. }
      pose proof (sorted_app_inv _ _ Hsa) as [Hs1 Hs2]. pose proof (sorted_app_inv _ _ Hsb) as [Hs3 Hs4].
      destruct (IH a' b' ma' mb' Hf' Ha Hb Hs2 Hs4) as (abs & HF & Hlv & Hc).
      exists ((ma1, mb1) :: abs). split_and!.
      * by constructor.
      * by constructor.
      * cbn [map concat diff_of fst snd]. rewrite Hc. destruct H as [[-> ->]|H].
        -- destruct Ha as (? & Ha & ->), Hb as (? & Hb & ->). apply Forall2_nil_inv_l in Ha as ->, Hb as ->.
           cbn [concat kv_diff map]. by rewrite !app_nil_r.
        -- symmetry. by eapply kv_diff_split.
Qed.

(** ** The stream *)

Definition pending_den s (lm : option LeafMerge) (l : list DiffEntry) : Prop :=
  match lm with
  | None => l = []
  | Some lm => exists a b, merge_den s lm a b /\ kv_diff a b = l
  end.

(** The entries a state of the iterator still has to stream. *)
Definition streams s (d : Diff) (l : list DiffEntry) : Prop :=
  exists l0 abs, pending_den s (d_leaves d) l0 /\ Forall2 (region_den s) (regions d) abs /\
    l = l0 ++ concat (map diff_of abs).

(** [next_entry] answers the first entry, for enough fuel. *)
Definition answers s (d : Diff) (l : list DiffEntry) : Prop :=
  exists fuel o d', (forall f, fuel <= f -> next_entry f s d = Ok (o, d')) /\ done d' = done d /\
    match l with
    | [] => o = None
    | e :: l' => o = Some e /\ streams s d' l'
    end.

Lemma next_entry_drained f s lm lm' rest dn :
  leaf_next f s lm = Ok (None, lm') ->
  next_entry f s (mkDiff rest (Some lm) dn) = next_entry f s (mkDiff rest None dn).
Proof. destruct f as [|f]; [done|]. cbn [next_entry d_leaves]. intros ->. done. Qed.

Lemma answers_leaves s lm rest dn l l' abs :
  pending_den s (Some lm) l -> Forall2 (region_den s) rest abs -> l' = concat (map diff_of abs) ->
  answers s (mkDiff rest None dn) l' -> answers s (mkDiff rest (Some lm) dn) (l ++ l').
Proof.
  intros (a & b & Hm & E) Hr El (fuel & o & d' & Hf & Hdn & Ho).
  destruct l as [|e l].
  - exists (Nat.max fuel (Datatypes.S (length a))), o, d'. split_and!; [|done|done].
    intros f Hle. destruct (leaf_next_spec s f lm a b ltac:(lia) Hm) as (lm' & H).
    rewrite E in H. rewrite (next_entry_drained _ _ _ _ _ _ H). apply Hf. lia.
  - destruct (leaf_next_spec s (Datatypes.S (length a)) lm a b ltac:(lia) Hm) as (lm' & H).
    rewrite E in H. destruct H as (H & a' & b' & Hm' & E').
    exists (Datatypes.S (length a)), (Some e), (mkDiff rest (Some lm') dn). cbn [app]. split_and!; [|done|done|].
    + intros f Hle. destruct (leaf_next_spec s f lm a b ltac:(lia) Hm) as (lm2 & H2).
      rewrite E in H2. destruct H2 as (H2 & _). assert (lm2 = lm') as ->.
      { pose proof (leaf_next_more _ _ _ _ _ _ Hle H) as H3. rewrite H2 in H3. by simplify_eq. }
      destruct f as [|f]; [done|]. cbn [next_entry d_leaves]. by rewrite H2.
    + exists l, abs. rewrite El. split_and!; [by exists a', b'|done|done].
Qed.

Lemma answers_regions n s regs : Forall (fun reg => r_level reg <= n) regs ->
  forall rest dn abs abs', Forall2 (region_den s) regs abs -> Forall2 (region_den s) rest abs' ->
  answers s (mkDiff rest None dn) (concat (map diff_of abs')) ->
  answers s (mkDiff (regs ++ rest) None dn) (concat (map diff_of abs) ++ concat (map diff_of abs')).
Proof.
  revert regs. induction n as [n IHn] using (well_founded_induction lt_wf).
  induction regs as [|reg regs IH]; intros Hlv rest dn abs abs' Hregs Hrest Hans.
  { by apply Forall2_nil_inv_l in Hregs as ->. }
  apply Forall_cons_1 in Hlv as [Hl Hlv].
  apply Forall2_cons_inv_l in Hregs as ([a b] & abs2 & Hreg & Hregs & ->).
  specialize (IH Hlv rest dn abs2 abs' Hregs Hrest Hans). cbn [map concat]. rewrite <-app_assoc.
  pose proof Hreg as (Ha & Hb & Hsa & Hsb). cbn [fst snd] in *.
  destruct (r_level reg) as [|k] eqn:Ek.
  - assert (answers s (mkDiff (regs ++ rest) (Some (leaf_merge_new reg)) dn)
      (diff_of (a, b) ++ concat (map diff_of (abs2 ++ abs')))) as (fuel & o & d' & Hf & Ho).
    { eapply (answers_leaves _ _ _ _ _ _ (abs2 ++ abs')); [|by apply Forall2_app|done|by rewrite map_app, concat_app].
      exists a, b. split; [|done]. by exists a, b. }
    rewrite map_app, concat_app in Ho. exists (Datatypes.S fuel), o, d'. split; [|done].
    intros [|f] Hle; [lia|]. cbn [next_entry d_leaves rbind regions app done]. rewrite Ek. cbn [Nat.eqb].
    apply Hf. lia.
  - destruct (expand_spec _ _ _ _ _ Ha) as (ca & Ea & Hca), (expand_spec _ _ _ _ _ Hb) as (cb & Eb & Hcb).
    destruct (align_loop_spec s k (length ca + length cb) ca cb a b) as (abs3 & H3 & Hlv3 & E3); [lia|done..|].
    destruct (IHn k ltac:(lia) (align_regions ca cb k)
      ltac:(eapply Forall_impl; [exact Hlv3|]; cbn; intros; lia) (regs ++ rest) dn abs3 (abs2 ++ abs'))
      as (fuel & o & d' & Hf & Ho); [done|by apply Forall2_app|by rewrite map_app, concat_app|].
    rewrite E3, map_app, concat_app in Ho. exists (Datatypes.S fuel), o, d'. split; [|done].
    intros [|f] Hle; [lia|]. cbn [next_entry d_leaves rbind regions app done]. rewrite Ek. cbn [Nat.eqb].
    rewrite Ea. cbn [rbind]. rewrite Eb. cbn [rbind]. rewrite Nat.sub_succ, Nat.sub_0_r. apply Hf. lia.
Qed.

Lemma streams_answers s d l : streams s d l -> answers s d l.
Proof.
  intros (l0 & abs & Hp & Hr & ->). destruct d as [regs lm dn]. cbn [regions d_leaves] in *.
  assert (answers s (mkDiff regs None dn) (concat (map diff_of abs))) as H.
  { pose proof (answers_regions (foldr Nat.max 0 (map r_level regs)) s regs) as H.
    rewrite <-(app_nil_r regs), <-(app_nil_r (concat (map diff_of abs))).
    refine (H _ [] dn abs [] Hr _ _).
    - clear. induction regs as [|reg regs IH]; [done|]. cbn [map foldr]. constructor; [lia|].
      eapply Forall_impl; [exact IH|]. cbn. intros; lia.
    - constructor.
    - exists 1, None, (mkDiff [] None dn). split_and!; [|done|done]. intros [|f] Hf; [lia|done]. }
  destruct lm as [lm|]; [by eapply answers_leaves|]. by rewrite Hp.
Qed.

(** The iterator, for enough fuel. *)
Lemma next_streams s d l :
  streams s d l -> done d = false ->
  exists fuel o d', (forall f, fuel <= f -> next f s d = (o, d')) /\
    match l with
    | [] => o = None
    | e :: l' => o = Some (Ok e) /\ streams s d' l' /\ done d' = false
    end.
Proof.
  intros Hs Hdn. destruct (streams_answers s d l Hs) as (fuel & o & d' & Hf & Hdn' & Ho).
  rewrite Hdn in Hdn'. destruct l as [|e l].
  - exists fuel, None, (mkDiff (regions d') (d_leaves d') true). split; [|done].
    intros f Hle. unfold next. by rewrite Hdn, Hf, Ho.
  - destruct Ho as [-> Ho]. exists fuel, (Some (Ok e)), d'. split; [|done].
    intros f Hle. unfold next. by rewrite Hdn, Hf.
Qed.

Lemma collect_streams s d l :
  streams s d l -> done d = false ->
  exists fuel, forall f items, fuel <= f -> length l < items -> collect items f s d = Ok l.
Proof.
  revert d. induction l as [|e l IH]; intros d Hs Hdn;
    destruct (next_streams s d _ Hs Hdn) as (fuel & o & d' & Hf & Ho).
  - exists fuel. intros f [|items] Hle Hi; [lia|]. cbn [collect]. by rewrite Hf, Ho.
  - destruct Ho as (-> & Hs' & Hdn'). destruct (IH d' Hs' Hdn') as [fuel' Hf'].
    exists (Nat.max fuel fuel'). intros f [|items] Hle Hi; [lia|]. cbn [collect length] in *.
    rewrite Hf by lia. rewrite Hf' by lia. done.
Qed.
End den.
