(* ===== verification/MapDiff.v ===== *)
(** * The diff of two maps

    The structural diff of two roots streams, in key order, exactly the keys
    their maps hold differently. *)
From S2P Require Import Prelude Store Chunker Node Tree TreeSpec TreeNodes TreeRead TreeBuild TreeLevels TreeContent TreeBatch Prolly Diff DiffRun.

Section roots.
Context {S : Type} {CS : ChunkStore S} {CSL : ChunkStoreLaws S}.
Implicit Types (s : S) (R : Root).

Abbreviation addr := (@address S CS CSL).

(** ** A stored tree denotes its contents *)

Lemma tree_den p s fin n cs pseudo r :
  params_ok p = true -> n < MAX_HEIGHT -> tree_ok addr p s fin (Datatypes.S n) (Nd cs) ->
  hash r = hash (nd_ref addr cs) -> (pseudo = false -> last_key r = last_key (nd_ref addr cs)) ->
  ref_den s n pseudo r (leaves (Nd cs)).
Proof.
  intros Hp. revert fin cs pseudo r. induction n as [|n IH]; intros fin cs pseudo r Hn Ht Eh Ek.
  all: assert (expect_last pseudo r = None \/ expect_last pseudo r = Some (last_key (nd_ref addr cs))) as He
    by (destruct pseudo; [by left|right; cbn; by rewrite Ek]).
  all: cbn [ref_den]; rewrite Eh, (read_node_tree addr p Hp s fin _ cs) by (done || (unfold MAX_HEIGHT in *; lia)).
  all: unfold to_node; cbn [Nat.eqb].
  - do 2 f_equal. destruct Ht as [([_ Hu] & _) _]. cbn [leaves]. clear -Hu.
    induction Hu as [|c cs Hc _ IH]; [done|]. apply uniform_Kv in Hc as (k & v & ->). simpl. by rewrite IH.
  - destruct (tree_ok_kids addr p s fin (Datatypes.S n) cs Ht) as (_ & Hel & Hkids).
    eexists _, (map leaves cs). split_and!; [done| |done]. clear Ht Eh Ek He r.
    induction cs as [|c cs IHcs]; [constructor|]. apply Forall_cons_1 in Hel as [Hc Hel].
    assert (exists b, tree_ok addr p s b (Datatypes.S n) c) as [b Hcw]
      by (destruct cs; [eauto|]; exists false; apply Hkids).
    constructor; [|apply IHcs; [done|destruct cs; [done|apply Hkids]]].
    destruct Hc as (Hu & _). pose proof Hu as Hu'. apply uniform_Nd in Hu' as (ds & -> & _ & _). cbn [kids].
    split; [apply (IH b); [lia|done..]|]. split; [by eapply leaves_nonempty|].
    rewrite <-(tkey_leaves addr _ _ Hu). done.
Qed.

Lemma root_den s R m :
  params_ok (params R) = true -> is_tree (params R) s R m ->
  ref_den s (top_level R) true (pseudo_ref R) m.
Proof.
  intros Hp Ht. pose proof Ht as (_ & _ & Hh & H). destruct m as [|e m].
  - destruct H as (Hh1 & _ & Hhold). unfold top_level. rewrite Hh1. cbn [Nat.sub ref_den].
    unfold read_node, pseudo_ref, expect_last. cbn [hash]. by rewrite Hhold.
  - destruct (is_tree_ok (params R) s R (e :: m) ltac:(done) Ht) as (cs & h & E1 & E2 & E3 & E4 & <-).
    unfold top_level. rewrite E1, Nat.sub_succ, Nat.sub_0_r. by eapply tree_den.
Qed.

Lemma top_level_bound s R m : is_tree (params R) s R m -> top_level R < MAX_HEIGHT.
Proof. intros (_ & _ & Hh & _). unfold top_level. lia. Qed.

(** A chunk reads at one level only. *)
Lemma read_node_level s h n n' node node' :
  read_node s h n None None = Ok node -> read_node s h n' None None = Ok node' -> n = n'.
Proof.
  unfold read_node, decode_node. destruct (map_err PStore (Store.get s h)) as [[d|]|]; try done.
  cbn [rbind]. destruct (take_u8 d) as [[lv d']|]; [|done]. cbn [rbind].
  destruct (Z.eqb_spec lv (Z.of_nat n)), (Z.eqb_spec lv (Z.of_nat n')); try done. lia.
Qed.

Lemma ref_den_read s n r m : ref_den s n true r m -> exists node, read_node s (hash r) n None None = Ok node.
Proof. destruct n; [eauto|]. intros (cs & ms & H & _). eauto. Qed.

Lemma root_den_run s R m :
  params_ok (params R) = true -> is_tree (params R) s R m ->
  run_den s (top_level R) true [pseudo_ref R] m.
Proof.
  intros Hp Ht. exists [m]. split; [|cbn; by rewrite app_nil_r].
  constructor; [|constructor]. split; [by apply root_den|done].
Qed.

Lemma diff_streams s A B ma mb :
  params_ok (params A) = true -> params_ok (params B) = true ->
  is_tree (params A) s A ma -> is_tree (params B) s B mb ->
  exists d, diff s A B = Ok d /\ ((done d = true /\ kv_diff ma mb = []) \/
    (done d = false /\ streams s d (kv_diff ma mb))).
Proof.
  intros Hpa Hpb Ha Hb. unfold diff. case_bool_decide as Eh.
  - eexists. split; [done|]. left. split; [done|].
    pose proof (root_den _ _ _ Hpa Ha) as Da. pose proof (root_den _ _ _ Hpb Hb) as Db.
    destruct (ref_den_read _ _ _ _ Da) as [na Ra], (ref_den_read _ _ _ _ Db) as [nb Rb].
    cbn [pseudo_ref hash] in Ra, Rb. rewrite Eh in Ra.
    pose proof (read_node_level _ _ _ _ _ _ Ra Rb) as El.
    rewrite El in Da. rewrite (ref_den_hash _ _ _ _ _ _ _ _ Da Db Eh). apply kv_diff_same.
  - pose proof (root_den_run _ _ _ Hpa Ha) as Da. pose proof (root_den_run _ _ _ Hpb Hb) as Db.
    set (la := top_level A) in *. set (lb := top_level B) in *.
    replace la with ((la - lb) + Nat.min la lb) in Da by lia.
    replace lb with ((lb - la) + Nat.min la lb) in Db by lia.
    apply expand_down_spec in Da as (ca & Ea & Da), Db as (cb & Eb & Db).
    replace ((la - lb) + Nat.min la lb) with la in Ea by lia.
    replace ((lb - la) + Nat.min la lb) with lb in Eb by lia.
    rewrite Ea, Eb. cbn [rbind]. eexists. split; [done|]. right. split; [done|].
    exists [], [(ma, mb)]. split_and!; [done| |cbn; by rewrite app_nil_r].
    constructor; [|constructor]. destruct Ha as (_ & [Hsa _] & _), Hb as (_ & [Hsb _] & _).
    by split_and!.
Qed.

Lemma diff_collect s A B ma mb :
  params_ok (params A) = true -> params_ok (params B) = true ->
  is_tree (params A) s A ma -> is_tree (params B) s B mb ->
  exists d, diff s A B = Ok d /\
    exists fuel, forall f, fuel <= f -> collect f f s d = Ok (kv_diff ma mb).
Proof.
  intros Hpa Hpb Ha Hb. destruct (diff_streams s A B ma mb Hpa Hpb Ha Hb) as (d & Ed & [[Hd E]|[Hd Hs]]);
    exists d; (split; [done|]).
  - rewrite E. exists 1. intros [|f] Hf; [lia|]. cbn [collect]. unfold next. by rewrite Hd.
  - destruct (collect_streams s d _ Hs Hd) as [fuel H].
    exists (Nat.max fuel (Datatypes.S (length (kv_diff ma mb)))). intros f Hf. apply H; lia.
Qed.

(** C7: the structural diff is the difference of the maps. From roots of two
    maps, of any heights and chunk parameters, the diff opens and its stream
    ends; it yields one entry for every key the maps hold differently, with the
    two values, in ascending key order, and nothing else. *)
Theorem diff_spec s A B M N :
  describes s A M -> describes s B N ->
  exists d es, diff s A B = Ok d /\
    (exists fuel, forall f, fuel <= f -> collect f f s d = Ok es) /\
    StronglySorted bytes_lt (map key es) /\
    forall e, e ∈ es <-> before e = M !! key e /\ after e = N !! key e /\ before e <> after e.
Proof.
  intros (Hpa & ma & <- & Ha) (Hpb & mb & <- & Hb).
  destruct (diff_collect s A B ma mb Hpa Hpb Ha Hb) as (d & Ed & Hc).
  exists d, (kv_diff ma mb). destruct Ha as (_ & [Hsa _] & _), Hb as (_ & [Hsb _] & _).
  split_and!; [done|done|by apply kv_diff_sorted|]. intros e.
  rewrite kv_diff_elem by done. by rewrite !contents_lookup.
Qed.
End roots.
