(* ===== verification/MapMerge.v ===== *)
(** * Three-way merge

    [merge.rs]: the structural diffs of both sides against the base are merged
    by key; clean changes and the removal of conflicted keys are applied to the
    base in one batch, and the conflicts are returned as data. *)
From S2P Require Import Prelude Store Chunker Node Tree TreeSpec TreeNodes TreeRead TreeBuild TreeLevels TreeContent TreeBatch Prolly Diff DiffRun MapDiff.

(** ** The program *)

Record Conflict : Type := mkConflict {
  c_key : bytes; c_base : option bytes; c_ours : option bytes; c_theirs : option bytes
}.

Record MergeOutcome : Type := mkOutcome { merged_root : Root; conflicts : list Conflict }.

Definition to_op (e : DiffEntry) : BatchOp :=
  match after e with
  | Some v => Put (key e) v
  | None => Delete (key e)
  end.

(** The arm for a key both sides changed. *)
Definition merge_both (oe te : DiffEntry) : result ProllyError (BatchOp * list Conflict) :=
  if negb (bool_decide (before oe = before te))
  then Err (Corrupt "three-way merge" "the two diffs disagree on the base value of a key")
  else if bool_decide (after oe = after te) then Ok (to_op oe, [])
  else Ok (Delete (key oe), [mkConflict (key oe) (before te) (after oe) (after te)]).

Section merge.
Context {S : Type} {CS : ChunkStore S}.

(** [next().transpose()?] *)
Definition pull (fuel : nat) (store : S) (d : Diff) : result ProllyError (option DiffEntry * Diff) :=
  match next fuel store d with
  | (None, d) => Ok (None, d)
  | (Some (Ok e), d) => Ok (Some e, d)
  | (Some (Err e), _) => Err e
  end.

Fixpoint merge_loop (steps fuel : nat) (store : S) (od td : Diff) (o t : option DiffEntry)
    (ops : list BatchOp) (conflicts : list Conflict)
    : result ProllyError (list BatchOp * list Conflict) :=
  match steps with
  | O => Err out_of_fuel
  | Datatypes.S steps =>
    let take_ours oe :=
      let? '(o, od) := pull fuel store od in
      merge_loop steps fuel store od td o t (ops ++ [to_op oe]) conflicts in
    let take_theirs te :=
      let? '(t, td) := pull fuel store td in
      merge_loop steps fuel store od td o t (ops ++ [to_op te]) conflicts in
    match o, t with
    | None, None => Ok (ops, conflicts)
    | Some oe, None => take_ours oe
    | None, Some te => take_theirs te
    | Some oe, Some te =>
      match bytes_cmp (key oe) (key te) with
      | Lt => take_ours oe
      | Gt => take_theirs te
      | Eq =>
        let? '(op, cs) := merge_both oe te in
        let? '(o, od) := pull fuel store od in
        let? '(t, td) := pull fuel store td in
        merge_loop steps fuel store od td o t (ops ++ [op]) (conflicts ++ cs)
      end
    end
  end.

Definition merge_changes (fuel : nat) (base ours theirs : Root) (store : S)
    : result ProllyError (list BatchOp * list Conflict) :=
  let? ours_diff := diff store base ours in
  let? theirs_diff := diff store base theirs in
  let? '(o, ours_diff) := pull fuel store ours_diff in
  let? '(t, theirs_diff) := pull fuel store theirs_diff in
  merge_loop fuel fuel store ours_diff theirs_diff o t [] [].

Definition merge (fuel : nat) (base ours theirs : Root) : st S ProllyError MergeOutcome :=
  if negb (bool_decide (params base = params ours)) || negb (bool_decide (params base = params theirs))
  then st_read (fun _ => Err ParamsMismatch)
  else
    let! '(ops, conflicts) := st_read (merge_changes fuel base ours theirs) in
    let! root := apply_batch base ops in
    st_ret (mkOutcome root conflicts).
End merge.

(** ** The merge of two lists of changes *)

Fixpoint merge3 (os : list DiffEntry) : list DiffEntry -> list BatchOp * list Conflict :=
  match os with
  | [] => fun ts => (map to_op ts, [])
  | oe :: os =>
    fix go (ts : list DiffEntry) : list BatchOp * list Conflict :=
      match ts with
      | [] => let '(ops, cs) := merge3 os [] in (to_op oe :: ops, cs)
      | te :: ts' =>
        match bytes_cmp (key oe) (key te) with
        | Lt => let '(ops, cs) := merge3 os ts in (to_op oe :: ops, cs)
        | Gt => let '(ops, cs) := go ts' in (to_op te :: ops, cs)
        | Eq =>
          let '(ops, cs) := merge3 os ts' in
          if bool_decide (after oe = after te) then (to_op oe :: ops, cs)
          else (Delete (key oe) :: ops, mkConflict (key oe) (before te) (after oe) (after te) :: cs)
        end
      end
  end.

Lemma merge3_ind (P : list DiffEntry -> list DiffEntry -> Prop) :
  (forall ts, P [] ts) -> (forall oe os, P os [] -> P (oe :: os) []) ->
  (forall oe os te ts, P os (te :: ts) -> P os ts -> P (oe :: os) ts -> P (oe :: os) (te :: ts)) ->
  forall os ts, P os ts.
Proof.
  intros H1 H2 H3. induction os as [|oe os IH]; [done|]. induction ts as [|te ts IHt]; auto.
Qed.

Lemma merge3_cons oe os te ts :
  merge3 (oe :: os) (te :: ts) =
  match bytes_cmp (key oe) (key te) with
  | Lt => let '(ops, cs) := merge3 os (te :: ts) in (to_op oe :: ops, cs)
  | Gt => let '(ops, cs) := merge3 (oe :: os) ts in (to_op te :: ops, cs)
  | Eq =>
    let '(ops, cs) := merge3 os ts in
    if bool_decide (after oe = after te) then (to_op oe :: ops, cs)
    else (Delete (key oe) :: ops, mkConflict (key oe) (before te) (after oe) (after te) :: cs)
  end.
Proof. done. Qed.

(** The loop is the merge of the lists the two diffs stream. *)
Section loop.
Context {S : Type} {CS : ChunkStore S}.

Definition feeds_on (s : S) (d : Diff) (l : list DiffEntry) : Prop :=
  (done d = true /\ l = []) \/ (done d = false /\ streams s d l).

Lemma pull_feeds s d l : feeds_on s d l ->
  exists fuel o d', (forall f, fuel <= f -> pull f s d = Ok (o, d')) /\
    match l with [] => o = None | e :: l' => o = Some e /\ feeds_on s d' l' end.
Proof.
  intros [[Hd ->]|[Hd Hs]].
  - exists 0, None, d. split; [|done]. intros f _. unfold pull, next. by rewrite Hd.
  - destruct (next_streams s d l Hs Hd) as (fuel & o & d' & Hf & Ho). destruct l as [|e l].
    + exists fuel, None, d'. split; [|done]. intros f Hle. unfold pull. by rewrite Hf, Ho.
    + destruct Ho as (-> & Hs' & Hd'). exists fuel, (Some e), d'. split; [|split; [done|by right]].
      intros f Hle. unfold pull. by rewrite Hf.
Qed.

(** A cursor: the entry in hand and the stream behind it. *)
Definition cursor (s : S) (o : option DiffEntry) (d : Diff) (l : list DiffEntry) : Prop :=
  match l with [] => o = None | e :: l' => o = Some e /\ feeds_on s d l' end.

Lemma pull_cursor s d l : feeds_on s d l ->
  exists fuel o d', (forall f, fuel <= f -> pull f s d = Ok (o, d')) /\ cursor s o d' l.
Proof. apply pull_feeds. Qed.

Definition same_base (os ts : list DiffEntry) : Prop :=
  forall oe te, oe ∈ os -> te ∈ ts -> key oe = key te -> before oe = before te.

Lemma merge_loop_spec s os ts : forall od td o t ops cs,
  cursor s o od os -> cursor s t td ts -> same_base os ts ->
  exists fuel, forall f steps, fuel <= f -> length os + length ts < steps ->
    merge_loop steps f s od td o t ops cs =
    Ok (ops ++ (merge3 os ts).1, cs ++ (merge3 os ts).2).
Proof.
  revert os ts. refine (merge3_ind _ _ _ _).
  - induction ts as [|te ts IH]; intros od td o t ops cs Ho Ht _; cbn [cursor] in Ho; subst o.
    + cbn [cursor] in Ht. subst t. exists 0. intros f [|steps] _ Hs; [lia|]. cbn [merge_loop merge3 map fst snd].
      by rewrite !app_nil_r.
    + destruct Ht as [-> Ht]. destruct (pull_cursor s td ts Ht) as (f1 & t & td' & Hp & Hc).
      destruct (IH od td' None t (ops ++ [to_op te]) cs) as [f2 Hl]; [done|done| |].
      { intros oe te' H. by apply elem_of_nil in H. }
      exists (Nat.max f1 f2). intros f [|steps] Hle Hs; [lia|]. cbn [merge_loop length] in *.
      rewrite Hp by lia. cbn [rbind]. rewrite Hl by lia. cbn [merge3 map fst snd]. by rewrite <-app_assoc.
  - intros oe os IH od td o t ops cs [-> Ho] Ht _. cbn [cursor] in Ht. subst t.
    destruct (pull_cursor s od os Ho) as (f1 & o & od' & Hp & Hc).
    destruct (IH od' td o None (ops ++ [to_op oe]) cs) as [f2 Hl]; [done|done| |].
    { intros oe' te' _ H. by apply elem_of_nil in H. }
    exists (Nat.max f1 f2). intros f [|steps] Hle Hs; [lia|]. cbn [merge_loop length] in *.
    rewrite Hp by lia. cbn [rbind]. rewrite Hl by lia. cbn [merge3]. destruct (merge3 os []).
    cbn [fst snd]. by rewrite <-app_assoc.
  - intros oe os te ts IH1 IH2 IH3 od td o t ops cs [-> Ho] [-> Ht] Hb.
    destruct (pull_cursor s od os Ho) as (f1 & o & od' & Hp & Hc).
    destruct (pull_cursor s td ts Ht) as (f2 & t & td' & Hp' & Hc').
    rewrite merge3_cons. destruct (bytes_cmp (key oe) (key te)) eqn:E.
    + pose proof E as Ek. apply bytes_cmp_eq in Ek.
      assert (before oe = before te) as Hbe by (apply Hb; [apply list_elem_of_here..|done]).
      assert (same_base os ts) as Hb'.
      { intros x y Hx Hy. apply Hb; by apply list_elem_of_further. }
      destruct (decide (after oe = after te)) as [Ha|Ha].
      * destruct (IH2 od' td' o t (ops ++ [to_op oe]) (cs ++ []) Hc Hc' Hb') as [f3 Hl].
        exists (Nat.max f1 (Nat.max f2 f3)). intros f [|steps] Hle Hs; [lia|]. cbn [merge_loop length] in *.
        rewrite E. unfold merge_both. rewrite !bool_decide_true by done. cbn [negb rbind].
        rewrite Hp by lia. cbn [rbind]. rewrite Hp' by lia. cbn [rbind]. rewrite Hl by lia.
        destruct (merge3 os ts). cbn [fst snd]. by rewrite app_nil_r, <-app_assoc.
      * destruct (IH2 od' td' o t (ops ++ [Delete (key oe)])
          (cs ++ [mkConflict (key oe) (before te) (after oe) (after te)]) Hc Hc' Hb') as [f3 Hl].
        exists (Nat.max f1 (Nat.max f2 f3)). intros f [|steps] Hle Hs; [lia|]. cbn [merge_loop length] in *.
        rewrite E. unfold merge_both. rewrite bool_decide_true, bool_decide_false by done. cbn [negb rbind].
        rewrite Hp by lia. cbn [rbind]. rewrite Hp' by lia. cbn [rbind]. rewrite Hl by lia.
        destruct (merge3 os ts). cbn [fst snd]. by rewrite <-!app_assoc.
    + destruct (IH1 od' td o (Some te) (ops ++ [to_op oe]) cs) as [f3 Hl]; [done|done| |].
      { intros x y Hx Hy. apply Hb; [by apply list_elem_of_further|done]. }
      exists (Nat.max f1 f3). intros f [|steps] Hle Hs; [lia|]. cbn [merge_loop length] in *.
      rewrite E, Hp by lia. cbn [rbind]. rewrite Hl by lia.
      destruct (merge3 os (te :: ts)). cbn [fst snd]. by rewrite <-app_assoc.
    + destruct (IH3 od td' (Some oe) t (ops ++ [to_op te]) cs) as [f3 Hl]; [done|done| |].
      { intros x y Hx Hy. apply Hb; [done|by apply list_elem_of_further]. }
      exists (Nat.max f2 f3). intros f [|steps] Hle Hs; [lia|]. cbn [merge_loop length] in *.
      rewrite E, Hp' by lia. cbn [rbind]. rewrite Hl by lia.
      destruct (merge3 (oe :: os) ts). cbn [fst snd]. by rewrite <-app_assoc.
Qed.
End loop.

(** ** What the merge of two lists of changes holds at a key *)

Definition at_key {A : Type} (key : A -> bytes) (k : bytes) (l : list A) : option A :=
  last (with_key key k l).

Section at_key.
Context {A : Type} (key : A -> bytes).
Abbreviation sorted l := (StronglySorted bytes_lt (map key l)).

Lemma at_key_elem k l x : sorted l -> at_key key k l = Some x <-> x ∈ l /\ key x = k.
Proof.
  intros Hs. split.
  - unfold at_key, with_key. intros [l' E]%last_Some.
    assert (x ∈ filter (fun x => key x = k) l) as H by (rewrite E, elem_of_app; right; apply list_elem_of_here).
    apply list_elem_of_filter in H. tauto.
  - intros [Hx Hk]. unfold at_key. by rewrite (sorted_with_key key k l x).
Qed.

Lemma at_key_none k l : Forall (fun x => bytes_lt k (key x)) l -> at_key key k l = None.
Proof.
  intros H. unfold at_key, with_key. rewrite list_filter_none; [done|].
  eapply Forall_impl; [exact H|]. intros x Hx E. by apply bytes_lt_ne in Hx.
Qed.

Lemma at_key_here k x l : key x = k -> Forall (fun y => bytes_lt k (key y)) l -> at_key key k (x :: l) = Some x.
Proof.
  intros Hk H. apply at_key_none in H. unfold at_key, with_key in *. rewrite filter_cons_True by done.
  destruct (filter _ l) as [|y f] eqn:E; [done|]. by rewrite last_cons, H.
Qed.

Lemma at_key_there k x l : key x <> k -> at_key key k (x :: l) = at_key key k l.
Proof. intros Hk. unfold at_key, with_key. by rewrite filter_cons_False. Qed.

Lemma sorted_cons_above x l : sorted (x :: l) -> sorted l /\ Forall (fun y => bytes_lt (key x) (key y)) l.
Proof. cbn [map]. intros [H1 H2]%StronglySorted_inv. by rewrite Forall_map in H2. Qed.

Lemma sorted_cons_intro x l : sorted l -> Forall (fun y => bytes_lt (key x) (key y)) l -> sorted (x :: l).
Proof. intros H1 H2. cbn [map]. constructor; [done|]. by rewrite Forall_map. Qed.
End at_key.

Definition merged_op (o t : option DiffEntry) : option BatchOp :=
  match o, t with
  | None, None => None
  | Some e, None | None, Some e => Some (to_op e)
  | Some oe, Some te =>
    Some (if bool_decide (after oe = after te) then to_op oe else Delete (key oe))
  end.

Definition merged_conflict (o t : option DiffEntry) : option Conflict :=
  match o, t with
  | Some oe, Some te =>
    if bool_decide (after oe = after te) then None
    else Some (mkConflict (key oe) (before te) (after oe) (after te))
  | _, _ => None
  end.

Lemma to_op_key e : op_key (to_op e) = key e.
Proof. unfold to_op. by destruct (after e). Qed.

Lemma merge3_keys (Q : bytes -> Prop) os ts :
  Forall (fun e => Q (key e)) os -> Forall (fun e => Q (key e)) ts ->
  Forall (fun op => Q (op_key op)) (merge3 os ts).1 /\ Forall (fun c => Q (c_key c)) (merge3 os ts).2.
Proof.
  revert os ts. refine (merge3_ind _ _ _ _).
  - intros ts _ Ht. split; [|constructor]. apply Forall_map. eapply Forall_impl; [exact Ht|].
    intros e. by rewrite to_op_key.
  - intros oe os IH Ho Ht. apply Forall_cons_1 in Ho as [He Ho]. destruct (IH Ho Ht) as [H1 H2].
    cbn [merge3]. destruct (merge3 os []). split; [|done]. constructor; [by rewrite to_op_key|done].
  - intros oe os te ts IH1 IH2 IH3 Ho Ht. pose proof Ho as Hoc. pose proof Ht as Htc.
    apply Forall_cons_1 in Ho as [Hoe Ho], Ht as [Hte Ht]. rewrite merge3_cons. destruct (bytes_cmp _ _).
    + destruct (IH2 Ho Ht) as [H1 H2], (merge3 os ts) as [ops cs]. cbn [fst snd] in H1, H2.
      case_bool_decide; (split; [constructor; [by rewrite ?to_op_key|done]|]); [done|by constructor].
    + destruct (IH1 Ho Htc) as [H1 H2], (merge3 os (te :: ts)). split; [|done].
      constructor; [by rewrite to_op_key|done].
    + destruct (IH3 Hoc Ht) as [H1 H2], (merge3 (oe :: os) ts). split; [|done].
      constructor; [by rewrite to_op_key|done].
Qed.

Abbreviation sorted_by key l := (StronglySorted bytes_lt (map key l)).

Lemma keys_above k k' (l : list DiffEntry) :
  bytes_lt k k' -> Forall (fun e => bytes_lt k' (key e)) l -> Forall (fun e => bytes_lt k (key e)) l.
Proof. intros H Hl. eapply Forall_impl; [exact Hl|]. intros x. by apply transitivity. Qed.

(** One change [e] below all others. *)
Lemma merge3_below (k : bytes) ops cs os ts op :
  op_key op = k -> Forall (fun e => bytes_lt k (key e)) os -> Forall (fun e => bytes_lt k (key e)) ts ->
  merge3 os ts = (ops, cs) ->
  sorted_by op_key ops -> sorted_by op_key (op :: ops) /\ Forall (fun c => bytes_lt k (c_key c)) cs /\
    Forall (fun op => bytes_lt k (op_key op)) ops.
Proof.
  intros Hk Ho Ht E Hs. destruct (merge3_keys (bytes_lt k) os ts Ho Ht) as [H1 H2]. rewrite E in H1, H2.
  split_and!; [|done|done]. apply sorted_cons_intro; [done|]. by rewrite Hk.
Qed.

Lemma merge3_at os ts :
  sorted_by key os -> sorted_by key ts ->
  sorted_by op_key (merge3 os ts).1 /\ sorted_by c_key (merge3 os ts).2 /\
  forall k, at_key op_key k (merge3 os ts).1 = merged_op (at_key key k os) (at_key key k ts) /\
    at_key c_key k (merge3 os ts).2 = merged_conflict (at_key key k os) (at_key key k ts).
Proof.
  revert os ts. refine (merge3_ind _ _ _ _).
  - intros ts _. cbn [merge3 fst snd]. induction ts as [|te ts IH]; intros Hs; [by split_and!; [constructor..|]|].
    apply sorted_cons_above in Hs as [Hs Hte]. destruct (IH Hs) as (H1 & H2 & H3).
    destruct (merge3_below (key te) (map to_op ts) [] [] ts (to_op te)) as (H4 & _ & H5);
      [apply to_op_key|constructor|done..|]. split_and!; [exact H4|constructor|]. intros k. split; [|done].
    destruct (decide (key te = k)) as [<-|Hk].
    + rewrite (at_key_here key (key te)) by done. cbn [map]. by rewrite at_key_here by (by rewrite ?to_op_key).
    + rewrite (at_key_there key) by done. cbn [map]. rewrite at_key_there by (by rewrite to_op_key). apply H3.
  - intros oe os IH Hs Ht. apply sorted_cons_above in Hs as [Hs Hoe]. destruct (IH Hs Ht) as (H1 & H2 & H3).
    cbn [merge3]. destruct (merge3 os []) as [ops cs] eqn:E. cbn [fst snd] in *.
    destruct (merge3_below (key oe) ops cs os [] (to_op oe)) as (H4 & H5 & H6); [apply to_op_key|done|constructor|done..|].
    split_and!; [done..|]. intros k. destruct (decide (key oe = k)) as [<-|Hk].
    + rewrite (at_key_here key (key oe)) by done. rewrite at_key_here by (by rewrite ?to_op_key).
      split; [done|]. by rewrite at_key_none.
    + rewrite (at_key_there key) by done. rewrite at_key_there by (by rewrite to_op_key). apply H3.
  - intros oe os te ts IH1 IH2 IH3 Ho Ht. pose proof Ho as Hoc. pose proof Ht as Htc.
    apply sorted_cons_above in Ho as [Ho Hoe], Ht as [Ht Hte]. rewrite merge3_cons.
    destruct (bytes_cmp (key oe) (key te)) eqn:Ec.
    + apply bytes_cmp_eq in Ec. destruct (IH2 Ho Ht) as (H1 & H2 & H3). clear IH1 IH2 IH3.
      destruct (merge3 os ts) as [ops cs] eqn:E. cbn [fst snd] in H1, H2, H3. rewrite <-Ec in Hte.
      set (op := if bool_decide (after oe = after te) then to_op oe else Delete (key oe)).
      assert (op_key op = key oe) as Hop by (unfold op; case_match; [apply to_op_key|done]).
      destruct (merge3_below (key oe) ops cs os ts op) as (H4 & H5 & H6); [done..|].
      unfold op in *. clear op. case_bool_decide as Ha; cbn [fst snd].
      * split_and!; [done..|]. intros k. destruct (decide (key oe = k)) as [<-|Hk].
        -- rewrite !(at_key_here _ (key oe)) by done. split; cbn [merged_op merged_conflict];
             rewrite bool_decide_true by done; [done|]. by rewrite at_key_none.
        -- rewrite !at_key_there by congruence. apply H3.
      * split_and!; [done|by apply sorted_cons_intro|]. intros k. destruct (decide (key oe = k)) as [<-|Hk].
        -- rewrite !(at_key_here _ (key oe)) by done. split; cbn [merged_op merged_conflict];
             rewrite bool_decide_false by done; done.
        -- rewrite !at_key_there by (done || congruence). apply H3.
    + destruct (IH1 Ho Htc) as (H1 & H2 & H3). clear IH1 IH2 IH3.
      destruct (merge3 os (te :: ts)) as [ops cs] eqn:E. cbn [fst snd] in *.
      assert (Forall (fun e => bytes_lt (key oe) (key e)) (te :: ts)) as Hall
        by (constructor; [done|by eapply keys_above]).
      destruct (merge3_below (key oe) ops cs os (te :: ts) (to_op oe)) as (H4 & H5 & H6); [apply to_op_key|done..|].
      split_and!; [done..|]. intros k. destruct (decide (key oe = k)) as [<-|Hk].
      * rewrite (at_key_here key (key oe) oe), (at_key_none key (key oe)) by done.
        rewrite at_key_here by (by rewrite ?to_op_key). split; [done|]. by rewrite at_key_none.
      * rewrite (at_key_there key k oe), at_key_there by (by rewrite ?to_op_key). apply H3.
    + assert (bytes_lt (key te) (key oe)) as Hlt by (unfold bytes_lt; by rewrite bytes_cmp_sym, Ec).
      destruct (IH3 Hoc Ht) as (H1 & H2 & H3). clear IH1 IH2 IH3.
      destruct (merge3 (oe :: os) ts) as [ops cs] eqn:E. cbn [fst snd] in *.
      assert (Forall (fun e => bytes_lt (key te) (key e)) (oe :: os)) as Hall
        by (constructor; [done|by eapply keys_above]).
      destruct (merge3_below (key te) ops cs (oe :: os) ts (to_op te)) as (H4 & H5 & H6); [apply to_op_key|done..|].
      split_and!; [done..|]. intros k. destruct (decide (key te = k)) as [<-|Hk].
      * rewrite (at_key_here key (key te) te), (at_key_none key (key te) (oe :: os)) by done.
        rewrite at_key_here by (by rewrite ?to_op_key). split; [done|]. by rewrite at_key_none.
      * rewrite (at_key_there key k te), at_key_there by (by rewrite ?to_op_key). apply H3.
Qed.

(** ** The merge of maps *)

(** The merged value of a key, [None] for a conflict. *)
Definition three_way (b o t : option bytes) : option (option bytes) :=
  if decide (o = b) then Some t
  else if decide (t = b) then Some o
  else if decide (o = t) then Some o
  else None.

Lemma kv_diff_at a b k :
  StronglySorted bytes_lt (map fst a) -> StronglySorted bytes_lt (map fst b) ->
  at_key key k (kv_diff a b) =
  if decide (search_key k a = search_key k b) then None
  else Some (mkDiffEntry k (search_key k a) (search_key k b)).
Proof.
  intros Ha Hb. pose proof (kv_diff_sorted a b Ha Hb) as Hs. destruct (decide _) as [E|Hne].
  - destruct (at_key key k (kv_diff a b)) as [d|] eqn:Ed; [|done].
    apply at_key_elem in Ed as [Hd Hk]; [|done]. apply kv_diff_elem in Hd as (H1 & H2 & H3); [|done..].
    rewrite Hk in *. congruence.
  - apply at_key_elem; [done|]. split; [|done]. by apply kv_diff_elem.
Qed.

Lemma merged_op_lookup k b o t :
  after_op b (merged_op (if decide (b = o) then None else Some (mkDiffEntry k b o))
                        (if decide (b = t) then None else Some (mkDiffEntry k b t))) =
  match three_way b o t with Some v => v | None => None end.
Proof.
  unfold three_way, merged_op, to_op.
  repeat (case_decide; simplify_eq; cbn [after key]; try done);
    repeat (case_bool_decide; simplify_eq; cbn [after key]; try done);
    by repeat match goal with |- context [match ?x with Some _ => _ | None => _ end] => destruct x end.
Qed.

Lemma merged_conflict_at k b o t :
  merged_conflict (if decide (b = o) then None else Some (mkDiffEntry k b o))
                  (if decide (b = t) then None else Some (mkDiffEntry k b t)) =
  match three_way b o t with Some _ => None | None => Some (mkConflict k b o t) end.
Proof.
  unfold three_way, merged_conflict.
  repeat (case_decide; simplify_eq; cbn [after key before]; try done);
    by repeat (case_bool_decide; simplify_eq).
Qed.

Lemma length_kv_diff a b : length (kv_diff a b) <= length a + length b.
Proof.
  revert a b. refine (kv_diff_ind _ _ _ _).
  - intros b. cbn [kv_diff]. by rewrite length_map.
  - intros e a IH. cbn [kv_diff length] in *. lia.
  - intros e a e' b IH1 IH2 IH3. rewrite kv_diff_cons. cbn [length] in *.
    destruct (bytes_cmp _ _); [|cbn [length]; lia..]. unfold changed. rewrite length_app.
    case_bool_decide; cbn [length]; lia.
Qed.

Lemma length_merge3 os ts : length (merge3 os ts).1 <= length os + length ts.
Proof.
  revert os ts. refine (merge3_ind _ _ _ _).
  - intros ts. cbn. by rewrite length_map.
  - intros oe os IH. cbn [merge3]. destruct (merge3 os []). cbn [fst length] in *. lia.
  - intros oe os te ts IH1 IH2 IH3. rewrite merge3_cons. cbn [length] in *. destruct (bytes_cmp _ _).
    + destruct (merge3 os ts). case_bool_decide; cbn [fst length] in *; lia.
    + destruct (merge3 os (te :: ts)). cbn [fst length] in *. lia.
    + destruct (merge3 (oe :: os) ts). cbn [fst length] in *. lia.
Qed.

(** Every operation of a merge writes an entry of one of the sides. *)
Lemma merge3_ok os ts :
  Forall (fun e => op_ok (to_op e) = true) os -> Forall (fun e => op_ok (to_op e) = true) ts ->
  Forall (fun op => op_ok op = true) (merge3 os ts).1.
Proof.
  revert os ts. refine (merge3_ind _ _ _ _).
  - intros ts _ Ht. by apply Forall_map.
  - intros oe os IH Ho Ht. apply Forall_cons_1 in Ho as [He Ho]. specialize (IH Ho Ht).
    cbn [merge3]. destruct (merge3 os []). by constructor.
  - intros oe os te ts IH1 IH2 IH3 Ho Ht. pose proof Ho as Hoc. pose proof Ht as Htc.
    apply Forall_cons_1 in Ho as [Hoe Ho], Ht as [Hte Ht]. rewrite merge3_cons. destruct (bytes_cmp _ _).
    + specialize (IH2 Ho Ht). destruct (merge3 os ts). case_bool_decide; by constructor.
    + specialize (IH1 Ho Htc). destruct (merge3 os (te :: ts)). by constructor.
    + specialize (IH3 Hoc Ht). destruct (merge3 (oe :: os) ts). by constructor.
Qed.

Lemma search_key_elem k m v : search_key k m = Some v -> (k, v) ∈ m.
Proof.
  induction m as [|[k' v'] m IH]; [done|]. simpl. case_bool_decide as E; [|intros H; right; auto].
  intros [= ->]. rewrite E. apply list_elem_of_here.
Qed.

Lemma kv_diff_ok a b : content_ok a -> content_ok b ->
  Forall (fun e => op_ok (to_op e) = true) (kv_diff a b).
Proof.
  intros [Ha _] [Hb Hk]. rewrite Forall_forall in Hk. rewrite Forall_forall. intros d Hd.
  apply kv_diff_elem in Hd as (_ & H & _); [|done..]. unfold to_op. destruct (after d) as [v|]; [|done].
  apply (Hk (key d, v)). by apply search_key_elem.
Qed.

Lemma kv_diff_same_base b o t :
  StronglySorted bytes_lt (map fst b) -> StronglySorted bytes_lt (map fst o) ->
  StronglySorted bytes_lt (map fst t) -> same_base (kv_diff b o) (kv_diff b t).
Proof.
  intros Hb Ho Ht x y Hx Hy E. apply kv_diff_elem in Hx as (Hx & _), Hy as (Hy & _); [|done..]. congruence.
Qed.

Section theorems.
Context {S : Type} {CS : ChunkStore S} {CSL : ChunkStoreLaws S}.
Implicit Types (s : S) (base ours theirs : Root).

Lemma merge_changes_spec s base ours theirs mb mo mt :
  params_ok (params base) = true -> params base = params ours -> params base = params theirs ->
  is_tree (params base) s base mb -> is_tree (params ours) s ours mo -> is_tree (params theirs) s theirs mt ->
  exists fuel, forall f, fuel <= f ->
    merge_changes f base ours theirs s = Ok (merge3 (kv_diff mb mo) (kv_diff mb mt)).
Proof.
  intros Hp Eo Et Hb Ho Ht.
  destruct (diff_streams s base ours mb mo) as (od & Eod & Ho'); [done|by rewrite <-Eo|done..|].
  destruct (diff_streams s base theirs mb mt) as (td & Etd & Ht'); [done|by rewrite <-Et|done..|].
  destruct (pull_cursor s od (kv_diff mb mo)) as (f1 & o & od' & Hpo & Hco).
  { destruct Ho' as [[H ->]|H]; [by left|by right]. }
  destruct (pull_cursor s td (kv_diff mb mt)) as (f2 & t & td' & Hpt & Hct).
  { destruct Ht' as [[H ->]|H]; [by left|by right]. }
  destruct (merge_loop_spec s (kv_diff mb mo) (kv_diff mb mt) od' td' o t [] []) as [f3 Hl]; [done|done| |].
  { destruct Hb as (_ & [Hb _] & _), Ho as (_ & [Ho _] & _), Ht as (_ & [Ht _] & _). by apply kv_diff_same_base. }
  exists (Nat.max (Nat.max f1 f2) (Nat.max f3 (Datatypes.S (length (kv_diff mb mo) + length (kv_diff mb mt))))).
  intros f Hf. unfold merge_changes. rewrite Eod, Etd. cbn [rbind]. rewrite Hpo by lia. cbn [rbind].
  rewrite Hpt by lia. cbn [rbind]. rewrite Hl by lia. cbn [app]. by destruct (merge3 _ _).
Qed.

Definition merge_result (MB MO MT : gmap bytes bytes) (base : Root) (s' : S) (r : MergeOutcome) : Prop :=
  params (merged_root r) = params base /\
  (exists M, describes s' (merged_root r) M /\
    forall k, M !! k = match three_way (MB !! k) (MO !! k) (MT !! k) with Some v => v | None => None end) /\
  StronglySorted bytes_lt (map c_key (conflicts r)) /\
  forall c, c ∈ conflicts r <->
    three_way (MB !! c_key c) (MO !! c_key c) (MT !! c_key c) = None /\
    c = mkConflict (c_key c) (MB !! c_key c) (MO !! c_key c) (MT !! c_key c).

Lemma wp_merge s base ours theirs MB MO MT :
  describes s base MB -> describes s ours MO -> describes s theirs MT ->
  params base = params ours -> params base = params theirs ->
  (Z.of_nat (3 * size MB + size MO + size MT) <= 2 ^ 62)%Z ->
  exists fuel, forall f, fuel <= f ->
    wp (merge f base ours theirs) (fun r s' => merge_result MB MO MT base s' r) s.
Proof.
  intros HB (Hpo & mo & <- & Ho) (Hpt & mt & <- & Ht) Eo Et Hsize.
  pose proof HB as (Hp & mb & <- & Hb).
  pose proof Hb as (_ & Hcb & _). pose proof Ho as (_ & Hco & _). pose proof Ht as (_ & Hct & _).
  pose proof Hcb as [Hsb _]. pose proof Hco as [Hso _]. pose proof Hct as [Hst _].
  destruct (merge_changes_spec s base ours theirs mb mo mt Hp Eo Et Hb Ho Ht) as [fuel Hc].
  exists fuel. intros f Hf. unfold merge. rewrite !bool_decide_true by done. cbn [negb orb].
  destruct (merge3_at (kv_diff mb mo) (kv_diff mb mt)) as (H1 & H2 & H3); [by apply kv_diff_sorted..|].
  pose proof (length_merge3 (kv_diff mb mo) (kv_diff mb mt)) as Hl.
  pose proof (length_kv_diff mb mo). pose proof (length_kv_diff mb mt).
  pose proof (merge3_ok _ _ (kv_diff_ok mb mo Hcb Hco) (kv_diff_ok mb mt Hcb Hct)) as Hok.
  apply wp_bind. apply (wp_read _ (merge3 (kv_diff mb mo) (kv_diff mb mt))); [by apply Hc|].
  destruct (merge3 (kv_diff mb mo) (kv_diff mb mt)) as [ops cs] eqn:E. cbn [fst snd] in *.
  rewrite !size_contents in Hsize by done.
  eapply wp_bind_mono; [apply (wp_apply_batch s base (contents mb) ops HB Hok); rewrite size_contents by done; lia|].
  intros R s' _ [Hr Hd]. apply wp_ret. split_and!; [done| |done|].
  - eexists. split; [exact Hd|]. intros k. cbn [merged_root]. rewrite op_map_lookup.
    destruct (H3 k) as [Hk _]. unfold search_op. unfold at_key in Hk at 1. rewrite Hk.
    rewrite !kv_diff_at, !contents_lookup by done. apply merged_op_lookup.
  - intros c. cbn [conflicts]. destruct (H3 (c_key c)) as [_ Hk].
    rewrite !kv_diff_at, merged_conflict_at in Hk by done. rewrite !contents_lookup.
    assert (c ∈ cs <-> at_key c_key (c_key c) cs = Some c) as -> by (rewrite at_key_elem by done; tauto).
    rewrite Hk. destruct (three_way _ _ _); [split; [done|by intros [? _]]|].
    split; [intros [= Hx]; by split|intros [_ Hx]; by rewrite <-Hx].
Qed.

(** C8: three-way merge. From roots of three maps with the same parameters,
    the merge takes for every key the change of the one side that made it, or
    the change both made; a key the sides changed differently is absent from
    the merged map and reported, with its three values, in ascending key
    order, and no other key is reported. With enough fuel the loops end, and
    the only failures are the store's. *)
Theorem merge_spec s base ours theirs MB MO MT :
  describes s base MB -> describes s ours MO -> describes s theirs MT ->
  params base = params ours -> params base = params theirs ->
  (Z.of_nat (3 * size MB + size MO + size MT) <= 2 ^ 62)%Z ->
  exists fuel, forall f, fuel <= f ->
    wp (merge f base ours theirs) (fun r s' => merge_result MB MO MT base s' r) s.
Proof. apply wp_merge. Qed.

Definition swap_conflict (c : Conflict) : Conflict :=
  mkConflict (c_key c) (c_base c) (c_theirs c) (c_ours c).

Lemma three_way_comm b o t : three_way b o t = three_way b t o.
Proof. unfold three_way. by repeat (case_decide; simplify_eq). Qed.

(** The sides of a merge are interchangeable: merging theirs with ours
    gives a root of the same map and the same conflicts with the two sides'
    values exchanged. *)
Lemma merge_symmetric s base ours theirs MB MO MT :
  describes s base MB -> describes s ours MO -> describes s theirs MT ->
  params base = params ours -> params base = params theirs ->
  (Z.of_nat (3 * size MB + size MO + size MT) <= 2 ^ 62)%Z ->
  exists fuel, forall f r1 s1 r2 s2, fuel <= f ->
    merge f base ours theirs s = (Ok r1, s1) -> merge f base theirs ours s = (Ok r2, s2) ->
    (exists M, describes s1 (merged_root r1) M /\ describes s2 (merged_root r2) M) /\
    conflicts r2 = map swap_conflict (conflicts r1).
Proof.
  intros HB HO HT Eo Et Hsize.
  destruct (wp_merge s base ours theirs MB MO MT HB HO HT Eo Et Hsize) as [f1 H1].
  destruct (wp_merge s base theirs ours MB MT MO HB HT HO Et Eo ltac:(lia)) as [f2 H2].
  exists (Nat.max f1 f2). intros f r1 s1 r2 s2 Hf E1 E2.
  destruct (wp_Ok _ _ _ _ _ (H1 f ltac:(lia)) E1) as (_ & _ & (M1 & D1 & L1) & S1 & C1).
  destruct (wp_Ok _ _ _ _ _ (H2 f ltac:(lia)) E2) as (_ & _ & (M2 & D2 & L2) & S2 & C2).
  split.
  - exists M1. split; [done|]. replace M1 with M2; [done|]. apply map_eq. intros k.
    by rewrite L1, L2, three_way_comm.
  - apply (sorted_ext bytes_lt c_key); [done|by rewrite map_map|]. intros c. rewrite C2, three_way_comm.
    rewrite list_elem_of_fmap. split.
    + intros [Hn Hc]. exists (swap_conflict c). split; [by destruct c|].
      apply C1. cbn [swap_conflict c_key]. split; [done|]. rewrite Hc at 1. cbn [swap_conflict c_key c_base c_ours c_theirs].
      done.
    + intros (d & -> & Hd). apply C1 in Hd as [Hn Hd]. cbn [swap_conflict c_key]. split; [done|].
      rewrite Hd at 1. done.
Qed.
End theorems.

(** ** The theorems at a concrete merge

    From the five sample entries, one side deletes 1, changes 3 and adds 6,
    the other changes 3 differently, changes 4 and adds 6 alike. *)

Lemma batch_describes {S : Type} {CS : ChunkStore S} {CSL : ChunkStoreLaws S} (s s' : S) R M ops R' :
  describes s R M -> Forall (fun op => op_ok op = true) ops ->
  (Z.of_nat (size M) + Z.of_nat (length ops) <= 2 ^ 62)%Z -> apply_batch R ops s = (Ok R', s') ->
  describes s' R' (foldl op_map M ops) /\ extends s s'.
Proof.
  intros H1 H2 H3 E. pose proof (wp_apply_batch s R M ops H1 H2 H3) as Hw.
  destruct (wp_Ok _ _ _ _ _ Hw E) as (? & _ & ?). by split.
Qed.

Definition ours_batch : list BatchOp := [Delete [x01]; Put [x03] [x0a]; Put [x06] [x06]].
Definition theirs_batch : list BatchOp := [Put [x03] [x0b]; Put [x04] []; Put [x06] [x06]].
Definition ours_run := apply_batch sample_root ours_batch sample_store.
Definition ours_root : Root := st_value no_root ours_run.
Definition ours_store : SampleStore := ours_run.2.
Definition theirs_run := apply_batch sample_root theirs_batch ours_store.
Definition theirs_root : Root := st_value no_root theirs_run.
Definition theirs_store : SampleStore := theirs_run.2.
Definition ours_map := foldl op_map (load_map sample_entries) ours_batch.
Definition theirs_map := foldl op_map (load_map sample_entries) theirs_batch.

Lemma ours_run_ok : apply_batch sample_root ours_batch sample_store = (Ok ours_root, ours_store).
Proof. unfold ours_root, ours_store, ours_run. apply st_value_spec. vm_compute. reflexivity. Qed.
Lemma theirs_run_ok : apply_batch sample_root theirs_batch ours_store = (Ok theirs_root, theirs_store).
Proof. unfold theirs_root, theirs_store, theirs_run. apply st_value_spec. vm_compute. reflexivity. Qed.

Lemma sides_describe :
  describes theirs_store sample_root (load_map sample_entries) /\
  describes theirs_store ours_root ours_map /\ describes theirs_store theirs_root theirs_map.
Proof.
  destruct (batch_describes sample_store ours_store sample_root (load_map sample_entries) ours_batch ours_root)
    as [H1 E1]; [apply sample_describes|by repeat constructor|vm_compute; discriminate|apply ours_run_ok|].
  assert (describes ours_store sample_root (load_map sample_entries)) as H2
    by exact (describes_extends _ _ _ _ E1 sample_describes).
  destruct (batch_describes ours_store theirs_store sample_root (load_map sample_entries) theirs_batch theirs_root)
    as [H3 E3]; [done|by repeat constructor|vm_compute; discriminate|apply theirs_run_ok|].
  split; [exact (describes_extends _ _ _ _ E3 H2)|].
  split; [exact (describes_extends _ _ _ _ E3 H1)|exact H3].
Qed.

Lemma diff_spec_witness :
  exists d es, diff theirs_store sample_root ours_root = Ok d /\
    (exists fuel, forall f, fuel <= f -> collect f f theirs_store d = Ok es) /\
    StronglySorted bytes_lt (map key es) /\
    forall e, e ∈ es <-> before e = load_map sample_entries !! key e /\ after e = ours_map !! key e /\
      before e <> after e.
Proof.
  destruct sides_describe as (H1 & H2 & _).
  exact (diff_spec theirs_store sample_root ours_root _ _ H1 H2).
Defined.

Lemma merge_conflict_computed :
  match (merge 100 sample_root ours_root theirs_root theirs_store).1 with
  | Ok r => conflicts r = [mkConflict [x03] (Some [z2b 103]) (Some [x0a]) (Some [x0b])] /\
      height (merged_root r) = 2
  | Err _ => False
  end.
Proof. vm_compute. by split. Qed.

Lemma sides_params : params sample_root = params ours_root /\ params sample_root = params theirs_root.
Proof. split; vm_compute; reflexivity. Qed.

Lemma sides_size :
  (Z.of_nat (3 * size (load_map sample_entries) + size ours_map + size theirs_map) <= 2 ^ 62)%Z.
Proof. vm_compute. discriminate. Qed.

Lemma merge_spec_witness :
  exists fuel, forall f, fuel <= f ->
    wp (merge f sample_root ours_root theirs_root)
      (fun r s' => merge_result (load_map sample_entries) ours_map theirs_map sample_root s' r) theirs_store.
Proof.
  destruct sides_describe as (H1 & H2 & H3), sides_params as [H4 H5].
  exact (merge_spec theirs_store sample_root ours_root theirs_root _ _ _ H1 H2 H3 H4 H5 sides_size).
Defined.

Lemma merge_symmetric_witness :
  exists fuel, forall f r1 s1 r2 s2, fuel <= f ->
    merge f sample_root ours_root theirs_root theirs_store = (Ok r1, s1) ->
    merge f sample_root theirs_root ours_root theirs_store = (Ok r2, s2) ->
    (exists M, describes s1 (merged_root r1) M /\ describes s2 (merged_root r2) M) /\
    conflicts r2 = map swap_conflict (conflicts r1).
Proof.
  destruct sides_describe as (H1 & H2 & H3), sides_params as [H4 H5].
  exact (merge_symmetric theirs_store sample_root ours_root theirs_root _ _ _ H1 H2 H3 H4 H5 sides_size).
Defined.
