(* ===== verification/Scan.v ===== *)
(** * Range scans (crates/acetone-prolly/src/scan.rs)

    Ordered scans in both directions.  The iterator is a state: the path of
    frames from the root, its innermost first, the current leaf and the
    position in it.  [next]'s loop takes fuel; two rounds are always enough
    ([next_total] in [ScanRun]). *)
From S2P Require Import Prelude Store Chunker Node Tree.

Inductive Bound : Type :=
| Included (k : bytes)
| Excluded (k : bytes)
| Unbounded.

Inductive Direction : Type := Forward | Reverse.

Record Frame : Type := mkFrame { f_refs : list NodeRef; f_idx : nat; child_level : nat }.

Record Scan : Type := mkScan {
  stack : list Frame; leaf : list (bytes * bytes); pos : nat; exit : Bound; dir : Direction;
  prev_key : option bytes; sc_done : bool }.

Definition unreachable : ProllyError := corrupt "unreachable".
Definition scan_out_of_fuel : ProllyError := Corrupt "model" "out of fuel".

(** ** Seeking the entry side *)

(** The first child whose span can hold entries in range. *)
Definition seek_split (d : Direction) (entry : Bound) (refs : list NodeRef) : nat :=
  match entry with
  | Included k => partition_point (fun r => bytes_ltb (last_key r) k) refs
  | Excluded k =>
    match d with
    | Forward => partition_point (fun r => bytes_leb (last_key r) k) refs
    | Reverse => partition_point (fun r => bytes_ltb (last_key r) k) refs
    end
  | Unbounded => match d with Forward => 0 | Reverse => length refs - 1 end
  end.

(** The position in the leaf. *)
Definition seek_pos (d : Direction) (entry : Bound) (entries : list (bytes * bytes)) : nat :=
  match d with
  | Forward =>
    match entry with
    | Included k => partition_point (fun e => bytes_ltb e.1 k) entries
    | Excluded k => partition_point (fun e => bytes_leb e.1 k) entries
    | Unbounded => 0
    end
  | Reverse =>
    match entry with
    | Included k => partition_point (fun e => bytes_leb e.1 k) entries
    | Excluded k => partition_point (fun e => bytes_ltb e.1 k) entries
    | Unbounded => length entries
    end
  end.

Section scan.
Context {S : Type} {CS : ChunkStore S}.

(** The loop of [seek], by the level of the node it stands at. *)
Fixpoint seek_at (store : S) (level : nat) (h : Hash) (expect_last_key : option bytes) (entry : Bound)
    (out : Scan) : result ProllyError Scan :=
  let? node := read_node store h level expect_last_key None in
  match node with
  | Inner refs =>
    let split := seek_split (dir out) entry refs in
    if match dir out with Forward => (split =? length refs)%nat | Reverse => false end
    then Ok (mkScan (stack out) (leaf out) (pos out) (exit out) (dir out) (prev_key out) true)
    else
      let idx := match dir out with Forward => split | Reverse => Nat.min split (length refs - 1) end in
      match refs !! idx, level with
      | Some r, Datatypes.S child_level =>
        seek_at store child_level (hash r) (Some (last_key r)) entry
          (mkScan (mkFrame refs idx child_level :: stack out) (leaf out) (pos out) (exit out) (dir out)
             (prev_key out) (sc_done out))
      | _, _ => Err unreachable
      end
  | Leaf entries =>
    Ok (mkScan (stack out) entries (seek_pos (dir out) entry entries) (exit out) (dir out) (prev_key out)
          (sc_done out))
  end.

Definition seek (store : S) (root : Root) (entry exit : Bound) (d : Direction) : result ProllyError Scan :=
  seek_at store (top_level root) (root_hash root) None entry (mkScan [] [] 0 exit d None false).

Definition scan (store : S) (root : Root) (start_bound end_bound : Bound) : result ProllyError Scan :=
  seek store root start_bound end_bound Forward.

Definition scan_rev (store : S) (root : Root) (start_bound end_bound : Bound) : result ProllyError Scan :=
  seek store root end_bound start_bound Reverse.

(** ** Stepping *)

Definition within_exit (sc : Scan) (key : bytes) : bool :=
  match exit sc, dir sc with
  | Included e, Forward => bytes_leb key e
  | Excluded e, Forward => bytes_ltb key e
  | Included e, Reverse => bytes_leb e key
  | Excluded e, Reverse => bytes_ltb e key
  | Unbounded, _ => true
  end.

Definition check_monotonic (sc : Scan) (key : bytes) : result ProllyError unit :=
  match prev_key sc with
  | Some prev =>
    if match dir sc with Forward => bytes_ltb prev key | Reverse => bytes_ltb key prev end
    then Ok tt
    else Err (Corrupt "range scan" "keys not strictly ordered across leaves")
  | None => Ok tt
  end.

(** The first loop of [advance_leaf]: pop frames until one can move. *)
Fixpoint pop_frames (d : Direction) (stack : list Frame) : list Frame :=
  match stack with
  | [] => []
  | frame :: below =>
    match d with
    | Forward =>
      if (f_idx frame + 1 <? length (f_refs frame))%nat
      then mkFrame (f_refs frame) (f_idx frame + 1) (child_level frame) :: below
      else pop_frames d below
    | Reverse =>
      if (0 <? f_idx frame)%nat
      then mkFrame (f_refs frame) (f_idx frame - 1) (child_level frame) :: below
      else pop_frames d below
    end
  end.

(** The second loop: descend on the near side. *)
Fixpoint descend_near (store : S) (d : Direction) (level : nat) (h : Hash) (expect_last_key : bytes)
    (stack : list Frame) : result ProllyError (list Frame * list (bytes * bytes)) :=
  let? node := read_node store h level (Some expect_last_key) None in
  match node with
  | Inner refs =>
    let idx := match d with Forward => 0 | Reverse => length refs - 1 end in
    match refs !! idx, level with
    | Some r, Datatypes.S child_level =>
      descend_near store d child_level (hash r) (last_key r) (mkFrame refs idx child_level :: stack)
    | _, _ => Err unreachable
    end
  | Leaf entries => Ok (stack, entries)
  end.

Definition advance_leaf (store : S) (sc : Scan) : result ProllyError (bool * Scan) :=
  match pop_frames (dir sc) (stack sc) with
  | [] => Ok (false, mkScan [] (leaf sc) (pos sc) (exit sc) (dir sc) (prev_key sc) (sc_done sc))
  | frame :: below =>
    match f_refs frame !! f_idx frame with
    | Some r =>
      let? '(stack, entries) := descend_near store (dir sc) (child_level frame) (hash r) (last_key r)
                                  (frame :: below) in
      let pos := match dir sc with Forward => 0 | Reverse => length entries end in
      Ok (true, mkScan stack entries pos (exit sc) (dir sc) (prev_key sc) (sc_done sc))
    | None => Err unreachable
    end
  end.

Definition take_from_leaf (sc : Scan) : option ((bytes * bytes) * Scan) :=
  let at_pos p := mkScan (stack sc) (leaf sc) p (exit sc) (dir sc) (prev_key sc) (sc_done sc) in
  match dir sc with
  | Forward => match leaf sc !! pos sc with Some e => Some (e, at_pos (pos sc + 1)) | None => None end
  | Reverse =>
    match pos sc with
    | O => None
    | Datatypes.S p => match leaf sc !! p with Some e => Some (e, at_pos p) | None => None end
    end
  end.

Definition finished (sc : Scan) : Scan :=
  mkScan (stack sc) (leaf sc) (pos sc) (exit sc) (dir sc) (prev_key sc) true.

(** [Iterator::next] *)
Fixpoint next_loop (fuel : nat) (store : S) (sc : Scan) : option (result ProllyError (bytes * bytes)) * Scan :=
  match fuel with
  | O => (Some (Err scan_out_of_fuel), finished sc)
  | Datatypes.S fuel =>
    match take_from_leaf sc with
    | Some ((k, v), sc) =>
      if negb (within_exit sc k) then (None, finished sc)
      else
        match check_monotonic sc k with
        | Err e => (Some (Err e), finished sc)
        | Ok _ =>
          (Some (Ok (k, v)), mkScan (stack sc) (leaf sc) (pos sc) (exit sc) (dir sc) (Some k) (sc_done sc))
        end
    | None =>
      match advance_leaf store sc with
      | Ok (true, sc) => next_loop fuel store sc
      | Ok (false, sc) => (None, finished sc)
      | Err e => (Some (Err e), finished sc)
      end
    end
  end.

Definition next (store : S) (sc : Scan) : option (result ProllyError (bytes * bytes)) * Scan :=
  if sc_done sc then (None, sc) else next_loop 2 store sc.

(** The iterator run to its end: the entries, and the error it stopped at. *)
Fixpoint collect (items : nat) (store : S) (sc : Scan) : result ProllyError (list (bytes * bytes)) :=
  match items with
  | O => Err scan_out_of_fuel
  | Datatypes.S items =>
    match next store sc with
    | (None, _) => Ok []
    | (Some (Ok e), sc) => let? es := collect items store sc in Ok (e :: es)
    | (Some (Err e), _) => Err e
    end
  end.
End scan.
