(* ===== verification/ScanRun.v ===== *)
(** * Range scans yield the range

    A scan's state denotes the entries it still has to yield.  On the tree of
    a map both directions yield exactly the entries within the bounds; on any
    store at all, hostile ones included, what is yielded is strictly ordered
    and within the exit bound, and nothing follows an error. *)
From S2P Require Import Prelude Store Chunker Node Tree TreeSpec TreeNodes TreeRead TreeLevels TreeContent TreeBatch Prolly Diff DiffRun MapDiff Scan.

Abbreviation kvs := (list (bytes * bytes)).
Abbreviation sorted m := (StronglySorted bytes_lt (map fst m)).

(** ** Directions and bounds *)

Definition orient {A : Type} (d : Direction) (l : list A) : list A :=
  match d with Forward => l | Reverse => rev l end.

Definition beyond (d : Direction) (a b : bytes) : Prop :=
  match d with Forward => bytes_lt a b | Reverse => bytes_lt b a end.

#[global] Instance beyond_strict d : StrictOrder (beyond d).
Proof.
  destruct d; split.
  - intros a H. by apply (irreflexivity bytes_lt a).
  - intros a b c. apply transitivity.
  - intros a H. by apply (irreflexivity bytes_lt a).
  - intros a b c H1 H2. cbn in *. by etrans.
Qed.

Definition opposite (d : Direction) : Direction :=
  match d with Forward => Reverse | Reverse => Forward end.

(** The keys on the inner side of an entry bound. *)
Definition keeps (d : Direction) (b : Bound) (k : bytes) : bool :=
  match d, b with
  | Forward, Included e => bytes_leb e k
  | Forward, Excluded e => bytes_ltb e k
  | Reverse, Included e => bytes_leb k e
  | Reverse, Excluded e => bytes_ltb k e
  | _, Unbounded => true
  end.

Definition keep (d : Direction) (b : Bound) (m : kvs) : kvs := filter (fun e => keeps d b e.1 = true) m.

Lemma within_exit_keeps sc k : within_exit sc k = keeps (opposite (dir sc)) (exit sc) k.
Proof. unfold within_exit. by destruct (dir sc), (exit sc). Qed.

(** Bounds are monotone along the scan. *)
Lemma keeps_beyond d b k k' : beyond d k k' -> keeps d b k = true -> keeps d b k' = true.
Proof.
  destruct d, b as [e|e|]; cbn; rewrite ?bytes_ltb_lt, ?bytes_leb_le; try done; intros H1 H2.
  - apply bytes_lt_le. by eapply bytes_le_lt_trans.
  - by etrans.
  - apply bytes_lt_le. by eapply bytes_lt_le_trans.
  - by etrans.
Qed.

Lemma keep_app d b m m' : keep d b (m ++ m') = keep d b m ++ keep d b m'.
Proof. apply filter_app. Qed.

Lemma keep_all d b m : Forall (fun e => keeps d b e.1 = true) m -> keep d b m = m.
Proof. unfold keep. induction 1 as [|e m He _ IH]; [done|]. by rewrite filter_cons_True, IH. Qed.

Lemma keep_none d b m : Forall (fun e => keeps d b e.1 = false) m -> keep d b m = [].
Proof.
  unfold keep. induction 1 as [|e m He _ IH]; [done|]. by rewrite filter_cons_False by congruence.
Qed.

Lemma keep_le d b m k : keeps d b k = true -> d = Reverse -> Forall (fun e => bytes_le e.1 k) m ->
  keep d b m = m.
Proof.
  intros Hk -> Hm. apply keep_all. eapply Forall_impl; [exact Hm|]. intros e He.
  apply bytes_le_lteq in He as [He| ->]; [|done]. by apply (keeps_beyond Reverse b k).
Qed.

Section den.
Context {S : Type} {CS : ChunkStore S}.
Implicit Types (s : S) (r : NodeRef) (st : list Frame).

Lemma run_den_cons s n r refs m :
  run_den s n false (r :: refs) m <->
  exists mr m', m = mr ++ m' /\ child_den s n r mr /\ run_den s n false refs m'.
Proof.
  split.
  - intros (ms & H & ->). apply Forall2_cons_inv_l in H as (mr & ms' & [H1 H2] & H & ->).
    exists mr, (concat ms'). split_and!; [done|split; [done|by apply H2]|by exists ms'].
  - intros (mr & m' & -> & [H1 H2] & (ms & H & ->)). exists (mr :: ms). split; [|done].
    by constructor.
Qed.

Lemma run_den_nil s n m : run_den s n false [] m <-> m = [].
Proof.
  split; [|intros ->; by exists []]. intros (ms & H & ->). by apply Forall2_nil_inv_l in H as ->.
Qed.

Lemma run_den_snoc s n r refs m :
  run_den s n false (refs ++ [r]) m <->
  exists m' mr, m = m' ++ mr /\ run_den s n false refs m' /\ child_den s n r mr.
Proof.
  rewrite run_den_app. split.
  - intros (mx & my & -> & Hx & Hy). apply run_den_cons in Hy as (mr & m' & -> & Hr & Hn).
    apply run_den_nil in Hn as ->. exists mx, mr. by rewrite app_nil_r.
  - intros (m' & mr & -> & Hx & Hr). exists m', mr. split_and!; [done|done|].
    apply run_den_cons. exists mr, []. rewrite app_nil_r. split_and!; [done|done|by apply run_den_nil].
Qed.

(** ** What the frames denote *)

Definition left_of (d : Direction) (f : Frame) : list NodeRef :=
  match d with Forward => drop (Datatypes.S (f_idx f)) (f_refs f) | Reverse => take (f_idx f) (f_refs f) end.

Fixpoint frames_den s (d : Direction) st (L : kvs) : Prop :=
  match st with
  | [] => L = []
  | f :: st =>
    (f_idx f < length (f_refs f)) /\
    exists m L', run_den s (child_level f) false (left_of d f) m /\ frames_den s d st L' /\ L = orient d m ++ L'
  end.

Lemma orient_app {A : Type} d (l k : list A) :
  orient d (l ++ k) = match d with Forward => l ++ k | Reverse => rev k ++ rev l end.
Proof. destruct d; [done|apply rev_app_distr]. Qed.

Lemma orient_nil {A : Type} d (l : list A) : orient d l = [] <-> l = [].
Proof.
  destruct d; [done|]. cbn. split; [|by intros ->]. intros H. apply (f_equal (@rev A)) in H.
  by rewrite rev_involutive in H.
Qed.

Lemma descend_near_spec s d n r m st L :
  child_den s n r m -> frames_den s d st L ->
  exists st' es L', descend_near s d n (hash r) (last_key r) st = Ok (st', es) /\
    frames_den s d st' L' /\ orient d m ++ L = orient d es ++ L' /\ es <> [].
Proof.
  revert r m st L. induction n as [|n IH]; intros r m st L [Hr [Hne He]] HL; cbn [descend_near ref_den] in *.
  - cbn [expect_last] in Hr. rewrite Hr. cbn [rbind]. by exists st, m, L.
  - destruct Hr as (cs & ms & Hr & Hms & ->). cbn [expect_last] in Hr. rewrite Hr. cbn [rbind].
    assert (run_den s n false cs (concat ms)) as Hrun.
    { exists ms. split; [|done]. eapply Forall2_impl; [exact Hms|]. by intros c mc [H1 H2]. }
    clear Hr Hms. destruct d.
    + destruct cs as [|c cs]; [by apply run_den_nil in Hrun|]. cbn [lookup list_lookup].
      pose proof Hrun as Hrun'. apply run_den_cons in Hrun' as (mr & m' & E & Hc & Hrest).
      destruct (IH c mr (mkFrame (c :: cs) 0 n :: st) (m' ++ L)) as (st' & es & L' & H1 & H2 & H3 & H4); [done| |].
      { split; [cbn; lia|]. exists m', L. by split_and!. }
      exists st', es, L'. split_and!; [done|done| |done]. cbn [orient] in *. by rewrite E, <-app_assoc.
    + destruct (decide (cs = [])) as [->|Hcs]; [by apply run_den_nil in Hrun|].
      destruct (exists_last Hcs) as (cs' & c & ->). rewrite length_app. cbn [length].
      replace (length cs' + 1 - 1) with (length cs') by lia. rewrite list_lookup_middle by done.
      apply run_den_snoc in Hrun as (m' & mr & E & Hrest & Hc).
      destruct (IH c mr (mkFrame (cs' ++ [c]) (length cs') n :: st) (rev m' ++ L)) as (st' & es & L' & H1 & H2 & H3 & H4); [done| |].
      { split; [cbn; rewrite length_app; cbn; lia|]. exists m', L. cbn [left_of f_idx f_refs child_level].
        rewrite take_app_length. by split_and!. }
      exists st', es, L'. split_and!; [done|done| |done]. cbn [orient] in *.
      by rewrite E, rev_app_distr, <-app_assoc.
Qed.

Lemma pop_frames_spec s d st L :
  frames_den s d st L ->
  (pop_frames d st = [] /\ L = []) \/
  exists f below r mr L', pop_frames d st = f :: below /\ f_refs f !! f_idx f = Some r /\
    child_den s (child_level f) r mr /\ frames_den s d (f :: below) L' /\ L = orient d mr ++ L'.
Proof.
  revert L. induction st as [|f st IH]; intros L; cbn [pop_frames]; [by intros ->; left|].
  intros (Hi & m & L' & Hrun & HL & ->). destruct f as [refs idx lv]. destruct d; cbn [f_idx f_refs child_level left_of] in *.
  - destruct (Nat.ltb_spec (idx + 1) (length refs)) as [Hlt|Hge].
    + right. destruct (lookup_lt_is_Some_2 refs (idx + 1) Hlt) as [r Hr].
      pose proof (drop_S _ _ _ Hr) as Hd. rewrite Nat.add_1_r in Hd, Hr. rewrite Hd in Hrun.
      apply run_den_cons in Hrun as (mr & m' & -> & Hc & Hrest).
      exists (mkFrame refs (idx + 1) lv), st, r, mr, (m' ++ L'). split_and!; [done|by rewrite Nat.add_1_r|done| |].
      * split; [cbn; lia|]. exists m', L'. cbn [left_of f_idx f_refs child_level]. rewrite Nat.add_1_r. by split_and!.
      * cbn [orient]. by rewrite app_assoc.
    + rewrite drop_ge in Hrun by lia. apply run_den_nil in Hrun as ->. by apply IH.
  - destruct (Nat.ltb_spec 0 idx) as [Hlt|Hge].
    + right. destruct (lookup_lt_is_Some_2 refs (idx - 1) ltac:(lia)) as [r Hr].
      pose proof (take_S_r _ _ _ Hr) as Ht. replace (Datatypes.S (idx - 1)) with idx in Ht by lia. rewrite Ht in Hrun.
      apply run_den_snoc in Hrun as (m' & mr & -> & Hrest & Hc).
      exists (mkFrame refs (idx - 1) lv), st, r, mr, (rev m' ++ L'). split_and!; [done|done|done| |].
      * split; [cbn; lia|]. exists m', L'. cbn [left_of f_idx f_refs child_level]. by split_and!.
      * cbn [orient]. by rewrite rev_app_distr, app_assoc.
    + replace idx with 0 in Hrun by lia. cbn [take] in Hrun. apply run_den_nil in Hrun as ->. by apply IH.
Qed.
End den.

(** ** Seeking *)

Lemma partition_point_ext {A} (f g : A -> bool) l : (forall x, f x = g x) -> partition_point f l = partition_point g l.
Proof. intros H. induction l as [|x l IH]; [done|]. cbn. by rewrite H, IH. Qed.

Lemma partition_point_const {A} (b : bool) (l : list A) : partition_point (fun _ => b) l = if b then length l else 0.
Proof. induction l as [|x l IH]; [by destruct b|]. cbn. destruct b; [by rewrite IH|done]. Qed.

Lemma ltb_negb_leb a b : bytes_ltb a b = negb (bytes_leb b a).
Proof. apply Bool.eq_iff_eq_true. by rewrite negb_true_iff, bytes_ltb_lt, bytes_leb_gt. Qed.

Lemma leb_negb_ltb a b : bytes_leb a b = negb (bytes_ltb b a).
Proof. apply Bool.eq_iff_eq_true. by rewrite negb_true_iff, bytes_leb_le, bytes_ltb_ge. Qed.

Lemma seek_split_forward entry refs :
  seek_split Forward entry refs = partition_point (fun r => negb (keeps Forward entry (last_key r))) refs.
Proof.
  destruct entry; cbn [seek_split keeps].
  - apply partition_point_ext. intros r. apply ltb_negb_leb.
  - apply partition_point_ext. intros r. apply leb_negb_ltb.
  - symmetry. apply (partition_point_const false).
Qed.

Definition rest_at (d : Direction) (p : nat) (m : kvs) : kvs :=
  match d with Forward => drop p m | Reverse => rev (take p m) end.

Lemma sorted_above_head (e : bytes * bytes) m : sorted (e :: m) -> Forall (fun x => bytes_lt e.1 x.1) m.
Proof. cbn [map]. intros [_ H]%StronglySorted_inv. by rewrite Forall_map in H. Qed.

Lemma seek_pos_spec d entry m : sorted m -> rest_at d (seek_pos d entry m) m = orient d (keep d entry m).
Proof.
  intros Hs. destruct d; cbn [rest_at orient].
  - assert (seek_pos Forward entry m = partition_point (fun e => negb (keeps Forward entry e.1)) m) as ->.
    { destruct entry; cbn [seek_pos keeps].
      - apply partition_point_ext. intros e. apply ltb_negb_leb.
      - apply partition_point_ext. intros e. apply leb_negb_ltb.
      - symmetry. apply (partition_point_const false). }
    destruct (partition_point_spec (fun e => negb (keeps Forward entry e.1)) m) as (pre & post & -> & -> & Hpre & Hpost).
    rewrite drop_app_length, keep_app, keep_none.
    2: { eapply Forall_impl; [exact Hpre|]. intros e He. by apply negb_true_iff. }
    symmetry. apply keep_all. destruct post as [|e post]; [apply Forall_nil_2|]. apply negb_false_iff in Hpost.
    apply sorted_app_inv in Hs as [_ Hs]. apply sorted_above_head in Hs. constructor; [done|].
    eapply Forall_impl; [exact Hs|]. intros x Hx. by apply (keeps_beyond Forward entry e.1).
  - assert (seek_pos Reverse entry m = partition_point (fun e => keeps Reverse entry e.1) m) as ->.
    { destruct entry; cbn [seek_pos keeps]; [done|done|]. symmetry. apply (partition_point_const true). }
    destruct (partition_point_spec (fun e => keeps Reverse entry e.1) m) as (pre & post & -> & -> & Hpre & Hpost).
    rewrite take_app_length, keep_app, keep_all by done. rewrite keep_none; [by rewrite app_nil_r|].
    destruct post as [|e post]; [apply Forall_nil_2|].
    apply sorted_app_inv in Hs as [_ Hs]. apply sorted_above_head in Hs. constructor; [done|].
    eapply Forall_impl; [exact Hs|]. intros x Hx. destruct (keeps Reverse entry x.1) eqn:E; [|done].
    rewrite <-Hpost. symmetry. by apply (keeps_beyond Reverse entry x.1).
Qed.

(** The child a reverse seek enters. *)
Lemma seek_split_reverse entry refs : refs <> [] ->
  exists pre c post, refs = pre ++ c :: post /\
    Nat.min (seek_split Reverse entry refs) (length refs - 1) = length pre /\
    Forall (fun r => keeps Reverse entry (last_key r) = true) pre /\
    (post = [] \/ forall k, bytes_lt (last_key c) k -> keeps Reverse entry k = false).
Proof.
  intros Hne.
  assert (forall k, (forall k', bytes_lt k' k -> keeps Reverse entry k' = true) ->
    (forall k', bytes_lt k k' -> keeps Reverse entry k' = false) ->
    seek_split Reverse entry refs = partition_point (fun r => bytes_ltb (last_key r) k) refs ->
    exists pre c post, refs = pre ++ c :: post /\
      Nat.min (seek_split Reverse entry refs) (length refs - 1) = length pre /\
      Forall (fun r => keeps Reverse entry (last_key r) = true) pre /\
      (post = [] \/ forall k, bytes_lt (last_key c) k -> keeps Reverse entry k = false)) as Hk.
  { intros k Hlo Hhi ->.
    destruct (partition_point_spec (fun r => bytes_ltb (last_key r) k) refs) as (pre & post & -> & -> & Hpre & Hpost).
    assert (Forall (fun r => keeps Reverse entry (last_key r) = true) pre) as Hpre'.
    { eapply Forall_impl; [exact Hpre|]. intros r Hr. apply Hlo. by apply bytes_ltb_lt. }
    rewrite length_app. destruct post as [|c post].
    - rewrite app_nil_r in *. destruct (exists_last Hne) as (pre' & c & ->). exists pre', c, [].
      rewrite length_app in *. cbn [length]. split; [done|]. split; [lia|].
      apply Forall_app in Hpre' as [? _]. split; [done|by left].
    - exists pre, c, post. split; [done|]. cbn [length]. split; [lia|]. split; [done|]. right.
      intros k' Hlt. apply Hhi. apply bytes_ltb_ge in Hpost. by eapply bytes_le_lt_trans. }
  destruct entry as [k|k|]; cbn [seek_split keeps] in *.
  - apply (Hk k); [|intros k' H; by apply bytes_leb_gt|done]. intros k' H. apply bytes_leb_le. by apply bytes_lt_le.
  - apply (Hk k); [|intros k' H|done]; [intros k' H; by apply bytes_ltb_lt|]. apply bytes_ltb_ge. by apply bytes_lt_le.
  - destruct (exists_last Hne) as (pre & c & ->). exists pre, c, []. rewrite length_app. cbn [length].
    split; [done|]. split; [lia|]. split; [by apply Forall_true|by left].
Qed.

Lemma partition_point_le {A} (f : A -> bool) l : partition_point f l <= length l.
Proof. induction l as [|x l IH]; cbn; [lia|]. destruct (f x); lia. Qed.

Lemma seek_pos_le d entry m : seek_pos d entry m <= length m.
Proof. destruct d, entry; cbn [seek_pos]; first [apply partition_point_le | lia]. Qed.

Section seek.
Context {S : Type} {CS : ChunkStore S}.
Implicit Types (s : S) (r : NodeRef) (st : list Frame).

Lemma read_node_inner_nonempty s h n e m : read_node s h n e m <> Ok (Inner []).
Proof.
  unfold read_node. intros H. apply rbind_Ok in H as ([data|] & _ & H); [|done].
  apply rbind_Ok in H as (node & H & Hn). assert (node = Inner []) as ->.
  { clear H. revert Hn. repeat case_match; intros Hn; (by apply Ok_inj in Hn) || done. }
  clear Hn. unfold decode_node in H. apply rbind_Ok in H as ([level rest] & _ & H).
  destruct (level =? Z.of_nat n)%Z; cbn [negb] in H; [|done].
  apply rbind_Ok in H as ([count rest'] & Hc & H). apply take_u32_Ok in Hc as [_ Hu].
  apply rbind_Ok in H as ([node' rest''] & H & Hn'). destruct (level =? 0)%Z.
  { apply rbind_Ok in H as ([es r] & _ & H). apply Ok_inj in H. simplify_eq. by destruct rest''. }
  destruct (count =? 0)%Z eqn:Hz; [done|]. apply rbind_Ok in H as ([refs r] & Hd & H). apply Ok_inj in H. simplify_eq.
  destruct rest''; [|done]. apply Ok_inj in Hn' as [= ->]. apply decode_inner_entries_Ok in Hd as (Hlen & _).
  apply Z.eqb_neq in Hz. cbn in Hlen. unrange. lia.
Qed.

(** A run whose last keys are all below a key has its keys below it. *)
Lemma run_den_below s n refs m (P : bytes -> Prop) :
  run_den s n false refs m -> sorted m -> (forall k k', bytes_le k k' -> P k' -> P k) ->
  Forall (fun r => P (last_key r)) refs -> Forall (fun e => P e.1) m.
Proof.
  intros Hrun Hs HP H. revert m Hrun Hs. induction H as [|r refs Hr _ IH]; intros m Hrun Hs.
  - by apply run_den_nil in Hrun as ->.
  - apply run_den_cons in Hrun as (mr & m' & -> & [_ [Hne He]] & Hrun). apply Forall_app. split.
    + destruct (sorted_pairs_last mr m' Hs Hne) as [Hle _]. eapply Forall_impl; [exact Hle|].
      intros e Hle'. eapply HP; [exact Hle'|]. by rewrite He.
    + apply IH; [done|]. by eapply sorted_app_inv.
Qed.

(** The state after a seek: where it stands, and what it still denotes. *)
Definition entered s (d : Direction) st (es : kvs) (p : nat) (L : kvs) : Prop :=
  p <= length es /\ exists L', frames_den s d st L' /\ L = rest_at d p es ++ L'.

Lemma seek_at_spec s n pseudo r m entry st out L :
  ref_den s n pseudo r m -> sorted m -> stack out = st -> frames_den s (dir out) st L ->
  exists out', seek_at s n (hash r) (expect_last pseudo r) entry out = Ok out' /\
    exit out' = exit out /\ dir out' = dir out /\ prev_key out' = prev_key out /\
    ((sc_done out' = true /\ dir out = Forward /\ keep Forward entry m = []) \/
     (sc_done out' = sc_done out /\
      entered s (dir out) (stack out') (leaf out') (pos out') (orient (dir out) (keep (dir out) entry m) ++ L))).
Proof.
  revert pseudo r m st out L. induction n as [|n IH]; intros pseudo r m st out L Hr Hs Hst HL;
    cbn [seek_at ref_den] in *.
  - rewrite Hr. cbn [rbind]. eexists. split; [done|]. cbn [exit dir prev_key sc_done]. split_and!; [done..|].
    right. split; [done|]. split; [apply seek_pos_le|]. exists L. cbn [stack leaf pos]. rewrite Hst, seek_pos_spec by done. by split.
  - destruct Hr as (cs & ms & Hr & Hms & ->). rewrite Hr. cbn [rbind].
    assert (run_den s n false cs (concat ms)) as Hrun.
    { exists ms. split; [|done]. eapply Forall2_impl; [exact Hms|]. by intros c mc [H1 H2]. }
    assert (cs <> []) as Hcs by (intros ->; by apply read_node_inner_nonempty in Hr).
    clear Hr Hms. revert Hs Hrun. generalize (concat ms). clear ms. intros m Hs Hrun.
    (* the child the scan enters, and what is kept on both sides of it *)
    assert (forall pre c post mpre mc mpost,
      cs = pre ++ c :: post -> m = mpre ++ mc ++ mpost -> run_den s n false pre mpre -> child_den s n c mc ->
      run_den s n false post mpost ->
      match dir out with
      | Forward => keep Forward entry mpre = [] /\ keep Forward entry mpost = mpost /\ keep Forward entry mc <> []
      | Reverse => keep Reverse entry mpre = mpre /\ keep Reverse entry mpost = []
      end ->
      exists out', seek_at s n (hash c) (Some (last_key c)) entry
        (mkScan (mkFrame cs (length pre) n :: stack out) (leaf out) (pos out) (exit out) (dir out) (prev_key out) (sc_done out)) = Ok out' /\
        exit out' = exit out /\ dir out' = dir out /\ prev_key out' = prev_key out /\
        ((sc_done out' = true /\ dir out = Forward /\ keep Forward entry m = []) \/
         (sc_done out' = sc_done out /\
          entered s (dir out) (stack out') (leaf out') (pos out') (orient (dir out) (keep (dir out) entry m) ++ L)))) as Henter.
    { intros pre c post mpre mc mpost Ecs Em Hpre Hc Hpost Hk.
      assert (sorted mc) as Hsc by (rewrite Em in Hs; apply sorted_app_inv in Hs as [_ Hs]; by apply sorted_app_inv in Hs as [Hs _]).
      assert (frames_den s (dir out) (mkFrame cs (length pre) n :: stack out)
        (orient (dir out) (match dir out with Forward => mpost | Reverse => mpre end) ++ L)) as HL'.
      { split; [cbn; rewrite Ecs, length_app; cbn; lia|].
        exists (match dir out with Forward => mpost | Reverse => mpre end), L. rewrite Hst.
        split; [|by split]. rewrite Ecs. destruct (dir out); cbn [left_of f_idx f_refs child_level].
        - by rewrite drop_app_ge, Nat.sub_succ_l, Nat.sub_diag by lia.
        - by rewrite take_app_length. }
      destruct (IH false c mc _ (mkScan (mkFrame cs (length pre) n :: stack out) (leaf out) (pos out) (exit out) (dir out) (prev_key out) (sc_done out))
        _ (proj1 Hc) Hsc eq_refl HL') as (out' & H1 & H2 & H3 & H4 & H5).
      exists out'. split_and!; [exact H1|done|done|done|]. cbn [dir sc_done] in H5.
      rewrite Em, !keep_app. destruct H5 as [(H5 & H6 & H7)|[H5 H6]].
      { rewrite H6 in Hk. destruct Hk as (_ & _ & Hk). done. }
      right. split; [done|]. destruct (dir out); destruct Hk as (K1 & K2).
      - destruct K2 as [K2 _]. rewrite K1, K2. cbn [orient app] in *. by rewrite <-app_assoc.
      - rewrite K1, K2, app_nil_r. cbn [orient] in *. by rewrite rev_app_distr, <-app_assoc. }
    clear IH. destruct (dir out) eqn:Ed.
    + rewrite seek_split_forward.
      destruct (partition_point_spec (fun r => negb (keeps Forward entry (last_key r))) cs) as (pre & post & -> & -> & Hpre & Hpost).
      apply run_den_app in Hrun as (mpre & mpost & -> & Dpre & Dpost).
      assert (keep Forward entry mpre = []) as K1.
      { apply keep_none. apply (run_den_below s n pre mpre (fun k => keeps Forward entry k = false)); [done|by apply sorted_app_inv in Hs as [Hs _]| |].
        - intros k k' Hle Hk. destruct (keeps Forward entry k) eqn:E; [|done]. rewrite <-Hk.
          apply bytes_le_lteq in Hle as [Hle| ->]; [|done]. symmetry. by apply (keeps_beyond Forward entry k).
        - eapply Forall_impl; [exact Hpre|]. intros x Hx. by apply negb_true_iff. }
      destruct post as [|c post].
      * apply run_den_nil in Dpost as ->. rewrite !app_nil_r, Nat.eqb_refl. eexists. split; [done|].
        cbn [exit dir prev_key sc_done]. split_and!; [done..|]. left. by split_and!.
      * destruct (Nat.eqb_spec (length pre) (length (pre ++ c :: post))) as [E|_]; [rewrite length_app in E; cbn in E; lia|].
        rewrite list_lookup_middle by done. apply negb_false_iff in Hpost.
        apply run_den_cons in Dpost as (mc & mp & -> & Dc & Dpost).
        apply (Henter pre c post mpre mc mp); try done. split_and!; [done| |].
        -- apply keep_all. apply sorted_app_inv in Hs as [_ Hs]. destruct Dc as [_ [Hne He]].
           destruct (sorted_pairs_last mc mp Hs Hne) as [_ Hgt]. rewrite He in Hgt.
           eapply Forall_impl; [exact Hgt|]. intros e Hlt. by apply (keeps_beyond Forward entry (last_key c)).
        -- destruct Dc as [_ [Hne He]]. destruct (exists_last Hne) as (l & e & ->).
           unfold pairs_last in He. rewrite last_snoc in He. destruct e as [k v]. subst k.
           rewrite keep_app. unfold keep at 2. rewrite filter_cons_True by done. by destruct (keep Forward entry l).
    + destruct (seek_split_reverse entry cs Hcs) as (pre & c & post & -> & Ei & Hpre & Hpost).
      rewrite Ei, list_lookup_middle by done.
      apply run_den_app in Hrun as (mpre & mpost & -> & Dpre & Dpost).
      apply run_den_cons in Dpost as (mc & mp & -> & Dc & Dpost).
      apply (Henter pre c post mpre mc mp); try done. split.
      * apply keep_all. apply (run_den_below s n pre mpre (fun k => keeps Reverse entry k = true)); [done|by apply sorted_app_inv in Hs as [Hs _]| |done].
        intros k k' Hle Hk. apply bytes_le_lteq in Hle as [Hle| ->]; [|done]. by apply (keeps_beyond Reverse entry k').
      * destruct Hpost as [-> | Hpost]; [by apply run_den_nil in Dpost as ->|]. apply keep_none.
        apply sorted_app_inv in Hs as [_ Hs]. destruct Dc as [_ [Hne He]].
        destruct (sorted_pairs_last mc mp Hs Hne) as [_ Hgt]. rewrite He in Hgt.
        eapply Forall_impl; [exact Hgt|]. intros e Hlt. by apply Hpost.
Qed.
End seek.

(** ** Stepping *)

Lemma keep_cons d b e m : keep d b (e :: m) = if keeps d b e.1 then e :: keep d b m else keep d b m.
Proof.
  unfold keep. destruct (keeps d b e.1) eqn:E; [by rewrite filter_cons_True|].
  by rewrite filter_cons_False by congruence.
Qed.

Lemma keep_rev d b m : keep d b (rev m) = rev (keep d b m).
Proof.
  induction m as [|e m IH]; [done|]. cbn [rev]. rewrite keep_app, IH, keep_cons.
  change (keep d b [e]) with (keep d b (e :: [])). rewrite keep_cons. change (keep d b []) with (@nil (bytes * bytes)).
  destruct (keeps d b e.1); cbn; [done|by rewrite app_nil_r].
Qed.

Lemma keep_sorted d b m : sorted m -> sorted (keep d b m).
Proof.
  induction m as [|e m IH]; [done|]. cbn [map]. intros [Hs He]%StronglySorted_inv. rewrite keep_cons.
  destruct (keeps d b e.1); [|by apply IH]. cbn [map]. apply SSorted_cons; [by apply IH|].
  rewrite Forall_map in He |- *. rewrite !Forall_forall in He |- *. intros x Hx.
  apply list_elem_of_filter in Hx as [_ Hx]. by apply He.
Qed.

Lemma keep_comm d d' b b' m : keep d b (keep d' b' m) = keep d' b' (keep d b m).
Proof.
  induction m as [|e m IH]; [done|]. rewrite !(keep_cons _ _ e m).
  destruct (keeps d b e.1) eqn:E, (keeps d' b' e.1) eqn:E'; rewrite ?keep_cons, ?E, ?E', IH; done.
Qed.

Lemma orient_keep d d' b m : keep d' b (orient d m) = orient d (keep d' b m).
Proof. destruct d; [done|apply keep_rev]. Qed.

Abbreviation ordered d m := (StronglySorted (beyond d) (map fst (m : kvs))).

Lemma ordered_orient d m : sorted m -> ordered d (orient d m).
Proof.
  destruct d; [done|]. cbn [orient]. induction m as [|e m IH]; cbn [map rev]; [intros _; apply SSorted_nil|].
  intros [Hs He]%StronglySorted_inv. rewrite map_app. apply StronglySorted_app. split; [|split; [by apply IH|]].
  - intros x y Hx Hy. cbn in Hy. apply list_elem_of_singleton in Hy as ->. rewrite Forall_forall in He. apply He.
    by rewrite list_elem_of_In, map_rev, <-in_rev, <-list_elem_of_In in Hx.
  - apply SSorted_cons; [apply SSorted_nil|apply Forall_nil_2].
Qed.

Section next.
Context {S : Type} {CS : ChunkStore S}.
Implicit Types (s : S) (sc : Scan).

Definition scan_den s sc (L : kvs) : Prop :=
  sc_done sc = false /\ entered s (dir sc) (stack sc) (leaf sc) (pos sc) L /\ ordered (dir sc) L /\
  (forall p, prev_key sc = Some p -> Forall (fun e => beyond (dir sc) p e.1) L).

Lemma take_from_leaf_spec sc :
  pos sc <= length (leaf sc) ->
  match rest_at (dir sc) (pos sc) (leaf sc) with
  | [] => take_from_leaf sc = None
  | e :: es => exists p, take_from_leaf sc =
      Some (e, mkScan (stack sc) (leaf sc) p (exit sc) (dir sc) (prev_key sc) (sc_done sc)) /\
      rest_at (dir sc) p (leaf sc) = es /\ p <= length (leaf sc)
  end.
Proof.
  intros Hp. unfold take_from_leaf. destruct (dir sc); cbn [rest_at].
  - destruct (leaf sc !! pos sc) as [e|] eqn:E.
    + rewrite (drop_S _ _ _ E). exists (pos sc + 1). rewrite Nat.add_1_r. apply lookup_lt_Some in E. by split_and!.
    + apply lookup_ge_None in E. by rewrite drop_ge.
  - destruct (pos sc) as [|p]; [done|].
    destruct (lookup_lt_is_Some_2 (leaf sc) p ltac:(lia)) as [e E]. rewrite E.
    rewrite (take_S_r _ _ _ E), rev_app_distr. cbn. exists p. split_and!; [done|done|lia].
Qed.

Lemma check_monotonic_spec sc k :
  check_monotonic sc k = Ok tt <-> forall p, prev_key sc = Some p -> beyond (dir sc) p k.
Proof.
  unfold check_monotonic. destruct (prev_key sc) as [p|]; [|split; [by intros _ p|done]].
  destruct (dir sc); cbn [beyond]; (case_match eqn:E; split; [| |done|]).
  - intros _ q [= <-]. by apply bytes_ltb_lt.
  - done.
  - intros H. specialize (H p eq_refl). apply bytes_ltb_lt in H. congruence.
  - intros _ q [= <-]. by apply bytes_ltb_lt.
  - done.
  - intros H. specialize (H p eq_refl). apply bytes_ltb_lt in H. congruence.
Qed.

Lemma read_node_ends s h n k e node : read_node s h n (Some k) e = Ok node -> node_last_key node = Some k.
Proof.
  unfold read_node. intros H. apply rbind_Ok in H as ([data|] & _ & H); [|done].
  apply rbind_Ok in H as (node' & _ & H). case_bool_decide; cbn [negb] in H; [|done].
  assert (node' = node) as <-; [|done]. revert H. repeat case_match; intros Hx; (by apply Ok_inj in Hx) || done.
Qed.

(** A leaf just loaded has entries, on any store. *)
Lemma descend_near_leaf s d n h k st st' es : descend_near s d n h k st = Ok (st', es) -> es <> [].
Proof.
  revert h k st. induction n as [|n IH]; intros h k st H; cbn [descend_near] in H;
    apply rbind_Ok in H as (node & Hn & H); destruct node as [entries|refs].
  1,3: apply Ok_inj in H as [= _ ->]; intros ->; by apply read_node_ends in Hn.
  - by destruct (refs !! _).
  - destruct (refs !! _) as [r|]; [|done]. by apply IH in H.
Qed.

Lemma advance_leaf_true s sc sc' :
  advance_leaf s sc = Ok (true, sc') ->
  exit sc' = exit sc /\ dir sc' = dir sc /\ prev_key sc' = prev_key sc /\ sc_done sc' = sc_done sc /\
  leaf sc' <> [] /\ pos sc' = match dir sc with Forward => 0 | Reverse => length (leaf sc') end.
Proof.
  unfold advance_leaf. destruct (pop_frames (dir sc) (stack sc)) as [|f below]; [done|].
  destruct (f_refs f !! f_idx f) as [r|]; [|done]. intros H. apply rbind_Ok in H as ([st es] & H & E).
  apply Ok_inj in E as [= <-]. cbn. apply descend_near_leaf in H. by split_and!.
Qed.

Lemma rest_at_near d es : rest_at d (match d with Forward => 0 | Reverse => length es end) es = orient d es.
Proof. destruct d; [done|]. cbn [rest_at]. by rewrite take_ge. Qed.

(** Two rounds of [next]'s loop are always enough: a leaf the scan advanced to
    has an entry to take. *)
Lemma next_loop_two s sc f : next_loop (Datatypes.S (Datatypes.S f)) s sc = next_loop 2 s sc.
Proof.
  cbn [next_loop]. destruct (take_from_leaf sc) as [[[k v] sc']|]; [done|].
  destruct (advance_leaf s sc) as [[[] sc']|e] eqn:E; [|done..].
  apply advance_leaf_true in E as (_ & Ed & _ & _ & Hne & Hp).
  pose proof (take_from_leaf_spec sc') as H. rewrite Hp, <-Ed, rest_at_near in H.
  destruct (orient (dir sc') (leaf sc')) as [|e es] eqn:Eo; [by apply orient_nil in Eo|].
  destruct H as (p & -> & _); [destruct (dir sc'); lia|]. by destruct e.
Qed.

Definition fresh s sc (L : kvs) : Prop :=
  entered s (dir sc) (stack sc) (leaf sc) (pos sc) L /\ rest_at (dir sc) (pos sc) (leaf sc) <> [].

Lemma advance_leaf_spec s sc L :
  entered s (dir sc) (stack sc) (leaf sc) (pos sc) L -> rest_at (dir sc) (pos sc) (leaf sc) = [] ->
  exists b sc', advance_leaf s sc = Ok (b, sc') /\ (b = false -> L = []) /\
    (b = true -> exit sc' = exit sc /\ dir sc' = dir sc /\ prev_key sc' = prev_key sc /\
       sc_done sc' = sc_done sc /\ fresh s sc' L).
Proof.
  intros (Hp & L' & HL & ->) ->. cbn [app]. unfold advance_leaf.
  destruct (pop_frames_spec s (dir sc) (stack sc) L' HL) as [[-> ->]|(f & below & r & mr & L'' & -> & -> & Hc & HL' & ->)].
  { by exists false, (mkScan [] (leaf sc) (pos sc) (exit sc) (dir sc) (prev_key sc) (sc_done sc)). }
  destruct (descend_near_spec s (dir sc) (child_level f) r mr (f :: below) L'' Hc HL') as (st & es & L3 & -> & H3 & E3 & Hne).
  cbn [rbind]. eexists true, _. split; [done|]. split; [done|]. intros _. cbn [exit dir prev_key sc_done]. split_and!; [done..|].
  unfold fresh. cbn [dir stack leaf pos]. rewrite rest_at_near. split; [|by rewrite orient_nil].
  split; [destruct (dir sc); lia|]. exists L3. split; [done|]. by rewrite rest_at_near.
Qed.

Definition stops sc (r : option (result ProllyError (bytes * bytes)) * Scan) : Prop :=
  r.1 = None /\ sc_done r.2 = true.

Lemma next_loop_advance s sc f :
  take_from_leaf sc = None ->
  next_loop (Datatypes.S f) s sc =
    match advance_leaf s sc with
    | Ok (true, sc) => next_loop f s sc
    | Ok (false, sc) => (None, finished sc)
    | Err e => (Some (Err e), finished sc)
    end.
Proof. cbn [next_loop]. by intros ->. Qed.

(** One entry from a leaf that has one. *)
Lemma next_take s sc L f :
  entered s (dir sc) (stack sc) (leaf sc) (pos sc) L -> ordered (dir sc) L -> sc_done sc = false ->
  (forall p, prev_key sc = Some p -> Forall (fun e => beyond (dir sc) p e.1) L) ->
  rest_at (dir sc) (pos sc) (leaf sc) <> [] ->
  exists e L', L = e :: L' /\
    if within_exit sc e.1
    then exists sc', next_loop (Datatypes.S f) s sc = (Some (Ok e), sc') /\ scan_den s sc' L' /\
           exit sc' = exit sc /\ dir sc' = dir sc
    else stops sc (next_loop (Datatypes.S f) s sc).
Proof.
  intros (Hp & L' & HL & ->) Hord Hd Hprev Hne. cbn [next_loop].
  pose proof (take_from_leaf_spec sc Hp) as Ht. destruct (rest_at (dir sc) (pos sc) (leaf sc)) as [|[k v] es]; [done|].
  destruct Ht as (p & -> & Hes & Hp'). exists (k, v), (es ++ L'). split; [done|]. cbn [fst app map] in *.
  apply StronglySorted_inv in Hord as [Hord Hk].
  assert (forall p, prev_key sc = Some p -> beyond (dir sc) p k) as Hk'.
  { intros q Hq. apply Hprev in Hq. by apply Forall_cons in Hq as [? _]. }
  apply check_monotonic_spec in Hk'.
  replace (within_exit (mkScan _ _ _ _ _ _ _) k) with (within_exit sc k) by done.
  replace (check_monotonic (mkScan _ _ _ _ _ _ _) k) with (check_monotonic sc k) by done.
  destruct (within_exit sc k); cbn [negb]; [|done]. rewrite Hk'.
  eexists. split; [done|]. cbn [exit dir]. split; [|done]. split; [done|].
  cbn [dir stack leaf pos prev_key]. split; [|split; [done|]].
  - split; [done|]. exists L'. by rewrite Hes.
  - intros q [= <-]. by rewrite Forall_map in Hk.
Qed.

Lemma next_den s sc L :
  scan_den s sc L ->
  match L with
  | [] => stops sc (next s sc)
  | e :: L' =>
    if within_exit sc e.1
    then exists sc', next s sc = (Some (Ok e), sc') /\ scan_den s sc' L' /\ exit sc' = exit sc /\ dir sc' = dir sc
    else stops sc (next s sc)
  end.
Proof.
  intros (Hd & He & Hord & Hprev). unfold next. rewrite Hd.
  destruct (rest_at (dir sc) (pos sc) (leaf sc)) as [|x xs] eqn:Er.
  - assert (take_from_leaf sc = None) as Ht.
    { pose proof (take_from_leaf_spec sc (proj1 He)) as Ht. by rewrite Er in Ht. }
    destruct (advance_leaf_spec s sc L He Er) as (b & sc' & Ea & Hf & Hn).
    rewrite (next_loop_advance s sc 1 Ht), Ea. destruct b.
    + destruct (Hn eq_refl) as (E1 & E2 & E3 & E4 & Hfr & Hne).
      destruct (next_take s sc' L 0) as (e & L' & -> & H); [done|by rewrite E2|by rewrite E4|by rewrite E2, E3|done|].
      unfold within_exit in *. rewrite E1, E2 in H. exact H.
    + rewrite (Hf eq_refl). done.
  - destruct (next_take s sc L 1 He Hord Hd Hprev) as (e & L' & -> & H); [by rewrite Er|done].
Qed.
End next.

(** ** Whole scans *)

Section collect.
Context {S : Type} {CS : ChunkStore S}.
Implicit Types (s : S) (sc : Scan) (R : Root).

Lemma keep_stop d b (e : bytes * bytes) m :
  ordered d (e :: m) -> keeps (opposite d) b e.1 = false -> keep (opposite d) b (e :: m) = [].
Proof.
  cbn [map]. intros [_ H]%StronglySorted_inv He. apply keep_none. constructor; [done|]. rewrite Forall_map in H.
  eapply Forall_impl; [exact H|]. intros x Hx. destruct (keeps (opposite d) b x.1) eqn:E; [|done].
  rewrite <-He. symmetry. apply (keeps_beyond (opposite d) b x.1); [|done]. by destruct d.
Qed.

Lemma collect_den s sc L f :
  scan_den s sc L -> length L < f -> collect f s sc = Ok (keep (opposite (dir sc)) (exit sc) L).
Proof.
  revert sc L. induction f as [|f IH]; intros sc L H Hf; [lia|]. cbn [collect].
  pose proof (next_den s sc L H) as Hn. destruct L as [|e L].
  { destruct Hn as [Hn _]. destruct (next s sc) as [o sc']. cbn in Hn. by subst o. }
  rewrite within_exit_keeps in Hn. destruct (keeps (opposite (dir sc)) (exit sc) e.1) eqn:Ek.
  - destruct Hn as (sc' & -> & Hd & E1 & E2). rewrite (IH sc' L Hd) by (cbn in Hf; lia).
    rewrite E1, E2, keep_cons, Ek. done.
  - destruct Hn as [Hn _]. destruct (next s sc) as [o sc']. cbn in Hn. subst o.
    destruct H as (_ & _ & Hord & _). by rewrite keep_stop.
Qed.

(** Any root that denotes sorted entries scans, whatever its chunks' history. *)
Lemma seek_collect s R m entry exit d :
  ref_den s (top_level R) true (pseudo_ref R) m -> sorted m ->
  exists sc, seek s R entry exit d = Ok sc /\
    forall f, length m < f -> collect f s sc = Ok (orient d (keep (opposite d) exit (keep d entry m))).
Proof.
  intros Hr Hs.
  destruct (seek_at_spec s (top_level R) true (pseudo_ref R) m entry [] (mkScan [] [] 0 exit d None false) [] Hr Hs eq_refl eq_refl)
    as (sc & H1 & E1 & E2 & E3 & H). cbn [Scan.exit dir prev_key sc_done stack] in *.
  exists sc. split; [exact H1|]. intros f Hf. destruct H as [(Hd & -> & Hn)|[Hd H]].
  - destruct f as [|f]; [lia|]. cbn [collect]. unfold next. by rewrite Hd, Hn.
  - rewrite app_nil_r in H. erewrite collect_den; [|split; [exact Hd|split; [by rewrite E2|split]]|].
    + by rewrite E1, E2, orient_keep.
    + rewrite E2. apply ordered_orient. by apply keep_sorted.
    + by rewrite E3.
    + apply (Nat.le_lt_trans _ (length m)); [|done]. destruct d; cbn [orient]; rewrite ?length_rev; apply length_filter.
Qed.
End collect.

(** ** The properties *)

(** The keys of a range: at or after the start, at or before the end. *)
Definition in_bounds (lo hi : Bound) (k : bytes) : bool := keeps Forward lo k && keeps Reverse hi k.

(** What a scan hands out before it ends: the entries, and the error it ends at. *)
Fixpoint yielded {S : Type} {CS : ChunkStore S} (n : nat) (s : S) (sc : Scan) : list (result ProllyError (bytes * bytes)) :=
  match n with
  | O => []
  | Datatypes.S n =>
    match next s sc with
    | (Some r, sc) => r :: yielded n s sc
    | (None, sc) => yielded n s sc
    end
  end.

Section scans.
Context {S : Type} {CS : ChunkStore S}.
Implicit Types (s : S) (sc : Scan) (R : Root).

Lemma keep_elem d b m e : e ∈ keep d b m <-> keeps d b e.1 = true /\ e ∈ m.
Proof. unfold keep. by rewrite list_elem_of_filter. Qed.

Lemma contents_pairs m k v : sorted m -> (k, v) ∈ m <-> contents m !! k = Some v.
Proof.
  rewrite contents_lookup. induction m as [|[k' v'] m IH]; cbn [map search_key fst]; intros Hs.
  { split; [intros H; by apply elem_of_nil in H|done]. }
  apply StronglySorted_inv in Hs as [Hs Hk]. rewrite Forall_map in Hk. rewrite elem_of_cons.
  case_bool_decide as E; [subst k'|].
  - split; [intros [[= <-]|H]|intros [= <-]]; [done| |by left]. rewrite Forall_forall in Hk.
    apply Hk in H. exfalso. by apply (irreflexivity bytes_lt k).
  - rewrite <-IH by done. split; [intros [?|H]; [by simplify_eq|done]|by right].
Qed.

(** C34: scans yield the range, forwards and backwards. On the tree of a map,
    for every pair of bounds - inclusive, exclusive or open, in range or not -
    the forward scan opens and ends after exactly the entries of the map within
    the bounds, in ascending key order, and the reverse scan after the same
    entries in descending order. *)
Theorem scan_spec `{!ChunkStoreLaws S} s R M lo hi :
  describes s R M ->
  exists es scf scr, scan s R lo hi = Ok scf /\ scan_rev s R lo hi = Ok scr /\
    (forall f, size M < f -> collect f s scf = Ok es /\ collect f s scr = Ok (rev es)) /\
    StronglySorted bytes_lt (map fst es) /\
    forall k v, (k, v) ∈ es <-> M !! k = Some v /\ in_bounds lo hi k = true.
Proof.
  intros (Hp & m & <- & Ht). pose proof (root_den s R m Hp Ht) as Hd. destruct Ht as (_ & [Hs _] & _).
  destruct (seek_collect s R m lo hi Forward Hd Hs) as (scf & Ef & Hf).
  destruct (seek_collect s R m hi lo Reverse Hd Hs) as (scr & Er & Hr). cbn [orient opposite] in *.
  exists (keep Reverse hi (keep Forward lo m)), scf, scr. split; [done|]. split; [done|].
  split; [|split; [by apply keep_sorted, keep_sorted|]].
  - intros f Hlt. rewrite size_contents in Hlt by done. split; [by apply Hf|]. rewrite Hr by done. do 2 f_equal. apply keep_comm.
  - intros k v. rewrite !keep_elem. cbn [fst]. rewrite (contents_pairs m k v Hs). unfold in_bounds.
    rewrite andb_true_iff. tauto.
Qed.

Lemma next_safe s sc :
  match next s sc with
  | (Some (Ok (k, _)), sc') => within_exit sc k = true /\ (forall p, prev_key sc = Some p -> beyond (dir sc) p k) /\
      prev_key sc' = Some k /\ dir sc' = dir sc /\ exit sc' = exit sc
  | (_, sc') => sc_done sc' = true
  end.
Proof.
  unfold next. destruct (sc_done sc) eqn:Hd; [done|]. revert sc Hd.
  generalize 2. intros f. induction f as [|f IH]; intros sc Hd; [done|]. cbn [next_loop].
  destruct (take_from_leaf sc) as [[[k v] sc1]|] eqn:Et.
  - assert (dir sc1 = dir sc /\ exit sc1 = exit sc /\ prev_key sc1 = prev_key sc) as (E1 & E2 & E3).
    { unfold take_from_leaf in Et. repeat case_match; by simplify_eq. }
    replace (within_exit sc1 k) with (within_exit sc k) by (unfold within_exit; by rewrite E1, E2).
    destruct (within_exit sc k) eqn:Ew; cbn [negb]; [|done].
    destruct (check_monotonic sc1 k) as [[]|e] eqn:Em; [|done].
    rewrite check_monotonic_spec, E1, E3 in Em. cbn [prev_key dir exit]. by rewrite E1, E2, Ew.
  - destruct (advance_leaf s sc) as [[[] sc1]|e] eqn:Ea; [|done..].
    apply advance_leaf_true in Ea as (E1 & E2 & E3 & E4 & _). specialize (IH sc1).
    rewrite E1, E2, E3, E4 in IH. unfold within_exit in *. rewrite E1, E2 in IH. by apply IH.
Qed.

Lemma yielded_done n s sc : sc_done sc = true -> yielded n s sc = [].
Proof.
  intros Hd. induction n as [|n IH]; [done|]. cbn [yielded]. unfold next. by rewrite Hd.
Qed.

(** C35: no store can make a scan misbehave. Whatever the store returns - chunks
    of other trees, in any order, cyclic or corrupt - and from whatever position,
    what a scan hands out is a strictly ordered run of entries (ascending
    forwards, descending in reverse) that never passes the exit bound, then at
    most one error, and after an error or the end nothing more; and no call
    exceeds two rounds of [next]'s loop. *)
Theorem scan_safe s sc n :
  (exists es tail, yielded n s sc = map Ok es ++ tail /\
    (tail = [] \/ exists e, tail = [Err e]) /\
    StronglySorted (beyond (dir sc)) (map fst es) /\
    (forall p, prev_key sc = Some p -> Forall (fun e => beyond (dir sc) p e.1) es) /\
    Forall (fun e => within_exit sc e.1 = true) es) /\
  (forall f, next_loop (2 + f) s sc = next_loop 2 s sc).
Proof.
  split; [|intros f; apply next_loop_two]. revert sc. induction n as [|n IH]; intros sc.
  { exists [], []. cbn. split; [done|]. split; [by left|]. split; [apply SSorted_nil|]. split; intros; apply Forall_nil_2. }
  cbn [yielded]. pose proof (next_safe s sc) as H. destruct (next s sc) as [[[[k v]|e]|] sc'].
  - destruct H as (Hx & Hp & E1 & E2 & E3). destruct (IH sc') as (es & tail & -> & Ht & Hs & Hprev & Hw).
    specialize (Hprev k E1). rewrite E2 in *. exists ((k, v) :: es), tail. split; [done|]. split; [done|].
    cbn [map fst]. split; [apply SSorted_cons; [done|by rewrite Forall_map]|]. split.
    + intros p Hq. constructor; [by apply Hp|]. eapply Forall_impl; [exact Hprev|]. intros x Hx'.
      etrans; [by apply Hp|done].
    + constructor; [done|]. eapply Forall_impl; [exact Hw|]. intros x. unfold within_exit. by rewrite E2, E3.
  - rewrite yielded_done by done. exists [], [Err e]. split; [done|]. split; [right; by exists e|].
    split; [apply SSorted_nil|]. split; intros; apply Forall_nil_2.
  - rewrite yielded_done by done. exists [], []. split; [done|]. split; [by left|].
    split; [apply SSorted_nil|]. split; intros; apply Forall_nil_2.
Qed.
End scans.

Lemma scan_spec_witness :
  exists es scf scr, scan sample_store sample_root (Excluded [x01]) (Included [x04]) = Ok scf /\
    scan_rev sample_store sample_root (Excluded [x01]) (Included [x04]) = Ok scr /\
    (forall f, size (load_map sample_entries) < f ->
      collect f sample_store scf = Ok es /\ collect f sample_store scr = Ok (rev es)) /\
    StronglySorted bytes_lt (map fst es) /\
    forall k v, (k, v) ∈ es <-> load_map sample_entries !! k = Some v /\ in_bounds (Excluded [x01]) (Included [x04]) k = true.
Proof. exact (scan_spec sample_store sample_root _ (Excluded [x01]) (Included [x04]) sample_describes). Defined.

Lemma scan_computed :
  (let? sc := scan sample_store sample_root (Excluded [x01]) (Included [x04]) in collect 6 sample_store sc)
    = Ok [sample_entry 2; sample_entry 3; sample_entry 4].
Proof. vm_compute. reflexivity. Qed.
