(* ===== verification/WalkRun.v ===== *)
(** * The chunk set of a tree is complete

    A frontier loop visits depth first and ends; [collect_reachable_chunks]
    collects exactly the reachable chunks, and those are enough to read the
    map anywhere else. *)
From Stdlib Require Import SpecFloat.
From S2P Require Import Prelude Store Chunker Node Tree TreeSpec TreeNodes TreeRead TreeLevels TreeContent TreeBatch Prolly Diff DiffRun MapDiff Scan ScanRun Walk.

(** ** Frontier loops *)

Section loops.
Context {X St E : Type} (body : X -> St -> result E (list X * St)) (rank : X -> nat).
Context (good : X -> Prop).
Context (Hrank : forall x st pushed st', good x -> body x st = Ok (pushed, st') ->
  Forall (fun y => good y /\ rank y < rank x) pushed).

(** The loop as a recursion on the rank. *)
Fixpoint visits (n : nat) (xs : list X) (st : St) : result E St :=
  match n with
  | O => Ok st
  | Datatypes.S n => foldl (fun m x =>
      let? st := m in let? '(pushed, st) := body x st in visits n (rev pushed) st) (Ok st) xs
  end.

Lemma visits_err n xs e :
  foldl (fun m x => let? st := m in let? '(pushed, st) := body x st in visits n (rev pushed) st) (Err e) xs = Err e.
Proof. by induction xs as [|x xs IH]. Qed.

Lemma visits_nil n st : visits n [] st = Ok st.
Proof. by destruct n. Qed.

Lemma visits_cons n x xs st :
  visits (Datatypes.S n) (x :: xs) st =
  let? '(pushed, st1) := body x st in let? st2 := visits n (rev pushed) st1 in visits (Datatypes.S n) xs st2.
Proof.
  cbn [visits foldl rbind]. destruct (body x st) as [[pushed st1]|e]; cbn [rbind]; [|apply visits_err].
  destruct (visits n (rev pushed) st1) as [st2|e]; cbn [rbind]; [done|apply visits_err].
Qed.

(** With enough fuel for what is on top, the loop goes on with the rest. *)
Lemma while_pop_step n xs st :
  Forall (fun x => good x /\ rank x < n) xs ->
  exists k, forall f rest, while_pop body (k + f) (xs ++ rest) st =
    match visits n xs st with
    | Ok st' => while_pop body f rest st'
    | Err e => Some (Err e)
    end.
Proof.
  revert xs st. induction n as [|n IH]; intros xs st Hx.
  { destruct Hx as [|x xs [_ Hx] _]; [|lia]. by exists 0. }
  revert st. induction Hx as [|x xs [Hg Hr] _ IHx]; intros st; [by exists 0|].
  rewrite visits_cons. destruct (body x st) as [[pushed st1]|e] eqn:Eb; cbn [rbind].
  - destruct (IH (rev pushed) st1) as [k1 H1].
    { apply Forall_rev. eapply Forall_impl; [exact (Hrank x st pushed st1 Hg Eb)|].
      intros y [? ?]. split; [done|lia]. }
    destruct (visits n (rev pushed) st1) as [st2|e]; cbn [rbind].
    + destruct (IHx st2) as [k2 H2]. exists (Datatypes.S (k1 + k2)). intros f rest.
      cbn [Nat.add while_pop app]. rewrite Eb, <-Nat.add_assoc, H1. apply H2.
    + exists (Datatypes.S k1). intros f rest. cbn [Nat.add while_pop app]. rewrite Eb. apply H1.
  - exists 1. intros f rest. cbn [Nat.add while_pop app]. by rewrite Eb.
Qed.

Lemma while_pop_visits n xs st :
  Forall (fun x => good x /\ rank x < n) xs ->
  exists fuel, forall f, fuel <= f -> while_pop body f xs st = Some (visits n xs st).
Proof.
  intros Hx. destruct (while_pop_step n xs st Hx) as [k H]. exists (Datatypes.S k). intros f Hf.
  specialize (H (f - k) []). rewrite app_nil_r in H. replace (k + (f - k)) with f in H by lia. rewrite H.
  destruct (visits n xs st); [|done]. destruct (f - k) eqn:E'; [lia|done].
Qed.
End loops.

(** ** Collecting *)

Section collect.
Context {S : Type} {CS : ChunkStore S}.
Implicit Types (s : S) (it : Reach) (out : gset Hash).

(** [reaches s n h h']: [h'] is a chunk of the tree whose root [h] is at level [n]. *)
Inductive reaches s : nat -> Hash -> Hash -> Prop :=
| reaches_self n h : reaches s n h h
| reaches_child n h refs r h' :
    read_node s h (Datatypes.S n) None None = Ok (Inner refs) -> r ∈ refs -> reaches s n (hash r) h' ->
    reaches s (Datatypes.S n) h h'.

(** The children of a chunk are in the set. *)
Definition expanded s out (h : Hash) : Prop :=
  forall n refs, read_node s h (Datatypes.S n) None None = Ok (Inner refs) -> Forall (fun r => hash r ∈ out) refs.

Definition closed s out : Prop := forall h, h ∈ out -> expanded s out h.

Lemma closed_empty s : closed s ∅.
Proof. intros h H. by apply elem_of_empty in H. Qed.

Lemma expanded_mono s out out' h : out ⊆ out' -> expanded s out h -> expanded s out' h.
Proof. intros Hs H n refs Hr. eapply Forall_impl; [by eapply H|]. intros r. apply Hs. Qed.

Lemma insert_children_spec level refs out pushed out' :
  insert_children level refs out = (pushed, out') ->
  (forall h, h ∈ out' <-> h ∈ out \/ exists r, r ∈ refs /\ hash r = h) /\
  Forall (fun it => exists r, r ∈ refs /\ it = mkReach (hash r) (level - 1) (Some (last_key r))) pushed /\
  (1 < level -> forall h, h ∈ out' -> h ∉ out -> exists it, it ∈ pushed /\ r_hash it = h) /\
  (level <= 1 -> pushed = []).
Proof.
  revert out pushed. induction refs as [|r refs IH]; intros out pushed; cbn [insert_children].
  { intros [= <- <-]. split_and!; [|done|done|done]. intros h. split; [by left|]. intros [H|(r & H & _)]; [done|by apply elem_of_nil in H]. }
  destruct (insert_children level refs ({[hash r]} ∪ out)) as [pushed1 out1] eqn:E. intros [= <- <-].
  destruct (IH _ _ E) as (H1 & H2 & H3 & H4). split; [|split; [|split]].
  - intros h. rewrite H1, elem_of_union, elem_of_singleton. split.
    + intros [[->|H]|(r' & H & <-)]; [right; exists r; split; [by left|done]|by left|right; exists r'; split; [by right|done]].
    + intros [H|(r' & [->|H]%elem_of_cons & <-)]; [by left; right|by left; left|right; by exists r'].
  - assert (Forall (fun it => exists r0, r0 ∈ r :: refs /\ it = mkReach (hash r0) (level - 1) (Some (last_key r0))) pushed1) as H2'.
    { eapply Forall_impl; [exact H2|]. intros it (r' & ? & ?). exists r'. split; [by right|done]. }
    destruct (bool_decide (hash r ∉ out) && (1 <? level)%nat); [|done]. constructor; [|done]. exists r. split; [by left|done].
  - intros Hl h Hin Hout. destruct (decide (h = hash r)) as [->|Hne].
    + rewrite bool_decide_true by done. destruct (Nat.ltb_spec 1 level); [|lia]. cbn [andb].
      eexists. split; [by left|]. done.
    + destruct (H3 Hl h Hin) as (it & Hit & Eh); [rewrite elem_of_union, elem_of_singleton; intros [?|?]; done|].
      exists it. split; [|done]. destruct (_ && _); [by right|done].
  - intros Hl. rewrite (H4 Hl). destruct (Nat.ltb_spec 1 level); [lia|]. by rewrite andb_false_r.
Qed.

Lemma collect_rank s it out pushed out' :
  True -> collect_body s it out = Ok (pushed, out') -> Forall (fun y => True /\ r_level y < r_level it) pushed.
Proof.
  intros _ H. unfold collect_body in H. apply rbind_Ok in H as (node & _ & H). destruct node as [|refs]; [done|].
  apply Ok_inj in H. apply insert_children_spec in H as (_ & H & _ & Hl).
  destruct (decide (r_level it <= 1)) as [Hle|Hgt]; [by rewrite (Hl Hle)|].
  eapply Forall_impl; [exact H|]. intros y (r & _ & ->). cbn. split; [done|lia].
Qed.

(** An element the loop handles, at its place in a tree. *)
Definition at_node s (it : Reach) : Prop :=
  exists n pseudo r m, r_level it = Datatypes.S n /\ r_hash it = hash r /\ claim it = expect_last pseudo r /\
    ref_den s (Datatypes.S n) pseudo r m.

Lemma ref_den_leaf_expanded s out pseudo r m : ref_den s 0 pseudo r m -> expanded s out (hash r).
Proof.
  cbn [ref_den]. intros H n refs Hr. apply read_node_unchecked in H.
  pose proof (read_node_level _ _ _ _ _ _ H Hr). done.
Qed.

Lemma visits_collect s n its out :
  Forall (fun it => at_node s it /\ r_level it < n) its ->
  exists out', visits (collect_body s) n its out = Ok out' /\ out ⊆ out' /\
    (forall h, h ∈ out' -> h ∈ out \/ exists it, it ∈ its /\ reaches s (r_level it) (r_hash it) h) /\
    (forall h, h ∈ out' -> h ∉ out \/ (exists it, it ∈ its /\ r_hash it = h) -> expanded s out' h).
Proof.
  revert its out. induction n as [|n IH]; intros its out Hits.
  { destruct Hits as [|it its [_ Hx] _]; [|lia]. exists out. split_and!; [done|done|by left|].
    intros h Hin [?|(it & H & _)]; [done|by apply elem_of_nil in H]. }
  revert out. induction Hits as [|it its [(l & pseudo & r & m & El & Eh & Ec & Hd) Hlt] _ IHits]; intros out.
  { exists out. split_and!; [done|done|by left|].
    intros h Hin [?|(it & H & _)]; [done|by apply elem_of_nil in H]. }
  rewrite visits_cons. unfold collect_body at 1. rewrite El, Eh, Ec. destruct Hd as (cs & ms & Hr & Hms & _).
  rewrite Hr. cbn [rbind]. destruct (insert_children (Datatypes.S l) cs out) as [pushed out1] eqn:Ei. cbn [rbind].
  apply insert_children_spec in Ei as (H1 & H2 & H3 & H4). cbn [Nat.sub] in H2. rewrite Nat.sub_0_r in H2.
  assert (forall c, c ∈ cs -> exists mc, child_den s l c mc) as Hcs.
  { intros c Hc. apply list_elem_of_lookup in Hc as [i Hi]. destruct (Forall2_lookup_l _ _ _ _ _ Hms Hi) as (mc & _ & Hmc).
    by exists mc. }
  destruct (IH (rev pushed) out1) as (out2 & -> & Hsub2 & Hre2 & Hex2).
  { apply Forall_rev. rewrite Forall_forall in H2 |- *. intros x Hx. destruct (H2 x Hx) as (c & Hc & Ex).
    destruct (Hcs c Hc) as [mc [Hmc _]]. subst x. cbn [r_level].
    destruct l as [|l]; [rewrite H4 in Hx by lia; by apply elem_of_nil in Hx|]. split; [|lia].
    exists l, false, c, mc. by split_and!. }
  cbn [rbind]. destruct (IHits out2) as (out3 & -> & Hsub3 & Hre3 & Hex3). exists out3.
  assert (out ⊆ out1) as Hsub1 by (intros h Hh; apply H1; by left).
  assert (forall c, c ∈ cs -> hash c ∈ out3) as Hkids.
  { intros c Hc. apply Hsub3, Hsub2, H1. right. by exists c. }
  apply read_node_unchecked in Hr.
  split; [done|]. split; [by etrans; [|etrans]|]. split.
  - intros h Hin. destruct (Hre3 h Hin) as [Hin2|(it' & ? & ?)]; [|right; exists it'; split; [by right|done]].
    destruct (Hre2 h Hin2) as [Hin1|(it' & Hp & Hreach)].
    + apply H1 in Hin1 as [?|(c & Hc & <-)]; [by left|]. right. exists it. split; [by left|]. rewrite El, Eh.
      eapply reaches_child; [exact Hr|exact Hc|]. apply reaches_self.
    + right. exists it. split; [by left|]. rewrite El, Eh. rewrite list_elem_of_In, <-in_rev, <-list_elem_of_In in Hp.
      rewrite Forall_forall in H2. destruct (H2 _ Hp) as (c & Hc & ->). by eapply reaches_child.
  - intros h Hin Hor. destruct (decide (h = hash r)) as [->|Hne].
    { intros n' refs' Hr'. pose proof (read_node_level _ _ _ _ _ _ Hr Hr') as En. injection En as <-.
      rewrite Hr in Hr'. apply Ok_inj in Hr' as [= <-]. apply Forall_forall. exact Hkids. }
    destruct (decide (h ∈ out2)) as [Hin2|Hout2]; [|apply Hex3; [done|by left]].
    destruct Hor as [Hout|(it' & [->|Hit]%elem_of_cons & <-)]; [|done|apply Hex3; [done|right; by exists it']].
    apply (expanded_mono s out2); [done|]. destruct (decide (h ∈ out1)) as [Hin1|Hout1].
    + destruct (decide (1 < Datatypes.S l)) as [Hl|Hl].
      * destruct (H3 Hl h Hin1 Hout) as (it' & Hp & <-). apply Hex2; [done|]. right. exists it'. split; [|done].
        by rewrite list_elem_of_In, <-in_rev, <-list_elem_of_In.
      * replace l with 0 in * by lia. apply H1 in Hin1 as [?|(c & Hc & <-)]; [done|].
        destruct (Hcs c Hc) as [mc [Hmc _]]. by eapply ref_den_leaf_expanded.
    + apply Hex2; [done|by left].
Qed.
End collect.

Section anchors.
Context {S : Type} {CS : ChunkStore S}.
Implicit Types (s : S) (R : Root) (out : gset Hash).

Lemma reaches_closed s n h h' out : closed s out -> h ∈ out -> reaches s n h h' -> h' ∈ out.
Proof.
  intros Hc Hin H. induction H as [n h|n h refs r h' Hr Hin' _ IH]; [done|]. apply IH.
  specialize (Hc h Hin n refs Hr). rewrite Forall_forall in Hc. by apply Hc.
Qed.

(** The walk on the tree of a root. *)
Lemma collect_chunks_den s R m out :
  ref_den s (top_level R) true (pseudo_ref R) m -> closed s out ->
  exists out', (exists fuel, forall f, fuel <= f -> collect_reachable_chunks f s R out = Some (Ok out')) /\
    closed s out' /\ forall h, h ∈ out' <-> h ∈ out \/ reaches s (top_level R) (root_hash R) h.
Proof.
  intros Hd Hc. unfold collect_reachable_chunks. destruct (decide (root_hash R ∈ out)) as [Hin|Hout].
  { exists out. rewrite bool_decide_true by done. split; [by exists 0|]. split; [done|].
    intros h. split; [by left|]. intros [?|H]; [done|]. by eapply reaches_closed. }
  rewrite bool_decide_false by done.
  set (its := if (0 <? top_level R)%nat then [mkReach (root_hash R) (top_level R) None] else []).
  assert (Forall (fun it => at_node s it /\ r_level it < Datatypes.S (top_level R)) its) as Hits.
  { subst its. destruct (Nat.ltb_spec 0 (top_level R)); [|done]. constructor; [|done]. cbn. split; [|lia].
    destruct (top_level R) as [|n] eqn:El; [lia|]. by exists n, true, (pseudo_ref R), m. }
  destruct (visits_collect s _ its ({[root_hash R]} ∪ out) Hits) as (out' & Hv & Hsub & Hre & Hex).
  destruct (while_pop_visits (collect_body s) r_level (fun _ => True) (fun x st p st' _ => collect_rank s x st p st' I)
    (Datatypes.S (top_level R)) its ({[root_hash R]} ∪ out)) as [fuel Hf].
  { eapply Forall_impl; [exact Hits|]. by intros it [_ ?]. }
  assert (closed s out') as Hc'.
  { intros h Hin. destruct (decide (h = root_hash R)) as [->|Hne].
    - subst its. destruct (Nat.ltb_spec 0 (top_level R)).
      + apply Hex; [done|]. right. eexists. split; [by left|done].
      + replace (top_level R) with 0 in * by lia. by apply (ref_den_leaf_expanded s out' true (pseudo_ref R) m).
    - destruct (decide (h ∈ out)) as [Ho|Ho].
      + apply (expanded_mono s out); [|by apply Hc]. intros x Hx. apply Hsub. by apply elem_of_union_r.
      + apply Hex; [done|]. left. rewrite elem_of_union, elem_of_singleton. by intros [?|?]. }
  exists out'. split; [|split; [done|]].
  { exists fuel. intros f Hle. rewrite Hf by done. by rewrite Hv. }
  intros h. split.
  - intros Hin. destruct (Hre h Hin) as [[->%elem_of_singleton|?]%elem_of_union|(it & Hit & H)]; [right; apply reaches_self|by left|].
    right. subst its. destruct (0 <? top_level R)%nat; [|by apply elem_of_nil in Hit].
    apply list_elem_of_singleton in Hit as ->. done.
  - intros [Hin|H].
    + apply Hsub. by apply elem_of_union_r.
    + eapply reaches_closed; [done| |exact H]. apply Hsub, elem_of_union_l. by apply elem_of_singleton.
Qed.
End anchors.

(** ** The reachable chunks are the map *)

Section copies.
Context {S : Type} {CS : ChunkStore S} {CSL : ChunkStoreLaws S}.
Implicit Types (s : S) (R : Root).

Abbreviation addr := (@address S CS CSL).

Lemma stored_reaches p s s' fin n cs :
  params_ok p = true -> n < MAX_HEIGHT -> tree_ok addr p s fin (Datatypes.S n) (Nd cs) ->
  (forall h d, reaches s n (hash (nd_ref addr cs)) h -> holds s h d -> holds s' h d) ->
  stored addr s' (Datatypes.S n) (Nd cs).
Proof.
  intros Hp. revert fin cs. induction n as [|n IH]; intros fin cs Hn Ht Hre.
  all: pose proof Ht as ((Hu & Hst & _) & _); cbn [stored] in Hst |- *; destruct Hst as [Hh Hst].
  all: (split; [apply Hre; [apply reaches_self|done]|]).
  - destruct Hu as [_ Hu]. eapply Forall_impl; [exact Hu|]. intros t Ht'. by apply uniform_Kv in Ht' as (k & v & ->).
  - assert (read_node s (hash (nd_ref addr cs)) (Datatypes.S n) None None = Ok (to_node addr (Datatypes.S n) cs)) as Hr.
    { apply (read_node_tree addr p Hp s fin); [unfold MAX_HEIGHT in *; lia|done|by left|done]. }
    destruct (tree_ok_kids addr p s fin (Datatypes.S n) cs Ht) as (_ & Hel & Hkids).
    apply Forall_forall. intros c Hc.
    assert (exists b, tree_ok addr p s b (Datatypes.S n) c) as [b Hcw].
    { clear -Hc Hkids. induction cs as [|c' cs IHcs]; [by apply elem_of_nil in Hc|].
      destruct cs as [|c2 cs]; [apply list_elem_of_singleton in Hc as ->; by exists fin|].
      destruct Hkids as [H1 H2]. apply elem_of_cons in Hc as [->|Hc]; [by exists false|by apply IHcs]. }
    pose proof Hcw as ((Hu' & _) & _). apply uniform_Nd in Hu' as (ds & -> & _ & _).
    apply (IH b ds); [lia|done|]. intros h d Hreach. apply Hre.
    eapply reaches_child; [exact Hr| |exact Hreach].
    apply (list_elem_of_fmap_2 (fun t => nd_ref addr (kids t)) cs (Nd ds) Hc).
Qed.

Lemma is_tree_reaches s s' R m :
  params_ok (params R) = true -> is_tree (params R) s R m ->
  (forall h d, reaches s (top_level R) (root_hash R) h -> holds s h d -> holds s' h d) ->
  is_tree (params R) s' R m.
Proof.
  intros Hp Ht Hre. pose proof Ht as (H1 & H2 & H3 & H). split; [done|]. split; [done|]. split; [done|].
  destruct m as [|e m].
  - destruct H as (E1 & E2 & E3). split; [done|]. split; [done|]. apply Hre; [apply reaches_self|done].
  - destruct H as (t & Et & Eh & Hs). exists t. split; [done|]. split; [done|].
    destruct (nodes_tree addr (params R) (height R) (e :: m) t ltac:(done) Et) as (Hu & Hw & Hl).
    unfold top_level in Hre. destruct (height R) as [|h] eqn:Eht; [lia|]. cbn [Nat.sub] in Hre. rewrite Nat.sub_0_r in Hre.
    pose proof Hu as Hu'. apply uniform_Nd in Hu' as (cs & -> & _ & _). cbn [kids] in Eh. rewrite Eh in Hre.
    apply (stored_reaches (params R) s s' true h cs); [done|lia| |done].
    split; [|done]. split; [done|]. split; [done|by rewrite Hl].
Qed.
End copies.

Section properties.
Context {S : Type} {CS : ChunkStore S} {CSL : ChunkStoreLaws S}.
Implicit Types (s : S) (R : Root) (out : gset Hash).

Lemma collect_chunks_spec s R M out :
  describes s R M -> closed s out ->
  exists out', (exists fuel, forall f, fuel <= f -> collect_reachable_chunks f s R out = Some (Ok out')) /\
    closed s out' /\ (forall h, h ∈ out' <-> h ∈ out \/ reaches s (top_level R) (root_hash R) h) /\
    forall s', (forall h d, h ∈ out' -> holds s h d -> holds s' h d) -> describes s' R M.
Proof.
  intros (Hp & m & <- & Ht) Hc. destruct (collect_chunks_den s R m out (root_den s R m Hp Ht) Hc) as (out' & Hf & Hc' & Hin).
  exists out'. split; [done|]. split; [done|]. split; [done|]. intros s' Hs'. split; [done|]. exists m. split; [done|].
  apply (is_tree_reaches s s' R m Hp Ht). intros h d Hr. apply Hs', Hin. by right.
Qed.

(** C36: a commit's anchors are its maps' chunks, all of them and no more.
    From an accumulator that is closed - the chunks earlier walks collected -
    the walk of a map's root ends, reading the tree without error; it adds
    exactly the chunks reachable from the root and leaves the accumulator
    closed for the next walk. Any store that holds the collected chunks,
    whatever else it lost, still holds the map. *)
Theorem anchors_complete s R M out :
  describes s R M -> closed s out ->
  exists out', (exists fuel, forall f, fuel <= f -> collect_reachable_chunks f s R out = Some (Ok out')) /\
    closed s out' /\ (forall h, h ∈ out' <-> h ∈ out \/ reaches s (top_level R) (root_hash R) h) /\
    forall s', (forall h d, h ∈ out' -> holds s h d -> holds s' h d) -> describes s' R M.
Proof. apply collect_chunks_spec. Qed.

End properties.

(** ** Sampling *)

Lemma spread_spec len want :
  Forall (fun i => i < len) (spread len want) /\ length (spread len want) = Nat.min len (Nat.max want 1).
Proof.
  unfold spread. destruct (Nat.leb_spec len (Nat.max want 1)).
  - rewrite length_seq. split; [|lia]. apply Forall_forall. intros i Hi%elem_of_seq. lia.
  - rewrite length_map, length_seq. split; [|lia]. apply Forall_map, Forall_forall. intros i Hi%elem_of_seq. cbn.
    apply Nat.Div0.div_lt_upper_bound. nia.
Qed.

(** Every index the sampling asks for is there: no child is silently dropped. *)
Lemma sampled_children_length refs want :
  length (sampled_children refs (spread (length refs) want)) = length (spread (length refs) want).
Proof.
  unfold sampled_children. destruct (spread_spec (length refs) want) as [H _].
  induction H as [|i idxs Hi _ IH]; [done|]. cbn [omap list_omap].
  destruct (lookup_lt_is_Some_2 refs i Hi) as [r ->]. cbn. by f_equal.
Qed.

(** An estimate is a [usize]; a shape past the range of binary64 is refused. *)
Lemma f64_as_usize_bounds f : (0 <= f64_as_usize f <= USIZE_MAX)%Z.
Proof.
  assert (0 <= USIZE_MAX)%Z as H by done.
  destruct f as [[]|[]| |[] m e]; cbn [f64_as_usize]; try by split.
  split; [|apply Z.le_min_l]. apply Z.min_glb; [done|]. by apply Z.shiftl_nonneg.
Qed.

Lemma infinite_estimate_refused : is_ok (finite_estimate (S754_infinity false) (f64_of_usize 8)) = false.
Proof. reflexivity. Qed.

Lemma anchors_complete_witness :
  exists out', (exists fuel, forall f, fuel <= f -> collect_reachable_chunks f sample_store sample_root ∅ = Some (Ok out')) /\
    closed sample_store out' /\
    (forall h, h ∈ out' <-> h ∈ (∅ : gset Hash) \/ reaches sample_store (top_level sample_root) (root_hash sample_root) h) /\
    forall s', (forall h d, h ∈ out' -> holds sample_store h d -> holds s' h d) ->
      describes s' sample_root (load_map sample_entries).
Proof. exact (anchors_complete sample_store sample_root _ ∅ sample_describes (closed_empty sample_store)). Defined.

Lemma estimate_computed :
  match collect_reachable_chunks 20 sample_store sample_root ∅ with Some (Ok set) => size set = 6 | _ => False end /\
  estimate_entries sample_store sample_root = Ok 5%Z.
Proof. vm_compute. by split. Qed.
