(* ===== verification/Verify.v ===== *)
(** * The integrity walk (crates/acetone-prolly/src/verify.rs)

    Reads every chunk of a tree and lists the faults.  The text of a fault is
    the data it is made of: [FaultReason]. *)
From S2P Require Import Prelude Store Chunker Node Tree Walk.

Inductive ChunkFaultKind : Type := Missing | CorruptChunk.

Inductive FaultReason : Type :=
| Undecodable (e : ProllyError)
| Absent
| Unreturned (e : StoreError)
| WrongLevel (level required : nat)
| WrongEnd
| BelowPosition.

Record ChunkFault : Type := mkChunkFault { fault_hash : Hash; fault_kind : ChunkFaultKind; reason : FaultReason }.

Record Reference : Type := mkReference {
  ref_hash : Hash; ref_level : nat; ref_last : option bytes; ref_min : option bytes }.

Record InnerNode : Type := mkInnerNode { in_level : nat; children : list (bytes * Hash) }.

(** The walk's accumulators. *)
Record Walk : Type := mkWalk { faults : list ChunkFault; inner_cache : gmap Hash InnerNode; reported : gset Hash }.

Definition position_fault (level : nat) (first_key last_key : option bytes) (r : Reference) : option FaultReason :=
  if negb (level =? ref_level r)%nat then Some (WrongLevel level (ref_level r))
  else if match ref_last r with
          | Some want => negb (bool_decide (last_key = Some want))
          | None => false
          end
  then Some WrongEnd
  else if match ref_min r, first_key with
          | Some min, Some first => bytes_leb first min
          | _, _ => false
          end
  then Some BelowPosition
  else None.

Definition push_fault (f : ChunkFault) (w : Walk) : Walk := mkWalk (faults w ++ [f]) (inner_cache w) (reported w).

(** [if reported.insert(hash) { faults.push(..) }] *)
Definition report_once (f : ChunkFault) (w : Walk) : Walk :=
  if bool_decide (fault_hash f ∈ reported w) then w
  else mkWalk (faults w ++ [f]) (inner_cache w) ({[fault_hash f]} ∪ reported w).

(** The references to a node's children, the first one inheriting the bound. *)
Fixpoint child_references (child_level : nat) (prev : option bytes) (children : list (bytes * Hash)) : list Reference :=
  match children with
  | [] => []
  | (last_key, h) :: children =>
    mkReference h child_level (Some last_key) prev :: child_references child_level (Some last_key) children
  end.

Section verify.
Context {S : Type} {CS : ChunkStore S}.

Definition verify_body (store : S) (r : Reference) (w : Walk) : result Empty_set (list Reference * Walk) :=
  match inner_cache w !! ref_hash r with
  | Some inner =>
    let first := option_map fst (head (children inner)) in
    let last := option_map fst (last (children inner)) in
    match position_fault (in_level inner) first last r with
    | Some reason => Ok ([], push_fault (mkChunkFault (ref_hash r) CorruptChunk reason) w)
    | None => Ok ([], w)
    end
  | None =>
    match Store.get store (ref_hash r) with
    | Err err => Ok ([], report_once (mkChunkFault (ref_hash r) CorruptChunk (Unreturned err)) w)
    | Ok None => Ok ([], report_once (mkChunkFault (ref_hash r) Missing Absent) w)
    | Ok (Some bytes) =>
      match decode_node_self bytes with
      | Err err => Ok ([], report_once (mkChunkFault (ref_hash r) CorruptChunk (Undecodable err)) w)
      | Ok (level, node) =>
        match position_fault level (node_first_key node) (node_last_key node) r with
        | Some reason => Ok ([], push_fault (mkChunkFault (ref_hash r) CorruptChunk reason) w)
        | None =>
          match node with
          | Leaf _ => Ok ([], w)
          | Inner refs =>
            let children := map (fun c => (last_key c, hash c)) refs in
            Ok (child_references (level - 1) (ref_min r) children,
              mkWalk (faults w) (<[ref_hash r := mkInnerNode level children]> (inner_cache w)) (reported w))
          end
        end
      end
    end
  end.

(** [None] when the fuel runs out. *)
Definition verify_reachable (fuel : nat) (store : S) (root : Root) : option (list ChunkFault) :=
  match while_pop (verify_body store) fuel [mkReference (root_hash root) (top_level root) None None] (mkWalk [] ∅ ∅) with
  | Some (Ok w) => Some (faults w)
  | Some (Err e) => match e with end
  | None => None
  end.
End verify.
