(* ===== verification/VerifyRun.v ===== *)
(** * The integrity walk is exact

    On any store at all the walk ends, and it finds no fault exactly when the
    root denotes a sorted map that every read sees. *)
From S2P Require Import Prelude Store Chunker Node Tree TreeSpec TreeNodes TreeRead TreeLevels TreeContent TreeBatch Prolly Diff DiffRun MapDiff Scan ScanRun Walk WalkRun Verify.

Section walk.
Context {S : Type} {CS : ChunkStore S}.
Implicit Types (s : S) (r : Reference) (w : Walk) (R : Root).

(** ** References *)

Definition node_ref r : NodeRef := mkRef (default [] (ref_last r)) (ref_hash r).
Definition is_pseudo r : bool := match ref_last r with None => true | Some _ => false end.

Lemma expect_ref_last r : expect_last (is_pseudo r) (node_ref r) = ref_last r.
Proof. unfold is_pseudo, node_ref. by destruct (ref_last r). Qed.

(** Keys above a reference's lower bound. *)
Definition above (b : option bytes) (m : kvs) : Prop := forall k, b = Some k -> Forall (fun e => bytes_lt k e.1) m.

(** What a reference denotes: sorted entries, above its bound, up to its claim. *)
Definition ref_ok s r (m : kvs) : Prop :=
  ref_den s (ref_level r) (is_pseudo r) (node_ref r) m /\ sorted m /\ above (ref_min r) m /\
  (is_pseudo r = false -> ends_at (node_ref r) m).

Lemma position_fault_None level first lst r :
  position_fault level first lst r = None <->
  level = ref_level r /\ (forall k, ref_last r = Some k -> lst = Some k) /\
  (forall b k, ref_min r = Some b -> first = Some k -> bytes_lt b k).
Proof.
  unfold position_fault. destruct (Nat.eqb_spec level (ref_level r)) as [E|E]; cbn [negb]; [|by split; [|intros [? _]]].
  destruct (ref_last r) as [want|].
  - case_bool_decide as El; cbn [negb]; [|split; [done|intros (_ & H & _); by specialize (H want eq_refl)]].
    destruct (ref_min r) as [b|], first as [k|]; try (split; [|done]; intros _; split; [done|]; split; [by intros ? [= <-]|done]).
    destruct (bytes_leb k b) eqn:Eb; split; try done.
    + intros (_ & _ & H). specialize (H b k eq_refl eq_refl). apply bytes_leb_le in Eb. exfalso. by eapply bytes_lt_not_le.
    + intros _. split; [done|]. split; [by intros ? [= <-]|]. intros ? ? [= <-] [= <-]. by apply bytes_leb_gt.
  - destruct (ref_min r) as [b|], first as [k|]; try (by split).
    destruct (bytes_leb k b) eqn:Eb; split; try done.
    + intros (_ & _ & H). specialize (H b k eq_refl eq_refl). apply bytes_leb_le in Eb. exfalso. by eapply bytes_lt_not_le.
    + intros _. split; [done|]. split; [done|]. intros ? ? [= <-] [= <-]. by apply bytes_leb_gt.
Qed.

(** ** Decoding a chunk on its own *)

Lemma decode_self_Ok data level node :
  decode_node_self data = Ok (level, node) <-> decode_node data level = Ok node.
Proof.
  unfold decode_node_self. destruct data as [|b data].
  - split; [done|]. unfold decode_node. cbn. done.
  - split.
    + intros H. apply rbind_Ok in H as (n & H & E). by apply Ok_inj in E as [= <- ->].
    + intros H. assert (level = Z.to_nat (b2z b)) as ->.
      { unfold decode_node in H. rewrite take_u8_cons in H. cbn [rbind] in H.
        destruct (Z.eqb_spec (b2z b) (Z.of_nat level)) as [E|]; [|done]. lia. }
      by rewrite H.
Qed.

Lemma decode_node_level data level node : decode_node data level = Ok node -> level < 256.
Proof.
  unfold decode_node. destruct data as [|b data]; [done|]. rewrite take_u8_cons. cbn [rbind].
  destruct (Z.eqb_spec (b2z b) (Z.of_nat level)) as [E|]; [|done]. pose proof (b2z_range b). lia.
Qed.

Lemma sorted_ascending prev ks :
  ascending prev ks = true -> StronglySorted bytes_lt ks /\ forall p, prev = Some p -> Forall (bytes_lt p) ks.
Proof.
  revert prev. induction ks as [|k ks IH]; intros prev; cbn [ascending]; [intros _; split; [apply SSorted_nil|by intros]|].
  rewrite andb_true_iff. intros [Hp H]. destruct (IH _ H) as [Hs Hk]. specialize (Hk k eq_refl). split; [by apply SSorted_cons|].
  intros p ->. cbn [ascends] in Hp. rewrite negb_true_iff, bytes_leb_gt in Hp. constructor; [done|].
  eapply Forall_impl; [exact Hk|]. intros x Hx. by etrans.
Qed.

Lemma decode_node_shape data level node :
  decode_node data level = Ok node ->
  StronglySorted bytes_lt (node_keys node) /\
  match node with Leaf _ => level = 0 | Inner refs => 1 <= level /\ refs <> [] end.
Proof.
  intros H. pose proof (decode_node_level _ _ _ H) as Hl. apply decode_node_Ok in H as (H & _); [|done].
  unfold node_fits in H. rewrite !andb_true_iff in H. destruct H as [[H1 H2] _]. split; [by apply (sorted_ascending None)|].
  destruct node as [es|refs].
  - by apply Nat.eqb_eq.
  - rewrite andb_true_iff, !negb_true_iff, !Nat.eqb_neq in H1. destruct H1 as [Hne Hr]. split; [lia|].
    intros ->. by cbn in Hr.
Qed.

(** What a clean visit read. *)
Lemma read_decoded s r data node :
  Store.get s (ref_hash r) = Ok (Some data) -> decode_node data (ref_level r) = Ok node ->
  (forall k, ref_last r = Some k -> node_last_key node = Some k) ->
  read_node s (ref_hash r) (ref_level r) (ref_last r) None = Ok node.
Proof.
  intros Hg Hd Hk. unfold read_node. rewrite Hg. cbn [map_err rbind]. rewrite Hd. cbn [rbind].
  destruct (ref_last r) as [k|]; [|done]. by rewrite bool_decide_true by (by apply Hk).
Qed.

(** ** Clean walks are sound *)

(** A reference a cached node cannot stand for. *)
Definition blocked (inner : InnerNode) r : Prop :=
  ref_level r < in_level inner \/
  exists l f, ref_last r = Some l /\ head (children inner) = Some f /\ bytes_lt l f.1.

(** [y] lies below [r]: it is visited after it. *)
Definition below_ref r y : Prop :=
  exists l b, ref_last y = Some l /\ ref_min r = Some b /\ bytes_le l b.

Definition clean w (frontier : list Reference) : Prop :=
  reported w = ∅ /\ StronglySorted below_ref frontier /\
  forall h inner, inner_cache w !! h = Some inner ->
    (exists f e, head (children inner) = Some f /\ last (children inner) = Some e /\ bytes_le f.1 e.1) /\
    Forall (blocked inner) frontier.

Definition children_of (refs : list NodeRef) : list (bytes * Hash) := map (fun c => (last_key c, hash c)) refs.

Lemma child_references_level lv prev cs : Forall (fun r => ref_level r = lv) (child_references lv prev cs).
Proof. revert prev. induction cs as [|[k h] cs IH]; intros prev; [done|]. constructor; [done|apply IH]. Qed.

Lemma faults_kept s r w pushed w' : verify_body s r w = Ok (pushed, w') -> faults w' = [] -> faults w = [] /\ (reported w = ∅ -> reported w' = ∅).
Proof.
  assert (forall f, faults (push_fault f w) = [] -> False) as Hpush.
  { intros f H. cbn in H. by apply app_nil in H as [_ H]. }
  assert (forall f, faults (report_once f w) = [] -> faults w = [] /\ (reported w = ∅ -> reported (report_once f w) = ∅)) as Hrep.
  { intros f. unfold report_once. case_bool_decide; [done|]. intros H'. cbn in H'. by apply app_nil in H' as [_ ?]. }
  unfold verify_body. intros H. repeat case_match; apply Ok_inj in H as [= <- <-]; intros Hf;
    first [done | by apply Hrep | by apply Hpush in Hf].
Qed.

Lemma blocked_faults inner r f e :
  blocked inner r -> head (children inner) = Some f -> last (children inner) = Some e -> bytes_le f.1 e.1 ->
  position_fault (in_level inner) (option_map fst (head (children inner))) (option_map fst (last (children inner))) r <> None.
Proof.
  intros Hb Hf He Hle H. apply position_fault_None in H as (El & Hl & _). destruct Hb as [?|(l & f' & E1 & E2 & Hlt)]; [lia|].
  rewrite Hf in E2. injection E2 as <-. specialize (Hl l E1). rewrite He in Hl. cbn in Hl. injection Hl as Hl.
  apply bytes_lt_not_le in Hlt. by rewrite Hl in Hle.
Qed.

Lemma sorted_last_le ks e : StronglySorted bytes_lt ks -> last ks = Some e -> Forall (fun k => bytes_le k e) ks.
Proof.
  intros Hs He. destruct ks as [|k ks] using rev_ind; [done|]. clear IHks. rewrite last_snoc in He. injection He as ->.
  apply StronglySorted_app in Hs as (H & _ & _). apply Forall_app. split; [|constructor; [apply bytes_le_refl|done]].
  apply Forall_forall. intros x Hx. apply bytes_lt_le, H; [done|]. by apply list_elem_of_singleton.
Qed.

Lemma child_references_sorted lv prev cs rest :
  StronglySorted bytes_lt (map fst cs) -> (forall b k, prev = Some b -> head (map fst cs) = Some k -> bytes_lt b k) ->
  StronglySorted below_ref rest ->
  Forall (fun y => exists l b, ref_last y = Some l /\ prev = Some b /\ bytes_le l b) rest ->
  StronglySorted below_ref (rev (child_references lv prev cs) ++ rest).
Proof.
  revert prev rest. induction cs as [|[k h] cs IH]; intros prev rest Hs Hp Hr Hb; [done|].
  cbn [child_references rev map fst] in *. apply StronglySorted_inv in Hs as [Hs Hk]. rewrite <-app_assoc. cbn [app].
  apply IH; [done| | |].
  - intros b k' [= <-] Hk'. destruct cs as [|[k2 h2] cs]; [done|]. cbn in Hk'. injection Hk' as <-.
    by apply Forall_cons in Hk as [? _].
  - apply SSorted_cons; done.
  - constructor; [by exists k, k|]. eapply Forall_impl; [exact Hb|]. intros y (l & b & E1 & E2 & Hle).
    exists l, k. split; [done|]. split; [done|]. apply bytes_lt_le. eapply bytes_le_lt_trans; [exact Hle|]. by apply (Hp b k).
Qed.

Lemma child_references_last lv prev cs e :
  StronglySorted bytes_lt (map fst cs) -> last (map fst cs) = Some e ->
  Forall (fun r => exists l, ref_last r = Some l /\ bytes_le l e) (child_references lv prev cs).
Proof.
  intros Hs He. pose proof (sorted_last_le _ _ Hs He) as H. clear Hs He. revert prev.
  induction cs as [|[k h] cs IH]; intros prev; [done|]. cbn [map fst child_references] in *.
  apply Forall_cons in H as [H1 H2]. constructor; [by exists k|by apply IH].
Qed.

Lemma children_keys refs : map fst (children_of refs) = map last_key refs.
Proof. unfold children_of. by rewrite map_map. Qed.

(** One clean visit: what it read, and what is left to visit. *)
Lemma clean_body s r w pushed w' rest :
  verify_body s r w = Ok (pushed, w') -> faults w' = [] -> clean w (r :: rest) ->
  clean w' (rev pushed ++ rest) /\
  exists node, read_node s (ref_hash r) (ref_level r) (ref_last r) None = Ok node /\
    StronglySorted bytes_lt (node_keys node) /\
    (forall b k, ref_min r = Some b -> node_first_key node = Some k -> bytes_lt b k) /\
    match node with
    | Leaf _ => ref_level r = 0 /\ pushed = []
    | Inner refs => 1 <= ref_level r /\ refs <> [] /\
        pushed = child_references (ref_level r - 1) (ref_min r) (children_of refs)
    end.
Proof.
  intros H Hf (Hrep & Hs & Hcache). destruct (faults_kept _ _ _ _ _ H Hf) as [Hfw Hrep']. specialize (Hrep' Hrep).
  apply StronglySorted_inv in Hs as [Hs Hr]. unfold verify_body in H.
  destruct (inner_cache w !! ref_hash r) as [inner|] eqn:Ec.
  { destruct (Hcache _ _ Ec) as [(f & e & E1 & E2 & Hle) Hb]. apply Forall_cons in Hb as [Hb _].
    pose proof (blocked_faults inner r f e Hb E1 E2 Hle) as Hn. destruct (position_fault _ _ _ r); [|done].
    apply Ok_inj in H as [= <- <-]. cbn in Hf. by apply app_nil in Hf as [_ ?]. }
  assert (forall f, faults (report_once f w) <> []) as Hrf.
  { intros f. unfold report_once. rewrite bool_decide_false by (rewrite Hrep; by apply not_elem_of_empty). cbn.
    intros E. by apply app_nil in E as [_ ?]. }
  destruct (Store.get s (ref_hash r)) as [[data|]|err] eqn:Eg; [|apply Ok_inj in H as [= _ <-]; by apply Hrf in Hf..].
  destruct (decode_node_self data) as [[level node]|err] eqn:Ed; [|apply Ok_inj in H as [= _ <-]; by apply Hrf in Hf].
  apply decode_self_Ok in Ed. destruct (position_fault level (node_first_key node) (node_last_key node) r) as [x|] eqn:Ep.
  { apply Ok_inj in H as [= _ <-]. cbn in Hf. by apply app_nil in Hf as [_ ?]. }
  apply position_fault_None in Ep as (-> & Hlast & Hmin). destruct (decode_node_shape _ _ _ Ed) as [Hkeys Hshape].
  pose proof (read_decoded s r data node Eg Ed Hlast) as Hread.
  destruct node as [es|refs].
  - apply Ok_inj in H as [= <- <-]. split; [|by exists (Leaf es)]. split; [done|]. split; [done|].
    intros h inner Hi. destruct (Hcache h inner Hi) as [? Hb]. apply Forall_cons in Hb as [_ Hb]. done.
  - apply Ok_inj in H as [= <- <-]. fold (children_of refs). destruct Hshape as [Hl Hne].
    split; [|by exists (Inner refs)]. cbn [node_keys node_first_key node_last_key] in *. rewrite <-children_keys in Hkeys.
    destruct (exists_last Hne) as (refs' & e & Er). assert (last refs = Some e) as He by (by rewrite Er, last_snoc).
    destruct (head refs) as [f|] eqn:Ef; [|by destruct refs]. cbn [option_map] in *. rewrite He in Hlast. cbn [option_map] in Hlast.
    assert (head (children_of refs) = Some (last_key f, hash f)) as Hf1 by (destruct refs; [done|by injection Ef as ->]).
    assert (last (children_of refs) = Some (last_key e, hash e)) as He1.
    { unfold children_of. rewrite Er, map_app; cbn [map]; by rewrite last_snoc. }
    assert (last (map fst (children_of refs)) = Some (last_key e)) as He2.
    { rewrite children_keys, Er, map_app; cbn [map]; by rewrite last_snoc. }
    split; [done|]. split.
    { apply child_references_sorted; [done| |done|].
      - intros b k Eb Ek. apply (Hmin b k Eb). rewrite <-Ek. destruct refs; [done|by injection Ef as ->].
      - eapply Forall_impl; [exact Hr|]. intros y (l & b & ? & ? & ?). by exists l, b. }
    intros h inner. cbn [inner_cache]. rewrite lookup_insert_Some. intros [[<- <-]|[Hne' Hi]]; cbn [children in_level].
    + split.
      * exists (last_key f, hash f), (last_key e, hash e). split; [done|]. split; [done|]. cbn [fst].
        pose proof (sorted_last_le _ _ Hkeys He2) as Hle. rewrite Forall_forall in Hle. apply Hle.
        rewrite children_keys. apply list_elem_of_fmap_2. destruct refs; [done|]. injection Ef as ->. by left.
      * apply Forall_app. split.
        -- apply Forall_rev. eapply Forall_impl; [apply child_references_level|]. intros c Hc. left. cbn in Hc |- *. lia.
        -- eapply Forall_impl; [exact Hr|]. intros y (l & b & E1 & E2 & Hle). right.
           exists l, (last_key f, hash f). split; [done|]. split; [done|]. cbn [fst].
           eapply bytes_le_lt_trans; [exact Hle|]. by apply (Hmin b).
    + destruct (Hcache h inner Hi) as [Hends Hb]. split; [done|]. apply Forall_cons in Hb as [Hbr Hb].
      apply Forall_app. split; [|done]. apply Forall_rev. destruct Hbr as [Hlt|(l & f' & E1 & E2 & Hlt)].
      * eapply Forall_impl; [apply child_references_level|]. intros c Hc. left. cbn in Hc. lia.
      * eapply Forall_impl; [apply (child_references_last _ _ _ _ Hkeys He2)|]. intros c (lc & Ec' & Hle). right.
        exists lc, f'. split; [done|]. split; [done|]. eapply bytes_le_lt_trans; [exact Hle|].
        specialize (Hlast l E1). by injection Hlast as ->.
Qed.

(** ** What clean visits denote *)

Lemma ends_last (r : NodeRef) m (k : bytes) : ends_at r m -> last_key r = k -> exists l v, m = l ++ [(k, v)].
Proof.
  intros [Hne He] <-. destruct (exists_last Hne) as (l & [k' v] & ->). exists l, v.
  unfold pairs_last in He. rewrite last_snoc in He. by rewrite <-He.
Qed.

Lemma above_last prev (r : NodeRef) m m' :
  ends_at r m -> above (Some (last_key r)) m' -> above prev m -> sorted m -> above prev (m ++ m').
Proof.
  intros He Hm' Hm Hs k ->. specialize (Hm k eq_refl). specialize (Hm' _ eq_refl). apply Forall_app. split; [done|].
  destruct (ends_last r m _ He eq_refl) as (l & v & ->). apply Forall_app in Hm as [_ Hm]. apply Forall_cons in Hm as [Hlt _].
  eapply Forall_impl; [exact Hm'|]. intros x Hx. cbn in *. by etrans.
Qed.

Lemma sorted_joined (r : NodeRef) m m' :
  ends_at r m -> above (Some (last_key r)) m' -> sorted m -> sorted m' -> sorted (m ++ m').
Proof.
  intros He Hm' Hs Hs'. specialize (Hm' _ eq_refl). rewrite map_app. apply StronglySorted_app. split; [|done].
  intros x y Hx Hy. apply list_elem_of_fmap in Hx as ([x1 x2] & -> & Hx), Hy as ([y1 y2] & -> & Hy). cbn [fst].
  rewrite Forall_forall in Hm'. specialize (Hm' _ Hy). cbn in Hm'.
  destruct (ends_last r m _ He eq_refl) as (l & v & ->). apply elem_of_app in Hx as [Hx|Hx].
  - rewrite map_app in Hs. apply StronglySorted_app in Hs as (Hlt & _ & _). etrans; [|exact Hm'].
    apply Hlt; [by apply (list_elem_of_fmap_2 fst _ _ Hx)|]. by apply list_elem_of_singleton.
  - apply list_elem_of_singleton in Hx as [= -> ->]. done.
Qed.

(** The references to a node's children denote the node's run of entries. *)
Lemma children_ok s lv prev refs :
  refs <> [] -> Forall (fun r => exists m, ref_ok s r m) (child_references lv prev (children_of refs)) ->
  exists ms, Forall2 (fun c mc => ref_den s lv false c mc /\ ends_at c mc) refs ms /\
    sorted (concat ms) /\ above prev (concat ms) /\
    forall e, last refs = Some e -> ends_at e (concat ms).
Proof.
  revert prev. induction refs as [|c refs IH]; intros prev Hne H; [done|]. clear Hne.
  cbn [children_of map child_references] in H. apply Forall_cons in H as [(mc & Hd & Hs & Ha & He) H].
  unfold is_pseudo, node_ref in *. cbn [ref_last ref_level ref_min ref_hash default] in *. specialize (He eq_refl).
  assert (ref_den s lv false c mc /\ ends_at c mc) as [Hd' He'] by (by destruct c).
  destruct refs as [|c2 refs].
  - exists [mc]. cbn [concat app]. rewrite app_nil_r. split; [by constructor|]. split; [done|]. split; [done|].
    by intros e [= <-].
  - destruct (IH (Some (last_key c))) as (ms & Hms & Hss & Hab & Hl); [done|exact H|].
    exists (mc :: ms). cbn [concat]. split; [by constructor|].
    split; [by apply (sorted_joined c)|]. split; [by apply (above_last prev c)|].
    intros e Ee. destruct (Hl e Ee) as [Hne Hp]. split; [by destruct mc|].
    by rewrite pairs_last_app.
Qed.

Lemma ref_ok_node s r node :
  read_node s (ref_hash r) (ref_level r) (ref_last r) None = Ok node ->
  StronglySorted bytes_lt (node_keys node) ->
  (forall b k, ref_min r = Some b -> node_first_key node = Some k -> bytes_lt b k) ->
  match node with
  | Leaf _ => ref_level r = 0
  | Inner refs => 1 <= ref_level r /\ refs <> [] /\
      Forall (fun r => exists m, ref_ok s r m) (child_references (ref_level r - 1) (ref_min r) (children_of refs))
  end ->
  exists m, ref_ok s r m.
Proof.
  intros Hr Hk Hmin H. rewrite <-expect_ref_last in Hr. destruct node as [es|refs].
  - exists es. cbn [node_keys node_first_key] in *. split; [by rewrite H in Hr |- *|]. split; [done|]. split.
    + intros b Eb. destruct es as [|e es]; [done|]. specialize (Hmin b e.1 Eb eq_refl).
      constructor; [done|]. apply sorted_above_head in Hk. eapply Forall_impl; [exact Hk|]. intros x Hx. by etrans.
    + intros Hp. rewrite Hp in Hr. cbn [expect_last] in Hr. apply read_node_ends in Hr. cbn [node_last_key] in Hr.
      split; [by intros ->|]. unfold pairs_last. by destruct (last es) as [[? ?]|]; [injection Hr as ->|].
  - destruct H as (Hl & Hne & Hcs). destruct (children_ok s _ _ _ Hne Hcs) as (ms & Hms & Hs & Ha & He).
    exists (concat ms). destruct (ref_level r) as [|n] eqn:El; [lia|]. rewrite Nat.sub_succ, Nat.sub_0_r in Hms.
    split; [rewrite El; exists refs, ms; by split_and!|]. split; [done|]. split; [done|].
    intros Hp. rewrite Hp in Hr. cbn [expect_last] in Hr. apply read_node_ends in Hr. cbn [node_last_key] in Hr.
    destruct (last refs) as [e|] eqn:Ee; [|done]. injection Hr as Hr. destruct (He e eq_refl) as [? Hp']. split; [done|]. by rewrite Hp'.
Qed.

Lemma verify_rank s r w pushed w' :
  True -> verify_body s r w = Ok (pushed, w') -> Forall (fun y => True /\ ref_level y < ref_level r) pushed.
Proof.
  intros _ H. unfold verify_body in H.
  destruct (inner_cache w !! ref_hash r) as [inner|].
  { destruct (position_fault _ _ _ r); by apply Ok_inj in H as [= <- _]. }
  destruct (Store.get s (ref_hash r)) as [[data|]|err]; [|by apply Ok_inj in H as [= <- _]..].
  destruct (decode_node_self data) as [[level node]|err] eqn:Ed; [|by apply Ok_inj in H as [= <- _]].
  destruct (position_fault level _ _ r) eqn:Ep; [by apply Ok_inj in H as [= <- _]|].
  apply position_fault_None in Ep as (-> & _ & _). apply decode_self_Ok, decode_node_shape in Ed as [_ Hshape].
  destruct node as [es|refs]; [by apply Ok_inj in H as [= <- _]|]. apply Ok_inj in H as [= <- _].
  eapply Forall_impl; [apply child_references_level|]. intros c Hc. cbn in Hc. split; [done|lia].
Qed.

Lemma verify_total s n xs w : exists w', visits (verify_body s) n xs w = Ok w'.
Proof. destruct (visits (verify_body s) n xs w) as [w'|[]]. by exists w'. Qed.

Lemma visits_faults s n xs w w' : visits (verify_body s) n xs w = Ok w' -> faults w' = [] -> faults w = [].
Proof.
  revert xs w w'. induction n as [|n IH]; intros xs w w'; [by intros [= ->]|]. revert w.
  induction xs as [|x xs IHxs]; intros w; [by intros [= ->]|]. rewrite visits_cons.
  destruct (verify_body s x w) as [[pushed w1]|[]] eqn:Eb. cbn [rbind].
  destruct (visits (verify_body s) n (rev pushed) w1) as [w2|[]] eqn:E1. cbn [rbind]. intros E2 Hf.
  by eapply faults_kept; [exact Eb|]; eapply IH; [exact E1|]; eapply IHxs.
Qed.

Lemma visits_clean s n xs rest w w' :
  visits (verify_body s) n xs w = Ok w' -> faults w' = [] -> clean w (xs ++ rest) ->
  Forall (fun r => ref_level r < n) xs ->
  clean w' rest /\ Forall (fun r => exists m, ref_ok s r m) xs.
Proof.
  revert xs rest w w'. induction n as [|n IH]; intros xs rest w w' H Hf Hc Hx.
  { destruct Hx as [|x xs Hx _]; [|lia]. cbn in H. by injection H as <-. }
  revert w H Hc. induction Hx as [|x xs Hx Hxs IHxs]; intros w H Hc.
  { cbn in H. by injection H as <-. }
  rewrite visits_cons in H. destruct (verify_body s x w) as [[pushed w1]|[]] eqn:Eb. cbn [rbind] in H.
  destruct (visits (verify_body s) n (rev pushed) w1) as [w2|[]] eqn:E1. cbn [rbind] in H.
  pose proof (visits_faults _ _ _ _ _ H Hf) as Hf2. pose proof (visits_faults _ _ _ _ _ E1 Hf2) as Hf1.
  destruct (clean_body s x w pushed w1 (xs ++ rest) Eb Hf1 Hc) as (Hc1 & node & Hr & Hk & Hm & Hnode).
  destruct (IH (rev pushed) (xs ++ rest) w1 w2 E1 Hf2 Hc1) as [Hc2 Hok].
  { apply Forall_rev. eapply Forall_impl; [exact (verify_rank s x w pushed w1 I Eb)|]. intros y [_ Hy]. lia. }
  destruct (IHxs w2 H Hc2) as [Hc3 Hoks]. split; [done|]. constructor; [|done].
  apply (ref_ok_node s x node Hr Hk Hm). destruct node as [es|refs]; [by destruct Hnode|].
  destruct Hnode as (Hl & Hne & ->). split; [done|]. split; [done|]. apply Forall_rev in Hok. by rewrite rev_involutive in Hok.
Qed.

(** ** Sound trees are clean *)

(** Cached nodes are the ones the store holds. *)
Definition faithful s w : Prop :=
  faults w = [] /\ forall h inner, inner_cache w !! h = Some inner ->
    exists refs, read_node s h (in_level inner) None None = Ok (Inner refs) /\ children inner = children_of refs.

Lemma read_node_decoded s h n e node :
  read_node s h n e None = Ok node -> exists data, Store.get s h = Ok (Some data) /\ decode_node data n = Ok node.
Proof.
  intros H. apply read_node_unchecked in H. unfold read_node in H. destruct (Store.get s h) as [[d|]|]; try done.
  exists d. split; [done|]. cbn [map_err rbind] in H. apply rbind_Ok in H as (node' & Hd & E). by apply Ok_inj in E as [= ->].
Qed.

Lemma children_ref_ok s lv prev refs ms :
  Forall2 (fun c mc => ref_den s lv false c mc /\ ends_at c mc) refs ms ->
  sorted (concat ms) -> above prev (concat ms) ->
  Forall (fun c => exists mc, ref_ok s c mc) (child_references lv prev (children_of refs)).
Proof.
  intros H. revert prev. induction H as [|c mc refs ms [Hd He] _ IH]; intros prev Hs Ha; [done|].
  cbn [concat] in *. destruct (sorted_app_inv _ _ Hs) as [Hsc Hss]. constructor.
  - exists mc. unfold ref_ok, is_pseudo, node_ref. cbn [ref_last ref_level ref_min ref_hash default].
    split; [by destruct c|]. split; [done|]. split; [|by destruct c]. intros b Eb. specialize (Ha b Eb).
    by apply Forall_app in Ha as [? _].
  - apply IH; [done|]. intros b [= <-]. destruct He as [Hne Hp].
    destruct (sorted_pairs_last mc _ Hs Hne) as [_ Hlt]. by rewrite Hp in Hlt.
Qed.

Lemma ref_ok_read s r m :
  ref_ok s r m -> exists node, read_node s (ref_hash r) (ref_level r) (ref_last r) None = Ok node /\
    position_fault (ref_level r) (node_first_key node) (node_last_key node) r = None /\
    match node with
    | Leaf _ => True
    | Inner refs => Forall (fun c => exists mc, ref_ok s c mc)
        (child_references (ref_level r - 1) (ref_min r) (children_of refs))
    end.
Proof.
  intros (Hd & Hs & Ha & He). rewrite <-expect_ref_last.
  assert (forall node, read_node s (ref_hash r) (ref_level r) (expect_last (is_pseudo r) (node_ref r)) None = Ok node ->
    forall k, ref_last r = Some k -> node_last_key node = Some k) as Hlast.
  { intros node Hr k Ek. rewrite expect_ref_last, Ek in Hr. by apply read_node_ends in Hr. }
  destruct (ref_level r) as [|n] eqn:El; cbn [ref_den node_ref hash] in Hd.
  - exists (Leaf m). split; [done|]. split; [|done]. apply position_fault_None. split; [done|]. split; [by apply Hlast|].
    intros b k Eb Ek. cbn [node_first_key] in Ek. destruct m as [|e m]; [done|]. injection Ek as <-.
    specialize (Ha b Eb). by apply Forall_cons in Ha as [? _].
  - destruct Hd as (cs & ms & Hr & Hms & ->). exists (Inner cs). split; [done|]. rewrite Nat.sub_succ, Nat.sub_0_r. split.
    + apply position_fault_None. split; [done|]. split; [by apply Hlast|]. intros b k Eb Ek. cbn [node_first_key] in Ek.
      destruct Hms as [|c mc cs ms [_ Hc] _]; [done|]. injection Ek as <-. specialize (Ha b Eb). cbn [concat] in Ha.
      apply Forall_app in Ha as [Ha _]. destruct (ends_last c mc _ Hc eq_refl) as (l & v & ->).
      apply Forall_app in Ha as [_ Ha]. by apply Forall_cons in Ha as [? _].
    + by apply (children_ref_ok s n (ref_min r) cs ms).
Qed.

Lemma children_of_ends refs :
  option_map fst (head (children_of refs)) = node_first_key (Inner refs) /\
  option_map fst (last (children_of refs)) = node_last_key (Inner refs).
Proof.
  unfold children_of. split; [by destruct refs|]. cbn [node_last_key].
  destruct refs as [|r refs] using rev_ind; [done|]. rewrite map_app; cbn [map]; by rewrite !last_snoc.
Qed.

Lemma faithful_body s r w :
  faithful s w -> (exists m, ref_ok s r m) ->
  exists pushed w', verify_body s r w = Ok (pushed, w') /\ faithful s w' /\
    Forall (fun c => exists m, ref_ok s c m) pushed.
Proof.
  intros [Hf Hc] [m Hm]. destruct (ref_ok_read s r m Hm) as (node & Hr & Hp & Hk). unfold verify_body.
  destruct (inner_cache w !! ref_hash r) as [inner|] eqn:Ec.
  - destruct (Hc _ _ Ec) as (refs & Hi & ->). pose proof (read_node_unchecked _ _ _ _ _ Hr) as Hr'.
    pose proof (read_node_level _ _ _ _ _ _ Hi Hr') as El. rewrite El, Hr' in Hi. apply Ok_inj in Hi as ->.
    destruct (children_of_ends refs) as [-> ->]. rewrite El, Hp. exists [], w. by split_and!.
  - destruct (read_node_decoded _ _ _ _ _ Hr) as (data & -> & Hd). pose proof (proj2 (decode_self_Ok _ _ _) Hd) as ->.
    rewrite Hp. destruct node as [es|refs]; [by exists [], w|]. eexists _, _. split; [done|].
    fold (children_of refs). split; [|done]. split; [done|]. intros h inner. cbn [inner_cache].
    rewrite lookup_insert_Some. intros [[<- <-]|[_ Hi]]; [|by apply Hc]. cbn [in_level children].
    exists refs. split; [|done]. by apply read_node_unchecked in Hr.
Qed.

Lemma visits_faithful s n xs w :
  faithful s w -> Forall (fun r => exists m, ref_ok s r m) xs ->
  exists w', visits (verify_body s) n xs w = Ok w' /\ faithful s w'.
Proof.
  revert xs w. induction n as [|n IH]; intros xs w Hw Hxs; [by exists w|]. revert w Hw.
  induction Hxs as [|x xs Hx _ IHxs]; intros w Hw; [by exists w|]. rewrite visits_cons.
  destruct (faithful_body s x w Hw Hx) as (pushed & w1 & -> & Hw1 & Hp). cbn [rbind].
  destruct (IH (rev pushed) w1 Hw1) as (w2 & -> & Hw2); [by apply Forall_rev|]. cbn [rbind]. by apply IHxs.
Qed.

(** ** The root *)

Definition root_reference R : Reference := mkReference (root_hash R) (top_level R) None None.

Lemma verify_ends s R :
  exists w, (exists fuel, forall f, fuel <= f -> verify_reachable f s R = Some (faults w)) /\
    visits (verify_body s) (Datatypes.S (top_level R)) [root_reference R] (mkWalk [] ∅ ∅) = Ok w.
Proof.
  destruct (verify_total s (Datatypes.S (top_level R)) [root_reference R] (mkWalk [] ∅ ∅)) as [w Hw]. exists w.
  split; [|done].
  destruct (while_pop_visits (verify_body s) ref_level (fun _ => True) (fun x st p st' _ => verify_rank s x st p st' I)
    (Datatypes.S (top_level R)) [root_reference R] (mkWalk [] ∅ ∅)) as [fuel Hf].
  { constructor; [|done]. cbn. split; [done|lia]. }
  exists fuel. intros f Hle. unfold verify_reachable. fold (root_reference R). by rewrite Hf, Hw.
Qed.

Lemma ref_ok_root s R m : ref_ok s (root_reference R) m <-> ref_den s (top_level R) true (pseudo_ref R) m /\ sorted m.
Proof. split; [by intros (H & Hs & _)|]. intros [H Hs]. split; [done|]. by split. Qed.

Lemma verify_exact s R w :
  visits (verify_body s) (Datatypes.S (top_level R)) [root_reference R] (mkWalk [] ∅ ∅) = Ok w ->
  faults w = [] <-> exists m, ref_den s (top_level R) true (pseudo_ref R) m /\ sorted m.
Proof.
  intros Hw. split.
  - intros Hf. destruct (visits_clean s _ [root_reference R] [] _ w Hw Hf) as [_ H].
    + split; [done|]. split; [|done]. apply SSorted_cons; [apply SSorted_nil|done].
    + constructor; [cbn; lia|done].
    + apply Forall_cons in H as [[m H] _]. apply ref_ok_root in H. by exists m.
  - intros [m H%ref_ok_root]. destruct (visits_faithful s (Datatypes.S (top_level R)) [root_reference R] (mkWalk [] ∅ ∅)) as (w' & Hw' & Hf & _).
    + by split.
    + constructor; [by exists m|done].
    + rewrite Hw in Hw'. apply Ok_inj in Hw' as ->. done.
Qed.
End walk.

Section properties.
Context {S : Type} {CS : ChunkStore S}.
Implicit Types (s : S) (R : Root) (w : Walk).

(** The address holds a chunk that reads as a node. *)
Definition chunk s (h : Hash) (level : nat) (node : Node) : Prop :=
  exists data, Store.get s h = Ok (Some data) /\ decode_node_self data = Ok (level, node).

(** The node is of the level, ends at the key and lies above the bound its
    parents claim. *)
Definition well_placed (r : Reference) (level : nat) (node : Node) : Prop :=
  level = ref_level r /\ (forall want, ref_last r = Some want -> node_last_key node = Some want) /\
  (forall b k, ref_min r = Some b -> node_first_key node = Some k -> bytes_lt b k).

(** The places of a tree: the root's, and under a well placed inner node its
    children's, the first of which inherits the lower bound. *)
Inductive place s R : Reference -> Prop :=
| place_root : place s R (root_reference R)
| place_child r refs i c :
    place s R r -> chunk s (ref_hash r) (ref_level r) (Inner refs) -> well_placed r (ref_level r) (Inner refs) -> refs !! i = Some c ->
    place s R (mkReference (hash c) (ref_level r - 1) (Some (last_key c))
      (match i with 0 => ref_min r | Datatypes.S j => option_map last_key (refs !! j) end)).

(** What is wrong with a node at a place. *)
Definition misplaced (r : Reference) (level : nat) (node : Node) (x : FaultReason) : Prop :=
  match x with
  | WrongLevel found required => found = level /\ required = ref_level r /\ found <> required
  | WrongEnd => level = ref_level r /\ exists want, ref_last r = Some want /\ node_last_key node <> Some want
  | BelowPosition => level = ref_level r /\ exists min first, ref_min r = Some min /\ node_first_key node = Some first /\ bytes_le first min
  | _ => False
  end.

(** A fault tells the truth about its chunk at one of the places it has. *)
Definition fault_true s R (f : ChunkFault) : Prop :=
  exists r, place s R r /\ fault_hash f = ref_hash r /\
  match reason f with
  | Absent => fault_kind f = Missing /\ Store.get s (ref_hash r) = Ok None
  | Unreturned e => fault_kind f = CorruptChunk /\ Store.get s (ref_hash r) = Err e
  | Undecodable e => fault_kind f = CorruptChunk /\
      exists data, Store.get s (ref_hash r) = Ok (Some data) /\ decode_node_self data = Err e
  | x => fault_kind f = CorruptChunk /\ exists level node, chunk s (ref_hash r) level node /\ misplaced r level node x
  end.

Lemma position_fault_misplaced level node r x :
  position_fault level (node_first_key node) (node_last_key node) r = Some x -> misplaced r level node x.
Proof.
  unfold position_fault. destruct (Nat.eqb_spec level (ref_level r)) as [El|El]; cbn [negb]; [|by intros [= <-]].
  destruct (match ref_last r with Some want => negb (bool_decide (node_last_key node = Some want)) | None => false end) eqn:Eend.
  - intros [= <-]. split; [done|]. destruct (ref_last r) as [want|]; [|done]. exists want. split; [done|]. by apply negb_true_iff, bool_decide_eq_false in Eend.
  - destruct (ref_min r) as [b|] eqn:Eb; [|done]. destruct (node_first_key node) as [k|] eqn:Ek; [|done].
    destruct (bytes_leb k b) eqn:Ekb; [|done]. intros [= <-]. split; [done|]. exists b, k. split; [done|]. split; [done|]. by apply bytes_leb_le.
Qed.

Lemma position_fault_true s R level node r x :
  place s R r -> chunk s (ref_hash r) level node ->
  position_fault level (node_first_key node) (node_last_key node) r = Some x ->
  fault_true s R (mkChunkFault (ref_hash r) CorruptChunk x).
Proof.
  intros Hr Hc Hx%position_fault_misplaced. exists r. split; [done|]. split; [done|]. cbn [reason fault_kind].
  destruct x; (by destruct Hx) || (split; [done|]; by exists level, node).
Qed.

Lemma child_references_elem lv prev refs r :
  r ∈ child_references lv prev (children_of refs) -> exists i c, refs !! i = Some c /\
    r = mkReference (hash c) lv (Some (last_key c)) (match i with 0 => prev | Datatypes.S j => option_map last_key (refs !! j) end).
Proof.
  revert prev. induction refs as [|c refs IH]; intros prev; [by intros ?%elem_of_nil|]. cbn [children_of map child_references].
  intros [->|H]%elem_of_cons; [by exists 0, c|]. destruct (IH _ H) as (i & c' & Hi & ->). exists (Datatypes.S i), c'. split; [done|]. by destruct i.
Qed.

(** What the walk has seen so far is so. *)
Definition truthful s R w : Prop :=
  Forall (fault_true s R) (faults w) /\
  forall h inner, inner_cache w !! h = Some inner -> exists refs, chunk s h (in_level inner) (Inner refs) /\ children inner = children_of refs.

Lemma body_truthful s R r w pushed w' :
  verify_body s r w = Ok (pushed, w') -> place s R r -> truthful s R w -> truthful s R w' /\ Forall (place s R) pushed.
Proof.
  intros H Hr [Hw Hc].
  assert (forall f, fault_true s R f -> truthful s R (push_fault f w)) as Hpush.
  { intros f Hf. split; [|done]. apply Forall_app. split; [done|]. by constructor. }
  assert (forall f, fault_true s R f -> truthful s R (report_once f w)) as Hrep.
  { intros f Hf. unfold report_once. case_bool_decide; [by split|]. by apply Hpush. }
  unfold verify_body in H. destruct (inner_cache w !! ref_hash r) as [inner|] eqn:Ec.
  { destruct (Hc _ _ Ec) as (refs & Hch & Erefs). rewrite Erefs in H. destruct (children_of_ends refs) as [E1 E2]. rewrite E1, E2 in H.
    destruct (position_fault _ _ _ r) as [x|] eqn:Ep; apply Ok_inj in H as [= <- <-]; [|by split].
    split; [|done]. by eapply Hpush, position_fault_true. }
  destruct (Store.get s (ref_hash r)) as [[data|]|err] eqn:Eg; [|apply Ok_inj in H as [= <- <-]; split; [|done]; apply Hrep; by exists r..].
  destruct (decode_node_self data) as [[level node]|err] eqn:Ed.
  2: { apply Ok_inj in H as [= <- <-]. split; [|done]. apply Hrep. exists r. do 2 (split; [done|]). split; [done|]. by exists data. }
  assert (chunk s (ref_hash r) level node) as Hch by (by exists data).
  destruct (position_fault level _ _ r) as [x|] eqn:Ep.
  { apply Ok_inj in H as [= <- <-]. split; [|done]. by eapply Hpush, position_fault_true. }
  apply position_fault_None in Ep. pose proof Ep as [-> _].
  destruct node as [es|refs]; apply Ok_inj in H as [= <- <-]; [by split|]. fold (children_of refs). split.
  - split; [done|]. intros h inner. cbn [inner_cache]. rewrite lookup_insert_Some. intros [[<- <-]|[_ Hi]]; [|by apply Hc]. by exists refs.
  - apply Forall_forall. intros y (i & c & Hi & ->)%child_references_elem. by eapply place_child.
Qed.

Lemma visits_truthful s R n xs w w' :
  visits (verify_body s) n xs w = Ok w' -> Forall (place s R) xs -> truthful s R w -> truthful s R w'.
Proof.
  revert xs w w'. induction n as [|n IH]; intros xs w w'; [by intros [= ->]|]. revert w.
  induction xs as [|x xs IHxs]; intros w; [by intros [= ->]|]. rewrite visits_cons.
  destruct (verify_body s x w) as [[pushed w1]|[]] eqn:Eb. cbn [rbind].
  destruct (visits (verify_body s) n (rev pushed) w1) as [w2|[]] eqn:E1. cbn [rbind]. intros E2 [Hx Hxs]%Forall_cons Hw.
  destruct (body_truthful s R x w pushed w1 Eb Hx Hw) as [Hw1 Hp]. eapply IHxs; [exact E2|done|].
  eapply IH; [exact E1| |done]. by apply Forall_rev.
Qed.

(** C37: the integrity walk is exact on every store. Whatever the chunks are -
    missing, damaged, cross-linked, misplaced - the walk ends; every fault is
    true of the chunk it names at a place the tree gives it: it is absent, is
    not returned, does not decode, or is a node whose level, last key or first
    key is not what its parents claim; and there is no fault exactly when the root
    denotes entries in strictly ascending key order, in which case every range
    scan of the root, in either direction, runs without error and yields just
    those within its bounds. In particular the shortcut for nodes with several
    parents, which checks a cached node's own keys only, hides nothing. *)
Theorem verify_spec s R :
  exists fs, (exists fuel, forall f, fuel <= f -> verify_reachable f s R = Some fs) /\
    Forall (fault_true s R) fs /\
    (fs = [] <-> exists m, ref_den s (top_level R) true (pseudo_ref R) m /\ sorted m) /\
    (fs = [] -> exists m, sorted m /\ forall lo hi, exists scf scr,
      scan s R lo hi = Ok scf /\ scan_rev s R lo hi = Ok scr /\
      forall f, length m < f ->
        collect f s scf = Ok (keep Reverse hi (keep Forward lo m)) /\
        collect f s scr = Ok (rev (keep Reverse hi (keep Forward lo m)))).
Proof.
  destruct (verify_ends s R) as (w & Hf & Hw). exists (faults w). pose proof (verify_exact s R w Hw) as Hx.
  split; [done|]. split.
  { apply (visits_truthful s R) in Hw as [? _]; [done| |].
    - constructor; [apply place_root|done].
    - split; [done|]. intros h inner Hi. cbn [inner_cache] in Hi. by apply lookup_empty_Some in Hi. }
  split; [done|].
  intros H. apply Hx in H as (m & Hd & Hs). exists m. split; [done|]. intros lo hi.
  destruct (seek_collect s R m lo hi Forward Hd Hs) as (scf & Ef & Hcf).
  destruct (seek_collect s R m hi lo Reverse Hd Hs) as (scr & Er & Hcr).
  exists scf, scr. split; [done|]. split; [done|]. intros f Hlt. split; [by apply Hcf|].
  rewrite Hcr by done. cbn [orient opposite]. do 2 f_equal. apply keep_comm.
Qed.

(** The walk finds nothing in a map's tree. *)
Lemma verify_stored `{!ChunkStoreLaws S} s R M :
  describes s R M -> exists fuel, forall f, fuel <= f -> verify_reachable f s R = Some [].
Proof.
  intros (Hp & m & _ & Ht). destruct (verify_ends s R) as (w & [fuel Hf] & Hw).
  pose proof (proj2 (verify_exact s R w Hw)) as Hx. exists fuel. intros f Hle. rewrite (Hf f Hle), Hx; [done|].
  exists m. split; [by apply root_den|]. by destruct Ht as (_ & [Hs _] & _).
Qed.
End properties.
