(* ===== verification/Graph.v ===== *)
(** * The graph layer over the maps (crates/acetone-graph)

    The errors of error.rs the modelled functions return (the rest of the enum
    belongs to the repository operations; an error that names a node or an edge
    by its rendering holds the key here; [GPanic] is the panic of an
    [unreachable!] or an [expect], which the source has no value for), and the
    two ways the layer uses a map: a loop over a scan and a store operation.  A scan loop takes fuel for
    its entries; [for_each_spec] in [GraphRun] says how much is enough. *)
From S2P Require Import Prelude Model Values Records GraphKeys Schema Store Chunker Node Tree Manifest Scan.

Inductive GraphError : Type :=
| GStore (e : StoreError)
| GProlly (e : ProllyError)
| GManifest (e : ManifestDecodeError)
| GGraphKey (e : GraphKeyError)
| GRecordEncode (e : RecordEncodeError)
| GValueEncode (e : ValueEncodeError)
| GRecordDecode (e : RecordDecodeError)
| GSchema (e : SchemaError)
| CorruptConflicts (reason : string)
| InvalidGraphName (name : bytes) (reason : string)
| LabelKeyChanged (label : bytes)
| RelDiscriminatorChanged (rtype : bytes)
| PropertyTypeViolation (node : NodeKey) (property : bytes) (declared actual : PropertyType)
| EdgePropertyTypeViolation (edge : EdgeKey) (property : bytes) (declared actual : PropertyType)
| GDanglingEdge (rtype : bytes) (role : string) (endpoint : NodeKey)
| MergeState (reason : string)
| InconsistentReverseEdge (source : NodeKey)
| GPanic (message : string).

(** A store operation of the map layer, with the [From] conversion of [?]. *)
Definition on_map {S A : Type} (m : st S ProllyError A) : st S GraphError A :=
  fun s => let '(r, s) := m s in (map_err GProlly r, s).

(** What a loop body says: go on, or [break]. *)
Inductive flow (A : Type) : Type := Continue (a : A) | Break (a : A).
Arguments Continue {A} _.
Arguments Break {A} _.

Section loops.
Context {S : Type} {CS : ChunkStore S} {A : Type}.

(** [for item in scan { let (key, value) = item?; .. }] *)
Fixpoint scan_loop (fuel : nat) (store : S) (sc : Scan)
    (body : bytes -> bytes -> A -> result GraphError (flow A)) (a : A) : result GraphError A :=
  match fuel with
  | O => Err (GProlly scan_out_of_fuel)
  | Datatypes.S fuel =>
    match next store sc with
    | (None, _) => Ok a
    | (Some (Err e), _) => Err (GProlly e)
    | (Some (Ok (key, value)), sc) =>
      let? f := body key value a in
      match f with
      | Continue a => scan_loop fuel store sc body a
      | Break a => Ok a
      end
    end
  end.

Definition for_each (fuel : nat) (store : S) (root : Root) (lo hi : Bound)
    (body : bytes -> bytes -> A -> result GraphError (flow A)) (a : A) : result GraphError A :=
  let? sc := map_err GProlly (scan store root lo hi) in scan_loop fuel store sc body a.
End loops.
