(* ===== verification/GraphRun.v ===== *)
(** * Reasoning about the graph layer's loops and store operations

    A loop over the scan of a map is a fold over the map's entries in key
    order; a store operation that can only fail with the store keeps that
    property through the graph layer. *)
From S2P Require Import Prelude GraphKeys Store Chunker Node Tree TreeSpec TreeNodes TreeRead TreeBuild TreeLevels TreeContent TreeBatch Prolly Diff DiffRun MapDiff Scan ScanRun Graph.

(** ** Folds that may fail or stop *)

Fixpoint fold_flow {A : Type} (body : bytes -> bytes -> A -> result GraphError (flow A)) (m : kvs) (a : A)
    : result GraphError A :=
  match m with
  | [] => Ok a
  | (k, v) :: m =>
    let? f := body k v a in
    match f with Continue a => fold_flow body m a | Break a => Ok a end
  end.

(** A body that appends what it makes of each entry. *)
Lemma fold_flow_collect {B : Type} (body : bytes -> bytes -> list B -> result GraphError (flow (list B)))
    (g : bytes * bytes -> list B) m acc :
  Forall (fun e => forall acc, body e.1 e.2 acc = Ok (Continue (acc ++ g e))) m ->
  fold_flow body m acc = Ok (acc ++ concat (map g m)).
Proof.
  intros H. revert acc. induction H as [|[k v] m He _ IH]; intros acc; [by rewrite app_nil_r|].
  cbn [fold_flow map concat]. pose proof (He acc) as Hx. cbn [fst snd] in Hx. rewrite Hx. cbn [rbind]. by rewrite IH, <-app_assoc.
Qed.

Section loops.
Context {S : Type} {CS : ChunkStore S} {A : Type}.
Implicit Types (s : S) (sc : Scan) (R : Root) (body : bytes -> bytes -> A -> result GraphError (flow A)).

Lemma scan_loop_collect f s sc body a es :
  collect f s sc = Ok es -> scan_loop f s sc body a = fold_flow body es a.
Proof.
  revert sc a es. induction f as [|f IH]; intros sc a es H; [done|]. cbn [collect scan_loop] in *.
  destruct (next s sc) as [[[[k v]|e]|] sc']; [|done|by apply Ok_inj in H as <-].
  apply rbind_Ok in H as (es' & H & E). apply Ok_inj in E as <-. cbn [fold_flow].
  destruct (body k v a) as [[a'|a']|e]; [|done..]. cbn [rbind]. by apply IH.
Qed.

(** The entries of a map, in key order. *)
Definition entries_in (M : gmap bytes bytes) (m : kvs) : Prop :=
  sorted m /\ contents m = M.

Lemma entries_in_lookup M m k v : entries_in M m -> (k, v) ∈ m <-> M !! k = Some v.
Proof. intros [Hs <-]. by apply contents_pairs. Qed.

Lemma entries_in_length M m : entries_in M m -> length m = size M.
Proof. intros [Hs <-]. by rewrite size_contents. Qed.

Lemma in_bounds_all m : keep Reverse Unbounded (keep Forward Unbounded m) = m.
Proof. rewrite keep_all by (by apply Forall_true). apply keep_all. by apply Forall_true. Qed.

(** A loop over the entries between two bounds. *)
Lemma for_each_range `{!ChunkStoreLaws S} s R M lower upper body a :
  describes s R M -> exists m, entries_in M m /\
    forall f, size M < f -> for_each f s R lower upper body a = fold_flow body (keep Reverse upper (keep Forward lower m)) a.
Proof.
  intros (Hp & m & <- & Ht). pose proof (root_den s R m Hp Ht) as Hd. destruct Ht as (_ & [Hs _] & _).
  exists m. split; [by split|]. intros f Hf. rewrite size_contents in Hf by done.
  destruct (seek_collect s R m lower upper Forward Hd Hs) as (sc & Esc & Hc). unfold for_each, scan.
  rewrite Esc. cbn [map_err rbind]. apply scan_loop_collect. by rewrite Hc.
Qed.

Lemma for_each_spec `{!ChunkStoreLaws S} s R M body a :
  describes s R M -> exists m, entries_in M m /\
    forall f, size M < f -> for_each f s R Unbounded Unbounded body a = fold_flow body m a.
Proof.
  intros HM. destruct (for_each_range s R M Unbounded Unbounded body a HM) as (m & Hm & Hf). exists m. split; [done|].
  intros f Hlt. by rewrite Hf, in_bounds_all.
Qed.

(** The entries from a bound on. *)
Lemma for_each_from `{!ChunkStoreLaws S} s R M lo body a :
  describes s R M -> exists m, entries_in M m /\
    forall f, size M < f -> for_each f s R (Included lo) Unbounded body a = fold_flow body (keep Forward (Included lo) m) a.
Proof.
  intros HM. destruct (for_each_range s R M (Included lo) Unbounded body a HM) as (m & Hm & Hf). exists m. split; [done|].
  intros f Hlt. rewrite Hf by done. rewrite keep_all; [done|]. by apply Forall_true.
Qed.

(** A loop over the keys with a prefix: a scan from the prefix on that breaks
    at the first key without it. *)
Definition under_prefix (p : bytes) (m : kvs) : kvs := filter (fun e => starts_with e.1 p = true) m.

Lemma starts_with_le (k p : bytes) : starts_with k p = true -> bytes_le p k.
Proof. rewrite starts_with_spec. intros [t ->]. apply app_le_self. Qed.

Lemma fold_flow_prefix p (m : kvs) body g a :
  sorted m -> (forall k v a, body k v a = if negb (starts_with k p) then Ok (Break a) else g k v a) ->
  fold_flow body (keep Forward (Included p) m) a = fold_flow g (under_prefix p m) a.
Proof.
  intros Hs Hbody. revert a. induction m as [|[k v] m IH]; intros a; [done|].
  cbn [map fst] in Hs. apply StronglySorted_inv in Hs as [Hs Hall]. specialize (IH Hs).
  unfold under_prefix in *. unfold keep in *. rewrite !filter_cons. cbn [fst keeps].
  destruct (starts_with k p) eqn:Ep.
  - pose proof (starts_with_le k p Ep) as Hle. apply bytes_leb_le in Hle.
    rewrite (decide_True (P := bytes_leb p k = true)) by done. rewrite decide_True by done.
    cbn [fold_flow]. rewrite Hbody, Ep. cbn [negb]. destruct (g k v a) as [[a'|a']|e]; [|done..]. cbn [rbind]. apply IH.
  - rewrite (decide_False (P := false = true)) by done. destruct (bytes_leb p k) eqn:Er.
    2: { rewrite decide_False by done. apply IH. }
    rewrite decide_True by done. cbn [fold_flow]. rewrite Hbody, Ep. cbn [negb rbind].
    rewrite list_filter_none; [done|]. apply Forall_forall. intros [k' v'] Hin. cbn [fst]. intros Hp.
    apply starts_with_spec in Hp as [t ->].
    assert (bytes_lt k (p ++ t)) as Hlt.
    { rewrite Forall_forall in Hall. apply Hall. apply list_elem_of_fmap. by exists (p ++ t, v'). }
    assert (bytes_le (p ++ []) k) as Hle by (rewrite app_nil_r; by apply bytes_leb_le).
    destruct (squeeze_prefix p [] t k Hle Hlt) as [x ->]. apply not_true_iff_false in Ep. destruct Ep. apply starts_with_spec. by exists x.
Qed.

Lemma for_each_prefix `{!ChunkStoreLaws S} s R M p body g a :
  describes s R M -> (forall k v a, body k v a = if negb (starts_with k p) then Ok (Break a) else g k v a) ->
  exists m, entries_in M m /\
    forall f, size M < f -> for_each f s R (Included p) Unbounded body a = fold_flow g (under_prefix p m) a.
Proof.
  intros HM Hb. destruct (for_each_from s R M p body a HM) as (m & Hm & Hf). exists m. split; [done|]. intros f Hlt.
  rewrite Hf by done. apply fold_flow_prefix; [apply Hm|done].
Qed.
End loops.

(** ** Store operations *)

Section store.
Context {S : Type} {CS : ChunkStore S}.
Implicit Types (s : S).

(** The operation only adds chunks, and fails only with the store. *)
Definition gwp {A} (m : st S GraphError A) (Q : A -> S -> Prop) s : Prop :=
  match m s with
  | (Ok a, s') => extends s s' /\ Q a s'
  | (Err e, s') => extends s s' /\ exists e', e = GProlly e' /\ store_failure e'
  end.

Lemma gwp_ret {A} (a : A) (Q : A -> S -> Prop) s : Q a s -> gwp (st_ret a) Q s.
Proof. by split. Qed.

Lemma gwp_read {A} (f : S -> result GraphError A) a (Q : A -> S -> Prop) s : f s = Ok a -> Q a s -> gwp (st_read f) Q s.
Proof. intros E HQ. unfold gwp, st_read. by rewrite E. Qed.

Lemma gwp_mono {A} (m : st S GraphError A) (Q Q' : A -> S -> Prop) s :
  gwp m Q s -> (forall a s', extends s s' -> Q a s' -> Q' a s') -> gwp m Q' s.
Proof. unfold gwp. destruct (m s) as [[a|e] s']; [|done]. intros [He HQ] H. split; [done|]. by apply H. Qed.

Lemma gwp_on_map {A} (m : st S ProllyError A) (Q : A -> S -> Prop) s : wp m Q s -> gwp (on_map m) Q s.
Proof.
  unfold wp, gwp, on_map. destruct (m s) as [[a|e] s']; cbn [map_err]; [done|]. intros [He Hf]. split; [done|]. by exists e.
Qed.

Lemma gwp_bind {A B} (m : st S GraphError A) (f : A -> st S GraphError B) Q (Q' : B -> S -> Prop) s :
  gwp m Q s -> (forall a s', extends s s' -> Q a s' -> gwp (f a) Q' s') -> gwp (st_bind m f) Q' s.
Proof.
  unfold gwp at 1 3, st_bind. destruct (m s) as [[a|e] s']; [|done]. intros [He HQ] H.
  specialize (H a s' He HQ). unfold gwp in H. destruct (f a s') as [[b|e] s'']; destruct H as [He' H]; (split; [by etrans|done]).
Qed.

Lemma gwp_Ok {A} (m : st S GraphError A) (Q : A -> S -> Prop) s a s' : gwp m Q s -> m s = (Ok a, s') -> extends s s' /\ Q a s'.
Proof. intros H E. unfold gwp in H. by rewrite E in H. Qed.
End store.

(** ** Maps whose keys are everything

    The reverse edge map, the index maps and the conflicts map hold empty
    values under meaningful keys. *)

Definition put_keys (ks : list bytes) : list BatchOp := map (fun k => Put k []) ks.
Definition key_map (ks : list bytes) : gmap bytes bytes := foldl op_map ∅ (put_keys ks).

Lemma key_map_lookup ks k v : key_map ks !! k = Some v <-> v = [] /\ k ∈ ks.
Proof.
  unfold key_map. assert (forall M : gmap bytes bytes, foldl op_map M (put_keys ks) !! k = Some v <->
    (v = [] /\ k ∈ ks) \/ (k ∉ ks /\ M !! k = Some v)) as H.
  - induction ks as [|x ks IH]; intros M; cbn [put_keys map foldl op_map].
    + split; [intros HM; right; split; [apply not_elem_of_nil|done]|]. intros [[_ H]|[_ H]]; [by apply elem_of_nil in H|done].
    + unfold put_keys in IH. rewrite IH, elem_of_cons. destruct (decide (k = x)) as [->|Hne].
      * rewrite lookup_insert_eq. destruct (decide (x ∈ ks)); naive_solver.
      * rewrite lookup_insert_ne by done. naive_solver.
  - rewrite H, lookup_empty. naive_solver.
Qed.

Lemma put_keys_ok ks : Forall (fun k => is_u32 (Z.of_nat (length k)) = true) ks -> Forall (fun op => op_ok op = true) (put_keys ks).
Proof.
  intros H. apply Forall_map. eapply Forall_impl; [exact H|]. intros k Hk. cbn. unfold kv_ok. cbn [fst snd]. by rewrite Hk.
Qed.

Lemma gwp_build_keys {S : Type} {CS : ChunkStore S} {CSL : ChunkStoreLaws S} (s : S) p ks :
  params_ok p = true -> Forall (fun k => is_u32 (Z.of_nat (length k)) = true) ks -> (Z.of_nat (length ks) <= 2 ^ 62)%Z ->
  gwp (let! base := on_map (empty_map p) in on_map (apply_batch base (put_keys ks)))
    (fun R s' => params R = p /\ describes s' R (key_map ks)) s.
Proof.
  intros Hp Hk Hn.
  eapply (gwp_bind _ _ (fun R s' => params R = p /\ describes s' R ∅)).
  - apply gwp_on_map. eapply wp_mono; [apply (wp_bulk p s []); [done|apply Forall_nil_2|done]|].
    intros R s' _ [H _]. pose proof H as (E & _). split; [done|]. unfold describes. rewrite E. split; [done|].
    exists (loaded []). by rewrite loaded_contents.
  - intros R s' _ [E D]. apply gwp_on_map. eapply wp_mono; [apply (wp_apply_batch s' R ∅ (put_keys ks) D)|].
    + by apply put_keys_ok.
    + unfold put_keys. rewrite length_map, map_size_empty. lia.
    + intros R' s2 _ [E' D']. split; [congruence|done].
Qed.
