(* ===== verification/CellMerge.v ===== *)
(** * Cell-wise merge of records (crates/acetone-graph/src/cell_merge.rs)

    The per-property three-way merge.  A [BTreeMap] is a [gmap] whose keys are
    visited in byte order; a [BTreeSet<&String>] is the sorted list of its
    elements. *)
From stdpp Require Import sorting.
From S2P Require Import Prelude Ieee Model Cbor Values Canonical Records Graph.

Record PropertyConflict : Type := mkPropertyConflict {
  pc_property : bytes; pc_base : option Value; pc_ours : option Value; pc_theirs : option Value }.

(** The elements of a [BTreeSet<String>], in order. *)
Definition in_order (names : gset bytes) : list bytes := merge_sort bytes_le (elements names).

Definition value_eq (a b : Value) : result GraphError bool :=
  let? ea := map_err GValueEncode (encode_value a) in
  let? eb := map_err GValueEncode (encode_value b) in
  Ok (bool_decide (ea = eb)).

Definition opt_eq (a b : option Value) : result GraphError bool :=
  match a, b with
  | None, None => Ok true
  | Some x, Some y => value_eq x y
  | _, _ => Ok false
  end.

(** One property: the value the merged record holds, or a conflict. *)
Definition resolve (b o t : option Value) : result GraphError (option (option Value)) :=
  let? ot := opt_eq o t in
  if ot then Ok (Some o)
  else
    let? ob := opt_eq o b in
    if ob then Ok (Some t)
    else
      let? tb := opt_eq t b in
      if tb then Ok (Some o) else Ok None.

Fixpoint merge_names (base ours theirs : properties_map) (names : list bytes)
    (merged : properties_map) (conflicts : list PropertyConflict)
    : result GraphError (properties_map * list PropertyConflict) :=
  match names with
  | [] => Ok (merged, conflicts)
  | name :: names =>
    let b := base !! name in
    let o := ours !! name in
    let t := theirs !! name in
    let? resolved := resolve b o t in
    let conflicts :=
      match resolved with Some _ => conflicts | None => conflicts ++ [mkPropertyConflict name b o t] end in
    let merged := match resolved with Some (Some value) => <[name := value]> merged | _ => merged end in
    merge_names base ours theirs names merged conflicts
  end.

Definition merge_properties (base ours theirs : properties_map)
    : result GraphError (properties_map * list PropertyConflict) :=
  merge_names base ours theirs (in_order (dom base ∪ dom ours ∪ dom theirs)) ∅ [].

Definition merge_labels (base ours theirs : list bytes) : list bytes :=
  let in_base l := bool_decide (l ∈ base) in
  let in_ours l := bool_decide (l ∈ ours) in
  let in_theirs l := bool_decide (l ∈ theirs) in
  let keep l :=
    let removed := (in_base l && negb (in_ours l)) || (in_base l && negb (in_theirs l)) in
    let present := in_base l || in_ours l || in_theirs l in
    present && negb removed in
  List.filter keep (in_order (list_to_set base ∪ list_to_set ours ∪ list_to_set theirs)).

Definition merge_node_record (base ours theirs : NodeRecord)
    : result GraphError (NodeRecord * list PropertyConflict) :=
  let labels := merge_labels (secondary_labels base) (secondary_labels ours) (secondary_labels theirs) in
  let? '(props, conflicts) := merge_properties (properties base) (properties ours) (properties theirs) in
  Ok (node_record_new labels props, conflicts).

Definition merge_edge_record (base ours theirs : EdgeRecord)
    : result GraphError (EdgeRecord * list PropertyConflict) :=
  let? '(props, conflicts) :=
    merge_properties (edge_properties base) (edge_properties ours) (edge_properties theirs) in
  Ok (mkEdgeRecord props, conflicts).

(** ** Sorted sets *)

#[global] Instance bytes_le_transitive : Transitive bytes_le.
Proof. intros a b c H1 H2. apply bytes_le_lteq in H1 as [H1| ->]; [|done]. apply bytes_lt_le. by eapply bytes_lt_le_trans. Qed.

#[global] Instance bytes_le_total : Total bytes_le.
Proof.
  intros a b. destruct (bytes_leb a b) eqn:E; [left; by apply bytes_leb_le|right].
  apply bytes_lt_le. by apply bytes_leb_gt.
Qed.

Lemma in_order_elem names x : x ∈ in_order names <-> x ∈ names.
Proof. unfold in_order. by rewrite merge_sort_Permutation, elem_of_elements. Qed.

Lemma in_order_sorted names : StronglySorted bytes_lt (in_order names).
Proof.
  assert (StronglySorted bytes_le (in_order names)) as Hs by (apply Sorted_StronglySorted, Sorted_merge_sort; apply _).
  assert (NoDup (in_order names)) as Hn by (unfold in_order; rewrite merge_sort_Permutation; apply NoDup_elements).
  induction Hs as [|x l Hs IH Hx]; [apply SSorted_nil|]. apply NoDup_cons in Hn as [Hin Hn].
  apply SSorted_cons; [by apply IH|]. rewrite Forall_forall in Hx |- *. intros y Hy.
  destruct (proj1 (bytes_le_lteq x y) (Hx y Hy)) as [| ->]; done.
Qed.

(** ** Equality of values *)

(** The encoding only sees the normal form, and tells normal forms apart. *)
Lemma write_value_normal v d : write_value (normal v) d = write_value v d.
Proof.
  revert d. induction v as [| | |x| | | | | | |items IH] using Value_ind'; intros dp; try done.
  - cbn [normal write_value]. unfold write_float, normal_float. destruct (f64_is_nan x) eqn:E; [|by rewrite E]. done.
  - cbn [normal write_value]. rewrite length_map.
    assert (forall d, write_all (fun item => write_value item d) (map normal items) =
                      write_all (fun item => write_value item d) items) as ->; [|done].
    intros d'. induction IH as [|v l Hv IH IHl]; [done|]. cbn [map write_all]. by rewrite Hv, IHl.
Qed.

Lemma encode_value_normal v : encode_value (normal v) = encode_value v.
Proof. unfold encode_value, encode_value_into. by rewrite write_value_normal. Qed.

Definition encodes (v : Value) : Prop := value_ok v = true /\ exists e, encode_value v = Ok e.

Lemma encode_value_inj a b e :
  value_ok a = true -> value_ok b = true -> encode_value a = Ok e -> encode_value b = Ok e -> normal a = normal b.
Proof.
  intros Ha Hb H1 H2. unfold encode_value, encode_value_into in H1, H2.
  apply rbind_Ok in H1 as (ea & H1 & E1), H2 as (eb & H2 & E2). apply Ok_inj in E1, E2. cbn [app] in *. subst ea eb.
  pose proof (read_value_write a 0 (S MAX_DEPTH) e [] Ha H1 ltac:(lia)) as R1.
  pose proof (read_value_write b 0 (S MAX_DEPTH) e [] Hb H2 ltac:(lia)) as R2. rewrite R1 in R2. by injection R2.
Qed.

Lemma value_eq_spec a b : encodes a -> encodes b -> value_eq a b = Ok (bool_decide (normal a = normal b)).
Proof.
  intros [Ha [ea Ea]] [Hb [eb Eb]]. unfold value_eq. rewrite Ea, Eb. cbn [map_err rbind]. f_equal.
  apply bool_decide_ext. split; [intros ->; by eapply encode_value_inj|]. intros E.
  rewrite <-encode_value_normal, E, encode_value_normal, Eb in Ea. by injection Ea.
Qed.

(** Equality of what two cells hold. *)
Definition same (a b : option Value) : bool := bool_decide (normal <$> a = normal <$> b).

Definition cell_ok (a : option Value) : Prop := forall v, a = Some v -> encodes v.

Lemma opt_eq_spec a b : cell_ok a -> cell_ok b -> opt_eq a b = Ok (same a b).
Proof.
  intros Ha Hb. unfold same. destruct a as [x|], b as [y|]; cbn [opt_eq fmap option_fmap option_map]; try done.
  rewrite value_eq_spec by (first [by apply Ha | by apply Hb]). f_equal. apply bool_decide_ext. split; [by intros ->|by intros [= ->]].
Qed.

(** ** The three-way merge of a cell *)

Definition merge_cell (b o t : option Value) : option (option Value) :=
  if same o t then Some o else if same o b then Some t else if same t b then Some o else None.

Lemma resolve_spec b o t : cell_ok b -> cell_ok o -> cell_ok t -> resolve b o t = Ok (merge_cell b o t).
Proof.
  intros Hb Ho Ht. unfold resolve, merge_cell. rewrite !opt_eq_spec by done. cbn [rbind].
  destruct (same o t); [done|]. destruct (same o b); [done|]. by destruct (same t b).
Qed.

Definition cell_value (r : option (option Value)) : option Value := r ≫= id.

Definition conflict_at (base ours theirs : properties_map) (name : bytes) : option PropertyConflict :=
  match merge_cell (base !! name) (ours !! name) (theirs !! name) with
  | Some _ => None
  | None => Some (mkPropertyConflict name (base !! name) (ours !! name) (theirs !! name))
  end.

Definition cells_ok (m : properties_map) : Prop := map_Forall (fun _ v => encodes v) m.

Lemma cells_ok_at m name : cells_ok m -> cell_ok (m !! name).
Proof. intros H v Hv. by apply (H name). Qed.

Lemma merge_names_spec base ours theirs names merged conflicts :
  cells_ok base -> cells_ok ours -> cells_ok theirs -> NoDup names -> (forall n, n ∈ names -> merged !! n = None) ->
  exists merged', merge_names base ours theirs names merged conflicts =
      Ok (merged', conflicts ++ omap (conflict_at base ours theirs) names) /\
    forall n, merged' !! n = if bool_decide (n ∈ names)
      then cell_value (merge_cell (base !! n) (ours !! n) (theirs !! n)) else merged !! n.
Proof.
  intros Hb Ho Ht Hn. revert merged conflicts. induction Hn as [|name names Hin Hn IH]; intros merged conflicts Hm; cbn [merge_names].
  { exists merged. split; [by rewrite app_nil_r|done]. }
  rewrite resolve_spec by (by apply cells_ok_at). cbn [rbind omap list_omap]. unfold conflict_at at 1.
  set (r := merge_cell (base !! name) (ours !! name) (theirs !! name)).
  destruct (IH (match r with Some (Some v) => <[name := v]> merged | _ => merged end)
    (match r with Some _ => conflicts | None => conflicts ++ [mkPropertyConflict name (base !! name) (ours !! name) (theirs !! name)] end))
    as (merged' & E & H); [|exists merged'; split].
  - intros n Hin'. destruct r as [[v|]|]; cbn; [rewrite lookup_insert_ne by (by intros ->)|..]; apply Hm; by right.
  - etrans; [exact E|]. f_equal. f_equal. destruct r; [done|]. by rewrite <-app_assoc.
  - intros n. rewrite H. destruct (decide (n = name)) as [->|Hne].
    + rewrite bool_decide_false by done. rewrite bool_decide_true by (by left). fold r.
      destruct r as [[v|]|]; cbn; [by rewrite lookup_insert_eq|by apply Hm; left..].
    + rewrite (bool_decide_ext (n ∈ names) (n ∈ name :: names)) by (rewrite elem_of_cons; naive_solver).
      case_bool_decide; [done|]. destruct r as [[v|]|]; [by rewrite lookup_insert_ne|done..].
Qed.

Lemma conflict_at_Some base ours theirs n c :
  conflict_at base ours theirs n = Some c <->
  merge_cell (base !! n) (ours !! n) (theirs !! n) = None /\ c = mkPropertyConflict n (base !! n) (ours !! n) (theirs !! n).
Proof. unfold conflict_at. destruct (merge_cell _ _ _); split; try done; [by intros [? _]|by intros [= <-]|by intros [_ ->]]. Qed.

Lemma conflicts_sorted base ours theirs names :
  StronglySorted bytes_lt names -> StronglySorted bytes_lt (map pc_property (omap (conflict_at base ours theirs) names)).
Proof.
  induction names as [|n names IH]; cbn [omap list_omap map]; [intros _; apply SSorted_nil|].
  intros [Hs Hn]%StronglySorted_inv. destruct (conflict_at base ours theirs n) as [c|] eqn:E; [|by apply IH].
  apply conflict_at_Some in E as [_ ->]. cbn [map pc_property]. apply SSorted_cons; [by apply IH|].
  rewrite Forall_forall in Hn |- *. intros x Hx. apply list_elem_of_fmap in Hx as (c & -> & Hc).
  apply list_elem_of_omap in Hc as (m & Hm & Hc). apply conflict_at_Some in Hc as [_ ->]. by apply Hn.
Qed.

Definition all_names (base ours theirs : properties_map) : gset bytes := dom base ∪ dom ours ∪ dom theirs.

Lemma merge_cell_absent : merge_cell None None None = Some None.
Proof. reflexivity. Qed.

Lemma all_names_absent (base ours theirs : properties_map) n :
  n ∉ all_names base ours theirs -> base !! n = None /\ ours !! n = None /\ theirs !! n = None.
Proof. unfold all_names. rewrite !not_elem_of_union, !not_elem_of_dom. tauto. Qed.

(** The merge of two property maps, cell by cell. *)
Definition merges (base ours theirs merged : properties_map) (conflicts : list PropertyConflict) : Prop :=
  (forall n, merged !! n = cell_value (merge_cell (base !! n) (ours !! n) (theirs !! n))) /\
  StronglySorted bytes_lt (map pc_property conflicts) /\
  forall c, c ∈ conflicts <-> conflict_at base ours theirs (pc_property c) = Some c.

Lemma merge_properties_ok base ours theirs :
  cells_ok base -> cells_ok ours -> cells_ok theirs ->
  exists merged, merge_properties base ours theirs =
      Ok (merged, omap (conflict_at base ours theirs) (in_order (all_names base ours theirs))) /\
    merges base ours theirs merged (omap (conflict_at base ours theirs) (in_order (all_names base ours theirs))).
Proof.
  intros Hb Ho Ht. pose proof (in_order_sorted (all_names base ours theirs)) as Hs.
  destruct (merge_names_spec base ours theirs (in_order (all_names base ours theirs)) ∅ []) as (merged & E & H); try done.
  { by apply (strongly_sorted_NoDup bytes_lt). }
  exists merged. split; [exact E|]. split; [|split; [by apply conflicts_sorted|]].
  - intros n. rewrite H. case_bool_decide as Hin; [done|]. rewrite in_order_elem in Hin.
    apply all_names_absent in Hin as (-> & -> & ->). done.
  - intros c. rewrite list_elem_of_omap. split.
    + intros (n & _ & Hc). pose proof Hc as Hc'. by apply conflict_at_Some in Hc' as [_ ->].
    + intros Hc. exists (pc_property c). split; [|done]. apply in_order_elem. apply conflict_at_Some in Hc as [Hc _].
      destruct (decide (pc_property c ∈ all_names base ours theirs)) as [|Hn]; [done|].
      apply all_names_absent in Hn as (E1 & E2 & E3). by rewrite E1, E2, E3 in Hc.
Qed.

(** *** The laws of a cell *)

Lemma same_refl a : same a a = true.
Proof. by apply bool_decide_true. Qed.

Lemma same_comm a b : same a b = same b a.
Proof. apply bool_decide_ext. by split. Qed.

Definition swap (c : PropertyConflict) : PropertyConflict :=
  mkPropertyConflict (pc_property c) (pc_base c) (pc_theirs c) (pc_ours c).

Lemma merge_cell_comm b o t :
  option_map (option_map normal) (merge_cell b t o) = option_map (option_map normal) (merge_cell b o t).
Proof.
  unfold merge_cell. rewrite (same_comm t o). destruct (same o t) eqn:E1.
  { apply bool_decide_eq_true in E1. exact (f_equal Some (eq_sym E1)). }
  destruct (same o b) eqn:E2, (same t b) eqn:E3; try done.
  apply bool_decide_eq_true in E2, E3. apply bool_decide_eq_false in E1. by rewrite E2, E3 in E1.
Qed.

Lemma conflict_at_comm base ours theirs n :
  conflict_at base theirs ours n = swap <$> conflict_at base ours theirs n.
Proof.
  unfold conflict_at. pose proof (merge_cell_comm (base !! n) (ours !! n) (theirs !! n)) as H.
  by destruct (merge_cell (base !! n) (theirs !! n) (ours !! n)), (merge_cell (base !! n) (ours !! n) (theirs !! n)).
Qed.

(** A side that did not change a cell gives way; two sides that agree stand. *)
Lemma merge_cell_laws b o t :
  normal <$> cell_value (merge_cell b b t) = normal <$> t /\
  normal <$> cell_value (merge_cell b o b) = normal <$> o /\
  cell_value (merge_cell b o o) = o.
Proof.
  unfold merge_cell. rewrite !same_refl. split; [|split; [|done]].
  - destruct (same b t) eqn:E; [|done]. by apply bool_decide_eq_true in E.
  - destruct (same o b) eqn:E; done.
Qed.

(** ** Labels *)

Lemma merge_labels_elem base ours theirs l :
  l ∈ merge_labels base ours theirs <->
  if bool_decide (l ∈ base) then l ∈ ours /\ l ∈ theirs else l ∈ ours \/ l ∈ theirs.
Proof.
  unfold merge_labels. rewrite list_elem_of_In, filter_In, <-list_elem_of_In, in_order_elem.
  rewrite !elem_of_union, !elem_of_list_to_set.
  destruct (decide (l ∈ base)), (decide (l ∈ ours)), (decide (l ∈ theirs));
    rewrite ?(bool_decide_true (l ∈ base)), ?(bool_decide_false (l ∈ base)),
      ?(bool_decide_true (l ∈ ours)), ?(bool_decide_false (l ∈ ours)),
      ?(bool_decide_true (l ∈ theirs)), ?(bool_decide_false (l ∈ theirs)) by done; cbn; naive_solver.
Qed.

Lemma merge_labels_comm base ours theirs : merge_labels base theirs ours = merge_labels base ours theirs.
Proof.
  unfold merge_labels. rewrite <-!(assoc_L (∪)), (comm_L (∪) (list_to_set theirs)).
  apply filter_ext. intros l. by destruct (bool_decide (l ∈ base)), (bool_decide (l ∈ ours)), (bool_decide (l ∈ theirs)).
Qed.

(** ** Records *)

Lemma omap_conflicts_comm base ours theirs names :
  omap (conflict_at base theirs ours) names = map swap (omap (conflict_at base ours theirs) names).
Proof.
  induction names as [|n names IH]; [done|]. cbn [omap list_omap]. rewrite conflict_at_comm, IH.
  by destruct (conflict_at base ours theirs n).
Qed.

Lemma all_names_comm base ours theirs : all_names base theirs ours = all_names base ours theirs.
Proof. unfold all_names. by rewrite <-!(assoc_L (∪)), (comm_L (∪) (dom theirs)). Qed.

Lemma merges_comm base ours theirs merged merged' cs cs' :
  merges base ours theirs merged cs -> merges base theirs ours merged' cs' -> normal <$> merged' = normal <$> merged.
Proof.
  intros (H & _) (H' & _). apply map_eq. intros n. rewrite !lookup_fmap, H, H'.
  pose proof (merge_cell_comm (base !! n) (ours !! n) (theirs !! n)) as E.
  destruct (merge_cell (base !! n) (theirs !! n) (ours !! n)), (merge_cell (base !! n) (ours !! n) (theirs !! n)); try done.
  cbn in *. by injection E.
Qed.

(** A record changed on both branches merges cell by cell. For records
    whose values the encoder accepts the merge succeeds. A property both sides
    agree on stands, one changed by a single side takes that side's change,
    deletion included, and any other property is left out and reported once,
    with its three values, in name order; values are compared by their
    canonical encoding, so NaNs agree. A label stays if neither side removed
    it and appears if either side added it. Exchanging the sides gives the same
    record, NaN payloads aside, and the same conflicts with the sides exchanged. *)
Lemma merge_node_record_spec b o t :
  cells_ok (properties b) -> cells_ok (properties o) -> cells_ok (properties t) ->
  exists r cs, merge_node_record b o t = Ok (r, cs) /\
    merges (properties b) (properties o) (properties t) (properties r) cs /\
    StronglySorted canonical_lt (secondary_labels r) /\
    (forall l, l ∈ secondary_labels r <->
      if bool_decide (l ∈ secondary_labels b)
      then l ∈ secondary_labels o /\ l ∈ secondary_labels t
      else l ∈ secondary_labels o \/ l ∈ secondary_labels t) /\
    exists r', merge_node_record b t o = Ok (r', map swap cs) /\
      secondary_labels r' = secondary_labels r /\ normal <$> properties r' = normal <$> properties r.
Proof.
  intros Hb Ho Ht. destruct (merge_properties_ok _ _ _ Hb Ho Ht) as (m & E & Hm).
  destruct (merge_properties_ok _ _ _ Hb Ht Ho) as (m' & E' & Hm').
  unfold merge_node_record. rewrite E, E'. cbn [rbind]. eexists _, _. split; [done|]. split; [done|].
  split; [apply normalise_strings_ascending|]. split.
  - intros l. cbn [secondary_labels node_record_new]. by rewrite normalise_strings_elem, merge_labels_elem.
  - eexists. split; [by rewrite all_names_comm, omap_conflicts_comm|]. cbn [secondary_labels properties node_record_new].
    split; [by rewrite merge_labels_comm|]. by eapply merges_comm.
Qed.

Lemma merge_edge_record_spec b o t :
  cells_ok (edge_properties b) -> cells_ok (edge_properties o) -> cells_ok (edge_properties t) ->
  exists r cs, merge_edge_record b o t = Ok (r, cs) /\
    merges (edge_properties b) (edge_properties o) (edge_properties t) (edge_properties r) cs.
Proof.
  intros Hb Ho Ht. destruct (merge_properties_ok _ _ _ Hb Ho Ht) as (m & E & Hm).
  unfold merge_edge_record. rewrite E. by eexists _, _.
Qed.

(** ** A merge *)

Definition base_record : NodeRecord := mkNodeRecord [[x61]] {[ [x76] := VInt 0; [x6e] := VFloat (CANONICAL_NAN_BITS + 1) ]}.
Definition ours_record : NodeRecord :=
  mkNodeRecord [[x61]; [x62]] {[ [x76] := VInt 1; [x6e] := VFloat CANONICAL_NAN_BITS; [x6f] := VBool true ]}.
Definition theirs_record : NodeRecord := mkNodeRecord [] {[ [x76] := VInt 2; [x6e] := VFloat CANONICAL_NAN_BITS ]}.

Lemma merge_computed :
  match merge_node_record base_record ours_record theirs_record with
  | Ok (r, cs) => secondary_labels r = [[x62]] /\ properties r !! [x76] = None /\ properties r !! [x6f] = Some (VBool true) /\
      cs = [mkPropertyConflict [x76] (Some (VInt 0)) (Some (VInt 1)) (Some (VInt 2))]
  | Err _ => False
  end.
Proof. vm_compute. by split_and!. Qed.

Lemma encodes_compute v : (value_ok v && is_ok (encode_value v)) = true -> encodes v.
Proof. rewrite andb_true_iff. intros [H1 H2]. split; [done|]. destruct (encode_value v) as [e|]; [by exists e|done]. Qed.

Lemma sample_cells : cells_ok (properties base_record) /\ cells_ok (properties ours_record) /\ cells_ok (properties theirs_record).
Proof.
  unfold cells_ok. cbn [properties base_record ours_record theirs_record].
  split; [|split]; repeat (apply map_Forall_insert_2; [apply encodes_compute; vm_compute; reflexivity|]);
    apply map_Forall_empty.
Qed.

Lemma merge_node_record_spec_witness :
  exists r cs, merge_node_record base_record ours_record theirs_record = Ok (r, cs) /\
    merges (properties base_record) (properties ours_record) (properties theirs_record) (properties r) cs /\
    StronglySorted canonical_lt (secondary_labels r) /\
    (forall l, l ∈ secondary_labels r <->
      if bool_decide (l ∈ secondary_labels base_record)
      then l ∈ secondary_labels ours_record /\ l ∈ secondary_labels theirs_record
      else l ∈ secondary_labels ours_record \/ l ∈ secondary_labels theirs_record) /\
    exists r', merge_node_record base_record theirs_record ours_record = Ok (r', map swap cs) /\
      secondary_labels r' = secondary_labels r /\ normal <$> properties r' = normal <$> properties r.
Proof.
  destruct sample_cells as (H1 & H2 & H3).
  exact (merge_node_record_spec base_record ours_record theirs_record H1 H2 H3).
Defined.
