(* ===== verification/GraphMerge.v ===== *)
(** * Merging the maps of a graph (crates/acetone-graph/src/merge.rs)

    [merge_one] merges one map of two versions and refines the conflicts of the
    node and edge maps cell by cell; [rebuild_reverse] derives the reverse edge
    map.  The three-way merge of the map layer takes the fuel of its loops. *)
From S2P Require Import Prelude Model Values Records GraphKeys Schema Store Chunker Node Tree Manifest Diff Scan MapMerge Graph CellMerge.

Inductive ConflictMap : Type := MSchema | MNodes | MEdges.

#[global] Instance conflict_map_eq_dec : EqDecision ConflictMap.
Proof. solve_decision. Defined.

Record CellConflict : Type := mkCellConflict {
  cell_map : ConflictMap; cell_key : bytes; cell_property : option bytes;
  cell_base : option bytes; cell_ours : option bytes; cell_theirs : option bytes }.

Inductive Endpoint : Type := Src | Dst.

Inductive GraphViolation : Type :=
| DanglingEdge (edge endpoint : bytes) (role : Endpoint)
| MissingRequired (node property : bytes)
| WrongType (node property : bytes) (declared actual : PropertyType)
| EdgeWrongType (edge property : bytes) (declared actual : PropertyType)
| StaleDiscriminator (edge : bytes) (declared minted : option bytes)
| UniqueViolation (label property value : bytes) (nodes : list bytes).

Inductive MergeConflict : Type :=
| Cell (cell : CellConflict)
| GraphConflict (violation : GraphViolation).

Definition encode_opt_value (value : option Value) : result GraphError (option bytes) :=
  match value with
  | Some v => let? e := map_err GValueEncode (encode_value v) in Ok (Some e)
  | None => Ok None
  end.

(** A conflict kept whole: its three values are the records' bytes. *)
Definition whole_conflict (map : ConflictMap) (c : Conflict) : CellConflict :=
  mkCellConflict map (c_key c) None (c_base c) (c_ours c) (c_theirs c).

(** The records of a key both sides hold, merged. *)
Definition refine_record (map : ConflictMap) (base : option bytes) (ours_bytes theirs_bytes : bytes)
    : result GraphError (bytes * list PropertyConflict) :=
  match map with
  | MNodes =>
    let? base_rec :=
      match base with
      | Some b => map_err GRecordDecode (node_record_decode b)
      | None => Ok (node_record_new [] ∅)
      end in
    let? ours_rec := map_err GRecordDecode (node_record_decode ours_bytes) in
    let? theirs_rec := map_err GRecordDecode (node_record_decode theirs_bytes) in
    let? '(rec, pcs) := merge_node_record base_rec ours_rec theirs_rec in
    let? e := map_err GRecordEncode (node_record_encode rec) in
    Ok (e, pcs)
  | MEdges =>
    let? base_rec :=
      match base with
      | Some b => map_err GRecordDecode (edge_record_decode b)
      | None => Ok (mkEdgeRecord ∅)
      end in
    let? ours_rec := map_err GRecordDecode (edge_record_decode ours_bytes) in
    let? theirs_rec := map_err GRecordDecode (edge_record_decode theirs_bytes) in
    let? '(rec, pcs) := merge_edge_record base_rec ours_rec theirs_rec in
    let? e := map_err GRecordEncode (edge_record_encode rec) in
    Ok (e, pcs)
  | MSchema => Err (GPanic "schema handled above")
  end.

Fixpoint property_conflicts (map : ConflictMap) (key : bytes) (pcs : list PropertyConflict)
    : result GraphError (list CellConflict) :=
  match pcs with
  | [] => Ok []
  | pc :: pcs =>
    let? base := encode_opt_value (pc_base pc) in
    let? ours := encode_opt_value (pc_ours pc) in
    let? theirs := encode_opt_value (pc_theirs pc) in
    let? cells := property_conflicts map key pcs in
    Ok (mkCellConflict map key (Some (pc_property pc)) base ours theirs :: cells)
  end.

(** The loop over the conflicts of a node or edge map. *)
Fixpoint refine_conflicts (map : ConflictMap) (cs : list Conflict) (puts : list BatchOp) (conflicts : list CellConflict)
    : result GraphError (list BatchOp * list CellConflict) :=
  match cs with
  | [] => Ok (puts, conflicts)
  | c :: cs =>
    match c_ours c, c_theirs c with
    | Some ours_bytes, Some theirs_bytes =>
      let? '(merged_value, prop_conflicts) := refine_record map (c_base c) ours_bytes theirs_bytes in
      let? cells := property_conflicts map (c_key c) prop_conflicts in
      refine_conflicts map cs (puts ++ [Put (c_key c) merged_value]) (conflicts ++ cells)
    | _, _ => refine_conflicts map cs puts (conflicts ++ [whole_conflict map c])
    end
  end.

Definition select (map : ConflictMap) (m : Manifest) : MapRoot :=
  match map with MSchema => m_schema m | MNodes => m_nodes m | MEdges => m_edges_fwd m end.

Section merge.
Context {S : Type} {CS : ChunkStore S}.

Definition root_of (r : MapRoot) (p : ChunkParams) : st S GraphError Root :=
  st_read (fun _ => map_err GProlly (to_root r p)).

Definition merge_one (fuel : nat) (map : ConflictMap) (base ours theirs : Manifest) (conflicts : list CellConflict)
    : st S GraphError (Root * list CellConflict) :=
  let p := chunk_params base in
  let! rb := root_of (select map base) p in
  let! ro := root_of (select map ours) p in
  let! rt := root_of (select map theirs) p in
  let! outcome := on_map (MapMerge.merge fuel rb ro rt) in
  if bool_decide (map = MSchema)
  then st_ret (merged_root outcome, conflicts ++ List.map (whole_conflict map) (MapMerge.conflicts outcome))
  else
    let! '(puts, conflicts) := st_read (fun _ => refine_conflicts map (MapMerge.conflicts outcome) [] conflicts) in
    match puts with
    | [] => st_ret (merged_root outcome, conflicts)
    | _ :: _ =>
      let! root := on_map (apply_batch (merged_root outcome) puts) in
      st_ret (root, conflicts)
    end.

(** The reverse map of a forward edge map. *)
Definition reverse_entry (key value : bytes) (ops : list BatchOp) : result GraphError (flow (list BatchOp)) :=
  let? edge := map_err GGraphKey (decode_fwd key) in
  let? rev := map_err GGraphKey (encode_rev edge) in
  Ok (Continue (ops ++ [Put rev []])).

Definition rebuild_reverse (fuel : nat) (edges_fwd : Root) (p : ChunkParams) : st S GraphError Root :=
  let! ops := st_read (fun store => for_each fuel store edges_fwd Unbounded Unbounded reverse_entry []) in
  let! base := on_map (empty_map p) in
  on_map (apply_batch base ops).
End merge.
