(* ===== verification/GraphMergeRun.v ===== *)
(** * Merging graph maps is a three-way merge of cells

    The merge of a node or edge map takes clean changes whole, merges records
    both sides hold cell by cell and reports what is left, whatever the order
    of the sides; the reverse edge map mirrors the forward one. *)
From S2P Require Import Prelude Ieee Model Cbor Values Canonical Records KeysCodec GraphKeys Schema Store Chunker Node Tree TreeSpec TreeNodes TreeRead TreeBuild TreeLevels TreeContent TreeBatch Prolly Manifest Diff DiffRun MapDiff MapMerge Scan ScanRun Graph GraphRun CellMerge GraphMerge.

(** ** Records that decode *)

Lemma write_all_ok {A E : Type} (f : A -> result E bytes) l :
  (forall x, x ∈ l -> exists e, f x = Ok e) <-> exists b, write_all f l = Ok b.
Proof.
  induction l as [|x l IH]; cbn [write_all]; [split; [by exists []|intros _ x H; by apply elem_of_nil in H]|]. split.
  - intros H. destruct (H x) as [e ->]; [by left|]. cbn [rbind].
    destruct (proj1 IH) as [b ->]; [intros y Hy; apply H; by right|]. by eexists.
  - intros [b H] y Hy. apply rbind_Ok in H as (e & He & H). apply rbind_Ok in H as (b' & H & _).
    apply elem_of_cons in Hy as [->|Hy]; [by exists e|]. by apply (proj2 IH); [exists b'|].
Qed.

Lemma encode_value_write v : (exists e, encode_value v = Ok e) <-> exists e, write_property v = Ok e.
Proof.
  unfold encode_value, encode_value_into, write_property. destruct (write_value v 0) as [e|e]; cbn; split; intros [x Hx]; try done; by eexists.
Qed.

Lemma write_properties_ok m :
  map_Forall (fun _ v => exists e, encode_value v = Ok e) m <-> exists b, write_properties m = Ok b.
Proof.
  unfold write_properties, write_map.
  transitivity (forall x, x ∈ entries_of m -> exists e, write_entry write_property x = Ok e).
  - unfold write_entry. split.
    + intros H [k v] Hx. apply entries_of_elem in Hx. destruct (proj1 (encode_value_write v) (H k v Hx)) as [e E].
      cbn [snd fst]. rewrite E. by eexists.
    + intros H k v Hkv. apply entries_of_elem in Hkv. destruct (H _ Hkv) as [e E]. cbn [snd fst] in E.
      apply rbind_Ok in E as (e' & E & _). apply encode_value_write. by exists e'.
  - rewrite write_all_ok. split; intros [b H]; [rewrite H; by eexists|].
    apply rbind_Ok in H as (b' & H & _). by exists b'.
Qed.

(** What a record's bytes stand for: labels and properties. *)
Definition view (map : ConflictMap) (v : bytes) : option (list bytes * properties_map) :=
  match map with
  | MNodes => match node_record_decode v with Ok r => Some (secondary_labels r, properties r) | Err _ => None end
  | MEdges => match edge_record_decode v with Ok r => Some ([], edge_properties r) | Err _ => None end
  | MSchema => None
  end.

Definition base_view (map : ConflictMap) (b : option bytes) : option (list bytes * properties_map) :=
  match b with Some v => view map v | None => Some ([], ∅) end.

(** [v] encodes the record with these labels and properties. *)
Definition writes (map : ConflictMap) (ls : list bytes) (m : properties_map) (v : bytes) : Prop :=
  match map with
  | MNodes => node_record_encode (mkNodeRecord ls m) = Ok v
  | MEdges => ls = [] /\ edge_record_encode (mkEdgeRecord m) = Ok v
  | MSchema => False
  end.

Definition readable (map : ConflictMap) (v : bytes) : Prop :=
  (Z.of_nat (length v) < 2 ^ 63)%Z /\ is_Some (view map v).

Definition is_normal (m : properties_map) : Prop := Values.normal <$> m = m.

Lemma props_cells m b : props_ok m -> write_properties m = Ok b -> cells_ok m.
Proof.
  intros [Hok _] Hw. assert (exists b, write_properties m = Ok b) as H by (by exists b).
  apply write_properties_ok in H. intros k v Hv. split; [|by apply (H k v)]. by apply (Hok k v).
Qed.

Lemma view_cells map v ls m :
  (Z.of_nat (length v) < 2 ^ 63)%Z -> view map v = Some (ls, m) -> cells_ok m /\ is_normal m.
Proof.
  intros Hlen H. destruct map; cbn [view] in H; [done| |].
  - destruct (node_record_decode v) as [r|] eqn:E; [|done]. injection H as <- <-.
    destruct (node_record_decode_Ok v r Hlen E) as (He & [_ Hp] & Hn). unfold node_record_encode in He.
    apply rbind_Ok in He as (b & Hb & _). split; [by eapply props_cells|]. exact (f_equal properties Hn).
  - destruct (edge_record_decode v) as [r|] eqn:E; [|done]. injection H as <- <-.
    apply (edge_record_decode_Ok v r Hlen) in E as (He & Hp & Hn). unfold edge_record_encode in He.
    split; [by eapply props_cells|done].
Qed.

Lemma cells_ok_empty : cells_ok ∅ /\ is_normal ∅.
Proof. split; [apply map_Forall_empty|apply fmap_empty]. Qed.

Lemma base_view_cells map b ls m :
  (forall v, b = Some v -> readable map v) -> base_view map b = Some (ls, m) -> cells_ok m /\ is_normal m.
Proof.
  destruct b as [v|]; cbn [base_view]; intros Hb H; [|injection H as _ <-; apply cells_ok_empty].
  destruct (Hb v eq_refl) as [Hl _]. by eapply view_cells.
Qed.

(** ** Refining one key *)

(** The merge of two records against their base: its bytes and its conflicts. *)
Definition refined (map : ConflictMap) (b : option bytes) (o t : bytes) (v : bytes) (pcs : list PropertyConflict) : Prop :=
  exists lb pb lo po lt pt ls m,
    base_view map b = Some (lb, pb) /\ view map o = Some (lo, po) /\ view map t = Some (lt, pt) /\
    writes map ls m v /\ merges pb po pt m pcs /\ StronglySorted canonical_lt ls /\
    forall l, l ∈ ls <-> if bool_decide (l ∈ lb) then l ∈ lo /\ l ∈ lt else l ∈ lo \/ l ∈ lt.

Lemma merge_cell_from b o t v : cell_value (merge_cell b o t) = Some v -> o = Some v \/ t = Some v.
Proof. unfold merge_cell. destruct (same o t), (same o b), (same t b); cbn; auto; done. Qed.

Lemma merges_cells pb po pt m pcs : merges pb po pt m pcs -> cells_ok po -> cells_ok pt -> cells_ok m.
Proof.
  intros (H & _) Ho Ht k v Hv. rewrite H in Hv. apply merge_cell_from in Hv as [Hv|Hv]; [by apply (Ho k)|by apply (Ht k)].
Qed.

Lemma merges_normal pb po pt m pcs : merges pb po pt m pcs -> is_normal po -> is_normal pt -> is_normal m.
Proof.
  intros (H & _) Ho Ht. apply map_eq. intros k. rewrite lookup_fmap. destruct (m !! k) as [v|] eqn:Hv; [|done].
  cbn. f_equal. rewrite H in Hv. apply merge_cell_from in Hv as [Hv|Hv].
  - rewrite <-Ho, lookup_fmap in Hv. destruct (po !! k) as [x|] eqn:Ex; [|done]. injection Hv as <-.
    pose proof Ho as Ho'. apply (f_equal (lookup k)) in Ho'. rewrite lookup_fmap, Ex in Ho'. injection Ho' as Ho'. by rewrite !Ho'.
  - rewrite <-Ht, lookup_fmap in Hv. destruct (pt !! k) as [x|] eqn:Ex; [|done]. injection Hv as <-.
    pose proof Ht as Ht'. apply (f_equal (lookup k)) in Ht'. rewrite lookup_fmap, Ex in Ht'. injection Ht' as Ht'. by rewrite !Ht'.
Qed.

Lemma cells_encode m : cells_ok m -> exists b, write_properties m = Ok b.
Proof. intros H. apply write_properties_ok. intros k v Hv. by apply (H k v). Qed.

Lemma refine_record_ok map b o t :
  map <> MSchema -> (forall v, b = Some v -> readable map v) -> readable map o -> readable map t ->
  exists v pcs, refine_record map b o t = Ok (v, pcs) /\ refined map b o t v pcs /\
    Forall (fun pc => cell_ok (pc_base pc) /\ cell_ok (pc_ours pc) /\ cell_ok (pc_theirs pc)) pcs /\
    refine_record map b t o = Ok (v, List.map swap pcs).
Proof.
  intros Hmap Hb [Hlo Ho] [Hlt Ht].
  destruct Ho as [[lo po] Ho], Ht as [[lt pt] Ht].
  assert (exists lb pb, base_view map b = Some (lb, pb)) as (lb & pb & Eb).
  { destruct b as [v|]; cbn; [|by eexists _, _]. destruct (Hb v eq_refl) as [_ [[lb pb] Eb]]. by exists lb, pb. }
  destruct (base_view_cells map b lb pb Hb Eb) as [Cb Nb].
  destruct (view_cells map o lo po Hlo Ho) as [Co No], (view_cells map t lt pt Hlt Ht) as [Ct Nt].
  destruct (merge_properties_ok pb po pt Cb Co Ct) as (m & Em & Hm), (merge_properties_ok pb pt po Cb Ct Co) as (m' & Em' & Hm').
  pose proof (merges_cells _ _ _ _ _ Hm Co Ct) as Cm. destruct (cells_encode m Cm) as [enc Henc].
  assert (m' = m) as ->.
  { pose proof (merges_comm _ _ _ _ _ _ _ Hm Hm') as E. pose proof (merges_normal _ _ _ _ _ Hm No Nt) as N1.
    pose proof (merges_normal _ _ _ _ _ Hm' Nt No) as N2. unfold is_normal in *. by rewrite N1, N2 in E. }
  rewrite all_names_comm, omap_conflicts_comm in Em'.
  set (pcs := omap (conflict_at pb po pt) (in_order (all_names pb po pt))) in *.
  assert (Forall (fun pc => cell_ok (pc_base pc) /\ cell_ok (pc_ours pc) /\ cell_ok (pc_theirs pc)) pcs) as Hcells.
  { apply Forall_forall. intros pc Hpc. apply (proj2 (proj2 Hm)) in Hpc. apply conflict_at_Some in Hpc as [_ ->].
    cbn [pc_base pc_ours pc_theirs]. split; [|split]; by apply cells_ok_at. }
  destruct map; [done| |]; cbn [refine_record view] in *.
  - destruct (node_record_decode o) as [ro|] eqn:Ero; [|done]. destruct (node_record_decode t) as [rt|] eqn:Ert; [|done].
    injection Ho as <- <-. injection Ht as <- <-. cbn [map_err rbind].
    assert (exists rb, match b with Some b => map_err GRecordDecode (node_record_decode b)
      | None => Ok (node_record_new [] ∅) end = Ok rb /\ secondary_labels rb = lb /\ properties rb = pb) as (rb & -> & <- & <-).
    { destruct b as [v|]; cbn [base_view view] in Eb.
      - destruct (node_record_decode v) as [rb|]; [|done]. injection Eb as <- <-. by exists rb.
      - injection Eb as <- <-. by eexists. }
    cbn [rbind]. unfold merge_node_record. rewrite Em, Em', (merge_labels_comm (secondary_labels rb) (secondary_labels ro) (secondary_labels rt)). cbn [rbind].
    unfold node_record_encode. cbn [node_record_new properties]. rewrite Henc. cbn [rbind map_err].
    eexists _, pcs. split; [done|]. split; [|by split].
    exists (secondary_labels rb), (properties rb), (secondary_labels ro), (properties ro), (secondary_labels rt), (properties rt),
      (normalise_strings (merge_labels (secondary_labels rb) (secondary_labels ro) (secondary_labels rt))), m.
    split; [exact Eb|]. cbn [view]. rewrite Ero, Ert. split; [done|]. split; [done|].
    split; [cbn [writes]; unfold node_record_encode; cbn [properties]; rewrite Henc; reflexivity|]. split; [done|].
    split; [apply normalise_strings_ascending|]. intros l. by rewrite normalise_strings_elem, merge_labels_elem.
  - destruct (edge_record_decode o) as [ro|] eqn:Ero; [|done]. destruct (edge_record_decode t) as [rt|] eqn:Ert; [|done].
    injection Ho as <- <-. injection Ht as <- <-. cbn [map_err rbind].
    assert (exists rb, match b with Some b => map_err GRecordDecode (edge_record_decode b)
      | None => Ok (mkEdgeRecord ∅) end = Ok rb /\ lb = [] /\ edge_properties rb = pb) as (rb & -> & -> & <-).
    { destruct b as [v|]; cbn [base_view view] in Eb.
      - destruct (edge_record_decode v) as [rb|]; [|done]. injection Eb as <- <-. by exists rb.
      - injection Eb as <- <-. by eexists. }
    cbn [rbind]. unfold merge_edge_record. rewrite Em, Em'. cbn [rbind]. unfold edge_record_encode.
    cbn [edge_properties]. rewrite Henc. cbn [rbind map_err].
    eexists _, pcs. split; [done|]. split; [|by split].
    exists [], (edge_properties rb), [], (edge_properties ro), [], (edge_properties rt), [], m.
    split; [exact Eb|]. cbn [view]. rewrite Ero, Ert. split; [done|]. split; [done|]. split; [done|]. split; [done|]. split; [constructor|].
    intros l. split; [by intros H%elem_of_nil|]. case_bool_decide as E; [by apply elem_of_nil in E|].
    intros [H|H]; by apply elem_of_nil in H.
Qed.

(** ** What a key merges to *)

Definition record_merge (map : ConflictMap) (b : option bytes) (o t : bytes) : option (bytes * list PropertyConflict) :=
  match refine_record map b o t with Ok r => Some r | Err _ => None end.

(** The merged value of a key, from the three sides' values. *)
Definition resolved_value (map : ConflictMap) (b o t : option bytes) : option bytes :=
  match three_way b o t with
  | Some v => v
  | None =>
    match o, t with
    | Some ob, Some tb => option_map fst (record_merge map b ob tb)
    | _, _ => None
    end
  end.

Definition cells_of (map : ConflictMap) (k : bytes) (pcs : list PropertyConflict) : list CellConflict :=
  match property_conflicts map k pcs with Ok cs => cs | Err _ => [] end.

(** The conflicts of a key. *)
Definition resolved_cells (map : ConflictMap) (k : bytes) (b o t : option bytes) : list CellConflict :=
  match three_way b o t with
  | Some _ => []
  | None =>
    match map, o, t with
    | MSchema, _, _ | _, None, _ | _, _, None => [mkCellConflict map k None b o t]
    | _, Some ob, Some tb =>
      match record_merge map b ob tb with Some (_, pcs) => cells_of map k pcs | None => [] end
    end
  end.

Definition swap_cell (c : CellConflict) : CellConflict :=
  mkCellConflict (cell_map c) (cell_key c) (cell_property c) (cell_base c) (cell_theirs c) (cell_ours c).

Lemma encode_opt_value_ok a : cell_ok a -> exists e, encode_opt_value a = Ok e.
Proof.
  destruct a as [v|]; intros H; [|by exists None]. destruct (H v eq_refl) as [_ [e E]]. exists (Some e).
  cbn [encode_opt_value]. by rewrite E.
Qed.

Definition pc_ok (pc : PropertyConflict) : Prop := cell_ok (pc_base pc) /\ cell_ok (pc_ours pc) /\ cell_ok (pc_theirs pc).

Lemma property_conflicts_ok map k pcs :
  Forall pc_ok pcs -> exists cs, property_conflicts map k pcs = Ok cs /\
    property_conflicts map k (List.map swap pcs) = Ok (List.map swap_cell cs) /\
    Forall (fun c => cell_key c = k) cs.
Proof.
  induction 1 as [|pc pcs (H1 & H2 & H3) _ (cs & E & E' & Hk)]; [by exists []|].
  destruct (encode_opt_value_ok _ H1) as [b Eb], (encode_opt_value_ok _ H2) as [o Eo], (encode_opt_value_ok _ H3) as [t Et].
  cbn [property_conflicts List.map swap pc_base pc_ours pc_theirs pc_property]. rewrite Eb, Eo, Et, E, E'. cbn [rbind].
  eexists. split; [done|]. split; [done|]. by constructor.
Qed.

(** The values of the map are records the layer wrote. *)
Definition values_ok (map : ConflictMap) (M : gmap bytes bytes) : Prop :=
  map <> MSchema -> map_Forall (fun _ v => readable map v) M.

Lemma values_ok_at map M k v : map <> MSchema -> values_ok map M -> M !! k = Some v -> readable map v.
Proof. intros Hm H Hv. by apply (H Hm k). Qed.

Section key.
Context (map : ConflictMap) (MB MO MT : gmap bytes bytes).
Context (HB : values_ok map MB) (HO : values_ok map MO) (HT : values_ok map MT).

Lemma record_merge_ok k ob tb :
  map <> MSchema -> MO !! k = Some ob -> MT !! k = Some tb ->
  exists v pcs, refine_record map (MB !! k) ob tb = Ok (v, pcs) /\ refined map (MB !! k) ob tb v pcs /\ Forall pc_ok pcs /\
    refine_record map (MB !! k) tb ob = Ok (v, List.map swap pcs).
Proof.
  intros Hm Ho Ht. apply refine_record_ok; [done| |by apply (values_ok_at map MO k)|by apply (values_ok_at map MT k)].
  intros v Hv. by apply (values_ok_at map MB k).
Qed.

Lemma resolved_value_comm k : resolved_value map (MB !! k) (MT !! k) (MO !! k) = resolved_value map (MB !! k) (MO !! k) (MT !! k).
Proof.
  unfold resolved_value. rewrite three_way_comm. destruct (three_way (MB !! k) (MO !! k) (MT !! k)); [done|].
  destruct (MO !! k) as [ob|] eqn:Eo, (MT !! k) as [tb|] eqn:Et; try done.
  unfold record_merge. destruct (decide (map = MSchema)) as [->|Hm]; [done|].
  destruct (record_merge_ok k ob tb Hm Eo Et) as (v & pcs & -> & _ & _ & ->). done.
Qed.

Lemma resolved_cells_comm k :
  resolved_cells map k (MB !! k) (MT !! k) (MO !! k) = List.map swap_cell (resolved_cells map k (MB !! k) (MO !! k) (MT !! k)).
Proof.
  unfold resolved_cells. rewrite three_way_comm. destruct (three_way (MB !! k) (MO !! k) (MT !! k)); [done|].
  destruct (decide (map = MSchema)) as [->|Hm]; [done|].
  destruct (MO !! k) as [ob|] eqn:Eo, (MT !! k) as [tb|] eqn:Et; try by destruct map.
  unfold record_merge. destruct (record_merge_ok k ob tb Hm Eo Et) as (v & pcs & -> & _ & Hpc & ->).
  unfold cells_of. destruct (property_conflicts_ok map k pcs Hpc) as (cs & -> & -> & _). by destruct map.
Qed.

Lemma resolved_cells_key k : Forall (fun c => cell_key c = k) (resolved_cells map k (MB !! k) (MO !! k) (MT !! k)).
Proof.
  unfold resolved_cells. destruct (three_way (MB !! k) (MO !! k) (MT !! k)); [done|].
  destruct (decide (map = MSchema)) as [->|Hm]; [by apply Forall_singleton|].
  destruct (MO !! k) as [ob|] eqn:Eo, (MT !! k) as [tb|] eqn:Et; try (destruct map; by apply Forall_singleton).
  unfold record_merge. destruct (record_merge_ok k ob tb Hm Eo Et) as (v & pcs & -> & _ & Hpc & _).
  unfold cells_of. destruct (property_conflicts_ok map k pcs Hpc) as (cs & -> & _ & Hk). by destruct map.
Qed.

Definition conflict_of (k : bytes) : Conflict := mkConflict k (MB !! k) (MO !! k) (MT !! k).

Definition put_of (k : bytes) : list BatchOp :=
  match MO !! k, MT !! k with
  | Some _, Some _ =>
    match resolved_value map (MB !! k) (MO !! k) (MT !! k) with Some v => [Put k v] | None => [] end
  | _, _ => []
  end.

Definition cells_at (k : bytes) : list CellConflict := resolved_cells map k (MB !! k) (MO !! k) (MT !! k).

Lemma refine_conflicts_ok ks puts cs :
  map <> MSchema -> Forall (fun k => three_way (MB !! k) (MO !! k) (MT !! k) = None) ks ->
  refine_conflicts map (List.map conflict_of ks) puts cs =
    Ok (puts ++ concat (List.map put_of ks), cs ++ concat (List.map cells_at ks)).
Proof.
  intros Hm H. revert puts cs. induction H as [|k ks Hk _ IH]; intros puts cs; [by rewrite !app_nil_r|].
  cbn [List.map refine_conflicts conflict_of c_ours c_theirs c_base c_key concat].
  unfold put_of at 1, cells_at at 1, resolved_cells, resolved_value. rewrite Hk.
  destruct (MO !! k) as [ob|] eqn:Eo, (MT !! k) as [tb|] eqn:Et.
  - destruct (record_merge_ok k ob tb Hm Eo Et) as (v & pcs & Er & _ & Hpc & _).
    destruct (property_conflicts_ok map k pcs Hpc) as (cells & Ec & _ & _).
    unfold record_merge, cells_of. rewrite Er, Ec. cbn [rbind option_map fst]. rewrite Ec. cbn [rbind].
    rewrite IH. destruct map; [done| |]; by rewrite <-!app_assoc.
  - rewrite IH. unfold whole_conflict. cbn [c_key c_base c_ours c_theirs conflict_of]. rewrite Eo, Et.
    destruct map; [done| |]; by rewrite <-!app_assoc.
  - rewrite IH. unfold whole_conflict. cbn [c_key c_base c_ours c_theirs conflict_of]. rewrite Eo, Et.
    destruct map; [done| |]; by rewrite <-!app_assoc.
  - rewrite IH. unfold whole_conflict. cbn [c_key c_base c_ours c_theirs conflict_of]. rewrite Eo, Et.
    destruct map; [done| |]; by rewrite <-!app_assoc.
Qed.
End key.

(** ** One map of the graph *)

Lemma puts_lookup (map : ConflictMap) (MB MO MT M : gmap bytes bytes) (ks : list bytes) (k : bytes) :
  NoDup ks -> foldl op_map M (concat (List.map (put_of map MB MO MT) ks)) !! k =
    if bool_decide (k ∈ ks) then match put_of map MB MO MT k with Put _ v :: _ => Some v | _ => M !! k end else M !! k.
Proof.
  intros Hn. revert M. induction Hn as [|x ks Hx Hn IH]; intros M; [done|]. cbn [List.map concat]. rewrite foldl_app, IH.
  assert (foldl op_map M (put_of map MB MO MT x) !! k =
    if bool_decide (k = x) then match put_of map MB MO MT k with Put _ v :: _ => Some v | _ => M !! k end else M !! k) as E.
  { destruct (decide (k = x)) as [<-|Ek]; [rewrite bool_decide_true by done|rewrite bool_decide_false by done].
    - unfold put_of. destruct (MO !! k), (MT !! k); try done. destruct (resolved_value _ _ _ _); [|done].
      cbn. by rewrite lookup_insert_eq.
    - unfold put_of. destruct (MO !! x), (MT !! x); try done. destruct (resolved_value _ _ _ _); [|done].
      cbn. by rewrite lookup_insert_ne. }
  destruct (decide (k = x)) as [->|Hne].
  - rewrite (bool_decide_false (x ∈ ks)) by done. rewrite bool_decide_true in E by done. rewrite E.
    rewrite bool_decide_true by (by left). done.
  - rewrite bool_decide_false in E by done.
    assert (bool_decide (k ∈ x :: ks) = bool_decide (k ∈ ks)) as -> by (apply bool_decide_ext; rewrite elem_of_cons; naive_solver).
    case_bool_decide; [|done]. unfold put_of. destruct (MO !! k), (MT !! k); try done. by destruct (resolved_value _ _ _ _).
Qed.

Section maps.
Context {S : Type} {CS : ChunkStore S} {CSL : ChunkStoreLaws S}.
Implicit Types (s : S) (R : Root).

Lemma describes_kv_ok s R M k v : describes s R M -> M !! k = Some v -> kv_ok (k, v) = true.
Proof.
  intros (_ & m & <- & (_ & [Hs Hk] & _)) Hv. apply (contents_pairs m k v Hs) in Hv. rewrite Forall_forall in Hk. by apply Hk.
Qed.

Lemma to_root_params r p R : to_root r p = Ok R -> params R = p.
Proof. unfold to_root, root_new. case_match; [done|]. by intros [= <-]. Qed.

(** A map root of a manifest, in the store. *)
Definition map_at s (p : ChunkParams) (r : MapRoot) (M : gmap bytes bytes) : Prop :=
  exists R, to_root r p = Ok R /\ describes s R M.

Definition merge_spec_of (map : ConflictMap) (p : ChunkParams) (MB MO MT : gmap bytes bytes) (acc : list CellConflict)
    (r : Root * list CellConflict) (s' : S) : Prop :=
  params r.1 = p /\ exists M keys, describes s' r.1 M /\
    (forall k, M !! k = resolved_value map (MB !! k) (MO !! k) (MT !! k)) /\
    StronglySorted bytes_lt keys /\
    (forall k, k ∈ keys <-> three_way (MB !! k) (MO !! k) (MT !! k) = None) /\
    r.2 = acc ++ concat (List.map (fun k => resolved_cells map k (MB !! k) (MO !! k) (MT !! k)) keys).

Lemma three_way_value b o t v : three_way b o t = Some (Some v) -> o = Some v \/ t = Some v.
Proof. unfold three_way. repeat case_decide; intros [= E]; subst; auto. Qed.

Lemma three_way_sides b o t : three_way b o t = None -> o <> t.
Proof. unfold three_way. repeat case_decide; naive_solver. Qed.

Lemma size_keys (M : gmap bytes bytes) (ks : list bytes) :
  NoDup ks -> (forall k, k ∈ ks -> is_Some (M !! k)) -> length ks <= size M.
Proof.
  intros Hn Hin. rewrite <-size_dom. rewrite <-(size_list_to_set (C := gset bytes) ks Hn). apply subseteq_size.
  intros k Hk. apply elem_of_list_to_set in Hk. by apply elem_of_dom, Hin.
Qed.

Lemma size_merged (M MO MT : gmap bytes bytes) :
  (forall k v, M !! k = Some v -> is_Some (MO !! k) \/ is_Some (MT !! k)) -> size M <= size MO + size MT.
Proof.
  intros H. rewrite <-!size_dom. etrans; [apply (subseteq_size _ (dom MO ∪ dom MT))|].
  - intros k Hk. apply elem_of_dom in Hk as [v Hv]. rewrite elem_of_union, !elem_of_dom. by eapply H.
  - rewrite size_union_alt. assert (size (dom MT ∖ dom MO) <= size (dom MT)); [|lia]. apply subseteq_size. intros k Hk. by apply elem_of_difference in Hk as [? _].
Qed.

Lemma value_from map b o t v :
  resolved_value map b o t = Some v -> is_Some o \/ is_Some t.
Proof.
  unfold resolved_value. destruct (three_way b o t) as [x|] eqn:E.
  - intros ->. apply three_way_value in E as [->| ->]; eauto.
  - destruct o; [eauto|]. by destruct t.
Qed.

Lemma gwp_root_of r p R Q s : to_root r p = Ok R -> Q R s -> gwp (root_of r p) Q s.
Proof. intros E HQ. apply gwp_read with R; [by rewrite E|done]. Qed.

Lemma gwp_merge_one s (map : ConflictMap) base ours theirs acc MB MO MT :
  map_at s (chunk_params base) (select map base) MB -> map_at s (chunk_params base) (select map ours) MO ->
  map_at s (chunk_params base) (select map theirs) MT ->
  values_ok map MB -> values_ok map MO -> values_ok map MT ->
  (Z.of_nat (3 * size MB + 2 * size MO + 2 * size MT) <= 2 ^ 62)%Z ->
  (forall k v, three_way (MB !! k) (MO !! k) (MT !! k) = None ->
    resolved_value map (MB !! k) (MO !! k) (MT !! k) = Some v -> is_u32 (Z.of_nat (length v)) = true) ->
  exists fuel, forall f, fuel <= f ->
    gwp (merge_one f map base ours theirs acc) (merge_spec_of map (chunk_params base) MB MO MT acc) s.
Proof.
  intros (RB & EB & DB) (RO & EO & DO) (RT & ET & DT) HB HO HT Hsize Hfit.
  pose proof (to_root_params _ _ _ EB) as PB. pose proof (to_root_params _ _ _ EO) as PO. pose proof (to_root_params _ _ _ ET) as PT.
  destruct (wp_merge s RB RO RT MB MO MT DB DO DT) as [fuel Hm]; [congruence..|lia|]. exists fuel. intros f Hf. unfold merge_one.
  eapply gwp_bind; [apply (gwp_root_of _ _ RB (fun R s' => R = RB /\ s' = s) s EB); by split|]. intros ? ? _ [-> ->].
  eapply gwp_bind; [apply (gwp_root_of _ _ RO (fun R s' => R = RO /\ s' = s) s EO); by split|]. intros ? ? _ [-> ->].
  eapply gwp_bind; [apply (gwp_root_of _ _ RT (fun R s' => R = RT /\ s' = s) s ET); by split|]. intros ? ? _ [-> ->].
  eapply gwp_bind; [apply gwp_on_map, (Hm f Hf)|]. intros [R cs] s1 _ (Hp & (M & HM & HMk) & Hcs & Hc).
  cbn [merged_root MapMerge.conflicts] in *. rewrite PB in Hp.
  set (keys := List.map c_key cs).
  assert (cs = List.map (conflict_of MB MO MT) keys) as Ecs.
  { subst keys. rewrite map_map. clear -Hc. assert (Forall (fun c => c = conflict_of MB MO MT (c_key c)) cs) as H.
    { apply Forall_forall. intros c Hin. by apply Hc in Hin as [_ ?]. }
    clear Hc. induction H as [|c cs E _ IH]; [done|]. cbn [List.map]. by rewrite <-E, <-IH. }
  assert (forall k, k ∈ keys <-> three_way (MB !! k) (MO !! k) (MT !! k) = None) as Hkeys.
  { intros k. subst keys. rewrite list_elem_of_fmap. split; [by intros (c & -> & Hin); apply Hc in Hin as [? _]|].
    intros Hk. exists (conflict_of MB MO MT k). split; [done|]. by apply Hc. }
  assert (Forall (fun k => three_way (MB !! k) (MO !! k) (MT !! k) = None) keys) as Hnone
    by (apply Forall_forall; intros k Hk; by apply Hkeys).
  assert (forall k, k ∉ keys -> M !! k = resolved_value map (MB !! k) (MO !! k) (MT !! k)) as Hclean.
  { intros k Hk. rewrite HMk. unfold resolved_value. destruct (three_way _ _ _) eqn:E; [done|]. by apply Hkeys in E. }
  pose proof (strongly_sorted_NoDup bytes_lt keys Hcs) as Hnd.
  destruct (decide (map = MSchema)) as [->|Hmap].
  - rewrite bool_decide_true by done. apply gwp_ret. split; [done|]. exists M, keys. cbn [fst snd].
    split; [done|]. split; [|split; [done|split; [done|]]].
    + intros k. destruct (decide (k ∈ keys)) as [Hk|Hk]; [|by apply Hclean]. apply Hkeys in Hk. rewrite HMk.
      unfold resolved_value. rewrite Hk. destruct (MO !! k), (MT !! k); done.
    + f_equal. rewrite Ecs at 1. rewrite map_map. clear -Hnone. induction Hnone as [|k ks Hk _ IH]; [done|].
      cbn [List.map concat]. rewrite IH. unfold resolved_cells. by rewrite Hk.
  - rewrite bool_decide_false by done.
    pose proof (refine_conflicts_ok map MB MO MT HB HO HT keys [] acc Hmap Hnone) as Hr. rewrite <-Ecs in Hr. cbn [app] in Hr.
    eapply gwp_bind; [apply (gwp_read _ (concat (List.map (put_of map MB MO MT) keys), acc ++ concat (List.map (cells_at map MB MO MT) keys))
      (fun x s' => x = (concat (List.map (put_of map MB MO MT) keys), acc ++ concat (List.map (cells_at map MB MO MT) keys)) /\ s' = s1)); [exact Hr|by split]|].
    intros ? ? _ [-> ->]. cbn beta iota.
    assert (forall k, foldl op_map M (concat (List.map (put_of map MB MO MT) keys)) !! k =
      resolved_value map (MB !! k) (MO !! k) (MT !! k)) as Hfold.
    { intros k. rewrite puts_lookup by done. case_bool_decide as Hk; [|by apply Hclean]. apply Hkeys in Hk.
      unfold put_of. assert (M !! k = None) as HNone by (by rewrite HMk, Hk). unfold resolved_value. rewrite Hk, HNone.
      destruct (MO !! k), (MT !! k); try done. by destruct (option_map _ _). }
    assert (Forall (fun op => op_ok op = true) (concat (List.map (put_of map MB MO MT) keys))) as Hok.
    { apply Forall_concat, Forall_map, Forall_forall. intros k Hk. apply Hkeys in Hk. unfold put_of.
      destruct (MO !! k) as [ob|] eqn:Eo, (MT !! k) as [tb|] eqn:Et; try done.
      destruct (resolved_value _ _ _ _) as [v|] eqn:Ev; [|done]. constructor; [|done]. cbn [op_ok]. unfold kv_ok. cbn [fst snd].
      apply andb_true_iff. split; [|apply (Hfit k v); by rewrite ?Eo, ?Et].
      pose proof (describes_kv_ok s RO MO k ob DO Eo) as Hkv. unfold kv_ok in Hkv. by apply andb_true_iff in Hkv as [? _]. }
    assert (length (concat (List.map (put_of map MB MO MT) keys)) <= length keys) as Hlen.
    { clear. induction keys as [|k ks IH]; [done|]. cbn [List.map concat length]. rewrite length_app.
      assert (length (put_of map MB MO MT k) <= 1); [|lia]. unfold put_of. repeat case_match; cbn; lia. }
    assert (length keys <= size MO + size MT) as Hlen'.
    { rewrite <-!size_dom. rewrite <-(size_list_to_set (C := gset bytes) keys Hnd).
      etrans; [apply (subseteq_size _ (dom MO ∪ dom MT))|].
      - intros k Hk. apply elem_of_list_to_set in Hk. apply Hkeys, three_way_sides in Hk.
        rewrite elem_of_union, !elem_of_dom. destruct (MO !! k), (MT !! k); eauto. done.
      - rewrite size_union_alt. assert (size (dom MT ∖ dom MO) <= size (dom MT)); [|lia]. apply subseteq_size. intros k Hk. by apply elem_of_difference in Hk as [? _]. }
    assert (size M <= size MO + size MT) as HsM.
    { apply size_merged. intros k v Hv. rewrite HMk in Hv. destruct (three_way _ _ _) as [x|] eqn:E; [|done]. subst x.
      apply three_way_value in E as [->| ->]; eauto. }
    assert (forall (Q : Root * list CellConflict -> S -> Prop),
      (forall R' s', params R' = params R -> describes s' R' (foldl op_map M (concat (List.map (put_of map MB MO MT) keys))) ->
        Q (R', acc ++ concat (List.map (cells_at map MB MO MT) keys)) s') ->
      gwp (match concat (List.map (put_of map MB MO MT) keys) with
           | [] => st_ret (R, acc ++ concat (List.map (cells_at map MB MO MT) keys))
           | _ :: _ => st_bind (on_map (apply_batch R (concat (List.map (put_of map MB MO MT) keys))))
               (fun root => st_ret (root, acc ++ concat (List.map (cells_at map MB MO MT) keys)))
           end) Q s1) as Hrun.
    { intros Q HQ. pose proof (wp_apply_batch s1 R M _ HM Hok ltac:(lia)) as Hb.
      destruct (concat (List.map (put_of map MB MO MT) keys)) as [|op ops] eqn:Eops.
      - apply gwp_ret. by apply HQ.
      - eapply gwp_bind; [apply gwp_on_map, Hb|]. intros R' s' _ [E D]. apply gwp_ret. by apply HQ. }
    apply Hrun. intros R' s' E D. split; [cbn; congruence|].
    eexists _, keys. split; [exact D|]. split; [done|]. split; [done|]. by split.
Qed.

Lemma gwp_rebuild_reverse s R M p f :
  describes s R M -> params_ok p = true -> (forall k v, M !! k = Some v -> exists e, decode_fwd k = Ok e) ->
  (Z.of_nat (size M) <= 2 ^ 62)%Z -> size M < f ->
  gwp (rebuild_reverse f R p) (fun R' s' => params R' = p /\ exists M', describes s' R' M' /\
    forall r v, M' !! r = Some v <-> v = [] /\ exists k e, is_Some (M !! k) /\ decode_fwd k = Ok e /\ encode_rev e = Ok r) s.
Proof.
  intros HM Hp Hdec Hsize Hf. destruct (for_each_spec s R M reverse_entry [] HM) as (m & Hm & Hloop).
  set (rev_of := fun e : bytes * bytes =>
    match decode_fwd e.1 with Ok k => match encode_rev k with Ok r => r | Err _ => [] end | Err _ => [] end).
  assert (Forall (fun e => exists k r, decode_fwd e.1 = Ok k /\ encode_rev k = Ok r /\ length r = length e.1) m) as Hall.
  { apply Forall_forall. intros [k v] Hin. apply (entries_in_lookup M) in Hin; [|done]. destruct (Hdec k v Hin) as [e He].
    pose proof (describes_kv_ok s R M k v HM Hin) as Hkv. unfold kv_ok in Hkv. apply andb_true_iff in Hkv as [Hk _].
    cbn [fst] in *. unrange. destruct (edge_reverse k e ltac:(lia) He) as (r & Hr & Hl & _). by exists e, r. }
  assert (fold_flow reverse_entry m [] = Ok (put_keys (map rev_of m))) as Hfold.
  { rewrite (fold_flow_collect reverse_entry (fun e => [Put (rev_of e) []])).
    - cbn [app]. f_equal. unfold put_keys. rewrite map_map. clear. induction m as [|e m IH]; [done|]. cbn. by f_equal.
    - eapply Forall_impl; [exact Hall|]. intros e (k & r & E1 & E2 & _) acc. unfold reverse_entry, rev_of. by rewrite E1; cbn; rewrite E2. }
  unfold rebuild_reverse.
  eapply gwp_bind; [apply (gwp_read _ (put_keys (map rev_of m)) (fun ops s' => ops = put_keys (map rev_of m) /\ s' = s)); [by rewrite Hloop|by split]|].
  intros ? ? _ [-> ->]. eapply gwp_mono; [apply (gwp_build_keys s p (map rev_of m) Hp)|].
  - apply Forall_map. rewrite Forall_forall in Hall |- *. intros [k v] Hin. destruct (Hall _ Hin) as (e & r & E1 & E2 & El).
    unfold rev_of. rewrite E1, E2, El. apply (entries_in_lookup M) in Hin; [|done].
    pose proof (describes_kv_ok s R M k v HM Hin) as Hkv. unfold kv_ok in Hkv. by apply andb_true_iff in Hkv as [? _].
  - rewrite length_map, (entries_in_length M) by done. lia.
  - intros R' s' _ [E D]. split; [done|]. eexists. split; [exact D|]. intros r v. rewrite key_map_lookup.
    split; (intros [-> H]; split; [done|]).
    + apply list_elem_of_fmap in H as ([k w] & -> & Hin). rewrite Forall_forall in Hall.
      destruct (Hall _ Hin) as (e & r & E1 & E2 & _). exists k, e. apply (entries_in_lookup M) in Hin; [|done].
      split; [by exists w|]. split; [done|]. unfold rev_of. by rewrite E1, E2.
    + destruct H as (k & e & [w Hw] & E1 & E2). apply (entries_in_lookup M m) in Hw; [|done].
      replace r with (rev_of (k, w)); [by apply list_elem_of_fmap_2|]. unfold rev_of. cbn [fst]. by rewrite E1, E2.
Qed.

(** ** The properties *)

(** C9: a map of the graph merges key by key, and within a key cell by cell.
    From manifests whose roots hold the three maps, with readable records, the
    merge ends and fails only with the store. A key one side changed takes that
    change; a key both sides hold differently becomes the merge of its two
    records - of the schema map, nothing - and a key one side deleted and the
    other changed is left out. The conflicts are those of the disputed keys, in
    key order. Exchanging the sides gives a root of the same map and the same
    conflicts with the sides exchanged. *)
Theorem merge_one_spec s (map : ConflictMap) base ours theirs MB MO MT :
  map_at s (chunk_params base) (select map base) MB -> map_at s (chunk_params base) (select map ours) MO ->
  map_at s (chunk_params base) (select map theirs) MT ->
  values_ok map MB -> values_ok map MO -> values_ok map MT ->
  (Z.of_nat (3 * size MB + 2 * size MO + 2 * size MT) <= 2 ^ 62)%Z ->
  (forall k v, three_way (MB !! k) (MO !! k) (MT !! k) = None ->
    resolved_value map (MB !! k) (MO !! k) (MT !! k) = Some v -> is_u32 (Z.of_nat (length v)) = true) ->
  (forall k ob tb, map <> MSchema -> MO !! k = Some ob -> MT !! k = Some tb ->
    exists v pcs, record_merge map (MB !! k) ob tb = Some (v, pcs) /\ refined map (MB !! k) ob tb v pcs) /\
  exists fuel, forall f, fuel <= f ->
    gwp (merge_one f map base ours theirs []) (merge_spec_of map (chunk_params base) MB MO MT []) s /\
    forall R1 cs1 s1 R2 cs2 s2,
      merge_one f map base ours theirs [] s = (Ok (R1, cs1), s1) ->
      merge_one f map base theirs ours [] s = (Ok (R2, cs2), s2) ->
      (exists M, describes s1 R1 M /\ describes s2 R2 M) /\ cs2 = List.map swap_cell cs1.
Proof.
  intros DB DO DT HB HO HT Hsize Hfit. split.
  { intros k ob tb Hm Ho Ht. destruct (record_merge_ok map MB MO MT HB HO HT k ob tb Hm Ho Ht) as (v & pcs & E & Hr & _).
    exists v, pcs. unfold record_merge. by rewrite E. }
  destruct (gwp_merge_one s map base ours theirs [] MB MO MT DB DO DT HB HO HT Hsize Hfit) as [f1 H1].
  destruct (gwp_merge_one s map base theirs ours [] MB MT MO DB DT DO HB HT HO ltac:(lia)) as [f2 H2].
  { intros k v. rewrite three_way_comm, (resolved_value_comm map MB MO MT HB HO HT). apply Hfit. }
  exists (Nat.max f1 f2). intros f Hf. split; [apply H1; lia|]. intros R1 cs1 s1 R2 cs2 s2 E1 E2.
  destruct (gwp_Ok _ _ _ _ _ (H1 f ltac:(lia)) E1) as (_ & _ & M1 & ks1 & D1 & L1 & S1 & K1 & C1).
  destruct (gwp_Ok _ _ _ _ _ (H2 f ltac:(lia)) E2) as (_ & _ & M2 & ks2 & D2 & L2 & S2 & K2 & C2).
  cbn [fst snd app] in *. assert (ks2 = ks1) as ->.
  { apply (sorted_ext bytes_lt id); rewrite ?map_id; [done..|]. intros k. by rewrite K1, K2, three_way_comm. }
  split.
  - exists M1. split; [done|]. replace M1 with M2; [done|]. apply map_eq. intros k.
    by rewrite L1, L2, (resolved_value_comm map MB MO MT HB HO HT).
  - rewrite C1, C2. clear -HB HO HT. induction ks1 as [|k ks IH]; [done|]. cbn [List.map concat].
    by rewrite map_app, IH, (resolved_cells_comm map MB MO MT HB HO HT).
Qed.

(** The reverse edge map mirrors the forward one. From the root of a
    forward edge map the rebuild ends, fails only with the store, and returns
    the root of the map that holds, with an empty value, exactly the reverse
    keys of the edges the forward map holds. *)
Lemma rebuild_reverse_spec s R M p f :
  describes s R M -> params_ok p = true -> (forall k v, M !! k = Some v -> exists e, decode_fwd k = Ok e) ->
  (Z.of_nat (size M) <= 2 ^ 62)%Z -> size M < f ->
  gwp (rebuild_reverse f R p) (fun R' s' => params R' = p /\ exists M', describes s' R' M' /\
    forall r v, M' !! r = Some v <-> v = [] /\ exists k e, is_Some (M !! k) /\ decode_fwd k = Ok e /\ encode_rev e = Ok r) s.
Proof. apply gwp_rebuild_reverse. Qed.
End maps.

(** ** The theorems at a concrete graph

    One node, whose record each side of [CellMerge]'s example writes, and one
    forward edge. *)

Definition encoded (r : NodeRecord) : bytes := bytes_of (node_record_encode r).
Definition node_at : bytes := sample_node_bytes.
Definition base_entries : list (bytes * bytes) := Eval vm_compute in [(node_at, encoded base_record)].
Definition ours_entries : list (bytes * bytes) := Eval vm_compute in [(node_at, encoded ours_record)].
Definition theirs_entries : list (bytes * bytes) := Eval vm_compute in [(node_at, encoded theirs_record)].

Definition load_root (s : SampleStore) (entries : list (bytes * bytes)) : Root :=
  st_value no_root (bulk_load sample_params entries s).
Definition load_store (s : SampleStore) (entries : list (bytes * bytes)) : SampleStore := (bulk_load sample_params entries s).2.

Definition base_store : SampleStore := load_store sample_empty base_entries.
Definition both_store : SampleStore := load_store base_store ours_entries.
Definition graph_store : SampleStore := load_store both_store theirs_entries.
Definition base_node_root : Root := load_root sample_empty base_entries.
Definition ours_node_root : Root := load_root base_store ours_entries.
Definition theirs_node_root : Root := load_root both_store theirs_entries.

Lemma bulk_describes {S : Type} {CS : ChunkStore S} {CSL : ChunkStoreLaws S} (s s' : S) p entries R :
  params_ok p = true -> Forall (fun e => kv_ok e = true) entries -> (Z.of_nat (length entries) <= 2 ^ 62)%Z ->
  bulk_load p entries s = (Ok R, s') -> describes s' R (load_map entries) /\ extends s s'.
Proof.
  intros Hp Hk Hn E. split; [by eapply loaded_describes|].
  by destruct (wp_Ok _ _ _ _ _ (wp_bulk p s entries Hp Hk Hn) E) as (? & _ & _).
Qed.

Lemma load_describes s entries :
  Forall (fun e => kv_ok e = true) entries -> (Z.of_nat (length entries) <= 2 ^ 62)%Z ->
  is_ok (bulk_load sample_params entries s).1 = true ->
  describes (load_store s entries) (load_root s entries) (load_map entries) /\ extends s (load_store s entries).
Proof.
  intros Hk Hn E. unfold load_store, load_root.
  exact (bulk_describes s _ sample_params entries _ eq_refl Hk Hn (st_value_spec no_root _ E)).
Qed.

Lemma graph_describes :
  describes graph_store base_node_root (load_map base_entries) /\
  describes graph_store ours_node_root (load_map ours_entries) /\
  describes graph_store theirs_node_root (load_map theirs_entries).
Proof.
  destruct (load_describes sample_empty base_entries) as [D1 _];
    [by repeat constructor|vm_compute; discriminate|vm_compute; reflexivity|].
  destruct (load_describes base_store ours_entries) as [D2 E2];
    [by repeat constructor|vm_compute; discriminate|vm_compute; reflexivity|].
  destruct (load_describes both_store theirs_entries) as [D3 E3];
    [by repeat constructor|vm_compute; discriminate|vm_compute; reflexivity|].
  split; [exact (describes_extends _ _ _ _ E3 (describes_extends _ _ _ _ E2 D1))|].
  split; [exact (describes_extends _ _ _ _ E3 D2)|exact D3].
Qed.

(** A manifest whose node map is this root; the other maps do not matter here. *)
Definition with_nodes (R : Root) : Manifest :=
  mkManifest sample_params (from_root R) (from_root R) (from_root R) (from_root R) ∅ None.

Definition base_m : Manifest := with_nodes base_node_root.
Definition ours_m : Manifest := with_nodes ours_node_root.
Definition theirs_m : Manifest := with_nodes theirs_node_root.

Lemma map_at_nodes s R M :
  describes s R M -> to_root (from_root R) sample_params = Ok R -> map_at s sample_params (m_nodes (with_nodes R)) M.
Proof. intros H E. by exists R. Qed.

Lemma graph_map_at :
  map_at graph_store sample_params (m_nodes base_m) (load_map base_entries) /\
  map_at graph_store sample_params (m_nodes ours_m) (load_map ours_entries) /\
  map_at graph_store sample_params (m_nodes theirs_m) (load_map theirs_entries).
Proof.
  destruct graph_describes as (H1 & H2 & H3). split; [|split]; apply map_at_nodes;
    [exact H1|vm_compute; reflexivity|exact H2|vm_compute; reflexivity|exact H3|vm_compute; reflexivity].
Qed.

Lemma values_ok_one map k v :
  (Z.of_nat (length v) < 2 ^ 63)%Z -> match view map v with Some _ => true | None => false end = true -> values_ok map (load_map [(k, v)]).
Proof.
  intros Hl Hv _. unfold load_map. cbn [foldl fst snd]. apply map_Forall_insert_2; [|apply map_Forall_empty]. split; [done|].
  destruct (view map v); [by eexists|done].
Qed.

Lemma graph_values_ok :
  values_ok MNodes (load_map base_entries) /\ values_ok MNodes (load_map ours_entries) /\ values_ok MNodes (load_map theirs_entries).
Proof. split; [|split]; apply values_ok_one; vm_compute; reflexivity. Qed.

Lemma graph_size :
  (Z.of_nat (3 * size (load_map base_entries) + 2 * size (load_map ours_entries) + 2 * size (load_map theirs_entries)) <= 2 ^ 62)%Z.
Proof. vm_compute. discriminate. Qed.

Lemma graph_fits k v :
  three_way (load_map base_entries !! k) (load_map ours_entries !! k) (load_map theirs_entries !! k) = None ->
  resolved_value MNodes (load_map base_entries !! k) (load_map ours_entries !! k) (load_map theirs_entries !! k) = Some v ->
  is_u32 (Z.of_nat (length v)) = true.
Proof.
  destruct (decide (k = node_at)) as [->|Hk].
  - intros _. replace (resolved_value _ _ _ _) with (Some (bytes_of (node_record_encode (mkNodeRecord [[x62]]
      {[ [x6e] := VFloat CANONICAL_NAN_BITS; [x6f] := VBool true ]})))) by (vm_compute; reflexivity).
    intros [= <-]. vm_compute. reflexivity.
  - unfold load_map. cbn [foldl base_entries ours_entries theirs_entries fst snd]. rewrite !lookup_insert_ne, !lookup_empty by done. done.
Qed.

Lemma merge_one_spec_witness :
  (forall k ob tb, MNodes <> MSchema -> load_map ours_entries !! k = Some ob -> load_map theirs_entries !! k = Some tb ->
    exists v pcs, record_merge MNodes (load_map base_entries !! k) ob tb = Some (v, pcs) /\
      refined MNodes (load_map base_entries !! k) ob tb v pcs) /\
  exists fuel, forall f, fuel <= f ->
    gwp (merge_one f MNodes base_m ours_m theirs_m [])
      (merge_spec_of MNodes sample_params (load_map base_entries) (load_map ours_entries) (load_map theirs_entries) []) graph_store /\
    forall R1 cs1 s1 R2 cs2 s2,
      merge_one f MNodes base_m ours_m theirs_m [] graph_store = (Ok (R1, cs1), s1) ->
      merge_one f MNodes base_m theirs_m ours_m [] graph_store = (Ok (R2, cs2), s2) ->
      (exists M, describes s1 R1 M /\ describes s2 R2 M) /\ cs2 = List.map swap_cell cs1.
Proof.
  destruct graph_map_at as (D1 & D2 & D3), graph_values_ok as (V1 & V2 & V3).
  exact (merge_one_spec graph_store MNodes base_m ours_m theirs_m _ _ _ D1 D2 D3 V1 V2 V3 graph_size graph_fits).
Defined.

Lemma merge_one_computed :
  match (merge_one 100 MNodes base_m ours_m theirs_m [] graph_store).1 with
  | Ok (_, cs) => map cell_property cs = [Some [x76]]
  | Err _ => False
  end.
Proof. vm_compute. reflexivity. Qed.

Definition edge_entries : list (bytes * bytes) := Eval vm_compute in [(sample_fwd_bytes, bytes_of (edge_record_encode (mkEdgeRecord ∅)))].
Definition edge_store : SampleStore := load_store sample_empty edge_entries.
Definition edge_root : Root := load_root sample_empty edge_entries.

Lemma edge_describes : describes edge_store edge_root (load_map edge_entries).
Proof. apply load_describes; [by repeat constructor|vm_compute; discriminate|vm_compute; reflexivity]. Qed.

Lemma edge_keys_decode k v : load_map edge_entries !! k = Some v -> exists e, decode_fwd k = Ok e.
Proof.
  unfold load_map. cbn [foldl edge_entries fst snd]. rewrite lookup_insert_Some, lookup_empty. intros [[<- _]|[_ [=]]].
  exists sample_edge. vm_compute. reflexivity.
Qed.

Lemma rebuild_reverse_spec_witness :
  gwp (rebuild_reverse 2 edge_root sample_params) (fun R' s' => params R' = sample_params /\ exists M', describes s' R' M' /\
    forall r v, M' !! r = Some v <-> v = [] /\
      exists k e, is_Some (load_map edge_entries !! k) /\ decode_fwd k = Ok e /\ encode_rev e = Ok r) edge_store.
Proof.
  assert ((Z.of_nat (size (load_map edge_entries)) <= 2 ^ 62)%Z) as Hn by (vm_compute; discriminate).
  assert (size (load_map edge_entries) < 2) as Hf by (vm_compute; lia).
  exact (rebuild_reverse_spec edge_store edge_root _ sample_params 2 edge_describes eq_refl edge_keys_decode Hn Hf).
Defined.
