(* ===== verification/GraphIndex.v ===== *)
(** * Secondary indexes (crates/acetone-graph/src/index.rs)

    The entries a node contributes to an index, the index maps built from
    scratch and kept up to date by delta.  A [BTreeMap] of index roots is a
    [gmap]; its name order is the order of the manifest's encoding, which the
    loops here do not depend on. *)
From S2P Require Import Prelude Model Keys Canonical Records GraphKeys Schema Store Chunker Node Tree Manifest Scan Graph GraphMerge.

Definition LabelKeys : Type := gmap bytes (list bytes).

(** The loop over the schema entries. *)
Fixpoint index_info (entries : list SchemaEntry) (indexes : list (bytes * IndexDef)) (label_keys : LabelKeys)
    : list (bytes * IndexDef) * LabelKeys :=
  match entries with
  | [] => (indexes, label_keys)
  | IndexDefEntry name def :: entries => index_info entries (indexes ++ [(name, def)]) label_keys
  | LabelEntry name def :: entries => index_info entries indexes (<[name := lkey def]> label_keys)
  | RelTypeEntry _ _ :: entries => index_info entries indexes label_keys
  end.

Definition schema_index_info (entries : list SchemaEntry) : list (bytes * IndexDef) * LabelKeys :=
  index_info entries [] ∅.

(** [iter().position(|k| k == property)] *)
Fixpoint position_of (property : bytes) (keys : list bytes) : option nat :=
  match keys with
  | [] => None
  | k :: keys => if bool_decide (k = property) then Some O else option_map S (position_of property keys)
  end.

(** The value of a node's property: a key property's is in the node key. *)
Definition indexed_value (node_key : NodeKey) (record : NodeRecord) (label_keys : LabelKeys) (property : bytes) : option Value :=
  match label_keys !! label node_key ≫= position_of property with
  | Some pos => key node_key !! pos
  | None => properties record !! property
  end.

(** The loop over the indexed properties; [None] when one is absent or null. *)
Fixpoint indexed_values (node_key : NodeKey) (record : NodeRecord) (label_keys : LabelKeys) (ps : list bytes)
    : option (list Value) :=
  match ps with
  | [] => Some []
  | p :: ps =>
    match indexed_value node_key record label_keys p with
    | None | Some VNull => None
    | Some v => option_map (cons v) (indexed_values node_key record label_keys ps)
    end
  end.

Definition bears (node_key : NodeKey) (record : NodeRecord) (l : bytes) : bool :=
  bool_decide (label node_key = l) || bool_decide (l ∈ secondary_labels record).

(** A release build: the [debug_assert!] of the last arm is not there. *)
Definition index_entry_key (node_key : NodeKey) (record : option NodeRecord) (def : IndexDef) (label_keys : LabelKeys)
    : result GraphError (option bytes) :=
  match record with
  | None => Ok None
  | Some record =>
    if negb (bears node_key record (xlabel def)) then Ok None
    else
      match indexed_values node_key record label_keys (xproperties def) with
      | None => Ok None
      | Some values =>
        match index_entry_new (xlabel def) (xproperties def) values node_key with
        | Err _ => Err (GPanic "index label and properties are non-empty (validated at declaration)")
        | Ok entry =>
          match index_entry_encode entry with
          | Ok bytes => Ok (Some bytes)
          | Err _ => Ok None
          end
        end
      end
  end.

Section store.
Context {S : Type} {CS : ChunkStore S}.

Definition record_at (store : S) (params : ChunkParams) (nodes : MapRoot) (encoded_key : bytes)
    : result GraphError (option NodeRecord) :=
  let? root := map_err GProlly (to_root nodes params) in
  let? found := map_err GProlly (Tree.get store root encoded_key) in
  match found with
  | None => Ok None
  | Some bytes => let? r := map_err GRecordDecode (node_record_decode bytes) in Ok (Some r)
  end.

Definition put_opt (entry : option bytes) : list BatchOp :=
  match entry with Some entry => [Put entry []] | None => [] end.

Definition build_body (def : IndexDef) (label_keys : LabelKeys) (key value : bytes) (ops : list BatchOp)
    : result GraphError (flow (list BatchOp)) :=
  let? node_key := map_err GGraphKey (node_key_decode key) in
  let? record := map_err GRecordDecode (node_record_decode value) in
  let? entry := index_entry_key node_key (Some record) def label_keys in
  Ok (Continue (ops ++ put_opt entry)).

Definition build_full (fuel : nat) (params : ChunkParams) (nodes : MapRoot) (def : IndexDef) (label_keys : LabelKeys)
    : st S GraphError MapRoot :=
  let! root := root_of nodes params in
  let! ops := st_read (fun store => for_each fuel store root Unbounded Unbounded (build_body def label_keys) []) in
  let! empty := on_map (empty_map params) in
  let! root := on_map (apply_batch empty ops) in
  st_ret (from_root root).

(** The loops over the index definitions, which insert one root per name. *)
Fixpoint each_index (build : bytes -> IndexDef -> st S GraphError MapRoot) (index_defs : list (bytes * IndexDef))
    (out : gmap bytes MapRoot) : st S GraphError (gmap bytes MapRoot) :=
  match index_defs with
  | [] => st_ret out
  | (name, def) :: index_defs =>
    let! root := build name def in
    each_index build index_defs (<[name := root]> out)
  end.

Definition rebuild_all (fuel : nat) (manifest : Manifest) (entries : list SchemaEntry) : st S GraphError (gmap bytes MapRoot) :=
  let '(index_defs, label_keys) := schema_index_info entries in
  each_index (fun _ def => build_full fuel (chunk_params manifest) (m_nodes manifest) def label_keys) index_defs ∅.

(** The before and after records of the touched nodes. *)
Fixpoint touched_states (store : S) (params : ChunkParams) (base_nodes new_nodes : MapRoot) (keys : list bytes)
    : result GraphError (list (NodeKey * option NodeRecord * option NodeRecord)) :=
  match keys with
  | [] => Ok []
  | encoded :: keys =>
    let? node_key := map_err GGraphKey (node_key_decode encoded) in
    let? before := record_at store params base_nodes encoded in
    let? after := record_at store params new_nodes encoded in
    let? states := touched_states store params base_nodes new_nodes keys in
    Ok ((node_key, before, after) :: states)
  end.

Definition delete_opt (entry : option bytes) : list BatchOp :=
  match entry with Some entry => [Delete entry] | None => [] end.

Fixpoint delta_ops (def : IndexDef) (label_keys : LabelKeys) (states : list (NodeKey * option NodeRecord * option NodeRecord))
    (ops : list BatchOp) : result GraphError (list BatchOp) :=
  match states with
  | [] => Ok ops
  | (node_key, before, after) :: states =>
    let? old_entry := index_entry_key node_key before def label_keys in
    let? new_entry := index_entry_key node_key after def label_keys in
    delta_ops def label_keys states
      (if bool_decide (old_entry = new_entry) then ops else ops ++ delete_opt old_entry ++ put_opt new_entry)
  end.

Definition update_index (params : ChunkParams) (base_root : MapRoot) (def : IndexDef) (label_keys : LabelKeys)
    (states : list (NodeKey * option NodeRecord * option NodeRecord)) : st S GraphError MapRoot :=
  let! ops := st_read (fun _ => delta_ops def label_keys states []) in
  match ops with
  | [] => st_ret base_root
  | _ :: _ =>
    let! root := root_of base_root params in
    let! root := on_map (apply_batch root ops) in
    st_ret (from_root root)
  end.

Definition maintain_index (fuel : nat) (params : ChunkParams) (new_nodes : MapRoot) (base_indexes : gmap bytes MapRoot)
    (label_keys : LabelKeys) (states : list (NodeKey * option NodeRecord * option NodeRecord))
    (name : bytes) (def : IndexDef) : st S GraphError MapRoot :=
  match base_indexes !! name with
  | Some base_root => update_index params base_root def label_keys states
  | None => build_full fuel params new_nodes def label_keys
  end.

Definition maintain (fuel : nat) (params : ChunkParams) (base_nodes new_nodes : MapRoot) (touched : list bytes)
    (base_indexes : gmap bytes MapRoot) (index_defs : list (bytes * IndexDef)) (label_keys : LabelKeys)
    : st S GraphError (gmap bytes MapRoot) :=
  let! states := st_read (fun store =>
    touched_states store params base_nodes new_nodes (dedup (merge_sort bytes_le touched))) in
  each_index (maintain_index fuel params new_nodes base_indexes label_keys states) index_defs ∅.
End store.
