(* ===== verification/GraphIndexRun.v ===== *)
(** * Index maps follow the nodes

    An index map built from scratch holds exactly the entries its nodes
    contribute, and an index kept up to date by the delta of a transaction
    holds what a rebuild from the new nodes holds. *)
From S2P Require Import Prelude Model Keys Canonical Records KeysCodec GraphKeys Schema Store Chunker Node Tree TreeSpec TreeNodes TreeRead TreeBuild TreeLevels TreeContent TreeBatch Prolly Manifest Diff DiffRun MapDiff Scan ScanRun Graph GraphRun CellMerge GraphMerge GraphMergeRun GraphIndex.

Lemma key_bound (k : bytes) : is_u32 (Z.of_nat (length k)) = true -> (Z.of_nat (length k) < 2 ^ 63)%Z.
Proof. intros H. unrange. lia. Qed.

(** ** The entries of a node *)

Lemma indexed_values_length nk r lk ps vs : indexed_values nk r lk ps = Some vs -> length vs = length ps.
Proof.
  revert vs. induction ps as [|p ps IH]; intros vs; cbn [indexed_values]; [by intros [= <-]|].
  destruct (indexed_value nk r lk p) as [v|]; [|done].
  destruct (indexed_values nk r lk ps) as [vs'|]; [|by destruct v]. cbn [option_map].
  destruct v; (try done); intros [= <-]; cbn [length]; by rewrite IH.
Qed.

Lemma indexed_value_ok nk r lk p v :
  node_key_ok nk -> node_record_ok r -> indexed_value nk r lk p = Some v -> value_ok v = true.
Proof.
  intros [_ Hn] [_ [Hp _]] H. unfold indexed_value in H. destruct (lk !! label nk ≫= position_of p) as [pos|].
  - unfold to_value in Hn. apply value_ok_list in Hn as [_ Hn]. apply Forall_cons_1 in Hn as [_ Hn].
    rewrite Forall_forall in Hn. apply Hn. by eapply list_elem_of_lookup_2.
  - by apply (Hp p v) in H as [_ H].
Qed.

Lemma indexed_values_ok nk r lk ps vs :
  node_key_ok nk -> node_record_ok r -> indexed_values nk r lk ps = Some vs -> Forall (fun v => value_ok v = true) vs.
Proof.
  intros Hn Hr. revert vs. induction ps as [|p ps IH]; intros vs; cbn [indexed_values]; [by intros [= <-]|].
  destruct (indexed_value nk r lk p) as [v|] eqn:E; [|done]. apply (indexed_value_ok nk r lk p v Hn Hr) in E.
  destruct (indexed_values nk r lk ps) as [vs'|]; [|by destruct v]. cbn [option_map].
  destruct v; (try done); intros [= <-]; (constructor; [done|by apply IH]).
Qed.

Lemma index_def_nonempty def : index_def_ok def ->
  is_empty (xlabel def) = false /\ (length (xproperties def) =? 0) = false /\ existsb is_empty (xproperties def) = false.
Proof.
  intros [H _]. unfold index_def_new in H. destruct (is_empty (xlabel def)); [done|].
  destruct (length (xproperties def) =? 0), (existsb is_empty (xproperties def)); done.
Qed.

Lemma index_entry_new_ok def vs nk :
  index_def_ok def -> length vs = length (xproperties def) ->
  index_entry_new (xlabel def) (xproperties def) vs nk = Ok (mkIndexEntry (xlabel def) (xproperties def) vs nk).
Proof.
  intros H Hl. destruct (index_def_nonempty def H) as (E1 & E2 & E3). unfold index_entry_new.
  by rewrite E1, E2, E3, Hl, Nat.eqb_refl.
Qed.

Lemma name_list_names_ok ns : name_list_ok false ns -> names_ok ns = true.
Proof.
  intros (H & Hl & _). unfold names_ok. apply value_ok_list. split; [unfold len_ok in *; by rewrite length_map|].
  apply Forall_map. eapply Forall_impl; [exact H|]. done.
Qed.

(** An index definition never makes [index_entry_key] panic. *)
Lemma index_entry_key_total nk r def lk : index_def_ok def -> exists e, index_entry_key nk r def lk = Ok e.
Proof.
  intros Hd. unfold index_entry_key. destruct r as [r|]; [|by eexists].
  destruct (negb (bears nk r (xlabel def))); [by eexists|].
  destruct (indexed_values nk r lk (xproperties def)) as [vs|] eqn:E; [|by eexists].
  rewrite index_entry_new_ok by (done || by apply indexed_values_length in E).
  destruct (index_entry_encode _); by eexists.
Qed.

(** What an entry of a node is. *)
Lemma index_entry_key_some nk r def lk e :
  index_def_ok def -> node_key_ok nk -> node_record_ok r -> index_entry_key nk (Some r) def lk = Ok (Some e) ->
  bears nk r (xlabel def) = true /\ exists vs, indexed_values nk r lk (xproperties def) = Some vs /\
    index_entry_ok (mkIndexEntry (xlabel def) (xproperties def) vs nk) /\
    index_entry_encode (mkIndexEntry (xlabel def) (xproperties def) vs nk) = Ok e.
Proof.
  intros Hd Hk Hr H. unfold index_entry_key in H. destruct (bears nk r (xlabel def)); [|done]. split; [done|]. cbn [negb] in H.
  destruct (indexed_values nk r lk (xproperties def)) as [vs|] eqn:E; [|done]. exists vs. split; [done|].
  pose proof (indexed_values_length _ _ _ _ _ E) as Hl. pose proof (indexed_values_ok _ _ _ _ _ Hk Hr E) as Hv.
  rewrite index_entry_new_ok in H by done.
  destruct (index_entry_encode _) as [b|] eqn:Eb; [|done]. injection H as ->. split; [|done].
  pose proof Hd as (_ & Hs & Hps). split; [cbn [ilabel iproperties ivalues inode]; by apply index_entry_new_ok|].
  cbn [ilabel iproperties ivalues inode]. split; [done|]. split; [by apply name_list_names_ok|]. split; [|done].
  apply value_ok_list. split; [|done]. destruct Hps as (_ & Hps & _). unfold len_ok in *. by rewrite Hl.
Qed.

(** An entry says which node it belongs to. *)
Lemma index_entry_key_node nk r def lk e :
  index_def_ok def -> node_key_ok nk -> normal_node nk = nk -> node_record_ok r ->
  index_entry_key nk (Some r) def lk = Ok (Some e) -> exists x, index_entry_decode e = Ok x /\ inode x = nk.
Proof.
  intros Hd Hk Hn Hr H. destruct (index_entry_key_some nk r def lk e Hd Hk Hr H) as (_ & vs & _ & Hok & Eb).
  eexists. split; [by apply index_entry_decode_encode|done].
Qed.

(** ** The entries of a map of nodes *)

(** Keys and values a map can hold that the layer wrote as nodes. *)
Definition nodes_ok (M : gmap bytes bytes) : Prop :=
  map_Forall (fun k v => kv_ok (k, v) = true /\ (exists nk, node_key_decode k = Ok nk) /\ exists r, node_record_decode v = Ok r) M.

(** The entry the node stored under [k] contributes. *)
Definition entry_at (def : IndexDef) (lk : LabelKeys) (M : gmap bytes bytes) (k : bytes) : option bytes :=
  match M !! k with
  | Some v =>
    match node_key_decode k, node_record_decode v with
    | Ok nk, Ok r => match index_entry_key nk (Some r) def lk with Ok e => e | Err _ => None end
    | _, _ => None
    end
  | None => None
  end.

(** [IM] holds the entries of the nodes of [M], with empty values. *)
Definition indexes (def : IndexDef) (lk : LabelKeys) (M IM : gmap bytes bytes) : Prop :=
  forall e v, IM !! e = Some v <-> v = [] /\ exists k, entry_at def lk M k = Some e.

Lemma indexes_unique def lk M IM IM' : indexes def lk M IM -> indexes def lk M IM' -> IM = IM'.
Proof. intros H H'. apply map_eq. intros e. apply option_eq. intros v. by rewrite (H e v), (H' e v). Qed.

Lemma kv_ok_parts k v : kv_ok (k, v) = true -> (Z.of_nat (length k) < 2 ^ 63)%Z /\ (Z.of_nat (length v) < 2 ^ 63)%Z.
Proof. unfold kv_ok. cbn [fst snd]. rewrite andb_true_iff. intros [H1 H2]. split; by apply key_bound. Qed.

Lemma entry_at_node def lk M k e :
  index_def_ok def -> nodes_ok M -> entry_at def lk M k = Some e ->
  exists x, index_entry_decode e = Ok x /\ node_key_encode (inode x) = Ok k.
Proof.
  intros Hd HM H. unfold entry_at in H. destruct (M !! k) as [v|] eqn:E; [|done].
  destruct (HM k v E) as (Hkv & [nk Hnk] & [r Hr]). apply kv_ok_parts in Hkv as [Hk Hv]. rewrite Hnk, Hr in H.
  destruct (node_record_decode_Ok v r Hv Hr) as (_ & Hrok & _).
  apply node_key_decode_Ok in Hnk as (He & Hnok & Hnn); [|done].
  destruct (index_entry_key nk (Some r) def lk) as [x|] eqn:Ex; [|done]. subst x.
  destruct (index_entry_key_node nk r def lk e Hd Hnok Hnn Hrok Ex) as (x & Hx & <-). by exists x.
Qed.

Lemma entry_at_inj def lk M M' k k' e :
  index_def_ok def -> nodes_ok M -> nodes_ok M' ->
  entry_at def lk M k = Some e -> entry_at def lk M' k' = Some e -> k = k'.
Proof.
  intros Hd HM HM' H H'. destruct (entry_at_node def lk M k e Hd HM H) as (x & Hx & Ek).
  destruct (entry_at_node def lk M' k' e Hd HM' H') as (x' & Hx' & Ek'). rewrite Hx in Hx'. apply Ok_inj in Hx' as <-.
  rewrite Ek in Ek'. by apply Ok_inj in Ek'.
Qed.

Definition entries_fit (def : IndexDef) (lk : LabelKeys) (M : gmap bytes bytes) : Prop :=
  forall k e, entry_at def lk M k = Some e -> is_u32 (Z.of_nat (length e)) = true.

(** ** The delta of a transaction *)

Section delta.
Context (def : IndexDef) (lk : LabelKeys) (MB MN : gmap bytes bytes).

Definition delta_at (k : bytes) : list BatchOp :=
  if bool_decide (entry_at def lk MB k = entry_at def lk MN k) then []
  else delete_opt (entry_at def lk MB k) ++ put_opt (entry_at def lk MN k).

Lemma delta_at_lookup M k e :
  foldl op_map M (delta_at k) !! e =
    if bool_decide (entry_at def lk MB k = entry_at def lk MN k) then M !! e
    else if bool_decide (entry_at def lk MN k = Some e) then Some []
    else if bool_decide (entry_at def lk MB k = Some e) then None else M !! e.
Proof.
  unfold delta_at. case_bool_decide as E; [done|].
  destruct (entry_at def lk MB k) as [o|], (entry_at def lk MN k) as [n|]; cbn [delete_opt put_opt app foldl op_map].
  - destruct (decide (n = e)) as [->|Hn]; [rewrite lookup_insert_eq; by rewrite bool_decide_true|].
    rewrite lookup_insert_ne by done. rewrite (bool_decide_false (Some n = Some e)) by congruence.
    destruct (decide (o = e)) as [->|Ho]; [rewrite lookup_delete_eq; by rewrite bool_decide_true|].
    rewrite lookup_delete_ne by done. by rewrite bool_decide_false by congruence.
  - rewrite (bool_decide_false (None = Some e)) by done.
    destruct (decide (o = e)) as [->|Ho]; [rewrite lookup_delete_eq; by rewrite bool_decide_true|].
    rewrite lookup_delete_ne by done. by rewrite bool_decide_false by congruence.
  - destruct (decide (n = e)) as [->|Hn]; [rewrite lookup_insert_eq; by rewrite bool_decide_true|].
    rewrite lookup_insert_ne by done. by rewrite !bool_decide_false by congruence.
  - done.
Qed.

Definition touches (k e : bytes) : Prop := entry_at def lk MB k = Some e \/ entry_at def lk MN k = Some e.

Lemma delta_untouched M ks e :
  (forall k, k ∈ ks -> ~ touches k e) -> foldl op_map M (concat (map delta_at ks)) !! e = M !! e.
Proof.
  revert M. induction ks as [|k ks IH]; intros M H; [done|]. cbn [map concat]. rewrite foldl_app, IH.
  - rewrite delta_at_lookup. unfold touches in H. specialize (H k ltac:(by left)).
    case_bool_decide; [done|]. rewrite bool_decide_false by tauto. by rewrite bool_decide_false by tauto.
  - intros k' Hk'. apply H. by right.
Qed.

Lemma delta_touched M ks k e :
  NoDup ks -> k ∈ ks -> (forall k', touches k' e -> k' = k) ->
  foldl op_map M (concat (map delta_at ks)) !! e =
    if bool_decide (entry_at def lk MB k = entry_at def lk MN k) then M !! e
    else if bool_decide (entry_at def lk MN k = Some e) then Some []
    else if bool_decide (entry_at def lk MB k = Some e) then None else M !! e.
Proof.
  intros Hnd Hk Hone. apply list_elem_of_split in Hk as (l1 & l2 & ->).
  apply NoDup_app in Hnd as (_ & H1 & H2). apply NoDup_cons in H2 as [H2 _].
  rewrite map_app, concat_app. cbn [map concat]. rewrite !foldl_app, delta_untouched.
  - rewrite delta_at_lookup, delta_untouched; [done|]. intros k' Hk' Ht. apply Hone in Ht as ->.
    apply (H1 k Hk'). by left.
  - intros k' Hk' Ht. by apply Hone in Ht as ->.
Qed.

Lemma delta_indexes ks IB :
  index_def_ok def -> nodes_ok MB -> nodes_ok MN -> NoDup ks -> (forall k, MB !! k <> MN !! k -> k ∈ ks) ->
  indexes def lk MB IB -> indexes def lk MN (foldl op_map IB (concat (map delta_at ks))).
Proof.
  intros Hd HB HN Hnd Hks HIB e v.
  assert (forall k k', touches k e -> touches k' e -> k' = k) as Hone.
  { intros k k' [H|H] [H'|H'];
      (eapply (entry_at_inj def lk _ _ k' k e Hd); [| |exact H'|exact H]); done. }
  assert (forall k, k ∉ ks -> entry_at def lk MB k = entry_at def lk MN k) as Hsame.
  { intros k Hk. unfold entry_at. destruct (decide (MB !! k = MN !! k)) as [->|Hne]; [done|]. by apply Hks in Hne. }
  assert ((exists k, touches k e) \/ forall k, ~ touches k e) as [[k Hk]|Hno].
  { destruct (index_entry_decode e) as [x|] eqn:Ex; [destruct (node_key_encode (inode x)) as [k|] eqn:Ek|].
    - destruct (decide (entry_at def lk MB k = Some e)) as [E|E]; [left; exists k; by left|].
      destruct (decide (entry_at def lk MN k = Some e)) as [E'|E']; [left; exists k; by right|]. right.
      intros k' [H|H]; pose proof H as H'; apply entry_at_node in H' as (x' & Hx' & Ek'); try done;
        rewrite Ex in Hx'; apply Ok_inj in Hx' as <-; rewrite Ek in Ek'; apply Ok_inj in Ek' as <-; done.
    - right. intros k' [H|H]; apply entry_at_node in H as (x' & Hx' & Ek'); try done;
        rewrite Ex in Hx'; apply Ok_inj in Hx' as <-; congruence.
    - right. intros k' [H|H]; apply entry_at_node in H as (x' & Hx' & Ek'); try done; congruence. }
  - assert ((exists k', entry_at def lk MN k' = Some e) <-> entry_at def lk MN k = Some e) as EN.
    { split; [|by exists k]. intros [k' H']. by rewrite <-(Hone k k' Hk ltac:(by right)). }
    assert ((exists k', entry_at def lk MB k' = Some e) <-> entry_at def lk MB k = Some e) as EB.
    { split; [|by exists k]. intros [k' H']. by rewrite <-(Hone k k' Hk ltac:(by left)). }
    specialize (HIB e v). rewrite EB in HIB. rewrite EN. destruct (decide (k ∈ ks)) as [Hin|Hin].
    + rewrite (delta_touched IB ks k e Hnd Hin (fun k' => Hone k k' Hk)).
      case_bool_decide as E; [by rewrite HIB, E|]. case_bool_decide as E'; [naive_solver|].
      destruct Hk as [Hk|Hk]; [|done]. rewrite bool_decide_true by done. naive_solver.
    + rewrite delta_untouched; [by rewrite HIB, (Hsame k Hin)|].
      intros k' Hk' Ht. by apply (Hone k k' Hk) in Ht as ->.
  - rewrite delta_untouched by (intros k _; apply Hno). rewrite (HIB e v).
    split; intros (_ & k & H); exfalso; apply (Hno k); [by left|by right].
Qed.
End delta.

(** ** The operations *)

Lemma gwp_bind_assoc {S A B C : Type} {CS : ChunkStore S} (m : st S GraphError A) (f : A -> st S GraphError B)
    (g : B -> st S GraphError C) Q (s : S) :
  gwp (st_bind (st_bind m f) g) Q s -> gwp (st_bind m (fun a => st_bind (f a) g)) Q s.
Proof. unfold gwp, st_bind. by destruct (m s) as [[a|e] s']. Qed.

Section store.
Context {S : Type} {CS : ChunkStore S} {CSL : ChunkStoreLaws S}.
Implicit Types (s : S) (R : Root).

Lemma map_at_extends s s' p r M : extends s s' -> map_at s p r M -> map_at s' p r M.
Proof. intros He (R & E & D). exists R. split; [done|]. by eapply describes_extends. Qed.

Lemma map_at_root s p R M : params R = p -> describes s R M -> map_at s p (from_root R) M.
Proof.
  intros <- D. exists R. split; [|done]. destruct D as (_ & m & _ & (_ & _ & Hh & _)).
  unfold to_root, root_new, from_root. cbn [mr_hash mr_height]. rewrite Nat2Z.id.
  replace (height R =? 0) with false by (symmetry; apply Nat.eqb_neq; lia).
  replace (MAX_HEIGHT <? height R) with false by (symmetry; apply Nat.ltb_ge; lia). by destruct R.
Qed.

Lemma map_at_params s p r M : map_at s p r M -> params_ok p = true.
Proof. intros (R & E & Hp & _). by rewrite <-(to_root_params _ _ _ E). Qed.

Lemma map_at_det s p r M M' : map_at s p r M -> map_at s p r M' -> M = M'.
Proof.
  intros (R & E & D) (R' & E' & D'). rewrite E in E'. apply Ok_inj in E' as <-.
  apply map_eq. intros k. apply (Ok_inj (E := ProllyError)).
  by rewrite <-(describes_lookup s R M k D), <-(describes_lookup s R M' k D').
Qed.

Lemma gwp_root_at s p r M (Q : Root -> S -> Prop) :
  map_at s p r M -> (forall R, params R = p -> describes s R M -> Q R s) -> gwp (root_of r p) Q s.
Proof.
  intros (R & E & D) H. apply gwp_root_of with R; [done|]. apply H; [by eapply to_root_params|done].
Qed.

(** What the loop over a map of nodes makes of each. *)
Lemma build_body_entry def lk M k v acc :
  index_def_ok def -> nodes_ok M -> M !! k = Some v ->
  build_body def lk k v acc = Ok (Continue (acc ++ put_opt (entry_at def lk M k))).
Proof.
  intros Hd HM Hv. destruct (HM k v Hv) as (_ & [nk Hnk] & [r Hr]). unfold build_body, entry_at.
  rewrite Hv, Hnk, Hr. cbn [map_err rbind]. by destruct (index_entry_key_total nk (Some r) def lk Hd) as [e ->].
Qed.

Lemma put_entries def lk M (m : kvs) :
  concat (map (fun e => put_opt (entry_at def lk M e.1)) m) = put_keys (omap (fun e => entry_at def lk M e.1) m).
Proof.
  induction m as [|e m IH]; [done|]. cbn [map concat omap list_omap]. rewrite IH. by destruct (entry_at def lk M e.1).
Qed.

Lemma gwp_build_full s p nodes M def lk f :
  map_at s p nodes M -> nodes_ok M -> index_def_ok def -> entries_fit def lk M ->
  (Z.of_nat (size M) <= 2 ^ 62)%Z -> size M < f ->
  gwp (build_full f p nodes def lk) (fun r s' => exists IM, map_at s' p r IM /\ indexes def lk M IM) s.
Proof.
  intros Hm HM Hd Hfit Hsize Hf. pose proof (map_at_params _ _ _ _ Hm) as Hp. unfold build_full.
  eapply gwp_bind; [apply (gwp_root_at s p nodes M (fun R s' => params R = p /\ describes s R M /\ s' = s) Hm); by auto|].
  intros R ? _ (PR & D & ->). destruct (for_each_spec s R M (build_body def lk) [] D) as (m & Hin & Hloop).
  set (ks := omap (fun e => entry_at def lk M e.1) m).
  assert (fold_flow (build_body def lk) m [] = Ok (put_keys ks)) as Hfold.
  { rewrite (fold_flow_collect _ (fun e => put_opt (entry_at def lk M e.1))); [by rewrite put_entries|].
    apply Forall_forall. intros [k v] Hkv acc. apply (entries_in_lookup M) in Hkv; [|done]. cbn [fst snd].
    by apply build_body_entry. }
  eapply gwp_bind; [apply (gwp_read _ (put_keys ks) (fun ops s' => ops = put_keys ks /\ s' = s)); [by rewrite Hloop|by split]|].
  intros ? ? _ [-> ->]. apply gwp_bind_assoc.
  assert (forall e, e ∈ ks <-> exists k, entry_at def lk M k = Some e) as Hks.
  { intros e. subst ks. rewrite list_elem_of_omap. split; [by intros ([k v] & _ & H); exists k|].
    intros [k H]. destruct (M !! k) as [v|] eqn:Hv; [|by unfold entry_at in H; rewrite Hv in H].
    exists (k, v). split; [|done]. by apply (entries_in_lookup M m). }
  eapply gwp_bind; [apply (gwp_build_keys s p ks Hp)|].
  - apply Forall_forall. intros e He. apply Hks in He as [k He]. by apply (Hfit k).
  - assert (length ks <= length m); [|rewrite (entries_in_length M m Hin) in *; lia].
    subst ks. clear. induction m as [|e m IH]; [done|]. cbn. destruct (entry_at def lk M e.1); cbn; lia.
  - intros R' s' _ [PR' D']. apply gwp_ret. exists (key_map ks). split; [by apply map_at_root|].
    intros e v. by rewrite key_map_lookup, Hks.
Qed.

Lemma record_at_spec s p nodes M k :
  map_at s p nodes M -> nodes_ok M ->
  record_at s p nodes k = Ok (match M !! k with Some v => match node_record_decode v with Ok r => Some r | Err _ => None end | None => None end).
Proof.
  intros (R & E & D) HM. unfold record_at. rewrite E. cbn [map_err rbind]. rewrite (describes_lookup s R M k D). cbn [map_err rbind].
  destruct (M !! k) as [v|] eqn:Hv; [|done]. by destruct (HM k v Hv) as (_ & _ & [r ->]).
Qed.

Lemma touched_states_delta s p bn nn MB MN lk ks :
  map_at s p bn MB -> map_at s p nn MN -> nodes_ok MB -> nodes_ok MN ->
  Forall (fun k => exists nk, node_key_decode k = Ok nk) ks ->
  exists states, touched_states s p bn nn ks = Ok states /\
    forall def ops, index_def_ok def -> delta_ops def lk states ops = Ok (ops ++ concat (map (delta_at def lk MB MN) ks)).
Proof.
  intros HB HN OB ON. induction 1 as [|k ks [nk Hnk] _ (states & E & IH)].
  { exists []. split; [done|]. intros def ops _. by rewrite app_nil_r. }
  cbn [touched_states]. rewrite Hnk, (record_at_spec s p bn MB k HB OB), (record_at_spec s p nn MN k HN ON), E. cbn [map_err rbind].
  eexists. split; [done|]. intros def ops Hd. cbn [delta_ops map concat].
  assert (forall M, nodes_ok M -> index_entry_key nk
    match M !! k with Some v => match node_record_decode v with Ok r => Some r | Err _ => None end | None => None end def lk
    = Ok (entry_at def lk M k)) as Hentry.
  { intros M HM. unfold entry_at. destruct (M !! k) as [v|] eqn:Hv; [|done]. destruct (HM k v Hv) as (_ & _ & [r ->]).
    rewrite Hnk. by destruct (index_entry_key_total nk (Some r) def lk Hd) as [e ->]. }
  rewrite (Hentry MB OB), (Hentry MN ON). cbn [rbind]. rewrite IH by done. unfold delta_at at 2.
  case_bool_decide; [done|]. by rewrite !app_assoc.
Qed.

Lemma delta_length def lk MB MN ks : length (concat (map (delta_at def lk MB MN) ks)) <= 2 * length ks.
Proof.
  induction ks as [|k ks IH]; [done|]. cbn [map concat length]. rewrite length_app.
  assert (length (delta_at def lk MB MN k) <= 2); [|lia]. unfold delta_at. case_bool_decide; [cbn; lia|].
  destruct (entry_at def lk MB k), (entry_at def lk MN k); cbn; lia.
Qed.

Lemma delta_ok def lk MB MN ks :
  entries_fit def lk MN -> Forall (fun op => op_ok op = true) (concat (map (delta_at def lk MB MN) ks)).
Proof.
  intros Hfit. apply Forall_concat, Forall_map, Forall_forall. intros k _. unfold delta_at. case_bool_decide; [done|].
  apply Forall_app. split; [by destruct (entry_at def lk MB k); repeat constructor|].
  destruct (entry_at def lk MN k) as [e|] eqn:E; [|done]. constructor; [|done]. cbn [op_ok]. unfold kv_ok. cbn [fst snd].
  by rewrite (Hfit k e E).
Qed.

Lemma length_omap_le {A B : Type} (f : A -> option B) l : length (omap f l) <= length l.
Proof. induction l as [|x l IH]; [done|]. cbn. destruct (f x); cbn in *; lia. Qed.

Lemma size_list_to_set_length (l : list bytes) : size (list_to_set l : gset bytes) <= length l.
Proof.
  induction l as [|x l IH]; [done|]. cbn [list_to_set length]. rewrite size_union_alt, size_singleton.
  assert (size ((list_to_set l : gset bytes) ∖ {[x]}) <= size (list_to_set l : gset bytes)); [|lia].
  apply subseteq_size. intros y Hy. by apply elem_of_difference in Hy as [? _].
Qed.

Lemma size_index def lk M IM : indexes def lk M IM -> size IM <= size M.
Proof.
  intros H. rewrite <-!size_dom.
  transitivity (size (list_to_set (omap (entry_at def lk M) (elements (dom M))) : gset bytes)).
  - apply subseteq_size. intros e He. apply elem_of_dom in He as [v He]. apply H in He as [_ [k Hk]].
    apply elem_of_list_to_set, list_elem_of_omap. exists k. split; [|done]. apply elem_of_elements, elem_of_dom.
    unfold entry_at in Hk. destruct (M !! k); [by eexists|done].
  - etrans; [apply size_list_to_set_length|]. apply length_omap_le.
Qed.

Lemma gwp_update_index s p base def lk MB MN IB ks states :
  map_at s p base IB -> indexes def lk MB IB -> nodes_ok MB -> nodes_ok MN -> index_def_ok def -> entries_fit def lk MN ->
  NoDup ks -> (forall k, MB !! k <> MN !! k -> k ∈ ks) ->
  delta_ops def lk states [] = Ok (concat (map (delta_at def lk MB MN) ks)) ->
  (Z.of_nat (size MB + 2 * length ks) <= 2 ^ 62)%Z ->
  gwp (update_index p base def lk states) (fun r s' => exists IM, map_at s' p r IM /\ indexes def lk MN IM) s.
Proof.
  intros Hb HIB OB ON Hd Hfit Hnd Hks Hops Hsize.
  pose proof (delta_indexes def lk MB MN ks IB Hd OB ON Hnd Hks HIB) as Hnew.
  pose proof (delta_ok def lk MB MN ks Hfit) as Hok. pose proof (delta_length def lk MB MN ks) as Hlen.
  pose proof (size_index def lk MB IB HIB) as HsB.
  unfold update_index. set (ops := concat _) in *.
  eapply gwp_bind; [apply (gwp_read _ ops (fun o s' => o = ops /\ s' = s)); [done|by split]|]. intros ? ? _ [-> ->].
  assert (forall (Q : MapRoot -> S -> Prop), (forall r s', map_at s' p r (foldl op_map IB ops) -> Q r s') ->
    gwp (match ops with
         | [] => st_ret base
         | _ :: _ => st_bind (root_of base p) (fun root => st_bind (on_map (apply_batch root ops)) (fun root => st_ret (from_root root)))
         end) Q s) as Hrun.
  { intros Q HQ.
    assert (gwp (st_bind (root_of base p) (fun root => st_bind (on_map (apply_batch root ops)) (fun root => st_ret (from_root root)))) Q s) as Hb'.
    { eapply gwp_bind; [apply (gwp_root_at s p base IB (fun R s' => params R = p /\ describes s R IB /\ s' = s) Hb); by auto|].
      intros R ? _ (PR & D & ->). eapply gwp_bind; [apply gwp_on_map, (wp_apply_batch s R IB ops D Hok); lia|].
      intros R' s' _ [PR' D']. apply gwp_ret, HQ, map_at_root; [congruence|done]. }
    destruct ops; [|exact Hb']. apply gwp_ret. by apply HQ. }
  apply Hrun. intros r s' H. by eexists.
Qed.

(** One index root per definition. *)
Definition index_roots s (p : ChunkParams) (lk : LabelKeys) (M : gmap bytes bytes) (defs : list (bytes * IndexDef))
    (out : gmap bytes MapRoot) : Prop :=
  (forall name r, out !! name = Some r -> name ∈ map fst defs) /\
  forall name def, (name, def) ∈ defs -> exists r IM, out !! name = Some r /\ map_at s p r IM /\ indexes def lk M IM.

Lemma gwp_each_index s p lk M build defs out :
  (forall name def s', (name, def) ∈ defs -> extends s s' ->
    gwp (build name def) (fun r s'' => exists IM, map_at s'' p r IM /\ indexes def lk M IM) s') ->
  NoDup (map fst defs) ->
  gwp (each_index build defs out) (fun out' s' =>
    (forall name, name ∉ map fst defs -> out' !! name = out !! name) /\
    forall name def, (name, def) ∈ defs -> exists r IM, out' !! name = Some r /\ map_at s' p r IM /\ indexes def lk M IM) s.
Proof.
  revert s out. induction defs as [|[name def] defs IH]; intros s out Hb Hnd; cbn [each_index map] in *.
  { apply gwp_ret. split; [done|]. intros ? ? H. by apply elem_of_nil in H. }
  apply NoDup_cons in Hnd as [Hname Hnd].
  eapply gwp_bind; [apply Hb; [by left|done]|]. intros r s1 He (IM & HIM & Hi). cbn beta iota.
  eapply gwp_mono; [apply (IH s1 (<[name := r]> out))|].
  - intros name' def' s' Hin He'. apply Hb; [by right|by etrans].
  - done.
  - intros out' s' He' [Hout Hdef]. split.
    + intros n Hn. apply not_elem_of_cons in Hn as [Hn1 Hn2]. rewrite Hout by done. by rewrite lookup_insert_ne.
    + intros n d Hin. apply elem_of_cons in Hin as [[= -> ->]|Hin]; [|by apply Hdef]. exists r, IM.
      rewrite Hout by done. rewrite lookup_insert_eq. split; [done|]. split; [by eapply map_at_extends|done].
Qed.

Lemma gwp_index_roots s p lk M build defs :
  (forall name def s', (name, def) ∈ defs -> extends s s' ->
    gwp (build name def) (fun r s'' => exists IM, map_at s'' p r IM /\ indexes def lk M IM) s') ->
  NoDup (map fst defs) -> gwp (each_index build defs ∅) (fun out s' => index_roots s' p lk M defs out) s.
Proof.
  intros Hb Hnd. eapply gwp_mono; [by apply (gwp_each_index s p lk M build defs ∅ Hb Hnd)|].
  intros out s' _ [H1 H2]. split; [|done]. intros name r Hr. destruct (decide (name ∈ map fst defs)) as [|Hn]; [done|].
  rewrite (H1 name Hn), lookup_empty in Hr. done.
Qed.

(** What a run over the index definitions returned: for each name, what its
    definition built. *)
Lemma each_index_other build defs out s out' s' name :
  each_index build defs out s = (Ok out', s') -> name ∉ map fst defs -> out' !! name = out !! name.
Proof.
  revert out s. induction defs as [|[n d] defs IH]; intros out s H Hn; cbn [each_index map fst] in *; [by injection H as <- <-|].
  apply st_bind_Ok in H as (r & s1 & _ & H). apply not_elem_of_cons in Hn as [Hn1 Hn2]. rewrite (IH _ _ H Hn2). by rewrite lookup_insert_ne.
Qed.
Lemma each_index_built build defs out s out' s' name def :
  each_index build defs out s = (Ok out', s') -> NoDup (map fst defs) -> (name, def) ∈ defs ->
  exists r s1 s2, build name def s1 = (Ok r, s2) /\ out' !! name = Some r.
Proof.
  revert out s. induction defs as [|[n d] defs IH]; intros out s H Hnd Hin; cbn [each_index map fst] in *; [by apply elem_of_nil in Hin|].
  apply st_bind_Ok in H as (r & s1 & Hb & H). apply NoDup_cons in Hnd as [Hn Hnd]. apply elem_of_cons in Hin as [[= -> ->]|Hin]; [|by eapply IH].
  exists r, s, s1. split; [done|]. rewrite (each_index_other _ _ _ _ _ _ _ H Hn). apply lookup_insert_eq.
Qed.

(** Where no node was touched, an index that has a root keeps it. *)
Lemma maintain_kept s p bn nn base_indexes defs lk f ix s' name def r :
  maintain f p bn nn [] base_indexes defs lk s = (Ok ix, s') -> NoDup (map fst defs) -> (name, def) ∈ defs -> base_indexes !! name = Some r ->
  ix !! name = Some r.
Proof.
  unfold maintain. intros (states & s1 & Hst & H)%st_bind_Ok Hnd Hin Hr. unfold st_read in Hst. cbn in Hst. injection Hst as <- <-.
  destruct (each_index_built _ _ _ _ _ _ _ _ H Hnd Hin) as (r' & s2 & s3 & Hb & ->). unfold maintain_index in Hb. rewrite Hr in Hb.
  unfold update_index in Hb. apply st_bind_Ok in Hb as (ops & s4 & Ho & Hb). unfold st_read in Ho. cbn in Ho. injection Ho as <- <-. by injection Hb as -> _.
Qed.

Lemma touched_keys (touched : list bytes) (k : bytes) : k ∈ dedup (merge_sort bytes_le touched) <-> k ∈ touched.
Proof. by rewrite dedup_elem, (merge_sort_Permutation bytes_le touched). Qed.

Lemma touched_keys_NoDup (touched : list bytes) : NoDup (dedup (merge_sort bytes_le touched)).
Proof.
  apply (strongly_sorted_NoDup bytes_lt), (dedup_sorted bytes_lt bytes_le); [apply bytes_le_lteq|].
  apply Sorted_StronglySorted, Sorted_merge_sort; apply _.
Qed.

Lemma gwp_maintain s p bn nn MB MN touched base_indexes defs lk f :
  map_at s p bn MB -> map_at s p nn MN -> nodes_ok MB -> nodes_ok MN ->
  Forall (fun k => exists nk, node_key_decode k = Ok nk) touched -> (forall k, MB !! k <> MN !! k -> k ∈ touched) ->
  NoDup (map fst defs) -> (forall name def, (name, def) ∈ defs -> index_def_ok def /\ entries_fit def lk MN) ->
  (forall name def base, (name, def) ∈ defs -> base_indexes !! name = Some base ->
    exists IB, map_at s p base IB /\ indexes def lk MB IB) ->
  (Z.of_nat (size MB + size MN + 2 * length touched) <= 2 ^ 62)%Z -> size MN < f ->
  gwp (maintain f p bn nn touched base_indexes defs lk) (fun out s' => index_roots s' p lk MN defs out) s.
Proof.
  intros HB HN OB ON Hdec Ht Hnames Hdefs Hbase Hsize Hf. unfold maintain.
  set (ks := dedup (merge_sort bytes_le touched)).
  assert (length ks <= length touched) as Hlen.
  { subst ks. rewrite <-(Permutation_length (merge_sort_Permutation bytes_le touched)). generalize (merge_sort bytes_le touched).
    intros l. induction l as [|x l IH]; [done|]. cbn [dedup]. destruct l as [|y l]; [done|].
    case_bool_decide; cbn [length] in *; lia. }
  destruct (touched_states_delta s p bn nn MB MN lk ks HB HN OB ON) as (states & Est & Hdelta).
  { apply Forall_forall. intros k Hk. apply (proj1 (touched_keys touched k)) in Hk. rewrite Forall_forall in Hdec. by apply Hdec. }
  eapply gwp_bind; [apply (gwp_read _ states (fun x s' => x = states /\ s' = s)); [exact Est|by split]|]. intros ? ? _ [-> ->].
  apply gwp_index_roots; [|done]. intros name def s' Hin He. destruct (Hdefs name def Hin) as [Hd Hfit]. unfold maintain_index.
  destruct (base_indexes !! name) as [base|] eqn:Eb.
  - destruct (Hbase name def base Hin Eb) as (IB & HIB & Hi).
    apply (gwp_update_index s' p base def lk MB MN IB ks); try done.
    + by eapply map_at_extends.
    + apply touched_keys_NoDup.
    + intros k Hk. apply (proj2 (touched_keys touched k)). by apply Ht.
    + by rewrite Hdelta.
    + lia.
  - apply (gwp_build_full s' p nn MN); [by eapply map_at_extends|done..|lia|done].
Qed.

Lemma gwp_rebuild_all s m entries MN defs lk f :
  map_at s (chunk_params m) (m_nodes m) MN -> nodes_ok MN -> schema_index_info entries = (defs, lk) ->
  NoDup (map fst defs) -> (forall name def, (name, def) ∈ defs -> index_def_ok def /\ entries_fit def lk MN) ->
  (Z.of_nat (size MN) <= 2 ^ 62)%Z -> size MN < f ->
  gwp (rebuild_all f m entries) (fun out s' => index_roots s' (chunk_params m) lk MN defs out) s.
Proof.
  intros HN ON E Hnames Hdefs Hsize Hf. unfold rebuild_all. rewrite E. apply gwp_index_roots; [|done].
  intros name def s' Hin He. destruct (Hdefs name def Hin) as [Hd Hfit].
  apply (gwp_build_full s' _ _ MN); [by eapply map_at_extends|done..].
Qed.

(** ** The property *)

(** C30: maintaining the indexes by the delta of a transaction is rebuilding
    them. From the nodes before and after, with every changed key touched, and
    index maps that hold the entries of the nodes before, the update ends,
    fails only with the store, and returns for every declared index a root of
    the map that holds exactly the entries of the nodes after, each under an
    empty value - what a rebuild returns a root of too. *)
Theorem maintain_rebuilds s m bn MB MN touched base_indexes entries defs lk f :
  let p := chunk_params m in
  map_at s p bn MB -> map_at s p (m_nodes m) MN -> nodes_ok MB -> nodes_ok MN ->
  Forall (fun k => exists nk, node_key_decode k = Ok nk) touched -> (forall k, MB !! k <> MN !! k -> k ∈ touched) ->
  schema_index_info entries = (defs, lk) ->
  NoDup (map fst defs) -> (forall name def, (name, def) ∈ defs -> index_def_ok def /\ entries_fit def lk MN) ->
  (forall name def base, (name, def) ∈ defs -> base_indexes !! name = Some base ->
    exists IB, map_at s p base IB /\ indexes def lk MB IB) ->
  (Z.of_nat (size MB + size MN + 2 * length touched) <= 2 ^ 62)%Z -> size MN < f ->
  gwp (maintain f p bn (m_nodes m) touched base_indexes defs lk) (fun out s' => index_roots s' p lk MN defs out) s /\
  gwp (rebuild_all f m entries) (fun out s' => index_roots s' p lk MN defs out) s /\
  forall out s1 out' s2,
    maintain f p bn (m_nodes m) touched base_indexes defs lk s = (Ok out, s1) -> rebuild_all f m entries s = (Ok out', s2) ->
    forall name, match out !! name, out' !! name with
                 | Some r, Some r' => exists IM, map_at s1 p r IM /\ map_at s2 p r' IM
                 | None, None => True
                 | _, _ => False
                 end.
Proof.
  intros p HB HN OB ON Hdec Ht Einfo Hnames Hdefs Hbase Hsize Hf.
  pose proof (gwp_maintain s p bn (m_nodes m) MB MN touched base_indexes defs lk f HB HN OB ON Hdec Ht Hnames Hdefs Hbase Hsize Hf) as H1.
  pose proof (gwp_rebuild_all s m entries MN defs lk f HN ON Einfo Hnames Hdefs ltac:(lia) Hf) as H2.
  split; [done|]. split; [done|]. intros out s1 out' s2 E1 E2 name.
  apply (gwp_Ok _ _ _ _ _ H1) in E1 as (_ & N1 & D1). apply (gwp_Ok _ _ _ _ _ H2) in E2 as (_ & N2 & D2).
  assert (forall def, (name, def) ∈ defs -> exists r r' IM, out !! name = Some r /\ out' !! name = Some r' /\
    map_at s1 p r IM /\ map_at s2 p r' IM) as Hboth.
  { intros def Hin. destruct (D1 name def Hin) as (r & IM & -> & A1 & I1), (D2 name def Hin) as (r' & IM' & -> & A2 & I2).
    exists r, r', IM. rewrite (indexes_unique _ _ _ _ _ I1 I2) in *. by repeat split. }
  destruct (out !! name) as [r|] eqn:Er, (out' !! name) as [r'|] eqn:Er'; [..|done].
  - apply N1, list_elem_of_fmap in Er as ([n def] & -> & Hin). destruct (Hboth def Hin) as (? & ? & IM & [= ->] & [= ->] & H).
    by exists IM.
  - apply N1, list_elem_of_fmap in Er as ([n def] & -> & Hin). by destruct (Hboth def Hin) as (? & ? & IM & _ & [=] & _).
  - apply N2, list_elem_of_fmap in Er' as ([n def] & -> & Hin). by destruct (Hboth def Hin) as (? & ? & IM & [=] & _).
Qed.
End store.

(** ** The theorem at a concrete graph

    One node whose indexed property a transaction changes from 0 to 1. *)

Lemma load_one k v x y : load_map [(k, v)] !! x = Some y <-> x = k /\ y = v.
Proof. unfold load_map. cbn [foldl fst snd]. rewrite lookup_insert_Some, lookup_empty. naive_solver. Qed.

Lemma nodes_ok_one k v :
  kv_ok (k, v) && is_ok (node_key_decode k) && is_ok (node_record_decode v) = true -> nodes_ok (load_map [(k, v)]).
Proof.
  rewrite !andb_true_iff. intros [[H1 H2] H3] x y Hxy. apply load_one in Hxy as [-> ->]. split; [done|]. split.
  - destruct (node_key_decode k) as [nk|]; [by exists nk|done].
  - destruct (node_record_decode v) as [r|]; [by exists r|done].
Qed.

Lemma entry_at_one def lk k v x e : entry_at def lk (load_map [(k, v)]) x = Some e -> x = k.
Proof.
  unfold entry_at. destruct (load_map [(k, v)] !! x) as [y|] eqn:E; [|done]. intros _. by apply load_one in E as [-> _].
Qed.

Lemma indexes_one def lk k v e :
  entry_at def lk (load_map [(k, v)]) k = Some e -> indexes def lk (load_map [(k, v)]) (load_map [(e, [])]).
Proof.
  intros H x y. rewrite load_one. split.
  - intros [-> ->]. split; [done|]. by exists k.
  - intros [-> [k' H']]. split; [|done]. pose proof (entry_at_one _ _ _ _ _ _ H') as ->. congruence.
Qed.

Lemma entries_fit_one def lk k v e :
  entry_at def lk (load_map [(k, v)]) k = Some e -> is_u32 (Z.of_nat (length e)) = true -> entries_fit def lk (load_map [(k, v)]).
Proof. intros H Hl k' e' H'. pose proof (entry_at_one _ _ _ _ _ _ H') as ->. congruence. Qed.

Definition by_v : IndexDef := mkIndexDef [x41] [[x76]].
Definition sample_schema : list SchemaEntry :=
  [LabelEntry [x41] (mkLabelDef [[x69]] false ∅ [] []); IndexDefEntry (text "by_v") by_v].
Definition sample_lk : LabelKeys := {[ [x41] := [[x69]] ]}.
Definition default_entry (e : option bytes) : bytes := match e with Some e => e | None => [] end.
Definition base_entry : bytes := Eval vm_compute in default_entry (entry_at by_v sample_lk (load_map base_entries) node_at).
Definition new_entry : bytes := Eval vm_compute in default_entry (entry_at by_v sample_lk (load_map ours_entries) node_at).
Definition index_entries : list (bytes * bytes) := [(base_entry, [])].
Definition index_store : SampleStore := load_store graph_store index_entries.
Definition index_root : Root := load_root graph_store index_entries.
Definition sample_indexes : gmap bytes MapRoot := {[ text "by_v" := from_root index_root ]}.

Lemma base_entry_ok : entry_at by_v sample_lk (load_map base_entries) node_at = Some base_entry.
Proof. vm_compute. reflexivity. Qed.
Lemma new_entry_ok : entry_at by_v sample_lk (load_map ours_entries) node_at = Some new_entry.
Proof. vm_compute. reflexivity. Qed.
Lemma by_v_ok : index_def_ok by_v.
Proof. split; [vm_compute; reflexivity|]. split; [vm_compute; reflexivity|]. split; [repeat constructor|]. by split. Qed.

Lemma index_describes :
  map_at index_store sample_params (m_nodes base_m) (load_map base_entries) /\
  map_at index_store sample_params (m_nodes ours_m) (load_map ours_entries) /\
  map_at index_store sample_params (from_root index_root) (load_map index_entries).
Proof.
  destruct (load_describes graph_store index_entries) as [D E];
    [by repeat constructor|vm_compute; discriminate|vm_compute; reflexivity|].
  destruct graph_map_at as (H1 & H2 & _).
  split; [exact (map_at_extends _ _ _ _ _ E H1)|]. split; [exact (map_at_extends _ _ _ _ _ E H2)|].
  apply map_at_root; [vm_compute; reflexivity|exact D].
Qed.

Lemma sample_touched k : load_map base_entries !! k <> load_map ours_entries !! k -> k ∈ [node_at].
Proof.
  intros H. destruct (decide (k = node_at)) as [->|Hk]; [by left|]. destruct H. unfold load_map.
  cbn [foldl base_entries ours_entries fst snd]. by rewrite !lookup_insert_ne.
Qed.

Lemma sample_defs name def : (name, def) ∈ [(text "by_v", by_v)] ->
  index_def_ok def /\ entries_fit def sample_lk (load_map ours_entries).
Proof.
  intros H. apply list_elem_of_singleton in H as [= -> ->]. split; [apply by_v_ok|].
  apply (entries_fit_one _ _ _ _ new_entry new_entry_ok). vm_compute. reflexivity.
Qed.

Lemma sample_bases name def base : (name, def) ∈ [(text "by_v", by_v)] -> sample_indexes !! name = Some base ->
  exists IB, map_at index_store sample_params base IB /\ indexes def sample_lk (load_map base_entries) IB.
Proof.
  intros H Hb. apply list_elem_of_singleton in H as [= -> ->]. unfold sample_indexes in Hb. rewrite lookup_singleton_eq in Hb.
  injection Hb as <-. exists (load_map index_entries). split; [apply index_describes|].
  exact (indexes_one by_v sample_lk _ _ _ base_entry_ok).
Qed.

Lemma maintain_rebuilds_witness :
  gwp (maintain 10 sample_params (m_nodes base_m) (m_nodes ours_m) [node_at] sample_indexes [(text "by_v", by_v)] sample_lk)
    (fun out s' => index_roots s' sample_params sample_lk (load_map ours_entries) [(text "by_v", by_v)] out) index_store.
Proof.
  destruct index_describes as (H1 & H2 & _).
  assert (nodes_ok (load_map base_entries)) as O1 by (apply nodes_ok_one; vm_compute; reflexivity).
  assert (nodes_ok (load_map ours_entries)) as O2 by (apply nodes_ok_one; vm_compute; reflexivity).
  assert (Forall (fun k => exists nk, node_key_decode k = Ok nk) [node_at]) as Hd
    by (constructor; [exists sample_node; vm_compute; reflexivity|constructor]).
  assert (schema_index_info sample_schema = ([(text "by_v", by_v)], sample_lk)) as Hi by reflexivity.
  assert (NoDup (map fst [(text "by_v", by_v)])) as Hn by (apply NoDup_singleton).
  assert ((Z.of_nat (size (load_map base_entries) + size (load_map ours_entries) + 2 * length [node_at]) <= 2 ^ 62)%Z) as Hs
    by (vm_compute; discriminate).
  assert (size (load_map ours_entries) < 10) as Hf by (vm_compute; lia).
  exact (proj1 (maintain_rebuilds index_store ours_m (m_nodes base_m) _ _ [node_at] sample_indexes sample_schema _ sample_lk 10
    H1 H2 O1 O2 Hd sample_touched Hi Hn sample_defs sample_bases Hs Hf)).
Defined.

Lemma maintain_computed :
  base_entry <> new_entry /\
  match (maintain 10 sample_params (m_nodes base_m) (m_nodes ours_m) [node_at] sample_indexes [(text "by_v", by_v)] sample_lk index_store).1,
        (rebuild_all 10 ours_m sample_schema index_store).1 with
  | Ok out, Ok out' => out !! text "by_v" = out' !! text "by_v" /\ out !! text "by_v" <> None
  | _, _ => False
  end.
Proof. split; [by vm_compute|]. vm_compute. split; [reflexivity|discriminate]. Qed.
