(* ===== verification/Conflicts.v ===== *)
(** * The conflicts map of a merge in progress (crates/acetone-graph/src/conflicts.rs)

    The entry keys of conflicts, their decoding, and the map that holds them
    under empty values. *)
From S2P Require Import Prelude Model Canonical Schema Store Chunker Node Tree Manifest Scan Graph GraphMerge.
Open Scope Z_scope.

Definition KIND_CELL : byte := x00.
Definition KIND_GRAPH : byte := x01.

Definition map_tag (map : ConflictMap) : byte := match map with MSchema => x00 | MNodes => x01 | MEdges => x02 end.
Definition map_from_tag (tag : byte) : option ConflictMap :=
  match tag with x00 => Some MSchema | x01 => Some MNodes | x02 => Some MEdges | _ => None end.

Inductive WorkspaceConflict : Type :=
| WCell (map : ConflictMap) (key : bytes) (property : option bytes)
| WGraph (violation : GraphViolation).

Record PersistedEntries : Type := mkPersistedEntries { cells : list WorkspaceConflict; graph_markers : Z }.

(** The [as u32] cast of the length keeps its low bits. *)
Definition push_field (key bytes : bytes) : Prelude.bytes :=
  key ++ be_bytes 4 (Z.of_nat (length bytes) mod 2 ^ 32) ++ bytes.

Definition cell_key_prefix (map : ConflictMap) (key : bytes) : bytes := push_field [KIND_CELL; map_tag map] key.

Definition entry_key (conflict : MergeConflict) : bytes :=
  match conflict with
  | Cell cell =>
    let key := cell_key_prefix (cell_map cell) (cell_key cell) in
    match cell_property cell with
    | Some property => push_field (key ++ [x01]) property
    | None => key ++ [x00]
    end
  | GraphConflict violation =>
    let key := [KIND_GRAPH] in
    match violation with
    | DanglingEdge edge _ role =>
      push_field (key ++ [x00] ++ [match role with Src => x00 | Dst => x01 end]) edge
    | MissingRequired node property => push_field (push_field (key ++ [x01]) property) node
    | WrongType node property declared _ =>
      push_field (push_field (push_field (key ++ [x03]) property) (as_str declared)) node
    | EdgeWrongType edge property declared _ =>
      push_field (push_field (push_field (key ++ [x04]) property) (as_str declared)) edge
    | StaleDiscriminator edge declared _ =>
      push_field (match declared with
                  | Some name => push_field (key ++ [x05] ++ [x01]) name
                  | None => key ++ [x05] ++ [x00]
                  end) edge
    | UniqueViolation label property value _ =>
      push_field (push_field (push_field (key ++ [x02]) label) property) value
    end
  end.

(** [usize::checked_add] and [bytes.get(lo..hi)]. *)
Definition checked_add (a b : Z) : option Z := if a + b <? 2 ^ 64 then Some (a + b) else None.
Definition get_range (b : bytes) (lo hi : Z) : option bytes :=
  if (lo <=? hi) && (hi <=? Z.of_nat (length b)) then Some (take (Z.to_nat (hi - lo)) (drop (Z.to_nat lo) b)) else None.

Definition read_field (bytes : bytes) (pos : Z) : option (Prelude.bytes * Z) :=
  match checked_add pos 4 with
  | None => None
  | Some len_end =>
    match get_range bytes pos len_end with
    | None => None
    | Some len =>
      match checked_add len_end (be_Z len) with
      | None => None
      | Some field_end =>
        match get_range bytes len_end field_end with
        | None => None
        | Some field => Some (field, field_end)
        end
      end
    end
  end.

Definition invalid : GraphError := CorruptConflicts "conflicts-map entry key is malformed".

Definition ok_or {A : Type} (o : option A) (e : GraphError) : result GraphError A :=
  match o with Some a => Ok a | None => Err e end.

Definition decode_entry (key : bytes) : result GraphError (option WorkspaceConflict) :=
  match key !! 0%nat with
  | Some x00 =>
    let? tag := ok_or (key !! 1%nat) invalid in
    let? map := ok_or (map_from_tag tag) invalid in
    let? '(map_key, pos) := ok_or (read_field key 2) invalid in
    let? present := ok_or (key !! Z.to_nat pos) invalid in
    let? property :=
      match present with
      | x00 => Ok None
      | x01 =>
        let? '(bytes, _) := ok_or (read_field key (pos + 1)) invalid in
        if utf8_valid bytes then Ok (Some bytes) else Err invalid
      | _ => Err invalid
      end in
    Ok (Some (WCell map map_key property))
  | Some x01 => Ok None
  | _ => Err invalid
  end.

Section store.
Context {S : Type} {CS : ChunkStore S}.

Definition build_conflicts_map (params : ChunkParams) (conflicts : list MergeConflict) : st S GraphError Root :=
  let ops := List.map (fun c => Put (entry_key c) []) conflicts in
  let! base := on_map (empty_map params) in
  on_map (apply_batch base ops).

Definition clear_entry (prefixes : list bytes) (entry value : bytes) (ops : list BatchOp)
    : result GraphError (flow (list BatchOp)) :=
  Ok (Continue (if existsb (starts_with entry) prefixes then ops ++ [Delete entry] else ops)).

Definition clear_written (fuel : nat) (root : Root) (written : list (ConflictMap * bytes)) : st S GraphError (option Root) :=
  let prefixes := List.map (fun '(map, key) => cell_key_prefix map key) written in
  let! ops := st_read (fun store => for_each fuel store root Unbounded Unbounded (clear_entry prefixes) []) in
  let! reduced := on_map (apply_batch root ops) in
  st_read (fun store =>
    let? sc := map_err GProlly (scan store reduced Unbounded Unbounded) in
    match (next store sc).1 with
    | None => Ok None
    | Some _ => Ok (Some reduced)
    end).

Definition read_entry (key value : bytes) (e : PersistedEntries) : result GraphError (flow PersistedEntries) :=
  let? decoded := decode_entry key in
  Ok (Continue (match decoded with
                | Some cell => mkPersistedEntries (cells e ++ [cell]) (graph_markers e)
                | None => mkPersistedEntries (cells e) (graph_markers e + 1)
                end)).

Definition read_entries (fuel : nat) (store : S) (root : Root) : result GraphError PersistedEntries :=
  for_each fuel store root Unbounded Unbounded read_entry (mkPersistedEntries [] 0).
End store.
