(* ===== verification/ConflictsRun.v ===== *)
(** * The conflicts map is faithful

    Entry keys never alias, cell entries read back what was written, and
    writing a conflicted key clears exactly its entries. *)
From S2P Require Import Prelude Ieee Model Canonical Schema Store Chunker Node Tree TreeSpec TreeNodes TreeRead TreeBuild TreeLevels TreeContent TreeBatch Prolly Manifest Diff DiffRun MapDiff Scan ScanRun Graph GraphRun CellMerge GraphMerge GraphMergeRun Conflicts.
Open Scope Z_scope.

(** ** Length-prefixed fields *)

Definition field (b : bytes) : bytes := be_bytes 4 (Z.of_nat (length b) mod 2 ^ 32) ++ b.
Definition fits (b : bytes) : Prop := is_u32 (Z.of_nat (length b)) = true.

Lemma push_field_app k b : push_field k b = k ++ field b.
Proof. done. Qed.

Lemma field_inj a b x y : fits a -> fits b -> field a ++ x = field b ++ y -> a = b /\ x = y.
Proof.
  unfold fits, field. intros Ha Hb H. rewrite <-!app_assoc in H. apply app_inj_1 in H as [Hl H]; [|by rewrite !length_be_bytes].
  apply (f_equal be_Z) in Hl. rewrite !be_Z_be_bytes in Hl. change (256 ^ Z.of_nat 4) with (2 ^ 32) in Hl. unrange.
  rewrite !Z.mod_mod, !Z.mod_small in Hl by lia. by apply app_inj_1 in H; [|lia].
Qed.

Lemma length_field b : length (field b) = (4 + length b)%nat.
Proof. unfold field. by rewrite length_app, length_be_bytes. Qed.

Lemma get_range_app pre b rest :
  get_range (pre ++ b ++ rest) (Z.of_nat (length pre)) (Z.of_nat (length pre + length b)) = Some b.
Proof.
  unfold get_range. rewrite !length_app. rewrite (proj2 (andb_true_iff _ _)) by (split; apply Z.leb_le; lia).
  rewrite Nat2Z.id, drop_app_length. replace (Z.to_nat _) with (length b) by lia. by rewrite take_app_length.
Qed.

Lemma read_field_at pre b rest :
  fits b -> Z.of_nat (length pre) < 2 ^ 62 ->
  read_field (pre ++ field b ++ rest) (Z.of_nat (length pre)) = Some (b, Z.of_nat (length pre + 4 + length b)).
Proof.
  unfold fits. intros Hb Hp. unrange. unfold read_field, checked_add. rewrite (proj2 (Z.ltb_lt _ _)) by lia.
  assert (length (be_bytes 4 (Z.of_nat (length b) mod 2 ^ 32)) = 4%nat) as H4 by apply length_be_bytes.
  pose proof (get_range_app pre (be_bytes 4 (Z.of_nat (length b) mod 2 ^ 32)) (b ++ rest)) as E. rewrite H4 in E.
  replace (Z.of_nat (length pre + 4)) with (Z.of_nat (length pre) + 4) in E by lia.
  unfold field. rewrite <-app_assoc, E. rewrite be_Z_be_bytes. change (256 ^ Z.of_nat 4) with (2 ^ 32).
  rewrite Z.mod_mod, Z.mod_small by lia. rewrite (proj2 (Z.ltb_lt _ _)) by lia.
  pose proof (get_range_app (pre ++ be_bytes 4 (Z.of_nat (length b))) b rest) as E'. rewrite length_app, length_be_bytes in E'.
  rewrite <-app_assoc in E'. replace (Z.of_nat (length pre) + 4) with (Z.of_nat (length pre + 4)) by lia.
  replace (Z.of_nat (length pre + 4) + Z.of_nat (length b)) with (Z.of_nat (length pre + 4 + length b)) by lia.
  by rewrite E'.
Qed.

#[local] Opaque field.

(** Splits an equation of entry keys at its leading bytes. *)
Ltac strip H := cbn [app] in H; repeat (lazymatch type of H with _ :: _ = _ :: _ => idtac end; apply cons_eq_inv in H as [? H]).

(** ** Entry keys *)

(** The fields of a conflict fit their length prefixes. *)
Definition conflict_fits (c : MergeConflict) : Prop :=
  match c with
  | Cell cell => fits (cell_key cell) /\ (forall p, cell_property cell = Some p -> fits p /\ utf8_valid p = true)
  | GraphConflict v =>
    match v with
    | DanglingEdge edge _ _ => fits edge
    | MissingRequired node p => fits p /\ fits node
    | WrongType node p _ _ => fits p /\ fits node
    | EdgeWrongType edge p _ _ => fits p /\ fits edge
    | StaleDiscriminator edge d _ => fits edge /\ (forall n, d = Some n -> fits n)
    | UniqueViolation l p v _ => fits l /\ fits p /\ fits v
    end
  end.

(** What distinguishes a conflict: the fields its entry key carries. *)
Definition identity (c : MergeConflict) : MergeConflict :=
  match c with
  | Cell cell => Cell (mkCellConflict (cell_map cell) (cell_key cell) (cell_property cell) None None None)
  | GraphConflict v =>
    GraphConflict match v with
                  | DanglingEdge edge _ role => DanglingEdge edge [] role
                  | MissingRequired node p => MissingRequired node p
                  | WrongType node p d _ => WrongType node p d d
                  | EdgeWrongType edge p d _ => EdgeWrongType edge p d d
                  | StaleDiscriminator edge d _ => StaleDiscriminator edge d None
                  | UniqueViolation l p v _ => UniqueViolation l p v []
                  end
  end.

Definition workspace_of (c : MergeConflict) : option WorkspaceConflict :=
  match c with
  | Cell cell => Some (WCell (cell_map cell) (cell_key cell) (cell_property cell))
  | GraphConflict _ => None
  end.

Definition written_cell (written : list (ConflictMap * bytes)) (c : MergeConflict) : bool :=
  match c with
  | Cell cell => bool_decide ((cell_map cell, cell_key cell) ∈ written)
  | GraphConflict _ => false
  end.

Lemma as_str_inj a b : as_str a = as_str b -> a = b.
Proof. intros H. apply (f_equal parse_type) in H. rewrite !parse_as_str in H. by apply Ok_inj in H. Qed.

Lemma as_str_fits t : fits (as_str t).
Proof. by destruct t. Qed.

Lemma identity_entry c : entry_key (identity c) = entry_key c.
Proof. destruct c as [cell|v]; [by destruct cell|by destruct v]. Qed.

Lemma map_tag_inj a b : map_tag a = map_tag b -> a = b.
Proof. by destruct a, b. Qed.

Lemma map_from_tag_tag m : map_from_tag (map_tag m) = Some m.
Proof. by destruct m. Qed.

(** The bytes after the first of an entry key, as fields. *)
Definition cell_suffix (p : option bytes) : bytes := match p with Some p => x01 :: field p | None => [x00] end.

Lemma entry_key_cell cell :
  entry_key (Cell cell) = KIND_CELL :: map_tag (cell_map cell) :: field (cell_key cell) ++ cell_suffix (cell_property cell).
Proof.
  cbn [entry_key]. unfold cell_key_prefix. destruct (cell_property cell) as [p|]; cbn [cell_suffix];
    rewrite ?push_field_app; rewrite <-!app_assoc; done.
Qed.

Lemma field_inj_last a b : fits a -> fits b -> field a = field b -> a = b.
Proof. intros Ha Hb H. apply (field_inj a b [] [] Ha Hb). by rewrite !app_nil_r. Qed.

Lemma entry_key_inj c c' :
  conflict_fits c -> conflict_fits c' -> entry_key c = entry_key c' -> identity c = identity c'.
Proof.
  intros Hc Hc' H. destruct c as [c|v], c' as [c'|v'].
  - rewrite !entry_key_cell in H. destruct Hc as [F1 F2], Hc' as [F1' F2']. apply cons_eq_inv in H as [_ H].
    apply cons_eq_inv in H as [Hm H]. apply map_tag_inj in Hm. apply field_inj in H as [Hk H]; [|done..]. cbn [identity]. rewrite Hm, Hk.
    destruct (cell_property c) as [p|], (cell_property c') as [p'|]; cbn [cell_suffix] in H; try done.
    strip H. destruct (F2 p eq_refl) as [? _], (F2' p' eq_refl) as [? _]. by apply field_inj_last in H as ->.
  - rewrite entry_key_cell in H. exfalso. destruct v'; [..|destruct declared|]; done.
  - rewrite entry_key_cell in H. exfalso. destruct v; [..|destruct declared|]; done.
  - destruct v as [e n r|n p|n p d a|e p d a|e d m|l p x ns], v' as [e' n' r'|n' p'|n' p' d' a'|e' p' d' a'|e' d' m'|l' p' x' ns'];
      cbn [entry_key conflict_fits] in *; rewrite ?push_field_app in H; try done;
      try (destruct d; done); try (destruct d'; done).
    + strip H. apply field_inj_last in H as ->; [|done..]. cbn [identity]. by destruct r, r'.
    + destruct Hc, Hc'. rewrite <-!app_assoc in H. strip H. apply field_inj in H as [-> H]; [|done..].
      by apply field_inj_last in H as ->.
    + destruct Hc, Hc'. rewrite <-!app_assoc in H. strip H. apply field_inj in H as [-> H]; [|done..].
      apply field_inj in H as [Hd H]; [|apply as_str_fits..]. apply as_str_inj in Hd as ->. by apply field_inj_last in H as ->.
    + destruct Hc, Hc'. rewrite <-!app_assoc in H. strip H. apply field_inj in H as [-> H]; [|done..].
      apply field_inj in H as [Hd H]; [|apply as_str_fits..]. apply as_str_inj in Hd as ->. by apply field_inj_last in H as ->.
    + destruct Hc as [F1 F2], Hc' as [F1' F2']. destruct d as [d|], d' as [d'|]; rewrite ?push_field_app, <-?app_assoc in H; try done.
      * strip H. apply field_inj in H as [-> H]; [|by apply F2|by apply F2']. by apply field_inj_last in H as ->.
      * strip H. by apply field_inj_last in H as ->.
    + destruct Hc as (? & ? & ?), Hc' as (? & ? & ?). rewrite <-!app_assoc in H. strip H.
      apply field_inj in H as [-> H]; [|done..]. apply field_inj in H as [-> H]; [|done..]. by apply field_inj_last in H as ->.
Qed.

Lemma decode_entry_key c : conflict_fits c -> decode_entry (entry_key c) = Ok (workspace_of c).
Proof.
  destruct c as [cell|v]; [|by destruct v as [| | | |? [|] ?|]]. intros [Hk Hp]. rewrite entry_key_cell.
  set (rest := cell_suffix (cell_property cell)). cbn [workspace_of].
  change (KIND_CELL :: map_tag (cell_map cell) :: field (cell_key cell) ++ rest)
    with ([KIND_CELL; map_tag (cell_map cell)] ++ field (cell_key cell) ++ rest).
  unfold decode_entry. cbn [app lookup list_lookup]. change KIND_CELL with x00. cbn [ok_or rbind].
  rewrite map_from_tag_tag. cbn [ok_or rbind].
  pose proof (read_field_at [x00; map_tag (cell_map cell)] (cell_key cell) rest Hk ltac:(cbn; lia)) as Hread.
  cbn [app length] in Hread. change (Z.of_nat 2) with 2 in Hread. rewrite Hread. cbn [ok_or rbind]. clear Hread.
  set (pre := x00 :: map_tag (cell_map cell) :: field (cell_key cell)).
  assert (length pre = (2 + 4 + length (cell_key cell))%nat) as Hl by (subst pre; cbn [length]; rewrite length_field; lia).
  change (x00 :: map_tag (cell_map cell) :: field (cell_key cell) ++ rest) with (pre ++ rest).
  rewrite <-Hl, Nat2Z.id. rewrite (lookup_app_r pre rest (length pre)) by lia. rewrite Nat.sub_diag.
  subst rest. destruct (cell_property cell) as [p|] eqn:Ep; cbn [cell_suffix lookup list_lookup ok_or rbind]; [|done].
  destruct (Hp p eq_refl) as [Hf Hu].
  assert (Z.of_nat (length pre) < 2 ^ 40) as Hpre by (rewrite Hl; unfold fits in Hk; unrange; lia).
  pose proof (read_field_at (pre ++ [x01]) p [] Hf ltac:(rewrite length_app; cbn [length]; lia)) as Hread.
  rewrite app_nil_r, <-app_assoc, length_app in Hread. cbn [app length] in Hread.
  replace (Z.of_nat (length pre + 1)) with (Z.of_nat (length pre) + 1) in Hread by lia.
  rewrite Hread. cbn [ok_or rbind]. by rewrite Hu.
Qed.

Lemma entry_key_written c m k :
  conflict_fits c -> fits k ->
  starts_with (entry_key c) (cell_key_prefix m k) = true <-> written_cell [(m, k)] c = true.
Proof.
  intros Hc Hk. rewrite starts_with_spec. unfold cell_key_prefix. rewrite push_field_app. destruct c as [cell|v].
  - rewrite entry_key_cell. cbn [written_cell]. rewrite bool_decide_eq_true, list_elem_of_singleton. destruct Hc as [F _]. split.
    + intros [t H]. cbn [app] in H. apply cons_eq_inv in H as [_ H].
      apply cons_eq_inv in H as [Hm H]. apply map_tag_inj in Hm. apply field_inj in H as [-> _]; [|done..].
      by rewrite Hm.
    + intros [= <- <-]. by eexists.
  - split; [|done]. intros [t H]. exfalso. destruct v as [| | | |? [|] ?|]; done.
Qed.

Lemma written_any c written :
  written_cell written c = existsb (fun w => written_cell [w] c) written.
Proof.
  destruct c as [cell|v]; [|by induction written]. cbn [written_cell]. induction written as [|w ws IH]; [done|]. cbn [existsb].
  rewrite <-IH, <-bool_decide_or. apply bool_decide_ext. by rewrite elem_of_cons, list_elem_of_singleton.
Qed.

Lemma prefixes_written c written :
  conflict_fits c -> Forall (fun w => fits w.2) written ->
  existsb (starts_with (entry_key c)) (map (fun '(m, k) => cell_key_prefix m k) written) = written_cell written c.
Proof.
  intros Hc Hw. rewrite written_any. induction Hw as [|[m k] ws Hk _ IH]; [done|]. cbn [map existsb]. rewrite IH. f_equal.
  apply eq_true_iff_eq. by apply entry_key_written.
Qed.

(** The entry keys of the conflicts map. A cell's entry decodes to the
    cell's map, key and property, a violation's to a marker, and two conflicts
    share an entry exactly when they agree on everything that distinguishes
    them. *)
Lemma entry_key_codec c c' :
  conflict_fits c -> conflict_fits c' ->
  decode_entry (entry_key c) = Ok (workspace_of c) /\ (entry_key c = entry_key c' <-> identity c = identity c').
Proof.
  intros Hc Hc'. split; [by apply decode_entry_key|]. split; [by apply entry_key_inj|].
  intros H. by rewrite <-(identity_entry c), <-(identity_entry c'), H.
Qed.

(** ** The map *)

Definition conflicts_map (cs : list MergeConflict) : gmap bytes bytes := key_map (map entry_key cs).

Definition is_violation (c : MergeConflict) : bool := match c with Cell _ => false | GraphConflict _ => true end.

(** What the entries of [cs], in this order, read back as. *)
Definition read_back (cs : list MergeConflict) : PersistedEntries :=
  mkPersistedEntries (omap workspace_of cs) (Z.of_nat (length (List.filter is_violation cs))).

Lemma fold_read_entries cs es e :
  Forall conflict_fits cs -> map fst es = map entry_key cs ->
  fold_flow read_entry es e = Ok (mkPersistedEntries (cells e ++ cells (read_back cs)) (graph_markers e + graph_markers (read_back cs))).
Proof.
  intros H. revert es e. induction H as [|c cs Hc _ IH]; intros es e E.
  { destruct es; [|done]. cbn [fold_flow]. cbn. by rewrite app_nil_r, Z.add_0_r; destruct e. }
  destruct es as [|[k v] es]; [done|]. cbn [map fst] in E. apply cons_eq_inv in E as [-> E]. cbn [fold_flow].
  unfold read_entry. rewrite (decode_entry_key c Hc). cbn [rbind]. rewrite (IH es) by done.
  destruct c as [cell|v']; cbn [workspace_of]; f_equal; unfold read_back; cbn [cells graph_markers omap list_omap workspace_of List.filter is_violation length].
  - by rewrite <-app_assoc.
  - f_equal. lia.
Qed.

(** Entries that come from conflicts, read as such. *)
Lemma represent (f : MergeConflict -> bytes) es cs :
  (forall k, k ∈ es -> k ∈ map f cs) -> exists cs', map f cs' = es /\ forall c, c ∈ cs' -> c ∈ cs.
Proof.
  induction es as [|k es IH]; intros H; [exists []; split; [done|by intros c Hc%elem_of_nil]|].
  destruct IH as (cs' & <- & Hsub); [intros x Hx; apply H; by right|].
  destruct (proj1 (list_elem_of_fmap f cs k)) as (c & -> & Hc); [apply H; by left|].
  exists (c :: cs'). split; [done|]. intros x Hx. apply elem_of_cons in Hx as [->|Hx]; [done|by apply Hsub].
Qed.

(** The conflicts whose entries a conflicts map holds, one for each entry, in
    the order of the map. *)
Definition listed (cs cs' : list MergeConflict) : Prop :=
  StronglySorted bytes_lt (map entry_key cs') /\ (forall c, c ∈ cs' -> c ∈ cs) /\
  forall c, c ∈ cs -> exists c', c' ∈ cs' /\ identity c' = identity c.

Section store.
Context {S : Type} {CS : ChunkStore S} {CSL : ChunkStoreLaws S}.
Implicit Types (s : S) (R : Root).

Lemma size_conflicts cs : (size (conflicts_map cs) <= length cs)%nat.
Proof.
  rewrite <-(length_map entry_key cs). unfold conflicts_map. clear. induction (map entry_key cs) as [|k ks IH] using rev_ind; [done|].
  unfold key_map, put_keys in *. rewrite map_app, foldl_app. cbn [map foldl op_map]. rewrite length_app. cbn [length].
  rewrite map_size_insert. destruct (_ !! _); cbn [id]; lia.
Qed.

Lemma conflicts_listed cs (m : kvs) :
  Forall conflict_fits cs -> entries_in (conflicts_map cs) m ->
  exists cs', map fst m = map entry_key cs' /\ listed cs cs'.
Proof.
  intros Hcs Hm. assert (forall k, k ∈ map fst m <-> k ∈ map entry_key cs) as Hk.
  { intros k. rewrite list_elem_of_fmap. split.
    - intros ([x v] & -> & Hin). apply (entries_in_lookup _ m _ _ Hm) in Hin. by apply key_map_lookup in Hin as [_ Hin].
    - intros Hin. exists (k, []). split; [done|]. apply (entries_in_lookup _ m _ _ Hm). by apply key_map_lookup. }
  destruct (represent entry_key (map fst m) cs) as (cs' & E & Hsub); [intros k; apply Hk|].
  exists cs'. split; [done|]. split; [rewrite E; by apply Hm|]. split; [done|].
  intros c Hc. assert (entry_key c ∈ map entry_key cs') as Hin by (rewrite E; apply Hk; by apply list_elem_of_fmap_2).
  apply list_elem_of_fmap in Hin as (c' & Hc' & Hin). exists c'. split; [done|]. symmetry. rewrite Forall_forall in Hcs.
  apply entry_key_inj; [by apply Hcs|by apply Hcs, Hsub|done].
Qed.

Lemma gwp_build_conflicts s p cs :
  params_ok p = true -> Forall (fun c => fits (entry_key c)) cs -> Z.of_nat (length cs) <= 2 ^ 62 ->
  gwp (build_conflicts_map p cs) (fun R s' => params R = p /\ describes s' R (conflicts_map cs)) s.
Proof.
  intros Hp Hk Hn. unfold build_conflicts_map.
  replace (List.map (fun c => Put (entry_key c) []) cs) with (put_keys (map entry_key cs)) by (unfold put_keys; by rewrite map_map).
  apply (gwp_build_keys s p (map entry_key cs) Hp); [by apply Forall_map|by rewrite length_map].
Qed.

(** The conflicts map reads back what was recorded. Building the map of a
    merge's conflicts fails only with the store and returns the root of the map
    of their entries; reading such a map ends and returns, one per entry and in
    entry order, the cells of the conflicts and the number of the violations. *)
Lemma conflicts_map_roundtrip s p cs :
  params_ok p = true -> Forall conflict_fits cs -> Forall (fun c => fits (entry_key c)) cs ->
  (Z.of_nat (length cs) <= 2 ^ 62) ->
  gwp (build_conflicts_map p cs) (fun R s' => params R = p /\ describes s' R (conflicts_map cs) /\
    exists cs', listed cs cs' /\ forall f, (length cs < f)%nat -> read_entries f s' R = Ok (read_back cs')) s.
Proof.
  intros Hp Hc Hk Hn. eapply gwp_mono; [by apply gwp_build_conflicts|].
  intros R s' _ [PR D]. split; [done|]. split; [done|].
  destruct (for_each_spec s' R (conflicts_map cs) read_entry (mkPersistedEntries [] 0) D) as (m & Hm & Hloop).
  destruct (conflicts_listed cs m Hc Hm) as (cs' & E & Hl). exists cs'. split; [done|]. intros f Hf.
  pose proof (size_conflicts cs) as Hsize.
  unfold read_entries. rewrite Hloop by lia. rewrite (fold_read_entries cs' m); [done| |done].
  apply Forall_forall. intros c Hin. rewrite Forall_forall in Hc. by apply Hc, Hl.
Qed.

Lemma sorted_entries_nil M m : entries_in M m -> (m = [] <-> M = ∅).
Proof.
  intros Hm. pose proof (entries_in_length M m Hm) as Hl. split; [intros ->; by apply map_size_empty_inv|].
  intros ->. rewrite map_size_empty in Hl. by apply nil_length_inv.
Qed.

(** The first item of the scan of a map. *)
Lemma scan_first s R M :
  describes s R M -> exists sc, scan s R Unbounded Unbounded = Ok sc /\ ((next s sc).1 = None <-> M = ∅).
Proof.
  intros (Hp & m & <- & Ht). pose proof (root_den s R m Hp Ht) as Hd. destruct Ht as (_ & [Hs _] & _).
  destruct (seek_collect s R m Unbounded Unbounded Forward Hd Hs) as (sc & Esc & Hc). exists sc. split; [exact Esc|].
  specialize (Hc (Datatypes.S (length m)) ltac:(lia)). cbn [orient opposite] in Hc. rewrite in_bounds_all in Hc.
  assert (entries_in (contents m) m) as Hm by by split.
  rewrite <-(sorted_entries_nil _ _ Hm). cbn [collect] in Hc. destruct (next s sc) as [[[[k v]|e]|] sc'] eqn:En; cbn [fst].
  - apply rbind_Ok in Hc as (es & _ & Hc). apply Ok_inj in Hc as <-. done.
  - done.
  - by apply Ok_inj in Hc as <-.
Qed.

Definition unwritten (written : list (ConflictMap * bytes)) (cs : list MergeConflict) : list MergeConflict :=
  List.filter (fun c => negb (written_cell written c)) cs.

Lemma deletes_lookup (M : gmap bytes bytes) (ks : list bytes) k :
  foldl op_map M (map Delete ks) !! k = if bool_decide (k ∈ ks) then None else M !! k.
Proof.
  revert M. induction ks as [|x ks IH]; intros M; [done|]. cbn [map foldl op_map]. rewrite IH.
  destruct (decide (k = x)) as [->|Hne].
  - rewrite lookup_delete_eq, (bool_decide_true (x ∈ x :: ks)) by (by left). by case_bool_decide.
  - rewrite lookup_delete_ne by done. by rewrite (bool_decide_ext (k ∈ x :: ks) (k ∈ ks)) by (rewrite elem_of_cons; naive_solver).
Qed.

Lemma unwritten_map written cs (ks : list bytes) :
  Forall conflict_fits cs -> Forall (fun w => fits w.2) written ->
  (forall k, k ∈ ks <-> exists c, c ∈ cs /\ k = entry_key c /\ written_cell written c = true) ->
  foldl op_map (conflicts_map cs) (map Delete ks) = conflicts_map (unwritten written cs).
Proof.
  intros Hcs Hw Hks. apply map_eq. intros k. apply option_eq. intros v. rewrite deletes_lookup. unfold conflicts_map, unwritten.
  rewrite key_map_lookup, list_elem_of_fmap.
  assert (forall c, c ∈ List.filter (fun c => negb (written_cell written c)) cs <-> c ∈ cs /\ written_cell written c = false) as Hf.
  { intros c. rewrite !list_elem_of_In, filter_In, negb_true_iff. done. }
  case_bool_decide as Hk.
  - apply Hks in Hk as (c & Hc & -> & Hwc). split; [done|]. intros (_ & c' & He & Hc'). apply Hf in Hc' as [Hc' Hwc'].
    rewrite Forall_forall in Hcs. apply entry_key_inj in He; [|by apply Hcs..].
    assert (written_cell written (identity c) = written_cell written (identity c')) as E by (by rewrite He).
    destruct c, c'; cbn in *; congruence.
  - rewrite key_map_lookup, list_elem_of_fmap. split; (intros (-> & c & -> & Hc); split; [done|]; exists c; split; [done|]).
    + apply Hf. split; [done|]. apply not_true_is_false. intros Hwc. destruct Hk. apply Hks. by exists c.
    + by apply Hf in Hc as [Hc _].
Qed.

Lemma gwp_clear_written s R cs written f :
  describes s R (conflicts_map cs) -> Forall conflict_fits cs -> Forall (fun w => fits w.2) written ->
  (Z.of_nat (2 * length cs) <= 2 ^ 62) -> (length cs < f)%nat ->
  gwp (clear_written f R written) (fun o s' =>
    match o with
    | None => unwritten written cs = []
    | Some R' => unwritten written cs <> [] /\ params R' = params R /\ describes s' R' (conflicts_map (unwritten written cs))
    end) s.
Proof.
  intros D Hcs Hw Hn Hf.
  set (prefixes := List.map (fun '(map, key) => cell_key_prefix map key) written).
  destruct (for_each_spec s R (conflicts_map cs) (clear_entry prefixes) [] D) as (m & Hm & Hloop).
  destruct (conflicts_listed cs m Hcs Hm) as (cs' & E & Hs & Hsub & Hall).
  assert (size (conflicts_map cs) <= length cs)%nat as Hsize by apply size_conflicts.
  set (ks := List.filter (fun k => existsb (starts_with k) prefixes) (map fst m)).
  assert (fold_flow (clear_entry prefixes) m [] = Ok (map Delete ks)) as Hfold.
  { rewrite (fold_flow_collect _ (fun e => if existsb (starts_with e.1) prefixes then [Delete e.1] else [])).
    - cbn [app]. subst ks. clear. f_equal. induction m as [|e m IH]; [done|]. cbn [map concat List.filter].
      rewrite IH. by destruct (existsb (starts_with e.1) prefixes).
    - apply Forall_forall. intros e _ acc. unfold clear_entry. destruct (existsb (starts_with e.1) prefixes); [done|].
      by rewrite app_nil_r. }
  assert (forall k, k ∈ ks <-> exists c, c ∈ cs /\ k = entry_key c /\ written_cell written c = true) as Hks.
  { intros k. subst ks. rewrite list_elem_of_In, filter_In, <-list_elem_of_In, E, list_elem_of_fmap. rewrite Forall_forall in Hcs. split.
    - intros [(c & -> & Hc) Hp]. exists c. split; [by apply Hsub|]. split; [done|]. by rewrite <-(prefixes_written c written) by auto.
    - intros (c & Hc & -> & Hwc). destruct (Hall c Hc) as (c' & Hc' & Hid). split.
      + exists c'. split; [|done]. by rewrite <-(identity_entry c'), Hid, identity_entry.
      + unfold prefixes. rewrite (prefixes_written c written); auto. }
  assert (length ks <= length cs)%nat as Hlen.
  { subst ks. etrans; [apply filter_length_le|]. rewrite length_map, (entries_in_length _ m Hm). done. }
  unfold clear_written. fold prefixes.
  eapply gwp_bind; [apply (gwp_read _ (map Delete ks) (fun o s' => o = map Delete ks /\ s' = s)); [by rewrite Hloop by lia|by split]|].
  intros ? ? _ [-> ->].
  eapply gwp_bind; [apply gwp_on_map, (wp_apply_batch s R _ (map Delete ks) D); [|rewrite length_map; lia]|].
  { apply Forall_map. by apply Forall_forall. }
  intros R' s' _ [PR' D']. cbn beta iota in D'. rewrite (unwritten_map written cs ks Hcs Hw Hks) in D'.
  destruct (scan_first s' R' _ D') as (sc & Esc & Hfirst).
  assert (conflicts_map (unwritten written cs) = ∅ <-> unwritten written cs = []) as Hempty.
  { split; [|by intros ->]. intros H0. destruct (unwritten written cs) as [|c l]; [done|].
    assert (conflicts_map (c :: l) !! entry_key c = Some []) as Hc by (apply key_map_lookup; split; [done|by left]).
    by rewrite H0, lookup_empty in Hc. }
  eapply (gwp_read _ (match (next s' sc).1 with None => None | Some _ => Some R' end)).
  { rewrite Esc. cbn [map_err rbind]. by destruct ((next s' sc).1). }
  destruct ((next s' sc).1) as [x|].
  - split; [|by split]. intros H0. apply Hempty, Hfirst in H0. done.
  - by apply Hempty, Hfirst.
Qed.

(** C31: writing conflicted keys clears exactly their conflicts. On the map of
    a merge's conflicts the clearing ends and fails only with the store; with
    every conflict a cell of a written key it answers that none is left,
    otherwise it returns the root of the map of the others. *)
Theorem clear_written_spec s R cs written f :
  describes s R (conflicts_map cs) -> Forall conflict_fits cs -> Forall (fun w => fits w.2) written ->
  (Z.of_nat (2 * length cs) <= 2 ^ 62) -> (length cs < f)%nat ->
  gwp (clear_written f R written) (fun o s' =>
    match o with
    | None => unwritten written cs = []
    | Some R' => unwritten written cs <> [] /\ params R' = params R /\ describes s' R' (conflicts_map (unwritten written cs))
    end) s.
Proof. apply gwp_clear_written. Qed.
End store.

(** ** The theorems at a concrete merge *)

Definition sample_conflicts : list MergeConflict :=
  [Cell (mkCellConflict MNodes [x61] (Some [x76]) None (Some [x01]) (Some [x02]));
   GraphConflict (DanglingEdge [x65] [x6e] Src);
   Cell (mkCellConflict MNodes [x61] None None None None);
   Cell (mkCellConflict MEdges [x61] None (Some [x01]) None (Some [x02]))].

Lemma conflict_fits_cell m k p b o t :
  fits k -> match p with Some p => is_u32 (Z.of_nat (length p)) && utf8_valid p | None => true end = true ->
  conflict_fits (Cell (mkCellConflict m k p b o t)).
Proof.
  intros Hk Hp. split; [done|]. cbn [cell_property]. intros q ->. apply andb_true_iff in Hp. exact Hp.
Qed.

Lemma sample_conflicts_fit : Forall conflict_fits sample_conflicts.
Proof.
  apply Forall_cons_2; [by apply conflict_fits_cell|]. apply Forall_cons_2; [reflexivity|].
  apply Forall_cons_2; [by apply conflict_fits_cell|]. apply Forall_cons_2; [by apply conflict_fits_cell|]. apply Forall_nil_2.
Qed.

Lemma entry_key_codec_witness :
  exists c c', c ∈ sample_conflicts /\ c' ∈ sample_conflicts /\ c <> c' /\
    decode_entry (entry_key c) = Ok (workspace_of c) /\ (entry_key c = entry_key c' <-> identity c = identity c').
Proof.
  pose proof sample_conflicts_fit as H. rewrite Forall_forall in H.
  exists (Cell (mkCellConflict MNodes [x61] (Some [x76]) None (Some [x01]) (Some [x02]))), (Cell (mkCellConflict MNodes [x61] None None None None)).
  assert (Cell (mkCellConflict MNodes [x61] (Some [x76]) None (Some [x01]) (Some [x02])) ∈ sample_conflicts) as H1 by (by left).
  assert (Cell (mkCellConflict MNodes [x61] None None None None) ∈ sample_conflicts) as H2 by (do 2 right; by left).
  split; [done|]. split; [done|]. split; [discriminate|]. exact (entry_key_codec _ _ (H _ H1) (H _ H2)).
Defined.

Lemma sample_keys_fit : Forall (fun c => fits (entry_key c)) sample_conflicts.
Proof. repeat constructor. Qed.

Lemma sample_conflicts_few : Z.of_nat (2 * length sample_conflicts) <= 2 ^ 62.
Proof. vm_compute. discriminate. Qed.

Lemma conflicts_map_roundtrip_witness :
  gwp (build_conflicts_map sample_params sample_conflicts) (fun R s' => params R = sample_params /\
    describes s' R (conflicts_map sample_conflicts) /\
    exists cs', listed sample_conflicts cs' /\ forall f, (length sample_conflicts < f)%nat -> read_entries f s' R = Ok (read_back cs')) sample_empty.
Proof.
  assert (Z.of_nat (length sample_conflicts) <= 2 ^ 62) as Hn by (vm_compute; discriminate).
  exact (conflicts_map_roundtrip sample_empty sample_params sample_conflicts eq_refl sample_conflicts_fit sample_keys_fit Hn).
Defined.

Lemma build_run {S : Type} {CS : ChunkStore S} {CSL : ChunkStoreLaws S} (s s' : S) p cs R :
  params_ok p = true -> Forall (fun c => fits (entry_key c)) cs ->
  Z.of_nat (length cs) <= 2 ^ 62 -> build_conflicts_map p cs s = (Ok R, s') -> describes s' R (conflicts_map cs).
Proof. intros Hp Hk Hn E. by destruct (gwp_Ok _ _ _ _ _ (gwp_build_conflicts s p cs Hp Hk Hn) E) as (_ & _ & D). Qed.

Definition conflicts_run := build_conflicts_map sample_params sample_conflicts sample_empty.
Definition conflicts_root : Root := st_value no_root conflicts_run.
Definition conflicts_store : SampleStore := conflicts_run.2.

Lemma conflicts_run_ok :
  build_conflicts_map sample_params sample_conflicts sample_empty = (Ok conflicts_root, conflicts_store).
Proof. unfold conflicts_root, conflicts_store, conflicts_run. apply st_value_spec. vm_compute. reflexivity. Qed.

Lemma conflicts_describe : describes conflicts_store conflicts_root (conflicts_map sample_conflicts).
Proof.
  apply (build_run sample_empty conflicts_store sample_params);
    [reflexivity|exact sample_keys_fit|vm_compute; discriminate|exact conflicts_run_ok].
Qed.

Lemma clear_written_spec_witness :
  length (unwritten [(MNodes, [x61])] sample_conflicts) = 2%nat /\
  gwp (clear_written 5 conflicts_root [(MNodes, [x61])]) (fun o s' =>
    match o with
    | None => unwritten [(MNodes, [x61])] sample_conflicts = []
    | Some R' => unwritten [(MNodes, [x61])] sample_conflicts <> [] /\ params R' = params conflicts_root /\
        describes s' R' (conflicts_map (unwritten [(MNodes, [x61])] sample_conflicts))
    end) conflicts_store.
Proof.
  split; [reflexivity|].
  assert (Forall (fun w : ConflictMap * bytes => fits w.2) [(MNodes, [x61])]) as Hw by (by repeat constructor).
  assert (length sample_conflicts < 5)%nat as Hf by (cbn; lia).
  exact (clear_written_spec conflicts_store conflicts_root sample_conflicts _ 5 conflicts_describe sample_conflicts_fit Hw
    sample_conflicts_few Hf).
Defined.

Lemma clear_written_computed :
  match clear_written 5 conflicts_root [(MNodes, [x61])] conflicts_store with
  | (Ok (Some R), s') => read_entries 5 s' R = Ok (mkPersistedEntries [WCell MEdges [x61] None] 1)
  | _ => False
  end.
Proof. vm_compute. reflexivity. Qed.
