(* ===== verification/Governor.v ===== *)
(** * The query resource governor (acetone-cypher/src/exec/governor.rs)

    The counters of one query and the charges the executor makes on them.  An
    [Instant] is a number on the monotonic clock, and a charge takes the
    instant it would read.  An error carries no more than the limit: its span
    is always the default one. *)
From S2P Require Import Prelude.
Open Scope Z_scope.

Definition U64_MAX : Z := 2 ^ 64 - 1.
Definition saturating_add (a b : Z) : Z := Z.min (a + b) U64_MAX.

Inductive ResourceLimit : Type :=
| WorkUnits | ResultRows | ExpansionSteps | ScannedCandidates | CollectionLen | WallClock | ValueDepth.

Record QueryLimits : Type := mkQueryLimits {
  max_work_units : Z; max_result_rows : Z; max_expansion_steps : Z; max_scanned_candidates : Z;
  max_collection_len : Z; wall_clock : option Z }.

Definition default_limits : QueryLimits := mkQueryLimits 100000000 1000000 1000000 20000000 10000000 None.
Definition unbounded_limits : QueryLimits := mkQueryLimits U64_MAX U64_MAX U64_MAX U64_MAX U64_MAX None.

Definition CLOCK_POLL_STRIDE : Z := 4096.

Record Governor : Type := mkGovernor {
  limits : QueryLimits; work : Z; expansion : Z; scanned : Z; deadline : option Z; work_at_last_poll : Z }.

(** [Instant::now().checked_add(budget)], for the largest instant the platform has. *)
Definition governor_new (l : QueryLimits) (now last_instant : Z) : Governor :=
  mkGovernor l 0 0 0
    match wall_clock l with
    | Some budget => if now + budget <=? last_instant then Some (now + budget) else None
    | None => None
    end 0.

Definition set_work (g : Governor) (w : Z) : Governor :=
  mkGovernor (limits g) w (expansion g) (scanned g) (deadline g) (work_at_last_poll g).
Definition set_expansion (g : Governor) (e : Z) : Governor :=
  mkGovernor (limits g) (work g) e (scanned g) (deadline g) (work_at_last_poll g).
Definition set_scanned (g : Governor) (s : Z) : Governor :=
  mkGovernor (limits g) (work g) (expansion g) s (deadline g) (work_at_last_poll g).
Definition set_poll (g : Governor) (p : Z) : Governor :=
  mkGovernor (limits g) (work g) (expansion g) (scanned g) (deadline g) p.

Definition charge_work (now n : Z) : st Governor ResourceLimit unit :=
  fun g =>
    let w := saturating_add (work g) n in
    let g := set_work g w in
    if max_work_units (limits g) <? w then (Err WorkUnits, g)
    else
      match deadline g with
      | Some d =>
        if CLOCK_POLL_STRIDE <=? (w - work_at_last_poll g) mod 2 ^ 64
        then
          let g := set_poll g w in
          if d <=? now then (Err WallClock, g) else (Ok tt, g)
        else (Ok tt, g)
      | None => (Ok tt, g)
      end.

Definition row (now set_len : Z) : st Governor ResourceLimit unit :=
  fun g => if max_result_rows (limits g) <=? set_len then (Err ResultRows, g) else charge_work now 1 g.

Definition hop (now : Z) : st Governor ResourceLimit unit :=
  fun g =>
    let e := saturating_add (expansion g) 1 in
    let g := set_expansion g e in
    if max_expansion_steps (limits g) <? e then (Err ExpansionSteps, g) else charge_work now 1 g.

Definition collection (now len : Z) : st Governor ResourceLimit unit :=
  fun g => if max_collection_len (limits g) <? len then (Err CollectionLen, g) else charge_work now len g.

Definition collection_push (now current_len : Z) : st Governor ResourceLimit unit :=
  fun g => if max_collection_len (limits g) <=? current_len then (Err CollectionLen, g) else charge_work now 1 g.

Definition scan_candidates (now candidates : Z) : st Governor ResourceLimit unit :=
  fun g =>
    let s := saturating_add (scanned g) candidates in
    let g := set_scanned g s in
    if max_scanned_candidates (limits g) <? s then (Err ScannedCandidates, g) else charge_work now candidates g.

(** A query, as the governor sees it: the charges it makes, each at an instant. *)
Inductive charge : Type :=
| CRow (set_len : Z) | CHop | CCollection (len : Z) | CPush (current_len : Z) | CScan (candidates : Z).

Definition charge_one (now : Z) (c : charge) : st Governor ResourceLimit unit :=
  match c with
  | CRow n => row now n
  | CHop => hop now
  | CCollection n => collection now n
  | CPush n => collection_push now n
  | CScan n => scan_candidates now n
  end.

Fixpoint run (cs : list (Z * charge)) : st Governor ResourceLimit unit :=
  match cs with
  | [] => st_ret tt
  | (now, c) :: cs => let! _ := charge_one now c in run cs
  end.

(** ** What the charges add up to *)

(** Every argument is a [usize] or [u64]. *)
Definition charge_ok (c : charge) : Prop :=
  match c with CHop => True | CRow n | CCollection n | CPush n | CScan n => 0 <= n <= U64_MAX end.

Definition limits_ok (l : QueryLimits) : Prop :=
  0 <= max_work_units l <= U64_MAX /\ 0 <= max_result_rows l <= U64_MAX /\ 0 <= max_expansion_steps l <= U64_MAX /\
  0 <= max_scanned_candidates l <= U64_MAX /\ 0 <= max_collection_len l <= U64_MAX.

Definition work_of (c : charge) : Z := match c with CCollection n | CScan n => n | _ => 1 end.
Definition hops_of (c : charge) : Z := match c with CHop => 1 | _ => 0 end.
Definition scanned_of (c : charge) : Z := match c with CScan n => n | _ => 0 end.

Fixpoint total (f : charge -> Z) (cs : list charge) : Z :=
  match cs with [] => 0 | c :: cs => f c + total f cs end.

(** A saturating counter that has counted [n]. *)
Definition counter (n : Z) : Z := Z.min n U64_MAX.

Definition size_ok (l : QueryLimits) (c : charge) : Prop :=
  match c with
  | CRow n => n < max_result_rows l
  | CCollection n => n <= max_collection_len l
  | CPush n => n < max_collection_len l
  | CHop | CScan _ => True
  end.

(** Every cap is kept. *)
Definition within (l : QueryLimits) (cs : list charge) : Prop :=
  Forall (size_ok l) cs /\ counter (total work_of cs) <= max_work_units l /\
  counter (total hops_of cs) <= max_expansion_steps l /\ counter (total scanned_of cs) <= max_scanned_candidates l.

Lemma total_nonneg f cs : (forall c, charge_ok c -> 0 <= f c) -> Forall charge_ok cs -> 0 <= total f cs.
Proof. intros Hf. induction 1 as [|c cs Hc _ IH]; cbn [total]; [done|]. specialize (Hf c Hc). lia. Qed.

Lemma work_of_nonneg c : charge_ok c -> 0 <= work_of c.
Proof. destruct c; cbn; lia. Qed.
Lemma hops_of_nonneg c : charge_ok c -> 0 <= hops_of c.
Proof. destruct c; cbn; lia. Qed.
Lemma scanned_of_nonneg c : charge_ok c -> 0 <= scanned_of c.
Proof. destruct c; cbn; lia. Qed.

Lemma counter_add a n : 0 <= a -> 0 <= n -> saturating_add (counter a) n = counter (a + n).
Proof. unfold saturating_add, counter, U64_MAX. lia. Qed.

Lemma total_app f a b : total f (a ++ b) = total f a + total f b.
Proof. induction a as [|c a IH]; [done|]. cbn [app total]. rewrite IH. lia. Qed.

(** The counters of a governor that has been charged [cs]. *)
Definition charged (l : QueryLimits) (cs : list charge) (g : Governor) : Prop :=
  limits g = l /\ work g = counter (total work_of cs) /\ expansion g = counter (total hops_of cs) /\
  scanned g = counter (total scanned_of cs).

Lemma charge_work_spec now n g :
  deadline g = None ->
  charge_work now n g =
    (if max_work_units (limits g) <? saturating_add (work g) n then Err WorkUnits else Ok tt, set_work g (saturating_add (work g) n)).
Proof. intros Hd. unfold charge_work. cbn [set_work limits deadline]. rewrite Hd. by case_match. Qed.

Ltac bool_lia := repeat match goal with
  | H : (_ <? _) = true |- _ => apply Z.ltb_lt in H | H : (_ <? _) = false |- _ => apply Z.ltb_ge in H
  | H : (_ <=? _) = true |- _ => apply Z.leb_le in H | H : (_ <=? _) = false |- _ => apply Z.leb_gt in H end.

Ltac leaf :=
  unfold within, charged; rewrite ?Forall_app, ?Forall_singleton, ?total_app;
  cbn [total work_of hops_of scanned_of size_ok set_work set_expansion set_scanned limits work expansion scanned deadline];
  rewrite ?Z.add_0_r; split_and?; (done || lia || intuition (done || lia)).

(** One charge, without a wall clock: it succeeds exactly when the caps are
    kept, and counts itself. *)
Lemma charge_one_spec l now cs c g :
  limits_ok l -> Forall charge_ok cs -> charge_ok c -> within l cs -> charged l cs g -> deadline g = None ->
  match charge_one now c g with
  | (Ok _, g') => within l (cs ++ [c]) /\ charged l (cs ++ [c]) g' /\ deadline g' = None
  | (Err e, _) => ~ within l (cs ++ [c]) /\ e <> WallClock
  end.
Proof.
  intros Hl Hcs Hc (W1 & W2 & W3 & W4) (L & C1 & C2 & C3) Hd.
  pose proof (total_nonneg _ cs work_of_nonneg Hcs) as N1. pose proof (total_nonneg _ cs hops_of_nonneg Hcs) as N2.
  pose proof (total_nonneg _ cs scanned_of_nonneg Hcs) as N3. pose proof (work_of_nonneg c Hc) as Nc.
  assert (forall n, 0 <= n -> saturating_add (work g) n = counter (total work_of cs + n)) as Ew
    by (intros; rewrite C1; by apply counter_add).
  destruct c as [n| |n|n|n]; cbn [charge_one charge_ok work_of] in *.
  - unfold row. rewrite L. destruct (max_result_rows l <=? n) eqn:E; bool_lia; [leaf|].
    rewrite charge_work_spec, L, Ew by (done || lia). destruct (max_work_units l <? _) eqn:E'; bool_lia; leaf.
  - unfold hop. cbv zeta. cbn [set_expansion limits]. rewrite L, C2, counter_add by lia. destruct (max_expansion_steps l <? _) eqn:E; bool_lia; [leaf|].
    rewrite charge_work_spec by done. cbn [set_expansion set_scanned limits work]. rewrite ?L, Ew by lia.
    destruct (max_work_units l <? _) eqn:E'; bool_lia; leaf.
  - unfold collection. rewrite L. destruct (max_collection_len l <? n) eqn:E; bool_lia; [leaf|].
    rewrite charge_work_spec, L, Ew by (done || lia). destruct (max_work_units l <? _) eqn:E'; bool_lia; leaf.
  - unfold collection_push. rewrite L. destruct (max_collection_len l <=? n) eqn:E; bool_lia; [leaf|].
    rewrite charge_work_spec, L, Ew by (done || lia). destruct (max_work_units l <? _) eqn:E'; bool_lia; leaf.
  - unfold scan_candidates. cbv zeta. cbn [set_scanned limits]. rewrite L, C3, counter_add by lia. destruct (max_scanned_candidates l <? _) eqn:E; bool_lia; [leaf|].
    rewrite charge_work_spec by done. cbn [set_expansion set_scanned limits work]. rewrite ?L, Ew by lia.
    destruct (max_work_units l <? _) eqn:E'; bool_lia; leaf.
Qed.

Lemma within_prefix l cs c : Forall charge_ok cs -> charge_ok c -> within l (cs ++ [c]) -> within l cs.
Proof.
  intros Hcs Hc (H1 & H2 & H3 & H4). apply Forall_app in H1 as [H1 _]. rewrite !total_app in H2, H3, H4. cbn [total] in *.
  pose proof (work_of_nonneg c Hc). pose proof (hops_of_nonneg c Hc). pose proof (scanned_of_nonneg c Hc).
  unfold within, counter in *. split; [done|]. lia.
Qed.

Lemma within_prefixes l cs cs' : Forall charge_ok (cs ++ cs') -> within l (cs ++ cs') -> within l cs.
Proof.
  induction cs' as [|c cs' IH] using rev_ind; [by rewrite app_nil_r|]. rewrite app_assoc. intros Hok Hw.
  apply Forall_app in Hok as [Hok Hc]. apply Forall_cons_1 in Hc as [Hc _]. apply (within_prefix l _ c Hok Hc) in Hw. exact (IH Hok Hw).
Qed.

Lemma run_caps l done_ cs g :
  limits_ok l -> Forall charge_ok (done_ ++ map snd cs) -> within l done_ -> charged l done_ g -> deadline g = None ->
  match run cs g with
  | (Ok _, g') => within l (done_ ++ map snd cs) /\ charged l (done_ ++ map snd cs) g'
  | (Err e, _) => ~ within l (done_ ++ map snd cs) /\ e <> WallClock
  end.
Proof.
  intros Hl. revert done_ g. induction cs as [|[now c] cs IH]; intros done_ g Hok Hw Hg Hd.
  { cbn [run map]. unfold st_ret. by rewrite app_nil_r. }
  cbn [run map snd] in *. rewrite cons_middle, app_assoc in *.
  assert (Forall charge_ok done_ /\ charge_ok c) as [Hdone Hc]
    by (rewrite !Forall_app, Forall_singleton in Hok; tauto).
  pose proof (charge_one_spec l now done_ c g Hl Hdone Hc Hw Hg Hd) as H. unfold st_bind.
  destruct (charge_one now c g) as [[u|e] g'].
  - destruct H as (Hw' & Hg' & Hd'). by apply IH.
  - destruct H as [Hw' He]. split; [|done]. intros Hall. by apply within_prefixes in Hall.
Qed.

Lemma charge_one_clock now now' c g : deadline g = None -> charge_one now c g = charge_one now' c g.
Proof.
  intros Hd. assert (forall n g, deadline g = None -> charge_work now n g = charge_work now' n g) as H
    by (intros; by rewrite !charge_work_spec).
  destruct c; cbn [charge_one]; unfold row, hop, collection, collection_push, scan_candidates; cbv zeta; (case_match; [done|]); by apply H.
Qed.

Lemma charge_one_deadline now c g g' r : charge_one now c g = (r, g') -> deadline g' = deadline g.
Proof.
  assert (forall n g r g', charge_work now n g = (r, g') -> deadline g' = deadline g) as H.
  { intros n g0 r0 g0' E. unfold charge_work in E. repeat case_match; by injection E as <- <-. }
  destruct c; cbn [charge_one]; unfold row, hop, collection, collection_push, scan_candidates; cbv zeta; intros E;
    (case_match; [by injection E as <- <-|]); by apply H in E.
Qed.

Lemma run_clock cs cs' g : deadline g = None -> map snd cs = map snd cs' -> run cs g = run cs' g.
Proof.
  revert cs' g. induction cs as [|[now c] cs IH]; intros [|[now' c'] cs'] g Hd E; try done.
  cbn [map snd] in E. apply cons_eq_inv in E as [<- E]. cbn [run]. unfold st_bind. rewrite (charge_one_clock now now' c g Hd).
  destruct (charge_one now' c g) as [[u|e] g'] eqn:Ec; [|done]. apply IH; [|done]. by rewrite (charge_one_deadline _ _ _ _ _ Ec).
Qed.

(** ** The wall clock *)

(** The counter is at most a stride past the last poll. *)
Definition polled (g : Governor) : Prop :=
  0 <= work_at_last_poll g <= work g /\ work g - work_at_last_poll g < CLOCK_POLL_STRIDE.

Lemma charge_work_Ok now n g g' :
  0 <= n -> 0 <= work g -> max_work_units (limits g) < U64_MAX -> charge_work now n g = (Ok tt, g') ->
  limits g' = limits g /\ deadline g' = deadline g /\ work g' = work g + n /\ work g' <= max_work_units (limits g) /\
  (forall d, deadline g = Some d -> polled g -> polled g' /\ (d <= now -> work_at_last_poll g' = work_at_last_poll g)).
Proof.
  intros Hn Hw Hmax. unfold charge_work. cbn [set_work limits deadline work_at_last_poll]. unfold saturating_add.
  destruct (max_work_units (limits g) <? _) eqn:E; [done|]. bool_lia.
  assert (Z.min (work g + n) U64_MAX = work g + n) as Em by lia. rewrite Em in *.
  destruct (deadline g) as [d|] eqn:Ed.
  2: { intros [= <-]. cbn [set_work limits deadline work]. split_and!; try done; lia. }
  assert (0 <= work_at_last_poll g <= work g -> (work g + n - work_at_last_poll g) mod 2 ^ 64 = work g + n - work_at_last_poll g) as Emod.
  { intros Hp. apply Z.mod_small. unfold U64_MAX in *. lia. }
  destruct (CLOCK_POLL_STRIDE <=? _) eqn:Ep; [destruct (d <=? now) eqn:Enow; [done|]|];
    intros [= <-]; cbn [set_work set_poll limits deadline work work_at_last_poll]; (split; [done|]); (split; [done|]);
    (split; [done|]); (split; [lia|]); intros d' [= <-] [Hp Hs]; rewrite Emod in Ep by lia; bool_lia;
    unfold polled; cbn [set_work set_poll work work_at_last_poll]; unfold CLOCK_POLL_STRIDE in *; split_and!; intros; lia.
Qed.

Lemma charge_one_Ok now c g g' :
  charge_ok c -> 0 <= work g -> max_work_units (limits g) < U64_MAX -> charge_one now c g = (Ok tt, g') ->
  limits g' = limits g /\ deadline g' = deadline g /\ work g' = work g + work_of c /\ work g' <= max_work_units (limits g) /\
  (forall d, deadline g = Some d -> polled g -> polled g' /\ (d <= now -> work_at_last_poll g' = work_at_last_poll g)).
Proof.
  intros Hc Hw Hmax E. pose proof (work_of_nonneg c Hc) as Hn.
  destruct c; cbn [charge_one work_of] in *; unfold row, hop, collection, collection_push, scan_candidates in E; cbv zeta in E;
    (case_match; [done|]); by apply charge_work_Ok in E.
Qed.

Lemma run_Ok cs g g' :
  Forall charge_ok (map snd cs) -> 0 <= work g -> max_work_units (limits g) < U64_MAX -> run cs g = (Ok tt, g') ->
  limits g' = limits g /\ deadline g' = deadline g /\ work g' = work g + total work_of (map snd cs) /\
  (cs <> [] -> work g' <= max_work_units (limits g)) /\
  (forall d, deadline g = Some d -> polled g -> polled g' /\
    (Forall (fun x => d <= x.1) cs -> work_at_last_poll g' = work_at_last_poll g)).
Proof.
  revert g. induction cs as [|[now c] cs IH]; intros g Hok Hw Hmax E.
  { injection E as <-. cbn [map total]. split_and!; try done; lia. }
  cbn [run map snd total] in *. apply Forall_cons in Hok as [Hc Hok]. apply st_bind_Ok in E as ([] & g1 & E1 & E).
  destruct (charge_one_Ok now c g g1 Hc Hw Hmax E1) as (L1 & D1 & W1 & M1 & P1). pose proof (work_of_nonneg c Hc) as Hn.
  destruct (IH g1 Hok ltac:(lia) ltac:(by rewrite L1) E) as (L2 & D2 & W2 & M2 & P2).
  split; [congruence|]. split; [congruence|]. split; [lia|]. split.
  - intros _. rewrite <-L1. destruct cs as [|x cs]; [|by apply M2]. injection E as <-. by rewrite L1.
  - intros d Hd Hp. destruct (P1 d Hd Hp) as [Hp1 Hl1]. rewrite <-D1 in Hd. destruct (P2 d Hd Hp1) as [Hp2 Hl2].
    split; [done|]. intros Hlate. apply Forall_cons in Hlate as [Hnow Hlate]. by rewrite Hl2, Hl1.
Qed.

(** ** The properties *)

(** Without a wall clock the governor is the caps. A query's charges all
    succeed exactly when every size is within its cap and the work, hops and
    candidates counted, saturating at 64 bits, are within theirs; the counters
    are then those sums, a failure is never the clock's, and the outcome does
    not depend on when the charges are made. *)
Lemma governor_caps l now last cs :
  limits_ok l -> wall_clock l = None -> Forall charge_ok (map snd cs) ->
  match run cs (governor_new l now last) with
  | (Ok _, g) => within l (map snd cs) /\ charged l (map snd cs) g
  | (Err e, _) => ~ within l (map snd cs) /\ e <> WallClock
  end /\
  forall now' last' cs', map snd cs = map snd cs' -> run cs (governor_new l now last) = run cs' (governor_new l now' last').
Proof.
  intros Hl Hw Hok. assert (forall now last, governor_new l now last = mkGovernor l 0 0 0 None 0) as Hnew
    by (intros; unfold governor_new; by rewrite Hw).
  split.
  - rewrite Hnew. apply (run_caps l [] cs); [done|done| |done|done].
    destruct Hl as (? & ? & ? & ? & ?). unfold within, counter, U64_MAX. cbn [total]. split; [done|]. lia.
  - intros now' last' cs' E. rewrite !Hnew. by apply run_clock.
Qed.

(** The first charges of an endless query. *)
Definition first_charges (cs : nat -> Z * charge) (n : nat) : list (Z * charge) := map cs (seq 0 n).

Lemma total_positive cs : Forall (fun c => 1 <= work_of c) cs -> Z.of_nat (length cs) <= total work_of cs.
Proof. induction 1 as [|c cs Hc _ IH]; cbn [length total]; lia. Qed.

(** C33: a query that goes on is stopped. Below the largest work cap, an
    endless sequence of charges that each cost something fails after at most as
    many as the cap allows; and once the clock has passed the deadline, charges
    worth one polling stride do not all succeed. *)
Theorem governor_stops l now last :
  limits_ok l -> max_work_units l < U64_MAX ->
  (forall cs : nat -> Z * charge, (forall i, charge_ok (cs i).2 /\ 1 <= work_of (cs i).2) ->
    exists n, Z.of_nat n <= max_work_units l + 1 /\ is_ok (run (first_charges cs n) (governor_new l now last)).1 = false) /\
  (forall d early late, deadline (governor_new l now last) = Some d ->
    Forall charge_ok (map snd (early ++ late)) -> Forall (fun x => d <= x.1) late ->
    CLOCK_POLL_STRIDE <= total work_of (map snd late) -> is_ok (run (early ++ late) (governor_new l now last)).1 = false).
Proof.
  intros Hl Hmax. split.
  - intros cs Hcs. exists (Z.to_nat (max_work_units l + 1)). destruct Hl as (Hl & _). split; [lia|].
    set (xs := first_charges cs _).
    assert (length xs = Z.to_nat (max_work_units l + 1)) as Hlen by (unfold xs, first_charges; by rewrite length_map, length_seq).
    destruct (run xs (governor_new l now last)) as [[[]|e] g'] eqn:E; [|done]. exfalso.
    assert (Forall (fun x => charge_ok x.2 /\ 1 <= work_of x.2) xs) as Hxs by (apply Forall_map, Forall_forall; intros i _; apply Hcs).
    assert (Forall charge_ok (map snd xs)) as Hok by (apply Forall_map; eapply Forall_impl; [exact Hxs|]; by intros x [? _]).
    destruct (run_Ok xs (governor_new l now last) g' Hok ltac:(cbn; lia) Hmax E) as (_ & _ & W & M & _). cbn [governor_new work limits] in W, M.
    pose proof (total_positive (map snd xs)) as Ht. rewrite length_map, Hlen in Ht.
    specialize (Ht ltac:(apply Forall_map; eapply Forall_impl; [exact Hxs|]; by intros x [_ ?])).
    destruct xs as [|x xs]; [cbn in Hlen; lia|]. specialize (M ltac:(done)). lia.
  - intros d early late Hd Hok Hlate Htot.
    destruct (run (early ++ late) (governor_new l now last)) as [[[]|e] g'] eqn:E; [|done]. exfalso.
    assert (forall xs ys g, run (xs ++ ys) g = (let! _ := run xs in run ys) g) as Happ.
    { intros xs ys. induction xs as [|[t c] xs IH]; intros g; [done|]. cbn [app run]. unfold st_bind in *.
      destruct (charge_one t c g) as [[u|e] g1]; [apply IH|done]. }
    rewrite Happ in E. apply st_bind_Ok in E as ([] & g1 & E1 & E2). rewrite map_app in Hok. apply Forall_app in Hok as [Ho1 Ho2].
    assert (polled (governor_new l now last)) as Hp by (unfold polled, CLOCK_POLL_STRIDE; cbn; lia).
    pose proof (total_nonneg _ _ work_of_nonneg Ho1) as N1. destruct Hl as (Hl & _).
    destruct (run_Ok early (governor_new l now last) g1 Ho1 ltac:(cbn; lia) Hmax E1) as (L1 & D1 & W1 & _ & P1). destruct (P1 d Hd Hp) as [Hp1 _].
    cbn [governor_new work limits] in W1, L1. rewrite <-L1 in Hmax. rewrite <-D1 in Hd.
    destruct (run_Ok late g1 g' Ho2 ltac:(lia) Hmax E2) as (_ & _ & W2 & _ & P2).
    destruct (P2 d Hd Hp1) as [[_ Hp2] Hl2]. specialize (Hl2 Hlate). destruct Hp1 as [[_ Hp1] _]. lia.
Qed.

(** ** The theorems at a concrete query *)

Definition small_limits : QueryLimits := mkQueryLimits 4 2 1 3 2 None.
Definition timed_limits : QueryLimits := mkQueryLimits 10000 2 1 3 5000 (Some 50).

Lemma small_limits_ok : limits_ok small_limits /\ limits_ok timed_limits.
Proof. unfold limits_ok, U64_MAX. cbn. lia. Qed.

Lemma governor_caps_witness :
  within small_limits (map snd [(0, CRow 1); (5, CHop); (9, CCollection 2)]) /\
  is_ok (run [(0, CRow 1); (5, CHop); (9, CCollection 2)] (governor_new small_limits 0 100)).1 = true.
Proof.
  assert (Forall charge_ok (map snd [(0, CRow 1); (5, CHop); (9, CCollection 2)])) as Hok
    by (repeat constructor; cbn; unfold U64_MAX; lia).
  pose proof (proj1 (governor_caps small_limits 0 100 _ (proj1 small_limits_ok) eq_refl Hok)) as H.
  vm_compute (run _ _) in H. split; [exact (proj1 H)|vm_compute; reflexivity].
Defined.

Lemma governor_stops_witness :
  (exists n, Z.of_nat n <= 10001 /\ is_ok (run (first_charges (fun _ => (0, CHop)) n) (governor_new timed_limits 0 100)).1 = false) /\
  is_ok (run ([(0, CHop)] ++ [(50, CCollection 4096)]) (governor_new timed_limits 0 100)).1 = false.
Proof.
  assert (max_work_units timed_limits < U64_MAX) as Hm by (vm_compute; reflexivity).
  destruct (governor_stops timed_limits 0 100 (proj2 small_limits_ok) Hm) as [H1 H2]. split.
  - apply H1. intros i. cbn. split; [exact I|lia].
  - apply (H2 50 [(0, CHop)] [(50, CCollection 4096)]); [reflexivity| | |].
    + repeat constructor; cbn; unfold U64_MAX; lia.
    + repeat constructor; cbn; lia.
    + cbn. unfold CLOCK_POLL_STRIDE. lia.
Defined.
