(* ===== verification/RefNs.v ===== *)
(** * Where a graph's refs live (acetone-graph/src/refns.rs, the graph name check of repo.rs)

    The namespace of a graph in its own repository and in a code repository,
    the refs it owns, and when two graphs of one repository own no ref in
    common. *)
From S2P Require Import Prelude Canonical GraphKeys Graph.

Definition WORKTREE_WORKSPACE_REF : bytes := text "refs/worktree/acetone/workspace".
Definition WORKTREE_MERGE_HEAD_REF : bytes := text "refs/worktree/acetone/merge-head".
Definition WORKTREE_ANCHOR_PREFIX : bytes := text "refs/acetone/worktree-anchors/".
Definition WORKTREE_GRAPH_ANCHOR_PREFIX : bytes := text "refs/acetone/worktree-graph-anchors/".
Definition GRAPHS_REF_PREFIX : bytes := text "refs/acetone/graphs/".
Definition BRANCH_REF_PREFIX : bytes := text "refs/heads/".
Definition TAG_REF_PREFIX : bytes := text "refs/tags/".

Record GraphRefNamespace : Type := mkGraphRefNamespace {
  branch_prefix : bytes; tag_prefix : bytes; head_ref : bytes; owns_whole_repo : bool;
  private_prefixes : list bytes; private_refs : list bytes; migrate_journal_ref : bytes;
  workspace_ref : bytes; merge_head_ref : bytes; legacy_worktree_refs : option (bytes * bytes);
  anchor_graph : option bytes }.

Definition standalone : GraphRefNamespace :=
  mkGraphRefNamespace BRANCH_REF_PREFIX TAG_REF_PREFIX (text "HEAD") true [] []
    (text "refs/acetone/migrate-journal") WORKTREE_WORKSPACE_REF WORKTREE_MERGE_HEAD_REF None None.

Definition co_tenant (graph : bytes) : GraphRefNamespace :=
  mkGraphRefNamespace
    (text "refs/heads/acetone/" ++ graph ++ text "/")
    (text "refs/tags/acetone/" ++ graph ++ text "/")
    (text "refs/acetone/" ++ graph ++ text "/HEAD")
    false
    [text "refs/acetone/" ++ graph ++ text "/"; WORKTREE_ANCHOR_PREFIX; WORKTREE_GRAPH_ANCHOR_PREFIX;
     text "refs/worktree/acetone/"]
    [GRAPHS_REF_PREFIX ++ graph]
    (text "refs/acetone/" ++ graph ++ text "/migrate-journal")
    (text "refs/worktree/acetone/" ++ graph ++ text "/workspace")
    (text "refs/worktree/acetone/" ++ graph ++ text "/merge-head")
    (Some (WORKTREE_WORKSPACE_REF, WORKTREE_MERGE_HEAD_REF))
    (Some graph).

Definition worktree_anchor_ref (ns : GraphRefNamespace) (worktree_id : bytes) : bytes :=
  match anchor_graph ns with
  | Some graph => WORKTREE_GRAPH_ANCHOR_PREFIX ++ worktree_id ++ text "/" ++ graph
  | None => WORKTREE_ANCHOR_PREFIX ++ worktree_id
  end.

(** [str::strip_prefix] *)
Definition strip_prefix (s p : bytes) : option bytes :=
  if starts_with s p then Some (drop (length p) s) else None.

Definition branch_ref (ns : GraphRefNamespace) (name : bytes) : bytes := branch_prefix ns ++ name.
Definition branch_name (ns : GraphRefNamespace) (full : bytes) : option bytes := strip_prefix full (branch_prefix ns).
Definition tag_ref (ns : GraphRefNamespace) (name : bytes) : bytes := tag_prefix ns ++ name.
Definition tag_name (ns : GraphRefNamespace) (full : bytes) : option bytes := strip_prefix full (tag_prefix ns).
Definition legacy_workspace_ref (ns : GraphRefNamespace) : option bytes := option_map fst (legacy_worktree_refs ns).
Definition legacy_merge_head_ref (ns : GraphRefNamespace) : option bytes := option_map snd (legacy_worktree_refs ns).

Definition owns_ref (ns : GraphRefNamespace) (full : bytes) : bool :=
  if starts_with full (text "refs/heads/") then starts_with full (branch_prefix ns)
  else if starts_with full (text "refs/tags/") then starts_with full (tag_prefix ns)
  else if bool_decide (full = text "HEAD") then bool_decide (head_ref ns = text "HEAD")
  else owns_whole_repo ns
    || existsb (starts_with full) (private_prefixes ns)
    || existsb (fun r => bool_decide (full = r)) (private_refs ns).

(** ** The names a graph may have *)

(** [str::contains] and [str::ends_with]. *)
Fixpoint contains (s p : bytes) : bool :=
  starts_with s p || match s with [] => false | _ :: s => contains s p end.
Definition ends_with (s p : bytes) : bool := starts_with (rev s) (rev p).

(** An ASCII control character is a byte of its own in UTF-8, like the others
    git forbids. *)
Definition forbidden (b : byte) : bool :=
  (b2z b <? 0x20)%Z || (b2z b =? 0x7f)%Z || existsb (fun c => b =b? c) (text " ~^:?*[\").

Definition validate_graph_name (graph : bytes) : result GraphError unit :=
  let reject reason := Err (InvalidGraphName graph reason) in
  if is_empty graph then reject "empty"
  else if contains graph (text "/") then reject "must be a single ref-path component (no '/')"
  else if bool_decide (graph = text ".") || bool_decide (graph = text "..") || contains graph (text "..")
  then reject "must not contain '..'"
  else if starts_with graph (text ".") then reject "must not start with '.'"
  else if ends_with graph (text ".lock") then reject "must not end with '.lock'"
  else if existsb forbidden graph then reject "contains a character git forbids in a ref component"
  else Ok tt.

(** ** Prefixes *)

Lemma starts_with_app p t : starts_with (p ++ t) p = true.
Proof. apply starts_with_spec. by exists t. Qed.

Lemma starts_with_trans s p q : starts_with s p = true -> starts_with p q = true -> starts_with s q = true.
Proof.
  rewrite !starts_with_spec. intros [t ->] [u ->]. exists (u ++ t). by rewrite app_assoc.
Qed.

Lemma strip_prefix_spec s p n : strip_prefix s p = Some n <-> s = p ++ n.
Proof.
  unfold strip_prefix. destruct (starts_with s p) eqn:E.
  - apply starts_with_spec in E as [t ->]. rewrite drop_app_length. split; [by intros [= ->]|].
    intros H. by apply app_inv_head in H as ->.
  - split; [done|]. intros ->. by rewrite starts_with_app in E.
Qed.

Lemma is_prefix_same p x y : starts_with (p ++ x) (p ++ y) = starts_with x y.
Proof. induction p as [|b p IH]; [done|]. cbn [app starts_with]. by rewrite bool_decide_true. Qed.

Definition slash : byte := x2f.

Lemma contains_slash s : contains s (text "/") = false -> slash ∉ s.
Proof.
  induction s as [|b s IH]; [intros _ H; by apply elem_of_nil in H|]. cbn [contains]. rewrite orb_false_iff. intros [H1 H2].
  rewrite elem_of_cons. intros [<-|H]; [done|by apply IH].
Qed.

Lemma slash_split a b x y : slash ∉ a -> slash ∉ b -> a ++ slash :: x = b ++ slash :: y -> a = b /\ x = y.
Proof.
  revert b. induction a as [|c a IH]; intros [|d b] Ha Hb H; cbn [app] in H.
  - by injection H as ->.
  - injection H as <- _. destruct Hb. by left.
  - injection H as -> _. destruct Ha. by left.
  - injection H as -> H. apply not_elem_of_cons in Ha as [_ Ha], Hb as [_ Hb].
    by destruct (IH b Ha Hb H) as [-> ->].
Qed.

Lemma validate_slash g : validate_graph_name g = Ok tt -> slash ∉ g /\ g <> [].
Proof.
  unfold validate_graph_name. destruct g as [|b g]; [done|]. cbn [is_empty].
  destruct (contains (b :: g) (text "/")) eqn:E; [done|]. intros _. split; [by apply contains_slash|done].
Qed.

(** Two component prefixes of one string are the same component. *)
Lemma component_unique p g g' s :
  slash ∉ g -> slash ∉ g' -> starts_with s (p ++ g ++ text "/") = true -> starts_with s (p ++ g' ++ text "/") = true -> g = g'.
Proof.
  intros Hg Hg'. rewrite !starts_with_spec. intros [t ->] [u H]. rewrite <-!app_assoc in H. apply app_inv_head in H.
  by apply slash_split in H as [-> _].
Qed.

(** ** The properties *)

(** Names and refs of a layout determine each other. In both layouts a
    full ref has a branch name exactly when it is that branch's ref, and the
    same for tags; and every ref a graph keeps - branches, tags, its head, the
    migration journal, its workspace and merge head, its anchors and, inside a
    code repository, its marker - is a ref it owns. *)
Lemma layout_owned graph ns :
  ns = standalone \/ ns = co_tenant graph ->
  (forall full name, branch_name ns full = Some name <-> full = branch_ref ns name) /\
  (forall full name, tag_name ns full = Some name <-> full = tag_ref ns name) /\
  (forall name, owns_ref ns (branch_ref ns name) = true /\ owns_ref ns (tag_ref ns name) = true) /\
  owns_ref ns (head_ref ns) = true /\ owns_ref ns (migrate_journal_ref ns) = true /\
  owns_ref ns (workspace_ref ns) = true /\ owns_ref ns (merge_head_ref ns) = true /\
  (forall id, owns_ref ns (worktree_anchor_ref ns id) = true) /\
  (ns = co_tenant graph -> owns_ref ns (GRAPHS_REF_PREFIX ++ graph) = true).
Proof.
  intros H. split; [intros; apply strip_prefix_spec|]. split; [intros; apply strip_prefix_spec|].
  assert (forall p, In p (private_prefixes (co_tenant graph)) -> forall t, existsb (starts_with (p ++ t)) (private_prefixes (co_tenant graph)) = true) as Hpriv.
  { intros p Hp t. apply existsb_exists. exists p. split; [done|]. apply starts_with_app. }
  destruct H as [-> | ->].
  - split; [by intros name|]. do 5 (split; [by vm_compute|]). by intros E.
  - pose proof (Hpriv (text "refs/acetone/" ++ graph ++ text "/") ltac:(by left)) as H1.
    pose proof (Hpriv WORKTREE_GRAPH_ANCHOR_PREFIX ltac:(by do 2 right; left)) as H2.
    pose proof (Hpriv (text "refs/worktree/acetone/") ltac:(by do 3 right; left)) as H3.
    split.
    { intros name. unfold owns_ref, branch_ref, tag_ref. split.
      - change (starts_with (branch_prefix (co_tenant graph) ++ name) (text "refs/heads/")) with true. apply starts_with_app.
      - change (starts_with (tag_prefix (co_tenant graph) ++ name) (text "refs/heads/")) with false.
        change (starts_with (tag_prefix (co_tenant graph) ++ name) (text "refs/tags/")) with true. apply starts_with_app. }
    assert (forall t, owns_ref (co_tenant graph) ((text "refs/acetone/" ++ graph ++ text "/") ++ t) = true) as O1.
    { intros t. unfold owns_ref. change (starts_with ((text "refs/acetone/" ++ graph ++ text "/") ++ t) (text "refs/heads/")) with false.
      change (starts_with ((text "refs/acetone/" ++ graph ++ text "/") ++ t) (text "refs/tags/")) with false. cbv iota.
      rewrite bool_decide_false by done. by rewrite H1. }
    assert (forall t, owns_ref (co_tenant graph) (text "refs/worktree/acetone/" ++ t) = true) as O3.
    { intros t. unfold owns_ref. change (starts_with (text "refs/worktree/acetone/" ++ t) (text "refs/heads/")) with false.
      change (starts_with (text "refs/worktree/acetone/" ++ t) (text "refs/tags/")) with false. cbv iota.
      rewrite bool_decide_false by done. by rewrite H3. }
    assert (forall x : bytes, text "refs/acetone/" ++ graph ++ text "/" ++ x = (text "refs/acetone/" ++ graph ++ text "/") ++ x) as Hassoc
      by (intros; by rewrite <-!app_assoc).
    split; [cbn [head_ref co_tenant]; change (text "/HEAD") with (text "/" ++ text "HEAD"); rewrite Hassoc; apply O1|].
    split; [cbn [migrate_journal_ref co_tenant]; change (text "/migrate-journal") with (text "/" ++ text "migrate-journal"); rewrite Hassoc; apply O1|].
    split; [apply O3|]. split; [apply O3|]. split.
    + intros id. unfold worktree_anchor_ref. cbn [anchor_graph co_tenant]. unfold owns_ref.
      rewrite (H2 (id ++ text "/" ++ graph)). cbn [owns_whole_repo co_tenant orb].
      change (starts_with (WORKTREE_GRAPH_ANCHOR_PREFIX ++ id ++ text "/" ++ graph) (text "refs/heads/")) with false.
      change (starts_with (WORKTREE_GRAPH_ANCHOR_PREFIX ++ id ++ text "/" ++ graph) (text "refs/tags/")) with false. cbv iota.
      by rewrite bool_decide_false by done.
    + intros _. unfold owns_ref. change (starts_with (GRAPHS_REF_PREFIX ++ graph) (text "refs/heads/")) with false.
      change (starts_with (GRAPHS_REF_PREFIX ++ graph) (text "refs/tags/")) with false. cbv iota.
      rewrite (bool_decide_false (_ = text "HEAD")) by done. cbn [owns_whole_repo private_refs co_tenant existsb].
      rewrite (bool_decide_true (GRAPHS_REF_PREFIX ++ graph = GRAPHS_REF_PREFIX ++ graph)) by done. by rewrite orb_true_r.
Qed.

(** The refs co-tenant graphs share: the worktree anchors and per-worktree state. *)
Definition shared_prefixes : list bytes :=
  [WORKTREE_ANCHOR_PREFIX; WORKTREE_GRAPH_ANCHOR_PREFIX; text "refs/worktree/acetone/"].

(** What [owns_ref] answers for a graph in a code repository. *)
Lemma owned_cases g r : owns_ref (co_tenant g) r = true ->
  starts_with r (text "refs/heads/acetone/" ++ g ++ text "/") = true \/
  starts_with r (text "refs/tags/acetone/" ++ g ++ text "/") = true \/
  starts_with r (text "refs/acetone/" ++ g ++ text "/") = true \/
  existsb (starts_with r) shared_prefixes = true \/ r = GRAPHS_REF_PREFIX ++ g.
Proof.
  unfold owns_ref. destruct (starts_with r (text "refs/heads/")); [by left|].
  destruct (starts_with r (text "refs/tags/")); [by right; left|].
  case_bool_decide; [by rewrite bool_decide_false by done|].
  intros H'. apply orb_true_iff in H' as [H'|H'].
  - cbn [owns_whole_repo private_prefixes co_tenant orb] in H'. change (existsb (starts_with r) _) with
      (starts_with r (text "refs/acetone/" ++ g ++ text "/") || existsb (starts_with r) shared_prefixes) in H'.
    apply orb_true_iff in H' as [H'|H']; auto.
  - cbn [private_refs co_tenant existsb] in H'. rewrite orb_false_r, bool_decide_eq_true in H'. auto.
Qed.

(** A path below [p] and one below [q] are the same only if one prefix extends the other. *)
Lemma prefixes_meet s p q : starts_with s p = true -> starts_with s q = true -> starts_with p q = true \/ starts_with q p = true.
Proof.
  revert p q. induction s as [|b s IH]; intros [|x p] [|y q]; cbn [starts_with]; auto; try done.
  rewrite !andb_true_iff, !bool_decide_eq_true. intros [-> Hp] [-> Hq]. destruct (IH p q Hp Hq); auto.
Qed.

Lemma apart s p q x y :
  starts_with s (p ++ x) = true -> starts_with s (q ++ y) = true ->
  starts_with p q = false -> starts_with q p = false -> False.
Proof.
  intros Hp Hq H1 H2. pose proof (starts_with_trans _ _ _ Hp (starts_with_app p x)) as Hp'.
  pose proof (starts_with_trans _ _ _ Hq (starts_with_app q y)) as Hq'. destruct (prefixes_meet s p q Hp' Hq'); congruence.
Qed.

Lemma marker_prefix g : starts_with (GRAPHS_REF_PREFIX ++ g) (text "refs/acetone/" ++ text "graphs" ++ text "/") = true.
Proof. exact (starts_with_app GRAPHS_REF_PREFIX g). Qed.

(** Co-tenant graphs do not own each other's refs. Two graphs of one
    repository with different accepted names, neither of them [graphs], own no
    ref in common outside the shared worktree refs, so collecting one graph's
    garbage never takes the other's objects; git's HEAD belongs to neither. *)
Lemma co_tenants_disjoint g g' r :
  validate_graph_name g = Ok tt -> validate_graph_name g' = Ok tt -> g <> g' -> g <> text "graphs" -> g' <> text "graphs" ->
  owns_ref (co_tenant g) (text "HEAD") = false /\
  (owns_ref (co_tenant g) r = true -> owns_ref (co_tenant g') r = true -> existsb (starts_with r) shared_prefixes = true).
Proof.
  intros Hv Hv' Hne Hg Hg'. apply validate_slash in Hv as [Hs _], Hv' as [Hs' _]. split; [done|].
  assert (slash ∉ text "graphs") as Hgr by (apply contains_slash; reflexivity).
  intros H H'. apply owned_cases in H as [H|[H|[H|[H|H]]]], H' as [H'|[H'|[H'|[H'|H']]]]; try done;
    try (exfalso; eapply apart; [exact H|exact H'|reflexivity|reflexivity]);
    try (exfalso; apply Hne; eapply component_unique; [exact Hs|exact Hs'|exact H|exact H']).
  - exfalso. subst r. eapply apart; [exact H|apply marker_prefix|reflexivity|reflexivity].
  - exfalso. subst r. eapply apart; [exact H|apply marker_prefix|reflexivity|reflexivity].
  - exfalso. subst r. apply Hg. eapply component_unique; [exact Hs|exact Hgr|exact H|apply marker_prefix].
  - exfalso. subst r. eapply apart; [apply marker_prefix|exact H'|reflexivity|reflexivity].
  - exfalso. subst r. eapply apart; [apply marker_prefix|exact H'|reflexivity|reflexivity].
  - exfalso. subst r. apply Hg'. eapply component_unique; [exact Hs'|exact Hgr|exact H'|apply marker_prefix].
  - exfalso. apply Hne. subst r. by apply app_inv_head in H'.
Qed.

(** A graph may be called [graphs], and then owns the marker of every graph. *)
Lemma graphs_owns_markers g :
  validate_graph_name (text "graphs") = Ok tt /\ owns_ref (co_tenant (text "graphs")) (GRAPHS_REF_PREFIX ++ g) = true.
Proof.
  split; [by vm_compute|]. unfold owns_ref.
  change (starts_with (GRAPHS_REF_PREFIX ++ g) (text "refs/heads/")) with false.
  change (starts_with (GRAPHS_REF_PREFIX ++ g) (text "refs/tags/")) with false. cbv iota.
  rewrite (bool_decide_false (_ = text "HEAD")) by done.
  cbn [owns_whole_repo private_prefixes co_tenant existsb]. by rewrite marker_prefix.
Qed.

(** ** The theorems at concrete graphs *)

Lemma layout_owned_witness :
  branch_name (co_tenant (text "g")) (text "refs/heads/acetone/g/main") = Some (text "main") /\
  owns_ref standalone (worktree_anchor_ref standalone (text "w")) = true.
Proof.
  split.
  - apply (proj1 (layout_owned (text "g") (co_tenant (text "g")) (or_intror eq_refl)) (text "refs/heads/acetone/g/main") (text "main")). reflexivity.
  - destruct (layout_owned (text "g") standalone (or_introl eq_refl)) as (_ & _ & _ & _ & _ & _ & _ & H & _). exact (H (text "w")).
Defined.

Lemma co_tenants_disjoint_witness :
  owns_ref (co_tenant (text "g")) (text "HEAD") = false /\ owns_ref (co_tenant (text "g2")) (text "refs/acetone/graphs/g") = false.
Proof.
  assert (forall g, g ∈ [text "g"; text "g2"] -> validate_graph_name g = Ok tt /\ g <> text "graphs") as H.
  { intros g Hg. apply elem_of_cons in Hg as [->|Hg]; [by vm_compute|]. apply list_elem_of_singleton in Hg as ->. by vm_compute. }
  destruct (H (text "g") ltac:(by left)) as [V1 N1], (H (text "g2") ltac:(by right; left)) as [V2 N2].
  assert (text "g" <> text "g2") as Hne by discriminate.
  destruct (co_tenants_disjoint (text "g") (text "g2") (text "refs/acetone/graphs/g") V1 V2 Hne N1 N2) as [H1 H2].
  split; [exact H1|]. destruct (owns_ref (co_tenant (text "g2")) (text "refs/acetone/graphs/g")) eqn:E; [|reflexivity].
  assert (owns_ref (co_tenant (text "g")) (text "refs/acetone/graphs/g") = true) as Ho by (vm_compute; reflexivity).
  assert (existsb (starts_with (text "refs/acetone/graphs/g")) shared_prefixes = false) as Hn by (vm_compute; reflexivity).
  rewrite (H2 Ho eq_refl) in Hn. discriminate.
Defined.
