(* ===== verification/Constraints.v ===== *)
(** * Declared constraints (acetone-graph/src/constraints.rs)

    Existence, declared types and uniqueness, checked over a node set, over the
    nodes of a label as they stream from the store, and for one write.  A
    [BTreeMap] with byte-string keys is a [gmap] iterated in the order of its
    keys ([btree_iter]); the maps that group colliding nodes are the sorted
    lists their iteration yields. *)
From S2P Require Import Prelude Model Values Canonical Records GraphKeys Schema Store Chunker Node Tree Manifest Scan Graph GraphMerge GraphIndex.

(** The iteration of a [BTreeMap]. *)
Definition key_le {A : Type} (a b : bytes * A) : Prop := bytes_le a.1 b.1.
#[global] Instance key_le_dec {A : Type} (a b : bytes * A) : Decision (key_le a b).
Proof. unfold key_le. apply _. Defined.
Definition btree_iter {A : Type} (m : gmap bytes A) : list (bytes * A) := merge_sort key_le (map_to_list m).

Inductive ConstraintViolation : Type :=
| CMissingRequired (node : NodeKey) (property : bytes)
| CWrongType (node : NodeKey) (property : bytes) (declared actual : PropertyType)
| CUnique (label property : bytes) (value : Value) (nodes : list NodeKey).

Definition NodeSet : Type := gmap bytes (NodeKey * NodeRecord).

(** One declared property of a node. *)
Definition type_violation (key : NodeKey) (record : NodeRecord) (def : LabelDef) (entry : bytes * PropertyType)
    : option (bytes * PropertyType * PropertyType) :=
  let '(property, declared) := entry in
  let value :=
    match position_of property (lkey def) with
    | Some i => GraphKeys.key key !! i
    | None => properties record !! property
    end in
  match value with
  | None => None
  | Some value =>
    if type_matches declared value then None
    else match type_of value with None => None | Some actual => Some (property, declared, actual) end
  end.

Definition type_violations (key : NodeKey) (record : NodeRecord) (def : LabelDef)
    : list (bytes * PropertyType * PropertyType) :=
  if bool_decide (ltypes def = ∅) then [] else omap (type_violation key record def) (btree_iter (ltypes def)).

(** The first of two candidate values that contradicts the declared type. *)
Fixpoint first_mismatch (declared : PropertyType) (candidates : list Value) : option PropertyType :=
  match candidates with
  | [] => None
  | value :: candidates =>
    if type_matches declared value then first_mismatch declared candidates
    else match type_of value with None => first_mismatch declared candidates | Some actual => Some actual end
  end.

Definition option_list {A : Type} (o : option A) : list A := match o with Some a => [a] | None => [] end.

Definition rel_type_violations (key : EdgeKey) (record : EdgeRecord) (def : RelTypeDef)
    : list (bytes * PropertyType * PropertyType) :=
  if bool_decide (rtypes def = ∅) then []
  else
    omap (fun '(property, declared) =>
      let candidates := option_list (edge_properties record !! property)
        ++ (if bool_decide (discriminator def = Some property) then [disc key] else []) in
      option_map (fun actual => (property, declared, actual)) (first_mismatch declared candidates))
      (btree_iter (rtypes def)).

(** A required property is a key property or in the record. *)
Definition is_present (record : NodeRecord) (def : LabelDef) (property : bytes) : bool :=
  existsb (fun k => bool_decide (k = property)) (lkey def) || bool_decide (is_Some (properties record !! property)).

Definition missing (key : NodeKey) (record : NodeRecord) (def : LabelDef) : list ConstraintViolation :=
  List.map (CMissingRequired key) (List.filter (fun p => negb (is_present record def p)) (lexists def)).

Definition wrong_types (key : NodeKey) (record : NodeRecord) (def : LabelDef) : list ConstraintViolation :=
  List.map (fun '(property, declared, actual) => CWrongType key property declared actual) (type_violations key record def).

Definition node_violations (key : NodeKey) (record : NodeRecord) (def : LabelDef) : list ConstraintViolation :=
  missing key record def ++ wrong_types key record def.

(** ** Groups of nodes that share a value *)

Section groups.
Context {K M : Type} (cmp : K -> K -> comparison).

(** [entry(k).or_insert_with(|| (value, vec![])).1.push(member)] *)
Fixpoint push_group (k : K) (value : Value) (member : M) (groups : list (K * (Value * list M))) : list (K * (Value * list M)) :=
  match groups with
  | [] => [(k, (value, [member]))]
  | (k', (value', members)) :: rest =>
    match cmp k k' with
    | Lt => (k, (value, [member])) :: groups
    | Eq => (k', (value', members ++ [member])) :: rest
    | Gt => (k', (value', members)) :: push_group k value member rest
    end
  end.

(** The loop over the unique properties of one node. *)
Fixpoint push_unique (group : bytes -> bytes -> K) (member : M) (record : NodeRecord) (ps : list bytes)
    (groups : list (K * (Value * list M))) : result GraphError (list (K * (Value * list M))) :=
  match ps with
  | [] => Ok groups
  | property :: ps =>
    match properties record !! property with
    | Some value =>
      let? value_enc := map_err GRecordEncode (map_err EncodeValue (encode_value value)) in
      push_unique group member record ps (push_group (group property value_enc) value member groups)
    | None => push_unique group member record ps groups
    end
  end.
End groups.

(** The order of the tuples that key the groups. *)
Definition pair_cmp (a b : bytes * bytes) : comparison := cmp_then (bytes_cmp a.1 b.1) (bytes_cmp a.2 b.2).
Definition triple_cmp (a b : bytes * (bytes * bytes)) : comparison := cmp_then (bytes_cmp a.1 b.1) (pair_cmp a.2 b.2).

Abbreviation NodeGroups := (list ((bytes * (bytes * bytes)) * (Value * list (bytes * NodeKey)))).

Fixpoint group_nodes (labels : gmap bytes LabelDef) (nodes : list (bytes * (NodeKey * NodeRecord))) (groups : NodeGroups)
    : result GraphError NodeGroups :=
  match nodes with
  | [] => Ok groups
  | (encoded, (key, record)) :: nodes =>
    match labels !! label key with
    | None => group_nodes labels nodes groups
    | Some def =>
      let? groups := push_unique triple_cmp (fun p e => (label key, (p, e))) (encoded, key) record (lunique def) groups in
      group_nodes labels nodes groups
    end
  end.

Definition in_focus (focus : option (gset bytes)) (encoded : bytes) : bool :=
  match focus with None => true | Some f => bool_decide (encoded ∈ f) end.

Definition unique_violation (focus : option (gset bytes))
    (group : (bytes * (bytes * bytes)) * (Value * list (bytes * NodeKey))) : option ConstraintViolation :=
  let '((label, (property, _)), (value, members)) := group in
  if (length members <? 2)%nat || negb (existsb (fun m => in_focus focus m.1) members) then None
  else Some (CUnique label property value (List.map snd members)).

Definition check_nodes (labels : gmap bytes LabelDef) (nodes : NodeSet) (focus : option (gset bytes))
    : result GraphError (list ConstraintViolation) :=
  let violations := concat (List.map (fun '(encoded, (key, record)) =>
    if in_focus focus encoded
    then match labels !! label key with Some def => node_violations key record def | None => [] end
    else []) (btree_iter nodes)) in
  let? groups := group_nodes labels (btree_iter nodes) [] in
  Ok (violations ++ omap (unique_violation focus) groups).

(** ** Checks that stream the nodes of a label *)

(** The source unwraps the prefix; [node_label_prefix_keys] shows it is there. *)
Definition label_prefix (label : bytes) : result GraphError bytes :=
  match node_label_prefix label with
  | Ok prefix => Ok prefix
  | Err _ => Err (GPanic "label prefix")
  end.

Abbreviation LabelGroups := (list ((bytes * bytes) * (Value * list NodeKey))).

Definition no_constraints (def : LabelDef) : bool :=
  bool_decide (lexists def = []) && bool_decide (lunique def = []) && bool_decide (ltypes def = ∅).

Definition label_body (prefix : bytes) (def : LabelDef) (kbytes vbytes : bytes)
    (acc : list ConstraintViolation * LabelGroups) : result GraphError (flow (list ConstraintViolation * LabelGroups)) :=
  if negb (starts_with kbytes prefix) then Ok (Break acc)
  else
    let? key := map_err GGraphKey (node_key_decode kbytes) in
    let? record := map_err GRecordDecode (node_record_decode vbytes) in
    let '(violations, groups) := acc in
    let? groups := push_unique pair_cmp pair key record (lunique def) groups in
    Ok (Continue (violations ++ node_violations key record def, groups)).

Definition label_unique (label : bytes) (group : (bytes * bytes) * (Value * list NodeKey)) : option ConstraintViolation :=
  let '((property, _), (value, members)) := group in
  if (length members <? 2)%nat then None else Some (CUnique label property value members).

(** The entries [wanted], their order and what each has met so far. *)
Abbreviation Wanted := (list ((bytes * bytes) * list (bytes * NodeKey * Value))).

Fixpoint insert_wanted (k : bytes * bytes) (wanted : Wanted) : Wanted :=
  match wanted with
  | [] => [(k, [])]
  | (k', members) :: rest =>
    match pair_cmp k k' with
    | Lt => (k, []) :: wanted
    | Eq => (k', []) :: rest
    | Gt => (k', members) :: insert_wanted k rest
    end
  end.

Fixpoint seed_wanted (record : NodeRecord) (ps : list bytes) (wanted : Wanted) : result GraphError Wanted :=
  match ps with
  | [] => Ok wanted
  | property :: ps =>
    match properties record !! property with
    | Some value =>
      let? enc := map_err GRecordEncode (map_err EncodeValue (encode_value value)) in
      seed_wanted record ps (insert_wanted (property, enc) wanted)
    | None => seed_wanted record ps wanted
    end
  end.

(** The loop over [wanted.iter_mut()] for one other node: its key is decoded
    at the first match and kept. *)
Fixpoint meet_wanted (kbytes : bytes) (other : NodeRecord) (other_key : option NodeKey) (wanted : Wanted)
    : result GraphError Wanted :=
  match wanted with
  | [] => Ok []
  | ((property, enc), members) :: rest =>
    match properties other !! property with
    | None => let? rest := meet_wanted kbytes other other_key rest in Ok (((property, enc), members) :: rest)
    | Some value =>
      let? value_enc := map_err GRecordEncode (map_err EncodeValue (encode_value value)) in
      if negb (bool_decide (value_enc = enc))
      then let? rest := meet_wanted kbytes other other_key rest in Ok (((property, enc), members) :: rest)
      else
        let? decoded := match other_key with
                        | Some k => Ok k
                        | None => map_err GGraphKey (node_key_decode kbytes)
                        end in
        let? rest := meet_wanted kbytes other (Some decoded) rest in
        Ok (((property, enc), members ++ [(kbytes, decoded, value)]) :: rest)
    end
  end.

Definition upsert_body (prefix encoded kbytes vbytes : bytes) (wanted : Wanted) : result GraphError (flow Wanted) :=
  if negb (starts_with kbytes prefix) then Ok (Break wanted)
  else if bool_decide (kbytes = encoded) then Ok (Continue wanted)
  else
    let? other := map_err GRecordDecode (node_record_decode vbytes) in
    let? wanted := meet_wanted kbytes other None wanted in
    Ok (Continue wanted).

(** [members.insert(at, ..)] at the partition point of the node's key. *)
Fixpoint insert_member (encoded : bytes) (m : bytes * NodeKey * Value) (members : list (bytes * NodeKey * Value))
    : list (bytes * NodeKey * Value) :=
  match members with
  | [] => [m]
  | x :: rest => if bytes_ltb x.1.1 encoded then x :: insert_member encoded m rest else m :: members
  end.

Definition upsert_unique (key : NodeKey) (record : NodeRecord) (encoded : bytes)
    (group : (bytes * bytes) * list (bytes * NodeKey * Value)) : result GraphError (list ConstraintViolation) :=
  let '((property, _), members) := group in
  match members with
  | [] => Ok []
  | _ :: _ =>
    match properties record !! property with
    | None => Err (GPanic "wanted groups are seeded from present properties")
    | Some value =>
      match insert_member encoded (encoded, key, value) members with
      | [] => Err (GPanic "index out of bounds")
      | m :: rest => Ok [CUnique (label key) property m.2 (List.map (fun x => x.1.2) (m :: rest))]
      end
    end
  end.

Fixpoint concat_results {A B : Type} (f : A -> result GraphError (list B)) (l : list A) : result GraphError (list B) :=
  match l with
  | [] => Ok []
  | x :: l => let? y := f x in let? ys := concat_results f l in Ok (y ++ ys)
  end.

Section store.
Context {S : Type} {CS : ChunkStore S}.

(** [Snapshot::schema_entries] *)
Definition entry_body (key value : bytes) (entries : list SchemaEntry) : result GraphError (flow (list SchemaEntry)) :=
  let? entry := map_err GSchema (schema_decode key value) in Ok (Continue (entries ++ [entry])).

Definition schema_entries (fuel : nat) (store : S) (schema : Root) : result GraphError (list SchemaEntry) :=
  for_each fuel store schema Unbounded Unbounded entry_body [].

(** The first definition of the label. *)
Fixpoint find_label (label : bytes) (entries : list SchemaEntry) : option LabelDef :=
  match entries with
  | [] => None
  | LabelEntry name def :: entries => if bool_decide (name = label) then Some def else find_label label entries
  | _ :: entries => find_label label entries
  end.

Definition check_label (fuel : nat) (store : S) (manifest : Manifest) (label : bytes) (def : LabelDef)
    : result GraphError (list ConstraintViolation) :=
  if no_constraints def then Ok []
  else
    let? prefix := label_prefix label in
    let? nodes := map_err GProlly (to_root (m_nodes manifest) (chunk_params manifest)) in
    let? '(violations, groups) := for_each fuel store nodes (Included prefix) Unbounded (label_body prefix def) ([], []) in
    Ok (violations ++ omap (label_unique label) groups).

Definition check_upsert (fuel : nat) (store : S) (manifest : Manifest) (key : NodeKey) (record : NodeRecord)
    : result GraphError (list ConstraintViolation) :=
  let? schema := map_err GProlly (to_root (m_schema manifest) (chunk_params manifest)) in
  let? entries := schema_entries fuel store schema in
  match find_label (label key) entries with
  | None => Ok []
  | Some def =>
    if no_constraints def then Ok []
    else
      let violations := node_violations key record def in
      let? encoded := map_err GGraphKey (node_key_encode key) in
      let? wanted := seed_wanted record (lunique def) [] in
      let? wanted :=
        match wanted with
        | [] => Ok wanted
        | _ :: _ =>
          let? prefix := label_prefix (label key) in
          let? nodes := map_err GProlly (to_root (m_nodes manifest) (chunk_params manifest)) in
          for_each fuel store nodes (Included prefix) Unbounded (upsert_body prefix encoded) wanted
        end in
      let? unique := concat_results (upsert_unique key record encoded) wanted in
      Ok (violations ++ unique)
  end.
End store.
