(* ===== verification/ConstraintsRun.v ===== *)
(** * The constraint checks agree

    Checking the nodes of a label as they stream from the store, and checking
    one write against the stored nodes, give the very list of violations that
    checking the final node set gives. *)
From S2P Require Import Prelude Ieee Model Keys Values Canonical Records KeysCodec GraphKeys Schema Store Chunker Node Tree TreeSpec TreeNodes TreeRead TreeBuild TreeLevels TreeContent TreeBatch Prolly Manifest Diff DiffRun MapDiff Scan ScanRun Graph GraphRun CellMerge GraphMerge GraphMergeRun GraphIndex GraphIndexRun Constraints.

(** ** Iterating over a map *)

Lemma key_le_total {A : Type} : Total (@key_le A).
Proof. intros a b. unfold key_le. destruct (total bytes_le a.1 b.1); auto. Qed.
#[local] Instance key_le_total' {A : Type} : Total (@key_le A) := key_le_total.
#[local] Instance key_le_trans {A : Type} : Transitive (@key_le A).
Proof. intros a b c. unfold key_le. apply transitivity. Qed.

Lemma btree_iter_elem {A : Type} (m : gmap bytes A) k v : (k, v) ∈ btree_iter m <-> m !! k = Some v.
Proof. unfold btree_iter. rewrite merge_sort_Permutation. apply elem_of_map_to_list. Qed.

Lemma btree_iter_keys {A : Type} (m : gmap bytes A) : StronglySorted bytes_lt (map fst (btree_iter m)).
Proof.
  assert (NoDup (map fst (btree_iter m))) as Hn.
  { unfold btree_iter. pose proof (NoDup_fst_map_to_list m) as H.
    assert (map fst (merge_sort key_le (map_to_list m)) ≡ₚ map fst (map_to_list m)) as -> by apply Permutation_map, merge_sort_Permutation.
    done. }
  assert (StronglySorted key_le (btree_iter m)) as Hs by (apply Sorted_StronglySorted, Sorted_merge_sort; apply _).
  induction Hs as [|[k v] l Hs IH Hall]; [constructor|]. cbn [map fst] in *. apply NoDup_cons in Hn as [Hk Hn].
  constructor; [by apply IH|]. apply Forall_map. rewrite Forall_forall in Hall |- *. intros [k' v'] Hin.
  specialize (Hall _ Hin). unfold key_le in Hall. cbn [fst] in *. apply bytes_le_lteq in Hall as [Hlt| ->]; [done|].
  destruct Hk. by apply (list_elem_of_fmap_2 fst) in Hin.
Qed.

(** A list sorted by its keys is the iteration of the map it makes. *)
Lemma btree_iter_sorted {A : Type} (m : gmap bytes A) (l : list (bytes * A)) :
  StronglySorted bytes_lt (map fst l) -> (forall k v, (k, v) ∈ l <-> m !! k = Some v) -> btree_iter m = l.
Proof.
  intros Hs Hl. apply (sorted_ext bytes_lt fst); [apply btree_iter_keys|done|].
  intros [k v]. by rewrite btree_iter_elem, Hl.
Qed.

(** ** Groups *)

Section groups.
Context {K M : Type} (cmp : K -> K -> comparison).
Implicit Types (k : K) (v : Value) (m : M) (groups : list (K * (Value * list M))) (evs : list (K * (Value * M))).

Definition push_event groups (ev : K * (Value * M)) := push_group cmp ev.1 ev.2.1 ev.2.2 groups.
Definition group_events evs : list (K * (Value * list M)) := foldl push_event [] evs.

(** What a unique property of a record makes of it. *)
Definition unique_events (group : bytes -> bytes -> K) (m : M) (record : NodeRecord) (ps : list bytes) : list (K * (Value * M)) :=
  omap (fun p => match properties record !! p with
                 | Some v => match encode_value v with Ok e => Some (group p e, (v, m)) | Err _ => None end
                 | None => None
                 end) ps.

Lemma push_unique_events group m record ps groups :
  cells_ok (properties record) ->
  push_unique cmp group m record ps groups = Ok (foldl push_event groups (unique_events group m record ps)).
Proof.
  intros Hr. revert groups. induction ps as [|p ps IH]; intros groups; [done|]. cbn [push_unique unique_events omap list_omap].
  destruct (properties record !! p) as [v|] eqn:Ev; [|apply IH]. destruct (Hr p v Ev) as [_ [e He]]. rewrite He.
  cbn [map_err rbind]. rewrite IH. done.
Qed.

(** The members an event list puts in the group of [k], and its first value. *)
Definition matching evs k : list (Value * M) := omap (fun ev => match cmp k ev.1 with Eq => Some ev.2 | _ => None end) evs.

Context (cmp_eq : forall a b, cmp a b = Eq <-> a = b).
Context (cmp_sym : forall a b, cmp b a = CompOpp (cmp a b)).
Context (cmp_trans : forall a b c, cmp a b = Lt -> cmp b c = Lt -> cmp a c = Lt).

Definition klt (a b : K) : Prop := cmp a b = Lt.

Definition grouped evs groups : Prop :=
  StronglySorted klt (map fst groups) /\
  forall k v ms, (k, (v, ms)) ∈ groups <-> exists m rest, matching evs k = (v, m) :: rest /\ ms = m :: map snd rest.

Lemma cmp_refl k : cmp k k = Eq.
Proof. by apply cmp_eq. Qed.

Lemma push_group_keys k v m groups x :
  x ∈ map fst (push_group cmp k v m groups) <-> x = k \/ x ∈ map fst groups.
Proof.
  induction groups as [|[k' [v' ms]] rest IH]; cbn [push_group map fst].
  - by rewrite elem_of_cons.
  - destruct (cmp k k') eqn:E; cbn [map fst]; rewrite ?elem_of_cons.
    + apply cmp_eq in E as ->. tauto.
    + tauto.
    + rewrite IH. tauto.
Qed.

Lemma push_group_sorted k v m groups : StronglySorted klt (map fst groups) -> StronglySorted klt (map fst (push_group cmp k v m groups)).
Proof.
  induction groups as [|[k' [v' ms]] rest IH]; cbn [push_group map fst]; intros Hs.
  - repeat constructor.
  - apply StronglySorted_inv in Hs as [Hs Hall]. destruct (cmp k k') eqn:E; cbn [map fst].
    + by constructor.
    + constructor; [by constructor|]. constructor; [done|]. eapply Forall_impl; [exact Hall|]. intros x. by apply cmp_trans.
    + constructor; [by apply IH|]. apply Forall_forall. intros x Hx. apply push_group_keys in Hx as [->|Hx].
      * unfold klt. by rewrite cmp_sym, E.
      * rewrite Forall_forall in Hall. by apply Hall.
Qed.

Lemma push_group_lookup k v m groups k' v' ms' :
  StronglySorted klt (map fst groups) ->
  (k', (v', ms')) ∈ push_group cmp k v m groups <->
    (k' <> k /\ (k', (v', ms')) ∈ groups) \/
    (k' = k /\ ((exists ms, (k, (v', ms)) ∈ groups /\ ms' = ms ++ [m]) \/ (k ∉ map fst groups /\ v' = v /\ ms' = [m]))).
Proof.
  induction groups as [|[k0 [v0 ms0]] rest IH]; cbn [push_group map fst]; intros Hs.
  - rewrite list_elem_of_singleton. split.
    + intros [= -> -> ->]. right. split; [done|]. right. split; [apply not_elem_of_nil|done].
    + intros [[_ H]|[-> [(ms & H & _)|(_ & -> & ->)]]]; [by apply elem_of_nil in H..|done].
  - apply StronglySorted_inv in Hs as [Hs Hall]. specialize (IH Hs). destruct (cmp k k0) eqn:E.
    + apply cmp_eq in E as <-. rewrite !elem_of_cons.
      assert (forall v ms, (k, (v, ms)) ∉ rest) as Hno.
      { intros w ms Hin. apply (list_elem_of_fmap_2 fst) in Hin. rewrite Forall_forall in Hall. specialize (Hall k Hin).
        unfold klt in Hall. by rewrite cmp_refl in Hall. }
      split.
      * intros [[= -> -> ->]|H]; [right; split; [done|]; left; exists ms0; split; [by left|done]|].
        left. split; [intros ->; by apply Hno in H|by right].
      * intros [[Hne [[= ? ? ?]|H]]|[-> [(ms & H & ->)|(H & _)]]]; [done|by right| |destruct H; by left].
        apply elem_of_cons in H as [[= -> ->]|H]; [by left|by apply Hno in H].
    + assert (k ∉ k0 :: map fst rest) as Hno.
      { rewrite not_elem_of_cons. split; [intros ->; by rewrite cmp_refl in E|]. intros Hin. rewrite Forall_forall in Hall.
        specialize (Hall k Hin). unfold klt in Hall. pose proof (cmp_trans _ _ _ E Hall) as Hc. by rewrite cmp_refl in Hc. }
      assert (forall w ms, (k, (w, ms)) ∉ (k0, (v0, ms0)) :: rest) as Hno' by
        (intros w ms Hin; apply (list_elem_of_fmap_2 fst) in Hin; by apply Hno).
      rewrite elem_of_cons. split.
      * intros [[= -> -> ->]|H]; [right; auto|]. left. split; [intros ->; by apply Hno' in H|done].
      * intros [[_ H]|[-> [(ms & H & _)|(_ & -> & ->)]]]; [by right|by apply Hno' in H|by left].
    + assert (k <> k0) as Hne by (intros ->; by rewrite cmp_refl in E).
      rewrite !elem_of_cons, IH. split.
      * intros [[= -> -> ->]|[[H1 H2]|[-> [(ms & H & ->)|(H & -> & ->)]]]].
        -- left. split; [done|by left].
        -- left. split; [done|by right].
        -- right. split; [done|]. left. exists ms. split; [by right|done].
        -- right. split; [done|]. right. split; [|done]. by intros [Hin|Hin].
      * intros [[H1 [H2|H2]]|[-> [(ms & H & ->)|(H & -> & ->)]]]; [by left|by right; left|..].
        -- apply elem_of_cons in H as [[= ? ? ?]|H]; [done|]. right. right. split; [done|]. left. by exists ms.
        -- right. right. split; [done|]. right. split; [|done]. intros Hin. apply H. by right.
Qed.

Lemma matching_app evs evs' k : matching (evs ++ evs') k = matching evs k ++ matching evs' k.
Proof. unfold matching. apply omap_app. Qed.

Lemma group_events_spec evs : grouped evs (group_events evs).
Proof.
  induction evs as [|[k [v m]] evs [Hs Hg]] using rev_ind.
  { split; [constructor|]. intros k v ms. split; [intros H; by apply elem_of_nil in H|]. by intros (m & rest & H & _). }
  unfold group_events in *. rewrite foldl_app. cbn [foldl]. set (g := foldl push_event [] evs) in *. unfold push_event. cbn [fst snd].
  split; [by apply push_group_sorted|]. intros k' v' ms'. rewrite push_group_lookup by done. rewrite matching_app.
  unfold matching at 2. cbn [omap list_omap fst snd].
  assert (k' = k \/ k' <> k) as [->|Hne]
    by (destruct (cmp k' k) eqn:E; [left; by apply cmp_eq|right; intros ->; by rewrite cmp_refl in E..]).
  - rewrite cmp_refl. split.
    + intros [[? _]|[_ [(ms & Hin & ->)|(Hno & -> & ->)]]]; [done| |].
      * apply Hg in Hin as (m0 & rest & Em & ->). exists m0, (rest ++ [(v, m)]). rewrite Em. split; [done|]. by rewrite map_app.
      * exists m, []. split; [|done]. destruct (matching evs k) as [|[v0 m0] rest] eqn:Em; [done|]. exfalso. apply Hno.
        apply (list_elem_of_fmap_2 fst _ (k, (v0, m0 :: map snd rest))). apply Hg. by exists m0, rest.
    + intros (m0 & rest & Em & ->). right. split; [done|]. destruct (matching evs k) as [|[v1 m1] rest1] eqn:E1; cbn [app] in Em.
      * injection Em as <- <- <-. right. split; [|done]. intros Hin. apply list_elem_of_fmap in Hin as ([k0 [v0 ms0]] & Hk & Hin).
        cbn [fst] in Hk. subst k0. apply Hg in Hin as (m0 & rest & E & _). congruence.
      * injection Em as <- <- <-. left. exists (m1 :: map snd rest1). split; [|by rewrite map_app]. apply Hg. by exists m1, rest1.
  - assert (cmp k' k <> Eq) as Hc by (intros H; by apply cmp_eq in H).
    replace (match cmp k' k with Eq => Some (v, m) | _ => None end) with (@None (Value * M)) by (by destruct (cmp k' k)).
    rewrite app_nil_r, <-Hg. tauto.
Qed.

Lemma group_keys evs k : k ∈ map fst (group_events evs) <-> matching evs k <> [].
Proof.
  destruct (group_events_spec evs) as [_ Hg]. rewrite list_elem_of_fmap. split.
  - intros ([k0 [v ms]] & -> & Hin). apply Hg in Hin as (m & rest & E & _). cbn [fst]. by rewrite E.
  - destruct (matching evs k) as [|[v m] rest] eqn:E; [done|]. intros _. exists (k, (v, m :: map snd rest)). split; [done|].
    apply Hg. by exists m, rest.
Qed.
End groups.

(** Groups under another key and with other members. *)
Section map_groups.
Context {K K' M M' : Type} (cmp : K -> K -> comparison) (cmp' : K' -> K' -> comparison) (f : K -> K') (h : M -> M').
Context (Hf : forall a b, cmp' (f a) (f b) = cmp a b).

Definition map_group (g : K * (Value * list M)) : K' * (Value * list M') := (f g.1, (g.2.1, map h g.2.2)).
Definition map_event (e : K * (Value * M)) : K' * (Value * M') := (f e.1, (e.2.1, h e.2.2)).

Lemma push_group_map k v m groups :
  map map_group (push_group cmp k v m groups) = push_group cmp' (f k) v (h m) (map map_group groups).
Proof.
  induction groups as [|[k' [v' ms]] rest IH]; [done|]. cbn [push_group map]. unfold map_group in *. cbn [fst snd push_group].
  rewrite Hf. destruct (cmp k k'); cbn [map fst snd]; [by rewrite map_app|done|by rewrite IH].
Qed.

Lemma group_events_map evs : map map_group (group_events cmp evs) = group_events cmp' (map map_event evs).
Proof.
  unfold group_events. change (@nil (K' * (Value * list M'))) with (map map_group []). generalize (@nil (K * (Value * list M))).
  induction evs as [|e evs IH]; intros g; [done|]. cbn [foldl map]. rewrite IH. unfold push_event, map_event. cbn [fst snd].
  by rewrite push_group_map.
Qed.
End map_groups.

Lemma pair_cmp_eq a b : pair_cmp a b = Eq <-> a = b.
Proof. destruct a, b. unfold pair_cmp. cbn. rewrite cmp_then_Eq, !bytes_cmp_eq. split; [by intros [-> ->]|by intros [= -> ->]]. Qed.
Lemma triple_cmp_eq a b : triple_cmp a b = Eq <-> a = b.
Proof. destruct a, b. unfold triple_cmp. cbn. rewrite cmp_then_Eq, bytes_cmp_eq, pair_cmp_eq. split; [by intros [-> ->]|by intros [= -> ->]]. Qed.

Lemma cmp_then_sym c d c' d' : c' = CompOpp c -> d' = CompOpp d -> cmp_then c' d' = CompOpp (cmp_then c d).
Proof. intros -> ->. by destruct c, d. Qed.

Lemma pair_cmp_sym a b : pair_cmp b a = CompOpp (pair_cmp a b).
Proof. apply cmp_then_sym; apply bytes_cmp_sym. Qed.
Lemma triple_cmp_sym a b : triple_cmp b a = CompOpp (triple_cmp a b).
Proof. apply cmp_then_sym; [apply bytes_cmp_sym|apply pair_cmp_sym]. Qed.

(** Lexicographic products of transitive comparisons are transitive. *)
Lemma cmp_then_trans {A B : Type} (c : A -> A -> comparison) (d : B -> B -> comparison) (a1 a2 a3 : A) (b1 b2 b3 : B) :
  (forall x y, c x y = Eq <-> x = y) -> (c a1 a2 = Lt -> c a2 a3 = Lt -> c a1 a3 = Lt) ->
  (d b1 b2 = Lt -> d b2 b3 = Lt -> d b1 b3 = Lt) ->
  cmp_then (c a1 a2) (d b1 b2) = Lt -> cmp_then (c a2 a3) (d b2 b3) = Lt -> cmp_then (c a1 a3) (d b1 b3) = Lt.
Proof.
  intros Heq Hc Hd. destruct (c a1 a2) eqn:E1; [apply Heq in E1; subst a2| |done].
  - destruct (c a1 a3); [exact Hd|done|done].
  - destruct (c a2 a3) eqn:E2; [apply Heq in E2; subst a3; by rewrite E1|by rewrite Hc|done].
Qed.

Lemma pair_cmp_trans a b c : pair_cmp a b = Lt -> pair_cmp b c = Lt -> pair_cmp a c = Lt.
Proof. apply cmp_then_trans; [apply bytes_cmp_eq|apply bytes_cmp_trans|apply bytes_cmp_trans]. Qed.
Lemma triple_cmp_trans a b c : triple_cmp a b = Lt -> triple_cmp b c = Lt -> triple_cmp a c = Lt.
Proof. apply cmp_then_trans; [apply bytes_cmp_eq|apply bytes_cmp_trans|apply pair_cmp_trans]. Qed.
(** ** The nodes of a map *)

Definition node_of (k v : bytes) : option (NodeKey * NodeRecord) :=
  match node_key_decode k, node_record_decode v with Ok key, Ok record => Some (key, record) | _, _ => None end.
Definition node_set (M : gmap bytes bytes) : NodeSet := map_imap node_of M.
Definition node_entry (e : bytes * bytes) : option (bytes * (NodeKey * NodeRecord)) := option_map (pair e.1) (node_of e.1 e.2).
Definition decoded_nodes (m : kvs) : list (bytes * (NodeKey * NodeRecord)) := omap node_entry m.

Lemma node_entry_Some e kb n : node_entry e = Some (kb, n) <-> kb = e.1 /\ node_of e.1 e.2 = Some n.
Proof. unfold node_entry. destruct (node_of e.1 e.2); cbn [option_map]; split; [by intros [= <- <-]|by intros [-> [= ->]]|done|by intros [_ ?]]. Qed.

Lemma node_of_ok M k v : nodes_ok M -> M !! k = Some v ->
  exists key record, node_of k v = Some (key, record) /\ node_key_decode k = Ok key /\ node_record_decode v = Ok record /\
    cells_ok (properties record) /\ node_key_encode key = Ok k /\ node_key_ok key.
Proof.
  intros HM Hk. destruct (HM k v Hk) as (Hkv & [key Ek] & [record Er]). exists key, record. unfold node_of. rewrite Ek, Er.
  apply andb_prop in Hkv as [Hkl Hvl]. cbn [fst snd] in Hkl, Hvl. apply key_bound in Hkl, Hvl.
  destruct (node_key_decode_Ok k key Hkl Ek) as (He & Hok & _). destruct (node_record_decode_Ok v record Hvl Er) as (Hr & [_ Hp] & _).
  unfold node_record_encode in Hr. apply rbind_Ok in Hr as (b & Hb & _). split_and!; try done. by eapply props_cells.
Qed.

Lemma omap_keys {A B K : Type} (f : A -> option B) (ka : A -> K) (kb : B -> K) (lt : relation K) l :
  (forall a b, f a = Some b -> kb b = ka a) -> StronglySorted lt (map ka l) -> StronglySorted lt (map kb (omap f l)).
Proof.
  intros Hf. induction l as [|a l IH]; [constructor|]. cbn [map omap list_omap]. intros Hs.
  apply StronglySorted_inv in Hs as [Hs Hall]. specialize (IH Hs). destruct (f a) as [b|] eqn:E; [|exact IH].
  cbn [map]. constructor; [exact IH|]. rewrite (Hf a b E). apply Forall_forall. intros x Hx. apply list_elem_of_fmap in Hx as (b' & -> & Hx).
  apply list_elem_of_omap in Hx as (a' & Ha' & E'). rewrite (Hf a' b' E'). rewrite Forall_forall in Hall. apply Hall. by apply list_elem_of_fmap_2.
Qed.

Lemma decoded_nodes_keys m : sorted m -> StronglySorted bytes_lt (map fst (decoded_nodes m)).
Proof. apply (omap_keys node_entry fst fst). intros e [kb n] H. by apply node_entry_Some in H as [-> _]. Qed.

Lemma decoded_nodes_iter M m : entries_in M m -> btree_iter (node_set M) = decoded_nodes m.
Proof.
  intros Hm. apply btree_iter_sorted; [apply decoded_nodes_keys, Hm|]. intros k n. unfold node_set. rewrite map_lookup_imap.
  unfold decoded_nodes. rewrite list_elem_of_omap. split.
  - intros ([k' v] & Hin & H). apply node_entry_Some in H as [-> H]. apply (entries_in_lookup M m) in Hin; [|done]. cbn [fst snd] in *. by rewrite Hin.
  - destruct (M !! k) as [v|] eqn:E; [|done]. cbn. intros H. exists (k, v). rewrite (entries_in_lookup M m) by done. split; [done|].
    by apply node_entry_Some.
Qed.

(** ** What checking the final node set gives *)

Definition with_cells (nodes : list (bytes * (NodeKey * NodeRecord))) : Prop := Forall (fun n => cells_ok (properties n.2.2)) nodes.

Definition node_events (labels : gmap bytes LabelDef) (n : bytes * (NodeKey * NodeRecord))
    : list ((bytes * (bytes * bytes)) * (Value * (bytes * NodeKey))) :=
  match labels !! label n.2.1 with
  | Some def => unique_events (fun p e => (label n.2.1, (p, e))) (n.1, n.2.1) n.2.2 (lunique def)
  | None => []
  end.

Lemma group_nodes_events labels nodes groups :
  with_cells nodes -> group_nodes labels nodes groups = Ok (foldl (push_event triple_cmp) groups (concat (map (node_events labels) nodes))).
Proof.
  intros H. revert groups. induction H as [|[kb [key record]] nodes Hc _ IH]; intros groups; [done|].
  cbn [group_nodes map concat]. rewrite foldl_app. unfold node_events at 1. cbn [fst snd] in *.
  destruct (labels !! label key) as [def|]; [|apply IH]. rewrite push_unique_events by done. cbn [rbind]. apply IH.
Qed.

Definition node_breaches (labels : gmap bytes LabelDef) (focus : option (gset bytes)) (n : bytes * (NodeKey * NodeRecord))
    : list ConstraintViolation :=
  if in_focus focus n.1
  then match labels !! label n.2.1 with Some def => node_violations n.2.1 n.2.2 def | None => [] end
  else [].

Lemma check_nodes_spec labels (N : NodeSet) focus :
  with_cells (btree_iter N) ->
  check_nodes labels N focus =
    Ok (concat (map (node_breaches labels focus) (btree_iter N)) ++
        omap (unique_violation focus) (group_events triple_cmp (concat (map (node_events labels) (btree_iter N))))).
Proof.
  intros H. unfold check_nodes. rewrite group_nodes_events by done. cbn [rbind]. f_equal. f_equal. f_equal.
  apply map_ext. by intros [kb [key record]].
Qed.

Lemma decoded_nodes_cells M m : nodes_ok M -> entries_in M m -> with_cells (decoded_nodes m).
Proof.
  intros HM Hm. apply Forall_forall. intros [kb [key record]] Hin. apply list_elem_of_omap in Hin as ([k v] & Hin & H).
  apply node_entry_Some in H as [-> H]. apply (entries_in_lookup M m) in Hin; [|done].
  destruct (node_of_ok M k v HM Hin) as (key' & record' & E & _ & _ & Hc & _). cbn [fst snd] in *. rewrite H in E. by injection E as -> ->.
Qed.

(** The entries under the prefix of a label are its nodes. *)
Lemma label_nodes M m l :
  str_ok l = true -> nodes_ok M -> entries_in M m ->
  exists p, node_label_prefix l = Ok p /\ label_prefix l = Ok p /\
    forall k v key record, (k, v) ∈ m -> node_of k v = Some (key, record) -> starts_with k p = true <-> label key = l.
Proof.
  intros Hl HM Hm. assert (exists p, node_label_prefix l = Ok p) as [p Hp]
    by (by eexists; unfold node_label_prefix, encode_list_prefix).
  exists p. split; [done|]. split; [by unfold label_prefix; rewrite Hp|]. intros k v key record Hin Hn.
  apply (entries_in_lookup M m) in Hin; [|done]. destruct (node_of_ok M k v HM Hin) as (key' & record' & E & _ & _ & _ & He & Hok).
  rewrite Hn in E. injection E as <- <-. destruct (node_label_prefix_keys l key k Hl Hok He) as (p' & Hp' & H).
  rewrite Hp in Hp'. by apply Ok_inj in Hp' as <-.
Qed.

(** ** Streaming the nodes of a label *)

Definition label_events (def : LabelDef) (n : bytes * (NodeKey * NodeRecord)) : list ((bytes * bytes) * (Value * (bytes * NodeKey))) :=
  unique_events pair (n.1, n.2.1) n.2.2 (lunique def).

Lemma unique_events_map {K K' M M' : Type} (group : bytes -> bytes -> K) (f : K -> K') (h : M -> M') m record ps :
  map (map_event f h) (unique_events group m record ps) = unique_events (fun p e => f (group p e)) (h m) record ps.
Proof.
  induction ps as [|p ps IH]; [done|]. unfold unique_events in *. cbn [omap list_omap].
  destruct (properties record !! p) as [v|]; [|exact IH]. destruct (encode_value v); [|exact IH]. cbn [map]. f_equal. exact IH.
Qed.

Lemma label_body_fold M m l def p violations groups :
  nodes_ok M -> entries_in M m -> (forall k v key record, (k, v) ∈ m -> node_of k v = Some (key, record) -> starts_with k p = true <-> label key = l) ->
  fold_flow (fun k v acc =>
      let? key := map_err GGraphKey (node_key_decode k) in
      let? record := map_err GRecordDecode (node_record_decode v) in
      let '(violations, groups) := acc in
      let? groups := push_unique pair_cmp pair key record (lunique def) groups in
      Ok (Continue (violations ++ node_violations key record def, groups)))
    (under_prefix p m) (violations, groups) =
  Ok (violations ++ concat (map (node_breaches {[l := def]} None) (decoded_nodes m)),
      foldl (push_event pair_cmp) groups
        (map (map_event id snd) (concat (map (label_events def) (List.filter (fun n => bool_decide (label n.2.1 = l)) (decoded_nodes m)))))).
Proof.
  intros HM Hm Hp. assert (forall k v, (k, v) ∈ m -> M !! k = Some v) as Hin by (intros k v; apply (entries_in_lookup M m); done).
  clear Hm. revert violations groups. induction m as [|[k v] m IH]; intros violations groups; [cbn; by rewrite app_nil_r|].
  unfold under_prefix in *. rewrite filter_cons. cbn [fst].
  destruct (node_of_ok M k v HM (Hin k v ltac:(by left))) as (key & record & En & Ek & Er & Hc & _).
  specialize (IH (fun k' v' key' record' H => Hp k' v' key' record' ltac:(by right)) (fun k' v' H => Hin k' v' ltac:(by right))).
  specialize (Hp k v key record ltac:(by left) En).
  assert (node_entry (k, v) = Some (k, (key, record))) as Ee by (by apply node_entry_Some).
  unfold decoded_nodes in *. cbn [omap list_omap]. rewrite Ee. cbn [map concat List.filter fst snd].
  unfold node_breaches at 1. cbn [in_focus fst snd]. destruct (decide (label key = l)) as [<-|Hl].
  - rewrite decide_True by tauto. rewrite bool_decide_true by done. cbn [fold_flow map concat]. rewrite Ek, Er. cbn [map_err rbind].
    rewrite push_unique_events by done. cbn [rbind]. rewrite IH, lookup_singleton_eq, map_app, foldl_app, <-app_assoc.
    unfold label_events at 2. cbn [fst snd]. by rewrite unique_events_map.
  - rewrite decide_False by tauto. rewrite bool_decide_false by done. rewrite lookup_singleton_ne by done. by rewrite IH.
Qed.

Lemma no_constraints_node key record def : no_constraints def = true -> node_violations key record def = [].
Proof.
  unfold no_constraints. intros H. apply andb_prop in H as [H Ht]. apply andb_prop in H as [He _].
  apply bool_decide_eq_true in He, Ht. unfold node_violations, missing, wrong_types, type_violations. rewrite He.
  by rewrite bool_decide_true.
Qed.

Lemma no_constraints_unique def : no_constraints def = true -> lunique def = [].
Proof. unfold no_constraints. intros H. apply andb_prop in H as [H _]. apply andb_prop in H as [_ H]. by apply bool_decide_eq_true in H. Qed.

Lemma concat_nil {A B : Type} (f : A -> list B) l : (forall x, x ∈ l -> f x = []) -> concat (map f l) = [].
Proof. induction l as [|x l IH]; intros H; [done|]. cbn [map concat]. rewrite (H x) by (by left). apply IH. intros y Hy. apply H. by right. Qed.

Lemma label_node_events def l nodes :
  concat (map (node_events {[l := def]}) nodes) =
  map (map_event (pair l) id) (concat (map (label_events def) (List.filter (fun n => bool_decide (label n.2.1 = l)) nodes))).
Proof.
  induction nodes as [|n nodes IH]; [done|]. cbn [map concat List.filter]. rewrite IH. unfold node_events at 1.
  destruct (decide (label n.2.1 = l)) as [<-|Hl].
  - rewrite lookup_singleton_eq, bool_decide_true by done. cbn [map concat]. rewrite map_app. unfold label_events at 2.
    by rewrite unique_events_map.
  - by rewrite lookup_singleton_ne, bool_decide_false by done.
Qed.

Lemma pair_tag_cmp l a b : triple_cmp (l, a) (l, b) = pair_cmp a b.
Proof. unfold triple_cmp. cbn [fst snd]. by rewrite (proj2 (bytes_cmp_eq l l) eq_refl). Qed.

Lemma omap_map {A B C : Type} (f : B -> option C) (g : A -> B) (l : list A) : omap f (map g l) = omap (fun a => f (g a)) l.
Proof. induction l as [|a l IH]; [done|]. cbn [map omap list_omap] in *. by rewrite IH. Qed.

Lemma omap_same {A B : Type} (f g : A -> option B) (l : list A) : (forall a, a ∈ l -> f a = g a) -> omap f l = omap g l.
Proof.
  induction l as [|a l IH]; intros H; [done|]. cbn [omap list_omap]. rewrite (H a) by (by left).
  assert (omap f l = omap g l) as IH' by (apply IH; intros b Hb; apply H; by right). cbn [omap] in IH'. by rewrite IH'.
Qed.

Lemma omap_none {A B : Type} (f : A -> option B) (l : list A) : (forall a, a ∈ l -> f a = None) -> omap f l = [].
Proof.
  intros H. rewrite (omap_same f (fun _ => None)) by done. clear H. induction l as [|a l IH]; [done|exact IH].
Qed.

Lemma streamed_groups l evs :
  omap (label_unique l) (group_events pair_cmp (map (map_event id snd) evs)) =
  omap (unique_violation None) (group_events triple_cmp (map (map_event (pair l) id) evs)).
Proof.
  rewrite <-(group_events_map pair_cmp pair_cmp id snd) by done. rewrite <-(group_events_map pair_cmp triple_cmp (pair l) id (pair_tag_cmp l)).
  rewrite !omap_map. apply omap_same. intros [[p e] [v ms]] _. unfold map_group, label_unique, unique_violation. cbn [fst snd].
  rewrite map_id, length_map. destruct ms as [|m1 [|m2 ms]]; done.
Qed.

Section store.
Context {S : Type} {CS : ChunkStore S} {CSL : ChunkStoreLaws S}.

(** Checking the nodes of a label as they stream from the store gives the
    violations, in their order, that checking the node set gives. *)
Lemma check_label_streams (s : S) manifest M label def fuel :
  map_at s (chunk_params manifest) (m_nodes manifest) M -> nodes_ok M -> str_ok label = true -> size M < fuel ->
  check_label fuel s manifest label def = check_nodes {[label := def]} (node_set M) None.
Proof.
  intros (R & ER & HR) HM Hl Hf. unfold check_label. destruct (no_constraints def) eqn:En.
  - destruct (for_each_spec s R M (fun _ _ (u : unit) => Ok (Continue u)) tt HR) as (m & Hm & _).
    rewrite check_nodes_spec; rewrite (decoded_nodes_iter M m Hm); [|by apply (decoded_nodes_cells M)].
    rewrite label_node_events, !concat_nil; [done|..]; intros n _.
    + unfold label_events. by rewrite no_constraints_unique.
    + unfold node_breaches. cbn [in_focus]. case_match eqn:E; [|done].
      apply lookup_singleton_Some in E as [_ <-]. by apply no_constraints_node.
  - rewrite ER. cbn [map_err rbind].
    assert (exists p, label_prefix label = Ok p) as [p Hp] by (unfold label_prefix, node_label_prefix, encode_list_prefix; by eexists).
    rewrite Hp. cbn [rbind]. destruct (for_each_prefix s R M p (label_body p def) _ ([], []) HR (fun _ _ _ => eq_refl)) as (m & Hm & Hrun).
    rewrite Hrun by done. destruct (label_nodes M m label Hl HM Hm) as (p' & _ & Hp' & Hkeys).
    rewrite Hp in Hp'. apply Ok_inj in Hp' as <-.
    rewrite (label_body_fold M m label def p [] [] HM Hm Hkeys). cbn [rbind app].
    rewrite check_nodes_spec; rewrite (decoded_nodes_iter M m Hm); [|by apply (decoded_nodes_cells M)].
    rewrite label_node_events, <-streamed_groups. done.
Qed.
End store.

(** ** One write against the stored nodes *)

(** What a node adds to the group of a property and an encoded value. *)
Definition joins (pe : bytes * bytes) (n : bytes * (NodeKey * NodeRecord)) : option (bytes * NodeKey * Value) :=
  match properties n.2.2 !! pe.1 with
  | Some v => match encode_value v with Ok e => if bool_decide (e = pe.2) then Some (n.1, n.2.1, v) else None | Err _ => None end
  | None => None
  end.

Lemma joins_Some pe n x : joins pe n = Some x <->
  exists v, properties n.2.2 !! pe.1 = Some v /\ encode_value v = Ok pe.2 /\ x = (n.1, n.2.1, v).
Proof.
  unfold joins. split.
  - destruct (properties n.2.2 !! pe.1) as [v|]; [|done]. destruct (encode_value v) as [e|] eqn:E; [|done].
    case_bool_decide as He; [|done]. subst e. intros [= <-]. by exists v.
  - intros (v & -> & -> & ->). by rewrite bool_decide_true.
Qed.

Definition met (n : bytes * (NodeKey * NodeRecord)) (w : (bytes * bytes) * list (bytes * NodeKey * Value)) :=
  (w.1, w.2 ++ option_list (joins w.1 n)).

Lemma meet_wanted_spec kb key other known wanted :
  node_key_decode kb = Ok key -> cells_ok (properties other) -> (known = None \/ known = Some key) ->
  meet_wanted kb other known wanted = Ok (map (met (kb, (key, other))) wanted).
Proof.
  intros Hk Hc. revert known. induction wanted as [|[[p enc] ms] rest IH]; intros known Hknown; [done|]. cbn [meet_wanted map].
  unfold met at 1. cbn [fst snd]. unfold joins. cbn [fst snd]. destruct (properties other !! p) as [v|] eqn:Ev.
  - destruct (Hc p v Ev) as [_ [e He]]. rewrite He. cbn [map_err rbind]. case_bool_decide as Hd; cbn [negb].
    + assert (match known with Some k => Ok k | None => map_err GGraphKey (node_key_decode kb) end = Ok key) as ->
        by (destruct Hknown as [-> | ->]; [by rewrite Hk|done]).
      cbn [rbind]. rewrite IH by (by right). done.
    + rewrite IH by done. cbn [rbind option_list]. by rewrite app_nil_r.
  - rewrite IH by done. cbn [rbind option_list]. by rewrite app_nil_r.
Qed.

(** The other nodes of the label. *)
Definition other_nodes (l encoded : bytes) (nodes : list (bytes * (NodeKey * NodeRecord))) : list (bytes * (NodeKey * NodeRecord)) :=
  List.filter (fun n => bool_decide (label n.2.1 = l) && negb (bool_decide (n.1 = encoded))) nodes.

Definition met_all (nodes : list (bytes * (NodeKey * NodeRecord))) (w : (bytes * bytes) * list (bytes * NodeKey * Value)) :=
  (w.1, w.2 ++ omap (joins w.1) nodes).

Lemma met_all_cons n nodes w : met_all nodes (met n w) = met_all (n :: nodes) w.
Proof. unfold met_all, met. cbn [fst snd omap list_omap]. by destruct (joins w.1 n); cbn [option_list]; rewrite <-app_assoc. Qed.

Lemma met_all_nil wanted : map (met_all []) wanted = wanted.
Proof. rewrite <-(map_id wanted) at 2. apply map_ext. intros [pe ms]. unfold met_all. cbn. by rewrite app_nil_r. Qed.

Lemma upsert_body_fold M m l p encoded wanted :
  nodes_ok M -> entries_in M m -> (forall k v key record, (k, v) ∈ m -> node_of k v = Some (key, record) -> starts_with k p = true <-> label key = l) ->
  fold_flow (fun k v wanted =>
      if bool_decide (k = encoded) then Ok (Continue wanted)
      else
        let? other := map_err GRecordDecode (node_record_decode v) in
        let? wanted := meet_wanted k other None wanted in
        Ok (Continue wanted)) (under_prefix p m) wanted =
  Ok (map (met_all (other_nodes l encoded (decoded_nodes m))) wanted).
Proof.
  intros HM Hm Hp. assert (forall k v, (k, v) ∈ m -> M !! k = Some v) as Hin by (intros k v; apply (entries_in_lookup M m); done).
  clear Hm. revert wanted. induction m as [|[k v] m IH]; intros wanted; [by rewrite met_all_nil|].
  unfold under_prefix in *. rewrite filter_cons. cbn [fst].
  destruct (node_of_ok M k v HM (Hin k v ltac:(by left))) as (key & record & En & Ek & Er & Hc & _).
  specialize (IH (fun k' v' key' record' H => Hp k' v' key' record' ltac:(by right)) (fun k' v' H => Hin k' v' ltac:(by right))).
  specialize (Hp k v key record ltac:(by left) En).
  assert (node_entry (k, v) = Some (k, (key, record))) as Ee by (by apply node_entry_Some).
  unfold decoded_nodes, other_nodes in *. cbn [omap list_omap]. rewrite Ee. cbn [List.filter fst snd].
  destruct (decide (label key = l)) as [<-|Hl].
  - rewrite decide_True by tauto. rewrite (bool_decide_true (label key = label key)) by done. cbn [fold_flow].
    case_bool_decide as Hd; cbn [negb andb]; [cbn [rbind]; apply IH|]. rewrite Er. cbn [map_err rbind].
    rewrite (meet_wanted_spec k key) by auto. cbn [rbind]. rewrite IH, map_map. f_equal. apply map_ext. intros w. apply met_all_cons.
  - rewrite decide_False by tauto. by rewrite bool_decide_false.
Qed.

(** The groups the written record seeds. *)
Lemma insert_wanted_keys k wanted x : x ∈ map fst (insert_wanted k wanted) <-> x = k \/ x ∈ map fst wanted.
Proof.
  induction wanted as [|[k' ms] rest IH]; cbn [insert_wanted map fst]; [by rewrite elem_of_cons|].
  destruct (pair_cmp k k') eqn:E; cbn [map fst]; rewrite ?elem_of_cons; [apply pair_cmp_eq in E as ->; tauto|tauto|rewrite IH; tauto].
Qed.

Lemma insert_wanted_sorted k wanted :
  StronglySorted (klt pair_cmp) (map fst wanted) -> StronglySorted (klt pair_cmp) (map fst (insert_wanted k wanted)).
Proof.
  induction wanted as [|[k' ms] rest IH]; cbn [insert_wanted map fst]; intros Hs; [repeat constructor|].
  apply StronglySorted_inv in Hs as [Hs Hall]. destruct (pair_cmp k k') eqn:E; cbn [map fst].
  - by constructor.
  - constructor; [by constructor|]. constructor; [done|]. eapply Forall_impl; [exact Hall|]. intros x. by apply pair_cmp_trans.
  - constructor; [by apply IH|]. apply Forall_forall. intros x Hx. apply insert_wanted_keys in Hx as [->|Hx].
    + unfold klt. by rewrite pair_cmp_sym, E.
    + rewrite Forall_forall in Hall. by apply Hall.
Qed.

Definition seeded (record : NodeRecord) (ps : list bytes) (pe : bytes * bytes) : Prop :=
  exists v, pe.1 ∈ ps /\ properties record !! pe.1 = Some v /\ encode_value v = Ok pe.2.

Lemma insert_wanted_empty k wanted : Forall (fun w => w.2 = []) wanted -> Forall (fun w => w.2 = []) (insert_wanted k wanted).
Proof. induction 1 as [|[k' ms] rest]; cbn [insert_wanted]; [by repeat constructor|]. case_match; by repeat constructor. Qed.

Lemma seed_wanted_spec record ps wanted :
  cells_ok (properties record) -> StronglySorted (klt pair_cmp) (map fst wanted) -> Forall (fun w => w.2 = []) wanted ->
  exists W, seed_wanted record ps wanted = Ok W /\ StronglySorted (klt pair_cmp) (map fst W) /\ Forall (fun w => w.2 = []) W /\
    forall pe, pe ∈ map fst W <-> seeded record ps pe \/ pe ∈ map fst wanted.
Proof.
  intros Hc. revert wanted. induction ps as [|p ps IH]; intros wanted Hs He; cbn [seed_wanted].
  - exists wanted. split_and!; try done. intros pe. split; [by right|]. intros [(v & H & _)|H]; [by apply elem_of_nil in H|done].
  - destruct (properties record !! p) as [v|] eqn:Ev.
    + destruct (Hc p v Ev) as [_ [e Hve]]. rewrite Hve. cbn [map_err rbind].
      destruct (IH (insert_wanted (p, e) wanted)) as (W & HW & H1 & H2 & H3);
        [by apply insert_wanted_sorted|by apply insert_wanted_empty|].
      exists W. split_and!; try done. intros pe. rewrite H3, insert_wanted_keys. unfold seeded. split.
      * intros [(v' & H & H')|[->|H]]; [left; exists v'; split; [by right|done]|left; exists v; split; [by left|done]|by right].
      * intros [(v' & H & Hv' & He')|H]; [|by right; right]. apply elem_of_cons in H as [H|H]; [|left; by exists v'].
        right. left. destruct pe as [p' e']. cbn [fst snd] in *. subst p'. congruence.
    + destruct (IH wanted Hs He) as (W & HW & H1 & H2 & H3). exists W. split_and!; try done. intros pe. rewrite H3. unfold seeded. split.
      * intros [(v' & H & H')|H]; [left; exists v'; split; [by right|done]|by right].
      * intros [(v' & H & Hv' & He')|H]; [|by right]. apply elem_of_cons in H as [H|H]; [congruence|]. left. by exists v'.
Qed.

(** The written node joins a group at its key's position. *)
Lemma insert_member_elem encoded x ms y : y ∈ insert_member encoded x ms <-> y = x \/ y ∈ ms.
Proof.
  induction ms as [|z ms IH]; cbn [insert_member]; [by rewrite elem_of_cons|]. case_match; rewrite !elem_of_cons; [rewrite IH; tauto|done].
Qed.

Lemma insert_member_sorted (x : bytes * NodeKey * Value) ms :
  StronglySorted bytes_lt (map (fun y => y.1.1) ms) -> x.1.1 ∉ map (fun y => y.1.1) ms ->
  StronglySorted bytes_lt (map (fun y => y.1.1) (insert_member x.1.1 x ms)).
Proof.
  induction ms as [|z ms IH]; cbn [insert_member map]; intros Hs Hx; [repeat constructor|].
  apply not_elem_of_cons in Hx as [Hne Hx]. pose proof Hs as Hs'. apply StronglySorted_inv in Hs' as [Hs' Hall].
  destruct (bytes_ltb z.1.1 x.1.1) eqn:E.
  - cbn [map]. constructor; [by apply IH|]. apply Forall_forall. intros k Hk. apply list_elem_of_fmap in Hk as (y & -> & Hy).
    apply insert_member_elem in Hy as [->|Hy]; [by apply bytes_ltb_lt|]. rewrite Forall_forall in Hall. apply Hall.
    by apply (list_elem_of_fmap_2 (fun y => y.1.1)).
  - cbn [map]. assert (bytes_lt x.1.1 z.1.1) as Hlt
      by (apply bytes_ltb_ge, bytes_le_lteq in E as [E|E]; done).
    constructor; [done|]. constructor; [done|]. eapply Forall_impl; [exact Hall|]. intros y. by apply transitivity.
Qed.

(** What a node adds to the group of a label, a property and a value. *)
Lemma matching_unique (l l' : bytes) pe mem record ps :
  NoDup ps ->
  matching triple_cmp (unique_events (fun p e => (l', (p, e))) mem record ps) (l, pe) =
  if bool_decide (l' = l) && bool_decide (pe.1 ∈ ps)
  then map (fun x => (x.2, mem)) (option_list (joins pe (mem.1, (mem.2, record)))) else [].
Proof.
  destruct pe as [p enc]. cbn [fst]. induction ps as [|q ps IH]; intros Hn.
  { rewrite (bool_decide_false (p ∈ [])) by apply not_elem_of_nil. by rewrite andb_false_r. }
  apply NoDup_cons in Hn as [Hq Hn]. specialize (IH Hn). unfold unique_events, matching in *. cbn [omap list_omap].
  destruct (decide (q = p)) as [->|Hne].
  - rewrite (bool_decide_false (p ∈ ps)) in IH by done. rewrite andb_false_r in IH. unfold joins. cbn [fst snd].
    rewrite (bool_decide_true (p ∈ p :: ps)) by (by left). rewrite andb_true_r.
    destruct (properties record !! p) as [v|]; [|by rewrite IH; case_bool_decide].
    destruct (encode_value v) as [e|]; [|by rewrite IH; case_bool_decide]. cbn [omap list_omap fst snd].
    destruct (triple_cmp (l, (p, enc)) (l', (p, e))) eqn:E.
    + apply triple_cmp_eq in E as [= <- <-]. rewrite !bool_decide_true by done. cbn [option_list map]. f_equal. exact IH.
    + assert (l' = l /\ e = enc -> False) as Hne by (intros [-> ->]; by rewrite (proj2 (triple_cmp_eq _ _) eq_refl) in E).
      rewrite IH. case_bool_decide; [|done]. by rewrite bool_decide_false by tauto.
    + assert (l' = l /\ e = enc -> False) as Hne by (intros [-> ->]; by rewrite (proj2 (triple_cmp_eq _ _) eq_refl) in E).
      rewrite IH. case_bool_decide; [|done]. by rewrite bool_decide_false by tauto.
  - rewrite (bool_decide_ext (p ∈ q :: ps) (p ∈ ps)) by (rewrite elem_of_cons; naive_solver).
    destruct (properties record !! q) as [v|]; [|exact IH]. destruct (encode_value v) as [e|]; [|exact IH]. cbn [omap list_omap fst snd].
    assert (triple_cmp (l, (p, enc)) (l', (q, e)) <> Eq) as Hc by (intros E; apply triple_cmp_eq in E; congruence).
    destruct (triple_cmp (l, (p, enc)) (l', (q, e))); [done|exact IH..].
Qed.

Definition same_label (l : bytes) (nodes : list (bytes * (NodeKey * NodeRecord))) : list (bytes * (NodeKey * NodeRecord)) :=
  List.filter (fun n => bool_decide (label n.2.1 = l)) nodes.

Lemma matching_nodes (labels : gmap bytes LabelDef) l def pe nodes :
  labels !! l = Some def -> NoDup (lunique def) -> pe.1 ∈ lunique def ->
  matching triple_cmp (concat (map (node_events labels) nodes)) (l, pe) =
  map (fun x => (x.2, x.1)) (omap (joins pe) (same_label l nodes)).
Proof.
  intros Hl Hn Hp. induction nodes as [|[kb [key record]] nodes IH]; [done|]. cbn [map concat]. rewrite matching_app, IH.
  unfold same_label. cbn [List.filter fst snd]. unfold node_events at 1. cbn [fst snd]. destruct (decide (label key = l)) as [<-|Hne].
  - rewrite (bool_decide_true (label key = label key)) by done. rewrite Hl, matching_unique by done.
    rewrite !bool_decide_true by done. cbn [omap list_omap fst snd]. destruct (joins pe (kb, (key, record))) as [x|] eqn:Ej; [|done].
    apply joins_Some in Ej as (v & _ & _ & ->). done.
  - rewrite (bool_decide_false (label key = l)) by done. unfold matching at 1.
    replace (omap _ _) with (@nil (Value * (bytes * NodeKey))); [done|]. symmetry.
    destruct (labels !! label key) as [d|]; [|done]. apply omap_none. intros [[l' [p e]] [v mem]] Hin.
    apply list_elem_of_omap in Hin as (q & _ & Hq). destruct (properties record !! q); [|done]. destruct (encode_value _) as [b|]; [|done].
    injection Hq as <- <- <- <- <-. cbn [fst snd]. destruct pe as [p0 e0].
    destruct (triple_cmp (l, (p0, e0)) (label key, (q, b))) eqn:E; [|done..]. apply triple_cmp_eq in E. congruence.
Qed.

#[local] Instance klt_pair_strict : StrictOrder (klt pair_cmp).
Proof. split; [intros a H; unfold klt in H; by rewrite (proj2 (pair_cmp_eq a a) eq_refl) in H|exact pair_cmp_trans]. Qed.
#[local] Instance klt_triple_strict : StrictOrder (klt triple_cmp).
Proof. split; [intros a H; unfold klt in H; by rewrite (proj2 (triple_cmp_eq a a) eq_refl) in H|exact triple_cmp_trans]. Qed.

Section upsert.
Context (N : NodeSet) (labels : gmap bytes LabelDef) (key : NodeKey) (record : NodeRecord) (encoded : bytes).
Context (Hrec : cells_ok (properties record)).
Context (Hcells : with_cells (btree_iter N)).

(** The node set after the write. *)
Definition written_set : NodeSet := <[encoded := (key, record)]> N.
#[local] Abbreviation written_nodes := (btree_iter written_set).
#[local] Abbreviation written := (encoded, (key, record)).

Lemma written_elem kb n : (kb, n) ∈ written_nodes <-> (kb = encoded /\ n = (key, record)) \/ (kb <> encoded /\ (kb, n) ∈ btree_iter N).
Proof.
  rewrite !btree_iter_elem. unfold written_set. rewrite lookup_insert_Some. split; [intros [[<- <-]|[? ?]]|intros [[-> ->]|[? ?]]]; auto.
Qed.

Lemma written_cells : with_cells written_nodes.
Proof.
  apply Forall_forall. intros [kb n] Hin. apply written_elem in Hin as [[-> ->]|[_ Hin]]; [done|].
  unfold with_cells in Hcells. rewrite Forall_forall in Hcells. by apply (Hcells _ Hin).
Qed.

Lemma joins_position pe n x : joins pe n = Some x -> x.1.1 = n.1.
Proof. intros H. by apply joins_Some in H as (v & _ & _ & ->). Qed.

Lemma filter_keys {A : Type} (f : A -> bool) (k : A -> bytes) l :
  StronglySorted bytes_lt (map k l) -> StronglySorted bytes_lt (map k (List.filter f l)).
Proof.
  induction l as [|a l IH]; cbn [map List.filter]; intros Hs; [done|]. apply StronglySorted_inv in Hs as [Hs Hall].
  destruct (f a); [|by apply IH]. cbn [map]. constructor; [by apply IH|]. apply Forall_forall. intros x Hx.
  apply list_elem_of_fmap in Hx as (y & -> & Hy). apply list_elem_of_In, filter_In in Hy as [Hy _].
  rewrite Forall_forall in Hall. apply Hall. by apply list_elem_of_fmap_2, list_elem_of_In.
Qed.

(** The members of a seeded group: the others that share the value, and the
    written node at its position. *)
Lemma joined_members pe v :
  properties record !! pe.1 = Some v -> encode_value v = Ok pe.2 ->
  omap (joins pe) (same_label (label key) written_nodes) =
  insert_member encoded (encoded, key, v) (omap (joins pe) (other_nodes (label key) encoded (btree_iter N))).
Proof.
  intros Hv He. apply (sorted_ext bytes_lt (fun y => y.1.1)).
  - apply (omap_keys (joins pe) fst (fun y => y.1.1)); [by apply joins_position|]. apply filter_keys, btree_iter_keys.
  - apply (insert_member_sorted (encoded, key, v)).
    + apply (omap_keys (joins pe) fst (fun y => y.1.1)); [by apply joins_position|]. apply filter_keys, btree_iter_keys.
    + cbn [fst]. intros Hin. apply list_elem_of_fmap in Hin as (y & Ey & Hy). apply list_elem_of_omap in Hy as (n & Hn' & Hj).
      apply joins_position in Hj. apply list_elem_of_In, filter_In in Hn' as [_ Hn']. apply andb_prop in Hn' as [_ Hn'].
      apply negb_true_iff, bool_decide_eq_false in Hn'. congruence.
  - intros x. rewrite insert_member_elem, !list_elem_of_omap. split.
    + intros ([kb n] & Hin & Hj). apply list_elem_of_In, filter_In in Hin as [Hin Hlab]. apply list_elem_of_In, written_elem in Hin.
      destruct Hin as [[-> ->]|[Hne Hin]].
      * left. apply joins_Some in Hj as (v' & Hv' & _ & ->). cbn [fst snd] in *. congruence.
      * right. exists (kb, n). split; [|done]. apply list_elem_of_In, filter_In. split; [by apply list_elem_of_In|].
        cbn [fst snd] in *. by rewrite Hlab, bool_decide_false.
    + intros [->|([kb n] & Hin & Hj)].
      * exists written. split; [|apply joins_Some; by exists v]. apply list_elem_of_In, filter_In. split.
        -- apply list_elem_of_In, written_elem. by left.
        -- cbn [fst snd]. by rewrite bool_decide_true.
      * exists (kb, n). split; [|done]. apply list_elem_of_In, filter_In in Hin as [Hin Hb]. apply andb_prop in Hb as [Hlab Hne].
        apply list_elem_of_In, filter_In. split; [|done]. apply list_elem_of_In, written_elem. right.
        apply negb_true_iff, bool_decide_eq_false in Hne. split; [done|]. by apply list_elem_of_In.
Qed.

#[local] Abbreviation others := (other_nodes (label key) encoded (btree_iter N)).
#[local] Abbreviation final_groups := (group_events triple_cmp (concat (map (node_events labels) written_nodes))).

Definition involves (g : (bytes * (bytes * bytes)) * (Value * list (bytes * NodeKey))) : bool :=
  negb ((length g.2.2 <? 2) || negb (existsb (fun m => in_focus (Some {[encoded]}) m.1) g.2.2)).
Definition unique_of (g : (bytes * (bytes * bytes)) * (Value * list (bytes * NodeKey))) : ConstraintViolation :=
  CUnique g.1.1 g.1.2.1 g.2.1 (map snd g.2.2).

Lemma unique_violations_map groups :
  omap (unique_violation (Some {[encoded]})) groups = map unique_of (List.filter involves groups).
Proof.
  induction groups as [|[[l [p e]] [v ms]] groups IH]; [done|]. cbn [omap list_omap List.filter] in *. unfold unique_violation at 1.
  unfold involves at 1. cbn [fst snd]. destruct ((length ms <? 2) || _); cbn [negb map]; [exact IH|]. f_equal. exact IH.
Qed.

Lemma involves_spec g : involves g = true <-> 2 <= length g.2.2 /\ exists k, (encoded, k) ∈ g.2.2.
Proof.
  unfold involves. rewrite negb_true_iff, orb_false_iff, Nat.ltb_ge, negb_false_iff, existsb_exists. apply and_iff_compat_l. split.
  - intros ([kb k] & Hin & Hf). cbn [in_focus fst] in Hf. apply bool_decide_eq_true, elem_of_singleton in Hf as ->.
    exists k. by apply list_elem_of_In.
  - intros (k & Hin). exists (encoded, k). split; [by apply list_elem_of_In|]. cbn [in_focus fst]. apply bool_decide_eq_true. set_solver.
Qed.

(** A group that involves the written node is one it seeds. *)
Lemma involved_seeded k v ms :
  (k, (v, ms)) ∈ final_groups -> (exists k', (encoded, k') ∈ ms) -> k.1 = label key /\ exists d, labels !! label key = Some d /\ seeded record (lunique d) k.2.
Proof.
  intros Hin [k' Hk']. apply (group_events_spec triple_cmp triple_cmp_eq triple_cmp_sym triple_cmp_trans) in Hin as (m & rest & Em & ->).
  assert (exists w, (w, (encoded, k')) ∈ matching triple_cmp (concat (map (node_events labels) written_nodes)) k) as [w Hw].
  { rewrite Em. apply elem_of_cons in Hk' as [->|H]; [exists v; by left|]. apply list_elem_of_fmap in H as ([w m'] & Hm' & H).
    cbn [snd] in Hm'. subst m'. exists w. by right. }
  apply list_elem_of_omap in Hw as ([k0 [w0 m0]] & Hev & Hk0). cbn [fst snd] in Hk0. destruct (triple_cmp k k0) eqn:E; [|done..].
  apply triple_cmp_eq in E as <-. injection Hk0 as -> ->. apply list_elem_of_In, in_concat in Hev as (evs & Hevs & Hev).
  apply in_map_iff in Hevs as ([kb n] & <- & Hn'). apply list_elem_of_In, written_elem in Hn'. apply list_elem_of_In in Hev.
  unfold node_events in Hev. cbn [fst snd] in Hev. destruct (labels !! label n.1) as [d|] eqn:Ed; [|by apply elem_of_nil in Hev].
  apply list_elem_of_omap in Hev as (p & Hp & Hj). destruct (properties n.2 !! p) as [u|] eqn:Eu; [|done].
  destruct (encode_value u) as [e|] eqn:Ee; [|done]. injection Hj as <- _ Ekb _.
  destruct Hn' as [[_ ->]|[Hne _]]; [|done]. cbn [fst snd] in *. split; [done|]. exists d. split; [done|]. by exists u.
Qed.

Lemma check_unknown : labels !! label key = None -> check_nodes labels written_set (Some {[encoded]}) = Ok [].
Proof.
  intros Hno. rewrite check_nodes_spec by apply written_cells. rewrite unique_violations_map, concat_nil.
  - destruct (List.filter involves final_groups) as [|[k [v ms]] gs] eqn:E; [done|].
    assert ((k, (v, ms)) ∈ List.filter involves final_groups) as Hin by (rewrite E; by left).
    apply list_elem_of_In, filter_In in Hin as [Hin Hi]. apply list_elem_of_In in Hin. apply involves_spec in Hi as [_ Hi].
    apply involved_seeded in Hin as [_ (d & Hd & _)]; [congruence|exact Hi].
  - intros [kb n] Hx. unfold node_breaches. cbn [in_focus fst snd]. case_bool_decide as Hf; [|done]. apply elem_of_singleton in Hf as ->.
    apply written_elem in Hx as [[_ ->]|[? _]]; [|done]. cbn [fst]. by rewrite Hno.
Qed.

Context (def : LabelDef) (Hdef : labels !! label key = Some def) (Hn : NoDup (lunique def)).

(** The group of a wanted entry, when others met it. *)
Definition wanted_group (w : (bytes * bytes) * list (bytes * NodeKey * Value))
    : option ((bytes * (bytes * bytes)) * (Value * list (bytes * NodeKey))) :=
  match w.2, properties record !! w.1.1 with
  | _ :: _, Some v =>
    match insert_member encoded (encoded, key, v) w.2 with
    | m :: rest => Some ((label key, w.1), (m.2, map fst (m :: rest)))
    | [] => None
    end
  | _, _ => None
  end.

Lemma group_members pe v0 v ms :
  properties record !! pe.1 = Some v0 -> encode_value v0 = Ok pe.2 -> pe.1 ∈ lunique def ->
  ((label key, pe), (v, ms)) ∈ final_groups <->
  exists m rest, insert_member encoded (encoded, key, v0) (omap (joins pe) others) = m :: rest /\ v = m.2 /\ ms = map fst (m :: rest).
Proof.
  intros Hv He Hp. destruct (group_events_spec triple_cmp triple_cmp_eq triple_cmp_sym triple_cmp_trans
    (concat (map (node_events labels) written_nodes))) as [_ Hg].
  rewrite Hg, (matching_nodes labels (label key) def) by done. rewrite (joined_members pe v0) by done.
  destruct (insert_member _ _ _) as [|m rest]; cbn [map].
  - split; [by intros (? & ? & ? & _)|by intros (? & ? & ? & _)].
  - split.
    + intros (m' & rest' & [= <- <- <-] & ->). exists m, rest. split_and!; [done..|]. cbn [map]. f_equal. rewrite map_map. done.
    + intros (m' & rest' & [= <- <-] & -> & ->). eexists _, _. split; [done|]. cbn [map]. f_equal. rewrite map_map. done.
Qed.

Lemma wanted_groups W :
  StronglySorted (klt pair_cmp) (map fst W) -> Forall (fun w => w.2 = []) W ->
  (forall pe, pe ∈ map fst W <-> seeded record (lunique def) pe) ->
  List.filter involves final_groups = omap wanted_group (map (met_all others) W).
Proof.
  intros Hs He Hk. apply (sorted_ext (klt triple_cmp) fst).
  - pose proof (proj1 (group_events_spec triple_cmp triple_cmp_eq triple_cmp_sym triple_cmp_trans
      (concat (map (node_events labels) written_nodes)))) as Hg. revert Hg. generalize final_groups. intros gs.
    induction gs as [|g gs IH]; cbn [map List.filter]; intros Hg; [done|]. apply StronglySorted_inv in Hg as [Hg Hall].
    destruct (involves g); [|by apply IH]. cbn [map]. constructor; [by apply IH|]. apply Forall_forall. intros x Hx.
    apply list_elem_of_fmap in Hx as (y & -> & Hy). apply list_elem_of_In, filter_In in Hy as [Hy _].
    rewrite Forall_forall in Hall. apply Hall. by apply list_elem_of_fmap_2, list_elem_of_In.
  - apply (omap_keys wanted_group (fun w => (label key, w.1)) fst).
    { intros [pe ms] g. unfold wanted_group. cbn [fst snd]. destruct ms; [done|]. destruct (properties record !! pe.1); [|done].
      destruct (insert_member _ _ _); [done|]. by intros [= <-]. }
    rewrite map_map. unfold met_all. cbn [fst]. clear He Hk. induction W as [|w W IH]; cbn [map] in *; [constructor|].
    apply StronglySorted_inv in Hs as [Hs Hall]. constructor; [by apply IH|]. rewrite Forall_map in Hall. apply Forall_map.
    eapply Forall_impl; [exact Hall|]. intros w'. cbn beta. unfold klt. by rewrite pair_tag_cmp.
  - intros [k [v ms]]. rewrite list_elem_of_In, filter_In, <-list_elem_of_In, list_elem_of_omap. split.
    + intros [Hin Hi]. apply involves_spec in Hi as [Hlen Hi]. cbn [fst snd] in Hlen, Hi.
      destruct (involved_seeded k v ms Hin Hi) as [Hl (d & Hd & v0 & Hp & Hv & Hve)]. rewrite Hdef in Hd. injection Hd as <-. destruct k as [l pe]. cbn [fst snd] in *. subst l.
      apply (group_members pe v0) in Hin as (m & rest & Hm & -> & ->); [|done..].
      exists (pe, omap (joins pe) others). split.
      * assert (pe ∈ map fst W) as Hpe by (apply Hk; by exists v0). apply list_elem_of_fmap in Hpe as ([pe' ms] & -> & Hw).
        apply list_elem_of_fmap. exists (pe', ms). split; [|done]. rewrite Forall_forall in He. specialize (He _ Hw). cbn [snd] in He.
        subst ms. done.
      * unfold wanted_group. cbn [fst snd]. rewrite Hv, Hm. destruct (omap (joins pe) others); [|done].
        cbn [insert_member] in Hm. injection Hm as <- <-. cbn in Hlen. lia.
    + intros ([pe ms'] & Hw & Hg). apply list_elem_of_fmap in Hw as ([pe' ms0] & [= -> ->] & Hw).
      assert (seeded record (lunique def) pe') as (v0 & Hp & Hv & Hve) by (apply Hk; by apply (list_elem_of_fmap_2 fst) in Hw).
      rewrite Forall_forall in He. specialize (He _ Hw). cbn [fst snd] in *. subst ms0.
      unfold wanted_group in Hg. cbn [fst snd app] in Hg. rewrite Hv in Hg.
      destruct (omap (joins pe') others) as [|y ys] eqn:Eo; [done|].
      destruct (insert_member encoded (encoded, key, v0) (y :: ys)) as [|m rest] eqn:Em; [done|]. injection Hg as <- <- <-. split.
      * apply (group_members pe' v0); [done..|]. exists m, rest. by rewrite Eo.
      * apply involves_spec. cbn [fst snd]. split.
        -- destruct rest; [|cbn; lia]. cbn [insert_member] in Em. destruct (bytes_ltb y.1.1 encoded); [|done].
           injection Em as -> Em. by destruct ys as [|z ys]; [|cbn in Em; destruct (bytes_ltb z.1.1 encoded)].
        -- exists key. change (m.1 :: map fst rest) with (map fst (m :: rest)). rewrite <-Em. apply (list_elem_of_fmap_2 fst _ (encoded, key, v0)).
           apply insert_member_elem. by left.
Qed.

(** What the check of one write makes of the met entries. *)
Lemma upsert_unique_spec w :
  is_Some (properties record !! w.1.1) ->
  upsert_unique key record encoded w = Ok (option_list (option_map unique_of (wanted_group w))).
Proof.
  destruct w as [[p e] ms]. cbn [fst]. intros [v Hv]. unfold upsert_unique, wanted_group. cbn [fst snd]. rewrite Hv.
  destruct ms as [|m ms]; [done|]. destruct (insert_member encoded (encoded, key, v) (m :: ms)) as [|x rest] eqn:E.
  - cbn [insert_member] in E. by destruct (bytes_ltb m.1.1 encoded).
  - cbn [option_map option_list]. unfold unique_of. cbn [fst snd map]. by rewrite map_map.
Qed.

Lemma concat_results_spec {A B : Type} (f : A -> result GraphError (list B)) (g : A -> option B) l :
  (forall x, x ∈ l -> f x = Ok (option_list (g x))) -> concat_results f l = Ok (omap g l).
Proof.
  induction l as [|x l IH]; intros H; [done|]. cbn [concat_results omap list_omap]. rewrite (H x) by (by left). cbn [rbind].
  rewrite IH by (intros y Hy; apply H; by right). cbn [rbind]. by destruct (g x).
Qed.

(** Only the written node's own breaches are in focus. *)
Lemma focused_breaches :
  concat (map (node_breaches labels (Some {[encoded]})) written_nodes) = node_violations key record def.
Proof.
  assert (written ∈ written_nodes) as Hin by (apply written_elem; by left).
  pose proof (btree_iter_keys written_set) as Hs. apply list_elem_of_split in Hin as (l1 & l2 & E). rewrite E in Hs |- *.
  rewrite map_app in Hs. apply StronglySorted_app in Hs as (Hb & _ & Hs). cbn [map fst] in Hs, Hb.
  apply StronglySorted_inv in Hs as [_ Hall]. rewrite map_app, concat_app. cbn [map concat].
  rewrite (concat_nil _ l1), (concat_nil _ l2).
  - cbn [app]. rewrite app_nil_r. unfold node_breaches. cbn [fst snd in_focus]. rewrite bool_decide_true by set_solver. by rewrite Hdef.
  - intros x Hx. unfold node_breaches. cbn [in_focus]. rewrite bool_decide_false; [done|]. intros Hf%elem_of_singleton.
    rewrite Forall_forall in Hall. apply (list_elem_of_fmap_2 fst) in Hx. rewrite Hf in Hx. by apply Hall, bytes_lt_ne in Hx.
  - intros x Hx. unfold node_breaches. cbn [in_focus]. rewrite bool_decide_false; [done|]. intros Hf%elem_of_singleton.
    apply (list_elem_of_fmap_2 fst) in Hx. rewrite Hf in Hx. specialize (Hb _ encoded Hx ltac:(by left)). by apply bytes_lt_ne in Hb.
Qed.

Lemma check_written W :
  StronglySorted (klt pair_cmp) (map fst W) -> Forall (fun w => w.2 = []) W ->
  (forall pe, pe ∈ map fst W <-> seeded record (lunique def) pe) ->
  check_nodes labels written_set (Some {[encoded]}) =
    let? unique := concat_results (upsert_unique key record encoded) (map (met_all others) W) in
    Ok (node_violations key record def ++ unique).
Proof.
  intros Hs He Hk. rewrite check_nodes_spec by apply written_cells. rewrite focused_breaches, unique_violations_map, (wanted_groups W) by done.
  rewrite (concat_results_spec _ (fun w => option_map unique_of (wanted_group w))).
  - cbn [rbind]. f_equal. f_equal. induction (map (met_all others) W) as [|w l IH]; [done|]. cbn [omap list_omap] in *.
    destruct (wanted_group w); cbn [option_map map]; [|exact IH]. f_equal. exact IH.
  - intros w Hw. apply upsert_unique_spec. apply list_elem_of_fmap in Hw as (w' & -> & Hw). unfold met_all. cbn [fst].
    apply (list_elem_of_fmap_2 fst) in Hw. apply Hk in Hw as (v & _ & Hv & _). by exists v.
Qed.

End upsert.

(** The label definitions of a schema map. *)
Definition schema_map_ok (SM : gmap bytes bytes) : Prop :=
  map_Forall (fun k v => kv_ok (k, v) = true /\ exists e, schema_decode k v = Ok e) SM.
Definition labels_of (SM : gmap bytes bytes) (labels : gmap bytes LabelDef) : Prop :=
  forall l def, labels !! l = Some def <-> exists k v, SM !! k = Some v /\ schema_decode k v = Ok (LabelEntry l def).

Lemma labels_of_nodup SM labels l def : schema_map_ok SM -> labels_of SM labels -> labels !! l = Some def -> NoDup (lunique def).
Proof.
  intros HS HL H. apply HL in H as (k & v & Hk & Hd). destruct (HS k v Hk) as [Hkv _]. apply andb_prop in Hkv as [Hkl Hvl].
  cbn [fst snd] in Hkl, Hvl. apply key_bound in Hkl, Hvl. apply (schema_decode_iff k v) in Hd; [|done..].
  destruct Hd as ((_ & _ & _ & _ & _ & _ & _ & _ & Hs) & _ & _). specialize (Hs eq_refl).
  clear -Hs. induction Hs as [|x l Hs IH Hall]; [constructor|]. constructor; [|done]. intros Hin.
  rewrite Forall_forall in Hall. by apply (irreflexivity canonical_lt x), Hall.
Qed.

Lemma find_label_spec l entries :
  match find_label l entries with
  | Some def => LabelEntry l def ∈ entries
  | None => forall def, LabelEntry l def ∉ entries
  end.
Proof.
  induction entries as [|e entries IH]; [intros def; apply not_elem_of_nil|].
  assert ((forall def, e <> LabelEntry l def) ->
    match find_label l entries with Some def => LabelEntry l def ∈ e :: entries | None => forall def, LabelEntry l def ∉ e :: entries end) as Hskip.
  { intros Hne. destruct (find_label l entries) as [def|]; [by right|]. intros def. rewrite not_elem_of_cons.
    split; [intros H; by apply (Hne def)|apply IH]. }
  destruct e as [name def|name def|name def]; cbn [find_label]; [|by apply Hskip..].
  case_bool_decide as E; [subst name; by left|]. apply Hskip. congruence.
Qed.

Section store.
Context {S : Type} {CS : ChunkStore S} {CSL : ChunkStoreLaws S}.

Lemma schema_entries_spec (s : S) R SM fuel :
  describes s R SM -> schema_map_ok SM -> size SM < fuel ->
  exists entries, schema_entries fuel s R = Ok entries /\
    forall e, e ∈ entries <-> exists k v, SM !! k = Some v /\ schema_decode k v = Ok e.
Proof.
  intros HR HS Hf. destruct (for_each_spec s R SM entry_body [] HR) as (m & Hm & Hrun).
  set (g := fun e : bytes * bytes => match schema_decode e.1 e.2 with Ok x => [x] | Err _ => [] end).
  exists (concat (map g m)). unfold schema_entries. rewrite Hrun by done. split.
  - rewrite (fold_flow_collect entry_body g); [done|]. apply Forall_forall. intros [k v] Hin acc. apply (entries_in_lookup SM m) in Hin; [|done].
    destruct (HS k v Hin) as (_ & e & He). unfold entry_body, g. cbn [fst snd]. by rewrite He.
  - intros e. rewrite list_elem_of_In, in_concat. split.
    + intros (l & Hl & He). apply in_map_iff in Hl as ([k v] & <- & Hin). unfold g in He. cbn [fst snd] in He.
      exists k, v. apply list_elem_of_In, (entries_in_lookup SM m) in Hin; [|done]. split; [done|].
      destruct (schema_decode k v); [|done]. destruct He as [->|[]]. done.
    + intros (k & v & Hk & He). exists [e]. split; [|by left]. apply in_map_iff. exists (k, v). unfold g. cbn [fst snd]. rewrite He.
      split; [done|]. apply list_elem_of_In. by apply (entries_in_lookup SM m).
Qed.

Lemma scanned_wanted (s : S) M p R fuel l encoded wanted m :
  nodes_ok M -> entries_in M m -> (forall k v key record, (k, v) ∈ m -> node_of k v = Some (key, record) -> starts_with k p = true <-> label key = l) ->
  for_each fuel s R (Included p) Unbounded (upsert_body p encoded) wanted =
    fold_flow (fun k v wanted =>
      if bool_decide (k = encoded) then Ok (Continue wanted)
      else
        let? other := map_err GRecordDecode (node_record_decode v) in
        let? wanted := meet_wanted k other None wanted in
        Ok (Continue wanted)) (under_prefix p m) wanted ->
  for_each fuel s R (Included p) Unbounded (upsert_body p encoded) wanted =
    Ok (map (met_all (other_nodes l encoded (btree_iter (node_set M)))) wanted).
Proof. intros HM Hm Hp ->. rewrite (decoded_nodes_iter M m Hm). by apply (upsert_body_fold M). Qed.

(** C32: The check of one write gives the violations, in their order, that
    checking the node set after the write gives with the written node as the
    focus, though it only decodes the nodes of one label. *)
Theorem check_upsert_spec (s : S) manifest M SM labels key record encoded fuel :
  map_at s (chunk_params manifest) (m_nodes manifest) M -> nodes_ok M ->
  map_at s (chunk_params manifest) (m_schema manifest) SM -> schema_map_ok SM -> labels_of SM labels ->
  node_key_ok key -> node_key_encode key = Ok encoded -> cells_ok (properties record) ->
  size M < fuel -> size SM < fuel ->
  check_upsert fuel s manifest key record =
    check_nodes labels (<[encoded := (key, record)]> (node_set M)) (Some {[encoded]}).
Proof.
  intros (R & ER & HR) HM (RS & ERS & HRS) HS HL Hkey Henc Hrec Hf Hfs. fold (written_set (node_set M) key record encoded).
  unfold check_upsert. rewrite ERS. cbn [map_err rbind].
  destruct (schema_entries_spec s RS SM fuel HRS HS Hfs) as (entries & -> & Hentries). cbn [rbind].
  assert (forall def, labels !! label key = Some def <-> LabelEntry (label key) def ∈ entries) as Hdef
    by (intros def; rewrite Hentries; apply HL).
  assert (Hlab : str_ok (label key) = true).
  { destruct Hkey as [_ Hv]. unfold to_value in Hv. apply value_ok_list in Hv as [_ Hv]. by apply Forall_cons_1 in Hv as [Hv _]. }
  pose proof (find_label_spec (label key) entries) as Hfind.
  destruct (for_each_spec s R M (fun _ _ (u : unit) => Ok (Continue u)) tt HR) as (m0 & Hm0 & _).
  assert (with_cells (btree_iter (node_set M))) as Hcells by (rewrite (decoded_nodes_iter M m0 Hm0); by apply (decoded_nodes_cells M)).
  destruct (find_label (label key) entries) as [def|].
  2: { symmetry. apply check_unknown; [done..|]. apply eq_None_not_Some. intros [d Hd]. by apply Hdef, Hfind in Hd. }
  apply Hdef in Hfind. pose proof (labels_of_nodup SM labels (label key) def HS HL Hfind) as Hn.
  destruct (no_constraints def) eqn:En.
  - rewrite (check_written (node_set M) labels key record encoded Hrec Hcells def Hfind Hn []); [|constructor..|].
    + cbn [map concat_results rbind]. by rewrite no_constraints_node.
    + intros pe. rewrite no_constraints_unique by done. split; [intros H; by apply elem_of_nil in H|].
      intros (v & H & _). by apply elem_of_nil in H.
  - rewrite Henc. cbn [map_err rbind].
    destruct (seed_wanted_spec record (lunique def) [] Hrec) as (W & HW & Hs & He & Hk); [constructor..|]. rewrite HW. cbn [rbind].
    rewrite (check_written (node_set M) labels key record encoded Hrec Hcells def Hfind Hn W Hs He).
    2: { intros pe. rewrite Hk. split; [intros [H|H]; [done|by apply elem_of_nil in H]|by left]. }
    destruct W as [|w W]; [done|]. rewrite ER. cbn [map_err].
    assert (exists p, label_prefix (label key) = Ok p) as [p Hp] by (unfold label_prefix, node_label_prefix, encode_list_prefix; by eexists).
    rewrite Hp. cbn [rbind].
    destruct (for_each_prefix s R M p (upsert_body p encoded) _ (w :: W) HR (fun _ _ _ => eq_refl)) as (m & Hm & Hrun).
    destruct (label_nodes M m (label key) Hlab HM Hm) as (p' & _ & Hp' & Hkeys). rewrite Hp in Hp'. apply Ok_inj in Hp' as <-.
    by rewrite (scanned_wanted s M p R fuel (label key) encoded (w :: W) m HM Hm Hkeys (Hrun fuel Hf)).
Qed.
End store.

(** ** The theorems at a concrete graph *)

Lemma load_elem entries k v : load_map entries !! k = Some v -> (k, v) ∈ entries.
Proof.
  unfold load_map. induction entries as [|e entries IH] using rev_ind; [done|]. rewrite foldl_app. cbn [foldl].
  rewrite elem_of_app. intros [[H1 H2]|[_ H]]%lookup_insert_Some; [|left; by apply IH]. right. destruct e. cbn [fst snd] in *. subst. by left.
Qed.

Lemma nodes_ok_load entries :
  forallb (fun e => kv_ok e && is_ok (node_key_decode e.1) && is_ok (node_record_decode e.2)) entries = true -> nodes_ok (load_map entries).
Proof.
  rewrite forallb_forall. intros H k v Hk. apply load_elem, list_elem_of_In, H in Hk. cbn [fst snd] in Hk.
  rewrite !andb_true_iff in Hk. destruct Hk as [[H1 H2] H3]. split; [done|].
  split; [destruct (node_key_decode k) as [nk|]; [by exists nk|done]|destruct (node_record_decode v) as [r|]; [by exists r|done]].
Qed.

Lemma one_label k v l def : schema_decode k v = Ok (LabelEntry l def) -> kv_ok (k, v) = true ->
  schema_map_ok (load_map [(k, v)]) /\ labels_of (load_map [(k, v)]) {[l := def]}.
Proof.
  intros H Hkv. split.
  - intros k' v' Hk. apply load_one in Hk as [-> ->]. split; [done|]. by eexists.
  - intros l' d. rewrite lookup_singleton_Some. split.
    + intros [<- <-]. exists k, v. split; [by apply load_one|done].
    + intros (k' & v' & Hk & Hd). apply load_one in Hk as [-> ->]. rewrite H in Hd. by injection Hd as <- <-.
Qed.

Definition node_num (n : Z) : NodeKey := mkNodeKey [x41] [VInt n].
Definition valued (n : Z) : NodeRecord := mkNodeRecord [] {[ [x76] := VInt n ]}.
Definition bytes_or_nil {E : Type} (r : result E bytes) : bytes := match r with Ok b => b | Err _ => [] end.
Definition twin_entries : list (bytes * bytes) := Eval vm_compute in
  map (fun n => (bytes_or_nil (node_key_encode (node_num n)), bytes_or_nil (node_record_encode (valued 1)))) [7%Z; 9%Z].
Definition unique_v : LabelDef := mkLabelDef [[x69]] false ∅ [[x6e]] [[x76]].
Definition label_key : bytes := Eval vm_compute in bytes_or_nil (map_key (LabelEntry [x41] unique_v)).
Definition label_row : bytes := Eval vm_compute in schema_encode_value (LabelEntry [x41] unique_v).
Definition label_entries : list (bytes * bytes) := [(label_key, label_row)].
Definition twin_store : SampleStore := load_store sample_empty twin_entries.
Definition twin_root : Root := load_root sample_empty twin_entries.
Definition label_store : SampleStore := load_store twin_store label_entries.
Definition label_root : Root := load_root twin_store label_entries.
Definition twin_m : Manifest :=
  mkManifest sample_params (from_root label_root) (from_root twin_root) (from_root twin_root) (from_root twin_root) ∅ None.
Definition new_key : bytes := Eval vm_compute in bytes_or_nil (node_key_encode (node_num 8)).

Lemma twin_maps :
  map_at label_store (chunk_params twin_m) (m_nodes twin_m) (load_map twin_entries) /\
  map_at label_store (chunk_params twin_m) (m_schema twin_m) (load_map label_entries).
Proof.
  destruct (load_describes sample_empty twin_entries) as [D1 _]; [by repeat constructor|vm_compute; discriminate|vm_compute; reflexivity|].
  destruct (load_describes twin_store label_entries) as [D2 E2]; [by repeat constructor|vm_compute; discriminate|vm_compute; reflexivity|].
  split; apply map_at_root; [vm_compute; reflexivity|exact (describes_extends _ _ _ _ E2 D1)|vm_compute; reflexivity|exact D2].
Qed.

Lemma twin_nodes : nodes_ok (load_map twin_entries).
Proof. apply nodes_ok_load. vm_compute. reflexivity. Qed.

Lemma twin_schema : schema_map_ok (load_map label_entries) /\ labels_of (load_map label_entries) {[ [x41] := unique_v ]}.
Proof. apply one_label; vm_compute; reflexivity. Qed.

Lemma check_label_streams_witness :
  check_label 5 label_store twin_m [x41] unique_v = check_nodes {[ [x41] := unique_v ]} (node_set (load_map twin_entries)) None.
Proof.
  assert (size (load_map twin_entries) < 5) as Hs by (vm_compute; lia).
  exact (check_label_streams label_store twin_m (load_map twin_entries) [x41] unique_v 5 (proj1 twin_maps) twin_nodes eq_refl Hs).
Defined.

Lemma check_upsert_spec_witness :
  check_upsert 5 label_store twin_m (node_num 8) (valued 1) =
    check_nodes {[ [x41] := unique_v ]} (<[new_key := (node_num 8, valued 1)]> (node_set (load_map twin_entries))) (Some {[new_key]}).
Proof.
  destruct twin_schema as [HS HL].
  assert (size (load_map twin_entries) < 5) as Hs by (vm_compute; lia).
  assert (size (load_map label_entries) < 5) as Hl by (vm_compute; lia).
  assert (node_key_ok (node_num 8)) as Hk by (split; vm_compute; reflexivity).
  assert (cells_ok (properties (valued 1))) as Hc
    by (apply map_Forall_insert_2; [apply encodes_compute; vm_compute; reflexivity|apply map_Forall_empty]).
  assert (node_key_encode (node_num 8) = Ok new_key) as He by (vm_compute; reflexivity).
  exact (check_upsert_spec label_store twin_m (load_map twin_entries) (load_map label_entries) _ (node_num 8) (valued 1) new_key 5
    (proj1 twin_maps) twin_nodes (proj2 twin_maps) HS HL Hk He Hc Hs Hl).
Defined.

Lemma checks_computed :
  check_label 5 label_store twin_m [x41] unique_v =
    Ok [CMissingRequired (node_num 7) [x6e]; CMissingRequired (node_num 9) [x6e]; CUnique [x41] [x76] (VInt 1) [node_num 7; node_num 9]] /\
  check_upsert 5 label_store twin_m (node_num 8) (valued 1) =
    Ok [CMissingRequired (node_num 8) [x6e]; CUnique [x41] [x76] (VInt 1) [node_num 7; node_num 8; node_num 9]].
Proof. split; vm_compute; reflexivity. Qed.
