(* ===== verification/MergeValidate.v ===== *)
(** * Merging manifests (crates/acetone-graph/src/merge.rs)

    [validate_merged] re-checks a merged graph where the merge changed it, and
    [merge_manifests] merges the maps of a graph, derives the reverse map and
    the indexes, and validates a result without cell conflicts.  A [BTreeSet]
    of keys is a [gset], a [BTreeMap] that is iterated a [gmap] read in key
    order ([btree_iter]).  The loop over a diff reads it to its end first: its
    body cannot fail. *)
From S2P Require Import Prelude Model Values Canonical Records GraphKeys Schema Store Chunker Node Tree Manifest Diff Scan MapMerge Graph CellMerge GraphMerge GraphIndex Constraints.

Inductive ManifestMerge : Type :=
| Clean (merged : Manifest)
| MergeConflicts (merged : Manifest) (conflicts : list MergeConflict).

(** ** What the merge changed *)

Fixpoint node_changes (entries : list DiffEntry) (deleted changed : gset bytes) : gset bytes * gset bytes :=
  match entries with
  | [] => (deleted, changed)
  | e :: entries =>
    match before e, after e with
    | Some _, None => node_changes entries ({[Diff.key e]} ∪ deleted) changed
    | _, Some _ => node_changes entries deleted ({[Diff.key e]} ∪ changed)
    | None, None => node_changes entries deleted changed
    end
  end.

Fixpoint edge_changes (entries : list DiffEntry) (added changed : gset bytes) : gset bytes * gset bytes :=
  match entries with
  | [] => (added, changed)
  | e :: entries =>
    match after e with
    | Some _ =>
      edge_changes entries
        (match before e with None => {[Diff.key e]} ∪ added | Some _ => added end) ({[Diff.key e]} ∪ changed)
    | None => edge_changes entries added changed
    end
  end.

(** ** Constraints over the merged nodes *)

Definition newly_required (base_labels : gmap bytes LabelDef) (l property : bytes) : bool :=
  match base_labels !! l with None => true | Some b => negb (existsb (fun e => bool_decide (e = property)) (lexists b)) end.

Definition newly_declared (base_types : option (gmap bytes PropertyType)) (property : bytes) (declared : PropertyType) : bool :=
  match base_types with None => true | Some types => negb (bool_decide (types !! property = Some declared)) end.

Definition newly_unique (base_labels : gmap bytes LabelDef) (l property : bytes) : bool :=
  match base_labels !! l with None => true | Some b => negb (existsb (fun u => bool_decide (u = property)) (lunique b)) end.

Section nodes.
Context (labels base_labels : gmap bytes LabelDef) (changed_nodes : gset bytes).

Definition existence_breach (key_enc : bytes) (changed : bool) (l : bytes) (record : NodeRecord) (def : LabelDef) (property : bytes)
    : option GraphViolation :=
  if is_present record def property then None
  else if changed || newly_required base_labels l property then Some (MissingRequired key_enc property) else None.

Definition existence_of (node : NodeKey * NodeRecord) : result GraphError (list GraphViolation) :=
  let '(key, record) := node in
  match labels !! label key with
  | None => Ok []
  | Some def =>
    let? key_enc := map_err GGraphKey (node_key_encode key) in
    let changed := bool_decide (key_enc ∈ changed_nodes) in
    Ok (omap (existence_breach key_enc changed (label key) record def) (lexists def))
  end.

Definition type_breach (key_enc : bytes) (changed : bool) (l : bytes) (v : bytes * PropertyType * PropertyType)
    : option GraphViolation :=
  let '(property, declared, actual) := v in
  if changed || newly_declared (option_map ltypes (base_labels !! l)) property declared
  then Some (WrongType key_enc property declared actual) else None.

Definition types_of (node : NodeKey * NodeRecord) : result GraphError (list GraphViolation) :=
  let '(key, record) := node in
  match labels !! label key with
  | None => Ok []
  | Some def =>
    let? key_enc := map_err GGraphKey (node_key_encode key) in
    let changed := bool_decide (key_enc ∈ changed_nodes) in
    Ok (omap (type_breach key_enc changed (label key)) (type_violations key record def))
  end.

(** [entry(k).or_default().push(member)] *)
Abbreviation MergedGroups := (list ((bytes * (bytes * bytes)) * list bytes)).

Fixpoint push_member (k : bytes * (bytes * bytes)) (member : bytes) (groups : MergedGroups) : MergedGroups :=
  match groups with
  | [] => [(k, [member])]
  | (k', members) :: rest =>
    match triple_cmp k k' with
    | Lt => (k, [member]) :: groups
    | Eq => (k', members ++ [member]) :: rest
    | Gt => (k', members) :: push_member k member rest
    end
  end.

Fixpoint group_unique (key : NodeKey) (record : NodeRecord) (ps : list bytes) (groups : MergedGroups) : result GraphError MergedGroups :=
  match ps with
  | [] => Ok groups
  | property :: ps =>
    match properties record !! property with
    | Some value =>
      let? value_enc := map_err GRecordEncode (map_err EncodeValue (encode_value value)) in
      let? key_enc := map_err GGraphKey (node_key_encode key) in
      group_unique key record ps (push_member (label key, (property, value_enc)) key_enc groups)
    | None => group_unique key record ps groups
    end
  end.

Fixpoint group_merged (nodes : list (NodeKey * NodeRecord)) (groups : MergedGroups) : result GraphError MergedGroups :=
  match nodes with
  | [] => Ok groups
  | (key, record) :: nodes =>
    match labels !! label key with
    | None => group_merged nodes groups
    | Some def => let? groups := group_unique key record (lunique def) groups in group_merged nodes groups
    end
  end.

Definition unique_breach (group : (bytes * (bytes * bytes)) * list bytes) : option GraphViolation :=
  let '((l, (property, value)), nodes) := group in
  if (length nodes <? 2)%nat then None
  else if newly_unique base_labels l property || existsb (fun n => bool_decide (n ∈ changed_nodes)) nodes
  then Some (UniqueViolation l property value nodes) else None.
End nodes.

(** ** Loops over the store *)

Section store.
Context {S : Type} {CS : ChunkStore S}.

Definition diff_entries (fuel : nat) (store : S) (a b : Root) : result GraphError (list DiffEntry) :=
  let? d := map_err GProlly (diff store a b) in map_err GProlly (Diff.collect fuel fuel store d).

Definition endpoint (role : Endpoint) (edge : EdgeKey) : NodeKey := match role with Src => src edge | Dst => dst edge end.

Definition dangling_at (store : S) (merged_nodes : Root) (deleted_nodes : gset bytes) (is_added : bool) (raw_key : bytes)
    (edge : EdgeKey) (role : Endpoint) : result GraphError (list GraphViolation) :=
  let? endpoint_enc := map_err GGraphKey (node_key_encode (endpoint role edge)) in
  let? found := map_err GProlly (Tree.get store merged_nodes endpoint_enc) in
  match found with
  | Some _ => Ok []
  | None =>
    Ok (if is_added || bool_decide (endpoint_enc ∈ deleted_nodes) then [DanglingEdge raw_key endpoint_enc role] else [])
  end.

Definition dangling_body (store : S) (merged_nodes : Root) (deleted_nodes added_edges : gset bytes)
    (raw_key _value : bytes) (violations : list GraphViolation) : result GraphError (flow (list GraphViolation)) :=
  let? edge := map_err GGraphKey (decode_fwd raw_key) in
  let is_added := bool_decide (raw_key ∈ added_edges) in
  let? found := concat_results (dangling_at store merged_nodes deleted_nodes is_added raw_key edge) [Src; Dst] in
  Ok (Continue (violations ++ found)).

Definition label_defs_body (key value : bytes) (labels : gmap bytes LabelDef) : result GraphError (flow (gmap bytes LabelDef)) :=
  let? entry := map_err GSchema (schema_decode key value) in
  Ok (Continue (match entry with LabelEntry name def => <[name := def]> labels | _ => labels end)).

Definition label_defs (fuel : nat) (store : S) (schema : Root) : result GraphError (gmap bytes LabelDef) :=
  for_each fuel store schema Unbounded Unbounded label_defs_body ∅.

Definition rel_type_defs_body (key value : bytes) (rel_types : gmap bytes RelTypeDef) : result GraphError (flow (gmap bytes RelTypeDef)) :=
  let? entry := map_err GSchema (schema_decode key value) in
  Ok (Continue (match entry with RelTypeEntry name def => <[name := def]> rel_types | _ => rel_types end)).

Definition rel_type_defs (fuel : nat) (store : S) (schema : Root) : result GraphError (gmap bytes RelTypeDef) :=
  for_each fuel store schema Unbounded Unbounded rel_type_defs_body ∅.

Definition node_body (key value : bytes) (nodes : list (NodeKey * NodeRecord)) : result GraphError (flow (list (NodeKey * NodeRecord))) :=
  let? k := map_err GGraphKey (node_key_decode key) in
  let? r := map_err GRecordDecode (node_record_decode value) in
  Ok (Continue (nodes ++ [(k, r)])).

Definition edge_type_breach (base_rel_types : gmap bytes RelTypeDef) (raw_key : bytes) (changed : bool) (t : bytes)
    (v : bytes * PropertyType * PropertyType) : option GraphViolation :=
  let '(property, declared, actual) := v in
  if changed || newly_declared (option_map rtypes (base_rel_types !! t)) property declared
  then Some (EdgeWrongType raw_key property declared actual) else None.

Definition edge_types_body (rel_types base_rel_types : gmap bytes RelTypeDef) (changed_edges : gset bytes)
    (raw_key value : bytes) (violations : list GraphViolation) : result GraphError (flow (list GraphViolation)) :=
  let? edge := map_err GGraphKey (decode_fwd raw_key) in
  match rel_types !! rtype edge with
  | None => Ok (Continue violations)
  | Some def =>
    let? record := map_err GRecordDecode (edge_record_decode value) in
    let changed := bool_decide (raw_key ∈ changed_edges) in
    Ok (Continue (violations ++
      omap (edge_type_breach base_rel_types raw_key changed (rtype edge)) (rel_type_violations edge record def)))
  end.

(** ** Stale discriminators *)

Definition merged_disc (rel_types : gmap bytes RelTypeDef) (t : bytes) : option bytes := rel_types !! t ≫= discriminator.

(** The types whose discriminator on this side is not the merged one. *)
Definition disagreeing (merged_rel_types side_rel_types : gmap bytes RelTypeDef) : gmap bytes (option bytes) :=
  let declared := foldl (fun m '(name, def) =>
    if bool_decide (discriminator def = merged_disc merged_rel_types name) then m else <[name := discriminator def]> m)
    ∅ (btree_iter side_rel_types) in
  foldl (fun m '(name, _) =>
    if bool_decide (side_rel_types !! name = None) && bool_decide (merged_disc merged_rel_types name <> None)
    then <[name := None]> m else m) declared (btree_iter merged_rel_types).

Definition stale_body (store : S) (merged_rel_types : gmap bytes RelTypeDef) (merged_edges : Root) (dis : gmap bytes (option bytes))
    (raw_key _value : bytes) (stale : gmap bytes GraphViolation) : result GraphError (flow (gmap bytes GraphViolation)) :=
  let? edge := map_err GGraphKey (decode_fwd raw_key) in
  match dis !! rtype edge with
  | None => Ok (Continue stale)
  | Some minted =>
    match stale !! raw_key with
    | Some _ => Ok (Continue stale)
    | None =>
      let? found := map_err GProlly (Tree.get store merged_edges raw_key) in
      match found with
      | None => Ok (Continue stale)
      | Some _ =>
        Ok (Continue (<[raw_key := StaleDiscriminator raw_key (merged_disc merged_rel_types (rtype edge)) minted]> stale))
      end
    end
  end.

Definition stale_side (fuel : nat) (store : S) (merged_rel_types : gmap bytes RelTypeDef) (merged_edges : Root) (side : Manifest)
    (stale : gmap bytes GraphViolation) : result GraphError (gmap bytes GraphViolation) :=
  let p := chunk_params side in
  let? schema := map_err GProlly (to_root (m_schema side) p) in
  let? side_rel_types := rel_type_defs fuel store schema in
  let dis := disagreeing merged_rel_types side_rel_types in
  if bool_decide (dis = ∅) then Ok stale
  else
    let? edges := map_err GProlly (to_root (m_edges_fwd side) p) in
    for_each fuel store edges Unbounded Unbounded (stale_body store merged_rel_types merged_edges dis) stale.

Definition stale_discriminators (fuel : nat) (store : S) (merged_rel_types : gmap bytes RelTypeDef) (ours theirs : Manifest)
    (merged_edges : Root) (violations : list GraphViolation) : result GraphError (list GraphViolation) :=
  let? stale := stale_side fuel store merged_rel_types merged_edges ours ∅ in
  let? stale := stale_side fuel store merged_rel_types merged_edges theirs stale in
  Ok (violations ++ List.map snd (btree_iter stale)).

Definition validate_merged (fuel : nat) (store : S) (base ours theirs merged : Manifest) : result GraphError (list GraphViolation) :=
  let p := chunk_params merged in
  let? base_nodes := map_err GProlly (to_root (m_nodes base) p) in
  let? merged_nodes := map_err GProlly (to_root (m_nodes merged) p) in
  let? base_edges := map_err GProlly (to_root (m_edges_fwd base) p) in
  let? merged_edges := map_err GProlly (to_root (m_edges_fwd merged) p) in
  let? entries := diff_entries fuel store base_nodes merged_nodes in
  let '(deleted_nodes, changed_nodes) := node_changes entries ∅ ∅ in
  let? entries := diff_entries fuel store base_edges merged_edges in
  let '(added_edges, changed_edges) := edge_changes entries ∅ ∅ in
  let? violations := for_each fuel store merged_edges Unbounded Unbounded
    (dangling_body store merged_nodes deleted_nodes added_edges) [] in
  let? schema := map_err GProlly (to_root (m_schema merged) p) in
  let? labels := label_defs fuel store schema in
  let? base_schema := map_err GProlly (to_root (m_schema base) p) in
  let? base_labels := label_defs fuel store base_schema in
  let? all_nodes := for_each fuel store merged_nodes Unbounded Unbounded node_body [] in
  let? missing := concat_results (existence_of labels base_labels changed_nodes) all_nodes in
  let? wrong := concat_results (types_of labels base_labels changed_nodes) all_nodes in
  let? rel_types := rel_type_defs fuel store schema in
  let? base_rel_types := rel_type_defs fuel store base_schema in
  let? violations :=
    (if existsb (fun '(_, def) => negb (bool_decide (rtypes def = ∅))) (btree_iter rel_types)
     then for_each fuel store merged_edges Unbounded Unbounded
       (edge_types_body rel_types base_rel_types changed_edges) (violations ++ missing ++ wrong)
     else Ok (violations ++ missing ++ wrong)) in
  let? violations := stale_discriminators fuel store rel_types ours theirs merged_edges violations in
  let? groups := group_merged labels all_nodes [] in
  Ok (violations ++ omap (unique_breach base_labels changed_nodes) groups).

(** ** The merge of two manifests *)

Definition merge_schema_entries (fuel : nat) (store : S) (schema : Root) : result GraphError (list SchemaEntry) :=
  for_each fuel store schema Unbounded Unbounded entry_body [].

Definition with_indexes (m : Manifest) (indexes : gmap bytes MapRoot) : Manifest :=
  mkManifest (chunk_params m) (m_schema m) (m_nodes m) (m_edges_fwd m) (m_edges_rev m) indexes (m_conflicts m).

(** A release build: the [debug_assert!] on the parameters is not there. *)
Definition merge_manifests (fuel : nat) (base ours theirs : Manifest) : st S GraphError ManifestMerge :=
  let p := chunk_params base in
  let! '(schema, cells) := merge_one fuel MSchema base ours theirs [] in
  let! '(nodes, cells) := merge_one fuel MNodes base ours theirs cells in
  let! '(edges_fwd, cells) := merge_one fuel MEdges base ours theirs cells in
  let! edges_rev := rebuild_reverse fuel edges_fwd p in
  let merged := mkManifest p (from_root schema) (from_root nodes) (from_root edges_fwd) (from_root edges_rev) ∅ None in
  let! entries := st_read (fun store => merge_schema_entries fuel store schema) in
  let! indexes := rebuild_all fuel merged entries in
  let merged := with_indexes merged indexes in
  match cells with
  | _ :: _ => st_ret (MergeConflicts merged (List.map Cell cells))
  | [] =>
    let! violations := st_read (fun store => validate_merged fuel store base ours theirs merged) in
    match violations with
    | _ :: _ => st_ret (MergeConflicts merged (List.map GraphConflict violations))
    | [] => st_ret (Clean merged)
    end
  end.
End store.
