(* ===== verification/MergeValidateRun.v ===== *)
(** * A clean merge keeps a graph valid

    A graph is valid when its edges have both their ends and its nodes and
    edges satisfy what the schema declares.  From a valid base, the checks that
    follow a merge look only at what the merge changed, and find nothing
    exactly when the whole merged graph is valid. *)
From S2P Require Import Prelude Ieee Model Keys Values Canonical Records KeysCodec GraphKeys Schema Store Chunker Node Tree TreeSpec TreeNodes TreeRead TreeBuild TreeLevels TreeContent TreeBatch Prolly Manifest Diff DiffRun MapDiff Scan ScanRun MapMerge Graph GraphRun CellMerge GraphMerge GraphMergeRun GraphIndex GraphIndexRun Constraints ConstraintsRun MergeValidate.

(** ** Lists of findings *)

Lemma concat_map_nil {A B : Type} (f : A -> list B) (l : list A) : concat (map f l) = [] <-> forall x, x ∈ l -> f x = [].
Proof.
  split; [|apply concat_nil]. induction l as [|y l IH]; cbn [map concat]; intros H x Hx; [by apply elem_of_nil in Hx|].
  apply app_eq_nil in H as [Hy H]. apply elem_of_cons in Hx as [->|Hx]; [done|by apply IH].
Qed.

Lemma omap_nil_iff {A B : Type} (f : A -> option B) (l : list A) : omap f l = [] <-> forall x, x ∈ l -> f x = None.
Proof.
  split; [|apply omap_none]. induction l as [|y l IH]; cbn [omap list_omap]; intros H x Hx; [by apply elem_of_nil in Hx|].
  destruct (f y) eqn:E; [done|]. apply elem_of_cons in Hx as [->|Hx]; [done|by apply IH].
Qed.

Lemma concat_results_ok {A B : Type} (f : A -> result GraphError (list B)) (g : A -> list B) l :
  (forall x, x ∈ l -> f x = Ok (g x)) -> concat_results f l = Ok (concat (map g l)).
Proof.
  induction l as [|x l IH]; intros H; [done|]. cbn [concat_results map concat]. rewrite (H x) by (by left). cbn [rbind].
  by rewrite IH by (intros y Hy; apply H; by right).
Qed.

(** ** What changed *)

Lemma exists_cons {A : Type} (P : A -> Prop) (x : A) (l : list A) :
  (exists e, e ∈ x :: l /\ P e) <-> P x \/ exists e, e ∈ l /\ P e.
Proof. setoid_rewrite elem_of_cons. naive_solver. Qed.

Lemma node_changes_spec (es : list DiffEntry) D C D' C' :
  node_changes es D C = (D', C') -> forall k,
  (k ∈ D' <-> k ∈ D \/ exists e, e ∈ es /\ Diff.key e = k /\ is_Some (before e) /\ after e = None) /\
  (k ∈ C' <-> k ∈ C \/ exists e, e ∈ es /\ Diff.key e = k /\ is_Some (after e)).
Proof.
  revert D C. induction es as [|e es IH]; intros D C; cbn [node_changes].
  { intros [= -> ->] k. split; (split; [by left|]); intros [H|(e & H & _)]; [done|by apply elem_of_nil in H|done|by apply elem_of_nil in H]. }
  intros H k. destruct (before e) as [b|] eqn:Eb, (after e) as [a|] eqn:Ea; destruct (IH _ _ H k) as [H1 H2].
  all: rewrite H1, H2, !exists_cons, Eb, Ea, ?elem_of_union, ?elem_of_singleton; clear; split; naive_solver.
Qed.

Lemma edge_changes_spec es A C A' C' :
  edge_changes es A C = (A', C') -> forall k,
  (k ∈ A' <-> k ∈ A \/ exists e, e ∈ es /\ Diff.key e = k /\ is_Some (after e) /\ before e = None) /\
  (k ∈ C' <-> k ∈ C \/ exists e, e ∈ es /\ Diff.key e = k /\ is_Some (after e)).
Proof.
  revert A C. induction es as [|e es IH]; intros A C; cbn [edge_changes].
  { intros [= -> ->] k. split; (split; [by left|]); intros [H|(e & H & _)]; [done|by apply elem_of_nil in H|done|by apply elem_of_nil in H]. }
  intros H k. destruct (before e) as [b|] eqn:Eb, (after e) as [a|] eqn:Ea; destruct (IH _ _ H k) as [H1 H2].
  all: rewrite H1, H2, !exists_cons, Eb, Ea, ?elem_of_union, ?elem_of_singleton; clear; split; naive_solver.
Qed.

Section diffs.
Context {S : Type} {CS : ChunkStore S} {CSL : ChunkStoreLaws S}.
Implicit Types (s : S).

Lemma diff_entries_spec s A B M N :
  describes s A M -> describes s B N ->
  exists es fuel, (forall f, fuel <= f -> diff_entries f s A B = Ok es) /\
    forall e, e ∈ es <-> before e = M !! Diff.key e /\ after e = N !! Diff.key e /\ before e <> after e.
Proof.
  intros (Hpa & ma & <- & Ha) (Hpb & mb & <- & Hb).
  destruct (diff_collect s A B ma mb Hpa Hpb Ha Hb) as (d & Ed & fuel & Hf).
  exists (DiffRun.kv_diff ma mb), fuel. split.
  - intros f Hle. unfold diff_entries. rewrite Ed. cbn [map_err rbind]. by rewrite (Hf f Hle).
  - intros e. destruct Ha as (_ & [Hsa _] & _), Hb as (_ & [Hsb _] & _). rewrite kv_diff_elem by done. by rewrite !contents_lookup.
Qed.

(** The changed nodes and edges of two versions. *)
Definition deletes (M N : gmap bytes bytes) (D : gset bytes) : Prop := forall k, k ∈ D <-> is_Some (M !! k) /\ N !! k = None.
Definition changes (M N : gmap bytes bytes) (C : gset bytes) : Prop := forall k, k ∈ C <-> is_Some (N !! k) /\ M !! k <> N !! k.

Lemma diff_sets (es : list DiffEntry) (M N : gmap bytes bytes) :
  (forall e, e ∈ es <-> before e = M !! Diff.key e /\ after e = N !! Diff.key e /\ before e <> after e) ->
  (forall k, (exists e, e ∈ es /\ Diff.key e = k /\ is_Some (before e) /\ after e = None) <-> is_Some (M !! k) /\ N !! k = None) /\
  (forall k, (exists e, e ∈ es /\ Diff.key e = k /\ is_Some (after e) /\ before e = None) <-> is_Some (N !! k) /\ M !! k = None) /\
  (forall k, (exists e, e ∈ es /\ Diff.key e = k /\ is_Some (after e)) <-> is_Some (N !! k) /\ M !! k <> N !! k).
Proof.
  intros Hes. split_and!; intros k; split.
  - intros (e & He & <- & Hb & Ha). apply Hes in He as (E1 & E2 & _). by rewrite <-E1, <-E2.
  - intros [[x Hx] Hn]. exists (mkDiffEntry k (Some x) None). split; [apply Hes; cbn; by rewrite Hx, Hn|]. cbn. by eauto.
  - intros (e & He & <- & Ha & Hb). apply Hes in He as (E1 & E2 & _). by rewrite <-E1, <-E2.
  - intros [[x Hx] Hn]. exists (mkDiffEntry k None (Some x)). split; [apply Hes; cbn; by rewrite Hx, Hn|]. cbn. by eauto.
  - intros (e & He & <- & Ha). apply Hes in He as (E1 & E2 & E3). by rewrite <-E1, <-E2.
  - intros [[x Hx] Hn]. exists (mkDiffEntry k (M !! k) (Some x)). split; [apply Hes; rewrite Hx in Hn; cbn [before after Diff.key]; by rewrite Hx|]. cbn. by eauto.
Qed.
End diffs.

(** ** The maps of a graph *)

Definition edges_ok (E : gmap bytes bytes) : Prop :=
  map_Forall (fun k v => kv_ok (k, v) = true /\ (exists e, decode_fwd k = Ok e) /\ exists r, edge_record_decode v = Ok r) E.

Lemma encode_key_snd a b c t e : encode_key (a :: b :: c :: t) = Ok e -> (exists x, encode_key [a] = Ok x) /\ exists x, encode_key [c] = Ok x.
Proof.
  intros H. apply (encode_key_prefix_ok [a; b; c] t) in H as [x H]. split.
  - exact (encode_key_prefix_ok [a] [b; c] x H).
  - apply encode_key_cons in H as (u & w & _ & H & _). apply encode_key_cons in H as (u' & w' & _ & H & _). by exists w'.
Qed.

Lemma endpoint_encodes k e role :
  is_u32 (Z.of_nat (length k)) = true -> decode_fwd k = Ok e -> exists enc, node_key_encode (endpoint role e) = Ok enc.
Proof.
  intros Hk He. apply key_bound in Hk. apply edge_key_decode_Ok in He; [|done].
  destruct He as (He & _). unfold encode_fwd in He. apply encode_tuple_Ok, encode_key_snd in He as [[x Hx] [y Hy]].
  destruct role; cbn [endpoint]; unfold node_key_encode; eexists; [by rewrite Hx|by rewrite Hy].
Qed.

(** A loop that inserts what it selects. *)
Lemma fold_insert {X D : Type} (sel : X -> option (bytes * D)) (m : list X) (acc : gmap bytes D) n d :
  (forall x y a b, x ∈ m -> y ∈ m -> sel x = Some (n, a) -> sel y = Some (n, b) -> a = b) ->
  foldl (fun acc x => match sel x with Some (n, d) => <[n := d]> acc | None => acc end) acc m !! n = Some d <->
  (exists x, x ∈ m /\ sel x = Some (n, d)) \/ ((forall x a, x ∈ m -> sel x <> Some (n, a)) /\ acc !! n = Some d).
Proof.
  revert acc. induction m as [|x m IH]; intros acc Hu; cbn [foldl].
  { split; [intros H; right; split; [intros ? ? H'; by apply elem_of_nil in H'|done]|].
    intros [(x & H & _)|[_ H]]; [by apply elem_of_nil in H|done]. }
  rewrite IH by (intros y z a b Hy Hz; apply Hu; by right). rewrite exists_cons.
  assert (forall Q : bytes * D -> Prop, (forall y a, y ∈ x :: m -> sel y = Some (n, a) -> Q (n, a)) <->
    (forall a, sel x = Some (n, a) -> Q (n, a)) /\ (forall y a, y ∈ m -> sel y = Some (n, a) -> Q (n, a))) as Hall
    by (intros Q; setoid_rewrite elem_of_cons; naive_solver).
  unfold not. rewrite (Hall (fun _ => False)). destruct (sel x) as [[n' d0]|] eqn:Es; [|naive_solver].
  destruct (decide (n' = n)) as [->|Hne]; [|rewrite lookup_insert_ne by done; naive_solver].
  rewrite lookup_insert_eq. split; [naive_solver|]. intros [[[= ->]|(y & Hy & Ey)]|[[H _] _]]; [|left; by exists y|by destruct (H d0)].
  destruct (decide (Exists (fun y => fst <$> sel y = Some n) m)) as [He|Hno].
  - apply Exists_exists in He as (y & Hy & Ey). destruct (sel y) as [[n' a]|] eqn:E; [|done]. injection Ey as ->.
    left. exists y. split; [done|]. rewrite E. f_equal. f_equal. by apply (Hu y x a d); [right|left|..].
  - right. split; [|done]. intros y a Hy Ey. apply Hno, Exists_exists. exists y. by rewrite Ey.
Qed.

(** The definitions of one kind in a schema map. *)
Section definitions.
Context {D : Type} (sel : SchemaEntry -> option (bytes * D)).
Context (sel_key : forall x y n d d', sel x = Some (n, d) -> sel y = Some (n, d') -> map_key x = map_key y).

Definition defs_of (SM : gmap bytes bytes) (defs : gmap bytes D) : Prop :=
  forall n d, defs !! n = Some d <-> exists k v x, SM !! k = Some v /\ schema_decode k v = Ok x /\ sel x = Some (n, d).

Definition row_def (e : bytes * bytes) : option (bytes * D) :=
  match schema_decode e.1 e.2 with Ok x => sel x | Err _ => None end.

Lemma row_def_Some k v n d : row_def (k, v) = Some (n, d) <-> exists x, schema_decode k v = Ok x /\ sel x = Some (n, d).
Proof. unfold row_def. cbn [fst snd]. destruct (schema_decode k v); naive_solver. Qed.

Lemma schema_row SM k v x : schema_map_ok SM -> SM !! k = Some v -> schema_decode k v = Ok x -> map_key x = Ok k.
Proof.
  intros HS Hk Hd. destruct (HS k v Hk) as [Hkv _]. apply andb_prop in Hkv as [Ek Ev]. cbn [fst snd] in *.
  apply key_bound in Ek, Ev. by apply schema_decode_iff in Hd as (_ & E & _).
Qed.

Lemma fold_defs_of SM (m : kvs) : schema_map_ok SM -> (forall k v, (k, v) ∈ m <-> SM !! k = Some v) ->
  defs_of SM (foldl (fun acc x => match row_def x with Some (n, d) => <[n := d]> acc | None => acc end) ∅ m).
Proof.
  intros HS Hm n d. rewrite fold_insert.
  - rewrite lookup_empty. split.
    + intros [([k v] & Hin & Hd)|[_ ?]]; [|done]. apply row_def_Some in Hd as (x & Hd). exists k, v, x. by rewrite <-Hm.
    + intros (k & v & x & Hk & Hd). left. exists (k, v). rewrite Hm. split; [done|]. apply row_def_Some. by exists x.
  - intros [k v] [k' v'] a b H1 H2 (x & D1 & S1)%row_def_Some (y & D2 & S2)%row_def_Some.
    apply Hm in H1, H2. pose proof (schema_row SM k v x HS H1 D1) as E1.
    pose proof (schema_row SM k' v' y HS H2 D2) as E2. rewrite (sel_key x y n a b S1 S2), E2 in E1. apply Ok_inj in E1 as ->. congruence.
Qed.
End definitions.

Definition sel_label (x : SchemaEntry) : option (bytes * LabelDef) := match x with LabelEntry n d => Some (n, d) | _ => None end.
Definition sel_rel_type (x : SchemaEntry) : option (bytes * RelTypeDef) := match x with RelTypeEntry n d => Some (n, d) | _ => None end.

Lemma sel_label_key x y n d d' : sel_label x = Some (n, d) -> sel_label y = Some (n, d') -> map_key x = map_key y.
Proof. destruct x, y; try done. cbn. by intros [= -> ->] [= -> ->]. Qed.
Lemma sel_rel_type_key x y n d d' : sel_rel_type x = Some (n, d) -> sel_rel_type y = Some (n, d') -> map_key x = map_key y.
Proof. destruct x, y; try done. cbn. by intros [= -> ->] [= -> ->]. Qed.

Lemma defs_of_unique {D : Type} (sel : SchemaEntry -> option (bytes * D)) SM a b : defs_of sel SM a -> defs_of sel SM b -> a = b.
Proof. intros Ha Hb. apply map_eq. intros n. apply option_eq. intros d. by rewrite (Ha n d), (Hb n d). Qed.

(** A body that never breaks and never fails folds. *)
Lemma fold_flow_foldl {A : Type} (body : bytes -> bytes -> A -> result GraphError (flow A)) (step : A -> bytes * bytes -> A) (m : kvs) a :
  (forall k v a, (k, v) ∈ m -> body k v a = Ok (Continue (step a (k, v)))) -> fold_flow body m a = Ok (foldl step a m).
Proof.
  revert a. induction m as [|[k v] m IH]; intros a H; [done|]. cbn [fold_flow foldl]. rewrite H by (by left). cbn [rbind].
  apply IH. intros k' v' a' Hin. apply H. by right.
Qed.

Section loops.
Context {S : Type} {CS : ChunkStore S} {CSL : ChunkStoreLaws S}.
Implicit Types (s : S).

Lemma label_defs_spec s R SM labels f :
  describes s R SM -> schema_map_ok SM -> defs_of sel_label SM labels -> size SM < f -> label_defs f s R = Ok labels.
Proof.
  intros HR HS HL Hf. unfold label_defs. destruct (for_each_spec s R SM label_defs_body ∅ HR) as (m & Hm & ->); [|done].
  rewrite (fold_flow_foldl _ (fun acc x => match row_def sel_label x with Some (n, d) => <[n := d]> acc | None => acc end)).
  - f_equal. apply (defs_of_unique sel_label SM); [|done]. apply fold_defs_of; [exact sel_label_key|done|]. intros k v. by apply entries_in_lookup.
  - intros k v a Hin. apply (entries_in_lookup SM m) in Hin; [|done]. destruct (HS k v Hin) as (_ & x & Hx).
    unfold label_defs_body, row_def. cbn [fst snd]. rewrite Hx. by destruct x.
Qed.

Lemma rel_type_defs_spec s R SM rels f :
  describes s R SM -> schema_map_ok SM -> defs_of sel_rel_type SM rels -> size SM < f -> rel_type_defs f s R = Ok rels.
Proof.
  intros HR HS HL Hf. unfold rel_type_defs. destruct (for_each_spec s R SM rel_type_defs_body ∅ HR) as (m & Hm & ->); [|done].
  rewrite (fold_flow_foldl _ (fun acc x => match row_def sel_rel_type x with Some (n, d) => <[n := d]> acc | None => acc end)).
  - f_equal. apply (defs_of_unique sel_rel_type SM); [|done]. apply fold_defs_of; [exact sel_rel_type_key|done|]. intros k v. by apply entries_in_lookup.
  - intros k v a Hin. apply (entries_in_lookup SM m) in Hin; [|done]. destruct (HS k v Hin) as (_ & x & Hx).
    unfold rel_type_defs_body, row_def. cbn [fst snd]. rewrite Hx. by destruct x.
Qed.

(** ** Dangling edges *)

Lemma edge_decodes E k v : edges_ok E -> E !! k = Some v ->
  exists e, decode_fwd k = Ok e /\ forall role, exists enc, node_key_encode (endpoint role e) = Ok enc.
Proof.
  intros HE Hk. destruct (HE k v Hk) as (Hkv & [e He] & _). apply andb_prop in Hkv as [Hkl _]. cbn [fst] in Hkl.
  exists e. split; [done|]. intros role. by apply (endpoint_encodes k).
Qed.

Definition dangles (N : gmap bytes bytes) (D A : gset bytes) (k : bytes) (e : EdgeKey) (role : Endpoint) : list GraphViolation :=
  match node_key_encode (endpoint role e) with
  | Ok enc => match N !! enc with
              | Some _ => []
              | None => if bool_decide (k ∈ A) || bool_decide (enc ∈ D) then [DanglingEdge k enc role] else []
              end
  | Err _ => []
  end.

Lemma dangling_spec s RE RN E N D A :
  describes s RE E -> describes s RN N -> edges_ok E ->
  exists l, (forall f, size E < f -> for_each f s RE Unbounded Unbounded (dangling_body s RN D A) [] = Ok l) /\
    (l = [] <-> forall k v e role enc, E !! k = Some v -> decode_fwd k = Ok e -> node_key_encode (endpoint role e) = Ok enc ->
      k ∈ A \/ enc ∈ D -> is_Some (N !! enc)).
Proof.
  intros HRE HRN HE. destruct (for_each_spec s RE E (dangling_body s RN D A) [] HRE) as (m & Hm & Hrun).
  set (g := fun kv : bytes * bytes => match decode_fwd kv.1 with Ok e => concat (map (dangles N D A kv.1 e) [Src; Dst]) | Err _ => [] end).
  exists (concat (map g m)). split.
  - intros f Hf. rewrite Hrun by done. rewrite (fold_flow_collect _ g); [done|]. apply Forall_forall. intros [k v] Hin acc. apply (entries_in_lookup E m) in Hin; [|done].
    destruct (edge_decodes E k v HE Hin) as (e & He & Henc). unfold dangling_body, g. cbn [fst snd]. rewrite He. cbn [map_err rbind].
    rewrite (concat_results_ok _ (dangles N D A k e)); [done|]. intros role _. unfold dangling_at, dangles.
    destruct (Henc role) as [enc ->]. cbn [map_err rbind]. rewrite (describes_lookup s RN N enc HRN). cbn [map_err rbind].
    by destruct (N !! enc).
  - rewrite concat_map_nil. split.
    + intros H k v e role enc Hk He Henc Hbad. specialize (H (k, v) ltac:(by apply (entries_in_lookup E m))). unfold g in H.
      cbn [fst] in H. rewrite He in H. rewrite concat_map_nil in H. specialize (H role ltac:(destruct role; set_solver)).
      unfold dangles in H. rewrite Henc in H. destruct (N !! enc); [done|].
      destruct Hbad as [Hb|Hb]; rewrite (bool_decide_true _ Hb), ?orb_true_r in H; done.
    + intros H [k v] Hin. apply (entries_in_lookup E m) in Hin; [|done]. unfold g. cbn [fst]. destruct (decode_fwd k) as [e|] eqn:He; [|done].
      apply concat_map_nil. intros role _. unfold dangles. destruct (node_key_encode (endpoint role e)) as [enc|] eqn:Henc; [|done].
      destruct (N !! enc) eqn:En; [done|]. specialize (H k v e role enc Hin He Henc). rewrite En in H.
      rewrite !bool_decide_false; [done|..]; intros Hb; [by destruct (H (or_intror Hb))|by destruct (H (or_introl Hb))].
Qed.

(** ** The merged nodes *)

Lemma all_nodes_spec s R N f :
  describes s R N -> nodes_ok N -> size N < f ->
  exists l, for_each f s R Unbounded Unbounded node_body [] = Ok l /\ l = map snd (btree_iter (node_set N)).
Proof.
  intros HR HN Hf. destruct (for_each_spec s R N node_body [] HR) as (m & Hm & ->); [|done].
  exists (map snd (btree_iter (node_set N))). split; [|done]. rewrite (decoded_nodes_iter N m Hm).
  assert (forall k v, (k, v) ∈ m -> N !! k = Some v) as Hin by (intros k v; apply (entries_in_lookup N m); done). clear Hm.
  change (@nil (NodeKey * NodeRecord)) with ([] ++ @nil (NodeKey * NodeRecord)). rewrite app_nil_r.
  rewrite (fold_flow_collect node_body (fun e => match node_of e.1 e.2 with Some n => [n] | None => [] end)).
  - cbn [app]. f_equal. clear. induction m as [|[k v] m IH]; [done|]. cbn [map concat]. rewrite IH. unfold decoded_nodes. cbn [omap list_omap].
    unfold node_entry at 2. cbn [fst snd]. by destruct (node_of k v).
  - apply Forall_forall. intros [k v] Hkv acc. destruct (node_of_ok N k v HN (Hin k v Hkv)) as (key & record & En & Ek & Er & _).
    cbn [fst snd]. unfold node_body. by rewrite Ek, Er, En.
Qed.

Lemma node_set_elem N k key record : nodes_ok N -> (k, (key, record)) ∈ btree_iter (node_set N) <->
  exists v, N !! k = Some v /\ node_of k v = Some (key, record).
Proof.
  intros HN. rewrite btree_iter_elem. unfold node_set. rewrite map_lookup_imap. destruct (N !! k) as [v|]; cbn; [naive_solver|]. naive_solver.
Qed.
End loops.

(** ** Declared properties of the merged nodes *)

(** A node of a map. *)
Definition node_in (N : gmap bytes bytes) (k : bytes) (key : NodeKey) (record : NodeRecord) : Prop :=
  exists v, N !! k = Some v /\ node_of k v = Some (key, record).
Definition edge_in (E : gmap bytes bytes) (k : bytes) (key : EdgeKey) (record : EdgeRecord) : Prop :=
  exists v, E !! k = Some v /\ decode_fwd k = Ok key /\ edge_record_decode v = Ok record.

Lemma node_in_ok N k key record : nodes_ok N -> node_in N k key record ->
  node_key_encode key = Ok k /\ cells_ok (properties record).
Proof.
  intros HN (v & Hk & Hn). destruct (node_of_ok N k v HN Hk) as (key' & record' & E & _ & _ & Hc & He & _).
  rewrite Hn in E. by injection E as <- <-.
Qed.

Section declared.
Context (labels base_labels : gmap bytes LabelDef) (C : gset bytes) (N : gmap bytes bytes) (HN : nodes_ok N).

Lemma each_node (f : NodeKey * NodeRecord -> result GraphError (list GraphViolation))
    (g : bytes -> NodeKey -> NodeRecord -> LabelDef -> list GraphViolation) :
  (forall k key record, node_key_encode key = Ok k ->
    f (key, record) = Ok (match labels !! label key with Some def => g k key record def | None => [] end)) ->
  exists l, concat_results f (map snd (btree_iter (node_set N))) = Ok l /\
    (l = [] <-> forall k key record def, node_in N k key record -> labels !! label key = Some def -> g k key record def = []).
Proof.
  intros Hf.
  set (G := fun n : NodeKey * NodeRecord =>
    match node_key_encode n.1, labels !! label n.1 with Ok k, Some def => g k n.1 n.2 def | _, _ => [] end).
  assert (forall key record, (key, record) ∈ map snd (btree_iter (node_set N)) -> exists k, node_in N k key record) as Hin.
  { intros key record H. apply list_elem_of_fmap in H as ([k [? ?]] & E & H). cbn in E. injection E as <- <-.
    exists k. by apply node_set_elem. }
  exists (concat (map G (map snd (btree_iter (node_set N))))). split.
  - apply concat_results_ok. intros [key record] H. destruct (Hin key record H) as [k Hk].
    destruct (node_in_ok N k key record HN Hk) as [He _]. rewrite (Hf k) by done. unfold G. cbn [fst snd]. by rewrite He; destruct (labels !! label key).
  - rewrite concat_map_nil. split.
    + intros H k key record def Hk Hd. destruct (node_in_ok N k key record HN Hk) as [He _].
      specialize (H (key, record)). unfold G in H. cbn [fst snd] in H. rewrite He, Hd in H. apply H.
      apply node_set_elem in Hk; [|done]. by apply (list_elem_of_fmap_2 snd) in Hk.
    + intros H [key record] Hn. destruct (Hin key record Hn) as [k Hk]. destruct (node_in_ok N k key record HN Hk) as [He _].
      unfold G. cbn [fst snd]. rewrite He. destruct (labels !! label key) as [def|] eqn:Ed; [|done]. by apply (H k).
Qed.

(** A missing property is reported when its node changed or it is newly required. *)
Lemma existence_spec : exists l, concat_results (existence_of labels base_labels C) (map snd (btree_iter (node_set N))) = Ok l /\
  (l = [] <-> forall k key record def p, node_in N k key record -> labels !! label key = Some def -> p ∈ lexists def ->
    k ∈ C \/ newly_required base_labels (label key) p = true -> is_present record def p = true).
Proof.
  destruct (each_node (existence_of labels base_labels C)
    (fun k key record def => omap (existence_breach base_labels k (bool_decide (k ∈ C)) (label key) record def) (lexists def))) as (l & E & Hl).
  { intros k key record He. unfold existence_of. rewrite He. by destruct (labels !! label key). }
  exists l. split; [exact E|]. rewrite Hl. clear E Hl. split.
  - intros H k key record def p Hk Hd Hp Hbad. specialize (H k key record def Hk Hd). rewrite omap_nil_iff in H.
    specialize (H p Hp). unfold existence_breach in H. destruct (is_present record def p); [done|].
    destruct Hbad as [Hb|Hb]; [rewrite bool_decide_true in H by done; done|by rewrite Hb, orb_true_r in H].
  - intros H k key record def Hk Hd. apply omap_nil_iff. intros p Hp. unfold existence_breach.
    destruct (is_present record def p) eqn:Ep; [done|]. specialize (H k key record def p Hk Hd Hp). rewrite Ep in H.
    rewrite bool_decide_false by (intros Hb; by specialize (H (or_introl Hb))). cbn [orb].
    destruct (newly_required base_labels (label key) p); [by specialize (H (or_intror eq_refl))|done].
Qed.

(** A wrong type is reported when its node changed or the type is newly declared. *)
Lemma types_spec : exists l, concat_results (types_of labels base_labels C) (map snd (btree_iter (node_set N))) = Ok l /\
  (l = [] <-> forall k key record def p d a, node_in N k key record -> labels !! label key = Some def ->
    (p, d, a) ∈ type_violations key record def ->
    k ∉ C /\ newly_declared (option_map ltypes (base_labels !! label key)) p d = false).
Proof.
  destruct (each_node (types_of labels base_labels C)
    (fun k key record def => omap (type_breach base_labels k (bool_decide (k ∈ C)) (label key)) (type_violations key record def))) as (l & E & Hl).
  { intros k key record He. unfold types_of. rewrite He. by destruct (labels !! label key). }
  exists l. split; [exact E|]. rewrite Hl. clear E Hl. split.
  - intros H k key record def p d a Hk Hd Hp. specialize (H k key record def Hk Hd). rewrite omap_nil_iff in H.
    specialize (H (p, d, a) Hp). unfold type_breach in H. case_bool_decide; [done|]. split; [done|]. cbn [orb] in H.
    by destruct (newly_declared _ p d).
  - intros H k key record def Hk Hd. apply omap_nil_iff. intros [[p d] a] Hp. destruct (H k key record def p d a Hk Hd Hp) as [H1 H2].
    unfold type_breach. by rewrite bool_decide_false, H2.
Qed.

(** ** Colliding values *)

Definition member_event (g : (bytes * (bytes * bytes)) * (Value * list (bytes * NodeKey))) : (bytes * (bytes * bytes)) * list bytes :=
  (g.1, map fst g.2.2).

Lemma push_member_event k v m groups :
  map member_event (push_group triple_cmp k v m groups) = push_member k m.1 (map member_event groups).
Proof.
  induction groups as [|[k' [v' ms]] rest IH]; [done|]. cbn [push_group map push_member]. unfold member_event in *. cbn [fst snd].
  destruct (triple_cmp k k'); cbn [map fst snd]; [by rewrite map_app|done|by rewrite IH].
Qed.

Lemma group_unique_events k key record ps groups :
  node_key_encode key = Ok k -> cells_ok (properties record) ->
  group_unique key record ps (map member_event groups) =
    Ok (map member_event (foldl (push_event triple_cmp) groups (unique_events (fun p e => (label key, (p, e))) (k, key) record ps))).
Proof.
  intros Hk Hc. revert groups. induction ps as [|p ps IH]; intros groups; [done|]. cbn [group_unique unique_events omap list_omap].
  destruct (properties record !! p) as [v|] eqn:Ev; [|apply IH]. destruct (Hc p v Ev) as [_ [e He]]. rewrite He, Hk. cbn [map_err rbind].
  rewrite <-(push_member_event (label key, (p, e)) v (k, key)). apply IH.
Qed.

Lemma group_merged_events nodes groups :
  Forall (fun n => node_key_encode n.2.1 = Ok n.1 /\ cells_ok (properties n.2.2)) nodes ->
  group_merged labels (map snd nodes) (map member_event groups) =
    Ok (map member_event (foldl (push_event triple_cmp) groups (concat (map (node_events labels) nodes)))).
Proof.
  intros H. revert groups. induction H as [|[k [key record]] nodes [He Hc] _ IH]; intros groups; [done|].
  cbn [map group_merged concat fst snd] in *. rewrite foldl_app. unfold node_events at 1. cbn [fst snd].
  destruct (labels !! label key) as [def|]; [|apply IH]. rewrite (group_unique_events k) by done. cbn [rbind]. apply IH.
Qed.
End declared.

Section unique.
Context (labels base_labels : gmap bytes LabelDef) (C : gset bytes) (N : gmap bytes bytes) (HN : nodes_ok N).
Context (Hnodup : forall l def, labels !! l = Some def -> NoDup (lunique def)).

#[local] Abbreviation nodes := (btree_iter (node_set N)).
#[local] Abbreviation events := (concat (map (node_events labels) nodes)).

(** Nodes of one label that hold one value of a unique property. *)
Definition holds_unique (l p e k : bytes) : Prop :=
  exists key record def v, node_in N k key record /\ label key = l /\ labels !! l = Some def /\ p ∈ lunique def /\
    properties record !! p = Some v /\ encode_value v = Ok e.

Lemma event_holds l p e v k key : ((l, (p, e)), (v, (k, key))) ∈ events -> holds_unique l p e k.
Proof.
  intros H. apply list_elem_of_In, in_concat in H as (evs & Hevs & H).
  apply in_map_iff in Hevs as ([kb [key' record]] & <- & Hn). apply list_elem_of_In in Hn. apply list_elem_of_In in H.
  unfold node_events in H. cbn [fst snd] in H. destruct (labels !! label key') as [def|] eqn:Ed; [|by apply elem_of_nil in H].
  apply list_elem_of_omap in H as (q & Hq & Hj). destruct (properties record !! q) as [u|] eqn:Eu; [|done].
  destruct (encode_value u) as [e'|] eqn:Ee; [|done]. injection Hj as <- <- <- _ <- _.
  exists key', record, def, u. split_and!; try done. by apply node_set_elem in Hn.
Qed.

Lemma matching_members l p e def :
  labels !! l = Some def -> p ∈ lunique def ->
  map (fun x => x.1) (map snd (matching triple_cmp events (l, (p, e)))) = map (fun x => x.1.1) (omap (joins (p, e)) (same_label l nodes)).
Proof. intros Hd Hp. rewrite (matching_nodes labels l def) by (done || by eapply Hnodup). by rewrite !map_map. Qed.

Lemma members_sorted pe l : StronglySorted bytes_lt (map (fun x => x.1.1) (omap (joins pe) (same_label l nodes))).
Proof.
  apply (omap_keys (joins pe) fst (fun y => y.1.1)); [by intros n x H; eapply joins_position|]. apply filter_keys, btree_iter_keys.
Qed.

Lemma members_elem l p e k def :
  labels !! l = Some def -> p ∈ lunique def ->
  k ∈ map (fun x => x.1.1) (omap (joins (p, e)) (same_label l nodes)) <-> holds_unique l p e k.
Proof.
  intros Hd Hp. rewrite list_elem_of_fmap. split.
  - intros ([[k' key] v] & -> & H). apply list_elem_of_omap in H as ([kb [key' record]] & Hn & Hj). apply joins_Some in Hj as (u & Hu & He & E).
    cbn [fst snd] in *. injection E as -> -> ->. apply list_elem_of_In, filter_In in Hn as [Hn Hl]. apply bool_decide_eq_true in Hl.
    apply list_elem_of_In, node_set_elem in Hn; [|done]. exists key', record, def, u. by split_and!.
  - intros (key & record & def' & v & Hn & Hl & Hd' & _ & Hv & He). exists (k, key, v). split; [done|]. apply list_elem_of_omap.
    exists (k, (key, record)). split; [|apply joins_Some; by exists v]. apply list_elem_of_In, filter_In.
    split; [by apply list_elem_of_In, node_set_elem|]. cbn [fst snd]. by apply bool_decide_eq_true.
Qed.

(** A group collects the holders of its value. *)
Lemma group_holds l p e v ms :
  ((l, (p, e)), (v, ms)) ∈ group_events triple_cmp events ->
  StronglySorted bytes_lt (map fst ms) /\ forall k, k ∈ map fst ms <-> holds_unique l p e k.
Proof.
  intros H. apply (group_events_spec triple_cmp triple_cmp_eq triple_cmp_sym triple_cmp_trans) in H as (m & rest & Em & ->).
  assert (exists k0, holds_unique l p e k0) as (k0 & key0 & r0 & def & v0 & _ & _ & Hd & Hp & _).
  { assert ((v, m) ∈ matching triple_cmp events (l, (p, e))) as Hin by (rewrite Em; by left).
    apply list_elem_of_omap in Hin as ([k1 [v1 [kb key]]] & Hev & Hk). cbn [fst snd] in Hk.
    destruct (triple_cmp (l, (p, e)) k1) eqn:E; [|done..]. apply triple_cmp_eq in E as <-. exists kb. by eapply event_holds. }
  replace (map fst (m :: map snd rest)) with (map (fun x : bytes * NodeKey => x.1) (map snd (matching triple_cmp events (l, (p, e)))))
    by (by rewrite Em).
  rewrite (matching_members l p e def Hd Hp). split; [apply members_sorted|]. intros k. by apply members_elem with def.
Qed.

Lemma holder_grouped l p e k : holds_unique l p e k -> exists v ms, ((l, (p, e)), (v, ms)) ∈ group_events triple_cmp events.
Proof.
  intros H. pose proof H as (key & record & def & v & _ & _ & Hd & Hp & _).
  destruct (group_events_spec triple_cmp triple_cmp_eq triple_cmp_sym triple_cmp_trans events) as [_ Hg].
  destruct (matching triple_cmp events (l, (p, e))) as [|[v0 m] rest] eqn:Em.
  - apply (members_elem l p e k def Hd Hp) in H. rewrite <-(matching_members l p e def Hd Hp), Em in H. by apply elem_of_nil in H.
  - exists v0, (m :: map snd rest). apply Hg. by exists m, rest.
Qed.

(** A collision is reported when a holder changed or the property is newly unique. *)
Lemma unique_spec : exists l, group_merged labels (map snd nodes) [] = Ok l /\
  (omap (unique_breach base_labels C) l = [] <-> forall l p e k k', holds_unique l p e k -> holds_unique l p e k' ->
    newly_unique base_labels l p = true \/ k ∈ C -> k = k').
Proof.
  exists (map member_event (group_events triple_cmp events)). split.
  { change (@nil ((bytes * (bytes * bytes)) * list bytes)) with (map member_event []). unfold group_events. rewrite (group_merged_events labels nodes []); [done|]. apply Forall_forall. intros [k [key record]] Hin.
    apply node_set_elem in Hin; [|done]. by apply (node_in_ok N k key record HN). }
  rewrite omap_nil_iff. split.
  - intros H l p e k k' Hk Hk' Hbad. destruct (holder_grouped l p e k Hk) as (v & ms & Hin).
    destruct (group_holds l p e v ms Hin) as [Hs Hms]. apply Hms in Hk, Hk'. specialize (H (member_event ((l, (p, e)), (v, ms)))).
    specialize (H ltac:(by apply list_elem_of_fmap_2)). unfold member_event, unique_breach in H. cbn [fst snd] in H.
    destruct (map fst ms) as [|x [|y ks]] eqn:Ems; [by apply elem_of_nil in Hk| |].
    + apply list_elem_of_singleton in Hk, Hk'. by subst.
    + cbn [length Nat.ltb Nat.leb] in H. destruct Hbad as [Hb|Hb]; [by rewrite Hb in H|].
      replace (existsb _ (x :: y :: ks)) with true in H; [by rewrite orb_true_r in H|]. symmetry. apply existsb_exists.
      exists k. split; [by apply list_elem_of_In|by apply bool_decide_eq_true].
  - intros H g Hin. apply list_elem_of_fmap in Hin as ([[l [p e]] [v ms]] & -> & Hin).
    destruct (group_holds l p e v ms Hin) as [Hs Hms]. unfold member_event, unique_breach. cbn [fst snd].
    destruct (map fst ms) as [|x [|y ks]] eqn:Ems; [done..|]. cbn [length Nat.ltb Nat.leb].
    assert (bytes_lt x y) as Hlt by (apply StronglySorted_inv in Hs as [_ Hall]; by apply Forall_cons_1 in Hall as [? _]).
    assert (holds_unique l p e x) as Hx by (apply Hms; by left). assert (holds_unique l p e y) as Hy by (apply Hms; right; by left).
    destruct (newly_unique base_labels l p) eqn:En; [apply bytes_lt_ne in Hlt; destruct Hlt; apply (H l p e); auto|].
    cbn [orb]. destruct (existsb _ (x :: y :: ks)) eqn:Et; [|done]. apply existsb_exists in Et as (z & Hz & HC).
    apply bool_decide_eq_true in HC. apply list_elem_of_In, Hms in Hz.
    apply bytes_lt_ne in Hlt. destruct Hlt. rewrite <-(H l p e z x), <-(H l p e z y) by auto. done.
Qed.
End unique.

(** ** Declared types of the merged edges *)

Lemma edge_in_decodes E k key v : edges_ok E -> E !! k = Some v -> decode_fwd k = Ok key -> exists record, edge_in E k key record.
Proof. intros HE Hk Hd. destruct (HE k v Hk) as (_ & _ & [r Hr]). exists r, v. by split_and!. Qed.

Section edges.
Context {S : Type} {CS : ChunkStore S} {CSL : ChunkStoreLaws S}.
Context (rels base_rels : gmap bytes RelTypeDef) (C : gset bytes).

Definition edge_breaches (k : bytes) (key : EdgeKey) (record : EdgeRecord) : list GraphViolation :=
  match rels !! rtype key with
  | Some def => omap (edge_type_breach base_rels k (bool_decide (k ∈ C)) (rtype key)) (rel_type_violations key record def)
  | None => []
  end.

Lemma no_rel_types : existsb (fun '(_, def) => negb (bool_decide (rtypes def = ∅))) (btree_iter rels) = false ->
  forall t def, rels !! t = Some def -> rtypes def = ∅.
Proof.
  intros H t def Hd. apply btree_iter_elem in Hd. destruct (decide (rtypes def = ∅)) as [|Hne]; [done|].
  apply not_true_iff_false in H. destruct H. apply existsb_exists. exists (t, def). split; [by apply list_elem_of_In|].
  by rewrite bool_decide_false.
Qed.

Lemma edge_types_spec (s : S) R E acc :
  describes s R E -> edges_ok E ->
  exists l,
    (forall f, size E < f -> (if existsb (fun '(_, def) => negb (bool_decide (rtypes def = ∅))) (btree_iter rels)
     then for_each f s R Unbounded Unbounded (edge_types_body rels base_rels C) acc else Ok acc) = Ok (acc ++ l)) /\
    (l = [] <-> forall k key record def p d a, edge_in E k key record -> rels !! rtype key = Some def ->
      (p, d, a) ∈ rel_type_violations key record def ->
      k ∉ C /\ newly_declared (option_map rtypes (base_rels !! rtype key)) p d = false).
Proof.
  intros HR HE. destruct (existsb _ (btree_iter rels)) eqn:Ex.
  2: { exists []. split; [by intros f _; rewrite app_nil_r|]. split; [|done]. intros _ k key record def p d a _ Hd Hin.
       unfold rel_type_violations in Hin. rewrite bool_decide_true in Hin by (by apply (no_rel_types Ex (rtype key))).
       by apply elem_of_nil in Hin. }
  destruct (for_each_spec s R E (edge_types_body rels base_rels C) acc HR) as (m & Hm & Hrun).
  set (g := fun kv : bytes * bytes => match decode_fwd kv.1, edge_record_decode kv.2 with
                                      | Ok key, Ok record => edge_breaches kv.1 key record | _, _ => [] end).
  exists (concat (map g m)). split.
  - intros f Hf. rewrite Hrun by done. apply fold_flow_collect, Forall_forall. intros [k v] Hin acc'. apply (entries_in_lookup E m) in Hin; [|done].
    destruct (HE k v Hin) as (_ & [key Hk] & [record Hr]). unfold edge_types_body, g, edge_breaches. cbn [fst snd]. rewrite Hk, Hr.
    cbn [map_err rbind]. destruct (rels !! rtype key); [done|by rewrite app_nil_r].
  - rewrite concat_map_nil. split.
    + intros H k key record def p d a (v & Hk & Hd & Hr) Hdef Hin. specialize (H (k, v) ltac:(by apply (entries_in_lookup E m))).
      unfold g, edge_breaches in H. cbn [fst snd] in H. rewrite Hd, Hr, Hdef, omap_nil_iff in H. specialize (H _ Hin).
      unfold edge_type_breach in H. case_bool_decide; [done|]. split; [done|]. cbn [orb] in H. by destruct (newly_declared _ p d).
    + intros H [k v] Hin. apply (entries_in_lookup E m) in Hin; [|done]. unfold g, edge_breaches. cbn [fst snd].
      destruct (decode_fwd k) as [key|] eqn:Hd; [|done]. destruct (edge_record_decode v) as [record|] eqn:Hr; [|done].
      destruct (rels !! rtype key) as [def|] eqn:Hdef; [|done]. apply omap_nil_iff. intros [[p d] a] Hp.
      destruct (H k key record def p d a) as [H1 H2]; [by exists v|done..|]. unfold edge_type_breach. by rewrite bool_decide_false, H2.
Qed.

(** ** Stale discriminators *)

Lemma foldl_same {A B : Type} (f g : A -> B -> A) (l : list B) a : (forall a b, f a b = g a b) -> foldl f a l = foldl g a l.
Proof. intros H. revert a. induction l as [|b l IH]; intros a; [done|]. cbn [foldl]. by rewrite H, IH. Qed.

Lemma disagreeing_spec side t : is_Some (disagreeing rels side !! t) <-> merged_disc side t <> merged_disc rels t.
Proof.
  unfold disagreeing.
  set (sel1 := fun e : bytes * RelTypeDef => if bool_decide (discriminator e.2 = merged_disc rels e.1) then None else Some (e.1, discriminator e.2)).
  set (sel2 := fun e : bytes * RelTypeDef =>
    if bool_decide (side !! e.1 = None) && bool_decide (merged_disc rels e.1 <> None) then Some (e.1, @None bytes) else None).
  rewrite (foldl_same _ (fun acc x => match sel2 x with Some (n, d) => <[n := d]> acc | None => acc end) _ _)
    by (intros a [n d]; unfold sel2; cbn [fst snd]; by destruct (_ && _)).
  rewrite (foldl_same _ (fun acc x => match sel1 x with Some (n, d) => <[n := d]> acc | None => acc end) _ ∅)
    by (intros a [n d]; unfold sel1; cbn [fst snd]; by case_bool_decide).
  assert (forall x d, x ∈ btree_iter side -> sel1 x = Some (t, d) <-> x.1 = t /\ side !! t = Some x.2 /\ d = discriminator x.2 /\ d <> merged_disc rels t) as H1.
  { intros [n def] d Hin. apply btree_iter_elem in Hin. unfold sel1. cbn [fst snd]. case_bool_decide as Hb; [|naive_solver].
    split; [done|]. intros (<- & _ & -> & Hne). done. }
  assert (forall x d, x ∈ btree_iter rels -> sel2 x = Some (t, d) <-> x.1 = t /\ d = None /\ side !! t = None /\ merged_disc rels t <> None) as H2.
  { intros [n def] d _. unfold sel2. cbn [fst snd]. (repeat (case_bool_decide; cbn [andb])); naive_solver. }
  set (D1 := foldl _ ∅ (btree_iter side)).
  assert (forall d, D1 !! t = Some d <-> exists def, side !! t = Some def /\ d = discriminator def /\ d <> merged_disc rels t) as HD1.
  { intros d. subst D1. rewrite fold_insert.
    - rewrite lookup_empty. split.
      + intros [(x & Hin & Hx)|[_ ?]]; [|done]. apply H1 in Hx as (<- & Hs & -> & Hne); [|done]. by exists x.2.
      + intros (def & Hs & -> & Hne). left. exists (t, def). split; [by apply btree_iter_elem|].
        apply H1; [by apply btree_iter_elem|]. by split_and!.
    - intros x y a b Hx Hy Sx Sy. apply H1 in Sx as (_ & Hsx & -> & _); [|done]. apply H1 in Sy as (_ & Hsy & -> & _); [|done]. congruence. }
  assert (forall d, (exists x, x ∈ btree_iter rels /\ sel2 x = Some (t, d)) <-> d = None /\ side !! t = None /\ merged_disc rels t <> None) as HD2.
  { intros d. split; [intros (x & Hin & Hx); by apply H2 in Hx as (_ & -> & H)|]. intros (-> & Hs & Hm). unfold merged_disc in Hm.
    destruct (rels !! t) as [def|] eqn:E; [|done]. exists (t, def). split; [by apply btree_iter_elem|].
    apply H2; [by apply btree_iter_elem|]. split_and!; try done. unfold merged_disc. by rewrite E. }
  assert (forall d, foldl (fun acc x => match sel2 x with Some (n, d) => <[n := d]> acc | None => acc end) D1 (btree_iter rels) !! t = Some d <->
    (d = None /\ side !! t = None /\ merged_disc rels t <> None) \/
    ((forall x a, x ∈ btree_iter rels -> sel2 x <> Some (t, a)) /\ D1 !! t = Some d)) as HD.
  { intros d. rewrite fold_insert; [by rewrite HD2|]. intros x y a b Hx Hy Sx Sy. apply H2 in Sx as (_ & -> & _); [|done].
    by apply H2 in Sy as (_ & -> & _). }
  unfold merged_disc at 1. destruct (side !! t) as [def|] eqn:Es; cbn.
  - split.
    + intros [d Hd]. apply HD in Hd as [(_ & ? & _)|[_ Hd]]; [done|]. by apply HD1 in Hd as (def' & [= <-] & -> & Hne).
    + intros Hne. exists (discriminator def). apply HD. right. split; [|apply HD1; by exists def]. intros x a Hx Sx. by apply H2 in Sx as (_ & _ & ? & _).
  - split.
    + intros [d Hd]. apply HD in Hd as [(_ & _ & Hm)|[_ Hd]]; [congruence|]. by apply HD1 in Hd as (def' & ? & _).
    + intros Hne. exists None. apply HD. left. by split_and!.
Qed.

End edges.

(** A side is settled when every edge of its own that the merge kept was
    written under the merged discriminator of its type. *)
Definition settled (rels side_rels : gmap bytes RelTypeDef) (E SE : gmap bytes bytes) : Prop :=
  forall k e, is_Some (SE !! k) -> is_Some (E !! k) -> decode_fwd k = Ok e -> merged_disc side_rels (rtype e) = merged_disc rels (rtype e).

Section stale.
Context {S : Type} {CS : ChunkStore S} {CSL : ChunkStoreLaws S}.
Implicit Types (s : S).
Context (rels : gmap bytes RelTypeDef) (E : gmap bytes bytes).

Definition stale_edge (dis : gmap bytes (option bytes)) (k : bytes) : option (EdgeKey * option bytes) :=
  match decode_fwd k with
  | Ok e => match dis !! rtype e, E !! k with Some minted, Some _ => Some (e, minted) | _, _ => None end
  | Err _ => None
  end.

Definition stale_step (dis : gmap bytes (option bytes)) (stale : gmap bytes GraphViolation) (kv : bytes * bytes) : gmap bytes GraphViolation :=
  match stale_edge dis kv.1, stale !! kv.1 with
  | Some (e, minted), None => <[kv.1 := StaleDiscriminator kv.1 (merged_disc rels (rtype e)) minted]> stale
  | _, _ => stale
  end.

Lemma stale_step_empty dis stale kv : stale_step dis stale kv = ∅ <-> stale = ∅ /\ stale_edge dis kv.1 = None.
Proof.
  unfold stale_step. destruct (stale_edge dis kv.1) as [[e minted]|]; [|tauto].
  destruct (stale !! kv.1) as [v|] eqn:Es.
  - split; [intros ->; by rewrite lookup_empty in Es|by intros [_ ?]].
  - split; [intros H; by apply insert_non_empty in H|by intros [_ ?]].
Qed.

Lemma stale_fold_empty dis (m : kvs) stale :
  foldl (stale_step dis) stale m = ∅ <-> stale = ∅ /\ forall kv, kv ∈ m -> stale_edge dis kv.1 = None.
Proof.
  revert stale. induction m as [|kv m IH]; intros stale; cbn [foldl].
  - split; [intros ->; split; [done|]; intros kv H; by apply elem_of_nil in H|by intros [? _]].
  - rewrite IH, stale_step_empty. setoid_rewrite elem_of_cons. naive_solver.
Qed.

Lemma stale_side_spec s side SS side_rels SE RE stale :
  map_at s (chunk_params side) (m_schema side) SS -> schema_map_ok SS -> defs_of sel_rel_type SS side_rels ->
  map_at s (chunk_params side) (m_edges_fwd side) SE -> edges_ok SE -> describes s RE E ->
  exists stale', (forall f, size SS + size SE < f -> stale_side f s rels RE side stale = Ok stale') /\
    (stale' = ∅ <-> stale = ∅ /\ settled rels side_rels E SE).
Proof.
  intros (RS & ERS & DS) HS Hrels (RF & ERF & DF) HE HRE.
  assert (forall f, size SS + size SE < f -> stale_side f s rels RE side stale =
    if bool_decide (disagreeing rels side_rels = ∅) then Ok stale
    else for_each f s RF Unbounded Unbounded (stale_body s rels RE (disagreeing rels side_rels)) stale) as Hrun0.
  { intros f Hf. unfold stale_side. rewrite ERS. cbn [map_err rbind].
    rewrite (rel_type_defs_spec s RS SS side_rels f DS HS Hrels) by lia. cbn [rbind]. case_bool_decide; [done|]. by rewrite ERF. }
  assert (forall k e, decode_fwd k = Ok e -> is_Some (E !! k) ->
    stale_edge (disagreeing rels side_rels) k = None <-> merged_disc side_rels (rtype e) = merged_disc rels (rtype e)) as Hedge.
  { intros k e He [v Hv]. pose proof (disagreeing_spec rels side_rels (rtype e)) as Hd. unfold stale_edge. rewrite He, Hv.
    destruct (disagreeing rels side_rels !! rtype e) as [x|].
    - assert (merged_disc side_rels (rtype e) <> merged_disc rels (rtype e)) by (apply Hd; by exists x). by split.
    - split; [|done]. intros _. destruct (decide (merged_disc side_rels (rtype e) = merged_disc rels (rtype e))) as [|Hne]; [done|].
      by apply Hd in Hne as [? ?]. }
  destruct (decide (disagreeing rels side_rels = ∅)) as [Hempty|Hempty].
  - exists stale. split; [intros f Hf; rewrite Hrun0 by done; by rewrite bool_decide_true|]. split; [|by intros [? _]]. intros ->. split; [done|]. intros k e Hk HkE He. apply (Hedge k e He HkE).
    unfold stale_edge. rewrite He, Hempty, lookup_empty. done.
  - destruct (for_each_spec s RF SE (stale_body s rels RE (disagreeing rels side_rels)) stale DF) as (m & Hm & Hrun).
    exists (foldl (stale_step (disagreeing rels side_rels)) stale m). split.
    + intros f Hf. rewrite Hrun0, bool_decide_false by done. rewrite Hrun by lia. apply fold_flow_foldl. intros k v a Hin. apply (entries_in_lookup SE m) in Hin; [|done].
      destruct (HE k v Hin) as (_ & [e He] & _). unfold stale_body, stale_step, stale_edge. cbn [fst snd]. rewrite He. cbn [map_err rbind].
      destruct (disagreeing rels side_rels !! rtype e); [|done]. destruct (a !! k) eqn:Ea; [by destruct (E !! k)|].
      rewrite (describes_lookup s RE E k HRE). cbn [map_err rbind]. by destruct (E !! k).
    + rewrite stale_fold_empty. apply and_iff_compat_l. split.
      * intros H k e [v Hk] HkE He. apply (Hedge k e He HkE). apply (H (k, v)). by apply (entries_in_lookup SE m).
      * intros H [k v] Hin. apply (entries_in_lookup SE m) in Hin; [|done]. cbn [fst]. destruct (HE k v Hin) as (_ & [e He] & _).
        destruct (E !! k) as [w|] eqn:Ew; [|unfold stale_edge; rewrite He, Ew; by destruct (disagreeing _ _ !! _)].
        apply (Hedge k e He); [by rewrite Ew|]. apply (H k e); [by exists v|by exists w|done].
Qed.
End stale.

(** ** Valid graphs *)

Record GraphMaps : Type := mkGraphMaps {
  g_labels : gmap bytes LabelDef; g_rels : gmap bytes RelTypeDef; g_nodes : gmap bytes bytes; g_edges : gmap bytes bytes }.

(** A version of a graph in a store, its records readable. *)
Record graph_at {S : Type} {CS : ChunkStore S} {CSL : ChunkStoreLaws S} (s : S) (p : ChunkParams) (m : Manifest) (g : GraphMaps) : Prop := mkGraphAt {
  ga_schema : exists SM, map_at s p (m_schema m) SM /\ schema_map_ok SM /\ defs_of sel_label SM (g_labels g) /\ defs_of sel_rel_type SM (g_rels g);
  ga_nodes : map_at s p (m_nodes m) (g_nodes g); ga_nodes_ok : nodes_ok (g_nodes g);
  ga_edges : map_at s p (m_edges_fwd m) (g_edges g); ga_edges_ok : edges_ok (g_edges g) }.

Record valid_graph (g : GraphMaps) : Prop := mkValid {
  no_dangling : forall k e role enc, is_Some (g_edges g !! k) -> decode_fwd k = Ok e -> node_key_encode (endpoint role e) = Ok enc ->
    is_Some (g_nodes g !! enc);
  required_present : forall k key record def p, node_in (g_nodes g) k key record -> g_labels g !! label key = Some def ->
    p ∈ lexists def -> is_present record def p = true;
  types_hold : forall k key record def, node_in (g_nodes g) k key record -> g_labels g !! label key = Some def ->
    type_violations key record def = [];
  edge_types_hold : forall k key record def, edge_in (g_edges g) k key record -> g_rels g !! rtype key = Some def ->
    rel_type_violations key record def = [];
  unique_holds : forall l p e k k', holds_unique (g_labels g) (g_nodes g) l p e k -> holds_unique (g_labels g) (g_nodes g) l p e k' -> k = k' }.

(** What may not change under data that is there: the key of a label, the
    discriminator of a relationship type. *)
Definition same_identity (b g : GraphMaps) : Prop :=
  (forall k key record bd d, node_in (g_nodes b) k key record -> node_in (g_nodes g) k key record ->
    g_labels b !! label key = Some bd -> g_labels g !! label key = Some d -> lkey bd = lkey d) /\
  (forall k key record bd d, edge_in (g_edges b) k key record -> edge_in (g_edges g) k key record ->
    g_rels b !! rtype key = Some bd -> g_rels g !! rtype key = Some d -> discriminator bd = discriminator d).

Lemma type_violations_elem key record def p d a :
  (p, d, a) ∈ type_violations key record def <-> ltypes def !! p = Some d /\ type_violation key record def (p, d) = Some (p, d, a).
Proof.
  unfold type_violations. case_bool_decide as He.
  { rewrite He. split; [intros H; by apply elem_of_nil in H|by intros [? _]]. }
  rewrite list_elem_of_omap. split.
  - intros ([p' d'] & Hin & Hv). apply btree_iter_elem in Hin. assert (p' = p /\ d' = d) as [-> ->]; [|done].
    revert Hv. unfold type_violation. repeat case_match; try done; by intros [= -> -> ->].
  - intros [Hd Hv]. exists (p, d). split; [by apply btree_iter_elem|done].
Qed.

Lemma type_violation_key key record d1 d2 x : lkey d1 = lkey d2 -> type_violation key record d1 x = type_violation key record d2 x.
Proof. intros H. unfold type_violation. by rewrite H. Qed.

Lemma rel_type_violations_elem key record def p d a :
  (p, d, a) ∈ rel_type_violations key record def <-> rtypes def !! p = Some d /\
    first_mismatch d (option_list (edge_properties record !! p) ++ (if bool_decide (discriminator def = Some p) then [disc key] else [])) = Some a.
Proof.
  unfold rel_type_violations. case_bool_decide as He.
  { rewrite He. split; [intros H; by apply elem_of_nil in H|by intros [? _]]. }
  rewrite list_elem_of_omap. split.
  - intros ([p' d'] & Hin & Hv). apply btree_iter_elem in Hin. cbn beta iota zeta in Hv.
    destruct (first_mismatch _ _) as [a'|] eqn:E; [|done]. cbn in Hv. injection Hv as -> -> ->. done.
  - intros [Hd Hv]. exists (p, d). split; [by apply btree_iter_elem|]. by rewrite Hv.
Qed.

Lemma existsb_eq (l : list bytes) (p : bytes) : existsb (fun x => bool_decide (x = p)) l = true <-> p ∈ l.
Proof.
  rewrite existsb_exists. split.
  - intros (x & Hin & E). apply bool_decide_eq_true in E as ->. by apply list_elem_of_In.
  - intros H. exists p. split; [by apply list_elem_of_In|by apply bool_decide_eq_true].
Qed.

Section valid.
Context (b g : GraphMaps) (D C A CE : gset bytes).
Context (HD : deletes (g_nodes b) (g_nodes g) D) (HC : changes (g_nodes b) (g_nodes g) C).
Context (HA : forall k, k ∈ A <-> is_Some (g_edges g !! k) /\ g_edges b !! k = None) (HCE : changes (g_edges b) (g_edges g) CE).
Context (Hb : valid_graph b) (Hid : same_identity b g).

Lemma unchanged_node k key record : node_in (g_nodes g) k key record -> k ∉ C -> node_in (g_nodes b) k key record.
Proof.
  intros (v & Hk & Hn) HkC. exists v. split; [|done]. destruct (decide (g_nodes b !! k = g_nodes g !! k)) as [E|E]; [by rewrite E|].
  destruct HkC. apply HC. split; [by exists v|done].
Qed.

Lemma unchanged_edge k key record : edge_in (g_edges g) k key record -> k ∉ CE -> edge_in (g_edges b) k key record.
Proof.
  intros (v & Hk & Hn) HkC. exists v. split; [|done]. destruct (decide (g_edges b !! k = g_edges g !! k)) as [E|E]; [by rewrite E|].
  destruct HkC. apply HCE. split; [by exists v|done].
Qed.

Lemma no_dangling_iff :
  (forall k v e role enc, g_edges g !! k = Some v -> decode_fwd k = Ok e -> node_key_encode (endpoint role e) = Ok enc ->
     k ∈ A \/ enc ∈ D -> is_Some (g_nodes g !! enc)) <->
  forall k e role enc, is_Some (g_edges g !! k) -> decode_fwd k = Ok e -> node_key_encode (endpoint role e) = Ok enc -> is_Some (g_nodes g !! enc).
Proof.
  split; [|intros H k v e role enc Hk He Henc _; apply (H k e role); [by exists v|done..]].
  intros H k e role enc [v Hk] He Henc. destruct (g_edges b !! k) as [v'|] eqn:Eb.
  - pose proof (no_dangling b Hb k e role enc (ex_intro _ v' Eb) He Henc) as Hbase.
    destruct (g_nodes g !! enc) eqn:En; [done|]. rewrite <-En. apply (H k v e role); [done..|]. right. apply HD. by split.
  - apply (H k v e role); [done..|]. left. apply HA. split; [by exists v|done].
Qed.

Lemma required_iff :
  (forall k key record def p, node_in (g_nodes g) k key record -> g_labels g !! label key = Some def -> p ∈ lexists def ->
    k ∈ C \/ newly_required (g_labels b) (label key) p = true -> is_present record def p = true) <->
  forall k key record def p, node_in (g_nodes g) k key record -> g_labels g !! label key = Some def -> p ∈ lexists def ->
    is_present record def p = true.
Proof.
  split; [|intros H k key record def p Hn Hd Hp _; by apply (H k key record def p)].
  intros H k key record def p Hn Hd Hp. destruct (decide (k ∈ C)) as [HkC|HkC]; [apply (H k key record def p); auto|].
  destruct (newly_required (g_labels b) (label key) p) eqn:En; [apply (H k key record def p); auto|].
  unfold newly_required in En. destruct (g_labels b !! label key) as [bd|] eqn:Eb; [|done]. apply negb_false_iff, existsb_eq in En.
  pose proof (unchanged_node k key record Hn HkC) as Hnb. pose proof (required_present b Hb k key record bd p Hnb Eb En) as Hp'.
  unfold is_present in *. by rewrite <-(proj1 Hid k key record bd def Hnb Hn Eb Hd).
Qed.

Lemma types_iff :
  (forall k key record def p d a, node_in (g_nodes g) k key record -> g_labels g !! label key = Some def ->
    (p, d, a) ∈ type_violations key record def -> k ∉ C /\ newly_declared (option_map ltypes (g_labels b !! label key)) p d = false) <->
  forall k key record def, node_in (g_nodes g) k key record -> g_labels g !! label key = Some def -> type_violations key record def = [].
Proof.
  split.
  - intros H k key record def Hn Hd. destruct (type_violations key record def) as [|[[p d] a] l] eqn:Ev; [done|]. exfalso.
    assert ((p, d, a) ∈ type_violations key record def) as Hv by (rewrite Ev; by left).
    destruct (H k key record def p d a Hn Hd Hv) as [HkC En]. pose proof (unchanged_node k key record Hn HkC) as Hnb.
    destruct (g_labels b !! label key) as [bd|] eqn:Eb; [|done]. cbn in En. apply negb_false_iff, bool_decide_eq_true in En.
    apply type_violations_elem in Hv as [_ Hv]. rewrite <-(type_violation_key _ _ _ _ _ (proj1 Hid k key record bd def Hnb Hn Eb Hd)) in Hv.
    assert ((p, d, a) ∈ type_violations key record bd) as Hv' by (apply type_violations_elem; by split).
    rewrite (types_hold b Hb k key record bd Hnb Eb) in Hv'. by apply elem_of_nil in Hv'.
  - intros H k key record def p d a Hn Hd Hv. rewrite (H k key record def Hn Hd) in Hv. by apply elem_of_nil in Hv.
Qed.

Lemma edge_types_iff :
  (forall k key record def p d a, edge_in (g_edges g) k key record -> g_rels g !! rtype key = Some def ->
    (p, d, a) ∈ rel_type_violations key record def -> k ∉ CE /\ newly_declared (option_map rtypes (g_rels b !! rtype key)) p d = false) <->
  forall k key record def, edge_in (g_edges g) k key record -> g_rels g !! rtype key = Some def -> rel_type_violations key record def = [].
Proof.
  split.
  - intros H k key record def Hn Hd. destruct (rel_type_violations key record def) as [|[[p d] a] l] eqn:Ev; [done|]. exfalso.
    assert ((p, d, a) ∈ rel_type_violations key record def) as Hv by (rewrite Ev; by left).
    destruct (H k key record def p d a Hn Hd Hv) as [HkC En]. pose proof (unchanged_edge k key record Hn HkC) as Hnb.
    destruct (g_rels b !! rtype key) as [bd|] eqn:Eb; [|done]. cbn in En. apply negb_false_iff, bool_decide_eq_true in En.
    apply rel_type_violations_elem in Hv as [_ Hv]. rewrite <-(proj2 Hid k key record bd def Hnb Hn Eb Hd) in Hv.
    assert ((p, d, a) ∈ rel_type_violations key record bd) as Hv' by (apply rel_type_violations_elem; by split).
    rewrite (edge_types_hold b Hb k key record bd Hnb Eb) in Hv'. by apply elem_of_nil in Hv'.
  - intros H k key record def p d a Hn Hd Hv. rewrite (H k key record def Hn Hd) in Hv. by apply elem_of_nil in Hv.
Qed.

Lemma unique_iff :
  (forall l p e k k', holds_unique (g_labels g) (g_nodes g) l p e k -> holds_unique (g_labels g) (g_nodes g) l p e k' ->
    newly_unique (g_labels b) l p = true \/ k ∈ C -> k = k') <->
  forall l p e k k', holds_unique (g_labels g) (g_nodes g) l p e k -> holds_unique (g_labels g) (g_nodes g) l p e k' -> k = k'.
Proof.
  split; [|intros H l p e k k' H1 H2 _; by apply (H l p e)].
  intros H l p e k k' H1 H2. destruct (newly_unique (g_labels b) l p) eqn:En; [apply (H l p e); auto|].
  destruct (decide (k ∈ C)) as [HkC|HkC]; [apply (H l p e); auto|].
  destruct (decide (k' ∈ C)) as [HkC'|HkC']; [symmetry; apply (H l p e); auto|].
  unfold newly_unique in En. destruct (g_labels b !! l) as [bd|] eqn:Eb; [|done]. apply negb_false_iff, existsb_eq in En.
  assert (forall x, x ∉ C -> holds_unique (g_labels g) (g_nodes g) l p e x -> holds_unique (g_labels b) (g_nodes b) l p e x) as Hback.
  { intros x Hx (key & record & d & v & Hn & Hl & _ & _ & Hv & He). exists key, record, bd, v.
    split_and!; try done. by apply unchanged_node. }
  apply (unique_holds b Hb l p e); by apply Hback.
Qed.
End valid.

Lemma defs_of_labels SM labels : defs_of sel_label SM labels -> labels_of SM labels.
Proof.
  intros H l def. rewrite (H l def). split.
  - intros (k & v & [n d|n d|n d] & Hk & Hd & E); try done. injection E as -> ->. by exists k, v.
  - intros (k & v & Hk & Hd). by exists k, v, (LabelEntry l def).
Qed.

Lemma btree_iter_nil {A : Type} (m : gmap bytes A) : map snd (btree_iter m) = [] <-> m = ∅.
Proof.
  split.
  - intros H. apply map_empty. intros k. apply eq_None_not_Some. intros [v Hv]. apply btree_iter_elem in Hv.
    destruct (btree_iter m); [by apply elem_of_nil in Hv|done].
  - intros ->. destruct (btree_iter ∅) as [|[k v] l] eqn:E; [done|].
    assert ((k, v) ∈ btree_iter (∅ : gmap bytes A)) as Hin by (rewrite E; by left). apply btree_iter_elem in Hin. by rewrite lookup_empty in Hin.
Qed.

Lemma app_nil {A : Type} (a b : list A) : a ++ b = [] <-> a = [] /\ b = [].
Proof. split; [apply app_eq_nil|by intros [-> ->]]. Qed.

Section validate.
Context {S : Type} {CS : ChunkStore S} {CSL : ChunkStoreLaws S}.
Implicit Types (s : S).

Lemma validate_merged_valid s base ours theirs merged B O T G :
  graph_at s (chunk_params merged) base B -> graph_at s (chunk_params merged) merged G ->
  graph_at s (chunk_params ours) ours O -> graph_at s (chunk_params theirs) theirs T ->
  exists fuel vs, (forall f, fuel <= f -> validate_merged f s base ours theirs merged = Ok vs) /\
    (valid_graph B -> same_identity B G -> vs = [] <-> valid_graph G /\ settled (g_rels G) (g_rels O) (g_edges G) (g_edges O) /\ settled (g_rels G) (g_rels T) (g_edges G) (g_edges T)).
Proof.
  intros [(SB & MSB & OSB & LB & LRB) (RBN & ERBN & DBN) OBN (RBE & ERBE & DBE) OBE]
    [(SG & (RGS & ERGS & DGS) & OSG & LG & LRG) (RGN & ERGN & DGN) OGN (RGE & ERGE & DGE) OGE]
    [(SO & MSO & OSO & _ & LRO) _ _ MOE OOE] [(ST & MST & OST & _ & LRT) _ _ MTE OTE].
  destruct MSB as (RBS & ERBS & DBS).
  destruct (diff_entries_spec s RBN RGN _ _ DBN DGN) as (esn & fn & Hfn & Hesn).
  destruct (diff_entries_spec s RBE RGE _ _ DBE DGE) as (ese & fe & Hfe & Hese).
  destruct (node_changes esn ∅ ∅) as [D C] eqn:En. destruct (edge_changes ese ∅ ∅) as [A CE] eqn:Ee.
  assert (deletes (g_nodes B) (g_nodes G) D /\ changes (g_nodes B) (g_nodes G) C) as [HD HC].
  { destruct (diff_sets esn _ _ Hesn) as (H1 & _ & H3). split; intros k; destruct (node_changes_spec esn _ _ _ _ En k) as [E1 E2].
    - rewrite E1, H1. set_solver. - rewrite E2, H3. set_solver. }
  assert ((forall k, k ∈ A <-> is_Some (g_edges G !! k) /\ g_edges B !! k = None) /\ changes (g_edges B) (g_edges G) CE) as [HA HCE].
  { destruct (diff_sets ese _ _ Hese) as (_ & H2 & H3). split; intros k; destruct (edge_changes_spec ese _ _ _ _ Ee k) as [E1 E2].
    - rewrite E1, H2. set_solver. - rewrite E2, H3. set_solver. }
  set (F := Datatypes.S (Nat.max fn fe + size SB + size SG + size SO + size ST + size (g_nodes B) + size (g_nodes G) +
    size (g_edges B) + size (g_edges G) + size (g_edges O) + size (g_edges T))).
  assert (forall l def, g_labels G !! l = Some def -> NoDup (lunique def)) as Hnd
    by (intros l def; apply (labels_of_nodup SG (g_labels G) l def OSG), defs_of_labels, LG).
  destruct (dangling_spec s RGE RGN _ _ D A DGE DGN OGE) as (l1 & H1 & I1).
  destruct (existence_spec (g_labels G) (g_labels B) C (g_nodes G) OGN) as (l2 & H2 & I2).
  destruct (types_spec (g_labels G) (g_labels B) C (g_nodes G) OGN) as (l3 & H3 & I3).
  destruct (edge_types_spec (g_rels G) (g_rels B) CE s RGE (g_edges G) (l1 ++ l2 ++ l3) DGE OGE) as (l4 & H4 & I4).
  destruct (stale_side_spec (g_rels G) (g_edges G) s ours SO _ _ RGE ∅ MSO OSO LRO MOE OOE DGE) as (st1 & H5 & I5).
  destruct (stale_side_spec (g_rels G) (g_edges G) s theirs ST _ _ RGE st1 MST OST LRT MTE OTE DGE) as (st2 & H6 & I6).
  destruct (unique_spec (g_labels G) (g_labels B) C (g_nodes G) OGN Hnd) as (gs & H7 & I7).
  exists F, ((((l1 ++ l2 ++ l3) ++ l4) ++ List.map snd (btree_iter st2)) ++ omap (unique_breach (g_labels B) C) gs). split.
  - intros f Hf. subst F. unfold validate_merged. rewrite ERBN, ERGN, ERBE, ERGE. cbn [map_err rbind].
    rewrite Hfn by lia. cbn [rbind]. rewrite En. rewrite Hfe by lia. cbn [rbind]. rewrite Ee. rewrite H1 by lia. cbn [rbind].
    rewrite ERGS. cbn [map_err rbind]. rewrite (label_defs_spec s RGS SG (g_labels G)) by (done || lia). cbn [rbind].
    rewrite ERBS. cbn [map_err rbind]. rewrite (label_defs_spec s RBS SB (g_labels B)) by (done || lia). cbn [rbind].
    destruct (all_nodes_spec s RGN (g_nodes G) f DGN OGN ltac:(lia)) as (ns & -> & ->). cbn [rbind]. rewrite H2, H3. cbn [rbind].
    rewrite (rel_type_defs_spec s RGS SG (g_rels G)) by (done || lia). cbn [rbind].
    rewrite (rel_type_defs_spec s RBS SB (g_rels B)) by (done || lia). cbn [rbind].
    rewrite H4 by lia. cbn [rbind]. unfold stale_discriminators. rewrite H5 by lia. cbn [rbind]. rewrite H6 by lia. cbn [rbind].
    by rewrite H7.
  - intros HvB Hid. rewrite !app_nil, btree_iter_nil, I1, I2, I3, I4, I6, I5, I7.
    rewrite (no_dangling_iff B G D A HD HA HvB), (required_iff B G C HC HvB Hid), (types_iff B G C HC HvB Hid),
      (edge_types_iff B G CE HCE HvB Hid), (unique_iff B G C HC HvB).
    split; [intros ((((Ha & Hb & Hc) & Hd) & (_ & He) & Hf) & Hg); split_and!; by try constructor|].
    intros ([Ha Hb Hc Hd Hg] & He & Hf). by split_and!.
Qed.
End validate.

(** The definitions of a schema map, as a function of it. *)
Definition defs_in {D : Type} (sel : SchemaEntry -> option (bytes * D)) (SM : gmap bytes bytes) : gmap bytes D :=
  foldl (fun acc x => match row_def sel x with Some (n, d) => <[n := d]> acc | None => acc end) ∅ (map_to_list SM).

Lemma defs_in_of {D : Type} (sel : SchemaEntry -> option (bytes * D)) SM :
  (forall x y n d d', sel x = Some (n, d) -> sel y = Some (n, d') -> map_key x = map_key y) ->
  schema_map_ok SM -> defs_of sel SM (defs_in sel SM).
Proof. intros Hs HS. apply fold_defs_of; [done|done|]. intros k v. apply elem_of_map_to_list. Qed.
