(* ===== verification/MergeManifestsRun.v ===== *)
(** * The merge of two versions of a graph

    [merge_manifests] merges the maps, derives the reverse map and the indexes,
    and calls the result clean exactly when no cell is disputed and - from a
    valid base - the whole merged graph is valid. *)
From S2P Require Import Prelude Ieee Model Keys Cbor Values Canonical Records KeysCodec GraphKeys Schema Store Chunker Node Tree TreeSpec TreeNodes TreeRead TreeBuild TreeLevels TreeContent TreeBatch Prolly Manifest Diff DiffRun MapDiff Scan ScanRun MapMerge Graph GraphRun CellMerge GraphMerge GraphMergeRun GraphIndex GraphIndexRun Constraints ConstraintsRun MergeValidate MergeValidateRun.

(** ** Operations with fuel that settle

    With enough fuel an operation does the same whatever the fuel. *)
Section settle.
Context {S : Type} {CS : ChunkStore S}.
Implicit Types (s : S).

Definition gev {A : Type} (F : nat -> st S GraphError A) (Q : A -> S -> Prop) s : Prop :=
  exists fuel, (forall f, fuel <= f -> F f s = F fuel s) /\ gwp (F fuel) Q s.

Lemma gev_gwp {A : Type} (F : nat -> st S GraphError A) Q s : gev F Q s -> exists fuel, forall f, fuel <= f -> gwp (F f) Q s.
Proof. intros (fuel & Hc & Hw). exists fuel. intros f Hf. unfold gwp in *. by rewrite Hc. Qed.

Lemma gev_const {A : Type} (m : st S GraphError A) Q s : gwp m Q s -> gev (fun _ => m) Q s.
Proof. intros H. by exists 0. Qed.

Lemma gev_mono {A : Type} (F : nat -> st S GraphError A) (Q Q' : A -> S -> Prop) s :
  gev F Q s -> (forall a s', extends s s' -> Q a s' -> Q' a s') -> gev F Q' s.
Proof. intros (fuel & Hc & Hw) HQ. exists fuel. split; [done|]. by eapply gwp_mono. Qed.

(** Operations that agree from some fuel on, and one of which behaves. *)
Lemma gev_intro {A : Type} (F : nat -> st S GraphError A) Q s f0 :
  (forall f, f0 <= f -> F f s = F f0 s) -> (exists f1, forall f, f1 <= f -> gwp (F f) Q s) -> gev F Q s.
Proof.
  intros Hc [f1 H1]. exists (Nat.max f0 f1). split.
  - intros f Hf. rewrite (Hc f) by lia. symmetry. apply Hc. lia.
  - apply H1. lia.
Qed.

Lemma gev_bind {A B : Type} (F : nat -> st S GraphError A) (G : A -> nat -> st S GraphError B) Q Q' s :
  gev F Q s -> (forall a s', extends s s' -> Q a s' -> gev (G a) Q' s') ->
  gev (fun f => st_bind (F f) (fun a => G a f)) Q' s.
Proof.
  intros (f1 & Hc & Hw) HG. destruct (F f1 s) as [[a|e] s1] eqn:E.
  - destruct (gwp_Ok _ _ _ _ _ Hw E) as [He Ha]. destruct (HG a s1 He Ha) as (f2 & Hc2 & Hw2).
    exists (Nat.max f1 f2). assert (forall f, Nat.max f1 f2 <= f -> st_bind (F f) (fun a => G a f) s = G a f2 s1) as Hrun.
    { intros f Hf. unfold st_bind. rewrite Hc by lia. apply Hc2. lia. }
    split; [intros f Hf; rewrite Hrun, Hrun by lia; done|].
    unfold gwp in *. rewrite Hrun by lia. rewrite E in Hw. destruct (G a f2 s1) as [[b|e] s2]; destruct Hw as [? _], Hw2 as [? ?]; (split; [by etrans|done]).
  - exists f1. assert (forall f, f1 <= f -> st_bind (F f) (fun a => G a f) s = (Err e, s1)) as Hrun.
    { intros f Hf. unfold st_bind. by rewrite Hc. }
    split; [intros f Hf; by rewrite Hrun, Hrun by lia|]. unfold gwp in *. rewrite Hrun by lia. by rewrite E in Hw.
Qed.
End settle.

(** ** Versions of a graph *)

Record Version : Type := mkVersion { v_schema : gmap bytes bytes; v_nodes : gmap bytes bytes; v_edges : gmap bytes bytes }.

Definition v_map (map : ConflictMap) (v : Version) : gmap bytes bytes :=
  match map with MSchema => v_schema v | MNodes => v_nodes v | MEdges => v_edges v end.

Definition version_ok (v : Version) : Prop := schema_map_ok (v_schema v) /\ nodes_ok (v_nodes v) /\ edges_ok (v_edges v).

Definition version_at {S : Type} {CS : ChunkStore S} {CSL : ChunkStoreLaws S} (s : S) (p : ChunkParams) (m : Manifest) (v : Version) : Prop :=
  (forall map, map_at s p (select map m) (v_map map v)) /\ version_ok v.

Definition graph_of (v : Version) : GraphMaps :=
  mkGraphMaps (defs_in sel_label (v_schema v)) (defs_in sel_rel_type (v_schema v)) (v_nodes v) (v_edges v).

Lemma version_graph {S : Type} {CS : ChunkStore S} {CSL : ChunkStoreLaws S} (s : S) p m v : version_at s p m v -> graph_at s p m (graph_of v).
Proof.
  intros (Hm & HS & HN & HE). split; [|exact (Hm MNodes)|done|exact (Hm MEdges)|done]. exists (v_schema v).
  split; [exact (Hm MSchema)|]. split; [done|]. split; apply defs_in_of; [exact sel_label_key|done|exact sel_rel_type_key|done].
Qed.

(** The maps of the merge. *)
Definition merged_map (map : ConflictMap) (MB MO MT : gmap bytes bytes) : gmap bytes bytes :=
  map_imap (fun k _ => resolved_value map (MB !! k) (MO !! k) (MT !! k)) (MO ∪ MT).

Lemma resolved_value_none map b : resolved_value map b None None = None.
Proof. unfold resolved_value, three_way. repeat case_decide; try done. Qed.

Lemma merged_map_lookup map MB MO MT k : merged_map map MB MO MT !! k = resolved_value map (MB !! k) (MO !! k) (MT !! k).
Proof.
  unfold merged_map. rewrite map_lookup_imap, lookup_union. destruct (MO !! k) as [o|] eqn:Eo, (MT !! k) as [t|] eqn:Et; cbn; try done.
  by rewrite resolved_value_none.
Qed.

Definition merged_version (b o t : Version) : Version :=
  mkVersion (merged_map MSchema (v_schema b) (v_schema o) (v_schema t)) (merged_map MNodes (v_nodes b) (v_nodes o) (v_nodes t))
    (merged_map MEdges (v_edges b) (v_edges o) (v_edges t)).

Lemma merged_version_map map b o t : v_map map (merged_version b o t) = merged_map map (v_map map b) (v_map map o) (v_map map t).
Proof. by destruct map. Qed.

(** The merged records are small enough for a node of the tree. *)
Definition merge_fits (b o t : Version) : Prop :=
  forall map k v, resolved_value map (v_map map b !! k) (v_map map o !! k) (v_map map t !! k) = Some v -> is_u32 (Z.of_nat (length v)) = true.

Lemma node_readable v k M : nodes_ok M -> M !! k = Some v -> readable MNodes v.
Proof.
  intros HM Hk. destruct (HM k v Hk) as (Hkv & _ & [r Hr]). apply andb_prop in Hkv as [_ Hv]. cbn [snd] in Hv.
  split; [by apply key_bound|]. cbn [view]. rewrite Hr. by eexists.
Qed.

Lemma edge_readable v k M : edges_ok M -> M !! k = Some v -> readable MEdges v.
Proof.
  intros HM Hk. destruct (HM k v Hk) as (Hkv & _ & [r Hr]). apply andb_prop in Hkv as [_ Hv]. cbn [snd] in Hv.
  split; [by apply key_bound|]. cbn [view]. rewrite Hr. by eexists.
Qed.

Lemma version_values map v : version_ok v -> values_ok map (v_map map v).
Proof.
  intros (_ & HN & HE) Hmap. destruct map; [done| |]; intros k x Hk; [by apply (node_readable x k (v_nodes v))|by apply (edge_readable x k (v_edges v))].
Qed.

(** ** A merged record reads back *)

Lemma length_concat_nonempty {A : Type} (f : A -> bytes) (l : list A) : (forall x, 1 <= length (f x)) -> length l <= length (concat (map f l)).
Proof. intros H. induction l as [|x l IH]; cbn [map concat length]; [lia|]. rewrite length_app. specialize (H x). lia. Qed.

Lemma props_sized (m : properties_map) b : write_properties m = Ok b -> (Z.of_nat (length b) < 2 ^ 63)%Z -> (Z.of_nat (size m) < 2 ^ 63)%Z.
Proof.
  intros Hw Hb. unfold write_properties, write_map in Hw. apply rbind_Ok in Hw as (body & Hbody & Hw). apply Ok_inj in Hw as <-.
  rewrite length_app in Hb. apply write_all_entries_length in Hbody. rewrite <-length_entries_of. lia.
Qed.

Lemma view_ok map v ls m : readable map v -> view map v = Some (ls, m) -> Forall (fun l => str_ok l = true) ls /\ props_ok m /\ is_normal m.
Proof.
  intros [Hlen _] H. destruct (view_cells map v ls m Hlen H) as [_ Hn]. destruct map; cbn [view] in H; [done| |].
  - destruct (node_record_decode v) as [r|] eqn:E; [|done]. injection H as <- <-.
    by destruct (node_record_decode_Ok v r Hlen E) as (_ & [(Hl & _) Hp] & _).
  - destruct (edge_record_decode v) as [r|] eqn:E; [|done]. injection H as <- <-.
    apply (edge_record_decode_Ok v r Hlen) in E as (_ & Hp & _). by split.
Qed.

Lemma merged_props po pt pb m pcs : merges pb po pt m pcs -> props_ok po -> props_ok pt -> (Z.of_nat (size m) < 2 ^ 63)%Z -> props_ok m.
Proof.
  intros (H & _) [Ho _] [Ht _] Hs. split; [|done]. intros k v Hv. rewrite H in Hv.
  apply merge_cell_from in Hv as [Hv|Hv]; [by apply (Ho k)|by apply (Ht k)].
Qed.

Lemma refined_readable (map : ConflictMap) b o t v pcs :
  readable map o -> readable map t -> refined map b o t v pcs -> is_u32 (Z.of_nat (length v)) = true -> readable map v.
Proof.
  intros Ho Ht (lb & pb & lo & po & lt & pt & ls & m & _ & Eo & Et & Hw & Hm & Hs & Hl) Hlen. apply key_bound in Hlen.
  destruct (view_ok map o lo po Ho Eo) as (Hlo & Hpo & No), (view_ok map t lt pt Ht Et) as (Hlt & Hpt & Nt). split; [done|].
  destruct map; cbn [writes view] in *; [done| |].
  - pose proof Hw as Henc. unfold node_record_encode in Hw. cbn [properties secondary_labels] in Hw.
    apply rbind_Ok in Hw as (props & Hp & Hw). apply Ok_inj in Hw. rewrite <-Hw, !length_app in Hlen. unfold write_name_list in Hlen.
    rewrite length_app in Hlen. assert (length ls <= length (concat (map write_text ls))) by (apply length_concat_nonempty; intros l; pose proof (length_write_text l); lia).
    rewrite (node_record_roundtrip (mkNodeRecord ls m) v); [by eexists| |done]. split; cbn [secondary_labels properties].
    + split; [|split; [apply Z.ltb_lt; lia|done]]. apply Forall_forall. intros l Hin. apply Hl in Hin.
      rewrite Forall_forall in Hlo, Hlt. case_bool_decide; destruct Hin; auto.
    + eapply merged_props; [exact Hm|done|done|]. apply (props_sized m props Hp). lia.
  - destruct Hw as [-> Hw]. unfold edge_record_encode in Hw. cbn [edge_properties] in Hw.
    assert (edge_record_decode v = Ok (mkEdgeRecord m)) as ->; [|by eexists].
    apply edge_record_decode_Ok; [done|]. split; [done|]. cbn [edge_properties]. split.
    + eapply merged_props; [exact Hm|done|done|]. by apply (props_sized m v Hw).
    + by apply (merges_normal _ _ _ _ _ Hm).
Qed.

(** Every value of a merged map is a side's value or a merged record. *)
Lemma merged_value (map : ConflictMap) (MB MO MT : gmap bytes bytes) k v :
  values_ok map MB -> values_ok map MO -> values_ok map MT -> resolved_value map (MB !! k) (MO !! k) (MT !! k) = Some v ->
  MO !! k = Some v \/ MT !! k = Some v \/
  (map <> MSchema /\ is_Some (MO !! k) /\ exists o t pcs, MO !! k = Some o /\ MT !! k = Some t /\ refined map (MB !! k) o t v pcs).
Proof.
  intros HB HO HT. unfold resolved_value. destruct (three_way (MB !! k) (MO !! k) (MT !! k)) as [x|] eqn:E.
  - intros ->. apply three_way_value in E as [E|E]; auto.
  - destruct (MO !! k) as [o|] eqn:Eo; [|done]. destruct (MT !! k) as [t|] eqn:Et; [|done].
    destruct (decide (map = MSchema)) as [->|Hmap]; [done|]. intros Hv. right. right. split; [done|]. split; [by eexists|].
    destruct (record_merge_ok map MB MO MT HB HO HT k o t Hmap Eo Et) as (v' & pcs & E' & Hr & _).
    unfold record_merge in Hv. rewrite E' in Hv. injection Hv as <-. by exists o, t, pcs.
Qed.

Lemma merged_version_ok b o t : version_ok b -> version_ok o -> version_ok t -> merge_fits b o t -> version_ok (merged_version b o t).
Proof.
  intros Hb Ho Ht Hfit. pose proof (fun map => version_values map b Hb) as Vb. pose proof (fun map => version_values map o Ho) as Vo.
  pose proof (fun map => version_values map t Ht) as Vt. destruct Ho as (So & No & Eo), Ht as (St & Nt & Et). split_and!.
  - intros k v Hk. cbn [merged_version v_schema] in Hk. rewrite merged_map_lookup in Hk.
    apply merged_value in Hk as [Hk|[Hk|(? & _)]]; [by apply So|by apply St|done|apply (Vb MSchema)|apply (Vo MSchema)|apply (Vt MSchema)].
  - intros k v Hk. cbn [merged_version v_nodes] in Hk. rewrite merged_map_lookup in Hk. pose proof (Hfit MNodes k v Hk) as Hv.
    apply merged_value in Hk as [Hk|[Hk|(_ & _ & vo & vt & pcs & Hko & Hkt & Hr)]];
      [by apply No|by apply Nt| |apply (Vb MNodes)|apply (Vo MNodes)|apply (Vt MNodes)].
    pose proof (refined_readable MNodes _ vo vt v pcs (node_readable vo k _ No Hko) (node_readable vt k _ Nt Hkt) Hr Hv) as [_ Hview].
    destruct (No k vo Hko) as (Hkv & Hkey & _). split; [|split; [done|]].
    + apply andb_prop in Hkv as [H1 _]. apply andb_true_iff. by split.
    + cbn [view] in Hview. destruct (node_record_decode v) as [r|]; [by exists r|by destruct Hview].
  - intros k v Hk. cbn [merged_version v_edges] in Hk. rewrite merged_map_lookup in Hk. pose proof (Hfit MEdges k v Hk) as Hv.
    apply merged_value in Hk as [Hk|[Hk|(_ & _ & vo & vt & pcs & Hko & Hkt & Hr)]];
      [by apply Eo|by apply Et| |apply (Vb MEdges)|apply (Vo MEdges)|apply (Vt MEdges)].
    pose proof (refined_readable MEdges _ vo vt v pcs (edge_readable vo k _ Eo Hko) (edge_readable vt k _ Et Hkt) Hr Hv) as [_ Hview].
    destruct (Eo k vo Hko) as (Hkv & Hkey & _). split; [|split; [done|]].
    + apply andb_prop in Hkv as [H1 _]. apply andb_true_iff. by split.
    + cbn [view] in Hview. destruct (edge_record_decode v) as [r|]; [by exists r|by destruct Hview].
Qed.

(** ** The parts settle *)

Section parts.
Context {S : Type} {CS : ChunkStore S} {CSL : ChunkStoreLaws S}.
Implicit Types (s : S).

Lemma merge_settles s base ours theirs MB MO MT :
  describes s base MB -> describes s ours MO -> describes s theirs MT -> params base = params ours -> params base = params theirs ->
  exists f0, forall f, f0 <= f -> MapMerge.merge f base ours theirs s = MapMerge.merge f0 base ours theirs s.
Proof.
  intros (Hp & mb & _ & Hb) (_ & mo & _ & Ho) (_ & mt & _ & Ht) Eo Et.
  destruct (merge_changes_spec s base ours theirs mb mo mt Hp Eo Et Hb Ho Ht) as [f0 Hc]. exists f0. intros f Hf.
  unfold MapMerge.merge. destruct (negb _ || negb _); [done|]. unfold st_bind, st_read. by rewrite (Hc f Hf), (Hc f0).
Qed.

Lemma gev_merge_one s (map : ConflictMap) base ours theirs acc (B O T : Version) :
  map_at s (chunk_params base) (select map base) (v_map map B) -> map_at s (chunk_params base) (select map ours) (v_map map O) ->
  map_at s (chunk_params base) (select map theirs) (v_map map T) ->
  version_ok B -> version_ok O -> version_ok T -> merge_fits B O T ->
  (Z.of_nat (3 * size (v_map map B) + 2 * size (v_map map O) + 2 * size (v_map map T)) <= 2 ^ 62)%Z ->
  gev (fun f => merge_one f map base ours theirs acc)
    (merge_spec_of map (chunk_params base) (v_map map B) (v_map map O) (v_map map T) acc) s.
Proof.
  intros DB DO DT OB OO OT Hfit Hsize. pose proof DB as (RB & EB & HB). pose proof DO as (RO & EO & HO). pose proof DT as (RT & ET & HT).
  destruct (merge_settles s RB RO RT _ _ _ HB HO HT) as [f0 Hc].
  { by rewrite (to_root_params _ _ _ EB), (to_root_params _ _ _ EO). }
  { by rewrite (to_root_params _ _ _ EB), (to_root_params _ _ _ ET). }
  apply (gev_intro _ _ _ f0).
  - intros f Hf. unfold merge_one, st_bind, root_of, st_read. rewrite EB, EO, ET. cbn [map_err]. unfold on_map. by rewrite (Hc f Hf).
  - apply gwp_merge_one; [done..|by apply version_values|by apply version_values|by apply version_values|done|].
    intros k v _ Hv. by apply (Hfit map k).
Qed.

Lemma gev_rebuild_reverse s R M p :
  describes s R M -> params_ok p = true -> edges_ok M -> (Z.of_nat (size M) <= 2 ^ 62)%Z ->
  gev (fun f => rebuild_reverse f R p) (fun R' s' => params R' = p /\ exists M', describes s' R' M' /\
    forall r v, M' !! r = Some v <-> v = [] /\ exists k e, is_Some (M !! k) /\ decode_fwd k = Ok e /\ encode_rev e = Ok r) s.
Proof.
  intros HR Hp HM Hs. apply (gev_intro _ _ _ (Datatypes.S (size M))).
  - intros f Hf. destruct (for_each_spec s R M reverse_entry [] HR) as (m & _ & Hrun).
    unfold rebuild_reverse, st_bind, st_read. by rewrite !Hrun by lia.
  - exists (Datatypes.S (size M)). intros f Hf. apply gwp_rebuild_reverse; [done|done| |done|lia].
    intros k v Hk. by destruct (HM k v Hk) as (_ & ? & _).
Qed.

Lemma each_index_settles s p nodes M lk defs out f f' :
  map_at s p nodes M -> nodes_ok M -> (forall name def, (name, def) ∈ defs -> index_def_ok def /\ entries_fit def lk M) ->
  (Z.of_nat (size M) <= 2 ^ 62)%Z -> size M < f -> size M < f' ->
  each_index (fun _ def => build_full f p nodes def lk) defs out s = each_index (fun _ def => build_full f' p nodes def lk) defs out s.
Proof.
  intros Hm HM Hdefs Hs Hf Hf'. revert s out Hm. induction defs as [|[name def] defs IH]; intros s out Hm; [done|]. cbn [each_index].
  destruct (Hdefs name def ltac:(by left)) as [Hd Hfit].
  assert (build_full f p nodes def lk s = build_full f' p nodes def lk s) as E.
  { pose proof Hm as (R & ER & HR). destruct (for_each_spec s R M (build_body def lk) [] HR) as (m & _ & Hrun).
    unfold build_full, st_bind, root_of, st_read. rewrite ER. cbn [map_err]. by rewrite !Hrun by lia. }
  pose proof (gwp_build_full s p nodes M def lk f' Hm HM Hd Hfit Hs Hf') as Hw. unfold st_bind. rewrite E.
  destruct (build_full f' p nodes def lk s) as [[r|e] s'] eqn:Er; [|done]. destruct (gwp_Ok _ _ _ _ _ Hw Er) as [He _].
  apply IH; [|by eapply map_at_extends]. intros n d Hin. apply (Hdefs n). by right.
Qed.

Lemma gev_rebuild_all s m entries MN defs lk :
  map_at s (chunk_params m) (m_nodes m) MN -> nodes_ok MN -> schema_index_info entries = (defs, lk) ->
  NoDup (List.map fst defs) -> (forall name def, (name, def) ∈ defs -> index_def_ok def /\ entries_fit def lk MN) ->
  (Z.of_nat (size MN) <= 2 ^ 62)%Z ->
  gev (fun f => rebuild_all f m entries) (fun out s' => index_roots s' (chunk_params m) lk MN defs out) s.
Proof.
  intros Hm HM Hi Hn Hd Hs. apply (gev_intro _ _ _ (Datatypes.S (size MN))).
  - intros f Hf. unfold rebuild_all. rewrite Hi. apply (each_index_settles s _ _ MN); (done || lia).
  - exists (Datatypes.S (size MN)). intros f Hf. apply gwp_rebuild_all; (done || lia).
Qed.
End parts.

(** ** The schema entries of a version *)

Lemma index_info_spec entries indexes lk :
  (index_info entries indexes lk).1 = indexes ++ omap (fun e => match e with IndexDefEntry n d => Some (n, d) | _ => None end) entries.
Proof.
  revert indexes lk. induction entries as [|[n d|n d|n d] entries IH]; intros indexes lk; cbn [index_info omap list_omap]; rewrite ?app_nil_r; [done|apply IH..|].
  rewrite IH, <-app_assoc. done.
Qed.

Lemma NoDup_omap_inj {A B : Type} (f : A -> option B) (l : list A) :
  (forall x y b, x ∈ l -> y ∈ l -> f x = Some b -> f y = Some b -> x = y) -> NoDup l -> NoDup (omap f l).
Proof.
  intros Hf Hn. induction Hn as [|x l Hx Hn IH]; [constructor|]. cbn [omap list_omap].
  assert (NoDup (omap f l)) as Hl by (apply IH; intros y z b Hy Hz; apply Hf; by right).
  destruct (f x) as [b|] eqn:E; [|exact Hl]. constructor; [|exact Hl]. intros Hb. apply list_elem_of_omap in Hb as (y & Hy & Ey).
  apply Hx. rewrite (Hf x y b); [done|by left|by right|done..].
Qed.

(** The index definitions of a schema have distinct names and are well formed. *)
Definition schema_read (SM : gmap bytes bytes) (entries : list SchemaEntry) : Prop :=
  (forall e, e ∈ entries <-> exists k v, SM !! k = Some v /\ schema_decode k v = Ok e) /\ NoDup entries.

Lemma schema_read_defs SM entries defs lk :
  schema_map_ok SM -> schema_read SM entries -> schema_index_info entries = (defs, lk) ->
  NoDup (List.map fst defs) /\ forall name def, (name, def) ∈ defs -> index_def_ok def.
Proof.
  intros HS [He Hn] Hi. assert (defs = omap (fun e => match e with IndexDefEntry n d => Some (n, d) | _ => None end) entries) as ->.
  { pose proof (index_info_spec entries [] ∅) as E. unfold schema_index_info in Hi. rewrite Hi in E. exact E. }
  assert (forall e n d, e ∈ entries -> e = IndexDefEntry n d -> exists k v, SM !! k = Some v /\ schema_decode k v = Ok (IndexDefEntry n d) /\
    map_key (IndexDefEntry n d) = Ok k /\ index_def_ok d) as Hrow.
  { intros e n d Hin ->. apply He in Hin as (k & v & Hk & Hd). exists k, v. split; [done|]. split; [done|].
    split; [by eapply schema_row|]. destruct (HS k v Hk) as [Hkv _]. apply andb_prop in Hkv as [Ek Ev]. cbn [fst snd] in *.
    apply key_bound in Ek, Ev. by apply schema_decode_iff in Hd as ((_ & _ & ?) & _). }
  split.
  - replace (List.map fst _) with (omap (fun e => match e with IndexDefEntry n d => Some n | _ => None end) entries)
      by (clear; induction entries as [|[n d|n d|n d] l IH]; cbn [omap list_omap List.map fst]; [done|exact IH..|by f_equal]).
    apply NoDup_omap_inj; [|done]. intros [|?|n d] [|?|n' d'] b Hx Hy; try done. intros [= ->] [= ->].
    destruct (Hrow _ b d Hx eq_refl) as (k & v & Hk & Hd & Ek & _), (Hrow _ b d' Hy eq_refl) as (k' & v' & Hk' & Hd' & Ek' & _).
    cbn [map_key] in Ek, Ek'. rewrite Ek in Ek'. apply Ok_inj in Ek' as <-. congruence.
  - intros name def Hin. apply list_elem_of_omap in Hin as (e & Hin & E). destruct e as [|?|n d]; try done. injection E as -> ->.
    by destruct (Hrow _ name def Hin eq_refl) as (_ & _ & _ & _ & _ & ?).
Qed.

(** ** The merge *)

Definition indexes_fit (v : Version) : Prop :=
  forall entries defs lk name def, schema_read (v_schema v) entries -> schema_index_info entries = (defs, lk) -> (name, def) ∈ defs ->
    entries_fit def lk (v_nodes v).

Definition merge_sized (b o t : Version) : Prop :=
  forall map, (Z.of_nat (3 * size (v_map map b) + 2 * size (v_map map o) + 2 * size (v_map map t)) <= 2 ^ 62)%Z.

(** The disputed cells of one map, in key order. *)
Definition disputes (map : ConflictMap) (b o t : Version) (cs : list CellConflict) : Prop :=
  exists keys, StronglySorted bytes_lt keys /\
    (forall k, k ∈ keys <-> three_way (v_map map b !! k) (v_map map o !! k) (v_map map t !! k) = None) /\
    cs = concat (List.map (fun k => resolved_cells map k (v_map map b !! k) (v_map map o !! k) (v_map map t !! k)) keys).

(** A manifest of this version: the reverse map mirrors the edges, the indexes
    hold the entries of the nodes. *)
Definition manifest_at {S : Type} {CS : ChunkStore S} {CSL : ChunkStoreLaws S} (s : S) (p : ChunkParams) (m : Manifest) (v : Version) : Prop :=
  chunk_params m = p /\ m_conflicts m = None /\ version_at s p m v /\
  (exists RV, map_at s p (m_edges_rev m) RV /\
    forall r x, RV !! r = Some x <-> x = [] /\ exists k e, is_Some (v_edges v !! k) /\ decode_fwd k = Ok e /\ encode_rev e = Ok r) /\
  exists entries defs lk, schema_read (v_schema v) entries /\ schema_index_info entries = (defs, lk) /\
    index_roots s p lk (v_nodes v) defs (m_indexes m).

Definition outcome (m : Manifest) (cells : list CellConflict) (violations : list GraphViolation) : ManifestMerge :=
  match cells, violations with
  | [], [] => Clean m
  | [], _ :: _ => MergeConflicts m (List.map GraphConflict violations)
  | _ :: _, _ => MergeConflicts m (List.map Cell cells)
  end.

(** The merged graph is valid, and every edge it keeps was written under the
    discriminator it declares. *)
Definition merged_valid (b o t : Version) : Prop :=
  let g := graph_of (merged_version b o t) in
  valid_graph g /\ settled (g_rels g) (g_rels (graph_of o)) (g_edges g) (v_edges o) /\
  settled (g_rels g) (g_rels (graph_of t)) (g_edges g) (v_edges t).

(** What a merge yields: a manifest of the merged maps, the disputed cells, and
    the violations found when there are none. *)
Definition merge_result {S : Type} {CS : ChunkStore S} {CSL : ChunkStoreLaws S} (p : ChunkParams) (B O T : Version)
    (out : ManifestMerge) (s : S) : Prop :=
  exists m cells violations,
    manifest_at s p m (merged_version B O T) /\
    (exists cs cn ce, cells = cs ++ cn ++ ce /\ disputes MSchema B O T cs /\ disputes MNodes B O T cn /\ disputes MEdges B O T ce) /\
    out = outcome m cells violations /\
    (cells = [] -> valid_graph (graph_of B) -> same_identity (graph_of B) (graph_of (merged_version B O T)) ->
     violations = [] <-> merged_valid B O T).

Lemma merged_size (map : ConflictMap) b o t : size (v_map map (merged_version b o t)) <= size (v_map map o) + size (v_map map t).
Proof.
  rewrite merged_version_map. apply size_merged. intros k v Hk. rewrite merged_map_lookup in Hk. by eapply value_from.
Qed.

Section merge.
Context {S : Type} {CS : ChunkStore S} {CSL : ChunkStoreLaws S}.
Implicit Types (s : S).

Lemma merge_entries s R SM :
  describes s R SM -> schema_map_ok SM ->
  exists entries, (forall f, size SM < f -> merge_schema_entries f s R = Ok entries) /\ schema_read SM entries.
Proof.
  intros HR HS. destruct (for_each_spec s R SM entry_body [] HR) as (m & Hm & Hrun).
  set (g := fun e : bytes * bytes => match schema_decode e.1 e.2 with Ok x => Some x | Err _ => None end).
  exists (omap g m). split; [|split].
  - intros f Hf. unfold merge_schema_entries. rewrite Hrun by done.
    rewrite (fold_flow_collect entry_body (fun e => option_list (g e))).
    + cbn [app]. f_equal. clear. induction m as [|e m IH]; [done|]. cbn [List.map concat omap list_omap]. rewrite IH. by destruct (g e).
    + apply Forall_forall. intros [k v] Hin acc. apply (entries_in_lookup SM m) in Hin; [|done].
      destruct (HS k v Hin) as (_ & e & He). unfold entry_body, g. cbn [fst snd]. by rewrite He.
  - intros e. rewrite list_elem_of_omap. split.
    + intros ([k v] & Hin & He). unfold g in He. cbn [fst snd] in He. exists k, v.
      apply (entries_in_lookup SM m) in Hin; [|done]. split; [done|]. by destruct (schema_decode k v); [injection He as ->|].
    + intros (k & v & Hk & He). exists (k, v). unfold g. cbn [fst snd]. rewrite He. split; [|done]. by apply (entries_in_lookup SM m).
  - apply NoDup_omap_inj.
    + intros [k v] [k' v'] e Hx Hy. unfold g. cbn [fst snd]. destruct (schema_decode k v) eqn:E; [|done]. destruct (schema_decode k' v') eqn:E'; [|done].
      intros [= ->] [= ->]. apply (entries_in_lookup SM m) in Hx, Hy; [|done..].
      pose proof (schema_row SM k v e HS Hx E) as K. rewrite (schema_row SM k' v' e HS Hy E') in K. apply Ok_inj in K as ->. congruence.
    + destruct Hm as [Hs _]. apply (strongly_sorted_NoDup bytes_lt) in Hs. by apply NoDup_fmap_1 in Hs.
Qed.

Lemma disputes_of (map : ConflictMap) p b o t acc R cs s :
  merge_spec_of map p (v_map map b) (v_map map o) (v_map map t) acc (R, cs) s ->
  params R = p /\ describes s R (v_map map (merged_version b o t)) /\ exists cs', disputes map b o t cs' /\ cs = acc ++ cs'.
Proof.
  intros (Hp & M & keys & HM & HMk & Hs & Hk & Hcs). cbn [fst snd] in *. split; [done|].
  assert (M = v_map map (merged_version b o t)) as <-.
  { apply map_eq. intros k. by rewrite merged_version_map, merged_map_lookup. }
  split; [done|]. eexists. split; [|exact Hcs]. exists keys. by split_and!.
Qed.

Lemma gev_validate s base ours theirs m B O T V :
  version_at s (chunk_params m) base B -> version_at s (chunk_params m) m V ->
  version_at s (chunk_params ours) ours O -> version_at s (chunk_params theirs) theirs T ->
  exists vs, gev (fun f => st_read (fun store => validate_merged f store base ours theirs m)) (fun a s' => a = vs /\ s' = s) s /\
    (valid_graph (graph_of B) -> same_identity (graph_of B) (graph_of V) ->
     vs = [] <-> valid_graph (graph_of V) /\
       settled (g_rels (graph_of V)) (g_rels (graph_of O)) (g_edges (graph_of V)) (v_edges O) /\
       settled (g_rels (graph_of V)) (g_rels (graph_of T)) (g_edges (graph_of V)) (v_edges T)).
Proof.
  intros HB HV HO HT.
  destruct (validate_merged_valid s base ours theirs m (graph_of B) (graph_of O) (graph_of T) (graph_of V)) as (f0 & vs & Hrun & Hvs);
    [by apply version_graph..|].
  exists vs. split; [|exact Hvs]. apply (gev_intro _ _ _ f0).
  - intros f Hf. unfold st_read. by rewrite Hrun, Hrun.
  - exists f0. intros f Hf. apply gwp_read with vs; [by apply Hrun|done].
Qed.

Lemma version_at_extends s s' p m v : extends s s' -> version_at s p m v -> version_at s' p m v.
Proof. intros He [Hm Hv]. split; [|done]. intros map. by eapply map_at_extends. Qed.

(** The manifest of the merged maps, once the reverse map is there. *)
Definition partial_manifest (p : ChunkParams) (Rs Rn Re Rr : Root) : Manifest :=
  mkManifest p (from_root Rs) (from_root Rn) (from_root Re) (from_root Rr) ∅ None.

Lemma partial_version s p Rs Rn Re Rr v :
  params Rs = p -> params Rn = p -> params Re = p ->
  describes s Rs (v_schema v) -> describes s Rn (v_nodes v) -> describes s Re (v_edges v) -> version_ok v ->
  forall ix, version_at s p (with_indexes (partial_manifest p Rs Rn Re Rr) ix) v.
Proof. intros P1 P2 P3 D1 D2 D3 Hv ix. split; [|done]. intros []; apply map_at_root; done. Qed.

Lemma gev_merge_manifests s base ours theirs B O T :
  let p := chunk_params base in let V := merged_version B O T in
  version_at s p base B -> version_at s p ours O -> version_at s p theirs T ->
  chunk_params ours = p -> chunk_params theirs = p -> merge_fits B O T -> merge_sized B O T -> indexes_fit V ->
  gev (fun f => merge_manifests f base ours theirs) (merge_result p B O T) s.
Proof.
  intros p V HB HO HT Po Pt Hfit Hsize Hix. pose proof HB as [MB OB]. pose proof HO as [MO OO]. pose proof HT as [MT OT].
  pose proof (merged_version_ok B O T OB OO OT Hfit) as OV. fold V in OV. pose proof OV as (OVs & OVn & OVe).
  assert (params_ok p = true) as Hp by (exact (map_at_params _ _ _ _ (MB MSchema))).
  assert (forall map, (Z.of_nat (size (v_map map V)) <= 2 ^ 62)%Z) as HsV.
  { intros map. pose proof (merged_size map B O T). specialize (Hsize map). subst V. lia. }
  unfold merge_manifests. fold p.
  apply (gev_bind (fun f => merge_one f MSchema base ours theirs []) _ _ _ s
    (gev_merge_one s MSchema base ours theirs [] B O T (MB _) (MO _) (MT _) OB OO OT Hfit (Hsize _))).
  intros [Rs c1] s1 E1 (P1 & D1 & cs & Hcs & Ec1)%disputes_of. cbn [app] in Ec1. subst c1. cbn beta iota.
  assert (forall r M, map_at s p r M -> map_at s1 p r M) as X1 by (intros r M; by apply map_at_extends).
  apply (gev_bind (fun f => merge_one f MNodes base ours theirs cs) _ _ _ s1
    (gev_merge_one s1 MNodes base ours theirs cs B O T (X1 _ _ (MB MNodes)) (X1 _ _ (MO MNodes)) (X1 _ _ (MT MNodes)) OB OO OT Hfit (Hsize _))).
  intros [Rn c2] s2 E2 (P2 & D2 & cn & Hcn & ->)%disputes_of. cbn beta iota.
  assert (forall r M, map_at s p r M -> map_at s2 p r M) as X2 by (intros r M; apply map_at_extends; by etrans).
  apply (gev_bind (fun f => merge_one f MEdges base ours theirs (cs ++ cn)) _ _ _ s2
    (gev_merge_one s2 MEdges base ours theirs (cs ++ cn) B O T (X2 _ _ (MB MEdges)) (X2 _ _ (MO MEdges)) (X2 _ _ (MT MEdges)) OB OO OT Hfit (Hsize _))).
  intros [Re c3] s3 E3 (P3 & D3 & ce & Hce & ->)%disputes_of. cbn beta iota. rewrite <-app_assoc.
  eapply (gev_bind (fun f => rebuild_reverse f Re p)); [apply (gev_rebuild_reverse s3 Re (v_edges V) p D3 Hp OVe (HsV MEdges))|].
  intros Rr s4 E4 (P4 & RV & D4 & HRV). cbn beta.
  assert (describes s4 Rs (v_schema V)) as D1' by (eapply describes_extends; [|exact D1]; by do 2 (etrans; [done|])).
  assert (describes s4 Rn (v_nodes V)) as D2' by (eapply describes_extends; [|exact D2]; by etrans).
  assert (describes s4 Re (v_edges V)) as D3' by (eapply describes_extends; [|exact D3]; done).
  destruct (merge_entries s4 Rs (v_schema V) D1' OVs) as (entries & Hentries & Hread).
  eapply (gev_bind (fun f => st_read (fun store => merge_schema_entries f store Rs)) _ (fun a s' => a = entries /\ s' = s4)).
  { apply (gev_intro _ _ _ (Datatypes.S (size (v_schema V)))).
    - intros f Hf. unfold st_read. by rewrite !Hentries by lia.
    - exists (Datatypes.S (size (v_schema V))). intros f Hf. apply gwp_read with entries; [by apply Hentries|done]. }
  intros ? ? _ [-> ->]. destruct (schema_index_info entries) as [defs lk] eqn:Ei.
  destruct (schema_read_defs (v_schema V) entries defs lk OVs Hread Ei) as [Hnames Hdefs].
  pose proof (partial_version s4 p Rs Rn Re Rr V P1 P2 P3 D1' D2' D3' OV) as HV.
  eapply (gev_bind (fun f => rebuild_all f (partial_manifest p Rs Rn Re Rr) entries)).
  { apply (gev_rebuild_all s4 (partial_manifest p Rs Rn Re Rr) entries (v_nodes V) defs lk); [exact (proj1 (HV ∅) MNodes)|done|done|done| |exact (HsV MNodes)].
    intros name def Hin. split; [by eapply Hdefs|by eapply (Hix entries defs lk)]. }
  intros ix s5 E5 Hroots. cbn beta. change (chunk_params (partial_manifest p Rs Rn Re Rr)) with p in Hroots.
  set (m := with_indexes (partial_manifest p Rs Rn Re Rr) ix).
  assert (version_at s5 p m V) as HVm by (eapply version_at_extends; [exact E5|apply HV]).
  assert (manifest_at s5 p m V) as Hm.
  { split; [done|]. split; [done|]. split; [done|]. split.
    - exists RV. split; [|done]. apply map_at_root; [done|]. by eapply describes_extends.
    - by exists entries, defs, lk. }
  assert (exists cs0 cn0 ce0, cs ++ cn ++ ce = cs0 ++ cn0 ++ ce0 /\ disputes MSchema B O T cs0 /\ disputes MNodes B O T cn0 /\ disputes MEdges B O T ce0)
    as Hcells by (by exists cs, cn, ce).
  assert (extends s s5) as Xs by (do 4 (etrans; [done|]); done).
  destruct (cs ++ cn ++ ce) as [|c cells] eqn:Ecells.
  - destruct (gev_validate s5 base ours theirs m B O T V) as (vs & Hval & Hvs); [by eapply version_at_extends|done| | |].
    { rewrite Po. by eapply version_at_extends. } { rewrite Pt. by eapply version_at_extends. }
    eapply (gev_bind (fun f => st_read (fun store => validate_merged f store base ours theirs m))); [exact Hval|].
    intros a s' _ H. cbn beta in H. destruct H as [-> ->]. exists 0. split; [done|].
    assert (match vs with [] => st_ret (Clean m) | _ :: _ => st_ret (MergeConflicts m (List.map GraphConflict vs)) end =
      st_ret (S := S) (E := GraphError) (outcome m [] vs)) as E by (by destruct vs).
    change (gwp (match vs with [] => st_ret (Clean m) | _ :: _ => st_ret (MergeConflicts m (List.map GraphConflict vs)) end) (merge_result p B O T) s5).
    rewrite E. apply gwp_ret. exists m, [], vs. by split_and!.
  - exists 0. split; [done|]. apply gwp_ret. exists m, (c :: cells), []. by split_and!.
Qed.

(** C10: merging two versions of a graph. From three versions whose records
    read back, with enough fuel the merge ends and fails only with the store.
    The merged maps take every undisputed change, the reverse map mirrors the
    merged edges and the indexes hold the entries of the merged nodes. The
    outcome lists the disputed cells, if there are any; otherwise, from a valid
    base whose label keys and discriminators are kept, it is clean exactly when
    the whole merged graph is valid. *)
Theorem merge_manifests_spec s base ours theirs B O T :
  let p := chunk_params base in let V := merged_version B O T in
  version_at s p base B -> version_at s p ours O -> version_at s p theirs T ->
  chunk_params ours = p -> chunk_params theirs = p -> merge_fits B O T -> merge_sized B O T -> indexes_fit V ->
  exists fuel, forall f, fuel <= f ->
    gwp (merge_manifests f base ours theirs) (merge_result p B O T) s.
Proof. intros p V HB HO HT Po Pt Hf Hs Hi. by apply gev_gwp, gev_merge_manifests. Qed.

(** ** Exchanging the sides *)

Lemma merged_version_comm b o t : version_ok b -> version_ok o -> version_ok t -> merged_version b t o = merged_version b o t.
Proof.
  intros Hb Ho Ht. assert (forall map, merged_map map (v_map map b) (v_map map t) (v_map map o) = merged_map map (v_map map b) (v_map map o) (v_map map t)) as H.
  { intros map. apply map_eq. intros k. rewrite !merged_map_lookup.
    exact (resolved_value_comm map (v_map map b) (v_map map o) (v_map map t) (version_values map b Hb) (version_values map o Ho) (version_values map t Ht) k). }
  unfold merged_version. f_equal; [exact (H MSchema)|exact (H MNodes)|exact (H MEdges)].
Qed.

Lemma disputes_none (map : ConflictMap) b o t cs cs' :
  version_ok b -> version_ok o -> version_ok t -> disputes map b o t cs -> disputes map b t o cs' -> cs = [] <-> cs' = [].
Proof.
  intros Hb Ho Ht (ks & S1 & K1 & ->) (ks' & S2 & K2 & ->).
  assert (ks' = ks) as ->.
  { apply (sorted_ext bytes_lt id); rewrite ?map_id; [done..|]. intros k. by rewrite K1, K2, three_way_comm. }
  rewrite !concat_map_nil. split; intros H k Hk; specialize (H k Hk);
    rewrite (resolved_cells_comm map (v_map map b) (v_map map o) (v_map map t) (version_values map b Hb) (version_values map o Ho) (version_values map t Ht) k) in *;
    by destruct (resolved_cells map k (v_map map b !! k) (v_map map o !! k) (v_map map t !! k)).
Qed.

(** A merge does not depend on which side is ours. From three versions as
    in the merge's specification, with a valid base whose label keys and
    discriminators are kept, exchanging the sides gives a manifest of the same
    maps, clean exactly when the other is. *)
Lemma merge_manifests_commutes s base ours theirs B O T :
  let p := chunk_params base in let V := merged_version B O T in
  version_at s p base B -> version_at s p ours O -> version_at s p theirs T ->
  chunk_params ours = p -> chunk_params theirs = p -> merge_fits B O T -> merge_sized B O T -> indexes_fit V ->
  valid_graph (graph_of B) -> same_identity (graph_of B) (graph_of V) ->
  exists fuel, forall f out s1 out' s2, fuel <= f ->
    merge_manifests f base ours theirs s = (Ok out, s1) -> merge_manifests f base theirs ours s = (Ok out', s2) ->
    exists m m', manifest_at s1 p m V /\ manifest_at s2 p m' V /\ (out = Clean m <-> out' = Clean m').
Proof.
  intros p V HB HO HT Po Pt Hfit Hs Hi HvB Hid.
  pose proof HB as [_ OB]. pose proof HO as [_ OO]. pose proof HT as [_ OT]. pose proof (merged_version_comm B O T OB OO OT) as EV.
  assert (merge_fits B T O) as Hfit'.
  { intros map k v. rewrite (resolved_value_comm map (v_map map B) (v_map map O) (v_map map T)) by (by apply version_values). apply Hfit. }
  assert (merge_sized B T O) as Hs' by (intros map; specialize (Hs map); lia).
  destruct (gev_gwp _ _ _ (gev_merge_manifests s base ours theirs B O T HB HO HT Po Pt Hfit Hs Hi)) as [f1 H1].
  destruct (gev_gwp _ _ _ (gev_merge_manifests s base theirs ours B T O HB HT HO Pt Po Hfit' Hs' ltac:(by rewrite EV))) as [f2 H2].
  exists (Nat.max f1 f2). intros f out s1 out' s2 Hf E1 E2.
  destruct (gwp_Ok _ _ _ _ _ (H1 f ltac:(lia)) E1) as (_ & m & cells & vs & Hm & (cs & cn & ce & -> & D1 & D2 & D3) & -> & Hv).
  destruct (gwp_Ok _ _ _ _ _ (H2 f ltac:(lia)) E2) as (_ & m' & cells & vs' & Hm' & (cs' & cn' & ce' & -> & D1' & D2' & D3') & -> & Hv').
  rewrite EV in Hm', Hv'. exists m, m'. split; [exact Hm|]. split; [exact Hm'|].
  assert (forall x cells vs, outcome x cells vs = Clean x <-> cells = [] /\ vs = []) as Hclean
    by (intros x [|c l] [|v l']; cbn; split; [by split|done|by intros ?|by intros [_ ?]|by intros ?|by intros [? _]|by intros ?|by intros [? _]]).
  rewrite !Hclean. assert (cs ++ cn ++ ce = [] <-> cs' ++ cn' ++ ce' = []) as Hcells.
  { rewrite !app_nil. by rewrite (disputes_none _ _ _ _ _ _ OB OO OT D1 D1'), (disputes_none _ _ _ _ _ _ OB OO OT D2 D2'), (disputes_none _ _ _ _ _ _ OB OO OT D3 D3'). }
  rewrite Hcells. split; intros [Hc Hvs]; (split; [done|]); pose proof (proj2 Hcells Hc) as Hc0.
  - apply (Hv' Hc HvB Hid). apply (Hv Hc0 HvB Hid) in Hvs. unfold merged_valid in *. rewrite EV. tauto.
  - apply (Hv Hc0 HvB Hid). apply (Hv' Hc HvB Hid) in Hvs. unfold merged_valid in *. rewrite EV in Hvs. tauto.
Qed.
End merge.

(** ** The theorem at a concrete graph

    One node of a label with a required property, which [ours] and [theirs]
    change as in [CellMerge]'s example. *)

Definition required_v : LabelDef := mkLabelDef [[x69]] false ∅ [[x76]] [].
Definition schema_key : bytes := Eval vm_compute in bytes_or_nil (map_key (LabelEntry [x41] required_v)).
Definition schema_row_bytes : bytes := Eval vm_compute in schema_encode_value (LabelEntry [x41] required_v).
Definition schema_entries_list : list (bytes * bytes) := [(schema_key, schema_row_bytes)].
Definition no_entries : list (bytes * bytes) := [].

Definition with_schema_store : SampleStore := load_store graph_store schema_entries_list.
Definition schema_root : Root := load_root graph_store schema_entries_list.
Definition merge_store : SampleStore := load_store with_schema_store no_entries.
Definition no_edges_root : Root := load_root with_schema_store no_entries.

Definition version_m (nodes : Root) : Manifest :=
  mkManifest sample_params (from_root schema_root) (from_root nodes) (from_root no_edges_root) (from_root no_edges_root) ∅ None.
Definition version_v (nodes : list (bytes * bytes)) : Version := mkVersion (load_map schema_entries_list) (load_map nodes) (load_map no_entries).

Lemma merge_store_extends : extends graph_store merge_store /\ describes merge_store schema_root (load_map schema_entries_list) /\
  describes merge_store no_edges_root (load_map no_entries).
Proof.
  destruct (load_describes graph_store schema_entries_list) as [D1 E1]; [by repeat constructor|vm_compute; discriminate|vm_compute; reflexivity|].
  destruct (load_describes with_schema_store no_entries) as [D2 E2]; [by repeat constructor|vm_compute; discriminate|vm_compute; reflexivity|].
  assert (extends graph_store with_schema_store) as X1 by exact E1. assert (extends with_schema_store merge_store) as X2 by exact E2.
  assert (describes with_schema_store schema_root (load_map schema_entries_list)) as Y1 by exact D1.
  split; [exact (PreOrder_Transitive _ _ _ X1 X2)|]. split; [exact (describes_extends _ _ _ _ X2 Y1)|exact D2].
Qed.

Lemma required_schema : schema_map_ok (load_map schema_entries_list) /\ labels_of (load_map schema_entries_list) {[ [x41] := required_v ]}.
Proof. apply one_label; vm_compute; reflexivity. Qed.

Lemma version_loaded R nodes :
  params R = sample_params -> describes merge_store R (load_map nodes) -> nodes_ok (load_map nodes) ->
  version_at merge_store sample_params (version_m R) (version_v nodes).
Proof.
  intros Hp HR HN. destruct merge_store_extends as (_ & Hs & Hn). split.
  - intros []; [apply map_at_root; [vm_compute; reflexivity|exact Hs]|by apply map_at_root|apply map_at_root; [vm_compute; reflexivity|exact Hn]].
  - split; [exact (proj1 required_schema)|]. split; [exact HN|]. by apply map_Forall_empty.
Qed.
Lemma version_sample R nodes :
  params R = sample_params -> describes graph_store R (load_map nodes) -> nodes_ok (load_map nodes) ->
  version_at merge_store sample_params (version_m R) (version_v nodes).
Proof. intros Hp HR. apply version_loaded; [done|]. exact (describes_extends _ _ _ _ (proj1 merge_store_extends) HR). Qed.

Lemma resolved_same map x : resolved_value map x x x = x.
Proof. unfold resolved_value, three_way. repeat case_decide; done. Qed.

Lemma merged_same map M : merged_map map M M M = M.
Proof. apply map_eq. intros k. by rewrite merged_map_lookup, resolved_same. Qed.

(** A finite check that the merged records fit. *)
Definition fits_check (map : ConflictMap) (b o t : Version) : bool :=
  forallb (fun e => is_u32 (Z.of_nat (length e.2))) (map_to_list (merged_map map (v_map map b) (v_map map o) (v_map map t))).

Lemma merge_fits_check b o t : forallb (fun map => fits_check map b o t) [MSchema; MNodes; MEdges] = true -> merge_fits b o t.
Proof.
  intros H map k v Hk. rewrite <-merged_map_lookup in Hk. rewrite forallb_forall in H. specialize (H map ltac:(destruct map; cbn; auto)).
  unfold fits_check in H. rewrite forallb_forall in H. specialize (H (k, v)). apply H. by apply list_elem_of_In, elem_of_map_to_list.
Qed.

Lemma sample_indexes_fit nodes : indexes_fit (mkVersion (load_map schema_entries_list) nodes (load_map no_entries)).
Proof.
  intros entries defs lk name def [He _] Hi Hin. exfalso.
  pose proof (index_info_spec entries [] ∅) as E. unfold schema_index_info in Hi. rewrite Hi in E. cbn [fst app] in E. rewrite E in Hin.
  apply list_elem_of_omap in Hin as (e & Hin & Ee). apply He in Hin as (k & v & Hk & Hd). cbn [v_schema] in Hk.
  apply load_one in Hk as [-> ->]. assert (schema_decode schema_key schema_row_bytes = Ok (LabelEntry [x41] required_v)) as Er by (vm_compute; reflexivity).
  rewrite Er in Hd. apply Ok_inj in Hd as <-. done.
Qed.

Lemma merge_manifests_spec_witness : exists fuel, forall f, fuel <= f ->
  gwp (merge_manifests f (version_m base_node_root) (version_m ours_node_root) (version_m theirs_node_root))
    (merge_result sample_params (version_v base_entries) (version_v ours_entries) (version_v theirs_entries)) merge_store.
Proof.
  destruct graph_describes as (D1 & D2 & D3).
  assert (version_at merge_store sample_params (version_m base_node_root) (version_v base_entries)) as V1
    by (apply version_sample; [vm_compute; reflexivity|exact D1|apply nodes_ok_load; vm_compute; reflexivity]).
  assert (version_at merge_store sample_params (version_m ours_node_root) (version_v ours_entries)) as V2
    by (apply version_sample; [vm_compute; reflexivity|exact D2|apply nodes_ok_load; vm_compute; reflexivity]).
  assert (version_at merge_store sample_params (version_m theirs_node_root) (version_v theirs_entries)) as V3
    by (apply version_sample; [vm_compute; reflexivity|exact D3|apply nodes_ok_load; vm_compute; reflexivity]).
  assert (merge_fits (version_v base_entries) (version_v ours_entries) (version_v theirs_entries)) as Hfit
    by (apply merge_fits_check; vm_compute; reflexivity).
  assert (merge_sized (version_v base_entries) (version_v ours_entries) (version_v theirs_entries)) as Hs
    by (intros []; vm_compute; discriminate).
  assert (indexes_fit (merged_version (version_v base_entries) (version_v ours_entries) (version_v theirs_entries))) as Hi.
  { unfold merged_version. cbn [version_v v_schema v_edges]. rewrite !merged_same. apply sample_indexes_fit. }
  exact (merge_manifests_spec merge_store (version_m base_node_root) (version_m ours_node_root) (version_m theirs_node_root)
    (version_v base_entries) (version_v ours_entries) (version_v theirs_entries) V1 V2 V3 eq_refl eq_refl Hfit Hs Hi).
Defined.

Lemma merge_manifests_computed :
  match (merge_manifests 10 (version_m base_node_root) (version_m ours_node_root) (version_m theirs_node_root) merge_store).1,
        (merge_manifests 10 (version_m base_node_root) (version_m ours_node_root) (version_m base_node_root) merge_store).1 with
  | Ok (MergeConflicts _ [Cell c]), Ok (Clean m) => cell_key c = node_at /\ cell_property c = Some [x76] /\ m_nodes m = m_nodes (version_m ours_node_root)
  | _, _ => False
  end.
Proof. vm_compute. by split_and!. Qed.

Definition base_read : option (NodeKey * NodeRecord) := Eval vm_compute in
  match base_entries with (k, v) :: _ => node_of k v | [] => None end.

Lemma base_labels_sample l def : defs_in sel_label (load_map schema_entries_list) !! l = Some def -> l = [x41] /\ def = required_v.
Proof.
  intros H. destruct required_schema as [HS HL].
  pose proof (defs_of_labels _ _ (defs_in_of sel_label _ sel_label_key HS)) as HL'. apply HL' in H. apply HL in H.
  by apply lookup_singleton_Some in H as [<- <-].
Qed.

Lemma base_node k key record : node_in (load_map base_entries) k key record -> base_read = Some (key, record).
Proof.
  intros (v & Hk & Hn). apply load_elem in Hk. apply list_elem_of_singleton in Hk. injection Hk as -> ->. rewrite <-Hn. vm_compute. reflexivity.
Qed.

Lemma no_edges k v : load_map no_entries !! k = Some v -> False.
Proof. intros H. apply load_elem in H. by apply elem_of_nil in H. Qed.

Lemma base_valid : valid_graph (graph_of (version_v base_entries)).
Proof.
  split; cbn [graph_of g_labels g_rels g_nodes g_edges version_v v_schema v_nodes v_edges].
  - intros k e role enc [v Hk]. destruct (no_edges k v Hk).
  - intros k key record def p Hn Hd Hp. apply base_labels_sample in Hd as [_ ->]. apply list_elem_of_singleton in Hp as ->.
    apply base_node in Hn.
    assert (match base_read with Some (_, r) => is_present r required_v [x76] = true | None => False end) as Hc by (vm_compute; reflexivity).
    rewrite Hn in Hc. exact Hc.
  - intros k key record def _ Hd. apply base_labels_sample in Hd as [_ ->]. unfold type_violations. by rewrite bool_decide_true.
  - intros k key record def (v & Hk & _). destruct (no_edges k v Hk).
  - intros l p e k k' (key & record & def & v & _ & _ & Hd & Hp & _). apply base_labels_sample in Hd as [_ ->]. by apply elem_of_nil in Hp.
Qed.

Lemma base_identity nodes : same_identity (graph_of (version_v base_entries)) (graph_of (mkVersion (load_map schema_entries_list) nodes (load_map no_entries))).
Proof.
  split; cbn [graph_of g_labels g_rels g_nodes g_edges version_v v_schema v_nodes v_edges].
  - intros k key record bd d _ _ H1 H2. apply base_labels_sample in H1 as [_ ->], H2 as [_ ->]. done.
  - intros k key record bd d (v & Hk & _). destruct (no_edges k v Hk).
Qed.

Lemma merge_manifests_commutes_witness : exists fuel, forall f out s1 out' s2, fuel <= f ->
  merge_manifests f (version_m base_node_root) (version_m ours_node_root) (version_m base_node_root) merge_store = (Ok out, s1) ->
  merge_manifests f (version_m base_node_root) (version_m base_node_root) (version_m ours_node_root) merge_store = (Ok out', s2) ->
  exists m m', manifest_at s1 sample_params m (merged_version (version_v base_entries) (version_v ours_entries) (version_v base_entries)) /\
    manifest_at s2 sample_params m' (merged_version (version_v base_entries) (version_v ours_entries) (version_v base_entries)) /\
    (out = Clean m <-> out' = Clean m').
Proof.
  destruct graph_describes as (D1 & D2 & _).
  assert (version_at merge_store sample_params (version_m base_node_root) (version_v base_entries)) as V1
    by (apply version_sample; [vm_compute; reflexivity|exact D1|apply nodes_ok_load; vm_compute; reflexivity]).
  assert (version_at merge_store sample_params (version_m ours_node_root) (version_v ours_entries)) as V2
    by (apply version_sample; [vm_compute; reflexivity|exact D2|apply nodes_ok_load; vm_compute; reflexivity]).
  assert (merge_fits (version_v base_entries) (version_v ours_entries) (version_v base_entries)) as Hfit
    by (apply merge_fits_check; vm_compute; reflexivity).
  assert (merge_sized (version_v base_entries) (version_v ours_entries) (version_v base_entries)) as Hs
    by (intros []; vm_compute; discriminate).
  assert (exists nodes, merged_version (version_v base_entries) (version_v ours_entries) (version_v base_entries) =
    mkVersion (load_map schema_entries_list) nodes (load_map no_entries)) as [nodes En].
  { eexists. unfold merged_version. cbn [version_v v_schema v_edges]. by rewrite !merged_same. }
  assert (indexes_fit (merged_version (version_v base_entries) (version_v ours_entries) (version_v base_entries))) as Hi
    by (rewrite En; apply sample_indexes_fit).
  assert (same_identity (graph_of (version_v base_entries))
    (graph_of (merged_version (version_v base_entries) (version_v ours_entries) (version_v base_entries)))) as Hid
    by (rewrite En; apply base_identity).
  exact (merge_manifests_commutes merge_store (version_m base_node_root) (version_m ours_node_root) (version_m base_node_root)
    (version_v base_entries) (version_v ours_entries) (version_v base_entries) V1 V2 V1 eq_refl eq_refl Hfit Hs Hi base_valid Hid).
Defined.
