(* ===== verification/Transaction.v ===== *)
(** * Write transactions (acetone-graph/src/repo.rs)

    A [Transaction] stages operations on the maps of a manifest; a save checks
    them and builds the next manifest.  The transaction's place in the
    repository - its lock, the workspace reference it was read from and the
    advance of that reference in [persist_manifest] - is not modelled: the
    save returns the manifest it would persist, and what [merge_head] answers
    is an argument. *)
From S2P Require Import Prelude Model Values Canonical Records GraphKeys Schema Store Chunker Node Tree Manifest Diff Scan MapMerge Graph CellMerge GraphMerge GraphIndex Constraints MergeValidate Conflicts.

Record Transaction : Type := mkTransaction {
  manifest : Manifest; t_schema : list BatchOp; t_nodes : list BatchOp; t_edges_fwd : list BatchOp; t_edges_rev : list BatchOp }.

Definition batch_op_key (op : BatchOp) : bytes :=
  match op with Put key _ => key | Delete key => key end.

#[global] Instance index_def_eq_dec : EqDecision IndexDef.
Proof. solve_decision. Defined.

(** ** Staging *)

Abbreviation staging := (st Transaction GraphError unit).

Definition fallible {A : Type} (r : result GraphError A) : st Transaction GraphError A := st_read (fun _ => r).

Definition push_schema (op : BatchOp) : staging := fun t =>
  (Ok tt, mkTransaction (manifest t) (t_schema t ++ [op]) (t_nodes t) (t_edges_fwd t) (t_edges_rev t)).
Definition push_node (op : BatchOp) : staging := fun t =>
  (Ok tt, mkTransaction (manifest t) (t_schema t) (t_nodes t ++ [op]) (t_edges_fwd t) (t_edges_rev t)).
Definition push_edge_fwd (op : BatchOp) : staging := fun t =>
  (Ok tt, mkTransaction (manifest t) (t_schema t) (t_nodes t) (t_edges_fwd t ++ [op]) (t_edges_rev t)).
Definition push_edge_rev (op : BatchOp) : staging := fun t =>
  (Ok tt, mkTransaction (manifest t) (t_schema t) (t_nodes t) (t_edges_fwd t) (t_edges_rev t ++ [op])).

Definition put_node (key : NodeKey) (record : NodeRecord) : staging :=
  let! k := fallible (map_err GGraphKey (node_key_encode key)) in
  let! v := fallible (map_err GRecordEncode (node_record_encode record)) in
  push_node (Put k v).

Definition delete_node (key : NodeKey) : staging :=
  let! k := fallible (map_err GGraphKey (node_key_encode key)) in
  push_node (Delete k).

Definition put_edge (key : EdgeKey) (record : EdgeRecord) : staging :=
  let! k := fallible (map_err GGraphKey (encode_fwd key)) in
  let! v := fallible (map_err GRecordEncode (edge_record_encode record)) in
  let! _ := push_edge_fwd (Put k v) in
  let! r := fallible (map_err GGraphKey (encode_rev key)) in
  push_edge_rev (Put r []).

Definition delete_edge (key : EdgeKey) : staging :=
  let! k := fallible (map_err GGraphKey (encode_fwd key)) in
  let! _ := push_edge_fwd (Delete k) in
  let! r := fallible (map_err GGraphKey (encode_rev key)) in
  push_edge_rev (Delete r).

(** The source unwraps the key of an entry. *)
Definition put_schema (entry : SchemaEntry) : staging :=
  let! k := fallible (match map_key entry with Ok k => Ok k | Err _ => Err (GPanic "schema key") end) in
  push_schema (Put k (schema_encode_value entry)).

Definition delete_schema_entry (map_key : bytes) : staging := push_schema (Delete map_key).

Definition is_dirty (t : Transaction) : bool :=
  negb (bool_decide (t_schema t = []) && bool_decide (t_nodes t = []) && bool_decide (t_edges_fwd t = [])
        && bool_decide (t_edges_rev t = [])).

(** ** What the operations touch *)

Definition is_delete (op : BatchOp) : bool := match op with Delete _ => true | Put _ _ => false end.
Definition put_keys_of (ops : list BatchOp) : list bytes :=
  omap (fun op => match op with Put k _ => Some k | Delete _ => None end) ops.
Definition deleted_keys_of (ops : list BatchOp) : list bytes :=
  omap (fun op => match op with Delete k => Some k | Put _ _ => None end) ops.

Definition written_keys (t : Transaction) : list (ConflictMap * bytes) :=
  List.map (fun op => (MSchema, batch_op_key op)) (t_schema t)
  ++ List.map (fun op => (MNodes, batch_op_key op)) (t_nodes t)
  ++ List.map (fun op => (MEdges, batch_op_key op)) (t_edges_fwd t).

(** ** Declared types of the staged records *)

Fixpoint staged_node_types (typed_labels : gmap bytes LabelDef) (staged : list BatchOp) : result GraphError unit :=
  match staged with
  | [] => Ok tt
  | Delete _ :: staged => staged_node_types typed_labels staged
  | Put key value :: staged =>
    let? node := map_err GGraphKey (node_key_decode key) in
    match typed_labels !! label node with
    | None => staged_node_types typed_labels staged
    | Some def =>
      let? record := map_err GRecordDecode (node_record_decode value) in
      match type_violations node record def with
      | (property, declared, actual) :: _ => Err (PropertyTypeViolation node property declared actual)
      | [] => staged_node_types typed_labels staged
      end
    end
  end.

Fixpoint staged_edge_types (typed_rel_types : gmap bytes RelTypeDef) (staged : list BatchOp) : result GraphError unit :=
  match staged with
  | [] => Ok tt
  | Delete _ :: staged => staged_edge_types typed_rel_types staged
  | Put key value :: staged =>
    let? edge := map_err GGraphKey (decode_fwd key) in
    match typed_rel_types !! rtype edge with
    | None => staged_edge_types typed_rel_types staged
    | Some def =>
      let? record := map_err GRecordDecode (edge_record_decode value) in
      match rel_type_violations edge record def with
      | (property, declared, actual) :: _ => Err (EdgePropertyTypeViolation edge property declared actual)
      | [] => staged_edge_types typed_rel_types staged
      end
    end
  end.

(** ** What a schema change changes *)

(** The last entry of a name is the one collected. *)
Fixpoint collect_discs (entries : list SchemaEntry) (discs : gmap bytes (option bytes)) : gmap bytes (option bytes) :=
  match entries with
  | [] => discs
  | RelTypeEntry name def :: entries => collect_discs entries (<[name := discriminator def]> discs)
  | _ :: entries => collect_discs entries discs
  end.

(** An absent entry declares no discriminator. *)
Definition effective (discs : gmap bytes (option bytes)) (name : bytes) : option bytes :=
  match discs !! name with Some d => d | None => None end.

Definition changed_discs (old new : gmap bytes (option bytes)) : gset bytes :=
  list_to_set (List.filter (fun name => negb (bool_decide (effective old name = effective new name)))
    (List.map fst (btree_iter old) ++ List.map fst (btree_iter new))).

Fixpoint label_types (entries : list SchemaEntry) (types : gmap bytes types_map) : gmap bytes types_map :=
  match entries with
  | [] => types
  | LabelEntry name def :: entries => label_types entries (<[name := ltypes def]> types)
  | _ :: entries => label_types entries types
  end.

Fixpoint rel_types_of (entries : list SchemaEntry) (types : gmap bytes types_map) : gmap bytes types_map :=
  match entries with
  | [] => types
  | RelTypeEntry name def :: entries => rel_types_of entries (<[name := rtypes def]> types)
  | _ :: entries => rel_types_of entries types
  end.

(** The properties declared with a type they did not have. *)
Definition changed_types (previous : option types_map) (types : types_map) : gset bytes :=
  list_to_set (List.map fst (List.filter (fun '(property, declared) =>
    negb (bool_decide ((previous ≫= fun types => types !! property) = Some declared))) (btree_iter types))).

Definition judged (changed : gset bytes) (v : bytes * PropertyType * PropertyType) : bool := bool_decide (v.1.1 ∈ changed).

Abbreviation Retyped := (gmap bytes (RelTypeDef * gset bytes)).

Fixpoint retyped_rels (old_types : gmap bytes types_map) (new_entries : list SchemaEntry) (retyped : Retyped) : Retyped :=
  match new_entries with
  | [] => retyped
  | RelTypeEntry name def :: new_entries =>
    if bool_decide (rtypes def = ∅) then retyped_rels old_types new_entries retyped
    else
      let changed := changed_types (old_types !! name) (rtypes def) in
      retyped_rels old_types new_entries (if bool_decide (changed = ∅) then retyped else <[name := (def, changed)]> retyped)
  | _ :: new_entries => retyped_rels old_types new_entries retyped
  end.

Section store.
Context {S : Type} {CS : ChunkStore S}.

(** ** Checks of the staged records *)

Definition typed_labels_body (key value : bytes) (labels : gmap bytes LabelDef) : result GraphError (flow (gmap bytes LabelDef)) :=
  let? entry := map_err GSchema (schema_decode key value) in
  Ok (Continue (match entry with
                | LabelEntry name def => if bool_decide (ltypes def = ∅) then labels else <[name := def]> labels
                | _ => labels
                end)).

Definition check_staged_node_types (fuel : nat) (store : S) (params : ChunkParams) (schema : MapRoot) (staged : list BatchOp)
    : result GraphError unit :=
  if forallb is_delete staged then Ok tt
  else
    let? schema_root := map_err GProlly (to_root schema params) in
    let? typed_labels := for_each fuel store schema_root Unbounded Unbounded typed_labels_body ∅ in
    if bool_decide (typed_labels = ∅) then Ok tt else staged_node_types typed_labels staged.

Definition typed_rel_types_body (key value : bytes) (rel_types : gmap bytes RelTypeDef)
    : result GraphError (flow (gmap bytes RelTypeDef)) :=
  let? entry := map_err GSchema (schema_decode key value) in
  Ok (Continue (match entry with
                | RelTypeEntry name def => if bool_decide (rtypes def = ∅) then rel_types else <[name := def]> rel_types
                | _ => rel_types
                end)).

Definition check_staged_edge_types (fuel : nat) (store : S) (params : ChunkParams) (schema : MapRoot) (staged : list BatchOp)
    : result GraphError unit :=
  if forallb is_delete staged then Ok tt
  else
    let? schema_root := map_err GProlly (to_root schema params) in
    let? typed_rel_types := for_each fuel store schema_root Unbounded Unbounded typed_rel_types_body ∅ in
    if bool_decide (typed_rel_types = ∅) then Ok tt else staged_edge_types typed_rel_types staged.

(** ** Checks of a schema change *)

(** Whether the first entry at the label's prefix bears the label. *)
Definition label_is_borne (store : S) (root : Root) (label : bytes) : result GraphError bool :=
  let? prefix := label_prefix label in
  let? sc := map_err GProlly (scan store root (Included prefix) Unbounded) in
  match (next store sc).1 with
  | None => Ok false
  | Some (Err e) => Err (GProlly e)
  | Some (Ok (key, _)) => Ok (starts_with key prefix)
  end.

Fixpoint key_stability (store : S) (root : Root) (old_keys : LabelKeys) (new_keys : list (bytes * list bytes))
    : result GraphError unit :=
  match new_keys with
  | [] => Ok tt
  | (label, new_key) :: new_keys =>
    match old_keys !! label with
    | None => key_stability store root old_keys new_keys
    | Some old_key =>
      if bool_decide (old_key = new_key) then key_stability store root old_keys new_keys
      else
        let? borne := label_is_borne store root label in
        if borne then Err (LabelKeyChanged label) else key_stability store root old_keys new_keys
    end
  end.

Definition check_label_key_stability (store : S) (params : ChunkParams) (base_nodes : MapRoot) (old_keys new_keys : LabelKeys)
    : result GraphError unit :=
  let? root := map_err GProlly (to_root base_nodes params) in
  key_stability store root old_keys (btree_iter new_keys).

Definition disc_body (store : S) (base_root : Root) (changed : gset bytes) (key _value : bytes) (_ : unit)
    : result GraphError (flow unit) :=
  let? edge := map_err GGraphKey (decode_fwd key) in
  if bool_decide (rtype edge ∈ changed)
  then
    let? found := map_err GProlly (Tree.get store base_root key) in
    match found with Some _ => Err (RelDiscriminatorChanged (rtype edge)) | None => Ok (Continue tt) end
  else Ok (Continue tt).

Definition check_rel_disc_stability (fuel : nat) (store : S) (params : ChunkParams) (base_edges new_edges : MapRoot)
    (old_entries new_entries : list SchemaEntry) : result GraphError unit :=
  let changed := changed_discs (collect_discs old_entries ∅) (collect_discs new_entries ∅) in
  if bool_decide (changed = ∅) then Ok tt
  else
    let? base_root := map_err GProlly (to_root base_edges params) in
    let? new_root := map_err GProlly (to_root new_edges params) in
    for_each fuel store new_root Unbounded Unbounded (disc_body store base_root changed) tt.

Definition retyped_body (prefix : bytes) (def : LabelDef) (changed touched : gset bytes) (key value : bytes) (_ : unit)
    : result GraphError (flow unit) :=
  if negb (starts_with key prefix) then Ok (Break tt)
  else if bool_decide (key ∈ touched) then Ok (Continue tt)
  else
    let? node := map_err GGraphKey (node_key_decode key) in
    let? record := map_err GRecordDecode (node_record_decode value) in
    match List.find (judged changed) (type_violations node record def) with
    | Some (property, declared, actual) => Err (PropertyTypeViolation node property declared actual)
    | None => Ok (Continue tt)
    end.

Fixpoint retyped_labels (fuel : nat) (store : S) (root : Root) (old_types : gmap bytes types_map) (touched : gset bytes)
    (new_entries : list SchemaEntry) : result GraphError unit :=
  match new_entries with
  | [] => Ok tt
  | LabelEntry name def :: new_entries =>
    if bool_decide (ltypes def = ∅) then retyped_labels fuel store root old_types touched new_entries
    else
      let changed := changed_types (old_types !! name) (ltypes def) in
      if bool_decide (changed = ∅) then retyped_labels fuel store root old_types touched new_entries
      else
        let? prefix := label_prefix name in
        let? _ := for_each fuel store root (Included prefix) Unbounded (retyped_body prefix def changed touched) tt in
        retyped_labels fuel store root old_types touched new_entries
  | _ :: new_entries => retyped_labels fuel store root old_types touched new_entries
  end.

Definition check_retyped_labels (fuel : nat) (store : S) (params : ChunkParams) (base_nodes : MapRoot)
    (old_entries new_entries : list SchemaEntry) (touched : gset bytes) : result GraphError unit :=
  let? root := map_err GProlly (to_root base_nodes params) in
  retyped_labels fuel store root (label_types old_entries ∅) touched new_entries.

Definition retyped_edge_body (retyped : Retyped) (touched : gset bytes) (key value : bytes) (_ : unit)
    : result GraphError (flow unit) :=
  if bool_decide (key ∈ touched) then Ok (Continue tt)
  else
    let? edge := map_err GGraphKey (decode_fwd key) in
    match retyped !! rtype edge with
    | None => Ok (Continue tt)
    | Some (def, changed) =>
      let? record := map_err GRecordDecode (edge_record_decode value) in
      match List.find (judged changed) (rel_type_violations edge record def) with
      | Some (property, declared, actual) => Err (EdgePropertyTypeViolation edge property declared actual)
      | None => Ok (Continue tt)
      end
    end.

Definition check_retyped_rel_types (fuel : nat) (store : S) (params : ChunkParams) (base_edges : MapRoot)
    (old_entries new_entries : list SchemaEntry) (touched : gset bytes) : result GraphError unit :=
  let retyped := retyped_rels (rel_types_of old_entries ∅) new_entries ∅ in
  if bool_decide (retyped = ∅) then Ok tt
  else
    let? root := map_err GProlly (to_root base_edges params) in
    for_each fuel store root Unbounded Unbounded (retyped_edge_body retyped touched) tt.

(** ** Referential integrity *)

Definition role_name (role : Endpoint) : string := match role with Src => "source" | Dst => "target" end.

Definition edge_end (store : S) (nodes_root : Root) (edge : EdgeKey) (role : Endpoint) : result GraphError unit :=
  let? enc := map_err GGraphKey (node_key_encode (endpoint role edge)) in
  let? found := map_err GProlly (Tree.get store nodes_root enc) in
  match found with
  | Some _ => Ok tt
  | None => Err (GDanglingEdge (rtype edge) (role_name role) (endpoint role edge))
  end.

Fixpoint put_edges_ends (store : S) (nodes_root : Root) (put_edge_keys : list bytes) : result GraphError unit :=
  match put_edge_keys with
  | [] => Ok tt
  | raw :: put_edge_keys =>
    let? edge := map_err GGraphKey (decode_fwd raw) in
    let? _ := edge_end store nodes_root edge Src in
    let? _ := edge_end store nodes_root edge Dst in
    put_edges_ends store nodes_root put_edge_keys
  end.

(** The first edge under the deleted node's key in one edge map. *)
Definition surviving_edge (store : S) (root : Root) (role : Endpoint) (key : bytes) (node : NodeKey) : result GraphError unit :=
  let? sc := map_err GProlly (scan store root (Included key) Unbounded) in
  match (next store sc).1 with
  | None => Ok tt
  | Some (Err e) => Err (GProlly e)
  | Some (Ok (edge_key, _)) =>
    if starts_with edge_key key
    then
      let? edge := map_err GGraphKey (match role with Src => decode_fwd edge_key | Dst => decode_rev edge_key end) in
      Err (GDanglingEdge (rtype edge) (role_name role) node)
    else Ok tt
  end.

Fixpoint deleted_nodes_free (store : S) (nodes_root fwd_root rev_root : Root) (deleted_node_keys : list bytes)
    : result GraphError unit :=
  match deleted_node_keys with
  | [] => Ok tt
  | key :: deleted_node_keys =>
    let? found := map_err GProlly (Tree.get store nodes_root key) in
    match found with
    | Some _ => deleted_nodes_free store nodes_root fwd_root rev_root deleted_node_keys
    | None =>
      let? node := map_err GGraphKey (node_key_decode key) in
      let? _ := surviving_edge store fwd_root Src key node in
      let? _ := surviving_edge store rev_root Dst key node in
      deleted_nodes_free store nodes_root fwd_root rev_root deleted_node_keys
    end
  end.

Definition check_referential_integrity (store : S) (params : ChunkParams) (nodes edges_fwd edges_rev : MapRoot)
    (put_edge_keys deleted_node_keys : list bytes) : result GraphError unit :=
  let? nodes_root := map_err GProlly (to_root nodes params) in
  let? _ := put_edges_ends store nodes_root put_edge_keys in
  match deleted_node_keys with
  | [] => Ok tt
  | _ :: _ =>
    let? fwd_root := map_err GProlly (to_root edges_fwd params) in
    let? rev_root := map_err GProlly (to_root edges_rev params) in
    deleted_nodes_free store nodes_root fwd_root rev_root deleted_node_keys
  end.

(** ** Saving *)

(** The base hints go to a sidecar of the repository, best effort. *)
Definition apply_map (params : ChunkParams) (root : MapRoot) (ops : list BatchOp) : st S GraphError MapRoot :=
  match ops with
  | [] => st_ret root
  | _ :: _ =>
    let! root := root_of root params in
    let! '(new_root, _) := on_map (apply_batch_recording root ops) in
    st_ret (from_root new_root)
  end.

(** [Snapshot::schema_entries] of a manifest *)
Definition manifest_entries (fuel : nat) (store : S) (m : Manifest) : result GraphError (list SchemaEntry) :=
  let? schema := map_err GProlly (to_root (m_schema m) (chunk_params m)) in
  schema_entries fuel store schema.

Definition reduce_conflicts (fuel : nat) (t : Transaction) : st S GraphError (option MapRoot) :=
  match m_conflicts (manifest t), written_keys t with
  | Some root, _ :: _ =>
    let! root := root_of root (chunk_params (manifest t)) in
    let! reduced := clear_written fuel root (written_keys t) in
    st_ret (option_map from_root reduced)
  | other, _ => st_ret other
  end.

(** The checks a save with schema changes makes. *)
Definition check_schema_change (fuel : nat) (store : S) (t : Transaction) (m : Manifest) : result GraphError unit :=
  let p := chunk_params (manifest t) in
  let? old_entries := manifest_entries fuel store (manifest t) in
  let? new_entries := manifest_entries fuel store m in
  let old_keys := (schema_index_info old_entries).2 in
  let new_keys := (schema_index_info new_entries).2 in
  let? _ := check_label_key_stability store p (m_nodes (manifest t)) old_keys new_keys in
  let? _ := check_rel_disc_stability fuel store p (m_edges_fwd (manifest t)) (m_edges_fwd m) old_entries new_entries in
  let? _ := check_retyped_labels fuel store p (m_nodes (manifest t)) old_entries new_entries
    (list_to_set (List.map batch_op_key (t_nodes t))) in
  check_retyped_rel_types fuel store p (m_edges_fwd (manifest t)) old_entries new_entries
    (list_to_set (List.map batch_op_key (t_edges_fwd t))).

(** The index roots a save starts from: those whose definition it keeps. *)
Definition kept_indexes (base_indexes : gmap bytes MapRoot) (old_defs new_defs : gmap bytes IndexDef) : gmap bytes MapRoot :=
  filter (fun e => old_defs !! e.1 = new_defs !! e.1) base_indexes.

(** [into_iter().collect()] *)
Definition collect_defs (defs : list (bytes * IndexDef)) : gmap bytes IndexDef :=
  foldl (fun m '(name, def) => <[name := def]> m) ∅ defs.

Definition maintain_indexes (fuel : nat) (t : Transaction) (m : Manifest) : st S GraphError Manifest :=
  let base_indexes := m_indexes (manifest t) in
  let schema_changed := negb (bool_decide (t_schema t = [])) in
  if bool_decide (base_indexes = ∅) && negb schema_changed then st_ret m
  else
    let! entries := st_read (fun store => manifest_entries fuel store m) in
    let '(index_defs, label_keys) := schema_index_info entries in
    let! base :=
      (if schema_changed
       then
         let! old_entries := st_read (fun store => manifest_entries fuel store (manifest t)) in
         st_ret (kept_indexes base_indexes (collect_defs (schema_index_info old_entries).1) (collect_defs index_defs))
       else st_ret base_indexes) in
    let! indexes := maintain fuel (chunk_params (manifest t)) (m_nodes (manifest t)) (m_nodes m)
      (List.map batch_op_key (t_nodes t)) base index_defs label_keys in
    st_ret (with_indexes m indexes).

Definition half_aborted : GraphError :=
  MergeState "an interrupted merge or merge abort left conflicts without MERGE_HEAD: run `merge --abort` to finish backing out".

(** [save_in_place] up to [persist_manifest]: the manifest to persist. *)
Definition save_in_place (fuel : nat) (merge_head : result GraphError (option Hash)) (t : Transaction) : st S GraphError Manifest :=
  if negb (is_dirty t) then st_ret (manifest t)
  else
    let! aborted :=
      match m_conflicts (manifest t) with
      | Some _ => let! head := st_read (fun _ => merge_head) in st_ret (bool_decide (head = None))
      | None => st_ret false
      end in
    if (aborted : bool) then st_read (fun _ => Err half_aborted)
    else
      let p := chunk_params (manifest t) in
      let! conflicts := reduce_conflicts fuel t in
      let! schema := apply_map p (m_schema (manifest t)) (t_schema t) in
      let! _ := st_read (fun store => check_staged_node_types fuel store p schema (t_nodes t)) in
      let! _ := st_read (fun store => check_staged_edge_types fuel store p schema (t_edges_fwd t)) in
      let! nodes := apply_map p (m_nodes (manifest t)) (t_nodes t) in
      let! edges_fwd := apply_map p (m_edges_fwd (manifest t)) (t_edges_fwd t) in
      let! edges_rev := apply_map p (m_edges_rev (manifest t)) (t_edges_rev t) in
      let m := mkManifest p schema nodes edges_fwd edges_rev (m_indexes (manifest t)) conflicts in
      let! _ := st_read (fun store =>
        if bool_decide (t_schema t = []) then Ok tt else check_schema_change fuel store t m) in
      let! m := maintain_indexes fuel t m in
      let! _ := st_read (fun store =>
        match put_keys_of (t_edges_fwd t), deleted_keys_of (t_nodes t) with
        | [], [] => Ok tt
        | put_edge_keys, deleted_node_keys =>
          check_referential_integrity store p (m_nodes m) (m_edges_fwd m) (m_edges_rev m) put_edge_keys deleted_node_keys
        end) in
      st_ret m.

(** [reindex] up to [persist_manifest]. *)
Definition reindex (fuel : nat) (t : Transaction) : st S GraphError Manifest :=
  let! entries := st_read (fun store => manifest_entries fuel store (manifest t)) in
  let! indexes := rebuild_all fuel (manifest t) entries in
  st_ret (with_indexes (manifest t) indexes).
End store.
