(* ===== verification/TransactionStage.v ===== *)
(** * What a transaction stages

    Whatever calls are made on a transaction, what it has staged stays
    readable, the operations on the reverse map mirror those on the forward
    map, and a call that fails has staged nothing. *)
From S2P Require Import Prelude Model Keys Values Canonical Records KeysCodec GraphKeys Schema Store Chunker Node Tree TreeNodes TreeContent Manifest Graph GraphMerge GraphIndex GraphIndexRun Transaction.

(** ** What is staged *)

Definition reads_as {E A : Type} (r : result E A) : Prop := exists a, r = Ok a.

Definition node_op_ok (op : BatchOp) : Prop :=
  is_u32 (Z.of_nat (length (batch_op_key op))) = true /\ reads_as (node_key_decode (batch_op_key op)) /\
  match op with Put _ v => is_u32 (Z.of_nat (length v)) = true /\ reads_as (node_record_decode v) | Delete _ => True end.

Definition edge_op_ok (op : BatchOp) : Prop :=
  is_u32 (Z.of_nat (length (batch_op_key op))) = true /\ reads_as (decode_fwd (batch_op_key op)) /\
  match op with Put _ v => is_u32 (Z.of_nat (length v)) = true /\ reads_as (edge_record_decode v) | Delete _ => True end.

Definition schema_op_ok (op : BatchOp) : Prop :=
  match op with
  | Put k v => kv_ok (k, v) = true /\ reads_as (schema_decode k v)
  | Delete k => is_u32 (Z.of_nat (length k)) = true
  end.

(** The reverse operation of a forward operation: an edge's reverse key, with
    an empty value. *)
Definition mirrors (fwd rev : BatchOp) : Prop :=
  exists e, decode_fwd (batch_op_key fwd) = Ok e /\ encode_rev e = Ok (batch_op_key rev) /\
    match fwd, rev with Put _ _, Put _ v => v = [] | Delete _, Delete _ => True | _, _ => False end.

Record staged (t : Transaction) : Prop := mkStaged {
  staged_schema : Forall schema_op_ok (t_schema t);
  staged_nodes : Forall node_op_ok (t_nodes t);
  staged_edges : Forall edge_op_ok (t_edges_fwd t);
  staged_mirror : Forall2 mirrors (t_edges_fwd t) (t_edges_rev t) }.

(** ** The calls *)

Inductive call : Type :=
| PutNode (key : NodeKey) (record : NodeRecord)
| DeleteNode (key : NodeKey)
| PutEdge (key : EdgeKey) (record : EdgeRecord)
| DeleteEdge (key : EdgeKey)
| PutSchema (entry : SchemaEntry)
| DeleteSchemaEntry (map_key : bytes).

Definition run_call (c : call) : st Transaction GraphError unit :=
  match c with
  | PutNode key record => put_node key record
  | DeleteNode key => delete_node key
  | PutEdge key record => put_edge key record
  | DeleteEdge key => delete_edge key
  | PutSchema entry => put_schema entry
  | DeleteSchemaEntry map_key => delete_schema_entry map_key
  end.

(** An encoding, if there is one, has a length a node of the tree can hold. *)
Definition fits_in {E : Type} (r : result E bytes) : Prop := forall b, r = Ok b -> is_u32 (Z.of_nat (length b)) = true.

(** The arguments: values of their types, as their constructors make them. *)
Definition call_ok (c : call) : Prop :=
  match c with
  | PutNode key record => node_key_ok key /\ node_record_ok record /\ fits_in (node_key_encode key) /\ fits_in (node_record_encode record)
  | DeleteNode key => node_key_ok key /\ fits_in (node_key_encode key)
  | PutEdge key record => edge_key_ok key /\ props_ok (edge_properties record) /\ fits_in (encode_fwd key) /\ fits_in (edge_record_encode record)
  | DeleteEdge key => edge_key_ok key /\ fits_in (encode_fwd key)
  | PutSchema entry => schema_entry_ok entry /\ fits_in (map_key entry) /\ is_u32 (Z.of_nat (length (schema_encode_value entry))) = true
  | DeleteSchemaEntry map_key => is_u32 (Z.of_nat (length map_key)) = true
  end.

(** ** What each call leaves *)

Lemma fallible_bind {A B : Type} (r : result GraphError A) (f : A -> st Transaction GraphError B) t :
  st_bind (fallible r) f t = match r with Ok a => f a t | Err e => (Err e, t) end.
Proof. unfold st_bind, fallible, st_read. by destruct r. Qed.

Lemma encode_rev_normal k : encode_rev (normal_edge k) = encode_rev k.
Proof.
  unfold encode_rev, encode_tuple, normal_edge. cbn [src rtype dst disc]. rewrite !to_value_normal.
  change [normal (to_value (dst k)); VString (rtype k); normal (to_value (src k)); normal (disc k)]
    with (map normal [to_value (dst k); VString (rtype k); to_value (src k); disc k]). by rewrite encode_key_normal.
Qed.

(** The two keys of an edge, as the edge maps hold them. *)
Lemma encoded_edge key k :
  edge_key_ok key -> encode_fwd key = Ok k ->
  exists r, encode_rev key = Ok r /\ exists e, decode_fwd k = Ok e /\ encode_rev e = Ok r.
Proof.
  intros Hk Hf. destruct (edge_maps_mirror key Hk) as [Hok _]. rewrite Hf in Hok.
  destruct (encode_rev key) as [r|] eqn:Er; [|done]. exists r. split; [done|]. exists (normal_edge key).
  split; [by apply decode_fwd_encode|]. by rewrite encode_rev_normal.
Qed.

Lemma entry_has_key entry : schema_entry_ok entry -> exists k, map_key entry = Ok k.
Proof. intros (Hn & _). destruct entry; by apply entry_key_encode. Qed.

Lemma edge_key_staged key k v :
  edge_key_ok key -> encode_fwd key = Ok k -> is_u32 (Z.of_nat (length k)) = true ->
  is_u32 (Z.of_nat (length v)) = true /\ reads_as (edge_record_decode v) -> edge_op_ok (Put k v) /\ edge_op_ok (Delete k).
Proof. intros Hk Hf Hlen Hv. unfold edge_op_ok, reads_as. cbn [batch_op_key]. rewrite (decode_fwd_encode _ _ Hk Hf). eauto 10. Qed.

Lemma put_edge_run key record t :
  edge_key_ok key ->
  put_edge key record t =
    match encode_fwd key, edge_record_encode record, encode_rev key with
    | Ok k, Ok v, Ok r => (Ok tt, mkTransaction (manifest t) (t_schema t) (t_nodes t) (t_edges_fwd t ++ [Put k v]) (t_edges_rev t ++ [Put r []]))
    | Err e, _, _ => (Err (GGraphKey e), t)
    | _, Err e, _ => (Err (GRecordEncode e), t)
    | _, _, Err e => (Err (GGraphKey e), t)
    end.
Proof.
  intros Hk. unfold put_edge. rewrite fallible_bind. destruct (encode_fwd key) as [k|] eqn:Ef; [|done].
  cbn [map_err]. rewrite fallible_bind. destruct (edge_record_encode record) as [v|]; [|done]. cbn [map_err].
  destruct (encoded_edge key k Hk Ef) as (r & Er & _). unfold st_bind at 1. cbn [push_edge_fwd]. by rewrite fallible_bind, Er.
Qed.

Lemma delete_edge_run key t :
  edge_key_ok key ->
  delete_edge key t =
    match encode_fwd key, encode_rev key with
    | Ok k, Ok r => (Ok tt, mkTransaction (manifest t) (t_schema t) (t_nodes t) (t_edges_fwd t ++ [Delete k]) (t_edges_rev t ++ [Delete r]))
    | Err e, _ => (Err (GGraphKey e), t)
    | _, Err e => (Err (GGraphKey e), t)
    end.
Proof.
  intros Hk. unfold delete_edge. rewrite fallible_bind. destruct (encode_fwd key) as [k|] eqn:Ef; [|done].
  cbn [map_err]. destruct (encoded_edge key k Hk Ef) as (r & Er & _). unfold st_bind at 1. cbn [push_edge_fwd]. by rewrite fallible_bind, Er.
Qed.

(** A call either stages what it says or leaves the transaction alone. *)
Lemma run_call_staged c t r t' :
  call_ok c -> run_call c t = (r, t') -> staged t ->
  staged t' /\ manifest t' = manifest t /\ (r <> Ok tt -> t' = t).
Proof.
  intros Hc Hr [Hs Hn He Hm]. destruct c as [key record|key|key record|key|entry|k]; cbn [run_call call_ok] in *.
  - destruct Hc as (Hk & Hrec & Fk & Fr). unfold put_node in Hr. rewrite fallible_bind in Hr.
    destruct (node_key_encode key) as [k|] eqn:Ek; cbn [map_err] in Hr; [|by injection Hr as <- <-]. rewrite fallible_bind in Hr.
    destruct (node_record_encode record) as [v|] eqn:Ev; cbn [map_err] in Hr; [|by injection Hr as <- <-].
    injection Hr as <- <-. split; [|done]. split; cbn [t_schema t_nodes t_edges_fwd t_edges_rev]; try done.
    apply Forall_app. split; [done|]. constructor; [|done]. unfold node_op_ok, reads_as. cbn [batch_op_key].
    rewrite (node_key_decode_encode _ _ Hk Ek), (node_record_roundtrip _ _ Hrec Ev). eauto 10.
  - destruct Hc as (Hk & Fk). unfold delete_node in Hr. rewrite fallible_bind in Hr.
    destruct (node_key_encode key) as [k|] eqn:Ek; cbn [map_err] in Hr; [|by injection Hr as <- <-].
    injection Hr as <- <-. split; [|done]. split; cbn [t_schema t_nodes t_edges_fwd t_edges_rev]; try done.
    apply Forall_app. split; [done|]. constructor; [|done]. unfold node_op_ok, reads_as. cbn [batch_op_key].
    rewrite (node_key_decode_encode _ _ Hk Ek). eauto.
  - destruct Hc as (Hk & Hrec & Fk & Fr). rewrite (put_edge_run key record t Hk) in Hr.
    destruct (encode_fwd key) as [k|] eqn:Ek; [|by injection Hr as <- <-].
    destruct (edge_record_encode record) as [v|] eqn:Ev; [|by injection Hr as <- <-].
    destruct (encoded_edge key k Hk Ek) as (rv & Er & Hmir). rewrite Er in Hr. injection Hr as <- <-. split; [|done].
    split; cbn [t_schema t_nodes t_edges_fwd t_edges_rev]; try done.
    + apply Forall_app. split; [done|]. constructor; [|done]. apply (edge_key_staged key); [done..|by apply Fk|]. split; [by apply Fr|].
      assert (edge_record_decode v = Ok (mkEdgeRecord (Values.normal <$> edge_properties record))) as ->; [|by eexists].
      by apply edge_record_roundtrip.
    + apply Forall2_app; [done|]. constructor; [|done]. destruct Hmir as (e & He1 & He2). by exists e.
  - destruct Hc as (Hk & Fk). rewrite (delete_edge_run key t Hk) in Hr.
    destruct (encode_fwd key) as [k|] eqn:Ek; [|by injection Hr as <- <-].
    destruct (encoded_edge key k Hk Ek) as (rv & Er & Hmir). rewrite Er in Hr. injection Hr as <- <-. split; [|done].
    split; cbn [t_schema t_nodes t_edges_fwd t_edges_rev]; try done.
    + apply Forall_app. split; [done|]. constructor; [|done]. unfold edge_op_ok, reads_as. cbn [batch_op_key].
      rewrite (decode_fwd_encode _ _ Hk Ek). eauto.
    + apply Forall2_app; [done|]. constructor; [|done]. destruct Hmir as (e & He1 & He2). by exists e.
  - destruct Hc as (Hok & Fk & Fv). destruct (entry_has_key entry Hok) as [k Ek]. unfold put_schema in Hr.
    rewrite Ek, fallible_bind in Hr. injection Hr as <- <-. split; [|done]. split; cbn [t_schema t_nodes t_edges_fwd t_edges_rev]; try done.
    apply Forall_app. split; [done|]. constructor; [|done]. split; [unfold kv_ok; cbn [fst snd]; by rewrite (Fk k Ek), Fv|].
    rewrite (schema_decode_encode entry k Hok Ek). by eexists.
  - injection Hr as <- <-. split; [|done]. split; cbn [t_schema t_nodes t_edges_fwd t_edges_rev]; try done.
    apply Forall_app. split; [done|]. by repeat constructor.
Qed.

(** A transaction as it begins, and the calls made on it. *)
Definition begin (m : Manifest) : Transaction := mkTransaction m [] [] [] [].

Inductive calls : Transaction -> Transaction -> Prop :=
| calls_none t : calls t t
| calls_more t c r t' t'' : calls t t' -> call_ok c -> run_call c t' = (r, t'') -> calls t t''.

Lemma begin_staged m : staged (begin m).
Proof. by split. Qed.

Lemma calls_keep m t : calls (begin m) t -> staged t /\ manifest t = m.
Proof.
  intros H. remember (begin m) as t0 eqn:E0. induction H as [t|t c r t' t'' _ IH Hc Hr].
  - subst t. split; [apply begin_staged|done].
  - destruct (IH E0) as [Hs Hm]. destruct (run_call_staged c t' r t'' Hc Hr Hs) as (Hs' & Hm' & _). split; [done|congruence].
Qed.

(** C24: whatever calls are made on a transaction, in whatever order, and
    whichever of them fail, its manifest is the one it began with, every staged
    operation reads back - its key and its record decode and fit in a chunk -
    and the staged operations of the reverse map mirror those of the forward
    map one for one. *)
Theorem calls_staged m t : calls (begin m) t -> staged t /\ manifest t = m.
Proof. apply calls_keep. Qed.

(** A call that fails leaves the transaction as it was: [put_edge] and
    [delete_edge], which push the forward operation before they encode the
    reverse key, never stop between the two. *)
Lemma failed_call_stages_nothing c t e t' : call_ok c -> staged t -> run_call c t = (Err e, t') -> t' = t.
Proof. intros Hc Hs Hr. by destruct (run_call_staged c t (Err e) t' Hc Hr Hs) as (_ & _ & ->). Qed.
