(* ===== verification/TransactionChecks.v ===== *)
(** * What the checks of a save decide

    Each check passes exactly when the changed maps keep what it guards, and
    the error it returns names a real breach. *)
From S2P Require Import Prelude Ieee Model Keys Values Canonical Records KeysCodec GraphKeys Schema Store Chunker Node Tree TreeSpec TreeNodes TreeRead TreeBuild TreeLevels TreeContent TreeBatch Prolly Manifest Diff DiffRun MapDiff Scan ScanRun MapMerge Graph GraphRun CellMerge GraphMerge GraphMergeRun GraphIndex GraphIndexRun Constraints ConstraintsRun MergeValidate MergeValidateRun MergeManifestsRun Transaction TransactionStage.

(** ** Maps and the operations applied to them *)

Section operations.
Implicit Types (M : gmap bytes bytes) (ops : list BatchOp).

Definition applied M ops : gmap bytes bytes := foldl op_map M ops.
Definition touched ops : gset bytes := list_to_set (List.map batch_op_key ops).

Lemma touched_elem ops k : k ∈ touched ops <-> exists op, op ∈ ops /\ batch_op_key op = k.
Proof. unfold touched. rewrite elem_of_list_to_set. rewrite list_elem_of_fmap. naive_solver. Qed.

(** The last operation on a key decides. *)
Lemma applied_lookup M ops k :
  (k ∉ touched ops /\ applied M ops !! k = M !! k) \/
  (exists v, Put k v ∈ ops /\ applied M ops !! k = Some v) \/ (Delete k ∈ ops /\ applied M ops !! k = None).
Proof.
  unfold applied. revert M. induction ops as [|op ops IH]; intros M; [left; by split|]. cbn [foldl].
  destruct (IH (op_map M op)) as [[Hn ->]|[(v & Hin & ->)|[Hin ->]]].
  - destruct (decide (batch_op_key op = k)) as [<-|Hk].
    + right. destruct op as [k v|k]; cbn [op_map batch_op_key].
      * left. exists v. split; [by left|]. by rewrite lookup_insert_eq.
      * right. split; [by left|]. by rewrite lookup_delete_eq.
    + left. split; [rewrite touched_elem in *; intros (o & Ho & E); apply elem_of_cons in Ho as [->|Ho]; [done|]; apply Hn; by exists o|].
      destruct op as [k' v|k']; cbn [op_map batch_op_key] in *; [by rewrite lookup_insert_ne|by rewrite lookup_delete_ne].
  - right. left. exists v. split; [by right|done].
  - right. right. split; [by right|done].
Qed.

Lemma applied_untouched M ops k : k ∉ touched ops -> applied M ops !! k = M !! k.
Proof.
  intros H. destruct (applied_lookup M ops k) as [[_ E]|[(v & Hin & _)|[Hin _]]]; [done|..]; destruct H; apply touched_elem; by eexists.
Qed.

Lemma applied_Some M ops k v : applied M ops !! k = Some v -> Put k v ∈ ops \/ (k ∉ touched ops /\ M !! k = Some v).
Proof.
  intros H. destruct (applied_lookup M ops k) as [[Hn E]|[(v' & Hin & E)|[_ E]]]; rewrite E in H;
    [by right|injection H as ->; by left|done].
Qed.

Lemma applied_None M ops k : applied M ops !! k = None -> Delete k ∈ ops \/ M !! k = None.
Proof.
  intros H. destruct (applied_lookup M ops k) as [[Hn E]|[(v & Hin & E)|[Hin E]]]; rewrite E in H; [by right|done|by left].
Qed.

Lemma applied_size M ops : size (applied M ops) <= size M + length ops.
Proof.
  unfold applied. revert M. induction ops as [|op ops IH]; intros M; cbn [foldl length]; [lia|]. specialize (IH (op_map M op)).
  assert (size (op_map M op) <= 1 + size M); [|lia]. destruct op as [k v|k]; cbn [op_map].
  - rewrite map_size_insert. destruct (M !! k); cbn; lia.
  - rewrite map_size_delete. destruct (M !! k); cbn; lia.
Qed.

Lemma put_keys_elem ops k : k ∈ put_keys_of ops <-> exists v, Put k v ∈ ops.
Proof.
  unfold put_keys_of. rewrite list_elem_of_omap. split.
  - intros ([k' v|k'] & Hin & E); [injection E as ->; by exists v|done].
  - intros [v Hin]. by exists (Put k v).
Qed.

Lemma deleted_keys_elem ops k : k ∈ deleted_keys_of ops <-> Delete k ∈ ops.
Proof.
  unfold deleted_keys_of. rewrite list_elem_of_omap. split.
  - intros ([k' v|k'] & Hin & E); [done|by injection E as ->].
  - intros Hin. by exists (Delete k).
Qed.
End operations.

(** ** Judgements

    A check returns when [good] holds, and otherwise an error that is [bad]. *)
Definition judges {A : Type} (r : result GraphError A) (good : Prop) (bad : GraphError -> Prop) : Prop :=
  match r with Ok _ => good | Err e => bad e end.

Lemma judges_mono {A : Type} (r : result GraphError A) (P P' : Prop) (Q Q' : GraphError -> Prop) :
  judges r P Q -> (P -> P') -> (forall e, Q e -> Q' e) -> judges r P' Q'.
Proof. unfold judges. destruct r; auto. Qed.

Lemma judges_bind {A B : Type} (r : result GraphError A) (f : A -> result GraphError B) (P P' : Prop) (Q : GraphError -> Prop) :
  judges r P Q -> (forall a, P -> judges (f a) P' Q) -> judges (rbind r f) P' Q.
Proof. unfold judges. destruct r as [a|e]; cbn [rbind]; [intros HP H; by apply H|done]. Qed.

(** A loop that stops at the first item that fails. *)
Lemma each_judged {X : Type} (F : list X -> result GraphError unit) (good : X -> Prop) (bad : X -> GraphError -> Prop) (l : list X) :
  (forall x l, F (x :: l) = rbind (F [x]) (fun _ => F l)) -> F [] = Ok tt ->
  (forall x, x ∈ l -> judges (F [x]) (good x) (bad x)) ->
  judges (F l) (forall x, x ∈ l -> good x) (fun e => exists x, x ∈ l /\ bad x e).
Proof.
  intros Hcons Hnil. induction l as [|x l IH]; intros H; [rewrite Hnil; intros x Hx; by apply elem_of_nil in Hx|].
  rewrite Hcons. pose proof (H x ltac:(by left)) as Hx. specialize (IH (fun y Hy => H y ltac:(by right))). unfold judges in *.
  destruct (F [x]) as [[]|e]; cbn [rbind]; [|exists x; by split; [left|]]. destruct (F l) as [[]|e].
  - intros y Hy. apply elem_of_cons in Hy as [->|Hy]; [done|by apply IH].
  - destruct IH as (y & Hy & Hb). exists y. by split; [right|].
Qed.

(** A loop that only looks. *)
Lemma fold_flow_judges (body : bytes -> bytes -> unit -> result GraphError (flow unit)) (m : kvs) (good : bytes -> bytes -> Prop)
    (bad : bytes -> bytes -> GraphError -> Prop) :
  (forall k v, (k, v) ∈ m -> match body k v tt with Ok (Continue _) => good k v | Ok (Break _) => False | Err e => bad k v e end) ->
  judges (fold_flow body m tt) (forall k v, (k, v) ∈ m -> good k v) (fun e => exists k v, (k, v) ∈ m /\ bad k v e).
Proof.
  unfold judges. induction m as [|[k v] m IH]; intros H; cbn [fold_flow]; [intros k v Hin; by apply elem_of_nil in Hin|].
  pose proof (H k v ltac:(by left)) as Hk. destruct (body k v tt) as [[[]|[]]|e]; cbn [rbind]; [|done|by exists k, v; split; [left|]].
  specialize (IH (fun k v Hin => H k v ltac:(by right))). destruct (fold_flow body m tt) as [x|e].
  - intros k' v' Hin. apply elem_of_cons in Hin as [[= -> ->]|Hin]; [done|by apply IH].
  - destruct IH as (k' & v' & Hin & Hb). exists k', v'. by split; [right|].
Qed.

(** ** The definitions a list of schema entries collects *)

Section collects.
Context {D T : Type} (sel : SchemaEntry -> option (bytes * D)) (g : bytes -> D -> option T).
Context (sel_key : forall x y n d d', sel x = Some (n, d) -> sel y = Some (n, d') -> map_key x = map_key y).

Definition collects (acc : gmap bytes T) (entries : list SchemaEntry) : gmap bytes T :=
  foldl (fun acc x => match (match sel x with Some (n, d) => option_map (pair n) (g n d) | None => None end) with
                      | Some (n, d) => <[n := d]> acc
                      | None => acc
                      end) acc entries.

Lemma collects_spec SM entries n :
  schema_map_ok SM -> schema_read SM entries -> collects ∅ entries !! n = (defs_in sel SM !! n) ≫= g n.
Proof.
  intros HS [He _]. pose proof (defs_in_of sel SM sel_key HS) as Hd. apply option_eq. intros d. unfold collects.
  rewrite fold_insert.
  - rewrite lookup_empty, bind_Some. split.
    + intros [(x & Hin & Ex)|[_ ?]]; [|done]. destruct (sel x) as [[n' d']|] eqn:Es; [|done].
      destruct (g n' d') as [y|] eqn:Eg; [|done]. injection Ex as -> ->. apply He in Hin as (k & v & Hk & Hdec).
      exists d'. split; [apply Hd; by exists k, v, x|done].
    + intros (d' & Hn & Hg). apply Hd in Hn as (k & v & x & Hk & Hdec & Es). left. exists x. rewrite Es, Hg.
      split; [apply He; by exists k, v|done].
  - intros x y a b Hx Hy Ex Ey. destruct (sel x) as [[n1 d1]|] eqn:Es1; [|done]. destruct (sel y) as [[n2 d2]|] eqn:Es2; [|done].
    destruct (g n1 d1) eqn:E1; [|done]. destruct (g n2 d2) eqn:E2; [|done]. injection Ex as -> ->. injection Ey as -> ->.
    apply He in Hx as (k1 & v1 & Hk1 & Hd1), Hy as (k2 & v2 & Hk2 & Hd2).
    pose proof (schema_row SM k1 v1 x HS Hk1 Hd1) as K1. rewrite (sel_key x y n d1 d2 Es1 Es2), (schema_row SM k2 v2 y HS Hk2 Hd2) in K1.
    apply Ok_inj in K1 as ->. assert (defs_in sel SM !! n = Some d1) as F1 by (apply Hd; by exists k1, v1, x).
    assert (defs_in sel SM !! n = Some d2) as F2 by (apply Hd; by exists k1, v2, y). congruence.
Qed.
End collects.

Definition sel_index (x : SchemaEntry) : option (bytes * IndexDef) := match x with IndexDefEntry n d => Some (n, d) | _ => None end.
Lemma sel_index_key x y n d d' : sel_index x = Some (n, d) -> sel_index y = Some (n, d') -> map_key x = map_key y.
Proof. destruct x, y; try done. cbn. by intros [= -> ->] [= -> ->]. Qed.

(** The definitions a schema map declares. *)
Definition labels_in (SM : gmap bytes bytes) : gmap bytes LabelDef := defs_in sel_label SM.
Definition rels_in (SM : gmap bytes bytes) : gmap bytes RelTypeDef := defs_in sel_rel_type SM.
Definition index_defs_in (SM : gmap bytes bytes) : gmap bytes IndexDef := defs_in sel_index SM.
Definition keys_in (SM : gmap bytes bytes) : LabelKeys := lkey <$> labels_in SM.

Lemma keys_in_lookup SM l : keys_in SM !! l = lkey <$> labels_in SM !! l.
Proof. exact (lookup_fmap lkey (labels_in SM) l). Qed.

Section entries.
Context (SM : gmap bytes bytes) (entries : list SchemaEntry) (HS : schema_map_ok SM) (HE : schema_read SM entries).

Lemma discs_spec : collect_discs entries ∅ = discriminator <$> rels_in SM.
Proof.
  apply map_eq. intros n. rewrite lookup_fmap. unfold rels_in.
  transitivity ((defs_in sel_rel_type SM !! n) ≫= (fun d => Some (discriminator d))); [|by destruct (defs_in _ _ !! n)].
  rewrite <-(collects_spec sel_rel_type (fun _ d => Some (discriminator d)) sel_rel_type_key SM entries n HS HE). f_equal.
  unfold collects. generalize (∅ : gmap bytes (option bytes)). clear. induction entries as [|x l IH]; intros acc; [done|].
  destruct x as [n d|n d|n d]; cbn [collect_discs foldl sel_rel_type option_map]; apply IH.
Qed.

Lemma label_types_spec : label_types entries ∅ = ltypes <$> labels_in SM.
Proof.
  apply map_eq. intros n. rewrite lookup_fmap. unfold labels_in.
  transitivity ((defs_in sel_label SM !! n) ≫= (fun d => Some (ltypes d))); [|by destruct (defs_in _ _ !! n)].
  rewrite <-(collects_spec sel_label (fun _ d => Some (ltypes d)) sel_label_key SM entries n HS HE). f_equal.
  unfold collects. generalize (∅ : gmap bytes types_map). clear. induction entries as [|x l IH]; intros acc; [done|].
  destruct x as [n d|n d|n d]; cbn [label_types foldl sel_label option_map]; apply IH.
Qed.

Lemma rel_types_spec : rel_types_of entries ∅ = rtypes <$> rels_in SM.
Proof.
  apply map_eq. intros n. rewrite lookup_fmap. unfold rels_in.
  transitivity ((defs_in sel_rel_type SM !! n) ≫= (fun d => Some (rtypes d))); [|by destruct (defs_in _ _ !! n)].
  rewrite <-(collects_spec sel_rel_type (fun _ d => Some (rtypes d)) sel_rel_type_key SM entries n HS HE). f_equal.
  unfold collects. generalize (∅ : gmap bytes types_map). clear. induction entries as [|x l IH]; intros acc; [done|].
  destruct x as [n d|n d|n d]; cbn [rel_types_of foldl sel_rel_type option_map]; apply IH.
Qed.

Lemma label_keys_spec : (schema_index_info entries).2 = keys_in SM.
Proof.
  apply map_eq. intros n. unfold keys_in. rewrite lookup_fmap. unfold labels_in.
  transitivity ((defs_in sel_label SM !! n) ≫= (fun d => Some (lkey d))); [|by destruct (defs_in _ _ !! n)].
  rewrite <-(collects_spec sel_label (fun _ d => Some (lkey d)) sel_label_key SM entries n HS HE). f_equal.
  unfold collects, schema_index_info, LabelKeys. generalize (@nil (bytes * IndexDef)), (∅ : gmap bytes (list bytes)). clear.
  induction entries as [|x l IH]; intros ix acc; [done|].
  destruct x as [n d|n d|n d]; cbn [index_info foldl sel_label option_map]; apply IH.
Qed.

Lemma index_defs_spec name def : (name, def) ∈ (schema_index_info entries).1 <-> index_defs_in SM !! name = Some def.
Proof.
  unfold schema_index_info. rewrite index_info_spec. cbn [app]. destruct HE as [He _].
  rewrite list_elem_of_omap, (defs_in_of sel_index SM sel_index_key HS name def). split.
  - intros (x & Hin & Ex). apply He in Hin as (k & v & Hk & Hd). exists k, v, x. split_and!; [done..|]. by destruct x.
  - intros (k & v & x & Hk & Hd & Ex). exists x. split; [apply He; by exists k, v|]. by destruct x.
Qed.

Lemma retyped_spec old n :
  retyped_rels old entries ∅ !! n = rels_in SM !! n ≫= (fun def =>
    if bool_decide (rtypes def = ∅) then None
    else let changed := changed_types (old !! n) (rtypes def) in if bool_decide (changed = ∅) then None else Some (def, changed)).
Proof.
  unfold rels_in. rewrite <-(collects_spec sel_rel_type (fun n def =>
    if bool_decide (rtypes def = ∅) then None
    else let changed := changed_types (old !! n) (rtypes def) in if bool_decide (changed = ∅) then None else Some (def, changed))
    sel_rel_type_key SM entries n HS HE). f_equal.
  unfold collects. generalize (∅ : gmap bytes (RelTypeDef * gset bytes)). clear. induction entries as [|x l IH]; intros acc; [done|].
  destruct x as [m d|m d|m d]; cbn [retyped_rels foldl sel_rel_type option_map]; [apply IH| |apply IH].
  destruct (bool_decide (rtypes d = ∅)); [apply IH|]. cbn zeta. destruct (bool_decide (changed_types (old !! m) (rtypes d) = ∅)); apply IH.
Qed.
End entries.

(** ** Declared types of the staged records *)

Definition sel_typed_label (x : SchemaEntry) : option (bytes * LabelDef) :=
  match x with LabelEntry n d => if bool_decide (ltypes d = ∅) then None else Some (n, d) | _ => None end.
Definition sel_typed_rel (x : SchemaEntry) : option (bytes * RelTypeDef) :=
  match x with RelTypeEntry n d => if bool_decide (rtypes d = ∅) then None else Some (n, d) | _ => None end.

Lemma sel_typed_label_key x y n d d' : sel_typed_label x = Some (n, d) -> sel_typed_label y = Some (n, d') -> map_key x = map_key y.
Proof. destruct x, y; try done. cbn. repeat case_bool_decide; try done. by intros [= -> ->] [= -> ->]. Qed.
Lemma sel_typed_rel_key x y n d d' : sel_typed_rel x = Some (n, d) -> sel_typed_rel y = Some (n, d') -> map_key x = map_key y.
Proof. destruct x, y; try done. cbn. repeat case_bool_decide; try done. by intros [= -> ->] [= -> ->]. Qed.

(** The breach a [PropertyTypeViolation] reports. *)
Definition node_breach (labels : gmap bytes LabelDef) (key : NodeKey) (record : NodeRecord) (e : GraphError) : Prop :=
  exists def p d a, labels !! label key = Some def /\ (p, d, a) ∈ type_violations key record def /\ e = PropertyTypeViolation key p d a.
Definition edge_breach (rels : gmap bytes RelTypeDef) (key : EdgeKey) (record : EdgeRecord) (e : GraphError) : Prop :=
  exists def p d a, rels !! rtype key = Some def /\ (p, d, a) ∈ rel_type_violations key record def /\ e = EdgePropertyTypeViolation key p d a.

Definition edge_reads (k v : bytes) (key : EdgeKey) (record : EdgeRecord) : Prop :=
  decode_fwd k = Ok key /\ edge_record_decode v = Ok record.

Lemma node_of_reads k v key record :
  node_of k v = Some (key, record) <-> node_key_decode k = Ok key /\ node_record_decode v = Ok record.
Proof. unfold node_of. destruct (node_key_decode k), (node_record_decode v); naive_solver. Qed.

Lemma staged_nodes_judged labels ops :
  Forall node_op_ok ops ->
  judges (staged_node_types labels ops)
    (forall k v key record def, Put k v ∈ ops -> node_of k v = Some (key, record) -> labels !! label key = Some def ->
      type_violations key record def = [])
    (fun e => exists k v key record, Put k v ∈ ops /\ node_of k v = Some (key, record) /\ node_breach labels key record e).
Proof.
  intros Hops. eapply judges_mono; [apply (each_judged (staged_node_types labels)
    (fun op => forall k v key record def, op = Put k v -> node_of k v = Some (key, record) -> labels !! label key = Some def ->
      type_violations key record def = [])
    (fun op e => exists k v key record, op = Put k v /\ node_of k v = Some (key, record) /\ node_breach labels key record e))| |].
  - intros [k v|k] l; [|done]. cbn [staged_node_types]. destruct (node_key_decode k) as [key|]; [|done]. cbn [map_err rbind].
    destruct (labels !! label key); [|done]. destruct (node_record_decode v); [|done]. cbn [map_err rbind].
    by destruct (type_violations key _ _) as [|[[? ?] ?] ?].
  - done.
  - intros op Hin. rewrite Forall_forall in Hops. destruct (Hops op Hin) as (_ & [key Hk] & Hop). destruct op as [k v|k]; [|by cbn].
    destruct Hop as [_ [record Hr]]. cbn [batch_op_key staged_node_types] in *. rewrite Hk, Hr. cbn [map_err rbind].
    assert (node_of k v = Some (key, record)) as Hkv by (by apply node_of_reads).
    destruct (labels !! label key) as [def|] eqn:Ed; [destruct (type_violations key record def) as [|[[p d] a] l] eqn:Ev|]; cbn [judges].
    + intros k' v' key' record' def' [= <- <-] Hn Hd. rewrite Hkv in Hn. injection Hn as <- <-. congruence.
    + exists k, v, key, record. split_and!; [done..|]. exists def, p, d, a. rewrite Ev. by split_and!; [|left|].
    + intros k' v' key' record' def' [= <- <-] Hn Hd. rewrite Hkv in Hn. injection Hn as <- <-. congruence.
  - intros HP k v key record def Hin. by eapply (HP _ Hin).
  - intros e (op & Hin & k & v & key & record & -> & Hb). by exists k, v, key, record.
Qed.

Lemma staged_edges_judged rels ops :
  Forall edge_op_ok ops ->
  judges (staged_edge_types rels ops)
    (forall k v key record def, Put k v ∈ ops -> edge_reads k v key record -> rels !! rtype key = Some def ->
      rel_type_violations key record def = [])
    (fun e => exists k v key record, Put k v ∈ ops /\ edge_reads k v key record /\ edge_breach rels key record e).
Proof.
  intros Hops. eapply judges_mono; [apply (each_judged (staged_edge_types rels)
    (fun op => forall k v key record def, op = Put k v -> edge_reads k v key record -> rels !! rtype key = Some def ->
      rel_type_violations key record def = [])
    (fun op e => exists k v key record, op = Put k v /\ edge_reads k v key record /\ edge_breach rels key record e))| |].
  - intros [k v|k] l; [|done]. cbn [staged_edge_types]. destruct (decode_fwd k) as [key|]; [|done]. cbn [map_err rbind].
    destruct (rels !! rtype key); [|done]. destruct (edge_record_decode v); [|done]. cbn [map_err rbind].
    by destruct (rel_type_violations key _ _) as [|[[? ?] ?] ?].
  - done.
  - intros op Hin. rewrite Forall_forall in Hops. destruct (Hops op Hin) as (_ & [key Hk] & Hop). destruct op as [k v|k]; [|by cbn].
    destruct Hop as [_ [record Hr]]. cbn [batch_op_key staged_edge_types] in *. rewrite Hk, Hr. cbn [map_err rbind].
    assert (forall key' record', edge_reads k v key' record' -> key' = key /\ record' = record) as Hkv
      by (intros key' record' [H1 H2]; rewrite Hk in H1; rewrite Hr in H2; by apply Ok_inj in H1, H2).
    destruct (rels !! rtype key) as [def|] eqn:Ed; [destruct (rel_type_violations key record def) as [|[[p d] a] l] eqn:Ev|]; cbn [judges].
    + intros k' v' key' record' def' [= <- <-] [-> ->]%Hkv Hd. congruence.
    + exists k, v, key, record. split_and!; [done..|]. exists def, p, d, a. rewrite Ev. by split_and!; [|left|].
    + intros k' v' key' record' def' [= <- <-] [-> ->]%Hkv Hd. congruence.
  - intros HP k v key record def Hin. by eapply (HP _ Hin).
  - intros e (op & Hin & k & v & key & record & -> & Hb). by exists k, v, key, record.
Qed.

Section staged_checks.
Context {S : Type} {CS : ChunkStore S} {CSL : ChunkStoreLaws S}.
Implicit Types (s : S).

Lemma collect_rows {D : Type} (sel : SchemaEntry -> option (bytes * D)) body s R SM f :
  (forall x y n d d', sel x = Some (n, d) -> sel y = Some (n, d') -> map_key x = map_key y) ->
  (forall k v acc, body k v acc = let? x := map_err GSchema (schema_decode k v) in
     Ok (Continue (match sel x with Some (n, d) => <[n := d]> acc | None => acc end))) ->
  describes s R SM -> schema_map_ok SM -> size SM < f ->
  for_each f s R Unbounded Unbounded body ∅ = Ok (defs_in sel SM).
Proof.
  intros Hkey Hbody HR HS Hf. destruct (for_each_spec s R SM body ∅ HR) as (m & Hm & ->); [|done].
  rewrite (fold_flow_foldl _ (fun acc x => match row_def sel x with Some (n, d) => <[n := d]> acc | None => acc end)).
  - f_equal. apply (defs_of_unique sel SM); [|by apply defs_in_of]. apply fold_defs_of; [exact Hkey|done|].
    intros k v. by apply entries_in_lookup.
  - intros k v acc Hin. apply (entries_in_lookup SM m) in Hin; [|done]. destruct (HS k v Hin) as (_ & x & Hx).
    rewrite Hbody. unfold row_def. cbn [fst snd]. by rewrite Hx.
Qed.

Lemma typed_labels_in SM l def : schema_map_ok SM ->
  defs_in sel_typed_label SM !! l = Some def <-> labels_in SM !! l = Some def /\ ltypes def <> ∅.
Proof.
  intros HS. rewrite (defs_in_of sel_typed_label SM sel_typed_label_key HS l def).
  unfold labels_in. rewrite (defs_in_of sel_label SM sel_label_key HS l def). split.
  - intros (k & v & x & Hk & Hd & Ex). destruct x as [n d| |]; try done. cbn in Ex. case_bool_decide; [done|]. injection Ex as -> ->.
    split; [|done]. by exists k, v, (LabelEntry l def).
  - intros [(k & v & x & Hk & Hd & Ex) Ht]. destruct x as [n d| |]; try done. cbn in Ex. injection Ex as -> ->.
    exists k, v, (LabelEntry l def). split_and!; [done..|]. cbn. by rewrite bool_decide_false.
Qed.

Lemma typed_rels_in SM l def : schema_map_ok SM ->
  defs_in sel_typed_rel SM !! l = Some def <-> rels_in SM !! l = Some def /\ rtypes def <> ∅.
Proof.
  intros HS. rewrite (defs_in_of sel_typed_rel SM sel_typed_rel_key HS l def).
  unfold rels_in. rewrite (defs_in_of sel_rel_type SM sel_rel_type_key HS l def). split.
  - intros (k & v & x & Hk & Hd & Ex). destruct x as [|n d|]; try done. cbn in Ex. case_bool_decide; [done|]. injection Ex as -> ->.
    split; [|done]. by exists k, v, (RelTypeEntry l def).
  - intros [(k & v & x & Hk & Hd & Ex) Ht]. destruct x as [|n d|]; try done. cbn in Ex. injection Ex as -> ->.
    exists k, v, (RelTypeEntry l def). split_and!; [done..|]. cbn. by rewrite bool_decide_false.
Qed.

Lemma no_puts ops : forallb is_delete ops = true -> forall k v, Put k v ∉ ops.
Proof. rewrite forallb_forall. intros H k v Hin. by specialize (H (Put k v) (proj1 (list_elem_of_In _ _) Hin)). Qed.

Lemma check_staged_nodes_judged s p schema SM ops f :
  map_at s p schema SM -> schema_map_ok SM -> Forall node_op_ok ops -> size SM < f ->
  judges (check_staged_node_types f s p schema ops)
    (forall k v key record def, Put k v ∈ ops -> node_of k v = Some (key, record) -> labels_in SM !! label key = Some def ->
      type_violations key record def = [])
    (fun e => exists k v key record, Put k v ∈ ops /\ node_of k v = Some (key, record) /\ node_breach (labels_in SM) key record e).
Proof.
  intros (R & ER & HR) HS Hops Hf. unfold check_staged_node_types. destruct (forallb is_delete ops) eqn:Ed.
  { cbn [judges]. intros k v key record def Hin. by destruct (no_puts ops Ed k v). }
  rewrite ER. cbn [map_err rbind]. rewrite (collect_rows sel_typed_label typed_labels_body s R SM f sel_typed_label_key); [|intros k v acc|done..].
  2: { unfold typed_labels_body. destruct (schema_decode k v) as [[n d|n d|n d]|]; try done. cbn. by case_bool_decide. }
  cbn [rbind]. assert (forall l def, labels_in SM !! l = Some def -> defs_in sel_typed_label SM !! l = Some def \/ ltypes def = ∅) as Hin.
  { intros l def Hl. destruct (decide (ltypes def = ∅)) as [|Hne]; [by right|left]. by apply typed_labels_in. }
  assert (forall key record def, ltypes def = ∅ -> type_violations key record def = []) as Hnone
    by (intros key record def He; unfold type_violations; by rewrite bool_decide_true).
  case_bool_decide as E0.
  - cbn [judges]. intros k v key record def _ _ Hd. destruct (Hin _ _ Hd) as [H|H]; [|by apply Hnone]. by rewrite E0, lookup_empty in H.
  - eapply judges_mono; [by apply staged_nodes_judged| |].
    + intros HP k v key record def Hk Hn Hd. destruct (Hin _ _ Hd) as [H|H]; [|by apply Hnone]. by eapply HP.
    + intros e (k & v & key & record & Hk & Hn & def & p' & d & a & Hd & Hv & ->). exists k, v, key, record. split_and!; [done..|].
      exists def, p', d, a. apply (typed_labels_in SM _ _ HS) in Hd as [Hd _]. by split_and!.
Qed.

Lemma check_staged_edges_judged s p schema SM ops f :
  map_at s p schema SM -> schema_map_ok SM -> Forall edge_op_ok ops -> size SM < f ->
  judges (check_staged_edge_types f s p schema ops)
    (forall k v key record def, Put k v ∈ ops -> edge_reads k v key record -> rels_in SM !! rtype key = Some def ->
      rel_type_violations key record def = [])
    (fun e => exists k v key record, Put k v ∈ ops /\ edge_reads k v key record /\ edge_breach (rels_in SM) key record e).
Proof.
  intros (R & ER & HR) HS Hops Hf. unfold check_staged_edge_types. destruct (forallb is_delete ops) eqn:Ed.
  { cbn [judges]. intros k v key record def Hin. by destruct (no_puts ops Ed k v). }
  rewrite ER. cbn [map_err rbind]. rewrite (collect_rows sel_typed_rel typed_rel_types_body s R SM f sel_typed_rel_key); [|intros k v acc|done..].
  2: { unfold typed_rel_types_body. destruct (schema_decode k v) as [[n d|n d|n d]|]; try done. cbn. by case_bool_decide. }
  cbn [rbind]. assert (forall l def, rels_in SM !! l = Some def -> defs_in sel_typed_rel SM !! l = Some def \/ rtypes def = ∅) as Hin.
  { intros l def Hl. destruct (decide (rtypes def = ∅)) as [|Hne]; [by right|left]. by apply typed_rels_in. }
  assert (forall key record def, rtypes def = ∅ -> rel_type_violations key record def = []) as Hnone
    by (intros key record def He; unfold rel_type_violations; by rewrite bool_decide_true).
  case_bool_decide as E0.
  - cbn [judges]. intros k v key record def _ _ Hd. destruct (Hin _ _ Hd) as [H|H]; [|by apply Hnone]. by rewrite E0, lookup_empty in H.
  - eapply judges_mono; [by apply staged_edges_judged| |].
    + intros HP k v key record def Hk Hn Hd. destruct (Hin _ _ Hd) as [H|H]; [|by apply Hnone]. by eapply HP.
    + intros e (k & v & key & record & Hk & Hn & def & p' & d & a & Hd & Hv & ->). exists k, v, key, record. split_and!; [done..|].
      exists def, p', d, a. apply (typed_rels_in SM _ _ HS) in Hd as [Hd _]. by split_and!.
Qed.
End staged_checks.

(** ** A scan that looks at its first entry *)

Section first.
Context {S : Type} {CS : ChunkStore S} {CSL : ChunkStoreLaws S}.
Implicit Types (s : S).

Lemma first_from s R M p :
  describes s R M -> exists sc, scan s R (Included p) Unbounded = Ok sc /\
    match (next s sc).1 with
    | None => forall k, is_Some (M !! k) -> starts_with k p = false
    | Some (Ok (k, v)) => M !! k = Some v /\ (starts_with k p = false -> forall k', is_Some (M !! k') -> starts_with k' p = false)
    | Some (Err _) => False
    end.
Proof.
  intros (Hp & m & <- & Ht). pose proof (root_den s R m Hp Ht) as Hd. destruct Ht as (_ & [Hs _] & _).
  destruct (seek_collect s R m (Included p) Unbounded Forward Hd Hs) as (sc & Esc & Hc). exists sc. split; [exact Esc|].
  specialize (Hc (Datatypes.S (length m)) ltac:(lia)). cbn [orient opposite] in Hc. rewrite keep_all in Hc by (by apply Forall_true).
  assert (entries_in (contents m) m) as Hm by by split.
  assert (forall k, is_Some (contents m !! k) -> starts_with k p = true -> exists v, (k, v) ∈ keep Forward (Included p) m) as Hin.
  { intros k [v Hk] Hpre. exists v. unfold keep. apply list_elem_of_filter. split; [by apply bytes_leb_le, starts_with_le|].
    by apply (entries_in_lookup (contents m) m). }
  cbn [collect] in Hc. destruct (next s sc) as [[[[k v]|e]|] sc'] eqn:En; cbn [fst].
  - apply rbind_Ok in Hc as (es & _ & Hc). apply Ok_inj in Hc.
    assert (sorted (keep Forward (Included p) m)) as Hsk by (by apply keep_sorted).
    assert ((k, v) ∈ keep Forward (Included p) m) as Hkv by (rewrite <-Hc; by left).
    unfold keep in Hkv. apply list_elem_of_filter in Hkv as [Hle Hkv]. cbn [fst keeps] in Hle. apply bytes_leb_le in Hle.
    split; [by apply (entries_in_lookup (contents m) m)|]. intros Hno k' Hk'. destruct (starts_with k' p) eqn:Ep; [|done].
    destruct (Hin k' Hk' Ep) as [v' Hin']. rewrite <-Hc in Hin', Hsk. cbn [List.map fst] in Hsk. apply StronglySorted_inv in Hsk as [_ Hall].
    apply elem_of_cons in Hin' as [[= -> ->]|Hin']; [congruence|].
    assert (bytes_lt k k') as Hlt by (rewrite Forall_forall in Hall; apply Hall; by apply (list_elem_of_fmap_2 fst) in Hin').
    apply starts_with_spec in Ep as [t ->].
    destruct (squeeze_prefix p [] t k) as [x ->]; [by rewrite app_nil_r|done|].
    apply not_true_iff_false in Hno. destruct Hno. apply starts_with_spec. by exists x.
  - done.
  - apply Ok_inj in Hc. intros k Hk. destruct (starts_with k p) eqn:Ep; [|done]. destruct (Hin k Hk Ep) as [v Hv].
    rewrite <-Hc in Hv. by apply elem_of_nil in Hv.
Qed.

(** ** Label keys *)

Lemma label_is_borne_spec s R M l :
  describes s R M -> nodes_ok M -> str_ok l = true ->
  exists b, label_is_borne s R l = Ok b /\
    (b = true -> exists k key record, node_in M k key record /\ label key = l) /\
    (b = false -> forall k key record, node_in M k key record -> label key <> l).
Proof.
  intros HR HM Hl. pose proof HR as (_ & m0 & _ & _).
  destruct (for_each_from s R M [] (fun _ _ a => Ok (Continue a)) tt HR) as (m & Hm & _).
  destruct (label_nodes M m l Hl HM Hm) as (p & _ & Hp & Hlabel).
  assert (forall k key record, node_in M k key record -> starts_with k p = true <-> label key = l) as Hnode.
  { intros k key record (v & Hk & Hn). apply (Hlabel k v key record); [by apply (entries_in_lookup M m)|done]. }
  destruct (first_from s R M p HR) as (sc & Esc & Hfirst). unfold label_is_borne. rewrite Hp. cbn [rbind]. rewrite Esc. cbn [map_err rbind].
  destruct ((next s sc).1) as [[[k v]|e]|]; [|done|].
  - destruct Hfirst as [Hk Hno]. exists (starts_with k p). split; [done|]. destruct (HM k v Hk) as (_ & [key Ek] & [record Er]).
    assert (node_in M k key record) as Hn by (exists v; split; [done|by apply node_of_reads]). split.
    + intros Hs. exists k, key, record. split; [done|]. by apply (Hnode k key record).
    + intros Hs k' key' record' Hn' Hl'. apply (Hnode _ _ _ Hn') in Hl'. destruct Hn' as (v' & Hk' & _).
      rewrite (Hno Hs k') in Hl'; [done|by exists v'].
  - exists false. split; [done|]. split; [done|]. intros _ k key record Hn Hl'. apply (Hnode _ _ _ Hn) in Hl'.
    destruct Hn as (v & Hk & _). rewrite (Hfirst k) in Hl'; [done|by exists v].
Qed.

Lemma key_stability_judged s p nodes M (old_keys new_keys : LabelKeys) :
  map_at s p nodes M -> nodes_ok M -> (forall l, is_Some (new_keys !! l) -> str_ok l = true) ->
  judges (check_label_key_stability s p nodes old_keys new_keys)
    (forall k key record o n, node_in M k key record -> old_keys !! label key = Some o -> new_keys !! label key = Some n -> o = n)
    (fun e => exists k key record o n, node_in M k key record /\ old_keys !! label key = Some o /\ new_keys !! label key = Some n /\
      o <> n /\ e = LabelKeyChanged (label key)).
Proof.
  intros (R & ER & HR) HM Hstr. unfold check_label_key_stability. rewrite ER. cbn [map_err rbind].
  eapply judges_mono; [apply (each_judged (key_stability s R old_keys)
    (fun x => forall k key record o, node_in M k key record -> label key = x.1 -> old_keys !! x.1 = Some o -> o = x.2)
    (fun x e => exists k key record o, node_in M k key record /\ label key = x.1 /\ old_keys !! x.1 = Some o /\ o <> x.2 /\ e = LabelKeyChanged x.1))| |].
  - intros [l n] rest. cbn [key_stability]. destruct (old_keys !! l) as [o|]; [|done]. destruct (bool_decide (o = n)); [done|].
    destruct (label_is_borne s R l) as [[]|]; done.
  - done.
  - intros [l n] Hin. apply btree_iter_elem in Hin. cbn [key_stability fst snd]. destruct (old_keys !! l) as [o|] eqn:Eo; [|cbn; done].
    case_bool_decide as En; [cbn [judges]; subst; congruence|].
    destruct (label_is_borne_spec s R M l HR HM (Hstr l ltac:(by exists n))) as ([] & -> & H1 & H2); cbn [rbind judges].
    + destruct (H1 eq_refl) as (k & key & record & Hn & Hl). by exists k, key, record, o.
    + intros k key record o' Hn Hl _. by destruct (H2 eq_refl k key record Hn).
  - intros HP k key record o n Hk Ho Hn. apply (HP (label key, n)) with k key record; [by apply btree_iter_elem|done..].
  - intros e ([l n] & Hin & k & key & record & o & Hk & Hl & Ho & Hne & ->). cbn [fst snd] in *. subst l.
    apply btree_iter_elem in Hin. by exists k, key, record, o, n.
Qed.

(** ** Discriminators *)

Definition disc_in (rels : gmap bytes RelTypeDef) (t : bytes) : option bytes := rels !! t ≫= discriminator.

Lemma changed_discs_elem (old new : gmap bytes RelTypeDef) t :
  t ∈ changed_discs (discriminator <$> old) (discriminator <$> new) <-> disc_in old t <> disc_in new t.
Proof.
  assert (forall m : gmap bytes RelTypeDef, effective (discriminator <$> m) t = disc_in m t) as Heff.
  { intros m. unfold effective, disc_in. rewrite lookup_fmap. by destruct (m !! t). }
  assert (forall m : gmap bytes RelTypeDef, t ∈ List.map fst (btree_iter (discriminator <$> m)) <-> is_Some (m !! t)) as Hkeys.
  { intros m. rewrite list_elem_of_fmap. split.
    - intros ([n d] & -> & Hin). apply btree_iter_elem in Hin. rewrite lookup_fmap in Hin. cbn. by destruct (m !! n).
    - intros [d Hd]. exists (t, discriminator d). split; [done|]. apply btree_iter_elem. by rewrite lookup_fmap, Hd. }
  unfold changed_discs. rewrite elem_of_list_to_set, list_elem_of_In, filter_In, <-list_elem_of_In, elem_of_app, !Hkeys, !Heff.
  rewrite negb_true_iff, bool_decide_eq_false. split; [by intros [_ ?]|]. intros H. split; [|done].
  unfold disc_in in H. destruct (old !! t) eqn:Eo; [left; by eexists|]. destruct (new !! t) eqn:En; [right; by eexists|]. done.
Qed.

Lemma disc_stability_judged s p be ne E E' SM SM' old new f :
  map_at s p be E -> map_at s p ne E' -> edges_ok E' -> schema_map_ok SM -> schema_map_ok SM' ->
  schema_read SM old -> schema_read SM' new -> size E' < f ->
  judges (check_rel_disc_stability f s p be ne old new)
    (forall k key, decode_fwd k = Ok key -> is_Some (E !! k) -> is_Some (E' !! k) ->
      disc_in (rels_in SM) (rtype key) = disc_in (rels_in SM') (rtype key))
    (fun e => exists k key, decode_fwd k = Ok key /\ is_Some (E !! k) /\ is_Some (E' !! k) /\
      disc_in (rels_in SM) (rtype key) <> disc_in (rels_in SM') (rtype key) /\ e = RelDiscriminatorChanged (rtype key)).
Proof.
  intros (RB & EB & HB) (RN & EN & HN) HE HS HS' Ho Hn Hf. unfold check_rel_disc_stability.
  rewrite (discs_spec SM old HS Ho), (discs_spec SM' new HS' Hn). case_bool_decide as Hc.
  { cbn [judges]. intros k key _ _ _. apply dec_stable. intros Hne. apply changed_discs_elem in Hne. rewrite Hc in Hne. set_solver. }
  rewrite EB, EN. cbn [map_err rbind]. clear Hc.
  destruct (for_each_spec s RN E' (disc_body s RB (changed_discs (discriminator <$> rels_in SM) (discriminator <$> rels_in SM'))) tt HN)
    as (m & Hm & Hrun). rewrite Hrun by done. eapply judges_mono; [apply (fold_flow_judges _ m
    (fun k _ => forall key, decode_fwd k = Ok key -> is_Some (E !! k) -> disc_in (rels_in SM) (rtype key) = disc_in (rels_in SM') (rtype key))
    (fun k _ e => exists key, decode_fwd k = Ok key /\ is_Some (E !! k) /\ disc_in (rels_in SM) (rtype key) <> disc_in (rels_in SM') (rtype key) /\
      e = RelDiscriminatorChanged (rtype key)))| |].
  - intros k v Hin. apply (entries_in_lookup E' m) in Hin; [|done]. destruct (HE k v Hin) as (_ & [key Ek] & _).
    unfold disc_body. rewrite Ek. cbn [map_err rbind]. case_bool_decide as Ht.
    + rewrite (describes_lookup s RB E k HB). cbn [map_err rbind]. apply changed_discs_elem in Ht. destruct (E !! k) as [x|].
      * exists key. split_and!; [done|by exists x|done..].
      * intros ? _ [? ?]. done.
    + intros key' [= <-] _. apply dec_stable. intros Hne. by apply Ht, changed_discs_elem.
  - intros HP k key Hk He [v Hv]. apply (HP k v); [by apply (entries_in_lookup E' m)|done..].
  - intros e (k & v & Hin & key & Hk & He & Hne & ->). apply (entries_in_lookup E' m) in Hin; [|done]. exists k, key. split_and!; [done..|by exists v|done|done].
Qed.
End first.

(** ** Retyped properties *)

Lemma changed_types_elem previous types p :
  p ∈ changed_types previous types <-> exists d, types !! p = Some d /\ (previous ≫= fun m => m !! p) <> Some d.
Proof.
  unfold changed_types. rewrite elem_of_list_to_set, list_elem_of_fmap. split.
  - intros ([q d] & -> & Hin). apply list_elem_of_In, filter_In in Hin as [Hin Hd]. apply list_elem_of_In, btree_iter_elem in Hin.
    apply negb_true_iff, bool_decide_eq_false in Hd. by exists d.
  - intros (d & Hp & Hd). exists (p, d). split; [done|]. apply list_elem_of_In, filter_In. split; [by apply list_elem_of_In, btree_iter_elem|].
    by apply negb_true_iff, bool_decide_eq_false.
Qed.

(** A declared type that was declared before. *)
Definition declared_in (previous : option types_map) (p : bytes) (d : PropertyType) : Prop := (previous ≫= fun m => m !! p) = Some d.

(** The first violation of a property whose declaration changed. *)
Lemma find_judged previous types (vs : list (bytes * PropertyType * PropertyType)) :
  (forall p d a, (p, d, a) ∈ vs -> types !! p = Some d) ->
  match List.find (judged (changed_types previous types)) vs with
  | Some (p, d, a) => (p, d, a) ∈ vs /\ ~ declared_in previous p d
  | None => forall p d a, (p, d, a) ∈ vs -> declared_in previous p d
  end.
Proof.
  intros Hvs. assert (forall p d a, (p, d, a) ∈ vs -> judged (changed_types previous types) (p, d, a) = true <-> ~ declared_in previous p d) as Hj.
  { intros p d a Hin. unfold judged. cbn [fst]. rewrite bool_decide_eq_true, changed_types_elem. split.
    - intros (d' & Hd' & Hne). rewrite (Hvs p d a Hin) in Hd'. by injection Hd' as <-.
    - intros Hne. exists d. split; [by eapply Hvs|done]. }
  destruct (List.find _ vs) as [[[p d] a]|] eqn:E.
  - apply find_some in E as [Hin E]. apply list_elem_of_In in Hin. split; [done|]. by apply (Hj p d a).
  - intros p d a Hin. pose proof (find_none _ _ E (p, d, a) (proj1 (list_elem_of_In _ _) Hin)) as Hf.
    unfold declared_in. apply dec_stable. intros Hne. apply (Hj p d a Hin) in Hne. congruence.
Qed.

Section retyped.
Context {S : Type} {CS : ChunkStore S} {CSL : ChunkStoreLaws S}.
Implicit Types (s : S).

Lemma retyped_label_judged s (R : Root) (M : gmap bytes bytes) (l : bytes) (def : LabelDef) (previous : option types_map) (T : gset bytes) (f : nat) :
  describes s R M -> nodes_ok M -> str_ok l = true -> size M < f ->
  judges (let? prefix := label_prefix l in
          let? _ := for_each f s R (Included prefix) Unbounded (retyped_body prefix def (changed_types previous (ltypes def)) T) tt in Ok tt)
    (forall k key record p d a, node_in M k key record -> label key = l -> k ∉ T -> (p, d, a) ∈ type_violations key record def ->
      declared_in previous p d)
    (fun e => exists k key record p d a, node_in M k key record /\ label key = l /\ k ∉ T /\ (p, d, a) ∈ type_violations key record def /\
      e = PropertyTypeViolation key p d a).
Proof.
  intros HR HM Hl Hf. set (ch := changed_types previous (ltypes def)).
  assert (exists p, node_label_prefix l = Ok p /\ label_prefix l = Ok p /\ forall m, entries_in M m ->
    forall k v key record, (k, v) ∈ m -> node_of k v = Some (key, record) -> starts_with k p = true <-> label key = l) as (p & _ & Ep & Hlabel).
  { destruct (for_each_from s R M [] (fun _ _ a => Ok (Continue a)) tt HR) as (m & Hm & _).
    destruct (label_nodes M m l Hl HM Hm) as (p & E1 & E2 & _). exists p. split_and!; [done..|]. intros m' Hm'.
    destruct (label_nodes M m' l Hl HM Hm') as (p' & E1' & _ & H). rewrite E1 in E1'. by apply Ok_inj in E1' as <-. }
  rewrite Ep. cbn [rbind].
  destruct (for_each_prefix s R M p (retyped_body p def ch T) (fun k v _ =>
    if bool_decide (k ∈ T) then Ok (Continue tt)
    else
      let? node := map_err GGraphKey (node_key_decode k) in
      let? record := map_err GRecordDecode (node_record_decode v) in
      match List.find (judged ch) (type_violations node record def) with
      | Some (property, declared, actual) => Err (PropertyTypeViolation node property declared actual)
      | None => Ok (Continue tt)
      end) tt HR) as (m & Hm & Hrun); [by intros k v []|].
  rewrite Hrun by done. specialize (Hlabel m Hm).
  eapply judges_mono; [eapply judges_bind; [apply (fold_flow_judges _ (under_prefix p m)
    (fun k v => forall key record p d a, node_of k v = Some (key, record) -> k ∉ T -> (p, d, a) ∈ type_violations key record def -> declared_in previous p d)
    (fun k v e => exists key record p d a, node_of k v = Some (key, record) /\ k ∉ T /\ (p, d, a) ∈ type_violations key record def /\
      e = PropertyTypeViolation key p d a))|intros [] HP; exact HP]| |].
  - intros k v Hin. apply list_elem_of_filter in Hin as [_ Hin]. apply (entries_in_lookup M m) in Hin; [|done].
    destruct (HM k v Hin) as (_ & [key Ek] & [record Er]). case_bool_decide as HT; [by intros|]. rewrite Ek, Er. cbn [map_err rbind].
    assert (node_of k v = Some (key, record)) as Hn by (by apply node_of_reads).
    pose proof (find_judged previous (ltypes def) (type_violations key record def)) as Hj. fold ch in Hj.
    destruct (List.find (judged ch) (type_violations key record def)) as [[[q d] a]|].
    + exists key, record, q, d, a. split_and!; try done. apply Hj. intros q' d' a' Hv. by apply type_violations_elem in Hv as [? _].
    + intros key' record' q d a Hn' _. rewrite Hn in Hn'. injection Hn' as <- <-. apply Hj.
      intros q' d' a' Hv. by apply type_violations_elem in Hv as [? _].
  - intros HP k key record q d a (v & Hk & Hn) Hlab HkT. apply (HP k v); [|done|done].
    assert ((k, v) ∈ m) as Hin by (by apply (entries_in_lookup M m)). apply list_elem_of_filter. split; [|done]. by apply (Hlabel k v key record).
  - intros e (k & v & Hin & key & record & q & d & a & Hn & HkT & Hv & ->). apply list_elem_of_filter in Hin as [Hpre Hin].
    apply (Hlabel k v key record Hin Hn) in Hpre. apply (entries_in_lookup M m) in Hin; [|done].
    exists k, key, record, q, d, a. split_and!; try done. by exists v.
Qed.

Lemma no_change previous types p d : changed_types previous types = ∅ -> types !! p = Some d -> declared_in previous p d.
Proof.
  intros Hc Hp. unfold declared_in. apply dec_stable. intros Hne. assert (p ∈ changed_types previous types) as Hin
    by (apply changed_types_elem; by exists d). rewrite Hc in Hin. set_solver.
Qed.

Lemma retyped_labels_judged s (p : ChunkParams) (nodes : MapRoot) (M SM SM' : gmap bytes bytes) (old new : list SchemaEntry) (T : gset bytes) (f : nat) :
  map_at s p nodes M -> nodes_ok M -> schema_map_ok SM -> schema_map_ok SM' -> schema_read SM old -> schema_read SM' new -> size M < f ->
  judges (check_retyped_labels f s p nodes old new T)
    (forall k key record def q d a, node_in M k key record -> k ∉ T -> labels_in SM' !! label key = Some def ->
      (q, d, a) ∈ type_violations key record def -> declared_in (ltypes <$> labels_in SM !! label key) q d)
    (fun e => exists k key record, node_in M k key record /\ k ∉ T /\ node_breach (labels_in SM') key record e).
Proof.
  intros (R & ER & HR) HM HS HS' Ho Hn Hf. unfold check_retyped_labels. rewrite ER. cbn [map_err rbind].
  rewrite (label_types_spec SM old HS Ho). pose proof (defs_in_of sel_label SM' sel_label_key HS') as Hdefs. destruct Hn as [Hnew _].
  assert (forall l def, labels_in SM' !! l = Some def <-> LabelEntry l def ∈ new) as Hin.
  { intros l def. unfold labels_in. rewrite (Hdefs l def), Hnew. split.
    - intros (k & v & x & Hk & Hd & Ex). destruct x; try done. injection Ex as -> ->. by exists k, v.
    - intros (k & v & Hk & Hd). by exists k, v, (LabelEntry l def). }
  assert (forall l def, LabelEntry l def ∈ new -> str_ok l = true) as Hstr.
  { intros l def Hl. apply Hnew in Hl as (k & v & Hk & Hd). destruct (HS' k v Hk) as [Hkv _]. apply kv_ok_parts in Hkv as [H1 H2].
    by apply schema_decode_iff in Hd as ((Hl & _) & _). }
  eapply judges_mono; [apply (each_judged (retyped_labels f s R (ltypes <$> labels_in SM) T)
    (fun x => forall l def, x = LabelEntry l def -> forall k key record q d a, node_in M k key record -> label key = l -> k ∉ T ->
      (q, d, a) ∈ type_violations key record def -> declared_in (ltypes <$> labels_in SM !! l) q d)
    (fun x e => exists l def, x = LabelEntry l def /\ exists k key record q d a, node_in M k key record /\ label key = l /\ k ∉ T /\
      (q, d, a) ∈ type_violations key record def /\ e = PropertyTypeViolation key q d a))| |].
  - intros [l def|l def|l def] rest; try done. cbn [retyped_labels]. destruct (bool_decide (ltypes def = ∅)); [done|]. cbn zeta.
    destruct (bool_decide (changed_types _ _ = ∅)); [done|]. destruct (label_prefix l) as [pre|]; [|done]. cbn [rbind].
    by destruct (for_each f s R (Included pre) Unbounded _ tt).
  - done.
  - intros [l def|l def|l def] Hx; try (intros ? ? ?; done). cbn [retyped_labels]. rewrite lookup_fmap.
    case_bool_decide as He.
    { intros l' def' [= <- <-] k key record q d a _ _ _ Hv. unfold type_violations in Hv. rewrite bool_decide_true in Hv by done. by apply elem_of_nil in Hv. }
    cbn zeta. case_bool_decide as Hc.
    { intros l' def' [= <- <-] k key record q d a _ _ _ Hv. apply type_violations_elem in Hv as [Hq _]. by eapply no_change. }
    eapply judges_mono; [apply (retyped_label_judged s R M l def (ltypes <$> labels_in SM !! l) T f HR HM (Hstr l def Hx) Hf)| |].
    + intros HP l' def' [= <- <-]. exact HP.
    + intros e H. by exists l, def.
  - intros HP k key record def q d a Hk HkT Hd. apply Hin in Hd. by apply (HP _ Hd (label key) def eq_refl k key record).
  - intros e (x & Hx & l & def & -> & k & key & record & q & d & a & Hk & <- & HkT & Hv & ->). exists k, key, record. split_and!; [done..|].
    exists def, q, d, a. split_and!; [by apply Hin|done|done].
Qed.

Lemma retyped_rels_judged s (p : ChunkParams) (edges : MapRoot) (E SM SM' : gmap bytes bytes) (old new : list SchemaEntry) (T : gset bytes) (f : nat) :
  map_at s p edges E -> edges_ok E -> schema_map_ok SM -> schema_map_ok SM' -> schema_read SM old -> schema_read SM' new -> size E < f ->
  judges (check_retyped_rel_types f s p edges old new T)
    (forall k key record def q d a, edge_in E k key record -> k ∉ T -> rels_in SM' !! rtype key = Some def ->
      (q, d, a) ∈ rel_type_violations key record def -> declared_in (rtypes <$> rels_in SM !! rtype key) q d)
    (fun e => exists k key record, edge_in E k key record /\ k ∉ T /\ edge_breach (rels_in SM') key record e).
Proof.
  intros (R & ER & HR) HE HS HS' Ho Hn Hf. unfold check_retyped_rel_types. rewrite (rel_types_spec SM old HS Ho).
  set (rt := retyped_rels _ _ _).
  assert (forall n, rt !! n = rels_in SM' !! n ≫= (fun def =>
    if bool_decide (rtypes def = ∅) then None
    else let changed := changed_types (rtypes <$> rels_in SM !! n) (rtypes def) in if bool_decide (changed = ∅) then None else Some (def, changed))) as Hrt
    by (intros n; unfold rt; rewrite (retyped_spec SM' new HS' Hn), lookup_fmap; done). clearbody rt.
  assert (forall n def key record q d a, rels_in SM' !! n = Some def -> rt !! n = None -> (q, d, a) ∈ rel_type_violations key record def ->
    declared_in (rtypes <$> rels_in SM !! n) q d) as Hkept.
  { intros n def key record q d a Hd Hno Hv. rewrite Hrt, Hd in Hno. cbn in Hno. case_bool_decide as He.
    - unfold rel_type_violations in Hv. rewrite bool_decide_true in Hv by done. by apply elem_of_nil in Hv.
    - case_bool_decide as Hc; [|done]. apply rel_type_violations_elem in Hv as [Hq _]. by eapply no_change. }
  case_bool_decide as E0.
  { cbn [judges]. intros k key record def q d a _ _ Hd Hv. eapply Hkept; [exact Hd|by rewrite E0, lookup_empty|exact Hv]. }
  rewrite ER. cbn [map_err rbind]. destruct (for_each_spec s R E (retyped_edge_body rt T) tt HR) as (m & Hm & Hrun). rewrite Hrun by done.
  eapply judges_mono; [apply (fold_flow_judges _ m
    (fun k v => forall key record def q d a, edge_reads k v key record -> k ∉ T -> rels_in SM' !! rtype key = Some def ->
      (q, d, a) ∈ rel_type_violations key record def -> declared_in (rtypes <$> rels_in SM !! rtype key) q d)
    (fun k v e => exists key record, edge_reads k v key record /\ k ∉ T /\ edge_breach (rels_in SM') key record e))| |].
  - intros k v Hin. apply (entries_in_lookup E m) in Hin; [|done]. destruct (HE k v Hin) as (_ & [key Ek] & [record Er]).
    unfold retyped_edge_body. case_bool_decide as HT; [by intros|]. rewrite Ek. cbn [map_err rbind].
    assert (forall key' record', edge_reads k v key' record' -> key' = key /\ record' = record) as Hkv
      by (intros key' record' [H1 H2]; rewrite Ek in H1; rewrite Er in H2; by apply Ok_inj in H1, H2).
    destruct (rt !! rtype key) as [[def ch]|] eqn:Et.
    2: { intros key' record' def q d a [-> ->]%Hkv _ Hd Hv. by eapply Hkept. }
    rewrite Er. cbn [map_err rbind]. rewrite Hrt in Et. destruct (rels_in SM' !! rtype key) as [def'|] eqn:Ed; [|done]. cbn in Et.
    case_bool_decide; [done|]. case_bool_decide; [done|]. injection Et as -> <-.
    pose proof (find_judged (rtypes <$> rels_in SM !! rtype key) (rtypes def) (rel_type_violations key record def)) as Hj.
    destruct (List.find _ (rel_type_violations key record def)) as [[[q d] a]|].
    + exists key, record. split_and!; [done..|]. exists def, q, d, a. split_and!; try done. apply Hj.
      intros q' d' a' Hv. by apply rel_type_violations_elem in Hv as [? _].
    + intros key' record' def' q d a [-> ->]%Hkv _ Hd. rewrite Ed in Hd. injection Hd as <-. apply Hj.
      intros q' d' a' Hv. by apply rel_type_violations_elem in Hv as [? _].
  - intros HP k key record def q d a (v & Hk & H1 & H2) HkT. apply (HP k v); [by apply (entries_in_lookup E m)|by split|done].
  - intros e (k & v & Hin & key & record & [H1 H2] & HkT & Hb). apply (entries_in_lookup E m) in Hin; [|done].
    exists k, key, record. split_and!; try done. by exists v.
Qed.
End retyped.

(** ** Referential integrity *)

Definition mirrored (E RV : gmap bytes bytes) : Prop :=
  forall r x, RV !! r = Some x <-> x = [] /\ exists k e, is_Some (E !! k) /\ decode_fwd k = Ok e /\ encode_rev e = Ok r.

(** The key of a node is a prefix of the keys of its edges, and of no other. *)
Lemma endpoint_prefix a b c d k node enc :
  encode_key [to_value a; b; c; d] = Ok k -> tuple_ok [to_value a; b; c; d] -> normal_node a = a ->
  node_key_encode node = Ok enc -> node_key_ok node -> normal_node node = node ->
  starts_with k enc = true <-> a = node.
Proof.
  intros Hk Hok Ha Henc [_ Hn] Hnn. unfold node_key_encode in Henc. apply map_err_Ok in Henc.
  assert (tuple_ok [to_value node]) as Ht by (by apply tuple_ok_cons; split; [|apply tuple_ok_nil]).
  rewrite (encode_key_starts_with _ _ _ _ Ht Hok Henc Hk). cbn [map app]. rewrite <-!to_value_normal, Ha, Hnn. split.
  - intros [x Hx]. injection Hx as Hl Hv _. destruct a, node. cbn in *. by subst.
  - intros ->. by eexists.
Qed.

Lemma src_prefix k key node enc :
  is_u32 (Z.of_nat (length k)) = true -> is_u32 (Z.of_nat (length enc)) = true ->
  decode_fwd k = Ok key -> node_key_decode enc = Ok node -> starts_with k enc = true <-> src key = node.
Proof.
  intros Hk He Hd Hn. apply key_bound in Hk, He. apply node_key_decode_Ok in Hn as (Hn & Hok & Hnn); [|done].
  apply edge_key_decode_Ok in Hd as (Hf & Hek & Hnk); [|done]. apply encode_tuple_Ok in Hf.
  pose proof Hek as (_ & Hs & Ht & _). eapply endpoint_prefix; [exact Hf|by apply edge_tuple_ok| |done..]. exact (f_equal src Hnk).
Qed.

Lemma dst_prefix r key node enc :
  is_u32 (Z.of_nat (length r)) = true -> is_u32 (Z.of_nat (length enc)) = true ->
  decode_rev r = Ok key -> node_key_decode enc = Ok node -> starts_with r enc = true <-> dst key = node.
Proof.
  intros Hk He Hd Hn. apply key_bound in Hk, He. apply node_key_decode_Ok in Hn as (Hn & Hok & Hnn); [|done].
  apply edge_key_decode_Ok in Hd as (Hf & Hek & Hnk); [|done]. apply encode_tuple_Ok in Hf.
  pose proof Hek as (_ & Hs & Ht & _). eapply endpoint_prefix; [exact Hf|by apply edge_tuple_ok| |done..]. exact (f_equal dst Hnk).
Qed.

Section integrity.
Context {S : Type} {CS : ChunkStore S} {CSL : ChunkStoreLaws S}.
Implicit Types (s : S).

(** The edges of the maps that have the node at one end. *)
Definition has_end (E : gmap bytes bytes) (role : Endpoint) (node : NodeKey) (k : bytes) (key : EdgeKey) : Prop :=
  is_Some (E !! k) /\ decode_fwd k = Ok key /\ endpoint role key = node.

Lemma surviving_src_judged s R E enc node :
  describes s R E -> edges_ok E -> is_u32 (Z.of_nat (length enc)) = true -> node_key_decode enc = Ok node ->
  judges (surviving_edge s R Src enc node) (forall k key, ~ has_end E Src node k key)
    (fun e => exists k key, has_end E Src node k key /\ e = GDanglingEdge (rtype key) (role_name Src) node).
Proof.
  intros HR HE Hl Hn. destruct (first_from s R E enc HR) as (sc & Esc & Hfirst). unfold surviving_edge. rewrite Esc. cbn [map_err rbind].
  assert (forall k v, E !! k = Some v -> exists key, decode_fwd k = Ok key /\ (starts_with k enc = true <-> src key = node)) as Hk.
  { intros k v Hkv. destruct (HE k v Hkv) as (Hkv' & [key Hd] & _). apply andb_prop in Hkv' as [Hkl _]. exists key.
    split; [done|]. by apply src_prefix. }
  destruct ((next s sc).1) as [[[k v]|e]|]; [|done|].
  - destruct Hfirst as [Hkv Hno]. destruct (Hk k v Hkv) as (key & Hd & Hs). destruct (starts_with k enc); cbn [judges].
    + rewrite Hd. cbn [map_err rbind judges]. exists k, key. split; [|done]. split; [by exists v|]. split; [done|]. by apply Hs.
    + intros k' key' ([v' Hkv'] & Hd' & He). destruct (Hk k' v' Hkv') as (key'' & Hd'' & Hs'). rewrite Hd' in Hd''. apply Ok_inj in Hd'' as <-.
      specialize (Hno eq_refl k' ltac:(by exists v')). apply Hs' in He. congruence.
  - cbn [judges]. intros k' key' ([v' Hkv'] & Hd' & He). destruct (Hk k' v' Hkv') as (key'' & Hd'' & Hs'). rewrite Hd' in Hd''. apply Ok_inj in Hd'' as <-.
    specialize (Hfirst k' ltac:(by exists v')). apply Hs' in He. congruence.
Qed.

Lemma mirror_edge E RV r x :
  edges_ok E -> mirrored E RV -> RV !! r = Some x ->
  exists k key, is_Some (E !! k) /\ decode_fwd k = Ok key /\ decode_rev r = Ok key /\ encode_rev key = Ok r /\ is_u32 (Z.of_nat (length r)) = true.
Proof.
  intros HE Hm Hr. apply Hm in Hr as (_ & k & key & [v Hk] & Hd & He). destruct (HE k v Hk) as (Hkv & _). apply andb_prop in Hkv as [Hl _].
  cbn [fst] in Hl. destruct (edge_reverse k key (key_bound _ Hl) Hd) as (r' & Er & Hlen & Hrev). rewrite He in Er. apply Ok_inj in Er as <-.
  exists k, key. split_and!; [by exists v|done..|by rewrite Hlen].
Qed.

Lemma surviving_dst_judged s R E RV enc node :
  describes s R RV -> edges_ok E -> mirrored E RV -> is_u32 (Z.of_nat (length enc)) = true -> node_key_decode enc = Ok node ->
  judges (surviving_edge s R Dst enc node) (forall k key, ~ has_end E Dst node k key)
    (fun e => exists k key, has_end E Dst node k key /\ e = GDanglingEdge (rtype key) (role_name Dst) node).
Proof.
  intros HR HE Hm Hl Hn. destruct (first_from s R RV enc HR) as (sc & Esc & Hfirst). unfold surviving_edge. rewrite Esc. cbn [map_err rbind].
  assert (forall k key, is_Some (E !! k) -> decode_fwd k = Ok key ->
    exists r, is_Some (RV !! r) /\ (starts_with r enc = true <-> dst key = node)) as Hto.
  { intros k key [v Hk] Hd. destruct (HE k v Hk) as (Hkv & _). apply andb_prop in Hkv as [Hkl _]. cbn [fst] in Hkl.
    destruct (edge_reverse k key (key_bound _ Hkl) Hd) as (r & Er & Hlen & Hrev). exists r. split.
    - exists []. apply Hm. split; [done|]. exists k, key. by split_and!; [exists v|..].
    - apply dst_prefix; [by rewrite Hlen|done..]. }
  destruct ((next s sc).1) as [[[r x]|e]|]; [|done|].
  - destruct Hfirst as [Hr Hno]. destruct (mirror_edge E RV r x HE Hm Hr) as (k & key & Hk & Hd & Hrev & _ & Hrl).
    pose proof (dst_prefix r key node enc Hrl Hl Hrev Hn) as Hs. destruct (starts_with r enc); cbn [judges].
    + rewrite Hrev. cbn [map_err rbind judges]. exists k, key. split; [|done]. split_and!; [done..|]. by apply Hs.
    + intros k' key' (Hk' & Hd' & He). destruct (Hto k' key' Hk' Hd') as (r' & Hr' & Hs'). specialize (Hno eq_refl r' Hr').
      apply Hs' in He. congruence.
  - cbn [judges]. intros k' key' (Hk' & Hd' & He). destruct (Hto k' key' Hk' Hd') as (r' & Hr' & Hs'). specialize (Hfirst r' Hr').
    apply Hs' in He. congruence.
Qed.

(** An edge without a node at one end. *)
Definition dangles_in (N : gmap bytes bytes) (key : EdgeKey) (role : Endpoint) : Prop :=
  exists enc, node_key_encode (endpoint role key) = Ok enc /\ N !! enc = None.
Definition dangling_error (key : EdgeKey) (role : Endpoint) : GraphError := GDanglingEdge (rtype key) (role_name role) (endpoint role key).

Lemma edge_end_judged s R N key role enc :
  describes s R N -> node_key_encode (endpoint role key) = Ok enc ->
  judges (edge_end s R key role) (~ dangles_in N key role) (fun e => dangles_in N key role /\ e = dangling_error key role).
Proof.
  intros HR He. unfold edge_end. rewrite He. cbn [map_err rbind]. rewrite (describes_lookup s R N enc HR). cbn [map_err rbind].
  destruct (N !! enc) as [v|] eqn:Ev; cbn [judges].
  - intros (enc' & He' & Hn). rewrite He in He'. apply Ok_inj in He' as <-. congruence.
  - split; [by exists enc|done].
Qed.

Lemma put_edges_judged s R N (ks : list bytes) :
  describes s R N -> (forall k, k ∈ ks -> is_u32 (Z.of_nat (length k)) = true /\ exists key, decode_fwd k = Ok key) ->
  judges (put_edges_ends s R ks)
    (forall k, k ∈ ks -> forall key role, decode_fwd k = Ok key -> ~ dangles_in N key role)
    (fun e => exists k, k ∈ ks /\ exists key role, decode_fwd k = Ok key /\ dangles_in N key role /\ e = dangling_error key role).
Proof.
  intros HR Hks. apply (each_judged (put_edges_ends s R)).
  - intros k rest. cbn [put_edges_ends]. destruct (decode_fwd k) as [key|]; [|done]. cbn [map_err rbind].
    destruct (edge_end s R key Src) as [[]|]; [|done]. cbn [rbind]. by destruct (edge_end s R key Dst) as [[]|].
  - done.
  - intros k Hin. destruct (Hks k Hin) as (Hl & key & Hd). cbn [put_edges_ends]. rewrite Hd. cbn [map_err rbind].
    destruct (endpoint_encodes k key Src Hl Hd) as [e1 H1], (endpoint_encodes k key Dst Hl Hd) as [e2 H2].
    pose proof (edge_end_judged s R N key Src e1 HR H1) as J1. pose proof (edge_end_judged s R N key Dst e2 HR H2) as J2. unfold judges in *.
    destruct (edge_end s R key Src) as [[]|e]; cbn [rbind].
    + destruct (edge_end s R key Dst) as [[]|e]; cbn [rbind].
      * intros key' [] [= <-]; done.
      * destruct J2 as [J2 ->]. by exists key, Dst.
    + destruct J1 as [J1 ->]. by exists key, Src.
Qed.

Lemma has_end_encodes E role node k key enc :
  edges_ok E -> is_u32 (Z.of_nat (length enc)) = true -> node_key_decode enc = Ok node ->
  has_end E role node k key <-> is_Some (E !! k) /\ decode_fwd k = Ok key /\ node_key_encode (endpoint role key) = Ok enc.
Proof.
  intros HE Hl Hn. apply key_bound in Hl. pose proof (node_key_decode_Ok enc node Hl Hn) as (He & Hok & Hnn). unfold has_end.
  split; (intros (H1 & H2 & H3); split_and!; [done..|]); [by rewrite H3|].
  destruct H1 as [v Hk]. destruct (HE k v Hk) as (Hkv & _). apply andb_prop in Hkv as [Hkl _]. apply key_bound in Hkl. cbn [fst] in Hkl.
  apply edge_key_decode_Ok in H2 as (_ & (_ & Hs & Hd & _) & Hnk); [|done].
  assert (node_key_decode enc = Ok (normal_node (endpoint role key))) as Hn' by (apply node_key_decode_encode; [by destruct role|done]).
  rewrite Hn in Hn'. apply Ok_inj in Hn' as ->. destruct role; symmetry; [exact (f_equal src Hnk)|exact (f_equal dst Hnk)].
Qed.

Lemma deleted_nodes_judged s RN RF RR N E RV (ks : list bytes) :
  describes s RN N -> describes s RF E -> describes s RR RV -> edges_ok E -> mirrored E RV ->
  (forall k, k ∈ ks -> is_u32 (Z.of_nat (length k)) = true /\ exists key, node_key_decode k = Ok key) ->
  judges (deleted_nodes_free s RN RF RR ks)
    (forall enc, enc ∈ ks -> N !! enc = None -> forall k key role, is_Some (E !! k) -> decode_fwd k = Ok key ->
      node_key_encode (endpoint role key) <> Ok enc)
    (fun e => exists enc, enc ∈ ks /\ exists k key role, is_Some (E !! k) /\ decode_fwd k = Ok key /\ dangles_in N key role /\
      e = dangling_error key role).
Proof.
  intros HN HF HR HE Hm Hks. apply (each_judged (deleted_nodes_free s RN RF RR)).
  - intros k rest. cbn [deleted_nodes_free]. destruct (Tree.get s RN k) as [[v|]|]; try done. cbn [map_err rbind].
    destruct (node_key_decode k) as [node|]; [|done]. cbn [map_err rbind].
    destruct (surviving_edge s RF Src k node) as [[]|]; [|done]. cbn [rbind]. by destruct (surviving_edge s RR Dst k node) as [[]|].
  - done.
  - intros enc Hin. destruct (Hks enc Hin) as (Hl & node & Hd). cbn [deleted_nodes_free].
    rewrite (describes_lookup s RN N enc HN). cbn [map_err rbind]. destruct (N !! enc) as [v|] eqn:En; [by cbn [judges]|].
    rewrite Hd. cbn [map_err rbind].
    pose proof (surviving_src_judged s RF E enc node HF HE Hl Hd) as J1.
    pose proof (surviving_dst_judged s RR E RV enc node HR HE Hm Hl Hd) as J2.
    assert (forall role k key, has_end E role node k key -> GDanglingEdge (rtype key) (role_name role) node = dangling_error key role /\
      is_Some (E !! k) /\ decode_fwd k = Ok key /\ dangles_in N key role) as Hbad.
    { intros role k key Hh. pose proof Hh as (_ & _ & Hend). unfold dangling_error. rewrite Hend. split; [done|].
      apply (has_end_encodes E role node k key enc HE Hl Hd) in Hh as (H1 & H2 & H3). split_and!; [done..|]. by exists enc. }
    unfold judges in *. destruct (surviving_edge s RF Src enc node) as [[]|e]; cbn [rbind].
    + destruct (surviving_edge s RR Dst enc node) as [[]|e]; cbn [rbind].
      * intros _ k key role Hk Hdk He. assert (has_end E role node k key) as Hh by (by apply (has_end_encodes E role node k key enc)).
        destruct role; [by apply (J1 k key)|by apply (J2 k key)].
      * destruct J2 as (k & key & Hh & ->). destruct (Hbad _ _ _ Hh) as (-> & ? & ? & ?). by exists k, key, Dst.
    + destruct J1 as (k & key & Hh & ->). destruct (Hbad _ _ _ Hh) as (-> & ? & ? & ?). by exists k, key, Src.
Qed.

Lemma integrity_judged s p nodes fwd rev N E RV (puts dels : list bytes) :
  map_at s p nodes N -> map_at s p fwd E -> map_at s p rev RV -> edges_ok E -> mirrored E RV ->
  (forall k, k ∈ puts -> is_u32 (Z.of_nat (length k)) = true /\ exists key, decode_fwd k = Ok key) ->
  (forall k, k ∈ dels -> is_u32 (Z.of_nat (length k)) = true /\ exists key, node_key_decode k = Ok key) ->
  judges (check_referential_integrity s p nodes fwd rev puts dels)
    ((forall k key role, k ∈ puts -> decode_fwd k = Ok key -> ~ dangles_in N key role) /\
     (forall enc k key role, enc ∈ dels -> N !! enc = None -> is_Some (E !! k) -> decode_fwd k = Ok key -> node_key_encode (endpoint role key) <> Ok enc))
    (fun e => exists k key role, (k ∈ puts \/ is_Some (E !! k)) /\ decode_fwd k = Ok key /\ dangles_in N key role /\ e = dangling_error key role).
Proof.
  intros (RN & EN & HN) (RF & EF & HF) (RR & ER & HR) HE Hm Hputs Hdels. unfold check_referential_integrity. rewrite EN. cbn [map_err rbind].
  eapply judges_bind.
  { eapply judges_mono; [by apply (put_edges_judged s RN N puts)|intros HP; exact HP|].
    intros e (k & Hin & key & role & Hd & Hdang & ->). exists k, key, role. split_and!; [by left|done..]. }
  intros _ HP. destruct dels as [|d rest] eqn:Ed.
  - cbn [judges]. split; [intros k key role Hin; by apply HP|]. intros enc k key role Hin. by apply elem_of_nil in Hin.
  - rewrite EF, ER. cbn [map_err rbind]. rewrite <-Ed in *. eapply judges_mono; [by apply (deleted_nodes_judged s RN RF RR N E RV dels)| |].
    + intros HD. split; [intros k key role Hin; by apply HP|]. intros enc k key role Hin Hnone. by apply (HD enc Hin Hnone).
    + intros e (enc & _ & k & key & role & Hk & Hd & Hdang & ->). exists k, key, role. split_and!; [by right|done..].
Qed.
End integrity.
