(* ===== verification/TransactionRun.v ===== *)
(** * A save takes a graph from one state to the next

    A save that returns has applied exactly what was staged: the reverse map
    still mirrors the edges, the indexes hold the entries of the new nodes,
    the conflicts are those not written, and a well-typed graph without
    dangling edges is followed by one.  A save that does not return either met
    a failure of the store or refuses for a reason its error states truly. *)
From S2P Require Import Prelude Ieee Model Keys Values Canonical Records KeysCodec GraphKeys Schema Store Chunker Node Tree TreeSpec TreeNodes TreeRead TreeBuild TreeLevels TreeContent TreeBatch Prolly Manifest Diff DiffRun MapDiff Scan ScanRun MapMerge Graph GraphRun CellMerge GraphMerge GraphMergeRun GraphIndex GraphIndexRun Constraints ConstraintsRun Conflicts ConflictsRun MergeValidate MergeValidateRun MergeManifestsRun Transaction TransactionStage TransactionChecks.

#[local] Open Scope nat_scope.

(** ** Operations that may refuse *)

Section refusing.
Context {S : Type} {CS : ChunkStore S}.
Implicit Types (s : S).

(** The operation only adds chunks, and fails only with the store or with an
    error that [E] allows. *)
Definition gwpe {A : Type} (m : st S GraphError A) (Q : A -> S -> Prop) (E : GraphError -> Prop) s : Prop :=
  match m s with
  | (Ok a, s') => extends s s' /\ Q a s'
  | (Err e, s') => extends s s' /\ ((exists e', e = GProlly e' /\ store_failure e') \/ E e)
  end.

Lemma gwpe_gwp {A : Type} (m : st S GraphError A) Q E s : gwp m Q s -> gwpe m Q E s.
Proof. unfold gwp, gwpe. destruct (m s) as [[a|e] s']; [done|]. intros [He Hf]. split; [done|by left]. Qed.

Lemma gwpe_ret {A : Type} (a : A) (Q : A -> S -> Prop) E s : Q a s -> gwpe (st_ret a) Q E s.
Proof. intros H. by apply gwpe_gwp, gwp_ret. Qed.

Lemma gwpe_judged {A : Type} (f : S -> result GraphError A) P E s : judges (f s) P E -> gwpe (st_read f) (fun _ s' => P /\ s' = s) E s.
Proof. unfold judges, gwpe, st_read. destruct (f s); intros H; (split; [done|]); [done|by right]. Qed.

Lemma gwpe_mono {A : Type} (m : st S GraphError A) (Q Q' : A -> S -> Prop) (E E' : GraphError -> Prop) s :
  gwpe m Q E s -> (forall a s', extends s s' -> Q a s' -> Q' a s') -> (forall e, E e -> E' e) -> gwpe m Q' E' s.
Proof.
  unfold gwpe. destruct (m s) as [[a|e] s']; intros [He H] HQ HE; (split; [done|]); [by apply HQ|].
  destruct H as [H|H]; [by left|right; by apply HE].
Qed.

Lemma gwpe_bind {A B : Type} (m : st S GraphError A) (f : A -> st S GraphError B) Q (Q' : B -> S -> Prop) E s :
  gwpe m Q E s -> (forall a s', extends s s' -> Q a s' -> gwpe (f a) Q' E s') -> gwpe (st_bind m f) Q' E s.
Proof.
  unfold gwpe at 1 3, st_bind. destruct (m s) as [[a|e] s']; [|done]. intros [He HQ] H.
  specialize (H a s' He HQ). unfold gwpe in H. destruct (f a s') as [[b|e] s'']; destruct H as [He' H]; (split; [by etrans|done]).
Qed.

(** The same at the head of a computation of which only the outcome matters. *)
Lemma gwpe_outcome {A B : Type} (m : st S GraphError A) (f : A -> st S GraphError B) Q E s (Fin : result GraphError B * S -> Prop) :
  gwpe m Q E s -> (forall e s', extends s s' -> (exists e', e = GProlly e' /\ store_failure e') \/ E e -> Fin (Err e, s')) ->
  (forall a s', extends s s' -> Q a s' -> Fin (f a s')) -> Fin (st_bind m f s).
Proof. unfold gwpe, st_bind. destruct (m s) as [[a|e] s']; intros [He H] HE HQ; [by apply HQ|by apply HE]. Qed.
End refusing.

(** ** The state of a graph *)

(** The entries of the declared indexes, under the names of their definitions. *)
Definition indexes_at {S : Type} {CS : ChunkStore S} {CSL : ChunkStoreLaws S} (s : S) (p : ChunkParams) (v : Version)
    (ix : gmap bytes MapRoot) : Prop :=
  (forall name, is_Some (ix !! name) -> is_Some (index_defs_in (v_schema v) !! name)) /\
  forall name def, index_defs_in (v_schema v) !! name = Some def ->
    exists r IM, ix !! name = Some r /\ map_at s p r IM /\ indexes def (keys_in (v_schema v)) (v_nodes v) IM.

Definition conflicts_at {S : Type} {CS : ChunkStore S} {CSL : ChunkStoreLaws S} (s : S) (p : ChunkParams) (c : option MapRoot)
    (cs : list MergeConflict) : Prop :=
  match c with None => cs = [] | Some r => cs <> [] /\ map_at s p r (conflicts_map cs) end.

Record state_at {S : Type} {CS : ChunkStore S} {CSL : ChunkStoreLaws S} (s : S) (p : ChunkParams) (m : Manifest) (v : Version)
    (cs : list MergeConflict) : Prop := mkStateAt {
  st_params : chunk_params m = p;
  st_version : version_at s p m v;
  st_mirror : exists RV, map_at s p (m_edges_rev m) RV /\ mirrored (v_edges v) RV;
  st_indexes : indexes_at s p v (m_indexes m);
  st_conflicts : conflicts_at s p (m_conflicts m) cs }.

(** What a save keeps of a graph. *)
Record well_typed (g : GraphMaps) : Prop := mkWellTyped {
  wt_ends : forall k e role enc, is_Some (g_edges g !! k) -> decode_fwd k = Ok e -> node_key_encode (endpoint role e) = Ok enc ->
    is_Some (g_nodes g !! enc);
  wt_nodes : forall k key record def, node_in (g_nodes g) k key record -> g_labels g !! label key = Some def ->
    type_violations key record def = [];
  wt_edges : forall k key record def, edge_in (g_edges g) k key record -> g_rels g !! rtype key = Some def ->
    rel_type_violations key record def = [] }.

(** What may not change under the data that is there: the key of a label a
    node bears, the discriminator of the type of an edge that stays. *)
Definition identity_kept (v v' : Version) : Prop :=
  (forall k key record o n, node_in (v_nodes v) k key record -> keys_in (v_schema v) !! label key = Some o ->
    keys_in (v_schema v') !! label key = Some n -> o = n) /\
  (forall k key, decode_fwd k = Ok key -> is_Some (v_edges v !! k) -> is_Some (v_edges v' !! k) ->
    disc_in (rels_in (v_schema v)) (rtype key) = disc_in (rels_in (v_schema v')) (rtype key)).

Definition saved (t : Transaction) (v : Version) : Version :=
  mkVersion (applied (v_schema v) (t_schema t)) (applied (v_nodes v) (t_nodes t)) (applied (v_edges v) (t_edges_fwd t)).

(** ** The staged operations and the maps *)

Lemma applied_nodes_ok M ops : nodes_ok M -> Forall node_op_ok ops -> nodes_ok (applied M ops).
Proof.
  intros HM Hops k v Hk. rewrite Forall_forall in Hops. apply applied_Some in Hk as [Hin|[_ Hk]]; [|by apply HM].
  destruct (Hops _ Hin) as (Hl & Hkey & Hv & Hr). cbn [batch_op_key] in *. split; [unfold kv_ok; cbn [fst snd]; by rewrite Hl, Hv|]. by split.
Qed.

Lemma applied_edges_ok M ops : edges_ok M -> Forall edge_op_ok ops -> edges_ok (applied M ops).
Proof.
  intros HM Hops k v Hk. rewrite Forall_forall in Hops. apply applied_Some in Hk as [Hin|[_ Hk]]; [|by apply HM].
  destruct (Hops _ Hin) as (Hl & Hkey & Hv & Hr). cbn [batch_op_key] in *. split; [unfold kv_ok; cbn [fst snd]; by rewrite Hl, Hv|]. by split.
Qed.

Lemma applied_schema_ok M ops : schema_map_ok M -> Forall schema_op_ok ops -> schema_map_ok (applied M ops).
Proof.
  intros HM Hops k v Hk. rewrite Forall_forall in Hops. apply applied_Some in Hk as [Hin|[_ Hk]]; [|by apply HM]. by apply (Hops _ Hin).
Qed.

Lemma saved_ok t v : version_ok v -> staged t -> version_ok (saved t v).
Proof. intros (H1 & H2 & H3) [S1 S2 S3 _]. split_and!; [by apply applied_schema_ok|by apply applied_nodes_ok|by apply applied_edges_ok]. Qed.

Lemma node_ops_fit ops : Forall node_op_ok ops -> Forall (fun op => op_ok op = true) ops.
Proof.
  intros H. eapply Forall_impl; [exact H|]. intros [k v|k] (Hl & _ & Hv); [|done]. cbn [op_ok batch_op_key] in *. unfold kv_ok. cbn [fst snd]. by rewrite Hl, (proj1 Hv).
Qed.

Lemma edge_ops_fit ops : Forall edge_op_ok ops -> Forall (fun op => op_ok op = true) ops.
Proof.
  intros H. eapply Forall_impl; [exact H|]. intros [k v|k] (Hl & _ & Hv); [|done]. cbn [op_ok batch_op_key] in *. unfold kv_ok. cbn [fst snd]. by rewrite Hl, (proj1 Hv).
Qed.

Lemma schema_ops_fit ops : Forall schema_op_ok ops -> Forall (fun op => op_ok op = true) ops.
Proof. intros H. eapply Forall_impl; [exact H|]. intros [k v|k]; [by intros [? _]|done]. Qed.

(** A forward operation and its reverse act on the same edge. *)
Lemma mirror_keys fwd rev : edge_op_ok fwd -> mirrors fwd rev ->
  is_u32 (Z.of_nat (length (batch_op_key rev))) = true /\
  forall k e r, is_u32 (Z.of_nat (length k)) = true -> decode_fwd k = Ok e -> encode_rev e = Ok r ->
    r = batch_op_key rev <-> k = batch_op_key fwd.
Proof.
  intros (Hl & _) (e & Hd & Hr & _). destruct (edge_reverse _ e (key_bound _ Hl) Hd) as (r' & Hr' & Hlen & Hrev).
  rewrite Hr in Hr'. apply Ok_inj in Hr' as <-. split; [by rewrite Hlen|]. intros k e0 r0 Hk Hd0 Hr0. split.
  - intros ->. destruct (edge_reverse k e0 (key_bound _ Hk) Hd0) as (r' & Hr' & _ & Hrev'). rewrite Hr0 in Hr'. apply Ok_inj in Hr' as <-.
    rewrite Hrev in Hrev'. apply Ok_inj in Hrev' as <-. apply edge_key_decode_Ok in Hd as (Hf & _), Hd0 as (Hf0 & _); [|by apply key_bound..].
    rewrite Hf in Hf0. by apply Ok_inj in Hf0.
  - intros ->. rewrite Hd in Hd0. apply Ok_inj in Hd0 as <-. rewrite Hr in Hr0. by apply Ok_inj in Hr0.
Qed.

Definition edge_keys_fit (E : gmap bytes bytes) : Prop := forall k, is_Some (E !! k) -> is_u32 (Z.of_nat (length k)) = true.

Lemma mirrored_op E RV fwd rev :
  edge_keys_fit E -> edge_op_ok fwd -> mirrors fwd rev -> mirrored E RV ->
  edge_keys_fit (op_map E fwd) /\ mirrored (op_map E fwd) (op_map RV rev).
Proof.
  intros HE Hf Hm HR. destruct (mirror_keys fwd rev Hf Hm) as [_ Hkeys]. pose proof Hf as (Hl & _).
  assert (edge_keys_fit (op_map E fwd)) as HE'.
  { intros k Hk. destruct (decide (k = batch_op_key fwd)) as [->|Hne]; [done|]. apply HE.
    destruct fwd; cbn [op_map batch_op_key] in *; [by rewrite lookup_insert_ne in Hk by done|by rewrite lookup_delete_ne in Hk by done]. }
  split; [done|]. intros r x. destruct Hm as (e & Hd & Hr & Hop).
  assert (forall k e', is_Some (op_map E fwd !! k) -> decode_fwd k = Ok e' -> encode_rev e' = Ok r -> r = batch_op_key rev <-> k = batch_op_key fwd) as Hk
    by (intros k e' Hk; apply (Hkeys k e' r); by apply HE').
  destruct fwd as [k0 v|k0], rev as [r0 y|r0]; try done; cbn [op_map batch_op_key] in *.
  - subst y. destruct (decide (r0 = r)) as [->|Hne].
    + rewrite lookup_insert_eq. split.
      * intros [= <-]. split; [done|]. exists k0, e. rewrite lookup_insert_eq. by split_and!.
      * by intros [-> _].
    + rewrite lookup_insert_ne, (HR r x) by done. split; intros [-> (k & e' & Hs & Hd' & Hr')]; (split; [done|]); exists k, e'; split_and!; try done.
      * destruct (decide (k0 = k)) as [->|]; [by rewrite lookup_insert_eq|by rewrite lookup_insert_ne].
      * destruct (decide (k0 = k)) as [->|]; [|by rewrite lookup_insert_ne in Hs].
        rewrite Hd in Hd'. apply Ok_inj in Hd' as <-. rewrite Hr in Hr'. by apply Ok_inj in Hr' as <-.
  - destruct (decide (r0 = r)) as [->|Hne].
    + rewrite lookup_delete_eq. split; [done|]. intros (_ & k & e' & Hs & Hd' & Hr'). pose proof (proj1 (Hk k e' Hs Hd' Hr') eq_refl) as ->.
      rewrite lookup_delete_eq in Hs. by destruct Hs.
    + rewrite lookup_delete_ne, (HR r x) by done. split; intros [-> (k & e' & Hs & Hd' & Hr')]; (split; [done|]); exists k, e'; split_and!; try done.
      * destruct (decide (k0 = k)) as [->|]; [|by rewrite lookup_delete_ne]. rewrite Hd in Hd'. apply Ok_inj in Hd' as <-.
        rewrite Hr in Hr'. by apply Ok_inj in Hr' as <-.
      * destruct (decide (k0 = k)) as [->|]; [rewrite lookup_delete_eq in Hs; by destruct Hs|by rewrite lookup_delete_ne in Hs].
Qed.

Lemma mirrored_applied E RV fwds revs :
  edge_keys_fit E -> Forall edge_op_ok fwds -> Forall2 mirrors fwds revs -> mirrored E RV -> mirrored (applied E fwds) (applied RV revs).
Proof.
  intros HE Hf Hm. revert E RV HE Hf. unfold applied. induction Hm as [|fwd rev fwds revs Hm _ IH]; intros E RV HE Hf HR; [done|].
  apply Forall_cons_1 in Hf as [Hf Hfs]. destruct (mirrored_op E RV fwd rev HE Hf Hm HR) as [HE' HR']. cbn [foldl]. by apply IH.
Qed.

Lemma edges_keys_fit E : edges_ok E -> edge_keys_fit E.
Proof. intros HE k [v Hk]. destruct (HE k v Hk) as (Hkv & _). by apply andb_prop in Hkv as [Hl _]. Qed.

Lemma rev_ops_fit fwds revs : Forall edge_op_ok fwds -> Forall2 mirrors fwds revs -> Forall (fun op => op_ok op = true) revs.
Proof.
  intros Hf Hm. induction Hm as [|fwd rev fwds revs Hm _ IH]; [done|]. apply Forall_cons_1 in Hf as [Hf Hfs]. constructor; [|by apply IH].
  destruct (mirror_keys fwd rev Hf Hm) as [Hl _]. destruct Hm as (e & _ & _ & Hop). destruct fwd, rev; try done. subst. cbn [op_ok batch_op_key] in *.
  unfold kv_ok. cbn [fst snd]. by rewrite Hl.
Qed.

Lemma mirrored_size E RV : edges_ok E -> mirrored E RV -> size RV <= size E.
Proof.
  intros HE HR. rewrite <-!size_dom.
  set (rev_of := fun k => match decode_fwd k with Ok e => match encode_rev e with Ok r => Some r | Err _ => None end | Err _ => None end).
  transitivity (size (list_to_set (omap rev_of (elements (dom E))) : gset bytes)).
  - apply subseteq_size. intros r Hr. apply elem_of_dom in Hr as [x Hr]. apply HR in Hr as (_ & k & e & Hk & Hd & He).
    apply elem_of_list_to_set, list_elem_of_omap. exists k. split; [by apply elem_of_elements, elem_of_dom|]. unfold rev_of. by rewrite Hd, He.
  - etrans; [apply size_list_to_set_length|]. apply length_omap_le.
Qed.

(** ** The steps of a save *)

Section steps.
Context {S : Type} {CS : ChunkStore S} {CSL : ChunkStoreLaws S}.
Implicit Types (s : S).

Lemma gwp_apply_map s p r M ops :
  map_at s p r M -> Forall (fun op => op_ok op = true) ops -> (Z.of_nat (size M + length ops) <= 2 ^ 62)%Z ->
  gwp (apply_map p r ops) (fun r' s' => map_at s' p r' (applied M ops)) s.
Proof.
  intros HM Hok Hs. unfold apply_map. destruct ops as [|op rest] eqn:Eops; [by apply gwp_ret|]. rewrite <-Eops in *. clear Eops.
  eapply gwp_bind; [apply (gwp_root_at s p r M (fun R s' => params R = p /\ describes s R M /\ s' = s) HM); by auto|].
  intros R ? _ (PR & D & ->). pose proof D as (Hp & m & Em & Ht). pose proof Ht as (_ & (Hsm & _) & _).
  eapply (gwp_bind _ _ (fun x s' => params x.1 = p /\ describes s' x.1 (applied M ops))).
  - apply gwp_on_map. unfold apply_batch_recording. eapply wp_bind_mono.
    { apply (wp_batch s R m ops (Some []) Hp Ht Hok). rewrite <-Em, size_contents in Hs by done. lia. }
    intros [R' rec] s' _ [H1 _]. cbn [fst] in H1. pose proof H1 as (E & _). apply wp_ret. cbn [fst]. split; [congruence|].
    unfold describes. rewrite E. split; [done|]. exists (merge_kv m (prepared ops)). split; [|done].
    unfold applied. rewrite <-Em. by apply merge_contents.
  - intros [R' hints] s' _ [PR' D']. apply gwp_ret. by apply map_at_root.
Qed.

Lemma written_fit t : staged t -> Forall (fun w => fits w.2) (written_keys t).
Proof.
  intros [H1 H2 H3 _]. unfold written_keys. rewrite !Forall_app, !Forall_map. split_and!.
  - eapply Forall_impl; [exact H1|]. intros [k v|k]; cbn; [|done]. intros [Hk _]. by apply andb_prop in Hk as [? _].
  - eapply Forall_impl; [exact H2|]. by intros op [? _].
  - eapply Forall_impl; [exact H3|]. by intros op [? _].
Qed.

Lemma unwritten_nil cs : unwritten [] cs = cs.
Proof.
  unfold unwritten. induction cs as [|c cs IH]; [done|]. cbn [List.filter]. assert (written_cell [] c = false) as ->; [|cbn [negb]; by rewrite IH].
  destruct c; [|done]. cbn [written_cell]. apply bool_decide_eq_false. apply not_elem_of_nil.
Qed.

Lemma gwp_reduce s t p cs f :
  chunk_params (manifest t) = p -> conflicts_at s p (m_conflicts (manifest t)) cs -> Forall conflict_fits cs -> staged t ->
  (Z.of_nat (2 * length cs) <= 2 ^ 62)%Z -> length cs < f ->
  gwp (reduce_conflicts f t) (fun c s' => conflicts_at s' p c (unwritten (written_keys t) cs)) s.
Proof.
  intros Ep Hc Hfit Hst Hs Hf. unfold reduce_conflicts. rewrite Ep. destruct (m_conflicts (manifest t)) as [r|].
  2: { apply gwp_ret. cbn in Hc. by subst cs. }
  destruct Hc as [Hne HM]. destruct (written_keys t) as [|w ws] eqn:Ew.
  { apply gwp_ret. rewrite unwritten_nil. by split. }
  rewrite <-Ew. eapply gwp_bind; [apply (gwp_root_at s p r _ (fun R s' => params R = p /\ describes s R (conflicts_map cs) /\ s' = s) HM); by auto|].
  intros R ? _ (PR & D & ->). eapply gwp_bind; [by apply gwp_clear_written; [..|apply written_fit| |]|].
  intros [R'|] s' _ H; apply gwp_ret; [|done]. destruct H as (H1 & H2 & H3). split; [done|]. apply map_at_root; [congruence|done].
Qed.

(** The schema entries of a manifest. *)
Lemma manifest_entries_spec s p m SM :
  chunk_params m = p -> map_at s p (m_schema m) SM -> schema_map_ok SM ->
  exists entries, (forall f, size SM < f -> manifest_entries f s m = Ok entries) /\ schema_read SM entries.
Proof.
  intros Ep (R & ER & HR) HS. destruct (merge_entries s R SM HR HS) as (entries & Hf & Hr). exists entries. split; [|done].
  intros f Hlt. unfold manifest_entries. rewrite Ep, ER. cbn [map_err rbind]. by apply Hf.
Qed.

Lemma declared_name SM l : schema_map_ok SM -> is_Some (keys_in SM !! l) -> str_ok l = true.
Proof.
  intros HS [x Hx]. rewrite keys_in_lookup in Hx. destruct (labels_in SM !! l) as [d|] eqn:E; [|done].
  apply (defs_in_of sel_label SM sel_label_key HS) in E as (k & v & y & Hk & Hd & Ey). destruct y as [n d'| |]; try done. injection Ey as -> ->.
  destruct (HS k v Hk) as [Hkv _]. apply kv_ok_parts in Hkv as [H1 H2]. by apply schema_decode_iff in Hd as ((Hl & _) & _).
Qed.

(** ** The schema changes *)

(** What the checks of a schema change allow. *)
Definition schema_change_ok (t : Transaction) (v : Version) : Prop :=
  identity_kept v (saved t v) /\
  (forall k key record def q d a, node_in (v_nodes v) k key record -> k ∉ touched (t_nodes t) ->
    labels_in (v_schema (saved t v)) !! label key = Some def -> (q, d, a) ∈ type_violations key record def ->
    declared_in (ltypes <$> labels_in (v_schema v) !! label key) q d) /\
  (forall k key record def q d a, edge_in (v_edges v) k key record -> k ∉ touched (t_edges_fwd t) ->
    rels_in (v_schema (saved t v)) !! rtype key = Some def -> (q, d, a) ∈ rel_type_violations key record def ->
    declared_in (rtypes <$> rels_in (v_schema v) !! rtype key) q d).

(** Why a save is refused. *)
Inductive refusal (merge_head : result GraphError (option Hash)) (t : Transaction) (v : Version) : GraphError -> Prop :=
| refused_aborted : m_conflicts (manifest t) <> None -> merge_head = Ok None -> refusal merge_head t v half_aborted
| refused_head e : m_conflicts (manifest t) <> None -> merge_head = Err e -> refusal merge_head t v e
| refused_node k x key record e :
    Put k x ∈ t_nodes t \/ (k ∉ touched (t_nodes t) /\ v_nodes v !! k = Some x) -> node_of k x = Some (key, record) ->
    node_breach (labels_in (v_schema (saved t v))) key record e -> refusal merge_head t v e
| refused_edge k x key record e :
    Put k x ∈ t_edges_fwd t \/ (k ∉ touched (t_edges_fwd t) /\ v_edges v !! k = Some x) -> edge_reads k x key record ->
    edge_breach (rels_in (v_schema (saved t v))) key record e -> refusal merge_head t v e
| refused_key k key record o n :
    node_in (v_nodes v) k key record -> keys_in (v_schema v) !! label key = Some o ->
    keys_in (v_schema (saved t v)) !! label key = Some n -> o <> n -> refusal merge_head t v (LabelKeyChanged (label key))
| refused_disc k key :
    decode_fwd k = Ok key -> is_Some (v_edges v !! k) -> is_Some (v_edges (saved t v) !! k) ->
    disc_in (rels_in (v_schema v)) (rtype key) <> disc_in (rels_in (v_schema (saved t v))) (rtype key) ->
    refusal merge_head t v (RelDiscriminatorChanged (rtype key))
| refused_dangling k key role :
    k ∈ put_keys_of (t_edges_fwd t) \/ is_Some (v_edges (saved t v) !! k) -> decode_fwd k = Ok key ->
    dangles_in (v_nodes (saved t v)) key role -> refusal merge_head t v (dangling_error key role).

Lemma schema_change_judged s t v m mh f :
  let p := chunk_params (manifest t) in let v' := saved t v in
  version_at s p (manifest t) v -> staged t -> chunk_params m = p ->
  map_at s p (m_schema m) (v_schema v') -> map_at s p (m_edges_fwd m) (v_edges v') ->
  size (v_schema v) < f -> size (v_schema v') < f -> size (v_nodes v) < f -> size (v_edges v) < f -> size (v_edges v') < f ->
  judges (check_schema_change f s t m) (schema_change_ok t v) (refusal mh t v).
Proof.
  intros p v' [HM HV] Hst Em HS' HE' F1 F2 F3 F4 F5. pose proof (saved_ok t v HV Hst) as (OS' & ON' & OE'). destruct HV as (OS & ON & OE).
  destruct (manifest_entries_spec s p (manifest t) (v_schema v) eq_refl (HM MSchema) OS) as (old & Hold & Ro).
  destruct (manifest_entries_spec s p m (v_schema v') Em HS' OS') as (new & Hnew & Rn).
  unfold check_schema_change. rewrite Hold, Hnew by done. cbn [rbind]. fold p.
  rewrite (label_keys_spec (v_schema v) old OS Ro), (label_keys_spec (v_schema v') new OS' Rn).
  eapply judges_bind.
  { eapply judges_mono; [apply (key_stability_judged s p (m_nodes (manifest t)) (v_nodes v)); [exact (HM MNodes)|done|intros l; by apply declared_name]|intros H; exact H|].
    intros e (k & key & record & o & n & Hn & Ho & Hnk & Hne & ->). by eapply refused_key. }
  intros _ H1. eapply judges_bind.
  { eapply judges_mono; [apply (disc_stability_judged s p _ _ (v_edges v) (v_edges v') (v_schema v) (v_schema v') old new f (HM MEdges) HE'); done|intros H; exact H|].
    intros e (k & key & Hd & Hs1 & Hs2 & Hne & ->). by eapply refused_disc. }
  intros _ H2. eapply judges_bind.
  { eapply judges_mono; [apply (retyped_labels_judged s p (m_nodes (manifest t)) (v_nodes v) (v_schema v) (v_schema v') old new (touched (t_nodes t)) f (HM MNodes)); done|intros H; exact H|].
    intros e (k & key & record & (x & Hk & Hn) & HkT & Hb). eapply refused_node; [by right|done|exact Hb]. }
  intros _ H3.
  eapply judges_mono; [apply (retyped_rels_judged s p (m_edges_fwd (manifest t)) (v_edges v) (v_schema v) (v_schema v') old new (touched (t_edges_fwd t)) f (HM MEdges)); done| |].
  - intros H4. split; [by split|]. by split.
  - intros e (k & key & record & (x & Hk & Hd & Hr) & HkT & Hb). eapply refused_edge; [by right|by split|exact Hb].
Qed.

(** Without schema operations nothing changes. *)
Lemma schema_unchanged t v : t_schema t = [] -> schema_change_ok t v.
Proof.
  intros E. assert (v_schema (saved t v) = v_schema v) as ES by (cbn [saved v_schema]; by rewrite E).
  split; [split|split].
  - intros k key record o n _ H1 H2. rewrite ES in H2. congruence.
  - intros. by rewrite ES.
  - intros k key record def q d a _ _ Hd Hv. rewrite ES in Hd. rewrite Hd. cbn. by apply type_violations_elem in Hv as [? _].
  - intros k key record def q d a _ _ Hd Hv. rewrite ES in Hd. rewrite Hd. cbn. by apply rel_type_violations_elem in Hv as [? _].
Qed.
End steps.

(** ** The indexes of a save *)

(** The own labels of the nodes that bear the label of an index that stays are
    declared before the save just when they are after it. *)
Definition labels_kept (v v' : Version) : Prop :=
  forall name def, index_defs_in (v_schema v) !! name = Some def -> index_defs_in (v_schema v') !! name = Some def ->
    forall k key record, node_in (v_nodes v) k key record -> bears key record (xlabel def) = true ->
      is_Some (keys_in (v_schema v) !! label key) <-> is_Some (keys_in (v_schema v') !! label key).

Definition index_entries_fit (v : Version) : Prop :=
  forall name def, index_defs_in (v_schema v) !! name = Some def -> entries_fit def (keys_in (v_schema v)) (v_nodes v).

Lemma index_entry_key_labels nk r def lk lk' :
  (bears nk r (xlabel def) = true -> lk !! label nk = lk' !! label nk) -> index_entry_key nk (Some r) def lk = index_entry_key nk (Some r) def lk'.
Proof.
  intros E. unfold index_entry_key. destruct (bears nk r (xlabel def)); cbn [negb]; [|done]. specialize (E eq_refl).
  assert (forall ps, indexed_values nk r lk ps = indexed_values nk r lk' ps) as Hv; [|by rewrite Hv].
  induction ps as [|p ps IH]; [done|]. cbn [indexed_values]. unfold indexed_value. by rewrite E, IH.
Qed.

Lemma indexes_labels def lk lk' M IM :
  (forall k key record, node_in M k key record -> bears key record (xlabel def) = true -> lk !! label key = lk' !! label key) -> indexes def lk M IM -> indexes def lk' M IM.
Proof.
  intros H HI e x. rewrite (HI e x). assert (forall k, entry_at def lk M k = entry_at def lk' M k) as He; [|by setoid_rewrite He].
  intros k. unfold entry_at. destruct (M !! k) as [v|] eqn:Ev; [|done]. destruct (node_key_decode k) as [nk|] eqn:Ek; [|done].
  destruct (node_record_decode v) as [r|] eqn:Er; [|done]. rewrite (index_entry_key_labels nk r def lk lk'); [done|].
  apply (H k nk r). exists v. split; [done|]. by apply node_of_reads.
Qed.

Lemma collect_defs_spec (defs : list (bytes * IndexDef)) n d : NoDup (List.map fst defs) -> collect_defs defs !! n = Some d <-> (n, d) ∈ defs.
Proof.
  intros Hn. unfold collect_defs.
  change (foldl _ ∅ defs) with (foldl (fun acc x => match Some x with Some (n, d) => <[n := d]> acc | None => acc end) (∅ : gmap bytes IndexDef) defs).
  rewrite fold_insert.
  - rewrite lookup_empty. split; [intros [(x & Hin & [= ->])|[_ ?]]; done|]. intros Hin. left. by exists (n, d).
  - intros x y a b Hx Hy [= ->] [= ->]. clear -Hn Hx Hy. induction defs as [|[m c] defs IH]; [by apply elem_of_nil in Hx|].
    cbn [List.map fst] in Hn. apply NoDup_cons in Hn as [Hm Hn]. apply elem_of_cons in Hx, Hy.
    assert (forall c', (m, c') ∉ defs) as Hno by (intros c' Hin; apply Hm; by apply (list_elem_of_fmap_2 fst) in Hin).
    destruct Hx as [[= -> ->]|Hx], Hy as [Hy|Hy]; [by injection Hy|by destruct (Hno b)|injection Hy as -> ->; by destruct (Hno a)|by apply IH].
Qed.

Section indexes.
Context {S : Type} {CS : ChunkStore S} {CSL : ChunkStoreLaws S}.
Implicit Types (s : S).

Lemma index_roots_at s p v entries defs lk ix :
  schema_map_ok (v_schema v) -> schema_read (v_schema v) entries -> schema_index_info entries = (defs, lk) ->
  index_roots s p lk (v_nodes v) defs ix <-> indexes_at s p v ix.
Proof.
  intros HS Hr Ei. pose proof (label_keys_spec _ _ HS Hr) as Elk. pose proof (index_defs_spec _ _ HS Hr) as Hd. rewrite Ei in Elk, Hd.
  cbn [fst snd] in Elk, Hd. subst lk. split.
  - intros [H1 H2]. split.
    + intros name [r Hr']. apply H1, list_elem_of_fmap in Hr' as ([n d] & -> & Hin). apply Hd in Hin. by exists d.
    + intros name def Hdef. by apply H2, Hd.
  - intros [H1 H2]. split.
    + intros name r Hr'. destruct (H1 name ltac:(by exists r)) as [d Hdef]. apply Hd in Hdef. by apply (list_elem_of_fmap_2 fst) in Hdef.
    + intros name def Hin. by apply H2, Hd.
Qed.

Lemma gwp_maintain_indexes s t v m f :
  let p := chunk_params (manifest t) in let v' := saved t v in
  version_at s p (manifest t) v -> indexes_at s p v (m_indexes (manifest t)) -> staged t ->
  version_at s p m v' -> chunk_params m = p -> m_indexes m = m_indexes (manifest t) ->
  identity_kept v v' -> labels_kept v v' -> index_entries_fit v' ->
  (Z.of_nat (size (v_nodes v) + size (v_nodes v') + 2 * length (t_nodes t)) <= 2 ^ 62)%Z ->
  size (v_schema v) < f -> size (v_schema v') < f -> size (v_nodes v') < f ->
  gwp (maintain_indexes f t m) (fun m' s' => exists ix, m' = with_indexes m ix /\ indexes_at s' p v' ix) s.
Proof.
  intros p v' [HM HV] HI Hst [HM' HV'] Em Eix Hid Hkept Hfit Hs F1 F2 F3. pose proof HV as (OS & ON & OE). pose proof HV' as (OS' & ON' & OE').
  destruct (manifest_entries_spec s p (manifest t) (v_schema v) eq_refl (HM MSchema) OS) as (old & Hold & Ro).
  destruct (manifest_entries_spec s p m (v_schema v') Em (HM' MSchema) OS') as (new & Hnew & Rn).
  destruct (schema_index_info old) as [odefs olk] eqn:Eo. destruct (schema_index_info new) as [defs lk] eqn:En.
  destruct (schema_read_defs _ _ _ _ OS Ro Eo) as [Onames _]. destruct (schema_read_defs _ _ _ _ OS' Rn En) as [Nnames Ndefs].
  pose proof (index_defs_spec _ _ OS Ro) as Hod. pose proof (index_defs_spec _ _ OS' Rn) as Hnd. rewrite Eo in Hod. rewrite En in Hnd. cbn [fst] in Hod, Hnd.
  pose proof (label_keys_spec _ _ OS' Rn) as Elk. rewrite En in Elk. cbn [snd] in Elk.
  assert (forall base, (forall name def r, (name, def) ∈ defs -> base !! name = Some r -> index_defs_in (v_schema v) !! name = Some def /\ m_indexes (manifest t) !! name = Some r) ->
    gwp (let! indexes := maintain f p (m_nodes (manifest t)) (m_nodes m) (List.map batch_op_key (t_nodes t)) base defs lk in st_ret (with_indexes m indexes))
      (fun m' s' => exists ix, m' = with_indexes m ix /\ indexes_at s' p v' ix) s) as Hrun.
  { intros base Hbase. eapply gwp_bind; [apply (gwp_maintain s p _ _ (v_nodes v) (v_nodes v') _ base defs lk f (HM MNodes) (HM' MNodes) ON ON')|].
    - apply Forall_map. destruct Hst as [_ Hn _ _]. eapply Forall_impl; [exact Hn|]. by intros op (_ & ? & _).
    - intros k Hk. destruct (decide (k ∈ List.map batch_op_key (t_nodes t))) as [|Hno]; [done|]. destruct Hk. symmetry.
      apply applied_untouched. unfold touched. by rewrite elem_of_list_to_set.
    - done.
    - intros name def Hin. split; [by eapply Ndefs|]. rewrite Elk. apply (Hfit name), Hnd, Hin.
    - intros name def r Hin Hr. destruct (Hbase name def r Hin Hr) as [Hdef Hix]. destruct HI as [_ HI].
      destruct (HI name def Hdef) as (r' & IM & Hr' & HIM & Hx). rewrite Hix in Hr'. injection Hr' as <-. exists IM. split; [done|].
      eapply indexes_labels; [|exact Hx]. intros k key record Hn Hb. rewrite Elk.
      pose proof (Hkept name def Hdef (proj1 (Hnd _ _) Hin) k key record Hn Hb) as Hsame.
      destruct (keys_in (v_schema v) !! label key) as [o|] eqn:E1, (keys_in (v_schema v') !! label key) as [n|] eqn:E2; [|by destruct (proj1 Hsame)|by destruct (proj2 Hsame)|done].
      f_equal. by apply (proj1 Hid k key record).
    - rewrite length_map. done.
    - done.
    - intros ix s' _ Hroots. apply gwp_ret. exists ix. split; [done|]. by eapply index_roots_at. }
  unfold maintain_indexes. fold p. destruct (bool_decide (m_indexes (manifest t) = ∅) && negb (negb (bool_decide (t_schema t = [])))) eqn:Eskip.
  - apply andb_prop in Eskip as [E1 E2]. apply bool_decide_eq_true in E1. rewrite negb_involutive in E2. apply bool_decide_eq_true in E2.
    apply gwp_ret. exists (m_indexes m). split; [by destruct m|]. rewrite Eix, E1. destruct HI as [_ HI].
    assert (v_schema v' = v_schema v) as ES by (subst v'; cbn [saved v_schema]; by rewrite E2). split.
    + intros name [r Hr]. by rewrite lookup_empty in Hr.
    + intros name def Hdef. rewrite ES in Hdef. destruct (HI name def Hdef) as (r & IM & Hr & _). by rewrite E1, lookup_empty in Hr.
  - eapply gwp_bind; [apply (gwp_read _ new (fun x s' => x = new /\ s' = s)); [by apply Hnew|by split]|]. intros ? ? _ [-> ->]. rewrite En.
    destruct (bool_decide (t_schema t = [])) eqn:Esc; cbn [negb].
    + eapply gwp_bind; [apply (gwp_ret _ (fun x s' => x = m_indexes (manifest t) /\ s' = s)); by split|]. intros ? ? _ [-> ->].
      apply Hrun. intros name def r Hin Hr. split; [|done]. apply Hnd in Hin. apply bool_decide_eq_true in Esc.
      subst v'. cbn [saved v_schema] in Hin. by rewrite Esc in Hin.
    + eapply (gwp_bind _ _ (fun x s' => x = kept_indexes (m_indexes (manifest t)) (collect_defs odefs) (collect_defs defs) /\ s' = s)).
      { eapply gwp_bind; [apply (gwp_read _ old (fun x s' => x = old /\ s' = s)); [by apply Hold|by split]|].
        intros ? ? _ [-> ->]. apply gwp_ret. by rewrite Eo. }
      intros ? ? _ [-> ->]. apply Hrun. intros name def r Hin Hr. unfold kept_indexes in Hr. apply map_lookup_filter_Some in Hr as [Hr Hsame].
      cbn [fst] in Hsame. apply (collect_defs_spec defs name def Nnames) in Hin as Hn. rewrite Hn in Hsame.
      apply (collect_defs_spec odefs name def Onames), Hod in Hsame. by split.
Qed.

(** A save without node operations keeps the root of an index whose definition
    stays, whatever else its schema operations declare. *)
Lemma maintain_indexes_kept s t v m f m' s' name def r :
  let p := chunk_params (manifest t) in
  version_at s p (manifest t) v -> version_at s p m (saved t v) -> chunk_params m = p -> m_indexes m = m_indexes (manifest t) ->
  t_nodes t = [] -> index_defs_in (v_schema v) !! name = Some def -> index_defs_in (v_schema (saved t v)) !! name = Some def ->
  m_indexes (manifest t) !! name = Some r -> size (v_schema v) < f -> size (v_schema (saved t v)) < f ->
  maintain_indexes f t m s = (Ok m', s') -> m_indexes m' !! name = Some r.
Proof.
  intros p [HM HV] [HM' HV'] Em Eix En Hd Hd' Hr F1 F2 H. destruct HV as (OS & _), HV' as (OS' & _).
  destruct (manifest_entries_spec s p (manifest t) (v_schema v) eq_refl (HM MSchema) OS) as (old & Hold & Ro).
  destruct (manifest_entries_spec s p m (v_schema (saved t v)) Em (HM' MSchema) OS') as (new & Hnew & Rn).
  destruct (schema_index_info old) as [odefs olk] eqn:Eo. destruct (schema_index_info new) as [defs lk] eqn:Ee.
  destruct (schema_read_defs _ _ _ _ OS Ro Eo) as [Onames _]. destruct (schema_read_defs _ _ _ _ OS' Rn Ee) as [Nnames _].
  pose proof (proj2 (index_defs_spec _ _ OS Ro name def) Hd) as Hod. pose proof (proj2 (index_defs_spec _ _ OS' Rn name def) Hd') as Hnd.
  rewrite Eo in Hod. rewrite Ee in Hnd. cbn [fst] in Hod, Hnd.
  unfold maintain_indexes in H. destruct (_ && _); [injection H as <- <-; by rewrite Eix|].
  apply st_bind_Ok in H as (entries & s1 & He & H). unfold st_read in He. rewrite (Hnew f F2) in He. injection He as <- <-. rewrite Ee in H.
  apply st_bind_Ok in H as (base & s1 & Hb & H). apply st_bind_Ok in H as (ix & s2 & Hm & H). injection H as <- _. cbn [with_indexes m_indexes].
  rewrite En in Hm. apply (maintain_kept _ _ _ _ _ _ _ _ _ _ _ _ r Hm Nnames Hnd).
  destruct (negb _); [|by injection Hb as <- _].
  apply st_bind_Ok in Hb as (entries & s3 & He & Hb). unfold st_read in He. rewrite (Hold f F1) in He. injection He as <- <-. rewrite Eo in Hb. injection Hb as <- _.
  unfold kept_indexes. apply map_lookup_filter_Some. split; [done|]. cbn [fst].
  rewrite (proj2 (collect_defs_spec odefs name def Onames) Hod). symmetry. by apply collect_defs_spec.
Qed.

(** A map that is the index of the same nodes under two tables of label keys
    has each node's entry under both. *)
Lemma index_entries_same def lk lk' M IM k :
  index_def_ok def -> nodes_ok M -> indexes def lk M IM -> indexes def lk' M IM -> entry_at def lk M k = entry_at def lk' M k.
Proof.
  assert (forall lk lk' e, index_def_ok def -> nodes_ok M -> indexes def lk M IM -> indexes def lk' M IM -> entry_at def lk M k = Some e -> entry_at def lk' M k = Some e) as Hone.
  { intros l l' e Hd HM H H' He. assert (IM !! e = Some []) as Hin by (apply H; split; [done|by exists k]).
    apply H' in Hin as [_ [k' Hk']]. destruct (entry_at_node def l M k e Hd HM He) as (x & Hx & Ek). destruct (entry_at_node def l' M k' e Hd HM Hk') as (x' & Hx' & Ek').
    rewrite Hx in Hx'. apply Ok_inj in Hx' as <-. rewrite Ek in Ek'. by apply Ok_inj in Ek' as <-. }
  intros Hd HM H H'. apply option_eq. intros e. split; by apply Hone.
Qed.

(** C29: rebuilding the indexes. From a manifest of a version [reindex] with
    enough fuel either fails with the store or changes nothing but the
    indexes: for each declared index, and for no other name, it gives the root
    of the map that holds exactly the entries of the version's nodes under its
    label keys, provided the entries are short enough to be keys. *)
Theorem reindex_spec s t v f :
  let p := chunk_params (manifest t) in
  version_at s p (manifest t) v -> index_entries_fit v -> (Z.of_nat (size (v_nodes v)) <= 2 ^ 62)%Z ->
  size (v_schema v) < f -> size (v_nodes v) < f ->
  gwp (reindex f t) (fun m s' => exists ix, m = with_indexes (manifest t) ix /\ indexes_at s' p v ix) s.
Proof.
  intros p [HM (OS & ON & _)] Hfit Hs F1 F2.
  destruct (manifest_entries_spec s p (manifest t) (v_schema v) eq_refl (HM MSchema) OS) as (entries & He & Hr).
  destruct (schema_index_info entries) as [defs lk] eqn:Ei. destruct (schema_read_defs _ _ _ _ OS Hr Ei) as [Hnames Hdefs].
  pose proof (label_keys_spec _ _ OS Hr) as Elk. pose proof (index_defs_spec _ _ OS Hr) as Hd. rewrite Ei in Elk, Hd. cbn [fst snd] in Elk, Hd.
  unfold reindex. eapply gwp_bind; [apply (gwp_read _ entries (fun x s' => x = entries /\ s' = s)); [by apply He|by split]|]. intros ? ? _ [-> ->].
  eapply gwp_bind; [apply (gwp_rebuild_all s (manifest t) entries (v_nodes v) defs lk f (HM MNodes) ON Ei Hnames)|]; [|done..|].
  - intros name def Hin. split; [by eapply Hdefs|]. rewrite Elk. by apply (Hfit name), Hd.
  - intros ix s' _ Hix. apply gwp_ret. exists ix. split; [done|]. by eapply index_roots_at.
Qed.
End indexes.

(** ** Well-typed graphs stay well typed *)

Definition staged_typed (t : Transaction) (v : Version) : Prop :=
  (forall k x key record def, Put k x ∈ t_nodes t -> node_of k x = Some (key, record) ->
    labels_in (v_schema (saved t v)) !! label key = Some def -> type_violations key record def = []) /\
  (forall k x key record def, Put k x ∈ t_edges_fwd t -> edge_reads k x key record ->
    rels_in (v_schema (saved t v)) !! rtype key = Some def -> rel_type_violations key record def = []).

Definition ends_present (t : Transaction) (v : Version) : Prop :=
  (forall k key role, k ∈ put_keys_of (t_edges_fwd t) -> decode_fwd k = Ok key -> ~ dangles_in (v_nodes (saved t v)) key role) /\
  (forall enc k key role, enc ∈ deleted_keys_of (t_nodes t) -> v_nodes (saved t v) !! enc = None -> is_Some (v_edges (saved t v) !! k) ->
    decode_fwd k = Ok key -> node_key_encode (endpoint role key) <> Ok enc).

Lemma saved_nodes_typed t v k key record def :
  well_typed (graph_of v) -> staged_typed t v -> schema_change_ok t v ->
  node_in (v_nodes (saved t v)) k key record -> labels_in (v_schema (saved t v)) !! label key = Some def -> type_violations key record def = [].
Proof.
  intros Hw [Hst _] (Hid & Hch & _) (x & Hk & Hn) Hd. apply applied_Some in Hk as [Hin|[HkT Hk]]; [by eapply Hst|].
  assert (node_in (v_nodes v) k key record) as Hold by (by exists x).
  destruct (type_violations key record def) as [|[[q d] a] l] eqn:Ev; [done|]. exfalso.
  assert ((q, d, a) ∈ type_violations key record def) as Hin by (rewrite Ev; by left).
  pose proof (Hch k key record def q d a Hold HkT Hd Hin) as Hdecl. unfold declared_in in Hdecl.
  destruct (labels_in (v_schema v) !! label key) as [od|] eqn:Eo; [|done]. cbn in Hdecl.
  assert (lkey od = lkey def) as Hkey by (apply (proj1 Hid k key record); [done|rewrite keys_in_lookup, Eo; done|rewrite keys_in_lookup, Hd; done]).
  apply type_violations_elem in Hin as [_ Hin]. rewrite <-(type_violation_key _ _ _ _ _ Hkey) in Hin.
  assert ((q, d, a) ∈ type_violations key record od) as Hv by (by apply type_violations_elem).
  rewrite (wt_nodes _ Hw k key record od Hold Eo) in Hv. by apply elem_of_nil in Hv.
Qed.

Lemma saved_edges_typed t v k key record def :
  well_typed (graph_of v) -> staged_typed t v -> schema_change_ok t v ->
  edge_in (v_edges (saved t v)) k key record -> rels_in (v_schema (saved t v)) !! rtype key = Some def -> rel_type_violations key record def = [].
Proof.
  intros Hw [_ Hst] (Hid & _ & Hch) (x & Hk & Hdk & Hr) Hd. pose proof Hk as Hk'. apply applied_Some in Hk as [Hin|[HkT Hk]]; [by eapply Hst|].
  assert (edge_in (v_edges v) k key record) as Hold by (by exists x).
  destruct (rel_type_violations key record def) as [|[[q d] a] l] eqn:Ev; [done|]. exfalso.
  assert ((q, d, a) ∈ rel_type_violations key record def) as Hin by (rewrite Ev; by left).
  pose proof (Hch k key record def q d a Hold HkT Hd Hin) as Hdecl. unfold declared_in in Hdecl.
  destruct (rels_in (v_schema v) !! rtype key) as [od|] eqn:Eo; [|done]. cbn in Hdecl.
  pose proof (proj2 Hid k key Hdk (ex_intro _ x Hk) (ex_intro _ x Hk')) as Hdisc. unfold disc_in in Hdisc. rewrite Eo, Hd in Hdisc. cbn in Hdisc.
  apply rel_type_violations_elem in Hin as [_ Hin]. rewrite <-Hdisc in Hin.
  assert ((q, d, a) ∈ rel_type_violations key record od) as Hv by (by apply rel_type_violations_elem).
  rewrite (wt_edges _ Hw k key record od Hold Eo) in Hv. by apply elem_of_nil in Hv.
Qed.

Lemma saved_ends t v k e role enc :
  well_typed (graph_of v) -> ends_present t v ->
  is_Some (v_edges (saved t v) !! k) -> decode_fwd k = Ok e -> node_key_encode (endpoint role e) = Ok enc ->
  is_Some (v_nodes (saved t v) !! enc).
Proof.
  intros Hw [Hput Hdel] Hk Hd Henc. destruct (v_nodes (saved t v) !! enc) as [y|] eqn:En; [by eexists|]. exfalso.
  pose proof Hk as [x Hx]. apply applied_Some in Hx as [Hin|[_ Hx]].
  - apply (Hput k e role); [apply put_keys_elem; by exists x|done|]. by exists enc.
  - destruct (wt_ends _ Hw k e role enc (ex_intro _ x Hx) Hd Henc) as [y Hy]. pose proof En as En'.
    apply applied_None in En' as [Hdelete|Hnone]; [|cbn [graph_of g_nodes] in Hy; congruence].
    by apply (Hdel enc k e role); [apply deleted_keys_elem|..].
Qed.

Lemma saved_well_typed t v :
  well_typed (graph_of v) -> staged_typed t v -> schema_change_ok t v -> ends_present t v -> well_typed (graph_of (saved t v)).
Proof.
  intros Hw Hst Hch He. split; cbn [graph_of g_labels g_rels g_nodes g_edges].
  - intros k e role enc. by apply saved_ends.
  - intros k key record def Hn Hd. by eapply saved_nodes_typed.
  - intros k key record def Hn Hd. by eapply saved_edges_typed.
Qed.

(** ** The save *)

Definition save_sized (t : Transaction) (v : Version) (cs : list MergeConflict) : Prop :=
  (Z.of_nat (4 * (size (v_schema v) + size (v_nodes v) + size (v_edges v) + length (t_schema t) + length (t_nodes t) +
    length (t_edges_fwd t) + length cs)) <= 2 ^ 62)%Z.

(** More rounds than any loop of the save makes. *)
Definition save_fuel (t : Transaction) (v : Version) (cs : list MergeConflict) : nat :=
  1 + size (v_schema v) + size (v_nodes v) + size (v_edges v) + length (t_schema t) + length (t_nodes t) + length (t_edges_fwd t) + length cs.

Section save.
Context {S : Type} {CS : ChunkStore S} {CSL : ChunkStoreLaws S}.
Implicit Types (s : S).

Lemma state_extends s s' p m v cs : extends s s' -> state_at s p m v cs -> state_at s' p m v cs.
Proof.
  intros He [E [HM HV] (RV & HRV & Hm) [I1 I2] Hc]. split; [done|split; [intros map; by eapply map_at_extends|done]| | |].
  - exists RV. split; [by eapply map_at_extends|done].
  - split; [done|]. intros name def Hd. destruct (I2 name def Hd) as (r & IM & Hr & HIM & Hi). exists r, IM. split_and!; [done|by eapply map_at_extends|done].
  - destruct (m_conflicts m); [|done]. destruct Hc as [Hne Hc]. split; [done|by eapply map_at_extends].
Qed.

(** The maps of the new version, built one after the other. *)
Record built (t : Transaction) (v : Version) (cs : list MergeConflict) (m : Manifest) s : Prop := mkBuilt {
  b_old : state_at s (chunk_params (manifest t)) (manifest t) v cs;
  b_params : chunk_params m = chunk_params (manifest t);
  b_version : version_at s (chunk_params (manifest t)) m (saved t v);
  b_mirror : exists RV, map_at s (chunk_params (manifest t)) (m_edges_rev m) RV /\ mirrored (v_edges (saved t v)) RV;
  b_conflicts : conflicts_at s (chunk_params (manifest t)) (m_conflicts m) (unwritten (written_keys t) cs) }.

Definition saved_ok_at (t : Transaction) (v : Version) (cs : list MergeConflict) (m : Manifest) s : Prop :=
  state_at s (chunk_params (manifest t)) m (saved t v) (unwritten (written_keys t) cs) /\
  identity_kept v (saved t v) /\ (well_typed (graph_of v) -> well_typed (graph_of (saved t v))).

Lemma conflicts_extends s s' p c cs : extends s s' -> conflicts_at s p c cs -> conflicts_at s' p c cs.
Proof. intros He Hc. destruct c; [|done]. destruct Hc as [Hne Hc]. split; [done|by eapply map_at_extends]. Qed.

Lemma integrity_read s t v cs m mh :
  built t v cs m s -> staged t ->
  judges (match put_keys_of (t_edges_fwd t), deleted_keys_of (t_nodes t) with
          | [], [] => Ok tt
          | puts, dels => check_referential_integrity s (chunk_params (manifest t)) (m_nodes m) (m_edges_fwd m) (m_edges_rev m) puts dels
          end) (ends_present t v) (refusal mh t v).
Proof.
  intros [_ Ep [HM HV] (RV & HRV & Hm) _] [_ Hn He _].
  assert (judges (check_referential_integrity s (chunk_params (manifest t)) (m_nodes m) (m_edges_fwd m) (m_edges_rev m) (put_keys_of (t_edges_fwd t)) (deleted_keys_of (t_nodes t)))
    (ends_present t v) (refusal mh t v)) as Hrun.
  { eapply judges_mono; [apply (integrity_judged s _ _ _ _ _ _ RV _ _ (HM MNodes) (HM MEdges) HRV (proj2 (proj2 HV)) Hm)| |].
    - intros k Hk. apply put_keys_elem in Hk as [x Hin]. rewrite Forall_forall in He. by destruct (He _ Hin) as (? & ? & _).
    - intros k Hk. apply deleted_keys_elem in Hk as Hin. rewrite Forall_forall in Hn. by destruct (Hn _ Hin) as (? & ? & _).
    - done.
    - intros e (k & key & role & Hk & Hd & Hdang & ->). by eapply refused_dangling. }
  destruct (put_keys_of (t_edges_fwd t)) as [|k ks] eqn:E1; [|exact Hrun]. destruct (deleted_keys_of (t_nodes t)) as [|d ds] eqn:E2; [|exact Hrun].
  unfold ends_present. rewrite E1, E2. cbn [judges]. split; [intros k key role Hin|intros enc k key role Hin]; by apply elem_of_nil in Hin.
Qed.

(** The checks on the built maps, and the indexes: the save once its maps are
    built. *)
Definition finish_save (f : nat) (t : Transaction) (m : Manifest) : st S GraphError Manifest :=
  let! _ := st_read (fun store => if bool_decide (t_schema t = []) then Ok tt else check_schema_change f store t m) in
  let! m := maintain_indexes f t m in
  let! _ := st_read (fun store =>
    match put_keys_of (t_edges_fwd t), deleted_keys_of (t_nodes t) with
    | [], [] => Ok tt
    | put_edge_keys, deleted_node_keys =>
      check_referential_integrity store (chunk_params (manifest t)) (m_nodes m) (m_edges_fwd m) (m_edges_rev m) put_edge_keys deleted_node_keys
    end) in
  st_ret m.

Lemma gwpe_finish s t v cs m mh f :
  built t v cs m s -> staged t -> staged_typed t v -> m_indexes m = m_indexes (manifest t) ->
  labels_kept v (saved t v) -> index_entries_fit (saved t v) -> save_sized t v cs -> save_fuel t v cs <= f ->
  gwpe (finish_save f t m) (saved_ok_at t v cs) (refusal mh t v) s.
Proof.
  intros HB Hst Htyped Eix Hkept Hfit Hs Hf. pose proof HB as [[_ [HMo HVo] _ HIo _] Ep [HM HV] (RV & HRV & Hm) Hc].
  pose proof (applied_size (v_schema v) (t_schema t)). pose proof (applied_size (v_nodes v) (t_nodes t)). pose proof (applied_size (v_edges v) (t_edges_fwd t)).
  unfold save_fuel, save_sized, finish_save in *. cbn [saved v_schema v_nodes v_edges] in *.
  eapply gwpe_bind.
  { apply (gwpe_judged _ (schema_change_ok t v)). case_bool_decide as E; [cbn [judges]; by apply schema_unchanged|].
    apply (schema_change_judged s t v m mh f); [by split|done|done|exact (HM MSchema)|exact (HM MEdges)|cbn [saved v_schema v_nodes v_edges]; lia..]. }
  intros _ ? _ [Hch ->]. eapply gwpe_bind.
  { apply gwpe_gwp. apply (gwp_maintain_indexes s t v m f); [by split|done|done|by split|done|done|exact (proj1 Hch)|done|done|cbn [saved v_schema v_nodes v_edges]; lia..]. }
  intros m' s' He (ix & -> & HI).
  assert (built t v cs (with_indexes m ix) s') as HB'.
  { destruct HB as [B1 B2 [B3 B3'] (RV' & B4 & B4') B5]. split; [by eapply state_extends|done| | |by eapply conflicts_extends].
    - split; [intros map; eapply map_at_extends; [exact He|]; destruct map; [exact (B3 MSchema)|exact (B3 MNodes)|exact (B3 MEdges)]|done].
    - exists RV'. split; [by eapply map_at_extends|done]. }
  eapply gwpe_bind; [apply (gwpe_judged _ (ends_present t v)); by apply (integrity_read s' t v cs (with_indexes m ix))|].
  intros _ ? _ [Hends ->]. apply gwpe_ret. destruct HB' as [_ B2 B3 B4 B5]. split; [by split|]. split; [exact (proj1 Hch)|].
  intros Hw. by apply saved_well_typed.
Qed.

Lemma clean_saved t v : is_dirty t = false -> saved t v = v /\ written_keys t = [].
Proof.
  unfold is_dirty. rewrite negb_false_iff, !andb_true_iff, !bool_decide_eq_true. intros [[[E1 E2] E3] _].
  unfold saved, written_keys. rewrite E1, E2, E3. split; [by destruct v|done].
Qed.

(** A save is judged by its outcome: it is clean, it ends early, or its maps are
    built and [finish_save] goes on. *)
Lemma save_runs s t v cs mh f (Fin : result GraphError Manifest * S -> Prop) :
  state_at s (chunk_params (manifest t)) (manifest t) v cs -> staged t -> Forall conflict_fits cs -> save_sized t v cs -> save_fuel t v cs <= f ->
  (is_dirty t = false -> Fin (Ok (manifest t), s)) ->
  (forall e s', extends s s' -> (exists e', e = GProlly e' /\ store_failure e') \/ refusal mh t v e -> Fin (Err e, s')) ->
  (forall m s', extends s s' -> built t v cs m s' -> staged_typed t v -> m_indexes m = m_indexes (manifest t) -> Fin (finish_save f t m s')) ->
  Fin (save_in_place f mh t s).
Proof.
  intros HS Hst Hcs Hs Hf Hclean Herr Hrest. unfold save_in_place. destruct (is_dirty t) eqn:Ed; cbn [negb]; [|by apply Hclean].
  eapply (gwpe_outcome _ _ (fun aborted s' => s' = s /\ (aborted = true -> refusal mh t v half_aborted)) (refusal mh t v) s).
  { destruct (m_conflicts (manifest t)) as [r|] eqn:Er; [|by apply gwpe_ret].
    destruct mh as [head|e]; unfold gwpe, st_bind, st_read, st_ret.
    - split; [done|]. split; [done|]. intros Hb. apply bool_decide_eq_true in Hb as ->. apply refused_aborted; [congruence|done].
    - split; [done|]. right. apply refused_head; [congruence|done]. }
  { exact Herr. }
  intros [] s0 _ [-> Hab]; [apply Herr; [done|right; by apply Hab]|]. clear Hab. set (p := chunk_params (manifest t)) in *.
  pose proof HS as [_ [HM HV] (RV & HRV & Hm) HI Hc]. pose proof Hst as [Hss Hsn Hse Hsm]. pose proof HV as (OS & ON & OE).
  pose proof (mirrored_size _ _ OE Hm) as HsR. pose proof (Forall2_length _ _ _ Hsm) as Hlen. pose proof (saved_ok t v HV Hst) as HV'.
  pose proof (applied_size (v_schema v) (t_schema t)) as Hsz. unfold save_sized, save_fuel in *.
  eapply gwpe_outcome; [apply gwpe_gwp, (gwp_reduce s t p cs f eq_refl Hc Hcs Hst); lia|exact Herr|]. intros conflicts s1 E1 C1.
  eapply gwpe_outcome; [apply gwpe_gwp, (gwp_apply_map s1 p _ (v_schema v)); [eapply map_at_extends; [|exact (HM MSchema)]; done|by apply schema_ops_fit|lia]|intros ? ? ?; apply Herr; by etrans|].
  intros schema s2 E2 M2. assert (extends s s2) as X2 by (by etrans). eapply gwpe_outcome; [|intros ? ? ?; apply Herr; by etrans|].
  { apply gwpe_judged. eapply judges_mono; [apply (check_staged_nodes_judged s2 p schema _ (t_nodes t) f M2); [exact (proj1 HV')|done|lia]|intros H; exact H|].
    intros e (k & x & key & record & Hin & Hn & Hb). eapply refused_node; [by left|done|exact Hb]. }
  intros _ ? _ [T1 ->]. eapply gwpe_outcome; [|intros ? ? ?; apply Herr; by etrans|].
  { apply gwpe_judged. eapply judges_mono; [apply (check_staged_edges_judged s2 p schema _ (t_edges_fwd t) f M2); [exact (proj1 HV')|done|lia]|intros H; exact H|].
    intros e (k & x & key & record & Hin & Hn & Hb). eapply refused_edge; [by left|done|exact Hb]. }
  intros _ ? _ [T2 ->].
  eapply gwpe_outcome; [apply gwpe_gwp, (gwp_apply_map s2 p _ (v_nodes v)); [eapply map_at_extends; [exact X2|exact (HM MNodes)]|by apply node_ops_fit|lia]|intros ? ? ?; apply Herr; by etrans|].
  intros nodes s3 E3 M3. assert (extends s s3) as X3 by (by etrans).
  eapply gwpe_outcome; [apply gwpe_gwp, (gwp_apply_map s3 p _ (v_edges v)); [eapply map_at_extends; [exact X3|exact (HM MEdges)]|by apply edge_ops_fit|lia]|intros ? ? ?; apply Herr; by etrans|].
  intros fwd s4 E4 M4. assert (extends s s4) as X4 by (by etrans).
  eapply gwpe_outcome; [apply gwpe_gwp, (gwp_apply_map s4 p _ RV); [by eapply map_at_extends|by eapply rev_ops_fit|lia]|intros ? ? ?; apply Herr; by etrans|].
  intros rev s5 E5 M5. assert (extends s s5) as X5 by (by etrans).
  assert (extends s4 s5 /\ extends s3 s5 /\ extends s2 s5 /\ extends s1 s5) as (Y4 & Y3 & Y2 & Y1)
    by (split_and!; [done|by etrans|do 2 (etrans; [done|]); done|do 3 (etrans; [done|]); done]).
  apply (Hrest (mkManifest p schema nodes fwd rev (m_indexes (manifest t)) conflicts) s5 X5); [|by split|done].
  split; [by apply (state_extends s s5)|done| | |].
  - split; [|done]. intros []; cbn [select m_schema m_nodes m_edges_fwd];
      [by apply (map_at_extends s2 s5)|by apply (map_at_extends s3 s5)|by apply (map_at_extends s4 s5)].
  - exists (applied RV (t_edges_rev t)). split; [done|]. apply mirrored_applied; [by apply edges_keys_fit|done..].
  - by apply (conflicts_extends s1 s5).
Qed.

(** C11: from a graph whose maps, indexes and conflicts are as they should be, and
    whatever was staged, a save with enough fuel, of sizes the tree can hold,
    that declares or undeclares the own label of no node that bears the label
    of a kept index ([labels_kept]; a save that does leaves the index behind,
    [fresh_label_leaves_stale_index]) and whose index entries are short enough
    to be keys, either builds the manifest of
    the graph with the staged operations applied - mirrored, indexed, its
    conflicts those of unwritten keys, label keys and discriminators kept, well
    typed if the graph was - or fails with the store, or refuses for a reason
    that its error states and that is true of the transaction. *)
Theorem save_spec s t v cs mh f :
  let p := chunk_params (manifest t) in
  state_at s p (manifest t) v cs -> staged t -> Forall conflict_fits cs ->
  labels_kept v (saved t v) -> index_entries_fit (saved t v) -> save_sized t v cs -> save_fuel t v cs <= f ->
  gwpe (save_in_place f mh t) (saved_ok_at t v cs) (refusal mh t v) s.
Proof.
  intros p HS Hst Hcs Hkept Hfit Hs Hf.
  apply (save_runs s t v cs mh f (fun '(r, s') => match r with
    | Ok m => extends s s' /\ saved_ok_at t v cs m s'
    | Err e => extends s s' /\ ((exists e', e = GProlly e' /\ store_failure e') \/ refusal mh t v e)
    end)); try done.
  - intros Ed. split; [done|]. destruct (clean_saved t v Ed) as [Ev Ew]. unfold saved_ok_at. rewrite Ev, Ew, unwritten_nil. split; [done|]. split; [|done].
    split; [|done]. intros k key record o n _ H1 H2. congruence.
  - intros m s' He HB Htyped Eix. pose proof (gwpe_finish s' t v cs m mh f HB Hst Htyped Eix Hkept Hfit Hs Hf) as Hrun.
    unfold gwpe in Hrun. destruct (finish_save f t m s') as [[m'|e] s'']; destruct Hrun as [He' H]; (split; [by etrans|done]).
Qed.

(** C28: an index that a declaration leaves behind. When a save without node
    operations succeeds, an index whose definition it keeps keeps its root,
    and that root's map held the entries of the nodes under the old label
    keys. So when the save declares a label and some node's entry is another
    under the new label keys, the index of the saved graph, which [reindex]
    builds, is not the one the saved manifest has. *)
Theorem fresh_label_leaves_stale_index s t v cs mh f m' s' name def :
  let p := chunk_params (manifest t) in
  state_at s p (manifest t) v cs -> staged t -> Forall conflict_fits cs -> save_sized t v cs -> save_fuel t v cs <= f ->
  t_nodes t = [] -> index_defs_in (v_schema v) !! name = Some def -> index_defs_in (v_schema (saved t v)) !! name = Some def ->
  save_in_place f mh t s = (Ok m', s') ->
  exists r IM, m_indexes (manifest t) !! name = Some r /\ m_indexes m' !! name = Some r /\
    map_at s p r IM /\ indexes def (keys_in (v_schema v)) (v_nodes v) IM /\
    forall k, entry_at def (keys_in (v_schema v)) (v_nodes v) k <> entry_at def (keys_in (v_schema (saved t v))) (v_nodes (saved t v)) k ->
      ~ indexes def (keys_in (v_schema (saved t v))) (v_nodes (saved t v)) IM.
Proof.
  intros p HS Hst Hcs Hs Hf En Hd Hd' Hrun. pose proof HS as [_ [HM (OS & ON & OE)] _ [_ HI] _].
  destruct (HI name def Hd) as (r & IM & Hr & HIM & Hix). exists r, IM. split; [done|].
  assert (v_nodes (saved t v) = v_nodes v) as EN by (cbn [saved v_nodes]; by rewrite En).
  split; [|split; [done|split; [done|]]].
  - revert Hrun. apply (save_runs s t v cs mh f (fun o => o = (Ok m', s') -> m_indexes m' !! name = Some r)); try done.
    + intros _ [= <- _]. done.
    + intros m s1 He [[_ HV1 _ _ _] Ep HV2 _ _] _ Eix H. unfold finish_save in H. apply st_bind_Ok in H as (u & s2 & H1 & H).
      apply st_bind_Ok in H as (m2 & s3 & H2 & H). apply st_bind_Ok in H as (u2 & s4 & H3 & H). injection H as <- _.
      assert (s2 = s1) as -> by (unfold st_read in H1; by injection H1).
      pose proof (applied_size (v_schema v) (t_schema t)) as Hsz. unfold save_fuel in Hf.
      apply (maintain_indexes_kept s1 t v m f m2 s3 name def r HV1 HV2 Ep Eix En Hd Hd' Hr); [lia|cbn [saved v_schema]; lia|done].
  - intros k Hk H'. apply Hk. rewrite EN in *.
    destruct (manifest_entries_spec s p (manifest t) (v_schema v) eq_refl (HM MSchema) OS) as (entries & _ & Ro).
    destruct (schema_index_info entries) as [defs lk] eqn:Ei. destruct (schema_read_defs _ _ _ _ OS Ro Ei) as [_ Hok].
    pose proof (proj2 (index_defs_spec _ _ OS Ro name def) Hd) as Hin. rewrite Ei in Hin. cbn [fst] in Hin.
    apply (index_entries_same def _ _ _ IM); [by eapply Hok|done..].
Qed.
End save.

(** ** The theorems at concrete transactions *)

Definition new_node : NodeKey := node_num 8.
Definition edge_between (a b : Z) : EdgeKey := mkEdgeKey (node_num a) [x72] (node_num b) VNull.
Definition plain_edge : EdgeRecord := mkEdgeRecord ∅.

(** Two nodes and an edge between them, added to a graph of one node of a
    label with a required property. *)
Definition sample_calls : list call :=
  [PutNode (node_num 8) (valued 1); PutNode (node_num 9) (valued 2); PutEdge (edge_between 8 9) plain_edge].

Fixpoint run_calls (cs : list call) (t : Transaction) : Transaction :=
  match cs with [] => t | c :: cs => run_calls cs (run_call c t).2 end.

Lemma run_calls_calls cs t : Forall call_ok cs -> forall t0, calls t0 t -> calls t0 (run_calls cs t).
Proof.
  intros H. revert t. induction H as [|c cs Hc _ IH]; intros t t0 Ht; [done|]. cbn [run_calls]. apply IH.
  destruct (run_call c t) as [r t'] eqn:E. by eapply calls_more.
Qed.

Definition base_m : Manifest := version_m base_node_root.
Definition base_v : Version := version_v base_entries.
Definition sample_txn : Transaction := run_calls sample_calls (begin base_m).

Lemma fits_compute {E : Type} (r : result E bytes) :
  match r with Ok b => is_u32 (Z.of_nat (length b)) | Err _ => true end = true -> fits_in r.
Proof. intros H b ->. exact H. Qed.

Lemma valued_ok n : value_ok (VInt n) = true -> node_record_ok (valued n).
Proof.
  intros H. split.
  - split; [constructor|]. split; [done|]. intros _. constructor.
  - split; [|done]. intros k v Hk. cbn [properties valued] in Hk. apply lookup_singleton_Some in Hk as [<- <-]. by split.
Qed.

Lemma sample_calls_ok : Forall call_ok sample_calls.
Proof.
  assert (forall n, n = 8%Z \/ n = 9%Z -> node_key_ok (node_num n)) as Hk by (intros n [-> | ->]; split; vm_compute; reflexivity).
  apply Forall_cons. split; [|apply Forall_cons; split; [|apply Forall_cons; split; [|done]]]; cbn [call_ok].
  - split_and!; [apply Hk; by left|by apply valued_ok|apply fits_compute; vm_compute; reflexivity|apply fits_compute; vm_compute; reflexivity].
  - split_and!; [apply Hk; by right|by apply valued_ok|apply fits_compute; vm_compute; reflexivity|apply fits_compute; vm_compute; reflexivity].
  - split; [split_and!; [vm_compute; reflexivity|apply Hk; by left|apply Hk; by right|done|done]|].
    split; [by split|]. split; apply fits_compute; vm_compute; reflexivity.
Qed.

Lemma sample_staged : staged sample_txn /\ manifest sample_txn = base_m.
Proof.
  apply (calls_keep base_m). apply run_calls_calls; [apply sample_calls_ok|apply calls_none].
Qed.

Lemma calls_staged_witness : staged sample_txn /\ manifest sample_txn = base_m.
Proof. apply (calls_staged base_m). apply run_calls_calls; [apply sample_calls_ok|apply calls_none]. Defined.

(** A record with a value that does not encode is refused, and nothing of the
    edge is staged. *)
Definition too_deep : Value := Nat.iter 200 (fun v => VList [v]) VNull.
Definition bad_edge : EdgeRecord := mkEdgeRecord {[ [x76] := too_deep ]}.

Lemma failed_call_witness : (run_call (PutEdge (edge_between 8 9) bad_edge) (begin base_m)).2 = begin base_m.
Proof.
  assert (call_ok (PutEdge (edge_between 8 9) bad_edge)) as H1.
  { assert (forall n, n = 8%Z \/ n = 9%Z -> node_key_ok (node_num n)) as Hk by (intros n [-> | ->]; split; vm_compute; reflexivity).
    split; [split_and!; [vm_compute; reflexivity|apply Hk; by left|apply Hk; by right|done|done]|].
    split; [|split; apply fits_compute; vm_compute; reflexivity].
    split; [|done]. intros k v Hv. cbn [edge_properties bad_edge] in Hv. apply lookup_singleton_Some in Hv as [<- <-].
    split; [done|vm_compute; reflexivity]. }
  assert (run_call (PutEdge (edge_between 8 9) bad_edge) (begin base_m) =
    (Err (GRecordEncode (match edge_record_encode bad_edge with Err e => e | Ok _ => EncodeValue VDepthExceeded end)),
     (run_call (PutEdge (edge_between 8 9) bad_edge) (begin base_m)).2)) as H2 by (vm_compute; reflexivity).
  exact (failed_call_stages_nothing _ _ _ _ H1 (begin_staged base_m) H2).
Defined.

Lemma no_index_sample ops name def :
  (forall k v, Put k v ∈ ops -> False) -> index_defs_in (applied (load_map schema_entries_list) ops) !! name = Some def -> False.
Proof.
  intros Hno H. destruct required_schema as [HS _]. assert (schema_map_ok (applied (load_map schema_entries_list) ops)) as HS'.
  { intros k v Hk. apply applied_Some in Hk as [Hin|[_ Hk]]; [by destruct (Hno k v)|by apply HS]. }
  apply (defs_in_of sel_index _ sel_index_key HS') in H as (k & v & x & Hk & Hd & Ex).
  apply applied_Some in Hk as [Hin|[_ Hk]]; [by destruct (Hno k v)|]. apply load_one in Hk as [-> ->].
  assert (schema_decode schema_key schema_row_bytes = Ok (LabelEntry [x41] required_v)) as Er by (vm_compute; reflexivity).
  rewrite Er in Hd. apply Ok_inj in Hd as <-. done.
Qed.

Lemma base_state : state_at merge_store sample_params base_m base_v [].
Proof.
  destruct graph_describes as (D1 & _ & _). destruct merge_store_extends as (_ & _ & Hn).
  assert (version_at merge_store sample_params base_m base_v) as V
    by (apply version_sample; [vm_compute; reflexivity|exact D1|apply nodes_ok_load; vm_compute; reflexivity]).
  split; [done|exact V| | |done].
  - exists (load_map no_entries). split; [apply map_at_root; [vm_compute; reflexivity|exact Hn]|]. intros r x. split.
    + intros H. destruct (no_edges r x H).
    + intros (_ & k & e & [y Hy] & _). destruct (no_edges k y Hy).
  - split; [intros name [r Hr]; destruct (lookup_empty_Some name r Hr)|]. intros name def Hd.
    destruct (no_index_sample [] name def); [intros k v Hin; by apply elem_of_nil in Hin|exact Hd].
Qed.

Lemma sample_schema_ops : t_schema sample_txn = [].
Proof. vm_compute. reflexivity. Qed.

Lemma save_spec_witness : gwpe (save_in_place 20 (Ok None) sample_txn) (saved_ok_at sample_txn base_v []) (refusal (Ok None) sample_txn base_v) merge_store.
Proof.
  destruct sample_staged as [Hst Hm].
  assert (state_at merge_store (chunk_params (manifest sample_txn)) (manifest sample_txn) base_v []) as HS by (rewrite Hm; exact base_state).
  assert (forall name def, index_defs_in (v_schema (saved sample_txn base_v)) !! name = Some def -> False) as Hno.
  { intros name def. cbn [saved v_schema base_v version_v]. rewrite sample_schema_ops. apply no_index_sample. intros k v Hin. by apply elem_of_nil in Hin. }
  assert (labels_kept base_v (saved sample_txn base_v)) as H1 by (intros name def _ Hd; destruct (Hno name def Hd)).
  assert (index_entries_fit (saved sample_txn base_v)) as H2 by (intros name def Hd; destruct (Hno name def Hd)).
  assert (save_sized sample_txn base_v []) as H3 by (vm_compute; discriminate).
  assert (save_fuel sample_txn base_v [] <= 20) as H4 by (vm_compute; lia).
  exact (save_spec merge_store sample_txn base_v [] (Ok None) 20 HS Hst (Forall_nil_2 _) H1 H2 H3 H4).
Defined.

(** A save of the two nodes and the edge returns; with the second node missing
    it is refused. *)
Definition dangling_txn : Transaction :=
  run_calls [PutNode (node_num 8) (valued 1); PutEdge (edge_between 8 9) plain_edge] (begin base_m).

Lemma saves_computed :
  is_ok (save_in_place 20 (Ok None) sample_txn merge_store).1 = true /\
  (save_in_place 20 (Ok None) dangling_txn merge_store).1 = Err (GDanglingEdge [x72] "target" (node_num 9)).
Proof. split; vm_compute; reflexivity. Qed.
