(* ===== verification/Snapshot.v ===== *)
(** * Reading a version of a graph (acetone-graph/src/repo.rs, diff.rs)

    [Snapshot] is a manifest and the store its maps are read from.  A loop over
    a scan or a diff takes fuel for its items.  Whether a merge is in progress
    is asked of the references of the repository and is not modelled. *)
From S2P Require Import Prelude Model Values Canonical Records GraphKeys Schema Store Chunker Node Tree Manifest Diff Scan Walk Graph GraphMerge Constraints.

(** ** Changes between versions *)

Inductive ChangeKind : Type := Added | Removed | Modified.

Record NodeChange : Type := mkNodeChange {
  nc_kind : ChangeKind; nc_key : NodeKey; nc_before : option NodeRecord; nc_after : option NodeRecord }.
Record EdgeChange : Type := mkEdgeChange {
  ec_kind : ChangeKind; ec_key : EdgeKey; ec_before : option EdgeRecord; ec_after : option EdgeRecord }.
Record GraphDiff : Type := mkGraphDiff { d_nodes : list NodeChange; d_edges : list EdgeChange }.

Definition is_empty_diff (d : GraphDiff) : bool := bool_decide (length (d_nodes d) = 0) && bool_decide (length (d_edges d) = 0).

Definition change_label (k : ChangeKind) : string :=
  match k with Added => "_Added" | Removed => "_Removed" | Modified => "_Modified" end.

Definition classify (before_present after_present : bool) : result GraphError ChangeKind :=
  match before_present, after_present with
  | false, true => Ok Added
  | true, false => Ok Removed
  | true, true => Ok Modified
  | false, false => Err (GPanic "prolly diff emits only changed keys")
  end.

(** [as_ref().map(decode).transpose()] *)
Definition decode_side {A : Type} (decode : bytes -> result RecordDecodeError A) (side : option bytes) : result GraphError (option A) :=
  match side with
  | None => Ok None
  | Some v => let? r := map_err GRecordDecode (decode v) in Ok (Some r)
  end.

Definition is_some {A : Type} (o : option A) : bool := match o with Some _ => true | None => false end.

Definition node_change (entry : DiffEntry) : result GraphError NodeChange :=
  let? before := decode_side node_record_decode (before entry) in
  let? after := decode_side node_record_decode (after entry) in
  let? kind := classify (is_some before) (is_some after) in
  let? key := map_err GGraphKey (node_key_decode (Diff.key entry)) in
  Ok (mkNodeChange kind key before after).

Definition edge_change (entry : DiffEntry) : result GraphError EdgeChange :=
  let? before := decode_side edge_record_decode (before entry) in
  let? after := decode_side edge_record_decode (after entry) in
  let? kind := classify (is_some before) (is_some after) in
  let? key := map_err GGraphKey (decode_fwd (Diff.key entry)) in
  Ok (mkEdgeChange kind key before after).

(** The byte string of a bound, for the inverted-range guard. *)
Definition bound_bytes (b : Bound) : option bytes :=
  match b with Included k | Excluded k => Some k | Unbounded => None end.

Definition inverted (lower upper : Bound) : bool :=
  match bound_bytes lower, bound_bytes upper with Some start, Some stop => bytes_ltb stop start | _, _ => false end.

Section snapshot.
Context {S : Type} {CS : ChunkStore S}.

(** [Snapshot::root] *)
Definition snap_root (m : Manifest) (r : MapRoot) : result GraphError Root := map_err GProlly (to_root r (chunk_params m)).

Definition count_body (_ _ : bytes) (n : Z) : result GraphError (flow Z) := Ok (Continue (n + 1)%Z).

Definition count (fuel : nat) (store : S) (m : Manifest) (r : MapRoot) : result GraphError Z :=
  let? root := snap_root m r in for_each fuel store root Unbounded Unbounded count_body 0%Z.

Definition node_count (fuel : nat) (store : S) (m : Manifest) : result GraphError Z := count fuel store m (m_nodes m).
Definition edge_count (fuel : nat) (store : S) (m : Manifest) : result GraphError Z := count fuel store m (m_edges_fwd m).
Definition schema_entry_count (fuel : nat) (store : S) (m : Manifest) : result GraphError Z := count fuel store m (m_schema m).

Definition get_node (store : S) (m : Manifest) (key : NodeKey) : result GraphError (option NodeRecord) :=
  let? root := snap_root m (m_nodes m) in
  let? k := map_err GGraphKey (node_key_encode key) in
  let? found := map_err GProlly (Tree.get store root k) in
  match found with
  | None => Ok None
  | Some bytes => let? r := map_err GRecordDecode (node_record_decode bytes) in Ok (Some r)
  end.

Definition nodes_body (key value : bytes) (out : list (NodeKey * NodeRecord)) : result GraphError (flow (list (NodeKey * NodeRecord))) :=
  let? k := map_err GGraphKey (node_key_decode key) in
  let? r := map_err GRecordDecode (node_record_decode value) in
  Ok (Continue (out ++ [(k, r)])).

Definition nodes (fuel : nat) (store : S) (m : Manifest) : result GraphError (list (NodeKey * NodeRecord)) :=
  let? root := snap_root m (m_nodes m) in for_each fuel store root Unbounded Unbounded nodes_body [].

Definition edges_body (key value : bytes) (out : list (EdgeKey * EdgeRecord)) : result GraphError (flow (list (EdgeKey * EdgeRecord))) :=
  let? k := map_err GGraphKey (decode_fwd key) in
  let? r := map_err GRecordDecode (edge_record_decode value) in
  Ok (Continue (out ++ [(k, r)])).

Definition edges (fuel : nat) (store : S) (m : Manifest) : result GraphError (list (EdgeKey * EdgeRecord)) :=
  let? root := snap_root m (m_edges_fwd m) in for_each fuel store root Unbounded Unbounded edges_body [].

Definition index_body (key _ : bytes) (out : list IndexEntry) : result GraphError (flow (list IndexEntry)) :=
  let? e := map_err GGraphKey (index_entry_decode key) in Ok (Continue (out ++ [e])).

Definition index_entries (fuel : nat) (store : S) (m : Manifest) (name : bytes) : result GraphError (list IndexEntry) :=
  match m_indexes m !! name with
  | None => Ok []
  | Some r => let? root := snap_root m r in for_each fuel store root Unbounded Unbounded index_body []
  end.

(** ** Scans of an index *)

Definition push_capped (cap : Z) (out : list NodeKey) (n : NodeKey) : flow (list NodeKey) :=
  let out := out ++ [n] in if (cap <? Z.of_nat (length out))%Z then Break out else Continue out.

Definition range_body (cap : Z) (key _ : bytes) (out : list NodeKey) : result GraphError (flow (list NodeKey)) :=
  let? e := map_err GGraphKey (index_entry_decode key) in Ok (push_capped cap out (inode e)).

Definition index_range (fuel : nat) (store : S) (m : Manifest) (name : bytes) (lower upper : Bound) (cap : Z)
    : result GraphError (option (list NodeKey)) :=
  match m_indexes m !! name with
  | None => Ok None
  | Some r =>
    if inverted lower upper then Ok (Some [])
    else
      let? root := snap_root m r in
      let? out := for_each fuel store root lower upper (range_body cap) [] in
      Ok (Some out)
  end.

Definition probe_body (prefix : bytes) (cap : Z) (key value : bytes) (out : list NodeKey) : result GraphError (flow (list NodeKey)) :=
  if negb (starts_with key prefix) then Ok (Break out) else range_body cap key value out.

Definition index_scan_capped (fuel : nat) (store : S) (m : Manifest) (name prefix : bytes) (cap : Z)
    : result GraphError (option (list NodeKey)) :=
  match m_indexes m !! name with
  | None => Ok None
  | Some r =>
    let? root := snap_root m r in
    let? out := for_each fuel store root (Included prefix) Unbounded (probe_body prefix cap) [] in
    Ok (Some out)
  end.

(** [usize::MAX] *)
Definition index_scan (fuel : nat) (store : S) (m : Manifest) (name prefix : bytes) : result GraphError (option (list NodeKey)) :=
  index_scan_capped fuel store m name prefix (2 ^ 64 - 1).

(** ** Edges of a node *)

Definition forward_edge (key value : bytes) : result GraphError (EdgeKey * EdgeRecord) :=
  let? edge := map_err GGraphKey (decode_fwd key) in
  let? record := map_err GRecordDecode (edge_record_decode value) in
  Ok (edge, record).

Definition reverse_edge (store : S) (fwd_root : Root) (key : bytes) : result GraphError (EdgeKey * EdgeRecord) :=
  let? edge := map_err GGraphKey (decode_rev key) in
  let? fwd := map_err GGraphKey (encode_fwd edge) in
  let? found := map_err GProlly (Tree.get store fwd_root fwd) in
  match found with
  | None => Err (InconsistentReverseEdge (src edge))
  | Some bytes => let? record := map_err GRecordDecode (edge_record_decode bytes) in Ok (edge, record)
  end.

Definition incident_body (prefix : bytes) (read : bytes -> bytes -> result GraphError (EdgeKey * EdgeRecord))
    (key value : bytes) (out : list (EdgeKey * EdgeRecord)) : result GraphError (flow (list (EdgeKey * EdgeRecord))) :=
  if negb (starts_with key prefix) then Ok (Break out)
  else let? e := read key value in Ok (Continue (out ++ [e])).

Definition incident (fuel : nat) (store : S) (m : Manifest) (map_root : MapRoot) (node : NodeKey) (reversed : bool)
    : result GraphError (list (EdgeKey * EdgeRecord)) :=
  let? prefix := map_err GGraphKey (edge_endpoint_prefix node) in
  let? root := snap_root m map_root in
  let? read :=
    (if reversed
     then let? fwd_root := snap_root m (m_edges_fwd m) in Ok (fun key _ => reverse_edge store fwd_root key)
     else Ok forward_edge) in
  for_each fuel store root (Included prefix) Unbounded (incident_body prefix read) [].

Definition out_edges (fuel : nat) (store : S) (m : Manifest) (node : NodeKey) : result GraphError (list (EdgeKey * EdgeRecord)) :=
  incident fuel store m (m_edges_fwd m) node false.
Definition in_edges (fuel : nat) (store : S) (m : Manifest) (node : NodeKey) : result GraphError (list (EdgeKey * EdgeRecord)) :=
  incident fuel store m (m_edges_rev m) node true.

Definition reverse_body (key _ : bytes) (out : list EdgeKey) : result GraphError (flow (list EdgeKey)) :=
  let? e := map_err GGraphKey (decode_rev key) in Ok (Continue (out ++ [e])).

Definition reverse_edge_keys (fuel : nat) (store : S) (m : Manifest) : result GraphError (list EdgeKey) :=
  let? root := snap_root m (m_edges_rev m) in for_each fuel store root Unbounded Unbounded reverse_body [].

(** ** The difference of two versions *)

(** [for entry in diff { let entry = entry?; out.push(..) }]: fuel for the
    items and for the search of the next. *)
Fixpoint diff_loop {C : Type} (items fuel : nat) (store : S) (d : Diff) (change : DiffEntry -> result GraphError C) (out : list C)
    : result GraphError (list C) :=
  match items with
  | O => Err (GProlly out_of_fuel)
  | Datatypes.S items =>
    match Diff.next fuel store d with
    | (None, _) => Ok out
    | (Some (Err e), _) => Err (GProlly e)
    | (Some (Ok entry), d) => let? c := change entry in diff_loop items fuel store d change (out ++ [c])
    end
  end.

Definition map_changes {C : Type} (fuel : nat) (store : S) (a b : Root) (change : DiffEntry -> result GraphError C)
    : result GraphError (list C) :=
  let? d := map_err GProlly (Diff.diff store a b) in diff_loop fuel fuel store d change [].

Definition snapshot_diff (fuel : nat) (store : S) (from to : Manifest) : result GraphError GraphDiff :=
  let? a := snap_root from (m_nodes from) in
  let? b := snap_root to (m_nodes to) in
  let? nodes := map_changes fuel store a b node_change in
  let? a := snap_root from (m_edges_fwd from) in
  let? b := snap_root to (m_edges_fwd to) in
  let? edges := map_changes fuel store a b edge_change in
  Ok (mkGraphDiff nodes edges).

(** ** The chunks of a version *)

Definition add_chunks (fuel : nat) (store : S) (m : Manifest) (r : MapRoot) (set : gset Hash) : result GraphError (gset Hash) :=
  let? root := snap_root m r in
  match collect_reachable_chunks fuel store root set with
  | Some res => map_err GProlly res
  | None => Err (GProlly out_of_fuel)
  end.

Fixpoint add_all_chunks (fuel : nat) (store : S) (m : Manifest) (roots : list MapRoot) (set : gset Hash) : result GraphError (gset Hash) :=
  match roots with
  | [] => Ok set
  | r :: roots => let? set := add_chunks fuel store m r set in add_all_chunks fuel store m roots set
  end.

(** The maps of a manifest, in the order they are walked. *)
Definition manifest_roots (m : Manifest) : list MapRoot :=
  [m_schema m; m_nodes m; m_edges_fwd m; m_edges_rev m] ++ List.map snd (btree_iter (m_indexes m))
  ++ match m_conflicts m with Some r => [r] | None => [] end.

(** The order of hashes is that of gix object ids, a parameter. *)
Definition manifest_chunk_set (hash_le : relation Hash) `{forall x y, Decision (hash_le x y)} (fuel : nat) (store : S) (m : Manifest)
    : result GraphError (list Hash) :=
  let? set := add_all_chunks fuel store m (manifest_roots m) ∅ in Ok (merge_sort hash_le (elements set)).
End snapshot.
