(* ===== verification/SnapshotRun.v ===== *)
(** * What a version reads

    The reads of a snapshot give what its maps hold: lists in key order, the
    edges of a node as the edges with that end, the nodes an index probe
    selects as the nodes that hold the probed values, the difference of two
    versions, and the chunks that are the version. *)
From S2P Require Import Prelude Ieee Model Keys Values Canonical Records KeysCodec GraphKeys Schema Store Chunker Node Tree TreeSpec TreeNodes TreeRead TreeBuild TreeLevels TreeContent TreeBatch Prolly Manifest Diff DiffRun MapDiff Scan ScanRun Walk WalkRun MapMerge Graph GraphRun CellMerge GraphMerge GraphMergeRun GraphIndex GraphIndexRun Constraints ConstraintsRun Conflicts ConflictsRun MergeValidate MergeValidateRun MergeManifestsRun Transaction TransactionStage TransactionChecks TransactionRun Snapshot.

#[local] Open Scope nat_scope.

(** ** Lists of a map's entries *)

(** The entries of a map, read and in key order. *)
Definition listed {C : Type} (rd : bytes -> bytes -> option C) (M : gmap bytes bytes) : list C := List.map snd (btree_iter (map_imap rd M)).

Definition entry_of {C : Type} (rd : bytes -> bytes -> option C) (e : bytes * bytes) : option (bytes * C) := option_map (pair e.1) (rd e.1 e.2).

Lemma imap_iter {C : Type} (rd : bytes -> bytes -> option C) M m : entries_in M m -> btree_iter (map_imap rd M) = omap (entry_of rd) m.
Proof.
  intros Hm. pose proof Hm as [Hs _]. apply btree_iter_sorted.
  - apply (omap_keys (entry_of rd) fst fst); [|done]. intros [k v] [k' c]. unfold entry_of. cbn [fst snd]. destruct (rd k v); [|done]. by intros [= -> _].
  - intros k c. rewrite map_lookup_imap, list_elem_of_omap. split.
    + intros ([k' v] & Hin & E). apply (entries_in_lookup M m) in Hin; [|done]. unfold entry_of in E. cbn [fst snd] in E.
      destruct (rd k' v) as [c'|] eqn:Eo; [|done]. injection E as -> ->. by rewrite Hin.
    + intros H. destruct (M !! k) as [v|] eqn:Ev; [|done]. cbn in H. exists (k, v). unfold entry_of. cbn [fst snd]. rewrite H.
      split; [by apply (entries_in_lookup M m)|done].
Qed.

Lemma listed_entries {C : Type} (rd : bytes -> bytes -> option C) M m : entries_in M m -> listed rd M = omap (fun e => rd e.1 e.2) m.
Proof.
  intros Hm. unfold listed. rewrite (imap_iter rd M m Hm). clear Hm. induction m as [|[k v] m IH]; [done|]. cbn [omap list_omap].
  unfold entry_of at 1. cbn [fst snd]. destruct (rd k v); cbn [option_map List.map snd]; by rewrite IH.
Qed.

Lemma listed_elem {C : Type} (rd : bytes -> bytes -> option C) M c : c ∈ listed rd M <-> exists k v, M !! k = Some v /\ rd k v = Some c.
Proof.
  unfold listed. rewrite list_elem_of_fmap. split.
  - intros ([k c'] & -> & Hin). apply btree_iter_elem in Hin. rewrite map_lookup_imap in Hin. destruct (M !! k) as [v|] eqn:E; [|done]. by exists k, v.
  - intros (k & v & Hk & Ho). exists (k, c). split; [done|]. apply btree_iter_elem. by rewrite map_lookup_imap, Hk.
Qed.

Lemma entries_of_map (M : gmap bytes bytes) : entries_in M (btree_iter M).
Proof.
  assert (sorted (btree_iter M)) as Hs by apply btree_iter_keys. split; [done|]. apply map_eq. intros k. apply option_eq. intros v.
  rewrite <-(btree_iter_elem M). symmetry. by apply contents_pairs.
Qed.

(** Each value is read from one key. *)
Lemma listed_NoDup {C : Type} (rd : bytes -> bytes -> option C) M :
  (forall k k' v v' c, M !! k = Some v -> M !! k' = Some v' -> rd k v = Some c -> rd k' v' = Some c -> k = k') ->
  NoDup (listed rd M).
Proof.
  intros H. pose proof (entries_of_map M) as Hm. rewrite (listed_entries rd M _ Hm). apply NoDup_omap_inj.
  - intros [k v] [k' v'] c Hx Hy E E'. cbn [fst snd] in *. apply (entries_in_lookup M _) in Hx, Hy; [|done..].
    pose proof (H k k' v v' c Hx Hy E E') as <-. rewrite Hx in Hy. by injection Hy as <-.
  - destruct Hm as [Hs _]. by apply (strongly_sorted_NoDup bytes_lt), NoDup_fmap_1 in Hs.
Qed.

Section loops.
Context {S : Type} {CS : ChunkStore S} {CSL : ChunkStoreLaws S}.
Implicit Types (s : S).

(** A loop that reads every entry. *)
Lemma read_all {C : Type} (rd : bytes -> bytes -> option C) (body : bytes -> bytes -> list C -> result GraphError (flow (list C))) s R M f :
  describes s R M -> (forall k v acc, M !! k = Some v -> exists c, rd k v = Some c /\ body k v acc = Ok (Continue (acc ++ [c]))) -> size M < f ->
  for_each f s R Unbounded Unbounded body [] = Ok (listed rd M).
Proof.
  intros HR Hb Hf. destruct (for_each_spec s R M body [] HR) as (m & Hm & ->); [|done].
  rewrite (fold_flow_collect body (fun e => option_list (rd e.1 e.2))).
  - cbn [app]. f_equal. rewrite (listed_entries rd M m Hm). clear. induction m as [|e m IH]; [done|]. cbn [List.map concat omap list_omap].
    rewrite IH. by destruct (rd e.1 e.2).
  - apply Forall_forall. intros [k v] Hin acc. apply (entries_in_lookup M m) in Hin; [|done]. cbn [fst snd].
    destruct (Hb k v acc Hin) as (c & -> & ->). done.
Qed.

(** A loop that reads the entries under a prefix. *)
Lemma read_prefix {C : Type} (rd : bytes -> bytes -> option C) p (body g : bytes -> bytes -> list C -> result GraphError (flow (list C))) s R M f :
  describes s R M -> (forall k v a, body k v a = if negb (starts_with k p) then Ok (Break a) else g k v a) ->
  (forall k v acc, M !! k = Some v -> starts_with k p = true -> exists c, rd k v = Some c /\ g k v acc = Ok (Continue (acc ++ [c]))) -> size M < f ->
  exists m, entries_in M m /\ for_each f s R (Included p) Unbounded body [] = Ok (omap (fun e => rd e.1 e.2) (under_prefix p m)).
Proof.
  intros HR Hbody Hg Hf. destruct (for_each_prefix s R M p body g [] HR Hbody) as (m & Hm & Hrun). exists m. split; [done|]. rewrite Hrun by done.
  rewrite (fold_flow_collect g (fun e => option_list (rd e.1 e.2))).
  - cbn [app]. f_equal. generalize (under_prefix p m). clear. intros l. induction l as [|e l IH]; [done|]. cbn [List.map concat omap list_omap].
    rewrite IH. by destruct (rd e.1 e.2).
  - apply Forall_forall. intros [k v] Hin acc. apply list_elem_of_filter in Hin as [Hp Hin]. apply (entries_in_lookup M m) in Hin; [|done].
    cbn [fst snd] in *. destruct (Hg k v acc Hin Hp) as (c & -> & ->). done.
Qed.
End loops.

(** ** The nodes and the edges *)

#[global] Instance node_key_eq_dec : EqDecision NodeKey.
Proof. solve_decision. Defined.

Definition edge_of (k v : bytes) : option (EdgeKey * EdgeRecord) :=
  match decode_fwd k, edge_record_decode v with Ok e, Ok r => Some (e, r) | _, _ => None end.

Definition all_nodes (v : Version) : list (NodeKey * NodeRecord) := listed node_of (v_nodes v).
Definition all_edges (v : Version) : list (EdgeKey * EdgeRecord) := listed edge_of (v_edges v).

Lemma edge_of_ok E k v : edges_ok E -> E !! k = Some v ->
  exists e r, edge_of k v = Some (e, r) /\ decode_fwd k = Ok e /\ edge_record_decode v = Ok r /\ encode_fwd e = Ok k /\
    is_u32 (Z.of_nat (length k)) = true.
Proof.
  intros HE Hk. destruct (HE k v Hk) as (Hkv & [e He] & [r Hr]). apply andb_prop in Hkv as [Hl _]. cbn [fst] in Hl.
  exists e, r. unfold edge_of. rewrite He, Hr. split_and!; try done. by apply (edge_key_decode_Ok k e (key_bound _ Hl)) in He as [He _].
Qed.

Lemma all_edges_elem v e r : (e, r) ∈ all_edges v <-> exists k, edge_in (v_edges v) k e r.
Proof.
  unfold all_edges. rewrite listed_elem. split.
  - intros (k & x & Hk & Ho). exists k, x. unfold edge_of in Ho. destruct (decode_fwd k), (edge_record_decode x); try done. injection Ho as -> ->. done.
  - intros (k & x & Hk & Hd & Hr). exists k, x. split; [done|]. unfold edge_of. by rewrite Hd, Hr.
Qed.

Lemma all_edges_NoDup v : edges_ok (v_edges v) -> NoDup (all_edges v).
Proof.
  intros HE. apply (listed_NoDup edge_of). intros k k' x x' [e r] Hk Hk' Ho Ho'.
  destruct (edge_of_ok _ k x HE Hk) as (e1 & r1 & E1 & _ & _ & F1 & _), (edge_of_ok _ k' x' HE Hk') as (e2 & r2 & E2 & _ & _ & F2 & _).
  rewrite Ho in E1. injection E1 as <- <-. rewrite Ho' in E2. injection E2 as <- <-. rewrite F1 in F2. by apply Ok_inj in F2.
Qed.

Section reads.
Context {S : Type} {CS : ChunkStore S} {CSL : ChunkStoreLaws S}.
Implicit Types (s : S).

Lemma snap_root_at s m r M : map_at s (chunk_params m) r M -> exists R, snap_root m r = Ok R /\ describes s R M.
Proof. intros (R & E & D). exists R. split; [|done]. unfold snap_root. by rewrite E. Qed.

Lemma nodes_listed s m v f : version_at s (chunk_params m) m v -> size (v_nodes v) < f -> nodes f s m = Ok (all_nodes v).
Proof.
  intros [HM (_ & ON & _)] Hf. destruct (snap_root_at s m _ _ (HM MNodes)) as (R & ER & HR). unfold nodes. cbn [select] in ER. rewrite ER. cbn [rbind].
  apply read_all; [exact HR| |done]. intros k x acc Hk. destruct (ON k x Hk) as (_ & [key Ek] & [record Er]). exists (key, record).
  split; [by apply node_of_reads|]. unfold nodes_body. by rewrite Ek, Er.
Qed.

Lemma edges_listed s m v f : version_at s (chunk_params m) m v -> size (v_edges v) < f -> edges f s m = Ok (all_edges v).
Proof.
  intros [HM (_ & _ & OE)] Hf. destruct (snap_root_at s m _ _ (HM MEdges)) as (R & ER & HR). unfold edges. cbn [select] in ER. rewrite ER. cbn [rbind].
  apply read_all; [exact HR| |done]. intros k x acc Hk. destruct (edge_of_ok _ k x OE Hk) as (e & r & Eo & Ed & Er & _). exists (e, r).
  split; [done|]. unfold edges_body. by rewrite Ed, Er.
Qed.

Lemma get_node_found s m v key k :
  version_at s (chunk_params m) m v -> node_key_encode key = Ok k ->
  get_node s m key = Ok (match v_nodes v !! k with Some x => match node_record_decode x with Ok r => Some r | Err _ => None end | None => None end).
Proof.
  intros [HM (_ & ON & _)] Hk. destruct (snap_root_at s m _ _ (HM MNodes)) as (R & ER & HR). unfold get_node. cbn [select] in ER. rewrite ER, Hk.
  cbn [rbind map_err]. rewrite (describes_lookup s R _ k HR). cbn [map_err rbind v_map]. destruct (v_nodes v !! k) as [x|] eqn:Ex; [|done].
  by destruct (ON k x Ex) as (_ & _ & [r ->]).
Qed.

(** A filter of what is read is a reading of what is filtered. *)
Lemma omap_under {C : Type} (rd : bytes -> bytes -> option C) p (P : C -> Prop) `{forall c, Decision (P c)} (m : kvs) :
  (forall k v, (k, v) ∈ m -> exists c, rd k v = Some c /\ (starts_with k p = true <-> P c)) ->
  omap (fun e => rd e.1 e.2) (under_prefix p m) = filter P (omap (fun e => rd e.1 e.2) m).
Proof.
  unfold under_prefix. induction m as [|[k v] m IH]; intros Hm; [done|]. destruct (Hm k v ltac:(by left)) as (c & Hc & Hp).
  rewrite filter_cons. cbn [fst]. cbn [omap list_omap fst snd]. rewrite Hc, filter_cons, <-IH by (intros; apply Hm; by right).
  destruct (decide (starts_with k p = true)) as [E|E].
  - rewrite decide_True by (by apply Hp). cbn [omap list_omap fst snd]. by rewrite Hc.
  - rewrite decide_False by (by rewrite <-Hp). done.
Qed.

Lemma out_edges_listed s m v node enc f :
  version_at s (chunk_params m) m v -> node_key_encode node = Ok enc -> node_key_decode enc = Ok node ->
  is_u32 (Z.of_nat (length enc)) = true -> size (v_edges v) < f ->
  out_edges f s m node = Ok (filter (fun e => src e.1 = node) (all_edges v)).
Proof.
  intros [HM (_ & _ & OE)] Henc Hdec Hl Hf. destruct (snap_root_at s m _ _ (HM MEdges)) as (R & ER & HR).
  unfold out_edges, incident, edge_endpoint_prefix. rewrite Henc. cbn [map_err rbind]. cbn [select] in ER. rewrite ER. cbn [rbind].
  destruct (read_prefix edge_of enc (incident_body enc forward_edge) (fun k x out => let? e := forward_edge k x in Ok (Continue (out ++ [e]))) s R (v_edges v) f HR) as (em & Hm & ->).
  - done.
  - intros k x acc Hk _. destruct (edge_of_ok _ k x OE Hk) as (e & r & Eo & Ed & Er & _). exists (e, r). split; [done|].
    unfold forward_edge. by rewrite Ed, Er.
  - done.
  - f_equal. unfold all_edges. rewrite (listed_entries edge_of _ em Hm). apply omap_under. intros k x Hin.
    apply (entries_in_lookup (v_edges v) em) in Hin; [|done]. destruct (edge_of_ok _ k x OE Hin) as (e & r & Eo & Ed & _ & _ & Hkl).
    exists (e, r). split; [done|]. by apply src_prefix.
Qed.

(** What the reverse map's entry reads, through the forward map. *)
Definition reverse_of (E : gmap bytes bytes) (k _ : bytes) : option (EdgeKey * EdgeRecord) :=
  match decode_rev k with
  | Ok e =>
    match encode_fwd e with
    | Ok fwd => match E !! fwd with Some x => match edge_record_decode x with Ok r => Some (e, r) | Err _ => None end | None => None end
    | Err _ => None
    end
  | Err _ => None
  end.

Lemma reverse_of_ok E RV r x :
  edges_ok E -> mirrored E RV -> RV !! r = Some x ->
  exists k e rec, reverse_of E r x = Some (e, rec) /\ edge_in E k e rec /\ encode_fwd e = Ok k /\ decode_rev r = Ok e /\ encode_rev e = Ok r /\
    is_u32 (Z.of_nat (length r)) = true.
Proof.
  intros HE Hm Hr. destruct (mirror_edge E RV r x HE Hm Hr) as (k & e & [y Hk] & Hd & Hrev & Henc & Hl).
  destruct (edge_of_ok E k y HE Hk) as (e' & rec & _ & Hd' & Hrec & Hfwd & _). rewrite Hd in Hd'. apply Ok_inj in Hd' as <-.
  exists k, e, rec. unfold reverse_of. rewrite Hrev, Hfwd, Hk, Hrec. split_and!; try done. by exists y.
Qed.

Lemma in_edges_listed s m v RV node enc f :
  version_at s (chunk_params m) m v -> map_at s (chunk_params m) (m_edges_rev m) RV -> mirrored (v_edges v) RV ->
  node_key_encode node = Ok enc -> node_key_decode enc = Ok node -> is_u32 (Z.of_nat (length enc)) = true -> size (v_edges v) < f ->
  exists l, in_edges f s m node = Ok l /\ l ≡ₚ filter (fun e => dst e.1 = node) (all_edges v).
Proof.
  intros HV HRV Hmir Henc Hdec Hl Hf. pose proof HV as [HM (_ & _ & OE)]. destruct (snap_root_at s m _ _ (HM MEdges)) as (R & ER & HR).
  destruct (snap_root_at s m _ _ HRV) as (RR & ERR & HRR). pose proof (mirrored_size _ _ OE Hmir) as Hsz.
  unfold in_edges, incident, edge_endpoint_prefix. rewrite Henc. cbn [map_err rbind]. cbn [select v_map] in ER, HR. rewrite ERR, ER. cbn [rbind].
  destruct (read_prefix (reverse_of (v_edges v)) enc (incident_body enc (fun k _ => reverse_edge s R k))
    (fun k x out => let? e := reverse_edge s R k in Ok (Continue (out ++ [e]))) s RR RV f HRR) as (em & Hm & ->).
  - done.
  - intros k x acc Hk _. destruct (reverse_of_ok _ RV k x OE Hmir Hk) as (fk & e & r & Eo & (y & Hfk & _ & Er) & Ef & Ed & _). exists (e, r). split; [done|].
    unfold reverse_edge. rewrite Ed. cbn [map_err rbind]. rewrite Ef. cbn [map_err rbind]. rewrite (describes_lookup s R _ fk HR), Hfk.
    cbn [map_err rbind]. by rewrite Er.
  - lia.
  - eexists. split; [done|]. apply NoDup_Permutation.
    + apply NoDup_omap_inj.
      * intros [k x] [k' x'] [e r] Hk Hk' Ho Ho'. cbn [fst snd] in *.
        apply list_elem_of_filter in Hk as [_ Hk], Hk' as [_ Hk']. apply (entries_in_lookup RV em) in Hk, Hk'; [|done..].
        destruct (reverse_of_ok _ RV k x OE Hmir Hk) as (_ & e1 & r1 & E1 & _ & _ & _ & F1 & _).
        destruct (reverse_of_ok _ RV k' x' OE Hmir Hk') as (_ & e2 & r2 & E2 & _ & _ & _ & F2 & _).
        rewrite Ho in E1. injection E1 as <- <-. rewrite Ho' in E2. injection E2 as <- <-. rewrite F1 in F2. apply Ok_inj in F2 as <-.
        rewrite Hk in Hk'. by injection Hk' as <-.
      * apply NoDup_filter. destruct Hm as [Hs _]. by apply (strongly_sorted_NoDup bytes_lt), NoDup_fmap_1 in Hs.
    + apply NoDup_filter, all_edges_NoDup, OE.
    + intros [e r]. rewrite list_elem_of_omap, list_elem_of_filter, all_edges_elem. cbn [fst]. split.
      * intros ([k x] & Hin & Ho). cbn [fst snd] in Ho. apply list_elem_of_filter in Hin as [Hp Hin]. cbn [fst] in Hp.
        apply (entries_in_lookup RV em) in Hin; [|done].
        destruct (reverse_of_ok _ RV k x OE Hmir Hin) as (fk & e' & r' & Eo & He & _ & Ed & _ & Hkl). rewrite Ho in Eo. injection Eo as <- <-.
        split; [|by exists fk]. by apply (dst_prefix k e node enc).
      * intros [Hdst (k & x & Hk & Hd & Hr)]. destruct (edge_of_ok _ k x OE Hk) as (e' & r' & _ & Hd' & Hr' & Hfwd & Hkl).
        rewrite Hd in Hd'. apply Ok_inj in Hd' as <-. destruct (edge_reverse k e (key_bound _ Hkl) Hd) as (rk & Erk & Hlen & Hrev).
        exists (rk, []). cbn [fst snd]. split.
        -- apply list_elem_of_filter. cbn [fst]. split; [by apply (dst_prefix rk e node enc); [rewrite Hlen|..]|].
           apply (entries_in_lookup RV em); [done|]. apply Hmir. split; [done|]. exists k, e. split_and!; [by exists x|done..].
        -- unfold reverse_of. by rewrite Hrev, Hfwd, Hk, Hr.
Qed.

(** ** Scans of an index *)

(** A loop that stops one past the cap. *)
Lemma fold_flow_capped (rd : bytes -> bytes -> option NodeKey) (body : bytes -> bytes -> list NodeKey -> result GraphError (flow (list NodeKey))) cap m acc :
  (Z.of_nat (length acc) <= cap)%Z ->
  (forall k v acc, (k, v) ∈ m -> exists n, rd k v = Some n /\ body k v acc = Ok (push_capped cap acc n)) ->
  fold_flow body m acc = Ok (take (Datatypes.S (Z.to_nat cap)) (acc ++ omap (fun e => rd e.1 e.2) m)).
Proof.
  revert acc. induction m as [|[k v] m IH]; intros acc Hacc Hb; cbn [fold_flow omap list_omap fst snd].
  - rewrite app_nil_r, take_ge by lia. done.
  - destruct (Hb k v acc ltac:(by left)) as (n & Hn & ->). rewrite Hn. cbn [rbind]. unfold push_capped. cbn zeta.
    replace (acc ++ n :: omap (fun e => rd e.1 e.2) m) with ((acc ++ [n]) ++ omap (fun e => rd e.1 e.2) m) by by rewrite <-app_assoc.
    destruct (Z.ltb_spec cap (Z.of_nat (length (acc ++ [n])))) as [Hlt|Hle].
    + f_equal. rewrite length_app in Hlt. cbn [length] in Hlt. replace (Datatypes.S (Z.to_nat cap)) with (length (acc ++ [n])) by (rewrite length_app; cbn [length]; lia).
      by rewrite take_app_length.
    + apply IH; [done|]. intros k' v' acc' Hin. apply Hb. by right.
Qed.

Lemma index_defs_ok v name def : schema_map_ok (v_schema v) -> index_defs_in (v_schema v) !! name = Some def -> index_def_ok def.
Proof.
  intros HS H. apply (defs_in_of sel_index _ sel_index_key HS name def) in H as (k & x & e & Hk & Hd & Ex).
  destruct (HS k x Hk) as [Hkv _]. apply andb_prop in Hkv as [Ek Ev]. cbn [fst snd] in *. apply key_bound in Ek, Ev.
  destruct e as [|?|n d]; try done. injection Ex as -> ->. by apply schema_decode_iff in Hd as ((_ & _ & ?) & _).
Qed.

(** The node of an entry's key. *)
Definition entry_node (e _ : bytes) : option NodeKey := match index_entry_decode e with Ok x => Some (inode x) | Err _ => None end.

(** The nodes an index selects: those with the label whose values of the
    indexed properties are the probed ones, negative zero being zero. *)
Definition selected (v : Version) (def : IndexDef) (vs : list Value) (n : NodeKey) : Prop :=
  exists k record ws, node_in (v_nodes v) k n record /\ bears n record (xlabel def) = true /\
    indexed_values n record (keys_in (v_schema v)) (xproperties def) = Some ws /\ map normal ws = map normal vs.

Lemma node_in_reads N k n r : node_in N k n r <-> exists x, N !! k = Some x /\ node_key_decode k = Ok n /\ node_record_decode x = Ok r.
Proof. unfold node_in. split; intros (x & Hx & H); exists x; (split; [done|]); by apply node_of_reads. Qed.

Lemma entry_parts def lk N k e :
  index_def_ok def -> nodes_ok N -> entry_at def lk N k = Some e ->
  exists n r ws, node_in N k n r /\ bears n r (xlabel def) = true /\ indexed_values n r lk (xproperties def) = Some ws /\
    index_entry_ok (mkIndexEntry (xlabel def) (xproperties def) ws n) /\
    index_entry_encode (mkIndexEntry (xlabel def) (xproperties def) ws n) = Ok e /\ entry_node e [] = Some n.
Proof.
  intros Hd HN H. unfold entry_at in H. destruct (N !! k) as [x|] eqn:Ek; [|done]. destruct (HN k x Ek) as (Hkv & [n Hn] & [r Hr]).
  apply kv_ok_parts in Hkv as [Hk Hx]. rewrite Hn, Hr in H. destruct (node_record_decode_Ok x r Hx Hr) as (_ & Hrok & _).
  pose proof (node_key_decode_Ok k n Hk Hn) as (_ & Hnok & Hnn).
  destruct (index_entry_key n (Some r) def lk) as [o|] eqn:Ee; [|done]. subst o.
  destruct (index_entry_key_some n r def lk e Hd Hnok Hrok Ee) as (Hb & ws & Hws & Hok & Henc). exists n, r, ws.
  split; [apply node_in_reads; by exists x|]. do 2 (split; [done|]). do 2 (split; [done|]). unfold entry_node. rewrite (index_entry_decode_encode _ e Hok Henc). cbn. by rewrite Hnn.
Qed.

(** A node has an entry when values equal to its own can be probed. *)
Lemma entry_exists def lk N k n r ws vs p :
  index_def_ok def -> nodes_ok N -> node_in N k n r -> bears n r (xlabel def) = true ->
  indexed_values n r lk (xproperties def) = Some ws -> map normal ws = map normal vs ->
  index_value_prefix (xlabel def) (xproperties def) vs = Ok p -> exists e, entry_at def lk N k = Some e.
Proof.
  intros Hd HN (x & Ek & Hn & Hr)%node_in_reads Hb Hws Hvs Hp. destruct (HN k x Ek) as (Hkv & _). apply kv_ok_parts in Hkv as [Hk _].
  pose proof (node_key_decode_Ok k n Hk Hn) as (Henc & _ & _). unfold node_key_encode in Henc. apply map_err_Ok in Henc, Hp.
  assert (encode_key [VString (xlabel def); VList (map VString (xproperties def)); VList ws] = Ok p) as Hp'.
  { rewrite <-encode_key_normal. rewrite <-encode_key_normal in Hp. cbn [map normal] in *. by rewrite Hvs. }
  exists (p ++ k). unfold entry_at. rewrite Ek, Hn, Hr. unfold index_entry_key. rewrite Hb. cbn [negb]. rewrite Hws.
  rewrite index_entry_new_ok by (done || by apply indexed_values_length in Hws). unfold index_entry_encode. cbn [ilabel iproperties ivalues inode].
  pose proof (encode_key_snoc _ _ _ _ Hp' Henc) as E. cbn [app] in E. by rewrite E.
Qed.

Lemma entries_NoDup def lk N IM (m : kvs) :
  index_def_ok def -> nodes_ok N -> indexes def lk N IM -> (forall e x, (e, x) ∈ m -> IM !! e = Some x) -> NoDup m ->
  NoDup (omap (fun e => entry_node e.1 e.2) m).
Proof.
  intros Hd HN HI Hm Hnd. apply NoDup_omap_inj; [|done]. intros [e x] [e' x'] n Hin Hin' Ho Ho'. cbn [fst snd] in *.
  apply Hm, HI in Hin as [-> [k Hk]]. apply Hm, HI in Hin' as [-> [k' Hk']].
  destruct (entry_parts def lk N k e Hd HN Hk) as (n1 & r1 & ws1 & (y1 & Hy1 & Hd1 & _)%node_in_reads & _ & _ & _ & _ & E1).
  destruct (entry_parts def lk N k' e' Hd HN Hk') as (n2 & r2 & ws2 & (y2 & Hy2 & Hd2 & _)%node_in_reads & _ & _ & _ & _ & E2).
  change (entry_node e []) with (entry_node e []) in Ho. rewrite Ho in E1. injection E1 as <-. rewrite Ho' in E2. injection E2 as <-.
  assert (k = k') as <-.
  { destruct (HN k y1 Hy1) as (H1 & _), (HN k' y2 Hy2) as (H2 & _). apply kv_ok_parts in H1 as [H1 _], H2 as [H2 _].
    apply node_key_decode_Ok in Hd1 as (F1 & _), Hd2 as (F2 & _); [|done..]. rewrite F1 in F2. by apply Ok_inj in F2. }
  rewrite Hk in Hk'. by injection Hk' as <-.
Qed.

Lemma index_probe_run s p m v cs name def vs prefix cap f :
  state_at s p m v cs -> index_defs_in (v_schema v) !! name = Some def ->
  value_ok (VList vs) = true -> index_value_prefix (xlabel def) (xproperties def) vs = Ok prefix -> (0 <= cap)%Z -> size (v_nodes v) < f ->
  exists l, index_scan_capped f s m name prefix cap = Ok (Some (take (Datatypes.S (Z.to_nat cap)) l)) /\ NoDup l /\ forall n, n ∈ l <-> selected v def vs n.
Proof.
  intros [Hp [HM (OS & ON & _)] _ [_ HI] _] Hdef Hvs Hpre Hcap Hf. destruct (HI name def Hdef) as (r & IM & Hr & HIM & Hix). rewrite <-Hp in HIM.
  destruct (snap_root_at s m _ _ HIM) as (R & ER & HR). pose proof (index_defs_ok v name def OS Hdef) as Hdok.
  set (lk := keys_in (v_schema v)) in *.
  unfold index_scan_capped. rewrite Hr, ER. cbn [rbind].
  destruct (for_each_prefix s R IM prefix (probe_body prefix cap) (range_body cap) [] HR) as (em & Hem & Hrun); [done|].
  assert (forall e x, (e, x) ∈ em -> IM !! e = Some x) as Hin by (intros e x He; by apply (entries_in_lookup IM em)).
  exists (omap (fun e => entry_node e.1 e.2) (under_prefix prefix em)). rewrite Hrun by (pose proof (size_index def lk (v_nodes v) IM Hix); lia).
  split; [|split].
  - rewrite (fold_flow_capped entry_node (range_body cap) cap); [done|cbn [length]; lia|].
    intros e x acc He. apply list_elem_of_filter in He as [_ He]. apply Hin, Hix in He as [-> [k Hk]].
    destruct (entry_parts def lk _ k e Hdok ON Hk) as (n & _ & _ & _ & _ & _ & _ & _ & En). exists n. split; [done|].
    unfold range_body. unfold entry_node in En. destruct (index_entry_decode e) as [i|]; [|done]. injection En as <-. done.
  - apply (entries_NoDup def lk (v_nodes v) IM); [done..| |].
    + intros e x He. apply list_elem_of_filter in He as [_ He]. by apply Hin.
    + apply NoDup_filter. destruct Hem as [Hs _]. by apply (strongly_sorted_NoDup bytes_lt), NoDup_fmap_1 in Hs.
  - intros n. rewrite list_elem_of_omap.
    assert (forall e n' ws, index_entry_ok (mkIndexEntry (xlabel def) (xproperties def) ws n') ->
      index_entry_encode (mkIndexEntry (xlabel def) (xproperties def) ws n') = Ok e -> starts_with e prefix = true <-> map normal ws = map normal vs) as Hpx.
    { intros e n' ws Hok Henc. pose proof Hdok as (_ & Hl & Hps). 
      rewrite (index_prefix_iff (mkIndexEntry (xlabel def) (xproperties def) ws n') (xlabel def) (xproperties def) vs e prefix Hok Hl (name_list_names_ok _ Hps) Hvs Hpre Henc).
      cbn [ilabel iproperties ivalues]. split; [by intros (_ & _ & ?)|done]. }
    split.
    + intros ([e x] & He & En). cbn [fst snd] in En. apply list_elem_of_filter in He as [Hst He]. cbn [fst] in Hst. apply Hin, Hix in He as [-> [k Hk]].
      destruct (entry_parts def lk _ k e Hdok ON Hk) as (n' & r' & ws & Hnode & Hb & Hws & Hok & Henc & En'). rewrite En in En'. injection En' as <-.
      exists k, r', ws. split_and!; [done..|]. by apply (Hpx e n ws).
    + intros (k & r' & ws & Hnode & Hb & Hws & Heq).
      destruct (entry_exists def lk _ k n r' ws vs prefix Hdok ON Hnode Hb Hws Heq Hpre) as (e & He).
      destruct (entry_parts def lk _ k e Hdok ON He) as (n' & r'' & ws' & Hnode' & Hb' & Hws' & Hok & Henc & En).
      assert (n' = n /\ r'' = r') as [-> ->].
      { apply node_in_reads in Hnode as (y & Hy & Hy1 & Hy2), Hnode' as (y' & Hy' & Hy1' & Hy2'). rewrite Hy in Hy'. injection Hy' as <-.
        rewrite Hy1 in Hy1'. apply Ok_inj in Hy1' as <-. rewrite Hy2 in Hy2'. by apply Ok_inj in Hy2' as <-. }
      fold lk in Hws. rewrite Hws in Hws'. injection Hws' as <-. exists (e, []). split; [|done]. apply list_elem_of_filter. cbn [fst].
      split; [by apply (Hpx e n ws)|]. apply (entries_in_lookup IM em); [done|]. apply Hix. split; [done|]. by exists k.
Qed.
End reads.

(** ** The reads *)

Section properties.
Context {S : Type} {CS : ChunkStore S} {CSL : ChunkStoreLaws S}.
Implicit Types (s : S).

(** The edges of a node, from either end. In a graph whose reverse map
    mirrors its edges, [edges] lists every edge once, [out_edges] gives those
    whose source is the node, in the same order, and [in_edges], which scans
    the reverse map and looks each record up in the forward map, gives those
    whose target is the node: an edge is found from both of its ends with
    the same record, and the scan of one node never reaches into another's. *)
Lemma incident_edges_spec s p m v cs node enc f :
  state_at s p m v cs -> node_key_encode node = Ok enc -> node_key_decode enc = Ok node -> is_u32 (Z.of_nat (length enc)) = true ->
  size (v_edges v) < f ->
  edges f s m = Ok (all_edges v) /\ NoDup (all_edges v) /\
  (forall e r, (e, r) ∈ all_edges v <-> exists k, edge_in (v_edges v) k e r) /\
  out_edges f s m node = Ok (filter (fun e => src e.1 = node) (all_edges v)) /\
  exists l, in_edges f s m node = Ok l /\ l ≡ₚ filter (fun e => dst e.1 = node) (all_edges v).
Proof.
  intros [Hp HV (RV & HRV & Hm) _ _] Henc Hdec Hl Hf. rewrite <-Hp in HV, HRV. pose proof HV as [_ (_ & _ & OE)].
  split; [by apply edges_listed|]. split; [by apply all_edges_NoDup|]. split; [apply all_edges_elem|].
  split; [by apply (out_edges_listed s m v node enc)|]. by apply (in_edges_listed s m v RV node enc).
Qed.

(** C25: an index answers an equality probe. The scan of a declared index at
    the prefix of some values gives, once each, exactly the nodes that bear
    the index's label, as primary or secondary label, and hold those values in
    the indexed properties - in the node key where a property is a key of the
    node's primary label, negative zero being zero - and stops one past the
    cap, so that a caller sees that the cap was passed. *)
Theorem index_probe_spec s p m v cs name def vs prefix cap f :
  state_at s p m v cs -> index_defs_in (v_schema v) !! name = Some def ->
  value_ok (VList vs) = true -> index_value_prefix (xlabel def) (xproperties def) vs = Ok prefix -> (0 <= cap)%Z -> size (v_nodes v) < f ->
  exists l, index_scan_capped f s m name prefix cap = Ok (Some (take (Datatypes.S (Z.to_nat cap)) l)) /\
    NoDup l /\ forall n, n ∈ l <-> selected v def vs n.
Proof. apply index_probe_run. Qed.
End properties.

(** ** The theorems at a concrete graph

    The node of [GraphIndexRun]'s example, under an index on [A(v)]. *)

Definition probe_schema : list (bytes * bytes) := Eval vm_compute in
  [(bytes_or_nil (map_key (IndexDefEntry (text "by_v") by_v)), schema_encode_value (IndexDefEntry (text "by_v") by_v))].
Definition probe_schema_store : SampleStore := load_store index_store probe_schema.
Definition probe_schema_root : Root := load_root index_store probe_schema.
Definition probe_store : SampleStore := load_store probe_schema_store no_entries.
Definition probe_empty : Root := load_root probe_schema_store no_entries.
Definition probe_m : Manifest :=
  mkManifest sample_params (from_root probe_schema_root) (from_root base_node_root) (from_root probe_empty) (from_root probe_empty) sample_indexes None.
Definition probe_v : Version := mkVersion (load_map probe_schema) (load_map base_entries) (load_map no_entries).
Definition probe_prefix : bytes := Eval vm_compute in
  match index_value_prefix [x41] [[x76]] [VInt 0] with Ok p => p | Err _ => [] end.

Lemma probe_defs name def : index_defs_in (load_map probe_schema) !! name = Some def -> name = text "by_v" /\ def = by_v.
Proof.
  intros H. assert (schema_map_ok (load_map probe_schema)) as HS.
  { intros k x Hk. apply load_one in Hk as [-> ->]. split; [vm_compute; reflexivity|]. exists (IndexDefEntry (text "by_v") by_v). vm_compute. reflexivity. }
  apply (defs_in_of sel_index _ sel_index_key HS) in H as (k & x & e & Hk & Hd & Ex). apply load_one in Hk as [-> ->].
  match type of Hd with schema_decode ?k ?x = _ => assert (schema_decode k x = Ok (IndexDefEntry (text "by_v") by_v)) as Er by (vm_compute; reflexivity) end.
  rewrite Er in Hd. apply Ok_inj in Hd as <-. by injection Ex as <- <-.
Qed.

Lemma probe_maps : map_at probe_store sample_params (from_root probe_schema_root) (load_map probe_schema) /\
  map_at probe_store sample_params (from_root base_node_root) (load_map base_entries) /\
  map_at probe_store sample_params (from_root probe_empty) (load_map no_entries) /\
  map_at probe_store sample_params (from_root index_root) (load_map GraphIndexRun.index_entries).
Proof.
  destruct (load_describes index_store probe_schema) as [D1 E1]; [by repeat constructor|vm_compute; discriminate|vm_compute; reflexivity|].
  destruct (load_describes probe_schema_store no_entries) as [D2 E2]; [by repeat constructor|vm_compute; discriminate|vm_compute; reflexivity|].
  destruct index_describes as (H1 & _ & H3).
  assert (extends index_store probe_schema_store) as X1 by exact E1. assert (extends probe_schema_store probe_store) as X2 by exact E2.
  assert (extends index_store probe_store) as X by exact (PreOrder_Transitive _ _ _ X1 X2).
  assert (describes probe_schema_store probe_schema_root (load_map probe_schema)) as Y1 by exact D1.
  split; [apply map_at_root; [vm_compute; reflexivity|exact (describes_extends _ _ _ _ X2 Y1)]|].
  split; [exact (map_at_extends _ _ _ _ _ X H1)|]. split; [apply map_at_root; [vm_compute; reflexivity|exact D2]|].
  exact (map_at_extends _ _ _ _ _ X H3).
Qed.

Lemma probe_state : state_at probe_store sample_params probe_m probe_v [].
Proof.
  destruct probe_maps as (M1 & M2 & M3 & M4). split; [done| | | |done].
  - split; [by intros []|]. split; [|split].
    + intros k x Hk. apply load_one in Hk as [-> ->]. split; [vm_compute; reflexivity|]. exists (IndexDefEntry (text "by_v") by_v). vm_compute. reflexivity.
    + apply nodes_ok_load. vm_compute. reflexivity.
    + intros k x Hk. destruct (no_edges k x Hk).
  - exists (load_map no_entries). split; [exact M3|]. intros r x. split; [intros H; destruct (no_edges r x H)|].
    intros (_ & k & e & [y Hy] & _). destruct (no_edges k y Hy).
  - split.
    + intros name [r Hr]. cbn [probe_m m_indexes] in Hr. unfold sample_indexes in Hr. apply lookup_singleton_Some in Hr as [<- _]. exists by_v. vm_compute. reflexivity.
    + intros name def Hd. apply probe_defs in Hd as [-> ->]. exists (from_root index_root), (load_map GraphIndexRun.index_entries).
      split; [apply lookup_singleton_eq|]. split; [exact M4|]. apply (indexes_one by_v). vm_compute. reflexivity.
Qed.

Lemma incident_edges_witness : out_edges 9 probe_store probe_m (node_num 8) = Ok (filter (fun e => src e.1 = node_num 8) (all_edges probe_v)).
Proof.
  assert (node_key_encode (node_num 8) = Ok (bytes_or_nil (node_key_encode (node_num 8)))) as H1 by (vm_compute; reflexivity).
  assert (node_key_decode (bytes_or_nil (node_key_encode (node_num 8))) = Ok (node_num 8)) as H2 by (vm_compute; reflexivity).
  assert (is_u32 (Z.of_nat (length (bytes_or_nil (node_key_encode (node_num 8))))) = true) as H3 by (vm_compute; reflexivity).
  assert (size (v_edges probe_v) < 9) as H4 by (vm_compute; lia).
  destruct (incident_edges_spec probe_store sample_params probe_m probe_v [] (node_num 8) _ 9 probe_state H1 H2 H3 H4) as (_ & _ & _ & H & _).
  exact H.
Defined.

Lemma index_probe_witness : exists l, index_scan_capped 9 probe_store probe_m (text "by_v") probe_prefix 5 = Ok (Some (take 6 l)) /\
  NoDup l /\ forall n, n ∈ l <-> selected probe_v by_v [VInt 0] n.
Proof.
  assert (index_defs_in (v_schema probe_v) !! text "by_v" = Some by_v) as H1 by (vm_compute; reflexivity).
  assert (value_ok (VList [VInt 0]) = true) as H2 by (vm_compute; reflexivity).
  assert (index_value_prefix (xlabel by_v) (xproperties by_v) [VInt 0] = Ok probe_prefix) as H3 by (vm_compute; reflexivity).
  assert (size (v_nodes probe_v) < 9) as H4 by (vm_compute; lia).
  exact (index_probe_spec probe_store sample_params probe_m probe_v [] (text "by_v") by_v [VInt 0] probe_prefix 5 9 probe_state H1 H2 H3 ltac:(lia) H4).
Defined.

(** The probe of the node's value finds it, another value nothing; the saved
    edge of [TransactionRun]'s sample is found from both its ends. *)
Lemma snapshot_reads_computed :
  index_scan 9 probe_store probe_m (text "by_v") probe_prefix = Ok (Some [sample_node]) /\
  match index_value_prefix [x41] [[x76]] [VInt 1] with
  | Ok other => index_scan 9 probe_store probe_m (text "by_v") other = Ok (Some [])
  | Err _ => False
  end /\
  match save_in_place 20 (Ok None) sample_txn merge_store with
  | (Ok m, s) =>
    match out_edges 9 s m (node_num 8), in_edges 9 s m (node_num 9), out_edges 9 s m (node_num 9) with
    | Ok [e], Ok [e'], Ok [] => e = e' /\ src e.1 = node_num 8 /\ dst e.1 = node_num 9
    | _, _, _ => False
    end
  | _ => False
  end.
Proof. vm_compute. by split_and!. Qed.

(** ** A declaration over an indexed label

    The transaction declares [v] to be the key of [A]. *)
Definition keyed_by_v : LabelDef := mkLabelDef [[x76]] false ∅ [] [].
Definition keying_txn : Transaction := run_calls [PutSchema (LabelEntry [x41] keyed_by_v)] (begin probe_m).
Definition keying_saved : result GraphError Manifest * SampleStore := save_in_place 20 (Ok None) keying_txn probe_store.
Definition keyed_m : Manifest := match keying_saved.1 with Ok m => m | Err _ => probe_m end.

Lemma keying_staged : staged keying_txn /\ manifest keying_txn = probe_m.
Proof.
  apply (calls_keep probe_m). apply run_calls_calls; [|apply calls_none]. apply Forall_cons. split; [|done]. cbn [call_ok].
  split; [|split; [apply fits_compute; vm_compute; reflexivity|vm_compute; reflexivity]].
  apply (schema_decode_iff (bytes_or_nil (map_key (LabelEntry [x41] keyed_by_v))) (schema_encode_value (LabelEntry [x41] keyed_by_v))); vm_compute; reflexivity.
Qed.

Lemma fresh_label_witness : exists r IM, m_indexes probe_m !! text "by_v" = Some r /\ m_indexes keyed_m !! text "by_v" = Some r /\
  map_at probe_store sample_params r IM /\ indexes by_v (keys_in (v_schema probe_v)) (v_nodes probe_v) IM /\
  ~ indexes by_v (keys_in (v_schema (saved keying_txn probe_v))) (v_nodes (saved keying_txn probe_v)) IM.
Proof.
  destruct keying_staged as [Hst Hm].
  assert (state_at probe_store (chunk_params (manifest keying_txn)) (manifest keying_txn) probe_v []) as HS by (rewrite Hm; exact probe_state).
  assert (save_sized keying_txn probe_v []) as H1 by (vm_compute; discriminate).
  assert (save_fuel keying_txn probe_v [] <= 20) as H2 by (vm_compute; lia).
  assert (t_nodes keying_txn = []) as H3 by (vm_compute; reflexivity).
  assert (index_defs_in (v_schema probe_v) !! text "by_v" = Some by_v) as H4 by (vm_compute; reflexivity).
  assert (index_defs_in (v_schema (saved keying_txn probe_v)) !! text "by_v" = Some by_v) as H5 by (vm_compute; reflexivity).
  assert (save_in_place 20 (Ok None) keying_txn probe_store = (Ok keyed_m, keying_saved.2)) as H6 by (vm_compute; reflexivity).
  destruct (fresh_label_leaves_stale_index probe_store keying_txn probe_v [] (Ok None) 20 keyed_m keying_saved.2 (text "by_v") by_v
    HS Hst (Forall_nil_2 _) H1 H2 H3 H4 H5 H6) as (r & IM & Hr & Hr' & HIM & Hold & Hnew).
  exists r, IM. split; [rewrite <-Hm; exact Hr|]. split; [exact Hr'|]. split; [exact HIM|]. split; [exact Hold|].
  apply (Hnew node_at). vm_compute. discriminate.
Defined.

(** What [reindex] builds for the saved manifest is another index. *)
Lemma keying_reindexed : match (reindex 20 (begin keyed_m) keying_saved.2).1 with
  | Ok m => bool_decide (m_indexes m = m_indexes keyed_m) = false
  | Err _ => False
  end.
Proof. vm_compute. reflexivity. Qed.

Lemma probe_fit : index_entries_fit probe_v.
Proof.
  intros name def [-> ->]%probe_defs k e He. pose proof (entry_at_one _ _ _ _ _ _ He) as ->. vm_compute in He. injection He as <-. reflexivity.
Qed.

Lemma reindex_witness : gwp (reindex 9 (begin probe_m)) (fun m s' => exists ix, m = with_indexes probe_m ix /\ indexes_at s' sample_params probe_v ix) probe_store.
Proof.
  destruct probe_state as [_ HV _ _ _]. assert ((Z.of_nat (size (v_nodes probe_v)) <= 2 ^ 62)%Z) as H1 by (vm_compute; discriminate).
  assert (size (v_schema probe_v) < 9) as H2 by (vm_compute; lia). assert (size (v_nodes probe_v) < 9) as H3 by (vm_compute; lia).
  exact (reindex_spec probe_store (begin probe_m) probe_v 9 HV probe_fit H1 H2 H3).
Defined.
