(* ===== verification/SnapshotDiff.v ===== *)
(** * The difference of two versions, and the chunks of one

    The difference lists the keys the versions hold differently, in key order,
    each with the two values decoded; the chunk set of a manifest is enough to
    hold the version, and each of its chunks is reached from a map of it. *)
From S2P Require Import Prelude Ieee Model Keys Values Canonical Records KeysCodec GraphKeys Schema Store Chunker Node Tree TreeSpec TreeNodes TreeRead TreeBuild TreeLevels TreeContent TreeBatch Prolly Manifest Diff DiffRun MapDiff Scan ScanRun Walk WalkRun MapMerge Graph GraphRun CellMerge GraphMerge GraphMergeRun GraphIndex GraphIndexRun Constraints ConstraintsRun Conflicts ConflictsRun MergeValidate MergeValidateRun MergeManifestsRun Transaction TransactionStage TransactionChecks TransactionRun Snapshot SnapshotRun.

#[local] Open Scope nat_scope.

(** ** The loop over a diff *)

Section loop.
Context {S : Type} {CS : ChunkStore S} {C : Type}.
Implicit Types (s : S).

Lemma diff_loop_collect (change : DiffEntry -> result GraphError C) items f s d es cs out :
  Diff.collect items f s d = Ok es -> Forall2 (fun e c => change e = Ok c) es cs -> diff_loop items f s d change out = Ok (out ++ cs).
Proof.
  revert d es cs out. induction items as [|items IH]; intros d es cs out H Hcs; [done|]. cbn [Diff.collect diff_loop] in *.
  destruct (Diff.next f s d) as [[[e|e]|] d'].
  - apply rbind_Ok in H as (es' & H & E). apply Ok_inj in E as <-. inversion Hcs as [|? c ? cs' Hc Hcs']; subst.
    rewrite Hc. cbn [rbind]. rewrite (IH d' es' cs') by done. by rewrite <-app_assoc.
  - done.
  - apply Ok_inj in H as <-. inversion Hcs. by rewrite app_nil_r.
Qed.
End loop.

(** ** One changed key *)

Section change.
Context {K R C : Type} (dk : bytes -> result GraphKeyError K) (dr : bytes -> result RecordDecodeError R)
  (mk : ChangeKind -> K -> option R -> option R -> C).

(** The value on a side, decoded. *)
Definition side (v : option bytes) (o : option R) : Prop :=
  match v, o with None, None => True | Some x, Some r => dr x = Ok r | _, _ => False end.

(** The kind of a change is the sides the key is on. *)
Definition kind_tells (kind : ChangeKind) (before after : option bytes) : Prop :=
  match kind with
  | Added => before = None /\ is_Some after
  | Removed => is_Some before /\ after = None
  | Modified => is_Some before /\ is_Some after
  end.

(** The change of a key from one map to another. *)
Definition change_at (M N : gmap bytes bytes) (k : bytes) (c : C) : Prop :=
  exists key before after kind, dk k = Ok key /\ side (M !! k) before /\ side (N !! k) after /\
    kind_tells kind (M !! k) (N !! k) /\ c = mk kind key before after.

Definition change_of (entry : DiffEntry) : result GraphError C :=
  let? before := decode_side dr (Diff.before entry) in
  let? after := decode_side dr (Diff.after entry) in
  let? kind := classify (is_some before) (is_some after) in
  let? key := map_err GGraphKey (dk (Diff.key entry)) in
  Ok (mk kind key before after).

Definition reads (M : gmap bytes bytes) : Prop := map_Forall (fun k v => (exists key, dk k = Ok key) /\ exists r, dr v = Ok r) M.

Lemma decode_side_reads M k : reads M -> exists o, decode_side dr (M !! k) = Ok o /\ side (M !! k) o /\ is_some o = is_some (M !! k).
Proof.
  intros HM. destruct (M !! k) as [x|] eqn:E; [|by exists None]. destruct (HM k x E) as [_ [r Hr]]. exists (Some r).
  cbn [decode_side side is_some]. by rewrite Hr.
Qed.

Lemma change_of_reads M N e :
  reads M -> reads N -> Diff.before e = M !! Diff.key e -> Diff.after e = N !! Diff.key e -> Diff.before e <> Diff.after e ->
  exists c, change_of e = Ok c /\ change_at M N (Diff.key e) c.
Proof.
  intros HM HN Hb Ha Hne. rewrite Hb, Ha in Hne. unfold change_of. rewrite Hb, Ha.
  destruct (decode_side_reads M (Diff.key e) HM) as (b & -> & Sb & Ib), (decode_side_reads N (Diff.key e) HN) as (a & -> & Sa & Ia).
  cbn [rbind]. assert (exists kind, classify (is_some b) (is_some a) = Ok kind /\ kind_tells kind (M !! Diff.key e) (N !! Diff.key e)) as (kind & Hkind & Htells).
  { rewrite Ib, Ia. destruct (M !! _), (N !! _); [by eexists..|]. congruence. }
  rewrite Hkind. cbn [rbind]. assert (exists key, dk (Diff.key e) = Ok key) as [key Hkey].
  { destruct (M !! Diff.key e) as [x|] eqn:E; [by destruct (HM _ x E)|].
    destruct (N !! Diff.key e) as [x|] eqn:E'; [by destruct (HN _ x E')|congruence]. }
  rewrite Hkey. cbn [map_err rbind]. eexists. split; [done|]. by exists key, b, a, kind.
Qed.

Context {S : Type} {CS : ChunkStore S} {CSL : ChunkStoreLaws S}.

(** The changes between two maps: one for each key they hold differently, in
    key order. *)
Definition changes_of (M N : gmap bytes bytes) (cs : list C) : Prop :=
  exists ks, StronglySorted bytes_lt ks /\ (forall k, k ∈ ks <-> M !! k <> N !! k) /\ Forall2 (change_at M N) ks cs.

Lemma map_changes_run (s : S) A B M N :
  describes s A M -> describes s B N -> reads M -> reads N ->
  exists cs, (exists fuel, forall f, fuel <= f -> map_changes f s A B change_of = Ok cs) /\ changes_of M N cs.
Proof.
  intros (Hpa & ma & <- & Ha) (Hpb & mb & <- & Hb) HM HN. destruct (diff_collect s A B ma mb Hpa Hpb Ha Hb) as (d & Ed & fuel & Hc).
  destruct Ha as (_ & [Hsa _] & _), Hb as (_ & [Hsb _] & _).
  assert (forall e, e ∈ kv_diff ma mb <-> Diff.before e = contents ma !! Diff.key e /\ Diff.after e = contents mb !! Diff.key e /\ Diff.before e <> Diff.after e) as Hel.
  { intros e. rewrite kv_diff_elem by done. by rewrite !contents_lookup. }
  assert (exists cs, Forall2 (fun e c => change_of e = Ok c /\ change_at (contents ma) (contents mb) (Diff.key e) c) (kv_diff ma mb) cs) as [cs Hcs].
  { assert (Forall (fun e => e ∈ kv_diff ma mb) (kv_diff ma mb)) as Hall by (by apply Forall_forall).
    revert Hall. generalize (kv_diff ma mb) at 2 3. intros l. induction l as [|e l IH]; intros Hall; [by exists []|].
    apply Forall_cons in Hall as [He Hall]. destruct (IH Hall) as [cs Hcs]. apply Hel in He as (H1 & H2 & H3).
    destruct (change_of_reads (contents ma) (contents mb) e HM HN H1 H2 H3) as (c & Ec & Hca). exists (c :: cs). by constructor. }
  exists cs. split.
  - exists fuel. intros f Hf. unfold map_changes. rewrite Ed. cbn [map_err rbind].
    rewrite (diff_loop_collect change_of f f s d (kv_diff ma mb) cs []); [done|by apply Hc|]. eapply Forall2_impl; [exact Hcs|]. by intros e c [? _].
  - exists (List.map Diff.key (kv_diff ma mb)). split; [by apply kv_diff_sorted|]. split.
    + intros k. rewrite list_elem_of_fmap. split.
      * intros (e & -> & (H1 & H2 & H3)%Hel). by rewrite <-H1, <-H2.
      * intros Hne. exists (mkDiffEntry k (contents ma !! k) (contents mb !! k)). split; [done|]. by apply Hel.
    + apply Forall2_fmap_l. eapply Forall2_impl; [exact Hcs|]. by intros e c [_ ?].
Qed.

Lemma changes_nil M N cs : changes_of M N cs -> length cs = 0 <-> M = N.
Proof.
  intros (ks & _ & Hks & Hall). rewrite <-(Forall2_length _ _ _ Hall). split.
  - intros Hl. apply map_eq. intros k. apply dec_stable. intros Hk%Hks. destruct ks; [by apply elem_of_nil in Hk|done].
  - intros ->. destruct ks as [|k ks]; [done|]. by destruct (proj1 (Hks k) ltac:(by left)).
Qed.
End change.

(** ** The chunks of a version *)

Section chunks.
Context {S : Type} {CS : ChunkStore S} {CSL : ChunkStoreLaws S}.
Implicit Types (s : S).

(** The chunks of some roots' trees, found from those roots. *)
Definition root_reaches s (m : Manifest) (roots : list MapRoot) (h : Hash) : Prop :=
  exists r R, r ∈ roots /\ snap_root m r = Ok R /\ reaches s (top_level R) (root_hash R) h.

Definition keeps s s' (set : Hash -> Prop) : Prop := forall h d, set h -> holds s h d -> holds s' h d.

Lemma add_chunks_run s m r M out :
  map_at s (chunk_params m) r M -> closed s out ->
  exists out', (exists fuel, forall f, fuel <= f -> add_chunks f s m r out = Ok out') /\ closed s out' /\
    (forall h, h ∈ out' <-> h ∈ out \/ root_reaches s m [r] h) /\
    forall s', keeps s s' (.∈ out') -> map_at s' (chunk_params m) r M.
Proof.
  intros Hr Hc. destruct (snap_root_at s m r M Hr) as (R & ER & HR). destruct (collect_chunks_spec s R M out HR Hc) as (out' & [fuel Hf] & Hc' & Hin & Hs).
  exists out'. split; [|split; [done|split]].
  - exists fuel. intros f Hle. unfold add_chunks. rewrite ER. cbn [rbind]. by rewrite Hf.
  - intros h. rewrite Hin. split; (intros [?|H]; [by left|right]).
    + exists r, R. split_and!; [by left|done..].
    + destruct H as (r' & R' & ->%list_elem_of_singleton & ER' & H). rewrite ER in ER'. by apply Ok_inj in ER' as <-.
  - intros s' Hs'. destruct Hr as (R0 & E0 & _). exists R0. split; [done|]. unfold snap_root in ER. rewrite E0 in ER. apply Ok_inj in ER as ->. by apply Hs.
Qed.

Lemma add_all_chunks_run s m roots out :
  Forall (fun r => exists M, map_at s (chunk_params m) r M) roots -> closed s out ->
  exists out', (exists fuel, forall f, fuel <= f -> add_all_chunks f s m roots out = Ok out') /\ closed s out' /\
    (forall h, h ∈ out' <-> h ∈ out \/ root_reaches s m roots h) /\
    forall s', keeps s s' (.∈ out') -> forall r M, r ∈ roots -> map_at s (chunk_params m) r M -> map_at s' (chunk_params m) r M.
Proof.
  intros Hall. revert out. induction Hall as [|r roots [M HM] Hall IH]; intros out Hc.
  - exists out. split; [by exists 0|]. split; [done|]. split; [|by intros s' _ r M H%elem_of_nil].
    intros h. split; [by left|]. intros [?|(r & _ & ?%elem_of_nil & _)]; done.
  - destruct (add_chunks_run s m r M out HM Hc) as (out1 & [f1 H1] & C1 & I1 & S1). destruct (IH out1 C1) as (out2 & [f2 H2] & C2 & I2 & S2).
    assert (forall h, h ∈ out1 -> h ∈ out2) as Hsub by (intros h Hh; apply I2; by left).
    exists out2. split; [|split; [done|split]].
    + exists (Nat.max f1 f2). intros f Hf. cbn [add_all_chunks]. rewrite H1 by lia. cbn [rbind]. apply H2. lia.
    + intros h. rewrite I2, I1. unfold root_reaches. split.
      * intros [[?|(r' & R & Hin & H)]|(r' & R & Hin & H)]; [by left|right..]; exists r', R; (split; [|done]).
        -- apply list_elem_of_singleton in Hin as ->. by left.
        -- by right.
      * intros [?|(r' & R & [E|Hin]%elem_of_cons & H)]; [by do 2 left|left; right|right]; exists r', R; (split; [|done]); [rewrite E; by left|done].
    + intros s' Hs' r' M' [->|Hin]%elem_of_cons HM'.
      * destruct (add_chunks_run s m r M' out HM' Hc) as (out1' & [f1' H1'] & _ & _ & S1').
        pose proof (H1 (Nat.max f1 f1') ltac:(lia)) as E1. rewrite H1' in E1 by lia. apply Ok_inj in E1 as ->.
        apply S1'. intros h d Hh. by apply Hs', Hsub.
      * by apply S2.
Qed.

(** Every map of a graph's state is one of the manifest's roots. *)
Lemma state_roots s p m v cs : state_at s p m v cs -> (forall name r, m_indexes m !! name = Some r -> exists M, map_at s p r M) /\
  Forall (fun r => exists M, map_at s (chunk_params m) r M) (manifest_roots m).
Proof.
  intros [Hp [HM _] (RV & HRV & _) [HI1 HI2] Hc].
  assert (forall name r, m_indexes m !! name = Some r -> exists M, map_at s p r M) as Hix.
  { intros name r Hr. destruct (HI1 name ltac:(by exists r)) as [def Hd]. destruct (HI2 name def Hd) as (r' & IM & Hr' & H & _).
    rewrite Hr in Hr'. injection Hr' as <-. by exists IM. }
  split; [done|]. rewrite Hp. unfold manifest_roots. rewrite !Forall_app. split; [|split].
  - pose proof (HM MSchema) as M1. pose proof (HM MNodes) as M2. pose proof (HM MEdges) as M3. cbn [select v_map] in *. repeat constructor; by eexists.
  - apply Forall_forall. intros r Hin. apply list_elem_of_fmap in Hin as ([name r'] & -> & Hin). apply btree_iter_elem in Hin. by apply (Hix name).
  - unfold conflicts_at in Hc. destruct (m_conflicts m) as [r|]; [|done]. repeat constructor. destruct Hc as [_ H]. by eexists.
Qed.

Lemma state_moves s s' p m v cs :
  state_at s p m v cs -> (forall r M, r ∈ manifest_roots m -> map_at s (chunk_params m) r M -> map_at s' (chunk_params m) r M) ->
  state_at s' p m v cs.
Proof.
  intros [Hp [HM HV] (RV & HRV & Hm) [HI1 HI2] Hc] H. rewrite Hp in H. unfold manifest_roots in H. split; [done| | | |].
  - split; [|done]. intros map. apply H; [|apply HM]. apply elem_of_app. left. destruct map; cbn [select]; set_solver.
  - exists RV. split; [|done]. apply H; [|done]. apply elem_of_app. left. set_solver.
  - split; [done|]. intros name def Hd. destruct (HI2 name def Hd) as (r & IM & Hr & HIM & Hix). exists r, IM. split; [done|]. split; [|done].
    apply H; [|done]. apply elem_of_app. right. apply elem_of_app. left. apply list_elem_of_fmap. exists (name, r). split; [done|]. by apply btree_iter_elem.
  - unfold conflicts_at in *. destruct (m_conflicts m) as [r|]; [|done]. destruct Hc as [Hne Hc]. split; [done|]. apply H; [|done].
    apply elem_of_app. right. apply elem_of_app. right. by left.
Qed.

Lemma snapshot_nodes_read N : nodes_ok N -> reads node_key_decode node_record_decode N.
Proof. intros HN k x Hk. destruct (HN k x Hk) as (_ & ? & ?). by split. Qed.
Lemma snapshot_edges_read E : edges_ok E -> reads decode_fwd edge_record_decode E.
Proof. intros HE k x Hk. destruct (HE k x Hk) as (_ & ? & ?). by split. Qed.

(** C26: the difference of two versions. From two versions in one store, of
    whatever chunk parameters, the diff ends and lists for the nodes and for
    the edges one change for every key the versions hold differently, in
    ascending order of the encoded keys: the decoded key, the two decoded
    records, and the kind - added, removed or modified - of which are present.
    It is empty exactly when the versions have the same nodes and edges. *)
Theorem snapshot_diff_spec s p q from to v w :
  chunk_params from = p -> chunk_params to = q -> version_at s p from v -> version_at s q to w ->
  exists d, (exists fuel, forall f, fuel <= f -> snapshot_diff f s from to = Ok d) /\
    changes_of node_key_decode node_record_decode mkNodeChange (v_nodes v) (v_nodes w) (d_nodes d) /\
    changes_of decode_fwd edge_record_decode mkEdgeChange (v_edges v) (v_edges w) (d_edges d) /\
    is_empty_diff d = bool_decide (v_nodes v = v_nodes w /\ v_edges v = v_edges w).
Proof.
  intros <- <- [HM (_ & ON & OE)] [HM' (_ & ON' & OE')].
  destruct (snap_root_at s from _ _ (HM MNodes)) as (A & EA & HA), (snap_root_at s to _ _ (HM' MNodes)) as (B & EB & HB).
  destruct (snap_root_at s from _ _ (HM MEdges)) as (A' & EA' & HA'), (snap_root_at s to _ _ (HM' MEdges)) as (B' & EB' & HB').
  cbn [select v_map] in *.
  destruct (map_changes_run node_key_decode node_record_decode mkNodeChange s A B _ _ HA HB) as (ns & [f1 H1] & N1); [by apply snapshot_nodes_read..|].
  destruct (map_changes_run decode_fwd edge_record_decode mkEdgeChange s A' B' _ _ HA' HB') as (es & [f2 H2] & N2); [by apply snapshot_edges_read..|].
  exists (mkGraphDiff ns es). split; [|split; [done|split; [done|]]].
  - exists (Nat.max f1 f2). intros f Hf. unfold snapshot_diff. rewrite EA, EB, EA', EB'. cbn [rbind].
    assert (map_changes f s A B node_change = Ok ns) as -> by (apply H1; lia).
    assert (map_changes f s A' B' edge_change = Ok es) as -> by (apply H2; lia). done.
  - apply changes_nil in N1, N2. unfold is_empty_diff. cbn [d_nodes d_edges]. apply eq_true_iff_eq.
    rewrite andb_true_iff, !bool_decide_eq_true. by rewrite N1, N2.
Qed.

(** C27: the chunk set of a manifest is its version. Walking the maps of a
    manifest of a graph ends; the hashes it lists are, once each and in order,
    exactly those reached from the manifest's roots, and any store that holds
    those chunks, whatever else it lost, holds the whole state: the three
    maps, the mirror, every index and the conflicts. *)
Theorem manifest_chunk_set_complete (hash_le : relation Hash) `{!forall x y, Decision (hash_le x y)} `{!Total hash_le} s p m v cs :
  state_at s p m v cs ->
  exists hs, (exists fuel, forall f, fuel <= f -> manifest_chunk_set hash_le f s m = Ok hs) /\
    NoDup hs /\ Sorted hash_le hs /\ (forall h, h ∈ hs <-> root_reaches s m (manifest_roots m) h) /\
    forall s', keeps s s' (.∈ hs) -> state_at s' p m v cs.
Proof.
  intros HS. destruct (state_roots s p m v cs HS) as [_ Hroots].
  destruct (add_all_chunks_run s m (manifest_roots m) ∅ Hroots (closed_empty s)) as (out & [fuel Hf] & _ & Hin & Hmove).
  assert (forall h, h ∈ merge_sort hash_le (elements out) <-> h ∈ out) as Hel by (intros h; by rewrite merge_sort_Permutation, elem_of_elements).
  exists (merge_sort hash_le (elements out)). split; [|split; [|split; [|split]]].
  - exists fuel. intros f Hle. unfold manifest_chunk_set. by rewrite Hf.
  - rewrite merge_sort_Permutation. apply NoDup_elements.
  - by apply Sorted_merge_sort.
  - intros h. rewrite Hel, Hin. split; [intros [?%elem_of_empty|?]; done|by right].
  - intros s' Hs'. apply (state_moves s s' p m v cs HS). apply Hmove. intros h d Hh. apply Hs'. by apply Hel.
Qed.
End chunks.

(** ** The theorems at a concrete graph *)

Lemma sample_versions :
  version_at merge_store sample_params (version_m no_edges_root) (version_v no_entries) /\
  version_at merge_store sample_params (version_m base_node_root) (version_v base_entries).
Proof.
  destruct graph_describes as (D1 & _ & _). destruct merge_store_extends as (_ & _ & Hn).
  split; [apply version_loaded; [vm_compute; reflexivity|exact Hn|by apply map_Forall_empty]|].
  apply version_sample; [vm_compute; reflexivity|exact D1|apply nodes_ok_load; vm_compute; reflexivity].
Qed.

(** From the version without nodes to the one with a node. *)
Lemma snapshot_diff_witness : exists d,
  (exists fuel, forall f, fuel <= f -> snapshot_diff f merge_store (version_m no_edges_root) (version_m base_node_root) = Ok d) /\
  changes_of node_key_decode node_record_decode mkNodeChange (load_map no_entries) (load_map base_entries) (d_nodes d) /\
  changes_of decode_fwd edge_record_decode mkEdgeChange (load_map no_entries) (load_map no_entries) (d_edges d) /\
  is_empty_diff d = bool_decide (load_map no_entries = load_map base_entries /\ load_map no_entries = load_map no_entries).
Proof.
  destruct sample_versions as [V1 V2].
  exact (snapshot_diff_spec merge_store sample_params sample_params (version_m no_edges_root) (version_m base_node_root) _ _ eq_refl eq_refl V1 V2).
Defined.

(** An order of hashes for the sample: that of their bytes. *)
Definition hash_order : relation Hash := fun x y => bytes_leb (as_bytes x) (as_bytes y) = true.

#[export] Instance hash_order_total : Total hash_order.
Proof. intros x y. unfold hash_order. rewrite !bytes_leb_le. apply bytes_le_total. Qed.
#[export] Instance hash_order_dec x y : Decision (hash_order x y).
Proof. unfold hash_order. apply _. Defined.

Lemma manifest_chunk_set_witness : exists hs,
  (exists fuel, forall f, fuel <= f -> manifest_chunk_set hash_order f probe_store probe_m = Ok hs) /\
  forall s', keeps probe_store s' (.∈ hs) -> state_at s' sample_params probe_m probe_v [].
Proof.
  destruct (manifest_chunk_set_complete hash_order probe_store sample_params probe_m probe_v [] probe_state) as (hs & Hf & _ & _ & _ & H).
  exists hs. split; [exact Hf|exact H].
Defined.

(** The one node changes between the base and ours, is added from the version
    without nodes and removed back to it; the maps of the probed version are
    four chunks, the empty map being both edge maps. *)
Definition kinds_between (from to : Root) : result GraphError (list ChangeKind * bool) :=
  let? d := snapshot_diff 9 merge_store (version_m from) (version_m to) in Ok (List.map nc_kind (d_nodes d), is_empty_diff d).

Lemma snapshot_diff_computed :
  kinds_between base_node_root ours_node_root = Ok ([Modified], false) /\ kinds_between no_edges_root base_node_root = Ok ([Added], false) /\
  kinds_between base_node_root no_edges_root = Ok ([Removed], false) /\ kinds_between base_node_root base_node_root = Ok ([], true) /\
  match manifest_chunk_set hash_order 9 probe_store probe_m with Ok hs => length hs = 4 | Err _ => False end.
Proof. vm_compute. by split_and!. Qed.
