(* ===== verification/CypherValue.v ===== *)
(** * Runtime values of a query (acetone-cypher/src/exec/value.rs)

    The values an expression evaluates to, the three comparisons of openCypher
    - ternary equality, ternary ordering and the global sort order - and the
    byte keys that [DISTINCT] and grouping hash.  A float is a [spec_float] of
    the Standard Library at binary64, which drops the payload of a NaN, as
    every comparison here does; a [BTreeMap] is the list of its entries in key
    order.  The derived [Debug] text of a stored value other than the five a
    carrier holds is a parameter. *)
From Stdlib Require Import SpecFloat.
From stdpp Require Import pretty.
From S2P Require Import Prelude Keys Model Canonical.
Open Scope Z_scope.

(** ** Binary64 *)

Definition prec : Z := 53.
Definition emax : Z := 1024.

(** [n as f64]: to nearest, ties to even. *)
Definition f64_of_magnitude (n : Z) : Z * Z :=
  let l := Z.log2 n in
  if l <=? 52 then (n * 2 ^ (52 - l), l - 52)
  else
    let shift := l - 52 in
    let q := n / 2 ^ shift in
    let r := n mod 2 ^ shift in
    let half := 2 ^ (shift - 1) in
    let q := if (r <? half) || ((r =? half) && Z.even q) then q else q + 1 in
    if q =? 2 ^ 53 then (2 ^ 52, shift + 1) else (q, shift).

Definition f64_of_i64 (n : Z) : spec_float :=
  if n =? 0 then S754_zero false
  else let '(m, e) := f64_of_magnitude (Z.abs n) in S754_finite (n <? 0) (Z.to_pos m) e.

(** The integer a float is, when it is one: [x.fract() == 0.0]. *)
Definition f64_integer (x : spec_float) : option Z :=
  match x with
  | S754_zero _ => Some 0
  | S754_finite s m e =>
    let signed := fun n => if s then - n else n in
    if 0 <=? e then Some (signed (Zpos m * 2 ^ e))
    else if Zpos m mod 2 ^ (- e) =? 0 then Some (signed (Zpos m / 2 ^ (- e))) else None
  | S754_infinity _ | S754_nan => None
  end.

(** [to_bits] *)
Definition f64_bits (x : spec_float) : Z :=
  match x with
  | S754_zero s => if s then 2 ^ 63 else 0
  | S754_infinity s => (if s then 2 ^ 63 else 0) + 0x7ff0000000000000
  | S754_nan => 0x7ff8000000000000
  | S754_finite s m e =>
    (if s then 2 ^ 63 else 0) + (if Zpos m <? 2 ^ 52 then Zpos m else (e + 1075) * 2 ^ 52 + (Zpos m - 2 ^ 52))
  end.

Definition f64_nan (x : spec_float) : bool := match x with S754_nan => true | _ => false end.

(** ** Values *)

Abbreviation EntityId := bytes (only parsing).

Record NodeOf (V : Type) : Type := mkNodeValue { nv_id : bytes; nv_labels : list bytes; nv_properties : list (bytes * V) }.
Record RelOf (V : Type) : Type := mkRelValue {
  rv_id : bytes; rv_type : bytes; rv_start : bytes; rv_end : bytes; rv_properties : list (bytes * V) }.
Arguments mkNodeValue {V}. Arguments nv_id {V}. Arguments nv_labels {V}. Arguments nv_properties {V}.
Arguments mkRelValue {V}. Arguments rv_id {V}. Arguments rv_type {V}. Arguments rv_start {V}. Arguments rv_end {V}. Arguments rv_properties {V}.

Inductive value : Type :=
| CNull
| CBool (b : bool)
| CInt (n : Z)
| CFloat (x : spec_float)
| CString (s : bytes)
| CList (items : list value)
| CMap (entries : list (bytes * value))
| CNode (n : NodeOf value)
| CRel (r : RelOf value)
| CPath (nodes : list (NodeOf value)) (rels : list (RelOf value))
| CStored (mv : Value).

Abbreviation NodeValue := (NodeOf value).
Abbreviation RelValue := (RelOf value).

Definition MAX_VALUE_DEPTH : nat := 256.

Definition type_name (v : value) : string :=
  match v with
  | CNull => "Null" | CBool _ => "Boolean" | CInt _ => "Integer" | CFloat _ => "Float" | CString _ => "String" | CList _ => "List"
  | CMap _ => "Map" | CNode _ => "Node" | CRel _ => "Relationship" | CPath _ _ => "Path" | CStored _ => "String"
  end.

Definition is_null (v : value) : bool := match v with CNull => true | _ => false end.

Definition bool_cmp (a b : bool) : comparison :=
  match a, b with false, true => Lt | true, false => Gt | _, _ => Eq end.

(** The ids of a path, the nodes' before the relationships'. *)
Definition path_ids (nodes : list NodeValue) (rels : list RelValue) : list bytes :=
  List.map nv_id nodes ++ List.map rv_id rels.

(** [zip(..).all(..)]: up to the end of the shorter. *)
Fixpoint zip_ids (a b : list bytes) : bool :=
  match a, b with x :: a, y :: b => bool_decide (x = y) && zip_ids a b | _, _ => true end.

Definition as_f64 (v : value) : option spec_float :=
  match v with CInt n => Some (f64_of_i64 n) | CFloat x => Some x | _ => None end.

(** [x == y] on floats *)
Definition f64_eqb (x y : spec_float) : bool := match SFcompare x y with Some Eq => true | _ => false end.

(** The comparison of two numbers as floats in the global order. *)
Definition f64_global (x y : spec_float) : comparison :=
  match SFcompare x y with
  | Some c => c
  | None => if f64_nan x then if f64_nan y then Eq else Gt else Lt
  end.

Definition rank (v : value) : Z :=
  match v with
  | CMap _ => 0 | CNode _ => 1 | CRel _ => 2 | CList _ => 3 | CPath _ _ => 4 | CString _ | CStored _ => 5 | CBool _ => 6
  | CInt _ | CFloat _ => 7 | CNull => 8
  end.

Definition Ternary : Type := option bool.

Section values.
Variable debug : Value -> bytes.

Definition hex_digit (n : Z) : byte := z2b (if n <? 10 then 48 + n else 87 + n).
Definition hex_byte (b : byte) : bytes := [hex_digit (b2z b / 16); hex_digit (b2z b mod 16)].

Definition decimal (n : Z) : bytes := text (pretty n).

(** Hexadecimal for bytes, the derived [Debug] of the temporals. *)
Definition render_stored (mv : Value) : bytes :=
  match mv with
  | VBytes b => concat (List.map hex_byte b)
  | VDate d => text "Date(Date { days: " ++ decimal (days d) ++ text " })"
  | VTime t => text "Time(Time { nanos: " ++ decimal (nanos t) ++ text " })"
  | VDateTime dt =>
    text "DateTime(DateTime { epoch_nanos: " ++ decimal (epoch_nanos dt) ++ text ", offset_minutes: " ++ decimal (offset_minutes dt) ++ text " })"
  | VDuration d =>
    text "Duration(Duration { months: " ++ decimal (months d) ++ text ", days: " ++ decimal (ddays d) ++ text ", nanos: " ++ decimal (dnanos d) ++ text " })"
  | mv => debug mv
  end.

Definition decayed (v : value) : value := match v with CStored mv => CString (render_stored mv) | v => v end.

(** ** Ternary equality *)

(** The loop over the pairs: [false] at once, null if one was seen. *)
Fixpoint all_equal (pairs : list Ternary) (saw_null : bool) : Ternary :=
  match pairs with
  | [] => if saw_null then None else Some true
  | Some false :: _ => Some false
  | None :: pairs => all_equal pairs true
  | Some true :: pairs => all_equal pairs saw_null
  end.

(** A string against a value that is not a carrier. *)
Definition string_eq3 (s : bytes) (other : value) : Ternary :=
  match other with CNull => None | CString t => Some (bool_decide (s = t)) | _ => Some false end.

(** The carriers are their renderings; the entries of maps with the same keys
    are walked together. *)
Fixpoint eq3 (a b : value) : Ternary :=
  match a, decayed b with
  | CStored mv, b => string_eq3 (render_stored mv) b
  | CNull, _ | _, CNull => None
  | CBool a, CBool b => Some (Bool.eqb a b)
  | CInt a, CInt b => Some (a =? b)
  | CInt a, CFloat y => Some (f64_eqb (f64_of_i64 a) y)
  | CFloat x, CInt b => Some (f64_eqb x (f64_of_i64 b))
  | CFloat x, CFloat y => Some (f64_eqb x y)
  | CString a, CString b => Some (bool_decide (a = b))
  | CList a, CList b =>
    if negb (length a =? length b)%nat then Some false
    else all_equal ((fix go a b := match a, b with x :: a, y :: b => eq3 x y :: go a b | _, _ => [] end) a b) false
  | CMap a, CMap b =>
    if negb (length a =? length b)%nat || negb (bool_decide (List.map fst a = List.map fst b)) then Some false
    else all_equal ((fix go a b := match a, b with (_, x) :: a, (_, y) :: b => eq3 x y :: go a b | _, _ => [] end) a b) false
  | CNode a, CNode b => Some (bool_decide (nv_id a = nv_id b))
  | CRel a, CRel b => Some (bool_decide (rv_id a = rv_id b))
  | CPath na ra, CPath nb rb =>
    Some ((length na =? length nb)%nat && zip_ids (List.map nv_id na) (List.map nv_id nb) && zip_ids (List.map rv_id ra) (List.map rv_id rb))
  | _, _ => Some false
  end.

(** ** Ternary ordering *)

Definition string_cmp3 (s : bytes) (other : value) : option comparison :=
  match other with CString t => Some (bytes_cmp s t) | _ => None end.

Fixpoint cmp3 (a b : value) : option comparison :=
  match a, decayed b with
  | CStored mv, b => string_cmp3 (render_stored mv) b
  | CInt a, CInt b => Some (a ?= b)
  | CInt a, CFloat y => SFcompare (f64_of_i64 a) y
  | CFloat x, CInt b => SFcompare x (f64_of_i64 b)
  | CFloat x, CFloat y => SFcompare x y
  | CString a, CString b => Some (bytes_cmp a b)
  | CBool a, CBool b => Some (bool_cmp a b)
  | CList a, CList b =>
    (fix go a b :=
       match a, b with
       | x :: a, y :: b => match cmp3 x y with None => None | Some Eq => go a b | Some unequal => Some unequal end
       | [], [] => Some Eq
       | [], _ :: _ => Some Lt
       | _ :: _, [] => Some Gt
       end) a b
  | _, _ => None
  end.

(** ** The global sort order *)

Definition string_global (s : bytes) (other : value) : comparison :=
  match other with CString t => bytes_cmp s t | other => 5 ?= rank other end.

Fixpoint global_cmp (a b : value) : comparison :=
  match a, decayed b with
  | CStored mv, b => string_global (render_stored mv) b
  | CNull, CNull => Eq
  | CInt a, CInt b => a ?= b
  | CInt a, CFloat y => f64_global (f64_of_i64 a) y
  | CFloat x, CInt b => f64_global x (f64_of_i64 b)
  | CFloat x, CFloat y => f64_global x y
  | CString a, CString b => bytes_cmp a b
  | CBool a, CBool b => bool_cmp a b
  | CList a, CList b =>
    (fix go a b :=
       match a, b with
       | x :: a, y :: b => cmp_then (global_cmp x y) (go a b)
       | [], [] => Eq
       | [], _ :: _ => Lt
       | _ :: _, [] => Gt
       end) a b
  | CMap a, CMap b =>
    cmp_then (list_cmp bytes_cmp (List.map fst a) (List.map fst b))
      ((fix go a b := match a, b with (_, x) :: a, (_, y) :: b => cmp_then (global_cmp x y) (go a b) | _, _ => Eq end) a b)
  | CNode a, CNode b => bytes_cmp (nv_id a) (nv_id b)
  | CRel a, CRel b => bytes_cmp (rv_id a) (rv_id b)
  | CPath na ra, CPath nb rb => list_cmp bytes_cmp (path_ids na ra) (path_ids nb rb)
  | a, b => rank a ?= rank b
  end.

Definition equivalent (a b : value) : bool := match global_cmp a b with Eq => true | _ => false end.

(** ** Hash keys *)

(** [to_be_bytes] of a length or of an [i64]. *)
Definition u64_be (n : Z) : bytes := be_bytes 8 (n mod 2 ^ 64).
Definition len_be {A : Type} (l : list A) : bytes := u64_be (Z.of_nat (length l)).
Definition len_prefixed (b : bytes) : bytes := len_be b ++ b.

Definition float_number_key (x : spec_float) : bytes :=
  if f64_nan x then [x02]
  else
    match f64_integer x with
    | Some n => if (- 2 ^ 63 <=? n) && (n <? 2 ^ 63) then x00 :: u64_be n else x01 :: u64_be (f64_bits x)
    | None => x01 :: u64_be (f64_bits x)
    end.

Fixpoint distinct_key (v : value) : bytes :=
  match v with
  | CStored mv => x05 :: len_prefixed (render_stored mv)
  | CMap m =>
    x00 :: len_be m ++ (fix go m := match m with [] => [] | (k, v) :: m => len_prefixed k ++ distinct_key v ++ go m end) m
  | CNode n => x01 :: len_prefixed (nv_id n)
  | CRel r => x02 :: len_prefixed (rv_id r)
  | CList items => x03 :: len_be items ++ (fix go l := match l with [] => [] | v :: l => distinct_key v ++ go l end) items
  | CPath nodes rels =>
    x04 :: len_be nodes ++ len_be rels ++ concat (List.map (fun n => len_prefixed (nv_id n)) nodes) ++ concat (List.map (fun r => len_prefixed (rv_id r)) rels)
  | CString s => x05 :: len_prefixed s
  | CBool b => [x06; if b then x01 else x00]
  | CInt n => x07 :: x00 :: u64_be n
  | CFloat x => x07 :: float_number_key x
  | CNull => [x08]
  end.

(** ** Nesting *)

(** The explicit stack of [nesting_exceeds], its last element first; every
    step takes one value off the stack, so fuel for the values it can reach is
    enough. *)
Fixpoint exceeds_loop (fuel : nat) (limit : nat) (stack : list (value * nat)) : option bool :=
  match stack with
  | [] => Some false
  | (v, depth) :: stack =>
    match fuel with
    | O => None
    | S fuel =>
      if (limit <? depth)%nat then Some true
      else
        let children := match v with CList items => items | CMap m => List.map snd m | _ => [] end in
        exceeds_loop fuel limit (rev (List.map (fun v => (v, S depth)) children) ++ stack)
    end
  end.

(** The values a walk into containers reaches. *)
Fixpoint nodes_of (v : value) : nat :=
  match v with
  | CList items => S ((fix go l := match l with [] => O | v :: l => (nodes_of v + go l)%nat end) items)
  | CMap m => S ((fix go m := match m with [] => O | (_, v) :: m => (nodes_of v + go m)%nat end) m)
  | _ => 1%nat
  end.

Definition nesting_exceeds (v : value) (limit : nat) : bool :=
  match exceeds_loop (nodes_of v) limit [(v, 1%nat)] with Some b => b | None => false end.
End values.
