(* ===== verification/CypherCompare.v ===== *)
(** * The three comparisons of openCypher agree

    The global order is a total preorder on values whose integers are exact
    as floats; where the ternary comparisons decide, they decide as it does.
    A value's hash key is its equivalence class. *)
From Stdlib Require Import SpecFloat.
From S2P Require Import Prelude Model Keys Canonical CypherValue.
Open Scope Z_scope.

(** ** Induction on values *)

Section value_ind.
Variable P : value -> Prop.
Hypotheses (Hnull : P CNull) (Hbool : forall b, P (CBool b)) (Hint : forall n, P (CInt n)) (Hfloat : forall x, P (CFloat x))
  (Hstring : forall s, P (CString s)) (Hlist : forall l, Forall P l -> P (CList l))
  (Hmap : forall m, Forall (fun e => P e.2) m -> P (CMap m))
  (Hnode : forall n, P (CNode n)) (Hrel : forall r, P (CRel r)) (Hpath : forall ns rs, P (CPath ns rs)) (Hstored : forall mv, P (CStored mv)).

Fixpoint value_ind' (v : value) : P v :=
  match v with
  | CNull => Hnull | CBool b => Hbool b | CInt n => Hint n | CFloat x => Hfloat x | CString s => Hstring s
  | CList l => Hlist l ((fix go l : Forall P l := match l with [] => Forall_nil_2 P | v :: l => Forall_cons_2 P v l (value_ind' v) (go l) end) l)
  | CMap m => Hmap m ((fix go m : Forall (fun e => P e.2) m := match m with
      | [] => Forall_nil_2 (fun e => P e.2)
      | (k, v) :: m => Forall_cons_2 (fun e => P e.2) (k, v) m (value_ind' v) (go m) end) m)
  | CNode n => Hnode n | CRel r => Hrel r | CPath ns rs => Hpath ns rs | CStored mv => Hstored mv
  end.
End value_ind.

(** ** Sort keys *)

Definition zs_cmp : list Z -> list Z -> comparison := list_cmp Z.compare.

Lemma zs_cmp_eq a b : zs_cmp a b = Eq <-> a = b.
Proof. apply list_cmp_eq. intros x y. apply Z.compare_eq_iff. Qed.
Lemma zs_cmp_sym a b : zs_cmp b a = CompOpp (zs_cmp a b).
Proof. apply list_cmp_sym. intros x y. apply Z.compare_antisym. Qed.
Lemma zs_cmp_trans a b c : zs_cmp a b = Lt -> zs_cmp b c = Lt -> zs_cmp a c = Lt.
Proof.
  apply list_cmp_trans; [intros x y; apply Z.compare_eq_iff|]. intros x y z. rewrite !Z.compare_lt_iff. lia.
Qed.

Lemma zs_cmp_cons x y a b : zs_cmp (x :: a) (y :: b) = cmp_then (x ?= y) (zs_cmp a b).
Proof. done. Qed.
Lemma zs_cmp_same x a b : zs_cmp (x :: a) (x :: b) = zs_cmp a b.
Proof. rewrite zs_cmp_cons, Z.compare_refl. done. Qed.
Lemma zs_cmp_lt x y a b : x < y -> zs_cmp (x :: a) (y :: b) = Lt.
Proof. intros H%Z.compare_lt_iff. by rewrite zs_cmp_cons, H. Qed.
Lemma zs_cmp_gt x y a b : y < x -> zs_cmp (x :: a) (y :: b) = Gt.
Proof. intros H%Z.compare_gt_iff. by rewrite zs_cmp_cons, H. Qed.

(** A comparison is the order of keys that end themselves. *)
Definition ordered_by (c : comparison) (k l : list Z) : Prop := forall r s, zs_cmp (k ++ r) (l ++ s) = cmp_then c (zs_cmp r s).

Lemma ordered_cons x c k l : ordered_by c k l -> ordered_by c (x :: k) (x :: l).
Proof. intros H r s. cbn [app]. by rewrite zs_cmp_same. Qed.
Lemma ordered_head x y k l : x <> y -> ordered_by (x ?= y) (x :: k) (y :: l).
Proof.
  intros Hne r s. cbn [app]. rewrite zs_cmp_cons. destruct (Z.compare_spec x y); done.
Qed.
Lemma ordered_app c d k l k' l' : ordered_by c k l -> (c = Eq -> ordered_by d k' l') -> ordered_by (cmp_then c d) (k ++ k') (l ++ l').
Proof. intros H H' r s. rewrite <-!app_assoc, H. destruct c; [by rewrite (H' eq_refl)|done..]. Qed.
Lemma ordered_nil : ordered_by Eq [] [].
Proof. intros r s. done. Qed.
Lemma ordered_one x y : ordered_by (x ?= y) [x] [y].
Proof. intros r s. done. Qed.

(** ** Keys of floats *)

Definition float_key (x : spec_float) : list Z :=
  match x with
  | S754_infinity true => [-2]
  | S754_finite true m e => [-1; - e; - Zpos m]
  | S754_zero _ => [0]
  | S754_finite false m e => [1; e; Zpos m]
  | S754_infinity false => [2]
  | S754_nan => [3]
  end.

Lemma opp_compare x y : (- x ?= - y) = CompOpp (x ?= y).
Proof. rewrite Z.compare_opp. apply Z.compare_antisym. Qed.

Lemma f64_global_key x y : ordered_by (f64_global x y) (float_key x) (float_key y).
Proof.
  intros r s. unfold f64_global. destruct x as [sx|[]| |[] mx ex], y as [sy|[]| |[] my ey]; cbn [float_key SFcompare f64_nan app]; try done;
    try (by rewrite zs_cmp_same); try (by destruct sx); try (by destruct sy); try (apply zs_cmp_lt; lia); try (apply zs_cmp_gt; lia).
  - rewrite !zs_cmp_cons, !opp_compare, Z.compare_refl. cbn [cmp_then]. destruct (ex ?= ey); cbn [CompOpp cmp_then]; done.
  - rewrite !zs_cmp_cons, Z.compare_refl. cbn [cmp_then]. by destruct (ex ?= ey).
Qed.

Definition exact_int (n : Z) : bool := Z.abs n <? 2 ^ 53.

Lemma exact_magnitude n : 0 < n < 2 ^ 53 ->
  f64_of_magnitude n = (n * 2 ^ (52 - Z.log2 n), Z.log2 n - 52) /\ 0 <= Z.log2 n <= 52 /\ 2 ^ Z.log2 n <= n < 2 ^ (Z.log2 n + 1).
Proof.
  intros Hn. pose proof (Z.log2_spec n ltac:(lia)) as Hl. pose proof (Z.log2_nonneg n).
  assert (Z.log2 n <= 52) as Hl52 by (assert (Z.log2 n < 53) by (apply Z.log2_lt_pow2; lia); lia).
  unfold f64_of_magnitude. rewrite (proj2 (Z.leb_le _ _) Hl52). rewrite <-Z.add_1_r in Hl. done.
Qed.

(** The key of an exact integer as a float, by its magnitude. *)
Lemma exact_key n : exact_int n = true ->
  float_key (f64_of_i64 n) =
    if n =? 0 then [0]
    else if n <? 0 then [-1; 52 - Z.log2 (- n); n * 2 ^ (52 - Z.log2 (- n))]
    else [1; Z.log2 n - 52; n * 2 ^ (52 - Z.log2 n)].
Proof.
  unfold exact_int. rewrite Z.ltb_lt. intros Hn. unfold f64_of_i64. destruct (Z.eqb_spec n 0) as [->|Hne]; [done|].
  destruct (exact_magnitude (Z.abs n) ltac:(lia)) as (-> & Hl & Hp).
  assert (0 < Z.abs n * 2 ^ (52 - Z.log2 (Z.abs n))) as Hpos.
  { apply Z.mul_pos_pos; [lia|]. apply Z.pow_pos_nonneg; lia. }
  destruct (Z.ltb_spec n 0); cbn [float_key]; rewrite Z2Pos.id by done.
  - rewrite Z.abs_neq by lia. f_equal. f_equal; [lia|]. f_equal. lia.
  - by rewrite Z.abs_eq by lia.
Qed.

Lemma scaled_lt a b la lb : 0 < a -> a < b -> 2 ^ la <= a < 2 ^ (la + 1) -> 2 ^ lb <= b < 2 ^ (lb + 1) -> 0 <= la <= 52 -> 0 <= lb <= 52 ->
  la < lb \/ la = lb /\ a * 2 ^ (52 - la) < b * 2 ^ (52 - lb).
Proof.
  intros Ha Hab Hla Hlb H1 H2. destruct (Z.lt_trichotomy la lb) as [?|[->|Hgt]]; [by left| |].
  - right. split; [done|]. apply Z.mul_lt_mono_pos_r; [apply Z.pow_pos_nonneg; lia|done].
  - assert (2 ^ (lb + 1) <= 2 ^ la) by (apply Z.pow_le_mono_r; lia). lia.
Qed.

Lemma exact_lt a b : exact_int a = true -> exact_int b = true -> a < b -> zs_cmp (float_key (f64_of_i64 a)) (float_key (f64_of_i64 b)) = Lt.
Proof.
  intros Ha Hb Hab. rewrite !exact_key by done. unfold exact_int in *. rewrite Z.ltb_lt in *.
  destruct (Z.eqb_spec a 0) as [->|Ha0], (Z.eqb_spec b 0) as [->|Hb0]; [lia|..].
  - destruct (Z.ltb_spec b 0); [lia|]. by apply zs_cmp_lt.
  - destruct (Z.ltb_spec a 0); [|lia]. by apply zs_cmp_lt.
  - destruct (Z.ltb_spec a 0), (Z.ltb_spec b 0); [|by apply zs_cmp_lt; lia|lia|].
    + destruct (exact_magnitude (- a) ltac:(lia)) as (_ & Hla & Hpa), (exact_magnitude (- b) ltac:(lia)) as (_ & Hlb & Hpb).
      rewrite zs_cmp_same. destruct (scaled_lt (- b) (- a) _ _ ltac:(lia) ltac:(lia) Hpb Hpa Hlb Hla) as [Hlt|[Heq Hlt]].
      * apply zs_cmp_lt. lia.
      * rewrite Heq in *. rewrite zs_cmp_same. apply zs_cmp_lt. lia.
    + destruct (exact_magnitude a ltac:(lia)) as (_ & Hla & Hpa), (exact_magnitude b ltac:(lia)) as (_ & Hlb & Hpb).
      rewrite zs_cmp_same. destruct (scaled_lt a b _ _ ltac:(lia) ltac:(lia) Hpa Hpb Hla Hlb) as [Hlt|[Heq Hlt]].
      * apply zs_cmp_lt. lia.
      * rewrite Heq in *. rewrite zs_cmp_same. apply zs_cmp_lt. lia.
Qed.

(** Two exact integers compare as their floats do. *)
Lemma exact_compare a b : exact_int a = true -> exact_int b = true -> (a ?= b) = f64_global (f64_of_i64 a) (f64_of_i64 b).
Proof.
  intros Ha Hb. pose proof (f64_global_key (f64_of_i64 a) (f64_of_i64 b) [] []) as H. rewrite !app_nil_r, cmp_then_Eq_r in H. rewrite <-H.
  destruct (Z.compare_spec a b) as [->|Hlt|Hlt].
  - symmetry. by apply zs_cmp_eq.
  - symmetry. by apply exact_lt.
  - rewrite zs_cmp_sym, (exact_lt b a) by done. done.
Qed.

(** ** Keys of strings *)

Definition string_key (s : bytes) : list Z := List.map (fun b => b2z b + 1) s ++ [0].

Lemma string_key_order s t : ordered_by (bytes_cmp s t) (string_key s) (string_key t).
Proof.
  revert t. induction s as [|b s IH]; intros [|c t] r u; unfold string_key; cbn [List.map app].
  - by rewrite zs_cmp_same.
  - apply zs_cmp_lt. pose proof (b2z_range c). lia.
  - apply zs_cmp_gt. pose proof (b2z_range b). lia.
  - rewrite bytes_cmp_cons, zs_cmp_cons. replace (b2z b + 1 ?= b2z c + 1) with (byte_cmp b c).
    + rewrite <-cmp_then_assoc. f_equal. apply (IH t r u).
    + unfold byte_cmp. destruct (Z.compare_spec (b2z b) (b2z c)); symmetry; [apply Z.compare_eq_iff|apply Z.compare_lt_iff|apply Z.compare_gt_iff]; lia.
Qed.

(** A list of things with keys. *)
Definition items_key {A : Type} (f : A -> list Z) (l : list A) : list Z := concat (List.map (fun x => 1 :: f x) l) ++ [0].

Lemma items_key_order {A : Type} (c : A -> A -> comparison) (f : A -> list Z) (l k : list A) :
  Forall (fun x => Forall (fun y => ordered_by (c x y) (f x) (f y)) k) l -> ordered_by (list_cmp c l k) (items_key f l) (items_key f k).
Proof.
  revert k. induction l as [|x l IH]; intros k Hl r s; destruct k as [|y k]; unfold items_key; cbn [List.map concat app list_cmp].
  - by rewrite zs_cmp_same.
  - by apply zs_cmp_lt.
  - by apply zs_cmp_gt.
  - apply Forall_cons in Hl as [Hx Hl]. apply Forall_cons in Hx as [Hxy _]. rewrite zs_cmp_same, <-!app_assoc, Hxy, <-cmp_then_assoc. f_equal.
    assert (Forall (fun x => Forall (fun y => ordered_by (c x y) (f x) (f y)) k) l) as Hl'
      by (eapply Forall_impl; [exact Hl|]; intros z Hz; by apply Forall_cons in Hz as [_ Hz]).
    pose proof (IH k Hl' r s) as E. unfold items_key in E. by rewrite <-!app_assoc in E.
Qed.

(** ** Keys of values *)

Section values.
Variable debug : Value -> bytes.
Abbreviation render := (render_stored debug).

Fixpoint sort_key (v : value) : list Z :=
  match v with
  | CMap m => 0 :: items_key (fun e => string_key e.1) m ++ (fix go m := match m with [] => [] | (_, v) :: m => sort_key v ++ go m end) m
  | CNode n => 1 :: string_key (nv_id n)
  | CRel r => 2 :: string_key (rv_id r)
  | CList l => 3 :: (fix go l := match l with [] => [0] | v :: l => 1 :: sort_key v ++ go l end) l
  | CPath ns rs => 4 :: items_key string_key (path_ids ns rs)
  | CString s => 5 :: string_key s
  | CStored mv => 5 :: string_key (render mv)
  | CBool b => [6; if b then 1 else 0]
  | CInt n => 7 :: float_key (f64_of_i64 n)
  | CFloat x => 7 :: float_key x
  | CNull => [8]
  end.

(** A property of every value a walk into containers reaches. *)
Fixpoint everywhere (p : value -> bool) (v : value) : bool :=
  p v &&
  match v with
  | CList l => (fix go l := match l with [] => true | v :: l => everywhere p v && go l end) l
  | CMap m => (fix go m := match m with [] => true | (_, v) :: m => everywhere p v && go m end) m
  | _ => true
  end.

(** Every integer in a value is exact as a float. *)
Definition exact : value -> bool := everywhere (fun v => match v with CInt n => exact_int n | _ => true end).

(** A path alternates nodes and relationships from node to node. *)
Definition paths_ok : value -> bool :=
  everywhere (fun v => match v with CPath ns rs => (length ns =? length rs + 1)%nat | _ => true end).

(** Neither null nor NaN is anywhere in a value. *)
Definition definite : value -> bool :=
  everywhere (fun v => match v with CNull => false | CFloat x => negb (f64_nan x) | _ => true end).

Lemma sort_key_head v : exists k, sort_key v = rank v :: k.
Proof. destruct v; by eexists. Qed.

Lemma sort_key_decayed v : sort_key (decayed debug v) = sort_key v.
Proof. by destruct v. Qed.

Lemma exact_decayed v : exact (decayed debug v) = exact v.
Proof. by destruct v. Qed.

Lemma everywhere_cons p v l : everywhere p (CList (v :: l)) = true -> p (CList l) = p (CList (v :: l)) -> everywhere p v = true /\ everywhere p (CList l) = true.
Proof. cbn [everywhere]. rewrite !andb_true_iff. intros (H & Hv & Hl) ->. done. Qed.
Lemma everywhere_entry p k v m : everywhere p (CMap ((k, v) :: m)) = true -> p (CMap m) = p (CMap ((k, v) :: m)) -> everywhere p v = true /\ everywhere p (CMap m) = true.
Proof. cbn [everywhere]. rewrite !andb_true_iff. intros (H & Hv & Hl) ->. done. Qed.

Lemma different_rank a b : rank a <> rank b -> ordered_by (rank a ?= rank b) (sort_key a) (sort_key b).
Proof. intros H. destruct (sort_key_head a) as [k ->], (sort_key_head b) as [l ->]. by apply ordered_head. Qed.

Lemma string_global_order s b : ordered_by (string_global s (decayed debug b)) (5 :: string_key s) (sort_key b).
Proof.
  destruct b; cbn [decayed string_global sort_key]; try (apply ordered_head; done).
  - apply ordered_cons, string_key_order.
  - apply ordered_cons, string_key_order.
Qed.

(** A value orders by its sort key. *)
Lemma global_cmp_key a b : exact a = true -> exact b = true -> ordered_by (global_cmp debug a b) (sort_key a) (sort_key b).
Proof.
  rewrite <-(sort_key_decayed b), <-(exact_decayed b). revert b.
  induction a as [|x|n|x|s|l IH|m IH|n|r|ns rs|mv] using value_ind'; intros b Ha Hb; cbn [global_cmp].
  all: destruct (decayed debug b) as [|y|n'|y|t|l'|m'|n'|r'|ns' rs'|mv'] eqn:Eb; try (by destruct b).
  all: try (apply different_rank; done).
  all: cbn [sort_key]; try apply ordered_cons.
  all: try apply f64_global_key; try apply string_key_order.
  - by destruct x, y; apply ordered_one.
  - unfold exact in Ha, Hb. cbn [everywhere] in Ha, Hb. rewrite andb_true_r in Ha, Hb. rewrite exact_compare by done. apply f64_global_key.
  - clear Eb. revert l' Hb. induction IH as [|v l Hv _ IHl]; intros [|w l'] Hb.
    + apply ordered_one.
    + apply ordered_head. done.
    + apply ordered_head. done.
    + apply everywhere_cons in Ha as [Ha1 Ha2], Hb as [Hb1 Hb2]; [|done..]. apply ordered_cons, ordered_app; [|intros _; by apply IHl].
      rewrite <-(sort_key_decayed w). apply Hv; [exact Ha1|by rewrite exact_decayed].
  - clear Eb. apply ordered_app.
    + replace (list_cmp bytes_cmp (List.map fst m) (List.map fst m')) with (list_cmp (fun e e' : bytes * value => bytes_cmp e.1 e'.1) m m').
      * apply items_key_order. apply Forall_forall. intros e _. apply Forall_forall. intros e' _. apply string_key_order.
      * clear. revert m'. induction m as [|e m IH]; intros [|e' m']; [done..|]. cbn [List.map list_cmp]. by rewrite IH.
    + intros E. apply list_cmp_eq in E; [|apply bytes_cmp_eq]. revert m' Hb E.
      induction IH as [|[k v] m Hv _ IHm]; intros [|[k' w] m'] Hb E; try done.
      apply everywhere_entry in Ha as [Ha1 Ha2], Hb as [Hb1 Hb2]; [|done..]. cbn [List.map fst] in E. injection E as _ E.
      apply ordered_app; [|intros _; by apply IHm]. rewrite <-(sort_key_decayed w). apply Hv; [exact Ha1|by rewrite exact_decayed].
  - apply items_key_order. apply Forall_forall. intros e _. apply Forall_forall. intros e' _. apply string_key_order.
Qed.

Lemma global_cmp_keys a b : exact a = true -> exact b = true -> global_cmp debug a b = zs_cmp (sort_key a) (sort_key b).
Proof. intros Ha Hb. pose proof (global_cmp_key a b Ha Hb [] []) as H. by rewrite !app_nil_r, cmp_then_Eq_r in H. Qed.

Lemma global_cmp_Eq a b : exact a = true -> exact b = true -> global_cmp debug a b = Eq <-> sort_key a = sort_key b.
Proof. intros Ha Hb. rewrite global_cmp_keys by done. apply zs_cmp_eq. Qed.
End values.

Section agreement.
Variable debug : Value -> bytes.

Lemma bool_cmp_eq a b : bool_cmp a b = Eq <-> a = b.
Proof. by destruct a, b. Qed.

Lemma f64_global_some x y c : SFcompare x y = Some c -> f64_global x y = c.
Proof. unfold f64_global. by intros ->. Qed.

Lemma cmp3_decayed a b : cmp3 debug a (decayed debug b) = cmp3 debug a b.
Proof. by destruct a, b. Qed.
Lemma global_decayed a b : global_cmp debug a (decayed debug b) = global_cmp debug a b.
Proof. by destruct a, b. Qed.
Lemma eq3_decayed a b : eq3 debug a (decayed debug b) = eq3 debug a b.
Proof. by destruct a, b. Qed.

Lemma cmp3_global a b c : cmp3 debug a b = Some c -> global_cmp debug a b = c.
Proof.
  revert b c. induction a as [|x|n|x|s|l IH|m _|n|r|ns rs|mv] using value_ind'; intros b c; cbn [cmp3 global_cmp].
  all: destruct (decayed debug b) as [|y|n'|y|t|l'|m'|n'|r'|ns' rs'|mv'] eqn:Eb; try done.
  all: try (by intros [= <-]); try (by apply f64_global_some); try (by destruct b).
  clear Eb. revert l'. induction IH as [|v l Hv _ IHl]; intros [|w l']; try (by intros [= <-]).
  destruct (cmp3 debug v w) as [d|] eqn:E; [|done]. rewrite (Hv w d E). destruct d; [apply IHl|by intros [= <-]..].
Qed.

(** ** Equality *)

Lemma zip_ids_eq a b : length a = length b -> zip_ids a b = true <-> a = b.
Proof.
  revert b. induction a as [|x a IH]; intros [|y b]; try done. intros [= H]. cbn [zip_ids].
  rewrite andb_true_iff, bool_decide_eq_true, IH by done. naive_solver.
Qed.

Lemma ids_eq_cmp a b : list_cmp bytes_cmp a b = Eq <-> a = b.
Proof. apply list_cmp_eq, bytes_cmp_eq. Qed.

(** Two paths of as many nodes. *)
Lemma path_eq (ns ns' : list NodeValue) (rs rs' : list RelValue) :
  length ns = (length rs + 1)%nat -> length ns' = (length rs' + 1)%nat ->
  (length ns =? length ns')%nat && zip_ids (List.map nv_id ns) (List.map nv_id ns') && zip_ids (List.map rv_id rs) (List.map rv_id rs') = true <->
  path_ids ns rs = path_ids ns' rs'.
Proof.
  intros H H'. unfold path_ids. rewrite !andb_true_iff, Nat.eqb_eq. split.
  - intros [[Hl Hn] Hr]. apply zip_ids_eq in Hn; [|by rewrite !length_map]. apply zip_ids_eq in Hr; [|rewrite !length_map; lia]. by rewrite Hn, Hr.
  - intros E. assert (length ns = length ns') as Hl.
    { apply (f_equal length) in E. rewrite !length_app, !length_map in E. lia. }
    apply app_inj_1 in E as [E1 E2]; [|by rewrite !length_map]. split; [split; [done|]|].
    + by apply zip_ids_eq; [rewrite !length_map|].
    + apply zip_ids_eq; [rewrite !length_map; lia|done].
Qed.

(** The loop over pairs that are all decided as [true] or [false]. *)
Lemma all_equal_decided (l : list bool) n : all_equal (List.map Some l) n = if forallb id l then (if n then None else Some true) else Some false.
Proof. induction l as [|[] l IH]; [done|exact IH|done]. Qed.

Lemma all_equal_true l n : all_equal l n = Some true <-> n = false /\ Forall (fun t => t = Some true) l.
Proof.
  revert n. induction l as [|[[]|] l IH]; intros n; cbn [all_equal].
  - destruct n; (split; [done|]); by intros [? _].
  - rewrite IH. split; intros [? H]; (split; [done|]); [by constructor|by apply Forall_cons in H as [_ H]].
  - split; [done|]. by intros [_ [? _]%Forall_cons].
  - rewrite IH. split; [by intros [? _]|]. by intros [_ [? _]%Forall_cons].
Qed.

Lemma everywhere_self p v : everywhere p v = true -> p v = true.
Proof. destruct v; cbn [everywhere]; by intros [? _]%andb_prop. Qed.

(** What equals is equivalent. *)
Lemma eq3_global a b : paths_ok a = true -> paths_ok b = true -> eq3 debug a b = Some true -> global_cmp debug a b = Eq.
Proof.
  rewrite <-(global_decayed a b), <-(eq3_decayed a b). intros Ha Hb.
  assert (paths_ok (decayed debug b) = true) as Hb' by (by destruct b). clear Hb. revert Ha Hb'. generalize (decayed debug b). clear b.
  induction a as [|x|n|x|s|l IH|m IH|n|r|ns rs|mv] using value_ind'; intros b Ha Hb; cbn [eq3 global_cmp].
  all: destruct (decayed debug b) as [|y|n'|y|t|l'|m'|n'|r'|ns' rs'|mv'] eqn:Eb; try done; try (by destruct b).
  - intros [= H]. apply bool_cmp_eq. by apply Bool.eqb_prop.
  - intros [= H%Z.eqb_eq]. by apply Z.compare_eq_iff.
  - intros [= H]. apply f64_global_some. unfold f64_eqb in H. by repeat case_match.
  - intros [= H]. apply f64_global_some. unfold f64_eqb in H. by repeat case_match.
  - intros [= H]. apply f64_global_some. unfold f64_eqb in H. by repeat case_match.
  - intros [= H%bool_decide_eq_true]. by apply bytes_cmp_eq.
  - destruct b; try done; cbn [decayed] in Eb; injection Eb as ->.
    destruct (Nat.eqb_spec (length l) (length l')) as [Hl|]; [|done]. cbn [negb]. intros H%all_equal_true. destruct H as [_ H].
    revert l' Hl Hb H. induction IH as [|v l Hv _ IHl]; intros [|w l'] Hl Hb H; try done.
    apply everywhere_cons in Ha as [Ha1 Ha2], Hb as [Hb1 Hb2]; [|done..]. apply Forall_cons in H as [H1 H2]. injection Hl as Hl.
    rewrite (Hv w Ha1 Hb1 H1). by apply IHl.
  - destruct b; try done; cbn [decayed] in Eb; injection Eb as ->.
    destruct (Nat.eqb_spec (length m) (length m')) as [Hl|]; [|done]. cbn [negb orb]. case_bool_decide as Hk; [|done]. cbn [negb].
    intros H%all_equal_true. destruct H as [_ H]. rewrite (proj2 (ids_eq_cmp _ _) Hk). cbn [cmp_then].
    clear Hk. revert m' Hl Hb H. induction IH as [|[k v] m Hv _ IHm]; intros [|[k' w] m'] Hl Hb H; try done.
    apply everywhere_entry in Ha as [Ha1 Ha2], Hb as [Hb1 Hb2]; [|done..]. apply Forall_cons in H as [H1 H2]. injection Hl as Hl.
    cbn [snd] in Hv. rewrite (Hv w Ha1 Hb1 H1). by apply IHm.
  - intros [= H%bool_decide_eq_true]. by apply bytes_cmp_eq.
  - intros [= H%bool_decide_eq_true]. by apply bytes_cmp_eq.
  - destruct b; try done; cbn [decayed] in Eb; injection Eb as -> ->. intros [= H]. apply ids_eq_cmp.
    apply everywhere_self in Ha, Hb. apply Nat.eqb_eq in Ha, Hb. by apply path_eq.
  - unfold string_eq3, string_global. destruct b; try done; cbn [decayed] in Eb; try (injection Eb as <-);
      intros [= H%bool_decide_eq_true]; by apply bytes_cmp_eq.
Qed.

Lemma f64_eqb_global x y : f64_nan x = false -> f64_nan y = false -> f64_eqb x y = true <-> f64_global x y = Eq.
Proof. intros Hx Hy. unfold f64_eqb, f64_global. destruct (SFcompare x y) as [[]|]; rewrite ?Hx; by split. Qed.

Lemma f64_of_i64_nan n : f64_nan (f64_of_i64 n) = false.
Proof. unfold f64_of_i64. destruct (n =? 0); [done|]. by destruct (f64_of_magnitude (Z.abs n)). Qed.

Lemma all_equal_definite l : Forall (fun t => t <> None) l -> exists t, all_equal l false = Some t.
Proof. induction 1 as [|[[]|] l H _ IH]; [by eexists|exact IH|by eexists|done]. Qed.

(** Values without null and NaN are equal or not. *)
Lemma eq3_definite a b : definite a = true -> definite b = true -> exists t, eq3 debug a b = Some t.
Proof.
  rewrite <-(eq3_decayed a b). intros Ha Hb. assert (definite (decayed debug b) = true) as Hb' by (by destruct b).
  clear Hb. revert Ha Hb'. generalize (decayed debug b). clear b.
  induction a as [|x|n|x|s|l IH|m IH|n|r|ns rs|mv] using value_ind'; intros b Ha Hb; cbn [eq3].
  all: destruct b as [|y|n'|y|t|l'|m'|n'|r'|ns' rs'|mv']; cbn [decayed string_eq3]; try done; try (by eexists).
  - destruct (_ =? _)%nat; [|by eexists]. cbn [negb]. apply all_equal_definite. revert l' Hb. induction IH as [|v l Hv _ IHl]; intros [|w l'] Hb; try (by constructor).
    apply everywhere_cons in Ha as [Ha1 Ha2], Hb as [Hb1 Hb2]; [|done..]. constructor; [|by apply IHl].
    destruct (Hv w Ha1 Hb1) as [t ->]. done.
  - destruct (_ || _); [by eexists|]. apply all_equal_definite. revert m' Hb. induction IH as [|[k v] m Hv _ IHm]; intros [|[k' w] m'] Hb; try (by constructor).
    apply everywhere_entry in Ha as [Ha1 Ha2], Hb as [Hb1 Hb2]; [|done..]. constructor; [|by apply IHm].
    cbn [snd] in Hv. destruct (Hv w Ha1 Hb1) as [t ->]. done.
Qed.

(** Equivalent values that are definite are equal. *)
Lemma global_eq3 a b :
  definite a = true -> definite b = true -> paths_ok a = true -> paths_ok b = true -> global_cmp debug a b = Eq -> eq3 debug a b = Some true.
Proof.
  rewrite <-(eq3_decayed a b), <-(global_decayed a b). intros Ha Hb Pa Pb.
  assert (definite (decayed debug b) = true /\ paths_ok (decayed debug b) = true) as [Hb' Pb'] by (by destruct b).
  clear Hb Pb. revert Ha Pa Hb' Pb'. generalize (decayed debug b). clear b.
  induction a as [|x|n|x|s|l IH|m IH|n|r|ns rs|mv] using value_ind'; intros b Ha Pa Hb Pb; cbn [eq3 global_cmp].
  all: destruct b as [|y|n'|y|t|l'|m'|n'|r'|ns' rs'|mv']; cbn [decayed string_eq3 string_global rank]; try done.
  - intros ->%bool_cmp_eq. by rewrite Bool.eqb_reflx.
  - intros ->%Z.compare_eq_iff. by rewrite Z.eqb_refl.
  - intros H. f_equal. apply everywhere_self in Hb. apply f64_eqb_global; [apply f64_of_i64_nan|by apply negb_true_iff|done].
  - intros H. f_equal. apply everywhere_self in Ha. apply f64_eqb_global; [by apply negb_true_iff|apply f64_of_i64_nan|done].
  - intros H. f_equal. apply everywhere_self in Ha, Hb. apply f64_eqb_global; [by apply negb_true_iff..|done].
  - intros ->%bytes_cmp_eq. by rewrite bool_decide_true.
  - intros ->%bytes_cmp_eq. by rewrite bool_decide_true.
  - intros H. assert (length l = length l' /\ Forall (fun t => t = Some true)
      ((fix go a b := match a, b with x :: a, y :: b => eq3 debug x y :: go a b | _, _ => [] end) l l')) as [-> Hl].
    { revert l' Hb Pb H. induction IH as [|v l Hv _ IHl]; intros [|w l'] Hb Pb H; try done.
      apply everywhere_cons in Ha as [Ha1 Ha2], Hb as [Hb1 Hb2], Pa as [Pa1 Pa2], Pb as [Pb1 Pb2]; [|done..]. apply cmp_then_Eq in H as [H1 H2].
      destruct (IHl Ha2 Pa2 l' Hb2 Pb2 H2) as [E F]. split; [cbn [length]; by rewrite E|]. constructor; [by apply Hv|exact F]. }
    rewrite Nat.eqb_refl. cbn [negb]. by apply all_equal_true.
  - intros H. apply cmp_then_Eq in H as [Hk H]. apply ids_eq_cmp in Hk. assert (length m = length m') as Hlen by (apply (f_equal length) in Hk; by rewrite !length_map in Hk).
    rewrite Hlen, Nat.eqb_refl, bool_decide_true by done. cbn [negb orb]. apply all_equal_true. split; [done|]. clear Hk.
    revert m' Hb Pb H Hlen. induction IH as [|[k v] m Hv _ IHm]; intros [|[k' w] m'] Hb Pb H Hlen; try done.
    apply everywhere_entry in Ha as [Ha1 Ha2], Hb as [Hb1 Hb2], Pa as [Pa1 Pa2], Pb as [Pb1 Pb2]; [|done..]. apply cmp_then_Eq in H as [H1 H2].
    injection Hlen as Hlen. constructor; [by apply Hv|by apply IHm].
  - intros H%bytes_cmp_eq. by rewrite bool_decide_true.
  - intros H%bytes_cmp_eq. by rewrite bool_decide_true.
  - intros H%ids_eq_cmp. f_equal. apply everywhere_self in Pa, Pb. apply Nat.eqb_eq in Pa, Pb. by apply path_eq.
  - intros ->%bytes_cmp_eq. by rewrite bool_decide_true.
  - intros H%bytes_cmp_eq. by rewrite H, bool_decide_true.
Qed.
End agreement.

(** ** The global order, law by law *)

Section laws.
Variable debug : Value -> bytes.
Variables a b c : value.
Hypotheses (Ha : exact a = true) (Hb : exact b = true) (Hc : exact c = true).
Abbreviation gcmp := (global_cmp debug).

Lemma global_refl : gcmp a a = Eq.
Proof. rewrite global_cmp_keys by done. by apply zs_cmp_eq. Qed.
Lemma global_opp : gcmp b a = CompOpp (gcmp a b).
Proof. rewrite !(global_cmp_keys debug) by done. apply zs_cmp_sym. Qed.
Lemma global_Eq : gcmp a b = Eq -> gcmp a c = gcmp b c.
Proof. rewrite !(global_cmp_keys debug) by done. by intros ->%zs_cmp_eq. Qed.
Lemma global_Eq_r : gcmp b c = Eq -> gcmp a b = gcmp a c.
Proof. rewrite !(global_cmp_keys debug) by done. by intros ->%zs_cmp_eq. Qed.
Lemma global_trans_Lt : gcmp a b = Lt -> gcmp b c = Lt -> gcmp a c = Lt.
Proof. rewrite !(global_cmp_keys debug) by done. apply zs_cmp_trans. Qed.
End laws.

Lemma global_trans_Gt debug a b c : exact a = true -> exact b = true -> exact c = true ->
  global_cmp debug a b = Gt -> global_cmp debug b c = Gt -> global_cmp debug a c = Gt.
Proof.
  intros Ha Hb Hc H1 H2. rewrite (global_opp debug c a) by done. rewrite (global_trans_Lt debug c b a); [done..| |].
  - by rewrite (global_opp debug b c), H2.
  - by rewrite (global_opp debug a b), H1.
Qed.

Section properties.
Variable debug : Value -> bytes.

(** C22: the global order is a total preorder on values all of whose integers
    are below [2^53] in magnitude: it is reflexive, the order of two values is
    opposite to the order the other way around, and it is transitive;
    equivalent values compare alike to every value. *)
Theorem global_order_total a b c :
  exact a = true -> exact b = true -> exact c = true ->
  global_cmp debug a a = Eq /\ global_cmp debug b a = CompOpp (global_cmp debug a b) /\
  (global_cmp debug a b <> Gt -> global_cmp debug b c <> Gt -> global_cmp debug a c <> Gt) /\
  (global_cmp debug a b = Eq -> global_cmp debug a c = global_cmp debug b c).
Proof.
  intros Ha Hb Hc. split; [by apply global_refl|]. split; [by apply global_opp|]. split; [|by apply global_Eq].
  intros H1 H2. destruct (global_cmp debug a b) eqn:E1; [|clear H1|done].
  - by rewrite (global_Eq debug a b c).
  - destruct (global_cmp debug b c) eqn:E2; [| |done].
    + by rewrite <-(global_Eq_r debug a b c), E1.
    + by rewrite (global_trans_Lt debug a b c).
Qed.

(** C23: with larger integers the global order is not an order: [2^53 + 1] is
    equivalent to the float [2^53], and that to the integer [2^53], which is
    less than the first. *)
Theorem global_order_not_transitive : exists a b c,
  global_cmp debug a b <> Gt /\ global_cmp debug b c <> Gt /\ global_cmp debug a c = Gt.
Proof. exists (CInt (2 ^ 53 + 1)), (CFloat (f64_of_i64 (2 ^ 53))), (CInt (2 ^ 53)). by split_and!. Qed.

(** The ternary comparisons agree with the global order. Where the
    ordering comparison decides, the global order decides alike, on all values;
    values that are equal are equivalent; and on values without null or NaN
    inside equality always decides, and decides as equivalence does. *)
Lemma comparisons_agree a b :
  (forall c, cmp3 debug a b = Some c -> global_cmp debug a b = c) /\
  (paths_ok a = true -> paths_ok b = true -> eq3 debug a b = Some true -> equivalent debug a b = true) /\
  (paths_ok a = true -> paths_ok b = true -> definite a = true -> definite b = true -> eq3 debug a b = Some (equivalent debug a b)).
Proof.
  split; [apply cmp3_global|]. unfold equivalent. split.
  - intros Pa Pb H. by rewrite (eq3_global debug a b Pa Pb H).
  - intros Pa Pb Da Db. destruct (eq3_definite debug a b Da Db) as [t Et]. rewrite Et. f_equal. destruct t.
    + by rewrite (eq3_global debug a b Pa Pb Et).
    + destruct (global_cmp debug a b) eqn:E; [|done..]. rewrite (global_eq3 debug a b Da Db Pa Pb E) in Et. done.
Qed.
End properties.

(** [1 = 1.0], and the lists [[1, 2]] and [[1.0, 3]] compare by their second
    elements. *)
Lemma global_order_total_witness :
  let debug := fun _ => [] in
  let a := CList [CInt 1; CInt 2] in let b := CList [CFloat (f64_of_i64 1); CInt 3] in let c := CString (text "c") in
  global_cmp debug a a = Eq /\ global_cmp debug b a = CompOpp (global_cmp debug a b) /\
  (global_cmp debug a b <> Gt -> global_cmp debug b c <> Gt -> global_cmp debug a c <> Gt) /\
  (global_cmp debug a b = Eq -> global_cmp debug a c = global_cmp debug b c).
Proof. cbv zeta. apply global_order_total; vm_compute; reflexivity. Defined.
