(* ===== verification/CypherDistinct.v ===== *)
(** * Hash keys are equivalence classes

    On values whose integers are exact as floats, two values have one
    [distinct_key] exactly when the global order calls them equal, and keys end
    themselves, so the concatenated keys of a tuple are the key of the tuple:
    [DISTINCT] and grouping by hash are [DISTINCT] and grouping by
    equivalence. *)
From Stdlib Require Import SpecFloat.
From S2P Require Import Prelude Keys Model Canonical CypherValue CypherCompare.
Open Scope Z_scope.

(** ** Fixed-width fields *)

Lemma length_u64_be n : length (u64_be n) = 8%nat.
Proof. apply length_be_bytes. Qed.

Lemma u64_be_inj m n : u64_be m = u64_be n -> m mod 2 ^ 64 = n mod 2 ^ 64.
Proof.
  unfold u64_be. intros H. apply (f_equal be_Z) in H. rewrite !be_Z_be_bytes in H.
  rewrite !(Z.mod_small (_ mod _)) in H; [done|apply Z.mod_pos_bound; lia..].
Qed.

Definition u64_len {A : Type} (l : list A) : bool := Z.of_nat (length l) <? 2 ^ 64.

Lemma len_be_inj {A B : Type} (l : list A) (k : list B) r s :
  u64_len l = true -> u64_len k = true -> len_be l ++ r = len_be k ++ s -> length l = length k /\ r = s.
Proof.
  unfold u64_len, len_be. rewrite !Z.ltb_lt. intros Hl Hk E. apply app_inj_1 in E as [E ->]; [|by rewrite !length_u64_be].
  split; [|done]. apply u64_be_inj in E. rewrite !Z.mod_small in E by lia. lia.
Qed.

Lemma len_prefixed_inj a b r s :
  u64_len a = true -> u64_len b = true -> len_prefixed a ++ r = len_prefixed b ++ s -> a = b /\ r = s.
Proof.
  intros Ha Hb. unfold len_prefixed. rewrite <-!app_assoc. intros E. apply len_be_inj in E as [Hl E]; [|done..].
  by apply app_inj_1 in E.
Qed.

(** ** Numbers *)

(** The patterns of a binary64. *)
Definition f64_valid (x : spec_float) : bool :=
  match x with
  | S754_finite _ m e =>
    ((2 ^ 52 <=? Zpos m) && (Zpos m <? 2 ^ 53) && (-1074 <=? e) && (e <=? 971)) || ((Zpos m <? 2 ^ 52) && (e =? -1074))
  | _ => true
  end.

Lemma f64_valid_finite s m e : f64_valid (S754_finite s m e) = true ->
  (2 ^ 52 <= Zpos m < 2 ^ 53 /\ -1074 <= e <= 971) \/ (Zpos m < 2 ^ 52 /\ e = -1074).
Proof. cbn [f64_valid]. rewrite orb_true_iff, !andb_true_iff, !Z.leb_le, !Z.ltb_lt, Z.eqb_eq. lia. Qed.

(** The magnitude of an integral float fixes its exponent and significand. *)
Lemma integer_parts s m e n : f64_valid (S754_finite s m e) = true -> f64_integer (S754_finite s m e) = Some n ->
  n <> 0 /\ (n <? 0) = s /\ e = Z.log2 (Z.abs n) - 52 /\ (if 0 <=? e then Zpos m * 2 ^ e = Z.abs n else Zpos m = Z.abs n * 2 ^ (- e)).
Proof.
  intros Hv H. apply f64_valid_finite in Hv. cbn [f64_integer] in H.
  assert (exists k, 0 < k /\ n = (if s then - k else k) /\ (if 0 <=? e then Zpos m * 2 ^ e = k else Zpos m = k * 2 ^ (- e))) as (k & Hk & -> & Hm).
  { destruct (Z.leb_spec 0 e) as [He|He].
    - injection H as <-. exists (Zpos m * 2 ^ e). split; [apply Z.mul_pos_pos; [lia|apply Z.pow_pos_nonneg; lia]|]. by destruct s.
    - destruct (Z.eqb_spec (Zpos m mod 2 ^ (- e)) 0) as [Hz|]; [|done]. injection H as <-. exists (Zpos m / 2 ^ (- e)).
      assert (0 < 2 ^ (- e)) by (apply Z.pow_pos_nonneg; lia). pose proof (Z.div_mod (Zpos m) (2 ^ (- e)) ltac:(lia)) as Hd. rewrite Hz in Hd.
      split; [|split; [by destruct s|lia]]. nia. }
  assert (Z.abs (if s then - k else k) = k) as -> by (destruct s; lia).
  split; [destruct s; lia|]. split; [destruct s; [apply Z.ltb_lt|apply Z.ltb_ge]; lia|]. split; [|exact Hm].
  destruct (Z.leb_spec 0 e) as [He|He].
  - destruct Hv as [[Hm1 _]|[_ ->]]; [|lia]. rewrite <-Hm. rewrite Z.log2_mul_pow2 by lia.
    assert (Z.log2 (Zpos m) = 52) by (apply Z.log2_unique; lia). lia.
  - destruct Hv as [[Hm1 He1]|[Hm1 ->]].
    + assert (Z.log2 (Zpos m) = 52) as Hl by (apply Z.log2_unique; lia). rewrite Hm, Z.log2_mul_pow2 in Hl by lia. lia.
    + assert (2 ^ 1074 <= Zpos m) by (rewrite Hm; change (- (-1074)) with 1074; nia).
      assert (2 ^ 52 <= 2 ^ 1074) by (apply Z.pow_le_mono_r; lia). lia.
Qed.

(** Floats that are one integer are equal. *)
Lemma integer_unique x y n : f64_valid x = true -> f64_valid y = true -> f64_integer x = Some n -> f64_integer y = Some n -> float_key x = float_key y.
Proof.
  intros Hx Hy Ex Ey. destruct x as [sx|sx| |sx mx ex], y as [sy|sy| |sy my ey]; try done.
  - injection Ex as <-. destruct (integer_parts _ _ _ _ Hy Ey) as [[] _]. done.
  - injection Ey as <-. destruct (integer_parts _ _ _ _ Hx Ex) as [[] _]. done.
  - destruct (integer_parts _ _ _ _ Hx Ex) as (_ & <- & -> & Hm), (integer_parts _ _ _ _ Hy Ey) as (_ & <- & -> & Hm').
    assert (Zpos mx = Zpos my) as [= ->]; [|done]. destruct (Z.leb_spec 0 (Z.log2 (Z.abs n) - 52)) as [He|He]; [|congruence].
    assert (0 < 2 ^ (Z.log2 (Z.abs n) - 52)) by (apply Z.pow_pos_nonneg; lia). nia.
Qed.

(** Bits, of floats that are not NaN. *)
Definition magnitude_bits (x : spec_float) : Z :=
  match x with
  | S754_zero _ => 0
  | S754_infinity _ => 2047 * 2 ^ 52
  | S754_nan => 2047 * 2 ^ 52 + 2 ^ 51
  | S754_finite _ m e => if Zpos m <? 2 ^ 52 then Zpos m else (e + 1075) * 2 ^ 52 + (Zpos m - 2 ^ 52)
  end.
Definition f64_sign (x : spec_float) : bool := match x with S754_zero s | S754_infinity s | S754_finite s _ _ => s | S754_nan => false end.

Lemma f64_bits_parts x : f64_bits x = (if f64_sign x then 2 ^ 63 else 0) + magnitude_bits x.
Proof. destruct x as [s|s| |s m e]; try destruct s; done. Qed.

Lemma magnitude_range x : f64_valid x = true -> 0 <= magnitude_bits x < 2 ^ 63.
Proof.
  intros H. destruct x as [s|s| |s m e]; cbn [magnitude_bits]; [lia..|]. apply f64_valid_finite in H.
  destruct (Z.ltb_spec (Zpos m) (2 ^ 52)) as [|]; [lia|]. destruct H as [[H1 H2]|]; lia.
Qed.

Lemma f64_bits_inj x y : f64_valid x = true -> f64_valid y = true -> f64_nan x = false -> f64_nan y = false ->
  u64_be (f64_bits x) = u64_be (f64_bits y) -> x = y.
Proof.
  intros Vx Vy Nx Ny H%u64_be_inj. rewrite !f64_bits_parts in H. pose proof (magnitude_range x Vx). pose proof (magnitude_range y Vy).
  assert (f64_sign x = f64_sign y /\ magnitude_bits x = magnitude_bits y) as [Hs Hm].
  { rewrite !Z.mod_small in H by (destruct (f64_sign x), (f64_sign y); lia). destruct (f64_sign x), (f64_sign y); (split; [done || lia|lia]). }
  clear H. destruct x as [sx|sx| |sx mx ex], y as [sy|sy| |sy my ey]; try done; cbn [f64_sign magnitude_bits] in *; try (by rewrite Hs); try subst sy;
    try (apply f64_valid_finite in Vx); try (apply f64_valid_finite in Vy); repeat match goal with H : context [Zpos ?m <? ?n] |- _ => destruct (Z.ltb_spec (Zpos m) n) end; try lia.
  - assert (ex = ey) as -> by lia. by injection Hm as ->.
  - destruct Vx as [[V1 V2]|], Vy as [[V3 V4]|]; [|lia..]. assert (ex = ey) as -> by lia. assert (Zpos mx = Zpos my) as [= ->] by lia. done.
Qed.

Lemma i64_mod_inj m n : - 2 ^ 63 <= m < 2 ^ 63 -> - 2 ^ 63 <= n < 2 ^ 63 -> m mod 2 ^ 64 = n mod 2 ^ 64 -> m = n.
Proof. intros Hm Hn H. pose proof (Z.div_mod m (2 ^ 64) ltac:(lia)). pose proof (Z.div_mod n (2 ^ 64) ltac:(lia)). nia. Qed.

Lemma float_number_key_iff x y r s : f64_valid x = true -> f64_valid y = true ->
  float_number_key x ++ r = float_number_key y ++ s <-> f64_global x y = Eq /\ r = s.
Proof.
  intros Vx Vy. assert (f64_global x y = Eq <-> float_key x = float_key y) as ->.
  { pose proof (f64_global_key x y [] []) as H. rewrite !app_nil_r, cmp_then_Eq_r in H. rewrite <-H. apply zs_cmp_eq. }
  assert (forall x, f64_valid x = true -> (f64_nan x = true /\ float_number_key x = [x02]) \/
    (exists n, - 2 ^ 63 <= n < 2 ^ 63 /\ f64_integer x = Some n /\ float_number_key x = x00 :: u64_be n) \/
    (f64_nan x = false /\ (forall n, f64_integer x = Some n -> ~ - 2 ^ 63 <= n < 2 ^ 63) /\ float_number_key x = x01 :: u64_be (f64_bits x))) as Hform.
  { clear. intros x _. unfold float_number_key. destruct (f64_nan x) eqn:En; [by left|right]. destruct (f64_integer x) as [n|] eqn:Ei.
    - destruct ((- 2 ^ 63 <=? n) && (n <? 2 ^ 63)) eqn:Er.
      + left. exists n. rewrite andb_true_iff, Z.leb_le, Z.ltb_lt in Er. done.
      + right. split; [done|]. split; [|done]. intros n' [= <-] Hr. assert ((- 2 ^ 63 <=? n) && (n <? 2 ^ 63) = true); [|congruence].
        rewrite andb_true_iff, Z.leb_le, Z.ltb_lt. lia.
    - right. split; [done|]. split; [|done]. done. }
  split.
  - intros E. destruct (Hform x Vx) as [[Nx Kx]|[(n & Rx & Ix & Kx)|(Nx & Ix & Kx)]], (Hform y Vy) as [[Ny Ky]|[(n' & Ry & Iy & Ky)|(Ny & Iy & Ky)]];
      rewrite Kx, Ky in E; cbn [app] in E; apply cons_eq_inv in E as [Ht E]; try done.
    + by destruct x, y.
    + apply app_inj_1 in E as [E ->]; [|by rewrite !length_u64_be]. split; [|done]. apply u64_be_inj in E.
      assert (n = n') as <- by (by apply i64_mod_inj). by apply (integer_unique x y n).
    + apply app_inj_1 in E as [E ->]; [|by rewrite !length_u64_be]. split; [|done]. by rewrite (f64_bits_inj x y).
  - intros [E ->]. f_equal. destruct x as [sx|[]| |[] mx ex], y as [sy|[]| |[] my ey]; try done; injection E as E1 E2; subst; [|done].
    by assert (ex = ey) as -> by lia.
Qed.

(** An exact integer has the key of its float. *)
Lemma exact_int_float n : exact_int n = true -> f64_valid (f64_of_i64 n) = true /\ f64_integer (f64_of_i64 n) = Some n.
Proof.
  intros Hn. unfold f64_of_i64. destruct (Z.eqb_spec n 0) as [->|Hne]; [done|]. unfold exact_int in Hn. apply Z.ltb_lt in Hn.
  destruct (exact_magnitude (Z.abs n) ltac:(lia)) as (-> & Hl & Hp). set (l := Z.log2 (Z.abs n)) in *.
  assert (0 < 2 ^ (52 - l)) as Hs by (apply Z.pow_pos_nonneg; lia).
  assert (2 ^ 52 <= Z.abs n * 2 ^ (52 - l) < 2 ^ 53) as Hm.
  { assert (2 ^ 52 = 2 ^ l * 2 ^ (52 - l)) as -> by (rewrite <-Z.pow_add_r by lia; f_equal; lia).
    assert (2 ^ 53 = 2 ^ (l + 1) * 2 ^ (52 - l)) as -> by (rewrite <-Z.pow_add_r by lia; f_equal; lia). nia. }
  cbn [f64_valid f64_integer]. rewrite Z2Pos.id by nia. split.
  - rewrite orb_true_iff, !andb_true_iff, !Z.leb_le, !Z.ltb_lt. lia.
  - destruct (Z.leb_spec 0 (l - 52)) as [H0|H0].
    + assert (l = 52) as -> by lia. cbn [Z.sub Z.pow]. change (2 ^ (52 - 52)) with 1. destruct (Z.ltb_spec n 0); f_equal; lia.
    + replace (- (l - 52)) with (52 - l) by lia. rewrite Z.mod_mul, Z.div_mul by lia. destruct (Z.ltb_spec n 0); cbn [Z.eqb]; f_equal; lia.
Qed.

Lemma exact_int_key n : exact_int n = true -> x00 :: u64_be n = float_number_key (f64_of_i64 n).
Proof.
  intros Hn. destruct (exact_int_float n Hn) as [_ Hi]. unfold float_number_key. rewrite f64_of_i64_nan, Hi.
  unfold exact_int in Hn. apply Z.ltb_lt in Hn. by rewrite (proj2 (Z.leb_le _ _)), (proj2 (Z.ltb_lt _ _)) by lia.
Qed.

(** ** Values *)

Section distinct.
Variable debug : Value -> bytes.

(** The values whose integers are exact, whose floats are binary64 and whose
    lengths fit their field. *)
Definition keyable : value -> bool :=
  everywhere (fun v =>
    match v with
    | CInt n => exact_int n
    | CFloat x => f64_valid x
    | CString s => u64_len s
    | CList l => u64_len l
    | CMap m => u64_len m && forallb (fun e => u64_len e.1) m
    | CNode n => u64_len (nv_id n)
    | CRel r => u64_len (rv_id r)
    | CPath ns rs =>
      (length ns =? length rs + 1)%nat && u64_len ns && u64_len rs && forallb (fun n => u64_len (nv_id n)) ns && forallb (fun r => u64_len (rv_id r)) rs
    | CStored mv => u64_len (render_stored debug mv)
    | CNull | CBool _ => true
    end).

(** Keys that are the same exactly when the comparison is [Eq], and end
    themselves. *)
Definition keyed_by (c : comparison) (k l : bytes) : Prop := forall r s, k ++ r = l ++ s <-> c = Eq /\ r = s.

Lemma keyed_cons x c k l : keyed_by c k l -> keyed_by c (x :: k) (x :: l).
Proof. intros H r s. rewrite <-(H r s). cbn [app]. split; [by intros [_ ?]%cons_eq_inv|by intros ->]. Qed.
Lemma keyed_head x y c k l : x <> y -> c <> Eq -> keyed_by c (x :: k) (y :: l).
Proof. intros Hx Hc r s. split; [by intros [? _]%cons_eq_inv|by intros [? _]]. Qed.
Lemma keyed_app c d k l k' l' : keyed_by c k l -> (c = Eq -> keyed_by d k' l') -> keyed_by (cmp_then c d) (k ++ k') (l ++ l').
Proof.
  intros H H' r s. rewrite <-!app_assoc, (H _ _), cmp_then_Eq. split.
  - intros [Hc E]. apply (H' Hc) in E. naive_solver.
  - intros [[Hc Hd] E]. split; [done|]. by apply (H' Hc).
Qed.
Lemma keyed_nil : keyed_by Eq [] [].
Proof. intros r s. cbn [app]. naive_solver. Qed.
Lemma keyed_iff c d k l : (c = Eq <-> d = Eq) -> keyed_by c k l -> keyed_by d k l.
Proof. intros Hc H r s. by rewrite <-Hc, (H r s). Qed.

Lemma keyed_prefixed a b : u64_len a = true -> u64_len b = true -> keyed_by (bytes_cmp a b) (len_prefixed a) (len_prefixed b).
Proof. intros Ha Hb r s. rewrite bytes_cmp_eq. split; [by intros [-> ->]%len_prefixed_inj|by intros [-> ->]]. Qed.

Lemma keyed_u64 {A B : Type} (l : list A) (k : list B) : u64_len l = true -> u64_len k = true ->
  keyed_by (if (length l =? length k)%nat then Eq else Lt) (len_be l) (len_be k).
Proof.
  intros Hl Hk r s. destruct (Nat.eqb_spec (length l) (length k)) as [E|E].
  - unfold len_be. rewrite E. split; [|by intros [_ ->]]. by intros [_ ->]%app_inj_1.
  - split; [|by intros [? _]]. by intros [? _]%len_be_inj.
Qed.

Lemma keyed_float x y : f64_valid x = true -> f64_valid y = true -> keyed_by (f64_global x y) (float_number_key x) (float_number_key y).
Proof. intros Hx Hy r s. by apply float_number_key_iff. Qed.

(** A list and its length. *)
Lemma keyed_same_length {A : Type} (c : A -> A -> comparison) (f : A -> bytes) l k :
  length l = length k -> Forall (fun x => Forall (fun y => keyed_by (c x y) (f x) (f y)) k) l ->
  keyed_by (list_cmp c l k) (concat (List.map f l)) (concat (List.map f k)).
Proof.
  revert k. induction l as [|x l IH]; intros [|y k] Hl H; try done; [apply keyed_nil|]. injection Hl as Hl. cbn [list_cmp List.map concat].
  apply Forall_cons in H as [[Hxy _]%Forall_cons H]. apply keyed_app; [done|]. intros _. apply IH; [done|].
  eapply Forall_impl; [exact H|]. by intros z [_ ?]%Forall_cons.
Qed.

Lemma list_cmp_length {A : Type} (c : A -> A -> comparison) l k : list_cmp c l k = Eq -> length l = length k.
Proof.
  revert k. induction l as [|x l IH]; intros [|y k]; try done. cbn [list_cmp length]. intros [_ H]%cmp_then_Eq. by rewrite (IH k H).
Qed.

Lemma keyed_items {A : Type} (c : A -> A -> comparison) (f : A -> bytes) l k :
  u64_len l = true -> u64_len k = true -> Forall (fun x => Forall (fun y => keyed_by (c x y) (f x) (f y)) k) l ->
  keyed_by (list_cmp c l k) (len_be l ++ concat (List.map f l)) (len_be k ++ concat (List.map f k)).
Proof.
  intros Hl Hk H. eapply keyed_iff; [|apply keyed_app; [by apply keyed_u64|]].
  - rewrite cmp_then_Eq. split; [by intros [_ ?]|]. intros E. split; [|exact E]. by rewrite (list_cmp_length c l k E), Nat.eqb_refl.
  - destruct (Nat.eqb_spec (length l) (length k)); [|done]. intros _. by apply keyed_same_length.
Qed.

Lemma key_decayed v : distinct_key debug (decayed debug v) = distinct_key debug v.
Proof. by destruct v. Qed.
Lemma keyable_decayed v : keyable (decayed debug v) = keyable v.
Proof. by destruct v. Qed.

Lemma key_head v : exists k, distinct_key debug v = z2b (rank v) :: k.
Proof. destruct v; by eexists. Qed.

Lemma keyed_rank a b : rank a <> rank b -> keyed_by (rank a ?= rank b) (distinct_key debug a) (distinct_key debug b).
Proof.
  intros H. destruct (key_head a) as [k ->], (key_head b) as [l ->]. apply keyed_head; [|by rewrite Z.compare_eq_iff].
  intros E. apply H. by destruct a, b.
Qed.

Lemma everywhere_items p l : everywhere p (CList l) = true -> Forall (fun v => everywhere p v = true) l.
Proof.
  cbn [everywhere]. intros [_ H]%andb_prop. induction l as [|v l IH]; [done|]. apply andb_prop in H as [Hv H]. constructor; [done|by apply IH].
Qed.
Lemma everywhere_entries p m : everywhere p (CMap m) = true -> Forall (fun e => everywhere p e.2 = true) m.
Proof.
  cbn [everywhere]. intros [_ H]%andb_prop. induction m as [|[k v] m IH]; [done|]. apply andb_prop in H as [Hv H]. constructor; [done|by apply IH].
Qed.

(** Containers *)
Lemma list_keyed l k : u64_len l = true -> u64_len k = true ->
  (forall v w, v ∈ l -> w ∈ k -> keyed_by (global_cmp debug v w) (distinct_key debug v) (distinct_key debug w)) ->
  keyed_by (global_cmp debug (CList l) (CList k)) (len_be l ++ (fix go l := match l with [] => [] | v :: l => distinct_key debug v ++ go l end) l)
    (len_be k ++ (fix go l := match l with [] => [] | v :: l => distinct_key debug v ++ go l end) k).
Proof.
  intros Hl Hk H. assert (global_cmp debug (CList l) (CList k) = list_cmp (global_cmp debug) l k)  as -> by done.
  assert (forall l, (fix go l := match l with [] => [] | v :: l => distinct_key debug v ++ go l end) l = concat (List.map (distinct_key debug) l)) as E.
  { clear. induction l as [|v l IH]; [done|]. cbn [List.map concat]. by rewrite IH. }
  rewrite !E. apply keyed_items; [done..|]. apply Forall_forall. intros v Hv. apply Forall_forall. intros w Hw. by apply H.
Qed.

Definition entry_cmp (e f : bytes * value) : comparison := cmp_then (bytes_cmp e.1 f.1) (global_cmp debug e.2 f.2).

Lemma global_map_Eq m k : global_cmp debug (CMap m) (CMap k) = Eq <-> list_cmp entry_cmp m k = Eq.
Proof.
  cbn [global_cmp decayed]. revert k. induction m as [|[x v] m IH]; intros [|[y w] k]; try done.
  cbn [list_cmp List.map fst]. rewrite !cmp_then_Eq. specialize (IH k). rewrite cmp_then_Eq in IH. unfold entry_cmp. cbn [fst snd]. rewrite cmp_then_Eq. tauto.
Qed.

Lemma map_keyed m k :
  u64_len m && forallb (fun e => u64_len e.1) m = true -> u64_len k && forallb (fun e => u64_len e.1) k = true ->
  (forall e f, e ∈ m -> f ∈ k -> keyed_by (global_cmp debug e.2 f.2) (distinct_key debug e.2) (distinct_key debug f.2)) ->
  keyed_by (global_cmp debug (CMap m) (CMap k))
    (len_be m ++ (fix go m := match m with [] => [] | (k, v) :: m => len_prefixed k ++ distinct_key debug v ++ go m end) m)
    (len_be k ++ (fix go m := match m with [] => [] | (k, v) :: m => len_prefixed k ++ distinct_key debug v ++ go m end) k).
Proof.
  intros [Hm Fm]%andb_prop [Hk Fk]%andb_prop H. apply (keyed_iff (list_cmp entry_cmp m k)); [by rewrite global_map_Eq|].
  assert (forall m, (fix go m := match m with [] => [] | (k, v) :: m => len_prefixed k ++ distinct_key debug v ++ go m end) m =
    concat (List.map (fun e => len_prefixed e.1 ++ distinct_key debug e.2) m)) as E.
  { clear. induction m as [|[x v] m IH]; [done|]. cbn [List.map concat fst snd]. by rewrite IH, app_assoc. }
  rewrite !E. rewrite forallb_forall in Fm, Fk. setoid_rewrite <-list_elem_of_In in Fm. setoid_rewrite <-list_elem_of_In in Fk. apply keyed_items; [done..|].
  apply Forall_forall. intros e He. apply Forall_forall. intros f Hf. apply keyed_app; [apply keyed_prefixed; [by apply (Fm e He)|by apply (Fk f Hf)]|]. intros _. by apply H.
Qed.

Lemma prefixed_keyed {A : Type} (id : A -> bytes) l k : length l = length k -> forallb (fun x => u64_len (id x)) l = true -> forallb (fun x => u64_len (id x)) k = true ->
  keyed_by (list_cmp (fun x y => bytes_cmp (id x) (id y)) l k) (concat (List.map (fun x => len_prefixed (id x)) l)) (concat (List.map (fun x => len_prefixed (id x)) k)).
Proof.
  intros Hl Fl Fk. rewrite forallb_forall in Fl, Fk. setoid_rewrite <-list_elem_of_In in Fl. setoid_rewrite <-list_elem_of_In in Fk. apply keyed_same_length; [done|].
  apply Forall_forall. intros e He. apply Forall_forall. intros f Hf. apply keyed_prefixed; [by apply (Fl e He)|by apply (Fk f Hf)].
Qed.

Lemma list_cmp_ids {A : Type} (id : A -> bytes) l k : list_cmp (fun x y => bytes_cmp (id x) (id y)) l k = Eq <-> List.map id l = List.map id k.
Proof.
  revert k. induction l as [|x l IH]; intros [|y k]; try done. cbn [list_cmp List.map]. rewrite cmp_then_Eq, bytes_cmp_eq, IH.
  split; [by intros [-> ->]|by intros [-> ->]%cons_eq_inv].
Qed.

Lemma path_keyed ns rs ns' rs' : keyable (CPath ns rs) = true -> keyable (CPath ns' rs') = true ->
  keyed_by (list_cmp bytes_cmp (path_ids ns rs) (path_ids ns' rs'))
    (len_be ns ++ len_be rs ++ concat (List.map (fun n => len_prefixed (nv_id n)) ns) ++ concat (List.map (fun r => len_prefixed (rv_id r)) rs))
    (len_be ns' ++ len_be rs' ++ concat (List.map (fun n => len_prefixed (nv_id n)) ns') ++ concat (List.map (fun r => len_prefixed (rv_id r)) rs')).
Proof.
  intros H%everywhere_self H'%everywhere_self. cbn beta iota in H, H'. rewrite !andb_true_iff, Nat.eqb_eq in H, H'.
  destruct H as ((((Hl & Hn) & Hr) & Fn) & Fr), H' as ((((Hl' & Hn') & Hr') & Fn') & Fr').
  eapply keyed_iff; [|apply keyed_app; [by apply keyed_u64|intros E; apply keyed_app; [by apply keyed_u64|intros E'; apply keyed_app; [apply prefixed_keyed; [|done..]|intros _; apply prefixed_keyed; [|done..]]]]].
  - rewrite ids_eq_cmp, !cmp_then_Eq, (list_cmp_ids nv_id), (list_cmp_ids rv_id). rewrite <-(path_eq ns ns' rs rs') by done. rewrite !andb_true_iff, Nat.eqb_eq. split.
    + intros (E & E' & En & Er). destruct (Nat.eqb_spec (length ns) (length ns')) as [e|]; [|done]. rewrite En, Er.
      split; [split; [done|]|]; by apply zip_ids_eq.
    + intros [[El En] Er]. apply zip_ids_eq in En; [|by rewrite !length_map]. apply zip_ids_eq in Er; [|rewrite !length_map; lia].
      rewrite El, Nat.eqb_refl. assert (length rs = length rs') as -> by lia. by rewrite Nat.eqb_refl.
  - destruct (Nat.eqb_spec (length ns) (length ns')); [done|done].
  - destruct (Nat.eqb_spec (length rs) (length rs')); [done|done].
Qed.

(** A key is its value, up to equivalence. *)
Lemma distinct_keyed a b : keyable a = true -> keyable b = true -> keyed_by (global_cmp debug a b) (distinct_key debug a) (distinct_key debug b).
Proof.
  rewrite <-(keyable_decayed b), <-(key_decayed b), <-(global_decayed debug a b). generalize (decayed debug b) as b'. clear b. revert a.
  assert (forall s b, u64_len s = true -> keyable b = true -> keyed_by (string_global s (decayed debug b)) (x05 :: len_prefixed s) (distinct_key debug b)) as Hstr.
  { intros s b Hs Hb. apply everywhere_self in Hb. destruct b; try (by apply keyed_head); by apply keyed_cons, keyed_prefixed. }
  intros a. induction a as [|x|n|x|s|l IH|m IH|n|r|ns rs|mv] using value_ind'; intros b Ha Hb; pose proof Ha as Pa; apply everywhere_self in Pa; cbn beta iota in Pa.
  all: try (by apply Hstr).
  all: rewrite <-(keyable_decayed b) in Hb; rewrite <-(key_decayed b); cbn [global_cmp].
  all: assert (forall mv, decayed debug b <> CStored mv) as Hd by (by destruct b).
  all: destruct (decayed debug b) as [|y|n'|y|t|l'|m'|n'|r'|ns' rs'|mv'] eqn:Eb; try (by destruct (Hd mv')).
  all: try (by apply keyed_rank).
  all: pose proof Hb as Pb; apply everywhere_self in Pb; cbn beta iota in Pb; cbn [distinct_key]; apply keyed_cons.
  all: try match goal with |- keyed_by _ (len_prefixed _) _ => by apply keyed_prefixed end.
  all: repeat match goal with H : exact_int ?k = true |- context [x00 :: u64_be ?k] => rewrite (exact_int_key k H) end.
  all: try (apply keyed_float; done || by apply exact_int_float).
  - apply keyed_nil.
  - destruct x, y; (apply keyed_cons, keyed_nil) || (by apply keyed_head).
  - rewrite exact_compare by done. apply keyed_float; by apply exact_int_float.
  - apply list_keyed; [done..|]. intros v w Hv Hw. apply everywhere_items in Ha, Hb. rewrite Forall_forall in IH, Ha, Hb.
    apply IH; [done|by apply Ha|by apply Hb].
  - apply map_keyed; [done..|]. intros v w Hv Hw. apply everywhere_entries in Ha, Hb. rewrite Forall_forall in IH, Ha, Hb.
    apply IH; [done|by apply Ha|by apply Hb].
  - by apply path_keyed.
Qed.

(** The key of a tuple. *)
Definition tuple_key (tuple : list value) : bytes := concat (List.map (distinct_key debug) tuple).

Lemma tuple_keyed a b : length a = length b -> Forall (fun v => keyable v = true) a -> Forall (fun v => keyable v = true) b ->
  keyed_by (list_cmp (global_cmp debug) a b) (tuple_key a) (tuple_key b).
Proof.
  intros Hl Ha Hb. rewrite Forall_forall in Ha, Hb. apply keyed_same_length; [done|].
  apply Forall_forall. intros v Hv. apply Forall_forall. intros w Hw. apply distinct_keyed; [by apply (Ha v Hv)|by apply (Hb w Hw)].
Qed.

Lemma list_cmp_Forall2 {A : Type} (c : A -> A -> comparison) l k : list_cmp c l k = Eq <-> Forall2 (fun x y => c x y = Eq) l k.
Proof.
  revert k. induction l as [|x l IH]; intros [|y k]; cbn [list_cmp].
  - split; [constructor|done].
  - split; [done|inversion 1].
  - split; [done|inversion 1].
  - by rewrite cmp_then_Eq, IH, Forall2_cons.
Qed.

Lemma equivalent_Eq a b : equivalent debug a b = true <-> global_cmp debug a b = Eq.
Proof. unfold equivalent. by destruct (global_cmp debug a b). Qed.

Lemma tuple_key_iff a b : length a = length b -> Forall (fun v => keyable v = true) a -> Forall (fun v => keyable v = true) b ->
  tuple_key a = tuple_key b <-> Forall2 (fun v w => equivalent debug v w = true) a b.
Proof.
  intros Hl Ha Hb. pose proof (tuple_keyed a b Hl Ha Hb [] []) as H. rewrite !app_nil_r in H. rewrite H, list_cmp_Forall2.
  split; [intros [F _]|intros F; split; [|done]]; (eapply Forall2_impl; [exact F|]); intros v w; apply equivalent_Eq.
Qed.

(** A keyable value is exact, and its paths are well formed. *)
Lemma everywhere_impl (p q : value -> bool) v : (forall v, p v = true -> q v = true) -> everywhere p v = true -> everywhere q v = true.
Proof.
  intros Hpq. induction v as [|x|n|x|s|l IH|m IH|n|r|ns rs|mv] using value_ind'; cbn [everywhere]; rewrite ?andb_true_r; try (by apply Hpq).
  - intros [H Hl]%andb_prop. apply andb_true_iff. split; [by apply Hpq|]. clear H. induction IH as [|v l Hv _ IHl]; [done|].
    apply andb_prop in Hl as [H1 H2]. apply andb_true_iff. split; [by apply Hv|by apply IHl].
  - intros [H Hl]%andb_prop. apply andb_true_iff. split; [by apply Hpq|]. clear H. induction IH as [|[k v] l Hv _ IHl]; [done|].
    apply andb_prop in Hl as [H1 H2]. apply andb_true_iff. split; [by apply Hv|by apply IHl].
Qed.

Lemma keyable_exact v : keyable v = true -> exact v = true.
Proof. apply everywhere_impl. by intros []. Qed.
End distinct.
