(* ===== verification/CypherExpr.v ===== *)
(** * The bound form of a query (acetone-cypher/src/bind/bound.rs, ast.rs)

    Expressions and patterns after names are resolved, the rows they are
    evaluated over and the errors of execution.  The executor finds the
    accumulated value of an aggregate by the address of its node in the
    expression tree; here an aggregate node carries that address. *)
From Stdlib Require Import SpecFloat.
From S2P Require Import Prelude Keys Model Canonical Governor CypherValue.
Open Scope Z_scope.

(** ** Spans and errors *)

Record Span : Type := mkSpan { sp_start : Z; sp_end : Z }.

Inductive ExecError : Type :=
| XType (message : bytes) (span : Span)
| XOverflow (span : Span)
| XDivisionByZero (span : Span)
| XMissingParameter (name : bytes) (span : Span)
| XUnsupported (feature : string) (span : Span)
| XInvalidArgument (message : bytes) (span : Span)
| XResourceExceeded (limit : ResourceLimit) (span : Span)
(** A model that ran out of fuel, or code the source declares unreachable. *)
| XFuel.

(** [format!("..., got {}", value.type_name())] *)
Definition got (prefix : string) (v : value) : bytes := text prefix ++ text (type_name v).

(** ** Syntax *)

Inductive Literal : Type := LitNull | LitBoolean (b : bool) | LitInteger (n : Z) | LitFloat (x : spec_float) | LitString (s : bytes).

Inductive UnaryOp : Type := OpNot | OpMinus | OpPlus.

Inductive BinaryOp : Type :=
| OpOr | OpXor | OpAnd | OpEq | OpNe | OpLt | OpLe | OpGt | OpGe | OpAdd | OpSub | OpMul | OpDiv | OpMod | OpPow
| OpIn | OpStartsWith | OpEndsWith | OpContains | OpRegexMatch.

Inductive QuantifierKind : Type := QAll | QAny | QNone | QSingle.

Inductive Direction : Type := DOut | DIn | DUndirected.
#[export] Instance Direction_eq_dec : EqDecision Direction.
Proof. solve_decision. Defined.

Record VarLength : Type := mkVarLength { vl_min : option Z; vl_max : option Z }.

Abbreviation VarId := Z (only parsing).

Inductive RangeBound : Type := BoundLiteral (l : Literal) | BoundParameter (name : bytes).

Inductive IndexHint : Type :=
| HintKeySeek (label : bytes) (key : list bytes) (values : option (list RangeBound))
| HintIndexSeek (name label : bytes) (properties : list bytes) (values : option (list RangeBound))
| HintIndexRange (name label property : bytes) (lower upper : option (RangeBound * bool)).

Record BoundNodePatternOf (X : Type) : Type := mkNodePattern {
  np_var : option VarId; np_labels : list bytes; np_properties : option X; np_mint_surrogate : bool; np_index_hints : list IndexHint; np_span : Span }.
Record BoundRelPatternOf (X : Type) : Type := mkRelPattern {
  rp_var : option VarId; rp_types : list bytes; rp_direction : Direction; rp_var_length : option VarLength; rp_properties : option X; rp_span : Span }.
Record BoundPathPatternOf (X : Type) : Type := mkPathPattern {
  pp_path_var : option VarId; pp_start : BoundNodePatternOf X; pp_steps : list (BoundRelPatternOf X * BoundNodePatternOf X); pp_span : Span }.
Arguments mkNodePattern {X}. Arguments np_var {X}. Arguments np_labels {X}. Arguments np_properties {X}.
Arguments np_mint_surrogate {X}. Arguments np_index_hints {X}. Arguments np_span {X}.
Arguments mkRelPattern {X}. Arguments rp_var {X}. Arguments rp_types {X}. Arguments rp_direction {X}. Arguments rp_var_length {X}.
Arguments rp_properties {X}. Arguments rp_span {X}.
Arguments mkPathPattern {X}. Arguments pp_path_var {X}. Arguments pp_start {X}. Arguments pp_steps {X}. Arguments pp_span {X}.

Inductive BoundExpr : Type :=
| ELiteral (l : Literal) (span : Span)
| EParameter (name : bytes) (span : Span)
| EVariable (id : VarId) (span : Span)
| EProperty (base : BoundExpr) (key : bytes) (span : Span)
| EUnary (op : UnaryOp) (operand : BoundExpr) (span : Span)
| EBinary (op : BinaryOp) (lhs rhs : BoundExpr) (span : Span)
| EIsNull (operand : BoundExpr) (negated : bool) (span : Span)
| EHasLabels (subject : BoundExpr) (labels : list bytes) (span : Span)
| EPatternComprehension (pattern : BoundPathPatternOf BoundExpr) (where_clause : option BoundExpr) (map : BoundExpr) (span : Span)
| EFunction (name : string) (args : list BoundExpr) (span : Span)
| EAggregate (identity : Z) (name : string) (distinct : bool) (arg : option BoundExpr) (span : Span)
| ECase (operand : option BoundExpr) (whens : list (BoundExpr * BoundExpr)) (else_expr : option BoundExpr) (span : Span)
| EListLiteral (items : list BoundExpr) (span : Span)
| EListComprehension (variable : VarId) (list : BoundExpr) (where_clause map : option BoundExpr) (span : Span)
| EQuantifier (kind : QuantifierKind) (variable : VarId) (list predicate : BoundExpr) (span : Span)
| EReduce (accumulator : VarId) (init : BoundExpr) (variable : VarId) (list expr : BoundExpr) (span : Span)
| EMapLiteral (entries : list (bytes * BoundExpr)) (span : Span)
| EIndex (base index : BoundExpr) (span : Span)
| ESlice (base : BoundExpr) (from to : option BoundExpr) (span : Span)
| EPatternPredicate (pattern : BoundPathPatternOf BoundExpr) (span : Span).

Abbreviation BoundNodePattern := (BoundNodePatternOf BoundExpr).
Abbreviation BoundRelPattern := (BoundRelPatternOf BoundExpr).
Abbreviation BoundPathPattern := (BoundPathPatternOf BoundExpr).

Definition expr_span (e : BoundExpr) : Span :=
  match e with
  | ELiteral _ s | EParameter _ s | EVariable _ s | EProperty _ _ s | EUnary _ _ s | EBinary _ _ _ s | EIsNull _ _ s | EHasLabels _ _ s
  | EPatternComprehension _ _ _ s | EFunction _ _ s | EAggregate _ _ _ _ s | ECase _ _ _ s | EListLiteral _ s | EListComprehension _ _ _ _ s
  | EQuantifier _ _ _ _ s | EReduce _ _ _ _ _ s | EMapLiteral _ s | EIndex _ _ s | ESlice _ _ _ s | EPatternPredicate _ s => s
  end.

Record BoundProjectionItem : Type := mkItem { pi_expr : BoundExpr; pi_name : bytes; pi_var : VarId }.
Record BoundProjection : Type := mkProjection {
  pr_distinct : bool; pr_items : list BoundProjectionItem; pr_order_by : list (BoundExpr * bool); pr_skip : option BoundExpr;
  pr_limit : option BoundExpr; pr_where : option BoundExpr; pr_grouping_items : list nat; pr_aggregating : bool }.

(** ** Clauses *)

Inductive BoundSetItem : Type :=
| SetProperty (target : VarId) (key : bytes) (v : BoundExpr) (span : Span)
| SetReplace (target : VarId) (v : BoundExpr) (span : Span)
| SetMerge (target : VarId) (v : BoundExpr) (span : Span)
| SetAddLabels (target : VarId) (labels : list bytes) (span : Span).

Inductive BoundRemoveItem : Type :=
| RemoveProperty (target : VarId) (key : bytes) (span : Span)
| RemoveLabels (target : VarId) (labels : list bytes) (span : Span).

Inductive AtRef : Type := AtRefspec (refspec : bytes) | AtParameter (name : bytes) (span : Span).

Record ProcedureDef : Type := mkProcedure { pd_name : bytes; pd_yields : list bytes; pd_identifier_yields : list bytes }.
Record BoundYield : Type := mkYield { by_column : bytes; by_name : bytes; by_var : VarId }.

Inductive BoundClause : Type :=
| ClMatch (optional : bool) (patterns : list BoundPathPattern) (at_ref : option AtRef) (where_clause : option BoundExpr) (span : Span)
| ClUnwind (expr : BoundExpr) (alias : VarId) (span : Span)
| ClWith (p : BoundProjection)
| ClReturn (p : BoundProjection)
| ClCreate (patterns : list BoundPathPattern)
| ClSet (items : list BoundSetItem)
| ClRemove (items : list BoundRemoveItem)
| ClDelete (detach : bool) (targets : list BoundExpr)
| ClMerge (pattern : BoundPathPattern) (on_create on_match : list BoundSetItem)
| ClCall (procedure : ProcedureDef) (args : list BoundExpr) (yields : list BoundYield) (where_clause : option BoundExpr) (span : Span).

(** ** Rows *)

Abbreviation Row := (gmap Z value).

Definition row_get (row : Row) (var : VarId) : value := match row !! var with Some v => v | None => CNull end.
Definition row_contains (row : Row) (var : VarId) : bool := bool_decide (is_Some (row !! var)).
Definition row_set (row : Row) (var : VarId) (v : value) : Row := <[var := v]> row.

Definition literal_value (l : Literal) : value :=
  match l with
  | LitNull => CNull | LitBoolean b => CBool b | LitInteger n => CInt n | LitFloat x => CFloat x | LitString s => CString s
  end.

(** ** Maps of properties, in key order *)

Fixpoint map_get {V : Type} (m : list (bytes * V)) (key : bytes) : option V :=
  match m with
  | [] => None
  | (k, v) :: m => if bool_decide (k = key) then Some v else map_get m key
  end.

Fixpoint map_insert {V : Type} (m : list (bytes * V)) (key : bytes) (v : V) : list (bytes * V) :=
  match m with
  | [] => [(key, v)]
  | (k, w) :: rest =>
    match bytes_cmp key k with
    | Lt => (key, v) :: m
    | Eq => (key, v) :: rest
    | Gt => (k, w) :: map_insert rest key v
    end
  end.

Definition map_remove {V : Type} (m : list (bytes * V)) (key : bytes) : list (bytes * V) :=
  List.filter (fun e => negb (bool_decide (e.1 = key))) m.

(** ** Loops *)

Fixpoint st_fold {S E A B : Type} (f : B -> A -> st S E B) (l : list A) (b : B) : st S E B :=
  match l with
  | [] => st_ret b
  | x :: l => let! b' := f b x in st_fold f l b'
  end.

Definition st_fail {S E A : Type} (e : E) : st S E A := fun s => (Err e, s).
Definition st_of {S E A : Type} (r : result E A) : st S E A := fun s => (r, s).
