(* ===== verification/CypherSource.v ===== *)
(** * Graphs a query reads and writes (acetone-cypher/src/exec/source.rs, write.rs)

    A source of graph data is the record [GraphSource] of the trait's methods.
    [MemoryGraph] is the in-memory graph; [MutableGraph] is a source with an
    overlay of pending writes, and a source itself.  The overlay's hash maps
    are finite maps, so the order in which the code iterates over one is the
    order of [map_to_list] here. *)
From Stdlib Require Import SpecFloat.
From S2P Require Import Prelude Keys Model Canonical CypherValue CypherExpr.
Open Scope Z_scope.

(** ** Sources *)

Inductive SeekProbe : Type :=
| ProbeKey (label : bytes) (values : list value)
| ProbeIndex (name : bytes) (properties : list bytes) (values : list value)
| ProbeRange (name property : bytes) (lower upper : option (value * bool)).

Record GraphSource : Type := mkSource {
  all_nodes : list NodeValue;
  nodes_by_labels : list bytes -> list NodeValue;
  nodes_by_index : bytes -> list bytes -> list value -> option (list NodeValue);
  nodes_by_index_range : bytes -> bytes -> option (value * bool) -> option (value * bool) -> option (list NodeValue);
  nodes_by_key : bytes -> list value -> option (list NodeValue);
  expand : bytes -> Direction -> list bytes -> list (RelValue * NodeValue);
  node : bytes -> option NodeValue;
  seek_count : SeekProbe -> option Z }.

Definition contains (l : list bytes) (x : bytes) : bool := bool_decide (x ∈ l).

(** [labels.iter().all(|l| node.labels.contains(l))] *)
Definition has_labels (labels : list bytes) (n : NodeValue) : bool := forallb (contains (nv_labels n)) labels.

(** The methods the trait has a body for. *)
Definition default_nodes_by_labels (nodes : list NodeValue) (labels : list bytes) : list NodeValue := List.filter (has_labels labels) nodes.

Definition plain_source (nodes : list NodeValue) (expand : bytes -> Direction -> list bytes -> list (RelValue * NodeValue))
    (node : bytes -> option NodeValue) : GraphSource :=
  mkSource nodes (default_nodes_by_labels nodes) (fun _ _ _ => None) (fun _ _ _ _ => None) (fun _ _ => None) expand node (fun _ => None).

Definition EmptyGraph : GraphSource := plain_source [] (fun _ _ _ => []) (fun _ => None).

(** ** The in-memory graph *)

Record MemoryGraph : Type := mkMemory { mg_nodes : list NodeValue; mg_rels : list RelValue; mg_next_id : Z }.

Definition memory_node (g : MemoryGraph) (id : bytes) : option NodeValue := List.find (fun n => bool_decide (nv_id n = id)) (mg_nodes g).

(** The other end of a relationship walked from a node. *)
Definition neighbour_of (node : bytes) (direction : Direction) (r : RelValue) : option bytes :=
  match direction with
  | DOut => if bool_decide (rv_start r = node) then Some (rv_end r) else None
  | DIn => if bool_decide (rv_end r = node) then Some (rv_start r) else None
  | DUndirected =>
    if bool_decide (rv_start r = node) then Some (rv_end r)
    else if bool_decide (rv_end r = node) then Some (rv_start r) else None
  end.

Definition type_wanted (types : list bytes) (r : RelValue) : bool := match types with [] => true | _ => contains types (rv_type r) end.

(** One turn of the loops over relationships in [expand]. *)
Definition expand_rel (lookup : bytes -> option NodeValue) (node : bytes) (direction : Direction) (types : list bytes) (r : RelValue) : list (RelValue * NodeValue) :=
  if negb (type_wanted types r) then []
  else
    match neighbour_of node direction r with
    | Some id => match lookup id with Some n => [(r, n)] | None => [] end
    | None => []
    end.

Definition memory_expand (g : MemoryGraph) (node : bytes) (direction : Direction) (types : list bytes) : list (RelValue * NodeValue) :=
  concat (List.map (expand_rel (memory_node g) node direction types) (mg_rels g)).

Definition memory_source (g : MemoryGraph) : GraphSource := plain_source (mg_nodes g) (memory_expand g) (memory_node g).

(** ** Writes *)

Definition OVERLAY_ID_TAG : byte := xff.

Inductive Mutation : Type :=
| MutCreateNode (n : NodeValue)
| MutCreateRel (r : RelValue)
| MutSetNodeProperty (id key : bytes) (v : option value)
| MutReplaceNodeProperties (id : bytes) (properties : list (bytes * value))
| MutAddNodeLabel (id label : bytes)
| MutRemoveNodeLabel (id label : bytes)
| MutSetRelProperty (id key : bytes) (v : option value)
| MutReplaceRelProperties (id : bytes) (properties : list (bytes * value))
| MutDeleteNode (id : bytes)
| MutDeleteRel (id : bytes).

Record WriteSummary : Type := mkSummary {
  nodes_created : Z; relationships_created : Z; properties_set : Z; labels_added : Z; labels_removed : Z; nodes_deleted : Z; relationships_deleted : Z }.
Definition empty_summary : WriteSummary := mkSummary 0 0 0 0 0 0 0.

Record WriteChanges : Type := mkChanges {
  upserted_nodes : list NodeValue; wc_deleted_nodes : list bytes; wc_created_rels : list RelValue;
  modified_rels : list RelValue; wc_deleted_rels : list RelValue }.

Record MutableGraph : Type := mkMutable {
  base : GraphSource; created_nodes : list NodeValue; created_rels : list RelValue;
  node_overrides : gmap bytes NodeValue; rel_overrides : gmap bytes RelValue;
  deleted_nodes : gset bytes; deleted_rels : gmap bytes RelValue;
  log : list Mutation; summary : WriteSummary; next_id : Z }.

Definition mutable_new (base : GraphSource) : MutableGraph := mkMutable base [] [] ∅ ∅ ∅ ∅ [] empty_summary 0.

Definition overlay_id (n : Z) : bytes := OVERLAY_ID_TAG :: u64_be n.

Definition create_node (m : MutableGraph) (labels : list bytes) (properties : list (bytes * value)) : NodeValue * MutableGraph :=
  let n := mkNodeValue (overlay_id (next_id m)) labels properties in
  let s := summary m in
  (n, mkMutable (base m) (created_nodes m ++ [n]) (created_rels m) (node_overrides m) (rel_overrides m) (deleted_nodes m) (deleted_rels m)
    (log m ++ [MutCreateNode n])
    (mkSummary (nodes_created s + 1) (relationships_created s) (properties_set s) (labels_added s) (labels_removed s) (nodes_deleted s) (relationships_deleted s))
    (next_id m + 1)).

Definition create_rel (m : MutableGraph) (start rel_type finish : bytes) (properties : list (bytes * value)) : RelValue * MutableGraph :=
  let r := mkRelValue (overlay_id (next_id m)) rel_type start finish properties in
  let s := summary m in
  (r, mkMutable (base m) (created_nodes m) (created_rels m ++ [r]) (node_overrides m) (rel_overrides m) (deleted_nodes m) (deleted_rels m)
    (log m ++ [MutCreateRel r])
    (mkSummary (nodes_created s) (relationships_created s + 1) (properties_set s) (labels_added s) (labels_removed s) (nodes_deleted s) (relationships_deleted s))
    (next_id m + 1)).

Definition or_else {A : Type} (a b : option A) : option A := match a with Some _ => a | None => b end.

Definition current_node (m : MutableGraph) (id : bytes) : option NodeValue :=
  if bool_decide (id ∈ deleted_nodes m) then None
  else or_else (node_overrides m !! id) (or_else (List.find (fun n => bool_decide (nv_id n = id)) (created_nodes m)) (node (base m) id)).

Definition current_rel (m : MutableGraph) (r : RelValue) : RelValue :=
  match rel_overrides m !! rv_id r with
  | Some r' => r'
  | None => match List.find (fun c => bool_decide (rv_id c = rv_id r)) (created_rels m) with Some c => c | None => r end
  end.

(** [store_node] and [store_rel] with the log entry and the count of their callers. *)
Definition store_node (m : MutableGraph) (n : NodeValue) (mutation : Mutation) (count : WriteSummary -> WriteSummary) : MutableGraph :=
  mkMutable (base m) (created_nodes m) (created_rels m) (<[nv_id n := n]> (node_overrides m)) (rel_overrides m) (deleted_nodes m) (deleted_rels m)
    (log m ++ [mutation]) (count (summary m)) (next_id m).
Definition store_rel (m : MutableGraph) (r : RelValue) (mutation : Mutation) (count : WriteSummary -> WriteSummary) : MutableGraph :=
  mkMutable (base m) (created_nodes m) (created_rels m) (node_overrides m) (<[rv_id r := r]> (rel_overrides m)) (deleted_nodes m) (deleted_rels m)
    (log m ++ [mutation]) (count (summary m)) (next_id m).

Definition count_properties (n : Z) (s : WriteSummary) : WriteSummary :=
  mkSummary (nodes_created s) (relationships_created s) (properties_set s + n) (labels_added s) (labels_removed s) (nodes_deleted s) (relationships_deleted s).
Definition count_label_added (s : WriteSummary) : WriteSummary :=
  mkSummary (nodes_created s) (relationships_created s) (properties_set s) (labels_added s + 1) (labels_removed s) (nodes_deleted s) (relationships_deleted s).
Definition count_label_removed (s : WriteSummary) : WriteSummary :=
  mkSummary (nodes_created s) (relationships_created s) (properties_set s) (labels_added s) (labels_removed s + 1) (nodes_deleted s) (relationships_deleted s).

Definition with_properties (n : NodeValue) (properties : list (bytes * value)) : NodeValue := mkNodeValue (nv_id n) (nv_labels n) properties.
Definition with_labels (n : NodeValue) (labels : list bytes) : NodeValue := mkNodeValue (nv_id n) labels (nv_properties n).
Definition rel_with_properties (r : RelValue) (properties : list (bytes * value)) : RelValue :=
  mkRelValue (rv_id r) (rv_type r) (rv_start r) (rv_end r) properties.

(** Set or, with [None], remove a property. *)
Definition put_property (properties : list (bytes * value)) (key : bytes) (v : option value) : list (bytes * value) :=
  match v with Some v => map_insert properties key v | None => map_remove properties key end.

(** The entries of [SET x = {..}] or [SET x += {..}]; a null removes its key. *)
Definition put_properties (properties : list (bytes * value)) (entries : list (bytes * value)) (merge : bool) : list (bytes * value) :=
  List.fold_left (fun ps e => if is_null e.2 then map_remove ps e.1 else map_insert ps e.1 e.2) entries (if merge then properties else []).

Definition set_node_property (m : MutableGraph) (id key : bytes) (v : option value) : option NodeValue * MutableGraph :=
  match current_node m id with
  | None => (None, m)
  | Some n =>
    let n := with_properties n (put_property (nv_properties n) key v) in
    (Some n, store_node m n (MutSetNodeProperty id key v) (count_properties 1))
  end.

Definition set_node_properties (m : MutableGraph) (id : bytes) (entries : list (bytes * value)) (merge : bool) : option NodeValue * MutableGraph :=
  match current_node m id with
  | None => (None, m)
  | Some n =>
    let n := with_properties n (put_properties (nv_properties n) entries merge) in
    (Some n, store_node m n (MutReplaceNodeProperties id (nv_properties n)) (count_properties (Z.of_nat (length entries))))
  end.

Definition add_node_label (m : MutableGraph) (id label : bytes) : option NodeValue * MutableGraph :=
  match current_node m id with
  | None => (None, m)
  | Some n =>
    if contains (nv_labels n) label then (Some n, m)
    else let n := with_labels n (nv_labels n ++ [label]) in (Some n, store_node m n (MutAddNodeLabel id label) count_label_added)
  end.

(** [position] and [remove]: the first occurrence goes. *)
Fixpoint remove_first (label : bytes) (labels : list bytes) : list bytes :=
  match labels with
  | [] => []
  | l :: labels => if bool_decide (l = label) then labels else l :: remove_first label labels
  end.

Definition remove_node_label (m : MutableGraph) (id label : bytes) : option NodeValue * MutableGraph :=
  match current_node m id with
  | None => (None, m)
  | Some n =>
    if contains (nv_labels n) label
    then let n := with_labels n (remove_first label (nv_labels n)) in (Some n, store_node m n (MutRemoveNodeLabel id label) count_label_removed)
    else (Some n, m)
  end.

Definition set_rel_property (m : MutableGraph) (current : RelValue) (key : bytes) (v : option value) : RelValue * MutableGraph :=
  let r := current_rel m current in
  let r := rel_with_properties r (put_property (rv_properties r) key v) in
  (r, store_rel m r (MutSetRelProperty (rv_id r) key v) (count_properties 1)).

Definition set_rel_properties (m : MutableGraph) (current : RelValue) (entries : list (bytes * value)) (merge : bool) : RelValue * MutableGraph :=
  let r := current_rel m current in
  let r := rel_with_properties r (put_properties (rv_properties r) entries merge) in
  (r, store_rel m r (MutReplaceRelProperties (rv_id r) (rv_properties r)) (count_properties (Z.of_nat (length entries)))).

Definition node_override (m : MutableGraph) (id : bytes) : option NodeValue := node_overrides m !! id.
Definition rel_override (m : MutableGraph) (id : bytes) : option RelValue := rel_overrides m !! id.

(** ** The overlay as a source *)

Definition overlay_dirty (m : MutableGraph) : bool :=
  negb (match created_nodes m with [] => true | _ => false end) || negb (bool_decide (node_overrides m = ∅)) || negb (bool_decide (deleted_nodes m = ∅)).

Definition overlay_node (m : MutableGraph) (n : NodeValue) : NodeValue := match node_overrides m !! nv_id n with Some n' => n' | None => n end.
Definition overlay_rel (m : MutableGraph) (r : RelValue) : RelValue := match rel_overrides m !! rv_id r with Some r' => r' | None => r end.

Definition node_live (m : MutableGraph) (id : bytes) : bool := negb (bool_decide (id ∈ deleted_nodes m)).
Definition rel_live (m : MutableGraph) (id : bytes) : bool := negb (bool_decide (is_Some (deleted_rels m !! id))).

Definition mutable_all_nodes (m : MutableGraph) : list NodeValue :=
  List.map (overlay_node m) (List.filter (fun n => node_live m (nv_id n)) (all_nodes (base m))) ++
  List.map (overlay_node m) (List.filter (fun n => node_live m (nv_id n)) (created_nodes m)).

Definition mutable_expand (m : MutableGraph) (id : bytes) (direction : Direction) (types : list bytes) : list (RelValue * NodeValue) :=
  if negb (node_live m id) then []
  else
    List.map (fun e => (overlay_rel m e.1, overlay_node m e.2))
      (List.filter (fun e : RelValue * NodeValue => rel_live m (rv_id e.1) && node_live m (nv_id e.2)) (expand (base m) id direction types)) ++
    concat (List.map (fun r => if rel_live m (rv_id r) then expand_rel (current_node m) id direction types (overlay_rel m r) else []) (created_rels m)).

(** Seeks and their sizes are the base's while nothing is written. *)
Definition unless_dirty {A : Type} (m : MutableGraph) (o : option A) : option A := if overlay_dirty m then None else o.

Definition mutable_source (m : MutableGraph) : GraphSource :=
  mkSource (mutable_all_nodes m) (default_nodes_by_labels (mutable_all_nodes m))
    (fun name properties values => unless_dirty m (nodes_by_index (base m) name properties values))
    (fun name property lower upper => unless_dirty m (nodes_by_index_range (base m) name property lower upper))
    (fun label values => unless_dirty m (nodes_by_key (base m) label values))
    (mutable_expand m) (current_node m) (fun probe => unless_dirty m (seek_count (base m) probe)).

(** ** Deletes *)

Definition has_incident_rels (m : MutableGraph) (id : bytes) : bool := match mutable_expand m id DUndirected [] with [] => false | _ => true end.

Definition delete_rel (m : MutableGraph) (r : RelValue) : MutableGraph :=
  if rel_live m (rv_id r)
  then
    let s := summary m in
    mkMutable (base m) (created_nodes m) (created_rels m) (node_overrides m) (rel_overrides m) (deleted_nodes m) (<[rv_id r := r]> (deleted_rels m))
      (log m ++ [MutDeleteRel (rv_id r)])
      (mkSummary (nodes_created s) (relationships_created s) (properties_set s) (labels_added s) (labels_removed s) (nodes_deleted s) (relationships_deleted s + 1))
      (next_id m)
  else m.

Definition delete_node (m : MutableGraph) (id : bytes) : MutableGraph :=
  if node_live m id
  then
    let s := summary m in
    mkMutable (base m) (created_nodes m) (created_rels m) (node_overrides m) (rel_overrides m) ({[id]} ∪ deleted_nodes m) (deleted_rels m)
      (log m ++ [MutDeleteNode id])
      (mkSummary (nodes_created s) (relationships_created s) (properties_set s) (labels_added s) (labels_removed s) (nodes_deleted s + 1) (relationships_deleted s))
      (next_id m)
  else m.

Definition detach_delete_node (m : MutableGraph) (id : bytes) : MutableGraph :=
  let incident := List.map fst (mutable_expand m id DUndirected []) in
  delete_node (List.fold_left delete_rel incident m) id.

(** ** The net effect *)

(** The values whose id was not seen before them, in order. *)
Fixpoint unseen {A : Type} (id : A -> bytes) (seen : gset bytes) (l : list A) : list A :=
  match l with
  | [] => []
  | x :: l => if bool_decide (id x ∈ seen) then unseen id seen l else x :: unseen id ({[id x]} ∪ seen) l
  end.

Definition ids_of {A : Type} (id : A -> bytes) (l : list A) : gset bytes := list_to_set (List.map id l).

Definition changes (m : MutableGraph) : WriteChanges :=
  let live_nodes := unseen nv_id ∅ (List.filter (fun n => node_live m (nv_id n)) (created_nodes m)) in
  let modified_nodes := List.filter (fun e : bytes * NodeValue => node_live m e.1 && negb (bool_decide (e.1 ∈ ids_of nv_id live_nodes))) (map_to_list (node_overrides m)) in
  let live_rels := unseen rv_id ∅ (List.filter (fun r => rel_live m (rv_id r)) (created_rels m)) in
  let modified_rels := List.filter (fun e : bytes * RelValue => rel_live m e.1 && negb (bool_decide (e.1 ∈ ids_of rv_id live_rels))) (map_to_list (rel_overrides m)) in
  mkChanges
    (omap (fun n => current_node m (nv_id n)) live_nodes ++ List.map snd modified_nodes)
    (List.filter (fun id => negb (bool_decide (id ∈ ids_of nv_id (created_nodes m)))) (elements (deleted_nodes m)))
    (List.map (overlay_rel m) live_rels)
    (List.map snd modified_rels)
    (List.map snd (List.filter (fun e : bytes * RelValue => negb (bool_decide (e.1 ∈ ids_of rv_id (created_rels m)))) (map_to_list (deleted_rels m)))).

(** ** Folding the net effect into an in-memory graph *)

Definition is_overlay (id : bytes) : bool := match id with b :: _ => bool_decide (b = OVERLAY_ID_TAG) | [] => false end.

(** The stable id of an element: overlay ids get fresh ones. *)
Definition stable (old : bytes) (s : gmap bytes bytes * Z) : bytes * (gmap bytes bytes * Z) :=
  let '(remap, next) := s in
  if negb (is_overlay old) then (old, s)
  else
    match remap !! old with
    | Some id => (id, s)
    | None => let id := text "s" ++ decimal next in (id, (<[old := id]> remap, next + 1))
    end.

(** Replace the first value with this id, or append. *)
Fixpoint upsert {A : Type} (id : A -> bytes) (x : A) (l : list A) : list A :=
  match l with
  | [] => [x]
  | y :: l => if bool_decide (id y = id x) then x :: l else y :: upsert id x l
  end.

Definition apply_node (g : list NodeValue * (gmap bytes bytes * Z)) (n : NodeValue) : list NodeValue * (gmap bytes bytes * Z) :=
  let '(nodes, s) := g in
  let '(id, s) := stable (nv_id n) s in
  (upsert nv_id (mkNodeValue id (nv_labels n) (nv_properties n)) nodes, s).

Definition apply_rel (g : list RelValue * (gmap bytes bytes * Z)) (r : RelValue) : list RelValue * (gmap bytes bytes * Z) :=
  let '(rels, s) := g in
  let '(id, s) := stable (rv_id r) s in
  let '(start, s) := stable (rv_start r) s in
  let '(finish, s) := stable (rv_end r) s in
  (upsert rv_id (mkRelValue id (rv_type r) start finish (rv_properties r)) rels, s).

Definition memory_apply (g : MemoryGraph) (c : WriteChanges) : MemoryGraph :=
  let nodes := List.filter (fun n => negb (contains (wc_deleted_nodes c) (nv_id n))) (mg_nodes g) in
  let rels := List.filter (fun r => negb (contains (List.map rv_id (wc_deleted_rels c)) (rv_id r))) (mg_rels g) in
  let '(nodes, s) := List.fold_left apply_node (upserted_nodes c) (nodes, (∅, mg_next_id g)) in
  let '(rels, s) := List.fold_left apply_rel (wc_created_rels c ++ modified_rels c) (rels, s) in
  mkMemory nodes rels s.2.

Definition add_node (g : MemoryGraph) (labels : list bytes) (properties : list (bytes * value)) : bytes * MemoryGraph :=
  let id := text "n" ++ decimal (Z.of_nat (length (mg_nodes g))) in
  (id, mkMemory (mg_nodes g ++ [mkNodeValue id labels properties]) (mg_rels g) (mg_next_id g)).

Definition add_rel (g : MemoryGraph) (start rel_type finish : bytes) (properties : list (bytes * value)) : bytes * MemoryGraph :=
  let id := text "r" ++ decimal (Z.of_nat (length (mg_rels g))) in
  (id, mkMemory (mg_nodes g) (mg_rels g ++ [mkRelValue id rel_type start finish properties]) (mg_next_id g)).

(** ** What the executor may do

    The charges on the query's budget, and the reads of a graph source that are
    remembered for the lifetime of one evaluation context; [e_context] opens a
    context, and [e_mint_surrogate_id] reads the clock and a random source. *)
Class Effects (S : Type) := {
  e_row : Z -> st S ExecError unit;
  e_hop : st S ExecError unit;
  e_collection : Z -> st S ExecError unit;
  e_collection_push : Z -> st S ExecError unit;
  e_scan : Z -> st S ExecError unit;
  e_nodes_by_labels : GraphSource -> list bytes -> st S ExecError (list NodeValue);
  e_expand : GraphSource -> bytes -> Direction -> list bytes -> st S ExecError (list (RelValue * NodeValue));
  e_context : st S ExecError unit;
  e_mint_surrogate_id : st S ExecError bytes }.

(** The length of a list as the [usize] that is charged. *)
Definition zlen {A : Type} (l : list A) : Z := Z.of_nat (length l).
