(* ===== verification/CypherOps.v ===== *)
(** * Operators of expressions (acetone-cypher/src/exec/eval.rs)

    The operators of an expression on values that are already there.  What the
    platform's libraries decide about text and powers is the class [Std]. *)
From Stdlib Require Import SpecFloat.
From S2P Require Import Prelude Keys Model Canonical CypherValue CypherExpr CypherSource Governor.
Open Scope Z_scope.

(** Rust's standard library: [Debug] of a stored value and of a string,
    [Display] and parsing of a float, [powf], Unicode case. *)
Class Std := {
  std_debug_value : Value -> bytes;
  std_debug_string : bytes -> bytes;
  std_display_float : spec_float -> bytes;
  std_powf : spec_float -> spec_float -> spec_float;
  std_parse_float : bytes -> option spec_float;
  std_to_uppercase : bytes -> bytes;
  std_to_lowercase : bytes -> bytes }.

(** ** Text of values *)

Definition join (separator : bytes) (parts : list bytes) : bytes :=
  match parts with [] => [] | p :: parts => p ++ concat (List.map (fun q => separator ++ q) parts) end.

Definition bool_text (b : bool) : bytes := if b then text "true" else text "false".

Section ops.
Context {W : Type} `{!Effects W} `{!Std}.
Abbreviation M := (st W ExecError).

Fixpoint value_format (v : value) : bytes :=
  match v with
  | CNull => text "null"
  | CBool b => bool_text b
  | CInt n => decimal n
  | CFloat x => std_display_float x
  | CString s => std_debug_string s
  | CList items => text "[" ++ join (text ", ") (List.map value_format items) ++ text "]"
  | CMap entries => text "{" ++ join (text ", ") (List.map (fun e => std_debug_string e.1 ++ text ": " ++ value_format e.2) entries) ++ text "}"
  | CNode n => text "node(" ++ join (text ":") (List.map std_debug_string (nv_labels n)) ++ text ")"
  | CRel r => text "relationship(" ++ std_debug_string (rv_type r) ++ text ")"
  | CPath _ rels => text "path(length " ++ decimal (zlen rels) ++ text ")"
  | CStored mv => std_debug_string (render_stored std_debug_value mv)
  end.

Abbreviation decay := (decayed std_debug_value).
Abbreviation veq3 := (eq3 std_debug_value).
Abbreviation vcmp3 := (cmp3 std_debug_value).

(** ** Three-valued logic *)

Definition truth (v : value) (span : Span) : result ExecError Ternary :=
  match v with
  | CBool b => Ok (Some b)
  | CNull => Ok None
  | other => Err (XType (got "expected a boolean, got " other) span)
  end.

Definition ternary_to_value (t : Ternary) : value := match t with Some b => CBool b | None => CNull end.

Definition is_logical (op : BinaryOp) : bool := match op with OpAnd | OpOr | OpXor => true | _ => false end.

Definition logic (op : BinaryOp) (a b : Ternary) : Ternary :=
  match op with
  | OpAnd => match a, b with Some false, _ | _, Some false => Some false | Some true, Some true => Some true | _, _ => None end
  | OpOr => match a, b with Some true, _ | _, Some true => Some true | Some false, Some false => Some false | _, _ => None end
  | OpXor => match a, b with Some a, Some b => Some (xorb a b) | _, _ => None end
  | _ => None
  end.

(** ** Arithmetic *)

(** The result of a checked [i64] operation. *)
Definition checked (n : Z) (span : Span) : result ExecError value :=
  if (- 2 ^ 63 <=? n) && (n <? 2 ^ 63) then Ok (CInt n) else Err (XOverflow span).

Definition unary (op : UnaryOp) (v : value) (span : Span) : result ExecError value :=
  match op with
  | OpNot => let? t := truth v span in Ok (ternary_to_value (option_map negb t))
  | OpMinus =>
    match v with
    | CNull => Ok CNull
    | CInt n => checked (- n) span
    | CFloat x => Ok (CFloat (SFopp x))
    | other => Err (XType (got "cannot negate " other) span)
    end
  | OpPlus =>
    match v with
    | CNull | CInt _ | CFloat _ => Ok v
    | other => Err (XType (got "cannot apply unary + to " other) span)
    end
  end.

(** [x % y]: the exact remainder, with the sign of [x]. *)
Definition f64_rem (x y : spec_float) : spec_float :=
  match x, y with
  | S754_nan, _ | _, S754_nan | S754_infinity _, _ | _, S754_zero _ => S754_nan
  | _, S754_infinity _ | S754_zero _, _ => x
  | S754_finite sx mx ex, S754_finite _ my ey =>
    let e := Z.min ex ey in
    let r := (Zpos mx * 2 ^ (ex - e)) mod (Zpos my * 2 ^ (ey - e)) in
    binary_normalize prec emax (if sx then - r else r) e sx
  end.

Definition two_types (message middle : string) (a b : value) : bytes :=
  text message ++ text (type_name a) ++ text middle ++ text (type_name b).

Definition arith (a b : value) (span : Span) (int_op : Z -> Z -> Z) (float_op : spec_float -> spec_float -> spec_float) : result ExecError value :=
  match a, b with
  | CNull, _ | _, CNull => Ok CNull
  | CInt a, CInt b => checked (int_op a b) span
  | CInt a, CFloat b => Ok (CFloat (float_op (f64_of_i64 a) b))
  | CFloat a, CInt b => Ok (CFloat (float_op a (f64_of_i64 b)))
  | CFloat a, CFloat b => Ok (CFloat (float_op a b))
  | a, b => Err (XType (two_types "arithmetic needs numbers, got " " and " a b) span)
  end.

Definition divide (a b : value) (span : Span) : result ExecError value :=
  match a, b with
  | CInt _, CInt 0 => Err (XDivisionByZero span)
  | CInt x, CInt y => checked (Z.quot x y) span
  | _, _ => arith a b span Z.quot (SFdiv prec emax)
  end.

(** [i64::checked_rem] refuses the one division that overflows. *)
Definition modulo (a b : value) (span : Span) : result ExecError value :=
  match a, b with
  | CInt _, CInt 0 => Err (XDivisionByZero span)
  | CInt x, CInt y => if (x =? - 2 ^ 63) && (y =? -1) then Err (XOverflow span) else Ok (CInt (Z.rem x y))
  | _, _ => arith a b span Z.rem f64_rem
  end.

Definition number (v : value) : option spec_float := match v with CInt n => Some (f64_of_i64 n) | CFloat x => Some x | _ => None end.

Definition power (a b : value) (span : Span) : result ExecError value :=
  match a, b with
  | CNull, _ | _, CNull => Ok CNull
  | a, b =>
    match number a, number b with
    | Some x, Some y => Ok (CFloat (std_powf x y))
    | _, _ => Err (XType (two_types "cannot raise " " to " a b) span)
    end
  end.

(** ** Lists and strings *)

Fixpoint membership_loop (needle : value) (items : list value) (saw_null : bool) : Ternary :=
  match items with
  | [] => if saw_null then None else Some false
  | item :: items =>
    match veq3 needle item with
    | Some true => Some true
    | None => membership_loop needle items true
    | Some false => membership_loop needle items saw_null
    end
  end.

Definition list_membership (needle haystack : value) (span : Span) : result ExecError value :=
  match haystack with
  | CNull => Ok CNull
  | CList items =>
    match membership_loop needle items (is_null needle && negb (match items with [] => true | _ => false end)) with
    | Some true => Ok (CBool true)
    | other => if is_null needle && (match items with [] => true | _ => false end) then Ok (CBool false) else Ok (ternary_to_value other)
    end
  | other => Err (XType (got "IN needs a list, got " other) span)
  end.

Definition string_pred (a b : value) (pred : bytes -> bytes -> bool) : value :=
  match a, b with CString a, CString b => CBool (pred a b) | _, _ => CNull end.

(** [s.starts_with(t)], [s.ends_with(t)], [s.contains(t)] *)
Fixpoint starts_with (s t : bytes) : bool :=
  match t, s with
  | [], _ => true
  | y :: t, x :: s => bool_decide (x = y) && starts_with s t
  | _ :: _, [] => false
  end.
Definition ends_with (s t : bytes) : bool := starts_with (rev s) (rev t).
Fixpoint str_contains (s t : bytes) : bool := starts_with s t || match s with [] => false | _ :: s => str_contains s t end.

Definition or_null (o : option value) : value := match o with Some v => v | None => CNull end.

Definition property_access (base : value) (key : bytes) (span : Span) : result ExecError value :=
  match base with
  | CNull => Ok CNull
  | CNode n => Ok (or_null (map_get (nv_properties n) key))
  | CRel r => Ok (or_null (map_get (rv_properties r) key))
  | CMap m => Ok (or_null (map_get m key))
  | other => Err (XType (got "cannot access property on " other) span)
  end.

Definition index_access (base index : value) (span : Span) : result ExecError value :=
  match base, index with
  | CNull, _ | _, CNull => Ok CNull
  | CList items, CInt i =>
    let len := zlen items in
    let at_ := if i <? 0 then i + len else i in
    if (at_ <? 0) || (len <=? at_) then Ok CNull else Ok (or_null (items !! Z.to_nat at_))
  | CMap m, CString key => Ok (or_null (map_get m key))
  | CNode n, CString key => Ok (or_null (map_get (nv_properties n) key))
  | CRel r, CString key => Ok (or_null (map_get (rv_properties r) key))
  | CList _, other => Err (XType (got "list index must be an integer, got " other) span)
  | base, _ => Err (XType (got "cannot index " base) span)
  end.

(** A bound of a slice: none is the default, null makes the slice null. *)
Definition slice_bound (bound : option value) (default len : Z) (span : Span) : result ExecError (option Z) :=
  match bound with
  | None => Ok (Some default)
  | Some CNull => Ok None
  | Some (CInt i) => Ok (Some (Z.min (Z.max (if i <? 0 then i + len else i) 0) len))
  | Some other => Err (XType (got "slice bound must be an integer, got " other) span)
  end.

Definition slice_access (base : value) (from to : option value) (span : Span) : result ExecError value :=
  match base with
  | CNull => Ok CNull
  | CList items =>
    let len := zlen items in
    let? start := slice_bound from 0 len span in
    match start with
    | None => Ok CNull
    | Some start =>
      let? finish := slice_bound to len len span in
      match finish with
      | None => Ok CNull
      | Some finish =>
        if finish <=? start then Ok (CList [])
        else Ok (CList (take (Z.to_nat (finish - start)) (drop (Z.to_nat start) items)))
      end
    end
  | other => Err (XType (got "cannot slice " other) span)
  end.

(** ** Construction *)

Definition ensure_nestable (v : value) (span : Span) : result ExecError unit :=
  if nesting_exceeds v (MAX_VALUE_DEPTH - 1) then Err (XResourceExceeded ValueDepth span) else Ok tt.

Definition format_float (x : spec_float) : bytes :=
  match x with
  | S754_nan => text "NaN"
  | S754_infinity s => if s then text "-Infinity" else text "Infinity"
  | x =>
    match f64_integer x with
    | Some n =>
      if Z.abs n <? 10 ^ 15
      then (if match x with S754_zero s | S754_finite s _ _ => s | _ => false end then text "-" else []) ++ decimal (Z.abs n) ++ text ".0"
      else std_display_float x
    | None => std_display_float x
    end
  end.

(** The size of what [+] builds is charged before it is built. *)
Definition add (a b : value) (span : Span) : M value :=
  let concat (s t : bytes) : M value := let! _ := e_collection (zlen s + zlen t) in st_ret (CString (s ++ t)) in
  match a, b with
  | CNull, _ | _, CNull => st_ret CNull
  | CInt a, CInt b => st_of (checked (a + b) span)
  | CInt a, CFloat b => st_ret (CFloat (SFadd prec emax (f64_of_i64 a) b))
  | CFloat a, CInt b => st_ret (CFloat (SFadd prec emax a (f64_of_i64 b)))
  | CFloat a, CFloat b => st_ret (CFloat (SFadd prec emax a b))
  | CString a, CString b => concat a b
  | CString a, CInt b => concat a (decimal b)
  | CString a, CFloat b => concat a (format_float b)
  | CInt a, CString b => concat (decimal a) b
  | CFloat a, CString b => concat (format_float a) b
  | CList a, CList b => let! _ := e_collection (zlen a + zlen b) in st_ret (CList (a ++ b))
  | CList a, b =>
    let! _ := e_collection (zlen a + 1) in
    let! _ := st_of (ensure_nestable b span) in st_ret (CList (a ++ [b]))
  | a, CList b =>
    let! _ := e_collection (zlen b + 1) in
    let! _ := st_of (ensure_nestable a span) in st_ret (CList (a :: b))
  | a, b => st_fail (XType (two_types "cannot add " " and " a b) span)
  end.

(** ** Comparison *)

Definition is_number (v : value) : bool := match v with CInt _ | CFloat _ => true | _ => false end.
Definition is_nan_value (v : value) : bool := match v with CFloat x => f64_nan x | _ => false end.
Definition nan_comparison (a b : value) : bool := is_number a && is_number b && (is_nan_value a || is_nan_value b).

(** An ordering operator: on a NaN false, else by [cmp3]. *)
Definition compare_op (a b : value) (test : comparison -> bool) : value :=
  if nan_comparison a b then CBool false else ternary_to_value (option_map test (vcmp3 a b)).

Definition is_lt (c : comparison) : bool := match c with Lt => true | _ => false end.
Definition is_le (c : comparison) : bool := match c with Gt => false | _ => true end.
Definition is_gt (c : comparison) : bool := match c with Gt => true | _ => false end.
Definition is_ge (c : comparison) : bool := match c with Lt => false | _ => true end.

Definition binary (op : BinaryOp) (a b : value) (span : Span) : M value :=
  match op with
  | OpEq => st_ret (ternary_to_value (veq3 a b))
  | OpNe => st_ret (ternary_to_value (option_map negb (veq3 a b)))
  | OpLt => st_ret (compare_op a b is_lt)
  | OpLe => st_ret (compare_op a b is_le)
  | OpGt => st_ret (compare_op a b is_gt)
  | OpGe => st_ret (compare_op a b is_ge)
  | OpAdd => add a b span
  | OpSub => st_of (arith a b span Z.sub (SFsub prec emax))
  | OpMul => st_of (arith a b span Z.mul (SFmul prec emax))
  | OpDiv => st_of (divide a b span)
  | OpMod => st_of (modulo a b span)
  | OpPow => st_of (power a b span)
  | OpIn => st_of (list_membership a b span)
  | OpStartsWith => st_ret (string_pred a b starts_with)
  | OpEndsWith => st_ret (string_pred a b ends_with)
  | OpContains => st_ret (string_pred a b str_contains)
  | OpRegexMatch => st_fail (XUnsupported "regular expressions" span)
  | OpAnd | OpOr | OpXor => st_fail XFuel
  end.

(** ** Quantifiers *)

(** From the numbers of elements whose predicate is true, false and null. *)
Definition quantified (kind : QuantifierKind) (t f n : nat) : value :=
  match kind with
  | QAny => if (1 <=? t)%nat then CBool true else if (1 <=? n)%nat then CNull else CBool false
  | QAll => if (1 <=? f)%nat then CBool false else if (1 <=? n)%nat then CNull else CBool true
  | QNone => if (1 <=? t)%nat then CBool false else if (1 <=? n)%nat then CNull else CBool true
  | QSingle =>
    if (t =? 1)%nat && (n =? 0)%nat then CBool true
    else if (2 <=? t)%nat || ((t =? 0)%nat && (n =? 0)%nat) then CBool false
    else CNull
  end.
End ops.
