(* ===== verification/CypherFunctions.v ===== *)
(** * Built-in functions (acetone-cypher/src/exec/functions.rs)

    [call], arm by arm.  A string is its UTF-8 bytes; [chars] splits it. *)
From Stdlib Require Import SpecFloat.
From S2P Require Import Prelude Keys Model Canonical CypherValue CypherExpr CypherSource CypherOps Governor.
Open Scope Z_scope.

(** ** Characters *)

Definition is_continuation (b : byte) : bool := (128 <=? b2z b) && (b2z b <? 192).

Fixpoint chars (s : bytes) : list bytes :=
  match s with
  | [] => []
  | b :: s =>
    match chars s with
    | (c :: cs) :: rest => if is_continuation c then (b :: c :: cs) :: rest else [b] :: (c :: cs) :: rest
    | rest => [b] :: rest
    end
  end.

(** [char::is_whitespace]: the characters with the property White_Space. *)
Definition is_whitespace (c : bytes) : bool :=
  match List.map b2z c with
  | [b] => ((9 <=? b) && (b <=? 13)) || (b =? 32)
  | [194; b] => (b =? 133) || (b =? 160)
  | [225; 154; 128] => true
  | [226; 128; b] => ((128 <=? b) && (b <=? 138)) || (b =? 168) || (b =? 169) || (b =? 175)
  | [226; 129; 159] => true
  | [227; 128; 128] => true
  | _ => false
  end.

Fixpoint drop_while {A : Type} (p : A -> bool) (l : list A) : list A :=
  match l with [] => [] | x :: rest => if p x then drop_while p rest else l end.

Definition trim_start (s : bytes) : bytes := concat (drop_while is_whitespace (chars s)).
Definition trim_end (s : bytes) : bytes := concat (rev (drop_while is_whitespace (rev (chars s)))).
Definition trim (s : bytes) : bytes := trim_end (trim_start s).

(** ** Splitting *)

Fixpoint split_on (sep s : bytes) (skip : nat) (part : bytes) : list bytes :=
  match s with
  | [] => [part]
  | b :: rest =>
    match skip with
    | S skip => split_on sep rest skip part
    | O => if starts_with s sep then part :: split_on sep rest (length sep - 1) [] else split_on sep rest O (part ++ [b])
    end
  end.

(** [s.split(sep)]; the empty separator is at every character boundary. *)
Definition str_split (s sep : bytes) : list bytes :=
  match sep with [] => [] :: chars s ++ [[]] | _ => split_on sep s O [] end.

(** [s.matches(sep).count()] *)
Definition match_count (s sep : bytes) : Z := zlen (str_split s sep) - 1.

Definition str_replace (s from to : bytes) : bytes := join to (str_split s from).

(** ** Numbers *)

(** An integral float of sign [s]: the sign of a zero is kept. *)
Definition f64_signed (s : bool) (n : Z) : spec_float := if n =? 0 then S754_zero s else f64_of_i64 (if s then - n else n).

(** Round a finite float by a rule for the part [r] of [2^k] left over. *)
Definition f64_round_by (up : bool -> Z -> Z -> bool) (x : spec_float) : spec_float :=
  match x with
  | S754_finite s m e =>
    if 0 <=? e then x
    else
      let unit := 2 ^ (- e) in
      let q := Zpos m / unit in
      let r := Zpos m mod unit in
      f64_signed s (if up s r unit then q + 1 else q)
  | x => x
  end.

Definition f64_floor : spec_float -> spec_float := f64_round_by (fun s r _ => s && negb (r =? 0)).
Definition f64_ceil : spec_float -> spec_float := f64_round_by (fun s r _ => negb s && negb (r =? 0)).
Definition f64_round : spec_float -> spec_float := f64_round_by (fun _ r unit => unit <=? 2 * r).

(** [x.trunc() as i64]: saturating, NaN is zero. *)
Definition f64_to_i64 (x : spec_float) : Z :=
  match x with
  | S754_zero _ | S754_nan => 0
  | S754_infinity s => if s then - 2 ^ 63 else 2 ^ 63 - 1
  | S754_finite s m e =>
    let n := if 0 <=? e then Zpos m * 2 ^ e else Zpos m / 2 ^ (- e) in
    Z.max (- 2 ^ 63) (Z.min (if s then - n else n) (2 ^ 63 - 1))
  end.

Definition ascii_digit (b : byte) : option Z := if (48 <=? b2z b) && (b2z b <=? 57) then Some (b2z b - 48) else None.

Fixpoint parse_digits (s : bytes) (n : Z) : option Z :=
  match s with [] => Some n | b :: s => match ascii_digit b with Some d => parse_digits s (10 * n + d) | None => None end end.

Definition parse_magnitude (s : bytes) : option Z := match s with [] => None | _ => parse_digits s 0 end.

(** [parse::<i64>] *)
Definition parse_i64 (s : bytes) : option Z :=
  let n := match s with
           | b :: rest => if b2z b =? 45 then option_map Z.opp (parse_magnitude rest) else if b2z b =? 43 then parse_magnitude rest else parse_magnitude s
           | [] => None
           end in
  match n with Some n => if (- 2 ^ 63 <=? n) && (n <? 2 ^ 63) then Some n else None | None => None end.

(** ** [range] *)

(** The number of elements, in wide arithmetic. *)
Definition range_count (start finish step : Z) : Z :=
  let span_len := finish - start in
  if ((0 <? step) && (span_len <? 0)) || ((step <? 0) && (0 <? span_len)) then 0 else Z.quot span_len step + 1.

(** The loop: it steps only between elements. *)
Fixpoint range_items (count : nat) (at_ step : Z) : list value :=
  match count with
  | O => []
  | S O => [CInt at_]
  | S count => CInt at_ :: range_items count (at_ + step) step
  end.

Fixpoint range_bounds (args : list value) (span : Span) : result ExecError (list Z) :=
  match args with
  | [] => Ok []
  | CInt n :: args => let? rest := range_bounds args span in Ok (n :: rest)
  | other :: _ => Err (XInvalidArgument (got "range() needs integers, got " other) span)
  end.

(** ** The functions *)

Definition lower_ascii (c : Ascii.ascii) : Ascii.ascii :=
  let n := Ascii.N_of_ascii c in if ((65 <=? n) && (n <=? 90))%N then Ascii.ascii_of_N (n + 32) else c.
Fixpoint lowercase (s : string) : string := match s with EmptyString => EmptyString | String c s => String (lower_ascii c) (lowercase s) end.
Definition eq_ignore_ascii_case (a b : string) : bool := bool_decide (lowercase a = lowercase b).

Definition to_ascii_lowercase (s : bytes) : bytes := List.map (fun b => if (65 <=? b2z b) && (b2z b <=? 90) then z2b (b2z b + 32) else b) s.

Section functions.
Context {W : Type} `{!Effects W} `{!Std}.
Abbreviation M := (st W ExecError).

Definition charged_list (items : list value) : M value := let! _ := e_collection (zlen items) in st_ret (CList items).

Definition numeric_to_float (v : value) (span : Span) : result ExecError spec_float :=
  match v with
  | CInt n => Ok (f64_of_i64 n)
  | CFloat x => Ok x
  | other => Err (XType (got "expected a number, got " other) span)
  end.

Definition float_fn (v : value) (span : Span) (f : spec_float -> spec_float) : M value :=
  st_of (let? x := numeric_to_float v span in Ok (CFloat (f x))).

Definition string_fn (v : value) (span : Span) (f : bytes -> bytes) : M value :=
  match v with CString s => st_ret (CString (f s)) | other => st_fail (XType (got "expected a string, got " other) span) end.

Definition range (args : list value) (span : Span) : M value :=
  let! bounds := st_of (range_bounds args span) in
  let step := match bounds !! 2%nat with Some s => s | None => 1 end in
  if step =? 0 then st_fail (XInvalidArgument (text "range() step cannot be zero") span)
  else
    match bounds !! 0%nat, bounds !! 1%nat with
    | Some start, Some finish =>
      let count := range_count start finish step in
      let! _ := e_collection (Z.min count (2 ^ 64 - 1)) in
      st_ret (CList (range_items (Z.to_nat (count mod 2 ^ 64)) start step))
    | _, _ => st_fail (XInvalidArgument (text "range() needs a start and an end") span)
    end.

Definition substring (args : list value) (s : bytes) (start : Z) (span : Span) : result ExecError value :=
  let rest := drop (Z.to_nat (Z.min start (zlen (chars s)))) (chars s) in
  match args !! 2%nat with
  | Some (CInt len) =>
    if 0 <=? len then Ok (CString (concat (take (Z.to_nat len) rest)))
    else Err (XInvalidArgument (text "substring() length cannot be negative") span)
  | Some other => Err (XType (got "substring() length must be an integer, got " other) span)
  | None => Ok (CString (concat rest))
  end.

Definition is_fn (name wanted : string) : bool := eq_ignore_ascii_case name wanted.

(** Functions of numbers. *)
Definition call_numeric (name : string) (arg : nat -> value) (span : Span) : option (M value) :=
  if is_fn name "abs" then Some
    match arg 0%nat with
    | CInt n => st_of (checked (Z.abs n) span)
    | CFloat x => st_ret (CFloat (SFabs x))
    | other => st_fail (XType (got "abs() needs a number, got " other) span)
    end
  else if is_fn name "ceil" then Some (float_fn (arg 0%nat) span f64_ceil)
  else if is_fn name "floor" then Some (float_fn (arg 0%nat) span f64_floor)
  else if is_fn name "round" then Some (float_fn (arg 0%nat) span f64_round)
  else if is_fn name "sqrt" then Some (float_fn (arg 0%nat) span (SFsqrt prec emax))
  else if is_fn name "sign" then Some
    match arg 0%nat with
    | CInt n => st_ret (CInt (Z.sgn n))
    | CFloat x => st_ret (CInt match SFcompare x (S754_zero false) with Some Gt => 1 | Some Lt => -1 | _ => 0 end)
    | other => st_fail (XType (got "sign() needs a number, got " other) span)
    end
  else None.

(** Functions of lists, maps, entities and paths. *)
Definition call_container (name : string) (args : list value) (arg : nat -> value) (span : Span) (graph : GraphSource) : option (M value) :=
  if is_fn name "size" then Some
    match arg 0%nat with
    | CList items => st_ret (CInt (zlen items))
    | CString s => st_ret (CInt (zlen (chars s)))
    | CMap m => st_ret (CInt (zlen m))
    | other => st_fail (XType (got "size() cannot measure " other) span)
    end
  else if is_fn name "length" then Some
    match arg 0%nat with
    | CPath _ rels => st_ret (CInt (zlen rels))
    | CString s => st_ret (CInt (zlen (chars s)))
    | CList items => st_ret (CInt (zlen items))
    | other => st_fail (XType (got "length() cannot measure " other) span)
    end
  else if is_fn name "head" then Some
    match arg 0%nat with
    | CList items => st_ret (or_null (head items))
    | other => st_fail (XType (got "head() needs a list, got " other) span)
    end
  else if is_fn name "last" then Some
    match arg 0%nat with
    | CList items => st_ret (or_null (last items))
    | other => st_fail (XType (got "last() needs a list, got " other) span)
    end
  else if is_fn name "tail" then Some
    match arg 0%nat with
    | CList items => charged_list (drop 1 items)
    | other => st_fail (XType (got "tail() needs a list, got " other) span)
    end
  else if is_fn name "reverse" then Some
    match arg 0%nat with
    | CList items => charged_list (rev items)
    | CString s => st_ret (CString (concat (rev (chars s))))
    | other => st_fail (XType (got "reverse() cannot reverse " other) span)
    end
  else if is_fn name "keys" then Some
    match arg 0%nat with
    | CMap m => charged_list (List.map (fun e => CString e.1) m)
    | CNode n => charged_list (List.map (fun e => CString e.1) (nv_properties n))
    | CRel r => charged_list (List.map (fun e => CString e.1) (rv_properties r))
    | other => st_fail (XType (got "keys() cannot inspect " other) span)
    end
  else if is_fn name "properties" then Some
    match arg 0%nat with
    | CMap m => st_ret (CMap m)
    | CNode n => st_ret (CMap (nv_properties n))
    | CRel r => st_ret (CMap (rv_properties r))
    | other => st_fail (XType (got "properties() cannot inspect " other) span)
    end
  else if is_fn name "labels" then Some
    match arg 0%nat with
    | CNode n => charged_list (List.map CString (nv_labels n))
    | other => st_fail (XType (got "labels() needs a node, got " other) span)
    end
  else if is_fn name "type" then Some
    match arg 0%nat with
    | CRel r => st_ret (CString (rv_type r))
    | other => st_fail (XType (got "type() needs a relationship, got " other) span)
    end
  else if is_fn name "startNode" then Some
    match arg 0%nat with
    | CRel r => st_ret (or_null (option_map CNode (node graph (rv_start r))))
    | other => st_fail (XType (got "startNode() needs a relationship, got " other) span)
    end
  else if is_fn name "endNode" then Some
    match arg 0%nat with
    | CRel r => st_ret (or_null (option_map CNode (node graph (rv_end r))))
    | other => st_fail (XType (got "endNode() needs a relationship, got " other) span)
    end
  else if is_fn name "nodes" then Some
    match arg 0%nat with
    | CPath nodes _ => charged_list (List.map CNode nodes)
    | other => st_fail (XType (got "nodes() needs a path, got " other) span)
    end
  else if is_fn name "relationships" then Some
    match arg 0%nat with
    | CPath _ rels => charged_list (List.map CRel rels)
    | other => st_fail (XType (got "relationships() needs a path, got " other) span)
    end
  else if is_fn name "range" then Some (range args span)
  else None.

(** Functions of strings. *)
Definition call_string (name : string) (args : list value) (arg : nat -> value) (span : Span) : option (M value) :=
  if is_fn name "toUpper" then Some (string_fn (arg 0%nat) span std_to_uppercase)
  else if is_fn name "toLower" then Some (string_fn (arg 0%nat) span std_to_lowercase)
  else if is_fn name "trim" then Some (string_fn (arg 0%nat) span trim)
  else if is_fn name "lTrim" then Some (string_fn (arg 0%nat) span trim_start)
  else if is_fn name "rTrim" then Some (string_fn (arg 0%nat) span trim_end)
  else if is_fn name "split" then Some
    match arg 0%nat, arg 1%nat with
    | CString s, CString sep => let! _ := e_collection (zlen (str_split s sep)) in st_ret (CList (List.map CString (str_split s sep)))
    | a, b => st_fail (XType (two_types "split() needs strings, got " " and " a b) span)
    end
  else if is_fn name "replace" then Some
    match arg 0%nat, arg 1%nat, arg 2%nat with
    | CString s, CString from, CString to =>
      let matches := match_count s from in
      let! _ := e_collection (saturating_add (Z.max 0 (zlen s - Z.min (matches * zlen from) U64_MAX)) (Z.min (matches * zlen to) U64_MAX)) in
      st_ret (CString (str_replace s from to))
    | _, _, _ => st_fail (XType (text "replace() needs three strings") span)
    end
  else if is_fn name "left" then Some
    match arg 0%nat, arg 1%nat with
    | CString s, CInt n =>
      if 0 <=? n then st_ret (CString (concat (take (Z.to_nat n) (chars s))))
      else st_fail (XInvalidArgument (text "left() length cannot be negative") span)
    | _, _ => st_fail (XType (text "left() needs a string and an integer") span)
    end
  else if is_fn name "right" then Some
    match arg 0%nat, arg 1%nat with
    | CString s, CInt n =>
      if 0 <=? n then st_ret (CString (concat (drop (Z.to_nat (zlen (chars s) - n)) (chars s))))
      else st_fail (XInvalidArgument (text "right() length cannot be negative") span)
    | _, _ => st_fail (XType (text "right() needs a string and an integer") span)
    end
  else if is_fn name "substring" then Some
    match arg 0%nat, arg 1%nat with
    | CString s, CInt start =>
      if 0 <=? start then st_of (substring args s start span)
      else st_fail (XInvalidArgument (text "substring() start cannot be negative") span)
    | _, _ => st_fail (XType (text "substring() needs a string and an integer") span)
    end
  else None.

(** Conversions. *)
Definition call_convert (name : string) (arg : nat -> value) (span : Span) : option (M value) :=
  if is_fn name "toString" then Some
    match arg 0%nat with
    | CString s => st_ret (CString s)
    | CInt n => st_ret (CString (decimal n))
    | CFloat x => st_ret (CString (format_float x))
    | CBool b => st_ret (CString (bool_text b))
    | other => st_fail (XType (got "toString() cannot convert " other) span)
    end
  else if is_fn name "toInteger" then Some
    match arg 0%nat with
    | CInt n => st_ret (CInt n)
    | CFloat x => st_ret (CInt (f64_to_i64 x))
    | CString s =>
      st_ret match parse_i64 (trim s) with
             | Some n => CInt n
             | None => or_null (option_map (fun x => CInt (f64_to_i64 x)) (std_parse_float (trim s)))
             end
    | other => st_fail (XType (got "toInteger() cannot convert " other) span)
    end
  else if is_fn name "toFloat" then Some
    match arg 0%nat with
    | CInt n => st_ret (CFloat (f64_of_i64 n))
    | CFloat x => st_ret (CFloat x)
    | CString s => st_ret (or_null (option_map CFloat (std_parse_float (trim s))))
    | other => st_fail (XType (got "toFloat() cannot convert " other) span)
    end
  else if is_fn name "toBoolean" then Some
    match arg 0%nat with
    | CBool b => st_ret (CBool b)
    | CString s =>
      let t := to_ascii_lowercase (trim s) in
      st_ret (if bool_decide (t = text "true") then CBool true else if bool_decide (t = text "false") then CBool false else CNull)
    | other => st_fail (XType (got "toBoolean() cannot convert " other) span)
    end
  else None.

(** [coalesce] looks past nulls and [range] refuses them; every other function
    of a null is null. *)
Definition call (name : string) (args : list value) (span : Span) (graph : GraphSource) : M value :=
  if is_fn name "coalesce" then st_ret (or_null (List.find (fun v => negb (is_null v)) args))
  else if negb (is_fn name "range") && existsb is_null args then st_ret CNull
  else
    let arg i := or_null (args !! i) in
    match call_numeric name arg span with
    | Some m => m
    | None =>
      match call_container name args arg span graph with
      | Some m => m
      | None =>
        match call_string name args arg span with
        | Some m => m
        | None => match call_convert name arg span with Some m => m | None => st_fail (XUnsupported "function" span) end
        end
      end
    end.
End functions.
