(* ===== verification/CypherEval.v ===== *)
(** * Evaluation and pattern matching (acetone-cypher/src/exec/eval.rs, run.rs)

    The evaluator, and the matcher it is mutually recursive with, over any
    implementation of [Effects].  [rec] is the evaluator at the next smaller
    fuel; a walk of a variable-length pattern, the explicit stack of the code,
    has fuel of its own. *)
From Stdlib Require Import SpecFloat.
From S2P Require Import Prelude Keys Model Canonical CypherValue CypherExpr CypherSource CypherOps CypherFunctions.
Open Scope Z_scope.

Record MatchState : Type := mkMatchState { ms_row : Row; ms_used_rels : gset bytes }.
Record PathBuild : Type := mkPathBuild { pb_nodes : list NodeValue; pb_rels : list RelValue }.
Record VarHopFrame : Type := mkFrame { vf_from : NodeValue; vf_state : MatchState; vf_path : PathBuild; vf_hops : list RelValue }.

(** The parts of [EvalCtx] that are not effects. *)
Record EvalCtx : Type := mkCtx { cx_graph : GraphSource; cx_parameters : gmap bytes value; cx_aggregates : option (gmap Z value) }.

Section eval.
Context {W : Type} `{!Effects W} `{!Std}.
Abbreviation M := (st W ExecError).
Abbreviation decay := (decayed std_debug_value).
Abbreviation veq3 := (eq3 std_debug_value).

(** A loop that returns at the first [true]. *)
Fixpoint st_any {A : Type} (f : A -> M bool) (l : list A) : M bool :=
  match l with
  | [] => st_ret false
  | x :: l => let! found := f x in if found then st_ret true else st_any f l
  end.

Variable walk_fuel : nat.

Section body.
Variable rec : EvalCtx -> BoundExpr -> Row -> M value.
Variable ctx : EvalCtx.

(** ** What a pattern asks of a node or a relationship *)

Definition properties_satisfy (properties : option BoundExpr) (actual : list (bytes * value)) (row : Row) : M bool :=
  match properties with
  | None => st_ret true
  | Some expr =>
    let! expected := rec ctx expr row in
    st_ret match expected with
           | CMap expected =>
             forallb (fun e => match map_get actual e.1 with
                               | Some have => match veq3 have e.2 with Some true => true | _ => false end
                               | None => false
                               end) expected
           | _ => false
           end
  end.

(** A bound node variable is this node. *)
Definition is_node (v : value) (n : NodeValue) : bool := match v with CNode bound => bool_decide (nv_id bound = nv_id n) | _ => false end.
Definition is_rel (v : value) (r : RelValue) : bool := match v with CRel bound => bool_decide (rv_id bound = rv_id r) | _ => false end.

Definition pinned_to (row : Row) (var : option Z) (test : value -> bool) : bool :=
  match var with
  | Some var => if row_contains row var then test (row_get row var) else true
  | None => true
  end.

Definition node_satisfies (n : NodeValue) (pattern : BoundNodePattern) (row : Row) : M bool :=
  if negb (has_labels (np_labels pattern) n) then st_ret false
  else if negb (pinned_to row (np_var pattern) (fun v => is_node v n)) then st_ret false
  else properties_satisfy (np_properties pattern) (nv_properties n) row.

Definition rel_satisfies (r : RelValue) (pattern : BoundRelPattern) (row : Row) : M bool :=
  properties_satisfy (rp_properties pattern) (rv_properties r) row.

(** ** Anchors *)

Fixpoint resolve_bounds (bounds : list RangeBound) : option (list value) :=
  match bounds with
  | [] => Some []
  | BoundLiteral l :: bounds => option_map (cons (literal_value l)) (resolve_bounds bounds)
  | BoundParameter p :: bounds =>
    match cx_parameters ctx !! p with Some v => option_map (cons v) (resolve_bounds bounds) | None => None end
  end.

Fixpoint pinned_values (m : list (bytes * value)) (names : list bytes) : option (list value) :=
  match names with
  | [] => Some []
  | name :: names => match map_get m name with Some v => option_map (cons v) (pinned_values m names) | None => None end
  end.

(** The values a seek pins: of the hint, or of the pattern's map. *)
Definition seek_values (pinned : option (list RangeBound)) (names : list bytes) (pattern : BoundNodePattern) (row : Row) : M (option (list value)) :=
  match pinned with
  | Some bounds => st_ret (resolve_bounds bounds)
  | None =>
    match np_properties pattern with
    | None => st_ret None
    | Some props =>
      let! v := rec ctx props row in
      st_ret match v with CMap m => pinned_values m names | _ => None end
    end
  end.

Definition resolve_range_bound (bound : option (RangeBound * bool)) : option (value * bool) :=
  match bound with
  | None => None
  | Some (BoundLiteral l, inclusive) => Some (literal_value l, inclusive)
  | Some (BoundParameter p, inclusive) => option_map (fun v => (v, inclusive)) (cx_parameters ctx !! p)
  end.

Definition unresolved (bound : option (RangeBound * bool)) : bool :=
  match bound, resolve_range_bound bound with Some _, None => true | _, _ => false end.

Definition resolve_probe (hint : IndexHint) (pattern : BoundNodePattern) (row : Row) : M (option SeekProbe) :=
  match hint with
  | HintKeySeek label key pinned =>
    match key with
    | [] => st_ret None
    | _ => let! vs := seek_values pinned key pattern row in st_ret (option_map (ProbeKey label) vs)
    end
  | HintIndexSeek name _ properties pinned =>
    let! vs := seek_values pinned properties pattern row in st_ret (option_map (ProbeIndex name properties) vs)
  | HintIndexRange name _ property lower upper =>
    st_ret (if unresolved lower || unresolved upper then None
            else Some (ProbeRange name property (resolve_range_bound lower) (resolve_range_bound upper)))
  end.

Definition materialise_probe (probe : SeekProbe) : option (list NodeValue) :=
  match probe with
  | ProbeKey label vs => nodes_by_key (cx_graph ctx) label vs
  | ProbeIndex name properties vs => nodes_by_index (cx_graph ctx) name properties vs
  | ProbeRange name property lower upper => nodes_by_index_range (cx_graph ctx) name property lower upper
  end.

Fixpoint first_served (probes : list SeekProbe) : option (list NodeValue) :=
  match probes with
  | [] => None
  | probe :: probes => match materialise_probe probe with Some nodes => Some nodes | None => first_served probes end
  end.

(** The smallest count and its position; a tie keeps the earlier. *)
Fixpoint smallest (probes : list SeekProbe) (i : nat) (best : option (Z * nat)) : option (Z * nat) :=
  match probes with
  | [] => best
  | probe :: probes =>
    let best := match seek_count (cx_graph ctx) probe with
                | Some count => match best with Some (c, _) => if count <? c then Some (count, i) else best | None => Some (count, i) end
                | None => best
                end in
    smallest probes (i + 1) best
  end.

Definition serve (probes : list SeekProbe) : option (list NodeValue) :=
  if (1 <? length probes)%nat
  then
    match smallest probes 0 None with
    | Some (_, i) =>
      match probes !! i with
      | Some winner => match materialise_probe winner with Some nodes => Some nodes | None => first_served (take i probes ++ drop (i + 1) probes) end
      | None => None
      end
    | None => first_served probes
    end
  else first_served probes.

Definition seek_anchor (pattern : BoundNodePattern) (row : Row) : M (option (list NodeValue)) :=
  let! probes := st_fold (fun probes hint => let! p := resolve_probe hint pattern row in
                                             st_ret (match p with Some p => probes ++ [p] | None => probes end)) (np_index_hints pattern) [] in
  st_ret (serve probes).

(** ** Walking a path *)

(** The row and the relationships of the state one hop further, when the hop
    agrees with what is bound. *)
Definition hop_state (rp : BoundRelPattern) (np : BoundNodePattern) (state : MatchState) (r : RelValue) (neighbour : NodeValue) : option MatchState :=
  let bind (row : Row) (var : option Z) (test : value -> bool) (v : value) : option Row :=
    match var with
    | None => Some row
    | Some var => if row_contains row var then (if test (row_get row var) then Some row else None) else Some (row_set row var v)
    end in
  match bind (ms_row state) (rp_var rp) (fun v => is_rel v r) (CRel r) with
  | None => None
  | Some row =>
    match bind row (np_var np) (fun v => is_node v neighbour) (CNode neighbour) with
    | None => None
    | Some row => Some (mkMatchState row ({[rv_id r]} ∪ ms_used_rels state))
    end
  end.

Definition path_step (path : PathBuild) (r : RelValue) (n : NodeValue) : PathBuild := mkPathBuild (pb_nodes path ++ [n]) (pb_rels path ++ [r]).

(** The ids a bound list of relationships pins; [None]: nothing can match. *)
Fixpoint rel_ids (items : list value) : option (list bytes) :=
  match items with
  | [] => Some []
  | CRel r :: items => option_map (cons (rv_id r)) (rel_ids items)
  | _ :: _ => None
  end.

Definition pinned_hops (rp : BoundRelPattern) (row : Row) : option (option (list bytes)) :=
  match rp_var rp with
  | Some var =>
    if row_contains row var
    then match row_get row var with CList items => option_map Some (rel_ids items) | _ => None end
    else Some None
  | None => Some None
  end.

Section var_length.
Variable rp : BoundRelPattern.
Variable np : BoundNodePattern.
Variable pinned : option (list bytes).
Variable lo hi : Z.
(** The rest of the pattern. *)
Variable continue : NodeValue -> MatchState -> PathBuild -> list MatchState -> M (list MatchState).

Definition pinned_complete (hops : list RelValue) : bool :=
  match pinned with Some ids => bool_decide (ids = List.map rv_id hops) | None => true end.

(** The end of the hops reached so far. *)
Definition accept (frame : VarHopFrame) (results : list MatchState) : M (list MatchState) :=
  let state := vf_state frame in
  if (lo <=? zlen (vf_hops frame)) && pinned_complete (vf_hops frame)
  then
    let! ok := node_satisfies (vf_from frame) np (ms_row state) in
    if negb ok then st_ret results
    else
      let row := match rp_var rp, pinned with
                 | Some var, None => row_set (ms_row state) var (CList (List.map CRel (vf_hops frame)))
                 | _, _ => ms_row state
                 end in
      let target := match np_var np with
                    | Some var => if row_contains row var then (if is_node (row_get row var) (vf_from frame) then Some row else None)
                                  else Some (row_set row var (CNode (vf_from frame)))
                    | None => Some row
                    end in
      match target with
      | Some row => continue (vf_from frame) (mkMatchState row (ms_used_rels state)) (vf_path frame) results
      | None => st_ret results
      end
  else st_ret results.

(** A hop a pinned sequence does not allow is pruned. *)
Definition pruned (hops : list RelValue) (r : RelValue) : bool :=
  match pinned with
  | Some ids => match ids !! length hops with Some id => negb (bool_decide (id = rv_id r)) | None => true end
  | None => false
  end.

Definition child (frame : VarHopFrame) (children : list VarHopFrame) (e : RelValue * NodeValue) : M (list VarHopFrame) :=
  let '(r, neighbour) := e in
  let state := vf_state frame in
  let! _ := e_hop in
  if pruned (vf_hops frame) r then st_ret children
  else if bool_decide (rv_id r ∈ ms_used_rels state) then st_ret children
  else
    let! ok := rel_satisfies r rp (ms_row state) in
    if negb ok then st_ret children
    else
      st_ret (children ++ [mkFrame neighbour (mkMatchState (ms_row state) ({[rv_id r]} ∪ ms_used_rels state))
                             (path_step (vf_path frame) r neighbour) (vf_hops frame ++ [r])]).

(** The stack, its top first: children are pushed in reverse, so the first
    child is on top. *)
Fixpoint walk_stack (fuel : nat) (stack : list VarHopFrame) (results : list MatchState) : M (list MatchState) :=
  match stack with
  | [] => st_ret results
  | frame :: stack =>
    match fuel with
    | O => st_fail XFuel
    | S fuel =>
      let! results := accept frame results in
      if hi <=? zlen (vf_hops frame) then walk_stack fuel stack results
      else
        let! edges := e_expand (cx_graph ctx) (nv_id (vf_from frame)) (rp_direction rp) (rp_types rp) in
        let! children := st_fold (child frame) edges [] in
        walk_stack fuel (children ++ stack) results
    end
  end.
End var_length.

Definition USIZE_MAX : Z := 2 ^ 64 - 1.
Definition unwrap_or (o : option Z) (d : Z) : Z := match o with Some n => n | None => d end.

Definition expand_var_length (rp : BoundRelPattern) (np : BoundNodePattern) (bounds : VarLength)
    (continue : NodeValue -> MatchState -> PathBuild -> list MatchState -> M (list MatchState))
    (from : NodeValue) (state : MatchState) (path : PathBuild) (results : list MatchState) : M (list MatchState) :=
  match pinned_hops rp (ms_row state) with
  | None => st_ret results
  | Some pinned =>
    walk_stack rp np pinned (unwrap_or (vl_min bounds) 1) (unwrap_or (vl_max bounds) USIZE_MAX) continue walk_fuel [mkFrame from state path []] results
  end.

(** One hop of fixed length. *)
Definition fixed_hop (rp : BoundRelPattern) (np : BoundNodePattern)
    (continue : NodeValue -> MatchState -> PathBuild -> list MatchState -> M (list MatchState))
    (state : MatchState) (path : PathBuild) (results : list MatchState) (e : RelValue * NodeValue) : M (list MatchState) :=
  let '(r, neighbour) := e in
  let! _ := e_hop in
  if bool_decide (rv_id r ∈ ms_used_rels state) then st_ret results
  else
    let! ok := rel_satisfies r rp (ms_row state) in
    if negb ok then st_ret results
    else
      let! ok := node_satisfies neighbour np (ms_row state) in
      if negb ok then st_ret results
      else
        match hop_state rp np state r neighbour with
        | Some next => continue neighbour next (path_step path r neighbour) results
        | None => st_ret results
        end.

Fixpoint walk_steps (path_var : option Z) (steps : list (BoundRelPattern * BoundNodePattern)) (from : NodeValue) (state : MatchState)
    (path : PathBuild) (results : list MatchState) : M (list MatchState) :=
  match steps with
  | [] =>
    let done := match path_var with
                | Some var => mkMatchState (row_set (ms_row state) var (CPath (pb_nodes path) (pb_rels path))) (ms_used_rels state)
                | None => state
                end in
    let! _ := e_row (zlen results) in
    st_ret (results ++ [done])
  | (rp, np) :: steps =>
    match rp_var_length rp with
    | None =>
      let! edges := e_expand (cx_graph ctx) (nv_id from) (rp_direction rp) (rp_types rp) in
      st_fold (fixed_hop rp np (walk_steps path_var steps) state path) edges results
    | Some bounds => expand_var_length rp np bounds (walk_steps path_var steps) from state path results
    end
  end.

(** The anchors of a path, and whether they are a bound variable's. *)
Definition anchors_of (pattern : BoundPathPattern) (state : MatchState) : M (option (bool * list NodeValue)) :=
  let start := pp_start pattern in
  let fresh :=
    let! sought := seek_anchor start (ms_row state) in
    match sought with
    | Some nodes => st_ret (Some (false, nodes))
    | None => let! nodes := e_nodes_by_labels (cx_graph ctx) (np_labels start) in st_ret (Some (false, nodes))
    end in
  match np_var start with
  | Some var =>
    if row_contains (ms_row state) var
    then st_ret match row_get (ms_row state) var with CNode n => Some (true, [n]) | _ => None end
    else fresh
  | None => fresh
  end.

Definition match_path (pattern : BoundPathPattern) (state : MatchState) : M (list MatchState) :=
  let! anchors := anchors_of pattern state in
  match anchors with
  | None => st_ret []
  | Some (pinned, anchors) =>
    let! _ := (if pinned then st_ret tt else e_scan (zlen anchors)) in
    st_fold (fun results anchor =>
      let! ok := node_satisfies anchor (pp_start pattern) (ms_row state) in
      if negb ok then st_ret results
      else
        let row := match np_var (pp_start pattern) with Some var => row_set (ms_row state) var (CNode anchor) | None => ms_row state end in
        walk_steps (pp_path_var pattern) (pp_steps pattern) anchor (mkMatchState row (ms_used_rels state)) (mkPathBuild [anchor] []) results)
      anchors []
  end.

(** ** Pattern predicates *)

Fixpoint probe_steps (steps : list (BoundRelPattern * BoundNodePattern)) (row : Row) (from : NodeValue) : M bool :=
  match steps with
  | [] => st_ret true
  | (rp, np) :: steps =>
    match rp_var_length rp with
    | Some _ => st_fail (XUnsupported "var-length pattern predicates" (rp_span rp))
    | None =>
      let! edges := e_expand (cx_graph ctx) (nv_id from) (rp_direction rp) (rp_types rp) in
      st_any (fun e : RelValue * NodeValue =>
        let '(r, neighbour) := e in
        let! _ := e_hop in
        if match rp_var rp with Some var => negb (is_rel (row_get row var) r) | None => false end then st_ret false
        else if match np_var np with Some var => negb (is_node (row_get row var) neighbour) | None => false end then st_ret false
        else if negb (has_labels (np_labels np) neighbour) then st_ret false
        else probe_steps steps row neighbour) edges
    end
  end.

Definition pattern_exists (pattern : BoundPathPattern) (row : Row) : M bool :=
  let start := pp_start pattern in
  let! starts := match np_var start with
                 | Some var => st_ret match row_get row var with CNode n => [n] | _ => [] end
                 | None =>
                   let! candidates := e_nodes_by_labels (cx_graph ctx) (np_labels start) in
                   let! _ := e_scan (zlen candidates) in st_ret candidates
                 end in
  st_any (fun n => if has_labels (np_labels start) n then probe_steps (pp_steps pattern) row n else st_ret false) starts.

(** ** Expressions *)

Definition ensure (v : value) (span : Span) : M unit := st_of (ensure_nestable v span).

(** The elements of a list an expression iterates over; [None] for a null list. *)
Definition iterated (message : string) (v : value) (span : Span) : result ExecError (option (list value)) :=
  match v with
  | CNull => Ok None
  | CList items => Ok (Some items)
  | other => Err (XType (got message other) span)
  end.

(** Evaluate and test a condition that must be [true]. *)
Definition holds (cond : option BoundExpr) (row : Row) (span : Span) : M bool :=
  match cond with
  | None => st_ret true
  | Some cond =>
    let! v := rec ctx cond row in
    let! t := st_of (truth v span) in
    st_ret match t with Some true => true | _ => false end
  end.

Definition eval_opt (e : option BoundExpr) (row : Row) : M (option value) :=
  match e with None => st_ret None | Some e => let! v := rec ctx e row in st_ret (Some (decay v)) end.

Fixpoint case_operand (subject : value) (whens : list (BoundExpr * BoundExpr)) (row : Row) : M (option value) :=
  match whens with
  | [] => st_ret None
  | (candidate, result) :: whens =>
    let! c := rec ctx candidate row in
    match veq3 subject c with
    | Some true => let! v := rec ctx result row in st_ret (Some v)
    | _ => case_operand subject whens row
    end
  end.

Fixpoint case_conditions (whens : list (BoundExpr * BoundExpr)) (row : Row) : M (option value) :=
  match whens with
  | [] => st_ret None
  | (condition, result) :: whens =>
    let! c := rec ctx condition row in
    let! t := st_of (truth c (expr_span result)) in
    match t with
    | Some true => let! v := rec ctx result row in st_ret (Some v)
    | _ => case_conditions whens row
    end
  end.

Definition has_all_labels (subject : value) (labels : list bytes) (span : Span) : result ExecError value :=
  match subject with
  | CNull => Ok CNull
  | CNode n => Ok (CBool (has_labels labels n))
  | CRel r => Ok (CBool (forallb (fun l => bool_decide (l = rv_type r)) labels))
  | other => Err (XInvalidArgument (got "the label predicate needs a node or relationship, got " other) span)
  end.

Definition comprehend (variable : Z) (where_clause map : option BoundExpr) (items : list value) (row : Row) (span : Span) : M (list value) :=
  st_fold (fun out item =>
    let inner := row_set row variable item in
    let! keep := holds where_clause inner span in
    if negb keep then st_ret out
    else
      let! _ := e_collection_push (zlen out) in
      let! v := match map with Some map => rec ctx map inner | None => st_ret item end in
      let! _ := ensure v span in
      st_ret (out ++ [v])) items [].

(** The counts of a quantifier: true and null. *)
Definition quantify (kind : QuantifierKind) (variable : Z) (items : list value) (predicate : BoundExpr) (row : Row) (span : Span) : M value :=
  let! counts := st_fold (fun counts item =>
    let '(index, t, n) := counts in
    let! _ := e_collection_push (Z.of_nat index) in
    let! v := rec ctx predicate (row_set row variable item) in
    let! p := st_of (truth v span) in
    st_ret match p with
           | Some true => (index + 1, t + 1, n)%nat
           | Some false => (index + 1, t, n)%nat
           | None => (index + 1, t, n + 1)%nat
           end) items (0, 0, 0)%nat in
  let '(_, t, n) := counts in
  st_ret (quantified kind t (length items - t - n) n).

(** The row keeps what the body binds from one step to the next. *)
Definition reduce (accumulator variable : Z) (items : list value) (init : value) (expr : BoundExpr) (row : Row) : M value :=
  let! final := st_fold (fun '(index, acc, inner) item =>
    let! _ := e_collection_push (Z.of_nat index) in
    let inner := row_set (row_set inner accumulator acc) variable item in
    let! acc := rec ctx expr inner in
    st_ret ((index + 1)%nat, acc, inner)) items (0%nat, init, row) in
  let '(_, acc, _) := final in st_ret acc.

Definition eval_body (expr : BoundExpr) (row : Row) : M value :=
  match expr with
  | ELiteral l _ => st_ret (literal_value l)
  | EParameter name span => match cx_parameters ctx !! name with Some v => st_ret v | None => st_fail (XMissingParameter name span) end
  | EVariable id _ => st_ret (row_get row id)
  | EProperty base key span => let! b := rec ctx base row in st_of (property_access b key span)
  | EUnary op operand span => let! v := rec ctx operand row in st_of (unary op (decay v) span)
  | EBinary op lhs rhs span =>
    if is_logical op
    then
      let! a := rec ctx lhs row in
      let! a := st_of (truth a span) in
      let! b := rec ctx rhs row in
      let! b := st_of (truth b span) in
      st_ret (ternary_to_value (logic op a b))
    else
      let! a := rec ctx lhs row in
      let! b := rec ctx rhs row in
      binary op (decay a) (decay b) span
  | EIsNull operand negated _ => let! v := rec ctx operand row in st_ret (CBool (xorb (is_null v) negated))
  | EHasLabels subject labels span => let! v := rec ctx subject row in st_of (has_all_labels (decay v) labels span)
  | EFunction name args span =>
    let! vs := st_fold (fun vs arg => let! v := rec ctx arg row in st_ret (vs ++ [decay v])) args [] in
    call name vs span (cx_graph ctx)
  | EAggregate identity _ _ _ span =>
    match cx_aggregates ctx with
    | None => st_fail (XUnsupported "aggregate outside projection" span)
    | Some slots => match slots !! identity with Some v => st_ret v | None => st_fail (XUnsupported "aggregate slot mismatch" span) end
    end
  | ECase operand whens else_expr _ =>
    let! found := match operand with
                  | Some operand => let! subject := rec ctx operand row in case_operand subject whens row
                  | None => case_conditions whens row
                  end in
    match found with
    | Some v => st_ret v
    | None => match else_expr with Some e => rec ctx e row | None => st_ret CNull end
    end
  | EListLiteral items span =>
    let! vs := st_fold (fun vs item => let! v := rec ctx item row in let! _ := ensure v span in st_ret (vs ++ [v])) items [] in
    st_ret (CList vs)
  | EListComprehension variable list where_clause map span =>
    let! l := rec ctx list row in
    let! items := st_of (iterated "expected a list, got " l span) in
    match items with
    | None => st_ret CNull
    | Some items => let! out := comprehend variable where_clause map items row span in st_ret (CList out)
    end
  | EQuantifier kind variable list predicate span =>
    let! l := rec ctx list row in
    let! items := st_of (iterated "expected a list, got " l span) in
    match items with None => st_ret CNull | Some items => quantify kind variable items predicate row span end
  | EReduce accumulator init variable list expr span =>
    let! l := rec ctx list row in
    let! items := st_of (iterated "reduce expects a list, got " l span) in
    match items with
    | None => st_ret CNull
    | Some items => let! acc := rec ctx init row in reduce accumulator variable items acc expr row
    end
  | EMapLiteral entries span =>
    let! m := st_fold (fun m e => let! v := rec ctx e.2 row in let! _ := ensure v span in st_ret (map_insert m e.1 v)) entries [] in
    st_ret (CMap m)
  | EIndex base index span =>
    let! b := rec ctx base row in
    let! i := rec ctx index row in
    st_of (index_access (decay b) (decay i) span)
  | ESlice base from to span =>
    let! b := rec ctx base row in
    let! from := eval_opt from row in
    let! to := eval_opt to row in
    st_of (slice_access (decay b) from to span)
  | EPatternPredicate pattern _ => let! found := pattern_exists pattern row in st_ret (CBool found)
  | EPatternComprehension pattern where_clause map span =>
    let! matched := match_path pattern (mkMatchState row ∅) in
    let! items := st_fold (fun items state =>
      let! keep := holds where_clause (ms_row state) (match where_clause with Some w => expr_span w | None => span end) in
      if negb keep then st_ret items
      else
        let! v := rec ctx map (ms_row state) in
        let! _ := ensure v span in
        let! _ := e_collection_push (zlen items) in
        st_ret (items ++ [v])) matched [] in
    st_ret (CList items)
  end.
End body.

Fixpoint eval (fuel : nat) (ctx : EvalCtx) (expr : BoundExpr) (row : Row) : M value :=
  match fuel with
  | O => st_fail XFuel
  | S fuel => eval_body (eval fuel) ctx expr row
  end.
End eval.
