(* ===== verification/CypherProject.v ===== *)
(** * MATCH, UNWIND, WITH and RETURN (acetone-cypher/src/exec/run.rs)

    The read clauses over materialised rows: matching, projection with
    grouping, aggregation, [DISTINCT], [ORDER BY], [SKIP], [LIMIT] and the
    trailing [WHERE]. *)
From Stdlib Require Import SpecFloat.
From S2P Require Import Prelude Keys Model Canonical CypherValue CypherExpr CypherSource CypherOps CypherFunctions CypherEval.
Open Scope Z_scope.

Section project.
Context {W : Type} `{!Effects W} `{!Std}.
Abbreviation M := (st W ExecError).
Abbreviation key_of := (distinct_key std_debug_value).
Abbreviation vcmp := (global_cmp std_debug_value).

Variables walk_fuel fuel : nat.
Abbreviation ev := (eval walk_fuel fuel).
Abbreviation match_path := (match_path walk_fuel ev).

(** ** MATCH *)

Definition mentioned_vars (pattern : BoundPathPattern) : list Z :=
  let opt (o : option Z) := match o with Some v => [v] | None => [] end in
  opt (pp_path_var pattern) ++ opt (np_var (pp_start pattern)) ++
  concat (List.map (fun '(r, n) => opt (rp_var r) ++ opt (np_var n)) (pp_steps pattern)).

Definition match_patterns (patterns : list BoundPathPattern) (ctx : EvalCtx) (row : Row) : M (list MatchState) :=
  st_fold (fun states pattern =>
    st_fold (fun next state =>
      let! matched := match_path ctx pattern state in
      st_fold (fun next matched => let! _ := e_row (zlen next) in st_ret (next ++ [matched])) matched next)
      states [])
    patterns [mkMatchState row ∅].

Definition push_row (out : list Row) (row : Row) : M (list Row) := let! _ := e_row (zlen out) in st_ret (out ++ [row]).

Definition where_span (where_clause : option BoundExpr) : Span := match where_clause with Some w => expr_span w | None => mkSpan 0 0 end.

Definition match_clause (rows : list Row) (optional : bool) (patterns : list BoundPathPattern) (where_clause : option BoundExpr) (ctx : EvalCtx) : M (list Row) :=
  let mentioned := concat (List.map mentioned_vars patterns) in
  st_fold (fun out row =>
    let! states := match_patterns patterns ctx row in
    let! matched := st_fold (fun matched state =>
      let! keep := holds ev ctx where_clause (ms_row state) (where_span where_clause) in
      st_ret (if keep then matched ++ [ms_row state] else matched)) states [] in
    match matched, optional with
    | [], true => push_row out (List.fold_left (fun row var => if row_contains row var then row else row_set row var CNull) mentioned row)
    | _, _ => st_fold push_row matched out
    end) rows [].

(** ** Aggregates *)

Fixpoint collect_aggregates (e : BoundExpr) : list BoundExpr :=
  let opt (o : option BoundExpr) := match o with Some e => collect_aggregates e | None => [] end in
  match e with
  | EAggregate _ _ _ _ _ => [e]
  | ELiteral _ _ | EParameter _ _ | EVariable _ _ | EPatternComprehension _ _ _ _ | EPatternPredicate _ _ => []
  | EProperty base _ _ => collect_aggregates base
  | EUnary _ operand _ | EIsNull operand _ _ => collect_aggregates operand
  | EHasLabels subject _ _ => collect_aggregates subject
  | EBinary _ lhs rhs _ => collect_aggregates lhs ++ collect_aggregates rhs
  | EFunction _ args _ => concat (List.map collect_aggregates args)
  | ECase operand whens else_expr _ =>
    opt operand ++ concat (List.map (fun w => collect_aggregates w.1 ++ collect_aggregates w.2) whens) ++ opt else_expr
  | EListLiteral items _ => concat (List.map collect_aggregates items)
  | EListComprehension _ list where_clause map _ => collect_aggregates list ++ opt where_clause ++ opt map
  | EQuantifier _ _ list predicate _ => collect_aggregates list ++ collect_aggregates predicate
  | EReduce _ init _ list expr _ => collect_aggregates init ++ collect_aggregates list ++ collect_aggregates expr
  | EMapLiteral entries _ => concat (List.map (fun e => collect_aggregates e.2) entries)
  | EIndex base index _ => collect_aggregates base ++ collect_aggregates index
  | ESlice base from to _ => collect_aggregates base ++ opt from ++ opt to
  end.

(** The first value of each key, each charged as it is kept. *)
Definition keep_distinct {A : Type} (key : A -> bytes) (charge : Z -> M unit) (items : list A) : M (list A) :=
  let! kept := st_fold (fun (s : gset bytes * list A) item =>
    let '(seen, kept) := s in
    if bool_decide (key item ∈ seen) then st_ret s
    else let! _ := charge (zlen kept) in st_ret ({[key item]} ∪ seen, kept ++ [item])) items (∅, []) in
  st_ret kept.2.

Definition checked_sum (a b : Z) (span : Span) : result ExecError Z :=
  if (- 2 ^ 63 <=? a + b) && (a + b <? 2 ^ 63) then Ok (a + b) else Err (XOverflow span).

Fixpoint sum_loop (values : list value) (int_sum : Z) (float_sum : spec_float) (is_float : bool) (span : Span) : result ExecError value :=
  match values with
  | [] => Ok (if is_float then CFloat (SFadd prec emax float_sum (f64_of_i64 int_sum)) else CInt int_sum)
  | CInt n :: values => let? int_sum := checked_sum int_sum n span in sum_loop values int_sum float_sum is_float span
  | CFloat x :: values => sum_loop values int_sum (SFadd prec emax float_sum x) true span
  | other :: _ => Err (XType (got "sum() needs numbers, got " other) span)
  end.

Fixpoint avg_loop (values : list value) (total : spec_float) (span : Span) : result ExecError spec_float :=
  match values with
  | [] => Ok total
  | CInt n :: values => avg_loop values (SFadd prec emax total (f64_of_i64 n)) span
  | CFloat x :: values => avg_loop values (SFadd prec emax total x) span
  | other :: _ => Err (XType (got "avg() needs numbers, got " other) span)
  end.

(** [min_by] keeps the first of equal values, [max_by] the last. *)
Definition min_value (values : list value) : value :=
  match values with
  | [] => CNull
  | v :: values => List.fold_left (fun x y => match vcmp x y with Gt => y | _ => x end) values v
  end.
Definition max_value (values : list value) : value :=
  match values with
  | [] => CNull
  | v :: values => List.fold_left (fun x y => match vcmp x y with Gt => x | _ => y end) values v
  end.

Definition aggregate_values (name : string) (values : list value) (span : Span) : M value :=
  if bool_decide (name = "count"%string) then st_ret (CInt (zlen values))
  else if bool_decide (name = "collect"%string) then
    let! _ := e_collection (zlen values) in
    let! _ := st_fold (fun _ v => ensure v span) values tt in
    st_ret (CList values)
  else if bool_decide (name = "sum"%string) then st_of (sum_loop values 0 (S754_zero false) false span)
  else if bool_decide (name = "avg"%string) then
    match values with
    | [] => st_ret CNull
    | _ => let! total := st_of (avg_loop values (S754_zero false) span) in
           st_ret (CFloat (SFdiv prec emax total (f64_of_i64 (zlen values))))
    end
  else if bool_decide (name = "min"%string) then st_ret (min_value values)
  else if bool_decide (name = "max"%string) then st_ret (max_value values)
  else st_fail (XUnsupported "aggregate" span).

Definition accumulate (ctx : EvalCtx) (name : string) (distinct : bool) (arg : option BoundExpr) (span : Span) (group : list Row) : M value :=
  let! values := st_fold (fun values row =>
    match arg with
    | None => st_ret (values ++ [CInt 1])
    | Some expr => let! v := ev ctx expr row in st_ret (if is_null v then values else values ++ [v])
    end) group [] in
  let! values := (if distinct then keep_distinct key_of e_collection_push values else st_ret values) in
  aggregate_values name values span.

Definition eval_with_group (ctx : EvalCtx) (expr : BoundExpr) (group : list Row) (representative : Row) : M value :=
  let! slots := st_fold (fun (slots : gmap Z value) aggregate =>
    match aggregate with
    | EAggregate identity name distinct arg span => let! v := accumulate ctx name distinct arg span group in st_ret (<[identity := v]> slots)
    | _ => st_ret slots
    end) (collect_aggregates expr) ∅ in
  ev (mkCtx (cx_graph ctx) (cx_parameters ctx) (Some slots)) expr representative.

(** ** Projection *)

(** The keys of the values of some expressions. *)
Definition row_key (values : list value) : bytes := concat (List.map key_of values).

(** Add a row to the group of its key, if there is one. *)
Fixpoint push_to_group (key : bytes) (row : Row) (groups : list (bytes * list Row)) : option (list (bytes * list Row)) :=
  match groups with
  | [] => None
  | (k, rows) :: groups =>
    if bool_decide (k = key) then Some ((k, rows ++ [row]) :: groups)
    else option_map (cons (k, rows)) (push_to_group key row groups)
  end.

Definition group_rows (ctx : EvalCtx) (exprs : list BoundExpr) (rows : list Row) : M (list (bytes * list Row)) :=
  st_fold (fun groups row =>
    let! key := st_fold (fun key expr => let! v := ev ctx expr row in st_ret (key ++ key_of v)) exprs [] in
    match push_to_group key row groups with
    | Some groups => st_ret groups
    | None => let! _ := e_collection_push (zlen groups) in st_ret (groups ++ [(key, [row])])
    end) rows [].

Definition grouping_exprs (p : BoundProjection) : list BoundExpr := omap (fun i => option_map pi_expr (pr_items p !! i)) (pr_grouping_items p).

Definition project_group (ctx : EvalCtx) (p : BoundProjection) (group : list Row) : M Row :=
  let representative := match group with row :: _ => row | [] => ∅ end in
  st_fold (fun out item => let! v := eval_with_group ctx (pi_expr item) group representative in st_ret (row_set out (pi_var item) v))
    (pr_items p) representative.

Definition project_row (ctx : EvalCtx) (p : BoundProjection) (row : Row) : M Row :=
  st_fold (fun out item => let! v := ev ctx (pi_expr item) row in st_ret (row_set out (pi_var item) v)) (pr_items p) row.

Definition merged_rows (ctx : EvalCtx) (p : BoundProjection) (rows : list Row) : M (list Row) :=
  if pr_aggregating p
  then
    let! groups := group_rows ctx (grouping_exprs p) rows in
    let groups := List.map snd groups in
    let groups := match groups, pr_grouping_items p with [], [] => [[]] | _, _ => groups end in
    st_fold (fun merged group => let! out := project_group ctx p group in push_row merged out) groups []
  else st_fold (fun merged row => let! out := project_row ctx p row in push_row merged out) rows [].

Definition projected_values (p : BoundProjection) (row : Row) : list value := List.map (fun item => row_get row (pi_var item)) (pr_items p).

(** ** ORDER BY *)

Fixpoint order_cmp (a b : list (value * bool)) : comparison :=
  match a, b with
  | (x, descending) :: a, (y, _) :: b =>
    let ordering := if descending then CompOpp (vcmp x y) else vcmp x y in
    match ordering with Eq => order_cmp a b | _ => ordering end
  | _, _ => Eq
  end.

(** A stable sort. *)
Fixpoint insert_by {A : Type} (cmp : A -> A -> comparison) (x : A) (l : list A) : list A :=
  match l with
  | [] => [x]
  | y :: l => match cmp x y with Gt => y :: insert_by cmp x l | _ => x :: y :: l end
  end.
Fixpoint sort_by {A : Type} (cmp : A -> A -> comparison) (l : list A) : list A :=
  match l with [] => [] | x :: l => insert_by cmp x (sort_by cmp l) end.

Definition order_keys (ctx : EvalCtx) (p : BoundProjection) (row : Row) : M (list (value * bool)) :=
  st_fold (fun key '(expr, descending) => let! v := ev ctx expr row in st_ret (key ++ [(v, descending)])) (pr_order_by p) [].

Definition order_rows (ctx : EvalCtx) (p : BoundProjection) (rows : list Row) : M (list Row) :=
  match pr_order_by p with
  | [] => st_ret rows
  | _ =>
    let! keyed := st_fold (fun keyed row => let! key := order_keys ctx p row in st_ret (keyed ++ [(key, row)])) rows [] in
    st_ret (List.map snd (sort_by (fun a b => order_cmp a.1 b.1) keyed))
  end.

(** ** SKIP, LIMIT and the whole projection *)

Definition usize_bound (v : value) (span : Span) : result ExecError Z :=
  let refuse := Err (XInvalidArgument (text "SKIP/LIMIT needs a non-negative integer, got " ++ value_format v) span) in
  match v with CInt n => if 0 <=? n then Ok n else refuse | _ => refuse end.

Definition eval_bound (ctx : EvalCtx) (expr : BoundExpr) : M Z := let! v := ev ctx expr ∅ in st_of (usize_bound v (expr_span expr)).

(** A count of elements of a list, none beyond its end. *)
Definition upto {A : Type} (n : Z) (l : list A) : nat := Z.to_nat (Z.min n (zlen l)).

Definition project (rows : list Row) (p : BoundProjection) (ctx : EvalCtx) (is_with : bool) : M (list bytes * list Row) :=
  let! merged := merged_rows ctx p rows in
  let! merged := (if pr_distinct p then keep_distinct (fun row => row_key (projected_values p row)) e_row merged else st_ret merged) in
  let! merged := order_rows ctx p merged in
  let! merged := match pr_skip p with None => st_ret merged | Some e => let! n := eval_bound ctx e in st_ret (drop (upto n merged) merged) end in
  let! merged := match pr_limit p with None => st_ret merged | Some e => let! n := eval_bound ctx e in st_ret (take (upto n merged) merged) end in
  let! merged := (if is_with
                  then st_fold (fun kept row => let! keep := holds ev ctx (pr_where p) row (where_span (pr_where p)) in
                                                st_ret (if keep then kept ++ [row] else kept)) merged []
                  else st_ret merged) in
  st_ret (List.map pi_name (pr_items p), merged).

(** ** UNWIND *)

(** The rows a following [WITH] lets through at most. *)
Definition unwind_row_cap (next : option BoundClause) (ctx : EvalCtx) : M (option Z) :=
  match next with
  | Some (ClWith p) =>
    if pr_distinct p || pr_aggregating p || negb (match pr_order_by p with [] => true | _ => false end) then st_ret None
    else
      match pr_limit p with
      | None => st_ret None
      | Some limit =>
        let! cap := eval_bound ctx limit in
        match pr_skip p with
        | None => st_ret (Some cap)
        | Some skip => let! s := eval_bound ctx skip in st_ret (Some (Z.min (cap + s) USIZE_MAX))
        end
      end
  | _ => st_ret None
  end.

Definition capped (cap : option Z) (n : Z) : bool := match cap with Some cap => cap <=? n | None => false end.

(** The items of one row; [true] when the cap was reached. *)
Fixpoint unwind_items (alias : Z) (cap : option Z) (row : Row) (items : list value) (out : list Row) : M (list Row * bool) :=
  match items with
  | [] => st_ret (out, false)
  | item :: items =>
    if capped cap (zlen out) then st_ret (out, true)
    else let! out := push_row out (row_set row alias item) in unwind_items alias cap row items out
  end.

Fixpoint unwind_rows (ctx : EvalCtx) (expr : BoundExpr) (alias : Z) (span : Span) (cap : option Z) (rows : list Row) (out : list Row) : M (list Row) :=
  match rows with
  | [] => st_ret out
  | row :: rows =>
    let! l := ev ctx expr row in
    match l with
    | CNull => unwind_rows ctx expr alias span cap rows out
    | CList items =>
      let! r := unwind_items alias cap row items out in
      if r.2 then st_ret r.1 else unwind_rows ctx expr alias span cap rows r.1
    | other => st_fail (XType (got "UNWIND needs a list, got " other) span)
    end
  end.
End project.
