(* ===== verification/CypherRun.v ===== *)
(** * The clause pipeline (acetone-cypher/src/exec/run.rs)

    [run_versioned] and the write clauses: each clause takes the rows of the
    one before it, and every clause reads the graph the writes before it have
    left. *)
From Stdlib Require Import SpecFloat.
From S2P Require Import Prelude Keys Model Canonical Schema Governor CypherValue CypherExpr CypherSource CypherOps CypherFunctions CypherEval CypherProject.
Open Scope Z_scope.

(** [VersionResolver] and [ProcedureProvider] *)
Record VersionResolver : Type := mkResolver { vr_base : GraphSource; vr_at : bytes -> result bytes GraphSource }.
Record ProcedureProvider : Type := mkProvider { pv_call : bytes -> list value -> result bytes (list (list value)) }.

Definition SingleVersion (g : GraphSource) : VersionResolver :=
  mkResolver g (fun refspec => Err (text "AT '" ++ refspec ++ text "' needs a repository-backed resolver; this query has a single fixed graph")).
Definition NoProcedures : ProcedureProvider :=
  mkProvider (fun name _ => Err (text "procedure " ++ name ++ text " needs a repository-backed provider; this query has none")).

Record QueryResult : Type := mkResult {
  qr_columns : list bytes; qr_rows : list (list value); qr_identifier_columns : list bool; qr_stats : WriteSummary }.

Section run.
Context {W : Type} `{!Effects W} `{!Std}.
Abbreviation M := (st W ExecError).

Variables walk_fuel fuel : nat.
Variable parameters : gmap bytes value.
Abbreviation ev := (eval walk_fuel fuel).

(** A new evaluation context over a graph. *)
Definition in_context {A : Type} (g : GraphSource) (body : EvalCtx -> M A) : M A :=
  let! _ := e_context in body (mkCtx g parameters None).

Definition over {A : Type} (g : MutableGraph) (body : EvalCtx -> M A) : M A := in_context (mutable_source g) body.

(** ** CREATE *)

Definition eval_property_map (properties : option BoundExpr) (row : Row) (span : Span) (ctx : EvalCtx) : M (list (bytes * value)) :=
  match properties with
  | None => st_ret []
  | Some expr =>
    let! v := ev ctx expr row in
    match v with
    | CMap m => st_ret m
    | other => st_fail (XType (got "a property map must be a map, got " other) span)
    end
  end.

Definition resolve_or_create_node (np : BoundNodePattern) (row : Row) (g : MutableGraph) : M (NodeValue * Row * MutableGraph) :=
  let create :=
    let! props := over g (eval_property_map (np_properties np) row (np_span np)) in
    let! props :=
      (if np_mint_surrogate np && negb (bool_decide (is_Some (map_get props SURROGATE_KEY_PROPERTY)))
       then let! id := e_mint_surrogate_id in st_ret (map_insert props SURROGATE_KEY_PROPERTY (CString id))
       else st_ret props) in
    let '(n, g) := create_node g (np_labels np) props in
    st_ret (n, match np_var np with Some var => row_set row var (CNode n) | None => row end, g) in
  match np_var np with
  | Some var =>
    if row_contains row var
    then
      match row_get row var with
      | CNode n => st_ret (n, row, g)
      | other => st_fail (XType (got "CREATE cannot reference a bound " other ++ text " as a node") (np_span np))
      end
    else create
  | None => create
  end.

Record CreateState : Type := mkCreate { cs_row : Row; cs_graph : MutableGraph; cs_prev : NodeValue; cs_path : PathBuild }.

Definition create_step (s : CreateState) (step : BoundRelPattern * BoundNodePattern) : M CreateState :=
  let '(rp, np) := step in
  let! '(target, row, g) := resolve_or_create_node np (cs_row s) (cs_graph s) in
  match rp_types rp with
  | [] => st_fail XFuel
  | rel_type :: _ =>
    let! props := over g (eval_property_map (rp_properties rp) row (rp_span rp)) in
    let ends := match rp_direction rp with
                | DOut => Some (nv_id (cs_prev s), nv_id target)
                | DIn => Some (nv_id target, nv_id (cs_prev s))
                | DUndirected => None
                end in
    match ends with
    | None => st_fail (XInvalidArgument (text "CREATE requires a directed relationship") (rp_span rp))
    | Some (start, finish) =>
      let '(r, g) := create_rel g start rel_type finish props in
      let row := match rp_var rp with Some var => row_set row var (CRel r) | None => row end in
      st_ret (mkCreate row g target (path_step (cs_path s) r target))
    end
  end.

Definition create_path (pattern : BoundPathPattern) (row : Row) (g : MutableGraph) : M (Row * MutableGraph) :=
  let! '(start, row, g) := resolve_or_create_node (pp_start pattern) row g in
  let! s := st_fold create_step (pp_steps pattern) (mkCreate row g start (mkPathBuild [start] [])) in
  st_ret (match pp_path_var pattern with
          | Some var => row_set (cs_row s) var (CPath (pb_nodes (cs_path s)) (pb_rels (cs_path s)))
          | None => cs_row s
          end, cs_graph s).

Definition create_clause (rows : list Row) (patterns : list BoundPathPattern) (g : MutableGraph) : M (list Row * MutableGraph) :=
  st_fold (fun '(out, g) row =>
    let! '(row, g) := st_fold (fun '(row, g) pattern => create_path pattern row g) patterns (row, g) in
    let! out := push_row out row in st_ret (out, g)) rows ([], g).

(** ** SET and REMOVE *)

Definition not_an_entity (v : value) (span : Span) : ExecError := XType (got "SET/REMOVE needs a node or relationship, got " v) span.

(** The properties a map, a node or a relationship stands for. *)
Definition map_source (v : value) (merge : bool) (span : Span) : result ExecError (option (list (bytes * value))) :=
  match v with
  | CMap m => Ok (Some m)
  | CNode n => Ok (Some (nv_properties n))
  | CRel r => Ok (Some (rv_properties r))
  | CNull => Ok (if merge then None else Some [])
  | other => Err (XType (text "SET " ++ text (if merge then "+=" else "=") ++ got " needs a map, got " other) span)
  end.

Definition apply_set_map (target : Z) (v : BoundExpr) (merge : bool) (row : Row) (g : MutableGraph) (span : Span) : M (Row * MutableGraph) :=
  let! source := over g (fun ctx => ev ctx v row) in
  let! m := st_of (map_source source merge span) in
  match m with
  | None => st_ret (row, g)
  | Some m =>
    match row_get row target with
    | CNull => st_ret (row, g)
    | CNode n =>
      let '(updated, g) := set_node_properties g (nv_id n) m merge in
      st_ret (match updated with Some n => row_set row target (CNode n) | None => row end, g)
    | CRel r => let '(r, g) := set_rel_properties g r m merge in st_ret (row_set row target (CRel r), g)
    | other => st_fail (not_an_entity other span)
    end
  end.

Definition change_labels (change : MutableGraph -> bytes -> bytes -> option NodeValue * MutableGraph) (target : Z) (labels : list bytes)
    (row : Row) (g : MutableGraph) (span : Span) : result ExecError (Row * MutableGraph) :=
  match row_get row target with
  | CNull => Ok (row, g)
  | CNode n =>
    let '(n, g) := List.fold_left (fun (s : NodeValue * MutableGraph) label =>
      let '(updated, g) := change s.2 (nv_id s.1) label in (match updated with Some n => n | None => s.1 end, g)) labels (n, g) in
    Ok (row_set row target (CNode n), g)
  | other => Err (XType (got "only nodes carry labels, got " other) span)
  end.

Definition apply_set_item (item : BoundSetItem) (row : Row) (g : MutableGraph) : M (Row * MutableGraph) :=
  match item with
  | SetProperty target key v span =>
    let! new_value := over g (fun ctx => ev ctx v row) in
    let v := if is_null new_value then None else Some new_value in
    match row_get row target with
    | CNull => st_ret (row, g)
    | CNode n =>
      let '(updated, g) := set_node_property g (nv_id n) key v in
      st_ret (match updated with Some n => row_set row target (CNode n) | None => row end, g)
    | CRel r => let '(r, g) := set_rel_property g r key v in st_ret (row_set row target (CRel r), g)
    | other => st_fail (not_an_entity other span)
    end
  | SetReplace target v span => apply_set_map target v false row g span
  | SetMerge target v span => apply_set_map target v true row g span
  | SetAddLabels target labels span => st_of (change_labels add_node_label target labels row g span)
  end.

Definition apply_remove_item (item : BoundRemoveItem) (row : Row) (g : MutableGraph) : result ExecError (Row * MutableGraph) :=
  match item with
  | RemoveProperty target key span =>
    match row_get row target with
    | CNull => Ok (row, g)
    | CNode n =>
      let '(updated, g) := set_node_property g (nv_id n) key None in
      Ok (match updated with Some n => row_set row target (CNode n) | None => row end, g)
    | CRel r => let '(r, g) := set_rel_property g r key None in Ok (row_set row target (CRel r), g)
    | other => Err (not_an_entity other span)
    end
  | RemoveLabels target labels span => change_labels remove_node_label target labels row g span
  end.

(** The values of a row, as far as this query has changed them. *)
Definition refresh_node (g : MutableGraph) (n : NodeValue) : NodeValue := match node_override g (nv_id n) with Some n => n | None => n end.
Definition refresh_rel (g : MutableGraph) (r : RelValue) : RelValue := match rel_override g (rv_id r) with Some r => r | None => r end.
Definition refresh_value (g : MutableGraph) (v : value) : value :=
  match v with
  | CNode n => CNode (refresh_node g n)
  | CRel r => CRel (refresh_rel g r)
  | CPath nodes rels => CPath (List.map (refresh_node g) nodes) (List.map (refresh_rel g) rels)
  | v => v
  end.
Definition refresh_entities (row : Row) (g : MutableGraph) : Row := refresh_value g <$> row.

Definition apply_set_items (items : list BoundSetItem) (row : Row) (g : MutableGraph) : M (Row * MutableGraph) :=
  let! '(row, g) := st_fold (fun '(row, g) item => apply_set_item item row g) items (row, g) in
  st_ret (refresh_entities row g, g).

Definition set_clause (rows : list Row) (items : list BoundSetItem) (g : MutableGraph) : M (list Row * MutableGraph) :=
  st_fold (fun '(out, g) row =>
    let! '(row, g) := apply_set_items items row g in
    let! out := push_row out row in st_ret (out, g)) rows ([], g).

(** A [REMOVE] charges nothing. *)
Definition remove_clause (rows : list Row) (items : list BoundRemoveItem) (g : MutableGraph) : M (list Row * MutableGraph) :=
  st_fold (fun '(out, g) row =>
    let! '(row, g) := st_fold (fun '(row, g) item => st_of (apply_remove_item item row g)) items (row, g) in
    st_ret (out ++ [refresh_entities row g], g)) rows ([], g).

(** ** DELETE *)

Definition collect_delete_target (v : value) (span : Span) (targets : list bytes * list RelValue) : result ExecError (list bytes * list RelValue) :=
  let '(node_ids, rels) := targets in
  match v with
  | CNull => Ok (node_ids, rels)
  | CNode n => Ok (node_ids ++ [nv_id n], rels)
  | CRel r => Ok (node_ids, rels ++ [r])
  | CPath nodes path_rels => Ok (node_ids ++ List.map nv_id nodes, rels ++ path_rels)
  | other => Err (XType (got "DELETE needs a node, relationship or path, got " other) span)
  end.

Fixpoint delete_nodes (detach : bool) (ids : list bytes) (span : Span) (g : MutableGraph) : result ExecError MutableGraph :=
  match ids with
  | [] => Ok g
  | id :: ids =>
    if detach then delete_nodes detach ids span (detach_delete_node g id)
    else if has_incident_rels g id
    then Err (XInvalidArgument (text "cannot delete a node with relationships; use DETACH DELETE") span)
    else delete_nodes detach ids span (delete_node g id)
  end.

Definition delete_clause (rows : list Row) (detach : bool) (targets : list BoundExpr) (g : MutableGraph) : M (list Row * MutableGraph) :=
  let! '(node_ids, rels) := over g (fun ctx =>
    st_fold (fun found row =>
      st_fold (fun found target => let! v := ev ctx target row in st_of (collect_delete_target v (expr_span target) found)) targets found)
      rows ([], [])) in
  let g := List.fold_left delete_rel rels g in
  let! g := st_of (delete_nodes detach node_ids (match targets with t :: _ => expr_span t | [] => mkSpan 0 0 end) g) in
  st_ret (rows, g).

(** ** MERGE *)

Definition merge_clause (rows : list Row) (pattern : BoundPathPattern) (on_create on_match : list BoundSetItem) (g : MutableGraph) : M (list Row * MutableGraph) :=
  st_fold (fun '(out, g) row =>
    let! matched := over g (fun ctx => match_path walk_fuel ev ctx pattern (mkMatchState row ∅)) in
    match matched with
    | [] =>
      let! '(row, g) := create_path pattern row g in
      let! '(row, g) := apply_set_items on_create row g in
      let! out := push_row out row in st_ret (out, g)
    | _ =>
      st_fold (fun '(out, g) state =>
        let! '(row, g) := apply_set_items on_match (ms_row state) g in
        let! out := push_row out row in st_ret (out, g)) matched (out, g)
    end) rows ([], g).

(** ** CALL *)

Fixpoint position (column : bytes) (columns : list bytes) : option nat :=
  match columns with
  | [] => None
  | c :: columns => if bool_decide (c = column) then Some O else option_map S (position column columns)
  end.

Fixpoint yield_positions (procedure : ProcedureDef) (yields : list BoundYield) : option (list (nat * Z)) :=
  match yields with
  | [] => Some []
  | y :: yields =>
    match position (by_column y) (pd_yields procedure), yield_positions procedure yields with
    | Some i, Some rest => Some ((i, by_var y) :: rest)
    | _, _ => None
    end
  end.

Definition call_row (procedures : ProcedureProvider) (procedure : ProcedureDef) (args : list BoundExpr) (positions : list (nat * Z))
    (where_clause : option BoundExpr) (span : Span) (g : MutableGraph) (produced : list (Row * list value)) (row : Row) : M (list (Row * list value)) :=
  let! values := over g (fun ctx => st_fold (fun vs arg => let! v := ev ctx arg row in st_ret (vs ++ [v])) args []) in
  let! tuples := match pv_call procedures (pd_name procedure) values with
                 | Ok tuples => st_ret tuples
                 | Err message => st_fail (XInvalidArgument message span)
                 end in
  st_fold (fun produced tuple =>
    let next := List.fold_left (fun row '(i, var) => row_set row var (or_null (tuple !! i))) positions row in
    let! keep := match where_clause with
                 | None => st_ret true
                 | Some _ => over g (fun ctx => holds ev ctx where_clause next (where_span where_clause))
                 end in
    if negb keep then st_ret produced
    else let! _ := e_row (zlen produced) in st_ret (produced ++ [(next, tuple)])) tuples produced.

(** ** The pipeline *)

Definition resolve_at_ref (at_ref : AtRef) : result ExecError bytes :=
  match at_ref with
  | AtRefspec refspec => Ok refspec
  | AtParameter name span =>
    match parameters !! name with
    | Some (CString s) => Ok s
    | Some other => Err (XType (got "AT parameter must be a string, got " other) span)
    | None => Err (XMissingParameter name span)
    end
  end.

Definition is_identifier_expr (e : BoundExpr) (vars : gset Z) : bool :=
  match e with
  | EFunction name _ _ => bool_decide (name = "labels"%string) || bool_decide (name = "keys"%string) || bool_decide (name = "type"%string)
  | EVariable id _ => bool_decide (id ∈ vars)
  | _ => false
  end.

Record Pipeline : Type := mkPipeline { pl_rows : list Row; pl_graph : MutableGraph; pl_result : option QueryResult; pl_identifiers : gset Z }.

Definition set_rows (p : Pipeline) (rows : list Row) : Pipeline := mkPipeline rows (pl_graph p) (pl_result p) (pl_identifiers p).
Definition set_written (p : Pipeline) (r : list Row * MutableGraph) : Pipeline := mkPipeline r.1 r.2 (pl_result p) (pl_identifiers p).

Definition return_result (columns : list bytes) (rows : list (list value)) (identifiers : list bool) : QueryResult :=
  mkResult columns rows identifiers empty_summary.

(** One clause, with the one after it. *)
Definition run_clause (resolver : VersionResolver) (procedures : ProcedureProvider) (clause : BoundClause) (next : option BoundClause) (p : Pipeline) : M Pipeline :=
  let g := pl_graph p in
  match clause with
  | ClMatch optional patterns at_ref where_clause span =>
    let! source := match at_ref with
                   | None => st_ret (mutable_source g)
                   | Some at_ref =>
                     let! refspec := st_of (resolve_at_ref at_ref) in
                     match vr_at resolver refspec with
                     | Ok source => st_ret source
                     | Err message => st_fail (XInvalidArgument message span)
                     end
                   end in
    let! rows := in_context source (match_clause walk_fuel fuel (pl_rows p) optional patterns where_clause) in
    st_ret (set_rows p rows)
  | ClUnwind expr alias span =>
    let vars := if is_identifier_expr expr (pl_identifiers p) then {[alias]} ∪ pl_identifiers p else pl_identifiers p in
    let! rows := over g (fun ctx =>
      let! cap := unwind_row_cap walk_fuel fuel next ctx in
      unwind_rows walk_fuel fuel ctx expr alias span cap (pl_rows p) []) in
    st_ret (mkPipeline rows g (pl_result p) vars)
  | ClWith projection =>
    let vars := list_to_set (List.map pi_var (List.filter (fun item => is_identifier_expr (pi_expr item) (pl_identifiers p)) (pr_items projection))) in
    let! out := over g (fun ctx => project walk_fuel fuel (pl_rows p) projection ctx true) in
    st_ret (mkPipeline out.2 g (pl_result p) vars)
  | ClReturn projection =>
    let identifiers := List.map (fun item => is_identifier_expr (pi_expr item) (pl_identifiers p)) (pr_items projection) in
    let! out := over g (fun ctx => project walk_fuel fuel (pl_rows p) projection ctx false) in
    st_ret (mkPipeline [] g (Some (return_result out.1 (List.map (projected_values projection) out.2) identifiers)) (pl_identifiers p))
  | ClCreate patterns => let! r := create_clause (pl_rows p) patterns g in st_ret (set_written p r)
  | ClSet items => let! r := set_clause (pl_rows p) items g in st_ret (set_written p r)
  | ClRemove items => let! r := remove_clause (pl_rows p) items g in st_ret (set_written p r)
  | ClDelete detach targets => let! r := delete_clause (pl_rows p) detach targets g in st_ret (set_written p r)
  | ClMerge pattern on_create on_match => let! r := merge_clause (pl_rows p) pattern on_create on_match g in st_ret (set_written p r)
  | ClCall procedure args yields where_clause span =>
    let vars := List.fold_left (fun vars y => if contains (pd_identifier_yields procedure) (by_column y) then {[by_var y]} ∪ vars else vars) yields (pl_identifiers p) in
    match yield_positions procedure yields with
    | None => st_fail XFuel
    | Some positions =>
      let! produced := st_fold (call_row procedures procedure args positions where_clause span g) (pl_rows p) [] in
      match yields with
      | [] =>
        st_ret (mkPipeline [] g
          (Some (return_result (pd_yields procedure) (List.map snd produced) (List.map (contains (pd_identifier_yields procedure)) (pd_yields procedure)))) vars)
      | _ => st_ret (mkPipeline (List.map fst produced) g (pl_result p) vars)
      end
    end
  end.

Fixpoint run_clauses (resolver : VersionResolver) (procedures : ProcedureProvider) (clauses : list BoundClause) (p : Pipeline) : M Pipeline :=
  match clauses with
  | [] => st_ret p
  | clause :: rest => let! p := run_clause resolver procedures clause (head rest) p in run_clauses resolver procedures rest p
  end.

(** The columns a trailing [CALL] yields, when nothing was returned. *)
Definition implicit_result (clauses : list BoundClause) (p : Pipeline) : option QueryResult :=
  match pl_result p, last clauses with
  | None, Some (ClCall _ _ (y :: ys) _ _) =>
    let yields := y :: ys in
    Some (return_result (List.map by_name yields) (List.map (fun row => List.map (fun y => row_get row (by_var y)) yields) (pl_rows p))
      (List.map (fun y => bool_decide (by_var y ∈ pl_identifiers p)) yields))
  | result, _ => result
  end.

Definition run_versioned (clauses : list BoundClause) (resolver : VersionResolver) (procedures : ProcedureProvider) : M (QueryResult * WriteChanges) :=
  if existsb (fun e : bytes * value => nesting_exceeds e.2 MAX_VALUE_DEPTH) (map_to_list parameters)
  then st_fail (XResourceExceeded ValueDepth (mkSpan 0 0))
  else
    let! p := run_clauses resolver procedures clauses (mkPipeline [∅] (mutable_new (vr_base resolver)) None ∅) in
    let stats := summary (pl_graph p) in
    let result := match implicit_result clauses p with
                  | Some r => mkResult (qr_columns r) (qr_rows r) (qr_identifier_columns r) stats
                  | None => mkResult [] [] [] stats
                  end in
    st_ret (result, changes (pl_graph p)).
End run.
