(* ===== verification/CypherSim.v ===== *)
(** * One query, two machines

    The executor is one program over any [Effects].  When the operations of
    one machine simulate those of another, so does every query: either it
    gives the same result, or it stops with an excused error. *)
From Stdlib Require Import SpecFloat.
From S2P Require Import Prelude Keys Model Canonical CypherValue CypherExpr CypherSource CypherOps CypherFunctions CypherEval CypherProject CypherRun.
Open Scope Z_scope.

Section sim.
Context {W1 W2 : Type} `{!Effects W1} `{!Effects W2} `{!Std}.
Variable excused : ExecError -> Prop.

(** [m1] does what [m2] does, or stops with an excused error. *)
Definition sim_from {A : Type} (R R' : W1 -> W2 -> Prop) (m1 : st W1 ExecError A) (m2 : st W2 ExecError A) : Prop :=
  forall s t, R s t ->
    match m1 s with
    | (Ok a, s') => exists t', m2 t = (Ok a, t') /\ R' s' t'
    | (Err e, _) => excused e \/ exists t', m2 t = (Err e, t')
    end.

Lemma sim_bind {A B : Type} R R' R'' (m1 : st W1 ExecError A) m2 (f1 : A -> st W1 ExecError B) f2 :
  sim_from R R' m1 m2 -> (forall a, sim_from R' R'' (f1 a) (f2 a)) -> sim_from R R'' (st_bind m1 f1) (st_bind m2 f2).
Proof.
  intros Hm Hf s t HR. specialize (Hm s t HR). unfold st_bind. destruct (m1 s) as [[a|e] s1].
  - destruct Hm as (t1 & -> & HR1). by apply Hf.
  - destruct Hm as [He|(t1 & ->)]; [by left|]. right. by eexists.
Qed.

Lemma sim_ret {A : Type} (R : W1 -> W2 -> Prop) (a : A) : sim_from R R (st_ret a) (st_ret a).
Proof. intros s t HR. by exists t. Qed.
Lemma sim_fail {A : Type} (R R' : W1 -> W2 -> Prop) e : sim_from R R' (st_fail e : st W1 ExecError A) (st_fail e).
Proof. intros s t HR. right. by exists t. Qed.
Lemma sim_of {A : Type} (R : W1 -> W2 -> Prop) (r : result ExecError A) : sim_from R R (st_of r) (st_of r).
Proof. destruct r; [apply sim_ret|apply sim_fail]. Qed.
Lemma sim_excused {A : Type} (R R' : W1 -> W2 -> Prop) e (m : st W2 ExecError A) : excused e -> sim_from R R' (st_fail e) m.
Proof. intros He s t _. by left. Qed.

Lemma sim_fold {A B : Type} R (f1 : B -> A -> st W1 ExecError B) f2 l b :
  (forall b a, sim_from R R (f1 b a) (f2 b a)) -> sim_from R R (st_fold f1 l b) (st_fold f2 l b).
Proof. intros Hf. revert b. induction l as [|a l IH]; intros b; cbn [st_fold]; [apply sim_ret|]. by eapply sim_bind. Qed.

Lemma sim_any {A : Type} R (f1 : A -> st W1 ExecError bool) f2 l :
  (forall a, sim_from R R (f1 a) (f2 a)) -> sim_from R R (st_any f1 l) (st_any f2 l).
Proof.
  intros Hf. induction l as [|a l IH]; cbn [st_any]; [apply sim_ret|]. eapply sim_bind; [apply Hf|].
  intros []; [apply sim_ret|exact IH].
Qed.

(** ** The operations of a context

    [R] relates the machines while they evaluate over the graph [g]. *)
Record context_sim (g : GraphSource) (R : W1 -> W2 -> Prop) : Prop := {
  sim_row : forall n, sim_from R R (e_row n) (e_row n);
  sim_hop : sim_from R R e_hop e_hop;
  sim_collection : forall n, sim_from R R (e_collection n) (e_collection n);
  sim_collection_push : forall n, sim_from R R (e_collection_push n) (e_collection_push n);
  sim_scan : forall n, sim_from R R (e_scan n) (e_scan n);
  sim_nodes_by_labels : forall labels, sim_from R R (e_nodes_by_labels g labels) (e_nodes_by_labels g labels);
  sim_expand : forall id direction types, sim_from R R (e_expand g id direction types) (e_expand g id direction types) }.

Variables walk1 walk2 : nat.
Hypothesis Hwalk : (walk1 <= walk2)%nat.
Hypothesis Hfuel : excused XFuel \/ walk1 = walk2.

Section context.
Variable g : GraphSource.
Variable R : W1 -> W2 -> Prop.
Hypothesis HR : context_sim g R.
Abbreviation sim := (sim_from R R).

(** Take a simulation apart, one operation or test at a time. *)
Ltac sim_step :=
  match goal with
  | |- sim_from _ _ (st_bind _ _) (st_bind _ _) => eapply sim_bind; [|intros ?]
  | |- sim_from _ _ (st_ret _) (st_ret _) => apply sim_ret
  | |- sim_from _ _ (st_fail _) (st_fail _) => apply sim_fail
  | |- sim_from _ _ (st_of _) (st_of _) => apply sim_of
  | |- sim_from _ _ (st_fold _ _ _) (st_fold _ _ _) => apply sim_fold; intros ? ?
  | |- sim_from _ _ (st_any _ _) (st_any _ _) => apply sim_any; intros ?
  | |- sim_from _ _ (e_row _) _ => apply (sim_row _ _ HR)
  | |- sim_from _ _ e_hop _ => apply (sim_hop _ _ HR)
  | |- sim_from _ _ (e_collection _) _ => apply (sim_collection _ _ HR)
  | |- sim_from _ _ (e_collection_push _) _ => apply (sim_collection_push _ _ HR)
  | |- sim_from _ _ (e_scan _) _ => apply (sim_scan _ _ HR)
  | |- sim_from _ _ (e_nodes_by_labels _ _) _ => apply (sim_nodes_by_labels _ _ HR)
  | |- sim_from _ _ (e_expand _ _ _ _) _ => apply (sim_expand _ _ HR)
  | H : _ |- sim_from _ _ _ _ => apply H; assumption
  | |- sim_from _ _ (match ?x with _ => _ end) _ => destruct x eqn:?
  | |- sim_from _ _ ((match ?x with _ => _ end) _) _ => destruct x eqn:?
  end.
Ltac sim_auto := repeat sim_step; try done.

Lemma sim_add a b span : sim (add a b span) (add a b span).
Proof. unfold add. destruct a, b; sim_auto. Qed.

Lemma sim_binary op a b span : sim (binary op a b span) (binary op a b span).
Proof. pose proof (sim_add a b span). unfold binary. destruct op; sim_auto. Qed.

Lemma sim_charged_list items : sim (charged_list items) (charged_list items).
Proof. unfold charged_list. sim_auto. Qed.

Definition sim_opt {A : Type} (m1 : option (st W1 ExecError A)) (m2 : option (st W2 ExecError A)) : Prop :=
  match m1, m2 with Some m1, Some m2 => sim m1 m2 | None, None => True | _, _ => False end.

Lemma sim_numeric name arg span : sim_opt (call_numeric name arg span) (call_numeric name arg span).
Proof. unfold call_numeric, float_fn. repeat match goal with |- sim_opt (if ?c then _ else _) _ => destruct c end; cbn [sim_opt]; sim_auto. Qed.
Lemma sim_container name args arg span : sim_opt (call_container name args arg span g) (call_container name args arg span g).
Proof.
  pose proof sim_charged_list. unfold call_container, range. repeat match goal with |- sim_opt (if ?c then _ else _) _ => destruct c end; cbn [sim_opt]; sim_auto.
Qed.
Lemma sim_string name args arg span : sim_opt (call_string name args arg span) (call_string name args arg span).
Proof. unfold call_string, string_fn. repeat match goal with |- sim_opt (if ?c then _ else _) _ => destruct c end; cbn [sim_opt]; sim_auto. Qed.
Lemma sim_convert name arg span : sim_opt (call_convert name arg span) (call_convert name arg span).
Proof. unfold call_convert. repeat match goal with |- sim_opt (if ?c then _ else _) _ => destruct c end; cbn [sim_opt]; sim_auto. Qed.

Lemma sim_call name args span : sim (call name args span g) (call name args span g).
Proof.
  unfold call. destruct (is_fn name "coalesce"); [sim_auto|]. destruct (_ && _); [sim_auto|]. cbn zeta. set (arg := fun i => _).
  pose proof (sim_numeric name arg span) as H1. pose proof (sim_container name args arg span) as H2.
  pose proof (sim_string name args arg span) as H3. pose proof (sim_convert name arg span) as H4.
  unfold sim_opt in *. repeat case_match; try done. apply sim_fail.
Qed.

(** ** The evaluator *)

Section body.
Variable rec1 : EvalCtx -> BoundExpr -> Row -> st W1 ExecError value.
Variable rec2 : EvalCtx -> BoundExpr -> Row -> st W2 ExecError value.
Variable ctx : EvalCtx.
Hypothesis Hg : cx_graph ctx = g.
Hypothesis Hrec : forall e row, sim (rec1 ctx e row) (rec2 ctx e row).

Lemma sim_properties ps actual row : sim (properties_satisfy rec1 ctx ps actual row) (properties_satisfy rec2 ctx ps actual row).
Proof. unfold properties_satisfy. sim_auto. Qed.
Lemma sim_node_satisfies n pattern row : sim (node_satisfies rec1 ctx n pattern row) (node_satisfies rec2 ctx n pattern row).
Proof. pose proof sim_properties. unfold node_satisfies. sim_auto. Qed.
Lemma sim_rel_satisfies r pattern row : sim (rel_satisfies rec1 ctx r pattern row) (rel_satisfies rec2 ctx r pattern row).
Proof. pose proof sim_properties. unfold rel_satisfies. sim_auto. Qed.

Lemma sim_seek_anchor pattern row : sim (seek_anchor rec1 ctx pattern row) (seek_anchor rec2 ctx pattern row).
Proof. unfold seek_anchor, resolve_probe, seek_values. sim_auto. Qed.

Section walks.
Variables (k1 : NodeValue -> MatchState -> PathBuild -> list MatchState -> st W1 ExecError (list MatchState))
  (k2 : NodeValue -> MatchState -> PathBuild -> list MatchState -> st W2 ExecError (list MatchState)).
Hypothesis Hk : forall n s p r, sim (k1 n s p r) (k2 n s p r).

Lemma sim_accept rp np pinned lo frame results :
  sim (accept rec1 ctx rp np pinned lo k1 frame results) (accept rec2 ctx rp np pinned lo k2 frame results).
Proof. pose proof sim_node_satisfies. unfold accept. sim_auto. Qed.

Lemma sim_child rp pinned frame children e : sim (child rec1 ctx rp pinned frame children e) (child rec2 ctx rp pinned frame children e).
Proof. pose proof sim_rel_satisfies. unfold child. sim_auto. Qed.

Lemma sim_walk_stack rp np pinned lo hi f1 f2 stack results : (f1 <= f2)%nat -> excused XFuel \/ f1 = f2 ->
  sim (walk_stack rec1 ctx rp np pinned lo hi k1 f1 stack results) (walk_stack rec2 ctx rp np pinned lo hi k2 f2 stack results).
Proof.
  pose proof sim_accept. pose proof sim_child. intros Hle Hf. revert f2 Hle Hf stack results. induction f1 as [|f1 IH]; intros f2 Hle Hf stack results.
  - destruct stack as [|frame stack]; [destruct f2; apply sim_ret|]. destruct Hf as [He|<-]; [by apply sim_excused|]. apply sim_fail.
  - destruct f2 as [|f2]; [lia|]. assert (forall stack results, sim (walk_stack rec1 ctx rp np pinned lo hi k1 f1 stack results) (walk_stack rec2 ctx rp np pinned lo hi k2 f2 stack results)) as IH'.
    { intros. apply IH; [lia|]. destruct Hf as [?|[= ->]]; [by left|by right]. }
    clear IH. cbn [walk_stack]. rewrite Hg. sim_auto.
Qed.

Lemma sim_fixed_hop rp np state path results e :
  sim (fixed_hop rec1 ctx rp np k1 state path results e) (fixed_hop rec2 ctx rp np k2 state path results e).
Proof. pose proof sim_rel_satisfies. pose proof sim_node_satisfies. unfold fixed_hop. sim_auto. Qed.
End walks.

Lemma sim_walk_steps path_var steps from state path results :
  sim (walk_steps walk1 rec1 ctx path_var steps from state path results) (walk_steps walk2 rec2 ctx path_var steps from state path results).
Proof.
  revert from state path results. induction steps as [|[rp np] steps IH]; intros from state path results; cbn [walk_steps]; [sim_auto|].
  rewrite Hg. destruct (rp_var_length rp).
  - unfold expand_var_length. destruct (pinned_hops rp (ms_row state)); [|apply sim_ret]. by apply sim_walk_stack.
  - sim_auto. by apply sim_fixed_hop.
Qed.

Lemma sim_match_path pattern state : sim (match_path walk1 rec1 ctx pattern state) (match_path walk2 rec2 ctx pattern state).
Proof. pose proof sim_walk_steps. pose proof sim_node_satisfies. pose proof sim_seek_anchor. unfold match_path, anchors_of. rewrite Hg. sim_auto. Qed.

Lemma sim_probe_steps steps row from : sim (probe_steps ctx steps row from) (probe_steps ctx steps row from).
Proof. revert from. induction steps as [|[rp np] steps IH]; intros from; cbn [probe_steps]; rewrite ?Hg; sim_auto. Qed.

Lemma sim_pattern_exists pattern row : sim (pattern_exists ctx pattern row) (pattern_exists ctx pattern row).
Proof. pose proof sim_probe_steps. unfold pattern_exists. rewrite Hg. sim_auto. Qed.

Lemma sim_holds cond row span : sim (holds rec1 ctx cond row span) (holds rec2 ctx cond row span).
Proof. unfold holds. sim_auto. Qed.
Lemma sim_eval_opt e row : sim (eval_opt rec1 ctx e row) (eval_opt rec2 ctx e row).
Proof. unfold eval_opt. sim_auto. Qed.
Lemma sim_case_operand subject whens row : sim (case_operand rec1 ctx subject whens row) (case_operand rec2 ctx subject whens row).
Proof. induction whens as [|[c r] whens IH]; cbn [case_operand]; sim_auto. Qed.
Lemma sim_case_conditions whens row : sim (case_conditions rec1 ctx whens row) (case_conditions rec2 ctx whens row).
Proof. induction whens as [|[c r] whens IH]; cbn [case_conditions]; sim_auto. Qed.
Lemma sim_comprehend x w m items row span : sim (comprehend rec1 ctx x w m items row span) (comprehend rec2 ctx x w m items row span).
Proof. pose proof sim_holds. unfold comprehend, ensure. sim_auto. Qed.
Lemma sim_quantify kind x items p row span : sim (quantify rec1 ctx kind x items p row span) (quantify rec2 ctx kind x items p row span).
Proof. unfold quantify. sim_auto. Qed.
Lemma sim_reduce a x items init e row : sim (reduce rec1 ctx a x items init e row) (reduce rec2 ctx a x items init e row).
Proof. unfold reduce. sim_auto. Qed.

Lemma sim_eval_body e row : sim (eval_body walk1 rec1 ctx e row) (eval_body walk2 rec2 ctx e row).
Proof.
  pose proof sim_binary. pose proof sim_call. pose proof sim_match_path. pose proof sim_pattern_exists. pose proof sim_holds. pose proof sim_eval_opt.
  pose proof sim_case_operand. pose proof sim_case_conditions. pose proof sim_comprehend. pose proof sim_quantify. pose proof sim_reduce.
  unfold eval_body, ensure. destruct e; rewrite ?Hg; sim_auto.
Qed.
End body.

Lemma sim_eval f1 f2 ctx e row : (f1 <= f2)%nat -> excused XFuel \/ f1 = f2 -> cx_graph ctx = g ->
  sim (eval walk1 f1 ctx e row) (eval walk2 f2 ctx e row).
Proof.
  intros Hle Hf. revert f2 Hle Hf ctx e row. induction f1 as [|f1 IH]; intros f2 Hle Hf ctx e row Hg.
  - destruct Hf as [He|<-]; [by apply sim_excused|]. apply sim_fail.
  - destruct f2 as [|f2]; [lia|]. cbn [eval]. apply sim_eval_body; [done|]. intros e' row'. apply IH; [lia| |done].
    destruct Hf as [?|[= ->]]; [by left|by right].
Qed.

(** ** Clauses that read *)

Section clauses.
Variables f1 f2 : nat.
Hypothesis Hf12 : (f1 <= f2)%nat.
Hypothesis Hf : excused XFuel \/ f1 = f2.
Variable ctx : EvalCtx.
Hypothesis Hg : cx_graph ctx = g.

Lemma sim_ev e row : sim (eval walk1 f1 ctx e row) (eval walk2 f2 ctx e row).
Proof. by apply sim_eval. Qed.
Lemma sim_path pattern state : sim (match_path walk1 (eval walk1 f1) ctx pattern state) (match_path walk2 (eval walk2 f2) ctx pattern state).
Proof. apply sim_match_path; [done|]. intros. apply sim_ev. Qed.
Lemma sim_condition cond row span : sim (holds (eval walk1 f1) ctx cond row span) (holds (eval walk2 f2) ctx cond row span).
Proof. apply sim_holds. intros. apply sim_ev. Qed.

Lemma sim_push_row out row : sim (push_row out row) (push_row out row).
Proof. unfold push_row. sim_auto. Qed.

Lemma sim_match_patterns patterns row : sim (match_patterns walk1 f1 patterns ctx row) (match_patterns walk2 f2 patterns ctx row).
Proof. pose proof sim_path. unfold match_patterns. sim_auto. Qed.

Lemma sim_match_clause rows optional patterns w : sim (match_clause walk1 f1 rows optional patterns w ctx) (match_clause walk2 f2 rows optional patterns w ctx).
Proof. pose proof sim_match_patterns. pose proof sim_condition. pose proof sim_push_row. unfold match_clause. sim_auto. Qed.

Lemma sim_keep_distinct {A : Type} (key : A -> bytes) (c1 : Z -> st W1 ExecError unit) c2 items :
  (forall n, sim (c1 n) (c2 n)) -> sim (keep_distinct key c1 items) (keep_distinct key c2 items).
Proof. intros Hc. unfold keep_distinct. sim_auto. Qed.

Lemma sim_aggregate_values name values span : sim (aggregate_values name values span) (aggregate_values name values span).
Proof. unfold aggregate_values, ensure. sim_auto. Qed.

Lemma sim_accumulate name distinct arg span group : sim (accumulate walk1 f1 ctx name distinct arg span group) (accumulate walk2 f2 ctx name distinct arg span group).
Proof.
  pose proof sim_ev. pose proof sim_aggregate_values. unfold accumulate. sim_auto. apply sim_keep_distinct. intros n. sim_auto.
Qed.
End clauses.

Section projection.
Variables f1 f2 : nat.
Hypothesis Hf12 : (f1 <= f2)%nat.
Hypothesis Hf : excused XFuel \/ f1 = f2.
Variable ctx : EvalCtx.
Hypothesis Hg : cx_graph ctx = g.

Lemma sim_eval_with_group e group r : sim (eval_with_group walk1 f1 ctx e group r) (eval_with_group walk2 f2 ctx e group r).
Proof. unfold eval_with_group. sim_auto; [by apply sim_accumulate|by apply sim_ev]. Qed.

Lemma sim_group_rows exprs rows : sim (group_rows walk1 f1 ctx exprs rows) (group_rows walk2 f2 ctx exprs rows).
Proof. pose proof (sim_ev f1 f2 Hf12 Hf ctx Hg). unfold group_rows. sim_auto. Qed.
Lemma sim_project_group p group : sim (project_group walk1 f1 ctx p group) (project_group walk2 f2 ctx p group).
Proof. pose proof sim_eval_with_group. unfold project_group. sim_auto. Qed.
Lemma sim_project_row p row : sim (project_row walk1 f1 ctx p row) (project_row walk2 f2 ctx p row).
Proof. pose proof (sim_ev f1 f2 Hf12 Hf ctx Hg). unfold project_row. sim_auto. Qed.
Lemma sim_merged_rows p rows : sim (merged_rows walk1 f1 ctx p rows) (merged_rows walk2 f2 ctx p rows).
Proof. pose proof sim_group_rows. pose proof sim_project_group. pose proof sim_project_row. pose proof sim_push_row. unfold merged_rows. sim_auto. Qed.
Lemma sim_order_rows p rows : sim (order_rows walk1 f1 ctx p rows) (order_rows walk2 f2 ctx p rows).
Proof. pose proof (sim_ev f1 f2 Hf12 Hf ctx Hg). unfold order_rows, order_keys. sim_auto. Qed.
Lemma sim_eval_bound e : sim (eval_bound walk1 f1 ctx e) (eval_bound walk2 f2 ctx e).
Proof. pose proof (sim_ev f1 f2 Hf12 Hf ctx Hg). unfold eval_bound. sim_auto. Qed.

Lemma sim_project rows p is_with : sim (project walk1 f1 rows p ctx is_with) (project walk2 f2 rows p ctx is_with).
Proof.
  pose proof sim_merged_rows. pose proof sim_order_rows. pose proof sim_eval_bound. pose proof (sim_condition f1 f2 Hf12 Hf ctx Hg).
  unfold project. sim_auto. apply sim_keep_distinct. intros n. sim_auto.
Qed.

Lemma sim_unwind_row_cap next : sim (unwind_row_cap walk1 f1 next ctx) (unwind_row_cap walk2 f2 next ctx).
Proof. pose proof sim_eval_bound. unfold unwind_row_cap. sim_auto. Qed.

Lemma sim_unwind_items alias cap row items out : sim (unwind_items alias cap row items out) (unwind_items alias cap row items out).
Proof. pose proof sim_push_row. revert out. induction items as [|item items IH]; intros out; cbn [unwind_items]; sim_auto. Qed.
Lemma sim_unwind_rows e alias span cap rows out : sim (unwind_rows walk1 f1 ctx e alias span cap rows out) (unwind_rows walk2 f2 ctx e alias span cap rows out).
Proof.
  pose proof (sim_ev f1 f2 Hf12 Hf ctx Hg). pose proof sim_unwind_items. revert out. induction rows as [|row rows IH]; intros out; cbn [unwind_rows]; sim_auto.
Qed.
End projection.
End context.

(** ** The pipeline *)

(** Between contexts the machines are related by [B]; a context over a graph
    of the query begins and ends there. *)
Record machine_sim (fits : GraphSource -> Prop) (B : W1 -> W2 -> Prop) (R : GraphSource -> W1 -> W2 -> Prop) : Prop := {
  ms_context : forall g, fits g -> context_sim g (R g);
  ms_enter : forall g, fits g -> sim_from B (R g) e_context e_context;
  ms_leave : forall g s t, R g s t -> B s t;
  ms_row_between : forall n, sim_from B B (e_row n) (e_row n);
  ms_mint : sim_from B B e_mint_surrogate_id e_mint_surrogate_id;
  ms_overlay : forall m, fits (mutable_source m) }.

Section pipeline.
Variable fits : GraphSource -> Prop.
Variable B : W1 -> W2 -> Prop.
Variable R : GraphSource -> W1 -> W2 -> Prop.
Hypothesis HM : machine_sim fits B R.
Variables f1 f2 : nat.
Hypothesis Hf12 : (f1 <= f2)%nat.
Hypothesis Hf : excused XFuel \/ f1 = f2.
Variable parameters : gmap bytes value.
Abbreviation sim := (sim_from B B).

Lemma sim_in_context {A : Type} g (b1 : EvalCtx -> st W1 ExecError A) b2 :
  fits g -> (forall ctx, cx_graph ctx = g -> sim_from (R g) (R g) (b1 ctx) (b2 ctx)) -> sim (in_context parameters g b1) (in_context parameters g b2).
Proof.
  intros Hfit Hb. unfold in_context. eapply sim_bind; [by apply (ms_enter _ _ _ HM g)|]. intros _ s t HR. specialize (Hb (mkCtx g parameters None) eq_refl s t HR).
  destruct (b1 _ s) as [[a|e] s']; [|done]. destruct Hb as (t' & ? & HR'). exists t'. split; [done|]. by apply (ms_leave _ _ _ HM g).
Qed.

Lemma sim_over {A : Type} (g : MutableGraph) (b1 : EvalCtx -> st W1 ExecError A) b2 :
  (forall ctx, cx_graph ctx = mutable_source g -> sim_from (R (mutable_source g)) (R (mutable_source g)) (b1 ctx) (b2 ctx)) ->
  sim (over parameters g b1) (over parameters g b2).
Proof. apply sim_in_context, (ms_overlay _ _ _ HM). Qed.

Lemma sim_evaluate g ctx e row : fits g -> cx_graph ctx = g -> sim_from (R g) (R g) (eval walk1 f1 ctx e row) (eval walk2 f2 ctx e row).
Proof. intros Hfit Hg. apply (sim_eval g (R g)); [by apply (ms_context _ _ _ HM)|done..]. Qed.

Ltac run_step :=
  match goal with
  | |- sim_from _ _ (e_row _) _ => apply (ms_row_between _ _ _ HM)
  | |- sim_from _ _ e_mint_surrogate_id _ => apply (ms_mint _ _ _ HM)
  | |- sim_from _ _ ?m _ => match m with @over _ _ _ _ _ _ => idtac end; apply sim_over; intros ? ?
  | |- sim_from _ _ (eval _ _ _ _ _) _ => apply sim_evaluate; [apply (ms_overlay _ _ _ HM)|assumption]
  | |- sim_from _ _ (st_bind _ _) (st_bind _ _) => eapply sim_bind; [|intros ?]
  | |- sim_from _ _ (st_ret _) (st_ret _) => apply sim_ret
  | |- sim_from _ _ (st_fail _) (st_fail _) => apply sim_fail
  | |- sim_from _ _ (st_of _) (st_of _) => apply sim_of
  | |- sim_from _ _ (st_fold _ _ _) (st_fold _ _ _) => apply sim_fold; intros ? ?
  | H : _ |- sim_from _ _ _ _ => apply H; assumption
  | |- sim_from _ _ (match ?x with _ => _ end) _ => destruct x eqn:?
  | |- sim_from _ _ ((match ?x with _ => _ end) _) _ => destruct x eqn:?
  end.
Ltac run_auto := repeat run_step; try done.

Lemma run_push_row out row : sim (push_row out row) (push_row out row).
Proof. unfold push_row. run_auto. Qed.

Lemma sim_property_map (g : MutableGraph) ps row span ctx : cx_graph ctx = mutable_source g ->
  sim_from (R (mutable_source g)) (R (mutable_source g)) (eval_property_map walk1 f1 ps row span ctx) (eval_property_map walk2 f2 ps row span ctx).
Proof. intros Hg. unfold eval_property_map. run_auto. Qed.

Lemma sim_create_node np row g : sim (resolve_or_create_node walk1 f1 parameters np row g) (resolve_or_create_node walk2 f2 parameters np row g).
Proof. pose proof sim_property_map. unfold resolve_or_create_node. run_auto. Qed.

Lemma sim_create_path pattern row g : sim (create_path walk1 f1 parameters pattern row g) (create_path walk2 f2 parameters pattern row g).
Proof. pose proof sim_property_map. pose proof sim_create_node. unfold create_path, create_step. run_auto. Qed.

Lemma sim_create_clause rows patterns g : sim (create_clause walk1 f1 parameters rows patterns g) (create_clause walk2 f2 parameters rows patterns g).
Proof. pose proof sim_create_path. pose proof run_push_row. unfold create_clause. run_auto. Qed.

Lemma sim_set_item item row g : sim (apply_set_item walk1 f1 parameters item row g) (apply_set_item walk2 f2 parameters item row g).
Proof. unfold apply_set_item, apply_set_map. run_auto. Qed.
Lemma sim_set_items items row g : sim (apply_set_items walk1 f1 parameters items row g) (apply_set_items walk2 f2 parameters items row g).
Proof. pose proof sim_set_item. unfold apply_set_items. run_auto. Qed.
Lemma sim_set_clause rows items g : sim (set_clause walk1 f1 parameters rows items g) (set_clause walk2 f2 parameters rows items g).
Proof. pose proof sim_set_items. pose proof run_push_row. unfold set_clause. run_auto. Qed.
Lemma sim_remove_clause rows items g : sim (remove_clause rows items g) (remove_clause rows items g).
Proof. unfold remove_clause. run_auto. Qed.
Lemma sim_delete_clause rows detach targets g : sim (delete_clause walk1 f1 parameters rows detach targets g) (delete_clause walk2 f2 parameters rows detach targets g).
Proof. unfold delete_clause. run_auto. Qed.

Lemma sim_merge_clause rows pattern oc om g : sim (merge_clause walk1 f1 parameters rows pattern oc om g) (merge_clause walk2 f2 parameters rows pattern oc om g).
Proof.
  pose proof sim_create_path. pose proof sim_set_items. pose proof run_push_row. unfold merge_clause. run_auto.
  all: match goal with H : cx_graph _ = mutable_source ?g |- _ =>
    apply (sim_path (mutable_source g) (R (mutable_source g))); [apply (ms_context _ _ _ HM), (ms_overlay _ _ _ HM)|done..] end.
Qed.

Lemma sim_call_row procedures procedure args positions w span g produced row :
  sim (call_row walk1 f1 parameters procedures procedure args positions w span g produced row)
    (call_row walk2 f2 parameters procedures procedure args positions w span g produced row).
Proof. unfold call_row, holds. run_auto. Qed.

Variable resolver : VersionResolver.
Variable procedures : ProcedureProvider.
Hypothesis Hat : forall refspec g, vr_at resolver refspec = Ok g -> fits g.

Lemma sim_source at_ref span (m : MutableGraph) (b1 : GraphSource -> st W1 ExecError Pipeline) b2 :
  (forall g, fits g -> sim (b1 g) (b2 g)) ->
  sim (st_bind (match at_ref with
                | None => st_ret (mutable_source m)
                | Some at_ref => let! refspec := st_of (resolve_at_ref parameters at_ref) in
                                 match vr_at resolver refspec with Ok source => st_ret source | Err message => st_fail (XInvalidArgument message span) end
                end) b1)
      (st_bind (match at_ref with
                | None => st_ret (mutable_source m)
                | Some at_ref => let! refspec := st_of (resolve_at_ref parameters at_ref) in
                                 match vr_at resolver refspec with Ok source => st_ret source | Err message => st_fail (XInvalidArgument message span) end
                end) b2).
Proof.
  intros Hb. destruct at_ref as [a|]; [|apply (Hb (mutable_source m)), (ms_overlay _ _ _ HM)].
  intros s t HB. unfold st_bind, st_of, st_ret, st_fail.
  destruct (resolve_at_ref parameters a) as [refspec|e]; [|right; by exists t].
  destruct (vr_at resolver refspec) as [source|message] eqn:E; [|right; by exists t].
  apply (Hb source); [by eapply Hat|done].
Qed.

Lemma sim_run_clause clause next p :
  sim (run_clause walk1 f1 parameters resolver procedures clause next p) (run_clause walk2 f2 parameters resolver procedures clause next p).
Proof.
  pose proof sim_create_clause. pose proof sim_set_clause. pose proof sim_remove_clause. pose proof sim_delete_clause. pose proof sim_merge_clause.
  pose proof sim_call_row. assert (forall m, context_sim (mutable_source m) (R (mutable_source m))) as HC by (intros m; apply (ms_context _ _ _ HM), (ms_overlay _ _ _ HM)).
  unfold run_clause. destruct clause; cbn zeta.
  { apply sim_source. intros g Hfit. eapply sim_bind; [|intros ?; apply sim_ret]. apply sim_in_context; [done|]. intros ctx Hg.
    apply (sim_match_clause g (R g)); [by apply (ms_context _ _ _ HM)|done..]. }
  all: run_auto.
  - by apply (sim_unwind_row_cap _ _ (HC _)).
  - by apply (sim_unwind_rows _ _ (HC _)).
  - by apply (sim_project _ _ (HC _)).
  - by apply (sim_project _ _ (HC _)).
Qed.

Lemma sim_run_versioned clauses : sim (run_versioned walk1 f1 parameters clauses resolver procedures) (run_versioned walk2 f2 parameters clauses resolver procedures).
Proof.
  assert (forall p, sim (run_clauses walk1 f1 parameters resolver procedures clauses p) (run_clauses walk2 f2 parameters resolver procedures clauses p)).
  { induction clauses as [|c cs IH]; intros p; cbn [run_clauses]; [apply sim_ret|]. eapply sim_bind; [apply sim_run_clause|exact IH]. }
  unfold run_versioned. run_auto.
Qed.
End pipeline.
End sim.
