(* ===== verification/CypherExec.v ===== *)
(** * The machine that executes queries, and what a query means

    The executor runs on the governor of governor.rs and the memo of
    eval.rs.  The meaning of a query is its run on a machine with neither: no
    budget, every read straight from the graph.  Budget, clock and memo only
    decide whether a query is refused, never what it answers.  On the plain
    machine a read has a value, [val], and leaves the state as it was. *)
From Stdlib Require Import SpecFloat.
From S2P Require Import Prelude Model Keys Canonical Schema Governor CypherValue CypherExpr CypherSource CypherOps CypherFunctions CypherEval CypherProject CypherRun CypherSim.
Open Scope Z_scope.

(** ** The memo of one evaluation context *)

#[export] Instance Direction_countable : Countable Direction.
Proof.
  refine (inj_countable' (fun d => match d with DOut => 0%nat | DIn => 1%nat | DUndirected => 2%nat end)
    (fun n => match n with 0%nat => DOut | 1%nat => DIn | _ => DUndirected end) _).
  by intros [].
Defined.

Definition ExpandKey : Type := bytes * Direction * list bytes.

Record ScanCache : Type := mkCache {
  by_labels : gmap (list bytes) (list NodeValue); label_nodes : Z; expands : gmap ExpandKey (list (RelValue * NodeValue)); expand_tuples : Z }.
Definition empty_cache : ScanCache := mkCache ∅ 0 ∅ 0.

Definition EXPAND_MEMO_TUPLE_CAP : Z := 1000000.
Definition SCAN_MEMO_NODE_CAP : Z := 1000000.

Definition retention_fits (retained len : Z) : bool := saturating_add retained len <=? EXPAND_MEMO_TUPLE_CAP.
Definition retention_fits_scan (retained len : Z) : bool := saturating_add retained len <=? SCAN_MEMO_NODE_CAP.

(** [key.sort(); key.dedup()] *)
Definition label_key (labels : list bytes) : list bytes := dedup (merge_sort bytes_le labels).

Definition cache_nodes_by_labels (g : GraphSource) (labels : list bytes) (c : ScanCache) : list NodeValue * ScanCache :=
  match by_labels c !! label_key labels with
  | Some hit => (hit, c)
  | None =>
    let nodes := nodes_by_labels g labels in
    (nodes,
     if retention_fits_scan (label_nodes c) (zlen nodes)
     then mkCache (<[label_key labels := nodes]> (by_labels c)) (label_nodes c + zlen nodes) (expands c) (expand_tuples c)
     else c)
  end.

Definition cache_expand (g : GraphSource) (id : bytes) (direction : Direction) (types : list bytes) (c : ScanCache) : list (RelValue * NodeValue) * ScanCache :=
  match expands c !! (id, direction, types) with
  | Some hit => (hit, c)
  | None =>
    let edges := expand g id direction types in
    (edges,
     if retention_fits (expand_tuples c) (zlen edges)
     then mkCache (by_labels c) (label_nodes c) (<[(id, direction, types) := edges]> (expands c)) (expand_tuples c + zlen edges)
     else c)
  end.

(** ** The executor's machine *)

Record Machine : Type := mkMachine { mc_governor : Governor.Governor; mc_cache : ScanCache; mc_ticks : nat; mc_mints : nat }.

Section machine.
(** The instants the clock is read at, and what the random source and the
    clock give each new identifier. *)
Variable clock : nat -> Z.
Variable mints : nat -> option Z * bytes.

Definition charge (f : Z -> st Governor.Governor ResourceLimit unit) : st Machine ExecError unit :=
  fun s =>
    let '(r, g) := f (clock (mc_ticks s)) (mc_governor s) in
    (map_err (fun l => XResourceExceeded l (mkSpan 0 0)) r, mkMachine g (mc_cache s) (S (mc_ticks s)) (mc_mints s)).

Definition cached {A : Type} (f : ScanCache -> A * ScanCache) : st Machine ExecError A :=
  fun s => let '(a, c) := f (mc_cache s) in (Ok a, mkMachine (mc_governor s) c (mc_ticks s) (mc_mints s)).

Definition minted (n : nat) : bytes := mint_surrogate_id (mints n).1 (mints n).2.

#[export] Instance machine_effects : Effects Machine := {
  e_row n := charge (fun now => row now n);
  e_hop := charge hop;
  e_collection n := charge (fun now => collection now n);
  e_collection_push n := charge (fun now => collection_push now n);
  e_scan n := charge (fun now => scan_candidates now n);
  e_nodes_by_labels g labels := cached (cache_nodes_by_labels g labels);
  e_expand g id direction types := cached (cache_expand g id direction types);
  e_context := fun s => (Ok tt, mkMachine (mc_governor s) empty_cache (mc_ticks s) (mc_mints s));
  e_mint_surrogate_id := fun s => (Ok (minted (mc_mints s)), mkMachine (mc_governor s) (mc_cache s) (mc_ticks s) (S (mc_mints s))) }.

Definition machine_new (l : QueryLimits) (now last_instant : Z) : Machine := mkMachine (governor_new l now last_instant) empty_cache 0 0.

(** ** The plain machine *)

Record Plain : Type := mkPlain { pn_mints : nat }.

#[export] Instance plain_effects : Effects Plain := {
  e_row _ := st_ret tt;
  e_hop := st_ret tt;
  e_collection _ := st_ret tt;
  e_collection_push _ := st_ret tt;
  e_scan _ := st_ret tt;
  e_nodes_by_labels g labels := st_ret (nodes_by_labels g labels);
  e_expand g id direction types := st_ret (expand g id direction types);
  e_context := st_ret tt;
  e_mint_surrogate_id := fun s => (Ok (minted (pn_mints s)), mkPlain (S (pn_mints s))) }.

(** ** The memo is transparent *)

(** A source whose label scan does not depend on the order or repetition of
    the labels, as [nodes_by_labels] is documented. *)
Definition label_sets (g : GraphSource) : Prop := forall l k, (forall x, x ∈ l <-> x ∈ k) -> nodes_by_labels g l = nodes_by_labels g k.

Lemma has_labels_set l k n : (forall x, x ∈ l <-> x ∈ k) -> has_labels l n = has_labels k n.
Proof.
  intros H. unfold has_labels. destruct (forallb _ l) eqn:El, (forallb _ k) eqn:Ek; try done.
  - assert (forallb (contains (nv_labels n)) k = true); [|congruence]. rewrite forallb_forall in *. intros x Hx.
    apply El, list_elem_of_In, H, list_elem_of_In, Hx.
  - assert (forallb (contains (nv_labels n)) l = true); [|congruence]. rewrite forallb_forall in *. intros x Hx.
    apply Ek, list_elem_of_In, H, list_elem_of_In, Hx.
Qed.

Lemma mutable_label_sets m : label_sets (mutable_source m).
Proof.
  intros l k H. cbn [nodes_by_labels mutable_source]. unfold default_nodes_by_labels. apply List.filter_ext. intros n. by apply has_labels_set.
Qed.

Lemma label_key_elem labels x : x ∈ label_key labels <-> x ∈ labels.
Proof. unfold label_key. by rewrite dedup_elem, merge_sort_Permutation. Qed.

Lemma label_key_same l k : label_key l = label_key k -> forall x, x ∈ l <-> x ∈ k.
Proof. intros H x. by rewrite <-(label_key_elem l), <-(label_key_elem k), H. Qed.

Definition cache_ok (g : GraphSource) (c : ScanCache) : Prop :=
  (forall labels nodes, by_labels c !! label_key labels = Some nodes -> nodes = nodes_by_labels g labels) /\
  (forall id direction types edges, expands c !! (id, direction, types) = Some edges -> edges = expand g id direction types).

Lemma empty_cache_ok g : cache_ok g empty_cache.
Proof. split; intros *; cbn; by rewrite lookup_empty. Qed.

Lemma cache_nodes_ok g labels c : label_sets g -> cache_ok g c ->
  (cache_nodes_by_labels g labels c).1 = nodes_by_labels g labels /\ cache_ok g (cache_nodes_by_labels g labels c).2.
Proof.
  intros Hg [Hl He]. unfold cache_nodes_by_labels. destruct (by_labels c !! label_key labels) as [hit|] eqn:E.
  - split; [by apply Hl|done].
  - split; [done|]. destruct (retention_fits_scan _ _); [|done]. split; [|done]. cbn [by_labels snd]. intros l nodes.
    destruct (decide (label_key labels = label_key l)) as [Ek|Ek].
    + rewrite Ek, lookup_insert_eq. intros [= <-]. apply Hg. by apply label_key_same.
    + rewrite lookup_insert_ne by done. apply Hl.
Qed.

Lemma cache_expand_ok g id direction types c : cache_ok g c ->
  (cache_expand g id direction types c).1 = expand g id direction types /\ cache_ok g (cache_expand g id direction types c).2.
Proof.
  intros [Hl He]. unfold cache_expand. destruct (expands c !! (id, direction, types)) as [hit|] eqn:E.
  - split; [by apply He|done].
  - split; [done|]. destruct (retention_fits _ _); [|done]. split; [done|]. cbn [expands snd]. intros id' d' ts' edges.
    destruct (decide ((id, direction, types) = (id', d', ts'))) as [Ek|Ek].
    + injection Ek as -> -> ->. rewrite lookup_insert_eq. by intros [= <-].
    + rewrite lookup_insert_ne by done. apply He.
Qed.

(** ** The machines agree *)

(** The executor stops when a budget is spent. *)
Definition limited (e : ExecError) : Prop := exists l, e = XResourceExceeded l (mkSpan 0 0) /\ l <> ValueDepth.

Definition between (s : Machine) (t : Plain) : Prop := mc_mints s = pn_mints t.
Definition within_context (g : GraphSource) (s : Machine) (t : Plain) : Prop := between s t /\ cache_ok g (mc_cache s).

(** No charge is refused for a value's depth, and every charge keeps the rest of the machine. *)
Definition budget_only (f : Z -> st Governor.Governor ResourceLimit unit) : Prop := forall now g, (f now g).1 <> Err ValueDepth.

Lemma charge_work_limits now n g : (charge_work now n g).1 <> Err ValueDepth.
Proof. unfold charge_work. cbn zeta. repeat case_match; done. Qed.

Lemma charges_budget_only n : budget_only (fun now => row now n) /\ budget_only hop /\ budget_only (fun now => collection now n) /\
  budget_only (fun now => collection_push now n) /\ budget_only (fun now => scan_candidates now n).
Proof.
  pose proof charge_work_limits as H. split_and!; intros now g; unfold row, hop, collection, collection_push, scan_candidates; cbn zeta; case_match; done || apply H.
Qed.

Lemma sim_charge {R : Machine -> Plain -> Prop} f :
  budget_only f -> (forall s t g, R s t -> R (mkMachine g (mc_cache s) (S (mc_ticks s)) (mc_mints s)) t) -> sim_from limited R R (charge f) (st_ret tt).
Proof.
  intros Hf HR s t H. unfold charge. specialize (Hf (clock (mc_ticks s)) (mc_governor s)).
  destruct (f (clock (mc_ticks s)) (mc_governor s)) as [[[]|l] g]; cbn [map_err].
  - exists t. split; [done|]. by apply HR.
  - left. exists l. split; [done|]. intros ->. done.
Qed.

Lemma machine_context_sim g : label_sets g -> context_sim limited g (within_context g).
Proof.
  intros Hg. assert (forall f, budget_only f -> sim_from limited (within_context g) (within_context g) (charge f) (st_ret tt)) as Hcharge.
  { intros f Hf. apply sim_charge; [done|]. by intros s t g' [Hb Hc]. }
  split.
  - intros n. apply Hcharge. apply (charges_budget_only n).
  - apply Hcharge. apply (charges_budget_only 0).
  - intros n. apply Hcharge. apply (charges_budget_only n).
  - intros n. apply Hcharge. apply (charges_budget_only n).
  - intros n. apply Hcharge. apply (charges_budget_only n).
  - intros labels s t [Hb Hc]. cbn. unfold cached. destruct (cache_nodes_ok g labels (mc_cache s) Hg Hc) as [H1 H2].
    destruct (cache_nodes_by_labels g labels (mc_cache s)) as [nodes c]. exists t. cbn [fst snd] in *. by subst.
  - intros id direction types s t [Hb Hc]. cbn. unfold cached. destruct (cache_expand_ok g id direction types (mc_cache s) Hc) as [H1 H2].
    destruct (cache_expand g id direction types (mc_cache s)) as [edges c]. exists t. cbn [fst snd] in *. by subst.
Qed.

Lemma machine_sims : machine_sim limited label_sets between within_context.
Proof.
  split.
  - apply machine_context_sim.
  - intros g _ s t Hb. exists t. split; [done|]. split; [done|]. apply empty_cache_ok.
  - by intros g s t [Hb _].
  - intros n. apply sim_charge; [apply (charges_budget_only n)|done].
  - intros s t Hb. exists (mkPlain (S (pn_mints t))). unfold between in *. cbn. rewrite Hb. done.
  - apply mutable_label_sets.
Qed.
End machine.

Section pure.
Context {std : Std}.
Variable mints : nat -> option Z * bytes.
#[local] Instance effects : Effects Plain := plain_effects mints.
Abbreviation M := (st Plain ExecError).

(** The result of a computation. *)
Definition val {A : Type} (m : M A) : result ExecError A := (m (mkPlain 0)).1.

(** A computation that leaves the machine as it is and does not read it. *)
Definition pure {A : Type} (m : M A) : Prop := forall s t, match m s with (Ok a, s') => m t = (Ok a, t) /\ s' = s | (Err e, _) => (m t).1 = Err e end.

Lemma pure_Ok {A : Type} (m : M A) s a s' : pure m -> m s = (Ok a, s') <-> val m = Ok a /\ s' = s.
Proof.
  intros H. unfold val. split.
  - intros E. specialize (H s (mkPlain 0)). rewrite E in H. by destruct H as [-> ->].
  - intros [E ->]. specialize (H (mkPlain 0) s). destruct (m (mkPlain 0)) as [[b|e] t]; [|done]. injection E as ->. by destruct H as [-> _].
Qed.
Lemma pure_val {A : Type} (m : M A) s : pure m -> (m s).1 = val m.
Proof.
  intros H. unfold val. specialize (H (mkPlain 0) s). destruct (m (mkPlain 0)) as [[b|e] t]; [by destruct H as [-> _]|done].
Qed.

Lemma pure_ret {A : Type} (a : A) : pure (st_ret a).
Proof. by intros s t. Qed.
Lemma pure_bind {A B : Type} (m : M A) (f : A -> M B) : pure m -> (forall a, pure (f a)) -> pure (st_bind m f).
Proof.
  intros Hm Hf s t. unfold st_bind. specialize (Hm s t). destruct (m s) as [[a|e] s1].
  - destruct Hm as [-> ->]. apply Hf.
  - destruct (m t) as [[a|e'] t']; [done|]. cbn [fst] in Hm. by injection Hm as ->.
Qed.
Lemma pure_fold {A B : Type} (f : B -> A -> M B) l b : (forall b a, pure (f b a)) -> pure (st_fold f l b).
Proof. intros Hf. revert b. induction l as [|a l IH]; intros b; cbn [st_fold]; [apply pure_ret|]. by apply pure_bind. Qed.

(** ** Results compose *)

Lemma val_ret {A : Type} (a : A) : val (st_ret a) = Ok a.
Proof. done. Qed.
Lemma val_bind {A B : Type} (m : M A) (f : A -> M B) : pure m -> val (st_bind m f) = let? a := val m in val (f a).
Proof.
  intros Hm. unfold val, st_bind. specialize (Hm (mkPlain 0) (mkPlain 0)). destruct (m (mkPlain 0)) as [[a|e] s]; [|done]. by destruct Hm as [_ ->].
Qed.

Fixpoint r_fold {E A B : Type} (f : B -> A -> result E B) (l : list A) (b : B) : result E B :=
  match l with [] => Ok b | x :: l => let? b := f b x in r_fold f l b end.

Lemma val_fold {A B : Type} (f : B -> A -> M B) l b : (forall b a, pure (f b a)) -> val (st_fold f l b) = r_fold (fun b a => val (f b a)) l b.
Proof.
  intros Hf. revert b. induction l as [|a l IH]; intros b; cbn [st_fold r_fold]; [done|]. rewrite val_bind by apply Hf.
  destruct (val (f b a)); [apply IH|done].
Qed.

(** ** Reads are pure *)

Definition fixed (s0 t0 s t : Plain) : Prop := s = s0 /\ t = t0.

Lemma fixed_context s0 t0 g : context_sim (fun _ => False) g (fixed s0 t0).
Proof. split; intros; intros s t [-> ->]; by exists t0. Qed.

Lemma sim_pure {A : Type} (m : M A) : (forall s t, sim_from (fun _ => False) (fixed s t) (fixed s t) m m) -> pure m.
Proof.
  intros H s t. specialize (H s t s t (conj eq_refl eq_refl)). destruct (m s) as [[a|e] s'].
  - destruct H as (t' & -> & -> & ->). done.
  - destruct H as [[]|(t' & ->)]. done.
Qed.

Variables walk fuel : nat.

Lemma pure_eval ctx e row : pure (eval walk fuel ctx e row).
Proof. apply sim_pure. intros s t. apply (sim_eval _ walk walk (le_n _) (or_intror eq_refl) (cx_graph ctx) _ (fixed_context s t _)); done || by right. Qed.
Lemma pure_holds ctx cond row span : pure (holds (eval walk fuel) ctx cond row span).
Proof. apply sim_pure. intros s t. apply (sim_condition _ walk walk (le_n _) (or_intror eq_refl) (cx_graph ctx) _ (fixed_context s t _)); done || by right. Qed.
Lemma pure_match_path ctx pattern state : pure (match_path walk (eval walk fuel) ctx pattern state).
Proof. apply sim_pure. intros s t. apply (sim_path _ walk walk (le_n _) (or_intror eq_refl) (cx_graph ctx) _ (fixed_context s t _)); done || by right. Qed.
Lemma pure_merged_rows ctx p rows : pure (merged_rows walk fuel ctx p rows).
Proof. apply sim_pure. intros s t. apply (sim_merged_rows _ walk walk (le_n _) (or_intror eq_refl) (cx_graph ctx) _ (fixed_context s t _)); done || by right. Qed.
Lemma pure_project_row ctx p row : pure (project_row walk fuel ctx p row).
Proof. apply sim_pure. intros s t. apply (sim_project_row _ walk walk (le_n _) (or_intror eq_refl) (cx_graph ctx) _ (fixed_context s t _)); done || by right. Qed.
Lemma pure_project_group ctx p group : pure (project_group walk fuel ctx p group).
Proof. apply sim_pure. intros s t. apply (sim_project_group _ walk walk (le_n _) (or_intror eq_refl) (cx_graph ctx) _ (fixed_context s t _)); done || by right. Qed.
Lemma pure_group_rows ctx exprs rows : pure (group_rows walk fuel ctx exprs rows).
Proof. apply sim_pure. intros s t. apply (sim_group_rows _ walk walk (le_n _) (or_intror eq_refl) (cx_graph ctx) _ (fixed_context s t _)); done || by right. Qed.
Lemma pure_order_keys ctx p row : pure (order_keys walk fuel ctx p row).
Proof. apply pure_fold. intros key [e d]. apply pure_bind; [apply pure_eval|]. intros v. apply pure_ret. Qed.
Lemma pure_order_rows ctx p rows : pure (order_rows walk fuel ctx p rows).
Proof. apply sim_pure. intros s t. apply (sim_order_rows _ walk walk (le_n _) (or_intror eq_refl) (cx_graph ctx) _ (fixed_context s t _)); done || by right. Qed.
Lemma pure_eval_bound ctx e : pure (eval_bound walk fuel ctx e).
Proof. apply sim_pure. intros s t. apply (sim_eval_bound _ walk walk (le_n _) (or_intror eq_refl) (cx_graph ctx) _ (fixed_context s t _)); done || by right. Qed.
Lemma pure_project rows p ctx is_with : pure (project walk fuel rows p ctx is_with).
Proof. apply sim_pure. intros s t. apply (sim_project _ walk walk (le_n _) (or_intror eq_refl) (cx_graph ctx) _ (fixed_context s t _)); done || by right. Qed.
Lemma pure_unwind_row_cap next ctx : pure (unwind_row_cap walk fuel next ctx).
Proof. apply sim_pure. intros s t. apply (sim_unwind_row_cap _ walk walk (le_n _) (or_intror eq_refl) (cx_graph ctx) _ (fixed_context s t _)); done || by right. Qed.
Lemma pure_unwind_rows ctx e alias span cap rows out : pure (unwind_rows walk fuel ctx e alias span cap rows out).
Proof. apply sim_pure. intros s t. apply (sim_unwind_rows _ walk walk (le_n _) (or_intror eq_refl) (cx_graph ctx) _ (fixed_context s t _)); done || by right. Qed.
Lemma pure_keep_distinct {A : Type} (key : A -> bytes) charge items : (forall n, charge n = st_ret tt) -> pure (keep_distinct key charge items).
Proof. intros Hc. apply sim_pure. intros s t. apply sim_keep_distinct. intros n. rewrite Hc. apply sim_ret. Qed.
End pure.

(** Take a computation apart into steps that are pure. *)
Ltac pure_auto :=
  repeat match goal with
  | |- pure (st_bind _ _) => apply pure_bind; [|intros ?]
  | |- pure (st_ret _) => apply pure_ret
  | |- pure (st_fold _ _ _) => apply pure_fold; intros ? ?
  | |- pure (eval _ _ _ _ _) => apply pure_eval
  | |- pure (holds _ _ _ _ _) => apply pure_holds
  | |- pure (order_keys _ _ _ _ _) => apply pure_order_keys
  | |- pure (order_rows _ _ _ _ _) => apply pure_order_rows
  | |- pure (eval_bound _ _ _ _) => apply pure_eval_bound
  | |- pure (merged_rows _ _ _ _ _) => apply pure_merged_rows
  | |- pure (project_row _ _ _ _ _) => apply pure_project_row
  | |- pure (project_group _ _ _ _ _) => apply pure_project_group
  | |- pure (group_rows _ _ _ _ _) => apply pure_group_rows
  | |- pure (keep_distinct _ _ _) => apply pure_keep_distinct; done
  | |- pure (match ?x with _ => _ end) => destruct x
  end.
