(* ===== verification/CypherTotal.v ===== *)
(** * Every query ends

    A computation that depends on fuel settles when all large enough fuels
    give one result, and that result is not for lack of fuel.  On the plain
    machine every expression settles, because its parts are smaller and a walk
    never takes a relationship twice; so does every query over finite
    graphs. *)
From Stdlib Require Import SpecFloat.
From S2P Require Import Prelude Keys Model Canonical Schema CypherValue CypherExpr CypherSource CypherOps CypherFunctions CypherEval CypherProject CypherRun CypherSim CypherExec.
Open Scope Z_scope.

(** ** Settling *)

Section settles.
Context {W : Type}.
Abbreviation M := (st W ExecError).

(** With fuels large enough the result is one, satisfies [P] and is not for
    lack of fuel. *)
Definition settles_to {A : Type} (P : A -> Prop) (m : nat -> nat -> M A) : Prop :=
  forall t, exists w0 f0 r, r.1 <> Err XFuel /\ (forall a, r.1 = Ok a -> P a) /\ forall w f, (w0 <= w)%nat -> (f0 <= f)%nat -> m w f t = r.
Abbreviation settles := (settles_to (fun _ => True)).

Lemma settles_bind {A B : Type} (P : A -> Prop) (Q : B -> Prop) (m : nat -> nat -> M A) (k : nat -> nat -> A -> M B) :
  settles_to P m -> (forall a, P a -> settles_to Q (fun w f => k w f a)) -> settles_to Q (fun w f => st_bind (m w f) (k w f)).
Proof.
  intros Hm Hk t. destruct (Hm t) as (w1 & f1 & [[a|e] t'] & Hr & HP & H1).
  - destruct (Hk a (HP a eq_refl) t') as (w2 & f2 & r & Hr2 & HQ & H2). exists (w1 `max` w2)%nat, (f1 `max` f2)%nat, r. split; [done|]. split; [done|].
    intros w f Hw Hf. unfold st_bind. rewrite H1 by lia. apply H2; lia.
  - exists w1, f1, (Err e, t'). split; [intros [= ->]; by apply Hr|]. split; [done|]. intros w f Hw Hf. unfold st_bind. by rewrite H1.
Qed.

Lemma settles_weaken {A : Type} (P Q : A -> Prop) (m : nat -> nat -> M A) : (forall a, P a -> Q a) -> settles_to P m -> settles_to Q m.
Proof. intros HPQ Hm t. destruct (Hm t) as (w & f & r & H1 & H2 & H3). exists w, f, r. split_and!; [done| |done]. intros a Ha. by apply HPQ, H2. Qed.

Lemma settles_then {A B : Type} (Q : B -> Prop) (m : nat -> nat -> M A) (k : nat -> nat -> A -> M B) :
  settles m -> (forall a, settles_to Q (fun w f => k w f a)) -> settles_to Q (fun w f => st_bind (m w f) (k w f)).
Proof. intros Hm Hk. apply (settles_bind (fun _ => True)); [done|]. intros a _. apply Hk. Qed.

Lemma settles_ret_to {A : Type} (P : A -> Prop) (a : A) : P a -> settles_to P (fun _ _ => st_ret a).
Proof. intros H t. exists 0%nat, 0%nat, (Ok a, t). split; [done|]. split; [by intros ? [= <-]|done]. Qed.
Lemma settles_ret {A : Type} (a : A) : settles (fun _ _ => st_ret a).
Proof. by apply settles_ret_to. Qed.
Lemma settles_fail {A : Type} (P : A -> Prop) e : e <> XFuel -> settles_to P (fun _ _ => st_fail e : M A).
Proof. intros H t. exists 0%nat, 0%nat, (Err e, t). split; [by intros [= ->]|done]. Qed.
Lemma settles_of {A : Type} (r : result ExecError A) : r <> Err XFuel -> settles (fun _ _ => st_of r).
Proof. destruct r as [a|e]; intros H; [apply settles_ret|]. apply settles_fail. by intros ->. Qed.

Lemma settles_fold_to {A B : Type} (P : list A -> B -> Prop) (k : nat -> nat -> B -> A -> M B) l b :
  P l b -> (forall b a l, P (a :: l) b -> settles_to (P l) (fun w f => k w f b a)) -> settles_to (P []) (fun w f => st_fold (k w f) l b).
Proof.
  intros HP Hk. revert b HP. induction l as [|a l IH]; intros b HP; cbn [st_fold]; [by apply settles_ret_to|].
  apply (settles_bind (P l) (P []) (fun w f => k w f b a) (fun w f => st_fold (k w f) l)); [by apply Hk|]. exact IH.
Qed.

Lemma settles_fold {A B : Type} (k : nat -> nat -> B -> A -> M B) l b :
  (forall b a, a ∈ l -> settles (fun w f => k w f b a)) -> settles (fun w f => st_fold (k w f) l b).
Proof.
  revert b. induction l as [|a l IH]; intros b Hk; cbn [st_fold]; [apply settles_ret|].
  apply (settles_then _ (fun w f => k w f b a) (fun w f => st_fold (k w f) l)); [apply Hk, list_elem_of_here|].
  intros b'. apply IH. intros b'' a' Ha. apply Hk. by apply list_elem_of_further.
Qed.

Lemma settles_any {A : Type} (k : nat -> nat -> A -> M bool) l :
  (forall a, a ∈ l -> settles (fun w f => k w f a)) -> settles (fun w f => st_any (k w f) l).
Proof.
  induction l as [|a l IH]; intros Hk; cbn [st_any]; [apply settles_ret|].
  apply (settles_then _ (fun w f => k w f a) (fun w f (found : bool) => if found then st_ret true else st_any (k w f) l)); [apply Hk, list_elem_of_here|].
  intros []; [apply settles_ret|]. apply IH. intros a' Ha. apply Hk. by apply list_elem_of_further.
Qed.
End settles.

Abbreviation settles := (settles_to (fun _ => True)).

(** ** Finite sources *)

(** All relationships a source can reach are among [ids], and no node has more
    than [width] of them. *)
Record finite_source (g : GraphSource) (ids : gset bytes) (width : nat) : Prop := {
  fs_ids : forall id direction types e, e ∈ expand g id direction types -> rv_id e.1 ∈ ids;
  fs_width : forall id direction types, (length (expand g id direction types) <= width)%nat }.

Definition finite (g : GraphSource) : Prop := exists ids width, finite_source g ids width.

(** The frames a walk can push below a frame with [n] relationships left. *)
Fixpoint tree_size (width n : nat) : nat := match n with O => 1 | S n => 1 + width * tree_size width n end.

Lemma tree_size_pos width n : (1 <= tree_size width n)%nat.
Proof. destruct n; cbn [tree_size]; lia. Qed.

Section plain.
Variable mints : nat -> option Z * bytes.
#[local] Existing Instance plain_effects.
Context `{!Std}.
Abbreviation M := (st Plain ExecError).
#[local] Instance effects : Effects Plain := plain_effects mints.

(** One step of a proof that a computation settles. *)
Ltac settle_step := fail.
Ltac settle := repeat settle_step; try done.

Definition const {A : Type} (m : M A) : nat -> nat -> M A := fun _ _ => m.

(** The operators never lack fuel. *)
Definition total_result {A : Type} (r : result ExecError A) : Prop := r <> Err XFuel.

Ltac total := unfold total_result; cbn -[checked]; unfold checked; repeat (case_match; try done); try done.

Lemma total_truth v span : total_result (truth v span).
Proof. by destruct v. Qed.
Lemma total_checked n span : total_result (checked n span).
Proof. total. Qed.
Lemma total_unary op v span : total_result (unary op v span).
Proof. destruct op, v; total. Qed.
Lemma total_arith a b span i f : total_result (arith a b span i f).
Proof. destruct a, b; total. Qed.
Lemma total_divide a b span : total_result (divide a b span).
Proof. unfold divide. repeat case_match; try apply total_arith; total. Qed.
Lemma total_modulo a b span : total_result (modulo a b span).
Proof. unfold modulo. repeat case_match; try apply total_arith; total. Qed.
Lemma total_power a b span : total_result (power a b span).
Proof. unfold power. total. Qed.
Lemma total_membership a b span : total_result (list_membership a b span).
Proof. unfold list_membership. total. Qed.
Lemma total_property_access b k span : total_result (property_access b k span).
Proof. destruct b; total. Qed.
Lemma total_index_access b i span : total_result (index_access b i span).
Proof. unfold index_access. total. Qed.
Lemma total_slice_bound b d n span : total_result (slice_bound b d n span).
Proof. unfold slice_bound. total. Qed.
Lemma total_slice_access b i j span : total_result (slice_access b i j span).
Proof.
  unfold slice_access. destruct b; try done. cbn zeta.
  pose proof (total_slice_bound i 0 (zlen items) span). destruct (slice_bound i _ _ span) as [[start|]|e]; cbn [rbind]; try done; [|by intros [= ->]].
  pose proof (total_slice_bound j (zlen items) (zlen items) span). destruct (slice_bound j _ _ span) as [[finish|]|e]; cbn [rbind]; try done; [|by intros [= ->]].
  total.
Qed.
Lemma total_nestable v span : total_result (ensure_nestable v span).
Proof. unfold ensure_nestable. total. Qed.
Lemma total_labels v ls span : total_result (has_all_labels v ls span).
Proof. destruct v; total. Qed.
Lemma total_iterated s v span : total_result (iterated s v span).
Proof. destruct v; total. Qed.

Create HintDb total.
Hint Resolve total_truth total_checked total_unary total_arith total_divide total_modulo total_power total_membership total_property_access total_index_access
  total_slice_access total_nestable total_labels total_iterated : total.

Lemma settles_total {A : Type} (r : result ExecError A) : total_result r -> settles (const (st_of r)).
Proof. apply settles_of. Qed.

Ltac settle_step ::=
  match goal with
  | |- settles_to _ (fun w f => st_ret _) => first [apply settles_ret | apply settles_ret_to]
  | |- settles_to _ (fun w f => st_fail _) => apply settles_fail; discriminate
  | |- settles_to _ (fun w f => st_of _) => apply settles_total; auto with total; fail
  | |- settles_to _ (fun w f => st_bind _ _) => eapply settles_then; [|intros ?; cbv beta]
  | |- settles_to _ (fun w f => st_fold _ _ _) => apply settles_fold; intros ? ? ?; cbv beta
  | |- settles_to _ (fun w f => st_any _ _) => apply settles_any; intros ? ?; cbv beta
  | |- settles_to _ (fun w f => e_row _) => apply settles_ret
  | |- settles_to _ (fun w f => e_hop) => apply settles_ret
  | |- settles_to _ (fun w f => e_collection _) => apply settles_ret
  | |- settles_to _ (fun w f => e_collection_push _) => apply settles_ret
  | |- settles_to _ (fun w f => e_scan _) => apply settles_ret
  | |- settles_to _ (fun w f => e_nodes_by_labels _ _) => apply settles_ret
  | |- settles_to _ (fun w f => e_expand _ _ _ _) => apply settles_ret
  | |- settles_to _ (fun w f => e_context) => apply settles_ret
  | H : _ |- settles_to _ _ => apply H; assumption
  | |- settles_to _ (fun w f => match ?x with _ => _ end) => destruct x eqn:?
  | |- settles_to _ (fun w f => (match ?x with _ => _ end) _) => destruct x eqn:?
  end.

Lemma settles_add a b span : settles (const (add a b span)).
Proof. unfold const, add. destruct a, b; cbn zeta; settle. Qed.

Lemma settles_binary op a b span : is_logical op = false -> settles (const (binary op a b span)).
Proof. pose proof settles_add as H'. unfold const, binary in *. destruct op; intros [=]; settle. Qed.

Lemma settles_charged_list items : settles (const (charged_list items)).
Proof. unfold const, charged_list. settle. Qed.

Lemma total_float v span f : total_result (let? x := numeric_to_float v span in Ok (CFloat (f x))).
Proof. destruct v; total. Qed.
Lemma total_range_bounds args span : total_result (range_bounds args span).
Proof. induction args as [|v args IH]; [done|]. destruct v; try done. cbn. destruct (range_bounds args span); [done|]. by intros [= ->]. Qed.
Lemma total_substring args s start span : total_result (substring args s start span).
Proof. unfold substring. total. Qed.
Hint Resolve total_float total_range_bounds total_substring : total.

Definition settles_opt {A : Type} (m : option (M A)) : Prop := match m with Some m => settles (const m) | None => True end.
Ltac settle_arms := repeat match goal with |- settles_opt (if ?c then _ else _) => destruct c end; unfold settles_opt, const; settle.

Lemma settles_numeric name arg span : settles_opt (call_numeric name arg span).
Proof. unfold call_numeric, float_fn. settle_arms. Qed.
Lemma settles_container name args arg span g : settles_opt (call_container name args arg span g).
Proof. pose proof settles_charged_list as H'. unfold const in H'. unfold call_container, range. settle_arms. Qed.
Lemma settles_string name args arg span : settles_opt (call_string name args arg span).
Proof. unfold call_string, string_fn. settle_arms. Qed.
Lemma settles_convert name arg span : settles_opt (call_convert name arg span).
Proof. unfold call_convert. settle_arms. Qed.

Lemma settles_call name args span g : settles (const (call name args span g)).
Proof.
  unfold call. destruct (is_fn name "coalesce"); [apply settles_ret|]. destruct (_ && _); [apply settles_ret|]. cbn zeta. set (arg := fun i : nat => or_null (args !! i)).
  pose proof (settles_numeric name arg span) as H1. pose proof (settles_container name args arg span g) as H2.
  pose proof (settles_string name args arg span) as H3. pose proof (settles_convert name arg span) as H4.
  unfold settles_opt in *. repeat case_match; try done. by apply settles_fail.
Qed.

(** ** The parts of an expression *)

Definition opt_list {A : Type} (o : option A) : list A := match o with Some x => [x] | None => [] end.

Definition pattern_parts (p : BoundPathPattern) : list BoundExpr :=
  opt_list (np_properties (pp_start p)) ++ concat (List.map (fun s => opt_list (rp_properties s.1) ++ opt_list (np_properties s.2)) (pp_steps p)).

Definition parts (e : BoundExpr) : list BoundExpr :=
  match e with
  | ELiteral _ _ | EParameter _ _ | EVariable _ _ | EAggregate _ _ _ _ _ | EPatternPredicate _ _ => []
  | EProperty base _ _ => [base]
  | EUnary _ operand _ | EIsNull operand _ _ | EHasLabels operand _ _ => [operand]
  | EBinary _ a b _ | EIndex a b _ | EQuantifier _ _ a b _ => [a; b]
  | EPatternComprehension p w m _ => pattern_parts p ++ opt_list w ++ [m]
  | EFunction _ args _ => args
  | ECase o whens el _ => opt_list o ++ concat (List.map (fun w => [w.1; w.2]) whens) ++ opt_list el
  | EListLiteral items _ => items
  | EListComprehension _ l w m _ => l :: opt_list w ++ opt_list m
  | EReduce _ i _ l x _ => [i; l; x]
  | EMapLiteral entries _ => List.map snd entries
  | ESlice b i j _ => b :: opt_list i ++ opt_list j
  end.

(** The number of expressions in an expression. *)
Fixpoint esize (e : BoundExpr) : nat :=
  let opt (o : option BoundExpr) := match o with Some e => esize e | None => 0%nat end in
  S match e with
    | ELiteral _ _ | EParameter _ _ | EVariable _ _ | EAggregate _ _ _ _ _ | EPatternPredicate _ _ => 0
    | EProperty base _ _ => esize base
    | EUnary _ operand _ | EIsNull operand _ _ | EHasLabels operand _ _ => esize operand
    | EBinary _ a b _ | EIndex a b _ | EQuantifier _ _ a b _ => esize a + esize b
    | EPatternComprehension p w m _ =>
      opt (np_properties (pp_start p)) + sum_list (List.map (fun s => opt (rp_properties s.1) + opt (np_properties s.2))%nat (pp_steps p)) + opt w + esize m
    | EFunction _ args _ => sum_list (List.map esize args)
    | ECase o whens el _ => opt o + sum_list (List.map (fun w => esize w.1 + esize w.2)%nat whens) + opt el
    | EListLiteral items _ => sum_list (List.map esize items)
    | EListComprehension _ l w m _ => esize l + opt w + opt m
    | EReduce _ i _ l x _ => esize i + esize l + esize x
    | EMapLiteral entries _ => sum_list (List.map (fun e => esize e.2) entries)
    | ESlice b i j _ => esize b + opt i + opt j
    end%nat.

Definition total_size (es : list BoundExpr) : nat := sum_list (List.map esize es).

Lemma total_size_app a b : total_size (a ++ b) = (total_size a + total_size b)%nat.
Proof. unfold total_size. rewrite List.map_app. induction (List.map esize a) as [|n l IH]; [done|]. cbn. lia. Qed.
Lemma total_size_cons e es : total_size (e :: es) = (esize e + total_size es)%nat.
Proof. done. Qed.
Lemma total_size_opt o : total_size (opt_list o) = match o with Some e => esize e | None => 0%nat end.
Proof. destruct o; [cbn; lia|done]. Qed.
Lemma total_size_concat {A : Type} (f : A -> list BoundExpr) (h : A -> nat) l : (forall x, total_size (f x) = h x) -> total_size (concat (List.map f l)) = sum_list (List.map h l).
Proof. intros Hf. induction l as [|x l IH]; [done|]. cbn [List.map concat]. rewrite total_size_app, Hf, IH. done. Qed.

Lemma esize_parts e : esize e = S (total_size (parts e)).
Proof.
  destruct e; cbn [esize parts]; rewrite ?total_size_app, ?total_size_opt; try done; try (cbn; lia).
  - unfold pattern_parts. rewrite total_size_app, total_size_opt.
    rewrite (total_size_concat _ (fun s => match rp_properties s.1 with Some e => esize e | None => 0%nat end + match np_properties s.2 with Some e => esize e | None => 0%nat end)%nat).
    + cbn. lia.
    + intros x. by rewrite total_size_app, !total_size_opt.
  - rewrite (total_size_concat _ (fun w => esize w.1 + esize w.2)%nat); [cbn; lia|]. intros x. cbn. lia.
  - rewrite total_size_cons, total_size_app, !total_size_opt. lia.
  - unfold total_size. by rewrite List.map_map.
  - rewrite total_size_cons, total_size_app, !total_size_opt. lia.
Qed.

Lemma total_size_elem es e : e ∈ es -> (esize e <= total_size es)%nat.
Proof. induction 1 as [|e e' es _ IH]; cbn; unfold total_size in *; lia. Qed.

Lemma parts_smaller e e' : e' ∈ parts e -> (esize e' < esize e)%nat.
Proof. intros H'%total_size_elem. rewrite (esize_parts e). lia. Qed.

Section body.
Variable rec : nat -> nat -> EvalCtx -> BoundExpr -> Row -> M value.
Variable ctx : EvalCtx.
Variable inside : BoundExpr -> Prop.
Hypothesis Hrec : forall e row, inside e -> settles (fun w f => rec w f ctx e row).

Definition all_inside (es : list BoundExpr) : Prop := forall e, e ∈ es -> inside e.

Lemma inside_opt o e : all_inside (opt_list o) -> o = Some e -> inside e.
Proof. intros Hp ->. apply Hp. by apply list_elem_of_here. Qed.

Lemma settles_properties ps actual row : all_inside (opt_list ps) -> settles (fun w f => properties_satisfy (rec w f) ctx ps actual row).
Proof. intros Hin. unfold properties_satisfy. settle. apply Hrec. by eapply inside_opt. Qed.
Lemma settles_node_satisfies n p row : all_inside (opt_list (np_properties p)) -> settles (fun w f => node_satisfies (rec w f) ctx n p row).
Proof. intros Hin. pose proof settles_properties. unfold node_satisfies. settle. Qed.
Lemma settles_rel_satisfies r p row : all_inside (opt_list (rp_properties p)) -> settles (fun w f => rel_satisfies (rec w f) ctx r p row).
Proof. intros Hin. pose proof settles_properties. unfold rel_satisfies. settle. Qed.
Lemma settles_seek_anchor p row : all_inside (opt_list (np_properties p)) -> settles (fun w f => seek_anchor (rec w f) ctx p row).
Proof. intros Hin. unfold seek_anchor, resolve_probe, seek_values. settle; apply Hrec; by eapply inside_opt. Qed.

(** ** Walks *)

Variables (ids : gset bytes) (width : nat).
Hypothesis Hg : finite_source (cx_graph ctx) ids width.

(** How many relationships a state has not used. *)
Definition unused (state : MatchState) : nat := size (ids ∖ ms_used_rels state).
Definition frame_size (frame : VarHopFrame) : nat := tree_size width (unused (vf_state frame)).
Definition stack_size (stack : list VarHopFrame) : nat := sum_list_with frame_size stack.

Lemma unused_step state (r : RelValue) row : rv_id r ∈ ids -> rv_id r ∉ ms_used_rels state ->
  unused state = S (unused (mkMatchState row ({[rv_id r]} ∪ ms_used_rels state))).
Proof.
  intros Hi Hu. unfold unused. cbn [ms_used_rels].
  assert (ids ∖ ms_used_rels state = {[rv_id r]} ∪ ids ∖ ({[rv_id r]} ∪ ms_used_rels state)) as ->.
  { apply set_eq. intros x. destruct (decide (x = rv_id r)) as [->|]; set_solver. }
  rewrite size_union by set_solver. by rewrite size_singleton.
Qed.

Lemma stack_size_app a b : stack_size (a ++ b) = (stack_size a + stack_size b)%nat.
Proof. apply sum_list_with_app. Qed.

Section var_length.
Variables (rp : BoundRelPattern) (np : BoundNodePattern) (pinned : option (list bytes)) (lo hi : Z).
Variable continue : nat -> nat -> NodeValue -> MatchState -> PathBuild -> list MatchState -> M (list MatchState).
Hypothesis Hcontinue : forall n s p r, settles (fun w f => continue w f n s p r).
Hypothesis Hrp : all_inside (opt_list (rp_properties rp)).
Hypothesis Hnp : all_inside (opt_list (np_properties np)).

Lemma settles_accept frame results : settles (fun w f => accept (rec w f) ctx rp np pinned lo (continue w f) frame results).
Proof. pose proof settles_node_satisfies. unfold accept. settle. Qed.

(** A child is smaller than its frame. *)
Lemma settles_child frame children e l :
  (rv_id e.1 ∈ ids) -> (forall c, c ∈ children -> frame_size c <= tree_size width (unused (vf_state frame) - 1))%nat ->
  (length children + S l <= width)%nat -> (children <> [] -> 1 <= unused (vf_state frame))%nat ->
  settles_to (fun cs => (forall c, c ∈ cs -> frame_size c <= tree_size width (unused (vf_state frame) - 1))%nat /\
                        (length cs + l <= width)%nat /\ (cs <> [] -> 1 <= unused (vf_state frame))%nat)
    (fun w f => child (rec w f) ctx rp pinned frame children e).
Proof.
  destruct e as [r neighbour]. cbn [fst]. intros Hr Hc Hl Hn. unfold child.
  apply (settles_then _ (fun _ _ => e_hop)); [apply settles_ret|]. intros _.
  destruct (pruned _ _ _); [apply settles_ret_to; split_and!; [done|lia|done]|].
  case_bool_decide as Hu; [apply settles_ret_to; split_and!; [done|lia|done]|].
  apply (settles_then _ (fun w f => rel_satisfies (rec w f) ctx r rp (ms_row (vf_state frame)))); [by apply settles_rel_satisfies|]. intros [|].
  - cbn [negb]. pose proof (unused_step (vf_state frame) r (ms_row (vf_state frame)) Hr Hu) as Hstep.
    apply settles_ret_to. split_and!; [|rewrite length_app; cbn; lia|lia].
    intros c [Hin| ->%list_elem_of_singleton]%elem_of_app; [by apply Hc|]. unfold frame_size. cbn [vf_state].
    replace (unused (vf_state frame) - 1)%nat with (unused (mkMatchState (ms_row (vf_state frame)) ({[rv_id r]} ∪ ms_used_rels (vf_state frame)))) by lia. done.
  - cbn [negb]. apply settles_ret_to. split_and!; [done|lia|done].
Qed.

Lemma settles_children frame edges : (forall e, e ∈ edges -> rv_id e.1 ∈ ids) -> (length edges <= width)%nat ->
  settles_to (fun cs => stack_size cs < frame_size frame)%nat (fun w f => st_fold (child (rec w f) ctx rp pinned frame) edges []).
Proof.
  intros He Hw.
  assert (settles_to (fun cs => (forall c, c ∈ cs -> frame_size c <= tree_size width (unused (vf_state frame) - 1))%nat /\
      (length cs + 0 <= width)%nat /\ (cs <> [] -> 1 <= unused (vf_state frame))%nat) (fun w f => st_fold (child (rec w f) ctx rp pinned frame) edges [])) as Hs.
  { set (P := fun (l : list (RelValue * NodeValue)) (cs : list VarHopFrame) => (forall e, e ∈ l -> rv_id e.1 ∈ ids) /\
      (forall c, c ∈ cs -> frame_size c <= tree_size width (unused (vf_state frame) - 1))%nat /\
      (length cs + length l <= width)%nat /\ (cs <> [] -> 1 <= unused (vf_state frame))%nat).
    apply (settles_weaken (P [])); [by intros cs (_ & ?)|]. apply (settles_fold_to P (fun w f => child (rec w f) ctx rp pinned frame)).
    - split_and!; [done|by intros c ?%elem_of_nil|cbn; lia|done].
    - intros cs e l (H1 & H2 & H3 & H4).
      eapply settles_weaken; [|apply (settles_child frame cs e (length l)); [apply H1, list_elem_of_here|done..]].
      intros cs' (H5 & H6 & H7). split_and!; [|done..]. intros e' ?. apply H1. by apply list_elem_of_further. }
  eapply settles_weaken; [|exact Hs]. intros cs (H1 & H2 & H3). unfold frame_size at 1.
  destruct cs as [|c cs]; [cbn; pose proof (tree_size_pos width (unused (vf_state frame))); lia|]. specialize (H3 ltac:(done)).
  destruct (unused (vf_state frame)) as [|n]; [lia|]. cbn [tree_size]. replace (S n - 1)%nat with n in H1 by lia.
  assert (forall l : list VarHopFrame, (forall c, c ∈ l -> frame_size c <= tree_size width n)%nat -> stack_size l <= length l * tree_size width n)%nat as Hsum.
  { clear. induction l as [|c l IH]; intros Hl; [done|]. cbn. pose proof (Hl c (list_elem_of_here _ _)).
    specialize (IH (fun c' Hc' => Hl c' (list_elem_of_further _ _ _ Hc'))). unfold stack_size in *. lia. }
  specialize (Hsum (c :: cs) H1). nia.
Qed.

(** The loop settles with fuel for its stack and more. *)
Lemma settles_walk_stack stack results t :
  exists n0 w0 f0 r, r.1 <> Err XFuel /\ forall n w f, (n0 <= n)%nat -> (w0 <= w)%nat -> (f0 <= f)%nat ->
    walk_stack (rec w f) ctx rp np pinned lo hi (continue w f) n stack results t = r.
Proof.
  remember (stack_size stack) as size eqn:Hsize. revert stack Hsize results t.
  induction (lt_wf size) as [size _ IH]. intros stack Hsize results t.
  destruct stack as [|frame stack].
  { exists 0%nat, 0%nat, 0%nat, (Ok results, t). split; [done|]. intros [] w f _ _ _; done. }
  assert (Hpos := tree_size_pos width (unused (vf_state frame))).
  destruct (settles_accept frame results t) as (w1 & f1 & [[results'|e] t1] & Hr1 & _ & H1).
  2:{ exists 1%nat, w1, f1, (Err e, t1). split; [intros [= ->]; by apply Hr1|]. intros [|n] w f Hn Hw Hf; [lia|]. cbn [walk_stack]. unfold st_bind. by rewrite H1. }
  destruct (hi <=? zlen (vf_hops frame)) eqn:Ehi.
  { destruct (IH (stack_size stack)) with (stack := stack) (results := results') (t := t1) as (n2 & w2 & f2 & r & Hr & H2); [|done|].
    { subst size. cbn. unfold frame_size at 1. unfold stack_size. lia. }
    exists (S n2), (w1 `max` w2)%nat, (f1 `max` f2)%nat, r. split; [done|]. intros [|n] w f Hn Hw Hf; [lia|].
    cbn [walk_stack]. unfold st_bind at 1. rewrite H1 by lia. rewrite Ehi. apply H2; lia. }
  set (edges := expand (cx_graph ctx) (nv_id (vf_from frame)) (rp_direction rp) (rp_types rp)).
  destruct (settles_children frame edges) with (t := t1) as (w3 & f3 & [[children|e] t3] & Hr3 & Hc & H3).
  { intros e He. by eapply (fs_ids _ _ _ Hg). }
  { apply (fs_width _ _ _ Hg). }
  2:{ exists 1%nat, (w1 `max` w3)%nat, (f1 `max` f3)%nat, (Err e, t3). split; [intros [= ->]; by apply Hr3|]. intros [|n] w f Hn Hw Hf; [lia|].
      cbn [walk_stack]. unfold st_bind at 1. rewrite H1 by lia. rewrite Ehi. unfold st_bind at 1. cbn. unfold st_bind. fold edges. by rewrite H3 by lia. }
  specialize (Hc children eq_refl).
  destruct (IH (stack_size (children ++ stack))) with (stack := children ++ stack) (results := results') (t := t3) as (n2 & w2 & f2 & r & Hr & H2); [|done|].
  { subst size. rewrite stack_size_app. cbn. unfold stack_size in *. lia. }
  exists (S n2), (w1 `max` w2 `max` w3)%nat, (f1 `max` f2 `max` f3)%nat, r. split; [done|]. intros [|n] w f Hn Hw Hf; [lia|].
  cbn [walk_stack]. unfold st_bind at 1. rewrite H1 by lia. rewrite Ehi. unfold st_bind at 1. cbn. unfold st_bind. fold edges. rewrite H3 by lia. apply H2; lia.
Qed.
End var_length.

Definition step_parts (s : BoundRelPattern * BoundNodePattern) : list BoundExpr := opt_list (rp_properties s.1) ++ opt_list (np_properties s.2).

Lemma all_inside_app a b : all_inside (a ++ b) -> all_inside a /\ all_inside b.
Proof. intros Hi. split; intros e He; apply Hi, elem_of_app; [by left|by right]. Qed.

Lemma settles_walk_steps path_var steps from state path results : all_inside (concat (List.map step_parts steps)) ->
  settles (fun w f => walk_steps w (rec w f) ctx path_var steps from state path results).
Proof.
  revert from state path results. induction steps as [|[rp np] steps IH]; intros from state path results Hi; cbn [walk_steps]; [settle|].
  cbn [List.map concat] in Hi. apply all_inside_app in Hi as [[Hrp Hnp]%all_inside_app Hi]. cbn [fst snd] in *.
  assert (forall n s p r, settles (fun w f => walk_steps w (rec w f) ctx path_var steps n s p r)) as Hk by (intros; by apply IH). clear IH.
  destruct (rp_var_length rp) as [bounds|].
  - unfold expand_var_length. destruct (pinned_hops rp (ms_row state)) as [pinned|]; [|apply settles_ret]. intros t.
    destruct (settles_walk_stack rp np pinned (unwrap_or (vl_min bounds) 1) (unwrap_or (vl_max bounds) USIZE_MAX)
      (fun w f => walk_steps w (rec w f) ctx path_var steps) Hk Hrp Hnp [mkFrame from state path []] results t) as (n0 & w0 & f0 & r & Hr & Hs).
    exists (n0 `max` w0)%nat, f0, r. split; [done|]. split; [done|]. intros w f Hw Hf. apply Hs; lia.
  - pose proof settles_rel_satisfies. pose proof settles_node_satisfies. unfold fixed_hop. settle.
Qed.

Lemma settles_match_path p state : all_inside (pattern_parts p) -> settles (fun w f => match_path w (rec w f) ctx p state).
Proof.
  intros [Hs Hi]%all_inside_app. pose proof settles_walk_steps. pose proof settles_node_satisfies. pose proof settles_seek_anchor.
  unfold match_path, anchors_of. settle.
Qed.

Lemma settles_probe_steps steps row from : settles (fun _ _ => probe_steps ctx steps row from).
Proof. revert from. induction steps as [|[rp np] steps IH]; intros from; cbn [probe_steps]; settle. Qed.
Lemma settles_pattern_exists p row : settles (fun _ _ => pattern_exists ctx p row).
Proof. pose proof settles_probe_steps. unfold pattern_exists. settle. Qed.

Lemma settles_holds c row span : all_inside (opt_list c) -> settles (fun w f => holds (rec w f) ctx c row span).
Proof. intros Hi. unfold holds. settle. apply Hrec. by eapply inside_opt. Qed.
Lemma settles_eval_opt c row : all_inside (opt_list c) -> settles (fun w f => eval_opt (rec w f) ctx c row).
Proof. intros Hi. unfold eval_opt. settle. apply Hrec. by eapply inside_opt. Qed.

Definition when_parts (w : BoundExpr * BoundExpr) : list BoundExpr := [w.1; w.2].
Lemma settles_case_operand v whens row : all_inside (concat (List.map when_parts whens)) -> settles (fun w f => case_operand (rec w f) ctx v whens row).
Proof.
  induction whens as [|[c r] whens IH]; intros Hi; cbn [case_operand]; [settle|]. cbn [List.map concat] in Hi. apply all_inside_app in Hi as [Hi Hi'].
  specialize (IH Hi'). settle; apply Hrec, Hi; cbn; set_solver.
Qed.
Lemma settles_case_conditions whens row : all_inside (concat (List.map when_parts whens)) -> settles (fun w f => case_conditions (rec w f) ctx whens row).
Proof.
  induction whens as [|[c r] whens IH]; intros Hi; cbn [case_conditions]; [settle|]. cbn [List.map concat] in Hi. apply all_inside_app in Hi as [Hi Hi'].
  specialize (IH Hi'). settle; apply Hrec, Hi; cbn; set_solver.
Qed.
Lemma settles_comprehend x c m items row span : all_inside (opt_list c) -> all_inside (opt_list m) ->
  settles (fun w f => comprehend (rec w f) ctx x c m items row span).
Proof. intros Hc Hm. pose proof settles_holds. unfold comprehend, ensure. settle. apply Hrec. by eapply inside_opt. Qed.
Lemma settles_quantify kind x items p row span : inside p -> settles (fun w f => quantify (rec w f) ctx kind x items p row span).
Proof. intros Hp. unfold quantify. settle. Qed.
Lemma settles_reduce a x items init e row : inside e -> settles (fun w f => reduce (rec w f) ctx a x items init e row).
Proof. intros He. unfold reduce. settle. Qed.

Lemma settles_eval_body e row : all_inside (parts e) -> settles (fun w f => eval_body w (rec w f) ctx e row).
Proof.
  pose proof settles_pattern_exists. pose proof settles_call as Hcall. unfold const in Hcall.
  intros Hi. unfold eval_body, ensure. destruct e; cbn [parts] in Hi.
  all: try (settle; apply Hrec, Hi; set_solver).
  - pose proof settles_binary as Hop. unfold const in Hop. settle; apply Hrec, Hi; set_solver.
  - apply all_inside_app in Hi as [Hp [Hw Hm]%all_inside_app]. assert (inside e) by (apply Hm, list_elem_of_here).
    pose proof settles_match_path. pose proof settles_holds. settle.
  - apply all_inside_app in Hi as [Ho [Hw He]%all_inside_app]. pose proof settles_case_operand. pose proof settles_case_conditions.
    settle; apply Hrec; first [apply Ho; apply list_elem_of_here | apply He; apply list_elem_of_here].
  - assert (inside e) by (apply Hi, list_elem_of_here).
    apply (all_inside_app [e]) in Hi as [_ [Hw Hm]%all_inside_app]. pose proof settles_comprehend. settle.
  - assert (inside e1) by (apply Hi; set_solver). assert (inside e2) by (apply Hi; set_solver). pose proof settles_quantify. settle.
  - assert (inside e1) by (apply Hi; set_solver). assert (inside e2) by (apply Hi; set_solver). assert (inside e3) by (apply Hi; set_solver).
    pose proof settles_reduce. settle.
  - assert (inside e) by (apply Hi, list_elem_of_here). apply (all_inside_app [e]) in Hi as [_ [Hw Hm]%all_inside_app].
    pose proof settles_eval_opt. settle.
Qed.
End body.

Lemma settles_eval ctx e row : finite (cx_graph ctx) -> settles (fun w f => eval w f ctx e row).
Proof.
  intros (ids & width & Hg). remember (esize e) as n eqn:Hn. revert e row Hn. induction (lt_wf n) as [n _ IH]. intros e row ->.
  assert (settles (fun w f => eval_body w (eval w f) ctx e row)) as Hb.
  { apply (settles_eval_body (fun w f => eval w f) ctx (fun e' => esize e' < esize e)%nat) with (ids := ids) (width := width).
    - intros e' row' Hlt. by apply (IH (esize e') Hlt).
    - done.
    - intros e' He. by apply parts_smaller. }
  intros t. destruct (Hb t) as (w0 & f0 & r & H1 & H2 & H3). exists w0, (S f0), r. split; [done|]. split; [done|].
  intros w [|f] Hw Hf; [lia|]. cbn [eval]. apply H3; lia.
Qed.

(** ** Clauses that read *)

Section clauses.
Variable ctx : EvalCtx.
Hypothesis Hfinite : finite (cx_graph ctx).

Lemma settles_ev e row : settles (fun w f => eval w f ctx e row).
Proof. by apply settles_eval. Qed.
Lemma settles_condition c row span : settles (fun w f => holds (eval w f) ctx c row span).
Proof. pose proof settles_ev. unfold holds. settle. Qed.
Lemma settles_path p state : settles (fun w f => match_path w (eval w f) ctx p state).
Proof.
  destruct Hfinite as (ids & width & Hg). apply (settles_match_path (fun w f => eval w f) ctx (fun _ => True)) with (ids := ids) (width := width); [|done|done].
  intros e row _. apply settles_ev.
Qed.
Lemma settles_push_row out row : settles (const (push_row out row)).
Proof. unfold const, push_row. settle. Qed.

Lemma settles_match_clause rows optional patterns c : settles (fun w f => match_clause w f rows optional patterns c ctx).
Proof.
  pose proof settles_path. pose proof settles_condition. pose proof settles_push_row as Hpush. unfold const in Hpush.
  unfold match_clause, match_patterns. settle.
Qed.

Lemma settles_keep_distinct {A : Type} (key : A -> bytes) (charge : Z -> M unit) items :
  (forall n, settles (const (charge n))) -> settles (const (keep_distinct key charge items)).
Proof. unfold const. intros Hc. unfold keep_distinct. settle. Qed.

Lemma total_checked_sum a b span : total_result (checked_sum a b span).
Proof. unfold checked_sum. total. Qed.
Lemma total_sum_loop vs i x b span : total_result (sum_loop vs i x b span).
Proof.
  revert i x b. induction vs as [|v vs IH]; intros i x b; [by destruct b|]. destruct v; try done; cbn [sum_loop]; [|apply IH].
  unfold checked_sum. case_match; [apply IH|done].
Qed.
Lemma total_avg_loop vs x span : total_result (avg_loop vs x span).
Proof. revert x. induction vs as [|v vs IH]; intros x; [done|]. destruct v; try done; apply IH. Qed.
Lemma total_usize_bound v span : total_result (usize_bound v span).
Proof. destruct v; total. Qed.
Hint Resolve total_sum_loop total_avg_loop total_usize_bound : total.

Lemma settles_aggregate_values name vs span : settles (const (aggregate_values name vs span)).
Proof. unfold const, aggregate_values, ensure. settle. Qed.

Lemma settles_accumulate name distinct arg span group : settles (fun w f => accumulate w f ctx name distinct arg span group).
Proof.
  pose proof settles_ev. pose proof settles_aggregate_values as Ha. unfold const in Ha. unfold accumulate. settle.
  apply settles_keep_distinct. intros n. apply settles_ret.
Qed.

(** A context differs from another only in its aggregates. *)
Lemma settles_eval_with_group e group r : settles (fun w f => eval_with_group w f ctx e group r).
Proof. pose proof settles_accumulate. unfold eval_with_group. settle. by apply settles_eval. Qed.

Lemma settles_merged_rows p rows : settles (fun w f => merged_rows w f ctx p rows).
Proof.
  pose proof settles_eval_with_group. pose proof settles_ev. pose proof settles_push_row as Hpush. unfold const in Hpush.
  unfold merged_rows, group_rows, project_group, project_row. settle.
Qed.
Lemma settles_order_rows p rows : settles (fun w f => order_rows w f ctx p rows).
Proof. pose proof settles_ev. unfold order_rows, order_keys. settle. Qed.
Lemma settles_eval_bound e : settles (fun w f => eval_bound w f ctx e).
Proof. pose proof settles_ev. unfold eval_bound. settle. Qed.

Lemma settles_project rows p is_with : settles (fun w f => project w f rows p ctx is_with).
Proof.
  pose proof settles_merged_rows. pose proof settles_order_rows. pose proof settles_eval_bound. pose proof settles_condition.
  unfold project. settle. apply settles_keep_distinct. intros n. apply settles_ret.
Qed.

Lemma settles_unwind_row_cap next : settles (fun w f => unwind_row_cap w f next ctx).
Proof. pose proof settles_eval_bound. unfold unwind_row_cap. settle. Qed.
Lemma settles_unwind_items alias cap row items out : settles (const (unwind_items alias cap row items out)).
Proof.
  pose proof settles_push_row as Hpush. unfold const in *. revert out. induction items as [|item items IH]; intros out; cbn [unwind_items]; settle.
Qed.
Lemma settles_unwind_rows e alias span cap rows out : settles (fun w f => unwind_rows w f ctx e alias span cap rows out).
Proof.
  pose proof settles_ev. pose proof settles_unwind_items as Hitems. unfold const in Hitems. revert out.
  induction rows as [|row rows IH]; intros out; cbn [unwind_rows]; settle.
Qed.
End clauses.

(** ** Clauses that write *)

Lemma expand_rel_elem lookup id direction types r e : e ∈ expand_rel lookup id direction types r -> e.1 = r.
Proof. unfold expand_rel. repeat case_match; try (by intros ?%elem_of_nil); intros ->%list_elem_of_singleton; done. Qed.
Lemma expand_rel_length lookup id direction types r : (length (expand_rel lookup id direction types r) <= 1)%nat.
Proof. unfold expand_rel. repeat case_match; cbn; lia. Qed.

Lemma concat_length {A B : Type} (f : A -> list B) l : (forall x, length (f x) <= 1)%nat -> (length (concat (List.map f l)) <= length l)%nat.
Proof. intros Hf. induction l as [|x l IH]; [done|]. cbn [List.map concat length]. rewrite length_app. specialize (Hf x). lia. Qed.

(** An overlay of a finite source is finite. *)
Lemma finite_overlay m : finite (base m) -> finite (mutable_source m).
Proof.
  intros (ids & width & Hids & Hwidth).
  set (fresh := list_to_set (List.map rv_id (created_rels m)) : gset bytes).
  set (over := list_to_set (List.map (fun e : bytes * RelValue => rv_id e.2) (map_to_list (rel_overrides m))) : gset bytes).
  assert (forall r : RelValue, rv_id r ∈ ids ∪ fresh -> rv_id (overlay_rel m r) ∈ ids ∪ fresh ∪ over) as Hover.
  { intros r Hr. unfold overlay_rel. destruct (rel_overrides m !! rv_id r) as [r'|] eqn:E; [|set_solver].
    apply elem_of_union_r. apply elem_of_list_to_set, list_elem_of_In, in_map_iff. exists (rv_id r, r'). split; [done|]. by apply list_elem_of_In, elem_of_map_to_list. }
  exists (ids ∪ fresh ∪ over), (width + length (created_rels m))%nat. split; cbn [expand mutable_source]; intros id direction types; unfold mutable_expand.
  - intros e. destruct (negb (node_live m id)); [by intros ?%elem_of_nil|]. intros [He|He]%elem_of_app.
    + apply list_elem_of_In, in_map_iff in He as (e0 & <- & [He0 _]%List.filter_In). cbn [fst]. apply Hover. apply elem_of_union_l.
      apply (Hids id direction types). by apply list_elem_of_In.
    + apply list_elem_of_In, in_concat in He as (l & Hl & He). apply in_map_iff in Hl as (r & <- & Hr). destruct (rel_live m (rv_id r)); [|done].
      apply list_elem_of_In, expand_rel_elem in He as ->. apply Hover, elem_of_union_r, elem_of_list_to_set, list_elem_of_In. by apply in_map.
  - destruct (negb (node_live m id)); [cbn; lia|]. rewrite length_app, length_map.
    pose proof (List.filter_length_le (fun e : RelValue * NodeValue => rel_live m (rv_id e.1) && node_live m (nv_id e.2)) (expand (base m) id direction types)).
    specialize (Hwidth id direction types).
    pose proof (concat_length (fun r => if rel_live m (rv_id r) then expand_rel (current_node m) id direction types (overlay_rel m r) else []) (created_rels m)) as Hc.
    assert (forall r, length (if rel_live m (rv_id r) then expand_rel (current_node m) id direction types (overlay_rel m r) else []) <= 1)%nat as H1
      by (intros r; destruct (rel_live m _); [apply expand_rel_length|cbn; lia]).
    specialize (Hc H1). lia.
Qed.

(** Writes leave the base alone. *)
Lemma base_set_node_property m id k v : base (set_node_property m id k v).2 = base m.
Proof. unfold set_node_property. by case_match. Qed.
Lemma base_set_node_properties m id es b : base (set_node_properties m id es b).2 = base m.
Proof. unfold set_node_properties. by case_match. Qed.
Lemma base_add_node_label m id l : base (add_node_label m id l).2 = base m.
Proof. unfold add_node_label. by repeat case_match. Qed.
Lemma base_remove_node_label m id l : base (remove_node_label m id l).2 = base m.
Proof. unfold remove_node_label. by repeat case_match. Qed.
Lemma base_delete_rel m r : base (delete_rel m r) = base m.
Proof. unfold delete_rel. by case_match. Qed.
Lemma base_delete_rels rels m : base (List.fold_left delete_rel rels m) = base m.
Proof. revert m. induction rels as [|r rels IH]; intros m; [done|]. cbn [List.fold_left]. by rewrite IH, base_delete_rel. Qed.
Lemma base_delete_node m id : base (delete_node m id) = base m.
Proof. unfold delete_node. by case_match. Qed.
Lemma base_detach m id : base (detach_delete_node m id) = base m.
Proof. unfold detach_delete_node. by rewrite base_delete_node, base_delete_rels. Qed.
Lemma base_delete_nodes detach ids span m m' : delete_nodes detach ids span m = Ok m' -> base m' = base m.
Proof.
  revert m. induction ids as [|id ids IH]; intros m; cbn [delete_nodes]; [by intros [= <-]|]. destruct detach.
  - intros Hm%IH. by rewrite Hm, base_detach.
  - destruct (has_incident_rels m id); [done|]. intros Hm%IH. by rewrite Hm, base_delete_node.
Qed.
Lemma total_delete_nodes detach ids span m : total_result (delete_nodes detach ids span m).
Proof. revert m. induction ids as [|id ids IH]; intros m; [done|]. cbn [delete_nodes]. destruct detach; [apply IH|]. destruct (has_incident_rels m id); [done|apply IH]. Qed.

Lemma base_change_labels change target labels row g span row' g' :
  (forall m id l, base (change m id l).2 = base m) -> change_labels change target labels row g span = Ok (row', g') -> base g' = base g.
Proof.
  intros Hc. unfold change_labels. destruct (row_get row target) as [| | | | | | |n| | |]; try done; [by intros [= _ <-]|].
  destruct (List.fold_left _ labels (n, g)) as [n' g''] eqn:E. intros [= _ <-].
  assert (forall labels s, base (List.fold_left (fun (s : NodeValue * MutableGraph) label =>
    let '(updated, g) := change s.2 (nv_id s.1) label in (match updated with Some n => n | None => s.1 end, g)) labels s).2 = base s.2) as Hf.
  { clear -Hc. induction labels as [|l labels IH]; intros s; [done|]. cbn [List.fold_left]. rewrite IH. specialize (Hc s.2 (nv_id s.1) l).
    destruct (change s.2 (nv_id s.1) l) as [[n|] g]; exact Hc. }
  specialize (Hf labels (n, g)). by rewrite E in Hf.
Qed.
Lemma total_change_labels change target labels row g span : total_result (change_labels change target labels row g span).
Proof. unfold change_labels. destruct (row_get row target); try done. by destruct (List.fold_left _ _ _). Qed.

Section pipeline.
Variable parameters : gmap bytes value.

(** The graph a step leaves is over a finite base. *)
Definition over_finite (g : MutableGraph) : Prop := finite (base g).

Lemma settles_in_context {A : Type} g (body : nat -> nat -> EvalCtx -> M A) :
  (forall ctx, cx_graph ctx = g -> settles (fun w f => body w f ctx)) -> settles (fun w f => in_context parameters g (body w f)).
Proof. intros Hb. unfold in_context. apply (settles_then _ (fun _ _ => e_context)); [apply settles_ret|]. intros _. by apply Hb. Qed.

Lemma settles_over {A : Type} (g : MutableGraph) (body : nat -> nat -> EvalCtx -> M A) :
  over_finite g -> (forall ctx, finite (cx_graph ctx) -> settles (fun w f => body w f ctx)) -> settles (fun w f => over parameters g (body w f)).
Proof. intros Hg Hb. apply settles_in_context. intros ctx Hctx. apply Hb. rewrite Hctx. by apply finite_overlay. Qed.

Lemma settles_property_map g ps row span : over_finite g -> settles (fun w f => over parameters g (eval_property_map w f ps row span)).
Proof. intros Hg. apply settles_over; [done|]. intros ctx Hctx. pose proof settles_ev. unfold eval_property_map. settle. Qed.

Lemma settles_create_node np row g : over_finite g ->
  settles_to (fun r => over_finite r.2) (fun w f => resolve_or_create_node w f parameters np row g).
Proof.
  intros Hg. unfold resolve_or_create_node. cbn zeta.
  assert (settles_to (fun r : NodeValue * Row * MutableGraph => over_finite r.2) (fun w f =>
    let! props := over parameters g (eval_property_map w f (np_properties np) row (np_span np)) in
    let! props := (if np_mint_surrogate np && negb (bool_decide (is_Some (map_get props SURROGATE_KEY_PROPERTY)))
       then let! id := e_mint_surrogate_id in st_ret (map_insert props SURROGATE_KEY_PROPERTY (CString id)) else st_ret props) in
    let '(n, g) := create_node g (np_labels np) props in
    st_ret (n, match np_var np with Some var => row_set row var (CNode n) | None => row end, g))) as Hcreate.
  { eapply settles_then; [by apply settles_property_map|]. intros props. eapply settles_then.
    - destruct (_ && _); [|apply settles_ret]. intros t. eexists 0%nat, 0%nat, _. split; [|split; [|intros; reflexivity]]; done.
    - intros props'. cbn. by apply settles_ret_to. }
  destruct (np_var np) as [var|]; [|exact Hcreate]. destruct (row_contains row var); [|exact Hcreate].
  destruct (row_get row var); try (by apply settles_fail). by apply settles_ret_to.
Qed.

(** What the binder guarantees of the patterns of [CREATE] and [MERGE]. *)
Definition creatable (p : BoundPathPattern) : Prop := forall s, s ∈ pp_steps p -> rp_types s.1 <> [].

Lemma settles_create_step s step : rp_types step.1 <> [] -> over_finite (cs_graph s) ->
  settles_to (fun s => over_finite (cs_graph s)) (fun w f => create_step w f parameters s step).
Proof.
  destruct step as [rp np]. cbn [fst]. intros Ht Hg. unfold create_step.
  eapply settles_bind; [by apply settles_create_node|]. intros [[target row] g] Hg'. cbn [snd] in Hg'.
  destruct (rp_types rp) as [|ty tys]; [done|]. eapply settles_then; [by apply settles_property_map|]. intros props.
  destruct (rp_direction rp); cbn; first [by apply settles_ret_to | by apply settles_fail].
Qed.

Lemma settles_fold_inv {A B : Type} (P : B -> Prop) (k : nat -> nat -> B -> A -> M B) l b :
  P b -> (forall b a, a ∈ l -> P b -> settles_to P (fun w f => k w f b a)) -> settles_to P (fun w f => st_fold (k w f) l b).
Proof.
  revert b. induction l as [|a l IH]; intros b Hb Hk; cbn [st_fold]; [by apply settles_ret_to|].
  eapply settles_bind; [apply Hk; [apply list_elem_of_here|done]|]. intros b' Hb'. apply IH; [done|]. intros b'' a' Ha. apply Hk. by apply list_elem_of_further.
Qed.

Lemma settles_create_path p row g : creatable p -> over_finite g ->
  settles_to (fun r => over_finite r.2) (fun w f => create_path w f parameters p row g).
Proof.
  intros Hp Hg. unfold create_path. eapply settles_bind; [by apply settles_create_node|]. intros [[start row'] g'] Hg'.
  eapply settles_bind; [apply (settles_fold_inv (fun s => over_finite (cs_graph s)) (fun w f => create_step w f parameters)); [exact Hg'|]|].
  - intros s step Hin Hs. apply settles_create_step; [by apply Hp|done].
  - intros s Hs. by apply settles_ret_to.
Qed.

Lemma settles_st_of {A : Type} (P : A -> Prop) (r : result ExecError A) : total_result r -> (forall a, r = Ok a -> P a) -> settles_to P (fun _ _ => (st_of r : M A)).
Proof. intros Ht HP t. exists 0%nat, 0%nat, (r, t). by split. Qed.

Lemma settles_set_map target v merge row g span : over_finite g ->
  settles_to (fun r => over_finite r.2) (fun w f => apply_set_map w f parameters target v merge row g span).
Proof.
  intros Hg. unfold apply_set_map. eapply settles_then; [apply settles_over; [done|]; intros ctx Hctx; by apply settles_ev|]. intros source.
  eapply settles_then; [apply settles_of; unfold map_source; by repeat case_match|]. intros [m|]; [|by apply settles_ret_to].
  destruct (row_get row target) as [| | | | | | |n|r| |]; try (by apply settles_fail); try (by apply settles_ret_to).
  pose proof (base_set_node_properties g (nv_id n) m merge) as Hb. destruct (set_node_properties g (nv_id n) m merge) as [u g']. apply settles_ret_to.
  unfold over_finite. cbn [snd] in *. by rewrite Hb.
Qed.

Lemma settles_set_item item row g : over_finite g -> settles_to (fun r => over_finite r.2) (fun w f => apply_set_item w f parameters item row g).
Proof.
  intros Hg. destruct item as [target key v span|target v span|target v span|target labels span]; cbn [apply_set_item]; try (by apply settles_set_map).
  - eapply settles_then; [apply settles_over; [done|]; intros ctx Hctx; by apply settles_ev|]. intros nv. cbn zeta. set (v' := if is_null nv then None else Some nv).
    destruct (row_get row target) as [| | | | | | |n|r| |]; try (by apply settles_fail); try (by apply settles_ret_to).
    pose proof (base_set_node_property g (nv_id n) key v') as Hb. destruct (set_node_property g (nv_id n) key v') as [u g']. apply settles_ret_to.
    unfold over_finite. cbn [snd] in *. by rewrite Hb.
  - apply settles_st_of; [apply total_change_labels|]. intros [row' g'] Hc. unfold over_finite. cbn [snd].
    rewrite (base_change_labels _ _ _ _ _ _ _ _ base_add_node_label Hc). done.
Qed.

Lemma settles_set_items items row g : over_finite g -> settles_to (fun r => over_finite r.2) (fun w f => apply_set_items w f parameters items row g).
Proof.
  intros Hg. unfold apply_set_items. eapply settles_bind.
  - apply (settles_fold_inv (fun r => over_finite r.2) (fun w f '(row, g) item => apply_set_item w f parameters item row g)); [exact Hg|].
    intros [row' g'] item _ Hg'. by apply settles_set_item.
  - intros [row' g'] Hg'. by apply settles_ret_to.
Qed.

Lemma total_remove_item item row g : total_result (apply_remove_item item row g).
Proof.
  destruct item; cbn [apply_remove_item]; [|apply total_change_labels]. destruct (row_get row target); try done.
  by destruct (set_node_property _ _ _ _).
Qed.
Lemma base_remove_item item row g row' g' : apply_remove_item item row g = Ok (row', g') -> base g' = base g.
Proof.
  destruct item as [target key span|target labels span]; cbn [apply_remove_item]; [|apply base_change_labels, base_remove_node_label].
  destruct (row_get row target) as [| | | | | | |n|r| |]; try done; [by intros [= _ <-]| |by intros [= _ <-]].
  pose proof (base_set_node_property g (nv_id n) key None) as Hb. destruct (set_node_property g (nv_id n) key None). by intros [= _ <-].
Qed.

(** Push a row of a written clause. *)
Lemma settles_out out row g : over_finite g -> settles_to (fun r : list Row * MutableGraph => over_finite r.2) (fun _ _ => (let! out := push_row out row in st_ret (out, g) : M _)).
Proof. intros Hg. eapply settles_then; [apply settles_push_row|]. intros out'. by apply settles_ret_to. Qed.

Lemma settles_create_clause rows patterns g : (forall p, p ∈ patterns -> creatable p) -> over_finite g ->
  settles_to (fun r => over_finite r.2) (fun w f => create_clause w f parameters rows patterns g).
Proof.
  intros Hp Hg. unfold create_clause. apply (settles_fold_inv (fun r : list Row * MutableGraph => over_finite r.2) (fun w f '(out, g) row =>
    let! '(row, g) := st_fold (fun '(row, g) pattern => create_path w f parameters pattern row g) patterns (row, g) in
    let! out := push_row out row in st_ret (out, g))); [exact Hg|]. intros [out g'] row _ Hg'. eapply settles_bind.
  - apply (settles_fold_inv (fun r => over_finite r.2) (fun w f '(row, g) pattern => create_path w f parameters pattern row g)); [exact Hg'|].
    intros [row' g''] p Hin Hg''. apply settles_create_path; [by apply Hp|done].
  - intros [row' g''] Hg''. by apply settles_out.
Qed.

Lemma settles_set_clause rows items g : over_finite g -> settles_to (fun r => over_finite r.2) (fun w f => set_clause w f parameters rows items g).
Proof.
  intros Hg. unfold set_clause. apply (settles_fold_inv (fun r : list Row * MutableGraph => over_finite r.2) (fun w f '(out, g) row =>
    let! '(row, g) := apply_set_items w f parameters items row g in let! out := push_row out row in st_ret (out, g))); [exact Hg|].
  intros [out g'] row _ Hg'. eapply settles_bind; [by apply settles_set_items|]. intros [row' g''] Hg''. by apply settles_out.
Qed.

Lemma settles_remove_clause rows items g : over_finite g -> settles_to (fun r => over_finite r.2) (fun _ _ => (remove_clause rows items g : M _)).
Proof.
  intros Hg. unfold remove_clause. apply (settles_fold_inv (fun r : list Row * MutableGraph => over_finite r.2) (fun _ _ '(out, g) row =>
    let! '(row, g) := st_fold (fun '(row, g) item => st_of (apply_remove_item item row g)) items (row, g) in
    st_ret (out ++ [refresh_entities row g], g))); [exact Hg|].
  intros [out g'] row _ Hg'. eapply settles_bind.
  - apply (settles_fold_inv (fun r => over_finite r.2) (fun _ _ '(row, g) item => st_of (apply_remove_item item row g))); [exact Hg'|].
    intros [row' g''] item _ Hg''. apply settles_st_of; [apply total_remove_item|]. intros [row3 g3] Hr%base_remove_item. unfold over_finite. cbn [snd]. by rewrite Hr.
  - intros [row' g''] Hg''. by apply settles_ret_to.
Qed.

Lemma settles_delete_clause rows detach targets g : over_finite g ->
  settles_to (fun r => over_finite r.2) (fun w f => delete_clause w f parameters rows detach targets g).
Proof.
  intros Hg. unfold delete_clause. eapply settles_then.
  - apply settles_over; [done|]. intros ctx Hctx. pose proof settles_ev.
    assert (forall v span found, settles (fun _ _ : nat => (st_of (collect_delete_target v span found) : M (list bytes * list RelValue)))) as Hc.
    { intros v span [a b]. apply settles_of. by destruct v. }
    settle.
  - intros [node_ids rels]. eapply settles_bind.
    + apply (settles_st_of over_finite); [apply total_delete_nodes|]. intros g' Hg'%base_delete_nodes. unfold over_finite. by rewrite Hg', base_delete_rels.
    + intros g' Hg'. by apply settles_ret_to.
Qed.

Lemma settles_merge_clause rows p oc om g : creatable p -> over_finite g ->
  settles_to (fun r => over_finite r.2) (fun w f => merge_clause w f parameters rows p oc om g).
Proof.
  intros Hp Hg. unfold merge_clause. refine (settles_fold_inv (fun r : list Row * MutableGraph => over_finite r.2) (fun w f '(out, g) row => _) rows ([], g) Hg _).
  intros [out g'] row _ Hg'. eapply settles_then; [apply settles_over; [done|]; intros ctx Hctx; by apply settles_path|]. intros [|m matched].
  - eapply settles_bind; [by apply settles_create_path|]. intros [row' g2] Hg2. eapply settles_bind; [by apply settles_set_items|].
    intros [row3 g3] Hg3. by apply settles_out.
  - refine (settles_fold_inv (fun r : list Row * MutableGraph => over_finite r.2) (fun w f '(out, g) state => _) (m :: matched) (out, g') Hg' _).
    intros [out2 g2] state _ Hg2. eapply settles_bind; [by apply settles_set_items|]. intros [row3 g3] Hg3. by apply settles_out.
Qed.

(** What the binder guarantees of a clause. *)
Definition clause_ok (c : BoundClause) : Prop :=
  match c with
  | ClCreate patterns => forall p, p ∈ patterns -> creatable p
  | ClMerge p _ _ => creatable p
  | ClCall procedure _ yields _ _ => is_Some (yield_positions procedure yields)
  | _ => True
  end.

Variable resolver : VersionResolver.
Variable procedures : ProcedureProvider.
Hypothesis Hat : forall refspec g, vr_at resolver refspec = Ok g -> finite g.

Lemma settles_call_row procedure args positions c span g produced row : over_finite g ->
  settles (fun w f => call_row w f parameters procedures procedure args positions c span g produced row).
Proof.
  intros Hg. unfold call_row. eapply settles_then; [apply settles_over; [done|]; intros ctx Hctx; pose proof settles_ev; settle|]. intros vs.
  eapply settles_then; [settle|]. intros tuples. apply settles_fold. intros out tuple _. cbn zeta.
  eapply settles_then; [destruct c; [|apply settles_ret]|].
  - apply settles_over; [done|]. intros ctx Hctx. by apply settles_condition.
  - intros keep. destruct (negb keep); settle.
Qed.

Definition pipeline_finite (p : Pipeline) : Prop := over_finite (pl_graph p).

Lemma settles_run_clause c next p : clause_ok c -> pipeline_finite p ->
  settles_to pipeline_finite (fun w f => run_clause w f parameters resolver procedures c next p).
Proof.
  intros Hc Hp. assert (forall m : nat -> nat -> M (list Row * MutableGraph), settles_to (fun r => over_finite r.2) m ->
    settles_to pipeline_finite (fun w f => let! r := m w f in st_ret (set_written p r))) as Hw.
  { intros m Hm. eapply settles_bind; [exact Hm|]. intros [rows g] Hg. by apply settles_ret_to. }
  destruct c as [optional patterns at_ref w span|e alias span|pr|pr|patterns|items|items|detach targets|pattern oc om|procedure args yields w span];
    cbn [run_clause clause_ok] in *; cbn zeta.
  - eapply (settles_bind finite).
    { destruct at_ref as [a|]; [|by apply settles_ret_to, finite_overlay].
      eapply settles_then; [apply settles_of; unfold resolve_at_ref; by repeat case_match|]. intros refspec.
      destruct (vr_at resolver refspec) as [g|] eqn:E; [apply settles_ret_to; by eapply Hat|by apply settles_fail]. }
    intros source Hs. eapply settles_then; [apply settles_in_context; intros ctx Hctx; apply settles_match_clause; by rewrite Hctx|].
    intros rows. by apply settles_ret_to.
  - eapply settles_then; [apply settles_over; [done|]; intros ctx Hctx|intros rows; by apply settles_ret_to].
    eapply settles_then; [by apply settles_unwind_row_cap|]. intros cap. by apply settles_unwind_rows.
  - eapply settles_then; [apply settles_over; [done|]; intros ctx Hctx; by apply settles_project|]. intros out. by apply settles_ret_to.
  - eapply settles_then; [apply settles_over; [done|]; intros ctx Hctx; by apply settles_project|]. intros out. by apply settles_ret_to.
  - apply Hw. by apply settles_create_clause.
  - apply Hw. by apply settles_set_clause.
  - apply (Hw (fun _ _ => remove_clause (pl_rows p) items (pl_graph p))). by apply settles_remove_clause.
  - apply Hw. by apply settles_delete_clause.
  - apply Hw. by apply settles_merge_clause.
  - destruct Hc as [positions ->]. eapply settles_then; [apply settles_fold; intros out row _; by apply settles_call_row|]. intros produced.
    destruct yields; by apply settles_ret_to.
Qed.

Lemma settles_run_clauses cs p : Forall clause_ok cs -> pipeline_finite p ->
  settles_to pipeline_finite (fun w f => run_clauses w f parameters resolver procedures cs p).
Proof.
  intros Hcs. revert p. induction Hcs as [|c cs Hc _ IH]; intros p Hp; cbn [run_clauses]; [by apply settles_ret_to|].
  eapply settles_bind; [by apply settles_run_clause|]. exact IH.
Qed.

Lemma settles_run_versioned cs : Forall clause_ok cs -> finite (vr_base resolver) ->
  settles (fun w f => run_versioned w f parameters cs resolver procedures).
Proof.
  intros Hcs Hb. unfold run_versioned. destruct (existsb _ _); [by apply settles_fail|].
  eapply settles_bind; [by apply settles_run_clauses|]. intros p _. apply settles_ret.
Qed.
End pipeline.
End plain.

(** An in-memory graph is finite. *)
Lemma memory_finite g : finite (memory_source g).
Proof.
  exists (list_to_set (List.map rv_id (mg_rels g))), (length (mg_rels g)). split; cbn; intros id direction types; unfold memory_expand.
  - intros e He. apply list_elem_of_In, in_concat in He as (l & Hl & He). apply in_map_iff in Hl as (r & <- & Hr).
    apply list_elem_of_In, expand_rel_elem in He as ->. by apply elem_of_list_to_set, list_elem_of_In, in_map.
  - apply concat_length. intros r. apply expand_rel_length.
Qed.
