(* ===== verification/CypherMeaning.v ===== *)
(** * What running a query means

    The executor's answer is the meaning of the query or a spent budget, and
    every query over finite graphs has a meaning.  Small queries show the
    definitions at work. *)
From Stdlib Require Import SpecFloat.
From stdpp Require Import pretty.
From S2P Require Import Prelude Keys Model Canonical Schema Governor CypherValue CypherExpr CypherSource CypherOps CypherFunctions CypherEval CypherProject CypherRun CypherSim CypherExec CypherTotal.
Open Scope Z_scope.

Section meaning.
Context {std : Std}.
(** The instants and the identifiers of one execution. *)
Variable clock : nat -> Z.
Variable mints : nat -> option Z * bytes.

(** The run of a query under limits, and its run without any. *)
Definition executed (l : QueryLimits) (now last_instant : Z) (walk fuel : nat) (parameters : gmap bytes value) (clauses : list BoundClause)
    (resolver : VersionResolver) (procedures : ProcedureProvider) : result ExecError (QueryResult * WriteChanges) :=
  (@run_versioned Machine (machine_effects clock mints) _ walk fuel parameters clauses resolver procedures (machine_new l now last_instant)).1.
Definition meaning (walk fuel : nat) (parameters : gmap bytes value) (clauses : list BoundClause)
    (resolver : VersionResolver) (procedures : ProcedureProvider) : result ExecError (QueryResult * WriteChanges) :=
  (@run_versioned Plain (plain_effects mints) _ walk fuel parameters clauses resolver procedures (mkPlain 0)).1.

Lemma executed_meaning l now last_instant walk fuel parameters clauses resolver procedures :
  (forall refspec g, vr_at resolver refspec = Ok g -> label_sets g) ->
  executed l now last_instant walk fuel parameters clauses resolver procedures = meaning walk fuel parameters clauses resolver procedures \/
  exists e, executed l now last_instant walk fuel parameters clauses resolver procedures = Err e /\ limited e.
Proof.
  intros Hat. unfold executed, meaning.
  pose proof (@sim_run_versioned Machine Plain (machine_effects clock mints) (plain_effects mints) _ limited walk walk (le_n walk) (or_intror eq_refl)
    label_sets between within_context (machine_sims clock mints) fuel fuel (le_n fuel) (or_intror eq_refl) parameters resolver procedures Hat clauses
    (machine_new l now last_instant) (mkPlain 0) eq_refl) as H.
  destruct (run_versioned walk fuel parameters clauses resolver procedures (machine_new l now last_instant)) as [[a|e] s].
  - destruct H as (t & -> & _). by left.
  - destruct H as [H|(t & ->)]; [right; by exists e|by left].
Qed.

(** C12: budget, clock and memo never change an answer. Whatever the limits
    and whenever the clock is read, a query gives exactly what it gives on a
    machine without limits and without a memo - rows, error, side effects and
    changes - or it is refused because a budget is spent. *)
Theorem execution_is_meaning l now last_instant walk fuel parameters clauses resolver procedures :
  (forall refspec g, vr_at resolver refspec = Ok g -> label_sets g) ->
  executed l now last_instant walk fuel parameters clauses resolver procedures = meaning walk fuel parameters clauses resolver procedures \/
  exists limit, executed l now last_instant walk fuel parameters clauses resolver procedures = Err (XResourceExceeded limit (mkSpan 0 0)) /\ limit <> ValueDepth.
Proof.
  intros Hat. destruct (executed_meaning l now last_instant walk fuel parameters clauses resolver procedures Hat) as [H|(e & H & limit & -> & Hl)];
    [by left|right]. by exists limit.
Qed.

(** C13: every query over finite graphs ends. A bound query has one meaning,
    which all large enough fuels compute; executed under any limits it answers
    that meaning or is refused because a budget is spent. *)
Theorem query_ends parameters clauses resolver procedures :
  Forall clause_ok clauses -> finite (vr_base resolver) ->
  (forall refspec g, vr_at resolver refspec = Ok g -> finite g /\ label_sets g) ->
  exists walk0 fuel0 answer, answer <> Err XFuel /\
    forall walk fuel, (walk0 <= walk)%nat -> (fuel0 <= fuel)%nat ->
      meaning walk fuel parameters clauses resolver procedures = answer /\
      forall l now last_instant, executed l now last_instant walk fuel parameters clauses resolver procedures = answer \/
        exists limit, executed l now last_instant walk fuel parameters clauses resolver procedures = Err (XResourceExceeded limit (mkSpan 0 0)).
Proof.
  intros Hcs Hb Hat.
  destruct (settles_run_versioned mints parameters resolver procedures (fun r g H => proj1 (Hat r g H)) clauses Hcs Hb (mkPlain 0)) as (w0 & f0 & [r t] & Hr & _ & H).
  exists w0, f0, r. split; [exact Hr|]. intros w f Hw Hf. assert (meaning w f parameters clauses resolver procedures = r) as Hm.
  { exact (f_equal fst (H w f Hw Hf)). }
  split; [exact Hm|]. intros l now last_instant.
  destruct (executed_meaning l now last_instant w f parameters clauses resolver procedures (fun r g H => proj2 (Hat r g H))) as [He|(e & He & limit & -> & _)].
  - left. by rewrite He.
  - right. by exists limit.
Qed.
End meaning.

(** ** Samples *)

#[export] Instance sample_std : Std := {
  std_debug_value := fun _ => []; std_debug_string := fun s => s; std_display_float := fun _ => []; std_powf := fun x _ => x;
  std_parse_float := fun _ => None; std_to_uppercase := fun s => s; std_to_lowercase := fun s => s }.

Definition sp : Span := mkSpan 0 0.
Definition sample_mints (n : nat) : option Z * bytes := (Some (Z.of_nat n), replicate 10 x00).
Definition sample_clock (n : nat) : Z := Z.of_nat n.

Definition sample_node (id label : string) (v : Z) : NodeValue := mkNodeValue (text id) [text label] [(text "v", CInt v)].
Definition sample_rel (id start finish : string) : RelValue := mkRelValue (text id) (text "R") (text start) (text finish) [].

(** A triangle with a tail. *)
Definition sample_graph : MemoryGraph :=
  mkMemory [sample_node "a" "A" 1; sample_node "b" "B" 2; sample_node "c" "B" 2; sample_node "d" "B" 3]
    [sample_rel "ab" "a" "b"; sample_rel "bc" "b" "c"; sample_rel "ca" "c" "a"; sample_rel "cd" "c" "d"] 0.
Definition sample_resolver : VersionResolver := SingleVersion (memory_source sample_graph).

Definition node_pattern (var : Z) (labels : list bytes) : BoundNodePattern := mkNodePattern (Some var) labels None false [] sp.
Definition rel_pattern (len : option VarLength) : BoundRelPattern := mkRelPattern None [text "R"] DOut len None sp.

(** MATCH (x:A)-[:R*]->(y) RETURN y.v AS v *)
Definition sample_query : list BoundClause :=
  [ClMatch false [mkPathPattern None (node_pattern 0 [text "A"]) [(rel_pattern (Some (mkVarLength None None)), node_pattern 1 [])] sp] None None sp;
   ClReturn (mkProjection false [mkItem (EProperty (EVariable 1 sp) (text "v") sp) (text "v") 2] [] None None None [0%nat] false)].

Definition rows_of (r : result ExecError (QueryResult * WriteChanges)) : option (list (list value)) :=
  match r with Ok (q, _) => Some (qr_rows q) | Err _ => None end.

Definition sample_meaning (q : list BoundClause) : option (list (list value)) := rows_of (meaning sample_mints 30 10 ∅ q sample_resolver NoProcedures).

Example sample_walk : sample_meaning sample_query = Some [[CInt 2]; [CInt 2]; [CInt 1]; [CInt 3]].
Proof. vm_compute. reflexivity. Qed.

(** RETURN DISTINCT, ORDER BY, SKIP and LIMIT over UNWIND. *)
Definition unwind (l : list Z) : BoundClause := ClUnwind (EListLiteral (List.map (fun n => ELiteral (LitInteger n) sp) l) sp) 0 sp.
Definition return_x (distinct descending : bool) (skip limit : option Z) : BoundClause :=
  let bound (o : option Z) := option_map (fun n => ELiteral (LitInteger n) sp) o in
  ClReturn (mkProjection distinct [mkItem (EVariable 0 sp) (text "x") 1] [(EVariable 1 sp, descending)] (bound skip) (bound limit) None [0%nat] false).

Example sample_distinct : sample_meaning [unwind [3; 1; 3; 2; 1]; return_x true false None None] = Some [[CInt 1]; [CInt 2]; [CInt 3]].
Proof. vm_compute. reflexivity. Qed.
Example sample_page : sample_meaning [unwind [3; 1; 3; 2; 1]; return_x false true (Some 1) (Some 3)] = Some [[CInt 3]; [CInt 2]; [CInt 1]].
Proof. vm_compute. reflexivity. Qed.

(** count, grouped by the value. *)
Definition count_by : BoundClause :=
  ClReturn (mkProjection false [mkItem (EVariable 0 sp) (text "x") 1; mkItem (EAggregate 7 "count" false None sp) (text "n") 2] [] None None None [0%nat] true).
Example sample_count : sample_meaning [unwind [3; 1; 3]; count_by] = Some [[CInt 3; CInt 2]; [CInt 1; CInt 1]].
Proof. vm_compute. reflexivity. Qed.

(** CREATE (n:N {v: 1}) SET n.v = 2 MATCH (m:N) RETURN m.v: writes are seen by later clauses. *)
Definition literal (n : Z) : BoundExpr := ELiteral (LitInteger n) sp.
Definition created_pattern : BoundPathPattern :=
  mkPathPattern None (mkNodePattern (Some 0) [text "N"] (Some (EMapLiteral [(text "v", literal 1)] sp)) false [] sp) [] sp.
Example sample_write : sample_meaning
  [ClCreate [created_pattern]; ClSet [SetProperty 0 (text "v") (literal 2) sp];
   ClMatch false [mkPathPattern None (node_pattern 1 [text "N"]) [] sp] None None sp;
   ClReturn (mkProjection false [mkItem (EProperty (EVariable 1 sp) (text "v") sp) (text "v") 2] [] None None None [0%nat] false)] = Some [[CInt 2]].
Proof. vm_compute. reflexivity. Qed.

(** Under a budget of three hops the walk is refused. *)
Definition tight : QueryLimits := mkQueryLimits 1000 1000 3 1000 1000 None.
Example sample_refused : executed sample_clock sample_mints tight 0 0 30 10 ∅ sample_query sample_resolver NoProcedures = Err (XResourceExceeded ExpansionSteps sp).
Proof. vm_compute. reflexivity. Qed.
Example sample_allowed : rows_of (executed sample_clock sample_mints default_limits 0 0 30 10 ∅ sample_query sample_resolver NoProcedures) = sample_meaning sample_query.
Proof. vm_compute. reflexivity. Qed.

Lemma sample_at refspec g : vr_at sample_resolver refspec = Ok g -> finite g /\ label_sets g.
Proof. done. Qed.

Lemma execution_is_meaning_witness :
  executed sample_clock sample_mints tight 0 0 30 10 ∅ sample_query sample_resolver NoProcedures = meaning sample_mints 30 10 ∅ sample_query sample_resolver NoProcedures \/
  exists limit, executed sample_clock sample_mints tight 0 0 30 10 ∅ sample_query sample_resolver NoProcedures = Err (XResourceExceeded limit (mkSpan 0 0)) /\ limit <> ValueDepth.
Proof. exact (execution_is_meaning sample_clock sample_mints tight 0 0 30 10 ∅ sample_query sample_resolver NoProcedures (fun r g H => proj2 (sample_at r g H))). Defined.

Lemma query_ends_witness :
  exists walk0 fuel0 answer, answer <> Err XFuel /\
    forall walk fuel, (walk0 <= walk)%nat -> (fuel0 <= fuel)%nat ->
      meaning sample_mints walk fuel ∅ sample_query sample_resolver NoProcedures = answer /\
      forall l now last_instant, executed sample_clock sample_mints l now last_instant walk fuel ∅ sample_query sample_resolver NoProcedures = answer \/
        exists limit, executed sample_clock sample_mints l now last_instant walk fuel ∅ sample_query sample_resolver NoProcedures = Err (XResourceExceeded limit (mkSpan 0 0)).
Proof.
  apply (query_ends sample_clock sample_mints ∅ sample_query sample_resolver NoProcedures); [|apply memory_finite|exact sample_at].
  repeat constructor.
Defined.
