(* ===== verification/CypherRows.v ===== *)
(** * What WITH and RETURN do to rows

    [DISTINCT] keeps the first row of every class, [ORDER BY] is the stable
    sort by its keys, [SKIP] and [LIMIT] take a window, and the trailing
    [WHERE] filters what is left; grouping gathers the classes of rows.  An
    UNWIND before a limited WITH may stop at the rows the WITH takes. *)
From Stdlib Require Import SpecFloat Sorting.Sorted.
From S2P Require Import Prelude Model Keys Canonical CypherValue CypherCompare CypherDistinct CypherExpr CypherSource CypherOps CypherFunctions CypherEval CypherProject CypherRun CypherSim CypherExec.
Open Scope Z_scope.

(** ** First occurrences *)

Section firsts.
Context {A : Type}.
Variable same : A -> A -> bool.

(** The elements with no like element before them. *)
Fixpoint firsts_after (before l : list A) : list A :=
  match l with
  | [] => []
  | x :: l => (if existsb (fun y => same y x) before then [] else [x]) ++ firsts_after (before ++ [x]) l
  end.
Definition firsts (l : list A) : list A := firsts_after [] l.

(** The classes, in the order of their first elements. *)
Definition classes (l : list A) : list (list A) := List.map (fun x => List.filter (same x) l) (firsts l).

Lemma firsts_after_app before l k : firsts_after before (l ++ k) = firsts_after before l ++ firsts_after (before ++ l) k.
Proof.
  revert before. induction l as [|x l IH]; intros before; cbn [app firsts_after]; [by rewrite app_nil_r|].
  by rewrite IH, <-!app_assoc.
Qed.
Lemma firsts_snoc l x : firsts (l ++ [x]) = firsts l ++ (if existsb (fun y => same y x) l then [] else [x]).
Proof. unfold firsts. rewrite firsts_after_app. cbn [firsts_after app]. by rewrite app_nil_r. Qed.

Lemma firsts_elem l x : x ∈ firsts l -> x ∈ l.
Proof.
  induction l as [|y l IH] using rev_ind; [done|]. rewrite firsts_snoc, !elem_of_app. intros [H|H]; [left; by apply IH|right].
  by destruct (existsb _ l); [inversion H|].
Qed.

(** Every element is like one that is kept. *)
Lemma firsts_cover l x y : (forall u v, same u v = true -> same v x = true -> same u x = true) ->
  y ∈ l -> same y x = true -> exists u, u ∈ firsts l /\ same u x = true.
Proof.
  intros Ht. revert y. induction l as [|z l IH] using rev_ind; intros y Hy Hyx; [by apply not_elem_of_nil in Hy|]. rewrite firsts_snoc.
  assert (forall w, w ∈ l -> same w x = true -> exists u, u ∈ firsts l ++ (if existsb (fun y => same y z) l then [] else [z]) /\ same u x = true) as Hl.
  { intros w Hw Hwx. destruct (IH w Hw Hwx) as (u & Hu & Hux). exists u. rewrite elem_of_app. by split; [left|]. }
  apply elem_of_app in Hy as [Hy| ->%list_elem_of_singleton]; [by apply (Hl y)|].
  destruct (existsb _ l) eqn:E.
  - apply existsb_exists in E as (w & Hw & Hwz). rewrite <-list_elem_of_In in Hw. apply (Hl w Hw). by apply (Ht w z).
  - exists z. rewrite elem_of_app. by split; [right; apply list_elem_of_singleton|].
Qed.

(** No two kept elements are alike. *)
Lemma firsts_distinct l i j x y : (i < j)%nat -> firsts l !! i = Some x -> firsts l !! j = Some y -> same x y = false.
Proof.
  revert i j. induction l as [|z l IH] using rev_ind; intros i j Hij Hi Hj; [done|]. rewrite firsts_snoc in Hi, Hj.
  destruct (existsb _ l) eqn:E; [rewrite app_nil_r in Hi, Hj; by apply (IH i j)|].
  apply lookup_app_Some in Hj as [Hj|[Hl Hj]].
  - rewrite lookup_app_l in Hi by (apply lookup_lt_Some in Hj; lia). by apply (IH i j).
  - apply list_lookup_singleton_Some in Hj as [Hj <-]. rewrite lookup_app_l in Hi by lia. apply list_elem_of_lookup_2, firsts_elem in Hi.
    apply not_true_iff_false. intros Hs. apply not_true_iff_false in E. apply E, existsb_exists. exists x. by rewrite <-list_elem_of_In.
Qed.
End firsts.

Lemma firsts_ext {A : Type} (same same' : A -> A -> bool) l : (forall x y, x ∈ l -> y ∈ l -> same x y = same' x y) -> firsts same l = firsts same' l.
Proof.
  induction l as [|z l IH] using rev_ind; intros H; [done|]. rewrite !firsts_snoc, IH by (intros; apply H; apply elem_of_app; by left). f_equal.
  assert (existsb (fun y => same y z) l = existsb (fun y => same' y z) l) as ->; [|done].
  assert (forall k, (forall x, x ∈ k -> x ∈ l) -> existsb (fun y => same y z) k = existsb (fun y => same' y z) k) as He; [|by apply He].
  induction k as [|x k IHk]; intros Hk; [done|]. cbn [existsb]. rewrite IHk by (intros; apply Hk; by right). f_equal.
  apply H; apply elem_of_app; [left; apply Hk; by left|right; by apply list_elem_of_singleton].
Qed.

(** ** Stable sorts *)

Section stable.
Context {A : Type}.
Variable cmp : A -> A -> comparison.

Definition not_after (x y : A) : Prop := cmp x y <> Gt.
Definition alike (x y : A) : bool := match cmp x y with Eq => true | _ => false end.

(** A reordering, in order, that keeps the order of what compares alike. *)
Record stable_sort (l k : list A) : Prop := {
  ss_permutation : Permutation l k;
  ss_sorted : StronglySorted not_after k;
  ss_stable : forall x, x ∈ l -> List.filter (alike x) k = List.filter (alike x) l }.

(** The laws of a total preorder on the elements at hand. *)
Record preorder_on (P : A -> Prop) : Prop := {
  po_refl : forall x, P x -> cmp x x = Eq;
  po_opp : forall x y, P x -> P y -> cmp y x = CompOpp (cmp x y);
  po_trans : forall x y z, P x -> P y -> P z -> cmp x y <> Gt -> cmp y z <> Gt -> cmp x z <> Gt }.

Lemma preorder_Eq P x y z : preorder_on P -> P x -> P y -> P z -> cmp x y = Eq -> cmp x z = cmp y z.
Proof.
  intros [Hr Ho Ht] Hx Hy Hz E. assert (cmp y x = Eq) as E' by (by rewrite (Ho x y), E).
  assert (forall a b c, P a -> P b -> P c -> cmp a b = Eq -> cmp b a = Eq -> cmp a c <> Gt -> cmp b c <> Gt) as Hle.
  { intros a b c Ha Hb Hc _ Eba Hac. apply (Ht b a c); [done..| |done]. by rewrite Eba. }
  assert (forall a b c, P a -> P b -> P c -> cmp a b = Eq -> cmp b a = Eq -> cmp c a <> Gt -> cmp c b <> Gt) as Hge.
  { intros a b c Ha Hb Hc Eab _ Hca. apply (Ht c a b); [done..|by rewrite Eab]. }
  pose proof (Hle x y z Hx Hy Hz E E') as H1. pose proof (Hle y x z Hy Hx Hz E' E) as H2.
  pose proof (Hge x y z Hx Hy Hz E E') as H3. pose proof (Hge y x z Hy Hx Hz E' E) as H4.
  rewrite (Ho x z Hx Hz) in H3, H4. rewrite (Ho y z Hy Hz) in H3, H4.
  destruct (cmp x z), (cmp y z); try done; exfalso; (by apply H1) || (by apply H2) || (by apply H3) || (by apply H4).
Qed.

Lemma insert_by_permutation x l : Permutation (x :: l) (insert_by cmp x l).
Proof.
  induction l as [|y l IH]; cbn [insert_by]; [done|]. destruct (cmp x y); [done..|].
  rewrite perm_swap. by constructor.
Qed.

Lemma sort_by_permutation l : Permutation l (sort_by cmp l).
Proof. induction l as [|x l IH]; cbn [sort_by]; [done|]. rewrite <-insert_by_permutation. by constructor. Qed.

Section on.
Variable P : A -> Prop.
Hypothesis HP : preorder_on P.

Lemma insert_row_sorted x l : P x -> Forall P l -> StronglySorted not_after l -> StronglySorted not_after (insert_by cmp x l).
Proof.
  intros Hx Hl Hs. induction Hs as [|y l Hs IH Hy]; cbn [insert_by]; [repeat constructor|]. apply Forall_cons in Hl as [Py Pl].
  assert (cmp x y <> Gt -> StronglySorted not_after (x :: y :: l)) as Hhead.
  { intros Hxy. constructor; [by constructor|]. constructor; [done|]. rewrite Forall_forall in Hy, Pl |- *.
    intros z Hz. apply (po_trans _ HP x y z); [done..|by apply Pl|done|by apply Hy]. }
  destruct (cmp x y) eqn:E; [by apply Hhead; rewrite ?E..|]. constructor; [by apply IH|].
  assert (Forall (not_after y) (x :: l)) as H.
  { constructor; [|done]. unfold not_after. by rewrite (po_opp _ HP x y), E. }
  by rewrite (insert_by_permutation x l) in H.
Qed.

Lemma insert_by_stable x z l : P z -> P x -> Forall P l -> List.filter (alike z) (insert_by cmp x l) = List.filter (alike z) (x :: l).
Proof.
  intros Pz Px. induction 1 as [|y l Py Hl IH]; [done|]. cbn [insert_by]. destruct (cmp x y) eqn:E; [done..|].
  cbn [List.filter]. rewrite IH. cbn [List.filter]. destruct (alike z x) eqn:Ex, (alike z y) eqn:Ey; try done. exfalso.
  unfold alike in Ex, Ey. destruct (cmp z x) eqn:Ezx; [|done..]. destruct (cmp z y) eqn:Ezy; [|done..].
  rewrite (preorder_Eq P z x y HP Pz Px Py Ezx) in Ezy. by rewrite E in Ezy.
Qed.

Lemma sort_by_P l : Forall P l -> Forall P (sort_by cmp l).
Proof. intros H. by rewrite <-sort_by_permutation. Qed.

Lemma sort_by_stable_sort l : Forall P l -> stable_sort l (sort_by cmp l).
Proof.
  intros Hl. split; [apply sort_by_permutation| |].
  - induction Hl as [|x l Px Hl IH]; cbn [sort_by]; [constructor|]. apply insert_row_sorted; [done|by apply sort_by_P|done].
  - intros z Hz. assert (P z) as Pz by (rewrite Forall_forall in Hl; by apply Hl). clear Hz.
    induction Hl as [|x l Px Hl IH]; cbn [sort_by]; [done|]. rewrite insert_by_stable by (done || by apply sort_by_P). cbn [List.filter]. by rewrite IH.
Qed.

(** There is only one. *)
Lemma stable_sort_unique l k k' : Forall P l -> stable_sort l k -> stable_sort l k' -> k = k'.
Proof.
  intros Hl [Hp Hs Hf] [Hp' Hs' Hf'].
  assert (Forall P k) as Pk by (by rewrite <-Hp).
  assert (forall x, x ∈ k -> List.filter (alike x) k = List.filter (alike x) k') as H.
  { intros x Hx. rewrite <-Hp in Hx. by rewrite Hf, Hf'. }
  rewrite Hp in Hp'. clear l Hl Hp Hf Hf'. revert k' Hp' Hs' H. induction Hs as [|x k Hs IH Hx]; intros k' Hp Hs' H; [by apply Permutation_nil in Hp|].
  destruct Hs' as [|y k' Hs' Hy]; [by apply Permutation_sym, Permutation_nil in Hp|]. apply Forall_cons in Pk as [Px Pk].
  assert (P y) as Py.
  { assert (y ∈ x :: k) as Hyx by (rewrite Hp; by left). rewrite elem_of_cons in Hyx. destruct Hyx as [->|Hyk]; [done|]. rewrite Forall_forall in Pk. by apply Pk. }
  assert (cmp x y = Eq) as E.
  { assert (cmp x y <> Gt) as H1.
    { assert (y ∈ x :: k) as Hyx by (rewrite Hp; by left). rewrite elem_of_cons in Hyx. destruct Hyx as [->|Hyk]; [by rewrite (po_refl _ HP)|].
      rewrite Forall_forall in Hx. by apply Hx. }
    assert (cmp y x <> Gt) as H2.
    { assert (x ∈ y :: k') as Hxy by (rewrite <-Hp; by left). rewrite elem_of_cons in Hxy. destruct Hxy as [<-|Hxk]; [by rewrite (po_refl _ HP)|].
      rewrite Forall_forall in Hy. by apply Hy. }
    rewrite (po_opp _ HP x y) in H2 by done. by destruct (cmp x y). }
  pose proof (H x ltac:(by left)) as Hhd. cbn [List.filter] in Hhd.
  assert (alike x x = true) as Exx by (unfold alike; by rewrite (po_refl _ HP)). assert (alike x y = true) as Exy by (unfold alike; by rewrite E).
  rewrite Exx, Exy in Hhd. injection Hhd as <- Htl. f_equal. apply IH; [done|by apply Permutation_cons_inv in Hp|done|].
  intros z Hz. specialize (H z ltac:(by right)). cbn [List.filter] in H. destruct (alike z x); [by injection H|done].
Qed.
End on.
End stable.

Section rows.
Context {std : Std}.
Variable mints : nat -> option Z * bytes.
#[local] Instance effects : Effects Plain := plain_effects mints.
Abbreviation M := (st Plain ExecError).
Abbreviation vcmp := (global_cmp std_debug_value).
Variables walk fuel : nat.
Abbreviation ev := (eval walk fuel).

(** ** Loops that collect *)

Lemma val_collect {A B : Type} (f : list B -> A -> M (list B)) (R : A -> B -> Prop) l acc out :
  (forall acc x, pure (f acc x)) -> (forall acc x out, val (f acc x) = Ok out <-> exists y, R x y /\ out = acc ++ [y]) ->
  val (st_fold f l acc) = Ok out <-> exists ys, Forall2 R l ys /\ out = acc ++ ys.
Proof.
  intros Hp Hf. revert acc. induction l as [|x l IH]; intros acc; cbn [st_fold].
  - rewrite val_ret. split; [intros [= <-]; exists []; by rewrite app_nil_r|]. intros (ys & ->%Forall2_nil_inv_l & ->). by rewrite app_nil_r.
  - rewrite val_bind by apply Hp. split.
    + destruct (val (f acc x)) as [acc'|e] eqn:E; [|done]. apply Hf in E as (y & Hy & ->). cbn [rbind]. intros H. apply IH in H as (ys & Hys & ->).
      exists (y :: ys). split; [by constructor|]. by rewrite <-app_assoc.
    + intros (ys & H & ->). apply Forall2_cons_inv_l in H as (y & ys' & Hy & Hys & ->).
      assert (val (f acc x) = Ok (acc ++ [y])) as -> by (apply Hf; by exists y). cbn [rbind]. apply IH. exists ys'. split; [done|]. by rewrite <-app_assoc.
Qed.

(** A loop that computes one element for each. *)
Lemma val_map {A B : Type} (m : A -> M B) l acc out : (forall x, pure (m x)) ->
  val (st_fold (fun acc x => let! y := m x in st_ret (acc ++ [y])) l acc) = Ok out <-> exists ys, Forall2 (fun x y => val (m x) = Ok y) l ys /\ out = acc ++ ys.
Proof.
  intros Hp. apply val_collect.
  - intros acc' x. apply pure_bind; [apply Hp|]. intros y. apply pure_ret.
  - intros acc' x out'. rewrite val_bind by apply Hp. destruct (val (m x)) as [y|e]; cbn [rbind].
    + rewrite val_ret. split; [intros [= <-]; by exists y|by intros (y' & [= ->] & ->)].
    + split; [done|by intros (? & ? & _)].
Qed.

(** A loop that keeps what passes a test. *)
Definition passes {A : Type} (m : A -> M bool) (x : A) : bool := match val (m x) with Ok b => b | Err _ => false end.

Lemma val_filter {A : Type} (m : A -> M bool) l acc out : (forall x, pure (m x)) ->
  val (st_fold (fun acc x => let! keep := m x in st_ret (if keep then acc ++ [x] else acc)) l acc) = Ok out -> out = acc ++ List.filter (passes m) l.
Proof.
  intros Hp. revert acc. induction l as [|x l IH]; intros acc; cbn [st_fold List.filter].
  - rewrite val_ret. intros [= <-]. by rewrite app_nil_r.
  - rewrite val_bind; [|apply pure_bind; [apply Hp|]; intros b; apply pure_ret]. rewrite val_bind by apply Hp. unfold passes at 1. destruct (val (m x)) as [[]|e]; cbn [rbind]; [|apply IH|done].
    rewrite val_ret. cbn [rbind]. intros H%IH. by rewrite <-app_assoc in H.
Qed.

(** ** DISTINCT *)

Lemma val_keep_distinct {A : Type} (key : A -> bytes) (charge : Z -> M unit) items : (forall n, charge n = st_ret tt) ->
  val (keep_distinct key charge items) = Ok (firsts (fun x y => bool_decide (key x = key y)) items).
Proof.
  intros Hc. unfold keep_distinct. pose (seen := fun l : list A => list_to_set (List.map key l) : gset bytes).
  match goal with |- val (st_bind (st_fold ?f items _) _) = _ =>
    assert (forall before kept s, st_fold f items (seen before, kept) s = (Ok (seen (before ++ items), kept ++ firsts_after (fun x y => bool_decide (key x = key y)) before items), s)) as H end.
  { induction items as [|x items IH]; intros before kept s; cbn [st_fold firsts_after]; [by rewrite !app_nil_r|].
    assert (existsb (fun y => bool_decide (key y = key x)) before = bool_decide (key x ∈ seen before)) as Hx.
    { apply Bool.eq_iff_eq_true. rewrite existsb_exists, bool_decide_eq_true. unfold seen. rewrite elem_of_list_to_set, list_elem_of_In, in_map_iff.
      split; intros (y & ?); exists y; rewrite ?bool_decide_eq_true in *; tauto. }
    assert (seen (before ++ [x]) = {[key x]} ∪ seen before) as Hs.
    { unfold seen. rewrite map_app, list_to_set_app_L. cbn. set_solver. }
    rewrite Hx. unfold st_bind at 1. specialize (IH (before ++ [x])). rewrite <-app_assoc in IH. cbn [app] in IH. rewrite Hs in IH. case_bool_decide as Hin; cbn [app].
    - rewrite <-IH. cbn. by replace ({[key x]} ∪ seen before) with (seen before) by set_solver.
    - rewrite Hc. unfold st_bind, st_ret. rewrite IH. by rewrite <-!app_assoc. }
  unfold val, st_bind. change (∅ : gset bytes) with (seen []). by rewrite H.
Qed.

(** Tuples that are equivalent place by place. *)
Fixpoint equivalents (a b : list value) : bool :=
  match a, b with
  | [], [] => true
  | x :: a, y :: b => equivalent std_debug_value x y && equivalents a b
  | _, _ => false
  end.

Lemma equivalents_Forall2 a b : equivalents a b = true <-> Forall2 (fun v w => equivalent std_debug_value v w = true) a b.
Proof.
  revert b. induction a as [|x a IH]; intros [|y b]; cbn [equivalents].
  - by split.
  - split; [done|inversion 1].
  - split; [done|inversion 1].
  - by rewrite andb_true_iff, IH, Forall2_cons.
Qed.

Lemma row_key_equivalents a b : length a = length b -> Forall (fun v => keyable std_debug_value v = true) a -> Forall (fun v => keyable std_debug_value v = true) b ->
  bool_decide (row_key a = row_key b) = equivalents a b.
Proof. intros Hl Ha Hb. apply Bool.eq_iff_eq_true. rewrite bool_decide_eq_true, equivalents_Forall2. by apply tuple_key_iff. Qed.

(** ** ORDER BY *)

Abbreviation keyed_row := (list (value * bool) * Row)%type.
Definition by_keys (a b : keyed_row) : comparison := order_cmp a.1 b.1.

(** [out] is [rows] in the order of the keys, ties in the order of [rows]. *)
Definition ordered_by (ctx : EvalCtx) (p : BoundProjection) (rows out : list Row) : Prop :=
  exists keyed sorted, Forall2 (fun row e => e.2 = row /\ Forall2 (fun o k => val (ev ctx o.1 row) = Ok k.1 /\ k.2 = o.2) (pr_order_by p) e.1) rows keyed /\
    stable_sort by_keys keyed sorted /\ out = List.map snd sorted.

(** Keys of one direction list, their values exact. *)
Definition good_key (flags : list bool) (e : keyed_row) : Prop := List.map snd e.1 = flags /\ Forall (fun k => exact k.1 = true) e.1.

Lemma order_cmp_preorder flags : preorder_on by_keys (good_key flags).
Proof.
  unfold good_key, by_keys. split.
  - intros [k row] [_ Hk]. cbn [fst] in *. induction Hk as [|[v d] k Hv _ IH]; [done|]. cbn [order_cmp fst] in *.
    rewrite (global_refl _ v Hv). by destruct d.
  - intros [k row] [l row'] [Hf Hk] [Hf' Hl]. cbn [fst] in *. rewrite <-Hf in Hf'. clear Hf flags. revert l Hf' Hl.
    induction Hk as [|[v d] k Hv _ IH]; intros [|[w d'] l] Hf Hl; try done. cbn [List.map snd] in Hf. injection Hf as -> Hf. apply Forall_cons in Hl as [Hw Hl]. cbn [order_cmp fst] in *.
    rewrite (global_opp _ v w Hv Hw). destruct d, (vcmp v w); cbn [CompOpp]; try done; by apply IH.
  - intros [k1 r1] [k2 r2] [k3 r3] [F1 H1] [F2 H2] [F3 H3]. cbn [fst] in *. rewrite <-F1 in F2, F3. clear F1 flags. revert k2 F2 H2 k3 F3 H3.
    induction H1 as [|[u d] k1 Hu _ IH]; intros [|[v d2] k2] F2 H2 [|[w d3] k3] F3 H3; try done. cbn [List.map snd] in F2, F3. injection F2 as -> F2. injection F3 as -> F3.
    apply Forall_cons in H2 as [Hv H2], H3 as [Hw H3]. cbn [order_cmp fst] in *.
    pose proof (global_Eq std_debug_value u v w Hu Hv Hw) as Ec. pose proof (global_Eq_r std_debug_value u v w Hu Hv Hw) as Er.
    pose proof (global_trans_Lt std_debug_value u v w Hu Hv Hw) as Et. pose proof (global_trans_Gt std_debug_value u v w Hu Hv Hw) as Eg.
    destruct (vcmp u v) eqn:Euv.
    + rewrite Ec by done. destruct d, (vcmp v w); cbn [CompOpp]; try done; by apply IH.
    + destruct d; cbn [CompOpp]; [done|]. intros _. destruct (vcmp v w) eqn:Evw; [by rewrite <-(Er eq_refl), ?Euv|by rewrite Et|done].
    + destruct d; cbn [CompOpp]; [|done]. intros _. destruct (vcmp v w) eqn:Evw; [by rewrite <-(Er eq_refl), ?Euv|done|by rewrite Eg].
Qed.

Lemma val_order_keys ctx p row k : val (order_keys walk fuel ctx p row) = Ok k <->
  Forall2 (fun o k => val (ev ctx o.1 row) = Ok k.1 /\ k.2 = o.2) (pr_order_by p) k.
Proof.
  unfold order_keys. rewrite (val_collect _ (fun o k => val (ev ctx o.1 row) = Ok k.1 /\ k.2 = o.2)).
  - split; [by intros (ys & H & ->)|]. intros H. by exists k.
  - intros acc [e d]. apply pure_bind; [apply pure_eval|]. intros v. apply pure_ret.
  - intros acc [e d] out. rewrite val_bind by apply pure_eval. cbn [fst snd]. destruct (val (ev ctx e row)) as [v|err]; cbn [rbind].
    + rewrite val_ret. split; [intros [= <-]; by exists (v, d)|]. intros ([v' d'] & [Hv Hd] & ->). cbn [fst snd] in Hv, Hd. injection Hv as <-. by subst d'.
    + split; [done|by intros (? & [? _] & _)].
Qed.

(** The keys of the rows an [ORDER BY] sorts are exact. *)
Definition exact_keys (ctx : EvalCtx) (p : BoundProjection) (rows : list Row) : Prop :=
  forall row o v, row ∈ rows -> o ∈ pr_order_by p -> val (ev ctx o.1 row) = Ok v -> exact v = true.

Lemma keyed_good ctx p rows keyed : exact_keys ctx p rows ->
  Forall2 (fun row (e : keyed_row) => e.2 = row /\ Forall2 (fun o k => val (ev ctx o.1 row) = Ok k.1 /\ k.2 = o.2) (pr_order_by p) e.1) rows keyed ->
  Forall (good_key (List.map snd (pr_order_by p))) keyed.
Proof.
  intros Hex H. induction H as [|row [k row'] rows keyed [_ Hk] H IH]; [constructor|]. cbn [fst snd] in Hk. constructor.
  - assert (forall o v, o ∈ pr_order_by p -> val (ev ctx o.1 row) = Ok v -> exact v = true) as He by (intros; eapply Hex; [by left|done..]).
    clear -Hk He. unfold good_key. cbn [fst]. induction Hk as [|o k os ks [Ho Hd] _ IHk]; [done|]. destruct IHk as [IH1 IH2]; [intros; eapply He; [by right|done]|].
    split; [cbn [List.map]; by rewrite Hd, IH1|]. constructor; [|done]. eapply He; [by left|exact Ho].
  - apply IH. intros r o v Hr. apply Hex. by right.
Qed.

Lemma order_rows_spec ctx p rows out : exact_keys ctx p rows -> val (order_rows walk fuel ctx p rows) = Ok out -> ordered_by ctx p rows out.
Proof.
  intros Hex H.
  assert (exists keyed, Forall2 (fun row (e : keyed_row) => e.2 = row /\ Forall2 (fun o k => val (ev ctx o.1 row) = Ok k.1 /\ k.2 = o.2) (pr_order_by p) e.1) rows keyed /\
    out = List.map snd (sort_by by_keys keyed)) as (keyed & Hk & ->).
  { unfold order_rows in H. destruct (pr_order_by p) as [|o os] eqn:Eo.
    - rewrite val_ret in H. injection H as <-. exists (List.map (fun row => ([], row)) rows). split.
      + clear. induction rows as [|row rows IH]; constructor; [|done]. split; [done|constructor].
      + assert (forall l, sort_by by_keys (List.map (fun row : Row => ([] : list (value * bool), row)) l) = List.map (fun row => ([], row)) l) as ->.
        { clear. induction l as [|row l IH]; [done|]. cbn [List.map sort_by]. rewrite IH. by destruct l. }
        by rewrite map_map, map_id.
    - rewrite val_bind in H by pure_auto. rewrite <-Eo in *. clear Eo.
      destruct (val _) as [keyed|e] eqn:E in H; [|done]. cbn [rbind] in H. rewrite val_ret in H. injection H as <-. exists keyed. split; [|done].
      apply (val_collect _ (fun row (e : keyed_row) => e.2 = row /\ Forall2 (fun o k => val (ev ctx o.1 row) = Ok k.1 /\ k.2 = o.2) (pr_order_by p) e.1)) in E.
      + by destruct E as (ys & Hy & ->).
      + intros acc row. pure_auto.
      + intros acc row out. rewrite val_bind by pure_auto. destruct (val (order_keys walk fuel ctx p row)) as [k|e] eqn:Ek; cbn [rbind].
        * apply val_order_keys in Ek. rewrite val_ret. split; [intros [= <-]; by exists (k, row)|]. intros ([k' row'] & [Hr Hk'] & ->). cbn [fst snd] in Hr, Hk'. subst row'.
          apply val_order_keys in Hk'. apply val_order_keys in Ek. rewrite Ek in Hk'. by injection Hk' as <-.
        * split; [done|]. intros ([k' row'] & [_ Hk'] & _). apply val_order_keys in Hk'. cbn [fst snd] in Hk'. by rewrite Ek in Hk'. }
  exists keyed, (sort_by by_keys keyed). split; [done|]. split; [|done].
  apply (sort_by_stable_sort by_keys _ (order_cmp_preorder (List.map snd (pr_order_by p)))). by eapply keyed_good.
Qed.

(** ** SKIP and LIMIT *)

Definition bound_is (ctx : EvalCtx) (e : option BoundExpr) (o : option Z) : Prop :=
  match e, o with
  | None, None => True
  | Some e, Some n => 0 <= n /\ val (ev ctx e ∅) = Ok (CInt n)
  | _, _ => False
  end.

Lemma val_eval_bound ctx e n : val (eval_bound walk fuel ctx e) = Ok n <-> bound_is ctx (Some e) (Some n).
Proof.
  unfold eval_bound, bound_is. rewrite val_bind by pure_auto. destruct (val (ev ctx e ∅)) as [v|err]; cbn [rbind]; [|by split; [|intros []]].
  change (val (st_of ?r)) with r. unfold usize_bound. destruct v as [| |k| | | | | | | |]; try (split; [done|intros [? [=]]]; done).
  destruct (Z.leb_spec 0 k); (split; [try done; intros [= <-]; by split|intros [? [= ->]]; done || lia]).
Qed.

(** The rows from [skip] on, [limit] of them at most. *)
Definition window (skip limit : option Z) (rows out : list Row) : Prop :=
  forall i : nat, out !! i = if match limit with Some n => Z.of_nat i <? n | None => true end then rows !! (Z.to_nat (default 0%Z skip) + i)%nat else None.

Lemma window_spec skip limit rows : 0 <= default 0 skip -> 0 <= default 0 limit ->
  let rest := match skip with Some n => drop (upto n rows) rows | None => rows end in
  window skip limit rows (match limit with Some n => take (upto n rest) rest | None => rest end).
Proof.
  intros Hs Hl rest i.
  assert (forall j, rest !! j = rows !! (Z.to_nat (default 0%Z skip) + j)%nat) as Hr.
  { intros j. unfold rest. destruct skip as [n|]; [|done]. cbn [from_option id] in *. rewrite lookup_drop. unfold upto, zlen. destruct (Z.le_ge_cases n (Z.of_nat (length rows))).
    - by rewrite Z.min_l by lia.
    - rewrite Z.min_r by lia. transitivity (@None Row); [|symmetry]; apply lookup_ge_None_2; lia. }
  rewrite <-Hr. destruct limit as [n|]; [|done]. cbn [from_option id] in *. destruct (Z.ltb_spec (Z.of_nat i) n) as [Hi|Hi].
  - unfold upto, zlen. destruct (Z.le_ge_cases n (Z.of_nat (length rest))); [rewrite lookup_take_lt by lia|rewrite take_ge by lia]; done.
  - apply lookup_take_ge. unfold upto. lia.
Qed.

(** ** Projection without grouping *)

Definition bind_items (items : list BoundProjectionItem) (vs : list value) (row : Row) : Row :=
  List.fold_left (fun row e => row_set row (pi_var e.1) e.2) (zip items vs) row.

Definition projected_row (ctx : EvalCtx) (p : BoundProjection) (row out : Row) : Prop :=
  exists vs, Forall2 (fun item v => val (ev ctx (pi_expr item) row) = Ok v) (pr_items p) vs /\ out = bind_items (pr_items p) vs row.

Lemma val_project_row ctx p row out : val (project_row walk fuel ctx p row) = Ok out -> projected_row ctx p row out.
Proof.
  unfold project_row, projected_row, bind_items. generalize row at 2 4 as acc. induction (pr_items p) as [|item items IH]; intros acc; cbn [st_fold].
  - rewrite val_ret. intros [= <-]. by exists [].
  - rewrite val_bind by pure_auto. rewrite val_bind by pure_auto. destruct (val (ev ctx (pi_expr item) row)) as [v|e] eqn:E; [|done]. cbn [rbind]. rewrite val_ret. cbn [rbind].
    intros (vs & Hvs & ->)%IH. exists (v :: vs). split; [by constructor|done].
Qed.

Lemma merged_rows_plain ctx p rows merged : pr_aggregating p = false -> val (merged_rows walk fuel ctx p rows) = Ok merged ->
  Forall2 (fun row out => val (project_row walk fuel ctx p row) = Ok out) rows merged.
Proof.
  intros Ha. unfold merged_rows. rewrite Ha. intros H.
  apply (val_map (project_row walk fuel ctx p) rows [] merged) in H as (ys & Hy & ->); [done|]. intros row. pure_auto.
Qed.

(** ** Grouping *)

(** A row with the values it is grouped by. *)
Abbreviation grouped_row := (list value * Row)%type.
Definition tupled (ctx : EvalCtx) (exprs : list BoundExpr) (row : Row) (t : grouped_row) : Prop :=
  t.2 = row /\ Forall2 (fun e v => val (ev ctx e row) = Ok v) exprs t.1.

Definition key_of_tuple (t : grouped_row) : bytes := row_key t.1.
Definition same_key (t u : grouped_row) : bool := bool_decide (key_of_tuple t = key_of_tuple u).
Definition groups_of (l : list grouped_row) : list (bytes * list Row) :=
  List.map (fun t => (key_of_tuple t, List.map snd (List.filter (same_key t) l))) (firsts same_key l).

Lemma val_tuple_key ctx exprs row k : val (st_fold (fun key expr => let! v := ev ctx expr row in st_ret (key ++ distinct_key std_debug_value v)) exprs []) = Ok k <->
  exists vs, Forall2 (fun e v => val (ev ctx e row) = Ok v) exprs vs /\ k = row_key vs.
Proof.
  assert (forall acc k, val (st_fold (fun key expr => let! v := ev ctx expr row in st_ret (key ++ distinct_key std_debug_value v)) exprs acc) = Ok k <->
    exists vs, Forall2 (fun e v => val (ev ctx e row) = Ok v) exprs vs /\ k = acc ++ row_key vs) as H; [|by rewrite H].
  induction exprs as [|e exprs IH]; intros acc k'; cbn [st_fold].
  - rewrite val_ret. split; [intros [= <-]; exists []; by rewrite app_nil_r|]. intros (vs & ->%Forall2_nil_inv_l & ->). by rewrite app_nil_r.
  - rewrite !val_bind by pure_auto. destruct (val (ev ctx e row)) as [v|err] eqn:E; cbn [rbind].
    + rewrite val_ret. cbn [rbind]. rewrite IH. split.
      * intros (vs & H & ->). exists (v :: vs). split; [by constructor|]. unfold row_key. cbn [List.map concat]. by rewrite app_assoc.
      * intros (vs & H & ->). apply Forall2_cons_inv_l in H as (v' & vs' & Hv & H & ->). rewrite E in Hv. injection Hv as <-. exists vs'. split; [done|].
        unfold row_key. cbn [List.map concat]. by rewrite app_assoc.
    + split; [done|]. intros (vs & H & _). apply Forall2_cons_inv_l in H as (v' & vs' & Hv & _). by rewrite E in Hv.
Qed.

Lemma push_to_group_map (f : grouped_row -> list Row) key row l : (forall i j t u, (i < j)%nat -> l !! i = Some t -> l !! j = Some u -> same_key t u = false) ->
  push_to_group key row (List.map (fun t => (key_of_tuple t, f t)) l) =
  if existsb (fun t => bool_decide (key_of_tuple t = key)) l
  then Some (List.map (fun t => (key_of_tuple t, if bool_decide (key_of_tuple t = key) then f t ++ [row] else f t)) l) else None.
Proof.
  induction l as [|t l IH]; intros Hd; [done|]. cbn [List.map push_to_group existsb].
  assert (forall i j t u, (i < j)%nat -> l !! i = Some t -> l !! j = Some u -> same_key t u = false) as Hd'.
  { intros i j x y Hij. apply (Hd (S i) (S j)). lia. }
  case_bool_decide as Hk; cbn [orb].
  - f_equal. f_equal. apply map_ext_in. intros u Hu%list_elem_of_In. apply list_elem_of_lookup_1 in Hu as [j Hj].
    specialize (Hd 0%nat (S j) t u ltac:(lia) eq_refl Hj). unfold same_key in Hd. apply bool_decide_eq_false in Hd. rewrite Hk in Hd. by rewrite bool_decide_false by done.
  - rewrite IH by done. by destruct (existsb _ l).
Qed.

Lemma filter_snoc {A : Type} (f : A -> bool) l x : List.filter f (l ++ [x]) = List.filter f l ++ (if f x then [x] else []).
Proof. by rewrite List.filter_app. Qed.

Lemma push_groups_of l t :
  match push_to_group (key_of_tuple t) t.2 (groups_of l) with Some groups => groups | None => groups_of l ++ [(key_of_tuple t, [t.2])] end = groups_of (l ++ [t]).
Proof.
  unfold groups_of at 1. rewrite push_to_group_map by (intros i j u v Hij; by apply firsts_distinct).
  assert (existsb (fun u => bool_decide (key_of_tuple u = key_of_tuple t)) (firsts same_key l) = existsb (fun u => same_key u t) l) as ->.
  { apply Bool.eq_iff_eq_true. rewrite !existsb_exists. split.
    - intros (u & Hu & Hut). exists u. split; [|done]. apply list_elem_of_In, (firsts_elem same_key). by apply list_elem_of_In.
    - intros (u & Hu%list_elem_of_In & Hut). destruct (firsts_cover same_key l t u) as (v & Hv & Hvt); [|done..|].
      + unfold same_key. intros x y. rewrite !bool_decide_eq_true. congruence.
      + exists v. by rewrite <-list_elem_of_In. }
  unfold groups_of. rewrite firsts_snoc. destruct (existsb _ l) eqn:E.
  - rewrite app_nil_r. apply map_ext. intros u. f_equal. rewrite filter_snoc, map_app. change (bool_decide (key_of_tuple u = key_of_tuple t)) with (same_key u t).
    destruct (same_key u t); cbn [List.map app]; by rewrite ?app_nil_r.
  - rewrite map_app. cbn [List.map]. f_equal.
    + apply map_ext_in. intros u Hu%list_elem_of_In%(firsts_elem same_key). f_equal. rewrite filter_snoc.
      assert (same_key u t = false) as ->; [|by rewrite app_nil_r]. apply not_true_iff_false. intros Hs. apply not_true_iff_false in E. apply E, existsb_exists.
      exists u. by rewrite <-list_elem_of_In.
    + f_equal. f_equal. rewrite filter_snoc, map_app.
      assert (same_key t t = true) as -> by (unfold same_key; by rewrite bool_decide_true). cbn [List.map].
      assert (List.filter (same_key t) l = []) as ->; [|done]. destruct (List.filter (same_key t) l) as [|u k] eqn:Ef; [done|]. exfalso.
      assert (In u (List.filter (same_key t) l)) as [Hu Hs]%filter_In by (rewrite Ef; by left).
      apply not_true_iff_false in E. apply E, existsb_exists. exists u. split; [done|]. unfold same_key in *. rewrite bool_decide_eq_true in *. done.
Qed.

Lemma group_rows_spec ctx exprs rows groups : val (group_rows walk fuel ctx exprs rows) = Ok groups ->
  exists l, Forall2 (tupled ctx exprs) rows l /\ groups = groups_of l.
Proof.
  unfold group_rows.
  match goal with |- val (st_fold ?f rows []) = _ -> _ =>
    assert (forall before, val (st_fold f rows (groups_of before)) = Ok groups -> exists l, Forall2 (tupled ctx exprs) rows l /\ groups = groups_of (before ++ l)) as H end; [|apply (H [])].
  induction rows as [|row rows IH]; intros before; cbn [st_fold].
  - rewrite val_ret. intros [= <-]. exists []. by rewrite app_nil_r.
  - rewrite val_bind by (pure_auto; apply pure_ret). rewrite val_bind by pure_auto. destruct (val (st_fold _ exprs [])) as [k|e] eqn:E; [|done]. cbn [rbind].
    apply val_tuple_key in E as (vs & Hvs & ->). pose proof (push_groups_of before (vs, row)) as Hp. unfold key_of_tuple in Hp. cbn [fst snd] in Hp.
    assert (val (match push_to_group (row_key vs) row (groups_of before) with
                 | Some groups => st_ret groups
                 | None => let! _ := e_collection_push (zlen (groups_of before)) in st_ret (groups_of before ++ [(row_key vs, [row])])
                 end) = Ok (groups_of (before ++ [(vs, row)]))) as ->.
    { rewrite <-Hp. by destruct (push_to_group _ _ _). }
    cbn [rbind]. intros (l & Hl & ->)%IH. exists ((vs, row) :: l). split; [by constructor|]. by rewrite <-app_assoc.
Qed.

(** ** The theorems *)

(** Rows whose projected values are equivalent. *)
Definition same_row (p : BoundProjection) (a b : Row) : bool := equivalents (projected_values p a) (projected_values p b).
Definition keyable_row (p : BoundProjection) (row : Row) : Prop := Forall (fun v => keyable std_debug_value v = true) (projected_values p row).

Lemma distinct_rows p rows : Forall (keyable_row p) rows ->
  val (keep_distinct (fun row => row_key (projected_values p row)) e_row rows) = Ok (firsts (same_row p) rows).
Proof.
  intros Hk. rewrite val_keep_distinct by done. f_equal. apply firsts_ext. intros a b Ha Hb. rewrite Forall_forall in Hk.
  apply row_key_equivalents; [unfold projected_values; by rewrite !length_map|by apply (Hk a Ha)|by apply (Hk b Hb)].
Qed.

(** What a projection makes of the rows it has computed. *)
Record projected (ctx : EvalCtx) (p : BoundProjection) (is_with : bool) (merged out : list Row) : Prop := {
  pj_result : exists ordered skip limit windowed,
    ordered_by ctx p (if pr_distinct p then firsts (same_row p) merged else merged) ordered /\
    bound_is ctx (pr_skip p) skip /\ bound_is ctx (pr_limit p) limit /\ window skip limit ordered windowed /\
    out = if is_with then List.filter (passes (fun row => holds ev ctx (pr_where p) row (where_span (pr_where p)))) windowed else windowed }.

Lemma project_merged rows p ctx is_with columns out : val (project walk fuel rows p ctx is_with) = Ok (columns, out) ->
  columns = List.map pi_name (pr_items p) /\ exists merged, val (merged_rows walk fuel ctx p rows) = Ok merged /\
    ((pr_distinct p = true -> Forall (keyable_row p) merged) -> exact_keys ctx p merged -> projected ctx p is_with merged out).
Proof.
  unfold project. rewrite val_bind by pure_auto. destruct (val (merged_rows walk fuel ctx p rows)) as [merged|e]; [|done]. cbn [rbind].
  rewrite val_bind by pure_auto.
  destruct (val (if pr_distinct p then keep_distinct _ e_row merged else st_ret merged)) as [kept|e] eqn:Ek; [|done]. cbn [rbind].
  rewrite val_bind by pure_auto. destruct (val (order_rows walk fuel ctx p kept)) as [ordered|e] eqn:Eo; [|done]. cbn [rbind].
  rewrite val_bind by pure_auto.
  destruct (val (match pr_skip p with None => st_ret ordered | Some e => _ end)) as [skipped|e] eqn:Es; [|done]. cbn [rbind].
  rewrite val_bind by pure_auto.
  destruct (val (match pr_limit p with None => st_ret skipped | Some e => _ end)) as [windowed|e] eqn:El; [|done]. cbn [rbind].
  rewrite val_bind by pure_auto.
  destruct (val (if is_with then _ else st_ret windowed)) as [filtered|e] eqn:Ef; [|done]. cbn [rbind]. rewrite val_ret. intros [= <- <-].
  split; [done|]. exists merged. split; [done|]. intros Hd Hex.
  assert (kept = if pr_distinct p then firsts (same_row p) merged else merged) as ->.
  { destruct (pr_distinct p); [|by injection Ek as <-]. rewrite distinct_rows in Ek by (by apply Hd). by injection Ek as <-. }
  assert (exists skip, bound_is ctx (pr_skip p) skip /\ 0 <= default 0 skip /\ skipped = match skip with Some n => drop (upto n ordered) ordered | None => ordered end) as (skip & Hs & Hs0 & ->).
  { destruct (pr_skip p) as [e|]; [|exists None; by injection Es as <-]. rewrite val_bind in Es by pure_auto.
    destruct (val (eval_bound walk fuel ctx e)) as [n|err] eqn:En; [|done]. injection Es as <-. apply val_eval_bound in En. exists (Some n). split; [done|]. by destruct En. }
  assert (exists limit, bound_is ctx (pr_limit p) limit /\ 0 <= default 0 limit /\ windowed =
    let rest := match skip with Some n => drop (upto n ordered) ordered | None => ordered end in match limit with Some n => take (upto n rest) rest | None => rest end) as (limit & Hl & Hl0 & ->).
  { destruct (pr_limit p) as [e|]; [|exists None; by injection El as <-]. rewrite val_bind in El by pure_auto.
    destruct (val (eval_bound walk fuel ctx e)) as [n|err] eqn:En; [|done]. injection El as <-. apply val_eval_bound in En. exists (Some n). split; [done|]. by destruct En. }
  split. eexists ordered, skip, limit, _. split; [|split; [exact Hs|split; [exact Hl|split; [by apply window_spec|]]]].
  - apply order_rows_spec; [|done]. destruct (pr_distinct p); [|done]. intros row o v Hr%(firsts_elem (same_row p)). by apply Hex.
  - destruct is_with; [|by injection Ef as <-].
    apply (val_filter (fun row => holds ev ctx (pr_where p) row (where_span (pr_where p)))) in Ef; [exact Ef|]. intros row. apply pure_holds.
Qed.

(** C15: what WITH and RETURN return without aggregates. When such a projection
    succeeds, its columns are its items' names and its merged rows are the
    input rows with every item's value bound. Two conditions on the values
    keep out the integers that binary64 rounds: under DISTINCT the projected
    values are [keyable] - every integer in them is below 2^53 in magnitude,
    every float is a binary64, every length fits its field - and under ORDER
    BY every integer in a sort key is below 2^53 in magnitude
    ([exact_keys]). Given both, DISTINCT keeps exactly the first of every
    class of equivalent tuples; ORDER BY puts them in the global order of
    their keys, each key ascending or descending, ties in the order they came
    in, whatever stable sort is used; SKIP and LIMIT cut the window their
    bounds say; and a WITH then keeps the rows its WHERE holds of. With larger
    integers neither clause need do so: 2^53 + 1 and 2^53.0 are equivalent but
    have two keys, and the order is not transitive. *)
Theorem project_spec rows p ctx is_with columns out :
  pr_aggregating p = false -> val (project walk fuel rows p ctx is_with) = Ok (columns, out) ->
  columns = List.map pi_name (pr_items p) /\
  exists merged, Forall2 (projected_row ctx p) rows merged /\
    ((pr_distinct p = true -> Forall (keyable_row p) merged) -> exact_keys ctx p merged -> projected ctx p is_with merged out).
Proof.
  intros Ha H. apply project_merged in H as (Hc & merged & Hm & H). split; [done|]. exists merged. split; [|done].
  apply (merged_rows_plain _ _ _ _ Ha) in Hm. eapply Forall2_impl; [exact Hm|]. intros row row'. apply val_project_row.
Qed.

(** C20: what an aggregating projection groups. Its rows are evaluated to tuples
    of their grouping values; when all these values are [keyable] - every
    integer below 2^53 in magnitude, every float a binary64, every length
    within its field - it makes one row of every class of rows with equivalent
    grouping values, the classes in the order of their first rows and each
    with its rows in order; without grouping items and without rows there is
    the one empty group. DISTINCT, ORDER BY, SKIP, LIMIT and WHERE then act on
    these rows as in [project_spec], under its two conditions. With larger
    integers a class may be split: 2^53 + 1 and 2^53.0 are equivalent but make
    two rows. *)
Theorem grouping_spec rows p ctx is_with columns out :
  pr_aggregating p = true -> val (project walk fuel rows p ctx is_with) = Ok (columns, out) ->
  exists tuples, Forall2 (tupled ctx (grouping_exprs p)) rows tuples /\
    (Forall (fun t => Forall (fun v => keyable std_debug_value v = true) t.1) tuples ->
     exists groups merged,
       groups = (if bool_decide (rows = []) && bool_decide (pr_grouping_items p = []) then [[]]
                 else List.map (List.map snd) (classes (fun t u => equivalents t.1 u.1) tuples)) /\
       Forall2 (fun group row => val (project_group walk fuel ctx p group) = Ok row) groups merged /\
       ((pr_distinct p = true -> Forall (keyable_row p) merged) -> exact_keys ctx p merged -> projected ctx p is_with merged out)).
Proof.
  intros Ha H. apply project_merged in H as (_ & merged & Hm & H). unfold merged_rows in Hm. rewrite Ha in Hm. rewrite val_bind in Hm by pure_auto.
  destruct (val (group_rows walk fuel ctx (grouping_exprs p) rows)) as [groups|e] eqn:Eg; [|done]. cbn [rbind] in Hm.
  apply group_rows_spec in Eg as (l & Hl & ->). exists l. split; [done|]. intros Hk. eexists _, merged. split; [reflexivity|]. split; [|exact H].
  apply (val_map (project_group walk fuel ctx p)) in Hm as (ys & Hy & ->); [|intros; pure_auto].
  assert (List.map snd (groups_of l) = List.map (List.map snd) (classes (fun t u => equivalents t.1 u.1) l)) as E.
  { unfold groups_of, classes. rewrite !map_map. cbn [snd].
    assert (forall t u, t ∈ l -> u ∈ l -> same_key t u = equivalents t.1 u.1) as Hs.
    { intros t u Ht Hu. rewrite Forall_forall in Hk. apply row_key_equivalents; [|by apply (Hk t Ht)|by apply (Hk u Hu)].
      assert (forall x, x ∈ l -> length x.1 = length (grouping_exprs p)) as Hlen; [|by rewrite !Hlen].
      intros x Hx. apply list_elem_of_lookup_1 in Hx as [i Hi]. destruct (Forall2_lookup_r _ _ _ _ _ Hl Hi) as (row & _ & _ & Hf). by rewrite (Forall2_length _ _ _ Hf). }
    rewrite (firsts_ext same_key (fun t u => equivalents t.1 u.1)) by done. apply map_ext_in. intros t Ht%list_elem_of_In%firsts_elem. f_equal.
    apply filter_ext_in. intros u Hu%list_elem_of_In. by apply Hs. }
  rewrite E in Hy. cbn [app].
  assert (length rows = length l) as Hlen by (by rewrite (Forall2_length _ _ _ Hl)).
  destruct l as [|t l].
  - destruct rows; [|done]. rewrite bool_decide_true by done. cbn [andb]. cbn in Hy. by destruct (pr_grouping_items p).
  - destruct rows; [done|]. rewrite bool_decide_false by done. cbn [andb]. exact Hy.
Qed.
End rows.

Section unwind.
Context {std : Std}.
Variable mints : nat -> option Z * bytes.
#[local] Instance unwind_effects : Effects Plain := plain_effects mints.
Variables walk fuel : nat.
Abbreviation ev := (eval walk fuel).

(** ** The capped rows *)

Lemma unwind_items_all alias row items out s :
  unwind_items alias None row items out s = (Ok (out ++ List.map (row_set row alias) items, false), s).
Proof.
  revert out. induction items as [|item items IH]; intros out; [by rewrite app_nil_r|]. cbn [unwind_items capped].
  transitivity (unwind_items alias None row items (out ++ [row_set row alias item]) s); [done|]. rewrite IH. by rewrite <-app_assoc.
Qed.

Lemma unwind_items_capped alias c row items out s : (length out <= c)%nat ->
  unwind_items alias (Some (Z.of_nat c)) row items out s =
  (Ok (take c (out ++ List.map (row_set row alias) items), negb (length out + length items <=? c)%nat), s).
Proof.
  revert out. induction items as [|item items IH]; intros out Hc.
  - cbn [unwind_items List.map length]. rewrite app_nil_r, take_ge, Nat.add_0_r, (proj2 (Nat.leb_le _ _)) by done. done.
  - cbn [unwind_items capped List.map length]. unfold zlen. destruct (Z.leb_spec (Z.of_nat c) (Z.of_nat (length out))) as [Hf|Hf].
    + rewrite take_app_length' by lia. destruct (Nat.leb_spec (length out + S (length items)) c); [lia|done].
    + transitivity (unwind_items alias (Some (Z.of_nat c)) row items (out ++ [row_set row alias item]) s); [done|]. rewrite IH by (rewrite length_app; cbn; lia).
      rewrite <-app_assoc, length_app. cbn [app length].
      by replace (length out + 1 + length items)%nat with (length out + S (length items))%nat by lia.
Qed.

Lemma unwind_rows_extends ctx e alias span cap rows out all : val (unwind_rows walk fuel ctx e alias span cap rows out) = Ok all -> cap = None -> exists more, all = out ++ more.
Proof.
  intros H ->. revert out H. induction rows as [|row rows IH]; intros out; cbn [unwind_rows].
  - rewrite val_ret. intros [= <-]. exists []. by rewrite app_nil_r.
  - rewrite val_bind by pure_auto. destruct (val (ev ctx e row)) as [v|err]; [|done]. cbn [rbind]. destruct v; try done; [apply IH|].
    unfold val, st_bind. rewrite unwind_items_all. cbn [snd fst]. intros H. apply IH in H as (more & ->). eexists. by rewrite <-app_assoc.
Qed.

Lemma unwind_rows_capped ctx e alias span c rows out all : (length out <= c)%nat ->
  val (unwind_rows walk fuel ctx e alias span None rows out) = Ok all ->
  val (unwind_rows walk fuel ctx e alias span (Some (Z.of_nat c)) rows out) = Ok (take c all).
Proof.
  revert out. induction rows as [|row rows IH]; intros out Hc; cbn [unwind_rows].
  - rewrite !val_ret. intros [= <-]. by rewrite take_ge.
  - rewrite !val_bind by pure_auto. destruct (val (ev ctx e row)) as [v|err]; [|done]. cbn [rbind]. destruct v as [| | | | |items| | | | |]; try done; [by apply IH|].
    unfold val, st_bind. rewrite unwind_items_all, unwind_items_capped by done. cbn [snd fst].
    intros H. destruct (Nat.leb_spec (length out + length items) c) as [Hle|Hgt]; cbn [negb].
    + rewrite take_ge by (rewrite length_app, length_map; lia). apply IH; [rewrite length_app, length_map; lia|exact H].
    + apply unwind_rows_extends in H as (more & ->); [|done]. cbn. f_equal. symmetry. apply take_app_le. rewrite length_app, length_map. lia.
Qed.

(** ** The projection of a prefix *)

Definition opt_bound (ctx : EvalCtx) (e : option BoundExpr) : result ExecError (option Z) :=
  match e with None => Ok None | Some e => let? n := val (eval_bound walk fuel ctx e) in Ok (Some n) end.
Definition cut (skip limit : option Z) (rows : list Row) : list Row :=
  let rest := match skip with Some n => drop (upto n rows) rows | None => rows end in
  match limit with Some n => take (upto n rest) rest | None => rest end.

Lemma val_project_simple ctx p rows : pr_aggregating p = false -> pr_distinct p = false -> pr_order_by p = [] ->
  val (project walk fuel rows p ctx true) =
  let? merged := val (merged_rows walk fuel ctx p rows) in
  let? skip := opt_bound ctx (pr_skip p) in
  let? limit := opt_bound ctx (pr_limit p) in
  let? out := val (st_fold (fun kept row => let! keep := holds ev ctx (pr_where p) row (where_span (pr_where p)) in st_ret (if keep then kept ++ [row] else kept))
                     (cut skip limit merged) []) in
  Ok (List.map pi_name (pr_items p), out).
Proof.
  intros Ha Hd Ho. unfold project. rewrite val_bind by pure_auto. destruct (val (merged_rows walk fuel ctx p rows)) as [merged|err]; [|done]. cbn [rbind].
  rewrite Hd. rewrite val_bind by pure_auto. rewrite val_ret. cbn [rbind]. unfold order_rows. rewrite Ho. rewrite val_bind by pure_auto. rewrite val_ret. cbn [rbind].
  rewrite val_bind by pure_auto. unfold opt_bound, cut. destruct (pr_skip p) as [e|].
  - rewrite val_bind by pure_auto. destruct (val (eval_bound walk fuel ctx e)) as [n|err]; [|done]. cbn [rbind]. rewrite val_ret. cbn [rbind].
    rewrite val_bind by pure_auto. destruct (pr_limit p) as [e'|].
    + rewrite val_bind by pure_auto. destruct (val (eval_bound walk fuel ctx e')) as [k|err]; [|done]. cbn [rbind]. rewrite val_ret. cbn [rbind]. rewrite val_bind by pure_auto. done.
    + rewrite val_ret. cbn [rbind]. rewrite val_bind by pure_auto. done.
  - rewrite val_ret. cbn [rbind]. rewrite val_bind by pure_auto. destruct (pr_limit p) as [e'|].
    + rewrite val_bind by pure_auto. destruct (val (eval_bound walk fuel ctx e')) as [k|err]; [|done]. cbn [rbind]. rewrite val_ret. cbn [rbind]. rewrite val_bind by pure_auto. done.
    + rewrite val_ret. cbn [rbind]. rewrite val_bind by pure_auto. done.
Qed.

Lemma cut_prefix skip l rows : 0 <= default 0 skip -> 0 <= l -> zlen rows <= USIZE_MAX ->
  cut skip (Some l) (take (Z.to_nat (match skip with Some s => Z.min (l + s) USIZE_MAX | None => l end)) rows) = cut skip (Some l) rows.
Proof.
  intros Hs Hl Hr. apply list_eq. intros i.
  assert (forall rows, cut skip (Some l) rows !! i = if Z.of_nat i <? l then rows !! (Z.to_nat (default 0%Z skip) + i)%nat else None) as H.
  { intros k. exact (window_spec skip (Some l) k Hs Hl i). }
  rewrite !H. destruct (Z.ltb_spec (Z.of_nat i) l) as [Hi|Hi]; [|done].
  destruct skip as [s|]; cbn [from_option id] in *.
  - destruct (Z.le_ge_cases (l + s) USIZE_MAX).
    + rewrite Z.min_l by done. apply lookup_take_lt. lia.
    + rewrite Z.min_r by done. rewrite take_ge; [done|]. unfold zlen in Hr. lia.
  - apply lookup_take_lt. lia.
Qed.

Lemma merged_prefix ctx p rows merged n : pr_aggregating p = false -> val (merged_rows walk fuel ctx p rows) = Ok merged ->
  val (merged_rows walk fuel ctx p (take n rows)) = Ok (take n merged).
Proof.
  intros Ha H. apply (merged_rows_plain _ _ _ _ _ _ _ Ha) in H. unfold merged_rows. rewrite Ha.
  apply (val_map (project_row walk fuel ctx p) (take n rows) [] (take n merged)); [intros; pure_auto|]. exists (take n merged). split; [by apply Forall2_take|done].
Qed.

(** The cap and the projection, together. *)
Lemma capped_projection ctx e alias span p rows all out :
  val (unwind_rows walk fuel ctx e alias span None rows []) = Ok all -> zlen all <= USIZE_MAX -> val (project walk fuel all p ctx true) = Ok out ->
  exists cap some, val (unwind_row_cap walk fuel (Some (ClWith p)) ctx) = Ok cap /\
    val (unwind_rows walk fuel ctx e alias span cap rows []) = Ok some /\ val (project walk fuel some p ctx true) = Ok out.
Proof.
  intros Hu Hl Hp. unfold unwind_row_cap.
  destruct (pr_distinct p) eqn:Hd; [by exists None, all|]. destruct (pr_aggregating p) eqn:Ha; [by exists None, all|]. cbn [orb].
  destruct (pr_order_by p) eqn:Ho; cbn [negb]; [|by exists None, all]. destruct (pr_limit p) as [limit|] eqn:El; [|by exists None, all].
  rewrite val_project_simple in Hp by done. destruct (val (merged_rows walk fuel ctx p all)) as [merged|err] eqn:Em; [|done]. cbn [rbind] in Hp.
  destruct (opt_bound ctx (pr_skip p)) as [skip|err] eqn:Es; [|done]. cbn [rbind] in Hp. rewrite El in Hp. unfold opt_bound at 1 in Hp.
  destruct (val (eval_bound walk fuel ctx limit)) as [l|err] eqn:Ell; [|done]. cbn [rbind] in Hp.
  assert (0 <= l) as Hl0 by (apply val_eval_bound in Ell; by destruct Ell).
  assert (0 <= default 0 skip) as Hs0.
  { unfold opt_bound in Es. destruct (pr_skip p); [|by injection Es as <-]. destruct (val (eval_bound walk fuel ctx _)) as [n|] eqn:En; [|done]. injection Es as <-.
    apply val_eval_bound in En. by destruct En. }
  pose (c := match skip with Some s => Z.min (l + s) USIZE_MAX | None => l end).
  assert (0 <= c) as Hc0 by (unfold c, USIZE_MAX; destruct skip; cbn [from_option id] in *; lia).
  exists (Some c), (take (Z.to_nat c) all). split; [|split].
  - rewrite val_bind by pure_auto. rewrite Ell. cbn [rbind]. unfold opt_bound in Es. destruct (pr_skip p) as [e'|]; [|injection Es as <-; done].
    rewrite val_bind by pure_auto. destruct (val (eval_bound walk fuel ctx e')) as [n|]; [|done]. injection Es as <-. done.
  - rewrite <-(Z2Nat.id c) at 1 by done. apply unwind_rows_capped; [cbn; lia|done].
  - rewrite val_project_simple by done. rewrite (merged_prefix ctx p all merged) by done. cbn [rbind]. rewrite Es. cbn [rbind]. rewrite El. unfold opt_bound at 1. rewrite Ell. cbn [rbind].
    assert (zlen merged = zlen all) as Hlen.
    { apply (merged_rows_plain _ _ _ _ _ _ _ Ha) in Em. unfold zlen. by rewrite (Forall2_length _ _ _ Em). }
    unfold c. rewrite cut_prefix by (done || lia). exact Hp.
Qed.

Variable parameters : gmap bytes value.
Variable resolver : VersionResolver.
Variable procedures : ProcedureProvider.
Abbreviation run := (run_clause walk fuel parameters resolver procedures).

(** C21: stopping an UNWIND early changes no answer. When an UNWIND that makes
    all its rows, at most the largest [usize] of them, and the WITH after it
    succeed, then the UNWIND under the cap the WITH imposes on it succeeds too,
    and the WITH gives the clauses after it the same rows. The converse does
    not hold: an error of a row past the cap never surfaces
    ([unwind_cap_spares_error]), so the cap can turn an error into an answer,
    never an answer into another or into an error. *)
Theorem unwind_cap_transparent expr alias span p next start all out s :
  run (ClUnwind expr alias span) None start s = (Ok all, s) -> zlen (pl_rows all) <= USIZE_MAX -> run (ClWith p) next all s = (Ok out, s) ->
  exists some, run (ClUnwind expr alias span) (Some (ClWith p)) start s = (Ok some, s) /\ run (ClWith p) next some s = (Ok out, s).
Proof.
  intros Hu Hl Hp. pose (ctx := mkCtx (mutable_source (pl_graph start)) parameters None).
  cbn [run_clause] in Hu, Hp |- *. unfold over, in_context in *. fold ctx in Hu |- *.
  apply st_bind_Ok in Hu as (rows & s1 & Hu & E). injection E as <- ->. apply st_bind_Ok in Hu as ([] & s1 & E & Hu). injection E as <-.
  apply st_bind_Ok in Hu as (cap & s1 & E & Hu). injection E as <- <-. cbn [pl_rows pl_graph pl_result pl_identifiers] in *.
  apply st_bind_Ok in Hp as ([columns final] & s1 & Hp & E). injection E as <- ->. apply st_bind_Ok in Hp as ([] & s1 & E & Hp). injection E as <-. fold ctx in Hp.
  apply pure_Ok in Hu as [Hu _]; [|apply pure_unwind_rows]. apply pure_Ok in Hp as [Hp _]; [|apply pure_project].
  destruct (capped_projection ctx expr alias span p (pl_rows start) rows (columns, final) Hu Hl Hp) as (cap & some & Hcap & Hsome & Hout).
  eexists. split.
  - apply st_bind_Ok. exists some, s. split; [|reflexivity]. apply st_bind_Ok. exists tt, s. split; [done|]. apply st_bind_Ok. exists cap, s. split.
    + apply pure_Ok; [apply pure_unwind_row_cap|done].
    + apply pure_Ok; [apply pure_unwind_rows|done].
  - apply st_bind_Ok. exists (columns, final), s. split; [|reflexivity]. apply st_bind_Ok. exists tt, s. split; [done|]. cbn [pl_rows pl_graph]. fold ctx.
    apply pure_Ok; [apply pure_project|done].
Qed.
End unwind.
