(* ===== verification/CypherMatch.v ===== *)
(** * Pattern matching finds the walks

    A choice for a path pattern names the anchor and, for every step, the
    relationships walked and the nodes they lead to.  [match_path] returns the
    outcome of every choice the pattern allows, each once. *)
From Stdlib Require Import SpecFloat.
From S2P Require Import Prelude Keys Model Canonical CypherValue CypherExpr CypherSource CypherOps CypherFunctions CypherEval CypherProject CypherRun CypherSim CypherExec.
Open Scope Z_scope.

(** ** Enumerations *)

(** [outs] are the outcomes of the choices [F] allows, each choice once. *)
Definition lists {C O : Type} (F : C -> O -> Prop) (outs : list O) : Prop :=
  exists choices, NoDup choices /\ (forall c o, F c o -> c ∈ choices) /\ Forall2 F choices outs.

Lemma lists_none {C O : Type} (F : C -> O -> Prop) : (forall c o, ~ F c o) -> lists F [].
Proof. intros H. exists []. split; [constructor|]. split; [|constructor]. intros c o Hc. by destruct (H c o). Qed.
Lemma lists_one {C O : Type} (F : C -> O -> Prop) c o : F c o -> (forall c' o', F c' o' -> c' = c) -> lists F [o].
Proof.
  intros H Hu. exists [c]. split; [apply NoDup_singleton|]. split; [|by repeat constructor].
  intros c' o' Hc. apply list_elem_of_singleton. by apply (Hu c' o').
Qed.
Lemma lists_iff {C O : Type} (F G : C -> O -> Prop) outs : (forall c o, F c o <-> G c o) -> lists F outs -> lists G outs.
Proof.
  intros H (cs & Hn & Hc & Hf). exists cs. split; [done|]. split; [intros c o Hg%H; by apply (Hc c o)|]. eapply Forall2_impl; [exact Hf|]. intros c o. apply H.
Qed.

(** Choices made one after the other. *)
Lemma lists_bind {X C D O : Type} (k : X -> C -> D) (F : X -> C -> O -> Prop) xs outss :
  (forall x c y d, k x c = k y d -> x = y /\ c = d) -> NoDup xs -> Forall2 (fun x outs => lists (F x) outs) xs outss ->
  lists (fun d o => exists x c, x ∈ xs /\ d = k x c /\ F x c o) (concat outss).
Proof.
  intros Hk Hn H. induction H as [|x outs xs outss (cs & Hcs & Hcov & Hf) _ IH]; cbn [concat].
  - apply lists_none. by intros c o (x & d & []%not_elem_of_nil & _).
  - apply NoDup_cons in Hn as [Hx Hn]. destruct (IH Hn) as (ds & Hds & Hdcov & Hdf). exists (List.map (k x) cs ++ ds). split; [|split].
    + apply NoDup_app. split; [|split; [|done]].
      * apply NoDup_fmap_2_strong; [|done]. intros c c' _ _ E. by destruct (Hk _ _ _ _ E).
      * intros d (c & -> & Hc)%list_elem_of_fmap Hd. apply list_elem_of_lookup_1 in Hd as [i Hi]. destruct (Forall2_lookup_l _ _ _ _ _ Hdf Hi) as (o & _ & y & c' & Hy & E & _).
        apply Hk in E as [-> _]. done.
    + intros d o (y & c & [-> |Hy]%elem_of_cons & -> & Hc); apply elem_of_app.
      * left. apply list_elem_of_fmap. exists c. split; [done|]. by apply (Hcov c o).
      * right. apply (Hdcov _ o). by exists y, c.
    + apply Forall2_app.
      * apply Forall2_fmap_l. eapply Forall2_impl; [exact Hf|]. intros c o Hc. exists x, c. split; [by left|done].
      * eapply Forall2_impl; [exact Hdf|]. intros d o (y & c & Hy & Hd). exists y, c. split; [by right|done].
Qed.

Section matching.
Context {std : Std}.
Variable mints : nat -> option Z * bytes.
#[local] Instance effects : Effects Plain := plain_effects mints.
Variables walk fuel : nat.
Variable ctx : EvalCtx.
Abbreviation M := (st Plain ExecError).
Abbreviation rec := (eval walk fuel).
Abbreviation edge := (RelValue * NodeValue)%type.
Abbreviation edges_of rp from := (expand (cx_graph ctx) (nv_id from) (rp_direction rp) (rp_types rp)).

(** A loop that appends the outcomes of one element after the other. *)
Lemma val_append {X O : Type} (f : list O -> X -> M (list O)) (R : X -> list O -> Prop) l acc out : (forall acc x, pure (f acc x)) ->
  (forall acc x out, x ∈ l -> val (f acc x) = Ok out -> exists outs, R x outs /\ out = acc ++ outs) ->
  val (st_fold f l acc) = Ok out -> exists outss, Forall2 R l outss /\ out = acc ++ concat outss.
Proof.
  intros Hp. revert acc. induction l as [|x l IH]; intros acc Hf; cbn [st_fold].
  - rewrite val_ret. intros [= <-]. exists []. by rewrite app_nil_r.
  - rewrite val_bind by apply Hp. destruct (val (f acc x)) as [acc'|e] eqn:E; [|done]. cbn [rbind]. apply Hf in E as (outs & Hx & ->); [|by left].
    intros H. apply IH in H as (outss & Ho & ->); [|intros; apply Hf; [by right|done]]. exists (outs :: outss). split; [by constructor|].
    cbn [concat]. by rewrite <-app_assoc.
Qed.

(** ** What a choice must satisfy *)

Definition rel_ok (rp : BoundRelPattern) (row : Row) (r : RelValue) : Prop := val (rel_satisfies rec ctx r rp row) = Ok true.
Definition node_ok (np : BoundNodePattern) (row : Row) (n : NodeValue) : Prop := val (node_satisfies rec ctx n np row) = Ok true.

(** A walk over relationships that are not used yet. *)
Inductive trail (rp : BoundRelPattern) (row : Row) : NodeValue -> gset bytes -> list edge -> Prop :=
| trail_nil from used : trail rp row from used []
| trail_cons from used r n es :
    (r, n) ∈ edges_of rp from -> rv_id r ∉ used -> rel_ok rp row r -> trail rp row n ({[rv_id r]} ∪ used) es -> trail rp row from used ((r, n) :: es).

Definition rels_of (es : list edge) : list RelValue := List.map fst es.
Definition trail_end (from : NodeValue) (es : list edge) : NodeValue := List.fold_left (fun _ e => e.2) es from.
Definition trail_used (used : gset bytes) (es : list edge) : gset bytes := List.fold_left (fun used e => {[rv_id e.1]} ∪ used) es used.
Definition trail_path (path : PathBuild) (es : list edge) : PathBuild := List.fold_left (fun path e => path_step path e.1 e.2) es path.

(** The row of a variable-length step: its list of relationships, unless it
    was bound, and its end node, which agrees with a bound one. *)
Definition var_row (rp : BoundRelPattern) (np : BoundNodePattern) (pinned : option (list bytes)) (row : Row) (hops : list RelValue) (finish : NodeValue) : option Row :=
  let row := match rp_var rp, pinned with
             | Some var, None => row_set row var (CList (List.map CRel hops))
             | _, _ => row
             end in
  match np_var np with
  | Some var => if row_contains row var then (if is_node (row_get row var) finish then Some row else None) else Some (row_set row var (CNode finish))
  | None => Some row
  end.

Definition finished (path_var : option Z) (state : MatchState) (path : PathBuild) : MatchState :=
  match path_var with
  | Some var => mkMatchState (row_set (ms_row state) var (CPath (pb_nodes path) (pb_rels path))) (ms_used_rels state)
  | None => state
  end.

(** The choices for the steps of a pattern, with their outcomes. *)
Inductive follows (path_var : option Z) : list (BoundRelPattern * BoundNodePattern) -> NodeValue -> MatchState -> PathBuild -> list (list edge) -> MatchState -> Prop :=
| follows_end from state path : follows path_var [] from state path [] (finished path_var state path)
| follows_fixed rp np steps from state path r n next choice out :
    rp_var_length rp = None -> (r, n) ∈ edges_of rp from -> rv_id r ∉ ms_used_rels state -> rel_ok rp (ms_row state) r -> node_ok np (ms_row state) n ->
    hop_state rp np state r n = Some next -> follows path_var steps n next (path_step path r n) choice out ->
    follows path_var ((rp, np) :: steps) from state path ([(r, n)] :: choice) out
| follows_var rp np steps from state path bounds pinned es row choice out :
    rp_var_length rp = Some bounds -> pinned_hops rp (ms_row state) = Some pinned ->
    trail rp (ms_row state) from (ms_used_rels state) es ->
    unwrap_or (vl_min bounds) 1 <= zlen es -> zlen es <= unwrap_or (vl_max bounds) USIZE_MAX -> pinned_complete pinned (rels_of es) = true ->
    node_ok np (ms_row state) (trail_end from es) -> var_row rp np pinned (ms_row state) (rels_of es) (trail_end from es) = Some row ->
    follows path_var steps (trail_end from es) (mkMatchState row (trail_used (ms_used_rels state) es)) (trail_path path es) choice out ->
    follows path_var ((rp, np) :: steps) from state path (es :: choice) out.

(** ** Purity *)

Lemma pure_properties ps actual row : pure (properties_satisfy rec ctx ps actual row).
Proof. unfold properties_satisfy. destruct ps; [|apply pure_ret]. apply pure_bind; [apply pure_eval|]. intros v. apply pure_ret. Qed.
Lemma pure_rel_satisfies r rp row : pure (rel_satisfies rec ctx r rp row).
Proof. apply pure_properties. Qed.
Lemma pure_node_satisfies n np row : pure (node_satisfies rec ctx n np row).
Proof. unfold node_satisfies. destruct (negb _); [apply pure_ret|]. destruct (negb _); [apply pure_ret|apply pure_properties]. Qed.

Ltac pure_walk :=
  repeat match goal with
  | |- pure (st_bind _ _) => apply pure_bind; [|intros ?]
  | |- pure (st_ret _) => apply pure_ret
  | |- pure (st_fail _) => by intros ? ?
  | |- pure (st_fold _ _ _) => apply pure_fold; intros ? ?
  | |- pure e_hop => apply pure_ret
  | |- pure (e_expand _ _ _ _) => apply pure_ret
  | |- pure (node_satisfies _ _ _ _ _) => apply pure_node_satisfies
  | |- pure (rel_satisfies _ _ _ _ _) => apply pure_rel_satisfies
  | H : forall n s p r, pure (_ n s p r) |- pure _ => apply H
  | |- pure (match ?x with _ => _ end) => destruct x
  end.

Lemma pure_accept rp np pinned lo continue frame results : (forall n s p r, pure (continue n s p r)) -> pure (accept rec ctx rp np pinned lo continue frame results).
Proof. intros Hc. unfold accept. cbv zeta. pure_walk. Qed.
Lemma pure_child rp pinned frame children e : pure (child rec ctx rp pinned frame children e).
Proof. unfold child. cbv zeta. pure_walk. Qed.
Lemma pure_walk_stack rp np pinned lo hi continue f stack results : (forall n s p r, pure (continue n s p r)) ->
  pure (walk_stack rec ctx rp np pinned lo hi continue f stack results).
Proof.
  intros Hc. revert stack results. induction f as [|f IH]; intros [|frame stack] results; cbn [walk_stack]; pure_walk.
  - by apply pure_accept.
  - apply IH.
  - apply pure_child.
  - apply IH.
Qed.
Lemma pure_walk_steps path_var steps from state path results : pure (walk_steps walk rec ctx path_var steps from state path results).
Proof.
  revert from state path results. induction steps as [|[rp np] steps IH]; intros from state path results; cbn [walk_steps].
  - apply pure_bind; [|intros ?]; apply pure_ret.
  - destruct (rp_var_length rp).
    + unfold expand_var_length. destruct (pinned_hops _ _); [|apply pure_ret]. by apply pure_walk_stack.
    + apply pure_bind; [apply pure_ret|]. intros edges. apply pure_fold. intros acc [r n]. unfold fixed_hop. pure_walk.
Qed.

(** ** The explicit stack *)

Section var_length.
Variable rp : BoundRelPattern.
Variable np : BoundNodePattern.
Variable pinned : option (list bytes).
Variables lo hi : Z.
Variable continue : NodeValue -> MatchState -> PathBuild -> list MatchState -> M (list MatchState).
Hypothesis continue_pure : forall n s p r, pure (continue n s p r).
Hypothesis edges_distinct : forall n : NodeValue, NoDup (edges_of rp n).

Definition after_edge (frame : VarHopFrame) (e : edge) : VarHopFrame :=
  mkFrame e.2 (mkMatchState (ms_row (vf_state frame)) ({[rv_id e.1]} ∪ ms_used_rels (vf_state frame))) (path_step (vf_path frame) e.1 e.2) (vf_hops frame ++ [e.1]).
Definition after (frame : VarHopFrame) (es : list edge) : VarHopFrame := List.fold_left after_edge es frame.

Definition edge_ok (frame : VarHopFrame) (e : edge) : Prop :=
  pruned pinned (vf_hops frame) e.1 = false /\ rv_id e.1 ∉ ms_used_rels (vf_state frame) /\ rel_ok rp (ms_row (vf_state frame)) e.1.

Lemma val_child frame children e out : val (child rec ctx rp pinned frame children e) = Ok out ->
  exists outs, (edge_ok frame e /\ outs = [after_edge frame e] \/ ~ edge_ok frame e /\ outs = []) /\ out = children ++ outs.
Proof.
  destruct e as [r n]. unfold child, edge_ok. cbv zeta. cbn [fst snd]. intros H.
  change (val (if pruned pinned (vf_hops frame) r then st_ret children else if bool_decide (rv_id r ∈ ms_used_rels (vf_state frame)) then st_ret children
    else let! ok := rel_satisfies rec ctx r rp (ms_row (vf_state frame)) in
         if negb ok then st_ret children else st_ret (children ++ [after_edge frame (r, n)])) = Ok out) in H.
  destruct (pruned pinned (vf_hops frame) r); [exists []; rewrite app_nil_r; split; [right; split; [by intros [? _]|done]|by injection H]|].
  case_bool_decide as Hu; [exists []; rewrite app_nil_r; split; [right; split; [by intros (_ & ? & _)|done]|by injection H]|].
  rewrite val_bind in H by apply pure_rel_satisfies. unfold rel_ok. destruct (val (rel_satisfies rec ctx r rp (ms_row (vf_state frame)))) as [[]|e]; [| |done]; cbn [rbind negb] in H.
  - exists [after_edge frame (r, n)]. split; [by left|by injection H].
  - exists []. rewrite app_nil_r. split; [right; split; [by intros (_ & _ & ?)|done]|by injection H].
Qed.

(** The children of a frame. *)
Lemma val_children frame children : val (st_fold (child rec ctx rp pinned frame) (edges_of rp (vf_from frame)) []) = Ok children ->
  exists oks, NoDup oks /\ (forall e, e ∈ oks <-> e ∈ edges_of rp (vf_from frame) /\ edge_ok frame e) /\ children = List.map (after_edge frame) oks.
Proof.
  intros H. apply (val_append _ (fun e outs => edge_ok frame e /\ outs = [after_edge frame e] \/ ~ edge_ok frame e /\ outs = [])) in H
    as (outss & Ho & ->); [|intros; apply pure_child|intros acc e out _; apply val_child].
  specialize (edges_distinct (vf_from frame)). clear continue_pure. cbn [app]. revert edges_distinct Ho. generalize (edges_of rp (vf_from frame)) as l. intros l Hn Ho.
  revert Hn. induction Ho as [|e outs l outss He _ IH]; intros Hn.
  { exists []. split; [constructor|]. split; [|done]. intros e. split; [by intros ?%not_elem_of_nil|by intros [?%not_elem_of_nil _]]. }
  apply NoDup_cons in Hn as [Hel Hn]. destruct (IH Hn) as (oks & Hok & Hin & E). cbn [concat]. rewrite E.
  destruct He as [[He ->]|[He ->]].
  - exists (e :: oks). split; [constructor; [by intros [? _]%Hin|done]|]. split; [|done]. intros x. rewrite !elem_of_cons, Hin. naive_solver.
  - exists oks. split; [done|]. split; [|done]. intros x. rewrite Hin, elem_of_cons. naive_solver.
Qed.

(** The hops below a frame, in the order of the stack. *)
Fixpoint tree (n : nat) (frame : VarHopFrame) (cs : list (list edge)) : Prop :=
  match n with
  | O => False
  | S n =>
    (hi <= zlen (vf_hops frame) /\ cs = [[]]) \/
    (zlen (vf_hops frame) < hi /\ exists oks css, NoDup oks /\ (forall e, e ∈ oks <-> e ∈ edges_of rp (vf_from frame) /\ edge_ok frame e) /\
       Forall2 (fun e cs => tree n (after_edge frame e) cs) oks css /\ cs = [] :: concat (zip_with (fun e cs => List.map (cons e) cs) oks css))
  end.

Lemma tree_S n frame cs : tree n frame cs -> tree (S n) frame cs.
Proof using Type.
  revert frame cs. induction n as [|n IH]; intros frame cs; [done|]. intros [H|(Hh & oks & css & Hn & Hin & Hf & ->)]; [by left|right].
  split; [done|]. exists oks, css. split; [done|]. split; [done|]. split; [|done]. eapply Forall2_impl; [exact Hf|]. intros e c. apply IH.
Qed.

Variable R : VarHopFrame -> list MatchState -> Prop.
Hypothesis accept_R : forall frame results out, val (accept rec ctx rp np pinned lo continue frame results) = Ok out -> exists outs, R frame outs /\ out = results ++ outs.

(** What is below a frame, with its outcomes. *)
Definition explored (n : nat) (frame : VarHopFrame) (outs : list MatchState) : Prop :=
  exists cs outss, tree n frame cs /\ Forall2 (fun es outs => R (after frame es) outs) cs outss /\ outs = concat outss.

Lemma explored_children n frame oks outss : Forall2 (explored n) (List.map (after_edge frame) oks) outss ->
  exists css below, Forall2 (fun e cs => tree n (after_edge frame e) cs) oks css /\
    Forall2 (fun es outs => R (after frame es) outs) (concat (zip_with (fun e cs => List.map (cons e) cs) oks css)) below /\ concat outss = concat below.
Proof.
  revert outss. induction oks as [|e oks IH]; intros outss H; cbn [List.map] in H.
  - apply Forall2_nil_inv_l in H as ->. exists [], []. by repeat constructor.
  - apply Forall2_cons_inv_l in H as (outs & outss' & (cs & os & Ht & Hos & ->) & H & ->). destruct (IH _ H) as (css & below & Hc & Hb & E).
    exists (cs :: css), (os ++ below). split; [by constructor|]. split.
    + cbn [zip_with concat]. apply Forall2_app; [|done]. apply Forall2_fmap_l. exact Hos.
    + cbn [concat]. by rewrite E, concat_app.
Qed.

Lemma val_walk_stack f stack results out : val (walk_stack rec ctx rp np pinned lo hi continue f stack results) = Ok out ->
  exists outss, Forall2 (explored f) stack outss /\ out = results ++ concat outss.
Proof.
  revert stack results. induction f as [|f IH]; intros [|frame stack] results; cbn [walk_stack]; [intros [= <-]; exists []; by rewrite app_nil_r|done|intros [= <-]; exists []; by rewrite app_nil_r|].
  rewrite val_bind by (by apply pure_accept). destruct (val (accept _ _ _ _ _ _ _ frame results)) as [acc|e] eqn:Ea; [|done]. cbn [rbind].
  apply accept_R in Ea as (outs0 & HR & ->).
  assert (forall outss, Forall2 (explored f) stack outss -> Forall2 (explored (S f)) stack outss) as Hup.
  { intros outss H. eapply Forall2_impl; [exact H|]. intros g o (cs & os & Ht & ?). exists cs, os. split; [by apply tree_S|done]. }
  destruct (Z.leb_spec hi (zlen (vf_hops frame))) as [Hh|Hh].
  - intros (outss & Ho & ->)%IH. exists (outs0 :: outss). split; [|by rewrite <-app_assoc]. constructor; [|by apply Hup].
    exists [[]], [outs0]. split; [by left|]. split; [repeat constructor; exact HR|]. cbn [concat]. by rewrite app_nil_r.
  - change (val (let! children := st_fold (child rec ctx rp pinned frame) (edges_of rp (vf_from frame)) [] in
                 walk_stack rec ctx rp np pinned lo hi continue f (children ++ stack) (results ++ outs0)) = Ok out -> exists outss, Forall2 (explored (S f)) (frame :: stack) outss /\ out = results ++ concat outss).
    rewrite val_bind by (apply pure_fold; intros; apply pure_child). destruct (val (st_fold _ _ [])) as [children|e] eqn:Ec; [|done]. cbn [rbind].
    apply val_children in Ec as (oks & Hn & Hin & ->). intros (outss & Ho & ->)%IH. apply Forall2_app_inv_l in Ho as (o1 & o2 & H1 & H2 & ->).
    destruct (explored_children f frame oks o1 H1) as (css & below & Hc & Hb & E). exists ((outs0 ++ concat o1) :: o2). split.
    + constructor; [|by apply Hup]. exists ([] :: concat (zip_with (fun e cs => List.map (cons e) cs) oks css)), (outs0 :: below). split; [|split].
      * right. split; [done|]. exists oks, css. done.
      * constructor; [exact HR|exact Hb].
      * cbn [concat]. by rewrite E.
    + cbn [concat]. by rewrite concat_app, <-!app_assoc.
Qed.

(** The hops a frame can be followed by. *)
Inductive steps_from : VarHopFrame -> list edge -> Prop :=
| steps_nil frame : steps_from frame []
| steps_cons frame e es : zlen (vf_hops frame) < hi -> e ∈ edges_of rp (vf_from frame) -> edge_ok frame e ->
    steps_from (after_edge frame e) es -> steps_from frame (e :: es).

Lemma tree_steps n frame cs : tree n frame cs -> NoDup cs /\ forall es, steps_from frame es <-> es ∈ cs.
Proof using Type.
  revert frame cs. induction n as [|n IH]; intros frame cs; [done|]. intros [[Hh ->]|(Hh & oks & css & Hn & Hin & Hf & ->)].
  - split; [apply NoDup_singleton|]. intros es. rewrite list_elem_of_singleton. split; [|intros ->; constructor]. inversion 1; [done|lia].
  - assert (NoDup (concat (zip_with (fun e cs => List.map (cons e) cs) oks css)) /\
      forall es, es ∈ concat (zip_with (fun e cs => List.map (cons e) cs) oks css) <-> exists e es', e ∈ oks /\ es = e :: es' /\ steps_from (after_edge frame e) es') as [HN HI].
    { clear Hin. induction Hf as [|e c oks css Hc _ IHf]; [split; [constructor|]; intros es; split; [by intros ?%not_elem_of_nil|by intros (? & ? & ?%not_elem_of_nil & _)]|].
      apply NoDup_cons in Hn as [He Hn]. destruct (IHf Hn) as [HN HI], (IH _ _ Hc) as [HNc HIc]. cbn [zip_with concat]. split.
      - apply NoDup_app. split; [apply NoDup_fmap_2_strong; [|done]; intros x y _ _ E; by injection E|]. split; [|done].
        intros es (es' & -> & _)%list_elem_of_fmap (e' & es'' & He' & E & _)%HI. injection E as <- _. done.
      - intros es. rewrite elem_of_app, HI, list_elem_of_fmap. setoid_rewrite <-HIc. setoid_rewrite elem_of_cons. naive_solver. }
    split; [constructor; [|done]; by intros (e & es & _ & E & _)%HI|].
    intros es. rewrite elem_of_cons, HI. split.
    + inversion 1 as [|? e es' _ He Hok Hs]; subst; [by left|right]. exists e, es'. split; [by apply Hin|done].
    + intros [->|(e & es' & He%Hin & -> & Hs)]; [constructor|]. destruct He. by constructor.
Qed.

Lemma after_fields frame es :
  vf_from (after frame es) = trail_end (vf_from frame) es /\ ms_row (vf_state (after frame es)) = ms_row (vf_state frame) /\
  ms_used_rels (vf_state (after frame es)) = trail_used (ms_used_rels (vf_state frame)) es /\
  vf_path (after frame es) = trail_path (vf_path frame) es /\ vf_hops (after frame es) = vf_hops frame ++ rels_of es.
Proof using Type.
  revert frame. induction es as [|e es IH]; intros frame; cbn [after List.fold_left]; [by rewrite app_nil_r|].
  destruct (IH (after_edge frame e)) as (H1 & H2 & H3 & H4 & H5). unfold after in *. rewrite H1, H2, H3, H4, H5. split_and!; [done..|].
  cbn [after_edge vf_hops]. by rewrite <-app_assoc.
Qed.

(** They are trails within the bound. *)
Lemma steps_trail frame es : zlen (vf_hops frame) <= hi -> steps_from frame es ->
  trail rp (ms_row (vf_state frame)) (vf_from frame) (ms_used_rels (vf_state frame)) es /\ zlen (vf_hops frame) + zlen es <= hi.
Proof using Type.
  intros Hh H. induction H as [frame|frame [r n] es Hlt He (Hp & Hu & Hr) _ IH]; [split; [constructor|unfold zlen in *; cbn; lia]|].
  destruct IH as [Ht Hl]; [unfold zlen in *; cbn [after_edge vf_hops]; rewrite length_app; cbn [length]; lia|].
  split; [by constructor|]. unfold zlen in *. cbn [after_edge vf_hops] in Hl. rewrite length_app in Hl. cbn [length] in *. lia.
Qed.

Lemma trail_steps frame es : trail rp (ms_row (vf_state frame)) (vf_from frame) (ms_used_rels (vf_state frame)) es ->
  zlen (vf_hops frame) + zlen es <= hi -> pinned_complete pinned (vf_hops frame ++ rels_of es) = true -> steps_from frame es.
Proof using Type.
  clear accept_R. revert frame. induction es as [|[r n] es IH]; intros frame Ht Hl Hp; [constructor|]. inversion Ht as [|? ? ? ? ? He Hu Hr Ht']; subst.
  assert (zlen (vf_hops frame) < hi /\ zlen (vf_hops (after_edge frame (r, n))) + zlen es <= hi) as [Hl1 Hl2].
  { unfold zlen in *. cbn [after_edge vf_hops length fst] in *. rewrite length_app. cbn [length] in *. lia. }
  constructor; [done|done| |].
  - split; [|done]. unfold pruned, pinned_complete in *. destruct pinned as [ids|]; [|done]. apply bool_decide_eq_true in Hp as ->.
    rewrite map_app, lookup_app_r by (by rewrite length_map). rewrite length_map, Nat.sub_diag. cbn [rels_of List.map fst lookup list_lookup]. by rewrite bool_decide_true.
  - apply IH; [exact Ht'|done|]. cbn [after_edge vf_hops fst]. by rewrite <-app_assoc.
Qed.
End var_length.

(** ** Steps *)

Section accepting.
Variable rp : BoundRelPattern.
Variable np : BoundNodePattern.
Variable pinned : option (list bytes).
Variable lo : Z.
Variable continue : NodeValue -> MatchState -> PathBuild -> list MatchState -> M (list MatchState).
Variable F : NodeValue -> MatchState -> PathBuild -> list (list edge) -> MatchState -> Prop.
Hypothesis continue_F : forall n s p results out, val (continue n s p results) = Ok out -> exists outs, lists (F n s p) outs /\ out = results ++ outs.

Definition accepted (frame : VarHopFrame) (choice : list (list edge)) (out : MatchState) : Prop :=
  lo <= zlen (vf_hops frame) /\ pinned_complete pinned (vf_hops frame) = true /\ node_ok np (ms_row (vf_state frame)) (vf_from frame) /\
  exists row, var_row rp np pinned (ms_row (vf_state frame)) (vf_hops frame) (vf_from frame) = Some row /\
    F (vf_from frame) (mkMatchState row (ms_used_rels (vf_state frame))) (vf_path frame) choice out.

Lemma val_accept frame results out : val (accept rec ctx rp np pinned lo continue frame results) = Ok out ->
  exists outs, lists (accepted frame) outs /\ out = results ++ outs.
Proof.
  assert (forall P : Prop, (forall c o, accepted frame c o -> P) -> ~ P -> (Ok results : result ExecError _) = Ok out -> exists outs, lists (accepted frame) outs /\ out = results ++ outs) as Hno.
  { intros P HP Hn [= <-]. exists []. split; [|by rewrite app_nil_r]. apply lists_none. intros c o Hc. by apply Hn, (HP c o). }
  unfold accept. cbv zeta. destruct (Z.leb_spec lo (zlen (vf_hops frame))) as [Hlo|Hlo]; cbn [andb].
  2: { apply (Hno (lo <= zlen (vf_hops frame))); [by intros c o [? _]|lia]. }
  destruct (pinned_complete pinned (vf_hops frame)) eqn:Hp; [|apply (Hno (pinned_complete pinned (vf_hops frame) = true)); [by intros c o (_ & ? & _)|by rewrite Hp]].
  rewrite val_bind by apply pure_node_satisfies. destruct (val (node_satisfies rec ctx (vf_from frame) np (ms_row (vf_state frame)))) as [[]|e] eqn:Hn; [| |done]; cbn [rbind negb].
  2: { apply (Hno (node_ok np (ms_row (vf_state frame)) (vf_from frame))); [by intros c o (_ & _ & ? & _)|]. unfold node_ok. by rewrite Hn. }
  fold (var_row rp np pinned (ms_row (vf_state frame)) (vf_hops frame) (vf_from frame)).
  destruct (var_row rp np pinned (ms_row (vf_state frame)) (vf_hops frame) (vf_from frame)) as [row|] eqn:Er.
  - intros (outs & Ho & ->)%continue_F. exists outs. split; [|done]. eapply lists_iff; [|exact Ho]. intros c o. unfold accepted. rewrite Er. split.
    + intros H. split_and!; [done..|]. by exists row.
    + by intros (_ & _ & _ & row' & [= <-] & H).
  - apply (Hno False); [|by intros []]. intros c o (_ & _ & _ & row & E & _). by rewrite Er in E.
Qed.
End accepting.

Section steps.
Variable path_var : option Z.
Hypothesis edges_distinct : forall id direction types, NoDup (expand (cx_graph ctx) id direction types).

Lemma cons_inj {A : Type} (x : A) c y d : x :: c = y :: d -> x = y /\ c = d.
Proof. by intros [= -> ->]. Qed.

(** Bounds are unsigned. *)
Definition bounds_ok (s : BoundRelPattern * BoundNodePattern) : Prop :=
  match rp_var_length s.1 with Some bounds => 0 <= unwrap_or (vl_max bounds) USIZE_MAX | None => True end.

Lemma var_step rp np steps from state path bounds results out :
  (forall n s p results out, val (walk_steps walk rec ctx path_var steps n s p results) = Ok out -> exists outs, lists (follows path_var steps n s p) outs /\ out = results ++ outs) ->
  rp_var_length rp = Some bounds -> 0 <= unwrap_or (vl_max bounds) USIZE_MAX ->
  val (expand_var_length walk rec ctx rp np bounds (walk_steps walk rec ctx path_var steps) from state path results) = Ok out ->
  exists outs, lists (follows path_var ((rp, np) :: steps) from state path) outs /\ out = results ++ outs.
Proof.
  intros IH Eb Hb. unfold expand_var_length. destruct (pinned_hops rp (ms_row state)) as [pinned|] eqn:Ep.
  2: { rewrite val_ret. intros [= <-]. exists []. split; [|by rewrite app_nil_r]. apply lists_none. intros c o. inversion 1; congruence. }
  intros H. eapply (val_walk_stack rp np pinned _ _ _ (pure_walk_steps path_var steps) (fun n => edges_distinct (nv_id n) _ _)) in H as (outss & Ho & ->);
    [|intros frame r o; apply (val_accept rp np pinned _ _ (follows path_var steps)), IH].
  apply Forall2_cons_inv_l in Ho as (outs & ? & (cs & os & Ht & Hos & ->) & ->%Forall2_nil_inv_l & ->). exists (concat os). split; [|cbn [concat]; by rewrite app_nil_r].
  apply tree_steps in Ht as [Hn Hin]. eapply lists_iff; [|exact (lists_bind cons _ cs os cons_inj Hn Hos)].
  intros c o. split.
  - intros (es & c' & Hes & -> & Ha). apply Hin, steps_trail in Hes as [Ht Hl]; [|done].
    destruct (after_fields (mkFrame from state path []) es) as (E1 & E2 & E3 & E4 & E5). unfold accepted in Ha. rewrite E1, E2, E3, E4, E5 in Ha.
    destruct Ha as (Hlo & Hp & Hnode & row & Hrow & Hf). cbn [vf_from vf_state vf_path vf_hops app] in *.
    apply (follows_var path_var rp np steps from state path bounds pinned es row c' o); try done. unfold rels_of, zlen in *. by rewrite length_map in Hlo.
  - inversion 1 as [|? ? ? ? ? ? ? ? ? ? ? E|? ? ? ? ? ? bounds' pinned' es row c' o' E1 E2 Ht Hlo Hhi Hp Hnode Hrow Hf]; subst; [congruence|].
    rewrite Eb in E1. injection E1 as <-. rewrite Ep in E2. injection E2 as <-. exists es, c'. split; [|split; [done|]].
    + apply Hin. apply trail_steps; done.
    + destruct (after_fields (mkFrame from state path []) es) as (E1 & E2 & E3 & E4 & E5). unfold accepted. rewrite E1, E2, E3, E4, E5.
      cbn [vf_from vf_state vf_path vf_hops app]. split; [unfold rels_of, zlen in *; by rewrite length_map|]. split_and!; [done..|]. by exists row.
Qed.

Lemma fixed_step rp np steps from state path results out :
  (forall n s p results out, val (walk_steps walk rec ctx path_var steps n s p results) = Ok out -> exists outs, lists (follows path_var steps n s p) outs /\ out = results ++ outs) ->
  rp_var_length rp = None ->
  val (st_fold (fixed_hop rec ctx rp np (walk_steps walk rec ctx path_var steps) state path) (edges_of rp from) results) = Ok out ->
  exists outs, lists (follows path_var ((rp, np) :: steps) from state path) outs /\ out = results ++ outs.
Proof.
  intros IH Eb H.
  pose (F := fun (e : edge) c o => rv_id e.1 ∉ ms_used_rels state /\ rel_ok rp (ms_row state) e.1 /\ node_ok np (ms_row state) e.2 /\
    exists next, hop_state rp np state e.1 e.2 = Some next /\ follows path_var steps e.2 next (path_step path e.1 e.2) c o).
  assert (exists outss, Forall2 (fun e outs => lists (F e) outs) (edges_of rp from) outss /\ out = results ++ concat outss) as (outss & Ho & ->).
  { eapply (val_append _ (fun e outs => lists (F e) outs)); [| |exact H]; clear H.
    - intros acc [r n]. unfold fixed_hop. pure_walk. apply pure_walk_steps.
    - intros acc [r n] o _ H.
      assert (forall P : Prop, (forall c o, F (r, n) c o -> P) -> ~ P -> (Ok acc : result ExecError _) = Ok o -> exists outs, lists (F (r, n)) outs /\ o = acc ++ outs) as Hno.
      { intros P HP Hn [= <-]. exists []. split; [|by rewrite app_nil_r]. apply lists_none. intros c o' Hc. by apply Hn, (HP c o'). }
      change (val (if bool_decide (rv_id r ∈ ms_used_rels state) then st_ret acc else
        let! ok := rel_satisfies rec ctx r rp (ms_row state) in
        if negb ok then st_ret acc else
        let! ok := node_satisfies rec ctx n np (ms_row state) in
        if negb ok then st_ret acc else
        match hop_state rp np state r n with Some next => walk_steps walk rec ctx path_var steps n next (path_step path r n) acc | None => st_ret acc end) = Ok o) in H.
      case_bool_decide as Hu; [revert H; apply (Hno (rv_id r ∉ ms_used_rels state)); [by intros c o' [? _]|by intros ?]|].
      rewrite val_bind in H by apply pure_rel_satisfies. destruct (val (rel_satisfies rec ctx r rp (ms_row state))) as [[]|e] eqn:Hr; [| |done]; cbn [rbind negb] in H.
      2: { revert H. apply (Hno (rel_ok rp (ms_row state) r)); [by intros c o' (_ & ? & _)|]. unfold rel_ok. by rewrite Hr. }
      rewrite val_bind in H by apply pure_node_satisfies. destruct (val (node_satisfies rec ctx n np (ms_row state))) as [[]|e] eqn:Hn; [| |done]; cbn [rbind negb] in H.
      2: { revert H. apply (Hno (node_ok np (ms_row state) n)); [by intros c o' (_ & _ & ? & _)|]. unfold node_ok. by rewrite Hn. }
      destruct (hop_state rp np state r n) as [next|] eqn:Hs.
      + apply IH in H as (outs & Ho & ->). exists outs. split; [|done]. eapply lists_iff; [|exact Ho]. intros c o'. unfold F. cbn [fst snd]. rewrite Hs. split.
        * intros Hf. split_and!; [done..|]. by exists next.
        * by intros (_ & _ & _ & next' & [= <-] & Hf).
      + revert H. apply (Hno False); [|by intros []]. intros c o' (_ & _ & _ & next & E & _). cbn [fst snd] in E. by rewrite Hs in E. }
  exists (concat outss). split; [|done]. eapply lists_iff; [|exact (lists_bind (fun (e : edge) (c : list (list edge)) => [e] :: c) F _ _ ltac:(by intros x c y d [= -> ->]) (edges_distinct _ _ _) Ho)].
  intros c o. split.
  - intros ([r n] & c' & He & -> & Hu & Hr & Hn & next & Hs & Hf). by eapply follows_fixed.
  - inversion 1 as [|? ? ? ? ? ? r n next c' o' E He Hu Hr Hn Hs Hf|]; subst; [|congruence]. exists (r, n), c'. split; [done|]. split; [done|].
    split_and!; [done..|]. by exists next.
Qed.

Lemma val_walk_steps steps from state path results out : Forall bounds_ok steps ->
  val (walk_steps walk rec ctx path_var steps from state path results) = Ok out ->
  exists outs, lists (follows path_var steps from state path) outs /\ out = results ++ outs.
Proof.
  intros Hb. revert from state path results out. induction Hb as [|[rp np] steps Hs _ IH]; intros from state path results out; cbn [walk_steps].
  - intros H. change (Ok (results ++ [finished path_var state path]) = Ok out :> result ExecError _) in H. injection H as <-.
    eexists. split; [|done]. apply (lists_one _ []); [constructor|]. by inversion 1.
  - unfold bounds_ok in Hs. cbn [fst] in Hs. destruct (rp_var_length rp) as [bounds|] eqn:Eb.
    + by apply var_step.
    + apply fixed_step; done.
Qed.
End steps.

(** ** Relationships are used once *)

Lemma trail_once rp row from used es : trail rp row from used es ->
  NoDup (List.map rv_id (rels_of es)) /\ (forall id, id ∈ List.map rv_id (rels_of es) -> id ∉ used) /\
  trail_used used es = list_to_set (List.map rv_id (rels_of es)) ∪ used.
Proof.
  induction 1 as [from used|from used r n es _ Hu _ _ (Hn & Hd & E)]; [split; [constructor|]; split; [by intros id ?%not_elem_of_nil|cbn; set_solver]|].
  cbn [rels_of List.map fst trail_used List.fold_left]. split; [|split].
  - constructor; [|done]. intros Hr%Hd. set_solver.
  - intros id [->|Hid]%elem_of_cons; [done|]. apply Hd in Hid. set_solver.
  - unfold trail_used in E. cbn [fst]. rewrite E. cbn [list_to_set]. set_solver.
Qed.

Lemma hop_state_used rp np state r n next : hop_state rp np state r n = Some next -> ms_used_rels next = {[rv_id r]} ∪ ms_used_rels state.
Proof. unfold hop_state. repeat case_match; try done; by intros [= <-]. Qed.

Lemma follows_once path_var steps from state path choice out : follows path_var steps from state path choice out ->
  NoDup (List.map rv_id (rels_of (concat choice))) /\ (forall id, id ∈ List.map rv_id (rels_of (concat choice)) -> id ∉ ms_used_rels state) /\
  ms_used_rels out = list_to_set (List.map rv_id (rels_of (concat choice))) ∪ ms_used_rels state.
Proof.
  induction 1 as [from state path|rp np steps from state path r n next choice out _ _ Hu _ _ Hs _ (Hn & Hd & E)
    |rp np steps from state path bounds pinned es row choice out _ _ Ht _ _ _ _ _ _ (Hn & Hd & E)].
  - cbn. split; [constructor|]. split; [by intros id ?%not_elem_of_nil|]. unfold finished. destruct path_var; cbn; set_solver.
  - rewrite (hop_state_used _ _ _ _ _ _ Hs) in Hd, E. cbn [concat app rels_of List.map fst]. fold (rels_of (concat choice)). split; [|split].
    + constructor; [|done]. intros Hr%Hd. set_solver.
    + intros id [->|Hid]%elem_of_cons; [done|]. apply Hd in Hid. set_solver.
    + rewrite E. cbn [list_to_set]. set_solver.
  - cbn [ms_used_rels] in *. destruct (trail_once _ _ _ _ _ Ht) as (Hn1 & Hd1 & E1). rewrite E1 in Hd, E. cbn [concat]. unfold rels_of in *. rewrite !map_app. split; [|split].
    + apply NoDup_app. split; [done|]. split; [|done]. intros id Hid Hid'. apply Hd in Hid'. set_solver.
    + intros id [Hid|Hid]%elem_of_app; [by apply Hd1|]. apply Hd in Hid. set_solver.
    + rewrite E. rewrite list_to_set_app_L. set_solver.
Qed.

(** ** Anchors *)

(** The nodes a path may start at: the one its variable is bound to, or any. *)
Definition anchored (pattern : BoundNodePattern) (row : Row) (n : NodeValue) : Prop :=
  match np_var pattern with
  | Some var => if row_contains row var then row_get row var = CNode n else n ∈ all_nodes (cx_graph ctx)
  | None => n ∈ all_nodes (cx_graph ctx)
  end.

Definition anchor_row (pattern : BoundNodePattern) (row : Row) (n : NodeValue) : Row :=
  match np_var pattern with Some var => row_set row var (CNode n) | None => row end.

(** The choices for a whole path: its anchor and its steps. *)
Definition chosen (pattern : BoundPathPattern) (state : MatchState) (c : NodeValue * list (list edge)) (out : MatchState) : Prop :=
  anchored (pp_start pattern) (ms_row state) c.1 /\ node_ok (pp_start pattern) (ms_row state) c.1 /\
  follows (pp_path_var pattern) (pp_steps pattern) c.1 (mkMatchState (anchor_row (pp_start pattern) (ms_row state) c.1) (ms_used_rels state)) (mkPathBuild [c.1] []) c.2 out.

(** What the trait promises of a source: the label scan is the nodes with the
    labels, and nothing is listed twice. *)
Record source_laws : Prop := {
  sl_labels : forall labels, NoDup (nodes_by_labels (cx_graph ctx) labels) /\
    forall n, n ∈ nodes_by_labels (cx_graph ctx) labels <-> n ∈ all_nodes (cx_graph ctx) /\ has_labels labels n = true;
  sl_expand : forall id direction types, NoDup (expand (cx_graph ctx) id direction types) }.

(** And of a seek: it answers a superset of the nodes it was asked for - of the
    nodes that satisfy the pattern and [wanted], what the WHERE clause a hint
    was taken from lets through. *)
Definition seeks_cover (wanted : NodeValue -> Prop) (pattern : BoundNodePattern) (row : Row) : Prop :=
  forall hint probe nodes, hint ∈ np_index_hints pattern -> val (resolve_probe rec ctx hint pattern row) = Ok (Some probe) -> materialise_probe ctx probe = Some nodes ->
    NoDup nodes /\ (forall n, n ∈ nodes -> n ∈ all_nodes (cx_graph ctx)) /\ (forall n, n ∈ all_nodes (cx_graph ctx) -> node_ok pattern row n -> wanted n -> n ∈ nodes).

Lemma pure_resolve_probe hint pattern row : pure (resolve_probe rec ctx hint pattern row).
Proof. unfold resolve_probe, seek_values. pure_walk; by apply pure_eval. Qed.

Lemma first_served_elem probes nodes : first_served ctx probes = Some nodes -> exists probe, probe ∈ probes /\ materialise_probe ctx probe = Some nodes.
Proof.
  induction probes as [|p probes IH]; [done|]. cbn [first_served]. destruct (materialise_probe ctx p) as [ns|] eqn:E.
  - intros [= <-]. exists p. split; [by left|done].
  - intros (q & Hq & Hm)%IH. exists q. split; [by right|done].
Qed.
Lemma serve_elem probes nodes : serve ctx probes = Some nodes -> exists probe, probe ∈ probes /\ materialise_probe ctx probe = Some nodes.
Proof.
  unfold serve. destruct (1 <? length probes)%nat; [|apply first_served_elem]. destruct (smallest ctx probes 0 None) as [[c i]|]; [|apply first_served_elem].
  destruct (probes !! i) as [w|] eqn:Ew; [|done]. destruct (materialise_probe ctx w) as [ns|] eqn:Em.
  - intros [= <-]. exists w. split; [by eapply list_elem_of_lookup_2|done].
  - intros (q & [Hq|Hq]%elem_of_app & Hm)%first_served_elem; exists q; (split; [|done]).
    + apply list_elem_of_lookup in Hq as [j Hj]. apply lookup_take_Some in Hj as [Hj _]. by eapply list_elem_of_lookup_2.
    + apply list_elem_of_lookup in Hq as [j Hj]. rewrite lookup_drop in Hj. by eapply list_elem_of_lookup_2.
Qed.

(** A seek that is served answers one of the hints. *)
Lemma val_seek_anchor pattern row nodes : val (seek_anchor rec ctx pattern row) = Ok (Some nodes) ->
  exists hint probe, hint ∈ np_index_hints pattern /\ val (resolve_probe rec ctx hint pattern row) = Ok (Some probe) /\ materialise_probe ctx probe = Some nodes.
Proof.
  assert (forall hint acc, pure (let! p := resolve_probe rec ctx hint pattern row in st_ret (match p with Some p => acc ++ [p] | None => acc end))) as Hp
    by (intros hint acc; apply pure_bind; [apply pure_resolve_probe|intros p; apply pure_ret]).
  unfold seek_anchor. rewrite val_bind by (apply pure_fold; intros acc hint; apply Hp).
  assert (forall hints acc probes, val (st_fold (fun probes hint => let! p := resolve_probe rec ctx hint pattern row in
      st_ret (match p with Some p => probes ++ [p] | None => probes end)) hints acc) = Ok probes ->
    forall probe, probe ∈ probes -> probe ∈ acc \/ exists hint, hint ∈ hints /\ val (resolve_probe rec ctx hint pattern row) = Ok (Some probe)) as Hf.
  { induction hints as [|h hints IH]; intros acc probes; cbn [st_fold].
    - rewrite val_ret. intros [= <-] probe Hin. by left.
    - rewrite val_bind by apply Hp. rewrite val_bind by apply pure_resolve_probe. destruct (val (resolve_probe rec ctx h pattern row)) as [o|e] eqn:E; [|done].
      cbn [rbind]. rewrite val_ret. cbn [rbind]. intros H probe Hin. destruct (IH _ _ H probe Hin) as [Ha|(h' & Hh & Hr)].
      + destruct o as [p|]; [|by left]. apply elem_of_app in Ha as [Ha|Ha%list_elem_of_singleton]; [by left|]. subst p. right. exists h. split; [by left|done].
      + right. exists h'. split; [by right|done]. }
  match goal with |- context [val (st_fold ?f ?l ?a)] => destruct (val (st_fold f l a)) as [probes|e] eqn:E end; [|done]. cbn [rbind]. rewrite val_ret. intros [= H].
  apply serve_elem in H as (probe & Hin & Hm). destruct (Hf _ _ _ E probe Hin) as [Hn|(hint & Hh & Hr)]; [by apply not_elem_of_nil in Hn|]. by exists hint, probe.
Qed.

Lemma pure_seek_anchor pattern row : pure (seek_anchor rec ctx pattern row).
Proof.
  apply sim_pure. intros s t. apply sim_seek_anchor. intros e r.
  apply (sim_eval _ walk walk (le_n _) (or_intror eq_refl) (cx_graph ctx) _ (fixed_context mints s t _)); done || by right.
Qed.

Lemma node_ok_labels pattern row n : node_ok pattern row n -> has_labels (np_labels pattern) n = true.
Proof. unfold node_ok, node_satisfies. by destruct (has_labels _ _). Qed.

Lemma val_anchors wanted pattern state o : source_laws -> seeks_cover wanted (pp_start pattern) (ms_row state) -> val (anchors_of rec ctx pattern state) = Ok o ->
  exists anchors, (o = Some (true, anchors) \/ o = Some (false, anchors) \/ o = None /\ anchors = []) /\ NoDup anchors /\
    (forall n, n ∈ anchors -> anchored (pp_start pattern) (ms_row state) n) /\
    (forall n, anchored (pp_start pattern) (ms_row state) n -> node_ok (pp_start pattern) (ms_row state) n -> wanted n -> n ∈ anchors).
Proof.
  intros HL HS. unfold anchors_of, anchored. cbv zeta.
  match goal with |- context [st_bind (seek_anchor rec ctx ?p ?r) ?k] => set (fresh := st_bind (seek_anchor rec ctx p r) k) end.
  assert (forall o, val fresh = Ok o -> exists anchors, o = Some (false, anchors) /\ NoDup anchors /\ (forall n, n ∈ anchors -> n ∈ all_nodes (cx_graph ctx)) /\
    (forall n, n ∈ all_nodes (cx_graph ctx) -> node_ok (pp_start pattern) (ms_row state) n -> wanted n -> n ∈ anchors)) as Hfresh.
  { intros o' H. unfold fresh in H. rewrite val_bind in H by apply pure_seek_anchor.
    destruct (val (seek_anchor rec ctx (pp_start pattern) (ms_row state))) as [[nodes|]|e] eqn:Es; [| |done]; cbn [rbind] in H.
    - injection H as <-. exists nodes. split; [done|]. apply val_seek_anchor in Es as (hint & probe & Hh & Hr & Hm). by apply (HS hint probe).
    - injection H as <-. destruct (sl_labels HL (np_labels (pp_start pattern))) as [Hn Hi]. eexists. split; [done|]. split; [exact Hn|].
      split; [by intros n [? _]%Hi|]. intros n Ha Hok _. apply Hi. split; [done|]. by apply node_ok_labels in Hok. }
  destruct (np_var (pp_start pattern)) as [var|]; [destruct (row_contains (ms_row state) var)|].
  - rewrite val_ret. intros [= <-]. destruct (row_get (ms_row state) var) as [| | | | | | |n| | |];
      try (exists []; split; [by right; right|]; split; [constructor|]; split; [by intros m ?%not_elem_of_nil|done]).
    exists [n]. split; [by left|]. split; [apply NoDup_singleton|]. split; [by intros m ->%list_elem_of_singleton|]. intros m [= ->] _ _. by apply list_elem_of_singleton.
  - intros (anchors & -> & H)%Hfresh. exists anchors. split; [by right; left|done].
  - intros (anchors & -> & H)%Hfresh. exists anchors. split; [by right; left|done].
Qed.

Lemma val_from_anchors pattern state anchors results : source_laws -> Forall bounds_ok (pp_steps pattern) -> NoDup anchors ->
  val (st_fold (fun results anchor =>
      let! ok := node_satisfies rec ctx anchor (pp_start pattern) (ms_row state) in
      if negb ok then st_ret results
      else
        let row := match np_var (pp_start pattern) with Some var => row_set (ms_row state) var (CNode anchor) | None => ms_row state end in
        walk_steps walk rec ctx (pp_path_var pattern) (pp_steps pattern) anchor (mkMatchState row (ms_used_rels state)) (mkPathBuild [anchor] []) results)
      anchors []) = Ok results ->
  lists (fun d o => exists x c, x ∈ anchors /\ d = (x, c) /\ node_ok (pp_start pattern) (ms_row state) x /\
    follows (pp_path_var pattern) (pp_steps pattern) x (mkMatchState (anchor_row (pp_start pattern) (ms_row state) x) (ms_used_rels state)) (mkPathBuild [x] []) c o) results.
Proof.
  intros HL Hb Hn H.
  pose (F := fun x c o => node_ok (pp_start pattern) (ms_row state) x /\
    follows (pp_path_var pattern) (pp_steps pattern) x (mkMatchState (anchor_row (pp_start pattern) (ms_row state) x) (ms_used_rels state)) (mkPathBuild [x] []) c o).
  assert (exists outss, Forall2 (fun x outs => lists (F x) outs) anchors outss /\ results = [] ++ concat outss) as (outss & Ho & ->).
  { eapply (val_append _ (fun x outs => lists (F x) outs)); [| |exact H]; clear H.
    - intros acc x. cbv beta zeta. pure_walk. apply pure_walk_steps.
    - intros acc x out _ H. cbv beta zeta in H. rewrite val_bind in H by apply pure_node_satisfies.
      destruct (val (node_satisfies rec ctx x (pp_start pattern) (ms_row state))) as [[]|e] eqn:Ex; [| |done]; cbn [rbind negb] in H.
      + apply val_walk_steps in H as (outs & Ho & ->); [|apply HL|done]. exists outs. split; [|done]. eapply lists_iff; [|exact Ho]. intros c o. split; [by split|by intros [_ ?]].
      + injection H as <-. exists []. split; [|by rewrite app_nil_r]. apply lists_none. intros c o [E _]. unfold node_ok in E. by rewrite Ex in E. }
  exact (lists_bind pair F anchors outss ltac:(by intros x c y d [= -> ->]) Hn Ho).
Qed.

(** C14: MATCH finds exactly the matches. Over a source that keeps the trait's
    promises, a path pattern yields the outcome of every choice of an anchor
    and of relationships to walk that the pattern allows - fixed steps and
    variable-length ones, bound variables and property maps included - and
    each choice once; of the anchors, an index seek may leave out those the
    WHERE clause it serves would drop, and no other.  In every match the
    relationships walked are pairwise distinct, none was used before, and all
    of them are used afterwards. *)
Theorem match_path_spec wanted pattern state results :
  source_laws -> seeks_cover wanted (pp_start pattern) (ms_row state) -> Forall bounds_ok (pp_steps pattern) ->
  val (match_path walk rec ctx pattern state) = Ok results ->
  (exists anchors : list NodeValue, (forall c out, chosen pattern state c out -> wanted c.1 -> c.1 ∈ anchors) /\
     lists (fun c out => c.1 ∈ anchors /\ chosen pattern state c out) results) /\
  forall c out, chosen pattern state c out ->
    let ids := List.map rv_id (rels_of (concat c.2)) in
    NoDup ids /\ (forall id, id ∈ ids -> id ∉ ms_used_rels state) /\ ms_used_rels out = list_to_set ids ∪ ms_used_rels state.
Proof.
  intros HL HS Hb H. split; [|intros c out (_ & _ & Hf); exact (follows_once _ _ _ _ _ _ _ Hf)].
  unfold match_path in H. rewrite val_bind in H by (unfold anchors_of; repeat case_match; try apply pure_ret; (apply pure_bind; [apply pure_seek_anchor|]; intros []; [|apply pure_bind; [|intros ?]]; apply pure_ret)).
  destruct (val (anchors_of rec ctx pattern state)) as [o|e] eqn:Ea; [|done]. cbn [rbind] in H.
  apply (val_anchors wanted _ _ _ HL HS) in Ea as (anchors & Eo & Hn & Hin & Hcov).
  assert (val (st_fold (fun results anchor =>
      let! ok := node_satisfies rec ctx anchor (pp_start pattern) (ms_row state) in
      if negb ok then st_ret results
      else
        let row := match np_var (pp_start pattern) with Some var => row_set (ms_row state) var (CNode anchor) | None => ms_row state end in
        walk_steps walk rec ctx (pp_path_var pattern) (pp_steps pattern) anchor (mkMatchState row (ms_used_rels state)) (mkPathBuild [anchor] []) results)
      anchors []) = Ok results) as H'.
  { destruct Eo as [->|[->|[-> ->]]]; [exact H..|]. exact H. }
  exists anchors. split; [intros [x c] out (Hx & Hok & _) Hw; by apply Hcov|].
  apply val_from_anchors in H'; [|done..]. eapply lists_iff; [|exact H']. intros [x c] out. unfold chosen. cbn [fst snd]. split.
  - intros (x' & c' & Hx & [= <- <-] & Hok & Hf). split; [done|]. split; [by apply Hin|done].
  - intros (Hi & Hx & Hok & Hf). by exists x, c.
Qed.
End matching.
