(* ===== verification/CypherOverlay.v ===== *)
(** * The write overlay is a graph

    The specification of [MutableGraph] is an in-memory graph that writes
    change in place.  [flatten] is the graph an overlay stands for: reads of
    the overlay are reads of it, every write changes it as the specification
    says, and the net effect of a query turns the base into it.  A layer is a
    list whose elements have distinct ids, some overridden and some deleted by
    id; it stands for the list [flat]. *)
From Stdlib Require Import SpecFloat.
From S2P Require Import Prelude Model Keys Canonical CypherValue CypherExpr CypherSource.
Open Scope Z_scope.

Section layer.
Context {A : Type}.
Variable id : A -> bytes.

Definition find_id (k : bytes) (l : list A) : option A := List.find (fun x => bool_decide (id x = k)) l.
Definition ids (l : list A) : list bytes := List.map id l.

Definition over (O : gmap bytes A) (x : A) : A := match O !! id x with Some x' => x' | None => x end.
Definition live (D : gset bytes) (x : A) : bool := negb (bool_decide (id x ∈ D)).
Definition flat (l : list A) (O : gmap bytes A) (D : gset bytes) : list A := List.map (over O) (List.filter (live D) l).

Record layer_ok (l : list A) (O : gmap bytes A) : Prop := {
  ly_ids : NoDup (ids l);
  ly_over : forall k x, O !! k = Some x -> id x = k /\ k ∈ ids l }.

(** ** Finding by id *)

Lemma find_id_Some k l x : find_id k l = Some x -> x ∈ l /\ id x = k.
Proof. intros H%List.find_some. destruct H as [H1 H2%bool_decide_eq_true]. by rewrite list_elem_of_In. Qed.
Lemma find_id_None k l : find_id k l = None <-> k ∉ ids l.
Proof.
  induction l as [|x l IH]; [split; [by intros _ ?%not_elem_of_nil|done]|]. unfold find_id, ids in *. cbn [List.find List.map]. rewrite not_elem_of_cons.
  case_bool_decide as E; [split; [done|by intros [? _]]|]. rewrite IH. naive_solver.
Qed.
Lemma find_id_elem l x : NoDup (ids l) -> x ∈ l -> find_id (id x) l = Some x.
Proof.
  induction l as [|y l IH]; [by intros _ ?%not_elem_of_nil|]. unfold ids, find_id in *. cbn [List.find List.map]. intros [Hy Hn]%NoDup_cons [->|Hx]%elem_of_cons.
  - by rewrite bool_decide_true.
  - rewrite bool_decide_false; [by apply IH|]. intros E. apply Hy. rewrite E. apply list_elem_of_fmap. by exists x.
Qed.
Lemma find_id_app k l l' : find_id k (l ++ l') = or_else (find_id k l) (find_id k l').
Proof. induction l as [|x l IH]; [done|]. unfold find_id in *. cbn [app List.find]. by case_bool_decide. Qed.
Lemma ids_app l l' : ids (l ++ l') = ids l ++ ids l'.
Proof. apply map_app. Qed.
Lemma elem_ids l x : x ∈ l -> id x ∈ ids l.
Proof. intros H. apply list_elem_of_fmap. by exists x. Qed.
Lemma find_id_ids k l x : find_id k l = Some x -> k ∈ ids l.
Proof. intros [H <-]%find_id_Some. by apply elem_ids. Qed.
Lemma find_id_app_comm k l l' : NoDup (ids (l ++ l')) -> or_else (find_id k l') (find_id k l) = find_id k (l ++ l').
Proof.
  rewrite find_id_app, ids_app. intros (_ & H & _)%NoDup_app. destruct (find_id k l) as [x|] eqn:E, (find_id k l') as [y|] eqn:E'; try done.
  exfalso. apply find_id_ids in E, E'. by apply (H k).
Qed.

(** ** The list a layer stands for *)

Section ok.
Variables (l : list A) (O : gmap bytes A) (D : gset bytes).
Hypothesis H : layer_ok l O.

Lemma over_id x : id (over O x) = id x.
Proof. unfold over. destruct (O !! id x) as [y|] eqn:E; [|done]. by apply (ly_over _ _ H) in E as [-> _]. Qed.

Lemma flat_ids_sub k : k ∈ ids (flat l O D) <-> k ∈ ids l /\ k ∉ D.
Proof.
  unfold ids, flat. rewrite map_map. setoid_rewrite over_id. rewrite !list_elem_of_fmap. unfold live. split.
  - intros (x & -> & Hx%list_elem_of_In%filter_In). destruct Hx as [Hx%list_elem_of_In Hd%negb_true_iff%bool_decide_eq_false]. split; [by exists x|done].
  - intros [(x & -> & Hx) Hd]. exists x. split; [done|]. apply list_elem_of_In, filter_In. rewrite <-list_elem_of_In. split; [done|]. apply negb_true_iff. by apply bool_decide_eq_false.
Qed.
Lemma flat_distinct : NoDup (ids (flat l O D)).
Proof.
  unfold ids, flat. rewrite map_map. rewrite (map_ext _ id over_id). pose proof (ly_ids _ _ H) as Hn. clear -Hn.
  induction l as [|x k IH]; [done|]. unfold ids in Hn. cbn [List.map] in Hn. apply NoDup_cons in Hn as [Hx Hn]. cbn [List.filter]. destruct (live D x); [|by apply IH].
  cbn [List.map]. constructor; [|by apply IH]. intros (y & E & Hy%list_elem_of_In%filter_In)%list_elem_of_fmap. apply Hx. rewrite E. destruct Hy as [Hy _]. apply elem_ids. by rewrite list_elem_of_In.
Qed.

Lemma find_flat k : find_id k (flat l O D) = if bool_decide (k ∈ D) then None else or_else (O !! k) (find_id k l).
Proof.
  case_bool_decide as Hd; [apply find_id_None; by intros [_ ?]%flat_ids_sub|]. destruct (find_id k l) as [x|] eqn:E.
  - apply find_id_Some in E as [Hx <-]. assert (over O x ∈ flat l O D) as Hf.
    { apply list_elem_of_fmap. exists x. split; [done|]. apply list_elem_of_In, filter_In. rewrite <-list_elem_of_In. split; [done|]. unfold live. by rewrite bool_decide_false. }
    apply (find_id_elem _ _ flat_distinct) in Hf. rewrite over_id in Hf. rewrite Hf. unfold over. by destruct (O !! id x).
  - assert (O !! k = None) as ->.
    { destruct (O !! k) as [y|] eqn:Ey; [|done]. apply (ly_over _ _ H) in Ey as [_ Ey]. by apply find_id_None in E. }
    cbn [or_else]. apply find_id_None. intros [Hk _]%flat_ids_sub. by apply find_id_None in E.
Qed.

(** An element changes. *)
Lemma flat_insert x x' : find_id (id x) (flat l O D) = Some x -> id x' = id x ->
  flat l (<[id x := x']> O) D = List.map (fun y => if bool_decide (id y = id x) then x' else y) (flat l O D).
Proof.
  intros Hx Hx'. unfold flat. rewrite map_map. apply map_ext. intros y. rewrite over_id. unfold over. case_bool_decide as E.
  - rewrite E. by rewrite lookup_insert_eq.
  - by rewrite lookup_insert_ne by done.
Qed.
Lemma layer_insert x x' : find_id (id x) (flat l O D) = Some x -> id x' = id x -> layer_ok l (<[id x := x']> O).
Proof.
  intros Hx Hx'. destruct H as [H1 H2]. split; [done|]. intros k y. destruct (decide (id x = k)) as [<-|Hk].
  - rewrite lookup_insert_eq. intros [= <-]. split; [done|]. by apply find_id_ids, flat_ids_sub in Hx as [? _].
  - rewrite lookup_insert_ne by done. apply H2.
Qed.

(** An element goes. *)
Lemma flat_delete k : flat l O ({[k]} ∪ D) = List.filter (fun y => negb (bool_decide (id y = k))) (flat l O D).
Proof.
  unfold flat. clear -H. pose proof over_id as Ho. clear H. induction l as [|x r IH]; [done|]. cbn [List.filter].
  assert (live ({[k]} ∪ D) x = negb (bool_decide (id x = k)) && live D x) as ->.
  { unfold live. repeat case_bool_decide; set_solver. }
  destruct (live D x); [|by rewrite andb_false_r]. rewrite andb_true_r. cbn [List.map List.filter]. rewrite Ho.
  destruct (negb (bool_decide (id x = k))); cbn [List.map]; by rewrite IH.
Qed.

(** A new element. *)
Lemma flat_append x : id x ∉ ids l -> id x ∉ D -> flat (l ++ [x]) O D = flat l O D ++ [x].
Proof.
  intros Hx Hd. unfold flat. rewrite List.filter_app, map_app. f_equal. cbn [List.filter]. unfold live.
  rewrite bool_decide_false by done. cbn [negb List.map]. unfold over.
  destruct (O !! id x) as [y|] eqn:E; [|done]. by apply (ly_over _ _ H) in E as [_ E].
Qed.
Lemma layer_append x : id x ∉ ids l -> layer_ok (l ++ [x]) O.
Proof.
  intros Hx. destruct H as [H1 H2]. split.
  - rewrite ids_app. apply NoDup_app. split; [done|]. split; [|apply NoDup_singleton]. intros k Hk ->%list_elem_of_singleton. done.
  - intros k y Hy. destruct (H2 k y Hy). rewrite ids_app, elem_of_app. by split; [|left].
Qed.
End ok.
End layer.

(** ** The net effect of a layer *)

Section net.
Context {A : Type} (id : A -> bytes).
Variables (l l1 : list A) (O : gmap bytes A) (D : gset bytes).
Hypothesis H : layer_ok id (l ++ l1) O.

Definition changed (e : bytes * A) : bool := negb (bool_decide (e.1 ∈ D)) && negb (bool_decide (e.1 ∈ (list_to_set (ids id (List.filter (live id D) l1)) : gset bytes))).
Definition upserts : list A := List.map (over id O) (List.filter (live id D) l1) ++ List.map snd (List.filter changed (map_to_list O)).

Lemma elem_flat x : x ∈ flat id (l ++ l1) O D <-> exists y, y ∈ l ++ l1 /\ id y ∉ D /\ x = over id O y.
Proof.
  unfold flat. rewrite list_elem_of_In, in_map_iff. setoid_rewrite filter_In. setoid_rewrite <-list_elem_of_In. unfold live. setoid_rewrite negb_true_iff. setoid_rewrite bool_decide_eq_false. naive_solver.
Qed.

Lemma elem_live_created k : k ∈ ids id (List.filter (live id D) l1) <-> k ∈ ids id l1 /\ k ∉ D.
Proof.
  unfold ids. rewrite !list_elem_of_In, !in_map_iff. setoid_rewrite filter_In. unfold live. setoid_rewrite negb_true_iff. setoid_rewrite bool_decide_eq_false. naive_solver.
Qed.
Lemma changed_true k x : changed (k, x) = true <-> k ∉ D /\ k ∉ ids id l1.
Proof.
  unfold changed. cbn [fst]. rewrite andb_true_iff, !negb_true_iff, !bool_decide_eq_false, elem_of_list_to_set, elem_live_created. split; [|naive_solver].
  intros [Hd Hn]. split; [done|]. intros Hc. by apply Hn.
Qed.

Lemma over_lookup k x : O !! k = Some x -> exists y, y ∈ l ++ l1 /\ id y = k /\ over id O y = x.
Proof.
  intros Hk. destruct (ly_over _ _ _ H _ _ Hk) as [_ (y & -> & Hy)%list_elem_of_fmap]. exists y. split; [done|]. split; [done|]. unfold over. by rewrite Hk.
Qed.

(** What is upserted is what stands there, of the created and the overridden. *)
Lemma elem_upserts x : x ∈ upserts <-> x ∈ flat id (l ++ l1) O D /\ (id x ∈ ids id l1 \/ is_Some (O !! id x)).
Proof.
  unfold upserts. rewrite elem_of_app, elem_flat, !list_elem_of_In, !in_map_iff. setoid_rewrite filter_In. setoid_rewrite <-list_elem_of_In. split.
  - intros [(y & <- & Hy & Hl)|([k y] & <- & Hk%elem_of_map_to_list & Hc%changed_true)].
    + unfold live in Hl. apply negb_true_iff, bool_decide_eq_false in Hl. split; [exists y; split; [apply elem_of_app; by right|done]|]. left. rewrite (over_id id _ _ H). by apply elem_ids.
    + destruct Hc as [Hd Hn], (over_lookup _ _ Hk) as (z & Hz & <- & E), (ly_over _ _ _ H _ _ Hk) as [Hi _]. cbn [snd]. rewrite Hi. split; [by exists z|]. right. by exists y.
  - intros [(y & Hy & Hd & ->) Hc]. rewrite (over_id id _ _ H) in Hc. destruct (decide (id y ∈ ids id l1)) as [Hin|Hin].
    + left. exists y. split; [done|]. apply elem_of_app in Hy as [Hy|Hy].
      * exfalso. pose proof (ly_ids _ _ _ H) as Hn. rewrite ids_app in Hn. apply NoDup_app in Hn as (_ & Hn & _). apply (Hn (id y)); [by apply elem_ids|done].
      * split; [done|]. unfold live. by rewrite bool_decide_false.
    + destruct Hc as [Hc|[z Hz]]; [done|]. right. exists (id y, z). split; [cbn [snd]; unfold over; by rewrite Hz|]. split; [by apply elem_of_map_to_list|]. by apply changed_true.
Qed.

Lemma overridden_ids (p : bytes * A -> bool) : ids id (List.map snd (List.filter p (map_to_list O))) = List.map fst (List.filter p (map_to_list O)).
Proof.
  unfold ids. rewrite map_map. apply map_ext_in. intros [k x] [Hk%list_elem_of_In%elem_of_map_to_list _]%filter_In. by apply (ly_over _ _ _ H) in Hk as [? _].
Qed.
Lemma upserts_distinct : NoDup (ids id upserts).
Proof.
  pose proof (ly_ids _ _ _ H) as Hn. rewrite ids_app in Hn. apply NoDup_app in Hn as (_ & _ & Hn). unfold upserts. rewrite ids_app, overridden_ids.
  assert (ids id (List.map (over id O) (List.filter (live id D) l1)) = ids id (List.filter (live id D) l1)) as ->.
  { unfold ids. rewrite map_map. apply map_ext. apply (over_id id _ _ H). }
  assert (forall {B : Type} (f : B -> bytes) p (k : list B), NoDup (List.map f k) -> NoDup (List.map f (List.filter p k))) as Hf.
  { intros B f p k. induction k as [|x k IH]; [done|]. cbn [List.map List.filter]. intros [Hx Hk]%NoDup_cons. destruct (p x); [|by apply IH]. cbn [List.map]. constructor; [|by apply IH].
    intros (y & E & Hy%list_elem_of_In%filter_In)%list_elem_of_fmap. apply Hx. rewrite E. apply list_elem_of_fmap. exists y. split; [done|]. destruct Hy. by apply list_elem_of_In. }
  apply NoDup_app. split; [by apply Hf|]. split; [|apply Hf, NoDup_fst_map_to_list].
  intros k Hk%elem_live_created Hc. apply list_elem_of_In, in_map_iff in Hc as ([k' x] & <- & [_ Hc%changed_true]%filter_In). naive_solver.
Qed.

(** The list a layer stands for is the list below it with the upserted
    elements in place and the deleted ones gone. *)
Lemma net_effect k : find_id id k (flat id (l ++ l1) O D) =
  match find_id id k upserts with
  | Some x => Some x
  | None => if bool_decide (k ∈ D) && negb (bool_decide (k ∈ ids id l1)) then None else find_id id k l
  end.
Proof.
  destruct (find_id id k upserts) as [x|] eqn:E.
  - apply find_id_Some in E as [[Hx _]%elem_upserts <-]. apply find_id_elem; [by apply flat_distinct|done].
  - rewrite (find_flat id _ _ _ H). apply (find_id_None id) in E. pose proof (ly_ids _ _ _ H) as Hn. rewrite ids_app in Hn. apply NoDup_app in Hn as (_ & Hn & _).
    case_bool_decide as Hd; cbn [andb].
    + case_bool_decide as Hc; [|done]. symmetry. apply find_id_None. intros Hk. by apply (Hn k).
    + assert (forall x, x ∈ flat id (l ++ l1) O D -> id x = k -> ~ (k ∈ ids id l1 \/ is_Some (O !! k))) as Hno.
      { intros x Hx <- Hc. apply E, (elem_ids id), elem_upserts. by split. }
      destruct (O !! k) as [x|] eqn:Ek.
      * destruct (over_lookup _ _ Ek) as (y & Hy & Hk & <-). exfalso. apply (Hno (over id O y)); [|by rewrite (over_id id _ _ H)|by right].
        apply elem_flat. exists y. rewrite Hk. done.
      * cbn [or_else]. rewrite find_id_app. destruct (find_id id k l) as [y|]; [done|]. cbn [or_else]. apply find_id_None. intros (y & Hk & Hy)%list_elem_of_fmap.
        apply (Hno (over id O y)); [apply elem_flat; exists y; rewrite <-Hk; split; [apply elem_of_app; by right|done]|by rewrite (over_id id _ _ H)|]. left. rewrite Hk. by apply elem_ids.
Qed.
End net.

(** ** The specification *)

Inductive write : Type :=
| WCreateNode (labels : list bytes) (properties : list (bytes * value))
| WCreateRel (start rel_type finish : bytes) (properties : list (bytes * value))
| WSetNodeProperty (id key : bytes) (v : option value)
| WSetNodeProperties (id : bytes) (entries : list (bytes * value)) (merge : bool)
| WAddLabel (id label : bytes)
| WRemoveLabel (id label : bytes)
| WSetRelProperty (r : RelValue) (key : bytes) (v : option value)
| WSetRelProperties (r : RelValue) (entries : list (bytes * value)) (merge : bool)
| WDeleteRel (r : RelValue)
| WDeleteNode (id : bytes)
| WDetachDeleteNode (id : bytes).

Definition overlay_write (w : write) (m : MutableGraph) : MutableGraph :=
  match w with
  | WCreateNode labels properties => (create_node m labels properties).2
  | WCreateRel start ty finish properties => (create_rel m start ty finish properties).2
  | WSetNodeProperty id key v => (set_node_property m id key v).2
  | WSetNodeProperties id entries merge => (set_node_properties m id entries merge).2
  | WAddLabel id label => (add_node_label m id label).2
  | WRemoveLabel id label => (remove_node_label m id label).2
  | WSetRelProperty r key v => (set_rel_property m r key v).2
  | WSetRelProperties r entries merge => (set_rel_properties m r entries merge).2
  | WDeleteRel r => delete_rel m r
  | WDeleteNode id => delete_node m id
  | WDetachDeleteNode id => detach_delete_node m id
  end.

(** The same writes on a plain graph; its counter numbers the new elements. *)
Definition put_node (f : NodeValue -> NodeValue) (id : bytes) (g : MemoryGraph) : MemoryGraph :=
  mkMemory (List.map (fun n => if bool_decide (nv_id n = id) then f n else n) (mg_nodes g)) (mg_rels g) (mg_next_id g).
Definition put_rel (f : RelValue -> RelValue) (id : bytes) (g : MemoryGraph) : MemoryGraph :=
  mkMemory (mg_nodes g) (List.map (fun r => if bool_decide (rv_id r = id) then f r else r) (mg_rels g)) (mg_next_id g).
Definition drop_rels (p : RelValue -> bool) (g : MemoryGraph) : MemoryGraph := mkMemory (mg_nodes g) (List.filter (fun r => negb (p r)) (mg_rels g)) (mg_next_id g).
Definition drop_node (id : bytes) (g : MemoryGraph) : MemoryGraph :=
  mkMemory (List.filter (fun n => negb (bool_decide (nv_id n = id))) (mg_nodes g)) (mg_rels g) (mg_next_id g).

Definition incident (id : bytes) (r : RelValue) : bool := bool_decide (rv_start r = id) || bool_decide (rv_end r = id).

Definition plain_write (w : write) (g : MemoryGraph) : MemoryGraph :=
  match w with
  | WCreateNode labels properties => mkMemory (mg_nodes g ++ [mkNodeValue (overlay_id (mg_next_id g)) labels properties]) (mg_rels g) (mg_next_id g + 1)
  | WCreateRel start ty finish properties =>
    mkMemory (mg_nodes g) (mg_rels g ++ [mkRelValue (overlay_id (mg_next_id g)) ty start finish properties]) (mg_next_id g + 1)
  | WSetNodeProperty id key v => put_node (fun n => with_properties n (put_property (nv_properties n) key v)) id g
  | WSetNodeProperties id entries merge => put_node (fun n => with_properties n (put_properties (nv_properties n) entries merge)) id g
  | WAddLabel id label => put_node (fun n => if contains (nv_labels n) label then n else with_labels n (nv_labels n ++ [label])) id g
  | WRemoveLabel id label => put_node (fun n => with_labels n (remove_first label (nv_labels n))) id g
  | WSetRelProperty r key v => put_rel (fun r => rel_with_properties r (put_property (rv_properties r) key v)) (rv_id r) g
  | WSetRelProperties r entries merge => put_rel (fun r => rel_with_properties r (put_properties (rv_properties r) entries merge)) (rv_id r) g
  | WDeleteRel r => drop_rels (fun r' => bool_decide (rv_id r' = rv_id r)) g
  | WDeleteNode id => drop_node id g
  | WDetachDeleteNode id => drop_node id (drop_rels (incident id) g)
  end.

(** What the executor sees to: new relationships join nodes of the graph, a
    relationship that is written was read from the graph, and a node is only
    deleted plainly when nothing is incident to it. *)
Definition node_ids (g : MemoryGraph) : list bytes := List.map nv_id (mg_nodes g).

(** Not an id that is handed out later. *)
Definition issued (next : Z) (id : bytes) : Prop := forall k, next <= k < 2 ^ 64 -> id <> overlay_id k.

Definition write_ok (w : write) (g : MemoryGraph) : Prop :=
  match w with
  | WCreateNode _ _ => mg_next_id g < 2 ^ 64
  | WCreateRel start _ finish _ => mg_next_id g < 2 ^ 64 /\ start ∈ node_ids g /\ finish ∈ node_ids g
  | WSetRelProperty r _ _ | WSetRelProperties r _ _ => r ∈ mg_rels g
  | WDeleteRel r => issued (mg_next_id g) (rv_id r)
  | WDeleteNode id => issued (mg_next_id g) id /\ Forall (fun r => incident id r = false) (mg_rels g)
  | WDetachDeleteNode id => issued (mg_next_id g) id
  | _ => True
  end.

Fixpoint overlay_writes (ws : list write) (m : MutableGraph) : MutableGraph :=
  match ws with [] => m | w :: ws => overlay_writes ws (overlay_write w m) end.
Fixpoint plain_writes (ws : list write) (g : MemoryGraph) : MemoryGraph :=
  match ws with [] => g | w :: ws => plain_writes ws (plain_write w g) end.
Fixpoint writes_ok (ws : list write) (g : MemoryGraph) : Prop :=
  match ws with [] => True | w :: ws => write_ok w g /\ writes_ok ws (plain_write w g) end.

(** ** The graph an overlay stands for *)

Definition base_nodes (g : MemoryGraph) (m : MutableGraph) : list NodeValue := mg_nodes g ++ created_nodes m.
Definition base_rels (g : MemoryGraph) (m : MutableGraph) : list RelValue := mg_rels g ++ created_rels m.

Definition flatten (g : MemoryGraph) (m : MutableGraph) : MemoryGraph :=
  mkMemory (flat nv_id (base_nodes g m) (node_overrides m) (deleted_nodes m)) (flat rv_id (base_rels g m) (rel_overrides m) (dom (deleted_rels m))) (next_id m).

Definition joined (g : MemoryGraph) (r : RelValue) : Prop := rv_start r ∈ node_ids g /\ rv_end r ∈ node_ids g.

(** Ids are unique and none is an overlay id; relationships join nodes. *)
Record graph_ok (g : MemoryGraph) : Prop := {
  go_nodes : NoDup (node_ids g);
  go_rels : NoDup (ids rv_id (mg_rels g));
  go_joined : Forall (joined g) (mg_rels g);
  go_plain : forall id, id ∈ node_ids g \/ id ∈ ids rv_id (mg_rels g) -> is_overlay id = false }.

(** The elements made so far have the ids handed out so far. *)
Definition fresh_below (n : Z) (id : bytes) : Prop := exists k, 0 <= k < n /\ k < 2 ^ 64 /\ id = overlay_id k.

Record overlay_ok (g : MemoryGraph) (m : MutableGraph) : Prop := {
  oo_base : base m = memory_source g;
  oo_graph : graph_ok g;
  oo_next : 0 <= next_id m;
  oo_nodes : layer_ok nv_id (base_nodes g m) (node_overrides m);
  oo_rels : layer_ok rv_id (base_rels g m) (rel_overrides m);
  oo_deleted : forall id, id ∈ deleted_nodes m \/ id ∈ dom (deleted_rels m) -> issued (next_id m) id;
  oo_keyed : forall k r, deleted_rels m !! k = Some r -> rv_id r = k;
  oo_fresh : Forall (fresh_below (next_id m)) (ids nv_id (created_nodes m) ++ ids rv_id (created_rels m));
  oo_same_ends : forall k r r0, rel_overrides m !! k = Some r -> find_id rv_id k (base_rels g m) = Some r0 ->
    rv_type r = rv_type r0 /\ rv_start r = rv_start r0 /\ rv_end r = rv_end r0;
  oo_joined : Forall (joined (flatten g m)) (mg_rels (flatten g m)) }.

Lemma flat_none {A : Type} (id : A -> bytes) l : flat id l ∅ ∅ = l.
Proof.
  unfold flat. rewrite List.forallb_filter_id.
  - rewrite <-(List.map_id l) at 2. apply List.map_ext. intros x. unfold over. by rewrite lookup_empty.
  - apply forallb_forall. intros x _. unfold live. by rewrite bool_decide_false by set_solver.
Qed.
Lemma layer_none {A : Type} (id : A -> bytes) l : NoDup (ids id l) -> layer_ok id l ∅.
Proof. intros H. split; [done|intros k x; by rewrite lookup_empty]. Qed.

Definition started (g : MemoryGraph) : MemoryGraph := mkMemory (mg_nodes g) (mg_rels g) 0.

Lemma flatten_new g : flatten g (mutable_new (memory_source g)) = started g.
Proof. unfold flatten, base_nodes, base_rels, started. cbn. rewrite !app_nil_r. rewrite dom_empty_L. by rewrite !flat_none. Qed.

Lemma new_overlay_ok g : graph_ok g -> overlay_ok g (mutable_new (memory_source g)).
Proof.
  intros Hg. pose proof Hg as [Hn Hr He Hp]. split.
  - done.
  - done.
  - done.
  - unfold base_nodes. cbn. rewrite app_nil_r. by apply layer_none.
  - unfold base_rels. cbn. rewrite app_nil_r. by apply layer_none.
  - intros id. cbn. rewrite dom_empty_L. set_solver.
  - intros k r. cbn. by rewrite lookup_empty.
  - constructor.
  - intros k r r0. cbn. by rewrite lookup_empty.
  - rewrite flatten_new. exact He.
Qed.

(** ** Reads *)

Lemma overlay_node_over m n : overlay_node m n = over nv_id (node_overrides m) n.
Proof. done. Qed.
Lemma overlay_rel_over m r : overlay_rel m r = over rv_id (rel_overrides m) r.
Proof. done. Qed.
Lemma rel_live_dom m (r : RelValue) : rel_live m (rv_id r) = live rv_id (dom (deleted_rels m)) r.
Proof. unfold rel_live, live. f_equal. apply bool_decide_ext. by rewrite elem_of_dom. Qed.

Section reads.
Variables (g : MemoryGraph) (m : MutableGraph).
Hypothesis H : overlay_ok g m.

Lemma current_node_flat id : current_node m id = memory_node (flatten g m) id.
Proof.
  unfold current_node, memory_node. cbn [flatten mg_nodes]. fold (find_id nv_id id (flat nv_id (base_nodes g m) (node_overrides m) (deleted_nodes m))).
  rewrite find_flat by apply H. destruct (bool_decide _); [done|]. f_equal. rewrite (oo_base _ _ H). cbn [memory_source plain_source node].
  unfold memory_node. fold (find_id nv_id id (created_nodes m)). fold (find_id nv_id id (mg_nodes g)).
  apply find_id_app_comm. apply (oo_nodes _ _ H).
Qed.

Lemma all_nodes_flat : mutable_all_nodes m = mg_nodes (flatten g m).
Proof.
  unfold mutable_all_nodes. rewrite (oo_base _ _ H). cbn [memory_source plain_source all_nodes flatten mg_nodes]. unfold flat, base_nodes. by rewrite List.filter_app, List.map_app.
Qed.

(** The ends of a relationship do not change. *)
Lemma over_ends r : r ∈ base_rels g m -> let r' := overlay_rel m r in rv_type r' = rv_type r /\ rv_start r' = rv_start r /\ rv_end r' = rv_end r.
Proof.
  intros Hr. unfold overlay_rel. destruct (rel_overrides m !! rv_id r) as [r'|] eqn:E; [|done]. eapply (oo_same_ends _ _ H); [exact E|].
  apply find_id_elem; [apply (oo_rels _ _ H)|done].
Qed.

Lemma expand_rel_ends lookup id d ts (r r' : RelValue) : rv_type r' = rv_type r -> rv_start r' = rv_start r -> rv_end r' = rv_end r ->
  expand_rel lookup id d ts r' = List.map (fun e => (r', e.2)) (expand_rel lookup id d ts r).
Proof.
  intros E1 E2 E3. unfold expand_rel, type_wanted, neighbour_of. rewrite E1, E2, E3. destruct (negb _); [done|].
  destruct d; repeat case_match; done.
Qed.

Lemma flatten_rel r : r ∈ base_rels g m -> rel_live m (rv_id r) = true -> joined (flatten g m) (overlay_rel m r).
Proof.
  intros Hr Hl. pose proof (oo_joined _ _ H) as Hj. rewrite Forall_forall in Hj. apply Hj. cbn [flatten mg_rels]. unfold flat.
  apply list_elem_of_In, in_map_iff. exists r. split; [done|]. apply filter_In. rewrite <-list_elem_of_In. split; [done|]. by rewrite <-rel_live_dom.
Qed.

Lemma neighbour_end id d (r : RelValue) n : neighbour_of id d r = Some n -> n = rv_start r \/ n = rv_end r.
Proof. unfold neighbour_of. destruct d; repeat case_bool_decide; intros [= <-]; auto. Qed.
Lemma neighbour_touches id d (r : RelValue) n : neighbour_of id d r = Some n -> id = rv_start r \/ id = rv_end r.
Proof. unfold neighbour_of. destruct d; repeat case_bool_decide; intros [= <-]; auto. Qed.

(** One relationship of the base, read through the overlay. *)
Lemma expand_base_rel id d ts r : r ∈ mg_rels g -> rel_live m (rv_id r) = true ->
  List.map (fun e => (overlay_rel m e.1, overlay_node m e.2))
    (List.filter (fun e : RelValue * NodeValue => rel_live m (rv_id e.1) && node_live m (nv_id e.2)) (expand_rel (memory_node g) id d ts r)) =
  expand_rel (memory_node (flatten g m)) id d ts (overlay_rel m r).
Proof.
  intros Hr Hl. assert (r ∈ base_rels g m) as Hb by (unfold base_rels; apply elem_of_app; by left).
  destruct (over_ends r Hb) as (E1 & E2 & E3). rewrite (expand_rel_ends _ _ _ _ _ _ E1 E2 E3).
  unfold expand_rel. destruct (negb (type_wanted ts r)); [done|]. destruct (neighbour_of id d r) as [k|] eqn:En; [|done].
  destruct (flatten_rel r Hb Hl) as [Hs He]. rewrite E2 in Hs. rewrite E3 in He.
  assert (k ∈ node_ids (flatten g m)) as Hk by (destruct (neighbour_end _ _ _ _ En) as [->| ->]; done).
  assert (k ∈ node_ids g) as Hkg.
  { pose proof (go_joined _ (oo_graph _ _ H)) as Hj. rewrite Forall_forall in Hj. destruct (Hj r Hr), (neighbour_end _ _ _ _ En) as [->| ->]; done. }
  rewrite <-current_node_flat. unfold current_node. unfold node_ids in Hk. cbn [flatten mg_nodes] in Hk.
  apply (flat_ids_sub nv_id _ _ _ (oo_nodes _ _ H)) in Hk as [_ Hd]. rewrite bool_decide_false by done.
  destruct (memory_node g k) as [n|] eqn:Eg; [|by apply (find_id_None nv_id) in Eg].
  pose proof (find_id_Some nv_id _ _ _ Eg) as [_ Hid]. cbn [List.filter fst snd]. rewrite Hl. cbn [andb]. unfold node_live. rewrite Hid, bool_decide_false by done. cbn [negb List.map fst snd].
  unfold overlay_node. rewrite Hid. rewrite (oo_base _ _ H). cbn [memory_source plain_source node]. rewrite Eg.
  destruct (node_overrides m !! k); cbn [or_else]; [done|].
  assert (List.find (fun n => bool_decide (nv_id n = k)) (created_nodes m) = None) as ->; [|done].
  apply (find_id_None nv_id). intros Hc. pose proof (ly_ids _ _ _ (oo_nodes _ _ H)) as Hn. unfold base_nodes in Hn. rewrite ids_app in Hn. apply NoDup_app in Hn as (_ & Hn & _). by apply (Hn k).
Qed.

Lemma expand_flat id d ts : mutable_expand m id d ts = memory_expand (flatten g m) id d ts.
Proof.
  unfold mutable_expand, memory_expand. destruct (node_live m id) eqn:El; cbn [negb].
  - rewrite (oo_base _ _ H). cbn [memory_source plain_source expand flatten mg_rels]. unfold memory_expand, flat, base_rels. rewrite List.filter_app, List.map_app, List.map_app, concat_app. f_equal.
    + assert (forall l, (forall r, r ∈ l -> r ∈ mg_rels g) ->
        List.map (fun e => (overlay_rel m e.1, overlay_node m e.2))
          (List.filter (fun e : RelValue * NodeValue => rel_live m (rv_id e.1) && node_live m (nv_id e.2)) (concat (List.map (expand_rel (memory_node g) id d ts) l))) =
        concat (List.map (expand_rel (memory_node (flatten g m)) id d ts) (List.map (over rv_id (rel_overrides m)) (List.filter (live rv_id (dom (deleted_rels m))) l)))) as Hl; [|by apply Hl].
      induction l as [|r l IH]; intros Hin; [done|]. cbn [List.map concat List.filter]. rewrite List.filter_app, List.map_app, IH by (intros; apply Hin; by right).
      rewrite <-rel_live_dom. destruct (rel_live m (rv_id r)) eqn:Er.
      * cbn [List.map concat]. f_equal. apply expand_base_rel; [apply Hin; by left|done].
      * assert (List.filter (fun e : RelValue * NodeValue => rel_live m (rv_id e.1) && node_live m (nv_id e.2)) (expand_rel (memory_node g) id d ts r) = []) as ->; [|done].
        unfold expand_rel. repeat case_match; try done. cbn [List.filter fst]. by rewrite Er.
    + clear El. induction (created_rels m) as [|r l IH]; [done|]. cbn [List.map concat List.filter]. rewrite IH. rewrite <-rel_live_dom. destruct (rel_live m (rv_id r)); [|done].
      cbn [List.map concat]. f_equal. unfold expand_rel. rewrite overlay_rel_over. destruct (negb _); [done|]. destruct (neighbour_of _ _ _); [|done]. by rewrite current_node_flat.
  - symmetry. assert (forall l, (forall r, r ∈ l -> joined (flatten g m) r) -> concat (List.map (expand_rel (memory_node (flatten g m)) id d ts) l) = []) as Hl.
    { induction l as [|r l IH]; intros Hin; [done|]. cbn [List.map concat]. rewrite IH by (intros; apply Hin; by right). rewrite app_nil_r. unfold expand_rel.
      destruct (negb _); [done|]. destruct (neighbour_of id d r) as [k|] eqn:En; [|done]. exfalso. destruct (Hin r ltac:(by left)) as [Hs He].
      assert (id ∈ node_ids (flatten g m)) as Hid by (destruct (neighbour_touches _ _ _ _ En) as [->| ->]; done).
      apply (flat_ids_sub nv_id _ _ _ (oo_nodes _ _ H)) in Hid as [_ Hd]. unfold node_live in El. by rewrite bool_decide_false in El. }
    apply Hl. pose proof (oo_joined _ _ H) as Hj. rewrite Forall_forall in Hj. exact Hj.
Qed.
End reads.

(** ** Writes *)

Lemma put_unique {A : Type} (id : A -> bytes) (f : A -> A) x l : NoDup (ids id l) -> find_id id (id x) l = Some x ->
  List.map (fun y => if bool_decide (id y = id x) then f x else y) l = List.map (fun y => if bool_decide (id y = id x) then f y else y) l.
Proof.
  intros Hn Hx. apply map_ext_in. intros y Hy%list_elem_of_In. case_bool_decide as E; [|done]. apply (find_id_elem id _ _ Hn) in Hy. rewrite E, Hx in Hy. by injection Hy as ->.
Qed.
Lemma put_absent {A : Type} (id : A -> bytes) (f : A -> A) k l : find_id id k l = None -> List.map (fun y => if bool_decide (id y = k) then f y else y) l = l.
Proof.
  intros Hk%find_id_None. rewrite <-(List.map_id l) at 2. apply map_ext_in. intros y Hy%list_elem_of_In. rewrite bool_decide_false; [done|]. intros <-. by apply Hk, elem_ids.
Qed.
Lemma put_same {A : Type} (id : A -> bytes) (f : A -> A) x l : NoDup (ids id l) -> find_id id (id x) l = Some x -> f x = x ->
  List.map (fun y => if bool_decide (id y = id x) then f y else y) l = l.
Proof.
  intros Hn Hx Hf. rewrite <-put_unique by done. rewrite Hf. rewrite <-(List.map_id l) at 2. apply map_ext_in. intros y Hy%list_elem_of_In. case_bool_decide as E; [|done].
  apply (find_id_elem id _ _ Hn) in Hy. rewrite E, Hx in Hy. by injection Hy as ->.
Qed.
Lemma put_ids {A : Type} (id : A -> bytes) (f : A -> A) k l : (forall x, id (f x) = id x) -> ids id (List.map (fun y => if bool_decide (id y = k) then f y else y) l) = ids id l.
Proof. intros Hf. unfold ids. rewrite map_map. apply map_ext. intros x. case_bool_decide; [apply Hf|done]. Qed.

Section writes.
Variables (g : MemoryGraph) (m : MutableGraph).
Hypothesis H : overlay_ok g m.

Lemma flatten_nodes_distinct : NoDup (node_ids (flatten g m)).
Proof. apply (flat_distinct nv_id), (oo_nodes _ _ H). Qed.

(** A node is stored with the same id. *)
Lemma store_node_ok n n' mutation count : current_node m (nv_id n) = Some n -> nv_id n' = nv_id n ->
  overlay_ok g (store_node m n' mutation count) /\
  flatten g (store_node m n' mutation count) =
    mkMemory (List.map (fun y => if bool_decide (nv_id y = nv_id n) then n' else y) (mg_nodes (flatten g m))) (mg_rels (flatten g m)) (mg_next_id (flatten g m)).
Proof.
  intros Hc Hid. rewrite (current_node_flat g m H) in Hc. pose proof H as [H1 H2 H3 H4 H5 Hd Hkey H6 H7 H8].
  assert (flatten g (store_node m n' mutation count) =
    mkMemory (List.map (fun y => if bool_decide (nv_id y = nv_id n) then n' else y) (mg_nodes (flatten g m))) (mg_rels (flatten g m)) (mg_next_id (flatten g m))) as E.
  { unfold flatten, store_node. cbn [mg_nodes mg_rels mg_next_id node_overrides deleted_nodes next_id]. f_equal. rewrite Hid. apply (flat_insert nv_id _ _ _ H4); done. }
  split; [|exact E]. split; try done.
  - cbn. rewrite Hid. by apply (layer_insert nv_id _ _ (deleted_nodes m)).
  - rewrite E. cbn [mg_rels]. eapply Forall_impl; [exact H8|]. intros r. unfold joined, node_ids. cbn [mg_nodes].
    assert (List.map nv_id (List.map (fun y => if bool_decide (nv_id y = nv_id n) then n' else y) (mg_nodes (flatten g m))) = List.map nv_id (mg_nodes (flatten g m))) as ->; [|done].
    rewrite map_map. apply map_ext. intros y. case_bool_decide as Ey; [by rewrite Hid, Ey|done].
Qed.

(** A change of one node by a function, which the code skips when it changes nothing. *)
Lemma change_node_ok id f skip mutation count : (forall n, nv_id (f n) = nv_id n) -> (forall n, skip n = true -> f n = n) ->
  let m' := match current_node m id with Some n => if skip n : bool then m else store_node m (f n) (mutation n) count | None => m end in
  overlay_ok g m' /\ flatten g m' = put_node f id (flatten g m).
Proof.
  intros Hf Hs. cbv zeta. destruct (current_node m id) as [n|] eqn:Ec.
  - assert (nv_id n = id) as <- by (rewrite (current_node_flat g m H) in Ec; by apply (find_id_Some nv_id) in Ec as [_ ?]).
    destruct (skip n) eqn:Es.
    + split; [done|]. rewrite (current_node_flat g m H) in Ec. unfold put_node. rewrite (put_same nv_id f n); [by destruct (flatten g m)|apply flatten_nodes_distinct|exact Ec|by apply Hs].
    + destruct (store_node_ok n (f n) (mutation n) count Ec (Hf n)) as [Ho E]. split; [done|]. rewrite E. unfold put_node. f_equal.
      rewrite (current_node_flat g m H) in Ec. by apply (put_unique nv_id); [apply flatten_nodes_distinct|].
  - split; [done|]. unfold put_node. rewrite (current_node_flat g m H) in Ec. rewrite (put_absent nv_id) by exact Ec. by destruct (flatten g m).
Qed.

(** The overlay's relationship is the graph's. *)
Lemma current_rel_flat r : r ∈ mg_rels (flatten g m) -> current_rel m r = r.
Proof.
  intros Hr. unfold current_rel. pose proof (find_id_elem rv_id _ _ (flat_distinct rv_id _ _ _ (oo_rels _ _ H)) Hr) as E.
  rewrite (find_flat rv_id _ _ _ (oo_rels _ _ H)) in E. case_bool_decide; [done|]. destruct (rel_overrides m !! rv_id r) as [r'|]; [by injection E|]. cbn [or_else] in E.
  fold (find_id rv_id (rv_id r) (created_rels m)). destruct (find_id rv_id (rv_id r) (created_rels m)) as [c|] eqn:Ec; [|done].
  unfold base_rels in E. rewrite <-find_id_app_comm in E by apply (oo_rels _ _ H). rewrite Ec in E. by injection E.
Qed.

Lemma change_rel_ok r f mutation count : r ∈ mg_rels (flatten g m) ->
  (forall r, rv_id (f r) = rv_id r /\ rv_type (f r) = rv_type r /\ rv_start (f r) = rv_start r /\ rv_end (f r) = rv_end r) ->
  let m' := store_rel m (f (current_rel m r)) mutation count in overlay_ok g m' /\ flatten g m' = put_rel f (rv_id r) (flatten g m).
Proof.
  intros Hr Hf. cbv zeta. rewrite current_rel_flat by done. pose proof H as [H1 H2 H3 H4 H5 Hd Hkey H6 H7 H8]. destruct (Hf r) as (F1 & F2 & F3 & F4).
  pose proof (find_id_elem rv_id _ _ (flat_distinct rv_id _ _ _ H5) Hr) as Hfind.
  assert (flatten g (store_rel m (f r) mutation count) = put_rel f (rv_id r) (flatten g m)) as E.
  { unfold flatten, store_rel, put_rel. cbn [mg_nodes mg_rels mg_next_id rel_overrides deleted_rels next_id]. f_equal. rewrite F1.
    change (base_rels g (mkMutable _ _ (created_rels m) _ _ _ _ _ _ _)) with (base_rels g m).
    rewrite (flat_insert rv_id _ _ _ H5) by done. apply (put_unique rv_id); [|done]. by apply flat_distinct. }
  split; [|exact E]. split; try done.
  - cbn [store_rel rel_overrides deleted_rels]. rewrite F1. by apply (layer_insert rv_id _ _ (dom (deleted_rels m))).
  - intros k r1 r0. cbn [store_rel rel_overrides]. rewrite F1. destruct (decide (rv_id r = k)) as [<-|Hk]; [|rewrite lookup_insert_ne by done; apply H7].
    rewrite lookup_insert_eq. intros [= <-] H0. rewrite F2, F3, F4. rewrite (find_flat rv_id _ _ _ H5) in Hfind. case_bool_decide; [done|].
    change (base_rels g (store_rel m (f r) mutation count)) with (base_rels g m) in H0. rewrite H0 in Hfind.
    destruct (rel_overrides m !! rv_id r) as [r'|] eqn:Er; cbn [or_else] in Hfind; injection Hfind as <-; [by eapply H7|done].
  - rewrite E. unfold put_rel. cbn [mg_rels]. rewrite Forall_map. eapply Forall_impl; [exact H8|]. intros x Hx. change (joined _ ?y) with (joined (flatten g m) y).
    case_bool_decide; [|done]. unfold joined. destruct (Hf x) as (_ & _ & -> & ->). exact Hx.
Qed.

(** Elements go. *)
Lemma delete_rel_ok r : issued (next_id m) (rv_id r) ->
  overlay_ok g (delete_rel m r) /\ flatten g (delete_rel m r) = drop_rels (fun r' => bool_decide (rv_id r' = rv_id r)) (flatten g m).
Proof.
  intros Hr. pose proof H as [H1 H2 H3 H4 H5 Hd Hkey H6 H7 H8]. unfold delete_rel. destruct (rel_live m (rv_id r)) eqn:El.
  - cbv zeta. match goal with |- overlay_ok g ?m' /\ _ => set (m1 := m') end.
    assert (flatten g m1 = drop_rels (fun r' => bool_decide (rv_id r' = rv_id r)) (flatten g m)) as E.
    { unfold flatten, drop_rels. cbn. f_equal. rewrite dom_insert_L. by apply (flat_delete rv_id). }
    split; [|exact E]. split; try done.
    + intros id. cbn. rewrite dom_insert_L, elem_of_union, elem_of_singleton. intros [?|[->|?]]; [apply Hd; by left|exact Hr|apply Hd; by right].
    + intros k r'. cbn. rewrite lookup_insert_Some. intros [[<- <-]|[_ ?]]; [done|by apply Hkey].
    + rewrite E. unfold drop_rels. cbn [mg_rels]. rewrite Forall_forall in H8 |- *. intros x Hx%list_elem_of_In%filter_In. apply H8, list_elem_of_In, Hx.
  - split; [done|]. unfold drop_rels. rewrite List.forallb_filter_id; [by destruct (flatten g m)|]. apply forallb_forall. intros x Hx%list_elem_of_In%(elem_ids rv_id).
    apply (flat_ids_sub rv_id _ _ _ H5) in Hx as [_ Hx]. apply negb_true_iff, bool_decide_eq_false. intros E. rewrite E, elem_of_dom in Hx. unfold rel_live in El. by rewrite bool_decide_false in El.
Qed.

Lemma drop_node_joined id G r : incident id r = false -> joined G r -> joined (drop_node id G) r.
Proof.
  unfold incident. intros [I1%bool_decide_eq_false I2%bool_decide_eq_false]%orb_false_elim [J1 J2].
  assert (forall k, k <> id -> k ∈ node_ids G -> k ∈ node_ids (drop_node id G)) as Hk; [|split; by apply Hk].
  intros k Hk (n & En & Hn)%list_elem_of_In%in_map_iff. apply list_elem_of_In, in_map_iff. exists n. split; [done|]. apply filter_In. split; [done|].
  apply negb_true_iff, bool_decide_eq_false. by rewrite En.
Qed.

Lemma delete_node_ok id : issued (next_id m) id -> Forall (fun r => incident id r = false) (mg_rels (flatten g m)) ->
  overlay_ok g (delete_node m id) /\ flatten g (delete_node m id) = drop_node id (flatten g m).
Proof.
  intros Hid Hi. pose proof H as [H1 H2 H3 H4 H5 Hd Hkey H6 H7 H8]. unfold delete_node. destruct (node_live m id) eqn:El.
  - cbv zeta. match goal with |- overlay_ok g ?m' /\ _ => set (m1 := m') end.
    assert (flatten g m1 = drop_node id (flatten g m)) as E.
    { unfold flatten, drop_node. cbn. f_equal. by apply (flat_delete nv_id). }
    split; [|exact E]. split; try done.
    + intros k. cbn. rewrite elem_of_union, elem_of_singleton. intros [[->|?]|?]; [exact Hid|apply Hd; by left|apply Hd; by right].
    + rewrite E. cbn [drop_node mg_rels]. rewrite Forall_forall in H8, Hi |- *. intros r Hr. apply drop_node_joined; [by apply Hi|by apply H8].
  - split; [done|]. unfold drop_node. rewrite List.forallb_filter_id; [by destruct (flatten g m)|]. apply forallb_forall. intros n Hn%list_elem_of_In%(elem_ids nv_id).
    apply (flat_ids_sub nv_id _ _ _ H4) in Hn as [_ Hn]. apply negb_true_iff, bool_decide_eq_false. intros E. rewrite E in Hn. unfold node_live in El. by rewrite bool_decide_false in El.
Qed.
End writes.
