(* ===== verification/CypherWrites.v ===== *)
(** * Every write of a query changes the graph

    The writes of [CypherOverlay] one by one, and their sequences: a query
    that writes through the overlay reads the graph the same writes would
    have made of its base. *)
From Stdlib Require Import SpecFloat.
From S2P Require Import Prelude Keys Model Canonical CypherValue CypherExpr CypherSource CypherDistinct CypherOverlay.
Open Scope Z_scope.

Lemma overlay_id_inj j k : 0 <= j < 2 ^ 64 -> 0 <= k < 2 ^ 64 -> overlay_id j = overlay_id k -> j = k.
Proof. unfold overlay_id. intros Hj Hk E. apply cons_eq_inv in E as [_ E]. apply u64_be_inj in E. by rewrite !Z.mod_small in E. Qed.
Lemma overlay_id_overlay k : is_overlay (overlay_id k) = true.
Proof. done. Qed.

Section creates.
Variables (g : MemoryGraph) (m : MutableGraph).
Hypothesis H : overlay_ok g m.

Lemma created_fresh id : id ∈ ids nv_id (created_nodes m) \/ id ∈ ids rv_id (created_rels m) -> fresh_below (next_id m) id.
Proof. intros Hid. pose proof (oo_fresh _ _ H) as Hf. rewrite Forall_forall in Hf. apply Hf. by apply elem_of_app. Qed.

Lemma known_issued id : id ∈ ids nv_id (base_nodes g m) \/ id ∈ ids rv_id (base_rels g m) -> issued (next_id m) id.
Proof.
  unfold base_nodes, base_rels. rewrite !ids_app, !elem_of_app. intros Hid k Hk ->.
  assert (is_overlay (overlay_id k) = false \/ fresh_below (next_id m) (overlay_id k)) as [Hc|(j & Hj & Hj' & E)].
  { destruct Hid as [[Hid|Hid]|[Hid|Hid]].
    - left. apply (go_plain _ (oo_graph _ _ H)). by left.
    - right. apply created_fresh. by left.
    - left. apply (go_plain _ (oo_graph _ _ H)). by right.
    - right. apply created_fresh. by right. }
  - done.
  - apply overlay_id_inj in E; [lia| |lia]. pose proof (oo_next _ _ H). lia.
Qed.

(** The next id is nobody's. *)
Lemma next_is_new : next_id m < 2 ^ 64 ->
  overlay_id (next_id m) ∉ ids nv_id (base_nodes g m) /\ overlay_id (next_id m) ∉ ids rv_id (base_rels g m) /\
  overlay_id (next_id m) ∉ deleted_nodes m /\ overlay_id (next_id m) ∉ dom (deleted_rels m).
Proof.
  intros Hn. assert (forall P, (P -> issued (next_id m) (overlay_id (next_id m))) -> ~ P) as Hi by (intros P HP Hp; by apply (HP Hp (next_id m))).
  repeat split; apply Hi; intros; [apply known_issued; by left|apply known_issued; by right|apply (oo_deleted _ _ H); by left|apply (oo_deleted _ _ H); by right].
Qed.

Lemma issued_next id : issued (next_id m) id -> issued (next_id m + 1) id.
Proof. intros Hi k Hk. apply Hi. lia. Qed.
Lemma fresh_next : Forall (fresh_below (next_id m + 1)) (ids nv_id (created_nodes m)) /\ Forall (fresh_below (next_id m + 1)) (ids rv_id (created_rels m)).
Proof.
  rewrite <-Forall_app. eapply Forall_impl; [apply (oo_fresh _ _ H)|]. intros id (k & Hk & Hk' & ->). exists k. split; [lia|done].
Qed.
Lemma fresh_new : next_id m < 2 ^ 64 -> fresh_below (next_id m + 1) (overlay_id (next_id m)).
Proof. intros Hn. exists (next_id m). pose proof (oo_next _ _ H). split; [lia|done]. Qed.

Lemma create_node_ok labels properties : next_id m < 2 ^ 64 ->
  overlay_ok g (create_node m labels properties).2 /\ flatten g (create_node m labels properties).2 = plain_write (WCreateNode labels properties) (flatten g m).
Proof.
  intros Hn. destruct (next_is_new Hn) as (N1 & _ & N3 & _). destruct fresh_next as [Fn Fr]. pose proof H as [H1 H2 H3 H4 H5 Hd Hkey H6 H7 H8].
  set (n := mkNodeValue (overlay_id (next_id m)) labels properties).
  assert (base_nodes g (create_node m labels properties).2 = base_nodes g m ++ [n]) as Eb by (unfold base_nodes; cbn; by rewrite app_assoc).
  assert (flatten g (create_node m labels properties).2 = plain_write (WCreateNode labels properties) (flatten g m)) as E.
  { unfold flatten, plain_write. rewrite Eb. cbn. f_equal. by apply (flat_append nv_id _ _ _ H4). }
  split; [|exact E]. split; try done.
  - cbn. lia.
  - rewrite Eb. cbn. by apply layer_append.
  - intros id Hid. apply issued_next, Hd, Hid.
  - cbn [create_node snd created_nodes created_rels next_id]. rewrite ids_app, !Forall_app. split; [split|]; [done| |done]. constructor; [by apply fresh_new|constructor].
  - rewrite E. cbn [plain_write mg_rels]. eapply Forall_impl; [exact H8|]. intros r [J1 J2]. unfold joined, node_ids in *. cbn [mg_nodes].
    rewrite map_app, !elem_of_app. auto.
Qed.

Lemma create_rel_ok start ty finish properties : next_id m < 2 ^ 64 -> start ∈ node_ids (flatten g m) -> finish ∈ node_ids (flatten g m) ->
  overlay_ok g (create_rel m start ty finish properties).2 /\
  flatten g (create_rel m start ty finish properties).2 = plain_write (WCreateRel start ty finish properties) (flatten g m).
Proof.
  intros Hn Hs Hf. destruct (next_is_new Hn) as (_ & N2 & _ & N4). destruct fresh_next as [Fn Fr]. pose proof H as [H1 H2 H3 H4 H5 Hd Hkey H6 H7 H8].
  set (r := mkRelValue (overlay_id (next_id m)) ty start finish properties).
  assert (base_rels g (create_rel m start ty finish properties).2 = base_rels g m ++ [r]) as Eb by (unfold base_rels; cbn; by rewrite app_assoc).
  assert (flatten g (create_rel m start ty finish properties).2 = plain_write (WCreateRel start ty finish properties) (flatten g m)) as E.
  { unfold flatten, plain_write. rewrite Eb. cbn. f_equal. by apply (flat_append rv_id _ _ _ H5). }
  split; [|exact E]. split; try done.
  - cbn. lia.
  - rewrite Eb. cbn. by apply layer_append.
  - intros id Hid. apply issued_next, Hd, Hid.
  - cbn [create_rel snd created_nodes created_rels next_id]. rewrite ids_app, !Forall_app. split; [done|split]; [done|]. constructor; [by apply fresh_new|constructor].
  - intros k r1 r0 Ho. rewrite Eb, find_id_app. destruct (ly_over _ _ _ H5 _ _ Ho) as [_ Hk].
    destruct (find_id rv_id k (base_rels g m)) as [r2|] eqn:Ef; [|by apply find_id_None in Ef]. cbn [or_else]. intros [= <-]. by eapply H7.
  - rewrite E. cbn [plain_write mg_rels]. rewrite Forall_app. split; [exact H8|]. constructor; [by split|constructor].
Qed.
End creates.

(** ** Deleting a node with its relationships *)

Lemma drop_rels_ext p q G : (forall r, r ∈ mg_rels G -> p r = q r) -> drop_rels p G = drop_rels q G.
Proof. intros Hp. unfold drop_rels. f_equal. apply filter_ext_in. intros r Hr%list_elem_of_In. by rewrite Hp. Qed.
Lemma drop_rels_twice p q G : drop_rels q (drop_rels p G) = drop_rels (fun r => p r || q r) G.
Proof.
  unfold drop_rels. cbn [mg_nodes mg_rels mg_next_id]. f_equal. induction (mg_rels G) as [|r l IH]; [done|]. cbn [List.filter].
  destruct (p r); cbn [negb orb List.filter]; [done|]. destruct (q r); cbn [negb]; by rewrite IH.
Qed.

Definition same_id (r' r : RelValue) : bool := bool_decide (rv_id r' = rv_id r).

Lemma delete_rels_ok g rs m : overlay_ok g m -> Forall (fun r => issued (next_id m) (rv_id r)) rs ->
  overlay_ok g (List.fold_left delete_rel rs m) /\ flatten g (List.fold_left delete_rel rs m) = drop_rels (fun r' => existsb (same_id r') rs) (flatten g m).
Proof.
  revert m. induction rs as [|r rs IH]; intros m H Hi; cbn [List.fold_left].
  - split; [done|]. unfold drop_rels. cbn. rewrite List.forallb_filter_id; [done|]. by apply forallb_forall.
  - apply Forall_cons in Hi as [Hr Hi]. destruct (delete_rel_ok g m H r Hr) as [H' E].
    assert (next_id (delete_rel m r) = next_id m) as En by (change (mg_next_id (flatten g (delete_rel m r)) = mg_next_id (flatten g m)); by rewrite E).
    destruct (IH (delete_rel m r)) as [H'' E']; [done|by rewrite En|]. split; [done|]. rewrite E', E, drop_rels_twice. done.
Qed.

Lemma incident_neighbour id r : (exists k, neighbour_of id DUndirected r = Some k) <-> incident id r = true.
Proof. unfold neighbour_of, incident. repeat case_bool_decide; cbn; split; try done; [by intros _; eexists..|by intros [? ?]]. Qed.

(** The relationships the code expands to are the incident ones. *)
Lemma expand_incident G id r : Forall (joined G) (mg_rels G) -> r ∈ List.map fst (memory_expand G id DUndirected []) <-> r ∈ mg_rels G /\ incident id r = true.
Proof.
  intros Hj. rewrite Forall_forall in Hj. unfold memory_expand. rewrite list_elem_of_In, in_map_iff. setoid_rewrite in_concat. setoid_rewrite in_map_iff. unfold expand_rel. cbn [type_wanted negb]. split.
  - intros ([r' n] & <- & l & (r0 & <- & Hr0) & Hin). destruct (neighbour_of id DUndirected r0) as [k|] eqn:En; [|done]. destruct (memory_node G k); [|done].
    destruct Hin as [[= <- <-]|[]]. rewrite list_elem_of_In. split; [done|]. apply incident_neighbour. by exists k.
  - intros [Hr (k & Ek)%incident_neighbour]. destruct (Hj r Hr) as [J1 J2]. assert (k ∈ node_ids G) as Hk by (destruct (neighbour_end _ _ _ _ Ek) as [->| ->]; done).
    destruct (memory_node G k) as [n|] eqn:En; [|by apply (find_id_None nv_id) in En]. exists (r, n). split; [done|]. exists [(r, n)]. split; [|by left].
    exists r. rewrite Ek, En. split; [done|]. by apply list_elem_of_In.
Qed.

Lemma detach_delete_node_ok g m id : overlay_ok g m -> issued (next_id m) id ->
  overlay_ok g (detach_delete_node m id) /\ flatten g (detach_delete_node m id) = drop_node id (drop_rels (incident id) (flatten g m)).
Proof.
  intros H Hid. unfold detach_delete_node. rewrite (expand_flat g m H). set (rs := List.map fst (memory_expand (flatten g m) id DUndirected [])). cbv zeta.
  assert (forall r, r ∈ rs <-> r ∈ mg_rels (flatten g m) /\ incident id r = true) as Hrs by (intros r; apply expand_incident, (oo_joined _ _ H)).
  assert (Forall (fun r => issued (next_id m) (rv_id r)) rs) as Hi.
  { apply Forall_forall. intros r [Hr _]%Hrs. apply (known_issued g m H). right. apply (elem_ids rv_id) in Hr. by apply (flat_ids_sub rv_id _ _ _ (oo_rels _ _ H)) in Hr as [? _]. }
  destruct (delete_rels_ok g rs m H Hi) as [H1 E1].
  assert (flatten g (List.fold_left delete_rel rs m) = drop_rels (incident id) (flatten g m)) as E2.
  { rewrite E1. apply drop_rels_ext. intros r Hr. apply eq_bool_prop_intro. rewrite !Is_true_true, existsb_exists. split.
    - intros (r' & Hin%list_elem_of_In%Hrs & E%bool_decide_eq_true). destruct Hin as [Hr' Hinc].
      pose proof (flat_distinct rv_id _ _ (dom (deleted_rels m)) (oo_rels _ _ H)) as Hn.
      apply (find_id_elem rv_id _ _ Hn) in Hr, Hr'. rewrite E, Hr' in Hr. by injection Hr as ->.
    - intros Hinc. exists r. split; [by apply list_elem_of_In, Hrs|]. by apply bool_decide_eq_true. }
  assert (next_id (List.fold_left delete_rel rs m) = next_id m) as En by (change (mg_next_id (flatten g (List.fold_left delete_rel rs m)) = mg_next_id (flatten g m)); by rewrite E2).
  destruct (delete_node_ok g _ H1 id) as [H2 E3]; [by rewrite En| |split; [done|by rewrite E3, E2]].
  rewrite E2. apply Forall_forall. intros r [_ Hr]%list_elem_of_In%filter_In. by apply negb_true_iff in Hr.
Qed.

(** ** Every write *)

Lemma contains_elem l x : contains l x = true <-> x ∈ l.
Proof. unfold contains. by rewrite bool_decide_eq_true. Qed.
Lemma remove_first_absent l ls : l ∉ ls -> remove_first l ls = ls.
Proof. induction ls as [|k ls IH]; [done|]. rewrite not_elem_of_cons. intros [Hl Hls]. cbn [remove_first]. rewrite bool_decide_false by done. by rewrite IH. Qed.

Lemma overlay_write_ok g m w : overlay_ok g m -> write_ok w (flatten g m) ->
  overlay_ok g (overlay_write w m) /\ flatten g (overlay_write w m) = plain_write w (flatten g m).
Proof.
  intros H Hw. destruct w as [labels ps|start ty finish ps|id key v|id es mg|id label|id label|r key v|r es mg|r|id|id]; cbn [overlay_write plain_write write_ok] in *.
  - by apply create_node_ok.
  - destruct Hw as (? & ? & ?). by apply create_rel_ok.
  - pose proof (change_node_ok g m H id (fun n => with_properties n (put_property (nv_properties n) key v)) (fun _ => false) (fun _ => MutSetNodeProperty id key v) (count_properties 1)) as Hc.
    unfold set_node_property. destruct (current_node m id); by apply Hc.
  - pose proof (change_node_ok g m H id (fun n => with_properties n (put_properties (nv_properties n) es mg)) (fun _ => false)
      (fun n => MutReplaceNodeProperties id (put_properties (nv_properties n) es mg)) (count_properties (Z.of_nat (length es)))) as Hc.
    unfold set_node_properties. destruct (current_node m id); by apply Hc.
  - pose proof (change_node_ok g m H id (fun n => if contains (nv_labels n) label then n else with_labels n (nv_labels n ++ [label])) (fun n => contains (nv_labels n) label)
      (fun _ => MutAddNodeLabel id label) count_label_added) as Hc. cbv zeta in Hc.
    unfold add_node_label. destruct (current_node m id) as [n|]; [destruct (contains (nv_labels n) label) eqn:Ec|]; apply Hc; intros n'; by destruct (contains (nv_labels n') label).
  - pose proof (change_node_ok g m H id (fun n => with_labels n (remove_first label (nv_labels n))) (fun n => negb (contains (nv_labels n) label))
      (fun _ => MutRemoveNodeLabel id label) count_label_removed) as Hc. cbv zeta in Hc.
    assert (forall n, negb (contains (nv_labels n) label) = true -> with_labels n (remove_first label (nv_labels n)) = n) as Hn.
    { intros n Hn%negb_true_iff. unfold contains in Hn. apply bool_decide_eq_false in Hn. rewrite remove_first_absent by done. by destruct n. }
    unfold remove_node_label. destruct (current_node m id) as [n|]; [destruct (contains (nv_labels n) label) eqn:Ec|]; by apply Hc.
  - by apply (change_rel_ok g m H r (fun r => rel_with_properties r (put_property (rv_properties r) key v))).
  - by apply (change_rel_ok g m H r (fun r => rel_with_properties r (put_properties (rv_properties r) es mg))).
  - by apply (delete_rel_ok g m H).
  - destruct Hw. by apply (delete_node_ok g m H).
  - by apply (detach_delete_node_ok g m).
Qed.

Lemma overlay_writes_ok g ws : forall m, overlay_ok g m -> writes_ok ws (flatten g m) ->
  overlay_ok g (overlay_writes ws m) /\ flatten g (overlay_writes ws m) = plain_writes ws (flatten g m).
Proof.
  induction ws as [|w ws IH]; intros m H Hw; [done|]. destruct Hw as [Hw Hws]. destruct (overlay_write_ok g m w H Hw) as [H' E].
  cbn [overlay_writes plain_writes]. rewrite <-E in Hws |- *. by apply IH.
Qed.

(** ** The overlay refines the graph *)

(** The same answers to every read; seeks may be declined. *)
Record reads_as (S : GraphSource) (g : MemoryGraph) : Prop := {
  ra_all : all_nodes S = mg_nodes g;
  ra_labels : forall labels, nodes_by_labels S labels = nodes_by_labels (memory_source g) labels;
  ra_node : forall id, node S id = memory_node g id;
  ra_expand : forall id d types, expand S id d types = memory_expand g id d types;
  ra_index : forall name ps vs, nodes_by_index S name ps vs = None;
  ra_range : forall name p lower upper, nodes_by_index_range S name p lower upper = None;
  ra_key : forall label vs, nodes_by_key S label vs = None }.

(** C16: Queries that write see their own writes. Whatever writes a query makes, in whatever order -- creating nodes and relationships, setting properties and
    labels, deleting, detaching -- every later read through the overlay (scans, label scans, lookups by id, expansions) is, element for element and in the same order,
    the read of the in-memory graph in which the same writes were made in place, and the check before a plain DELETE finds exactly the nodes that have relationships. *)
Theorem overlay_is_graph (g : MemoryGraph) (ws : list write) : graph_ok g -> writes_ok ws (started g) ->
  let m := overlay_writes ws (mutable_new (memory_source g)) in let G := plain_writes ws (started g) in
  reads_as (mutable_source m) G /\ (forall id, has_incident_rels m id = existsb (incident id) (mg_rels G)) /\
  (forall r, r ∈ mg_rels G -> current_rel m r = r).
Proof.
  intros Hg Hw m G. pose proof (new_overlay_ok g Hg) as H0. rewrite <-flatten_new in Hw. destruct (overlay_writes_ok g ws _ H0 Hw) as [H E].
  rewrite flatten_new in E. fold m G in H, E. rewrite <-E. repeat split.
  - apply (all_nodes_flat g m H).
  - intros labels. cbn. unfold default_nodes_by_labels. by rewrite (all_nodes_flat g m H).
  - apply (current_node_flat g m H).
  - apply (expand_flat g m H).
  - intros. cbn. unfold unless_dirty. rewrite (oo_base _ _ H). by destruct (overlay_dirty m).
  - intros. cbn. unfold unless_dirty. rewrite (oo_base _ _ H). by destruct (overlay_dirty m).
  - intros. cbn. unfold unless_dirty. rewrite (oo_base _ _ H). by destruct (overlay_dirty m).
  - intros id. unfold has_incident_rels. rewrite (expand_flat g m H). pose proof (expand_incident (flatten g m) id) as He.
    apply eq_bool_prop_intro. rewrite !Is_true_true, existsb_exists. setoid_rewrite <-list_elem_of_In. split.
    + destruct (memory_expand (flatten g m) id DUndirected []) as [|[r n] es]; [done|]. intros _. exists r. apply He; [apply (oo_joined _ _ H)|by left].
    + intros (r & Hr). apply He in Hr; [|apply (oo_joined _ _ H)]. destruct (memory_expand (flatten g m) id DUndirected []); [by apply not_elem_of_nil in Hr|done].
  - apply (current_rel_flat g m H).
Qed.

(** ** The net effect *)

Lemma unseen_distinct {A : Type} (id : A -> bytes) (l : list A) : forall seen, NoDup (ids id l) -> (forall k, k ∈ ids id l -> k ∉ seen) -> unseen id seen l = l.
Proof.
  induction l as [|x l IH]; intros seen Hn Hs; [done|]. unfold ids in *. cbn [List.map] in *. apply NoDup_cons in Hn as [Hx Hn]. cbn [unseen].
  rewrite bool_decide_false by (apply Hs; by left). f_equal. apply IH; [done|]. intros k Hk. apply not_elem_of_union. split; [|apply Hs; by right].
  intros ->%elem_of_singleton. by apply Hx.
Qed.
Lemma filter_distinct {A : Type} (id : A -> bytes) p (l : list A) : NoDup (ids id l) -> NoDup (ids id (List.filter p l)).
Proof.
  induction l as [|x l IH]; [done|]. unfold ids in *. cbn [List.map List.filter]. intros [Hx Hl]%NoDup_cons. destruct (p x); [|by apply IH]. cbn [List.map]. constructor; [|by apply IH].
  intros Hk. apply Hx. apply list_elem_of_In, in_map_iff in Hk as (y & E & Hy). apply filter_In in Hy as [Hy _]. rewrite <-E. apply (elem_ids id). by apply list_elem_of_In.
Qed.

(** What a change set leaves of an element of the base. *)
Definition replay {A : Type} (id : A -> bytes) (upserted : list A) (deleted : list bytes) (l : list A) (k : bytes) : option A :=
  match find_id id k upserted with
  | Some x => Some x
  | None => if bool_decide (k ∈ deleted) then None else find_id id k l
  end.

Lemma elem_elements_filter (p : bytes -> bool) (D : gset bytes) (k : bytes) : k ∈ List.filter p (elements D) <-> k ∈ D /\ p k = true.
Proof. by rewrite list_elem_of_In, filter_In, <-list_elem_of_In, elem_of_elements. Qed.

Section net.
Variables (g : MemoryGraph) (m : MutableGraph).
Hypothesis H : overlay_ok g m.

Lemma created_nodes_distinct : NoDup (ids nv_id (created_nodes m)).
Proof. pose proof (ly_ids _ _ _ (oo_nodes _ _ H)) as Hn. unfold base_nodes in Hn. rewrite ids_app in Hn. by apply NoDup_app in Hn as (_ & _ & ?). Qed.
Lemma created_rels_distinct : NoDup (ids rv_id (created_rels m)).
Proof. pose proof (ly_ids _ _ _ (oo_rels _ _ H)) as Hn. unfold base_rels in Hn. rewrite ids_app in Hn. by apply NoDup_app in Hn as (_ & _ & ?). Qed.

Lemma upserted_nodes_are : upserted_nodes (changes m) = upserts nv_id (created_nodes m) (node_overrides m) (deleted_nodes m).
Proof.
  unfold changes, upserts. cbn [upserted_nodes]. rewrite unseen_distinct; [|by apply filter_distinct, created_nodes_distinct|intros; set_solver].
  f_equal. assert (forall l, (forall n, n ∈ l -> n ∈ created_nodes m /\ node_live m (nv_id n) = true) ->
    omap (fun n => current_node m (nv_id n)) l = List.map (over nv_id (node_overrides m)) l) as Hl.
  { induction l as [|n l IH]; intros Hin; [done|]. cbn [List.map omap list_omap]. destruct (Hin n ltac:(by left)) as [Hn Hlive]. unfold node_live in Hlive. apply negb_true_iff, bool_decide_eq_false in Hlive.
    rewrite (current_node_flat g m H). rewrite <-(over_id nv_id _ _ (oo_nodes _ _ H) n). unfold memory_node.
    fold (find_id nv_id (nv_id (over nv_id (node_overrides m) n)) (mg_nodes (flatten g m))).
    rewrite (find_id_elem nv_id); [|apply flatten_nodes_distinct, H|].
    - rewrite IH by (intros; apply Hin; by right). done.
    - cbn [flatten mg_nodes]. unfold flat. apply list_elem_of_In, in_map, filter_In. unfold live. rewrite bool_decide_false by done. split; [|done]. apply list_elem_of_In, elem_of_app. by right. }
  apply Hl. intros n [Hn%list_elem_of_In Hlive]%list_elem_of_In%filter_In. done.
Qed.

Lemma upserted_rels_are : wc_created_rels (changes m) ++ modified_rels (changes m) = upserts rv_id (created_rels m) (rel_overrides m) (dom (deleted_rels m)).
Proof.
  unfold changes, upserts. cbn [wc_created_rels modified_rels]. rewrite unseen_distinct; [|by apply filter_distinct, created_rels_distinct|intros; set_solver].
  assert (List.filter (fun r => rel_live m (rv_id r)) (created_rels m) = List.filter (live rv_id (dom (deleted_rels m))) (created_rels m)) as -> by (apply filter_ext; intros r; apply rel_live_dom).
  f_equal. f_equal. apply filter_ext. intros [k r]. unfold changed, ids_of. cbn [fst]. f_equal. unfold rel_live. f_equal. apply bool_decide_ext. by rewrite elem_of_dom.
Qed.

Lemma deleted_nodes_are k : k ∈ wc_deleted_nodes (changes m) <-> k ∈ deleted_nodes m /\ k ∉ ids nv_id (created_nodes m).
Proof. unfold changes. cbn [wc_deleted_nodes]. rewrite elem_elements_filter, negb_true_iff, bool_decide_eq_false. unfold ids_of. by rewrite elem_of_list_to_set. Qed.
Lemma deleted_rels_are k : k ∈ ids rv_id (wc_deleted_rels (changes m)) <-> k ∈ dom (deleted_rels m) /\ k ∉ ids rv_id (created_rels m).
Proof.
  unfold changes, ids at 1. cbn [wc_deleted_rels]. rewrite map_map, elem_of_dom, list_elem_of_In, in_map_iff. unfold ids_of. split.
  - intros ([k' r] & <- & [Hr%list_elem_of_In%elem_of_map_to_list Hc%negb_true_iff%bool_decide_eq_false]%filter_In). cbn [fst snd] in *.
    rewrite (oo_keyed _ _ H _ _ Hr). split; [by exists r|]. by rewrite elem_of_list_to_set in Hc.
  - intros [[r Hr] Hc]. exists (k, r). cbn [fst snd]. split; [by apply (oo_keyed _ _ H)|]. apply filter_In. rewrite <-list_elem_of_In, elem_of_map_to_list. split; [done|].
    apply negb_true_iff, bool_decide_eq_false. by rewrite elem_of_list_to_set.
Qed.
End net.

(** The steps of the two halves of the property below. *)
Lemma replay_net {A : Type} (id : A -> bytes) (l l1 : list A) (O : gmap bytes A) (D : gset bytes) (deleted : list bytes) : layer_ok id (l ++ l1) O -> (forall k, k ∈ deleted <-> k ∈ D /\ k ∉ ids id l1) ->
  (forall k, replay id (upserts id l1 O D) deleted l k = find_id id k (flat id (l ++ l1) O D)) /\
  NoDup (ids id (upserts id l1 O D)) /\ (forall k, k ∈ deleted -> k ∉ ids id (upserts id l1 O D)).
Proof.
  intros Hl Hdel. split; [|split].
  - intros k. rewrite (net_effect id _ _ _ _ Hl). unfold replay. destruct (find_id id k _); [done|].
    assert (bool_decide (k ∈ deleted) = bool_decide (k ∈ D) && negb (bool_decide (k ∈ ids id l1))) as ->; [|done].
    apply eq_bool_prop_intro. rewrite !Is_true_true, andb_true_iff, negb_true_iff, bool_decide_eq_false, !bool_decide_eq_true. apply Hdel.
  - by apply (upserts_distinct id l).
  - intros k [Hd Hc]%Hdel (n & -> & [Hn _]%(elem_upserts id _ _ _ _ Hl))%list_elem_of_fmap.
    apply (elem_ids id) in Hn. by apply (flat_ids_sub id _ _ _ Hl) in Hn as [_ ?].
Qed.

(** C17: What a writing query hands to the persistence layer is its net effect and nothing more: replaying the change set over the base -- an upserted element wins, a
    deleted id is gone, everything else is the base's -- gives, id by id, the nodes and the relationships of the graph the writes would have made in place; no id is
    upserted twice, and none is both upserted and deleted. *)
Theorem changes_are_net (g : MemoryGraph) (ws : list write) : graph_ok g -> writes_ok ws (started g) ->
  let c := changes (overlay_writes ws (mutable_new (memory_source g))) in let G := plain_writes ws (started g) in
  let nodes := upserted_nodes c in let rels := wc_created_rels c ++ modified_rels c in
  (forall id, replay nv_id nodes (wc_deleted_nodes c) (mg_nodes g) id = memory_node G id) /\
  (forall id, replay rv_id rels (ids rv_id (wc_deleted_rels c)) (mg_rels g) id = find_id rv_id id (mg_rels G)) /\
  NoDup (ids nv_id nodes) /\ (forall id, id ∈ wc_deleted_nodes c -> id ∉ ids nv_id nodes) /\
  NoDup (ids rv_id rels) /\ (forall id, id ∈ ids rv_id (wc_deleted_rels c) -> id ∉ ids rv_id rels).
Proof.
  intros Hg Hw c G nodes rels. pose proof (new_overlay_ok g Hg) as H0. rewrite <-flatten_new in Hw. destruct (overlay_writes_ok g ws _ H0 Hw) as [H E].
  rewrite flatten_new in E. fold G in E. set (m := overlay_writes ws (mutable_new (memory_source g))) in *. rewrite <-E. unfold nodes, rels, c.
  rewrite (upserted_nodes_are g m H), (upserted_rels_are g m H).
  destruct (replay_net nv_id _ _ _ _ _ (oo_nodes _ _ H) (deleted_nodes_are m)) as (N1 & N2 & N3).
  destruct (replay_net rv_id _ _ _ _ _ (oo_rels _ _ H) (deleted_rels_are g m H)) as (R1 & R2 & R3). by repeat split.
Qed.
