(* ===== verification/CypherAdapter.v ===== *)
(** * Stored records as a graph source (acetone-cypher/src/exec/adapter.rs)

    The materialised snapshot of a stored version with its indexes: by id, by
    label, by declared index and by key.  Seeks probe the memcomparable
    encodings of the values that could equal a pin, and scan the byte ranges
    of the values a bound could admit.  The [HashMap]s are finite maps; the
    ordered map of an index is one whose keys are walked in byte order.  The
    derived [Debug] text of an edge key is a parameter. *)
From Stdlib Require Import SpecFloat.
From S2P Require Import Prelude Ieee Model Keys Canonical Records GraphKeys Schema Scan CypherValue CypherExpr CypherSource CypherOps CypherFunctions.
Open Scope Z_scope.

(** ** Values *)

(** [f64::from_bits] *)
Definition f64_of_bits (bits : Z) : spec_float :=
  let s := 2 ^ 63 <=? bits in
  let e := bits / 2 ^ 52 mod 2 ^ 11 in
  let m := bits mod 2 ^ 52 in
  if e =? 2047 then (if m =? 0 then S754_infinity s else S754_nan)
  else if e =? 0 then (if m =? 0 then S754_zero s else S754_finite s (Z.to_pos m) (-1074))
  else S754_finite s (Z.to_pos (2 ^ 52 + m)) (e - 1075).

Fixpoint convert_value_at (v : Value) (depth : nat) : value :=
  if (MAX_VALUE_DEPTH <=? depth)%nat then CNull
  else
    match v with
    | VNull => CNull
    | VBool b => CBool b
    | VInt n => CInt n
    | VFloat x => CFloat (f64_of_bits x)
    | VString s => CString s
    | VList items => CList (List.map (fun item => convert_value_at item (S depth)) items)
    | VBytes _ | VDate _ | VTime _ | VDateTime _ | VDuration _ => CStored v
    end.
Definition convert_value (v : Value) : value := convert_value_at v 0.

Definition convert_map (properties : properties_map) : list (bytes * value) :=
  List.fold_left (fun out e => map_insert out e.1 (convert_value e.2)) (map_to_list properties) [].

Section adapter.
Context {std : Std}.
Variable debug_edge_key : EdgeKey -> bytes.

(** ** Records as nodes and relationships *)

Definition render_key_bytes (v : Value) : bytes :=
  match encode_key [v] with Ok b => b | Err _ => std_debug_value v end.

Definition node_entity_id (k : NodeKey) : EntityId := render_key_bytes (to_value k).

(** The key's values under their names, unless the record has the name. *)
Fixpoint expose_key (names : list bytes) (values : list Value) (properties : list (bytes * value)) : list (bytes * value) :=
  match names, values with
  | name :: names, v :: values =>
    expose_key names values
      (match map_get properties name with Some _ => properties | None => map_insert properties name (convert_value v) end)
  | _, _ => properties
  end.

Definition node_value (k : NodeKey) (r : NodeRecord) (key_names : gmap bytes (list bytes)) : NodeValue :=
  let properties := convert_map (properties r) in
  mkNodeValue (node_entity_id k) (label k :: secondary_labels r)
    (match key_names !! label k with Some names => expose_key names (key k) properties | None => properties end).

Definition virtual_diff_node (k : NodeKey) (r : NodeRecord) (key_names : gmap bytes (list bytes)) (change_label : bytes) : NodeValue :=
  let n := node_value k r key_names in mkNodeValue (nv_id n) (change_label :: nv_labels n) (nv_properties n).

Definition rel_entity_id (k : EdgeKey) : EntityId := match encode_fwd k with Ok b => b | Err _ => debug_edge_key k end.

Definition rel_value (k : EdgeKey) (r : EdgeRecord) (disc_names : gmap bytes bytes) : RelValue :=
  let properties := convert_map (edge_properties r) in
  mkRelValue (rel_entity_id k) (rtype k) (node_entity_id (src k)) (node_entity_id (dst k))
    (match disc_names !! rtype k with Some name => map_insert properties name (convert_value (disc k)) | None => properties end).

(** ** Index keys *)

Fixpoint model_value_of_at (v : value) (depth : nat) : option Value :=
  if (MAX_VALUE_DEPTH <=? depth)%nat then None
  else
    match v with
    | CNull => Some VNull
    | CBool b => Some (VBool b)
    | CInt n => Some (VInt n)
    | CFloat x => Some (VFloat (f64_bits x))
    | CString s => Some (VString s)
    | CStored mv => Some (VString (render_stored std_debug_value mv))
    | CList items =>
      option_map VList
        ((fix go items :=
            match items with
            | [] => Some []
            | item :: items =>
              match model_value_of_at item (S depth), go items with
              | Some v, Some vs => Some (v :: vs)
              | _, _ => None
              end
            end) items)
    | CMap _ | CNode _ | CRel _ | CPath _ _ => None
    end.
Definition model_value_of (v : value) : option Value := model_value_of_at v 0.

Definition encode_model_value (v : Value) : option bytes :=
  match v with VNull => None | _ => match encode_key [v] with Ok b => Some b | Err _ => None end end.

Definition encode_index_value (v : value) : option bytes :=
  match model_value_of v with Some mv => encode_model_value mv | None => None end.

Definition index_value_bytes (n : NodeValue) (label property : bytes) : option bytes :=
  if contains (nv_labels n) label
  then match map_get (nv_properties n) property with Some v => encode_index_value v | None => None end
  else None.

(** [collect::<Option<Vec<_>>>()] and [concat] *)
Fixpoint concat_all (parts : list (option bytes)) : option bytes :=
  match parts with
  | [] => Some []
  | Some part :: parts => option_map (app part) (concat_all parts)
  | None :: _ => None
  end.

(** ** The snapshot *)

Record GraphSnapshot : Type := mkGraphSnapshot {
  gs_nodes : list NodeValue; gs_rels : list RelValue;
  by_id : gmap bytes nat; by_label : gmap bytes (list nat);
  by_index : gmap bytes (gmap bytes (list nat)); by_key : gmap (bytes * bytes) (list nat);
  index_properties : gmap bytes (list bytes);
  rels_out : gmap bytes (list nat); rels_in : gmap bytes (list nat) }.

(** [entry(key).or_default().push(index)] *)
Definition push_at {K : Type} `{Countable K} (index : nat) (m : gmap K (list nat)) (k : K) : gmap K (list nat) :=
  <[k := match m !! k with Some l => l ++ [index] | None => [index] end]> m.

(** The loop over the enumerated elements that pushes each under its keys. *)
Fixpoint group_from {A K : Type} `{Countable K} (keys : A -> list K) (index : nat) (l : list A) (m : gmap K (list nat)) : gmap K (list nat) :=
  match l with
  | [] => m
  | x :: l => group_from keys (S index) l (List.fold_left (push_at index) (keys x) m)
  end.

Fixpoint insert_ids (index : nat) (l : list NodeValue) (m : gmap bytes nat) : gmap bytes nat :=
  match l with [] => m | n :: l => insert_ids (S index) l (<[nv_id n := index]> m) end.

Definition IndexDecl : Type := bytes * bytes * list bytes.

Definition some_list {A : Type} (o : option A) : list A := match o with Some x => [x] | None => [] end.

(** The key of a node in an index, when it has one. *)
Definition index_keys (label : bytes) (properties : list bytes) (n : NodeValue) : list bytes :=
  some_list (concat_all (List.map (index_value_bytes n label) properties)).

(** The key of a node in the key map, when its label's key is known. *)
Definition key_keys (key_names : gmap bytes (list bytes)) (e : NodeKey * NodeValue) : list (bytes * bytes) :=
  match key_names !! label e.1 with
  | None => []
  | Some names =>
    some_list (option_map (pair (label e.1))
      (concat_all (List.map (fun name => match map_get (nv_properties e.2) name with Some v => encode_index_value v | None => None end) names)))
  end.

Definition snapshot_build (nodes : list (NodeKey * NodeRecord)) (edges : list (EdgeKey * EdgeRecord)) (key_names : gmap bytes (list bytes))
    (disc_names : gmap bytes bytes) (index_defs : list IndexDecl) : GraphSnapshot :=
  let node_values := List.map (fun e => node_value e.1 e.2 key_names) nodes in
  let rel_values := List.map (fun e => rel_value e.1 e.2 disc_names) edges in
  mkGraphSnapshot node_values rel_values
    (insert_ids 0 node_values ∅)
    (group_from nv_labels 0 node_values ∅)
    (List.fold_left (fun m (d : IndexDecl) =>
       let '(name, label, properties) := d in
       <[name := group_from (index_keys label properties) 0 node_values (match m !! name with Some map => map | None => ∅ end)]> m) index_defs ∅)
    (group_from (key_keys key_names) 0 (zip (List.map fst nodes) node_values) ∅)
    (List.fold_left (fun m (d : IndexDecl) => let '(name, _, properties) := d in <[name := properties]> m) index_defs ∅)
    (group_from (fun r => [rv_start r]) 0 rel_values ∅)
    (group_from (fun r => [rv_end r]) 0 rel_values ∅).

Definition from_records (nodes : list (NodeKey * NodeRecord)) (edges : list (EdgeKey * EdgeRecord)) : GraphSnapshot := snapshot_build nodes edges ∅ ∅ [].

Definition key_names_from_schema (schema : list SchemaEntry) : gmap bytes (list bytes) :=
  List.fold_left (fun m entry => match entry with LabelEntry name def => <[name := lkey def]> m | _ => m end) schema ∅.
Definition disc_names_of (schema : list SchemaEntry) : gmap bytes bytes :=
  List.fold_left (fun m entry => match entry with
                                 | RelTypeEntry name def => match discriminator def with Some d => <[name := d]> m | None => m end
                                 | _ => m end) schema ∅.
Definition index_defs_of (schema : list SchemaEntry) : list IndexDecl :=
  omap (fun entry => match entry with IndexDefEntry name def => Some (name, xlabel def, xproperties def) | _ => None end) schema.

Definition from_records_with_schema (nodes : list (NodeKey * NodeRecord)) (edges : list (EdgeKey * EdgeRecord)) (schema : list SchemaEntry) : GraphSnapshot :=
  snapshot_build nodes edges (key_names_from_schema schema) (disc_names_of schema) (index_defs_of schema).

(** ** Probes *)

(** Integers exactly representable end here. *)
Definition F64_EXACT_INT_LIMIT : spec_float := f64_of_i64 (2 ^ 53).

Definition f64_ge (x y : spec_float) : bool := match SFcompare x y with Some (Gt | Eq) => true | _ => false end.

Definition fract_is_zero (x : spec_float) : bool := match f64_integer x with Some _ => true | None => false end.

Definition probe_set_incomplete (v : value) : bool :=
  match v with
  | CList _ => true
  | CFloat x => fract_is_zero x && f64_ge (SFabs x) F64_EXACT_INT_LIMIT
  | _ => false
  end.

Definition index_lookup_keys (v : value) : list bytes :=
  match v with
  | CInt n => some_list (encode_model_value (VInt n)) ++ some_list (encode_model_value (VFloat (f64_bits (f64_of_i64 n))))
  | CFloat x =>
    some_list (encode_model_value (VFloat (f64_bits x))) ++
    (if fract_is_zero x && f64_ge x (f64_of_i64 (- 2 ^ 63)) && f64_ge (f64_of_i64 (2 ^ 63 - 1)) x
     then some_list (encode_model_value (VInt (f64_to_i64 x))) else [])
  | other => some_list (encode_index_value other)
  end.

(** The checked product, refused beyond 16. *)
Fixpoint combinations (n : Z) (per_component : list (list bytes)) : option Z :=
  match per_component with
  | [] => Some n
  | alternatives :: rest => let n := n * zlen alternatives in if 16 <? n then None else combinations n rest
  end.

Definition extend_probes (probes : list bytes) (alternatives : list bytes) : list bytes :=
  concat (List.map (fun prefix => List.map (fun alt => prefix ++ alt) alternatives) probes).

Definition cartesian_probes (values : list value) : option (list bytes) :=
  if existsb probe_set_incomplete values then None
  else
    let per_component := List.map index_lookup_keys values in
    if existsb (fun alternatives => match alternatives with [] => true | _ => false end) per_component then Some []
    else
      match combinations 1 per_component with
      | None => None
      | Some _ => Some (List.fold_left extend_probes per_component [[]])
      end.

(** ** Ranges *)

Definition ByteRange : Type := Bound * Bound.
Abbreviation bound := (option (value * bool)).

Definition numeric (v : value) : bool := match v with CInt _ | CFloat _ => true | _ => false end.
Definition is_num_bound (b : bound) : bool := match b with Some (v, _) => numeric v | None => true end.
Definition degenerate (b : bound) : bool :=
  match b with Some (CNull, _) => true | Some (CFloat x, _) => f64_nan x | _ => false end.

Definition checked_i64 (n : Z) : option Z := if (- 2 ^ 63 <=? n) && (n <? 2 ^ 63) then Some n else None.

(** The nearest integer a float bound admits, on the side [round] takes. *)
Definition int_endpoint (x : spec_float) (inclusive : bool) (step : Z) (round : spec_float -> spec_float) : option Z :=
  if fract_is_zero x
  then let n := f64_to_i64 x in if inclusive then Some n else checked_i64 (n + step)
  else Some (f64_to_i64 (round x)).

Definition int_bound (b : bound) (open : Bound) (step : Z) (round : spec_float -> spec_float) : option Bound :=
  let enc n := encode_model_value (VInt n) in
  match b with
  | None => Some open
  | Some (CInt n, true) => option_map Included (enc n)
  | Some (CInt n, false) => option_map Excluded (enc n)
  | Some (CFloat x, inclusive) =>
    if f64_ge (SFabs x) F64_EXACT_INT_LIMIT then None
    else match int_endpoint x inclusive step round with Some i => option_map Included (enc i) | None => None end
  | Some _ => None
  end.

Definition pair_bounds (start finish : option Bound) : option ByteRange :=
  match start, finish with Some s, Some e => Some (s, e) | _, _ => None end.

Definition int_family_range (lower upper : bound) : option ByteRange :=
  pair_bounds (int_bound lower (Included [TAG_INT]) 1 f64_ceil) (int_bound upper (Excluded [TAG_FLOAT]) (-1) f64_floor).

Definition bound_f64 (v : value) : option spec_float :=
  match v with
  | CFloat x => Some x
  | CInt n => if f64_ge (f64_of_i64 (Z.abs n)) F64_EXACT_INT_LIMIT then None else Some (f64_of_i64 n)
  | _ => None
  end.

(** A zero bound becomes [zero]; an exclusive one starts beyond [other_zero]. *)
Definition float_bound (b : bound) (open : Bound) (zero other_zero : spec_float) : option Bound :=
  let enc x := encode_model_value (VFloat (f64_bits x)) in
  match b with
  | None => Some open
  | Some (v, inclusive) =>
    match bound_f64 v with
    | None => None
    | Some x =>
      let x := if f64_eqb x (S754_zero false) then zero else x in
      if inclusive then option_map Included (enc x)
      else if f64_eqb x (S754_zero false) then option_map Excluded (enc other_zero)
      else option_map Excluded (enc x)
    end
  end.

Definition float_family_range (lower upper : bound) : option ByteRange :=
  pair_bounds (float_bound lower (Included [TAG_FLOAT]) (S754_zero true) (S754_zero false))
    (float_bound upper (Excluded [TAG_STRING]) (S754_zero false) (S754_zero true)).

(** A bound's encoding: [None] when the bound has none. *)
Definition encode_bound (b : bound) : option (option (bytes * bool)) :=
  match b with
  | None => Some None
  | Some (v, inclusive) => match encode_index_value v with Some e => Some (Some (e, inclusive)) | None => None end
  end.

Definition range_endpoint (e : option (bytes * bool)) (open : Bound) : Bound :=
  match e with Some (b, true) => Included b | Some (b, false) => Excluded b | None => open end.

(** One byte range within the type family of the bounds. *)
Definition family_range (lower upper : option (bytes * bool)) (family : byte) : list ByteRange :=
  [(range_endpoint lower (Included [family]), range_endpoint upper (Excluded [z2b (b2z family + 1)]))].

Definition family_of (e : bytes) : option byte := head e.

Definition range_families (lower upper : bound) : option (list ByteRange) :=
  if degenerate lower || degenerate upper then Some []
  else
    match lower, upper with
    | None, None => None
    | _, _ =>
      if is_num_bound lower && is_num_bound upper
      then
        match int_family_range lower upper, float_family_range lower upper with
        | Some ints, Some floats => Some [ints; floats]
        | _, _ => None
        end
      else
        match encode_bound lower, encode_bound upper with
        | Some l, Some u =>
          match l, u with
          | Some (lb, _), Some (ub, _) =>
            if negb (bool_decide (family_of lb = family_of ub)) then Some [] else option_map (family_range l u) (family_of lb)
          | Some (b, _), None | None, Some (b, _) => option_map (family_range l u) (family_of b)
          | None, None => None
          end
        | _, _ => Some []
        end
    end.

(** ** The source *)

Variable g : GraphSnapshot.

Definition at_index (i : nat) : list NodeValue := some_list (gs_nodes g !! i).

(** The indices not seen before, and their nodes. *)
Definition fresh_nodes (indices : list nat) : list NodeValue :=
  concat (List.map at_index ((fix go (seen : gset nat) (l : list nat) := match l with
    | [] => []
    | i :: l => if bool_decide (i ∈ seen) then go seen l else i :: go ({[i]} ∪ seen) l
    end) ∅ indices)).

Definition indices_at {K : Type} `{Countable K} (m : gmap K (list nat)) (k : K) : list nat := match m !! k with Some l => l | None => [] end.

Definition snapshot_by_labels (labels : list bytes) : list NodeValue :=
  match labels with
  | [] => gs_nodes g
  | first :: rest => List.filter (has_labels rest) (concat (List.map at_index (indices_at (by_label g) first)))
  end.

Definition snapshot_node (id : bytes) : option NodeValue := match by_id g !! id with Some i => gs_nodes g !! i | None => None end.

Definition snapshot_incident (index : nat) (node : bytes) (types : list bytes) : list (RelValue * NodeValue) :=
  match gs_rels g !! index with
  | None => []
  | Some r =>
    if negb (type_wanted types r) then []
    else
      match neighbour_of node DUndirected r with
      | Some id => match snapshot_node id with Some n => [(r, n)] | None => [] end
      | None => []
      end
  end.

Definition starts_at (node : bytes) (index : nat) : bool := match gs_rels g !! index with Some r => bool_decide (rv_start r = node) | None => false end.

Definition snapshot_expand (node : bytes) (direction : CypherExpr.Direction) (types : list bytes) : list (RelValue * NodeValue) :=
  let visit i := snapshot_incident i node types in
  let leaving := concat (List.map visit (indices_at (rels_out g) node)) in
  let entering (keep : nat -> bool) := concat (List.map visit (List.filter keep (indices_at (rels_in g) node))) in
  match direction with
  | DOut => leaving
  | DIn => entering (fun _ => true)
  | DUndirected => leaving ++ entering (fun i => negb (starts_at node i))
  end.

Definition snapshot_by_key (label : bytes) (values : list value) : option (list NodeValue) :=
  match cartesian_probes values with
  | None => None
  | Some probes =>
    if existsb (fun probe => bool_decide (is_Some (by_key g !! (label, probe)))) probes
    then Some (fresh_nodes (concat (List.map (fun probe => indices_at (by_key g) (label, probe)) probes)))
    else None
  end.

Definition snapshot_by_index (name : bytes) (properties : list bytes) (values : list value) : option (list NodeValue) :=
  if negb (bool_decide (index_properties g !! name = Some properties)) || negb (length values =? length properties)%nat then None
  else
    match by_index g !! name with
    | None => None
    | Some map =>
      match cartesian_probes values with
      | None => None
      | Some probes => Some (fresh_nodes (concat (List.map (indices_at map) probes)))
      end
    end.

Definition bound_key (b : Bound) (open : bytes) : bytes := match b with Included k | Excluded k => k | Unbounded => open end.
Definition exclusive (b : Bound) : bool := match b with Excluded _ => true | _ => false end.

(** An inverted or an empty range, which [BTreeMap::range] would refuse. *)
Definition empty_range (r : ByteRange) : bool :=
  let start := bound_key r.1 [] in
  let finish := bound_key r.2 [xff] in
  bytes_ltb finish start || (bool_decide (start = finish) && (exclusive r.1 || exclusive r.2)).

Definition lower_admits (b : Bound) (k : bytes) : bool := match b with Included e => bytes_leb e k | Excluded e => bytes_ltb e k | Unbounded => true end.
Definition upper_admits (b : Bound) (k : bytes) : bool := match b with Included e => bytes_leb k e | Excluded e => bytes_ltb k e | Unbounded => true end.
Definition range_admits (r : ByteRange) (k : bytes) : bool := lower_admits r.1 k && upper_admits r.2 k.

(** The indices of the keys in a range, in key order. *)
Definition range_indices (map : gmap bytes (list nat)) (r : ByteRange) : list nat :=
  if empty_range r then []
  else concat (List.map (indices_at map) (List.filter (range_admits r) (merge_sort bytes_le (List.map fst (map_to_list map))))).

Definition snapshot_by_index_range (name property : bytes) (lower upper : bound) : option (list NodeValue) :=
  match index_properties g !! name with
  | Some [declared] =>
    if negb (bool_decide (declared = property)) then None
    else
      match by_index g !! name with
      | None => None
      | Some map =>
        match range_families lower upper with
        | None => None
        | Some ranges => Some (fresh_nodes (concat (List.map (range_indices map) ranges)))
        end
      end
  | _ => None
  end.

Definition snapshot_source : GraphSource :=
  mkSource (gs_nodes g) snapshot_by_labels snapshot_by_index snapshot_by_index_range snapshot_by_key snapshot_expand snapshot_node (fun _ => None).
End adapter.
