(* ===== verification/CypherSeek.v ===== *)
(** * Seeks answer every node they are asked for

    The probes of a pin are the encodings of all values equal to it, and the
    byte ranges of a bound hold the encodings of all values it admits; so a
    seek on the materialised snapshot leaves out no node a scan would find.
    For booleans and lists, the ranges do lose values. *)
From Stdlib Require Import SpecFloat.
From S2P Require Import Prelude Ieee Model Keys KeysOrder Canonical Records GraphKeys Schema Scan CypherValue CypherCompare CypherDistinct CypherExpr CypherSource CypherOps CypherFunctions CypherAdapter.
Open Scope Z_scope.

(** ** Floats by their value *)

Definition UNIT : Z := 2 ^ 1074.
Definition TOP : Z := 2 ^ 2098.

(** The value of a float in units of the least denormal; an infinity is above all. *)
Definition scaled (x : spec_float) : Z :=
  match x with
  | S754_zero _ | S754_nan => 0
  | S754_infinity s => if s then - TOP else TOP
  | S754_finite s m e => let v := Zpos m * 2 ^ (e + 1074) in if s then - v else v
  end.

Lemma pow_split a b : 0 <= a -> 0 <= b -> 2 ^ (a + b) = 2 ^ a * 2 ^ b.
Proof. intros. by apply Z.pow_add_r. Qed.
Lemma pow_pos a : 0 <= a -> 0 < 2 ^ a.
Proof. intros. by apply Z.pow_pos_nonneg. Qed.

(** A finite float below another in the order of exponents and significands. *)
Definition finite_valid (m : positive) (e : Z) : Prop := (2 ^ 52 <= Zpos m < 2 ^ 53 /\ -1074 <= e <= 971) \/ (Zpos m < 2 ^ 52 /\ e = -1074).

Lemma finite_lt m e m' e' : finite_valid m e -> finite_valid m' e' -> e < e' -> Zpos m * 2 ^ (e + 1074) < Zpos m' * 2 ^ (e' + 1074).
Proof.
  intros H H' He. assert (2 ^ 52 <= Zpos m' /\ Zpos m < 2 ^ 53 /\ -1074 <= e) as (H1 & H2 & H3).
  { destruct H as [?|[? ->]], H' as [?|[? ->]]; repeat split; try lia. }
  pose proof (pow_pos (e + 1074) ltac:(lia)). pose proof (pow_pos (e' - e - 1) ltac:(lia)).
  replace (e' + 1074) with ((e' - e - 1) + ((e + 1074) + 1)) by lia.
  rewrite (pow_split (e' - e - 1)), (pow_split (e + 1074) 1) by lia. change (2 ^ 1) with 2.
  set (p := 2 ^ (e + 1074)) in *. set (q := 2 ^ (e' - e - 1)) in *.
  apply Z.lt_le_trans with (2 * Zpos m' * p); [apply Z.mul_lt_mono_pos_r; lia|]. replace (Zpos m' * (q * (p * 2))) with (2 * Zpos m' * p * q) by ring. assert (0 < 2 * Zpos m' * p) by (apply Z.mul_pos_pos; lia). nia.
Qed.
Lemma finite_cmp m e m' e' : finite_valid m e -> finite_valid m' e' ->
  (Zpos m * 2 ^ (e + 1074) ?= Zpos m' * 2 ^ (e' + 1074)) = match e ?= e' with Eq => Zpos m ?= Zpos m' | c => c end.
Proof.
  intros H H'. destruct (Z.compare_spec e e') as [->|Hlt|Hlt].
  - assert (0 < 2 ^ (e' + 1074)) by (apply pow_pos; destruct H' as [?|[_ ->]]; lia).
    destruct (Z.compare_spec (Zpos m) (Zpos m')) as [->|?|?]; [apply Z.compare_refl|apply Z.compare_lt_iff; nia|apply Z.compare_gt_iff; nia].
  - apply Z.compare_lt_iff. by apply finite_lt.
  - apply Z.compare_gt_iff. by apply finite_lt.
Qed.
Lemma finite_range m e : finite_valid m e -> 0 < Zpos m * 2 ^ (e + 1074) < TOP.
Proof.
  intros H. assert (Zpos m < 2 ^ 53 /\ -1074 <= e <= 971) as [Hm He] by (destruct H as [?|[? ->]]; lia).
  pose proof (pow_pos (e + 1074) ltac:(lia)). split; [lia|]. unfold TOP. replace 2098 with (53 + ((971 - e) + (e + 1074))) by lia. rewrite (pow_split 53), (pow_split (971 - e)) by lia.
  pose proof (pow_pos (971 - e) ltac:(lia)). nia.
Qed.

Lemma scaled_compare x y : f64_valid x = true -> f64_valid y = true -> f64_nan x = false -> f64_nan y = false -> SFcompare x y = Some (scaled x ?= scaled y).
Proof.
  intros Vx Vy Nx Ny. assert (0 < TOP) by (by apply pow_pos).
  destruct x as [sx|sx| |sx mx ex], y as [sy|sy| |sy my ey]; try done; try (apply f64_valid_finite in Vx; fold (finite_valid mx ex) in Vx; pose proof (finite_range _ _ Vx));
    try (apply f64_valid_finite in Vy; fold (finite_valid my ey) in Vy; pose proof (finite_range _ _ Vy)); cbn [scaled SFcompare].
  all: try (pose proof (finite_cmp _ _ _ _ Vx Vy) as Hc; destruct sx, sy; f_equal; symmetry; [|apply Z.compare_lt_iff; lia|apply Z.compare_gt_iff; lia|];
    [rewrite opp_compare|]; rewrite Hc; by destruct (ex ?= ey)).
  all: try destruct sx; try destruct sy; f_equal; symmetry; (apply Z.compare_eq_iff || apply Z.compare_lt_iff || apply Z.compare_gt_iff); lia.
Qed.

(** ** The total order of bits *)

Lemma compare_like a b c d : (a < b <-> c < d) -> (b < a <-> d < c) -> (a ?= b) = (c ?= d).
Proof. intros H1 H2. destruct (Z.compare_spec a b), (Z.compare_spec c d); done || lia. Qed.

Lemma finite_magnitude m e m' e' s s' : finite_valid m e -> finite_valid m' e' ->
  (magnitude_bits (S754_finite s m e) ?= magnitude_bits (S754_finite s' m' e')) = (Zpos m * 2 ^ (e + 1074) ?= Zpos m' * 2 ^ (e' + 1074)).
Proof.
  intros H H'. rewrite finite_cmp by done. cbn [magnitude_bits].
  destruct (Z.ltb_spec (Zpos m) (2 ^ 52)) as [L|L], (Z.ltb_spec (Zpos m') (2 ^ 52)) as [L'|L'];
    destruct H as [[? ?]|[? ?]], H' as [[? ?]|[? ?]]; try lia; destruct (Z.compare_spec e e') as [?|?|?]; try lia;
    try (apply compare_like; lia); apply Z.compare_lt_iff || apply Z.compare_gt_iff; lia.
Qed.
Lemma finite_magnitude_range m e s : finite_valid m e -> 0 < magnitude_bits (S754_finite s m e) < 2047 * 2 ^ 52.
Proof. intros H. cbn [magnitude_bits]. destruct (Z.ltb_spec (Zpos m) (2 ^ 52)); destruct H as [[? ?]|[? ?]]; lia. Qed.

(** The bits of a float in the order of [total_cmp], zeros made one. *)
Definition bits_key (x : spec_float) : Z :=
  match x with S754_zero _ => 0 | _ => if f64_sign x then -1 - magnitude_bits x else magnitude_bits x end.

Lemma bits_u64 x : f64_valid x = true -> is_u64 (f64_bits x) = true.
Proof. intros H. apply in_range_spec. rewrite f64_bits_parts. pose proof (magnitude_range x H). destruct (f64_sign x); lia. Qed.

Lemma bits_zero x : f64_valid x = true -> f64_is_zero (f64_bits x) = match x with S754_zero _ => true | _ => false end.
Proof.
  intros H. unfold f64_is_zero, f64_abs. rewrite Z.land_ones by lia. rewrite f64_bits_parts. pose proof (magnitude_range x H).
  replace (((if f64_sign x then 2 ^ 63 else 0) + magnitude_bits x) mod 2 ^ 63) with (magnitude_bits x).
  - destruct x as [s|s| |s m e]; try done. apply f64_valid_finite in H. fold (finite_valid m e) in H. pose proof (finite_magnitude_range m e s H). apply Z.eqb_neq. lia.
  - destruct (f64_sign x); [|by rewrite Z.mod_small]. rewrite <-(Z.mul_1_l (2 ^ 63)) at 1. by rewrite Z.add_comm, Z.mod_add, Z.mod_small by lia.
Qed.

Lemma total_key_bits x : f64_valid x = true -> total_key (normalise_zero (f64_bits x)) = bits_key x.
Proof.
  intros H. unfold normalise_zero. rewrite bits_zero by done. pose proof (magnitude_range x H) as Hm. pose proof (bits_u64 x H) as Hu.
  destruct x as [s|s| |s m e]; [done|..]; rewrite total_key_spec, f64_bits_parts by done; unfold SIGN_BIT, bits_key;
    match goal with |- (if ?a <? ?b then _ else _) = _ => destruct (Z.ltb_spec a b) end; destruct (f64_sign _); lia.
Qed.

Lemma bits_order x y : f64_valid x = true -> f64_valid y = true -> f64_nan x = false -> f64_nan y = false ->
  total_cmp (normalise_zero (f64_bits x)) (normalise_zero (f64_bits y)) = (scaled x ?= scaled y).
Proof.
  intros Vx Vy Nx Ny. unfold total_cmp. rewrite !total_key_bits by done. assert (0 < TOP) by (by apply pow_pos).
  destruct x as [sx|sx| |sx mx ex], y as [sy|sy| |sy my ey]; try done; unfold bits_key; cbn [scaled f64_sign];
    try (apply f64_valid_finite in Vx; fold (finite_valid mx ex) in Vx; pose proof (finite_range _ _ Vx); pose proof (finite_magnitude_range mx ex sx Vx));
    try (apply f64_valid_finite in Vy; fold (finite_valid my ey) in Vy; pose proof (finite_range _ _ Vy); pose proof (finite_magnitude_range my ey sy Vy)).
  all: try (pose proof (finite_magnitude _ _ _ _ sx sy Vx Vy) as Hc).
  all: try (set (a := magnitude_bits (S754_finite sx mx ex)) in *; clearbody a).
  all: try (set (b := magnitude_bits (S754_finite sy my ey)) in *; clearbody b).
  all: try (destruct (Z.compare_spec a b); symmetry in Hc; (rewrite Z.compare_eq_iff in Hc || rewrite Z.compare_lt_iff in Hc || rewrite Z.compare_gt_iff in Hc)).
  all: apply compare_like; cbn [magnitude_bits]; try destruct sx; try destruct sy; lia.
Qed.

(** ** Integers as floats *)

Lemma big_magnitude n : 2 ^ 53 <= n < 2 ^ 64 -> exists m e, f64_of_magnitude n = (m, e) /\ 2 ^ 52 <= m < 2 ^ 53 /\ 1 <= e <= 12.
Proof.
  intros Hn. pose proof (Z.log2_spec n ltac:(lia)) as Hl.
  assert (53 <= Z.log2 n) as H53 by (apply Z.log2_le_pow2; lia). assert (Z.log2 n < 64) as H64 by (apply Z.log2_lt_pow2; lia).
  unfold f64_of_magnitude. destruct (Z.leb_spec (Z.log2 n) 52); [lia|]. set (shift := Z.log2 n - 52).
  assert (2 ^ 52 <= n / 2 ^ shift < 2 ^ 53) as Hq.
  { pose proof (pow_pos shift ltac:(lia)). split; [apply Z.div_le_lower_bound; [done|]|apply Z.div_lt_upper_bound; [done|]].
    - rewrite <-pow_split by lia. replace (shift + 52) with (Z.log2 n) by lia. lia.
    - rewrite <-pow_split by lia. replace (shift + 53) with (Z.succ (Z.log2 n)) by lia. lia. }
  set (q' := if _ || _ then _ else _). assert (2 ^ 52 <= q' <= 2 ^ 53) as Hq' by (unfold q'; case_match; lia).
  destruct (Z.eqb_spec q' (2 ^ 53)); eexists _, _; (split; [reflexivity|]); unfold shift; lia.
Qed.

Lemma scaled_exact n : exact_int n = true -> scaled (f64_of_i64 n) = n * UNIT.
Proof.
  intros Hn. unfold exact_int in Hn. apply Z.ltb_lt in Hn. unfold f64_of_i64. destruct (Z.eqb_spec n 0) as [->|Hne]; [done|].
  destruct (exact_magnitude (Z.abs n) ltac:(lia)) as (-> & Hl & _). set (l := Z.log2 (Z.abs n)) in *. pose proof (pow_pos (52 - l) ltac:(lia)).
  cbn [scaled]. rewrite Z2Pos.id by nia. unfold UNIT. replace 1074 with ((52 - l) + (l - 52 + 1074)) at 3 by lia. rewrite (pow_split (52 - l)) by lia.
  destruct (Z.ltb_spec n 0); [rewrite Z.abs_neq by lia|rewrite Z.abs_eq by lia]; ring.
Qed.

Lemma of_i64_valid n : Z.abs n < 2 ^ 64 -> f64_valid (f64_of_i64 n) = true.
Proof.
  intros Hn. destruct (exact_int n) eqn:E; [by apply exact_int_float|]. unfold exact_int in E. apply Z.ltb_ge in E.
  unfold f64_of_i64. destruct (Z.eqb_spec n 0); [done|]. destruct (big_magnitude (Z.abs n)) as (m & e & -> & Hm & He); [lia|].
  cbn [f64_valid]. rewrite Z2Pos.id by lia. rewrite orb_true_iff, !andb_true_iff, !Z.leb_le, !Z.ltb_lt. lia.
Qed.

Lemma scaled_big n : 2 ^ 53 <= Z.abs n < 2 ^ 64 ->
  fract_is_zero (f64_of_i64 n) = true /\ (0 < n -> 2 ^ 53 * UNIT <= scaled (f64_of_i64 n)) /\ (n < 0 -> scaled (f64_of_i64 n) <= - 2 ^ 53 * UNIT).
Proof.
  intros Hn. unfold f64_of_i64. destruct (Z.eqb_spec n 0); [lia|]. destruct (big_magnitude (Z.abs n) Hn) as (m & e & -> & Hm & He).
  unfold fract_is_zero. cbn [f64_integer scaled]. rewrite Z2Pos.id by lia. destruct (Z.leb_spec 0 e); [|lia]. split; [done|].
  assert (2 ^ 53 * UNIT <= m * 2 ^ (e + 1074)) as Hle.
  { unfold UNIT. rewrite (pow_split e 1074) by lia. assert (2 <= 2 ^ e) by (change 2 with (2 ^ 1) at 1; apply Z.pow_le_mono_r; lia).
    pose proof (pow_pos 1074 ltac:(lia)). set (u := 2 ^ 1074) in *. rewrite Z.mul_assoc. apply Z.mul_le_mono_nonneg_r; [lia|]. nia. }
  destruct (Z.ltb_spec n 0); split; lia.
Qed.

(** The value of a float, its floor and its ceiling. *)
Definition small (x : spec_float) : Prop := f64_valid x = true /\ f64_nan x = false /\ Z.abs (scaled x) < 2 ^ 53 * UNIT.

Lemma UNIT_pos : 0 < UNIT.
Proof. by apply pow_pos. Qed.

Lemma limit_scaled : scaled F64_EXACT_INT_LIMIT = 2 ^ 53 * UNIT.
Proof. unfold F64_EXACT_INT_LIMIT, UNIT. cbn [f64_of_i64]. vm_compute. reflexivity. Qed.

Lemma scaled_abs x : scaled (SFabs x) = Z.abs (scaled x).
Proof.
  destruct x as [s|s| |s m e]; cbn [SFabs scaled]; [done| |done|].
  - pose proof (pow_pos 2098 ltac:(lia)). destruct s; unfold TOP; lia.
  - assert (0 <= Zpos m * 2 ^ (e + 1074)) by (apply Z.mul_nonneg_nonneg; [lia|apply Z.pow_nonneg; lia]). destruct s; lia.
Qed.
Lemma abs_valid x : f64_valid (SFabs x) = f64_valid x /\ f64_nan (SFabs x) = f64_nan x.
Proof. by destruct x. Qed.

Lemma f64_ge_scaled x y : f64_valid x = true -> f64_valid y = true -> f64_nan x = false -> f64_nan y = false -> f64_ge x y = (scaled y <=? scaled x).
Proof. intros. unfold f64_ge. rewrite scaled_compare by done. destruct (Z.compare_spec (scaled x) (scaled y)); symmetry; [apply Z.leb_le|apply Z.leb_gt|apply Z.leb_le]; lia. Qed.

(** The bail on a large bound. *)
Lemma small_spec x : f64_valid x = true -> f64_nan x = false -> f64_ge (SFabs x) F64_EXACT_INT_LIMIT = false -> small x.
Proof.
  intros Hv Hn H. destruct (abs_valid x) as [Ha Hb]. rewrite f64_ge_scaled in H; [|by rewrite Ha|done|by rewrite Hb|done].
  apply Z.leb_gt in H. rewrite limit_scaled, scaled_abs in H. done.
Qed.

Lemma integral_scaled x k : f64_valid x = true -> f64_integer x = Some k -> scaled x = k * UNIT.
Proof.
  intros Hv H. destruct x as [s|s| |s m e]; try done; cbn [f64_integer scaled] in *; [injection H as <-; lia|]. apply f64_valid_finite in Hv.
  assert (-1074 <= e) as He1 by (destruct Hv as [?|[_ ->]]; lia). unfold UNIT. destruct (Z.leb_spec 0 e) as [He|He].
  - injection H as <-. rewrite (pow_split e 1074) by lia. destruct s; ring.
  - destruct (Z.eqb_spec (Zpos m mod 2 ^ (- e)) 0) as [Hz|]; [|done]. injection H as <-. pose proof (pow_pos (- e) ltac:(lia)).
    pose proof (Z.div_mod (Zpos m) (2 ^ (- e)) ltac:(lia)) as Hd. rewrite Hz, Z.add_0_r in Hd.
    assert (2 ^ 1074 = 2 ^ (- e) * 2 ^ (e + 1074)) as -> by (rewrite <-pow_split by lia; f_equal; lia). set (q := Zpos m / 2 ^ (- e)) in *. clearbody q. rewrite Hd. destruct s; ring.
Qed.

Lemma integral_to_i64 x k : f64_integer x = Some k -> - 2 ^ 63 <= k < 2 ^ 63 -> f64_to_i64 x = k.
Proof.
  intros H Hk. destruct x as [s|s| |s m e]; try done; cbn [f64_integer f64_to_i64] in *; [by injection H as <-|].
  destruct (Z.leb_spec 0 e); [injection H as <-; destruct s; lia|]. destruct (_ =? 0); [|done]. injection H as <-. destruct s; lia.
Qed.

Lemma signed_to_i64 s q : 0 <= q < 2 ^ 53 -> f64_to_i64 (f64_signed s q) = if s then - q else q.
Proof.
  intros Hq. unfold f64_signed. destruct (Z.eqb_spec q 0) as [->|]; [by destruct s|].
  apply integral_to_i64; [|destruct s; lia]. apply exact_int_float. apply Z.ltb_lt. destruct s; lia.
Qed.

(** A float that is no integer lies between two. *)
Lemma fractional x : f64_valid x = true -> small x -> fract_is_zero x = false ->
  exists s m e q r, x = S754_finite s m e /\ e < 0 /\ -1074 <= e /\ q = Zpos m / 2 ^ (- e) /\ r = Zpos m mod 2 ^ (- e) /\ 0 <= q < 2 ^ 52 /\ 0 < r < 2 ^ (- e) /\
    scaled x = (if s then -1 else 1) * (q * UNIT + r * 2 ^ (e + 1074)) /\ r * 2 ^ (e + 1074) < UNIT /\ 0 < r * 2 ^ (e + 1074).
Proof.
  intros Hv (_ & Hn & Hs) Hf. assert (0 < 2 ^ 53 * UNIT < TOP) as HT.
  { unfold UNIT, TOP. split; [apply Z.mul_pos_pos; by apply pow_pos|]. rewrite <-pow_split by lia. apply Z.pow_lt_mono_r; lia. }
  destruct x as [s|s| |s m e]; try done; [cbn [scaled] in Hs; destruct s; lia|]. unfold fract_is_zero in Hf. cbn [f64_integer] in Hf.
  apply f64_valid_finite in Hv. destruct (Z.leb_spec 0 e) as [He|He]; [done|]. pose proof (pow_pos (- e) ltac:(lia)) as Hp.
  destruct (Z.eqb_spec (Zpos m mod 2 ^ (- e)) 0) as [|Hr]; [done|]. exists s, m, e, (Zpos m / 2 ^ (- e)), (Zpos m mod 2 ^ (- e)).
  assert (-1074 <= e /\ Zpos m < 2 ^ 53) as [He1 Hm] by (destruct Hv as [?|[? ->]]; lia).
  pose proof (Z.mod_pos_bound (Zpos m) (2 ^ (- e)) Hp) as Hb. pose proof (Z.div_mod (Zpos m) (2 ^ (- e)) ltac:(lia)) as Hd.
  pose proof (pow_pos (e + 1074) ltac:(lia)) as Hu. assert (UNIT = 2 ^ (- e) * 2 ^ (e + 1074)) as HU by (unfold UNIT; rewrite <-pow_split by lia; f_equal; lia).
  set (q := Zpos m / 2 ^ (- e)) in *. set (r := Zpos m mod 2 ^ (- e)) in *. repeat split; try done; try lia.
  - apply Z.div_pos; lia.
  - apply Z.div_lt_upper_bound; [done|]. assert (2 <= 2 ^ (- e)) by (change 2 with (2 ^ 1) at 1; apply Z.pow_le_mono_r; lia). nia.
  - cbn [scaled]. rewrite HU, Hd. destruct s; ring.
  - rewrite HU. apply Z.mul_lt_mono_pos_r; lia.
Qed.

Lemma ceil_spec x : f64_valid x = true -> small x -> fract_is_zero x = false -> let c := f64_to_i64 (f64_ceil x) in exact_int c = true /\ (c - 1) * UNIT < scaled x < c * UNIT.
Proof.
  intros Hv Hs Hf. destruct (fractional x Hv Hs Hf) as (s & m & e & q & r & -> & He & He1 & Hq & Hr & Hq1 & Hr1 & -> & Hlt & Hpos).
  unfold f64_ceil, f64_round_by. destruct (Z.leb_spec 0 e); [lia|]. rewrite <-Hq, <-Hr. cbv zeta. rewrite (proj2 (Z.eqb_neq r 0)) by lia. cbn [negb]. rewrite andb_true_r.
  rewrite signed_to_i64 by (destruct s; cbn [negb]; lia). unfold exact_int. rewrite Z.ltb_lt. destruct s; cbn [negb]; lia.
Qed.
Lemma floor_spec x : f64_valid x = true -> small x -> fract_is_zero x = false -> let c := f64_to_i64 (f64_floor x) in exact_int c = true /\ c * UNIT < scaled x < (c + 1) * UNIT.
Proof.
  intros Hv Hs Hf. destruct (fractional x Hv Hs Hf) as (s & m & e & q & r & -> & He & He1 & Hq & Hr & Hq1 & Hr1 & -> & Hlt & Hpos).
  unfold f64_floor, f64_round_by. destruct (Z.leb_spec 0 e); [lia|]. rewrite <-Hq, <-Hr. cbv zeta. rewrite (proj2 (Z.eqb_neq r 0)) by lia. cbn [negb]. rewrite andb_true_r.
  rewrite signed_to_i64 by (destruct s; lia). unfold exact_int. rewrite Z.ltb_lt. destruct s; lia.
Qed.

(** ** Encodings in order *)

Lemma encode_one v e : write_element v 0 = Ok e -> encode_key [v] = Ok e.
Proof. intros H. unfold encode_key, encode_key_into. cbn [write_all]. rewrite H. cbn [rbind]. by rewrite app_nil_r. Qed.

Definition int_code (n : Z) : bytes := TAG_INT :: flip_sign_i64 n.
Definition float_key_code (x : spec_float) : bytes := TAG_FLOAT :: write_float (f64_bits x).
Definition string_code (s : bytes) : bytes := TAG_STRING :: write_chunked s.

Lemma bits_nan x : f64_valid x = true -> f64_nan x = false -> f64_is_nan (f64_bits x) = false.
Proof.
  intros Hv Hn. unfold f64_is_nan, f64_abs. rewrite Z.land_ones by lia. rewrite f64_bits_parts. pose proof (magnitude_range x Hv).
  assert (((if f64_sign x then 2 ^ 63 else 0) + magnitude_bits x) mod 2 ^ 63 = magnitude_bits x) as ->.
  { destruct (f64_sign x); [|by rewrite Z.mod_small]. rewrite <-(Z.mul_1_l (2 ^ 63)) at 1. by rewrite Z.add_comm, Z.mod_add, Z.mod_small by lia. }
  apply Z.ltb_ge. unfold F64_INF. destruct x as [s|s| |s m e]; try done. apply f64_valid_finite in Hv. fold (finite_valid m e) in Hv. pose proof (finite_magnitude_range m e s Hv). lia.
Qed.

Lemma encode_model_int n : encode_model_value (VInt n) = Some (int_code n).
Proof. unfold encode_model_value. by rewrite (encode_one _ (int_code n)). Qed.
Lemma encode_model_float x : f64_valid x = true -> encode_model_value (VFloat (f64_bits x)) = if f64_nan x then None else Some (float_key_code x).
Proof.
  intros Hv. unfold encode_model_value. destruct (f64_nan x) eqn:En.
  - by destruct x.
  - rewrite (encode_one _ (float_key_code x)); [done|]. cbn [write_element]. by rewrite bits_nan.
Qed.
Lemma encode_model_string s : encode_model_value (VString s) = Some (string_code s).
Proof. unfold encode_model_value. by rewrite (encode_one _ (string_code s)). Qed.

Lemma int_code_cmp m n : is_i64 m = true -> is_i64 n = true -> bytes_cmp (int_code m) (int_code n) = (m ?= n).
Proof. intros Hm Hn. apply frames_cmp, frames_tag. by apply frames_i64. Qed.
Lemma float_code_cmp x y : f64_valid x = true -> f64_valid y = true -> f64_nan x = false -> f64_nan y = false ->
  bytes_cmp (float_key_code x) (float_key_code y) = (scaled x ?= scaled y).
Proof. intros Vx Vy Nx Ny. rewrite <-bits_order by done. apply frames_cmp, frames_tag, frames_float; by apply bits_u64. Qed.
Lemma string_code_cmp s t : bytes_cmp (string_code s) (string_code t) = bytes_cmp s t.
Proof. apply frames_cmp, frames_tag, frames_chunked. Qed.

(** ** Values and bounds *)

(** What the runtime makes: an [i64] or a binary64. *)
Definition machine (v : value) : bool := match v with CInt n => is_i64 n | CFloat x => f64_valid x | _ => true end.

Section seek.
Context {std : Std}.
Abbreviation render := (render_stored std_debug_value).
Abbreviation eq3 := (eq3 std_debug_value).
Abbreviation cmp3 := (cmp3 std_debug_value).

Definition string_of (v : value) : option bytes := match v with CString s => Some s | CStored mv => Some (render mv) | _ => None end.

Lemma encode_string_of v s : string_of v = Some s -> encode_index_value v = Some (string_code s).
Proof. destruct v; try done; cbn [string_of]; intros [= <-]; unfold encode_index_value, model_value_of; cbn [model_value_of_at Nat.leb]; apply encode_model_string. Qed.
Lemma encode_int_value n : encode_index_value (CInt n) = Some (int_code n).
Proof. unfold encode_index_value, model_value_of. cbn [model_value_of_at]. apply encode_model_int. Qed.
Lemma encode_float_value x : f64_valid x = true -> encode_index_value (CFloat x) = if f64_nan x then None else Some (float_key_code x).
Proof. unfold encode_index_value, model_value_of. cbn [model_value_of_at]. apply encode_model_float. Qed.

(** A lower bound and an upper bound admit a value. *)
Definition above (b : option (value * bool)) (v : value) : Prop :=
  match b with None => True | Some (w, inclusive) => cmp3 v w = Some Gt \/ inclusive = true /\ cmp3 v w = Some Eq end.
Definition below (b : option (value * bool)) (v : value) : Prop :=
  match b with None => True | Some (w, inclusive) => cmp3 v w = Some Lt \/ inclusive = true /\ cmp3 v w = Some Eq end.

(** ** The integers *)

Lemma int_at_least m j : is_i64 m = true -> - 2 ^ 53 < j <= 2 ^ 53 -> (j - 1) * UNIT < scaled (f64_of_i64 m) -> j <= m.
Proof.
  intros Hm%in_range_spec Hj H. pose proof UNIT_pos. destruct (exact_int m) eqn:E; [rewrite scaled_exact in H by done; nia|].
  apply Z.ltb_ge in E. destruct (scaled_big m ltac:(lia)) as (_ & _ & Hneg). destruct (Z.le_gt_cases 0 m); [lia|]. specialize (Hneg ltac:(lia)). nia.
Qed.
Lemma int_at_most m j : is_i64 m = true -> - 2 ^ 53 <= j < 2 ^ 53 -> scaled (f64_of_i64 m) < (j + 1) * UNIT -> m <= j.
Proof.
  intros Hm%in_range_spec Hj H. pose proof UNIT_pos. destruct (exact_int m) eqn:E; [rewrite scaled_exact in H by done; nia|].
  apply Z.ltb_ge in E. destruct (scaled_big m ltac:(lia)) as (_ & Hpos & _). destruct (Z.le_gt_cases m 0); [lia|]. specialize (Hpos ltac:(lia)). nia.
Qed.

Lemma integral_small x : f64_valid x = true -> small x -> fract_is_zero x = true -> exact_int (f64_to_i64 x) = true /\ scaled x = f64_to_i64 x * UNIT.
Proof.
  intros Hv (_ & _ & Hs) Hf. unfold fract_is_zero in Hf. destruct (f64_integer x) as [k|] eqn:Ek; [|done]. pose proof (integral_scaled x k Hv Ek) as E. pose proof UNIT_pos.
  rewrite E in Hs. assert (Z.abs k < 2 ^ 53) by nia. rewrite (integral_to_i64 x k Ek) by lia. split; [by apply Z.ltb_lt|done].
Qed.

Lemma leb_code a b : bytes_cmp a b <> Gt -> bytes_leb a b = true.
Proof. intros H. by apply bytes_leb_le. Qed.
Lemma ltb_code a b : bytes_cmp a b = Lt -> bytes_ltb a b = true.
Proof. unfold bytes_ltb. by intros ->. Qed.

Lemma cmp3_int_float m x : cmp3 (CInt m) (CFloat x) = SFcompare (f64_of_i64 m) x.
Proof. done. Qed.

Lemma int_lower b start m : match b with Some (w, _) => numeric w = true /\ machine w = true | None => True end -> degenerate b = false -> is_i64 m = true ->
  int_bound b (Included [TAG_INT]) 1 f64_ceil = Some start -> above b (CInt m) -> lower_admits start (int_code m) = true.
Proof.
  intros Hb Hd Hm Hs Ha. pose proof UNIT_pos. assert (Z.abs m < 2 ^ 64) as Hm' by (apply in_range_spec in Hm; lia).
  assert (forall j, is_i64 j = true -> j <= m -> lower_admits (Included (int_code j)) (int_code m) = true) as Hle.
  { intros j Hj Hjm. apply leb_code. rewrite int_code_cmp by done. by apply Z.compare_le_iff. }
  destruct b as [[w inclusive]|]; [|injection Hs as <-; done]. destruct Hb as [Hn Hw]. destruct w as [| |n|x| | | | | | |]; try done; cbn [int_bound] in Hs.
  - rewrite encode_model_int in Hs. cbn [above] in Ha. destruct inclusive; injection Hs as <-.
    + apply Hle; [done|]. destruct Ha as [Ha|[_ Ha]]; injection Ha as Ha; [apply Z.compare_gt_iff in Ha|apply Z.compare_eq_iff in Ha]; lia.
    + apply ltb_code. rewrite int_code_cmp by done. destruct Ha as [Ha|[]]; [|done]. injection Ha as Ha. by rewrite Z.compare_antisym, Ha.
  - cbn [machine degenerate] in Hw, Hd. destruct (f64_ge _ _) eqn:Eg; [done|]. pose proof (small_spec x Hw Hd Eg) as Hsm. unfold int_endpoint in Hs.
    cbn [above] in Ha. rewrite cmp3_int_float, scaled_compare in Ha by (by apply of_i64_valid || done || apply f64_of_i64_nan).
    destruct (fract_is_zero x) eqn:Ef.
    + destruct (integral_small x Hw Hsm Ef) as [Hk Ex]. set (k := f64_to_i64 x) in *. apply Z.ltb_lt in Hk. rewrite Ex in Ha. destruct inclusive.
      * rewrite encode_model_int in Hs. injection Hs as <-. apply Hle; [apply in_range_spec; lia|]. apply int_at_least; [done|lia|].
        destruct Ha as [[= Ha]|[_ [= Ha]]]; [rewrite Z.compare_gt_iff in Ha|rewrite Z.compare_eq_iff in Ha]; nia.
      * unfold checked_i64 in Hs. destruct (_ && _); [|done]. rewrite encode_model_int in Hs. injection Hs as <-. apply Hle; [apply in_range_spec; lia|]. apply int_at_least; [done|lia|].
        destruct Ha as [[= Ha]|[]]; [|done]. rewrite Z.compare_gt_iff in Ha. replace (k + 1 - 1) with k by lia. done.
    + destruct (ceil_spec x Hw Hsm Ef) as [Hk Ex]. set (k := f64_to_i64 (f64_ceil x)) in *. apply Z.ltb_lt in Hk. rewrite encode_model_int in Hs. injection Hs as <-.
      apply Hle; [apply in_range_spec; lia|]. apply int_at_least; [done|lia|].
      destruct Ha as [[= Ha]|[_ [= Ha]]]; [rewrite Z.compare_gt_iff in Ha|rewrite Z.compare_eq_iff in Ha]; lia.
Qed.

Lemma int_upper b finish m : match b with Some (w, _) => numeric w = true /\ machine w = true | None => True end -> degenerate b = false -> is_i64 m = true ->
  int_bound b (Excluded [TAG_FLOAT]) (-1) f64_floor = Some finish -> below b (CInt m) -> upper_admits finish (int_code m) = true.
Proof.
  intros Hb Hd Hm Hs Ha. pose proof UNIT_pos. assert (Z.abs m < 2 ^ 64) as Hm' by (apply in_range_spec in Hm; lia).
  assert (forall j, is_i64 j = true -> m <= j -> upper_admits (Included (int_code j)) (int_code m) = true) as Hle.
  { intros j Hj Hjm. apply leb_code. rewrite int_code_cmp by done. by apply Z.compare_le_iff. }
  destruct b as [[w inclusive]|]; [|injection Hs as <-; done]. destruct Hb as [Hn Hw]. destruct w as [| |n|x| | | | | | |]; try done; cbn [int_bound] in Hs.
  - rewrite encode_model_int in Hs. cbn [below] in Ha. destruct inclusive; injection Hs as <-.
    + apply Hle; [done|]. destruct Ha as [Ha|[_ Ha]]; injection Ha as Ha; [rewrite Z.compare_lt_iff in Ha|rewrite Z.compare_eq_iff in Ha]; lia.
    + apply ltb_code. rewrite int_code_cmp by done. destruct Ha as [Ha|[]]; [|done]. by injection Ha as Ha.
  - cbn [machine degenerate] in Hw, Hd. destruct (f64_ge _ _) eqn:Eg; [done|]. pose proof (small_spec x Hw Hd Eg) as Hsm. unfold int_endpoint in Hs.
    cbn [below] in Ha. rewrite cmp3_int_float, scaled_compare in Ha by (by apply of_i64_valid || done || apply f64_of_i64_nan).
    destruct (fract_is_zero x) eqn:Ef.
    + destruct (integral_small x Hw Hsm Ef) as [Hk Ex]. set (k := f64_to_i64 x) in *. apply Z.ltb_lt in Hk. rewrite Ex in Ha. destruct inclusive.
      * rewrite encode_model_int in Hs. injection Hs as <-. apply Hle; [apply in_range_spec; lia|]. apply int_at_most; [done|lia|].
        destruct Ha as [[= Ha]|[_ [= Ha]]]; [rewrite Z.compare_lt_iff in Ha|rewrite Z.compare_eq_iff in Ha]; nia.
      * unfold checked_i64 in Hs. destruct (_ && _); [|done]. rewrite encode_model_int in Hs. injection Hs as <-. apply Hle; [apply in_range_spec; lia|]. apply int_at_most; [done|lia|].
        destruct Ha as [[= Ha]|[]]; [|done]. rewrite Z.compare_lt_iff in Ha. replace (k + -1 + 1) with k by lia. done.
    + destruct (floor_spec x Hw Hsm Ef) as [Hk Ex]. set (k := f64_to_i64 (f64_floor x)) in *. apply Z.ltb_lt in Hk. rewrite encode_model_int in Hs. injection Hs as <-.
      apply Hle; [apply in_range_spec; lia|]. apply int_at_most; [done|lia|].
      destruct Ha as [[= Ha]|[_ [= Ha]]]; [rewrite Z.compare_lt_iff in Ha|rewrite Z.compare_eq_iff in Ha]; lia.
Qed.

(** ** The floats *)

(** A numeric bound as a float compares as the bound does. *)
Lemma bound_f64_spec w x y : machine w = true -> (forall z, w = CFloat z -> f64_nan z = false) -> bound_f64 w = Some x ->
  f64_valid x = true /\ f64_nan x = false /\ cmp3 (CFloat y) w = SFcompare y x.
Proof.
  intros Hw Hn H. destruct w as [| |n|z| | | | | | |]; try done; cbn [bound_f64 machine] in *.
  - destruct (f64_ge _ _); [done|]. injection H as <-. apply in_range_spec in Hw. split; [apply of_i64_valid; lia|]. split; [apply f64_of_i64_nan|done].
  - injection H as <-. split; [done|]. split; [by apply Hn|done].
Qed.

Lemma eqb_zero x : f64_valid x = true -> f64_nan x = false -> f64_eqb x (S754_zero false) = (scaled x =? 0).
Proof. intros Hv Hn. unfold f64_eqb. rewrite scaled_compare by done. cbn [scaled]. destruct (Z.compare_spec (scaled x) 0); symmetry; [apply Z.eqb_eq|apply Z.eqb_neq|apply Z.eqb_neq]; lia. Qed.

(** The endpoint of a float bound, up to the sign of zero, is the bound. *)
Lemma float_bound_some w inclusive open zero other b : machine w = true -> (forall z, w = CFloat z -> f64_nan z = false) ->
  (exists s, zero = S754_zero s) -> (exists s, other = S754_zero s) -> float_bound (Some (w, inclusive)) open zero other = Some b ->
  exists x, f64_valid x = true /\ f64_nan x = false /\ b = (if inclusive : bool then Included (float_key_code x) else Excluded (float_key_code x)) /\
    forall y, f64_valid y = true -> f64_nan y = false -> cmp3 (CFloat y) w = Some (scaled y ?= scaled x).
Proof.
  intros Hw Hn [s ->] [s' ->] H. cbn [float_bound] in H. destruct (bound_f64 w) as [x|] eqn:Ex; [|done].
  assert (f64_valid x = true /\ f64_nan x = false /\ forall y, f64_valid y = true -> f64_nan y = false -> cmp3 (CFloat y) w = Some (scaled y ?= scaled x)) as (Vx & Nx & Hc).
  { destruct (bound_f64_spec w x x Hw Hn Ex) as (Vx & Nx & _). split; [done|]. split; [done|]. intros y Vy Ny. destruct (bound_f64_spec w x y Hw Hn Ex) as (_ & _ & ->). by apply scaled_compare. }
  cbv zeta in H. rewrite eqb_zero in H by done. destruct (Z.eqb_spec (scaled x) 0) as [E|E].
  - destruct inclusive.
    + rewrite encode_model_float in H by done. injection H as <-. exists (S754_zero s). split; [done|]. split; [done|]. split; [done|]. intros y Vy Ny. rewrite Hc by done. cbn [scaled]. by rewrite E.
    + change (f64_eqb (S754_zero s) (S754_zero false)) with true in H. cbv iota in H. rewrite encode_model_float in H by done. injection H as <-.
      exists (S754_zero s'). split; [done|]. split; [done|]. split; [done|]. intros y Vy Ny. rewrite Hc by done. cbn [scaled]. by rewrite E.
  - rewrite eqb_zero in H by done. rewrite (proj2 (Z.eqb_neq _ _) E) in H. rewrite encode_model_float, Nx in H by done. exists x. split; [done|]. split; [done|].
    split; [by destruct inclusive; injection H as <-|done].
Qed.

Lemma not_nan_bound w inclusive : degenerate (Some (w, inclusive)) = false -> forall z, w = CFloat z -> f64_nan z = false.
Proof. intros H z ->. exact H. Qed.

Lemma float_lower b start y : match b with Some (w, _) => numeric w = true /\ machine w = true | None => True end -> degenerate b = false -> f64_valid y = true -> f64_nan y = false ->
  float_bound b (Included [TAG_FLOAT]) (S754_zero true) (S754_zero false) = Some start -> above b (CFloat y) -> lower_admits start (float_key_code y) = true.
Proof.
  intros Hb Hd Vy Ny Hs Ha. destruct b as [[w inclusive]|]; [|injection Hs as <-; done]. destruct Hb as [_ Hw].
  destruct (float_bound_some w inclusive _ _ _ _ Hw (not_nan_bound _ _ Hd) ltac:(by eexists) ltac:(by eexists) Hs) as (x & Vx & Nx & -> & Hc).
  cbn [above] in Ha. rewrite Hc in Ha by done. destruct inclusive.
  - apply leb_code. rewrite float_code_cmp by done. rewrite Z.compare_antisym. destruct Ha as [[= ->]|[_ [= ->]]]; done.
  - apply ltb_code. rewrite float_code_cmp by done. rewrite Z.compare_antisym. destruct Ha as [[= ->]|[]]; done.
Qed.
Lemma float_upper b finish y : match b with Some (w, _) => numeric w = true /\ machine w = true | None => True end -> degenerate b = false -> f64_valid y = true -> f64_nan y = false ->
  float_bound b (Excluded [TAG_STRING]) (S754_zero false) (S754_zero true) = Some finish -> below b (CFloat y) -> upper_admits finish (float_key_code y) = true.
Proof.
  intros Hb Hd Vy Ny Hs Ha. destruct b as [[w inclusive]|]; [|injection Hs as <-; done]. destruct Hb as [_ Hw].
  destruct (float_bound_some w inclusive _ _ _ _ Hw (not_nan_bound _ _ Hd) ltac:(by eexists) ltac:(by eexists) Hs) as (x & Vx & Nx & -> & Hc).
  cbn [below] in Ha. rewrite Hc in Ha by done. destruct inclusive.
  - apply leb_code. rewrite float_code_cmp by done. destruct Ha as [[= ->]|[_ [= ->]]]; done.
  - apply ltb_code. rewrite float_code_cmp by done. destruct Ha as [[= ->]|[]]; done.
Qed.

(** ** Ranges *)

(** The bounds the ranges serve: a number of the machine, or no boolean and no list. *)
Definition range_bound_ok (b : option (value * bool)) : bool :=
  match b with Some (CBool _, _) | Some (CList _, _) => false | Some (w, _) => machine w | None => true end.

Lemma cmp3_numeric v w c : cmp3 v w = Some c -> numeric v = numeric w.
Proof. destruct v, w; done. Qed.
Lemma cmp3_string v w t c : string_of w = Some t -> cmp3 v w = Some c -> exists s, string_of v = Some s /\ c = bytes_cmp s t.
Proof.
  intros Hw H. destruct w; try done; injection Hw as <-; destruct v; try done; injection H as <-; by eexists.
Qed.
Lemma cmp3_some_string v w c : cmp3 v w = Some c -> numeric w = false -> (forall b, w <> CBool b) -> (forall l, w <> CList l) -> exists t, string_of w = Some t.
Proof. destruct v, w; try done; intros _ _ Hb Hl; try (by eexists); by (destruct (Hb _ eq_refl) || destruct (Hl _ eq_refl)). Qed.

Lemma above_cmp b v : above (Some b) v -> exists c, cmp3 v b.1 = Some c.
Proof. destruct b as [w i]. intros [H|[_ H]]; by eexists. Qed.
Lemma below_cmp b v : below (Some b) v -> exists c, cmp3 v b.1 = Some c.
Proof. destruct b as [w i]. intros [H|[_ H]]; by eexists. Qed.

Lemma degenerate_cmp b v c : degenerate (Some b) = true -> cmp3 v b.1 = Some c -> False.
Proof.
  destruct b as [w i]. cbn [degenerate fst]. destruct w as [| | |x| | | | | | |]; try done; intros Hd H; [by destruct v|]. destruct x; try done.
  destruct v as [| |n|y| | | | | | |]; try done; cbn [CypherValue.cmp3 decayed] in H; [by destruct (f64_of_i64 n)|by destruct y].
Qed.

(** A bound that compares with a string is one, and its endpoint is in order. *)
Lemma string_bound b v s : range_bound_ok b = true -> string_of v = Some s -> (forall w, b = Some w -> exists c, cmp3 v w.1 = Some c) ->
  b = None \/ exists w i t, b = Some (w, i) /\ string_of w = Some t /\ numeric w = false.
Proof.
  intros Hok Hv Hc. destruct b as [[w i]|]; [right|by left]. destruct (Hc _ eq_refl) as [c H]. cbn [fst] in H.
  assert (numeric w = false) as Hn by (rewrite <-(cmp3_numeric _ _ _ H); by destruct v).
  destruct (cmp3_some_string v w c H Hn) as [t Ht]; [by intros ? ->|by intros ? ->|]. by exists w, i, t.
Qed.

Definition string_endpoint (b : option (value * bool)) : option (bytes * bool) :=
  match b with Some (w, i) => option_map (fun t => (string_code t, i)) (string_of w) | None => None end.

Lemma encode_string_bound b : b = None \/ (exists w i t, b = Some (w, i) /\ string_of w = Some t /\ numeric w = false) -> encode_bound b = Some (string_endpoint b).
Proof. intros [->|(w & i & t & -> & Ht & _)]; [done|]. cbn [encode_bound string_endpoint]. by rewrite (encode_string_of w t Ht), Ht. Qed.

Lemma family_open b l : bytes_leb [b] (b :: l) = true /\ bytes_ltb (b :: l) [z2b (b2z b + 1)] = (b2z b <? 255).
Proof.
  split.
  - apply leb_code. rewrite bytes_cmp_cons, (proj2 (byte_cmp_eq b b) eq_refl). by destruct l.
  - pose proof (b2z_range b). unfold bytes_ltb. rewrite bytes_cmp_cons. unfold byte_cmp. destruct (Z.ltb_spec (b2z b) 255).
    + rewrite b2z_z2b, Z.mod_small by lia. by rewrite (proj2 (Z.compare_lt_iff (b2z b) (b2z b + 1))) by lia.
    + assert (b2z b = 255) as -> by lia. done.
Qed.

Lemma string_lower b v s : b = None \/ (exists w i t, b = Some (w, i) /\ string_of w = Some t /\ numeric w = false) -> string_of v = Some s -> above b v ->
  lower_admits (range_endpoint (string_endpoint b) (Included [TAG_STRING])) (string_code s) = true.
Proof.
  intros [->|(w & i & t & -> & Ht & _)] Hv Ha; [apply family_open|]. cbn [string_endpoint]. rewrite Ht. cbn [option_map].
  destruct (above_cmp _ _ Ha) as [c Hc]. destruct (cmp3_string v w t c Ht Hc) as (s' & Hs' & ->). rewrite Hv in Hs'. injection Hs' as <-. cbn [above fst] in *.
  rewrite Hc in Ha. destruct i; cbn [range_endpoint lower_admits]; [apply leb_code|apply ltb_code]; rewrite string_code_cmp, bytes_cmp_sym.
  - destruct Ha as [[= ->]|[_ [= ->]]]; done.
  - destruct Ha as [[= ->]|[]]; done.
Qed.
Lemma string_upper b v s : b = None \/ (exists w i t, b = Some (w, i) /\ string_of w = Some t /\ numeric w = false) -> string_of v = Some s -> below b v ->
  upper_admits (range_endpoint (string_endpoint b) (Excluded [z2b (b2z TAG_STRING + 1)])) (string_code s) = true.
Proof.
  intros [->|(w & i & t & -> & Ht & _)] Hv Ha; [exact (proj2 (family_open TAG_STRING (write_chunked s)))|]. cbn [string_endpoint]. rewrite Ht. cbn [option_map].
  destruct (below_cmp _ _ Ha) as [c Hc]. destruct (cmp3_string v w t c Ht Hc) as (s' & Hs' & ->). rewrite Hv in Hs'. injection Hs' as <-. cbn [below fst] in *.
  rewrite Hc in Ha. destruct i; cbn [range_endpoint upper_admits]; [apply leb_code|apply ltb_code]; rewrite string_code_cmp.
  - destruct Ha as [[= ->]|[_ [= ->]]]; done.
  - destruct Ha as [[= ->]|[]]; done.
Qed.

(** The numbers, in the two families. *)
Lemma numeric_ranges lower upper ints floats v e :
  is_num_bound lower = true -> is_num_bound upper = true -> range_bound_ok lower = true -> range_bound_ok upper = true -> degenerate lower = false -> degenerate upper = false ->
  int_family_range lower upper = Some ints -> float_family_range lower upper = Some floats ->
  numeric v = true -> machine v = true -> above lower v -> below upper v -> encode_index_value v = Some e -> exists r, r ∈ [ints; floats] /\ range_admits r e = true.
Proof.
  intros Nl Nu Ol Ou Dl Du Hi Hf Nv Mv Ha Hb He.
  assert (match lower with Some (w, _) => numeric w = true /\ machine w = true | None => True end) as Ml by (destruct lower as [[[]]|]; done).
  assert (match upper with Some (w, _) => numeric w = true /\ machine w = true | None => True end) as Mu by (destruct upper as [[[]]|]; done).
  unfold int_family_range, float_family_range, pair_bounds in *.
  destruct (int_bound lower _ _ _) as [lo|] eqn:Elo; [|done]. destruct (int_bound upper _ _ _) as [hi|] eqn:Ehi; [|done]. injection Hi as <-.
  destruct (float_bound lower _ _ _) as [fs|] eqn:Efs; [|done]. destruct (float_bound upper _ _ _) as [fe|] eqn:Efe; [|done]. injection Hf as <-.
  destruct v as [| |m|y| | | | | | |]; try done.
  - rewrite encode_int_value in He. injection He as <-. exists (lo, hi). split; [by left|]. unfold range_admits. cbn [fst snd].
    rewrite (int_lower lower lo m Ml Dl Mv Elo Ha). by rewrite (int_upper upper hi m Mu Du Mv Ehi Hb).
  - cbn [machine] in Mv. rewrite encode_float_value in He by done. destruct (f64_nan y) eqn:Ny; [done|]. injection He as <-. exists (fs, fe). split; [right; by left|]. unfold range_admits. cbn [fst snd].
    rewrite (float_lower lower fs y Ml Dl Mv Ny Efs Ha). by rewrite (float_upper upper fe y Mu Du Mv Ny Efe Hb).
Qed.

Lemma num_bound_value b v : is_num_bound b = true -> (forall w, b = Some w -> exists c, cmp3 v w.1 = Some c) -> b = None \/ numeric v = true.
Proof. intros Hn Hc. destruct b as [[w i]|]; [right|by left]. destruct (Hc _ eq_refl) as [c H]. by rewrite (cmp3_numeric _ _ _ H). Qed.

(** Some bound is no number: everything is a string. *)
Lemma string_ranges lower upper ranges v e :
  is_num_bound lower && is_num_bound upper = false -> range_bound_ok lower = true -> range_bound_ok upper = true -> degenerate lower = false -> degenerate upper = false ->
  above lower v -> below upper v -> encode_index_value v = Some e -> range_families lower upper = Some ranges -> exists r, r ∈ ranges /\ range_admits r e = true.
Proof.
  intros Hn Ol Ou Dl Du Ha Hb He Hr.
  assert (forall w, lower = Some w -> exists c, cmp3 v w.1 = Some c) as Cl by (intros w ->; by apply above_cmp).
  assert (forall w, upper = Some w -> exists c, cmp3 v w.1 = Some c) as Cu by (intros w ->; by apply below_cmp).
  assert (exists s, string_of v = Some s) as [s Hs].
  { apply andb_false_iff in Hn as [Hn|Hn]; [destruct lower as [[w i]|]; [|done]; destruct (Cl _ eq_refl) as [c H]|destruct upper as [[w i]|]; [|done]; destruct (Cu _ eq_refl) as [c H]];
      cbn [fst is_num_bound] in *; (destruct (cmp3_some_string v w c H Hn) as [t Ht]; [by intros ? ->|by intros ? ->|]); destruct (cmp3_string v w t c Ht H) as (s & Hs & _); by exists s. }
  pose proof (string_bound lower v s Ol Hs Cl) as Sl. pose proof (string_bound upper v s Ou Hs Cu) as Su.
  rewrite (encode_string_of v s Hs) in He. injection He as <-. unfold range_families in Hr. rewrite Dl, Du in Hr. cbn [orb] in Hr. rewrite Hn in Hr.
  rewrite (encode_string_bound _ Sl), (encode_string_bound _ Su) in Hr.
  exists (range_endpoint (string_endpoint lower) (Included [TAG_STRING]), range_endpoint (string_endpoint upper) (Excluded [z2b (b2z TAG_STRING + 1)])).
  split; [|unfold range_admits; cbn [fst snd]; by rewrite (string_lower lower v s Sl Hs Ha), (string_upper upper v s Su Hs Hb)].
  destruct Sl as [->|(w & i & t & -> & Ht & _)], Su as [->|(w' & i' & t' & -> & Ht' & _)]; cbn [string_endpoint] in *; rewrite ?Ht, ?Ht' in *; cbn [option_map family_of head string_code] in *.
  - done.
  - injection Hr as <-. by left.
  - injection Hr as <-. by left.
  - injection Hr as <-. by left.
Qed.

(** No range loses a value its bounds admit. *)
Lemma ranges_cover lower upper ranges v e : machine v = true -> range_bound_ok lower = true -> range_bound_ok upper = true ->
  range_families lower upper = Some ranges -> above lower v -> below upper v -> encode_index_value v = Some e -> exists r, r ∈ ranges /\ range_admits r e = true.
Proof.
  intros Mv Ol Ou Hr Ha Hb He.
  assert (degenerate lower = false) as Dl by (destruct (degenerate lower) eqn:E; [|done]; destruct lower as [b|]; [|done]; destruct (above_cmp _ _ Ha) as [c Hc]; destruct (degenerate_cmp b v c E Hc)).
  assert (degenerate upper = false) as Du by (destruct (degenerate upper) eqn:E; [|done]; destruct upper as [b|]; [|done]; destruct (below_cmp _ _ Hb) as [c Hc]; destruct (degenerate_cmp b v c E Hc)).
  destruct (is_num_bound lower && is_num_bound upper) eqn:En; [|by eapply string_ranges].
  pose proof En as [Nl Nu]%andb_true_iff. unfold range_families in Hr. rewrite Dl, Du, En in Hr. cbn [orb] in Hr.
  destruct (int_family_range lower upper) as [ints|] eqn:Ei; [|by destruct lower, upper]. destruct (float_family_range lower upper) as [floats|] eqn:Ef; [|by destruct lower, upper].
  assert (ranges = [ints; floats] /\ numeric v = true) as [-> Nv].
  { assert (forall w, lower = Some w -> exists c, cmp3 v w.1 = Some c) as Cl by (intros w ->; by apply above_cmp).
    assert (forall w, upper = Some w -> exists c, cmp3 v w.1 = Some c) as Cu by (intros w ->; by apply below_cmp).
    destruct (num_bound_value lower v Nl Cl) as [El|Nv]; [destruct (num_bound_value upper v Nu Cu) as [Eu|Nv]; [by rewrite El, Eu in Hr|]|];
      (split; [|done]); destruct lower, upper; try done; by injection Hr. }
  exact (numeric_ranges lower upper ints floats v e Nl Nu Ol Ou Dl Du Ei Ef Nv Mv Ha Hb He).
Qed.

(** ** Probes *)

(** What a node of a stored version can hold. *)
Definition stored_value (v : value) : bool := match v with CMap _ | CNode _ | CRel _ | CPath _ _ => false | _ => machine v end.

Lemma eqb_nan x y : f64_eqb x y = true -> f64_nan x = false /\ f64_nan y = false.
Proof. unfold f64_eqb. destruct x as [?|[]| |[]], y as [?|[]| |[]]; done. Qed.
Lemma eqb_scaled x y : f64_valid x = true -> f64_valid y = true -> f64_eqb x y = true -> scaled x = scaled y.
Proof.
  intros Vx Vy H. destruct (eqb_nan _ _ H) as [Nx Ny]. unfold f64_eqb in H. rewrite scaled_compare in H by done. by destruct (Z.compare_spec (scaled x) (scaled y)).
Qed.
Lemma eqb_code x y : f64_valid x = true -> f64_valid y = true -> f64_eqb x y = true -> float_key_code x = float_key_code y.
Proof.
  intros Vx Vy H. destruct (eqb_nan _ _ H) as [Nx Ny]. apply bytes_cmp_eq. rewrite float_code_cmp by done. by rewrite (eqb_scaled x y), Z.compare_refl.
Qed.
Lemma eqb_integer x y : f64_eqb x y = true -> f64_integer x = f64_integer y.
Proof.
  unfold f64_eqb. destruct x as [?|[]| |[] m e], y as [?|[]| |[] m' e']; try done; cbn [SFcompare]; (destruct (Z.compare_spec e e') as [->|?|?]; try done);
    (destruct (Pos.compare_cont Eq m m') eqn:E; try done); intros _; by apply Pos.compare_eq in E as ->.
Qed.

Lemma eqb_sym x y : f64_valid x = true -> f64_valid y = true -> f64_eqb x y = true -> f64_eqb y x = true.
Proof.
  intros Vx Vy H. destruct (eqb_nan _ _ H) as [Nx Ny]. pose proof (eqb_scaled _ _ Vx Vy H) as E. unfold f64_eqb. rewrite scaled_compare, E by done. by rewrite Z.compare_refl.
Qed.

(** An integer equal to a float whose probes are complete is the one probed. *)
Lemma eqb_int_probe m x : is_i64 m = true -> f64_valid x = true -> probe_set_incomplete (CFloat x) = false -> f64_eqb x (f64_of_i64 m) = true ->
  fract_is_zero x && f64_ge x (f64_of_i64 (- 2 ^ 63)) && f64_ge (f64_of_i64 (2 ^ 63 - 1)) x = true /\ f64_to_i64 x = m.
Proof.
  intros Hr%in_range_spec Vx Hp He. destruct (eqb_nan _ _ He) as [Nx _]. pose proof UNIT_pos.
  pose proof (eqb_scaled _ _ Vx (of_i64_valid m ltac:(lia)) He) as Hs. pose proof (eqb_integer _ _ He) as Hz. cbn [probe_set_incomplete] in Hp.
  destruct (exact_int m) eqn:E.
  - rewrite (proj2 (exact_int_float m E)) in Hz. unfold fract_is_zero in *. rewrite Hz in *. split; [|apply integral_to_i64; [done|lia]].
    pose proof (proj1 (Z.ltb_lt _ _) E) as Hb. rewrite scaled_exact in Hs by done.
    rewrite !f64_ge_scaled by (done || by apply of_i64_valid). rewrite Hs. cbn [andb].
    destruct (scaled_big (- 2 ^ 63) ltac:(lia)) as (_ & _ & Hn). destruct (scaled_big (2 ^ 63 - 1) ltac:(lia)) as (_ & Hq & _).
    specialize (Hn ltac:(lia)). specialize (Hq ltac:(lia)). apply andb_true_iff. rewrite !Z.leb_le. split; nia.
  - exfalso. apply Z.ltb_ge in E. destruct (scaled_big m ltac:(lia)) as (Hf & Hq & Hn). unfold fract_is_zero in *. rewrite Hz, Hf in Hp. cbn [andb] in Hp.
    destruct (abs_valid x) as [Va Na]. rewrite f64_ge_scaled in Hp; [|by rewrite Va|done|by rewrite Na|done].
    apply Z.leb_gt in Hp. rewrite limit_scaled, scaled_abs, Hs in Hp. destruct (Z.le_gt_cases 0 m); [specialize (Hq ltac:(lia))|specialize (Hn ltac:(lia))]; lia.
Qed.

(** The probes of a pin hold the encoding of every value equal to it. *)
Lemma lookup_complete v w : stored_value v = true -> machine w = true -> eq3 v w = Some true -> probe_set_incomplete w = false ->
  exists e, encode_index_value v = Some e /\ e ∈ index_lookup_keys w.
Proof.
  intros Hv Hw He Hp. destruct (string_of v) as [s|] eqn:Sv.
  - exists (string_code s). split; [by apply encode_string_of|].
    assert (string_of w = Some s) as Sw by (destruct v; try done; injection Sv as <-; destruct w; try done; cbn [CypherValue.eq3 decayed string_eq3] in He; injection He as He; apply bool_decide_eq_true in He; cbn [string_of]; by rewrite He).
    assert (index_lookup_keys w = some_list (encode_index_value w)) as -> by by destruct w. rewrite (encode_string_of w s Sw). by left.
  - destruct v as [|b|m|y|?|?|?|?|?|?|?]; try done; destruct w as [|b'|n|x|?|?|?|?|?|?|?]; try done; cbn in He.
    + injection He as He. apply eqb_prop in He as ->. exists (if b' then [TAG_TRUE] else [TAG_FALSE]). split; destruct b'; done || by left.
    + injection He as ->%Z.eqb_eq. exists (int_code n). rewrite encode_int_value. split; [done|]. cbn [index_lookup_keys]. rewrite encode_model_int. by left.
    + injection He as He. cbn [stored_value machine] in Hv, Hw. exists (int_code m). rewrite encode_int_value. split; [done|].
      destruct (eqb_int_probe m x Hv Hw Hp) as [Ht Hi]; [apply in_range_spec in Hv; apply eqb_sym; [apply of_i64_valid; lia|done..]|]. cbn [index_lookup_keys]. rewrite Ht, Hi, encode_model_int. apply elem_of_app. right. by left.
    + injection He as He. cbn [stored_value machine] in Hv, Hw. apply in_range_spec in Hw. pose proof (of_i64_valid n ltac:(lia)) as Vn. destruct (eqb_nan _ _ He) as [Ny Nn].
      exists (float_key_code y). rewrite encode_float_value, Ny by done. split; [done|]. cbn [index_lookup_keys]. rewrite encode_model_int, encode_model_float, Nn by done.
      rewrite (eqb_code y _ Hv Vn He). right. by left.
    + injection He as He. cbn [stored_value machine] in Hv, Hw. destruct (eqb_nan _ _ He) as [Ny Nx].
      exists (float_key_code y). rewrite encode_float_value, Ny by done. split; [done|]. cbn [index_lookup_keys]. rewrite encode_model_float, Nx by done.
      rewrite (eqb_code y x Hv Hw He). by left.
Qed.


(** The product of the probes holds the key of every tuple equal to the pins. *)
Lemma elem_products per parts probes p : p ∈ probes -> Forall2 (fun part alternatives => part ∈ alternatives) parts per ->
  p ++ concat parts ∈ List.fold_left extend_probes per probes.
Proof.
  intros Hp H. revert p probes Hp. induction H as [|part alternatives parts per Hh H IH]; intros p probes Hp; cbn [List.fold_left concat]; [by rewrite app_nil_r|].
  rewrite app_assoc. apply IH. unfold extend_probes. rewrite !list_elem_of_In in *. apply in_concat. eexists. split; [by apply in_map|]. by apply in_map.
Qed.

Definition equal_pins : list value -> list value -> Prop := Forall2 (fun v w => stored_value v = true /\ machine w = true /\ eq3 v w = Some true).

Lemma cartesian_complete vs ws probes : equal_pins vs ws -> cartesian_probes ws = Some probes ->
  exists key, concat_all (List.map encode_index_value vs) = Some key /\ key ∈ probes.
Proof.
  unfold cartesian_probes. intros H Hc. destruct (existsb probe_set_incomplete ws) eqn:Ei; [done|].
  assert (exists parts, concat_all (List.map encode_index_value vs) = Some (concat parts) /\ Forall2 (fun part alternatives => part ∈ alternatives) parts (List.map index_lookup_keys ws)) as (parts & Hp & Hf).
  { clear Hc. induction H as [|v w vs ws (Hv & Hw & He) H IH]; [by exists []|]. cbn [existsb] in Ei. apply orb_false_iff in Ei as [Ei1 Ei2].
    destruct (lookup_complete v w Hv Hw He Ei1) as (e & Ee & Hin). destruct (IH Ei2) as (parts & Hp & Hf).
    exists (e :: parts). cbn [List.map concat_all concat]. rewrite Ee, Hp. split; [done|by constructor]. }
  exists (concat parts). split; [done|]. destruct (existsb _ (List.map index_lookup_keys ws)) eqn:Ee.
  - apply existsb_exists in Ee as (alternatives & Hin & He). apply list_elem_of_In, list_elem_of_lookup in Hin as [i Hi].
    destruct (Forall2_lookup_r _ _ _ _ _ Hf Hi) as (part & _ & Hpart). destruct alternatives; [by apply not_elem_of_nil in Hpart|done].
  - destruct (combinations _ _); [|done]. injection Hc as <-. apply (elem_products _ _ _ []); [by left|done].
Qed.

(** Every range has endpoints, so none that admits a key is passed over as empty. *)
Definition bounded (r : ByteRange) : bool := match r with (Unbounded, _) | (_, Unbounded) => false | _ => true end.

Lemma int_bound_bounded b open step round o : open <> Unbounded -> int_bound b open step round = Some o -> o <> Unbounded.
Proof.
  intros Ho H. destruct b as [[[] []]|]; cbn [int_bound] in H; try done; try (by injection H as <-);
    repeat (case_match; try done); try (destruct (encode_model_value _); [|done]); by injection H as <-.
Qed.
Lemma float_bound_bounded b open zero other o : open <> Unbounded -> float_bound b open zero other = Some o -> o <> Unbounded.
Proof.
  intros Ho H. destruct b as [[w i]|]; cbn [float_bound] in H; [|by injection H as <-]. destruct (bound_f64 w); [|done]. cbv zeta in H.
  repeat (case_match; try done); destruct (encode_model_value _); try done; by injection H as <-.
Qed.
Lemma endpoint_bounded e open : open <> Unbounded -> range_endpoint e open <> Unbounded.
Proof. by destruct e as [[? []]|]. Qed.

Lemma ranges_bounded lower upper ranges r : range_families lower upper = Some ranges -> r ∈ ranges -> bounded r = true.
Proof.
  assert (forall (s e : Bound), s <> Unbounded -> e <> Unbounded -> bounded (s, e) = true) as Hb by (intros [] []; done).
  assert (forall l u f, r ∈ family_range l u f -> bounded r = true) as Hf.
  { intros l u f ->%list_elem_of_singleton. apply Hb; by apply endpoint_bounded. }
  unfold range_families. destruct (degenerate lower || degenerate upper); [by intros [= <-] ?%not_elem_of_nil|]. intros H Hr.
  assert (forall ints floats, int_family_range lower upper = Some ints -> float_family_range lower upper = Some floats -> r ∈ [ints; floats] -> bounded r = true) as Hn.
  { unfold int_family_range, float_family_range, pair_bounds. intros ints floats Hi Hfl Hin.
    destruct (int_bound lower _ _ _) eqn:E1; [|done]. destruct (int_bound upper _ _ _) eqn:E2; [|done]. injection Hi as <-.
    destruct (float_bound lower _ _ _) eqn:E3; [|done]. destruct (float_bound upper _ _ _) eqn:E4; [|done]. injection Hfl as <-.
    apply int_bound_bounded in E1, E2; try done. apply float_bound_bounded in E3, E4; try done.
    apply elem_of_cons in Hin as [-> | ->%list_elem_of_singleton]; by apply Hb. }
  repeat (case_match; try done); simplify_eq; (by eapply Hn) || (by apply not_elem_of_nil in Hr) ||
    (by (destruct (family_of _) in H; [injection H as <-; by eapply Hf|done])) || (by eapply Hf).
Qed.

Lemma admits_not_empty r k : bounded r = true -> range_admits r k = true -> empty_range r = false.
Proof.
  destruct r as [[s|s|] [e|e|]]; try done; intros _ [H1 H2]%andb_true_iff; cbn [fst snd lower_admits upper_admits] in *;
    unfold empty_range; cbn [fst snd bound_key exclusive orb andb]; rewrite ?andb_false_r, ?andb_true_r, ?orb_false_r;
    rewrite ?bytes_leb_le, ?bytes_ltb_lt in *.
  - apply bytes_ltb_ge. destruct (proj1 (bytes_le_lteq _ _) H1) as [Hl|<-]; [|done]. apply bytes_lt_le. by eapply bytes_lt_le_trans.
  - pose proof (bytes_le_lt_trans _ _ _ H1 H2) as Hl. apply orb_false_iff. split; [by apply bytes_ltb_ge, bytes_lt_le|]. apply bool_decide_eq_false. intros ->. exact (proj1 (bytes_lt_not_le _ _) Hl (bytes_le_refl _)).
  - pose proof (bytes_lt_le_trans _ _ _ H1 H2) as Hl. apply orb_false_iff. split; [by apply bytes_ltb_ge, bytes_lt_le|]. apply bool_decide_eq_false. intros ->. exact (proj1 (bytes_lt_not_le _ _) Hl (bytes_le_refl _)).
  - pose proof (bytes_lt_le_trans _ _ _ H1 (bytes_lt_le _ _ H2)) as Hl. apply orb_false_iff. split; [by apply bytes_ltb_ge, bytes_lt_le|]. apply bool_decide_eq_false. intros ->. exact (proj1 (bytes_lt_not_le _ _) Hl (bytes_le_refl _)).
Qed.
(** What a bound admits has an encoding. *)
Lemma admitted_encodes lower upper ranges v : range_families lower upper = Some ranges -> range_bound_ok lower = true -> range_bound_ok upper = true -> stored_value v = true ->
  above lower v -> below upper v -> exists e, encode_index_value v = Some e.
Proof.
  intros Hr Ol Ou Sv Ha Hb.
  assert (exists w i, (lower = Some (w, i) \/ upper = Some (w, i)) /\ range_bound_ok (Some (w, i)) = true /\ exists c, cmp3 v w = Some c) as (w & i & _ & Ow & c & Hc).
  { destruct lower as [[w i]|]; [exists w, i; split; [by left|]; split; [done|]; apply (above_cmp _ _ Ha)|].
    destruct upper as [[w i]|]; [exists w, i; split; [by right|]; split; [done|]; apply (below_cmp _ _ Hb)|]. done. }
  destruct v as [| |n|x|s|mv| | | | |]; try done; try (by destruct w).
  - exists (int_code n). apply encode_int_value.
  - exists (float_key_code x). rewrite encode_float_value by done. destruct (f64_nan x) eqn:E; [|done]. destruct x; try done. by destruct w.
  - exists (string_code s). by apply encode_string_of.
  - eexists. by apply encode_string_of.
Qed.
End seek.

(** ** The maps of the snapshot *)

Section maps.
Context {K : Type} `{Countable K}.

Lemma elem_push_at index (m : gmap K (list nat)) k k' i : i ∈ indices_at (push_at index m k) k' <-> (i = index /\ k = k') \/ i ∈ indices_at m k'.
Proof.
  unfold indices_at, push_at. destruct (decide (k = k')) as [->|Hne].
  - rewrite lookup_insert_eq. destruct (m !! k') as [l|]; rewrite ?elem_of_app, ?list_elem_of_singleton; [naive_solver|]. rewrite not_elem_of_nil_iff || set_solver.
  - rewrite lookup_insert_ne by done. naive_solver.
Qed.
Lemma elem_pushes index keys (m : gmap K (list nat)) k i : i ∈ indices_at (List.fold_left (push_at index) keys m) k <-> (i = index /\ k ∈ keys) \/ i ∈ indices_at m k.
Proof.
  revert m. induction keys as [|k' keys IH]; intros m; cbn [List.fold_left]; [set_solver|]. rewrite IH, elem_push_at, elem_of_cons. naive_solver.
Qed.
(** A group holds the indices of the elements that have its key. *)
Lemma elem_group {A : Type} (keys : A -> list K) start (l : list A) (m : gmap K (list nat)) k i :
  i ∈ indices_at (group_from keys start l m) k <-> (exists j x, i = (start + j)%nat /\ l !! j = Some x /\ k ∈ keys x) \/ i ∈ indices_at m k.
Proof.
  revert start m. induction l as [|x l IH]; intros start m; cbn [group_from]; [split; [by right|by intros [(? & ? & _ & ? & _)|]]|].
  rewrite IH, elem_pushes. split.
  - intros [(j & y & -> & Hl & Hk)|[[-> Hk]|Hi]]; [left; exists (S j), y|left; exists 0%nat, x|by right]; split; [lia|done|lia|done].
  - intros [([|j] & y & -> & Hl & Hk)|Hi]; [|left; exists j, y|by right; right]; [|split; [lia|done]].
    injection Hl as <-. right. left. split; [lia|done].
Qed.
End maps.

Lemma elem_fresh g n indices : n ∈ fresh_nodes g indices <-> exists i, i ∈ indices /\ gs_nodes g !! i = Some n.
Proof.
  unfold fresh_nodes. set (go := fix go (seen : gset nat) (l : list nat) := match l with [] => [] | i :: l => if bool_decide (i ∈ seen) then go seen l else i :: go ({[i]} ∪ seen) l end).
  assert (forall seen l i, i ∈ go seen l <-> i ∈ l /\ i ∉ seen) as Hgo.
  { intros seen l i. revert seen. induction l as [|j l IH]; intros seen; cbn; [set_solver|]. case_bool_decide as Hj.
    - rewrite IH, elem_of_cons. split; [naive_solver|]. intros [[->|Hi] Hs]; done.
    - rewrite !elem_of_cons, IH, elem_of_union, elem_of_singleton. destruct (decide (i = j)) as [->|]; naive_solver. }
  rewrite list_elem_of_In, in_concat. split.
  - intros (ns & (i & <- & Hi)%in_map_iff & Hn). exists i. apply list_elem_of_In, Hgo in Hi as [Hi _]. split; [done|]. unfold at_index in Hn. destruct (gs_nodes g !! i); [|done]. by destruct Hn as [->|[]].
  - intros (i & Hi & Hn). exists (at_index g i). split; [apply in_map; apply list_elem_of_In; apply Hgo; split; [done|apply not_elem_of_empty]|]. unfold at_index. rewrite Hn. by left.
Qed.

Lemma elem_range map r i k : bounded r = true -> range_admits r k = true -> i ∈ indices_at map k -> i ∈ range_indices map r.
Proof.
  intros Hb Ha Hi. unfold range_indices. rewrite (admits_not_empty r k) by done. rewrite list_elem_of_In, in_concat. exists (indices_at map k). split; [|by apply list_elem_of_In].
  apply in_map, filter_In. split; [|done]. apply list_elem_of_In. rewrite merge_sort_Permutation. apply list_elem_of_In, in_map_iff.
  unfold indices_at in Hi. destruct (map !! k) as [l|] eqn:E; [|by apply not_elem_of_nil in Hi]. exists (k, l). split; [done|]. by apply list_elem_of_In, elem_of_map_to_list.
Qed.

(** The last declaration under a name that is declared once. *)
Lemma fold_declared {A B : Type} (name : A -> bytes) (step : gmap bytes B -> A -> gmap bytes B) (made : A -> B) :
  (forall m d, m !! name d = None -> step m d !! name d = Some (made d)) -> (forall m d k, k <> name d -> step m d !! k = m !! k) ->
  forall l m d, d ∈ l -> NoDup (List.map name l) -> (forall d, d ∈ l -> m !! name d = None) -> List.fold_left step l m !! name d = Some (made d).
Proof.
  intros Hs Ho l. induction l as [|d' l IH]; intros m d Hd Hn Hm; [by apply not_elem_of_nil in Hd|]. cbn [List.fold_left List.map] in *. apply NoDup_cons in Hn as [Hn1 Hn2].
  assert (forall d, d ∈ l -> name d <> name d') as Hne by (intros d0 H0 E; apply Hn1; rewrite <-E; by apply list_elem_of_In, in_map, list_elem_of_In).
  apply elem_of_cons in Hd as [->|Hd].
  - assert (forall l m, (forall d, d ∈ l -> name d <> name d') -> List.fold_left step l m !! name d' = m !! name d') as Hk.
    { clear - Ho. induction l as [|d l IH]; intros m Hl; [done|]. cbn [List.fold_left]. rewrite IH by (intros; apply Hl; by right). apply Ho. intros E. by apply (Hl d); [left|]. }
    rewrite Hk by done. apply Hs, Hm. by left.
  - apply IH; [done..|]. intros d0 H0. rewrite Ho by (by apply Hne). apply Hm. by right.
Qed.

Section seeks.
Context {std : Std}.
Variables (debug_edge_key : EdgeKey -> bytes) (nodes : list (NodeKey * NodeRecord)) (edges : list (EdgeKey * EdgeRecord))
  (key_names : gmap bytes (list bytes)) (disc_names : gmap bytes bytes) (index_defs : list IndexDecl).
Abbreviation g := (snapshot_build debug_edge_key nodes edges key_names disc_names index_defs).
Hypothesis names_once : NoDup (List.map (fun d : IndexDecl => d.1.1) index_defs).
Variables (name label : bytes) (properties : list bytes).
Hypothesis declared : (name, label, properties) ∈ index_defs.

Lemma declared_properties : index_properties g !! name = Some properties.
Proof.
  apply (fold_declared (fun d : IndexDecl => d.1.1) (fun m (d : IndexDecl) => let '(name, _, properties) := d in <[name := properties]> m) (fun d => d.2)) with (d := (name, label, properties)); [| |done..].
  - intros m [[n l] p] _. apply lookup_insert_eq.
  - intros m [[n l] p] k Hk. by apply lookup_insert_ne.
Qed.
Lemma declared_index : by_index g !! name = Some (group_from (index_keys label properties) 0 (gs_nodes g) ∅).
Proof.
  apply (fold_declared (fun d : IndexDecl => d.1.1) (fun m (d : IndexDecl) => let '(name, label, properties) := d in
    <[name := group_from (index_keys label properties) 0 (gs_nodes g) (match m !! name with Some map => map | None => ∅ end)]> m)
    (fun d => group_from (index_keys d.1.2 d.2) 0 (gs_nodes g) ∅)) with (d := (name, label, properties)); [| |done..].
  - intros m [[n l] p] Hm. cbn [fst snd] in *. rewrite Hm. apply lookup_insert_eq.
  - intros m [[n l] p] k Hk. by apply lookup_insert_ne.
Qed.
Lemma elem_declared k i : i ∈ indices_at (group_from (index_keys label properties) 0 (gs_nodes g) ∅) k <-> exists n, gs_nodes g !! i = Some n /\ k ∈ index_keys label properties n.
Proof.
  rewrite elem_group. unfold indices_at at 1. rewrite lookup_empty. split.
  - intros [(j & n & -> & Hn & Hk)|?%not_elem_of_nil]; [|done]. by exists n.
  - intros (n & Hn & Hk). left. by exists i, n.
Qed.

(** A seek over an index answers with nodes of the snapshot, and with every
    one that bears the label and holds values equal to the pins. *)
Lemma seek_complete values found : snapshot_by_index g name properties values = Some found ->
  (forall n, n ∈ found -> n ∈ gs_nodes g) /\
  (forall n vs, n ∈ gs_nodes g -> label ∈ nv_labels n -> List.map (map_get (nv_properties n)) properties = List.map Some vs -> equal_pins vs values -> n ∈ found).
Proof.
  unfold snapshot_by_index. rewrite declared_properties, declared_index, bool_decide_eq_true_2 by done. cbn [negb orb].
  destruct (length values =? length properties)%nat; [|done]. cbn [negb]. destruct (cartesian_probes values) as [probes|] eqn:Ec; [|done]. intros [= <-]. split.
  - intros n (i & _ & Hn)%elem_fresh. by eapply list_elem_of_lookup_2.
  - intros n vs Hn Hl Hv He. destruct (cartesian_complete vs values probes He Ec) as (key & Hk & Hin). apply list_elem_of_lookup in Hn as [i Hi].
    apply elem_fresh. exists i. split; [|done]. rewrite list_elem_of_In, in_concat. eexists. split; [apply in_map, list_elem_of_In, Hin|]. apply list_elem_of_In, elem_declared.
    exists n. split; [done|]. unfold index_keys.
    assert (List.map (index_value_bytes n label) properties = List.map encode_index_value vs) as ->.
    { clear - Hv Hl. revert vs Hv. induction properties as [|p ps IH]; intros [|v vs] Hv; try done. injection Hv as Hp Hv. cbn [List.map]. rewrite (IH vs Hv). f_equal.
      unfold index_value_bytes, contains. by rewrite (bool_decide_eq_true_2 _ Hl), Hp. }
    rewrite Hk. by left.
Qed.

(** So does a range seek, with every node whose value its bounds admit. *)
Lemma range_seek_all property lower upper found : properties = [property] -> range_bound_ok lower = true -> range_bound_ok upper = true ->
  snapshot_by_index_range g name property lower upper = Some found ->
  (forall n, n ∈ found -> n ∈ gs_nodes g) /\
  (forall n v, n ∈ gs_nodes g -> label ∈ nv_labels n -> map_get (nv_properties n) property = Some v -> stored_value v = true -> above lower v -> below upper v -> n ∈ found).
Proof.
  intros Hp Ol Ou. unfold snapshot_by_index_range. rewrite declared_properties, declared_index, Hp, bool_decide_eq_true_2 by done. cbn [negb].
  destruct (range_families lower upper) as [ranges|] eqn:Er; [|done]. intros [= <-]. split.
  - intros n (i & _ & Hn)%elem_fresh. by eapply list_elem_of_lookup_2.
  - intros n v Hn Hl Hv Sv Ha Hb. apply list_elem_of_lookup in Hn as [i Hi].
    destruct (admitted_encodes lower upper ranges v Er Ol Ou Sv Ha Hb) as [e He].
    destruct (ranges_cover lower upper ranges v e) as (r & Hr & Hk); try done; [by destruct v|].
    apply elem_fresh. exists i. split; [|done]. rewrite list_elem_of_In, in_concat. eexists. split; [apply in_map, list_elem_of_In, Hr|]. apply list_elem_of_In.
    apply (elem_range _ r i e); [by eapply ranges_bounded|done|]. rewrite <-Hp. apply elem_declared.
    exists n. split; [done|]. unfold index_keys. rewrite Hp. cbn [List.map]. unfold index_value_bytes, contains. rewrite (bool_decide_eq_true_2 _ Hl), Hv, He. cbn [concat_all option_map some_list]. rewrite app_nil_r. by left.
Qed.
(** A seek by key answers with every node whose own label it is and whose key
    the pins equal; a node with the label besides its own is another matter. *)
Lemma key_seek_own k r names values vs found : (k, r) ∈ nodes -> key_names !! GraphKeys.label k = Some names ->
  List.map (map_get (nv_properties (node_value k r key_names))) names = List.map Some vs -> equal_pins vs values ->
  snapshot_by_key g (GraphKeys.label k) values = Some found -> node_value k r key_names ∈ found.
Proof.
  intros Hn Hk Hv He. unfold snapshot_by_key. destruct (cartesian_probes values) as [probes|] eqn:Ec; [|done]. destruct (existsb _ probes); [|done]. intros [= <-].
  destruct (cartesian_complete vs values probes He Ec) as (key & Hkey & Hin). apply list_elem_of_lookup in Hn as [i Hi].
  assert (gs_nodes g !! i = Some (node_value k r key_names)) as Hg by (cbn [snapshot_build gs_nodes]; by rewrite list_lookup_fmap, Hi).
  apply elem_fresh. exists i. split; [|done]. rewrite list_elem_of_In, in_concat. eexists. split; [apply in_map, list_elem_of_In, Hin|]. apply list_elem_of_In.
  cbn [snapshot_build by_key]. apply elem_group. left. exists i, (k, node_value k r key_names). split; [done|]. split.
  - apply lookup_zip_Some. split; [by rewrite list_lookup_fmap, Hi|done].
  - unfold key_keys. cbn [fst snd]. rewrite Hk.
    assert (List.map (fun name => match map_get (nv_properties (node_value k r key_names)) name with Some v => encode_index_value v | None => None end) names = List.map encode_index_value vs) as ->.
    { clear - Hv. generalize dependent (nv_properties (node_value k r key_names)). intros held Hv. revert vs Hv. induction names as [|p ps IH]; intros [|v vs] Hv; try done.
      injection Hv as Hp Hv. cbn [List.map]. by rewrite (IH vs Hv), Hp. }
    rewrite Hkey. by left.
Qed.
End seeks.

(** ** The seeks of a stored version *)

Section stored.
Context {std : Std}.
Variable debug_edge_key : EdgeKey -> bytes.

Definition index_names (schema : list SchemaEntry) : list bytes := List.map (fun d : IndexDecl => d.1.1) (index_defs_of schema).

Lemma declared_in schema name def : IndexDefEntry name def ∈ schema -> (name, xlabel def, xproperties def) ∈ index_defs_of schema.
Proof. intros H. apply list_elem_of_omap. by exists (IndexDefEntry name def). Qed.

(** C18: An equality seek over a declared index answers with nodes of the version
    only, and with every node that bears the label and holds values equal to
    the pins, integers and floats alike. *)
Theorem index_seek_complete nodes edges schema name def values found : NoDup (index_names schema) -> IndexDefEntry name def ∈ schema ->
  let g := from_records_with_schema debug_edge_key nodes edges schema in
  snapshot_by_index g name (xproperties def) values = Some found ->
  (forall n, n ∈ found -> n ∈ gs_nodes g) /\
  (forall n vs, n ∈ gs_nodes g -> xlabel def ∈ nv_labels n -> List.map (map_get (nv_properties n)) (xproperties def) = List.map Some vs -> equal_pins vs values -> n ∈ found).
Proof. intros Hn Hd%declared_in g. by apply (seek_complete debug_edge_key nodes edges (key_names_from_schema schema) (disc_names_of schema) _ Hn name (xlabel def) (xproperties def) Hd). Qed.

(** C19: A range seek over a declared index answers with nodes of the version
    only, and with every node that bears the label and whose value the bounds
    admit, across the integers and the floats, unless a bound is a boolean or
    a list. *)
Theorem range_seek_complete nodes edges schema name def property lower upper found : NoDup (index_names schema) -> IndexDefEntry name def ∈ schema -> xproperties def = [property] ->
  range_bound_ok lower = true -> range_bound_ok upper = true ->
  let g := from_records_with_schema debug_edge_key nodes edges schema in
  snapshot_by_index_range g name property lower upper = Some found ->
  (forall n, n ∈ found -> n ∈ gs_nodes g) /\
  (forall n v, n ∈ gs_nodes g -> xlabel def ∈ nv_labels n -> map_get (nv_properties n) property = Some v -> stored_value v = true -> above lower v -> below upper v -> n ∈ found).
Proof.
  intros Hn Hd%declared_in Hp Ol Ou g.
  by apply (range_seek_all debug_edge_key nodes edges (key_names_from_schema schema) (disc_names_of schema) _ Hn name (xlabel def) (xproperties def) Hd property).
Qed.
End stored.
