(* ===== verification/CypherSamples.v ===== *)
(** * Small graphs and rows

    The theorems on projection, grouping, UNWIND, matching and the write
    overlay and the seeks of a stored version at concrete inputs. *)
From Stdlib Require Import SpecFloat.
From S2P Require Import Prelude Keys Model Canonical Records GraphKeys Schema Governor CypherValue CypherExpr CypherSource CypherOps CypherFunctions CypherEval CypherProject CypherRun CypherSim CypherExec CypherTotal CypherMeaning CypherRows CypherMatch CypherOverlay CypherWrites CypherAdapter CypherSeek.
Open Scope Z_scope.

#[local] Instance effects : Effects Plain := plain_effects sample_mints.

Definition row_of (l : list (Z * Z)) : Row := List.fold_left (fun row e => row_set row e.1 (CInt e.2)) l ∅.
Definition sample_ctx : EvalCtx := mkCtx (memory_source sample_graph) ∅ None.

(** RETURN DISTINCT x ORDER BY x DESC SKIP 0 LIMIT 2 *)
Definition sample_projection : BoundProjection :=
  mkProjection true [mkItem (EVariable 0 sp) (text "x") 1] [(EVariable 1 sp, true)] (Some (literal 0)) (Some (literal 2)) None [0%nat] false.
Definition sample_rows : list Row := [row_of [(0, 3)]; row_of [(0, 1)]; row_of [(0, 3)]; row_of [(0, 2)]].
Definition sample_out : list Row := [row_of [(0, 3); (1, 3)]; row_of [(0, 2); (1, 2)]].

Lemma project_spec_witness :
  [text "x"] = List.map pi_name (pr_items sample_projection) /\
  exists merged, Forall2 (projected_row sample_mints 10 10 sample_ctx sample_projection) sample_rows merged /\
    ((pr_distinct sample_projection = true -> Forall (keyable_row sample_projection) merged) -> exact_keys sample_mints 10 10 sample_ctx sample_projection merged ->
     projected sample_mints 10 10 sample_ctx sample_projection false merged sample_out).
Proof. apply project_spec; [reflexivity|]. vm_compute. reflexivity. Defined.

(** RETURN x, count of the rows *)
Definition sample_grouping : BoundProjection :=
  mkProjection false [mkItem (EVariable 0 sp) (text "x") 1; mkItem (EAggregate 7 "count" false None sp) (text "n") 2] [] None None None [0%nat] true.
Definition sample_groups : list Row := [row_of [(0, 3); (1, 3); (2, 2)]; row_of [(0, 1); (1, 1); (2, 1)]; row_of [(0, 2); (1, 2); (2, 1)]].

Lemma grouping_spec_witness :
  exists tuples, Forall2 (tupled sample_mints 10 10 sample_ctx (grouping_exprs sample_grouping)) sample_rows tuples /\
    (Forall (fun t => Forall (fun v => CypherDistinct.keyable std_debug_value v = true) t.1) tuples ->
     exists groups merged,
       groups = (if bool_decide (sample_rows = []) && bool_decide (pr_grouping_items sample_grouping = []) then [[]]
                 else List.map (List.map snd) (classes (fun t u => equivalents t.1 u.1) tuples)) /\
       Forall2 (fun group row => val (project_group 10 10 sample_ctx sample_grouping group) = Ok row) groups merged /\
       ((pr_distinct sample_grouping = true -> Forall (keyable_row sample_grouping) merged) -> exact_keys sample_mints 10 10 sample_ctx sample_grouping merged ->
        projected sample_mints 10 10 sample_ctx sample_grouping false merged sample_groups)).
Proof. apply grouping_spec with (columns := [text "x"; text "n"]); [reflexivity|]. vm_compute. reflexivity. Defined.

(** UNWIND [3, 1, 2] AS x WITH x LIMIT 2 *)
Definition sample_list : BoundExpr := EListLiteral (List.map literal [3; 1; 2]) sp.
Definition sample_with : BoundProjection := mkProjection false [mkItem (EVariable 0 sp) (text "x") 1] [] None (Some (literal 2)) None [0%nat] false.
Definition pipeline (rows : list Row) (g : MutableGraph) : Pipeline := mkPipeline rows g None ∅.
Definition sample_base : MutableGraph := mutable_new (memory_source sample_graph).
Definition sample_run (c : BoundClause) (next : option BoundClause) (p : Pipeline) : result ExecError Pipeline * Plain :=
  run_clause 10 10 ∅ sample_resolver NoProcedures c next p (mkPlain 0).
Definition unwound : list Row := [row_of [(0, 3)]; row_of [(0, 1)]; row_of [(0, 2)]].
Definition limited_rows : list Row := [row_of [(0, 3); (1, 3)]; row_of [(0, 1); (1, 1)]].

Definition sample_start : Pipeline := pipeline [∅] sample_base.
Definition ok_or {A : Type} (r : result ExecError A) (d : A) : A := match r with Ok a => a | Err _ => d end.
Definition sample_all : Pipeline := ok_or (sample_run (ClUnwind sample_list 0 sp) None sample_start).1 sample_start.
Definition sample_limited : Pipeline := ok_or (sample_run (ClWith sample_with) None sample_all).1 sample_start.

Example sample_unwound : pl_rows sample_all = unwound /\ pl_rows sample_limited = limited_rows.
Proof. vm_compute. split; reflexivity. Qed.

Lemma unwind_cap_transparent_witness :
  exists some, sample_run (ClUnwind sample_list 0 sp) (Some (ClWith sample_with)) sample_start = (Ok some, mkPlain 0) /\
    sample_run (ClWith sample_with) None some = (Ok sample_limited, mkPlain 0).
Proof.
  apply (unwind_cap_transparent sample_mints 10 10 ∅ sample_resolver NoProcedures sample_list 0 sp sample_with None sample_start sample_all sample_limited (mkPlain 0)).
  - vm_compute. reflexivity.
  - vm_compute. discriminate.
  - vm_compute. reflexivity.
Defined.

(** An UNWIND of a list in the first two rows and of 5 in the third: when the
    WITH wants one row, the UNWIND ends at the second and the error of the
    third is spared. *)
Definition two_lists : Pipeline := pipeline [row_set ∅ 5 (CList [CInt 1]); row_set ∅ 5 (CList [CInt 2]); row_set ∅ 5 (CInt 5)] sample_base.
Definition unwind_five : BoundClause := ClUnwind (EVariable 5 sp) 0 sp.
Definition with_one : BoundClause := ClWith (mkProjection false [mkItem (EVariable 0 sp) (text "x") 1] [] None (Some (literal 1)) None [0%nat] false).

Lemma unwind_cap_spares_error :
  (exists e, (sample_run unwind_five None two_lists).1 = Err e) /\ exists some, (sample_run unwind_five (Some with_one) two_lists).1 = Ok some.
Proof. split; eexists; vm_compute; reflexivity. Qed.

(** ** Matching *)

Lemma memory_laws (g : MemoryGraph) parameters slots : NoDup (mg_nodes g) -> NoDup (mg_rels g) ->
  source_laws (mkCtx (memory_source g) parameters slots).
Proof.
  intros Hn Hr. split; cbn [cx_graph memory_source plain_source nodes_by_labels all_nodes expand].
  - intros labels. unfold default_nodes_by_labels. split; [by apply NoDup_ListNoDup, List.NoDup_filter, NoDup_ListNoDup|].
    intros n. rewrite list_elem_of_In, filter_In, <-list_elem_of_In. done.
  - intros id d types. unfold memory_expand.
    assert (forall r (x : RelValue * NodeValue), x ∈ expand_rel (memory_node g) id d types r -> x.1 = r) as Hx.
    { intros r x. unfold expand_rel. repeat case_match; (by intros ?%not_elem_of_nil) || by intros ->%list_elem_of_singleton. }
    induction (mg_rels g) as [|r l IH]; [constructor|]. apply NoDup_cons in Hr as [Hr Hl]. cbn [List.map concat].
    apply NoDup_app. split; [unfold expand_rel; repeat case_match; apply NoDup_nil_2 || apply NoDup_singleton|]. split; [|by apply IH].
    intros x E%Hx Hin. apply Hr. rewrite <-E. clear -Hin Hx. induction l as [|r' l IH]; [by apply not_elem_of_nil in Hin|]. cbn [List.map concat] in Hin.
    apply elem_of_app in Hin as [Hin%Hx|Hin]; [rewrite Hin; by left|right; by apply IH].
Qed.
Lemma memory_seeks_cover (g : MemoryGraph) walk fuel parameters slots wanted pattern row :
  seeks_cover sample_mints walk fuel (mkCtx (memory_source g) parameters slots) wanted pattern row.
Proof. intros hint probe nodes _ _. by destruct probe. Qed.

(** (x:A)-[:R*]->(y) on the triangle with a tail *)
Definition sample_path : BoundPathPattern := mkPathPattern None (node_pattern 0 [text "A"]) [(rel_pattern (Some (mkVarLength None None)), node_pattern 1 [])] sp.
Definition sample_matches : result ExecError (list MatchState) := val (match_path 30 (eval 30 10) sample_ctx sample_path (mkMatchState ∅ ∅)).
Definition matches : list MatchState := ok_or sample_matches [].

Lemma sample_nodes_distinct : NoDup (mg_nodes sample_graph) /\ NoDup (mg_rels sample_graph).
Proof. split; repeat constructor; set_unfold; intros H; decompose [or] H; discriminate || done. Qed.

Lemma match_path_spec_witness :
  length matches = 4%nat /\
  (exists anchors : list NodeValue, (forall c out, chosen sample_mints 30 10 sample_ctx sample_path (mkMatchState ∅ ∅) c out -> True -> c.1 ∈ anchors) /\
    lists (fun c out => c.1 ∈ anchors /\ chosen sample_mints 30 10 sample_ctx sample_path (mkMatchState ∅ ∅) c out) matches) /\
  forall c out, chosen sample_mints 30 10 sample_ctx sample_path (mkMatchState ∅ ∅) c out ->
    let ids := List.map rv_id (rels_of (concat c.2)) in
    NoDup ids /\ (forall id, id ∈ ids -> id ∉ (∅ : gset bytes)) /\ ms_used_rels out = list_to_set ids ∪ ∅.
Proof.
  split; [vm_compute; reflexivity|].
  apply (match_path_spec sample_mints 30 10 sample_ctx (fun _ => True) sample_path (mkMatchState ∅ ∅) matches).
  - apply memory_laws; apply sample_nodes_distinct.
  - apply memory_seeks_cover.
  - repeat constructor. vm_compute. discriminate.
  - vm_compute. reflexivity.
Defined.

(** ** The overlay *)

Definition sample_writes : list write :=
  [WCreateNode [text "N"] [(text "v", CInt 7)]; WCreateRel (text "a") (text "R") (overlay_id 0) []; WSetNodeProperty (overlay_id 0) (text "v") None;
   WAddLabel (text "b") (text "N"); WDeleteRel (sample_rel "ab" "a" "b"); WSetRelProperty (sample_rel "cd" "c" "d") (text "w") (Some (CInt 1));
   WDetachDeleteNode (text "c"); WDeleteNode (text "d")].

Lemma plain_issued next id : is_overlay id = false -> issued next id.
Proof. intros H k _ ->. done. Qed.

Lemma sample_graph_ok : graph_ok sample_graph.
Proof.
  split.
  - repeat constructor; set_unfold; intros H; decompose [or] H; discriminate || done.
  - repeat constructor; set_unfold; intros H; decompose [or] H; discriminate || done.
  - repeat constructor; vm_compute; set_solver.
  - intros id [H|H]; apply list_elem_of_In in H; cbn in H; decompose [or] H; subst; done.
Qed.
Lemma sample_writes_ok : writes_ok sample_writes (started sample_graph).
Proof.
  assert (forall (l : list bytes) k, bool_decide (k ∈ l) = true -> k ∈ l) as Hin by (intros l k; apply bool_decide_eq_true).
  cbn [writes_ok sample_writes write_ok]. repeat split.
  - apply Hin. vm_compute. reflexivity.
  - apply Hin. vm_compute. reflexivity.
  - by apply plain_issued.
  - apply list_elem_of_In. vm_compute. right. right. left. reflexivity.
  - by apply plain_issued.
  - by apply plain_issued.
  - vm_compute. repeat constructor.
Qed.

Definition sample_overlay : MutableGraph := overlay_writes sample_writes (mutable_new (memory_source sample_graph)).
Definition sample_written : MemoryGraph := plain_writes sample_writes (started sample_graph).

Lemma overlay_is_graph_witness :
  (length (mg_nodes sample_written), length (mg_rels sample_written)) = (3%nat, 1%nat) /\
  reads_as (mutable_source sample_overlay) sample_written /\
  (forall id, has_incident_rels sample_overlay id = existsb (incident id) (mg_rels sample_written)) /\
  (forall r, r ∈ mg_rels sample_written -> current_rel sample_overlay r = r).
Proof.
  split; [vm_compute; reflexivity|].
  apply (overlay_is_graph sample_graph sample_writes); [exact sample_graph_ok|exact sample_writes_ok].
Defined.

Lemma changes_are_net_witness :
  let c := changes sample_overlay in let nodes := upserted_nodes c in let rels := wc_created_rels c ++ modified_rels c in
  (forall id, replay nv_id nodes (wc_deleted_nodes c) (mg_nodes sample_graph) id = memory_node sample_written id) /\
  (forall id, replay rv_id rels (ids rv_id (wc_deleted_rels c)) (mg_rels sample_graph) id = find_id rv_id id (mg_rels sample_written)) /\
  NoDup (ids nv_id nodes) /\ (forall id, id ∈ wc_deleted_nodes c -> id ∉ ids nv_id nodes) /\
  NoDup (ids rv_id rels) /\ (forall id, id ∈ ids rv_id (wc_deleted_rels c) -> id ∉ ids rv_id rels).
Proof. apply (changes_are_net sample_graph sample_writes); [exact sample_graph_ok|exact sample_writes_ok]. Defined.

(** ** Seeks *)

Definition seek_schema : list SchemaEntry :=
  [LabelEntry (text "L") (mkLabelDef [text "id"] false ∅ [] []); IndexDefEntry (text "by_v") (mkIndexDef (text "L") [text "v"])].
Definition stored_node (l : bytes) (id : Z) (others : list bytes) (held : list (bytes * Value)) : NodeKey * NodeRecord :=
  (mkNodeKey l [VInt id], mkNodeRecord others (list_to_map held)).
(** 3, 3.0 and true, and a node whose own label is another. *)
Definition seek_nodes : list (NodeKey * NodeRecord) :=
  [stored_node (text "L") 1 [] [(text "v", VInt 3)]; stored_node (text "L") 2 [] [(text "v", VFloat (f64_bits (f64_of_i64 3)))];
   stored_node (text "L") 3 [] [(text "v", VBool true)]; stored_node (text "M") 7 [text "L"] [(text "v", VString (text "a")); (text "id", VInt 1)]].
Definition no_key (k : EdgeKey) : bytes := [].
Definition seek_snapshot : GraphSnapshot := from_records_with_schema no_key seek_nodes [] seek_schema.
Definition seek_node (i : nat) : NodeValue := nth i (gs_nodes seek_snapshot) (mkNodeValue [] [] []).

Lemma seek_schema_ok : NoDup (index_names seek_schema) /\ IndexDefEntry (text "by_v") (mkIndexDef (text "L") [text "v"]) ∈ seek_schema.
Proof. split; [apply NoDup_singleton|right; by left]. Qed.

(** n.v = 3 *)
Lemma index_seek_complete_witness :
  snapshot_by_index seek_snapshot (text "by_v") [text "v"] [CInt 3] = Some [seek_node 0; seek_node 1] /\
  (forall n, n ∈ [seek_node 0; seek_node 1] -> n ∈ gs_nodes seek_snapshot) /\
  (forall n vs, n ∈ gs_nodes seek_snapshot -> text "L" ∈ nv_labels n -> List.map (map_get (nv_properties n)) [text "v"] = List.map Some vs ->
     equal_pins vs [CInt 3] -> n ∈ [seek_node 0; seek_node 1]).
Proof.
  split; [vm_compute; reflexivity|].
  apply (index_seek_complete no_key seek_nodes [] seek_schema (text "by_v") (mkIndexDef (text "L") [text "v"]) [CInt 3]); [apply seek_schema_ok..|]. vm_compute. reflexivity.
Defined.

(** 2.0 < n.v <= 3 *)
Lemma range_seek_complete_witness :
  let lower := Some (CFloat (f64_of_i64 2), false) in let upper := Some (CInt 3, true) in
  snapshot_by_index_range seek_snapshot (text "by_v") (text "v") lower upper = Some [seek_node 0; seek_node 1] /\
  (forall n, n ∈ [seek_node 0; seek_node 1] -> n ∈ gs_nodes seek_snapshot) /\
  (forall n v, n ∈ gs_nodes seek_snapshot -> text "L" ∈ nv_labels n -> map_get (nv_properties n) (text "v") = Some v ->
     stored_value v = true -> above lower v -> below upper v -> n ∈ [seek_node 0; seek_node 1]).
Proof.
  cbv zeta. split; [vm_compute; reflexivity|].
  apply (range_seek_complete no_key seek_nodes [] seek_schema (text "by_v") (mkIndexDef (text "L") [text "v"]) (text "v")); [apply seek_schema_ok..|done|done|done|]. vm_compute. reflexivity.
Defined.

(** n.v > false: the node that holds true is left out, though true > false. *)
Lemma boolean_range_loses :
  snapshot_by_index_range seek_snapshot (text "by_v") (text "v") (Some (CBool false, false)) None = Some [] /\
  text "L" ∈ nv_labels (seek_node 2) /\ map_get (nv_properties (seek_node 2)) (text "v") = Some (CBool true) /\ above (Some (CBool false, false)) (CBool true).
Proof. split; [vm_compute; reflexivity|]. split; [by left|]. split; [vm_compute; reflexivity|]. left. reflexivity. Qed.

(** (n:L {id: 1}): the node whose own label is M is left out, though it bears L and its id is 1. *)
Lemma key_seek_loses :
  snapshot_by_key seek_snapshot (text "L") [CInt 1] = Some [seek_node 0] /\
  seek_node 3 ∈ gs_nodes seek_snapshot /\ text "L" ∈ nv_labels (seek_node 3) /\ map_get (nv_properties (seek_node 3)) (text "id") = Some (CInt 1).
Proof. split; [vm_compute; reflexivity|]. split; [do 3 right; by left|]. split; [right; by left|]. vm_compute. reflexivity. Qed.

(** The two zeros have one encoding. *)
Lemma zeros_encode_alike : encode_index_value (CFloat (S754_zero true)) = encode_index_value (CFloat (S754_zero false)).
Proof. vm_compute. reflexivity. Qed.
